(* ===== verification/_CoqProject ===== *)
-Q . S2P
Prelude.v
Effects.v
Protocol.v
StreamRecord.v
StreamLog.v
StreamQueue.v
StreamSystem.v
StreamDisk.v
StreamCrash.v
Paging.v
Storage.v
StorageQuery.v
Glob.v
Policy.v
Gates.v
Turns.v
Cognition.v
CognitionSafety.v
Delivery.v
Fib.v
Lsa.v
Identity.v
NodeRegion.v
Router.v
RouterSafety.v
RouterCases.v
Connections.v
ConfigRoutes.v
ConfigSafety.v
ConfigRuns.v
ConfigReaders.v
ConfigCases.v
Vault.v
VaultSafety.v
VaultRuns.v
VaultCases.v
VaultNotices.v
WfDef.v
WfStore.v
WfEngine.v
WfNode.v
WfAtomic.v
WfSafety.v
WfInvariant.v
WfCases.v
WfValidate.v
WfLoaded.v
SyTimer.v
SyTimerSafety.v
SyTimerCases.v
SyTimerPages.v
