(* ===== verification/Prelude.v ===== *)
(** * Fluxbee: a verification library

    Fluxbee runs a hive of nodes (agents, I/O channels, system services) on each host.
    The nodes of a hive talk only through its routers, and the hives through one gateway
    router each; the primary hive, [motherbee], is the hub the others connect to. This
    library models the router (src/src/router/) and what it rests on: the message types of
    the SDK (src/crates/fluxbee_sdk/src/), the system policy (src/policy/system.rego) and
    the shared-memory regions (src/src/shm/mod.rs); the two sinks of the routers'
    streams, SY.storage (src/src/bin/sy_storage.rs) and the intake of SY.cognition
    (src/src/bin/sy_cognition.rs); the workflow node (src/go/nodes/wf/wf-generic/node/);
    SY.timer (src/go/sy-timer/); SY.vault (src/src/bin/sy_vault.rs); and SY.config.routes
    (src/src/bin/sy_config_routes.rs).

    ** The parts and the files

    A frame comes on a node's socket, from a sibling router of the hive, or from another
    hive's gateway. The router finds out who sent it, stamps that name on it, resolves its
    destination to local nodes, a sibling router or another hive, passes the VPN and edge
    gates, and either forwards the frame with its time to live reduced or delivers it, at
    which point the system policy decides on protected actions. Copies of what passes go to
    the router's stream, a durable log with at-least-once senders. Routers learn of one
    another's nodes by link-state advertisements (LSA) and by the hub's vouching, and the
    routers of one hive by their shared-memory regions. SY.storage takes the streams'
    batches into its inbox, acks them, and processes them into the turns and the usage
    records of the hives' calls to language models, which SY.admin reads. SY.cognition takes
    the turns of its hive's agents into their communications' last turns, which the router
    puts into the packages it delivers. A workflow node is a client of the router: it runs
    conversations between nodes by a definition, each an instance with its state in the
    node's SQLite store, and asks SY.timer for its timers. SY.timer keeps the timers of its
    hive's nodes in a database, and sends each owner the fires when they come due. SY.vault keeps
    the secrets of all hives, hands a value to the nodes that may read it, and announces changes.
    SY.config.routes keeps a hive's static routes, VPN rules and taps, in a file and in the shared
    memory its routers read them from.

    - [Prelude] (this file): integers at their width, bytes and UTF-8, the [str] methods the
      code uses, sorting by a comparison, and the shared lemmas, tactics and hints.
    - [Effects]: the monad of a process whose calls may fail or be its last, for [Vault] and
      [ConfigRoutes].
    - [Protocol]: messages, metadata and memory packages (protocol.rs, policy.rs of the SDK).
    - [StreamRecord]: a record of the stream on disk (stream.rs: [encode_record],
      [decode_records]).
    - [StreamLog]: the stream's shared state and its operations under the lock (stream.rs:
      [take_incoming], [trim], [plan_batch], [accept_ack]).
    - [StreamQueue]: the bounded queue in front of the disk thread, one atomic operation of
      [StreamHandle::append] at a time, any number of threads.
    - [StreamSystem]: the disk thread and the senders as a step relation, any interleaving
      (stream.rs: [open], [run_disk], [run_sink]).
    - [StreamDisk]: segments, [fsync], [trim], state.json and [recover], over a file system
      whose every call may fail; the disk thread's loop with its file operations.
    - [StreamCrash]: what a restart finds after a crash of the process, or of the host.
    - [Paging]: rows read in order, a page at a time.
    - [Storage]: SY.storage's intake: the checks of a batch's records, [ingest_stream_batch],
      [process_inbox_message], [replay_pending_messages], the purge; its tasks as a step
      relation.
    - [StorageQuery]: [plan_usage_query], [usage_query_page], cursors and readers.
    - [Glob]: name patterns (mod.rs: [wildcard_match], [pattern_match_kind]).
    - [Policy]: the rules of system.rego, and system_policy.rs that asks them.
    - [Gates]: [vpn_allows_between], the edge rules, [assign_vpn].
    - [Turns]: a copied message as a turn of a communication, and a communication's last
      turns (sy_cognition.rs: [recent_turn_of], [push_recent_turn], [merge_recent_turns]).
    - [Cognition]: SY.cognition's intake and worker as a step relation over the held
      communications and their file ([take_stream_batch], [sync_held_state],
      [handle_turn]; state_store.rs), with failed reads and writes and restarts.
    - [CognitionSafety]: what is known of a communication through all of these.
    - [Delivery]: [prepare_local_delivery], memory packages within the frame limit,
      [deliver_locally].
    - [Fib]: [rebuild_fib] and [resolve_by_name].
    - [Lsa]: building, taking and writing LSAs, resolving UUIDs, WAN senders, vouched
      reachability, staleness.
    - [Identity]: [resolve_target_with_identity].
    - [NodeRegion]: a router's region of nodes, its slots and header, the snapshot a sibling
      reads ([register_node], [take_over], [read_router_snapshot], [discover_peer_regions]).
    - [Router]: [handle_message], [handle_wan_message], [handle_peer_message], taps,
      broadcasts and reports, as computations with effects; [handled] is one frame taken.
    - [RouterSafety]: what any handled frame may cause.
    - [RouterCases]: the broadcast cache over time, cases where the handlers part from their
      comments, and the concrete inputs the theorems on the handlers are applied to.
    - [Connections]: [handle_node] as one task among others: HELLO, the claim of a UUID,
      registration, the read loop, WITHDRAW and cleanup; [refresh_config], [reassign_vpns]
      and peer discovery, one lock section at a time.
    - [ConfigRoutes]: SY.config.routes: the configuration, the writer and reader of its region
      (shm/mod.rs: [ConfigRegionWriter], [read_config_snapshot]), the file, the admin actions,
      CONFIG_GET and CONFIG_SET (sy_config_routes.rs, the SDK's node_config.rs); each call of the
      file system, the region and the router may fail or be the process's last ([Fate]).
    - [ConfigSafety]: what each of its operations leaves, whatever its calls come to: memory, file
      and region as one ([agreed]), the edits a message may ask for ([edited]).
    - [ConfigRuns]: the lives of the process ([lived]) and what holds over them.
    - [ConfigReaders]: what a router of [Connections] makes of the region.
    - [ConfigCases]: a change when nothing fails, and the instance the theorems on the
      configuration are applied to.
    - [Vault]: SY.vault's tables, validation, authorization, handlers and notices (sy_vault.rs,
      the SDK's vault.rs), in a monad whose database and router calls each may fail or be the
      process's last ([Fate]).
    - [VaultSafety]: what holds after a computation whatever its calls come to ([wp]), the
      secrets as plain values ([plain]) and the changes a message may ask for ([requested]).
    - [VaultRuns]: what holds over any run of the vault, and who reads and changes a secret.
    - [VaultCases]: runs in which the calls work ([runs]): round trip, announcements.
    - [VaultNotices]: other tenants' keys, the announcements of a start, the edges behind the
      router's gates, and the instance the theorems on the vault are applied to.
    - [WfDef]: a workflow's definition as loaded, references into its scope, who it
      involves, and the names and authorities of dispatch.go (substitute.go, timer.go,
      wfcel's types.go and validate.go).
    - [WfValidate]: the loading of a definition: the checks of its fields, numbers, names,
      menus, references, times, guards and events, each with the errors the code gives
      (wfcel's validate.go and types.go).
    - [WfLoaded]: what a definition that loads guarantees, alone and in a workflow node that
      runs it.
    - [WfStore]: the workflow node's tables, each transaction one function (store.go), and
      what every transaction keeps ([store_ok]).
    - [WfEngine]: an instance's actions, transitions, failure, cancellation and internal
      events (instance.go, actions.go), in a monad over the node's state whose calls each
      may fail, panic or be the process's last ([Answer]).
    - [WfNode]: the registry, journal, creation, delivery, dispatch, the restart with its
      replay and reconciliation of timers, quiet instances and the collection of ended ones
      (correlate.go, dispatch.go, recover.go, idle.go, gc.go, node.go); [reachable_node] is
      any sequence of starts, inputs, crashes and stops.
    - [WfAtomic]: a transition as one transaction.
    - [WfSafety], [WfInvariant]: what holds while an instance is processed, and between
      inputs, of every node reached.
    - [WfCases]: the theorems on the workflow node and a conversation they are applied to.
    - [SyTimer]: SY.timer's rows, requests, fires and start (main.go, scheduler.go,
      persistence.go), each a program of atomic operations ([Prog]); its two goroutines as a
      step relation, any interleaving, with failed calls, crashes and restarts ([timer_step]).
    - [SyTimerSafety]: what each goroutine keeps whatever the other does between its
      operations ([safe]), and what neither forgets ([lets_go]).
    - [SyTimerCases]: the theorems on SY.timer, alone and under the workflow node; runs in
      which all goes well ([TimerRun]).
    - [SyTimerPages]: TIMER_LIST's pages and the SDK's [List] that follows them
      (timer_schedule.go).

    Definitions keep the names of the code. A record is the code's struct, reduced to the
    fields that are read; an [Inductive] its enum.

    ** Conventions

    Strings are their UTF-8 bytes; [u8] to [u64] are [Z], with wrapping and saturation
    written out where the code has them; a UUID is a [Z]; a JSON value is a type parameter
    [V]. A [HashMap] is a [gmap]; where its iteration order shows, the definition takes the
    entries as a list, or iterates in the [gmap]'s order. A section of code under one lock
    is one step, and so is one handler of [Router]: its tables do not change while it runs.
    Logs, metrics and the counters of rejected advertisements are left out. The clock, the
    shared-memory regions and random identifiers are arguments.

    Code outside the repository is a parameter: [Uuid::parse_str] and [to_string], JSON
    (de)serialization, chrono's times, the database's collation and the OPA evaluation. The
    hypotheses made of them are named where they are used: the compiled system policy
    evaluates the rules of system.rego ([wasm_is_rego], [route_is_rego]), serializing a
    message succeeds ([to_vec_total]), as serde_json does on maps with string keys, serde
    reads back what it wrote ([state_roundtrip], [json_roundtrip]), chrono the times it
    wrote ([writable]), text is compared by a total order ([TotalOrder]), a turn that names
    less serializes no longer ([clearing_shortens]), and a UUID drawn is a new one
    ([uuid_unique]). The workflow node's JSON, CEL, clock formats and read-only answers are
    the fields of [Env], the compilers and decoders its definitions are loaded with of [Lang], and SY.timer's, with cron and the time zones, of [TimerEnv]; its UUIDs
    have nothing to trim ([uuid_plain]). SY.config.routes' serde and clock are the fields of [ConfigEnv], and
    its YAML reads back as what was written ([yaml_roundtrip]). SY.vault's AES-256-GCM, SHA-256, serde, clock and nonces are the
    fields of [VaultEnv]: it decrypts what it encrypted and reads back a value it wrote ([VaultLaws]),
    different names have different ILKs, and identity registers a system node's ILK for that
    node alone ([system_ilks_registered]). The file system keeps what was synced, and of what was written after that a prefix
    ([power_cut]); a statement or a transaction of the database happens or fails whole.

    Recursion that is not structural runs on fuel, and the fuel is proved enough:
    [wildcard_match] is total by a measure ([Glob]), [decode_records] consumes bytes at each
    turn ([StreamRecord]), [trim] takes one turn per record ([StreamLog]),
    [serialize_with_package] drops a turn or the package at each turn ([Delivery]), a retry
    pass takes at most twenty selects of two hundred rows ([Storage]) and a reader of pages
    one question per row at most ([StorageQuery], [SyTimerPages]); a drain of internal events is structural
    in the hundred it may run ([WfEngine]).

    ** What the theorems show

    - Handlers (C1 to C3, C36): every delivery is to a connected node that the gates open
      to the sender, under the name the router found, with protected actions only when the
      policy allows; every other frame written is a forward with one hop less, or a
      report; another hive's gateway gets no protected action through; a frame crosses
      fewer links than its time to live.
    - Connections and regions (C8, C9): a node's frames are handled under the UUID and the
      name its connection registered, reserved names are the router's own process's, the
      table, the region and the tasks agree on who is connected.
    - Policy, gates and delivery (C5, C35): the authority table, and the gate of a local
      delivery.
    - Advertisements (C6): no hive redirects another's UUID.
    - Stream (C4, C40): each record is accounted for exactly once per sink, nothing is
      lost but past the window or the size, and torn segments decode to their whole
      records.
    - Disk (C7, C12): with its files the stream refines the stream without them; a restart
      after a crash finds every record still owed.
    - SY.storage (C10, C11, C39): what is acked waits or is stored; what is stored is
      authentic and charged as its producer's role allows; a usage record lands once.
    - SY.cognition (C13): memory and file together are one map that only the turns taken
      and the worker's write-backs change.
    - Workflow node (C14 to C16, C37, C38): whatever the starts, crashes, panics and
      failed calls, an instance sends only to the nodes its definition names, on its own
      thread, and at most eight messages to agents between two triggers; a transition is
      one commit with the event it took, or nothing; only an authorized cancellation, an
      indexed timer's fire or a node of the definition changes anything; the store is
      consistent at any moment.
    - Loaded definitions (C17, C18): through every history of a node that loads its
      definitions as wfcel does, no instance sends to a system node or is driven by one,
      and no agent starts one; an instance is always in a state of its definition, and no
      transition leads out of it.
    - SY.timer (C31 to C34): whatever the interleaving, failures and restarts, only a
      timer a request made is fired, as it was made, to its owner, not before its time, a
      one-shot once and once more per reschedule; a pending one-shot has its entry in the
      heap, unless a read failed; a request touches its sender's timers only.
    - SY.config.routes (C19 to C23): whatever fails and wherever the process dies, memory,
      file and region have one configuration between two messages; a message changes it
      whole or not at all, and only one of the primary SY.admin; a router with the
      region's version enforces the file's configuration, in whatever order its tasks took
      the snapshots; when the calls work, a change asked for is made and answered, or
      refused.
    - SY.vault (C24 to C30): whatever fails and wherever the process dies, a value goes
      only to a node that may read it, the secrets change only as an administrator or
      their owner asks, each change with its audit row, and a restricted secret stays so;
      when the calls work, a value put is read back, a change is announced to all who had
      or have the secret, and another tenant's key is answered like a missing one.

    Other results carry no claim number: siblings see a node that registered, advertised
    routes stay in their hive, what a voucher gives, the front desk, no forged memory
    package, the retry of the inbox, the region of nodes as a map, exact batches, seqs given
    once, records taken once, turns lost only to newer ones, the bounds of a communication,
    what a resolved name rests on, broadcasts taken once in half a minute, which times and references of a
    workflow node SY.timer takes and gives back, complete lists of timers, glob matching,
    what may reach an edge node, a WAN sender bound to its session, readers of the usage records that miss
    nothing, the bounds of a definition's times, the edges a secret's change is told to, the secrets a
    start announces, the queue of the stream and its draining, a power cut, one
    running instance per thread, and events without a message. Some theorems, in [RouterCases], [Connections], [Fib], [Glob],
    [StreamCrash], [Storage], [CognitionSafety], [SyTimerCases], [SyTimerPages],
    [ConfigCases] and [VaultNotices], show where the code does not do what a
    comment or its own other half says.

    ** What is not modelled, and what comes next

    Not modelled: sockets, TLS, shared-memory mapping; the wasm runtime; what SY.cognition's
    worker derives with a language model (any value in the model); the other services of
    src/src/bin/, the other nodes, the AI SDK and the rest of the Go half of the system
    (SY.wf-rules, the rest of the SDK), which are clients of the router. Of the workflow node,
    the log of an instance, the trace notes of its sends and the payloads of the verbs that
    only read are left out; the collection of ended instances runs between two inputs, and
    the clock does not move within one. Of SY.timer, the verbs that only convert times are
    parameters; its times are in milliseconds and its clock does not go back. Of SY.vault, the files of its start (the
    lock, the master key, the schema) and a stored row whose JSON does not read are left out. Of SY.config.routes, its UUID, its socket and the
    layout of its region are left out, and the region's sequence number is its parity. Next: WAN admission and the retry of the uplink; delivery
    across several routers as one system, for liveness of resolved names; SY.orchestrator's and SY.identity's state. *)











From Stdlib Require Import ZArith Lia Ascii String Strings.Byte.
From stdpp Require Import base list gmap strings fin_maps sorting.
Open Scope Z_scope.

(** ** Scopes, hint databases and tactics *)

Declare Scope rust_scope.
Delimit Scope rust_scope with rust.
Open Scope rust_scope.

Create HintDb rust.

(** String equality as the boolean the Rust [==] returns. *)
Notation "a =s b" := (String.eqb a b) (at level 70, no associativity) : rust_scope.

(** Case analysis on the booleans of the code: turns every decided test in the
    context into the proposition it decides. *)
Ltac reflect_bools :=
  repeat match goal with
  | H : (_ && _)%bool = true |- _ => apply andb_true_iff in H; destruct H
  | H : (_ || _)%bool = false |- _ => apply orb_false_iff in H; destruct H
  | H : negb _ = true |- _ => apply negb_true_iff in H
  | H : negb _ = false |- _ => apply negb_false_iff in H
  | H : String.eqb _ _ = true |- _ => apply String.eqb_eq in H
  | H : String.eqb _ _ = false |- _ => apply String.eqb_neq in H
  | H : Z.eqb _ _ = true |- _ => apply Z.eqb_eq in H
  | H : Z.eqb _ _ = false |- _ => apply Z.eqb_neq in H
  | H : Z.leb _ _ = true |- _ => apply Z.leb_le in H
  | H : Z.leb _ _ = false |- _ => apply Z.leb_gt in H
  | H : Z.ltb _ _ = true |- _ => apply Z.ltb_lt in H
  | H : Z.ltb _ _ = false |- _ => apply Z.ltb_ge in H
  | H : bool_decide _ = true |- _ => apply bool_decide_eq_true in H
  | H : bool_decide _ = false |- _ => apply bool_decide_eq_false in H
  end.

(** Split the goal on the innermost test of an [if] or [match], keeping its equation. *)
Ltac case_test :=
  match goal with
  | |- context [if ?b then _ else _] => destruct b eqn:?
  | |- context [match ?x with _ => _ end] => destruct x eqn:?
  end.

(** ** Machine integers

    [u64] values are kept in [Z]; the operations that matter at the width are
    written out here. *)

Definition u64_max : Z := 2 ^ 64 - 1.

Definition wrap64 (z : Z) : Z := z mod 2 ^ 64.

Definition saturating_sub (a b : Z) : Z := Z.max 0 (a - b).

Definition saturating_add64 (a b : Z) : Z := Z.min u64_max (a + b).

Definition saturating_mul64 (a b : Z) : Z := Z.min u64_max (a * b).

(** ** Bytes: big-endian integers *)

#[global] Abbreviation byte := Byte.byte (only parsing).

Definition Z_of_byte (b : byte) : Z := Z.of_N (Byte.to_N b).

Definition byte_of_Z (z : Z) : byte :=
  match Byte.of_N (Z.to_N (z mod 256)) with Some b => b | None => Byte.x00 end.

(** [to_be_bytes] of an unsigned integer of [n] bytes. *)
Fixpoint to_be (n : nat) (z : Z) : list byte :=
  match n with
  | O => []
  | S k => byte_of_Z (z / 256 ^ Z.of_nat k) :: to_be k z
  end.

(** [from_be_bytes]. *)
Definition from_be (bs : list byte) : Z :=
  fold_left (fun acc b => acc * 256 + Z_of_byte b) bs 0.

(** [slice.get(a..a + n)]: the [n] bytes at [a], or nothing when they are not all there. *)
Definition get_range (bs : list byte) (a : nat) (n : Z) : option (list byte) :=
  if Z.of_nat a + n <=? Z.of_nat (length bs) then Some (take (Z.to_nat n) (drop a bs)) else None.

(** ** UTF-8: [std::str::from_utf8] *)

Definition in_range (lo hi : Z) (b : byte) : bool :=
  (lo <=? Z_of_byte b) && (Z_of_byte b <=? hi).

Definition is_cont (b : byte) : bool := in_range 128 191 b.

(** The well-formed byte sequences of the Unicode standard (table 3-7), which are
    the ones [from_utf8] accepts. *)
Fixpoint utf8_ok (bs : list byte) : bool :=
  match bs with
  | [] => true
  | b0 :: r0 =>
    if in_range 0 127 b0 then utf8_ok r0
    else match r0 with
    | [] => false
    | b1 :: r1 =>
      if in_range 194 223 b0 then is_cont b1 && utf8_ok r1
      else match r1 with
      | [] => false
      | b2 :: r2 =>
        if in_range 224 239 b0 then
          (if in_range 224 224 b0 then in_range 160 191 b1
           else if in_range 237 237 b0 then in_range 128 159 b1
           else is_cont b1) && is_cont b2 && utf8_ok r2
        else match r2 with
        | [] => false
        | b3 :: r3 =>
          in_range 240 244 b0 &&
          (if in_range 240 240 b0 then in_range 144 191 b1
           else if in_range 244 244 b0 then in_range 128 143 b1
           else is_cont b1) && is_cont b2 && is_cont b3 && utf8_ok r3
        end
      end
    end
  end.

Definition as_bytes (s : string) : list byte := list_byte_of_string s.

Definition from_utf8 (bs : list byte) : option string :=
  if utf8_ok bs then Some (string_of_list_byte bs) else None.

(** A Rust [str]: its bytes are well-formed UTF-8. *)
Definition is_str (s : string) : Prop := utf8_ok (as_bytes s) = true.

(** ** Strings: the [str] methods the code uses *)

(** [s.split_once(c)] for an ASCII [c]: the text around its first occurrence. *)
Fixpoint split_once (c : ascii) (s : string) : option (string * string) :=
  match s with
  | EmptyString => None
  | String a r =>
    if Ascii.eqb a c then Some (EmptyString, r)
    else match split_once c r with
         | Some (l, r') => Some (String a l, r')
         | None => None
         end
  end.

(** [s.rsplit_once(c)]: the text around its last occurrence. *)
Fixpoint rsplit_once (c : ascii) (s : string) : option (string * string) :=
  match s with
  | EmptyString => None
  | String a r =>
    match rsplit_once c r with
    | Some (l, r') => Some (String a l, r')
    | None => if Ascii.eqb a c then Some (EmptyString, r) else None
    end
  end.

Fixpoint starts_with (s p : string) : bool :=
  match p, s with
  | EmptyString, _ => true
  | String b p', String a s' => Ascii.eqb a b && starts_with s' p'
  | String _ _, EmptyString => false
  end.

(** [s.strip_prefix(p)]. *)
Fixpoint strip_prefix (p s : string) : option string :=
  match p, s with
  | EmptyString, _ => Some s
  | String b p', String a s' => if Ascii.eqb a b then strip_prefix p' s' else None
  | String _ _, EmptyString => None
  end.

(** [s.strip_suffix(p)]. *)
Fixpoint strip_suffix (p s : string) : option string :=
  if s =s p then Some EmptyString
  else match s with
       | EmptyString => None
       | String a r =>
         match strip_suffix p r with Some l => Some (String a l) | None => None end
       end.

Definition ends_with (s p : string) : bool :=
  match strip_suffix p s with Some _ => true | None => false end.

Fixpoint str_contains (s : string) (c : ascii) : bool :=
  match s with
  | EmptyString => false
  | String a r => Ascii.eqb a c || str_contains r c
  end.

Definition str_is_empty (s : string) : bool :=
  match s with EmptyString => true | _ => false end.

(** [s.trim_end_matches(p)]: drops [p] from the end as long as it is there. *)
Fixpoint trim_end_matches_fuel (n : nat) (p s : string) : string :=
  match n with
  | O => s
  | S k => match strip_suffix p s with
           | Some l => trim_end_matches_fuel k p l
           | None => s
           end
  end.

Definition trim_end_matches (p s : string) : string :=
  trim_end_matches_fuel (String.length s) p s.

Definition ascii_lower (a : ascii) : ascii :=
  let n := N_of_ascii a in
  if (N.leb 65 n && N.leb n 90)%bool then ascii_of_N (n + 32) else a.

Definition ascii_upper (a : ascii) : ascii :=
  let n := N_of_ascii a in
  if (N.leb 97 n && N.leb n 122)%bool then ascii_of_N (n - 32) else a.

Fixpoint str_map (f : ascii -> ascii) (s : string) : string :=
  match s with
  | EmptyString => EmptyString
  | String a r => String (f a) (str_map f r)
  end.

Definition to_ascii_lowercase (s : string) : string := str_map ascii_lower s.

Definition to_ascii_uppercase (s : string) : string := str_map ascii_upper s.

Definition eq_ignore_ascii_case (a b : string) : bool :=
  to_ascii_lowercase a =s to_ascii_lowercase b.

(** *** [str::trim]

    White space is the Unicode property [White_Space]; the multi-byte code points
    are spelled as their UTF-8 bytes. *)

Definition ascii_is (n : N) (a : ascii) : bool := N.eqb (N_of_ascii a) n.

Definition ascii_between (lo hi : N) (a : ascii) : bool :=
  (N.leb lo (N_of_ascii a) && N.leb (N_of_ascii a) hi)%bool.

Definition ascii_ws (a : ascii) : bool := ascii_between 9 13 a || ascii_is 32 a.

Definition ws2 (a b : ascii) : bool :=
  ascii_is 194 a && (ascii_is 133 b || ascii_is 160 b).

Definition ws3 (a b c : ascii) : bool :=
  (ascii_is 225 a && ascii_is 154 b && ascii_is 128 c)
  || (ascii_is 226 a && ascii_is 128 b
      && (ascii_between 128 138 c || ascii_is 168 c || ascii_is 169 c || ascii_is 175 c))
  || (ascii_is 226 a && ascii_is 129 b && ascii_is 159 c)
  || (ascii_is 227 a && ascii_is 128 b && ascii_is 128 c).

(** The text without its leading white space. *)
Fixpoint trim_start (s : string) : string :=
  match s with
  | EmptyString => s
  | String a r =>
    if ascii_ws a then trim_start r
    else match r with
    | EmptyString => s
    | String b r1 =>
      if ws2 a b then trim_start r1
      else match r1 with
      | EmptyString => s
      | String c r2 => if ws3 a b c then trim_start r2 else s
      end
    end
  end.

(** The same from the end; the argument holds the bytes in reverse. *)
Fixpoint trim_rev (l : list ascii) : list ascii :=
  match l with
  | [] => l
  | a :: r =>
    if ascii_ws a then trim_rev r
    else match r with
    | [] => l
    | b :: r1 =>
      if ws2 b a then trim_rev r1
      else match r1 with
      | [] => l
      | c :: r2 => if ws3 c b a then trim_rev r2 else l
      end
    end
  end.

Definition trim_end (s : string) : string :=
  string_of_list_ascii (rev (trim_rev (rev (list_ascii_of_string s)))).

Definition trim (s : string) : string := trim_end (trim_start s).

(** [s.get(..n)]: the first [n] bytes when they end at a character boundary. *)
Definition get_prefix (n : nat) (s : string) : option string :=
  if bool_decide (String.length s < n)%nat then None
  else match String.get n s with
       | Some c => if ascii_between 128 191 c then None else Some (String.substring 0 n s)
       | None => Some (String.substring 0 n s)
       end.

Definition str_mem (s : string) (l : list string) : bool :=
  existsb (fun x => x =s s) l.

(** [Vec::dedup]: of equal neighbours the first stays. *)
Fixpoint dedup (l : list string) : list string :=
  match l with
  | [] => []
  | a :: rest => match dedup rest with
                 | (b :: _) as d => if a =s b then d else a :: d
                 | [] => [a]
                 end
  end.

(** The value an option of a map or a message stands for when it is missing. *)
Definition unwrap_or {A} (d : A) (o : option A) : A :=
  match o with Some x => x | None => d end.

Definition opt_str_is (o : option string) (s : string) : bool :=
  match o with Some x => x =s s | None => false end.

(** ** Lemmas: membership *)

Lemma elem_of_dedup s l : s ∈ dedup l <-> s ∈ l.
Proof.
  induction l as [|a l IH]; [done|]. cbn. rewrite elem_of_cons, <- IH.
  destruct (dedup l) as [|b d]; [by rewrite elem_of_cons|].
  destruct (String.eqb_spec a b) as [->|_]; rewrite !elem_of_cons; tauto.
Qed.

Lemma str_mem_iff s l : str_mem s l = true <-> s ∈ l.
Proof.
  unfold str_mem. rewrite existsb_exists. split.
  - intros (x & Hin & ->%String.eqb_eq). by apply list_elem_of_In.
  - intros H. exists s. split; [by apply list_elem_of_In|apply String.eqb_refl].
Qed.

Lemma str_mem_false s l : str_mem s l = false <-> s ∉ l.
Proof. rewrite <- str_mem_iff. by destruct (str_mem s l). Qed.

(** ** Lemmas: integers and bytes *)

Lemma Z_of_byte_range b : 0 <= Z_of_byte b < 256.
Proof. unfold Z_of_byte. pose proof (Byte.to_N_bounded b). lia. Qed.

Lemma byte_of_Z_of_byte b : byte_of_Z (Z_of_byte b) = b.
Proof.
  unfold byte_of_Z. pose proof (Z_of_byte_range b).
  rewrite Z.mod_small by lia. unfold Z_of_byte. rewrite N2Z.id, Byte.of_to_N. done.
Qed.

Lemma Z_of_byte_of_Z z : Z_of_byte (byte_of_Z z) = z mod 256.
Proof.
  unfold byte_of_Z. pose proof (Z.mod_pos_bound z 256 ltac:(lia)) as Hb.
  destruct (Byte.of_N _) as [b|] eqn:E.
  - apply Byte.to_of_N in E. unfold Z_of_byte. rewrite E. lia.
  - apply Byte.of_N_None_iff in E. lia.
Qed.

Lemma length_to_be n z : length (to_be n z) = n.
Proof. induction n; simpl; congruence. Qed.

Lemma from_be_acc bs acc :
  fold_left (fun a b => a * 256 + Z_of_byte b) bs acc
  = acc * 256 ^ Z.of_nat (length bs) + from_be bs.
Proof.
  unfold from_be. revert acc. induction bs as [|b bs IH]; intros acc; cbn [fold_left length].
  - simpl. lia.
  - rewrite IH, (IH (0 * 256 + _)), Nat2Z.inj_succ, Z.pow_succ_r by lia. ring.
Qed.

Lemma from_be_cons b bs :
  from_be (b :: bs) = Z_of_byte b * 256 ^ Z.of_nat (length bs) + from_be bs.
Proof. unfold from_be at 1. cbn [fold_left]. rewrite from_be_acc. ring. Qed.

Lemma from_be_range bs : 0 <= from_be bs < 256 ^ Z.of_nat (length bs).
Proof.
  induction bs as [|b bs IH]; [simpl; unfold from_be; simpl; lia|].
  rewrite from_be_cons. cbn [length]. rewrite Nat2Z.inj_succ, Z.pow_succ_r by lia.
  pose proof (Z_of_byte_range b). nia.
Qed.

Lemma to_be_mod n z : to_be n z = to_be n (z mod 256 ^ Z.of_nat n).
Proof.
  revert z. induction n as [|n IH]; intros z; cbn [to_be]; [done|].
  assert (0 < 256 ^ Z.of_nat n) by (apply Z.pow_pos_nonneg; lia).
  rewrite Nat2Z.inj_succ, Z.pow_succ_r by lia. f_equal.
  - unfold byte_of_Z. do 2 f_equal.
    rewrite (Z.mul_comm 256), Z.rem_mul_r by lia.
    rewrite (Z.mul_comm (256 ^ Z.of_nat n)), Z.div_add by lia.
    rewrite (Z.div_small (z mod _)) by (apply Z.mod_pos_bound; lia).
    rewrite Z.add_0_l, Z.mod_mod by lia. done.
  - rewrite (IH z), (IH (z mod (256 * _))). f_equal.
    rewrite Z.mul_comm, Z.rem_mul_r, (Z.mul_comm (256 ^ _)), Z.mod_add, Z.mod_mod by lia. done.
Qed.

Lemma from_be_to_be n z : 0 <= z < 256 ^ Z.of_nat n -> from_be (to_be n z) = z.
Proof.
  revert z. induction n as [|n IH]; intros z Hz.
  - simpl in *. unfold from_be. simpl. lia.
  - cbn [to_be]. rewrite from_be_cons, length_to_be, to_be_mod, Z_of_byte_of_Z.
    assert (0 < 256 ^ Z.of_nat n) by (apply Z.pow_pos_nonneg; lia).
    rewrite Nat2Z.inj_succ, Z.pow_succ_r in Hz by lia.
    rewrite IH by (apply Z.mod_pos_bound; lia).
    rewrite (Z.mod_small (z / _)).
    + pose proof (Z.div_mod z (256 ^ Z.of_nat n)). lia.
    + split; [apply Z.div_pos; lia|]. apply Z.div_lt_upper_bound; lia.
Qed.

Lemma to_be_from_be bs : to_be (length bs) (from_be bs) = bs.
Proof.
  induction bs as [|b bs IH]; [done|]. cbn [length to_be].
  pose proof (from_be_range bs).
  assert (0 < 256 ^ Z.of_nat (length bs)) by (apply Z.pow_pos_nonneg; lia).
  rewrite from_be_cons. f_equal.
  - rewrite Z.div_add_l, (Z.div_small (from_be bs)), Z.add_0_r by lia. apply byte_of_Z_of_byte.
  - rewrite to_be_mod, Z.add_comm, Z.mod_add, Z.mod_small by lia. done.
Qed.

Lemma to_be_from_be_len n bs : length bs = n -> to_be n (from_be bs) = bs.
Proof. intros <-. apply to_be_from_be. Qed.

Lemma as_bytes_inj s t : as_bytes s = as_bytes t -> s = t.
Proof.
  intros H. rewrite <- (string_of_list_byte_of_string s), <- (string_of_list_byte_of_string t).
  unfold as_bytes in H. by rewrite H.
Qed.

Lemma as_bytes_string_of bs : as_bytes (string_of_list_byte bs) = bs.
Proof. apply list_byte_of_string_of_list_byte. Qed.

Lemma length_as_bytes s : length (as_bytes s) = String.length s.
Proof.
  unfold as_bytes, list_byte_of_string. rewrite length_map.
  induction s; simpl; congruence.
Qed.

Lemma from_utf8_as_bytes s : is_str s -> from_utf8 (as_bytes s) = Some s.
Proof.
  unfold is_str, from_utf8. intros ->. unfold as_bytes.
  by rewrite string_of_list_byte_of_string.
Qed.

Lemma from_utf8_Some bs s : from_utf8 bs = Some s -> as_bytes s = bs /\ is_str s.
Proof.
  unfold from_utf8, is_str. destruct (utf8_ok bs) eqn:E; [|done].
  intros [= <-]. rewrite as_bytes_string_of. done.
Qed.

(** ** Lemmas: [trim] *)

(** A reversed text that does not end in white space. *)
Definition trimmed_rev (l : list ascii) : Prop :=
  match l with
  | [] => True
  | a :: r => ascii_ws a = false /\
    match r with
    | [] => True
    | b :: r1 => ws2 b a = false /\ match r1 with [] => True | c :: _ => ws3 c b a = false end
    end
  end.

Lemma trim_rev_trimmed : forall l, trimmed_rev (trim_rev l).
Proof.
  fix IH 1. intros [|a r]; [done|]. cbn [trim_rev]. destruct (ascii_ws a) eqn:E1; [apply IH|].
  destruct r as [|b r1]; [by cbn|]. destruct (ws2 b a) eqn:E2; [apply IH|].
  destruct r1 as [|c r2]; [by cbn|]. destruct (ws3 c b a) eqn:E3; [apply IH|by cbn].
Qed.

Lemma trim_rev_id l : trimmed_rev l -> trim_rev l = l.
Proof.
  destruct l as [|a r]; [done|]. cbn. intros [-> H]. destruct r as [|b r1]; [done|].
  destruct H as [-> H]. destruct r1 as [|c r2]; [done|]. by rewrite H.
Qed.

(** Printable ASCII: neither white space nor part of a multi-byte one. *)
Definition graphic (a : ascii) : bool := ascii_between 33 126 a.

Lemma graphic_plain a : graphic a = true ->
  ascii_ws a = false /\ (forall b, ws2 a b = false) /\ (forall b, ws2 b a = false) /\
  (forall b c, ws3 a b c = false) /\ (forall b c, ws3 b a c = false) /\ (forall b c, ws3 b c a = false).
Proof.
  unfold graphic, ascii_ws, ws2, ws3, ascii_between, ascii_is.
  rewrite andb_true_iff, !N.leb_le. intros [H1 H2]. set (n := N_of_ascii a) in *.
  assert (forall k, (k < 33 \/ 126 < k)%N -> N.eqb n k = false) as Hn by (intros k Hk; apply N.eqb_neq; lia).
  split_and!; intros; rewrite ?Hn by lia.
  - destruct (N.leb_spec n 13); [lia|]. by rewrite andb_false_r.
  - done.
  - by rewrite andb_false_r.
  - done.
  - by rewrite !andb_false_r.
  - destruct (N.leb_spec 128 n); [lia|]. by rewrite !andb_false_r.
Qed.

(** Trimming the end stops at a printable byte, whatever is before it. *)
Lemma trim_rev_before x p : graphic x = true -> forall l, trim_rev (l ++ x :: p) = (trim_rev l ++ x :: p)%list.
Proof.
  intros (X1 & X2 & X3 & X4 & X5 & X6)%graphic_plain l.
  induction l as [l IH] using (well_founded_induction (Wf_nat.well_founded_ltof _ (@length ascii))). unfold Wf_nat.ltof in IH.
  destruct l as [|a [|b [|c l]]]; cbn [trim_rev app].
  - rewrite X1. destruct p as [|y [|z p]]; [done|by rewrite X3|by rewrite X3, X6].
  - destruct (ascii_ws a); [by apply (IH []); cbn; lia|]. rewrite X2. destruct p as [|y p]; [done|by rewrite X5].
  - destruct (ascii_ws a); [by apply (IH [b]); cbn; lia|].
    destruct (ws2 b a); [by apply (IH []); cbn; lia|by rewrite X4].
  - destruct (ascii_ws a); [by apply (IH (b :: c :: l)); cbn; lia|].
    destruct (ws2 b a); [by apply (IH (c :: l)); cbn; lia|]. destruct (ws3 c b a); [by apply IH; cbn; lia|done].
Qed.

Lemma trimmed_rev_app l p : trimmed_rev l -> Forall (fun a => graphic a = true) p -> trimmed_rev (l ++ p).
Proof.
  intros Hl Hp. destruct l as [|a [|b [|c l]]]; cbn in *; [|destruct p as [|x [|y p]]..|]; try tauto.
  - destruct p as [|x [|y [|z p]]]; cbn; try done;
      repeat match goal with H : Forall _ (_ :: _) |- _ => apply Forall_cons in H as [?%graphic_plain H] end;
      naive_solver.
  - apply Forall_cons in Hp as [Hx%graphic_plain _]. naive_solver.
  - apply Forall_cons in Hp as [Hx%graphic_plain Hp]. apply Forall_cons in Hp as [Hy%graphic_plain _].
    naive_solver.
  - apply Forall_cons in Hp as [Hx%graphic_plain _]. naive_solver.
  - apply Forall_cons in Hp as [Hx%graphic_plain _]. naive_solver.
Qed.

Lemma list_ascii_app (a b : string) :
  list_ascii_of_string (a ++ b) = (list_ascii_of_string a ++ list_ascii_of_string b)%list.
Proof.
  induction a as [|c a IH]; [done|].
  change (c :: list_ascii_of_string (a ++ b) = (c :: list_ascii_of_string a ++ list_ascii_of_string b))%list.
  by f_equal.
Qed.

Definition graphic_str (p : string) : Prop := Forall (fun a => graphic a = true) (list_ascii_of_string p).

(** Trimming what was already trimmed, behind a printable prefix, changes nothing. *)
Lemma trim_prefixed p v : p <> EmptyString -> graphic_str p -> trim (p ++ trim v) = (p ++ trim v)%string.
Proof.
  intros Hne Hp. unfold trim at 1.
  assert (trim_start (p ++ trim v) = (p ++ trim v)%string) as ->.
  { destruct p as [|a p]; [done|]. apply Forall_cons in Hp as [(H1 & H2 & _ & H4 & _)%graphic_plain _].
    change ((String a p ++ trim v)%string) with (String a (p ++ trim v)).
    cbn [trim_start]. rewrite H1. destruct (p ++ trim v)%string as [|b [|c r]]; [done| |]; rewrite H2; [done|by rewrite H4]. }
  unfold trim_end. rewrite list_ascii_app, rev_app_distr.
  rewrite trim_rev_id.
  - by rewrite <- rev_app_distr, rev_involutive, <- list_ascii_app, string_of_list_ascii_of_string.
  - apply trimmed_rev_app; [|by apply Forall_rev]. unfold trim, trim_end.
    rewrite list_ascii_of_string_of_list_ascii, rev_involutive. apply trim_rev_trimmed.
Qed.

Lemma trim_end_twice s : trim_end (trim_end s) = trim_end s.
Proof.
  unfold trim_end. rewrite list_ascii_of_string_of_list_ascii, rev_involutive. by rewrite (trim_rev_id (trim_rev _)) by apply trim_rev_trimmed.
Qed.

(** ** [slice::sort_by]

    A stable sort: an element goes before the first later one it is not greater than.
    [cmp] is the comparison the code gives. *)

Section Sorting.
Context {A : Type} (cmp : A -> A -> comparison).

Fixpoint insert_sorted (x : A) (l : list A) : list A :=
  match l with
  | [] => [x]
  | y :: r => match cmp x y with Gt => y :: insert_sorted x r | _ => x :: l end
  end.

Definition sort_by (l : list A) : list A := foldr insert_sorted [] l.

Lemma insert_sorted_perm x l : insert_sorted x l ≡ₚ x :: l.
Proof.
  induction l as [|y r IH]; [done|]. cbn. destruct (cmp x y); try done.
  rewrite IH. apply Permutation_swap.
Qed.

Lemma sort_by_perm l : sort_by l ≡ₚ l.
Proof. induction l as [|x l IH]; [done|]. cbn. by rewrite insert_sorted_perm, IH. Qed.

Lemma elem_of_sort_by x l : x ∈ sort_by l <-> x ∈ l.
Proof. by rewrite sort_by_perm. Qed.

(** What a comparison has to be for the sort to mean anything. *)
Class TotalPreorder : Prop := {
  cmp_antisym : forall x y, cmp y x = CompOpp (cmp x y);
  cmp_trans : forall x y z, cmp x y <> Gt -> cmp y z <> Gt -> cmp x z <> Gt }.

Definition not_after (x y : A) : Prop := cmp x y <> Gt.

Context `{Hcmp : !TotalPreorder}.

Lemma not_gt_flip x y : cmp x y = Gt -> not_after y x.
Proof. unfold not_after. rewrite (cmp_antisym x y). by intros ->. Qed.

Lemma insert_sorted_sorted x l : StronglySorted not_after l -> StronglySorted not_after (insert_sorted x l).
Proof.
  induction 1 as [|y r Hr IH Hy]; [repeat constructor|]. cbn.
  destruct (cmp x y) eqn:E.
  1, 2: constructor; [by constructor|]; constructor; [unfold not_after; by rewrite E|];
    eapply Forall_impl; [exact Hy|]; intros z Hz; eapply cmp_trans; [|exact Hz]; by rewrite E.
  constructor; [done|]. rewrite insert_sorted_perm. constructor; [by apply not_gt_flip|done].
Qed.

Lemma sort_by_sorted l : StronglySorted not_after (sort_by l).
Proof. induction l as [|x l IH]; [constructor|]. by apply insert_sorted_sorted. Qed.

Lemma gt_le_trans x y z : cmp x z = Gt -> cmp y z <> Gt -> cmp x y = Gt.
Proof.
  intros Hxz Hyz. destruct (cmp x y) eqn:E; [exfalso..|done];
    apply (cmp_trans x y z); rewrite ?E; done.
Qed.

(** The first match after an insertion into a sorted list. *)
Lemma find_insert_sorted (P : A -> bool) a l : StronglySorted not_after l ->
  List.find P (insert_sorted a l)
  = if P a then match List.find P l with
                | Some x => match cmp a x with Gt => Some x | _ => Some a end
                | None => Some a
                end
    else List.find P l.
Proof.
  induction 1 as [|y r Hr IH Hy]; cbn; [by destruct (P a)|].
  destruct (cmp a y) eqn:E; cbn; [destruct (P a) eqn:Ea; [|done]..|].
  - destruct (P y); [by rewrite E|]. destruct (List.find P r) as [x|] eqn:Ex; [|done].
    apply find_some in Ex as [Hin%list_elem_of_In _]. rewrite Forall_forall in Hy.
    destruct (cmp a x) eqn:Eax; try done. exfalso.
    by rewrite (gt_le_trans a y x Eax (Hy x Hin)) in E.
  - destruct (P y); [by rewrite E|]. destruct (List.find P r) as [x|] eqn:Ex; [|done].
    apply find_some in Ex as [Hin%list_elem_of_In _]. rewrite Forall_forall in Hy.
    destruct (cmp a x) eqn:Eax; try done. exfalso.
    by rewrite (gt_le_trans a y x Eax (Hy x Hin)) in E.
  - destruct (P y); [rewrite E; by destruct (P a)|]. apply IH.
Qed.

(** What a scan of a stably sorted list finds: a match that no other match precedes
    in the order, and the first among its equals. *)
Lemma find_sort_by (P : A -> bool) l :
  match List.find P (sort_by l) with
  | None => Forall (fun y => P y = false) l
  | Some x => P x = true /\ exists l1 l2, l = l1 ++ x :: l2 /\
      Forall (fun y => P y = true -> cmp y x = Gt) l1 /\
      Forall (fun y => P y = true -> cmp x y <> Gt) l2
  end.
Proof.
  induction l as [|a l IH]; [by cbn|]. change (sort_by (a :: l)) with (insert_sorted a (sort_by l)).
  rewrite find_insert_sorted by apply sort_by_sorted.
  destruct (P a) eqn:Ea.
  2: { destruct (List.find P (sort_by l)) as [x|]; [|by constructor].
       destruct IH as (Hx & l1 & l2 & -> & H1 & H2). split; [done|]. exists (a :: l1), l2.
       split; [done|]. split; [constructor; [by rewrite Ea|done]|done]. }
  destruct (List.find P (sort_by l)) as [x|].
  2: { split; [done|]. exists [], l. split; [done|]. split; [constructor|].
       eapply Forall_impl; [exact IH|]. intros y Hy. by rewrite Hy. }
  destruct IH as (Hx & l1 & l2 & -> & H1 & H2). destruct (cmp a x) eqn:Eax.
  3: { split; [done|]. exists (a :: l1), l2. split; [done|]. split; [by constructor|done]. }
  all: split; [done|]; exists [], (l1 ++ x :: l2); split; [done|]; split; [constructor|].
  all: apply Forall_app; split; [|constructor; [by rewrite Eax|]].
  1, 3: eapply Forall_impl; [exact H1|]; intros y Hy Py; specialize (Hy Py); simpl in Hy;
    apply (cmp_trans a x y); [by rewrite Eax|by apply not_gt_flip].
  all: eapply Forall_impl; [exact H2|]; intros y Hy Py; eapply cmp_trans; [|exact (Hy Py)]; by rewrite Eax.
Qed.

End Sorting.

(** Sorting what a function gives is sorting by what it gives. *)
Lemma sort_by_map {A B} (f : A -> B) cmp cmp' l : (forall a b, cmp (f a) (f b) = cmp' a b) ->
  sort_by cmp (map f l) = map f (sort_by cmp' l).
Proof.
  intros H. assert (insert : forall x r, insert_sorted cmp (f x) (map f r) = map f (insert_sorted cmp' x r)).
  { intros x r. induction r as [|y r IH]; [done|]. cbn. rewrite H, IH. by destruct (cmp' x y). }
  induction l as [|x l IH]; [done|]. cbn [map]. change (sort_by cmp (f x :: map f l)) with
    (insert_sorted cmp (f x) (sort_by cmp (map f l))). by rewrite IH, insert.
Qed.

(** [Ord::cmp] followed by [then_with]. *)
Definition then_with (c d : comparison) : comparison := match c with Eq => d | _ => c end.

Lemma then_with_gt c d : then_with c d = Gt <-> c = Gt \/ (c = Eq /\ d = Gt).
Proof. destruct c; naive_solver. Qed.

(** A filter after a weaker one. *)
Lemma filter_filter_impl {A} (f g : A -> bool) (l : list A) : (forall x, f x = true -> g x = true) ->
  List.filter f (List.filter g l) = List.filter f l.
Proof.
  intros H. induction l as [|x l IH]; cbn; [done|]. specialize (H x).
  destruct (g x); cbn; [by rewrite IH|]. destruct (f x); [naive_solver|done].
Qed.

(** An element of a filtered list, and what surrounds it, in the list itself. *)
Lemma filter_split {A} (f : A -> bool) (l f1 : list A) e f2 :
  List.filter f l = f1 ++ e :: f2 ->
  exists l1 l2, l = l1 ++ e :: l2 /\ List.filter f l1 = f1 /\ List.filter f l2 = f2 /\ f e = true.
Proof.
  revert f1. induction l as [|x l IH]; intros f1; cbn; [by destruct f1|].
  destruct (f x) eqn:E.
  - destruct f1 as [|y f1]; cbn.
    + intros [= -> <-]. by exists [], l.
    + intros [= -> (l1 & l2 & -> & <- & <- & He)%IH]. exists (y :: l1), l2. cbn. by rewrite E.
  - intros (l1 & l2 & -> & <- & <- & He)%IH. exists (x :: l1), l2. cbn. by rewrite E.
Qed.

Lemma Forall2_in_r {A B} (R : A -> B -> Prop) l k y :
  Forall2 R l k -> y ∈ k -> exists x, x ∈ l /\ R x y.
Proof.
  induction 1 as [|a b l k HR _ IH]; [by intros ?%elem_of_nil|].
  intros [->|Hin]%elem_of_cons; [exists a; split; [left|done]|].
  destruct (IH Hin) as (x & Hx & Hxy). exists x. split; [by right|done].
Qed.

(** ** Comparisons built from keys *)

Lemma key_preorder {A} (f : A -> Z) : TotalPreorder (fun a b => Z.compare (f a) (f b)).
Proof.
  split; [intros; apply Z.compare_antisym|]. intros x y z. rewrite !Z.compare_gt_iff. lia.
Qed.

Lemma rev_key_preorder {A} (f : A -> Z) : TotalPreorder (fun a b => Z.compare (f b) (f a)).
Proof.
  split; [intros; apply Z.compare_antisym|]. intros x y z. rewrite !Z.compare_gt_iff. lia.
Qed.

Lemma on_preorder {A B} (c : B -> B -> comparison) (f : A -> B) :
  TotalPreorder c -> TotalPreorder (fun a b => c (f a) (f b)).
Proof. intros [S T]. split; [intros; apply S|intros x y z; apply T]. Qed.

Lemma flip_preorder {A} (c : A -> A -> comparison) : TotalPreorder c -> TotalPreorder (fun a b => c b a).
Proof. intros [S T]. split; [intros; apply S|intros x y z Hxy Hyz; by apply (T z y x)]. Qed.

Lemma then_preorder {A} (c1 c2 : A -> A -> comparison) :
  TotalPreorder c1 -> TotalPreorder c2 -> TotalPreorder (fun a b => then_with (c1 a b) (c2 a b)).
Proof.
  intros [S1 T1] [S2 T2]. split.
  - intros x y. rewrite S1, S2. by destruct (c1 x y).
  - intros x y z. rewrite !then_with_gt. intros Hxy Hyz [Hg|[He Hg]].
    + destruct (c1 x y) eqn:E1, (c1 y z) eqn:E2; try (by apply Hxy; auto); try (by apply Hyz; auto);
        by apply (T1 x y z); rewrite ?E1, ?E2.
    + destruct (c1 x y) eqn:E1, (c1 y z) eqn:E2; try (by apply Hxy; auto); try (by apply Hyz; auto).
      * apply (T2 x y z); [intros ?; apply Hxy; auto|intros ?; apply Hyz; auto|done].
      * apply (T1 z x y); [by rewrite (S1 x z), He|by rewrite E1|by rewrite (S1 y z), E2].
      * apply (T1 y z x); [by rewrite E2|by rewrite (S1 x z), He|by rewrite (S1 x y), E1].
      * apply (T1 y z x); [by rewrite E2|by rewrite (S1 x z), He|by rewrite (S1 x y), E1].
Qed.

(** ** Lemmas: [split_once] and what [trim] keeps *)

Lemma split_once_none_app c r s : str_contains r c = false ->
  split_once c (r ++ String c s)%string = Some (r, s).
Proof.
  induction r as [|a r IH]; intros H.
  - change (split_once c (String c s) = Some (EmptyString, s)). cbn. by rewrite Ascii.eqb_refl.
  - cbn in H. apply orb_false_iff in H as [Ha Hr].
    change (split_once c (String a (r ++ String c s)%string) = Some (String a r, s)). cbn [split_once].
    by rewrite Ha, IH.
Qed.

(** What [trim] removes: nothing else is dropped. *)
Lemma str_contains_app a b c : str_contains (a ++ b)%string c = str_contains a c || str_contains b c.
Proof.
  induction a as [|x a IH]; [done|]. change (String x a ++ b)%string with (String x (a ++ b)).
  cbn [str_contains]. by rewrite IH, orb_assoc.
Qed.

Lemma str_contains_ascii s c : str_contains s c = existsb (fun a => Ascii.eqb a c) (list_ascii_of_string s).
Proof. induction s as [|a s IH]; [done|]. cbn. by rewrite IH. Qed.

Lemma trim_rev_incl : forall l a, In a (trim_rev l) -> In a l.
Proof.
  fix IH 1. intros [|a r] x; [done|]. cbn [trim_rev].
  destruct (ascii_ws a); [intros H; right; by apply IH|]. destruct r as [|b r1]; [done|].
  destruct (ws2 b a); [intros H; right; right; by apply IH|]. destruct r1 as [|c r2]; [done|].
  destruct (ws3 c b a); [intros H; right; right; right; by apply IH|done].
Qed.

Lemma trim_start_contains : forall s c, str_contains s c = false -> str_contains (trim_start s) c = false.
Proof.
  fix IH 1. intros [|a r] c; [done|]. cbn [trim_start]. destruct (ascii_ws a).
  { cbn. intros [_ H]%orb_false_iff. by apply IH. }
  destruct r as [|b r1]; [done|]. destruct (ws2 a b).
  { cbn. intros [_ [_ H]%orb_false_iff]%orb_false_iff. by apply IH. }
  destruct r1 as [|d r2]; [done|]. destruct (ws3 a b d); [|done].
  cbn. intros [_ [_ [_ H]%orb_false_iff]%orb_false_iff]%orb_false_iff. by apply IH.
Qed.

Lemma trim_contains s c : str_contains s c = false -> str_contains (trim s) c = false.
Proof.
  intros H%trim_start_contains. unfold trim, trim_end. revert H. generalize (trim_start s). intros t H.
  rewrite str_contains_ascii, list_ascii_of_string_of_list_ascii. rewrite str_contains_ascii in H.
  apply not_true_iff_false. rewrite existsb_exists. intros (a & Hin & Ha).
  apply not_true_iff_false in H. apply H. apply existsb_exists. exists a. split; [|done].
  rewrite <- in_rev in Hin. apply trim_rev_incl in Hin. by rewrite <- in_rev in Hin.
Qed.

(** A printable character stays. *)
Lemma trim_rev_keeps x : graphic x = true -> forall l, In x l -> In x (trim_rev l).
Proof.
  intros (H1 & H2 & H3 & H4 & H5 & H6)%graphic_plain. fix IH 1. intros [|a r]; [done|]. cbn [trim_rev].
  destruct (ascii_ws a) eqn:E1; [intros [->|H]; [congruence|by apply IH]|]. destruct r as [|b r1]; [done|].
  destruct (ws2 b a) eqn:E2; [intros [->|[->|H]]; [congruence..|by apply IH]|]. destruct r1 as [|c r2]; [done|].
  destruct (ws3 c b a) eqn:E3; [intros [->|[->|[->|H]]]; [congruence..|by apply IH]|done].
Qed.

Lemma trim_start_keeps x : graphic x = true -> forall s, str_contains s x = true -> str_contains (trim_start s) x = true.
Proof.
  intros (H1 & H2 & H3 & H4 & H5 & H6)%graphic_plain. fix IH 1. intros [|a r]; [done|]. cbn [trim_start].
  destruct (ascii_ws a) eqn:E1.
  { cbn. intros [->%Ascii.eqb_eq|H]%orb_prop; [congruence|by apply IH]. }
  destruct r as [|b r1]; [done|]. destruct (ws2 a b) eqn:E2.
  { cbn. intros [->%Ascii.eqb_eq|[->%Ascii.eqb_eq|H]%orb_prop]%orb_prop; [congruence..|by apply IH]. }
  destruct r1 as [|c r2]; [done|]. destruct (ws3 a b c) eqn:E3; [|done].
  cbn. intros [->%Ascii.eqb_eq|[->%Ascii.eqb_eq|[->%Ascii.eqb_eq|H]%orb_prop]%orb_prop]%orb_prop; [congruence..|by apply IH].
Qed.

Lemma trim_keeps s x : graphic x = true -> str_contains s x = true -> str_is_empty (trim s) = false.
Proof.
  intros Hx H%trim_start_keeps; [|done]. destruct (str_is_empty (trim s)) eqn:E; [|done].
  assert (trim s = EmptyString) as Es by (by destruct (trim s)). unfold trim, trim_end in Es.
  rewrite str_contains_ascii in H. apply existsb_exists in H as (a & Hin & ->%Ascii.eqb_eq).
  apply in_rev, (trim_rev_keeps x Hx), in_rev in Hin.
  destruct (rev (trim_rev (rev (list_ascii_of_string (trim_start s))))); [done|discriminate Es].
Qed.

Lemma split_once_contains c s l r : split_once c s = Some (l, r) -> str_contains l c = false.
Proof.
  revert l. induction s as [|a s IH]; intros l; cbn [split_once]; [done|].
  destruct (Ascii.eqb a c) eqn:E; [by intros [= <- <-]|].
  destruct (split_once c s) as [[l' r']|]; [|done]. intros [= <- <-]. cbn. rewrite E. by apply IH.
Qed.

Lemma split_once_None c s : split_once c s = None -> str_contains s c = false.
Proof.
  induction s as [|a s IH]; cbn [split_once]; [done|]. destruct (Ascii.eqb a c) eqn:E; [done|].
  destruct (split_once c s) as [[l' r']|]; [done|]. intros _. cbn. rewrite E. by apply IH.
Qed.

(** A text that does not begin with white space. *)
Definition starts_clean (s : string) : Prop :=
  match s with
  | EmptyString => True
  | String a r => ascii_ws a = false /\
    match r with
    | EmptyString => True
    | String b r1 => ws2 a b = false /\
      match r1 with EmptyString => True | String c _ => ws3 a b c = false end
    end
  end.

Lemma trim_start_clean : forall s, starts_clean (trim_start s).
Proof.
  fix IH 1. intros [|a r]; [done|]. cbn [trim_start]. destruct (ascii_ws a) eqn:E1; [apply IH|].
  destruct r as [|b r1]; [by cbn|]. destruct (ws2 a b) eqn:E2; [apply IH|].
  destruct r1 as [|c r2]; [by cbn|]. destruct (ws3 a b c) eqn:E3; [apply IH|by cbn].
Qed.

Lemma trim_start_id s : starts_clean s -> trim_start s = s.
Proof.
  destruct s as [|a r]; [done|]. cbn. intros [-> H]. destruct r as [|b r1]; [done|].
  destruct H as [-> H]. destruct r1 as [|c r2]; [done|]. by rewrite H.
Qed.

Lemma string_app_cons a s t : (String a s ++ t)%string = String a (s ++ t).
Proof. done. Qed.

Lemma starts_clean_prefix p q : starts_clean (p ++ q)%string -> starts_clean p.
Proof.
  destruct p as [|a [|b [|c p]]]; rewrite ?string_app_cons; cbn; tauto.
Qed.

Lemma starts_clean_app p q : starts_clean p -> p <> EmptyString -> graphic_str q -> starts_clean (p ++ q)%string.
Proof.
  unfold graphic_str. intros Hp Hne Hq. destruct p as [|a [|b [|c p]]]; [done|..]; rewrite ?string_app_cons.
  - destruct q as [|x q]; [done|]. apply Forall_cons in Hq as [Hx%graphic_plain Hq].
    change (EmptyString ++ String x q)%string with (String x q). destruct q as [|y q]; [cbn in *; intuition auto|].
    apply Forall_cons in Hq as [Hy%graphic_plain _]. cbn in *. intuition auto.
  - destruct q as [|x q]; [done|]. apply Forall_cons in Hq as [Hx%graphic_plain Hq].
    change (EmptyString ++ String x q)%string with (String x q). cbn in *. intuition auto.
  - exact Hp.
Qed.

Lemma trim_rev_suffix : forall l, exists p, l = p ++ trim_rev l.
Proof.
  fix IH 1. intros [|a r]; [by exists []|]. cbn [trim_rev]. destruct (ascii_ws a).
  { destruct (IH r) as [p Hp]. exists (a :: p). cbn. by f_equal. }
  destruct r as [|b r1]; [by exists []|]. destruct (ws2 b a).
  { destruct (IH r1) as [p Hp]. exists (a :: b :: p). cbn. by do 2 f_equal. }
  destruct r1 as [|c r2]; [by exists []|]. destruct (ws3 c b a); [|by exists []].
  destruct (IH r2) as [p Hp]. exists (a :: b :: c :: p). cbn. by do 3 f_equal.
Qed.

Lemma string_of_list_ascii_app l k :
  string_of_list_ascii (l ++ k) = (string_of_list_ascii l ++ string_of_list_ascii k)%string.
Proof. induction l as [|a l IH]; [done|]. cbn. by rewrite IH. Qed.

Lemma trim_end_prefix s : exists q, s = (trim_end s ++ q)%string.
Proof.
  destruct (trim_rev_suffix (rev (list_ascii_of_string s))) as [p Hp].
  exists (string_of_list_ascii (rev p)). unfold trim_end.
  rewrite <- string_of_list_ascii_app, <- rev_app_distr, <- Hp, rev_involutive.
  by rewrite string_of_list_ascii_of_string.
Qed.

Lemma trim_clean s : starts_clean (trim s).
Proof.
  unfold trim. destruct (trim_end_prefix (trim_start s)) as [q Hq].
  apply (starts_clean_prefix _ q). rewrite <- Hq. apply trim_start_clean.
Qed.

(** A trimmed text with a printable end needs no more trimming. *)
Lemma trim_idem s : trim (trim s) = trim s.
Proof. unfold trim at 1. rewrite (trim_start_id _ (trim_clean s)). apply trim_end_twice. Qed.

Lemma trim_suffixed s q : trim s <> EmptyString -> q <> EmptyString -> graphic_str q ->
  trim (trim s ++ q) = (trim s ++ q)%string.
Proof.
  intros Hs Hq Hg. unfold trim at 1.
  rewrite trim_start_id by (apply starts_clean_app; [apply trim_clean|done|done]).
  unfold trim_end. rewrite list_ascii_app, rev_app_distr, trim_rev_id.
  - by rewrite <- rev_app_distr, rev_involutive, <- list_ascii_app, string_of_list_ascii_of_string.
  - assert (Forall (fun a => graphic a = true) (rev (list_ascii_of_string q))) as Hr by by apply Forall_rev.
    destruct (rev (list_ascii_of_string q)) as [|a r] eqn:E.
    { apply (f_equal (@rev ascii)) in E. rewrite rev_involutive in E. by destruct q. }
    apply Forall_cons in Hr as [Ha%graphic_plain _]. cbn.
    destruct Ha as (H1 & H2 & H3 & H4 & H5 & H6). split; [done|].
    destruct (r ++ rev (list_ascii_of_string (trim s))) as [|b [|c l]]; auto.
Qed.

(** ** Sums over lists *)

Definition sum_of {A} (f : A -> Z) (l : list A) : Z := foldr (fun x n => f x + n) 0 l.

Lemma sum_of_app {A} (f : A -> Z) l k : sum_of f (l ++ k) = sum_of f l + sum_of f k.
Proof. induction l as [|x l IH]; cbn; [done|]. fold (sum_of f (l ++ k)) (sum_of f l). lia. Qed.

Lemma sum_of_cons {A} (f : A -> Z) x l : sum_of f (x :: l) = f x + sum_of f l.
Proof. done. Qed.

Lemma sum_of_nil {A} (f : A -> Z) : sum_of f [] = 0.
Proof. done. Qed.

Lemma sum_of_bounds {A} (f : A -> Z) b l :
  (forall x, x ∈ l -> 0 <= f x <= b) -> 0 <= sum_of f l <= b * Z.of_nat (length l).
Proof.
  induction l as [|x l IH]; intros H; [cbn; lia|]. rewrite sum_of_cons. cbn [length].
  specialize (H x (list_elem_of_here _ _)) as Hx. assert (forall y, y ∈ l -> 0 <= f y <= b) as Hl
    by (intros; apply H; by right). specialize (IH Hl). lia.
Qed.

Lemma sum_of_ext {A} (f g : A -> Z) l : (forall x, x ∈ l -> f x = g x) -> sum_of f l = sum_of g l.
Proof.
  induction l as [|x l IH]; intros H; [done|]. rewrite !sum_of_cons, H, IH; [done| |by left].
  intros; apply H; by right.
Qed.

Lemma sum_of_add {A} (f g : A -> Z) l : sum_of (fun x => f x + g x) l = sum_of f l + sum_of g l.
Proof. induction l as [|x l IH]; [done|]. rewrite !sum_of_cons, IH. lia. Qed.

Lemma wrap64_id z : 0 <= z < 2 ^ 64 -> wrap64 z = z.
Proof. apply Z.mod_small. Qed.

Lemma str_length_app a b : String.length (a ++ b) = (String.length a + String.length b)%nat.
Proof. induction a as [|c a IH]; [done|]. rewrite string_app_cons. cbn. by rewrite IH. Qed.

Lemma last_case {A} (l : list A) : l = [] \/ exists l' x, l = l' ++ [x].
Proof. destruct l as [|x l'] using rev_ind; eauto. Qed.

Lemma take_prefix_mono {A} (l : list A) n m : (n <= m)%nat -> take n l `prefix_of` take m l.
Proof. intros H. exists (drop n (take m l)). rewrite <- (take_drop n (take m l)) at 1. f_equal. rewrite take_take. f_equal. lia. Qed.
