(* ===== verification/Effects.v ===== *)
(** * Computations that may fail or be the process's last

    The monad of a process over its world: a computation ends with a value, with an error that [?]
    passes on, or with the death of the process, and in each case leaves the world it got to. *)

From Stdlib Require Import ZArith.
From stdpp Require Import base list.
From S2P Require Import Prelude.

Inductive Out {E A : Type} := Done (a : A) | Err (e : E) | Dead.
Arguments Out : clear implicits.

Definition M (W E A : Type) : Type := W -> Out E A * W.

Section Monad.
Context {W E A B : Type}.

Definition ret (a : A) : M W E A := fun w => (Done a, w).

Definition bind (m : M W E A) (f : A -> M W E B) : M W E B :=
  fun w => match m w with
           | (Done a, w') => f a w'
           | (Err e, w') => (Err e, w')
           | (Dead, w') => (Dead, w')
           end.

Definition fail (e : E) : M W E A := fun w => (Err e, w).

(** What [?] does with a result. *)
Definition lift (r : E + A) : M W E A := match r with inl e => fail e | inr a => ret a end.

(** A result kept as a value, as by [match] or [let _ =]. *)
Definition attempt (m : M W E A) : M W E (E + A) :=
  fun w => match m w with
           | (Done a, w') => (Done (inr a), w')
           | (Err e, w') => (Done (inl e), w')
           | (Dead, w') => (Dead, w')
           end.

End Monad.

Declare Scope effect_scope.
Delimit Scope effect_scope with effect.
Notation "x <- m ;; k" := (bind m (fun x => k)) (at level 100, m at next level, right associativity) : effect_scope.
Notation "m ;;; k" := (bind m (fun _ => k)) (at level 100, right associativity) : effect_scope.

(** ** What holds at the end of a computation *)

Section Ends.
Context {W E : Type}.

Definition ends {A} (m : M W E A) (w : W) (Q : Out E A -> W -> Prop) : Prop := Q (m w).1 (m w).2.

Context {A B : Type}.
Implicit Types Q : Out E A -> W -> Prop.

Lemma ends_ret (a : A) w Q : Q (Done a) w -> ends (ret a) w Q.
Proof. done. Qed.

Lemma ends_fail e w Q : Q (Err e) w -> ends (fail e) w Q.
Proof. done. Qed.

Lemma ends_lift (r : E + A) w Q :
  match r with inl e => Q (Err e) w | inr a => Q (Done a) w end -> ends (lift r) w Q.
Proof. by destruct r. Qed.

Lemma ends_bind (m : M W E B) (f : B -> M W E A) w Q :
  ends m w (fun o w' => match o with
                        | Done b => ends (f b) w' Q
                        | Err e => Q (Err e) w'
                        | Dead => Q Dead w'
                        end) -> ends (bind m f) w Q.
Proof. unfold ends, bind. by destruct (m w) as [[b|e|] w']. Qed.

Lemma ends_attempt (m : M W E B) w (Q : Out E (E + B) -> W -> Prop) :
  ends m w (fun o w' => match o with
                        | Done b => Q (Done (inr b)) w'
                        | Err e => Q (Done (inl e)) w'
                        | Dead => Q Dead w'
                        end) -> ends (attempt m) w Q.
Proof. unfold ends, attempt. by destruct (m w) as [[b|e|] w']. Qed.

Lemma ends_mono (m : M W E A) w Q (R : Out E A -> W -> Prop) :
  ends m w Q -> (forall o w', Q o w' -> R o w') -> ends m w R.
Proof. unfold ends. auto. Qed.

Lemma ends_run (m : M W E A) w Q o w' : ends m w Q -> m w = (o, w') -> Q o w'.
Proof. unfold ends. intros H Hm. by rewrite Hm in H. Qed.

End Ends.

Ltac ends_step :=
  lazymatch goal with
  | |- ends (bind _ _) _ _ => apply ends_bind
  | |- ends (ret _) _ _ => apply ends_ret
  | |- ends (fail _) _ _ => apply ends_fail
  | |- ends (lift _) _ _ => apply ends_lift
  | |- ends (attempt _) _ _ => apply ends_attempt
  end.
