(* ===== verification/Protocol.v ===== *)
(** * The message protocol (src/crates/fluxbee_sdk/src/protocol.rs, policy.rs)

    The data every other file routes: a message, its routing and its meta, and
    the constructors of the router's own messages. A JSON value
    ([serde_json::Value]) is the type parameter [V]; an [f64] is kept as its bit
    pattern, since no modelled code computes on one. A UUID is its 128-bit value. *)

From Stdlib Require Import ZArith Lia Ascii String.
From stdpp Require Import base list gmap strings fin_maps.
From S2P Require Import Prelude.
Open Scope Z_scope.

#[global] Abbreviation Uuid := Z (only parsing).

(** ** Action classes (policy.rs) *)

Inductive ActionClass :=
| SendMessage | Read | Write | SystemConfig | TopologyChange
| ExternalAction | IdentityChange | WorkflowStep | NodeLifecycle.

Inductive ActionResult := Blocked | Applied | Failed | Accepted.

#[export] Instance ActionClass_eq_dec : EqDecision ActionClass.
Proof. solve_decision. Defined.

#[export] Instance ActionResult_eq_dec : EqDecision ActionResult.
Proof. solve_decision. Defined.

Definition classify_routed_message (msg_type : string) : option ActionClass :=
  if (msg_type =s "system") || (msg_type =s "admin") || (msg_type =s "query_response")
  then None else Some SendMessage.

Definition action_class_requires_result (c : ActionClass) : bool :=
  match c with SendMessage | Read => false | _ => true end.

(** [derive_action_outcome]. *)
Definition derive_action_outcome (action_class : option ActionClass)
  (status error_code : option string) : option ActionResult * option string :=
  match action_class with
  | Some c =>
    if action_class_requires_result c then
      let status_is s := match status with Some v => eq_ignore_ascii_case v s | None => false end in
      let error_is s := match error_code with Some v => eq_ignore_ascii_case v s | None => false end in
      if status_is "ok" then (Some Applied, None)
      else if status_is "accepted" then (Some Accepted, None)
      else if status_is "blocked" || error_is "FORBIDDEN" then (Some Blocked, Some "node"%string)
      else match status with Some _ => (Some Failed, None) | None => (None, None) end
    else (None, None)
  | None => (None, None)
  end.

(** ** The memory package a delivery carries *)

Inductive MemoryTurnDirection := DirIn | DirOut.

Record MemoryTurnParty := mkMemoryTurnParty {
  party_ilk : option string; party_name : option string; party_kind : option string }.

Record MemoryTurnChoice := mkMemoryTurnChoice { choice_option : string; choice_params : string }.

Record MemoryTurn := mkMemoryTurn {
  direction : MemoryTurnDirection;
  turn_src_ilk : option string;
  via : option string;
  writer : option MemoryTurnParty;
  turn_to : option MemoryTurnParty;
  to_via : option string;
  text : string;
  attachments : Z;
  choice : option MemoryTurnChoice;
  ts : string }.

Record MemoryContextSummary := mkMemoryContextSummary {
  context_id : string; context_label : string; context_weight : Z }.

Record MemoryReasonSummary := mkMemoryReasonSummary {
  reason_id : string; reason_label : string; reason_weight : Z }.

Record MemorySummary := mkMemorySummary {
  memory_id : string; memory_summary : string; memory_weight : Z;
  dominant_context_id : option string; dominant_reason_id : option string }.

Record FeelingSummary := mkFeelingSummary {
  feeling_id : string; feeling_owner : MemoryTurnParty; affect : string; feeling_context : string;
  feeling_title : string; level : string; feeling_weight : Z; last_felt_at : string;
  feeling_summary : string }.

Record NewsSummary := mkNewsSummary {
  episode_id : string; lens : string; news_title : string; news_summary : string;
  news_state : string; people : list MemoryTurnParty; born_at : string; news_weight : Z }.

Record MemoryPackageTruncated := mkMemoryPackageTruncated {
  applied : bool; dropped_contexts : Z; dropped_reasons : Z; dropped_memories : Z;
  dropped_feelings : Z; dropped_news : Z }.

Record MemoryPackage := mkMemoryPackage {
  package_version : Z;
  package_thread_id : string;
  dominant_context : option MemoryContextSummary;
  dominant_reason : option MemoryReasonSummary;
  contexts : list MemoryContextSummary;
  reasons : list MemoryReasonSummary;
  memories : list MemorySummary;
  feelings : list FeelingSummary;
  news : list NewsSummary;
  turns : list MemoryTurn;
  truncated : option MemoryPackageTruncated }.

(** ** Messages *)

Inductive Destination := Unicast (dst : string) | Broadcast | Resolve.

#[export] Instance Destination_eq_dec : EqDecision Destination.
Proof. solve_decision. Defined.

Record Routing := mkRouting {
  src : string;
  src_l2_name : option string;
  dst : Destination;
  ttl : Z;
  trace_id : string }.

Record Meta {V : Type} := mkMeta {
  msg_type : string;
  msg : option string;
  src_ilk : option string;
  dst_ilk : option string;
  ich : option string;
  thread_id : option string;
  memory_package : option MemoryPackage;
  scope : option string;
  target : option string;
  action : option string;
  action_class : option ActionClass;
  action_result : option ActionResult;
  result_origin : option string;
  result_detail_code : option string;
  priority : option string;
  context : option V;
  via_tap : bool }.
Arguments Meta : clear implicits.
Arguments mkMeta {V}.

Record Message {V : Type} := mkMessage {
  routing : Routing;
  meta : Meta V;
  msg_payload : V }.
Arguments Message : clear implicits.
Arguments mkMessage {V}.

(** ** Field updates *)

Definition set_routing_ttl (r : Routing) (n : Z) : Routing :=
  mkRouting (src r) (src_l2_name r) (dst r) n (trace_id r).

Definition set_routing_src_l2_name (r : Routing) (n : option string) : Routing :=
  mkRouting (src r) n (dst r) (ttl r) (trace_id r).

Definition set_routing_dst_trace (r : Routing) (d : Destination) (t : string) : Routing :=
  mkRouting (src r) (src_l2_name r) d (ttl r) t.

Section Updates.
Context {V : Type}.
Implicit Types (m : Message V) (e : Meta V).

Definition with_routing m (r : Routing) : Message V := mkMessage r (meta m) (msg_payload m).

Definition with_meta m e : Message V := mkMessage (routing m) e (msg_payload m).

Definition set_ttl m (n : Z) : Message V := with_routing m (set_routing_ttl (routing m) n).

Definition set_src_l2_name m (n : option string) : Message V :=
  with_routing m (set_routing_src_l2_name (routing m) n).

Definition set_memory_package e (p : option MemoryPackage) : Meta V :=
  mkMeta (msg_type e) (msg e) (src_ilk e) (dst_ilk e) (ich e) (thread_id e) p (scope e) (target e)
    (action e) (action_class e) (action_result e) (result_origin e) (result_detail_code e)
    (priority e) (context e) (via_tap e).

Definition set_action_class e (c : option ActionClass) : Meta V :=
  mkMeta (msg_type e) (msg e) (src_ilk e) (dst_ilk e) (ich e) (thread_id e) (memory_package e)
    (scope e) (target e) (action e) c (action_result e) (result_origin e) (result_detail_code e)
    (priority e) (context e) (via_tap e).

Definition set_via_tap e (b : bool) : Meta V :=
  mkMeta (msg_type e) (msg e) (src_ilk e) (dst_ilk e) (ich e) (thread_id e) (memory_package e)
    (scope e) (target e) (action e) (action_class e) (action_result e) (result_origin e)
    (result_detail_code e) (priority e) (context e) b.

Definition set_context e (c : option V) : Meta V :=
  mkMeta (msg_type e) (msg e) (src_ilk e) (dst_ilk e) (ich e) (thread_id e) (memory_package e)
    (scope e) (target e) (action e) (action_class e) (action_result e) (result_origin e)
    (result_detail_code e) (priority e) c (via_tap e).

Definition set_src_ilk e (i : option string) : Meta V :=
  mkMeta (msg_type e) (msg e) i (dst_ilk e) (ich e) (thread_id e) (memory_package e)
    (scope e) (target e) (action e) (action_class e) (action_result e) (result_origin e)
    (result_detail_code e) (priority e) (context e) (via_tap e).

End Updates.

(** ** Message kinds *)

Definition SYSTEM_KIND : string := "system".
Definition SCOPE_GLOBAL : string := "global".
Definition PRIMARY_HIVE_ID : string := "motherbee".

Definition is_system_kind (t : string) : bool := eq_ignore_ascii_case t SYSTEM_KIND.

Definition is_solution_kind (t : string) : bool :=
  negb (is_system_kind t) && negb (t =s "admin") && negb (t =s "query_response").

Definition MSG_UNREACHABLE : string := "UNREACHABLE".
Definition MSG_TTL_EXCEEDED : string := "TTL_EXCEEDED".
Definition MSG_LSA : string := "LSA".
Definition MSG_WAN_REACHABILITY : string := "WAN_REACHABILITY".

(** ** The router's own messages *)

Section Builders.
Context {V : Type}.

(** [build_system_message]. *)
Definition build_system_message (src_ : string) (d : Destination) (ttl_ : Z) (trace : string)
  (m : string) (p : V) : Message V :=
  mkMessage (mkRouting src_ None d ttl_ trace)
    (mkMeta SYSTEM_KIND (Some m) None None None None None None None None None None None None
       None None false) p.

Record UnreachablePayload := mkUnreachablePayload { original_dst : string; reason : string }.

Record TtlExceededPayload := mkTtlExceededPayload { ttl_original_dst : string; last_hop : string }.

(** [json!(...)] of the two payloads, by the JSON library. *)
Variable json_unreachable : UnreachablePayload -> V.
Variable json_ttl_exceeded : TtlExceededPayload -> V.

(** [build_unreachable]. *)
Definition build_unreachable (src_ d trace orig why : string) : Message V :=
  build_system_message src_ (Unicast d) 16 trace MSG_UNREACHABLE
    (json_unreachable (mkUnreachablePayload orig why)).

(** [build_ttl_exceeded]. *)
Definition build_ttl_exceeded (src_ d trace orig hop : string) : Message V :=
  build_system_message src_ (Unicast d) 16 trace MSG_TTL_EXCEEDED
    (json_ttl_exceeded (mkTtlExceededPayload orig hop)).

End Builders.
