(* ===== verification/StreamRecord.v ===== *)
(** * The records of the router's stream, on disk (src/src/router/stream.rs)

    A record, its size, the checksum, and the segment codec [encode_record] /
    [decode_records]. The theorems: a segment written by the encoder and cut
    anywhere inside its last record decodes to exactly the whole records before
    the cut; whatever bytes a segment holds, what decoding returns is the longest
    prefix that is a sequence of encoded records, and nothing else. *)

From Stdlib Require Import ZArith Lia Ascii String Strings.Byte.
From stdpp Require Import base list gmap strings fin_maps.
From S2P Require Import Prelude.
Open Scope Z_scope.

(** Where a record came from. *)
Inductive Source := Turns | Nodes.

#[export] Instance Source_eq_dec : EqDecision Source.
Proof. solve_decision. Defined.

(** [struct Record]; [Arc<str>] is a string and [Arc<[u8]>] its bytes. *)
Record StreamRec := mkStreamRec {
  seq : Z;
  ts_ms : Z;
  source : Source;
  subject : string;
  producer : string;
  payload : list byte
}.

Module Source.

(** [Source::byte]. *)
Definition byte (s : Source) : Z :=
  match s with Turns => 0 | Nodes => 1 end.

(** [Source::from_byte]. *)
Definition from_byte (b : Z) : option Source :=
  if b =? 0 then Some Turns else if b =? 1 then Some Nodes else None.

End Source.

Definition RECORD_HEADER_BYTES : Z := 12.

Definition str_len (s : string) : Z := Z.of_nat (String.length s).

(** [Record::size]. *)
Definition record_size (r : StreamRec) : Z :=
  (RECORD_HEADER_BYTES + 8 + 8 + 1 + 2 + str_len (subject r) + 2 + str_len (producer r))
  + Z.of_nat (length (payload r)).

(** One turn of the FNV-1a loop, on 64 bits. *)
Definition fnv_step (hash : Z) (b : Byte.byte) : Z :=
  wrap64 (Z.lxor hash (Z_of_byte b) * 0x100000001b3).

(** [checksum]: FNV-1a folded to 32 bits. *)
Definition checksum (bytes : list Byte.byte) : Z :=
  let hash := fold_left fnv_step bytes 0xcbf29ce484222325 in
  Z.lxor hash (Z.shiftr hash 32) mod 2 ^ 32.

(** The body [encode_record] builds. *)
Definition encode_body (r : StreamRec) : list Byte.byte :=
  to_be 8 (seq r) ++ to_be 8 (ts_ms r) ++ [byte_of_Z (Source.byte (source r))]
  ++ to_be 2 (str_len (subject r) mod 2 ^ 16) ++ as_bytes (subject r)
  ++ to_be 2 (str_len (producer r) mod 2 ^ 16) ++ as_bytes (producer r)
  ++ payload r.

(** [encode_record]: [[u32 body len][u32 checksum][body]]. *)
Definition encode_record (r : StreamRec) : list Byte.byte :=
  let body := encode_body r in
  to_be 4 (Z.of_nat (length body) mod 2 ^ 32) ++ to_be 4 (checksum body) ++ body.

(** The closure [take] of [decode_body]: the next [n] bytes and what follows. *)
Definition take_bytes (n : Z) (rest : list Byte.byte) : option (list Byte.byte * list Byte.byte) :=
  if n <=? Z.of_nat (length rest)
  then Some (take (Z.to_nat n) rest, drop (Z.to_nat n) rest) else None.

(** [decode_body]. *)
Definition decode_body (body : list Byte.byte) : option StreamRec :=
  '(seq_b, rest) ← take_bytes 8 body;
  '(ts_b, rest) ← take_bytes 8 rest;
  '(src_b, rest) ← take_bytes 1 rest;
  src ← Source.from_byte (from_be src_b);
  '(sl_b, rest) ← take_bytes 2 rest;
  '(subject_b, rest) ← take_bytes (from_be sl_b) rest;
  subj ← from_utf8 subject_b;
  '(pl_b, rest) ← take_bytes 2 rest;
  '(producer_b, rest) ← take_bytes (from_be pl_b) rest;
  prod ← from_utf8 producer_b;
  Some (mkStreamRec (from_be seq_b) (from_be ts_b) src subj prod rest).

(** One turn of the loop of [decode_records] at [at]: the record there and where
    the next one starts, or nothing when the loop breaks. *)
Definition decode_one (bytes : list Byte.byte) (at_ : nat) : option (StreamRec * nat) :=
  if RECORD_HEADER_BYTES <=? Z.of_nat (length bytes) - Z.of_nat at_ then
    let len := from_be (take 4 (drop at_ bytes)) in
    let sum := from_be (take 4 (drop (at_ + 4) bytes)) in
    let start := (at_ + 8)%nat in
    match get_range bytes start len with
    | None => None
    | Some body =>
      if checksum body =? sum
      then match decode_body body with
           | Some record => Some (record, (start + Z.to_nat len)%nat)
           | None => None
           end
      else None
    end
  else None.

Fixpoint decode_loop (fuel : nat) (bytes : list Byte.byte) (records : list StreamRec) (at_ : nat)
  : list StreamRec * nat :=
  match fuel with
  | O => (records, at_)
  | S k => match decode_one bytes at_ with
           | Some (record, next) => decode_loop k bytes (records ++ [record]) next
           | None => (records, at_)
           end
  end.

(** [decode_records]: the records of a segment and how many leading bytes are
    whole. Every turn consumes bytes, so one turn per byte is enough
    ([decode_maximal]). *)
Definition decode_records (bytes : list Byte.byte) : list StreamRec * nat :=
  decode_loop (length bytes) bytes [] 0.

(** What the encoder can represent: the lengths fit their fields, the names are [str]. *)
Definition rec_wf (r : StreamRec) : Prop :=
  0 <= seq r < 2 ^ 64 /\ 0 <= ts_ms r < 2 ^ 64 /\
  str_len (subject r) < 2 ^ 16 /\ str_len (producer r) < 2 ^ 16 /\
  is_str (subject r) /\ is_str (producer r) /\
  Z.of_nat (length (encode_body r)) < 2 ^ 32.

(** What a segment holds: the encodings of its records, one after the other. *)
Definition encode_all (rs : list StreamRec) : list Byte.byte := concat (map encode_record rs).

(** ** Lemmas *)

Lemma checksum_range bs : 0 <= checksum bs < 2 ^ 32.
Proof. unfold checksum. apply Z.mod_pos_bound. lia. Qed.

Lemma take_bytes_app n (l r : list Byte.byte) :
  Z.of_nat (length l) = n -> take_bytes n (l ++ r) = Some (l, r).
Proof.
  intros <-. unfold take_bytes. rewrite length_app, Nat2Z.id.
  destruct (Z.leb_spec (Z.of_nat (length l)) (Z.of_nat (length l + length r))); [|lia].
  by rewrite take_app_length, drop_app_length.
Qed.

Lemma take_bytes_Some n rest l r :
  take_bytes n rest = Some (l, r) -> rest = l ++ r /\ length l = Z.to_nat n.
Proof.
  unfold take_bytes. destruct (Z.leb_spec n (Z.of_nat (length rest))); [|done].
  intros [= <- <-]. rewrite take_drop, length_take. split; [done|]. lia.
Qed.

Lemma source_byte_roundtrip s : Source.from_byte (from_be [byte_of_Z (Source.byte s)]) = Some s.
Proof. by destruct s. Qed.

Lemma str_len_field s :
  str_len s < 2 ^ 16 -> from_be (to_be 2 (str_len s mod 2 ^ 16)) = Z.of_nat (length (as_bytes s)).
Proof.
  intros H. assert (0 <= str_len s) by (unfold str_len; lia).
  rewrite Z.mod_small, from_be_to_be by (simpl; lia). rewrite length_as_bytes. done.
Qed.

Lemma decode_encode_body r : rec_wf r -> decode_body (encode_body r) = Some r.
Proof.
  intros (Hseq & Hts & Hsl & Hpl & Hs & Hp & _). unfold decode_body, encode_body.
  do 2 (rewrite take_bytes_app by (by rewrite length_to_be); cbn [mbind option_bind]).
  rewrite take_bytes_app by done. cbn [mbind option_bind].
  rewrite source_byte_roundtrip. cbn [mbind option_bind].
  rewrite take_bytes_app by (by rewrite length_to_be); cbn [mbind option_bind].
  rewrite take_bytes_app by (by rewrite str_len_field). cbn [mbind option_bind].
  rewrite from_utf8_as_bytes by done. cbn [mbind option_bind].
  rewrite take_bytes_app by (by rewrite length_to_be); cbn [mbind option_bind].
  rewrite take_bytes_app by (by rewrite str_len_field). cbn [mbind option_bind].
  rewrite from_utf8_as_bytes by done. cbn [mbind option_bind].
  rewrite !from_be_to_be by (simpl; lia). by destruct r.
Qed.

Lemma source_from_byte_Some (l : list Byte.byte) s :
  length l = 1%nat -> Source.from_byte (from_be l) = Some s -> l = [byte_of_Z (Source.byte s)].
Proof.
  intros Hl. destruct l as [|b [|]]; try done.
  assert (from_be [b] = Z_of_byte b) as -> by (unfold from_be; simpl; lia).
  unfold Source.from_byte.
  destruct (Z.eqb_spec (Z_of_byte b) 0) as [E|]; [|destruct (Z.eqb_spec (Z_of_byte b) 1) as [E|]; [|by intros]];
    intros [= <-]; rewrite <- (byte_of_Z_of_byte b), E; done.
Qed.

Lemma str_field_decoded (lb sb : list Byte.byte) s :
  length lb = 2%nat -> length sb = Z.to_nat (from_be lb) -> from_utf8 sb = Some s ->
  to_be 2 (str_len s mod 2 ^ 16) = lb /\ as_bytes s = sb /\ is_str s /\ str_len s < 2 ^ 16.
Proof.
  intros Hl Hs Hu. apply from_utf8_Some in Hu as [Hb Hstr].
  pose proof (from_be_range lb) as Hr. rewrite Hl in Hr. simpl in Hr.
  assert (Hlen : str_len s = from_be lb).
  { unfold str_len. rewrite <- length_as_bytes, Hb, Hs. lia. }
  rewrite Hlen. rewrite Z.mod_small by lia. rewrite to_be_from_be_len by done. repeat split; (done || lia).
Qed.

Lemma from_be_u64 (l : list Byte.byte) : length l = 8%nat -> 0 <= from_be l < 2 ^ 64.
Proof. intros H. pose proof (from_be_range l) as Hr. rewrite H in Hr. exact Hr. Qed.

(** Decoding a body and encoding it again gives the same bytes. *)
Lemma encode_decode_body body r :
  decode_body body = Some r -> Z.of_nat (length body) < 2 ^ 32 ->
  encode_body r = body /\ rec_wf r.
Proof.
  unfold decode_body. intros H Hlen.
  repeat match type of H with
  | (take_bytes ?n ?b ≫= _) = Some _ =>
    let E := fresh "E" in let l := fresh "l" in let q := fresh "q" in
    destruct (take_bytes n b) as [[l q]|] eqn:E; cbn [mbind option_bind] in H; [|done];
    apply take_bytes_Some in E as [-> ?]
  | (?o ≫= _) = Some _ => destruct o eqn:?; cbn [mbind option_bind] in H; [|done]
  end.
  injection H as <-.
  match goal with H : Source.from_byte _ = Some _ |- _ => apply source_from_byte_Some in H; [|done] end.
  repeat match goal with H : from_utf8 _ = Some _ |- _ =>
    eapply str_field_decoded in H as (? & ? & ? & ?); [| |eassumption]; [|done] end.
  match goal with |- ?e = ?b /\ _ => assert (He : e = b) end.
  { unfold encode_body. cbn [seq ts_ms source subject producer payload].
    rewrite !to_be_from_be_len by done. congruence. }
  split; [done|]. unfold rec_wf. rewrite He. cbn [seq ts_ms source subject producer payload].
  repeat split; try done; try lia; apply from_be_u64; done.
Qed.

Lemma length_encode_record r :
  length (encode_record r) = (8 + length (encode_body r))%nat.
Proof. unfold encode_record. rewrite !length_app, !length_to_be. lia. Qed.

Lemma length_encode_body_ge r : (21 <= length (encode_body r))%nat.
Proof. unfold encode_body. rewrite !length_app, !length_to_be. simpl. lia. Qed.

(** The header fields of a record found at [at_]. *)
Lemma header_at (pre rest : list Byte.byte) r :
  rec_wf r ->
  let bytes := pre ++ encode_record r ++ rest in
  from_be (take 4 (drop (length pre) bytes)) = Z.of_nat (length (encode_body r)) /\
  from_be (take 4 (drop (length pre + 4) bytes)) = checksum (encode_body r).
Proof.
  intros (_ & _ & _ & _ & _ & _ & Hlen) bytes. subst bytes.
  rewrite <- drop_drop, !drop_app_length.
  unfold encode_record. rewrite <- !app_assoc.
  assert (E : forall (b : list Byte.byte) z, take 4 (to_be 4 z ++ b) = to_be 4 z).
  { intros b z. rewrite take_app_le by (rewrite length_to_be; lia).
    apply take_ge. rewrite length_to_be. lia. }
  rewrite E. rewrite drop_app_ge by (rewrite length_to_be; lia).
  rewrite length_to_be. cbn [Nat.sub]. rewrite drop_0, E.
  rewrite Z.mod_small by lia.
  pose proof (checksum_range (encode_body r)).
  rewrite !from_be_to_be; [done| |]; change (256 ^ Z.of_nat 4) with (2 ^ 32); lia.
Qed.

Lemma decode_one_encoded pre r rest :
  rec_wf r ->
  decode_one (pre ++ encode_record r ++ rest) (length pre)
  = Some (r, (length pre + length (encode_record r))%nat).
Proof.
  intros Hwf. destruct (header_at pre rest r Hwf) as [Hl Hs]. unfold decode_one.
  pose proof (length_encode_body_ge r). rewrite Hl, Hs.
  destruct (Z.leb_spec RECORD_HEADER_BYTES
    (Z.of_nat (length (pre ++ encode_record r ++ rest)) - Z.of_nat (length pre))) as [_|Hlt].
  2:{ rewrite !length_app, length_encode_record in Hlt. unfold RECORD_HEADER_BYTES in Hlt. lia. }
  unfold get_range. rewrite !length_app, length_encode_record.
  destruct (Z.leb_spec (Z.of_nat (length pre + 8) + Z.of_nat (length (encode_body r)))
    (Z.of_nat (length pre + (8 + length (encode_body r) + length rest)))) as [_|]; [|lia].
  rewrite Nat2Z.id, <- drop_drop, drop_app_length.
  unfold encode_record. rewrite <- !app_assoc, (app_assoc (to_be 4 _)).
  rewrite drop_app_ge by (rewrite length_app, !length_to_be; lia).
  rewrite length_app, !length_to_be. cbn [Nat.add Nat.sub]. rewrite drop_0, take_app_length.
  rewrite Z.eqb_refl, decode_encode_body by done. do 2 f_equal. lia.
Qed.

Lemma decode_loop_encoded rs : forall k pre rest acc,
  Forall rec_wf rs ->
  decode_loop (length rs + k) (pre ++ encode_all rs ++ rest) acc (length pre)
  = decode_loop k (pre ++ encode_all rs ++ rest) (acc ++ rs) (length pre + length (encode_all rs)).
Proof.
  induction rs as [|r rs IH]; intros k pre rest acc Hwf.
  - unfold encode_all. simpl. by rewrite app_nil_r, Nat.add_0_r.
  - apply Forall_cons in Hwf as [Hr Hrs]. cbn [length Nat.add decode_loop].
    unfold encode_all. cbn [map concat]. fold (encode_all rs). rewrite <- app_assoc.
    rewrite decode_one_encoded by done.
    specialize (IH k (pre ++ encode_record r) rest (acc ++ [r]) Hrs).
    rewrite length_app, <- !app_assoc in IH. cbn [app] in IH. rewrite IH.
    rewrite length_app. f_equal. lia.
Qed.

Lemma length_encode_all_ge rs : (length rs <= length (encode_all rs))%nat.
Proof.
  induction rs as [|r rs IH]; [done|]. unfold encode_all in *. cbn [map concat length].
  rewrite length_app, length_encode_record. lia.
Qed.

(** The header of a record that is cut anywhere before its end is not decoded. *)
Lemma decode_one_torn pre r k :
  rec_wf r -> (k < length (encode_record r))%nat ->
  decode_one (pre ++ take k (encode_record r)) (length pre) = None.
Proof.
  intros Hwf Hk. unfold decode_one. rewrite length_app, length_take.
  destruct (Z.leb_spec RECORD_HEADER_BYTES (Z.of_nat (length pre + k `min` length (encode_record r))
     - Z.of_nat (length pre))) as [H12|]; [|done].
  unfold RECORD_HEADER_BYTES in H12.
  assert (Hh : from_be (take 4 (drop (length pre) (pre ++ take k (encode_record r))))
               = Z.of_nat (length (encode_body r))).
  { destruct (header_at pre [] r Hwf) as [<- _].
    rewrite !drop_app_length, app_nil_r, take_take. f_equal. f_equal. lia. }
  rewrite Hh. unfold get_range. rewrite length_app, length_take.
  destruct (Z.leb_spec (Z.of_nat (length pre + 8) + Z.of_nat (length (encode_body r)))
    (Z.of_nat (length pre + k `min` length (encode_record r)))) as [H|]; [|done].
  rewrite length_encode_record in *. lia.
Qed.

Lemma decode_one_Some bytes at_ r next :
  decode_one bytes at_ = Some (r, next) ->
  take next bytes = take at_ bytes ++ encode_record r /\ rec_wf r /\
  (at_ < next <= length bytes)%nat.
Proof.
  unfold decode_one, get_range.
  destruct (Z.leb_spec RECORD_HEADER_BYTES (Z.of_nat (length bytes) - Z.of_nat at_)) as [H12|];
    [|by intros]. unfold RECORD_HEADER_BYTES in H12.
  set (len := from_be (take 4 (drop at_ bytes))).
  destruct (Z.leb_spec (Z.of_nat (at_ + 8) + len) (Z.of_nat (length bytes))) as [Hin|]; [|by intros].
  set (body := take (Z.to_nat len) (drop (at_ + 8) bytes)).
  destruct (Z.eqb_spec (checksum body) (from_be (take 4 (drop (at_ + 4) bytes)))) as [Hsum|];
    [|by intros].
  destruct (decode_body body) as [r'|] eqn:Ebody; [|by intros]. intros [= -> <-].
  assert (H4 : forall n, (n + 4 <= length bytes)%nat -> length (take 4 (drop n bytes)) = 4%nat).
  { intros n Hn. rewrite length_take, length_drop. lia. }
  pose proof (from_be_range (take 4 (drop at_ bytes))) as Hlen. fold len in Hlen.
  rewrite H4 in Hlen by lia. change (256 ^ Z.of_nat 4) with (2 ^ 32) in Hlen.
  assert (Hbl : Z.of_nat (length body) = len).
  { unfold body. rewrite length_take, length_drop. lia. }
  destruct (encode_decode_body body r Ebody ltac:(lia)) as [Heq Hwf].
  split; [|split; [done|lia]].
  unfold encode_record. rewrite Heq, Hbl, Z.mod_small, Hsum by lia. unfold len at 2.
  rewrite !to_be_from_be_len by (apply H4; lia).
  replace (at_ + 8 + Z.to_nat len)%nat with (at_ + (4 + (4 + Z.to_nat len)))%nat by lia.
  rewrite <- !take_take_drop, !drop_drop. unfold body. do 4 f_equal; f_equal; lia.
Qed.

Lemma decode_loop_sound fuel : forall bytes acc at_ rs n,
  take at_ bytes = encode_all acc -> Forall rec_wf acc -> (at_ <= length bytes)%nat ->
  decode_loop fuel bytes acc at_ = (rs, n) ->
  take n bytes = encode_all rs /\ Forall rec_wf rs /\ (n <= length bytes)%nat /\
  ((length bytes <= at_ + fuel)%nat -> decode_one bytes n = None).
Proof.
  induction fuel as [|fuel IH]; intros bytes acc at_ rs n Hacc Hwf Hat; cbn [decode_loop].
  - intros [= <- <-]. split_and!; try done. intros Hle. unfold decode_one, RECORD_HEADER_BYTES.
    destruct (Z.leb_spec 12 (Z.of_nat (length bytes) - Z.of_nat at_)); [lia|done].
  - destruct (decode_one bytes at_) as [[r next]|] eqn:E.
    + apply decode_one_Some in E as (Htk & Hr & Hnext). intros H.
      eapply IH in H as (? & ? & ? & Hmax); [| | |lia].
      * split_and!; try done. intros. apply Hmax. lia.
      * rewrite Htk, Hacc. unfold encode_all. rewrite map_app, concat_app. simpl. by rewrite app_nil_r.
      * apply Forall_app. auto.
    + intros [= <- <-]. done.
Qed.

(** ** The codec's properties *)

(** A torn segment decodes to its whole records. *)
Lemma decode_torn (rs : list StreamRec) (r : StreamRec) (k : nat) :
  Forall rec_wf rs -> rec_wf r -> (k < length (encode_record r))%nat ->
  decode_records (encode_all rs ++ take k (encode_record r)) = (rs, length (encode_all rs)).
Proof.
  intros Hrs Hr Hk. unfold decode_records.
  pose proof (length_encode_all_ge rs). rewrite length_app.
  replace (length (encode_all rs) + length (take k (encode_record r)))%nat
    with (length rs + (length (encode_all rs) - length rs + length (take k (encode_record r))))%nat by lia.
  pose proof (decode_loop_encoded rs
    (length (encode_all rs) - length rs + length (take k (encode_record r))) [] (take k (encode_record r)) [] Hrs) as Hd.
  cbn [app length Nat.add] in Hd. rewrite Hd.
  destruct (_ - _ + _)%nat; cbn [decode_loop]; [done|].
  by rewrite decode_one_torn.
Qed.

(** C40. A segment that holds the encodings of well-formed records followed by a
    record cut anywhere inside (a torn write) decodes to exactly the whole
    records, and the number of whole bytes is where the cut record starts. *)
Theorem decode_records_torn (rs : list StreamRec) (r : StreamRec) (k : nat)
  (Hrs : Forall rec_wf rs) (Hr : rec_wf r) (Hk : (k < length (encode_record r))%nat) :
  decode_records (encode_all rs ++ take k (encode_record r)) = (rs, length (encode_all rs)).
Proof. by apply decode_torn. Qed.

(** Whatever bytes a segment holds, decoding returns the longest prefix that
    is a sequence of encoded records: the whole bytes are exactly the encodings
    of the records returned, every one well formed, and no record can be decoded
    after them. In particular a record is never invented or altered. *)
Theorem decode_records_canonical (bytes : list Byte.byte) (rs : list StreamRec) (n : nat)
  (H : decode_records bytes = (rs, n)) :
  take n bytes = encode_all rs /\ Forall rec_wf rs /\ (n <= length bytes)%nat /\
  decode_one bytes n = None.
Proof.
  unfold decode_records in H.
  apply decode_loop_sound in H as (? & ? & ? & Hmax); [|done|constructor|lia].
  split_and!; try done. apply Hmax. lia.
Qed.

(** Cutting a segment at its whole bytes, as [recover] does with the newest
    one, keeps every record: reading it again returns the same records and finds
    nothing more to cut. *)
Theorem decode_records_cut (bytes : list Byte.byte) (rs : list StreamRec) (n : nat)
  (H : decode_records bytes = (rs, n)) :
  decode_records (take n bytes) = (rs, n) /\ length (take n bytes) = n.
Proof.
  unfold decode_records in H.
  apply decode_loop_sound in H as (Htk & Hwf & Hn & _); [|done|constructor|lia].
  assert (Hlen : length (take n bytes) = n) by (rewrite length_take; lia).
  split; [|done]. rewrite Htk in *.
  pose proof (decode_loop_encoded rs (n - length rs) [] [] [] Hwf) as Hd.
  unfold decode_records. cbn [app length Nat.add] in Hd. rewrite app_nil_r, Hlen in *.
  pose proof (length_encode_all_ge rs) as Hle. rewrite Hlen in Hle.
  replace n with (length rs + (n - length rs))%nat at 1 by lia. rewrite Hd.
  destruct (n - length rs)%nat; cbn [decode_loop]; [done|].
  unfold decode_one. rewrite Hlen. destruct (Z.leb_spec RECORD_HEADER_BYTES (Z.of_nat n - Z.of_nat n)) as [Hx|]; [|done].
  unfold RECORD_HEADER_BYTES in Hx. lia.
Qed.

(** ** Witnesses *)

Definition rec_a : StreamRec :=
  mkStreamRec 1 10 Turns "storage.turns" "AI.sales@worker1" (as_bytes "{a:1}").

Definition rec_b : StreamRec :=
  mkStreamRec 2 11 Nodes "storage.usage" "SY.cognition@worker1" (as_bytes "{b:2}").

Lemma decode_records_torn_witness :
  decode_records (encode_all [rec_a; rec_b] ++ take 7 (encode_record rec_a))
  = ([rec_a; rec_b], length (encode_all [rec_a; rec_b])).
Proof.
  apply decode_records_torn.
  - repeat constructor; vm_compute; congruence.
  - repeat constructor; vm_compute; congruence.
  - vm_compute; lia.
Defined.

Lemma decode_records_canonical_witness :
  let bytes := encode_all [rec_a; rec_b] ++ take 7 (encode_record rec_a) in
  let n := length (encode_all [rec_a; rec_b]) in
  take n bytes = encode_all [rec_a; rec_b] /\ Forall rec_wf [rec_a; rec_b] /\
  (n <= length bytes)%nat /\ decode_one bytes n = None.
Proof. intros bytes n. apply (decode_records_canonical bytes). vm_compute. reflexivity. Defined.

Lemma decode_records_cut_witness :
  let bytes := encode_all [rec_a; rec_b] ++ take 7 (encode_record rec_a) in
  let n := length (encode_all [rec_a; rec_b]) in
  decode_records (take n bytes) = ([rec_a; rec_b], n) /\ length (take n bytes) = n.
Proof. intros bytes n. apply (decode_records_cut bytes). vm_compute. reflexivity. Defined.
