(* ===== verification/StreamLog.v ===== *)
(** * The router's stream: the log and its sinks (src/src/router/stream.rs)

    The state [Shared] that the disk thread and the senders share under one
    lock, the operations each of them runs while it holds the lock, and the
    admission of appends. The properties of their interleavings are in
    [StreamSystem]. *)

From Stdlib Require Import ZArith Lia Ascii String.
From stdpp Require Import base list gmap strings fin_maps sorting.
From S2P Require Import Prelude Protocol StreamRecord.
Open Scope Z_scope.

(** ** The window and its knobs *)

Definition STREAM_MAX_AGE_SECS : Z := 120.
Definition STREAM_MAX_BYTES : Z := 32 * 1024 * 1024.
Definition STREAM_NODE_APPENDS_SHARE_PERCENT : Z := 25.
Definition STREAM_BATCH_MAX_RECORDS : Z := 256.
Definition STREAM_BATCH_MAX_BYTES : Z := 96 * 1024.
Definition STREAM_RETRY_MIN_MS : Z := 500.
Definition STREAM_RETRY_MAX_MS : Z := 8000.
Definition STREAM_USAGE_RESERVE_BYTES : Z := 1024 * 1024.
Definition BATCH_ENVELOPE_BYTES : Z := 1024.
Definition BATCH_RECORD_OVERHEAD_BYTES : Z := 96.

Definition SUBJECT_STORAGE_TURNS : string := "storage.turns".
Definition SUBJECT_COGNITION_TURNS : string := "cognition.turns".
Definition SUBJECT_STORAGE_USAGE : string := "storage.usage".
Definition MSG_STREAM_ACK : string := "STREAM_ACK".

(** ** Who appends, who receives *)

Definition role_runs_cognition (role : string) : bool :=
  let r := to_ascii_lowercase (trim role) in (r =s "motherbee") || (r =s "worker").

(** [split('@').next().unwrap_or_default()]: the text before the first [@]. *)
Definition before_at (name : string) : string :=
  match split_once "@" name with Some (l, _) => l | None => name end.

Definition usage_producer_allowed (producer role : string) : bool :=
  let name := to_ascii_lowercase (before_at producer) in
  if name =s "sy.cognition" then role_runs_cognition role
  else if (name =s "sy.frontdesk.gov") || (name =s "sy.architect") || (name =s "sy.admin")
  then eq_ignore_ascii_case (trim role) "motherbee"
  else true.

Definition subject_allowed (subject producer role : string) : bool :=
  (subject =s SUBJECT_STORAGE_USAGE) && usage_producer_allowed producer role.

Definition sinks_for (subject role hive_id : string) : list string :=
  if subject =s SUBJECT_COGNITION_TURNS then
    (if role_runs_cognition role then [("SY.cognition@" ++ hive_id)%string] else [])
  else if (subject =s SUBJECT_STORAGE_TURNS) || (subject =s SUBJECT_STORAGE_USAGE) then
    [("SY.storage@" ++ PRIMARY_HIVE_ID)%string]
  else [].

Definition all_sinks (role hive_id : string) : list string :=
  fold_left
    (fun sinks subj =>
       fold_left (fun sinks sink => if str_mem sink sinks then sinks else sinks ++ [sink])
         (sinks_for subj role hive_id) sinks)
    [SUBJECT_STORAGE_TURNS; SUBJECT_STORAGE_USAGE; SUBJECT_COGNITION_TURNS] [].

(** ** The log *)

Record SinkState := mkSinkState {
  cursor : Z;
  in_flight_up_to : Z;
  delivered : Z;
  expired : Z;
  oversize : Z;
  failures : Z;
  last_ack_ms : Z }.

(** [SinkState::default()]. *)
Definition sink_default : SinkState := mkSinkState 0 0 0 0 0 0 0.

Record Shared := mkShared {
  records : list StreamRec;
  turn_bytes : Z;
  node_bytes : Z;
  usage_lost : Z;
  next_seq : Z;
  fsynced_seq : Z;
  sinks : gmap string SinkState;
  role : string;
  hive_id : string }.

Definition set_sinks (sh : Shared) (s : gmap string SinkState) : Shared :=
  mkShared (records sh) (turn_bytes sh) (node_bytes sh) (usage_lost sh) (next_seq sh)
    (fsynced_seq sh) s (role sh) (hive_id sh).

Definition set_usage_lost (sh : Shared) (n : Z) : Shared :=
  mkShared (records sh) (turn_bytes sh) (node_bytes sh) n (next_seq sh)
    (fsynced_seq sh) (sinks sh) (role sh) (hive_id sh).

(** The sinks of a record of this log: [Shared::sinks_of]. *)
Definition sinks_of (sh : Shared) (subj : string) : list string :=
  sinks_for subj (role sh) (hive_id sh).

(** A record past the window. *)
Definition aged (now : Z) (r : StreamRec) : bool :=
  STREAM_MAX_AGE_SECS * 1000 <? saturating_sub now (ts_ms r).

(** [Shared::record_done]. *)
Definition record_done (sh : Shared) (r : StreamRec) (now : Z) : bool :=
  forallb
    (fun sink =>
       match sinks sh !! sink with
       | Some state =>
         if seq r <=? cursor state then true
         else aged now r && (in_flight_up_to state <? seq r)
       | None => aged now r
       end)
    (sinks_of sh (subject r)).

Definition bump_expired (st : SinkState) : SinkState :=
  mkSinkState (cursor st) (in_flight_up_to st) (delivered st) (expired st + 1) (oversize st)
    (failures st) (last_ack_ms st).

(** The inner loop of [trim]: a sink the record left before it took it. *)
Definition count_expired (r : StreamRec) (sh : Shared) (sink : string) : Shared :=
  match sinks sh !! sink with
  | Some state =>
    if cursor state <? seq r then
      let sh := set_sinks sh (<[sink := bump_expired state]> (sinks sh)) in
      if subject r =s SUBJECT_STORAGE_USAGE then set_usage_lost sh (usage_lost sh + 1) else sh
    else sh
  | None => sh
  end.

(** The body of [trim]'s loop: the front record leaves the log. *)
Definition drop_front (sh : Shared) (r : StreamRec) (rest : list StreamRec) : Shared :=
  let sh := fold_left (count_expired r) (sinks_of sh (subject r)) sh in
  mkShared rest
    (match source r with
     | Turns => saturating_sub (turn_bytes sh) (record_size r) | Nodes => turn_bytes sh end)
    (match source r with
     | Turns => node_bytes sh | Nodes => saturating_sub (node_bytes sh) (record_size r) end)
    (usage_lost sh) (next_seq sh) (fsynced_seq sh) (sinks sh) (role sh) (hive_id sh).

Fixpoint trim_loop (fuel : nat) (now : Z) (sh : Shared) : Shared :=
  match fuel with
  | O => sh
  | S k =>
    match records sh with
    | [] => sh
    | front :: rest =>
      if record_done sh front now then trim_loop k now (drop_front sh front rest) else sh
    end
  end.

(** [Shared::trim]: the trimmed log and the first seq still kept. One turn per
    record is enough. *)
Definition trim (now : Z) (sh : Shared) : Shared * Z :=
  let sh := trim_loop (length (records sh)) now sh in
  (sh, match records sh with r :: _ => seq r | [] => next_seq sh end).

Definition node_cap : Z := STREAM_MAX_BYTES * STREAM_NODE_APPENDS_SHARE_PERCENT / 100.

(** [Shared::fits]. *)
Definition fits (sh : Shared) (src : Source) (subj : string) (size : Z) : bool :=
  let total := turn_bytes sh + node_bytes sh + size in
  match src with
  | Turns =>
    (total <=? STREAM_MAX_BYTES) && (turn_bytes sh + size <=? STREAM_MAX_BYTES - node_cap)
  | Nodes =>
    if subj =s SUBJECT_STORAGE_USAGE then
      (total <=? STREAM_MAX_BYTES) && (node_bytes sh + size <=? node_cap)
    else
      (total <=? STREAM_MAX_BYTES)
      && (node_bytes sh + size <=? node_cap - STREAM_USAGE_RESERVE_BYTES)
  end.

(** ** Taking an append *)

Record Incoming := mkIncoming {
  in_source : Source;
  in_ts_ms : Z;
  in_subject : string;
  in_producer : string;
  in_payload : list byte }.

Record Counters := mkCounters {
  appended_turns : Z;
  appended_nodes : Z;
  dropped_queue_turns : Z;
  dropped_queue_nodes : Z;
  dropped_cap_turns : Z;
  dropped_cap_nodes : Z;
  refused : Z;
  disk_errors : Z;
  ctr_usage_lost : Z }.

Definition count_cap_drop (c : Counters) (src : Source) (usage : bool) : Counters :=
  mkCounters (appended_turns c) (appended_nodes c) (dropped_queue_turns c) (dropped_queue_nodes c)
    (match src with Turns => dropped_cap_turns c + 1 | Nodes => dropped_cap_turns c end)
    (match src with Turns => dropped_cap_nodes c | Nodes => dropped_cap_nodes c + 1 end)
    (refused c) (disk_errors c) (if usage then ctr_usage_lost c + 1 else ctr_usage_lost c).

Definition count_appended (c : Counters) (src : Source) : Counters :=
  mkCounters
    (match src with Turns => appended_turns c + 1 | Nodes => appended_turns c end)
    (match src with Turns => appended_nodes c | Nodes => appended_nodes c + 1 end)
    (dropped_queue_turns c) (dropped_queue_nodes c) (dropped_cap_turns c) (dropped_cap_nodes c)
    (refused c) (disk_errors c) (ctr_usage_lost c).

(** The record an append becomes, with the log's next seq. *)
Definition record_of (sh : Shared) (i : Incoming) : StreamRec :=
  mkStreamRec (next_seq sh) (in_ts_ms i) (in_source i) (in_subject i) (in_producer i)
    (in_payload i).

Definition push_record (sh : Shared) (r : StreamRec) : Shared :=
  mkShared (records sh ++ [r])
    (match source r with Turns => turn_bytes sh + record_size r | Nodes => turn_bytes sh end)
    (match source r with Turns => node_bytes sh | Nodes => node_bytes sh + record_size r end)
    (usage_lost sh) (next_seq sh + 1) (fsynced_seq sh) (sinks sh) (role sh) (hive_id sh).

(** The part of [take_incoming] under the lock: the new log and counters, and the
    record to write to disk, none when it was dropped. *)
Definition take_incoming (now : Z) (i : Incoming) (sh : Shared) (c : Counters)
  : Shared * Counters * option StreamRec :=
  let r := record_of sh i in
  let size := record_size r in
  let place sh := (push_record sh r, count_appended c (source r), Some r) in
  if fits sh (source r) (subject r) size then place sh
  else
    let sh := fst (trim now sh) in
    if fits sh (source r) (subject r) size then place sh
    else (sh, count_cap_drop c (source r) (subject r =s SUBJECT_STORAGE_USAGE), None).

(** ** Planning a batch *)

Inductive BatchPlan :=
| Idle
| Skipped
| Send (batch : list StreamRec) (last_seq : Z) (scanned_up_to : Z).

(** What a record adds to a batch's frame. *)
Definition batch_record_size (r : StreamRec) : Z :=
  Z.of_nat (length (payload r)) + str_len (subject r) + str_len (producer r)
  + BATCH_RECORD_OVERHEAD_BYTES.

Definition too_big (r : StreamRec) : bool :=
  STREAM_BATCH_MAX_BYTES <? batch_record_size r + BATCH_ENVELOPE_BYTES.

(** The variables of [plan_batch]'s loop. *)
Record PlanAcc := mkPlanAcc {
  passed : Z;
  scanned : Z;
  out : list StreamRec;
  bytes : Z;
  acc_expired : Z;
  acc_oversize : Z;
  acc_usage_lost : Z }.

Definition out_is_empty (a : PlanAcc) : bool := match out a with [] => true | _ => false end.

(** One record of the scan: the new variables, or nothing when the loop breaks. *)
Definition plan_step (sh : Shared) (sink : string) (now cur : Z) (a : PlanAcc) (r : StreamRec)
  : option PlanAcc :=
  if seq r <=? cur then Some a
  else if negb (str_mem sink (sinks_for (subject r) (role sh) (hive_id sh))) then
    Some (mkPlanAcc (if out_is_empty a then seq r else passed a) (seq r) (out a) (bytes a)
            (acc_expired a) (acc_oversize a) (acc_usage_lost a))
  else if aged now r || too_big r then
    if negb (out_is_empty a) then None
    else Some (mkPlanAcc (seq r) (seq r) (out a) (bytes a)
                 (if aged now r then acc_expired a + 1 else acc_expired a)
                 (if aged now r then acc_oversize a else acc_oversize a + 1)
                 (if subject r =s SUBJECT_STORAGE_USAGE
                  then acc_usage_lost a + 1 else acc_usage_lost a))
  else if negb (out_is_empty a)
          && ((STREAM_BATCH_MAX_RECORDS <=? Z.of_nat (length (out a)))
              || (STREAM_BATCH_MAX_BYTES <? bytes a + batch_record_size r))
  then None
  else Some (mkPlanAcc (passed a) (seq r) (out a ++ [r]) (bytes a + batch_record_size r)
               (acc_expired a) (acc_oversize a) (acc_usage_lost a)).

Fixpoint plan_scan (sh : Shared) (sink : string) (now cur : Z) (a : PlanAcc)
  (rs : list StreamRec) : PlanAcc :=
  match rs with
  | [] => a
  | r :: rest =>
    match plan_step sh sink now cur a r with
    | Some a' => plan_scan sh sink now cur a' rest
    | None => a
    end
  end.

Definition sink_state (sh : Shared) (sink : string) : SinkState :=
  unwrap_or sink_default (sinks sh !! sink).

(** [plan_batch]. *)
Definition plan_batch (sh : Shared) (sink : string) (now : Z) : Shared * BatchPlan :=
  let cur := cursor (sink_state sh sink) in
  let a := plan_scan sh sink now cur (mkPlanAcc cur cur [] BATCH_ENVELOPE_BYTES 0 0 0)
             (records sh) in
  let state := sink_state sh sink in
  let state_cursor := if cursor state <? passed a then passed a else cursor state in
  let last_of := match last (out a) with Some r => Some (seq r) | None => None end in
  let in_flight := match last_of with Some l => l | None => in_flight_up_to state end in
  let state' := mkSinkState state_cursor in_flight (delivered state)
                  (expired state + acc_expired a) (oversize state + acc_oversize a)
                  (failures state) (last_ack_ms state) in
  let sh' := set_sinks (set_usage_lost sh (usage_lost sh + acc_usage_lost a))
               (<[sink := state']> (sinks sh)) in
  match last_of with
  | None => (sh', if cur <? passed a then Skipped else Idle)
  | Some l => (sh', Send (out a) l (scanned a))
  end.

(** ** Acks *)

Section Acks.
Context {V : Type}.

(** [serde_json::from_value::<StreamAck>]: the [up_to_seq] of an ack's payload. *)
Variable ack_of_value : V -> option Z.

(** [accept_ack]. *)
Definition accept_ack (m : Message V) (sink : string) (cur last_seq scanned_up_to : Z) : option Z :=
  if negb (opt_str_is (msg (meta m)) MSG_STREAM_ACK) then None
  else match src_l2_name (routing m) with
  | None => None
  | Some from =>
    if negb (eq_ignore_ascii_case from sink) then None
    else match ack_of_value (msg_payload m) with
    | None => None
    | Some up_to_seq =>
      if (up_to_seq <=? cur) || (last_seq <? up_to_seq) then None
      else if up_to_seq =? last_seq then Some scanned_up_to
      else Some up_to_seq
    end
  end.

(** What [run_sink] does under the lock once the reply to its batch is in: [reply]
    is the RPC's result, none when it failed or timed out. Returns the new log and
    whether the ack was accepted. *)
Definition sink_reply (sh : Shared) (sink : string) (batch : list StreamRec)
  (last_seq scanned_up_to : Z) (reply : option (Message V)) (now : Z) : Shared * bool :=
  let state := sink_state sh sink in
  let new := match reply with
             | Some m => accept_ack m sink (cursor state) last_seq scanned_up_to
             | None => None
             end in
  match new with
  | Some c =>
    let n := Z.of_nat (length (filter (fun r => seq r <= c) batch)) in
    (set_sinks sh (<[sink := mkSinkState c 0 (delivered state + n) (expired state)
                               (oversize state) (failures state) now]> (sinks sh)), true)
  | None =>
    (set_sinks sh (<[sink := mkSinkState (cursor state) 0 (delivered state) (expired state)
                               (oversize state) (failures state + 1) (last_ack_ms state)]>
                     (sinks sh)), false)
  end.

End Acks.

(** The wait before the next batch after a reply: [run_sink]'s backoff. *)
Definition next_backoff (accepted : bool) (backoff : Z) : Z :=
  if accepted then STREAM_RETRY_MIN_MS else Z.min (backoff * 2) STREAM_RETRY_MAX_MS.

(** ** Specification vocabulary

    [takes sh s r]: [s] is one of the sinks of [r]. [between]: the records of a
    list that [s] takes with a seq in [(lo, hi]]; [above]: in [(lo, +oo)]. *)

Definition takes (sh : Shared) (s : string) (r : StreamRec) : bool :=
  str_mem s (sinks_of sh (subject r)).

Definition between (sh : Shared) (s : string) (lo hi : Z) (l : list StreamRec) : list StreamRec :=
  filter (fun r => takes sh s r = true /\ lo < seq r /\ seq r <= hi) l.

Definition above (sh : Shared) (s : string) (lo : Z) (l : list StreamRec) : list StreamRec :=
  filter (fun r => takes sh s r = true /\ lo < seq r) l.

(** The records the log still owes to a sink. *)
Definition pending (sh : Shared) (s : string) : list StreamRec :=
  above sh s (cursor (sink_state sh s)) (records sh).

(** Every record a sink was ever owed, by what became of it: taken, lost past the
    window, lost for its size, or still in the log. *)
Definition owed (sh : Shared) (s : string) : Z :=
  let st := sink_state sh s in
  delivered st + expired st + oversize st + Z.of_nat (length (pending sh s)).

Definition seq_lt (a b : StreamRec) : Prop := seq a < seq b.

Definition source_bytes (src : Source) (l : list StreamRec) : Z :=
  foldr Z.add 0 (map record_size (filter (fun r => source r = src) l)).

(** The log is in order, its byte counts are those of its records, and every
    cursor is behind the next seq. *)
Record log_ok (sh : Shared) : Prop := {
  log_sorted : StronglySorted seq_lt (records sh);
  log_below : Forall (fun r => 0 < seq r < next_seq sh) (records sh);
  log_turn_bytes : turn_bytes sh = source_bytes Turns (records sh);
  log_node_bytes : node_bytes sh = source_bytes Nodes (records sh);
  log_next : 0 < next_seq sh;
  log_cursors : forall s st, sinks sh !! s = Some st -> 0 <= cursor st < next_seq sh
}.

(** The bytes of the log stay inside the cap, each source inside its share. *)
Definition caps_ok (sh : Shared) : Prop :=
  turn_bytes sh <= STREAM_MAX_BYTES - node_cap /\ node_bytes sh <= node_cap.

(** ** Lemmas: records and their sinks *)

Lemma record_size_pos r : 0 < record_size r.
Proof. unfold record_size, RECORD_HEADER_BYTES, str_len. lia. Qed.

Lemma sinks_for_single subj rl hv :
  sinks_for subj rl hv = [] \/ exists s, sinks_for subj rl hv = [s].
Proof. unfold sinks_for. repeat case_test; eauto. Qed.

Lemma takes_iff sh s r : takes sh s r = true <-> s ∈ sinks_of sh (subject r).
Proof.
  unfold takes, str_mem. rewrite existsb_exists. setoid_rewrite <- list_elem_of_In. split.
  - intros (x & Hx & E). apply String.eqb_eq in E. congruence.
  - intros H. exists s. by rewrite String.eqb_refl.
Qed.

Lemma takes_sinks_of sh s r :
  sinks_of sh (subject r) = if takes sh s r then [s] else
    match sinks_of sh (subject r) with [] => [] | x :: _ => [x] end.
Proof.
  unfold takes, sinks_of. destruct (sinks_for_single (subject r) (role sh) (hive_id sh)) as [->|[x ->]];
    simpl; [done|]. destruct (String.eqb_spec x s); simpl; congruence.
Qed.

Lemma between_app sh s lo hi l1 l2 :
  between sh s lo hi (l1 ++ l2) = between sh s lo hi l1 ++ between sh s lo hi l2.
Proof. apply filter_app. Qed.

Lemma above_app sh s lo l1 l2 : above sh s lo (l1 ++ l2) = above sh s lo l1 ++ above sh s lo l2.
Proof. apply filter_app. Qed.

Lemma filter_none {A} (P : A -> Prop) `{HdP : forall x, Decision (P x)} (l : list A) :
  (forall x, x ∈ l -> ~ P x) -> filter P l = [].
Proof.
  induction l as [|x l IH]; intros H; [done|]. rewrite filter_cons_False by (apply H; left).
  apply IH. intros y Hy. apply H. by right.
Qed.

Lemma filter_ext_in {A} (P Q : A -> Prop) `{HdP : forall x, Decision (P x), HdQ : forall x, Decision (Q x)} (l : list A) :
  (forall x, x ∈ l -> (P x <-> Q x)) -> filter P l = filter Q l.
Proof.
  induction l as [|x l IH]; intros H; [done|]. rewrite !filter_cons.
  rewrite IH by (intros; apply H; by right).
  destruct (decide (P x)), (decide (Q x)); try done; exfalso; specialize (H x ltac:(left)); tauto.
Qed.

Lemma between_empty sh s lo hi l : hi <= lo -> between sh s lo hi l = [].
Proof. intros. apply filter_none. intros. lia. Qed.

Lemma between_raise sh s lo h1 h2 l :
  Forall (fun r => seq r <= h1) l -> h1 <= h2 -> between sh s lo h2 l = between sh s lo h1 l.
Proof.
  rewrite Forall_forall. intros Hl Hh. apply filter_ext_in. intros r Hr. specialize (Hl r Hr).
  simpl in Hl. split; intros (? & ? & ?); split_and!; (done || lia).
Qed.

Lemma between_high sh s lo hi l : Forall (fun r => hi < seq r) l -> between sh s lo hi l = [].
Proof. rewrite Forall_forall. intros Hl. apply filter_none. intros r Hr. specialize (Hl r Hr). simpl in Hl. lia. Qed.

Lemma above_between sh s lo hi l :
  Forall (fun r => seq r <= hi) l -> above sh s lo l = between sh s lo hi l.
Proof.
  rewrite Forall_forall. intros Hl. apply filter_ext_in. intros r Hr. specialize (Hl r Hr).
  simpl in Hl. split; [intros (? & ?)|intros (? & ? & ?)]; split_and!; (done || lia).
Qed.

(** Moving the low end of a sorted log splits off what lies between. *)
Lemma above_split sh s lo mid l :
  StronglySorted seq_lt l -> lo <= mid ->
  above sh s lo l = between sh s lo mid l ++ above sh s mid l.
Proof.
  intros Hs Hm. induction Hs as [|r l Hs IH Hr]; [done|].
  unfold above, between in *. rewrite !filter_cons.
  destruct (decide (takes sh s r = true /\ lo < seq r /\ seq r <= mid)) as [(Ht & Hlo & Hhi)|Hn].
  - rewrite decide_True by done. rewrite (decide_False (P:=_ /\ mid < _)) by lia.
    cbn [app]. by rewrite IH.
  - destruct (decide (takes sh s r = true /\ lo < seq r)) as [[Ht Hlo]|Hn'].
    + assert (mid < seq r) by (destruct (Z.le_gt_cases (seq r) mid); naive_solver).
      rewrite decide_True by done. rewrite IH.
      rewrite (filter_none (fun r0 => _ /\ lo < seq r0 <= mid)); [done|].
      rewrite Forall_forall in Hr. intros x Hx. specialize (Hr x Hx). unfold seq_lt in Hr. lia.
    + rewrite decide_False by (intros [? ?]; apply Hn'; split; [done|lia]). apply IH.
Qed.

(** ** Planning: the invariant of the scan

    [dn] is what the loop has read, [a] its variables. *)

Definition plan_bytes (l : list StreamRec) : Z :=
  BATCH_ENVELOPE_BYTES + foldr Z.add 0 (map batch_record_size l).

Definition is_usage (r : StreamRec) : Prop := (subject r =s SUBJECT_STORAGE_USAGE) = true.

Record plan_inv (sh : Shared) (s : string) (now cur : Z) (dn : list StreamRec) (a : PlanAcc)
  : Prop := {
  pi_order : cur <= passed a <= scanned a;
  pi_scanned : Forall (fun r => seq r <= scanned a) dn;
  pi_scanned_in : scanned a = cur \/ exists r, r ∈ dn /\ seq r = scanned a;
  pi_lost : Z.of_nat (length (between sh s cur (passed a) dn)) = acc_expired a + acc_oversize a;
  pi_usage : Z.of_nat (length (filter is_usage (between sh s cur (passed a) dn))) = acc_usage_lost a;
  pi_out : between sh s (passed a) (scanned a) dn = out a;
  pi_empty : out a = [] -> passed a = scanned a;
  pi_fit : Forall (fun r => aged now r = false /\ too_big r = false) (out a);
  pi_count : Z.of_nat (length (out a)) <= STREAM_BATCH_MAX_RECORDS;
  pi_bytes : bytes a = plan_bytes (out a);
  pi_bytes_max : bytes a <= STREAM_BATCH_MAX_BYTES
}.

Lemma plan_inv_init sh s now cur :
  plan_inv sh s now cur [] (mkPlanAcc cur cur [] BATCH_ENVELOPE_BYTES 0 0 0).
Proof. split; cbn; try done; try lia; by left. Qed.

Lemma plan_bytes_snoc l r : plan_bytes (l ++ [r]) = plan_bytes l + batch_record_size r.
Proof.
  unfold plan_bytes. rewrite map_app, foldr_app. cbn [map foldr].
  assert (H : forall x, foldr Z.add x (map batch_record_size l) = x + foldr Z.add 0 (map batch_record_size l)).
  { intros x. induction l as [|y l IH]; cbn [map foldr]; lia. }
  rewrite H. lia.
Qed.

Lemma out_is_empty_true a : out_is_empty a = true <-> out a = [].
Proof. unfold out_is_empty. destruct (out a); naive_solver. Qed.

Lemma between_snoc_no sh s lo hi dn r :
  ~ (takes sh s r = true /\ lo < seq r /\ seq r <= hi) ->
  between sh s lo hi (dn ++ [r]) = between sh s lo hi dn.
Proof. intros H. rewrite between_app. unfold between at 2. by rewrite filter_singleton_False, app_nil_r. Qed.

Lemma between_snoc_yes sh s lo hi dn r :
  takes sh s r = true /\ lo < seq r /\ seq r <= hi ->
  between sh s lo hi (dn ++ [r]) = between sh s lo hi dn ++ [r].
Proof. intros H. rewrite between_app. unfold between at 2. by rewrite filter_singleton_True. Qed.

Section PlanScan.
Context (sh : Shared) (s : string) (now cur : Z).
#[local] Abbreviation inv := (plan_inv sh s now cur).

(** The records read so far are below the next one. *)
Lemma scanned_lt dn a r :
  inv dn a -> Forall (fun x => seq x < seq r) dn -> cur < seq r -> scanned a < seq r.
Proof.
  intros I Hd Hc. destruct (pi_scanned_in _ _ _ _ _ _ I) as [->|(x & Hx & <-)]; [done|].
  rewrite Forall_forall in Hd. by apply Hd.
Qed.

Lemma scanned_snoc (dn : list StreamRec) (r : StreamRec) n :
  Forall (fun x => seq x < seq r) dn -> seq r <= n -> Forall (fun x => seq x <= n) (dn ++ [r]).
Proof.
  intros Hd Hn. apply Forall_app. split; [|by constructor].
  eapply Forall_impl; [exact Hd|]. simpl. intros; lia.
Qed.

Lemma plan_inv_skip dn a r :
  inv dn a -> Forall (fun x => seq x < seq r) dn -> seq r <= cur -> inv (dn ++ [r]) a.
Proof.
  intros I Hd Hr. destruct I. split; try done.
  - apply scanned_snoc; [done|lia].
  - destruct pi_scanned_in0 as [?|(x & ? & ?)]; [by left|]. right. exists x. rewrite elem_of_app. auto.
  - by rewrite between_snoc_no by lia.
  - by rewrite between_snoc_no by lia.
  - by rewrite between_snoc_no by lia.
Qed.

Lemma plan_inv_other dn a r :
  inv dn a -> Forall (fun x => seq x < seq r) dn -> cur < seq r -> takes sh s r = false ->
  inv (dn ++ [r])
    (mkPlanAcc (if out_is_empty a then seq r else passed a) (seq r) (out a) (bytes a)
       (acc_expired a) (acc_oversize a) (acc_usage_lost a)).
Proof.
  intros I Hd Hr Ht. pose proof (scanned_lt _ _ _ I Hd Hr) as Hlt. destruct I.
  assert (Hp : between sh s cur (if out_is_empty a then seq r else passed a) (dn ++ [r])
               = between sh s cur (passed a) dn).
  { rewrite between_snoc_no by (rewrite Ht; intros [[=] _]).
    destruct (out_is_empty a) eqn:E; [|done]. apply out_is_empty_true in E.
    rewrite (between_raise _ _ _ (scanned a)) by (done || lia). by rewrite <- pi_empty0. }
  split; cbn; rewrite ?Hp; try done.
  - destruct (out_is_empty a); lia.
  - apply scanned_snoc; [done|lia].
  - right. exists r. rewrite elem_of_app, list_elem_of_singleton. auto.
  - rewrite between_snoc_no by (rewrite Ht; intros [[=] _]).
    destruct (out_is_empty a) eqn:E.
    + apply out_is_empty_true in E. rewrite E. apply between_empty. lia.
    + rewrite (between_raise _ _ _ (scanned a)) by (done || lia). done.
  - intros E. by apply out_is_empty_true in E as ->.
Qed.

Lemma plan_inv_lost dn a r :
  inv dn a -> Forall (fun x => seq x < seq r) dn -> cur < seq r -> takes sh s r = true ->
  out a = [] ->
  inv (dn ++ [r])
    (mkPlanAcc (seq r) (seq r) (out a) (bytes a)
       (if aged now r then acc_expired a + 1 else acc_expired a)
       (if aged now r then acc_oversize a else acc_oversize a + 1)
       (if subject r =s SUBJECT_STORAGE_USAGE then acc_usage_lost a + 1 else acc_usage_lost a)).
Proof.
  intros I Hd Hr Ht He. pose proof (scanned_lt _ _ _ I Hd Hr) as Hlt. destruct I.
  assert (Hp : between sh s cur (seq r) (dn ++ [r]) = between sh s cur (passed a) dn ++ [r]).
  { rewrite between_snoc_yes by (split_and!; (done || lia)).
    rewrite (between_raise _ _ _ (scanned a)) by (done || lia). by rewrite <- pi_empty0. }
  split; cbn; rewrite ?Hp; try done; try lia.
  - apply scanned_snoc; [done|lia].
  - right. exists r. rewrite elem_of_app, list_elem_of_singleton. auto.
  - rewrite length_app. simpl. destruct (aged now r); lia.
  - rewrite filter_app, length_app, filter_cons.
    destruct (decide (is_usage r)) as [E|E]; unfold is_usage in E;
      [rewrite E|apply not_true_is_false in E; rewrite E]; cbn; lia.
  - rewrite He. apply between_empty. lia.
Qed.

Lemma plan_inv_push dn a r :
  inv dn a -> Forall (fun x => seq x < seq r) dn -> cur < seq r -> takes sh s r = true ->
  aged now r = false -> too_big r = false ->
  (out a = [] \/ (Z.of_nat (length (out a)) < STREAM_BATCH_MAX_RECORDS /\
                  bytes a + batch_record_size r <= STREAM_BATCH_MAX_BYTES)) ->
  inv (dn ++ [r])
    (mkPlanAcc (passed a) (seq r) (out a ++ [r]) (bytes a + batch_record_size r)
       (acc_expired a) (acc_oversize a) (acc_usage_lost a)).
Proof.
  intros I Hd Hr Ht Ha Hb Hroom. pose proof (scanned_lt _ _ _ I Hd Hr) as Hlt. destruct I.
  assert (Hp : between sh s cur (passed a) (dn ++ [r]) = between sh s cur (passed a) dn).
  { apply between_snoc_no. lia. }
  split; cbn; rewrite ?Hp; try done; try lia.
  - apply scanned_snoc; [done|lia].
  - right. exists r. rewrite elem_of_app, list_elem_of_singleton. auto.
  - rewrite between_snoc_yes by (split_and!; (done || lia)).
    by rewrite (between_raise _ _ _ (scanned a)), pi_out0 by (done || lia).
  - by destruct (out a).
  - apply Forall_app. auto.
  - rewrite length_app. cbn [length]. destruct Hroom as [->|[? _]]; [cbn|]; unfold STREAM_BATCH_MAX_RECORDS in *; lia.
  - by rewrite plan_bytes_snoc, pi_bytes0.
  - destruct Hroom as [E|[_ ?]]; [|lia]. rewrite pi_bytes0, E. unfold plan_bytes. cbn [map foldr].
    unfold too_big in Hb. apply Z.ltb_ge in Hb. lia.
Qed.

(** Each turn keeps the invariant; the loop breaks only with a batch in hand. *)
Lemma plan_step_inv dn a r :
  inv dn a -> Forall (fun x => seq x < seq r) dn ->
  match plan_step sh s now cur a r with
  | Some a' => inv (dn ++ [r]) a'
  | None => out a <> [] /\ cur < seq r
  end.
Proof.
  intros I Hd. unfold plan_step. destruct (Z.leb_spec (seq r) cur) as [|Hc]; [by apply plan_inv_skip|].
  change (str_mem s (sinks_for (subject r) (role sh) (hive_id sh))) with (takes sh s r).
  destruct (takes sh s r) eqn:Ht; cbn [negb]; [|by apply plan_inv_other].
  destruct (out_is_empty a) eqn:He.
  - apply out_is_empty_true in He. cbn [negb andb].
    destruct (aged now r || too_big r) eqn:Hl; [by apply plan_inv_lost|].
    apply orb_false_iff in Hl as [? ?]. apply plan_inv_push; auto.
  - assert (out a <> []) by (intros E%out_is_empty_true; congruence). cbn [negb andb].
    destruct (aged now r || too_big r) eqn:Hl; [done|]. apply orb_false_iff in Hl as [? ?].
    destruct (_ || _) eqn:Hfull; [done|]. apply orb_false_iff in Hfull as [Hn Hy].
    apply Z.leb_gt in Hn. apply Z.ltb_ge in Hy. apply plan_inv_push; auto.
Qed.

(** What the scan leaves: [dn] was read and the rest was not, because a batch is full. *)
Lemma plan_scan_inv rs : forall dn a,
  inv dn a -> StronglySorted seq_lt (dn ++ rs) ->
  let a' := plan_scan sh s now cur a rs in
  exists dn' rest, dn ++ rs = dn' ++ rest /\ inv dn' a' /\
    Forall (fun r => scanned a' < seq r) rest /\ (rest = [] \/ out a' <> []).
Proof.
  induction rs as [|r rs IH]; intros dn a I Hs a'; subst a'; cbn [plan_scan].
  - exists dn, []. split_and!; auto.
  - assert (Hd : Forall (fun x => seq x < seq r) dn).
    { apply Forall_forall. intros x Hx. eapply StronglySorted_app_1_elem_of in Hs; eauto.
      left. }
    pose proof (plan_step_inv dn a r I Hd) as Hstep.
    destruct (plan_step sh s now cur a r) as [a1|].
    + rewrite cons_middle, app_assoc in Hs |- *. by apply IH.
    + destruct Hstep as [Ho Hc]. exists dn, (r :: rs). split_and!; auto.
      pose proof (scanned_lt _ _ _ I Hd Hc). constructor; [done|].
      apply StronglySorted_app_1_r, StronglySorted_cons in Hs as [Hr _].
      eapply Forall_impl; [exact Hr|]. unfold seq_lt. simpl. intros; lia.
Qed.

End PlanScan.

(** ** What a plan does *)

Lemma sink_state_insert sh s st m : sink_state (set_sinks sh (<[s := st]> m)) s = st.
Proof. unfold sink_state. cbn. by rewrite lookup_insert_eq. Qed.

Lemma last_app_Some {A} (l : list A) x : last l = Some x -> exists l', l = l' ++ [x].
Proof. intros H. apply last_Some in H. done. Qed.

(** A batch: records of the sink that are inside the window and fit a frame, the
    ones the log holds from the cursor to the last, in order and none skipped. *)
Record batch_ok (sh : Shared) (s : string) (now cur : Z) (batch : list StreamRec)
  (last_seq scanned_up_to : Z) : Prop := {
  batch_nonempty : batch <> [];
  batch_last : exists l r, batch = l ++ [r] /\ seq r = last_seq;
  batch_exact : between sh s cur scanned_up_to (records sh) = batch;
  batch_order : cur < last_seq <= scanned_up_to;
  batch_known : scanned_up_to < next_seq sh;
  batch_fresh : Forall (fun r => aged now r = false /\ too_big r = false) batch;
  batch_count : Z.of_nat (length batch) <= STREAM_BATCH_MAX_RECORDS;
  batch_frame : plan_bytes batch <= STREAM_BATCH_MAX_BYTES
}.

Record plan_effect (sh sh' : Shared) (s : string) (now : Z) (plan : BatchPlan) : Prop := {
  pe_records : records sh' = records sh;
  pe_turns : turn_bytes sh' = turn_bytes sh;
  pe_nodes : node_bytes sh' = node_bytes sh;
  pe_next : next_seq sh' = next_seq sh;
  pe_role : role sh' = role sh;
  pe_hive : hive_id sh' = hive_id sh;
  pe_fsynced : fsynced_seq sh' = fsynced_seq sh;
  pe_others : forall s', s' <> s -> sinks sh' !! s' = sinks sh !! s';
  pe_known : is_Some (sinks sh' !! s);
  pe_delivered : delivered (sink_state sh' s) = delivered (sink_state sh s);
  pe_cursor : cursor (sink_state sh s) <= cursor (sink_state sh' s) < next_seq sh;
  pe_lost : expired (sink_state sh' s) + oversize (sink_state sh' s)
    = expired (sink_state sh s) + oversize (sink_state sh s)
      + Z.of_nat (length (between sh s (cursor (sink_state sh s)) (cursor (sink_state sh' s))
                            (records sh)));
  pe_usage : usage_lost sh' = usage_lost sh
    + Z.of_nat (length (filter is_usage (between sh s (cursor (sink_state sh s))
                          (cursor (sink_state sh' s)) (records sh))));
  pe_plan : match plan with
    | Idle => cursor (sink_state sh' s) = cursor (sink_state sh s) /\
        in_flight_up_to (sink_state sh' s) = in_flight_up_to (sink_state sh s) /\
        pending sh' s = []
    | Skipped => cursor (sink_state sh s) < cursor (sink_state sh' s) /\
        in_flight_up_to (sink_state sh' s) = in_flight_up_to (sink_state sh s) /\
        pending sh' s = []
    | Send batch last_seq scanned_up_to =>
        in_flight_up_to (sink_state sh' s) = last_seq /\
        batch_ok sh' s now (cursor (sink_state sh' s)) batch last_seq scanned_up_to
    end
}.

Lemma sink_cursor_ok sh s : log_ok sh -> 0 <= cursor (sink_state sh s) < next_seq sh.
Proof.
  intros []. unfold sink_state. destruct (sinks sh !! s) eqn:E; cbn; [eauto|lia].
Qed.

(** The variables of the scan, over the whole log. *)
Record plan_result (sh : Shared) (s : string) (now cur : Z) (a : PlanAcc) : Prop := {
  pr_order : cur <= passed a <= scanned a;
  pr_known : scanned a < next_seq sh;
  pr_lost : Z.of_nat (length (between sh s cur (passed a) (records sh)))
            = acc_expired a + acc_oversize a;
  pr_usage : Z.of_nat (length (filter is_usage (between sh s cur (passed a) (records sh))))
             = acc_usage_lost a;
  pr_out : between sh s (passed a) (scanned a) (records sh) = out a;
  pr_empty : out a = [] -> above sh s (passed a) (records sh) = [];
  pr_fit : Forall (fun r => aged now r = false /\ too_big r = false) (out a);
  pr_count : Z.of_nat (length (out a)) <= STREAM_BATCH_MAX_RECORDS;
  pr_bytes : plan_bytes (out a) <= STREAM_BATCH_MAX_BYTES
}.

Lemma plan_scan_result sh s now cur :
  log_ok sh -> cur < next_seq sh ->
  plan_result sh s now cur
    (plan_scan sh s now cur (mkPlanAcc cur cur [] BATCH_ENVELOPE_BYTES 0 0 0) (records sh)).
Proof.
  intros Hok Hcur.
  destruct (plan_scan_inv sh s now cur (records sh) [] _ (plan_inv_init sh s now cur))
    as (dn & rest & Hsplit & I & Hrest & Hdone); [apply (log_sorted _ Hok)|].
  cbn [app] in Hsplit. set (a := plan_scan _ _ _ _ _ _) in *.
  assert (Hb : forall lo hi, hi <= scanned a -> between sh s lo hi (records sh) = between sh s lo hi dn).
  { intros lo hi Hhi. rewrite Hsplit, between_app, (between_high _ _ _ _ rest), app_nil_r; [done|].
    eapply Forall_impl; [exact Hrest|]. simpl. intros; lia. }
  pose proof (pi_order _ _ _ _ _ _ I) as Hord.
  split; rewrite ?Hb by lia; try apply I.
  - destruct (pi_scanned_in _ _ _ _ _ _ I) as [->|(r & Hr & <-)]; [lia|].
    pose proof (log_below _ Hok) as HF. rewrite Forall_forall in HF. apply HF.
    rewrite Hsplit. set_solver.
  - intros He. destruct Hdone as [->|]; [|done]. rewrite app_nil_r in Hsplit. rewrite Hsplit.
    rewrite (above_between _ _ _ (scanned a)) by apply I. by rewrite (pi_out _ _ _ _ _ _ I).
  - rewrite <- (pi_bytes _ _ _ _ _ _ I). apply I.
Qed.

Lemma plan_batch_effect sh s now :
  log_ok sh -> plan_effect sh (fst (plan_batch sh s now)) s now (snd (plan_batch sh s now)).
Proof.
  intros Hok. pose proof (sink_cursor_ok sh s Hok) as Hcur.
  pose proof (plan_scan_result sh s now _ Hok (proj2 Hcur)) as R. unfold plan_batch.
  set (a := plan_scan _ _ _ _ _ _) in *. set (cur := cursor (sink_state sh s)) in *.
  destruct R as [Hord Hknown Hlost Husage Hout Hempty Hfit Hcount Hbytes].
  assert (Hst : (if cur <? passed a then passed a else cur) = passed a)
    by (destruct (Z.ltb_spec cur (passed a)); lia).
  destruct (last (out a)) as [r|] eqn:Elast; cbn [fst snd].
  - apply last_app_Some in Elast as [l El].
    assert (Hr : r ∈ between sh s (passed a) (scanned a) (records sh)) by (rewrite Hout, El; set_solver).
    apply list_elem_of_filter in Hr as [(_ & Hr1 & Hr2) _].
    split; cbn; rewrite ?sink_state_insert; cbn; rewrite ?Hst; fold cur; try done; try lia.
    + intros. by rewrite lookup_insert_ne.
    + rewrite lookup_insert_eq. eauto.
    + split; [done|]. split; cbn; try done; try lia; [by rewrite El; destruct l|by exists l, r].
  - apply last_None in Elast.
    split; cbn; rewrite ?sink_state_insert; cbn; rewrite ?Hst; fold cur; try done; try lia.
    + intros. by rewrite lookup_insert_ne.
    + rewrite lookup_insert_eq. eauto.
    + unfold pending. rewrite ?sink_state_insert. cbn. rewrite ?Hst.
      destruct (Z.ltb_spec cur (passed a)); (split_and!; [lia|done|by apply Hempty]).
Qed.

(** ** What trimming does *)

Definition add_expired (n : Z) (st : SinkState) : SinkState :=
  mkSinkState (cursor st) (in_flight_up_to st) (delivered st) (expired st + n) (oversize st)
    (failures st) (last_ack_ms st).

(** [gone] leaves the log: only records every one of whose sinks took them, or
    past the window and not in a batch that waits for its ack; each counts once as
    expired for a sink that had not taken it. *)
Record trim_effect (now : Z) (sh sh' : Shared) (gone : list StreamRec) : Prop := {
  te_records : records sh = gone ++ records sh';
  te_next : next_seq sh' = next_seq sh;
  te_role : role sh' = role sh;
  te_hive : hive_id sh' = hive_id sh;
  te_fsynced : fsynced_seq sh' = fsynced_seq sh;
  te_sinks : forall s, sinks sh' !! s
    = (fun st => add_expired (Z.of_nat (length (above sh s (cursor st) gone))) st) <$> sinks sh !! s;
  te_safe : forall r s st, r ∈ gone -> takes sh s r = true -> sinks sh !! s = Some st ->
    cursor st < seq r -> aged now r = true /\ in_flight_up_to st < seq r;
  te_turns : turn_bytes sh = source_bytes Turns (records sh) ->
    turn_bytes sh' = source_bytes Turns (records sh');
  te_nodes : node_bytes sh = source_bytes Nodes (records sh) ->
    node_bytes sh' = source_bytes Nodes (records sh')
}.

Lemma add_expired_0 st : add_expired 0 st = st.
Proof. destruct st. unfold add_expired. cbn. by rewrite Z.add_0_r. Qed.

Lemma trim_effect_refl now sh : trim_effect now sh sh [].
Proof.
  split; try done.
  - intros s. cbn. destruct (sinks sh !! s); cbn; [|done]. by rewrite add_expired_0.
  - intros r s st Hr. set_solver.
Qed.

Lemma count_expired_sinks r sh x s :
  sinks (count_expired r sh x) !! s
  = (fun st => if (x =s s) && (cursor st <? seq r) then add_expired 1 st else st) <$> sinks sh !! s.
Proof.
  unfold count_expired. destruct (String.eqb_spec x s) as [->|Hne].
  - destruct (sinks sh !! s) as [st|] eqn:E; cbn; [|by rewrite E].
    destruct (cursor st <? seq r); [|by rewrite E; cbn].
    destruct (subject r =s _); cbn; by rewrite lookup_insert_eq.
  - cbn. rewrite option_fmap_id. destruct (sinks sh !! x) as [st|]; [|done].
    destruct (cursor st <? seq r); [|done].
    destruct (subject r =s _); cbn; by rewrite lookup_insert_ne.
Qed.

Lemma count_expired_frame r sh x :
  let sh' := count_expired r sh x in
  records sh' = records sh /\ turn_bytes sh' = turn_bytes sh /\ node_bytes sh' = node_bytes sh /\
  next_seq sh' = next_seq sh /\ fsynced_seq sh' = fsynced_seq sh /\ role sh' = role sh /\
  hive_id sh' = hive_id sh.
Proof. unfold count_expired. repeat case_test; done. Qed.

Lemma source_bytes_cons src r l :
  source_bytes src (r :: l)
  = match source r, src with
    | Turns, Turns | Nodes, Nodes => record_size r | _, _ => 0 end + source_bytes src l.
Proof.
  unfold source_bytes. rewrite filter_cons.
  destruct (decide (source r = src)); destruct (source r), src; cbn [map foldr]; (done || lia).
Qed.

Lemma source_bytes_nonneg src l : 0 <= source_bytes src l.
Proof.
  induction l as [|r l IH]; [done|]. rewrite source_bytes_cons.
  pose proof (record_size_pos r). destruct (source r), src; lia.
Qed.

Lemma above_singleton sh s lo r :
  above sh s lo [r] = if takes sh s r && (lo <? seq r) then [r] else [].
Proof.
  unfold above. rewrite filter_cons. destruct (decide _) as [[H1 H2]|Hn].
  - rewrite H1. by apply Z.ltb_lt in H2 as ->.
  - destruct (takes sh s r) eqn:E; cbn [andb]; [|done].
    destruct (Z.ltb_spec lo (seq r)); [|done]. exfalso. auto.
Qed.

Lemma drop_front_effect now sh r rest :
  records sh = r :: rest -> record_done sh r now = true ->
  trim_effect now sh (drop_front sh r rest) [r].
Proof.
  intros Hr Hdone. unfold drop_front.
  assert (Hfold : exists sh1, fold_left (count_expired r) (sinks_of sh (subject r)) sh = sh1 /\
    records sh1 = records sh /\ turn_bytes sh1 = turn_bytes sh /\ node_bytes sh1 = node_bytes sh /\
    next_seq sh1 = next_seq sh /\ fsynced_seq sh1 = fsynced_seq sh /\ role sh1 = role sh /\
    hive_id sh1 = hive_id sh /\ forall s, sinks sh1 !! s =
      (fun st => if takes sh s r && (cursor st <? seq r) then add_expired 1 st else st) <$> sinks sh !! s).
  { eexists. split; [done|]. unfold takes.
    destruct (sinks_for_single (subject r) (role sh) (hive_id sh)) as [E|[x E]];
      unfold sinks_of; rewrite E; cbn [fold_left].
    - split_and!; try done. intros s. cbn. by rewrite option_fmap_id.
    - destruct (count_expired_frame r sh x) as (? & ? & ? & ? & ? & ? & ?). split_and!; try done.
      intros s. rewrite count_expired_sinks. unfold str_mem. cbn [existsb]. by rewrite orb_false_r. }
  destruct Hfold as (sh1 & -> & H1 & H2 & H3 & H4 & H5 & H6 & H7 & Hs).
  split; cbn -[above source_bytes]; try congruence.
  - intros s. rewrite Hs. destruct (sinks sh !! s) as [st|]; cbn -[above]; [|done]. f_equal.
    rewrite above_singleton. destruct (_ && _); cbn; [done|]. by rewrite add_expired_0.
  - intros x s st ->%list_elem_of_singleton Ht Hst Hlt. unfold record_done in Hdone.
    rewrite forallb_forall in Hdone. specialize (Hdone s). rewrite <- list_elem_of_In in Hdone.
    apply takes_iff in Ht. specialize (Hdone Ht). rewrite Hst in Hdone.
    destruct (Z.leb_spec (seq r) (cursor st)); [lia|]. by reflect_bools.
  - rewrite H2, Hr, source_bytes_cons. pose proof (source_bytes_nonneg Turns rest).
    pose proof (record_size_pos r). destruct (source r); cbn -[record_size source_bytes]; unfold saturating_sub; lia.
  - rewrite H3, Hr, source_bytes_cons. pose proof (source_bytes_nonneg Nodes rest).
    pose proof (record_size_pos r). destruct (source r); cbn -[record_size source_bytes]; unfold saturating_sub; lia.
Qed.

Lemma takes_same sh sh' s r :
  role sh' = role sh -> hive_id sh' = hive_id sh -> takes sh' s r = takes sh s r.
Proof. unfold takes, sinks_of. by intros -> ->. Qed.

Lemma above_same sh sh' s lo l :
  role sh' = role sh -> hive_id sh' = hive_id sh -> above sh' s lo l = above sh s lo l.
Proof. intros H1 H2. apply filter_ext_in. intros r _. rewrite (takes_same sh sh') by done. reflexivity. Qed.

Lemma between_same sh sh' s lo hi l :
  role sh' = role sh -> hive_id sh' = hive_id sh -> between sh' s lo hi l = between sh s lo hi l.
Proof. intros H1 H2. apply filter_ext_in. intros r _. rewrite (takes_same sh sh') by done. reflexivity. Qed.

Lemma trim_effect_trans now sh1 sh2 sh3 g1 g2 :
  trim_effect now sh1 sh2 g1 -> trim_effect now sh2 sh3 g2 -> trim_effect now sh1 sh3 (g1 ++ g2).
Proof.
  intros [] [].
  split; try congruence; auto.
  - rewrite <- app_assoc. congruence.
  - intros s. rewrite te_sinks1, te_sinks0. destruct (sinks sh1 !! s) as [st|]; cbn; [|done].
    f_equal. rewrite above_app, length_app, (above_same sh1 sh2) by done.
    unfold add_expired. cbn. f_equal. lia.
  - intros r s st [Hr|Hr]%elem_of_app Ht Hst Hlt; [eauto|].
    assert (Ht' : takes sh2 s r = true) by by rewrite (takes_same sh1).
    apply (te_safe1 r s (add_expired (Z.of_nat (length (above sh1 s (cursor st) g1))) st) Hr Ht');
      [rewrite te_sinks0, Hst; reflexivity|exact Hlt].
Qed.

Lemma trim_loop_effect fuel : forall now sh, exists gone, trim_effect now sh (trim_loop fuel now sh) gone.
Proof.
  induction fuel as [|k IH]; intros now sh; cbn [trim_loop]; [by exists []; apply trim_effect_refl|].
  destruct (records sh) as [|front rest] eqn:Er; [by exists []; apply trim_effect_refl|].
  destruct (record_done sh front now) eqn:Ed; [|by exists []; apply trim_effect_refl].
  destruct (IH now (drop_front sh front rest)) as [g Hg]. exists ([front] ++ g).
  eapply trim_effect_trans; [by apply drop_front_effect|done].
Qed.

(** The loop ends because the front record is not done, not for lack of turns. *)
Lemma trim_loop_done fuel : forall now sh, (length (records sh) <= fuel)%nat ->
  match records (trim_loop fuel now sh) with
  | [] => True
  | front :: _ => record_done (trim_loop fuel now sh) front now = false
  end.
Proof.
  induction fuel as [|k IH]; intros now sh Hlen; cbn [trim_loop].
  - destruct (records sh); [done|cbn in Hlen; lia].
  - destruct (records sh) as [|front rest] eqn:Er; [by rewrite Er|].
    destruct (record_done sh front now) eqn:Ed; [|by rewrite Er].
    apply IH. cbn in *. lia.
Qed.

Lemma trim_effect_ok now sh sh' gone : trim_effect now sh sh' gone -> log_ok sh -> log_ok sh'.
Proof.
  intros [] []. rewrite te_records0 in log_sorted0, log_below0.
  apply StronglySorted_app_1_r in log_sorted0. apply Forall_app in log_below0 as [_ ?].
  split; rewrite ?te_next0; auto.
  intros s st. rewrite te_sinks0. destruct (sinks sh !! s) as [st0|] eqn:E; cbn; [|done].
  intros [= <-]. cbn. eauto.
Qed.

Lemma trim_effect_sink now sh sh' gone s : trim_effect now sh sh' gone ->
  sink_state sh' s = match sinks sh !! s with
    | Some st => add_expired (Z.of_nat (length (above sh s (cursor st) gone))) st
    | None => sink_default end.
Proof. intros []. unfold sink_state. rewrite te_sinks0. by destruct (sinks sh !! s). Qed.

Lemma trim_effect_owed now sh sh' gone s :
  trim_effect now sh sh' gone -> is_Some (sinks sh !! s) -> owed sh' s = owed sh s.
Proof.
  intros T [st Hst]. unfold owed, pending. rewrite (trim_effect_sink _ _ _ _ _ T).
  unfold sink_state. rewrite Hst. cbn. destruct T. rewrite te_records0, above_app, length_app.
  rewrite (above_same sh sh') by done. lia.
Qed.

(** Trimming never touches a record of a batch that waits for its ack. *)
Lemma trim_effect_between now sh sh' gone s st lo hi :
  trim_effect now sh sh' gone -> sinks sh !! s = Some st ->
  cursor st <= lo -> hi <= in_flight_up_to st ->
  between sh' s lo hi (records sh') = between sh s lo hi (records sh).
Proof.
  intros [] Hst Hlo Hhi. rewrite te_records0, between_app, (between_same sh sh') by done.
  assert (between sh s lo hi gone = []) as ->; [|done]. apply filter_none.
  intros r Hr (Ht & H1 & H2). destruct (te_safe0 r s st Hr Ht Hst ltac:(lia)). lia.
Qed.

Lemma source_bytes_app src l1 l2 : source_bytes src (l1 ++ l2) = source_bytes src l1 + source_bytes src l2.
Proof. induction l1 as [|r l1 IH]; [done|]. cbn [app]. rewrite !source_bytes_cons, IH. lia. Qed.

Lemma trim_effect_caps now sh sh' gone : trim_effect now sh sh' gone -> log_ok sh -> caps_ok sh -> caps_ok sh'.
Proof.
  intros T Ok. pose proof (trim_effect_ok _ _ _ _ T Ok) as Ok'. unfold caps_ok.
  rewrite (log_turn_bytes _ Ok), (log_node_bytes _ Ok), (log_turn_bytes _ Ok'), (log_node_bytes _ Ok').
  rewrite (te_records _ _ _ _ T), !source_bytes_app.
  pose proof (source_bytes_nonneg Turns gone). pose proof (source_bytes_nonneg Nodes gone). lia.
Qed.

(** ** What an append does *)

Lemma push_record_ok sh r :
  log_ok sh -> seq r = next_seq sh -> log_ok (push_record sh r).
Proof.
  intros [] Hseq. split; cbn -[source_bytes].
  - apply StronglySorted_app_2; [|done|by repeat constructor].
    intros x y Hx ->%list_elem_of_singleton. rewrite Forall_forall in log_below0.
    specialize (log_below0 x Hx). unfold seq_lt. lia.
  - apply Forall_app. split; [|constructor; [lia|done]].
    eapply Forall_impl; [exact log_below0|]. simpl. lia.
  - rewrite source_bytes_app, source_bytes_cons, log_turn_bytes0. destruct (source r); cbn -[record_size source_bytes];
      change (source_bytes Turns []) with 0; lia.
  - rewrite source_bytes_app, source_bytes_cons, log_node_bytes0. destruct (source r); cbn -[record_size source_bytes];
      change (source_bytes Nodes []) with 0; lia.
  - lia.
  - intros s st Hst. specialize (log_cursors0 s st Hst). lia.
Qed.
