(* ===== verification/StreamQueue.v ===== *)
(** * The queue to the stream's disk thread (src/src/router/stream.rs)

    [StreamHandle::append] is called by every task of the router at once: it takes a
    place in its source's count, then its bytes, then sends on a bounded channel, and
    gives back what it took when one of the three is refused. The disk thread gives
    the rest back as it takes each record. Every atomic operation of a call is a step
    here, so any interleaving of calls with one another and with the disk thread is a
    run of [queue_step]. The theorems: the queue stays within its limits and leaves usage
    records their reserve, the channel itself is never full, and a call ends with its
    record queued once or dropped and counted once. *)

From Stdlib Require Import ZArith Lia String.
From stdpp Require Import base list gmap strings.
From S2P Require Import Prelude Protocol StreamRecord StreamLog.
Open Scope Z_scope.

Definition STREAM_TURN_QUEUE : Z := 4096.
Definition STREAM_NODE_APPEND_QUEUE : Z := 1024.
Definition STREAM_QUEUE_MAX_BYTES : Z := 16 * 1024 * 1024.
Definition STREAM_USAGE_QUEUE_RESERVE : Z := 128.

(** The bound of the channel [open] creates. *)
Definition channel_bound : Z := STREAM_TURN_QUEUE + STREAM_NODE_APPEND_QUEUE.

(** [StreamHandle]: the channel, oldest record first, whether its receiver lives,
    and the atomics. *)
Record Handle := mkHandle {
  tx : list Incoming;
  rx_alive : bool;
  turns_in_queue : Z;
  nodes_in_queue : Z;
  queued_bytes : Z;
  counters : Counters }.

Definition usage (i : Incoming) : bool := in_subject i =s SUBJECT_STORAGE_USAGE.

Definition payload_len (i : Incoming) : Z := Z.of_nat (length (in_payload i)).

(** The count a source uses, and its limit. *)
Definition in_queue (h : Handle) (src : Source) : Z :=
  match src with Turns => turns_in_queue h | Nodes => nodes_in_queue h end.

Definition queue_limit (i : Incoming) : Z :=
  match in_source i with
  | Turns => STREAM_TURN_QUEUE
  | Nodes => if usage i then STREAM_NODE_APPEND_QUEUE
             else STREAM_NODE_APPEND_QUEUE - STREAM_USAGE_QUEUE_RESERVE
  end.

(** [fetch_add] and [fetch_sub], on [usize] and [u64], wrap. *)
Definition add_in_queue (h : Handle) (src : Source) (n : Z) : Handle :=
  mkHandle (tx h) (rx_alive h)
    (match src with Turns => wrap64 (turns_in_queue h + n) | Nodes => turns_in_queue h end)
    (match src with Turns => nodes_in_queue h | Nodes => wrap64 (nodes_in_queue h + n) end)
    (queued_bytes h) (counters h).

Definition add_bytes (h : Handle) (n : Z) : Handle :=
  mkHandle (tx h) (rx_alive h) (turns_in_queue h) (nodes_in_queue h)
    (wrap64 (queued_bytes h + n)) (counters h).

Definition set_counters (h : Handle) (c : Counters) : Handle :=
  mkHandle (tx h) (rx_alive h) (turns_in_queue h) (nodes_in_queue h) (queued_bytes h) c.

Definition set_tx (h : Handle) (l : list Incoming) : Handle :=
  mkHandle l (rx_alive h) (turns_in_queue h) (nodes_in_queue h) (queued_bytes h) (counters h).

(** [try_send]: refused when the channel is full or its receiver is gone. *)
Definition try_send (h : Handle) (i : Incoming) : option Handle :=
  if rx_alive h && (Z.of_nat (length (tx h)) <? channel_bound)
  then Some (set_tx h (tx h ++ [i])) else None.

(** The two halves of the closure [drop_it]. *)
Definition count_queue_drop (c : Counters) (src : Source) : Counters :=
  mkCounters (appended_turns c) (appended_nodes c)
    (match src with Turns => dropped_queue_turns c + 1 | Nodes => dropped_queue_turns c end)
    (match src with Turns => dropped_queue_nodes c | Nodes => dropped_queue_nodes c + 1 end)
    (dropped_cap_turns c) (dropped_cap_nodes c) (refused c) (disk_errors c) (ctr_usage_lost c).

Definition count_usage_lost (c : Counters) : Counters :=
  mkCounters (appended_turns c) (appended_nodes c) (dropped_queue_turns c) (dropped_queue_nodes c)
    (dropped_cap_turns c) (dropped_cap_nodes c) (refused c) (disk_errors c) (ctr_usage_lost c + 1).

(** [count_refused]. *)
Definition count_refused (h : Handle) : Handle :=
  let c := counters h in
  set_counters h
    (mkCounters (appended_turns c) (appended_nodes c) (dropped_queue_turns c)
       (dropped_queue_nodes c) (dropped_cap_turns c) (dropped_cap_nodes c) (refused c + 1)
       (disk_errors c) (ctr_usage_lost c)).

(** Where a call of [append] stands: the atomic operation it does next. *)
Inductive Stage :=
| TakePlace | TakeBytes | TrySend | GiveBytes | GivePlace | CountDrop | CountUsage.

(** How a call ended. *)
Inductive Outcome := Queued | Dropped.

(** One atomic operation of [append]: the handle after it, and where the call goes on
    or how it returned. *)
Definition append_step (h : Handle) (i : Incoming) (st : Stage) : Handle * (Stage + Outcome) :=
  let src := in_source i in
  let bytes := payload_len i in
  match st with
  | TakePlace =>
    (add_in_queue h src 1, inl (if queue_limit i <=? in_queue h src then GivePlace else TakeBytes))
  | TakeBytes =>
    (add_bytes h bytes,
     inl (if STREAM_QUEUE_MAX_BYTES <? wrap64 (queued_bytes h + bytes) then GiveBytes else TrySend))
  | TrySend =>
    match try_send h i with
    | Some h' => (h', inr Queued)
    | None => (h, inl GiveBytes)
    end
  | GiveBytes => (add_bytes h (- bytes), inl GivePlace)
  | GivePlace => (add_in_queue h src (-1), inl CountDrop)
  | CountDrop =>
    (set_counters h (count_queue_drop (counters h) src),
     if usage i then inl CountUsage else inr Dropped)
  | CountUsage => (set_counters h (count_usage_lost (counters h)), inr Dropped)
  end.

(** [append], run with no other call in between; seven operations are enough. *)
Fixpoint append_from (fuel : nat) (h : Handle) (i : Incoming) (st : Stage) : Handle * option Outcome :=
  match fuel with
  | O => (h, None)
  | S k => match append_step h i st with
           | (h', inl st') => append_from k h' i st'
           | (h', inr o) => (h', Some o)
           end
  end.

Definition append (h : Handle) (i : Incoming) : Handle * option Outcome :=
  append_from 7 h i TakePlace.

(** [append_turn], [append_cognition_turn] and [append_from_node]; [now] is what
    [now_ms] returns. *)
Definition append_turn (h : Handle) (producer : string) (payload : list byte) (now : Z) :=
  append h (mkIncoming Turns now SUBJECT_STORAGE_TURNS producer payload).

Definition append_cognition_turn (h : Handle) (agent_node : string) (payload : list byte) (now : Z) :=
  append h (mkIncoming Turns now SUBJECT_COGNITION_TURNS agent_node payload).

Definition append_from_node (h : Handle) (subj producer : string) (payload : list byte) (now : Z) :=
  append h (mkIncoming Nodes now subj producer payload).

(** Where [run_disk] stands with the record it took from the channel: it gives the
    place back, then the bytes, and then places the record in the log. *)
Inductive Taker := Receiving | TookPlace (i : Incoming) | TookBytes (i : Incoming).

(** The handle [open] makes. *)
Definition open_handle : Handle := mkHandle [] true 0 0 0 (mkCounters 0 0 0 0 0 0 0 0 0).

Record Queue := mkQueue {
  handle : Handle;
  calls : list (Incoming * Stage);
  taker : Taker }.

Definition open_queue : Queue := mkQueue open_handle [] Receiving.

(** What a step shows: a call began, a call returned, the disk thread took a record. *)
Inductive Event :=
| Began (i : Incoming)
| Returned (i : Incoming) (o : Outcome)
| Took (i : Incoming)
| Silent.

(** The calls the router's threads may be in at once, and the largest payload: far
    above what a router runs, far below what the counts can hold. *)
Definition max_calls : Z := 2 ^ 20.
Definition max_payload : Z := 2 ^ 40.

Inductive queue_step (q : Queue) : Event -> Queue -> Prop :=
| step_begin i :
    Z.of_nat (length (calls q)) < max_calls -> payload_len i <= max_payload ->
    queue_step q (Began i) (mkQueue (handle q) ((i, TakePlace) :: calls q) (taker q))
| step_call l1 i st l2 h st' :
    calls q = l1 ++ (i, st) :: l2 -> append_step (handle q) i st = (h, inl st') ->
    queue_step q Silent (mkQueue h (l1 ++ (i, st') :: l2) (taker q))
| step_return l1 i st l2 h o :
    calls q = l1 ++ (i, st) :: l2 -> append_step (handle q) i st = (h, inr o) ->
    queue_step q (Returned i o) (mkQueue h (l1 ++ l2) (taker q))
| step_recv i rest :
    taker q = Receiving -> tx (handle q) = i :: rest ->
    queue_step q (Took i) (mkQueue (set_tx (handle q) rest) (calls q) (TookPlace i))
| step_give_place i :
    taker q = TookPlace i ->
    queue_step q Silent (mkQueue (add_in_queue (handle q) (in_source i) (-1)) (calls q) (TookBytes i))
| step_give_bytes i :
    taker q = TookBytes i ->
    queue_step q Silent (mkQueue (add_bytes (handle q) (- payload_len i)) (calls q) Receiving)
| step_gone :
    queue_step q Silent (mkQueue (mkHandle (tx (handle q)) false (turns_in_queue (handle q))
      (nodes_in_queue (handle q)) (queued_bytes (handle q)) (counters (handle q)))
      (calls q) (taker q)).

Inductive queue_run (q : Queue) : list Event -> Queue -> Prop :=
| qrun_refl : queue_run q [] q
| qrun_step e q1 es q2 : queue_step q e q1 -> queue_run q1 es q2 -> queue_run q (e :: es) q2.

(** ** The invariant

    [held w p ho q]: the weight [w] of the records in the channel, of the calls that
    stand where [p] holds, and of the record the disk thread has not given back. *)

Definition call_weight (w : Incoming -> Z) (p : Stage -> bool) (c : Incoming * Stage) : Z :=
  if p (snd c) then w (fst c) else 0.

Definition held (w : Incoming -> Z) (p : Stage -> bool) (ho : Taker -> option Incoming) (q : Queue) : Z :=
  sum_of w (tx (handle q)) + sum_of (call_weight w p) (calls q)
  + match ho (taker q) with Some i => w i | None => 0 end.

(** The stages at which a call has its place, or its bytes, in the counts; and those
    at which they were granted and not refused. *)
Definition has_place (st : Stage) : bool :=
  match st with TakeBytes | TrySend | GiveBytes | GivePlace => true | _ => false end.
Definition has_bytes (st : Stage) : bool := match st with TrySend | GiveBytes => true | _ => false end.
Definition granted_place (st : Stage) : bool := match st with TakeBytes | TrySend => true | _ => false end.
Definition granted_bytes (st : Stage) : bool := match st with TrySend => true | _ => false end.

Definition taker_place (t : Taker) : option Incoming := match t with TookPlace i => Some i | _ => None end.
Definition taker_bytes (t : Taker) : option Incoming :=
  match t with TookPlace i | TookBytes i => Some i | Receiving => None end.

Definition is_turn (i : Incoming) : Z := match in_source i with Turns => 1 | Nodes => 0 end.
Definition is_node (i : Incoming) : Z := match in_source i with Turns => 0 | Nodes => 1 end.
Definition is_other_node (i : Incoming) : Z := if usage i then 0 else is_node i.

Record queue_ok (q : Queue) : Prop := {
  qk_turns : turns_in_queue (handle q) = held is_turn has_place taker_place q;
  qk_nodes : nodes_in_queue (handle q) = held is_node has_place taker_place q;
  qk_bytes : queued_bytes (handle q) = held payload_len has_bytes taker_bytes q;
  qk_turn_limit : held is_turn granted_place taker_place q <= STREAM_TURN_QUEUE;
  qk_node_limit : held is_node granted_place taker_place q <= STREAM_NODE_APPEND_QUEUE;
  qk_other_limit : held is_other_node granted_place taker_place q
                   <= STREAM_NODE_APPEND_QUEUE - STREAM_USAGE_QUEUE_RESERVE;
  qk_byte_limit : held payload_len granted_bytes taker_bytes q <= STREAM_QUEUE_MAX_BYTES;
  qk_calls : Z.of_nat (length (calls q)) <= max_calls;
  qk_payloads : forall i st, (i, st) ∈ calls q -> payload_len i <= max_payload;
  qk_usage : forall i, (i, CountUsage) ∈ calls q -> usage i = true }.

Lemma payload_len_nonneg i : 0 <= payload_len i.
Proof. unfold payload_len. lia. Qed.

Lemma weights_bounds i :
  0 <= is_turn i <= 1 /\ 0 <= is_node i <= 1 /\ 0 <= is_other_node i <= is_node i /\
  is_turn i + is_node i = 1.
Proof. unfold is_other_node, is_turn, is_node. destruct (in_source i), (usage i); lia. Qed.

Lemma sum_of_nonneg {A} (f : A -> Z) l : (forall x, 0 <= f x) -> 0 <= sum_of f l.
Proof. intros H. induction l as [|x l IH]; [done|]. rewrite sum_of_cons. specialize (H x). lia. Qed.

Lemma sum_of_le {A} (f g : A -> Z) l : (forall x, f x <= g x) -> sum_of f l <= sum_of g l.
Proof. intros H. induction l as [|x l IH]; [done|]. rewrite !sum_of_cons. specialize (H x). lia. Qed.

Lemma call_weight_nonneg w p : (forall i, 0 <= w i) -> forall c, 0 <= call_weight w p c.
Proof. intros Hw [i st]. unfold call_weight. cbn [fst snd]. destruct (p st); [apply Hw|lia]. Qed.

(** What a stage holds is at least what it was granted, and at most [b] more a call. *)
Lemma held_stages w b p g ho q :
  (forall i, 0 <= w i) -> (forall st, g st = true -> p st = true) ->
  (forall i st, (i, st) ∈ calls q -> w i <= b) -> 0 <= b ->
  0 <= held w g ho q <= held w p ho q /\
  held w p ho q <= held w g ho q + b * Z.of_nat (length (calls q)).
Proof.
  intros Hw Hg Hb Hb0. unfold held.
  assert (0 <= match ho (taker q) with Some i => w i | None => 0 end) by (destruct (ho _); [apply Hw|lia]).
  pose proof (sum_of_nonneg w (tx (handle q)) Hw).
  pose proof (sum_of_nonneg _ (calls q) (call_weight_nonneg w g Hw)).
  assert (sum_of (call_weight w g) (calls q) <= sum_of (call_weight w p) (calls q)).
  { apply sum_of_le. intros [i st]. unfold call_weight. cbn.
    destruct (g st) eqn:E; [by rewrite (Hg _ E)|]. destruct (p st); [apply Hw|lia]. }
  assert (0 <= sum_of (call_weight w p) (calls q) <= b * Z.of_nat (length (calls q))).
  { apply sum_of_bounds. intros [i st] Hin. unfold call_weight. cbn.
    specialize (Hw i). specialize (Hb _ _ Hin). destruct (p st); lia. }
  lia.
Qed.

(** The counts never come near their width. *)
Lemma counts_in_range q : queue_ok q ->
  0 <= turns_in_queue (handle q) < 2 ^ 32 /\ 0 <= nodes_in_queue (handle q) < 2 ^ 32 /\
  0 <= queued_bytes (handle q) < 2 ^ 62 /\
  held is_turn granted_place taker_place q <= turns_in_queue (handle q) /\
  held is_node granted_place taker_place q <= nodes_in_queue (handle q) /\
  held payload_len granted_bytes taker_bytes q <= queued_bytes (handle q).
Proof.
  intros []. rewrite qk_turns0, qk_nodes0, qk_bytes0.
  assert (forall g p : Stage -> bool, Forall (fun st => g st = true -> p st = true)
    [TakePlace; TakeBytes; TrySend; GiveBytes; GivePlace; CountDrop; CountUsage] ->
    forall st, g st = true -> p st = true) as Hst.
  { intros g p H st. rewrite Forall_forall in H. apply H. destruct st; set_solver. }
  destruct (held_stages is_turn 1 has_place granted_place taker_place q) as [H1 H2];
    [apply weights_bounds|apply Hst; repeat constructor; done|intros; apply weights_bounds|lia|].
  destruct (held_stages is_node 1 has_place granted_place taker_place q) as [H3 H4];
    [apply weights_bounds|apply Hst; repeat constructor; done|intros; apply weights_bounds|lia|].
  destruct (held_stages payload_len max_payload has_bytes granted_bytes taker_bytes q) as [H5 H6];
    [apply payload_len_nonneg|apply Hst; repeat constructor; done|done|done|].
  unfold STREAM_TURN_QUEUE, STREAM_NODE_APPEND_QUEUE, STREAM_QUEUE_MAX_BYTES, max_calls, max_payload in *.
  lia.
Qed.

Lemma other_le_node q :
  held is_other_node granted_place taker_place q <= held is_node granted_place taker_place q.
Proof.
  unfold held.
  assert (sum_of is_other_node (tx (handle q)) <= sum_of is_node (tx (handle q)))
    by (apply sum_of_le; intros; apply weights_bounds).
  assert (sum_of (call_weight is_other_node granted_place) (calls q)
          <= sum_of (call_weight is_node granted_place) (calls q)).
  { apply sum_of_le. intros [i st]. unfold call_weight. cbn.
    pose proof (weights_bounds i). destruct (granted_place st); lia. }
  destruct (taker_place _) as [i|]; [pose proof (weights_bounds i)|]; lia.
Qed.

Ltac queue_consts :=
  unfold STREAM_TURN_QUEUE, STREAM_NODE_APPEND_QUEUE, STREAM_USAGE_QUEUE_RESERVE,
    STREAM_QUEUE_MAX_BYTES, max_calls, max_payload in *.

Lemma elem_of_replace {A} (l1 l2 : list A) x y z :
  z ∈ l1 ++ y :: l2 -> z = y \/ z ∈ l1 ++ x :: l2.
Proof. rewrite !elem_of_app, !elem_of_cons. tauto. Qed.

(** A call that moves from one stage to another changes what is held by its own weight. *)
Lemma held_move w p ho q h l1 i st st' l2 : calls q = l1 ++ (i, st) :: l2 -> tx h = tx (handle q) ->
  held w p ho (mkQueue h (l1 ++ (i, st') :: l2) (taker q))
  = held w p ho q + (if p st' then w i else 0) - (if p st then w i else 0).
Proof.
  intros Hc Ht. unfold held. cbn [handle calls taker]. rewrite Hc, Ht, !sum_of_app, !sum_of_cons.
  unfold call_weight at 2 5. cbn [fst snd]. lia.
Qed.

(** A call that returns leaves what it held, less what it put in the channel. *)
Lemma held_return w p ho q h l1 i st l2 sent : calls q = l1 ++ (i, st) :: l2 ->
  tx h = tx (handle q) ++ sent ->
  held w p ho (mkQueue h (l1 ++ l2) (taker q))
  = held w p ho q + sum_of w sent - (if p st then w i else 0).
Proof.
  intros Hc Ht. unfold held. cbn [handle calls taker]. rewrite Hc, Ht, !sum_of_app, !sum_of_cons.
  unfold call_weight at 4. cbn [fst snd]. lia.
Qed.

(** What is in the channel, what a call holds and what the disk thread holds are each
    part of what is held. *)
Lemma held_more w p ho q l1 i st l2 : (forall j, 0 <= w j) -> calls q = l1 ++ (i, st) :: l2 ->
  p st = true -> sum_of w (tx (handle q)) + w i <= held w p ho q.
Proof.
  intros Hw Hc Hp. unfold held. rewrite Hc, sum_of_app, sum_of_cons.
  pose proof (sum_of_nonneg _ l1 (call_weight_nonneg w p Hw)).
  pose proof (sum_of_nonneg _ l2 (call_weight_nonneg w p Hw)).
  unfold call_weight at 2. cbn [fst snd]. rewrite Hp.
  destruct (ho _) as [j|]; [pose proof (Hw j)|]; lia.
Qed.

Lemma held_call w p ho q l1 i st l2 : (forall j, 0 <= w j) -> calls q = l1 ++ (i, st) :: l2 ->
  p st = true -> w i <= held w p ho q.
Proof.
  intros Hw Hc Hp. pose proof (held_more w p ho q _ _ _ _ Hw Hc Hp).
  pose proof (sum_of_nonneg w (tx (handle q)) Hw). lia.
Qed.

Lemma held_tx w p ho q : (forall j, 0 <= w j) -> sum_of w (tx (handle q)) <= held w p ho q.
Proof.
  intros Hw. unfold held. pose proof (sum_of_nonneg _ (calls q) (call_weight_nonneg w p Hw)).
  destruct (ho _) as [j|]; [pose proof (Hw j)|]; lia.
Qed.

Lemma length_by_source l : Z.of_nat (length l) = sum_of is_turn l + sum_of is_node l.
Proof.
  induction l as [|i l IH]; [done|]. rewrite !sum_of_cons. cbn [length].
  pose proof (weights_bounds i). lia.
Qed.

Lemma held_taker w p ho q i : (forall j, 0 <= w j) -> ho (taker q) = Some i -> w i <= held w p ho q.
Proof.
  intros Hw Ht. unfold held. rewrite Ht. pose proof (sum_of_nonneg w (tx (handle q)) Hw).
  pose proof (sum_of_nonneg _ (calls q) (call_weight_nonneg w p Hw)). lia.
Qed.

Lemma is_turn_nonneg i : 0 <= is_turn i.
Proof. apply weights_bounds. Qed.

Lemma is_node_nonneg i : 0 <= is_node i.
Proof. apply weights_bounds. Qed.

#[local] Hint Resolve is_turn_nonneg is_node_nonneg payload_len_nonneg : rust.

Lemma append_step_ok l1 i st l2 q h st' :
  queue_ok q -> calls q = l1 ++ (i, st) :: l2 -> append_step (handle q) i st = (h, inl st') ->
  queue_ok (mkQueue h (l1 ++ (i, st') :: l2) (taker q)).
Proof.
  intros Ok Hc E. pose proof (counts_in_range q Ok) as R. pose proof (payload_len_nonneg i) as Hp.
  pose proof (other_le_node q) as Ho. destruct Ok as [K1 K2 K3 K4 K5 K6 K7 K8 K9 K10].
  assert (payload_len i <= max_payload) as Hm
    by (apply (K9 i st); rewrite Hc, elem_of_app, elem_of_cons; tauto).
  assert (tx h = tx (handle q)) as Ht.
  { unfold append_step in E. repeat case_match; simplify_eq; done. }
  assert (forall j stj, (j, stj) ∈ l1 ++ (i, st') :: l2 -> payload_len j <= max_payload) as Hall.
  { intros j stj [[= -> ->]|Hin]%(elem_of_replace _ _ (i, st)); [done|].
    rewrite <- Hc in Hin. by apply (K9 j stj). }
  assert (forall j, (j, CountUsage) ∈ l1 ++ (i, st') :: l2 -> usage j = true) as Hus.
  { intros j [[= -> <-]|Hin]%(elem_of_replace _ _ (i, st)).
    - unfold append_step in E. repeat case_match; simplify_eq; done.
    - apply K10. by rewrite Hc. }
  assert (Z.of_nat (length (l1 ++ (i, st') :: l2)) <= max_calls) as Hlen
    by (rewrite Hc, !length_app in *; done).
  pose proof (fun w p ho Hn => held_call w p ho q l1 i st l2 Hn Hc) as Hh.
  pose proof (Hh is_turn has_place taker_place ltac:(auto with rust)) as Hh1.
  pose proof (Hh is_node has_place taker_place ltac:(auto with rust)) as Hh2.
  pose proof (Hh payload_len has_bytes taker_bytes ltac:(auto with rust)) as Hh3. clear Hh.
  pose proof (fun w p ho => held_move w p ho q h l1 i st st' l2 Hc Ht) as Hw.
  split; rewrite ?Hw; try done.
  all: clear Hw Hall Hus Hlen K8 K9 K10 Hc Ht; unfold append_step, queue_limit, in_queue in E;
    repeat case_match; simplify_eq; reflect_bools;
    unfold is_other_node, is_turn, is_node in *;
    cbn [handle has_place has_bytes granted_place granted_bytes add_in_queue add_bytes set_counters
         turns_in_queue nodes_in_queue queued_bytes] in *;
    try specialize (Hh1 eq_refl); try specialize (Hh2 eq_refl); try specialize (Hh3 eq_refl);
    repeat case_match; simplify_eq; queue_consts;
    rewrite ?wrap64_id in * by lia; try lia.
Qed.

(** A call that returns queued its record, from [TrySend]; or it holds nothing. *)
Lemma append_step_returns h i st h' o : append_step h i st = (h', inr o) ->
  match o with
  | Queued => st = TrySend /\ h' = set_tx h (tx h ++ [i]) /\ rx_alive h = true
  | Dropped => tx h' = tx h /\ has_place st = false /\ has_bytes st = false /\
               turns_in_queue h' = turns_in_queue h /\ nodes_in_queue h' = nodes_in_queue h /\
               queued_bytes h' = queued_bytes h
  end.
Proof.
  unfold append_step, try_send. intros E. repeat case_match; simplify_eq; try done.
  reflect_bools. done.
Qed.

Lemma granted_has st : has_place st = false -> granted_place st = false.
Proof. by destruct st. Qed.

Lemma granted_has_bytes st : has_bytes st = false -> granted_bytes st = false.
Proof. by destruct st. Qed.

Lemma append_return_ok l1 i st l2 q h o :
  queue_ok q -> calls q = l1 ++ (i, st) :: l2 -> append_step (handle q) i st = (h, inr o) ->
  queue_ok (mkQueue h (l1 ++ l2) (taker q)).
Proof.
  intros Ok Hc E. pose proof (append_step_returns _ _ _ _ _ E) as Hr. destruct Ok as [K1 K2 K3 K4 K5 K6 K7 K8 K9 K10].
  assert (Z.of_nat (length (l1 ++ l2)) <= max_calls) as Hlen
    by (rewrite Hc, !length_app in *; cbn in *; lia).
  assert (forall j stj, (j, stj) ∈ l1 ++ l2 -> payload_len j <= max_payload) as Hall.
  { intros j stj Hin. apply (K9 j stj). rewrite Hc, elem_of_app, elem_of_cons. apply elem_of_app in Hin. tauto. }
  assert (forall j, (j, CountUsage) ∈ l1 ++ l2 -> usage j = true) as Hus.
  { intros j Hin. apply K10. rewrite Hc, elem_of_app, elem_of_cons. apply elem_of_app in Hin. tauto. }
  destruct o.
  - destruct Hr as (-> & -> & _).
    pose proof (fun w p ho => held_return w p ho q (set_tx (handle q) (tx (handle q) ++ [i])) l1 i TrySend l2 [i] Hc eq_refl) as Hw.
    split; try done; rewrite Hw, sum_of_cons, sum_of_nil; cbn -[held]; lia.
  - destruct Hr as (Ht & Hp & Hb & E1 & E2 & E3). rewrite <- (app_nil_r (tx (handle q))) in Ht.
    pose proof (fun w p ho => held_return w p ho q h l1 i st l2 [] Hc Ht) as Hw.
    pose proof (granted_has _ Hp) as Hg. pose proof (granted_has_bytes _ Hb) as Hgb.
    split; try done; rewrite Hw, sum_of_nil, ?Hp, ?Hb, ?Hg, ?Hgb; cbn -[held]; lia.
Qed.

(** What the disk thread takes from the channel it holds until it gives it back. *)
Lemma held_recv w p q i rest ho : tx (handle q) = i :: rest -> ho (taker q) = None -> ho (TookPlace i) = Some i ->
  held w p ho (mkQueue (set_tx (handle q) rest) (calls q) (TookPlace i)) = held w p ho q.
Proof.
  intros Hx Hn Hi. unfold held. cbn [handle set_tx tx calls taker]. rewrite Hx, Hn, Hi, sum_of_cons. lia.
Qed.

Lemma held_give w p ho q h t i : tx h = tx (handle q) -> ho (taker q) = Some i -> ho t = None ->
  held w p ho (mkQueue h (calls q) t) = held w p ho q - w i.
Proof. intros Hx Hn Hi. unfold held. cbn [handle calls taker]. rewrite Hx, Hn, Hi. lia. Qed.

Lemma held_same w p ho q h t : tx h = tx (handle q) -> ho (taker q) = ho t ->
  held w p ho (mkQueue h (calls q) t) = held w p ho q.
Proof. intros Hx Hn. unfold held. cbn [handle calls taker]. by rewrite Hx, Hn. Qed.

Lemma queue_step_ok q e q' : queue_ok q -> queue_step q e q' -> queue_ok q'.
Proof.
  intros Ok S. pose proof (counts_in_range q Ok) as R.
  destruct S as [i Hn Hp|l1 i st l2 h st' Hc E|l1 i st l2 h o Hc E|i rest Ht Hx|i Ht|i Ht|].
  - assert (forall w p ho, p TakePlace = false ->
      held w p ho (mkQueue (handle q) ((i, TakePlace) :: calls q) (taker q)) = held w p ho q) as Hw.
    { intros w p ho Hp0. unfold held. cbn [handle calls taker]. rewrite sum_of_cons.
      unfold call_weight at 1. cbn [fst snd]. rewrite Hp0. lia. }
    destruct Ok. split; rewrite ?Hw by done; try done; cbn [calls length]; [lia| |].
    + intros j stj [[= -> ->]|Hin]%elem_of_cons; eauto.
    + intros j [[=]|Hin]%elem_of_cons; eauto.
  - by eapply append_step_ok.
  - by eapply append_return_ok.
  - destruct Ok. split; rewrite ?held_recv by (done || by rewrite Ht); done.
  - destruct Ok.
    pose proof (held_taker is_turn has_place taker_place q i ltac:(auto with rust) ltac:(by rewrite Ht)).
    pose proof (held_taker is_node has_place taker_place q i ltac:(auto with rust) ltac:(by rewrite Ht)).
    pose proof (weights_bounds i).
    split; try done; rewrite ?(held_give _ _ taker_place _ _ _ i), ?(held_same _ _ taker_bytes) by (done || by rewrite Ht);
      cbn -[held]; try done; try lia; unfold is_turn, is_node in *; destruct (in_source i); rewrite ?wrap64_id; lia.
  - destruct Ok.
    pose proof (held_taker payload_len has_bytes taker_bytes q i ltac:(auto with rust) ltac:(by rewrite Ht)).
    pose proof (payload_len_nonneg i).
    split; try done; rewrite ?(held_give _ _ taker_bytes _ _ _ i), ?(held_same _ _ taker_place) by (done || by rewrite Ht);
      cbn -[held]; try done; try lia. rewrite wrap64_id; lia.
  - destruct Ok. split; try done; rewrite (held_same _ _ _ q) by done; done.
Qed.

Lemma open_queue_ok : queue_ok open_queue.
Proof. split; try done; [by intros i st ?%elem_of_nil|by intros i ?%elem_of_nil]. Qed.

Lemma queue_run_ok q es q' : queue_ok q -> queue_run q es q' -> queue_ok q'.
Proof. intros Ok R. induction R; eauto using queue_step_ok. Qed.

(** ** What a run shows *)

Definition event_began (e : Event) : list Incoming := match e with Began i => [i] | _ => [] end.
Definition event_took (e : Event) : list Incoming := match e with Took i => [i] | _ => [] end.
Definition event_queued (e : Event) : list Incoming := match e with Returned i Queued => [i] | _ => [] end.
Definition event_dropped (e : Event) : list Incoming := match e with Returned i Dropped => [i] | _ => [] end.

Definition began (es : list Event) : list Incoming := es ≫= event_began.
Definition took (es : list Event) : list Incoming := es ≫= event_took.
Definition queued (es : list Event) : list Incoming := es ≫= event_queued.
Definition dropped (es : list Event) : list Incoming := es ≫= event_dropped.

Definition usage_one (i : Incoming) : Z := if usage i then 1 else 0.

(** The calls that counted their drop and have their usage still to count. *)
Definition half_counted (st : Stage) : bool := match st with CountUsage => true | _ => false end.

Definition dropped_in_queue (c : Counters) : Source -> Z :=
  fun src => match src with Turns => dropped_queue_turns c | Nodes => dropped_queue_nodes c end.

(** What a step adds to the calls and to the counters is what its event says. *)
Record step_counts (q q' : Queue) (e : Event) : Prop := {
  sc_calls : event_began e ++ map fst (calls q) ≡ₚ event_queued e ++ event_dropped e ++ map fst (calls q');
  sc_fifo : tx (handle q) ++ event_queued e = event_took e ++ tx (handle q');
  sc_turns : dropped_queue_turns (counters (handle q')) - sum_of (call_weight is_turn half_counted) (calls q')
    = dropped_queue_turns (counters (handle q)) - sum_of (call_weight is_turn half_counted) (calls q)
      + sum_of is_turn (event_dropped e);
  sc_nodes : dropped_queue_nodes (counters (handle q')) - sum_of (call_weight is_node half_counted) (calls q')
    = dropped_queue_nodes (counters (handle q)) - sum_of (call_weight is_node half_counted) (calls q)
      + sum_of is_node (event_dropped e);
  sc_usage : ctr_usage_lost (counters (handle q'))
    = ctr_usage_lost (counters (handle q)) + sum_of usage_one (event_dropped e) }.

(** A call that moves on counts its drop only on its way to [CountUsage]. *)
Lemma append_step_counts h i st h' st' : append_step h i st = (h', inl st') ->
  tx h' = tx h /\
  dropped_queue_turns (counters h') - call_weight is_turn half_counted (i, st')
    = dropped_queue_turns (counters h) - call_weight is_turn half_counted (i, st) /\
  dropped_queue_nodes (counters h') - call_weight is_node half_counted (i, st')
    = dropped_queue_nodes (counters h) - call_weight is_node half_counted (i, st) /\
  ctr_usage_lost (counters h') = ctr_usage_lost (counters h).
Proof.
  unfold append_step, call_weight, is_turn, is_node, fst, queue_limit.
  destruct (in_source i); intros E; repeat case_match; simplify_eq; cbn in *; split_and!; (done || lia).
Qed.

Lemma append_return_counts h i st h' o : (st = CountUsage -> usage i = true) ->
  append_step h i st = (h', inr o) ->
  tx h' = tx h ++ event_queued (Returned i o) /\
  dropped_queue_turns (counters h')
    = dropped_queue_turns (counters h) - call_weight is_turn half_counted (i, st)
      + sum_of is_turn (event_dropped (Returned i o)) /\
  dropped_queue_nodes (counters h')
    = dropped_queue_nodes (counters h) - call_weight is_node half_counted (i, st)
      + sum_of is_node (event_dropped (Returned i o)) /\
  ctr_usage_lost (counters h') = ctr_usage_lost (counters h) + sum_of usage_one (event_dropped (Returned i o)).
Proof.
  unfold append_step, try_send, call_weight, usage_one, is_turn, is_node, fst, queue_limit. intros Hu E.
  destruct st; repeat case_match; simplify_eq; cbn; rewrite ?app_nil_r; try rewrite Hu by done;
    destruct (in_source i); rewrite ?H; split_and!; (done || lia).
Qed.

Lemma queue_step_counts q e q' : queue_ok q -> queue_step q e q' -> step_counts q q' e.
Proof.
  intros Ok S.
  destruct S as [i Hn Hp|l1 i st l2 h st' Hc E|l1 i st l2 h o Hc E|i rest Ht Hx|i Ht|i Ht|].
  - split; cbn -[sum_of]; rewrite ?sum_of_cons, ?app_nil_r; try done; cbn; lia.
  - destruct (append_step_counts _ _ _ _ _ E) as (H1 & H2 & H3 & H4).
    split; cbn -[sum_of]; rewrite ?Hc, ?map_app, ?sum_of_app, ?sum_of_cons, ?app_nil_r; try done;
      rewrite ?sum_of_nil; lia.
  - assert (st = CountUsage -> usage i = true) as Hu.
    { intros ->. apply (qk_usage _ Ok). rewrite Hc, elem_of_app, elem_of_cons. tauto. }
    destruct (append_return_counts _ _ _ _ _ Hu E) as (H1 & H2 & H3 & H4).
    split; cbn -[sum_of event_queued event_dropped]; rewrite ?Hc, ?map_app, ?sum_of_app, ?sum_of_cons; try lia; [|done].
    cbn [map fst]. destruct o; cbn; by rewrite <- Permutation_middle.
  - split; cbn -[sum_of]; rewrite ?sum_of_nil, ?app_nil_r; try done; lia.
  - split; cbn -[sum_of]; rewrite ?sum_of_nil, ?app_nil_r; try done; lia.
  - split; cbn -[sum_of]; rewrite ?sum_of_nil, ?app_nil_r; try done; lia.
  - split; cbn -[sum_of]; rewrite ?sum_of_nil, ?app_nil_r; try done; lia.
Qed.

Record run_counts (q q' : Queue) (es : list Event) : Prop := {
  rc_calls : began es ++ map fst (calls q) ≡ₚ queued es ++ dropped es ++ map fst (calls q');
  rc_fifo : tx (handle q) ++ queued es = took es ++ tx (handle q');
  rc_turns : dropped_queue_turns (counters (handle q')) - sum_of (call_weight is_turn half_counted) (calls q')
    = dropped_queue_turns (counters (handle q)) - sum_of (call_weight is_turn half_counted) (calls q)
      + sum_of is_turn (dropped es);
  rc_nodes : dropped_queue_nodes (counters (handle q')) - sum_of (call_weight is_node half_counted) (calls q')
    = dropped_queue_nodes (counters (handle q)) - sum_of (call_weight is_node half_counted) (calls q)
      + sum_of is_node (dropped es);
  rc_usage : ctr_usage_lost (counters (handle q'))
    = ctr_usage_lost (counters (handle q)) + sum_of usage_one (dropped es) }.

Lemma queue_run_counts q es q' : queue_ok q -> queue_run q es q' -> run_counts q q' es.
Proof.
  intros Ok R. induction R as [q|q e q1 es q2 S R IH].
  { split; cbn -[sum_of]; rewrite ?app_nil_r, ?sum_of_nil; (done || lia). }
  destruct (IH (queue_step_ok _ _ _ Ok S)) as [I1 I2 I3 I4 I5].
  destruct (queue_step_counts _ _ _ Ok S) as [S1 S2 S3 S4 S5].
  split; cbn -[sum_of event_began event_took event_queued event_dropped];
    fold (began es) (took es) (queued es) (dropped es); rewrite ?sum_of_app; try lia.
  - rewrite <- app_assoc, (Permutation_app_comm (began es)), app_assoc, S1, <- !app_assoc.
    rewrite (Permutation_app_comm (map fst (calls q1))), I1. solve_Permutation.
  - rewrite app_assoc, S2, <- !app_assoc. by rewrite I2.
Qed.

(** Whatever way the calls of [append] and the disk thread interleave, the queue
    stays inside its limits: at most [STREAM_TURN_QUEUE] turns, at most
    [STREAM_NODE_APPEND_QUEUE] node records of which those that are not usage leave
    the usage records their reserve, and at most [STREAM_QUEUE_MAX_BYTES] of
    payload; so a call that reaches [try_send] while the disk thread lives finds
    room in the channel, and no count ever wraps. *)
Theorem queue_bounded es q : queue_run open_queue es q ->
  let l := tx (handle q) in
  sum_of is_turn l <= STREAM_TURN_QUEUE /\
  sum_of is_node l <= STREAM_NODE_APPEND_QUEUE /\
  sum_of is_other_node l <= STREAM_NODE_APPEND_QUEUE - STREAM_USAGE_QUEUE_RESERVE /\
  sum_of payload_len l <= STREAM_QUEUE_MAX_BYTES /\
  (forall i, (i, TrySend) ∈ calls q -> rx_alive (handle q) = true ->
     exists h, append_step (handle q) i TrySend = (h, inr Queued)) /\
  0 <= turns_in_queue (handle q) < 2 ^ 32 /\ 0 <= nodes_in_queue (handle q) < 2 ^ 32 /\
  0 <= queued_bytes (handle q) < 2 ^ 62.
Proof.
  intros R l. pose proof (queue_run_ok _ _ _ open_queue_ok R) as Ok.
  pose proof (counts_in_range q Ok) as (H1 & H2 & H3 & _). destruct Ok.
  pose proof (held_tx is_turn granted_place taker_place q ltac:(apply weights_bounds)).
  pose proof (held_tx is_node granted_place taker_place q ltac:(apply weights_bounds)).
  pose proof (held_tx is_other_node granted_place taker_place q ltac:(apply weights_bounds)).
  pose proof (held_tx payload_len granted_bytes taker_bytes q ltac:(apply payload_len_nonneg)).
  unfold l. split_and!; try lia. intros i Hin Ha. apply list_elem_of_split in Hin as (l1 & l2 & Hc).
  eexists. cbn [append_step]. unfold try_send. rewrite Ha. cbn [andb].
  destruct (Z.ltb_spec (Z.of_nat (length (tx (handle q)))) channel_bound) as [|Hge]; [done|exfalso].
  pose proof (held_more is_turn granted_place taker_place q l1 i TrySend l2 ltac:(apply weights_bounds) Hc eq_refl).
  pose proof (held_more is_node granted_place taker_place q l1 i TrySend l2 ltac:(apply weights_bounds) Hc eq_refl).
  pose proof (weights_bounds i). pose proof (length_by_source (tx (handle q))).
  unfold channel_bound in *. lia.
Qed.

(** Every append ends once. In any run from the opening of the stream, the calls
    that began are those that queued their record, those that dropped it, and those
    still running; the disk thread takes the queued records in the order they were
    queued, each once; and when no call is running, the drop counters are exactly
    the records dropped, by source, with the usage records among them also counted
    as usage lost. *)
Theorem queue_exactly_once es q : queue_run open_queue es q ->
  began es ≡ₚ queued es ++ dropped es ++ map fst (calls q) /\
  queued es = took es ++ tx (handle q) /\
  (calls q = [] ->
     dropped_queue_turns (counters (handle q)) = sum_of is_turn (dropped es) /\
     dropped_queue_nodes (counters (handle q)) = sum_of is_node (dropped es) /\
     ctr_usage_lost (counters (handle q)) = sum_of usage_one (dropped es)).
Proof.
  intros R. destruct (queue_run_counts _ _ _ open_queue_ok R) as [C1 C2 C3 C4 C5].
  cbn -[sum_of] in *. rewrite app_nil_r in C1. split_and!; [done..|].
  intros Hc. rewrite Hc in *. rewrite !sum_of_nil in *. lia.
Qed.

(** What a call finds when it runs alone. *)
Definition accepts (h : Handle) (i : Incoming) : bool :=
  (in_queue h (in_source i) <? queue_limit i)
  && (queued_bytes h + payload_len i <=? STREAM_QUEUE_MAX_BYTES)
  && rx_alive h && (Z.of_nat (length (tx h)) <? channel_bound).

Definition count_dropped (h : Handle) (i : Incoming) : Handle :=
  let c := count_queue_drop (counters h) (in_source i) in
  set_counters h (if usage i then count_usage_lost c else c).

Lemma append_from_S k h i st : append_from (S k) h i st =
  match append_step h i st with
  | (h', inl st') => append_from k h' i st'
  | (h', inr o) => (h', Some o)
  end.
Proof. done. Qed.

Lemma append_drops k h i : append_from (S (S k)) h i CountDrop = (count_dropped h i, Some Dropped).
Proof.
  unfold count_dropped. cbn. destruct (usage i) eqn:E; cbn; [|done]. by rewrite ?E.
Qed.

Lemma give_place h src : 0 <= in_queue h src < 2 ^ 63 -> add_in_queue (add_in_queue h src 1) src (-1) = h.
Proof.
  destruct h as [l a t n b c]. unfold add_in_queue, in_queue. cbn. intros H.
  destruct src; cbn; rewrite (wrap64_id (_ + 1)), wrap64_id by lia; f_equal; lia.
Qed.

Lemma give_bytes h n : 0 <= queued_bytes h < 2 ^ 62 -> 0 <= n < 2 ^ 62 -> add_bytes (add_bytes h n) (- n) = h.
Proof.
  destruct h as [l a t nn b c]. unfold add_bytes. cbn. intros H H'.
  rewrite (wrap64_id (_ + n)), wrap64_id by lia. f_equal. lia.
Qed.

Lemma add_bytes_place h src n m : add_bytes (add_in_queue h src n) m = add_in_queue (add_bytes h m) src n.
Proof. by destruct h, src. Qed.

(** [append] of a call with no other one running: the record is queued exactly
    when its source's count, the bytes and the channel all have room for it, and then
    the count and the bytes grow by it; otherwise everything the call took is given
    back, the channel is as it was, and only the drop counters change. *)
Theorem append_alone h i :
  0 <= turns_in_queue h < 2 ^ 62 -> 0 <= nodes_in_queue h < 2 ^ 62 -> 0 <= queued_bytes h < 2 ^ 62 ->
  payload_len i < 2 ^ 62 ->
  append h i =
    if accepts h i
    then (add_bytes (add_in_queue (set_tx h (tx h ++ [i])) (in_source i) 1) (payload_len i), Some Queued)
    else (count_dropped h i, Some Dropped).
Proof.
  intros Ht Hn Hb Hi. pose proof (payload_len_nonneg i) as Hi0.
  assert (0 <= in_queue h (in_source i) < 2 ^ 63) as Hq by (unfold in_queue; destruct (in_source i); lia).
  unfold append, accepts. rewrite (Z.ltb_antisym (queue_limit i)).
  rewrite append_from_S. cbn [append_step].
  destruct (queue_limit i <=? in_queue h (in_source i)) eqn:E1; cbn [negb andb].
  { rewrite append_from_S. cbn [append_step]. rewrite give_place by done. apply append_drops. }
  rewrite append_from_S. cbn [append_step].
  assert (queued_bytes (add_in_queue h (in_source i) 1) = queued_bytes h) as -> by done.
  rewrite wrap64_id by lia. rewrite (Z.leb_antisym STREAM_QUEUE_MAX_BYTES).
  destruct (STREAM_QUEUE_MAX_BYTES <? queued_bytes h + payload_len i); cbn [negb andb].
  { do 2 (rewrite append_from_S; cbn [append_step]).
    rewrite give_bytes, give_place by (done || lia). apply append_drops. }
  rewrite append_from_S. cbn [append_step]. unfold try_send. cbn [rx_alive add_bytes add_in_queue tx].
  destruct (rx_alive h && (Z.of_nat (length (tx h)) <? channel_bound)) eqn:E3; [done|].
  do 2 (rewrite append_from_S; cbn [append_step]).
  rewrite give_bytes, give_place by (done || lia). apply append_drops.
Qed.

(** ** Concrete inputs *)

Definition a_turn : Incoming := mkIncoming Turns 1000 SUBJECT_STORAGE_TURNS "AI.a@h1" [Byte.x41].
Definition a_usage : Incoming := mkIncoming Nodes 1001 SUBJECT_STORAGE_USAGE "IO.b@h1" [Byte.x42; Byte.x43].

(** Two calls interleaved: the usage record is counted first and sent first, and the
    disk thread takes it while the turn has its bytes counted and is not yet sent. *)
Definition two_events : list Event :=
  [Began a_turn; Began a_usage; Silent; Silent; Silent; Silent; Returned a_usage Queued; Took a_usage;
   Silent].
Definition two_queue : Queue :=
  mkQueue (mkHandle [] true 1 0 3 (mkCounters 0 0 0 0 0 0 0 0 0)) [(a_turn, TrySend)] (TookBytes a_usage).

Lemma two_run : queue_run open_queue two_events two_queue.
Proof.
  eapply qrun_step. { by apply step_begin. }
  eapply qrun_step. { by apply step_begin. }
  eapply qrun_step. { by eapply (step_call _ []). }
  eapply qrun_step. { by eapply (step_call _ [_]). }
  eapply qrun_step. { by eapply (step_call _ []). }
  eapply qrun_step. { by eapply (step_call _ [_]). }
  eapply qrun_step. { by eapply (step_return _ []). }
  eapply qrun_step. { by eapply step_recv. }
  eapply qrun_step. { by eapply step_give_place. }
  apply qrun_refl.
Qed.

Lemma queue_bounded_witness :
  queue_run open_queue two_events two_queue /\
  exists h, append_step (handle two_queue) a_turn TrySend = (h, inr Queued).
Proof.
  split; [exact two_run|].
  destruct (queue_bounded two_events two_queue two_run) as (_ & _ & _ & _ & H & _).
  apply H; [by left|done].
Defined.

Lemma queue_exactly_once_witness :
  queue_run open_queue two_events two_queue /\
  began two_events ≡ₚ queued two_events ++ dropped two_events ++ map fst (calls two_queue).
Proof. split; [exact two_run|]. exact (proj1 (queue_exactly_once two_events two_queue two_run)). Defined.

Lemma append_alone_witness :
  accepts open_handle a_usage = true /\ snd (append open_handle a_usage) = Some Queued.
Proof.
  split; [done|].
  rewrite (append_alone open_handle a_usage ltac:(cbn; lia) ltac:(cbn; lia) ltac:(cbn; lia) ltac:(done)).
  done.
Defined.
