(* ===== verification/StreamSystem.v ===== *)
(** * The router's stream: the disk thread and the senders together

    One step is what one task does while it holds the lock of [Shared]: the disk
    thread takes an append, trims, or notes an fsync; the sender of a sink plans
    a batch ([run_sink], first half) or handles the reply to the batch in flight
    (second half). The steps interleave in any order. *)

From Stdlib Require Import ZArith Lia Ascii String.
From stdpp Require Import base list gmap strings fin_maps sorting.
From S2P Require Import Prelude Protocol StreamRecord StreamLog.
Open Scope Z_scope.

(** Where the sender of a sink stands in its loop. *)
Inductive Task :=
| Planning (backoff : Z)
| Waiting (batch : list StreamRec) (last_seq scanned_up_to backoff : Z).

Record Sys := mkSys {
  log : Shared;
  ctr : Counters;
  tasks : gmap string Task }.

Definition set_fsynced (sh : Shared) (n : Z) : Shared :=
  mkShared (records sh) (turn_bytes sh) (node_bytes sh) (usage_lost sh) (next_seq sh) n
    (sinks sh) (role sh) (hive_id sh).

(** The first half of [run_sink]'s loop: the plan, and what waits for a reply. *)
Definition sink_plan (sys : Sys) (sink : string) (now backoff : Z) : Sys :=
  let '(sh, plan) := plan_batch (log sys) sink now in
  mkSys sh (ctr sys)
    (<[sink := match plan with
               | Idle | Skipped => Planning backoff
               | Send batch last_seq scanned_up_to => Waiting batch last_seq scanned_up_to backoff
               end]> (tasks sys)).

(** [Recovered], without the disk: what [recover] found. *)
Record Recovered := mkRecovered {
  rec_records : list StreamRec;
  rec_next_seq : Z;
  rec_cursors : gmap string Z }.

(** The sinks [open] registers, each at its recovered cursor. *)
Definition open_sinks (names : list string) (cursors : gmap string Z) : gmap string SinkState :=
  fold_left (fun m sink =>
    <[sink := mkSinkState (unwrap_or 0 (cursors !! sink)) 0 0 0 0 0 0]> m) names ∅.

Definition add_recovered (sh : Shared) (r : StreamRec) : Shared :=
  mkShared (records sh ++ [r])
    (match source r with Turns => turn_bytes sh + record_size r | Nodes => turn_bytes sh end)
    (match source r with Turns => node_bytes sh | Nodes => node_bytes sh + record_size r end)
    (usage_lost sh) (next_seq sh) (fsynced_seq sh) (sinks sh) (role sh) (hive_id sh).

(** [open]: the log a restart begins with, and a sender for every sink. *)
Definition open_stream (rl hv : string) (rec : Recovered) (now : Z) : Sys :=
  let names := all_sinks rl hv in
  let sh := mkShared [] 0 0 0 (rec_next_seq rec) (saturating_sub (rec_next_seq rec) 1)
              (open_sinks names (rec_cursors rec)) rl hv in
  let sh := fold_left add_recovered (rec_records rec) sh in
  mkSys (fst (trim now sh)) (mkCounters 0 0 0 0 0 0 0 0 0)
    (fold_left (fun m sink => <[sink := Planning STREAM_RETRY_MIN_MS]> m) names ∅).

Section System.
Context {V : Type} (ack_of_value : V -> option Z).

(** The second half of [run_sink]'s loop. *)
Definition sink_done (sys : Sys) (sink : string) (batch : list StreamRec)
  (last_seq scanned_up_to backoff : Z) (reply : option (Message V)) (now : Z) : Sys :=
  let '(sh, accepted) :=
    sink_reply ack_of_value (log sys) sink batch last_seq scanned_up_to reply now in
  mkSys sh (ctr sys) (<[sink := Planning (next_backoff accepted backoff)]> (tasks sys)).

(** One step; the label is the record an append placed in the log. *)
Inductive step (sys : Sys) : option StreamRec -> Sys -> Prop :=
| step_take now i sh c placed :
    take_incoming now i (log sys) (ctr sys) = (sh, c, placed) ->
    step sys placed (mkSys sh c (tasks sys))
| step_trim now :
    step sys None (mkSys (fst (trim now (log sys))) (ctr sys) (tasks sys))
| step_fsync n :
    step sys None (mkSys (set_fsynced (log sys) n) (ctr sys) (tasks sys))
| step_plan sink now backoff :
    tasks sys !! sink = Some (Planning backoff) ->
    step sys None (sink_plan sys sink now backoff)
| step_reply sink batch last_seq scanned_up_to backoff reply now :
    tasks sys !! sink = Some (Waiting batch last_seq scanned_up_to backoff) ->
    step sys None (sink_done sys sink batch last_seq scanned_up_to backoff reply now).

(** Any number of steps; the list is what they placed, in order. *)
Inductive run (sys : Sys) : list StreamRec -> Sys -> Prop :=
| run_refl : run sys [] sys
| run_step placed sys1 rs sys2 :
    step sys placed sys1 -> run sys1 rs sys2 -> run sys (option_list placed ++ rs) sys2.

End System.

(** ** The invariant *)

(** A sender that waits holds exactly the records its sink takes from the cursor
    up to the batch's last one, and they are still in the log. *)
Definition task_ok (sh : Shared) (s : string) (t : Task) : Prop :=
  exists st, sinks sh !! s = Some st /\
  match t with
  | Planning _ => in_flight_up_to st = 0
  | Waiting batch last_seq scanned_up_to _ =>
    in_flight_up_to st = last_seq /\
    between sh s (cursor st) scanned_up_to (records sh) = batch /\
    Forall (fun r => seq r <= last_seq) batch /\
    cursor st < last_seq <= scanned_up_to /\ scanned_up_to < next_seq sh
  end.

Record sys_ok (sys : Sys) : Prop := {
  sys_log : log_ok (log sys);
  sys_tasks : forall s t, tasks sys !! s = Some t -> task_ok (log sys) s t
}.

(** ** Each step keeps it *)

Lemma sink_state_Some sh s st : sinks sh !! s = Some st -> sink_state sh s = st.
Proof. unfold sink_state. by intros ->. Qed.

Lemma trim_effect_task now sh sh' gone s t :
  trim_effect now sh sh' gone -> task_ok sh s t -> task_ok sh' s t.
Proof.
  intros T (st & Hst & Ht). pose proof (te_sinks _ _ _ _ T s) as Hs. rewrite Hst in Hs. cbn in Hs.
  eexists. split; [exact Hs|]. cbn. destruct t as [b|batch l sc b]; [done|].
  destruct Ht as (Hi & Hb & Hl & Ho & Hn). split_and!; try done; try lia.
  - rewrite <- Hb. rewrite (te_records _ _ _ _ T), between_app.
    rewrite (between_same sh sh') by apply T.
    assert (between sh s (cursor st) sc gone = []) as ->; [|done].
    apply filter_none. intros r Hr (Htk & H1 & H2).
    destruct (te_safe _ _ _ _ T r s st Hr Htk Hst H1) as [_ Hf].
    assert (r ∈ batch) as Hin.
    { rewrite <- Hb. apply list_elem_of_filter. split; [done|].
      rewrite (te_records _ _ _ _ T). apply elem_of_app. by left. }
    rewrite Forall_forall in Hl. specialize (Hl r Hin). simpl in Hl. lia.
  - rewrite (te_next _ _ _ _ T). lia.
Qed.

Lemma push_record_task sh r s t :
  seq r = next_seq sh -> task_ok sh s t -> task_ok (push_record sh r) s t.
Proof.
  intros Hr (st & Hst & Ht). exists st. split; [done|]. destruct t as [b|batch l sc b]; [done|].
  destruct Ht as (Hi & Hb & Hl & Ho & Hn). split_and!; try done; cbn [next_seq push_record records]; try lia.
  rewrite between_snoc_no by lia. exact Hb.
Qed.

(** An append trims at most, then places its record or drops it. *)
Lemma take_incoming_effect now i sh c sh' c' placed :
  take_incoming now i sh c = (sh', c', placed) ->
  exists sh1 gone, trim_effect now sh sh1 gone /\
  match placed with
  | Some r => r = record_of sh i /\ sh' = push_record sh1 r /\ seq r = next_seq sh1 /\
      fits sh1 (source r) (subject r) (record_size r) = true
  | None => sh' = sh1
  end.
Proof.
  unfold take_incoming, trim.
  destruct (fits sh _ _ _) eqn:E1.
  - intros [= <- <- <-]. exists sh, []. split; [apply trim_effect_refl|done].
  - destruct (trim_loop_effect (length (records sh)) now sh) as [gone T].
    cbn [fst]. destruct (fits (trim_loop _ _ _) _ _ _) eqn:E2; intros [= <- <- <-];
      eexists _, gone; (split; [exact T|]); [|done].
    split_and!; try done. cbn. by rewrite (te_next _ _ _ _ T).
Qed.

(** What [fits] admits stays inside the caps. *)
Lemma push_record_caps sh r :
  caps_ok sh -> fits sh (source r) (subject r) (record_size r) = true -> caps_ok (push_record sh r).
Proof.
  unfold caps_ok, fits, push_record. cbn [turn_bytes node_bytes]. intros [Ht Hn].
  unfold STREAM_USAGE_RESERVE_BYTES.
  destruct (source r); [|destruct (subject r =s _)]; rewrite andb_true_iff, !Z.leb_le; lia.
Qed.

Lemma take_incoming_caps now i sh c sh' c' placed :
  log_ok sh -> caps_ok sh -> take_incoming now i sh c = (sh', c', placed) -> caps_ok sh'.
Proof.
  intros Ok Hc E. destruct (take_incoming_effect _ _ _ _ _ _ _ E) as (sh1 & gone & T & H).
  pose proof (trim_effect_caps _ _ _ _ T Ok Hc) as Hc1. destruct placed as [r|]; [|by subst].
  destruct H as (-> & -> & _ & Hf). by apply push_record_caps.
Qed.

Lemma push_record_owed sh r s :
  log_ok sh -> seq r = next_seq sh ->
  owed (push_record sh r) s = owed sh s + Z.of_nat (length (filter (fun r => takes sh s r = true) [r])).
Proof.
  intros Ok Hr. pose proof (sink_cursor_ok sh s Ok) as Hc. unfold owed, pending.
  change (sink_state (push_record sh r) s) with (sink_state sh s).
  rewrite (above_same sh (push_record sh r)) by done.
  change (records (push_record sh r)) with (records sh ++ [r]).
  rewrite above_app, length_app, above_singleton. rewrite filter_cons, filter_nil.
  destruct (takes sh s r); cbn [andb].
  - rewrite decide_True by done.
    destruct (Z.ltb_spec (cursor (sink_state sh s)) (seq r)); cbn [length]; lia.
  - rewrite decide_False by done. cbn [length]. lia.
Qed.

(** ** What a reply does *)

(** An ack is accepted only from the sink itself and only inside the batch. *)
Lemma accept_ack_bounds {V} (ack_of_value : V -> option Z) m sink cur last scanned c :
  last <= scanned -> accept_ack ack_of_value m sink cur last scanned = Some c ->
  cur < c <= scanned /\ (c < last \/ c = scanned) /\ opt_str_is (msg (meta m)) MSG_STREAM_ACK = true /\
  exists from, src_l2_name (routing m) = Some from /\ eq_ignore_ascii_case from sink = true.
Proof.
  unfold accept_ack. intros Hl. destruct (opt_str_is _ _); [|done]. cbn [negb].
  destruct (src_l2_name _) as [from|]; [|done].
  destruct (eq_ignore_ascii_case from sink) eqn:Ef; [|done]. cbn [negb].
  destruct (ack_of_value _) as [u|]; [|done].
  destruct (Z.leb_spec u cur), (Z.ltb_spec last u); try done. cbn [orb].
  destruct (Z.eqb_spec u last); intros [= <-]; (split; [lia|]); (split; [lia|]); eauto.
Qed.

(** Cutting a batch at a seq inside it. *)
Lemma between_cut sh s lo mid hi l :
  mid <= hi -> filter (fun r => seq r <= mid) (between sh s lo hi l) = between sh s lo mid l.
Proof.
  intros H. unfold between. rewrite list_filter_filter. apply filter_ext_in.
  intros r _. cbn. split; intros; split_and!; intuition lia.
Qed.

(** What handling a reply changes: the sink's cursor goes to [c], and what it took
    counts as delivered. *)
Record reply_effect (sh sh' : Shared) (s : string) : Prop := {
  re_sinks : exists st, sinks sh' = <[s := st]> (sinks sh) /\ in_flight_up_to st = 0 /\
    expired st = expired (sink_state sh s) /\ oversize st = oversize (sink_state sh s) /\
    cursor (sink_state sh s) <= cursor st < next_seq sh /\
    delivered st = delivered (sink_state sh s)
      + Z.of_nat (length (between sh s (cursor (sink_state sh s)) (cursor st) (records sh)));
  re_rest : exists m, sh' = set_sinks sh m
}.

Lemma sink_reply_effect {V} (ack_of_value : V -> option Z) sh s batch last scanned b reply now sh' acc :
  log_ok sh -> task_ok sh s (Waiting batch last scanned b) ->
  sink_reply ack_of_value sh s batch last scanned reply now = (sh', acc) ->
  reply_effect sh sh' s.
Proof.
  intros Ok (st & Hst & Hi & Hb & Hl & Ho & Hn). unfold sink_reply.
  pose proof (sink_state_Some _ _ _ Hst) as Hs.
  pose proof (log_cursors _ Ok s st Hst) as Hc. rewrite Hs.
  destruct (match reply with Some _ => _ | None => None end) as [c|] eqn:E; intros [= <- _].
  - destruct reply as [m|]; [|done].
    destruct (accept_ack_bounds _ _ _ _ _ _ _ (proj2 Ho) E) as (Hcc & _).
    split; [|by eexists]. eexists. split; [reflexivity|]. rewrite Hs. cbn -[between filter length Z.of_nat].
    split_and!; try done; try lia. by rewrite <- Hb, between_cut by lia.
  - split; [|by eexists]. eexists. split; [reflexivity|]. rewrite Hs. cbn -[between length Z.of_nat].
    split_and!; try done; try lia. rewrite between_empty by lia. cbn. lia.
Qed.

Lemma reply_effect_owed sh sh' s s' : log_ok sh -> reply_effect sh sh' s -> owed sh' s' = owed sh s'.
Proof.
  intros Ok [(st & Hs & _ & He & Hz & Hc & Hd) [m ->]]. cbn in Hs. subst m. unfold owed, pending.
  destruct (decide (s' = s)) as [->|Hne].
  - rewrite sink_state_insert. cbn [records set_sinks].
    rewrite (above_split sh s (cursor (sink_state sh s)) (cursor st)) by (apply Ok || lia).
    rewrite (above_same sh (set_sinks sh _)) by done. rewrite length_app. lia.
  - assert (sink_state (set_sinks sh (<[s := st]> (sinks sh))) s' = sink_state sh s') as ->.
    { unfold sink_state. cbn. by rewrite lookup_insert_ne. }
    by rewrite (above_same sh (set_sinks sh _)).
Qed.

Lemma reply_effect_ok sh sh' s : log_ok sh -> reply_effect sh sh' s -> log_ok sh'.
Proof.
  intros Ok [(st & Hs & _ & _ & _ & Hc & _) [m ->]]. cbn in Hs. subst m.
  pose proof (sink_cursor_ok sh s Ok). destruct Ok.
  split; cbn -[source_bytes]; try done. intros s' st'.
  destruct (decide (s' = s)) as [->|Hne].
  - rewrite lookup_insert_eq. intros [= <-]. lia.
  - rewrite lookup_insert_ne by done. apply log_cursors.
Qed.

(** A change to one sink keeps the tasks of the others. *)
Lemma task_ok_other sh sh' s t :
  records sh' = records sh -> next_seq sh' = next_seq sh ->
  role sh' = role sh -> hive_id sh' = hive_id sh -> sinks sh' !! s = sinks sh !! s ->
  task_ok sh s t -> task_ok sh' s t.
Proof.
  intros Er En Erl Eh Es (st & Hst & Ht). exists st. rewrite Es. split; [done|].
  destruct t; [done|]. rewrite Er, En, (between_same sh sh') by done. exact Ht.
Qed.

(** ** What planning does *)

Lemma between_sorted sh s lo hi l : StronglySorted seq_lt l -> StronglySorted seq_lt (between sh s lo hi l).
Proof.
  unfold between. induction 1 as [|r l _ IH Hr]; [constructor|]. rewrite filter_cons.
  destruct (decide _); [|done]. constructor; [done|].
  rewrite Forall_forall in *. intros x [_ Hx]%list_elem_of_filter. auto.
Qed.

Lemma plan_effect_ok sh sh' s now plan :
  log_ok sh -> plan_effect sh sh' s now plan -> log_ok sh'.
Proof.
  intros Ok P. pose proof Ok as []. pose proof P as [].
  split; rewrite ?pe_records, ?pe_next, ?pe_turns, ?pe_nodes; try done.
  intros s' st' Hst. destruct (decide (s' = s)) as [->|Hne].
  - pose proof (sink_cursor_ok sh s Ok). rewrite (sink_state_Some _ _ _ Hst) in pe_cursor. lia.
  - rewrite pe_others in Hst by done. eauto.
Qed.

Lemma plan_effect_owed sh sh' s now plan s' :
  log_ok sh -> plan_effect sh sh' s now plan -> owed sh' s' = owed sh s'.
Proof.
  intros Ok []. unfold owed, pending. rewrite pe_records, (above_same sh sh') by done.
  destruct (decide (s' = s)) as [->|Hne].
  - rewrite (above_split sh s (cursor (sink_state sh s)) (cursor (sink_state sh' s))) by (apply Ok || lia).
    rewrite length_app. lia.
  - unfold sink_state. by rewrite pe_others.
Qed.

Lemma plan_effect_task sh sh' s now plan backoff :
  log_ok sh -> plan_effect sh sh' s now plan -> in_flight_up_to (sink_state sh s) = 0 ->
  task_ok sh' s match plan with
                | Idle | Skipped => Planning backoff
                | Send batch last_seq scanned_up_to => Waiting batch last_seq scanned_up_to backoff
                end.
Proof.
  intros Ok P Hf. pose proof (plan_effect_ok _ _ _ _ _ Ok P) as Ok'. destruct P.
  destruct pe_known as [st Hst]. exists st. split; [done|].
  pose proof (sink_state_Some _ _ _ Hst) as Hs. rewrite Hs in *.
  destruct plan as [| |batch l sc]; [destruct pe_plan as (_ & ? & _); congruence..|].
  destruct pe_plan as [Hi []]. split_and!; try done; try lia.
  destruct batch_last as (bl & x & -> & <-).
  pose proof (between_sorted sh' s (cursor st) sc _ (log_sorted _ Ok')) as Hsrt.
  rewrite batch_exact in Hsrt.
  apply Forall_app. split; [|constructor; [lia|done]]. apply Forall_forall. intros r Hr.
  pose proof (StronglySorted_app_1_elem_of _ _ _ _ _ Hsrt Hr (list_elem_of_here x [])). unfold seq_lt in *. lia.
Qed.

(** ** Steps *)

Section Steps.
Context {V : Type} (ack_of_value : V -> option Z).
Abbreviation step := (step ack_of_value).
Abbreviation run := (run ack_of_value).

Lemma insert_tasks_ok sys sh c s t :
  log_ok sh -> task_ok sh s t ->
  (forall s' t', s' <> s -> tasks sys !! s' = Some t' -> task_ok sh s' t') ->
  sys_ok (mkSys sh c (<[s := t]> (tasks sys))).
Proof.
  intros Ok Ht Ho. split; [done|]. cbn. intros s' t'.
  destruct (decide (s' = s)) as [->|Hne].
  - rewrite lookup_insert_eq. by intros [= <-].
  - rewrite lookup_insert_ne by done. eauto.
Qed.

Lemma step_take_ok sys now i sh c placed :
  sys_ok sys -> take_incoming now i (log sys) (ctr sys) = (sh, c, placed) ->
  sys_ok (mkSys sh c (tasks sys)).
Proof.
  intros [Ok Tk] E. destruct (take_incoming_effect _ _ _ _ _ _ _ E) as (sh1 & gone & T & H).
  pose proof (trim_effect_ok _ _ _ _ T Ok) as Ok1.
  destruct placed as [r|]; [destruct H as (_ & -> & Hr & _)|subst sh]; split; cbn.
  - by apply push_record_ok.
  - intros s t Hs. apply push_record_task; [done|]. eauto using trim_effect_task.
  - done.
  - eauto using trim_effect_task.
Qed.

Lemma step_plan_ok sys s now b :
  sys_ok sys -> tasks sys !! s = Some (Planning b) -> sys_ok (sink_plan sys s now b).
Proof.
  intros [Ok Tk] Hs. unfold sink_plan. pose proof (plan_batch_effect _ s now Ok) as P.
  destruct (plan_batch _ _ _) as [sh plan]. cbn in P. destruct (Tk _ _ Hs) as (st & Hst & Hf).
  apply insert_tasks_ok.
  - by eapply plan_effect_ok.
  - eapply plan_effect_task; [done..|]. by rewrite (sink_state_Some _ _ _ Hst).
  - intros s' t' Hne Hs'. destruct P. eapply task_ok_other; eauto.
Qed.

Lemma step_reply_ok sys s batch l sc b reply now :
  sys_ok sys -> tasks sys !! s = Some (Waiting batch l sc b) ->
  sys_ok (sink_done ack_of_value sys s batch l sc b reply now).
Proof.
  intros [Ok Tk] Hs. unfold sink_done. destruct (sink_reply _ _ _ _ _ _ _ _) as [sh acc] eqn:E.
  pose proof (sink_reply_effect _ _ _ _ _ _ _ _ _ _ _ Ok (Tk _ _ Hs) E) as R.
  pose proof (reply_effect_ok _ _ _ Ok R). destruct R as [(st & Hst & Hf & _) [m ->]].
  cbn in Hst. subst m. apply insert_tasks_ok; [done|..].
  - exists st. cbn. by rewrite lookup_insert_eq.
  - intros s' t' Hne Hs'. apply (task_ok_other (log sys)); try done; [|eauto].
    cbn. by rewrite lookup_insert_ne.
Qed.

Lemma step_ok sys placed sys' : sys_ok sys -> step sys placed sys' -> sys_ok sys'.
Proof.
  intros Hok []; eauto using step_take_ok, step_plan_ok, step_reply_ok.
  - destruct (trim_loop_effect (length (records (log sys))) now (log sys)) as [gone T].
    destruct Hok as [Ok Tk]. split; cbn; eauto using trim_effect_ok, trim_effect_task.
  - destruct Hok as [[] Tk]. split; [by split|]. cbn. intros s t Hs.
    by apply (task_ok_other (log sys)); eauto.
Qed.

(** What no step changes: the router's role and hive, and which sinks have a
    sender; and what every step only moves forward. *)
Record step_frame (sys sys' : Sys) (placed : option StreamRec) : Prop := {
  sf_role : role (log sys') = role (log sys);
  sf_hive : hive_id (log sys') = hive_id (log sys);
  sf_tasks : forall s, is_Some (tasks sys' !! s) <-> is_Some (tasks sys !! s);
  sf_seq : map seq (option_list placed) = seqZ (next_seq (log sys)) (Z.of_nat (length (option_list placed)));
  sf_next : next_seq (log sys') = next_seq (log sys) + Z.of_nat (length (option_list placed));
  sf_cursor : forall s, is_Some (tasks sys !! s) ->
    cursor (sink_state (log sys) s) <= cursor (sink_state (log sys') s);
  sf_records : exists gone, records (log sys) ++ option_list placed = gone ++ records (log sys')
}.

Lemma insert_is_Some {A} (m : gmap string A) k v v' s :
  m !! k = Some v -> is_Some (<[k := v']> m !! s) <-> is_Some (m !! s).
Proof.
  intros Hk. destruct (decide (s = k)) as [->|Hne].
  - rewrite lookup_insert_eq, Hk. split; eauto.
  - by rewrite lookup_insert_ne.
Qed.

Lemma known_sink sys s : sys_ok sys -> is_Some (tasks sys !! s) -> is_Some (sinks (log sys) !! s).
Proof. intros [_ Tk] [t Ht]. destruct (Tk _ _ Ht) as (st & Hst & _). eauto. Qed.

Lemma trim_effect_cursor now sh sh' gone s :
  trim_effect now sh sh' gone -> cursor (sink_state sh' s) = cursor (sink_state sh s).
Proof.
  intros T. rewrite (trim_effect_sink _ _ _ _ _ T). unfold sink_state.
  by destruct (sinks sh !! s).
Qed.

Lemma step_take_frame sys now i sh c placed :
  take_incoming now i (log sys) (ctr sys) = (sh, c, placed) ->
  step_frame sys (mkSys sh c (tasks sys)) placed.
Proof.
  intros E. destruct (take_incoming_effect _ _ _ _ _ _ _ E) as (sh1 & gone & T & H).
  pose proof (fun s => trim_effect_cursor _ _ _ _ s T) as Hc. destruct T.
  destruct placed as [r|]; [destruct H as (Hrec & -> & Hr & _)|subst sh]; split; cbn; try done; try lia.
  - by rewrite Hrec.
  - intros s _. rewrite <- Hc. reflexivity.
  - exists gone. by rewrite te_records, app_assoc.
  - intros s _. rewrite Hc. lia.
  - exists gone. by rewrite app_nil_r.
Qed.

Lemma step_frame_ok sys placed sys' : sys_ok sys -> step sys placed sys' -> step_frame sys sys' placed.
Proof.
  intros Hok []; [by eapply step_take_frame|..].
  - destruct (trim_loop_effect (length (records (log sys))) now (log sys)) as [gone T].
    pose proof (fun s => trim_effect_cursor _ _ _ _ s T) as Hc. destruct T. split; cbn; try done; try lia.
    + intros s _. rewrite Hc. lia.
    + exists gone. by rewrite app_nil_r.
  - split; cbn; try done; try lia. exists []. apply app_nil_r.
  - destruct Hok as [Ok Tk]. unfold sink_plan. pose proof (plan_batch_effect _ sink now Ok) as P.
    destruct (plan_batch _ _ _) as [sh plan]. destruct P. cbn in *.
    split; cbn; try done; try lia.
    + intros s. by eapply insert_is_Some.
    + intros s _. destruct (decide (s = sink)) as [->|Hne]; [lia|].
      unfold sink_state. rewrite pe_others by done. lia.
    + exists []. by rewrite app_nil_r, pe_records.
  - pose proof Hok as [Ok Tk]. unfold sink_done.
    destruct (sink_reply _ _ _ _ _ _ _ _) as [sh acc] eqn:E.
    destruct (sink_reply_effect _ _ _ _ _ _ _ _ _ _ _ Ok (Tk _ _ H) E)
      as [(st & Hst & _ & _ & _ & Hc & _) [m ->]]. cbn in Hst. subst m.
    split; cbn; try done; try lia.
    + intros s. by eapply insert_is_Some.
    + intros s _. destruct (decide (s = sink)) as [->|Hne]; [rewrite sink_state_insert; lia|].
      unfold sink_state. cbn. rewrite lookup_insert_ne by done. lia.
    + exists []. apply app_nil_r.
Qed.

(** A sink is owed nothing new but what a step placed. *)
Lemma step_pending sys placed sys' s r : sys_ok sys -> step sys placed sys' -> is_Some (tasks sys !! s) ->
  r ∈ pending (log sys') s -> r ∈ pending (log sys) s \/ placed = Some r.
Proof.
  intros Ok S Hs. destruct (step_frame_ok _ _ _ Ok S) as [F1 F2 _ _ _ Hc [gone Hg]]. specialize (Hc s Hs).
  unfold pending, above. intros [[Ht Hlt] Hr]%list_elem_of_filter.
  assert (r ∈ records (log sys) ++ option_list placed) as Hin by (rewrite Hg; apply elem_of_app; by right).
  apply elem_of_app in Hin as [Hin|Hin].
  - left. apply list_elem_of_filter. rewrite (takes_same (log sys) (log sys')) in Ht by done.
    split; [split; [done|lia]|done].
  - right. destruct placed as [x|]; cbn in Hin; [|by apply elem_of_nil in Hin].
    by apply list_elem_of_singleton in Hin as ->.
Qed.

Lemma step_owed sys placed sys' s :
  sys_ok sys -> is_Some (tasks sys !! s) -> step sys placed sys' ->
  owed (log sys') s = owed (log sys) s
    + Z.of_nat (length (filter (fun r => takes (log sys) s r = true) (option_list placed))).
Proof.
  intros Hok Hs Hstep. pose proof (known_sink _ _ Hok Hs) as Hk. pose proof Hok as [Ok Tk].
  destruct Hstep as [now i sh c placed E|now|n|sink now b Ht|sink batch l sc b reply now Ht];
    [|change (Z.of_nat (length (filter _ (option_list None)))) with 0; rewrite Z.add_0_r..].
  - destruct (take_incoming_effect _ _ _ _ _ _ _ E) as (sh1 & gone & T & H). cbn [log].
    pose proof (trim_effect_owed _ _ _ _ s T Hk) as Ho. rewrite <- Ho.
    destruct placed as [r|]; [destruct H as (_ & -> & Hr & _)|subst; cbn; lia].
    rewrite push_record_owed by eauto using trim_effect_ok. cbn [option_list]. do 3 f_equal.
    apply filter_ext_in. intros x _. rewrite (takes_same (log sys) sh1) by apply T. done.
  - destruct (trim_loop_effect (length (records (log sys))) now (log sys)) as [gone T].
    exact (trim_effect_owed _ _ _ _ s T Hk).
  - done.
  - unfold sink_plan. pose proof (plan_batch_effect _ sink now Ok) as P.
    destruct (plan_batch _ _ _) as [sh plan]. by eapply plan_effect_owed.
  - unfold sink_done. destruct (sink_reply _ _ _ _ _ _ _ _) as [sh acc] eqn:E.
    eapply reply_effect_owed; [done|]. by eapply sink_reply_effect; [done|apply Tk|].
Qed.

End Steps.

(** ** Opening *)

(** What [recover] promises of what it found. *)
Record recovered_ok (rec : Recovered) : Prop := {
  rk_sorted : StronglySorted seq_lt (rec_records rec);
  rk_below : Forall (fun r => 0 < seq r < rec_next_seq rec) (rec_records rec);
  rk_next : 0 < rec_next_seq rec;
  rk_cursors : forall s c, rec_cursors rec !! s = Some c -> 0 <= c < rec_next_seq rec
}.

Lemma fold_insert_lookup {A} (f : string -> A) names s : forall m : gmap string A,
  fold_left (fun m k => <[k := f k]> m) names m !! s
  = if decide (s ∈ names) then Some (f s) else m !! s.
Proof.
  induction names as [|k names IH]; intros m; cbn [fold_left].
  - by rewrite decide_False by apply not_elem_of_nil.
  - rewrite IH. destruct (decide (s ∈ names)).
    + by rewrite decide_True by (by right).
    + destruct (decide (s = k)) as [->|Hne].
      * by rewrite lookup_insert_eq, decide_True by left.
      * rewrite lookup_insert_ne by done. rewrite decide_False; [done|].
        by intros [?|?]%elem_of_cons.
Qed.

Lemma add_recovered_all l : forall sh,
  let sh' := fold_left add_recovered l sh in
  records sh' = records sh ++ l /\ turn_bytes sh' = turn_bytes sh + source_bytes Turns l /\
  node_bytes sh' = node_bytes sh + source_bytes Nodes l /\ next_seq sh' = next_seq sh /\
  sinks sh' = sinks sh /\ role sh' = role sh /\ hive_id sh' = hive_id sh.
Proof.
  induction l as [|r l IH]; intros sh; cbn [fold_left].
  - change (source_bytes _ []) with 0. rewrite app_nil_r. split_and!; (done || lia).
  - destruct (IH (add_recovered sh r)) as (-> & -> & -> & -> & -> & -> & ->).
    rewrite !source_bytes_cons. cbn -[record_size source_bytes]. rewrite <- app_assoc.
    split_and!; try done; destruct (source r); cbn -[record_size source_bytes]; lia.
Qed.

(** The log of [open] before it trims. *)
Definition opened (rl hv : string) (rec : Recovered) : Shared :=
  fold_left add_recovered (rec_records rec)
    (mkShared [] 0 0 0 (rec_next_seq rec) (saturating_sub (rec_next_seq rec) 1)
       (open_sinks (all_sinks rl hv) (rec_cursors rec)) rl hv).

Lemma opened_sink rl hv rec s :
  sinks (opened rl hv rec) !! s
  = if decide (s ∈ all_sinks rl hv)
    then Some (mkSinkState (unwrap_or 0 (rec_cursors rec !! s)) 0 0 0 0 0 0) else None.
Proof.
  unfold opened. destruct (add_recovered_all (rec_records rec)
    (mkShared [] 0 0 0 (rec_next_seq rec) (saturating_sub (rec_next_seq rec) 1)
       (open_sinks (all_sinks rl hv) (rec_cursors rec)) rl hv)) as (_ & _ & _ & _ & -> & _).
  cbn [sinks]. unfold open_sinks. by rewrite fold_insert_lookup.
Qed.

Lemma opened_ok rl hv rec : recovered_ok rec -> log_ok (opened rl hv rec).
Proof.
  intros []. pose proof (opened_sink rl hv rec) as Hs. revert Hs. unfold opened.
  destruct (add_recovered_all (rec_records rec)
    (mkShared [] 0 0 0 (rec_next_seq rec) (saturating_sub (rec_next_seq rec) 1)
       (open_sinks (all_sinks rl hv) (rec_cursors rec)) rl hv)) as (Hr & Ht & Hn & Hx & _).
  intros Hs. split; rewrite ?Hr, ?Ht, ?Hn, ?Hx; cbn -[source_bytes]; try done.
  intros s st. rewrite Hs. destruct (decide _); [|done]. intros [= <-]. cbn.
  destruct (rec_cursors rec !! s) eqn:E; cbn; [eauto|lia].
Qed.

Lemma open_stream_log rl hv rec now : log (open_stream rl hv rec now) = fst (trim now (opened rl hv rec)).
Proof. done. Qed.

Lemma add_recovered_fsynced l : forall sh, fsynced_seq (fold_left add_recovered l sh) = fsynced_seq sh.
Proof. induction l as [|r l IH]; intros sh; cbn [fold_left]; [done|]. by rewrite IH. Qed.

Lemma opened_fsynced rl hv rec : fsynced_seq (opened rl hv rec) = saturating_sub (rec_next_seq rec) 1.
Proof. unfold opened. by rewrite add_recovered_fsynced. Qed.

Lemma open_stream_tasks rl hv rec now s :
  tasks (open_stream rl hv rec now) !! s
  = if decide (s ∈ all_sinks rl hv) then Some (Planning STREAM_RETRY_MIN_MS) else None.
Proof. cbn [open_stream tasks]. by rewrite (fold_insert_lookup (fun _ => Planning STREAM_RETRY_MIN_MS)). Qed.

Lemma open_stream_ok rl hv rec now : recovered_ok rec -> sys_ok (open_stream rl hv rec now).
Proof.
  intros Hrec. pose proof (opened_ok rl hv rec Hrec) as Ok.
  destruct (trim_loop_effect (length (records (opened rl hv rec))) now (opened rl hv rec)) as [gone T].
  split; rewrite open_stream_log.
  - by eapply trim_effect_ok.
  - intros s t Ht. eapply trim_effect_task; [exact T|].
    rewrite open_stream_tasks in Ht. destruct (decide _) as [Hin|]; [|done]. injection Ht as <-.
    eexists. rewrite opened_sink, decide_True by done. by split.
Qed.

(** What a sink is owed when the stream opens: the recovered records past its
    cursor, whether still in the log or expired while the router was down. *)
Lemma open_stream_owed rl hv rec now s : recovered_ok rec -> s ∈ all_sinks rl hv ->
  owed (log (open_stream rl hv rec now)) s
  = Z.of_nat (length (filter (fun r => str_mem s (sinks_for (subject r) rl hv) = true /\
      unwrap_or 0 (rec_cursors rec !! s) < seq r) (rec_records rec))) /\
  forall r, takes (log (open_stream rl hv rec now)) s r = str_mem s (sinks_for (subject r) rl hv).
Proof.
  intros Hrec Hs. pose proof (opened_sink rl hv rec s) as Hst. rewrite decide_True in Hst by done.
  destruct (trim_loop_effect (length (records (opened rl hv rec))) now (opened rl hv rec)) as [gone T].
  rewrite open_stream_log. cbn [trim fst].
  rewrite (trim_effect_owed _ _ _ _ s T) by (rewrite Hst; eauto).
  destruct (add_recovered_all (rec_records rec)
    (mkShared [] 0 0 0 (rec_next_seq rec) (saturating_sub (rec_next_seq rec) 1)
       (open_sinks (all_sinks rl hv) (rec_cursors rec)) rl hv)) as (Hr & _ & _ & _ & _ & Hrl & Hh).
  fold (opened rl hv rec) in Hr, Hrl, Hh. cbn in Hr, Hrl, Hh.
  assert (forall r, takes (opened rl hv rec) s r = str_mem s (sinks_for (subject r) rl hv)) as Htk.
  { intros r. unfold takes, sinks_of. by rewrite Hrl, Hh. }
  split.
  - unfold owed, pending. rewrite (sink_state_Some _ _ _ Hst), Hr. cbn -[above length Z.of_nat].
    rewrite Z.add_0_l. do 2 f_equal. apply filter_ext_in. intros r _. by rewrite Htk.
  - intros r. rewrite <- Htk. apply takes_same; apply T.
Qed.

Lemma open_stream_next rl hv rec now : next_seq (log (open_stream rl hv rec now)) = rec_next_seq rec.
Proof.
  destruct (trim_loop_effect (length (records (opened rl hv rec))) now (opened rl hv rec)) as [gone T].
  rewrite open_stream_log. cbn [trim fst]. rewrite (te_next _ _ _ _ T). apply add_recovered_all.
Qed.

Lemma open_stream_caps rl hv rec now : recovered_ok rec ->
  source_bytes Turns (rec_records rec) <= STREAM_MAX_BYTES - node_cap ->
  source_bytes Nodes (rec_records rec) <= node_cap ->
  caps_ok (log (open_stream rl hv rec now)).
Proof.
  intros Hrec Ht Hn. pose proof (opened_ok rl hv rec Hrec) as Ok.
  destruct (trim_loop_effect (length (records (opened rl hv rec))) now (opened rl hv rec)) as [gone T].
  rewrite open_stream_log. apply (trim_effect_caps _ _ _ _ T Ok).
  unfold caps_ok. rewrite (log_turn_bytes _ Ok), (log_node_bytes _ Ok).
  unfold opened. rewrite (proj1 (add_recovered_all _ _)). done.
Qed.

(** ** Runs *)

Section Runs.
Context {V : Type} (ack_of_value : V -> option Z).
Abbreviation step := (step ack_of_value).
Abbreviation run := (run ack_of_value).

Lemma run_ok sys ps sys' : sys_ok sys -> run sys ps sys' -> sys_ok sys'.
Proof. intros Ok. induction 1; eauto using step_ok. Qed.

Lemma run_tasks sys ps sys' s : sys_ok sys -> run sys ps sys' ->
  is_Some (tasks sys !! s) -> is_Some (tasks sys' !! s).
Proof.
  intros Ok R. revert Ok. induction R as [|sys placed sys1 rs sys2 S R IH]; [done|]. intros Ok Hs.
  apply IH; [by eapply step_ok|]. by apply (step_frame_ok _ _ _ _ Ok S).
Qed.

Lemma run_owed sys ps sys' s : sys_ok sys -> run sys ps sys' -> is_Some (tasks sys !! s) ->
  owed (log sys') s = owed (log sys) s
    + Z.of_nat (length (filter (fun r => takes (log sys) s r = true) ps)).
Proof.
  intros Ok R. revert Ok. induction R as [|sys placed sys1 rs sys2 S R IH]; intros Ok Hs.
  - cbn. lia.
  - pose proof (step_frame_ok _ _ _ _ Ok S) as F.
    rewrite IH by (by eapply step_ok || apply F). rewrite (step_owed _ _ _ _ _ Ok Hs S).
    rewrite filter_app, length_app. rewrite (filter_ext_in (fun r => takes (log sys1) s r = true)
      (fun r => takes (log sys) s r = true)); [lia|].
    intros x _. rewrite (takes_same (log sys) (log sys1)) by apply F. done.
Qed.

Lemma run_seqs sys ps sys' : sys_ok sys -> run sys ps sys' ->
  map seq ps = seqZ (next_seq (log sys)) (Z.of_nat (length ps)) /\
  next_seq (log sys') = next_seq (log sys) + Z.of_nat (length ps).
Proof.
  intros Ok R. revert Ok. induction R as [|sys placed sys1 rs sys2 S R IH]; intros Ok.
  - cbn. split; [done|lia].
  - destruct (step_frame_ok _ _ _ _ Ok S). destruct (IH (step_ok _ _ _ _ Ok S)) as [Hm Hn].
    rewrite map_app, length_app, Hm, Hn, sf_seq0, sf_next0, Nat2Z.inj_add. split; [|lia].
    rewrite seqZ_app by lia. done.
Qed.

Lemma run_cursor sys ps sys' s : sys_ok sys -> run sys ps sys' -> is_Some (tasks sys !! s) ->
  cursor (sink_state (log sys) s) <= cursor (sink_state (log sys') s).
Proof.
  intros Ok R. revert Ok. induction R as [|sys placed sys1 rs sys2 S R IH]; intros Ok Hs; [lia|].
  destruct (step_frame_ok _ _ _ _ Ok S). etransitivity; [by apply sf_cursor0|].
  apply IH; [by eapply step_ok|]. by apply sf_tasks0.
Qed.

Lemma step_caps sys placed sys' : sys_ok sys -> caps_ok (log sys) -> step sys placed sys' -> caps_ok (log sys').
Proof.
  intros Hok Hc S. pose proof (step_ok _ _ _ _ Hok S) as [Ok' _]. destruct Hok as [Ok Tk].
  destruct S as [now i sh c placed E|now|n|sink now b Ht|sink batch l sc b reply now Ht].
  - exact (take_incoming_caps _ _ _ _ _ _ _ Ok Hc E).
  - destruct (trim_loop_effect (length (records (log sys))) now (log sys)) as [gone T].
    exact (trim_effect_caps _ _ _ _ T Ok Hc).
  - done.
  - revert Ok'. unfold sink_plan. pose proof (plan_batch_effect _ sink now Ok) as P.
    destruct (plan_batch _ _ _) as [sh plan]. destruct P. cbn in *. intros _.
    unfold caps_ok in *. rewrite pe_turns, pe_nodes. exact Hc.
  - unfold sink_done. destruct (sink_reply _ _ _ _ _ _ _ _) as [sh acc] eqn:E.
    by destruct (sink_reply_effect _ _ _ _ _ _ _ _ _ _ _ Ok (Tk _ _ Ht) E) as [_ [m ->]].
Qed.

Lemma run_caps sys ps sys' : sys_ok sys -> run sys ps sys' -> caps_ok (log sys) -> caps_ok (log sys').
Proof. intros Ok R. revert Ok. induction R; eauto using step_ok, step_caps. Qed.

(** C4. Every record is accounted for once. Open a stream on what a restart
    recovered and let the disk thread and the senders run, interleaved in any way:
    for every sink, what it took, plus what expired, plus what was too big to send,
    plus what is still in the log for it, is what was recovered beyond its cursor
    plus what was placed for it since. No record is lost without being counted, and
    none is counted twice. *)
Theorem stream_conservation (rl hv : string) (rec : Recovered) (now : Z) ps sys s :
  recovered_ok rec -> s ∈ all_sinks rl hv ->
  run (open_stream rl hv rec now) ps sys ->
  let st := sink_state (log sys) s in
  let c0 := unwrap_or 0 (rec_cursors rec !! s) in
  let mine r := str_mem s (sinks_for (subject r) rl hv) = true in
  delivered st + expired st + oversize st + Z.of_nat (length (pending (log sys) s))
  = Z.of_nat (length (filter (fun r => mine r /\ c0 < seq r) (rec_records rec)))
    + Z.of_nat (length (filter mine ps)).
Proof.
  intros Hrec Hs R st c0 mine. pose proof (open_stream_ok rl hv rec now Hrec) as Ok.
  assert (is_Some (tasks (open_stream rl hv rec now) !! s)) as Ht
    by (rewrite open_stream_tasks, decide_True by done; eauto).
  change (owed (log sys) s = Z.of_nat (length (filter (fun r => mine r /\ c0 < seq r) (rec_records rec)))
    + Z.of_nat (length (filter mine ps))).
  rewrite (run_owed _ _ _ _ Ok R Ht).
  destruct (open_stream_owed rl hv rec now s Hrec Hs) as [-> Hm]. f_equal.
  rewrite (filter_ext_in (fun r => takes _ s r = true) mine); [done|].
  intros r _. unfold mine. by rewrite Hm.
Qed.

(** A batch in flight is exactly what its sink is to take next. In every state a
    stream can reach, however appends, trims and other sinks' replies interleave, a
    batch that waits for its ack holds the records of that sink the log has from the
    sink's cursor to the batch's scan, in seq order, none missing and none dropped
    from the log meanwhile; and the log itself is in seq order with exact byte
    counts. *)
Theorem stream_batches_exact (rl hv : string) (rec : Recovered) (now : Z) ps sys :
  recovered_ok rec -> run (open_stream rl hv rec now) ps sys ->
  log_ok (log sys) /\
  forall s batch last_seq scanned backoff,
    tasks sys !! s = Some (Waiting batch last_seq scanned backoff) ->
    let cur := cursor (sink_state (log sys) s) in
    batch = filter (fun r => takes (log sys) s r = true /\ cur < seq r /\ seq r <= scanned)
              (records (log sys)) /\
    StronglySorted seq_lt batch /\ cur < last_seq <= scanned /\
    Forall (fun r => seq r <= last_seq) batch.
Proof.
  intros Hrec R. destruct (run_ok _ _ _ (open_stream_ok rl hv rec now Hrec) R) as [Ok Tk].
  split; [done|]. intros s batch l sc b Ht cur.
  destruct (Tk _ _ Ht) as (st & Hst & _ & Hb & Hl & Ho & _). unfold cur.
  rewrite (sink_state_Some _ _ _ Hst). split; [by rewrite <- Hb|].
  split; [|split; [lia|done]]. rewrite <- Hb. apply between_sorted, Ok.
Qed.

(** Sequence numbers and cursors only go forward: the records a stream places
    carry consecutive seqs from the recovered one on, none reused and none left out,
    and no sink's cursor ever moves back. *)
Theorem stream_monotone (rl hv : string) (rec : Recovered) (now : Z) ps1 sys1 ps2 sys2 s :
  recovered_ok rec -> s ∈ all_sinks rl hv ->
  run (open_stream rl hv rec now) ps1 sys1 -> run sys1 ps2 sys2 ->
  map seq ps1 = seqZ (rec_next_seq rec) (Z.of_nat (length ps1)) /\
  map seq ps2 = seqZ (rec_next_seq rec + Z.of_nat (length ps1)) (Z.of_nat (length ps2)) /\
  cursor (sink_state (log sys1) s) <= cursor (sink_state (log sys2) s).
Proof.
  intros Hrec Hs R1 R2. pose proof (open_stream_ok rl hv rec now Hrec) as Ok.
  pose proof (run_ok _ _ _ Ok R1) as Ok1.
  assert (next_seq (log (open_stream rl hv rec now)) = rec_next_seq rec) as Hn
    by apply open_stream_next.
  destruct (run_seqs _ _ _ Ok R1) as [H1 Hn1], (run_seqs _ _ _ Ok1 R2) as [H2 _].
  rewrite Hn in *. rewrite Hn1 in H2. split_and!; [done..|].
  apply (run_cursor _ _ _ _ Ok1 R2), (run_tasks _ _ _ _ Ok R1). rewrite open_stream_tasks, decide_True by done. eauto.
Qed.

(** The log never outgrows its caps: once the bytes of turns and of node appends
    are inside their shares of [STREAM_MAX_BYTES], no run takes either of them, or
    the total, past it. *)
Theorem stream_stays_in_caps (rl hv : string) (rec : Recovered) (now : Z) ps sys :
  recovered_ok rec ->
  source_bytes Turns (rec_records rec) <= STREAM_MAX_BYTES - node_cap ->
  source_bytes Nodes (rec_records rec) <= node_cap ->
  run (open_stream rl hv rec now) ps sys ->
  source_bytes Turns (records (log sys)) <= STREAM_MAX_BYTES - node_cap /\
  source_bytes Nodes (records (log sys)) <= node_cap /\
  turn_bytes (log sys) + node_bytes (log sys) <= STREAM_MAX_BYTES.
Proof.
  intros Hrec Ht Hn R. pose proof (open_stream_ok rl hv rec now Hrec) as Ok.
  pose proof (open_stream_caps rl hv rec now Hrec Ht Hn) as Hc.
  pose proof (run_caps _ _ _ Ok R Hc) as [H1 H2].
  destruct (run_ok _ _ _ Ok R) as [Ok' _]. rewrite <- (log_turn_bytes _ Ok'), <- (log_node_bytes _ Ok').
  lia.
Qed.

End Runs.

(** ** What one plan, one reply and one trim guarantee *)

(** [plan_batch]: a batch holds, in order and none skipped, the records its sink
    is owed from its cursor on, none past the window and none too big, within the
    limits on their count and on the frame's bytes; when there is no batch the log
    holds nothing more for the sink; and whatever the cursor passes over is counted
    as expired or too big, its usage records also as usage lost. *)
Theorem plan_batch_correct sh s now :
  log_ok sh ->
  let sh' := fst (plan_batch sh s now) in
  let cur := cursor (sink_state sh s) in
  let cur' := cursor (sink_state sh' s) in
  let passed := between sh s cur cur' (records sh) in
  records sh' = records sh /\ cur <= cur' /\
  expired (sink_state sh' s) + oversize (sink_state sh' s)
    = expired (sink_state sh s) + oversize (sink_state sh s) + Z.of_nat (length passed) /\
  usage_lost sh' = usage_lost sh + Z.of_nat (length (filter is_usage passed)) /\
  match snd (plan_batch sh s now) with
  | Idle => cur' = cur /\ pending sh' s = []
  | Skipped => cur < cur' /\ pending sh' s = []
  | Send batch last_seq scanned =>
      batch <> [] /\
      between sh s cur' scanned (records sh) = batch /\
      Forall (fun r => aged now r = false /\ too_big r = false) batch /\
      Z.of_nat (length batch) <= STREAM_BATCH_MAX_RECORDS /\
      plan_bytes batch <= STREAM_BATCH_MAX_BYTES /\
      in_flight_up_to (sink_state sh' s) = last_seq
  end.
Proof.
  intros Ok. pose proof (plan_batch_effect sh s now Ok) as P.
  destruct (plan_batch sh s now) as [sh' plan]. cbn [fst snd] in *. destruct P.
  split_and!; try done; try lia. destruct plan as [| |batch l sc]; [by destruct pe_plan as (? & _ & ?)..|].
  destruct pe_plan as [Hf []]. split_and!; try done.
  rewrite <- batch_exact, pe_records. apply between_same; congruence.
Qed.

(** [trim]: it drops records from the front only, and a sink loses one of them
    only if the record is past the window and not in the batch in flight to that
    sink, in which case it is counted as expired for it; it stops at the first record
    some sink may still take. *)
Theorem trim_exact sh now :
  let sh' := fst (trim now sh) in
  exists gone, records sh = gone ++ records sh' /\
  (forall r s st, r ∈ gone -> takes sh s r = true -> sinks sh !! s = Some st ->
     seq r <= cursor st \/ (aged now r = true /\ in_flight_up_to st < seq r)) /\
  (forall s st, sinks sh !! s = Some st ->
     sinks sh' !! s = Some (add_expired (Z.of_nat (length (above sh s (cursor st) gone))) st)) /\
  match records sh' with [] => True | front :: _ => record_done sh' front now = false end.
Proof.
  cbn [trim fst]. destruct (trim_loop_effect (length (records sh)) now sh) as [gone T].
  pose proof (trim_loop_done (length (records sh)) now sh ltac:(done)) as D. destruct T.
  exists gone. split_and!; try done.
  - intros r s st Hr Ht Hs. destruct (Z.le_gt_cases (seq r) (cursor st)); [by left|right].
    apply (te_safe r s st); (done || lia).
  - intros s st Hs. by rewrite te_sinks, Hs.
Qed.

Section Replies.
Context {V : Type} (ack_of_value : V -> option Z).

(** [run_sink] trusts an ack only as far as its batch goes. Whatever reply comes
    back for a batch in flight, the cursor stays inside the batch, what counts as
    delivered is the batch's records up to it, no other sink changes, and a reply
    that is not a [STREAM_ACK] of the sink itself moves nothing. *)
Theorem sink_reply_safe sh s batch last_seq scanned backoff reply now :
  log_ok sh -> task_ok sh s (Waiting batch last_seq scanned backoff) ->
  let sh' := fst (sink_reply ack_of_value sh s batch last_seq scanned reply now) in
  let st := sink_state sh s in
  let st' := sink_state sh' s in
  cursor st <= cursor st' <= scanned /\
  delivered st' = delivered st + Z.of_nat (length (filter (fun r => seq r <= cursor st') batch)) /\
  in_flight_up_to st' = 0 /\
  (forall s', s' <> s -> sinks sh' !! s' = sinks sh !! s') /\
  (forall m from, reply = Some m -> src_l2_name (routing m) = Some from ->
     eq_ignore_ascii_case from s = false -> cursor st' = cursor st /\ delivered st' = delivered st).
Proof.
  intros Ok Hw. pose proof Hw as (st0 & Hst & Hi & Hb & Hl & Ho & Hn). cbv zeta.
  rewrite (sink_state_Some _ _ _ Hst). unfold sink_reply. rewrite (sink_state_Some _ _ _ Hst).
  destruct (match reply with Some _ => _ | None => None end) as [c|] eqn:E; cbn [fst];
    rewrite sink_state_insert; cbn -[length filter Z.of_nat].
  - destruct reply as [m|]; [|done].
    destruct (accept_ack_bounds _ _ _ _ _ _ _ (proj2 Ho) E) as (Hc & _ & _ & from & Hfrom & Heq).
    split_and!; try done; try lia.
    + intros s' Hne. by rewrite lookup_insert_ne.
    + intros m' from' [= <-]. rewrite Hfrom. intros [= <-]. by rewrite Heq.
  - split_and!; try done; try lia.
    + rewrite <- Hb, between_cut, between_empty by lia. cbn. lia.
    + intros s' Hne. by rewrite lookup_insert_ne.
Qed.

(** One turn of [run_sink]'s loop with a sink that acks every batch whole. *)
Definition acked_round (ack : Z -> Message V) (s : string) (now : Z) (sh : Shared) : Shared :=
  match plan_batch sh s now with
  | (sh', Send batch last_seq scanned) =>
    fst (sink_reply ack_of_value sh' s batch last_seq scanned (Some (ack last_seq)) now)
  | (sh', _) => sh'
  end.

(** The sink's acks: from the sink, for the seq asked. *)
Definition acks_all (ack : Z -> Message V) (s : string) : Prop :=
  forall n, opt_str_is (msg (meta (ack n))) MSG_STREAM_ACK = true /\
    src_l2_name (routing (ack n)) = Some s /\ ack_of_value (msg_payload (ack n)) = Some n.

Lemma eq_ignore_ascii_case_refl s : eq_ignore_ascii_case s s = true.
Proof. apply String.eqb_refl. Qed.

Lemma accept_whole ack s cur last scanned : acks_all ack s -> cur < last ->
  accept_ack ack_of_value (ack last) s cur last scanned = Some scanned.
Proof.
  intros Ha Hlt. destruct (Ha last) as (Hm & Hs & Hv). unfold accept_ack. rewrite Hm, Hs, Hv.
  rewrite eq_ignore_ascii_case_refl. cbn [negb].
  destruct (Z.leb_spec last cur), (Z.ltb_spec last last); try lia. cbn [orb]. by rewrite Z.eqb_refl.
Qed.

Lemma pending_raise sh sh' s : log_ok sh -> records sh' = records sh ->
  role sh' = role sh -> hive_id sh' = hive_id sh ->
  cursor (sink_state sh s) <= cursor (sink_state sh' s) ->
  length (pending sh s) = (length (between sh s (cursor (sink_state sh s)) (cursor (sink_state sh' s)) (records sh))
    + length (pending sh' s))%nat.
Proof.
  intros Ok Hr Hrl Hh Hc. unfold pending. rewrite Hr, (above_same sh sh') by done.
  rewrite (above_split sh s (cursor (sink_state sh s)) (cursor (sink_state sh' s))) by (apply Ok || done).
  apply length_app.
Qed.

Lemma acked_round_effect ack s now sh :
  log_ok sh -> acks_all ack s ->
  let sh' := acked_round ack s now sh in
  log_ok sh' /\ owed sh' s = owed sh s /\
  (pending sh' s = [] \/ (length (pending sh' s) < length (pending sh s))%nat).
Proof.
  intros Ok Ha. unfold acked_round. pose proof (plan_batch_effect sh s now Ok) as P.
  destruct (plan_batch sh s now) as [sh1 plan]. cbn [fst snd] in P.
  pose proof (plan_effect_ok _ _ _ _ _ Ok P) as Ok1. pose proof (plan_effect_owed _ _ _ _ _ s Ok P) as Ho.
  destruct plan as [| |batch l sc]; [split_and!; try done; left; by apply P..|].
  assert (pe := pe_plan _ _ _ _ _ P). destruct pe as [Hf B].
  pose proof (pending_raise sh sh1 s Ok ltac:(apply P) ltac:(apply P) ltac:(apply P) ltac:(apply P)) as Hp.
  unfold sink_reply. rewrite accept_whole by (done || apply B).
  set (sh2 := fst _). pose proof (batch_order _ _ _ _ _ _ _ B) as Hord.
  assert (reply_effect sh1 sh2 s) as R.
  { split; [|by eexists]. eexists. split; [reflexivity|]. cbn -[between filter length Z.of_nat].
    pose proof (batch_known _ _ _ _ _ _ _ B). split_and!; try done; try lia.
    rewrite <- (batch_exact _ _ _ _ _ _ _ B), between_cut by lia. done. }
  split; [by eapply reply_effect_ok|]. split; [by rewrite (reply_effect_owed sh1 sh2 s)|]. right.
  pose proof (pending_raise sh1 sh2 s Ok1 eq_refl eq_refl eq_refl) as Hp2.
  assert (cursor (sink_state sh2 s) = sc) as Hc by (unfold sh2; cbn [fst]; by rewrite sink_state_insert).
  rewrite Hc, (batch_exact _ _ _ _ _ _ _ B) in Hp2. specialize (Hp2 ltac:(lia)).
  pose proof (batch_nonempty _ _ _ _ _ _ _ B). destruct batch; [done|]. cbn [length] in Hp2. lia.
Qed.

(** A sink that acks gets everything. With no new appends, as many rounds as the
    sink has records pending leave nothing pending for it, every record of it counted
    as delivered, expired or too big. *)
Theorem acked_rounds_drain ack s now sh :
  log_ok sh -> acks_all ack s ->
  let sh' := Nat.iter (length (pending sh s)) (acked_round ack s now) sh in
  pending sh' s = [] /\
  delivered (sink_state sh' s) + expired (sink_state sh' s) + oversize (sink_state sh' s)
  = delivered (sink_state sh s) + expired (sink_state sh s) + oversize (sink_state sh s)
    + Z.of_nat (length (pending sh s)).
Proof.
  intros Ok Ha. set (n := length (pending sh s)).
  assert (forall k, let shk := Nat.iter k (acked_round ack s now) sh in
    log_ok shk /\ owed shk s = owed sh s /\ (length (pending shk s) <= n - k)%nat) as H.
  { induction k as [|k (Okk & Hok & Hlk)]; [split_and!; try done; cbn; lia|]. intros shk.
    destruct (acked_round_effect ack s now _ Okk Ha) as (H1 & H2 & H3).
    change (acked_round ack s now (Nat.iter k (acked_round ack s now) sh)) with shk in H1, H2, H3.
    split_and!; [done|by rewrite H2|]. destruct H3 as [->|H3]; [cbn|]; lia. }
  destruct (H n) as (_ & Ho & Hl). cbv zeta. unfold owed in Ho.
  destruct (pending (Nat.iter n _ sh) s) as [|x l]; [|cbn in Hl; lia].
  split; [done|]. cbn [length] in Ho. fold n in Ho. lia.
Qed.

End Replies.

(** ** A concrete run

    A router opens an empty stream, takes one turn, sends it and gets it acked. *)

Module Examples.

Definition storage : string := "SY.storage@motherbee".
Definition fresh : Recovered := mkRecovered [] 1 ∅.
Definition turn : Incoming := mkIncoming Turns 1000 SUBJECT_STORAGE_TURNS "AI.a@h1" [Byte.x41].
Definition turn_record : StreamRec := mkStreamRec 1 1000 Turns SUBJECT_STORAGE_TURNS "AI.a@h1" [Byte.x41].
Definition ack (n : Z) : Message Z :=
  set_src_l2_name (build_system_message "u" Broadcast 16 "t" MSG_STREAM_ACK n) (Some storage).

Definition opened_sys : Sys := open_stream "motherbee" "h1" fresh 1000.
Definition taken_sys : Sys :=
  let '(sh, c, _) := take_incoming 1000 turn (log opened_sys) (ctr opened_sys) in
  mkSys sh c (tasks opened_sys).
Definition sent_sys : Sys := sink_plan taken_sys storage 1001 STREAM_RETRY_MIN_MS.
Definition acked_sys : Sys :=
  sink_done Some sent_sys storage [turn_record] 1 1 STREAM_RETRY_MIN_MS (Some (ack 1)) 1002.

Lemma fresh_ok : recovered_ok fresh.
Proof. split; [constructor|constructor|done|]. intros s c. cbn. rewrite lookup_empty. done. Qed.

Lemma storage_sink : storage ∈ all_sinks "motherbee" "h1".
Proof. apply list_elem_of_In. left. reflexivity. Qed.

Lemma run_sent : run (V:=Z) Some opened_sys [turn_record] sent_sys.
Proof.
  apply (run_step Some opened_sys (Some turn_record) taken_sys []).
  - apply (step_take Some opened_sys 1000 turn (log taken_sys) (ctr taken_sys)). vm_compute. reflexivity.
  - apply (run_step Some taken_sys None sent_sys []); [|constructor].
    apply (step_plan Some). vm_compute. reflexivity.
Qed.

Lemma run_acked : run (V:=Z) Some sent_sys [] acked_sys.
Proof.
  apply (run_step Some sent_sys None acked_sys []); [|constructor].
  apply (step_reply Some). vm_compute. reflexivity.
Qed.

Lemma stream_conservation_witness :
  delivered (sink_state (log sent_sys) storage) = 0 /\
  delivered (sink_state (log sent_sys) storage) + expired (sink_state (log sent_sys) storage)
  + oversize (sink_state (log sent_sys) storage)
  + Z.of_nat (length (pending (log sent_sys) storage)) = 1.
Proof.
  split; [vm_compute; reflexivity|].
  exact (stream_conservation Some _ _ _ _ _ _ _ fresh_ok storage_sink run_sent).
Defined.

Lemma stream_batches_exact_witness :
  tasks sent_sys !! storage = Some (Waiting [turn_record] 1 1 STREAM_RETRY_MIN_MS) /\
  StronglySorted seq_lt [turn_record].
Proof.
  assert (tasks sent_sys !! storage = Some (Waiting [turn_record] 1 1 STREAM_RETRY_MIN_MS)) as H
    by (vm_compute; reflexivity).
  split; [exact H|].
  destruct (stream_batches_exact Some _ _ _ _ _ _ fresh_ok run_sent) as [_ B].
  destruct (B _ _ _ _ _ H) as (_ & Hs & _). exact Hs.
Defined.

Lemma stream_monotone_witness :
  map seq [turn_record] = seqZ 1 1 /\
  cursor (sink_state (log sent_sys) storage) <= cursor (sink_state (log acked_sys) storage).
Proof.
  destruct (stream_monotone Some _ _ _ _ _ _ _ _ _ fresh_ok storage_sink run_sent run_acked)
    as (H1 & _ & H3).
  split; [exact H1|exact H3].
Defined.

Lemma stream_stays_in_caps_witness :
  turn_bytes (log sent_sys) + node_bytes (log sent_sys) <= STREAM_MAX_BYTES.
Proof.
  destruct (stream_stays_in_caps Some "motherbee" "h1" fresh 1000 [turn_record] sent_sys fresh_ok)
    as (_ & _ & H);
    [vm_compute; discriminate|vm_compute; discriminate|exact run_sent|exact H].
Defined.

Lemma taken_ok : sys_ok taken_sys.
Proof.
  apply (step_take_ok opened_sys 1000 turn _ _ (Some turn_record)).
  - apply open_stream_ok, fresh_ok.
  - vm_compute. reflexivity.
Qed.

Lemma plan_batch_correct_witness :
  snd (plan_batch (log taken_sys) storage 1001) = Send [turn_record] 1 1 /\
  Z.of_nat (length [turn_record]) <= STREAM_BATCH_MAX_RECORDS.
Proof.
  assert (snd (plan_batch (log taken_sys) storage 1001) = Send [turn_record] 1 1) as E
    by (vm_compute; reflexivity).
  split; [exact E|].
  pose proof (plan_batch_correct (log taken_sys) storage 1001 (sys_log _ taken_ok)) as H.
  cbv zeta in H. rewrite E in H. destruct H as (_ & _ & _ & _ & _ & _ & _ & H & _). exact H.
Defined.

Lemma sink_reply_safe_witness :
  cursor (sink_state (fst (sink_reply Some (log sent_sys) storage [turn_record] 1 1 (Some (ack 1)) 1002))
    storage) <= 1.
Proof.
  assert (sys_ok sent_sys) as [Ok Tk].
  { apply (step_plan_ok taken_sys storage 1001 STREAM_RETRY_MIN_MS); [exact taken_ok|].
    vm_compute. reflexivity. }
  destruct (sink_reply_safe Some (log sent_sys) storage [turn_record] 1 1 STREAM_RETRY_MIN_MS
    (Some (ack 1)) 1002 Ok) as [H _].
  - apply Tk. vm_compute. reflexivity.
  - exact (proj2 H).
Defined.

Lemma acked_rounds_drain_witness :
  length (pending (log taken_sys) storage) = 1%nat /\
  pending (Nat.iter (length (pending (log taken_sys) storage)) (acked_round Some ack storage 1001)
             (log taken_sys)) storage = [].
Proof.
  split; [vm_compute; reflexivity|].
  assert (acks_all Some ack storage) as Ha by (intros n; repeat split).
  destruct (acked_rounds_drain Some ack storage 1001 (log taken_sys) (sys_log _ taken_ok) Ha) as [H _].
  exact H.
Defined.

End Examples.
