(* ===== verification/StreamDisk.v ===== *)
(** * The stream's files (src/src/router/stream.rs)

    The segments a router's stream writes, rolls, syncs, trims and recovers, and the
    disk thread's loop around them. A directory is a map from file names to bytes, of
    which a prefix is synced; every call of the file system may fail, and a write may
    stop anywhere. A crash between two steps leaves the files as they are; one inside
    an operation leaves what that operation's failure would. The theorems: the system
    with its disk refines [StreamSystem]; what a restart recovers satisfies what
    [open_stream] asks; no record still owed to a sink is lost by a crash unless its
    write had failed; and a seq is not given twice unless the disk failed. *)

From Stdlib Require Import ZArith Lia Ascii String Strings.Byte.
From stdpp Require Import base list gmap strings fin_maps sorting.
From S2P Require Import Prelude Protocol StreamRecord StreamLog StreamSystem.
Open Scope Z_scope.

Definition STREAM_SEGMENT_BYTES : Z := 4 * 1024 * 1024.
Definition SEGMENT_SUFFIX : string := ".seg".

(** ** File names *)

Definition digit (z : Z) : ascii := ascii_of_N (Z.to_N (48 + z)).

Definition digit_value (a : ascii) : option Z :=
  let n := Z.of_N (N_of_ascii a) in
  if (48 <=? n) && (n <=? 57) then Some (n - 48) else None.

(** The last [k] decimal digits of [z]: [{z:0k}] when [z] has no more. *)
Fixpoint zero_padded (k : nat) (z : Z) : list ascii :=
  match k with
  | O => []
  | S k => zero_padded k (z / 10) ++ [digit (z mod 10)]
  end.

(** The digits of [str::parse::<u64>], from the left; an overflow is an error. *)
Fixpoint parse_digits (acc : Z) (l : list ascii) : option Z :=
  match l with
  | [] => Some acc
  | a :: rest =>
    match digit_value a with
    | Some d => if acc * 10 + d <=? u64_max then parse_digits (acc * 10 + d) rest else None
    | None => None
    end
  end.

(** [str::parse::<u64>]: an optional plus sign and at least one digit. *)
Definition parse_u64 (s : string) : option Z :=
  let l := list_ascii_of_string s in
  let l := match l with a :: rest => if Ascii.eqb a "+" then rest else l | [] => l end in
  match l with [] => None | _ => parse_digits 0 l end.

(** [segment_path], inside the stream's directory. *)
Definition segment_path (first_seq : Z) : string :=
  string_of_list_ascii (zero_padded 20 first_seq) ++ SEGMENT_SUFFIX.

(** The first seq a file's name gives, none for other files. *)
Definition segment_first (name : string) : option Z :=
  strip_suffix SEGMENT_SUFFIX name ≫= parse_u64.

(** ** Files *)

(** A file: its bytes, and how many of them are synced. *)
Record SegFile := mkSegFile { content : list byte; synced : nat }.

Abbreviation Files := (gmap string SegFile).

(** [sync_data]. *)
Definition sync_data (p : string) (f : Files) : Files :=
  alter (fun s => mkSegFile (content s) (length (content s))) p f.

(** [OpenOptions::new().create(true).append(true).open]. *)
Definition open_append (p : string) (f : Files) : Files :=
  match f !! p with Some _ => f | None => <[p := mkSegFile [] 0]> f end.

(** What a write at the end of a file leaves. *)
Definition write_end (p : string) (bytes : list byte) (f : Files) : Files :=
  alter (fun s => mkSegFile (content s ++ bytes) (synced s)) p f.

(** [set_len]. *)
Definition set_len (p : string) (n : nat) (f : Files) : Files :=
  alter (fun s => mkSegFile (take n (content s)) (Nat.min n (synced s))) p f.

(** How the file system answers a write: whether the sync of the segment it closes and
    the opening of the new one work, and after how many bytes the write stops. *)
Record Io := mkIo { io_sync : bool; io_open : bool; io_write : option nat }.

(** ** [Disk] *)

Record Segment := mkSegment { seg_last_seq : Z; seg_path : string }.

(** The open file is its path and its size. *)
Record Disk := mkDisk {
  segments : list Segment;
  current : option (string * Z);
  last_written_seq : Z;
  dirty : bool }.

Module Disk.

Definition set_current (d : Disk) (c : option (string * Z)) : Disk :=
  mkDisk (segments d) c (last_written_seq d) (dirty d).

(** [self.segments.last_mut()], its [last_seq] set. *)
Fixpoint set_last_seq (n : Z) (l : list Segment) : list Segment :=
  match l with
  | [] => []
  | [s] => [mkSegment n (seg_path s)]
  | s :: rest => s :: set_last_seq n rest
  end.

(** A new segment for the record [write] is about to write. *)
Definition open_segment (io : Io) (d : Disk) (f : Files) (r : StreamRec) : Disk * Files * bool :=
  let path := segment_path (seq r) in
  if io_open io then
    (mkDisk (segments d ++ [mkSegment (seq r) path]) (Some (path, 0)) (last_written_seq d) (dirty d),
     open_append path f, true)
  else (d, f, false).

(** The roll at the start of [write]; false when it failed. *)
Definition roll (io : Io) (d : Disk) (f : Files) (r : StreamRec) : Disk * Files * bool :=
  match current d with
  | Some (file, size) =>
    if STREAM_SEGMENT_BYTES <=? size then
      if io_sync io then open_segment io (set_current d None) (sync_data file f) r
      else (set_current d None, f, false)
    else (d, f, true)
  | None => open_segment io d f r
  end.

(** [write_all]: what a write that fails leaves in the file, none when it works. *)
Definition stopped (io : Io) (bytes : list byte) : option (list byte) :=
  match io_write io with
  | Some k => if (k <? length bytes)%nat then Some (take k bytes) else None
  | None => None
  end.

(** [Disk::write]; the boolean is whether it returned [Ok]. *)
Definition write (io : Io) (d : Disk) (f : Files) (r : StreamRec) : Disk * Files * bool :=
  match roll io d f r with
  | (d, f, false) => (d, f, false)
  | (d, f, true) =>
    let bytes := encode_record r in
    match current d with
    | None => (d, f, false)
    | Some (file, size) =>
      match stopped io bytes with
      | Some part => (d, write_end file part f, false)
      | None =>
        (mkDisk (set_last_seq (seq r) (segments d)) (Some (file, size + Z.of_nat (length bytes)))
           (seq r) true, write_end file bytes f, true)
      end
    end
  end.

(** [Disk::append]. *)
Definition append (io : Io) (d : Disk) (f : Files) (r : StreamRec) : Disk * Files * bool :=
  match write io d f r with
  | (d, f, true) => (d, f, true)
  | (d, f, false) => (set_current d None, f, false)
  end.

(** [Disk::fsync]: [None] is an error, [Some None] nothing to do. *)
Definition fsync (io : Io) (d : Disk) (f : Files) : Disk * Files * option (option Z) :=
  if negb (dirty d) then (d, f, Some None)
  else
    let clean := mkDisk (segments d) (current d) (last_written_seq d) false in
    match current d with
    | Some (file, _) =>
      if io_sync io then (clean, sync_data file f, Some (Some (last_written_seq d)))
      else (d, f, None)
    | None => (clean, f, Some (Some (last_written_seq d)))
    end.

(** [fs::remove_file], its result ignored; [rm] says for which names it works. *)
Definition remove_file (rm : string -> bool) (p : string) (f : Files) : Files :=
  if rm p then delete p f else f.

(** The loop of [Disk::trim]. *)
Fixpoint trim_segments (rm : string -> bool) (keep_from : Z) (l : list Segment) (f : Files)
  : list Segment * Files :=
  match l with
  | first :: ((_ :: _) as rest) =>
    if keep_from <=? seg_last_seq first then (l, f)
    else trim_segments rm keep_from rest (remove_file rm (seg_path first) f)
  | _ => (l, f)
  end.

(** [Disk::trim]. *)
Definition trim (rm : string -> bool) (keep_from : Z) (nothing_left : bool) (d : Disk) (f : Files)
  : Disk * Files :=
  if nothing_left then
    (mkDisk [] None (last_written_seq d) false,
     fold_left (fun f s => remove_file rm (seg_path s) f) (segments d) f)
  else
    let '(l, f) := trim_segments rm keep_from (segments d) f in
    (mkDisk l (current d) (last_written_seq d) (dirty d), f).

End Disk.

(** ** [state.json], recovery and the disk thread *)

(** What [recover] reads in [state.json]: each field none when missing or not a [u64],
    all of them none when the file does not parse. *)
Record Saved := mkSaved {
  sv_epoch : option Z;
  sv_next_seq : option Z;
  sv_cursors : option (gmap string Z) }.

Section Recover.
Context {J : Type}.

(** [serde_json]: the bytes of the state [save_state] writes, and what [recover] reads
    in such bytes. *)
Variable state_of : Z -> Z -> gmap string Z -> J.
Variable read_state : J -> Saved.

(** The stream's directory. *)
Record Fs := mkFs { files : Files; state_json : option J }.

Definition no_state : Saved := mkSaved None None None.

Definition saved_state (fs : Fs) : Saved :=
  match state_json fs with Some j => read_state j | None => no_state end.

(** How the file system answers a recovery. *)
Record RecoverIo := mkRecoverIo {
  ri_dir : bool;
  ri_read : string -> bool;
  ri_cut : bool;
  ri_reopen : bool }.

(** The segments of a directory, in the order of their first seqs. *)
Definition segment_paths (f : Files) : list (Z * string) :=
  sort_by (fun a b => Z.compare (fst a) (fst b))
    (omap (fun e => first ← segment_first (fst e); Some (first, fst e)) (map_to_list f)).

(** The loop of [recover]: the records and segments found, and the files with the
    newest segment cut where it is torn; none on an I/O error. *)
Fixpoint recover_segments (io : RecoverIo) (paths : list (Z * string)) (f : Files)
  (records : list StreamRec) (segs : list Segment) : Files * option (list StreamRec * list Segment) :=
  match paths with
  | [] => (f, Some (records, segs))
  | (first, path) :: rest =>
    match f !! path with
    | Some file =>
      if negb (ri_read io path) then (f, None)
      else
        let '(decoded, whole) := decode_records (content file) in
        let torn := (whole <? length (content file))%nat && match rest with [] => true | _ => false end in
        if torn && negb (ri_cut io) then (f, None)
        else
          let f := if torn then set_len path whole f else f in
          let last_seq := match last decoded with Some r => seq r | None => first end in
          recover_segments io rest f (records ++ decoded) (segs ++ [mkSegment last_seq path])
    | None => (f, None)
    end
  end.

(** The cursors [recover] keeps: of the sinks it knows, never past the disk. *)
Definition recover_cursors (saved : option (gmap string Z)) (sinks : list string) (last_on_disk : Z)
  : gmap string Z :=
  match saved with
  | Some m =>
    fold_left (fun acc s => match m !! s with
                            | Some c => <[s := Z.min c last_on_disk]> acc
                            | None => acc
                            end) sinks ∅
  | None => ∅
  end.

Definition last_seq_of (l : list StreamRec) : Z :=
  match last l with Some r => seq r | None => 0 end.

(** [recover]: the files as it leaves them, and on success the disk, what it found and
    the epoch; [fresh] is what [new_epoch] would draw. *)
Definition recover (io : RecoverIo) (fs : Fs) (sinks : list string) (fresh : Z)
  : Fs * option (Disk * Recovered * Z) :=
  if negb (ri_dir io) then (fs, None)
  else
    let '(f, found) := recover_segments io (segment_paths (files fs)) (files fs) [] [] in
    let fs := mkFs f (state_json fs) in
    match found with
    | None => (fs, None)
    | Some (records, segs) =>
      let last_on_disk := last_seq_of records in
      let state := saved_state fs in
      let epoch := match sv_epoch state with
                   | Some e => if 0 <? e then e else fresh
                   | None => fresh
                   end in
      let next_seq := Z.max (Z.max (unwrap_or 1 (sv_next_seq state)) (wrap64 (last_on_disk + 1))) 1 in
      let cursors := recover_cursors (sv_cursors state) sinks last_on_disk in
      match last segs with
      | Some s =>
        if negb (ri_reopen io) then (fs, None)
        else
          let size := match f !! seg_path s with
                      | Some file => Z.of_nat (length (content file)) | None => 0 end in
          (fs, Some (mkDisk segs (Some (seg_path s, size)) last_on_disk false,
                     mkRecovered records next_seq cursors, epoch))
      | None =>
        (fs, Some (mkDisk segs None last_on_disk false, mkRecovered records next_seq cursors, epoch))
      end
    end.

(** [open]'s fallback: no disk, the stream in memory only. *)
Definition recover_or_memory (io : RecoverIo) (fs : Fs) (sinks : list string) (fresh : Z)
  : Fs * (option Disk * Recovered * Z) :=
  match recover io fs sinks fresh with
  | (fs, Some (d, rec, epoch)) => (fs, (Some d, rec, epoch))
  | (fs, None) => (fs, (None, mkRecovered [] 1 ∅, fresh))
  end.

(** [Disk::save_state]: the new state replaces the old one, or nothing changes. *)
Definition save_state (ok : bool) (epoch next_seq : Z) (cursors : gmap string Z) (fs : Fs) : Fs * bool :=
  if ok then (mkFs (files fs) (Some (state_of epoch next_seq cursors)), true) else (fs, false).

(** Where the disk thread stands: in its loop, with a record of the log to write, or
    with the state of a housekeeping to save and then the segments to trim. *)
Inductive Pc :=
| Looping
| Writing (r : StreamRec)
| Saving (keep_from : Z) (nothing_left : bool) (next_seq : Z) (cursors : gmap string Z)
| Trimming (keep_from : Z) (nothing_left : bool).

(** The stream with its disk. The counter [disk_errors] is kept here. *)
Record DSys := mkDSys {
  ds_sys : Sys;
  ds_disk : option Disk;
  ds_fs : Fs;
  ds_pc : Pc;
  ds_last_saved : option (Z * gmap string Z);
  ds_epoch : Z;
  ds_errors : Z }.

(** [open], on what the directory holds. *)
Definition open_disk (io : RecoverIo) (rl hv : string) (fs : Fs) (fresh now : Z) : DSys :=
  let '(fs, (disk, rec, epoch)) := recover_or_memory io fs (all_sinks rl hv) fresh in
  mkDSys (open_stream rl hv rec now) disk fs Looping None epoch 0.

(** The end of [take_incoming]: the record goes to disk, outside the lock. *)
Definition write_record (io : Io) (ds : DSys) (r : StreamRec) : DSys * bool :=
  match ds_disk ds with
  | None => (mkDSys (ds_sys ds) None (ds_fs ds) Looping (ds_last_saved ds) (ds_epoch ds) (ds_errors ds), false)
  | Some d =>
    let '(d, f, ok) := Disk.append io d (files (ds_fs ds)) r in
    (mkDSys (ds_sys ds) (Some d) (mkFs f (state_json (ds_fs ds))) Looping (ds_last_saved ds)
       (ds_epoch ds) (if ok then ds_errors ds else ds_errors ds + 1), ok)
  end.

(** The fsync of [run_disk]. *)
Definition fsync_disk (io : Io) (ds : DSys) : DSys :=
  match ds_disk ds with
  | None => ds
  | Some d =>
    let '(d, f, res) := Disk.fsync io d (files (ds_fs ds)) in
    let sys := match res with
               | Some (Some n) => mkSys (set_fsynced (log (ds_sys ds)) n) (ctr (ds_sys ds)) (tasks (ds_sys ds))
               | _ => ds_sys ds
               end in
    mkDSys sys (Some d) (mkFs f (state_json (ds_fs ds))) (ds_pc ds) (ds_last_saved ds) (ds_epoch ds)
      (match res with None => ds_errors ds + 1 | Some _ => ds_errors ds end)
  end.

(** The part of the housekeeping under the lock. *)
Definition housekeeping (now : Z) (ds : DSys) : DSys :=
  let '(sh, keep_from) := StreamLog.trim now (log (ds_sys ds)) in
  let cursors := (fun st => Z.min (cursor st) (fsynced_seq sh)) <$> sinks sh in
  mkDSys (mkSys sh (ctr (ds_sys ds)) (tasks (ds_sys ds))) (ds_disk ds) (ds_fs ds)
    (Saving keep_from (match records sh with [] => true | _ => false end) (next_seq sh) cursors)
    (ds_last_saved ds) (ds_epoch ds) (ds_errors ds).

(** The state is saved, when it changed; false when saving it failed. *)
Definition save_housekeeping (ok : bool) (ds : DSys) (keep_from : Z) (nothing_left : bool) (next : Z)
  (cursors : gmap string Z) : DSys * bool :=
  match ds_disk ds with
  | None =>
    (mkDSys (ds_sys ds) None (ds_fs ds) Looping (ds_last_saved ds) (ds_epoch ds) (ds_errors ds), true)
  | Some d =>
    if bool_decide (ds_last_saved ds = Some (next, cursors)) then
      (mkDSys (ds_sys ds) (Some d) (ds_fs ds) (Trimming keep_from nothing_left) (ds_last_saved ds)
         (ds_epoch ds) (ds_errors ds), true)
    else
      match save_state ok (ds_epoch ds) next cursors (ds_fs ds) with
      | (fs, true) =>
        (mkDSys (ds_sys ds) (Some d) fs (Trimming keep_from nothing_left) (Some (next, cursors))
           (ds_epoch ds) (ds_errors ds), true)
      | (fs, false) =>
        (mkDSys (ds_sys ds) (Some d) fs (Trimming keep_from false) (ds_last_saved ds)
           (ds_epoch ds) (ds_errors ds + 1), false)
      end
  end.

(** The segments nobody needs any more leave the disk. *)
Definition trim_housekeeping (rm : string -> bool) (ds : DSys) (keep_from : Z) (nothing_left : bool)
  : DSys :=
  match ds_disk ds with
  | None => mkDSys (ds_sys ds) None (ds_fs ds) Looping (ds_last_saved ds) (ds_epoch ds) (ds_errors ds)
  | Some d =>
    let '(d, f) := Disk.trim rm keep_from nothing_left d (files (ds_fs ds)) in
    mkDSys (ds_sys ds) (Some d) (mkFs f (state_json (ds_fs ds))) Looping (ds_last_saved ds)
      (ds_epoch ds) (ds_errors ds)
  end.

Definition set_pc (ds : DSys) (sys : Sys) (pc : Pc) : DSys :=
  mkDSys sys (ds_disk ds) (ds_fs ds) pc (ds_last_saved ds) (ds_epoch ds) (ds_errors ds).

(** What a step shows. *)
Inductive DEvent :=
| Placed (r : StreamRec)
| Unwritten (r : StreamRec)
| Unsaved
| Quiet.

Context {V : Type} (ack_of_value : V -> option Z).

(** The disk thread and the senders; each step is what one of them does under the lock,
    or one operation on the disk. A record taken is one the encoder can represent, and
    [next_seq += 1] does not overflow. *)
Inductive dstep (ds : DSys) : DEvent -> DSys -> Prop :=
| d_take now i sh c r :
    ds_pc ds = Looping -> rec_wf (record_of (log (ds_sys ds)) i) ->
    next_seq (log (ds_sys ds)) < u64_max ->
    take_incoming now i (log (ds_sys ds)) (ctr (ds_sys ds)) = (sh, c, Some r) ->
    dstep ds (Placed r) (set_pc ds (mkSys sh c (tasks (ds_sys ds))) (Writing r))
| d_refuse now i sh c :
    ds_pc ds = Looping ->
    take_incoming now i (log (ds_sys ds)) (ctr (ds_sys ds)) = (sh, c, None) ->
    dstep ds Quiet (set_pc ds (mkSys sh c (tasks (ds_sys ds))) Looping)
| d_write io r ds' ok :
    ds_pc ds = Writing r -> write_record io ds r = (ds', ok) ->
    dstep ds (if ok then Quiet else Unwritten r) ds'
| d_fsync io :
    ds_pc ds = Looping -> dstep ds Quiet (fsync_disk io ds)
| d_house now :
    ds_pc ds = Looping -> dstep ds Quiet (housekeeping now ds)
| d_save ok kf nl next cursors ds' saved :
    ds_pc ds = Saving kf nl next cursors ->
    save_housekeeping ok ds kf nl next cursors = (ds', saved) ->
    dstep ds (if saved then Quiet else Unsaved) ds'
| d_trim rm kf nl :
    ds_pc ds = Trimming kf nl -> dstep ds Quiet (trim_housekeeping rm ds kf nl)
| d_plan sink now backoff :
    tasks (ds_sys ds) !! sink = Some (Planning backoff) ->
    dstep ds Quiet (set_pc ds (sink_plan (ds_sys ds) sink now backoff) (ds_pc ds))
| d_reply sink batch last_seq scanned_up_to backoff reply now :
    tasks (ds_sys ds) !! sink = Some (Waiting batch last_seq scanned_up_to backoff) ->
    dstep ds Quiet (set_pc ds (sink_done ack_of_value (ds_sys ds) sink batch last_seq scanned_up_to backoff reply now)
                      (ds_pc ds)).

Inductive drun (ds : DSys) : list DEvent -> DSys -> Prop :=
| drun_refl : drun ds [] ds
| drun_step e ds1 es ds2 : dstep ds e ds1 -> drun ds1 es ds2 -> drun ds (e :: es) ds2.

End Recover.

(** ** Lemmas: file names *)

Lemma digit_value_digit z : 0 <= z < 10 -> digit_value (digit z) = Some z.
Proof.
  intros H. assert (z = 0 \/ z = 1 \/ z = 2 \/ z = 3 \/ z = 4 \/ z = 5 \/ z = 6 \/ z = 7 \/ z = 8 \/ z = 9) as Hz by lia.
  repeat destruct Hz as [->|Hz]; subst; done.
Qed.

Lemma parse_digits_app l1 l2 acc :
  parse_digits acc (l1 ++ l2) = parse_digits acc l1 ≫= fun n => parse_digits n l2.
Proof.
  revert acc. induction l1 as [|a l1 IH]; intros acc; [done|]. cbn [app parse_digits].
  destruct (digit_value a); [|done]. destruct (_ <=? _); [apply IH|done].
Qed.

Lemma parse_zero_padded k : forall z, 0 <= z < 10 ^ Z.of_nat k -> z <= u64_max ->
  parse_digits 0 (zero_padded k z) = Some z.
Proof.
  induction k as [|k IH]; intros z Hz Hm; cbn [zero_padded].
  - cbn in Hz. cbn. f_equal. lia.
  - rewrite Nat2Z.inj_succ, Z.pow_succ_r in Hz by lia.
    rewrite parse_digits_app, IH; cbn [mbind option_bind parse_digits].
    + pose proof (Z.mod_pos_bound z 10 ltac:(lia)). rewrite digit_value_digit by lia.
      pose proof (Z.div_mod z 10 ltac:(lia)). replace (z / 10 * 10 + z mod 10) with z by lia.
      by rewrite (proj2 (Z.leb_le _ _)) by lia.
    + split; [apply Z.div_pos; lia|]. apply Z.div_lt_upper_bound; lia.
    + assert (z / 10 <= z) by (apply Z.div_le_upper_bound; lia). lia.
Qed.

Lemma length_zero_padded k z : length (zero_padded k z) = k.
Proof. revert z. induction k as [|k IH]; intros z; cbn; [done|]. rewrite length_app, IH. cbn. lia. Qed.

Lemma zero_padded_digits k : forall z a, a ∈ zero_padded k z -> exists d, 0 <= d < 10 /\ a = digit d.
Proof.
  induction k as [|k IH]; intros z a; cbn; [by intros ?%elem_of_nil|].
  intros [Ha|Ha]%elem_of_app; [eauto|]. apply list_elem_of_singleton in Ha as ->.
  exists (z mod 10). split; [apply Z.mod_pos_bound; lia|done].
Qed.

Lemma strip_suffix_app s p : strip_suffix p (s ++ p)%string = Some s.
Proof.
  induction s as [|a s IH].
  - change ("" ++ p)%string with p. destruct p; cbn [strip_suffix]; by rewrite String.eqb_refl.
  - rewrite string_app_cons. cbn [strip_suffix].
    destruct (String.eqb_spec (String a (s ++ p)) p) as [E|]; [|by rewrite IH].
    apply (f_equal String.length) in E. cbn in E.
    rewrite str_length_app in E. lia.
Qed.

(** The name of a segment gives back its first seq. *)
Lemma segment_first_path n : 0 <= n < 2 ^ 64 -> segment_first (segment_path n) = Some n.
Proof.
  intros Hn. unfold segment_first, segment_path. rewrite strip_suffix_app. cbn [mbind option_bind].
  unfold parse_u64. rewrite list_ascii_of_string_of_list_ascii.
  pose proof (length_zero_padded 20 n) as Hl. pose proof (zero_padded_digits 20 n) as Hd.
  pose proof (parse_zero_padded 20 n ltac:(cbn; lia) ltac:(unfold u64_max; lia)) as Hp.
  destruct (zero_padded 20 n) as [|a l]; [done|].
  destruct (Hd a ltac:(left)) as (d & Hd0 & ->).
  destruct (Ascii.eqb_spec (digit d) "+") as [E|]; [|done].
  pose proof (digit_value_digit d Hd0) as Hv. rewrite E in Hv. done.
Qed.

Lemma segment_path_inj n m : 0 <= n < 2 ^ 64 -> 0 <= m < 2 ^ 64 -> segment_path n = segment_path m -> n = m.
Proof.
  intros Hn Hm E. apply (f_equal segment_first) in E. rewrite !segment_first_path in E by done. congruence.
Qed.

#[global] Opaque segment_path segment_first.
#[local] Opaque encode_record.

(** ** What a directory holds

    A segment is its first seq, its whole records, and the bytes a failed write left
    after them; a directory is its segments in order. *)

Record SegM := mkSegM { m_first : Z; m_recs : list StreamRec; m_tail : list byte }.

Definition m_name (m : SegM) : string := segment_path (m_first m).

Definition m_bytes (m : SegM) : list byte := encode_all (m_recs m) ++ m_tail m.

Definition all_recs (ms : list SegM) : list StreamRec := ms ≫= m_recs.

(** What a write that stopped leaves: a record cut inside, or nothing. *)
Definition torn_tail (t : list byte) : Prop :=
  exists r k, rec_wf r /\ (k < length (encode_record r))%nat /\ t = take k (encode_record r).

Definition good_rec (r : StreamRec) : Prop := rec_wf r /\ 0 < seq r.

Definition first_lt (a b : SegM) : Prop := m_first a < m_first b.

Record files_ok (f : Files) (ms : list SegM) : Prop := {
  fo_in : forall m, m ∈ ms -> content <$> f !! m_name m = Some (m_bytes m);
  fo_only : forall p, is_Some (f !! p) -> is_Some (segment_first p) -> exists m, m ∈ ms /\ p = m_name m;
  fo_sorted : StronglySorted first_lt ms;
  fo_range : forall m, m ∈ ms -> 0 <= m_first m < 2 ^ 64;
  fo_recs : StronglySorted seq_lt (all_recs ms);
  fo_good : Forall good_rec (all_recs ms);
  fo_tails : forall m, m ∈ ms -> torn_tail (m_tail m) }.

(** Membership in lists built of appends and conses. *)
Ltac in_app := rewrite ?elem_of_app, ?elem_of_cons; tauto.

Lemma all_recs_app a b : all_recs (a ++ b) = all_recs a ++ all_recs b.
Proof. apply bind_app. Qed.

Lemma all_recs_one m : all_recs [m] = m_recs m.
Proof. unfold all_recs. cbn. apply app_nil_r. Qed.

Lemma torn_nil : torn_tail [].
Proof.
  exists (mkStreamRec 0 0 Turns "" "" []), 0%nat. split; [|by split; [vm_compute; lia|]].
  unfold rec_wf. cbn -[encode_body]. split_and!; try done; lia.
Qed.

Lemma firsts_inj ms m m' : StronglySorted first_lt ms -> m ∈ ms -> m' ∈ ms -> m_first m = m_first m' -> m = m'.
Proof.
  induction 1 as [|x l Hs IH Hx]; [by intros ?%elem_of_nil|]. rewrite Forall_forall in Hx.
  intros [->|Hm]%elem_of_cons [->|Hm']%elem_of_cons E; [done| | |auto].
  - specialize (Hx _ Hm'). unfold first_lt in Hx. lia.
  - specialize (Hx _ Hm). unfold first_lt in Hx. lia.
Qed.

Lemma names_inj f ms m m' : files_ok f ms -> m ∈ ms -> m' ∈ ms -> m_name m = m_name m' -> m = m'.
Proof.
  intros F Hm Hm' E. eapply firsts_inj; [apply F|done|done|].
  apply segment_path_inj; [by apply (fo_range _ _ F)..|done].
Qed.

(** Files with the same bytes hold the same segments. *)
Lemma files_ok_content f f' ms : (forall p, content <$> f' !! p = content <$> f !! p) ->
  files_ok f ms -> files_ok f' ms.
Proof.
  intros E []. split; try done.
  - intros m Hm. rewrite E. auto.
  - intros p Hp. apply fo_only0. specialize (E p). destruct (f !! p), (f' !! p), Hp; eauto; done.
Qed.

Lemma sync_data_content p f q : content <$> sync_data p f !! q = content <$> f !! q.
Proof.
  unfold sync_data. destruct (decide (p = q)) as [->|]; [|by rewrite lookup_alter_ne].
  rewrite lookup_alter_eq. by destruct (f !! q).
Qed.

(** The newest segment changes to [m']. *)
Lemma files_ok_alter f ms m m' g : files_ok f (ms ++ [m]) -> m_first m' = m_first m ->
  (forall s, content s = m_bytes m -> content (g s) = m_bytes m') ->
  StronglySorted seq_lt (all_recs (ms ++ [m'])) -> Forall good_rec (m_recs m') -> torn_tail (m_tail m') ->
  files_ok (alter g (m_name m) f) (ms ++ [m']).
Proof.
  intros F Ef Hg Hs Hgood Ht. pose proof (fo_in _ _ F m ltac:(in_app)) as Hm.
  assert (m_name m' = m_name m) as En by (unfold m_name; by rewrite Ef).
  pose proof (fo_sorted _ _ F) as HF. apply StronglySorted_app in HF as (Hlt & Hms & _).
  split.
  - intros x [Hx|Hx]%elem_of_app.
    + rewrite lookup_alter_ne; [apply (fo_in _ _ F); in_app|]. intros E. symmetry in E.
      apply (names_inj _ _ _ _ F) in E as ->; [|in_app..].
      specialize (Hlt m m Hx ltac:(in_app)). unfold first_lt in Hlt. lia.
    + apply list_elem_of_singleton in Hx as ->. rewrite En, lookup_alter_eq.
      destruct (f !! m_name m) as [s|]; [|done]. cbn. f_equal. apply Hg. by injection Hm.
  - intros p Hp Hf. rewrite lookup_alter_is_Some in Hp. destruct (fo_only _ _ F p Hp Hf) as (x & Hx & ->).
    apply elem_of_app in Hx as [Hx|Hx].
    + exists x. split; [in_app|done].
    + apply list_elem_of_singleton in Hx as ->. exists m'. split; [in_app|done].
  - apply StronglySorted_app_2; [|done|repeat constructor].
    intros x y Hx ->%list_elem_of_singleton. unfold first_lt. rewrite Ef.
    apply (Hlt x m Hx). in_app.
  - intros x [Hx|Hx]%elem_of_app; [apply (fo_range _ _ F); in_app|].
    apply list_elem_of_singleton in Hx as ->. rewrite Ef. apply (fo_range _ _ F). in_app.
  - done.
  - pose proof (fo_good _ _ F) as HG. rewrite all_recs_app in *. apply Forall_app in HG as [HG _].
    apply Forall_app. split; [done|]. by rewrite all_recs_one.
  - intros x [Hx|Hx]%elem_of_app; [apply (fo_tails _ _ F); in_app|].
    by apply list_elem_of_singleton in Hx as ->.
Qed.

(** A new, empty segment after all the others. *)
Lemma files_ok_new f ms n : files_ok f ms -> 0 <= n < 2 ^ 64 -> (forall m, m ∈ ms -> m_first m < n) ->
  files_ok (open_append (segment_path n) f) (ms ++ [mkSegM n [] []]).
Proof.
  intros F Hn Hlt. unfold open_append.
  assert (f !! segment_path n = None) as ->.
  { destruct (f !! segment_path n) eqn:E; [|done]. exfalso.
    destruct (fo_only _ _ F (segment_path n)) as (m & Hm & Em); [eauto|rewrite segment_first_path by done; eauto|].
    unfold m_name in Em. apply segment_path_inj in Em as ->; [|done|by apply (fo_range _ _ F)]. specialize (Hlt m Hm). lia. }
  assert (all_recs (ms ++ [mkSegM n [] []]) = all_recs ms) as Er
    by (rewrite all_recs_app, all_recs_one; apply app_nil_r).
  split; rewrite ?Er.
  - intros m [Hm|Hm]%elem_of_app.
    + rewrite lookup_insert_ne; [by apply F|]. intros E.
      apply segment_path_inj in E; [|done|by apply (fo_range _ _ F)]. specialize (Hlt m Hm). lia.
    + apply list_elem_of_singleton in Hm as ->. unfold m_name. cbn [m_first]. by rewrite lookup_insert_eq.
  - intros p Hp Hf. destruct (decide (p = segment_path n)) as [->|Hne].
    + exists (mkSegM n [] []). split; [in_app|done].
    + rewrite lookup_insert_ne in Hp by done. destruct (fo_only _ _ F p Hp Hf) as (m & Hm & ->).
      exists m. split; [in_app|done].
  - apply StronglySorted_app_2; [|apply F|repeat constructor].
    intros x y Hx ->%list_elem_of_singleton. by apply Hlt.
  - intros m [Hm|Hm]%elem_of_app; [by apply F|]. by apply list_elem_of_singleton in Hm as ->.
  - apply F.
  - apply F.
  - intros m [Hm|Hm]%elem_of_app; [by apply F|]. apply list_elem_of_singleton in Hm as ->. apply torn_nil.
Qed.

Lemma StronglySorted_filter {A} (R : relation A) (P : A -> Prop) `{HdP : forall x, Decision (P x)} l :
  StronglySorted R l -> StronglySorted R (filter P l).
Proof.
  induction 1 as [|x l Hs IH Hx]; [constructor|]. rewrite filter_cons. case_decide; [|done].
  constructor; [done|]. rewrite Forall_forall in *. intros y [_ Hy]%list_elem_of_filter. auto.
Qed.

Lemma all_recs_filter_sorted (P : SegM -> Prop) `{HdP : forall x, Decision (P x)} ms :
  StronglySorted seq_lt (all_recs ms) -> StronglySorted seq_lt (all_recs (filter P ms)).
Proof.
  induction ms as [|m ms IH]; [done|]. change (m :: ms) with ([m] ++ ms). rewrite filter_app, !all_recs_app.
  intros (Hlt & H1 & H2)%StronglySorted_app. apply StronglySorted_app_2; [|destruct (decide (P m)) as [p|p]|auto].
  - intros x y Hx Hy. apply Hlt; apply list_elem_of_bind in Hx as (a & Hxa & Ha), Hy as (b & Hyb & Hb);
      apply list_elem_of_filter in Ha as [_ Ha], Hb as [_ Hb]; apply list_elem_of_bind; eauto.
  - by rewrite filter_cons_True.
  - rewrite filter_cons_False by done. constructor.
Qed.

Lemma elem_of_all_recs r ms : r ∈ all_recs ms <-> exists m, r ∈ m_recs m /\ m ∈ ms.
Proof. apply list_elem_of_bind. Qed.

(** Some segments leave the directory. *)
Lemma files_ok_delete f ms p : files_ok f ms -> files_ok (delete p f) (filter (fun m => m_name m <> p) ms).
Proof.
  intros F. split.
  - intros m [Hne Hm]%list_elem_of_filter. rewrite lookup_delete_ne by done. by apply F.
  - intros q Hq Hf. destruct (decide (p = q)) as [->|Hne]; [rewrite lookup_delete_eq in Hq; by destruct Hq|].
    rewrite lookup_delete_ne in Hq by done. destruct (fo_only _ _ F q Hq Hf) as (m & Hm & ->).
    exists m. split; [|done]. apply list_elem_of_filter. split; [congruence|done].
  - apply StronglySorted_filter, F.
  - intros m [_ Hm]%list_elem_of_filter. by apply F.
  - apply all_recs_filter_sorted, F.
  - apply Forall_forall. intros r (m & Hr & [_ Hm]%list_elem_of_filter)%elem_of_all_recs.
    pose proof (fo_good _ _ F) as HG. rewrite Forall_forall in HG. apply HG, elem_of_all_recs. eauto.
  - intros m [_ Hm]%list_elem_of_filter. by apply F.
Qed.

(** ** The disk and its directory

    [N] is the seq of the next record to write. Every segment the disk knows bounds the
    seqs of its file; the open one is the newest and whole; a file may be named after
    [N] only while it is empty. *)

Definition below_or_empty (N : Z) (m : SegM) : Prop :=
  m_first m < N \/ (m_first m = N /\ m_recs m = [] /\ m_tail m = []).

Record disk_ok (d : Disk) (f : Files) (ms : list SegM) (N : Z) : Prop := {
  dk_files : files_ok f ms;
  dk_next : 0 < N;
  dk_written : 0 <= last_written_seq d;
  dk_below : forall r, r ∈ all_recs ms -> seq r < N;
  dk_firsts : forall m, m ∈ ms -> below_or_empty N m;
  dk_last : forall sg m r, sg ∈ segments d -> m ∈ ms -> seg_path sg = m_name m -> r ∈ m_recs m ->
    seq r <= seg_last_seq sg;
  dk_known : forall sg, sg ∈ segments d -> exists n, 0 <= n < 2 ^ 64 /\ seg_path sg = segment_path n /\
    (n < N \/ (n = N /\ fst <$> current d = Some (segment_path N)));
  dk_nodup : NoDup (map seg_path (segments d));
  dk_current : forall p size, current d = Some (p, size) -> exists ms0 m l sg,
    ms = ms0 ++ [m] /\ p = m_name m /\ m_tail m = [] /\ size = Z.of_nat (length (m_bytes m)) /\
    segments d = l ++ [sg] /\ seg_path sg = p }.

Lemma set_last_seq_snoc n l s : Disk.set_last_seq n (l ++ [s]) = l ++ [mkSegment n (seg_path s)].
Proof. induction l as [|x l IH]; [done|]. cbn. rewrite IH. by destruct l. Qed.

(** No file is open, or the open one has records: every known segment is before [N]. *)
Lemma known_before d f ms N : disk_ok d f ms N ->
  (forall p size, current d = Some (p, size) -> 0 < size) ->
  forall sg, sg ∈ segments d -> exists n, 0 <= n < 2 ^ 64 /\ seg_path sg = segment_path n /\ n < N.
Proof.
  intros D Hsize sg Hsg. destruct (dk_known _ _ _ _ D sg Hsg) as (n & Hn & Ep & [Hlt|[-> Hc]]); [eauto|exfalso].
  destruct (current d) as [[p size]|] eqn:Ec; [|done]. cbn in Hc. injection Hc as ->.
  specialize (Hsize _ _ eq_refl).
  destruct (dk_current _ _ _ _ D _ _ Ec) as (ms0 & m & l & s & -> & En & Ht & -> & _).
  unfold m_name in En. apply segment_path_inj in En; [|done|apply (fo_range _ _ (dk_files _ _ _ _ D)); in_app].
  destruct (dk_firsts _ _ _ _ D m ltac:(in_app)) as [?|(_ & Hr & _)]; [lia|].
  unfold m_bytes in Hsize. rewrite Hr, Ht in Hsize. cbn in Hsize. lia.
Qed.

(** A disk without its open file, one record on. *)
Lemma disk_ok_close d f ms N N' : disk_ok d f ms N -> N <= N' ->
  (N = N' -> forall p size, current d = Some (p, size) -> 0 < size) ->
  disk_ok (Disk.set_current d None) f ms N'.
Proof.
  intros D HN Hsize. pose proof (known_before _ _ _ _ D) as K. destruct D.
  split; cbn [segments current Disk.set_current]; try done; try lia.
  - intros r Hr. specialize (dk_below0 r Hr). lia.
  - intros m Hm. destruct (dk_firsts0 m Hm) as [?|(E & ? & ?)]; [left; lia|].
    destruct (Z.eq_dec N N') as [->|]; [by right|left; lia].
  - intros sg Hsg. destruct (Z.eq_dec N N') as [->|Hne].
    + destruct (K (Hsize eq_refl) sg Hsg) as (n & Hn & Ep & Hlt). exists n. auto.
    + destruct (dk_known0 sg Hsg) as (n & Hn & Ep & Hlt). exists n. split_and!; try done; try lia.
Qed.

Lemma disk_ok_content d f f' ms N : (forall p, content <$> f' !! p = content <$> f !! p) ->
  disk_ok d f ms N -> disk_ok d f' ms N.
Proof. intros E []. split; try done. by eapply files_ok_content. Qed.

(** The file opened for record [N]: a new one, or one left empty under that name. *)
Lemma open_file_ok d f ms N : disk_ok d f ms N -> N < 2 ^ 64 ->
  exists ms0, files_ok (open_append (segment_path N) f) (ms0 ++ [mkSegM N [] []]) /\
    all_recs (ms0 ++ [mkSegM N [] []]) = all_recs ms /\ (forall m, m ∈ ms0 -> m ∈ ms).
Proof.
  intros D HN. pose proof (dk_files _ _ _ _ D) as F. pose proof (dk_firsts _ _ _ _ D) as HF.
  pose proof (dk_next _ _ _ _ D) as H0.
  destruct (last_case ms) as [->|(ms0 & m & ->)].
  { exists []. split_and!; [apply (files_ok_new _ []); [done|lia|by intros ? ?%elem_of_nil]|done|done]. }
  pose proof (fo_sorted _ _ F) as Hs. apply StronglySorted_app in Hs as (Hlt & _).
  destruct (HF m ltac:(in_app)) as [Hm|(Hm & Hr & Ht)].
  - exists (ms0 ++ [m]). split_and!; try done.
    + apply files_ok_new; [done|lia|]. intros x [Hx|Hx]%elem_of_app.
      * specialize (Hlt x m Hx ltac:(in_app)). unfold first_lt in Hlt. lia.
      * by apply list_elem_of_singleton in Hx as ->.
    + rewrite all_recs_app, all_recs_one. apply app_nil_r.
  - assert (m = mkSegM N [] []) as -> by (destruct m; cbn in *; congruence).
    exists ms0. split_and!; [|done|intros; in_app]. unfold open_append.
    pose proof (fo_in _ _ F (mkSegM N [] []) ltac:(in_app)) as Hin. unfold m_name in Hin. cbn in Hin.
    by destruct (f !! segment_path N).
Qed.

(** The segment opened for the record to write. *)
Lemma open_segment_ok io d f ms r d' f' : disk_ok d f ms (seq r) -> seq r < 2 ^ 64 -> current d = None ->
  Disk.open_segment io d f r = (d', f', true) ->
  exists ms', disk_ok d' f' ms' (seq r) /\ all_recs ms' = all_recs ms /\ is_Some (current d').
Proof.
  intros D Hr Hc. unfold Disk.open_segment. destruct (io_open io); [|done]. intros [= <- <-].
  assert (forall sg, sg ∈ segments d -> seg_path sg <> segment_path (seq r)) as Hfresh.
  { intros sg Hsg E. destruct (known_before _ _ _ _ D ltac:(rewrite Hc; done) sg Hsg) as (n & Hn & Ep & Hlt).
    rewrite Ep in E. apply segment_path_inj in E; [lia|done|]. pose proof (dk_next _ _ _ _ D). lia. }
  destruct (open_file_ok _ _ _ _ D Hr) as (ms0 & F & Er & Hin).
  exists (ms0 ++ [mkSegM (seq r) [] []]). split; [|split; [done|by eexists]].
  pose proof (known_before _ _ _ _ D ltac:(rewrite Hc; done)) as K. destruct D.
  split; cbn [segments current]; rewrite ?Er; try done.
  - intros m [Hm|Hm]%elem_of_app; [auto|]. apply list_elem_of_singleton in Hm as ->. by right.
  - intros sg m x [Hsg|Hsg]%elem_of_app [Hm|Hm]%elem_of_app.
    + eauto.
    + apply list_elem_of_singleton in Hm as ->. by intros ? ?%elem_of_nil.
    + intros _ Hx. apply list_elem_of_singleton in Hsg as ->. cbn.
      assert (seq x < seq r); [|lia]. apply dk_below0, elem_of_all_recs. eauto.
    + apply list_elem_of_singleton in Hm as ->. by intros ? ?%elem_of_nil.
  - intros sg [Hsg|Hsg]%elem_of_app.
    + destruct (K sg Hsg) as (n & ? & ? & ?). exists n. auto.
    + apply list_elem_of_singleton in Hsg as ->. exists (seq r). split_and!; [lia|lia|done|by right].
  - rewrite map_app. apply NoDup_app. split_and!; [done| |by apply NoDup_singleton].
    intros p (sg & -> & Hsg)%list_elem_of_fmap Hp%list_elem_of_singleton. by eapply Hfresh.
  - intros p size [= <- <-]. exists ms0, (mkSegM (seq r) [] []), (segments d), (mkSegment (seq r) (segment_path (seq r))).
    split_and!; done.
Qed.

(** Rolling: no record moves, and there is a file to write in. *)
Lemma roll_ok io d f ms r d' f' ok : disk_ok d f ms (seq r) -> seq r < 2 ^ 64 ->
  Disk.roll io d f r = (d', f', ok) ->
  exists ms', disk_ok d' f' ms' (seq r) /\ all_recs ms' = all_recs ms /\ (ok = true -> is_Some (current d')).
Proof.
  intros D Hr. unfold Disk.roll. destruct (current d) as [[file size]|] eqn:Ec.
  - destruct (Z.leb_spec STREAM_SEGMENT_BYTES size) as [Hs|]; [|intros [= <- <- <-]; by eauto 10].
    assert (disk_ok (Disk.set_current d None) f ms (seq r)) as Dc.
    { eapply disk_ok_close; [done|lia|]. intros _ p s. rewrite Ec. intros [= _ <-].
      unfold STREAM_SEGMENT_BYTES in Hs. lia. }
    destruct (io_sync io).
    + intros E. destruct ok.
      * eapply (open_segment_ok io _ (sync_data file f) ms) in E as (ms' & ? & ? & ?); eauto.
        apply (disk_ok_content _ f); [|done]. intros. apply sync_data_content.
      * unfold Disk.open_segment in E. destruct (io_open io); [done|]. injection E as <- <-.
        exists ms. split_and!; try done.
        apply (disk_ok_content _ f); [|done]. intros. apply sync_data_content.
    + intros [= <- <- <-]. by exists ms.
  - intros E. destruct ok; [eapply open_segment_ok in E as (ms' & ? & ? & ?); eauto|].
    unfold Disk.open_segment in E. destruct (io_open io); [done|]. injection E as <- <-. by exists ms.
Qed.

Lemma encode_all_snoc l r : encode_all (l ++ [r]) = encode_all l ++ encode_record r.
Proof. unfold encode_all. rewrite map_app, concat_app. cbn. by rewrite app_nil_r. Qed.

(** Writing a record whole in the open file. *)
Lemma write_whole_ok d f ms r file size : disk_ok d f ms (seq r) -> rec_wf r ->
  current d = Some (file, size) ->
  exists ms', disk_ok (mkDisk (Disk.set_last_seq (seq r) (segments d))
      (Some (file, size + Z.of_nat (length (encode_record r)))) (seq r) true)
    (write_end file (encode_record r) f) ms' (seq r + 1) /\ all_recs ms' = all_recs ms ++ [r].
Proof.
  intros D Hwf Hc. destruct (dk_current _ _ _ _ D _ _ Hc) as (ms0 & m & l & sg & -> & -> & Ht & -> & El & Ep).
  set (m' := mkSegM (m_first m) (m_recs m ++ [r]) []).
  assert (all_recs (ms0 ++ [m']) = all_recs (ms0 ++ [m]) ++ [r]) as Er
    by (rewrite !all_recs_app, !all_recs_one; cbn; by rewrite app_assoc).
  pose proof (dk_files _ _ _ _ D) as F. pose proof (dk_below _ _ _ _ D) as Hb.
  assert (forall x, x ∈ all_recs (ms0 ++ [m']) -> seq x < seq r + 1) as Hb'.
  { intros x. rewrite Er. intros [Hx|Hx]%elem_of_app; [specialize (Hb x Hx); lia|].
    apply list_elem_of_singleton in Hx as ->. lia. }
  exists (ms0 ++ [m']). split; [|done]. rewrite El, set_last_seq_snoc.
  split; cbn [segments current].
  - apply files_ok_alter; try done.
    + intros s Hs. cbn [content]. rewrite Hs. unfold m_bytes, m'. rewrite Ht. cbn [m_recs m_tail].
      by rewrite encode_all_snoc, !app_nil_r.
    + rewrite Er. apply StronglySorted_app_2; [|apply F|repeat constructor].
      intros x y Hx ->%list_elem_of_singleton. by apply Hb.
    + pose proof (fo_good _ _ F) as HG. rewrite all_recs_app, all_recs_one in HG. apply Forall_app in HG as [_ HG].
      apply Forall_app. split; [done|]. apply Forall_singleton. split; [done|apply D].
    + apply torn_nil.
  - pose proof (dk_next _ _ _ _ D). lia.
  - cbn [last_written_seq]. pose proof (dk_next _ _ _ _ D). lia.
  - done.
  - intros x [Hx|Hx]%elem_of_app.
    + destruct (dk_firsts _ _ _ _ D x ltac:(in_app)) as [?|(? & _)]; left; lia.
    + apply list_elem_of_singleton in Hx as ->. left. cbn.
      destruct (dk_firsts _ _ _ _ D m ltac:(in_app)) as [?|(? & _)]; lia.
  - intros s x y [Hs|Hs]%elem_of_app Hx En Hy.
    + apply elem_of_app in Hx as [Hx|Hx].
      * apply (dk_last _ _ _ _ D s x y); [rewrite El; in_app|in_app|done|done].
      * apply list_elem_of_singleton in Hx as ->. exfalso.
        pose proof (dk_nodup _ _ _ _ D) as HN. rewrite El, map_app in HN. apply NoDup_app in HN as (_ & HN & _).
        apply (HN (seg_path s)); [by apply list_elem_of_fmap_2|]. apply list_elem_of_singleton.
        rewrite Ep, En. done.
    + apply list_elem_of_singleton in Hs as ->. cbn. assert (seq y < seq r + 1); [|lia].
      apply Hb', elem_of_all_recs. eauto.
  - intros s Hs. assert (exists s0, s0 ∈ segments d /\ seg_path s0 = seg_path s) as (s0 & Hs0 & <-).
    { rewrite El. apply elem_of_app in Hs as [Hs|Hs]; [exists s; split; [in_app|done]|].
      apply list_elem_of_singleton in Hs as ->. exists sg. split; [in_app|done]. }
    destruct (dk_known _ _ _ _ D s0 Hs0) as (n & ? & ? & ?). exists n. do 2 (split; [done|]). left. lia.
  - pose proof (dk_nodup _ _ _ _ D) as HN. rewrite El in HN. by rewrite map_app in *.
  - intros p size [= <- <-]. exists ms0, m', l, (mkSegment (seq r) (seg_path sg)). split_and!; try done.
    unfold m_bytes, m'. cbn [m_recs m_tail]. rewrite Ht, encode_all_snoc, !app_nil_r, length_app. lia.
Qed.

(** Writing part of a record: the open file ends torn, and is closed. *)
Lemma write_part_ok d f ms r file size k : disk_ok d f ms (seq r) -> rec_wf r ->
  current d = Some (file, size) -> (k < length (encode_record r))%nat ->
  exists ms', disk_ok (Disk.set_current d None) (write_end file (take k (encode_record r)) f) ms' (seq r + 1) /\
    all_recs ms' = all_recs ms.
Proof.
  intros D Hwf Hc Hk. destruct (dk_current _ _ _ _ D _ _ Hc) as (ms0 & m & l & sg & -> & -> & Ht & -> & El & Ep).
  set (m' := mkSegM (m_first m) (m_recs m) (take k (encode_record r))).
  assert (all_recs (ms0 ++ [m']) = all_recs (ms0 ++ [m])) as Er by (by rewrite !all_recs_app, !all_recs_one).
  assert (files_ok (write_end (m_name m) (take k (encode_record r)) f) (ms0 ++ [m'])) as F'.
  { pose proof (dk_files _ _ _ _ D) as F. apply files_ok_alter; try done.
    - intros s Hs. cbn [content]. rewrite Hs. unfold m_bytes, m'. rewrite Ht. cbn [m_recs m_tail].
      by rewrite app_nil_r.
    - rewrite Er. apply F.
    - pose proof (fo_good _ _ F) as HG. rewrite all_recs_app, all_recs_one in HG. by apply Forall_app in HG as [_ HG].
    - unfold m'. cbn [m_tail]. by exists r, k. }
  exists (ms0 ++ [m']). split; [|done].
  pose proof (disk_ok_close _ _ _ _ (seq r + 1) D ltac:(lia) ltac:(lia)) as [].
  assert (forall x, x ∈ ms0 ++ [m'] -> exists y, y ∈ ms0 ++ [m] /\ m_recs y = m_recs x /\ m_first y = m_first x) as Hx.
  { intros x [Hx|Hx]%elem_of_app; [exists x; split; [in_app|done]|]. apply list_elem_of_singleton in Hx as ->.
    exists m. split; [in_app|done]. }
  split; rewrite ?Er; try done.
  - intros x (y & Hy & _ & Ey)%Hx. left. destruct (dk_firsts _ _ _ _ D y Hy) as [?|(? & _)]; lia.
  - intros s x y Hs (z & Hz & Ez & Ef)%Hx. unfold m_name. rewrite <- Ez, <- Ef. by apply dk_last0.
Qed.

(** [Disk::append]: the record joins the directory when it worked, and otherwise no
    whole record changes. *)
Lemma append_ok io d f ms r d' f' ok : disk_ok d f ms (seq r) -> rec_wf r ->
  Disk.append io d f r = (d', f', ok) ->
  exists ms', disk_ok d' f' ms' (seq r + 1) /\ all_recs ms' = all_recs ms ++ (if ok then [r] else []).
Proof.
  intros D Hwf. unfold Disk.append, Disk.write.
  destruct (Disk.roll io d f r) as [[d1 f1] rolled] eqn:Er.
  destruct (roll_ok _ _ _ _ _ _ _ _ D ltac:(apply Hwf) Er) as (ms1 & D1 & <- & Hc).
  assert (disk_ok (Disk.set_current d1 None) f1 ms1 (seq r + 1)) as Dn
    by (eapply disk_ok_close; [done|lia|lia]).
  destruct rolled.
  2:{ intros [= <- <- <-]. exists ms1. by rewrite app_nil_r. }
  destruct (Hc eq_refl) as [[file size] Ec]. rewrite Ec. unfold Disk.stopped.
  pose proof (write_whole_ok _ _ _ _ _ _ D1 Hwf Ec) as (ms2 & D2 & E2).
  destruct (io_write io) as [k|]; [destruct (Nat.ltb_spec k (length (encode_record r))) as [Hk|]|].
  - intros [= <- <- <-]. destruct (write_part_ok _ _ _ _ _ _ _ D1 Hwf Ec Hk) as (ms3 & D3 & E3).
    exists ms3. by rewrite app_nil_r.
  - intros [= <- <- <-]. by exists ms2.
  - intros [= <- <- <-]. by exists ms2.
Qed.

Lemma fsync_ok io d f ms N d' f' res : disk_ok d f ms N -> Disk.fsync io d f = (d', f', res) ->
  disk_ok d' f' ms N.
Proof.
  intros D. unfold Disk.fsync. destruct (dirty d); cbn [negb]; [|by intros [= <- <- _]].
  assert (disk_ok (mkDisk (segments d) (current d) (last_written_seq d) false) f ms N) as Dc by (by destruct D).
  destruct (current d) as [[file size]|] eqn:Ec; [destruct (io_sync io)|]; intros [= <- <- _]; try done.
  apply (disk_ok_content _ f); [|done]. intros. apply sync_data_content.
Qed.

(** The segments that stay when the file [p] may have gone. *)
Definition without (rm : string -> bool) (p : string) (ms : list SegM) : list SegM :=
  if rm p then filter (fun m => m_name m <> p) ms else ms.

Lemma elem_of_without rm p ms m : m ∈ without rm p ms -> m ∈ ms.
Proof. unfold without. destruct (rm p); [|done]. by intros [_ ?]%list_elem_of_filter. Qed.

Lemma without_keeps rm p ms m : m ∈ ms -> m_name m <> p -> m ∈ without rm p ms.
Proof. intros. unfold without. destruct (rm p); [|done]. by apply list_elem_of_filter. Qed.

Lemma without_last rm p ms m : m_name m <> p -> without rm p (ms ++ [m]) = without rm p ms ++ [m].
Proof.
  intros. unfold without. destruct (rm p); [|done]. rewrite filter_app. f_equal. by rewrite filter_cons_True.
Qed.

Lemma remove_files_ok rm p f ms : files_ok f ms -> files_ok (Disk.remove_file rm p f) (without rm p ms).
Proof. intros F. unfold Disk.remove_file, without. destruct (rm p); [by apply files_ok_delete|done]. Qed.

Lemma without_recs rm p ms r : r ∈ all_recs (without rm p ms) -> r ∈ all_recs ms.
Proof. rewrite !elem_of_all_recs. intros (m & Hr & Hm%elem_of_without). eauto. Qed.

(** The oldest segment leaves: only records the segment bounds leave with it. *)
Lemma remove_first_ok rm d f ms N sg l : disk_ok d f ms N -> segments d = sg :: l -> l <> [] ->
  disk_ok (mkDisk l (current d) (last_written_seq d) (dirty d)) (Disk.remove_file rm (seg_path sg) f)
    (without rm (seg_path sg) ms) N /\
  (forall r, r ∈ all_recs ms -> seg_last_seq sg < seq r -> r ∈ all_recs (without rm (seg_path sg) ms)).
Proof.
  intros D El Hl. pose proof (dk_nodup _ _ _ _ D) as HN. rewrite El in HN. cbn in HN.
  apply NoDup_cons in HN as [Hnotin HN]. split; [split; cbn [segments current]|].
  - apply remove_files_ok, D.
  - apply D.
  - apply D.
  - intros r Hr%without_recs. by apply D.
  - intros m Hm%elem_of_without. by apply D.
  - intros s m r Hs Hm%elem_of_without. apply (dk_last _ _ _ _ D); [|done]. rewrite El. in_app.
  - intros s Hs. apply (dk_known _ _ _ _ D). rewrite El. in_app.
  - done.
  - intros p size Hc. destruct (dk_current _ _ _ _ D _ _ Hc) as (ms0 & m & l0 & s & -> & -> & Ht & -> & E & Ep).
    rewrite El in E. destruct l0 as [|x l0]; [by injection E as _ ->|]. injection E as <- ->.
    exists (without rm (seg_path sg) ms0), m, l0, s. split_and!; try done.
    apply without_last. rewrite <- Ep. intros Eq. apply Hnotin. rewrite <- Eq. apply list_elem_of_fmap_2. in_app.
  - intros r (m & Hr & Hm)%elem_of_all_recs Hlt. apply elem_of_all_recs. exists m. split; [done|].
    apply without_keeps; [done|]. intros En.
    pose proof (dk_last _ _ _ _ D sg m r ltac:(rewrite El; in_app) Hm (eq_sym En) Hr). lia.
Qed.

Lemma trim_segments_ok rm kf c w dt N l : forall f ms l' f', disk_ok (mkDisk l c w dt) f ms N ->
  Disk.trim_segments rm kf l f = (l', f') ->
  exists ms', disk_ok (mkDisk l' c w dt) f' ms' N /\ (forall r, r ∈ all_recs ms' -> r ∈ all_recs ms) /\
    (forall r, r ∈ all_recs ms -> kf <= seq r -> r ∈ all_recs ms').
Proof.
  induction l as [|first [|second rest] IH]; intros f ms l' f' D; cbn [Disk.trim_segments].
  1, 2: intros [= <- <-]; by exists ms.
  destruct (Z.leb_spec kf (seg_last_seq first)) as [|Hlt]; [intros [= <- <-]; by exists ms|].
  destruct (remove_first_ok rm _ _ _ _ first (second :: rest) D eq_refl ltac:(done)) as [D1 Hk]. intros E.
  destruct (IH _ _ _ _ D1 E) as (ms' & D' & Hin & Hkeep). exists ms'. split_and!; [done| |].
  - intros r Hr%Hin. by eapply without_recs.
  - intros r Hr Hge. apply Hkeep; [|done]. apply Hk; [done|lia].
Qed.

Lemma remove_all_ok rm l : forall f ms, files_ok f ms ->
  exists ms', files_ok (fold_left (fun f s => Disk.remove_file rm (seg_path s) f) l f) ms' /\
    (forall m, m ∈ ms' -> m ∈ ms).
Proof.
  induction l as [|s l IH]; intros f ms F; cbn [fold_left]; [by exists ms|].
  destruct (IH _ _ (remove_files_ok rm (seg_path s) _ _ F)) as (ms' & F' & Hin). exists ms'. split; [done|].
  intros m Hm%Hin. by eapply elem_of_without.
Qed.

(** [Disk::trim]: no record from [keep_from] on leaves, unless nothing was left. *)
Lemma trim_ok rm kf nl d f ms N d' f' : disk_ok d f ms N -> Disk.trim rm kf nl d f = (d', f') ->
  exists ms', disk_ok d' f' ms' N /\ (forall r, r ∈ all_recs ms' -> r ∈ all_recs ms) /\
    (nl = false -> forall r, r ∈ all_recs ms -> kf <= seq r -> r ∈ all_recs ms').
Proof.
  intros D. unfold Disk.trim. destruct nl.
  - intros [= <- <-]. destruct (remove_all_ok rm (segments d) f ms ltac:(apply D)) as (ms' & F & Hin).
    assert (forall r, r ∈ all_recs ms' -> r ∈ all_recs ms) as Hr.
    { intros r. rewrite !elem_of_all_recs. intros (m & Hr & Hm%Hin). eauto. }
    exists ms'. split_and!; try done. destruct D. split; cbn [segments current]; try done; eauto.
    + by intros ? ? ? ?%elem_of_nil.
    + by intros ? ?%elem_of_nil.
    + constructor.
  - destruct (Disk.trim_segments rm kf (segments d) f) as [l' f''] eqn:E. intros [= <- <-].
    destruct d as [sl c w dt]. destruct (trim_segments_ok _ _ _ _ _ _ _ _ _ _ _ D E) as (ms' & ? & ? & ?).
    by exists ms'.
Qed.

(** ** Recovery *)

Lemma decode_segment m : Forall good_rec (m_recs m) -> torn_tail (m_tail m) ->
  decode_records (m_bytes m) = (m_recs m, length (encode_all (m_recs m))).
Proof.
  intros HG (r & k & Hr & Hk & E). unfold m_bytes. rewrite E. apply decode_torn; try done.
  eapply Forall_impl; [exact HG|]. by intros ? [].
Qed.

Definition path_cmp (a b : Z * string) : comparison := Z.compare (fst a) (fst b).

#[local] Instance path_cmp_preorder : TotalPreorder path_cmp := key_preorder fst.

Lemma firsts_nodup ms : StronglySorted first_lt ms -> NoDup ms.
Proof.
  induction 1 as [|m ms Hs IH Hm]; constructor; [|done]. intros Hin. rewrite Forall_forall in Hm.
  specialize (Hm m Hin). unfold first_lt in Hm. lia.
Qed.

Lemma NoDup_omap_names (f : Files) :
  NoDup (omap (fun e : string * SegFile => first ← segment_first (fst e); Some (first, fst e)) (map_to_list f)).
Proof.
  pose proof (NoDup_fst_map_to_list f) as HN. induction (map_to_list f) as [|[p s] l IH]; [constructor|].
  cbn in HN. apply NoDup_cons in HN as [Hnot HN]. cbn [omap list_omap fst]. destruct (segment_first p); [|auto].
  constructor; [|auto]. intros ([q t] & Hq & E)%list_elem_of_omap. cbn [fst] in E.
  destruct (segment_first q); [|done]. injection E as _ ->. apply Hnot, list_elem_of_fmap. by exists (p, t).
Qed.

(** The segments a directory lists are its segments, in order. *)
Lemma segment_paths_ok f ms : files_ok f ms -> segment_paths f = map (fun m => (m_first m, m_name m)) ms.
Proof.
  intros F.
  assert (forall n p, (n, p) ∈ omap (fun e : string * SegFile => first ← segment_first (fst e); Some (first, fst e))
    (map_to_list f) <-> exists m, m ∈ ms /\ n = m_first m /\ p = m_name m) as Hin.
  { intros n p. rewrite list_elem_of_omap. split.
    - intros ([q file] & Hq%elem_of_map_to_list & E). cbn [fst] in E.
      destruct (segment_first q) as [k|] eqn:Ek; [|done]. injection E as <- <-.
      destruct (fo_only _ _ F q ltac:(eauto) ltac:(eauto)) as (m & Hm & ->). exists m. split_and!; try done.
      unfold m_name in Ek. rewrite segment_first_path in Ek by (by apply F). by injection Ek.
    - intros (m & Hm & -> & ->). pose proof (fo_in _ _ F m Hm) as Hc.
      destruct (f !! m_name m) as [file|] eqn:Ef; [|done]. exists (m_name m, file).
      split; [by apply elem_of_map_to_list|]. cbn [fst]. unfold m_name.
      by rewrite segment_first_path by (by apply F). }
  apply (StronglySorted_unique_strong (not_after path_cmp)).
  - intros [n p] x (m & Hm & -> & ->)%elem_of_sort_by%Hin (m' & -> & Hm')%list_elem_of_fmap.
    intros H1 H2. change (m_first m <= m_first m') in H1. change (m_first m' <= m_first m) in H2.
    assert (m = m') as ->; [|done]. eapply firsts_inj; [apply F|done|done|lia].
  - apply sort_by_sorted. apply path_cmp_preorder.
  - pose proof (fo_sorted _ _ F) as Hs. clear -Hs. induction Hs as [|m ms Hs IH Hm]; cbn; constructor; [done|].
    rewrite Forall_forall in Hm. apply Forall_forall. intros x (m' & -> & Hm')%list_elem_of_fmap. specialize (Hm _ Hm').
    unfold first_lt in Hm. change (m_first m <= m_first m'). lia.
  - unfold segment_paths. rewrite sort_by_perm. apply NoDup_Permutation.
    + apply NoDup_omap_names.
    + apply NoDup_fmap_2_strong; [|apply firsts_nodup, F].
      intros a b Ha Hb [= E _]. by eapply firsts_inj; [apply F|..].
    + intros [n p]. rewrite Hin, list_elem_of_fmap. split; [intros (m & ? & -> & ->)|intros (m & [= -> ->] & ?)]; eauto.
Qed.

(** The segment [recover] lists for a file, and what it leaves of the newest one. *)
Definition seg_of (m : SegM) : Segment :=
  mkSegment (match last (m_recs m) with Some r => seq r | None => m_first m end) (m_name m).

Definition cut_newest (ms : list SegM) (f : Files) : Files :=
  match last ms with
  | Some m => if (length (encode_all (m_recs m)) <? length (m_bytes m))%nat
              then set_len (m_name m) (length (encode_all (m_recs m))) f else f
  | None => f
  end.

Lemma recover_segments_run io ms : forall f recs segs,
  (forall m, m ∈ ms -> content <$> f !! m_name m = Some (m_bytes m)) ->
  (forall m, m ∈ ms -> Forall good_rec (m_recs m)) -> (forall m, m ∈ ms -> torn_tail (m_tail m)) ->
  let res := recover_segments io (map (fun m => (m_first m, m_name m)) ms) f recs segs in
  (forall out, snd res = Some out ->
     out = (recs ++ all_recs ms, segs ++ map seg_of ms) /\ fst res = cut_newest ms f) /\
  ((forall p, ri_read io p = true) -> ri_cut io = true -> is_Some (snd res)).
Proof.
  induction ms as [|m ms IH]; intros f recs segs Hf Hg Ht; cbn [map recover_segments].
  { split; [|by eexists]. intros out [= <-]. cbn. by rewrite !app_nil_r. }
  pose proof (Hf m ltac:(in_app)) as Hm. destruct (f !! m_name m) as [file|] eqn:Ef; [|done].
  cbn in Hm. injection Hm as Hm. rewrite Hm, decode_segment by (apply Hg || apply Ht; in_app).
  destruct (ri_read io (m_name m)) eqn:Er; cbn [negb]; [|split; [done|intros H; by rewrite H in Er]].
  destruct ms as [|m2 ms].
  - cbn [map recover_segments]. rewrite andb_true_r.
    assert (all_recs [m] = m_recs m) as -> by apply all_recs_one. unfold cut_newest. cbn [last].
    destruct (length (encode_all (m_recs m)) <? length (m_bytes m))%nat; cbn [andb].
    + destruct (ri_cut io); cbn [negb]; [|split; done]. split; [|by eexists]. by intros out [= <-].
    + split; [|by eexists]. by intros out [= <-].
  - assert (forall b, (b && match map (fun m => (m_first m, m_name m)) (m2 :: ms) with [] => true | _ => false end) = false)
      as Hb by (intros []; done).
    rewrite Hb. cbn [andb].
    destruct (IH f (recs ++ m_recs m) (segs ++ [seg_of m])) as [I1 I2].
    1-3: intros x Hx; (apply Hf || apply Hg || apply Ht); by right.
    split; [|apply I2]. intros out Ho. destruct (I1 out Ho) as [-> E]. split; [|exact E].
    by rewrite <- !app_assoc.
Qed.

(** Reading a directory returns every whole record of it, and leaves the newest
    segment whole. *)
Lemma recover_segments_ok io f ms :
  files_ok f ms ->
  let res := recover_segments io (segment_paths f) f [] [] in
  ((forall p, ri_read io p = true) -> ri_cut io = true -> is_Some (snd res)) /\
  forall out, snd res = Some out -> out = (all_recs ms, map seg_of ms) /\
    exists ms', files_ok (fst res) ms' /\ all_recs ms' = all_recs ms /\ map seg_of ms' = map seg_of ms /\
      map m_first ms' = map m_first ms /\ map m_recs ms' = map m_recs ms /\
      (forall m, last ms' = Some m -> m_tail m = []).
Proof.
  intros F. rewrite (segment_paths_ok f ms F).
  assert (forall m, m ∈ ms -> Forall good_rec (m_recs m)) as Hg.
  { intros m Hm. pose proof (fo_good _ _ F) as HG. rewrite Forall_forall in HG. apply Forall_forall.
    intros r Hr. apply HG, elem_of_all_recs. eauto. }
  destruct (recover_segments_run io ms f [] [] (fo_in _ _ F) Hg (fo_tails _ _ F)) as [R1 R2].
  split; [exact R2|]. intros out Ho. destruct (R1 out Ho) as [-> E]. split; [done|]. rewrite E.
  unfold cut_newest. destruct (last_case ms) as [->|(ms0 & m & ->)]; [by exists []|]. rewrite last_snoc.
  destruct (Nat.ltb_spec (length (encode_all (m_recs m))) (length (m_bytes m))) as [Hlt|Hge].
  - exists (ms0 ++ [mkSegM (m_first m) (m_recs m) []]). rewrite !all_recs_app, !all_recs_one, !map_app, last_snoc.
    split_and!; try done; [|by intros ? [= <-]].
    apply files_ok_alter; try done; [| |exact (Hg m ltac:(in_app))|apply torn_nil].
    + intros s Hs. cbn [content]. rewrite Hs. unfold m_bytes. cbn [m_recs m_tail].
      by rewrite take_app_length, app_nil_r.
    + rewrite all_recs_app, all_recs_one. pose proof (fo_recs _ _ F) as HR.
      by rewrite all_recs_app, all_recs_one in HR.
  - exists (ms0 ++ [m]). split_and!; try done. rewrite last_snoc. intros x [= <-].
    unfold m_bytes in Hge. rewrite length_app in Hge. destruct (m_tail m); [done|]. cbn in Hge. lia.
Qed.

(** ** A power cut

    What was synced stays; what was written after it may be lost from some byte on, in
    each file, and a file never synced may be gone. *)

Definition power_cut (f f' : Files) : Prop :=
  forall p, match f !! p, f' !! p with
            | Some a, Some b => exists n, (synced a <= n)%nat /\ content b = take n (content a)
            | Some a, None => synced a = 0%nat
            | None, None => True
            | None, Some _ => False
            end.

(** How many whole records the first [n] bytes hold. *)
Fixpoint fit_in (n : nat) (rs : list StreamRec) : nat :=
  match rs with
  | [] => 0
  | r :: rest =>
    if (length (encode_record r) <=? n)%nat then S (fit_in (n - length (encode_record r)) rest) else 0
  end.

Lemma fit_in_mono rs : forall n n', (n <= n')%nat -> (fit_in n rs <= fit_in n' rs)%nat.
Proof.
  induction rs as [|r rs IH]; intros n n' Hn; cbn [fit_in]; [done|].
  destruct (Nat.leb_spec (length (encode_record r)) n), (Nat.leb_spec (length (encode_record r)) n'); try lia.
  specialize (IH (n - length (encode_record r)) (n' - length (encode_record r)))%nat. lia.
Qed.

Lemma torn_take n t : torn_tail t -> torn_tail (take n t).
Proof.
  intros (r & k & Hr & Hk & ->). exists r, (Nat.min n k). rewrite take_take. split_and!; [done|lia|done].
Qed.

(** A segment cut anywhere: its first records, and a torn one. *)
Lemma take_segment rs tail : forall n, Forall rec_wf rs -> torn_tail tail ->
  exists t, torn_tail t /\ take n (encode_all rs ++ tail) = encode_all (take (fit_in n rs) rs) ++ t.
Proof.
  induction rs as [|r rs IH]; intros n Hwf Ht; cbn [fit_in take].
  - exists (take n tail). split; [by apply torn_take|done].
  - apply Forall_cons in Hwf as [Hr Hrs].
    assert (encode_all (r :: rs) ++ tail = encode_record r ++ encode_all rs ++ tail) as ->
      by (unfold encode_all; cbn; by rewrite <- app_assoc).
    destruct (Nat.leb_spec (length (encode_record r)) n) as [Hle|Hlt]; cbn [take].
    + destruct (IH (n - length (encode_record r))%nat Hrs Ht) as (t & Htt & E). exists t. split; [done|].
      rewrite take_app_ge, E by done. unfold encode_all. cbn. by rewrite <- app_assoc.
    + exists (take n (encode_record r)). split; [by exists r, n|]. by rewrite take_app_le by lia.
Qed.

(** A segment after the cut. *)
Definition cut_of (m m' : SegM) : Prop := m_first m' = m_first m /\ m_recs m' `prefix_of` m_recs m.

(** Segments some of which are gone and the others cut. *)
Inductive cuts : list SegM -> list SegM -> Prop :=
| cuts_nil : cuts [] []
| cuts_gone m ms ms' : cuts ms ms' -> cuts (m :: ms) ms'
| cuts_keep m m' ms ms' : cut_of m m' -> cuts ms ms' -> cuts (m :: ms) (m' :: ms').

Lemma cuts_elem ms ms' m' : cuts ms ms' -> m' ∈ ms' -> exists m, m ∈ ms /\ cut_of m m'.
Proof.
  induction 1 as [|m ms ms' H IH|m m0 ms ms' Hc H IH]; [by intros ?%elem_of_nil| |].
  - intros (x & ? & ?)%IH. exists x. split; [by right|done].
  - intros [->|(x & ? & ?)%IH]%elem_of_cons; [exists m; split; [by left|done]|]. exists x. split; [by right|done].
Qed.

Lemma cuts_recs ms ms' r : cuts ms ms' -> r ∈ all_recs ms' -> r ∈ all_recs ms.
Proof.
  rewrite !elem_of_all_recs. intros H (m' & Hr & Hm'). destruct (cuts_elem _ _ _ H Hm') as (m & Hm & _ & [k Hk]).
  exists m. split; [|done]. rewrite Hk. apply elem_of_app. by left.
Qed.

Lemma cuts_sorted ms ms' : cuts ms ms' -> StronglySorted first_lt ms -> StronglySorted seq_lt (all_recs ms) ->
  StronglySorted first_lt ms' /\ StronglySorted seq_lt (all_recs ms').
Proof.
  induction 1 as [|m ms ms' H IH|m m' ms ms' [Ef [k Hk]] H IH]; [done| |];
    intros [Hs Hm]%StronglySorted_cons Hr; change (m :: ms) with ([m] ++ ms) in Hr;
    rewrite all_recs_app, all_recs_one in Hr; apply StronglySorted_app in Hr as (Hlt & H1 & H2);
    destruct (IH Hm H2) as [I1 I2]; [done|].
  split.
  - apply StronglySorted_cons. split; [|done]. rewrite Forall_forall in Hs. apply Forall_forall. intros x Hx.
    destruct (cuts_elem _ _ _ H Hx) as (y & Hy & Ey & _). specialize (Hs y Hy). unfold first_lt in *. lia.
  - change (m' :: ms') with ([m'] ++ ms'). rewrite all_recs_app, all_recs_one. rewrite Hk in *.
    apply StronglySorted_app_2; [|by apply StronglySorted_app_1_l in H1|done].
    intros x y Hx Hy. apply Hlt; [apply elem_of_app; by left|by eapply cuts_recs].
Qed.

(** The records of a file that are synced whole. *)
Definition synced_recs (f : Files) (m : SegM) : list StreamRec :=
  match f !! m_name m with
  | Some a => take (fit_in (synced a) (m_recs m)) (m_recs m)
  | None => []
  end.

Lemma power_cut_segments f f' ms : power_cut f f' ->
  (forall m, m ∈ ms -> content <$> f !! m_name m = Some (m_bytes m)) ->
  (forall m, m ∈ ms -> Forall rec_wf (m_recs m)) -> (forall m, m ∈ ms -> torn_tail (m_tail m)) ->
  exists ms', cuts ms ms' /\
    (forall m', m' ∈ ms' -> content <$> f' !! m_name m' = Some (m_bytes m') /\ torn_tail (m_tail m')) /\
    (forall m, m ∈ ms -> is_Some (f' !! m_name m) -> exists m', m' ∈ ms' /\ m_first m' = m_first m) /\
    (forall m r, m ∈ ms -> r ∈ synced_recs f m -> r ∈ all_recs ms').
Proof.
  intros P. induction ms as [|m ms IH]; intros Hf Hw Ht.
  { exists []. split_and!; [constructor|by intros ? ?%elem_of_nil..|by intros ? ? ?%elem_of_nil]. }
  destruct IH as (ms' & Hc & Hin & Hex & Hsy); [intros x Hx; (apply Hf || apply Hw || apply Ht); by right..|].
  pose proof (Hf m ltac:(by left)) as Hm. specialize (P (m_name m)).
  destruct (f !! m_name m) as [a|] eqn:Ea; [|done]. cbn in Hm. injection Hm as Hm.
  destruct (f' !! m_name m) as [b|] eqn:Eb.
  - destruct P as (n & Hn & Ec). rewrite Hm in Ec.
    destruct (take_segment (m_recs m) (m_tail m) n) as (t & Htt & Et); [apply Hw; by left|apply Ht; by left|].
    set (m' := mkSegM (m_first m) (take (fit_in n (m_recs m)) (m_recs m)) t).
    exists (m' :: ms'). split_and!.
    + constructor; [|done]. split; [done|]. by apply prefix_take.
    + intros x [->|Hx]%elem_of_cons; [|auto]. split; [|done]. change (m_name m') with (m_name m).
      rewrite Eb. cbn [fmap option_fmap option_map]. rewrite Ec. unfold m_bytes at 1. by rewrite Et.
    + intros x [->|Hx]%elem_of_cons Hs; [exists m'; split; [by left|done]|].
      destruct (Hex x Hx Hs) as (y & ? & ?). exists y. split; [by right|done].
    + intros x r [->|Hx]%elem_of_cons Hr; change (m' :: ms') with ([m'] ++ ms'); rewrite all_recs_app, all_recs_one;
        apply elem_of_app; [left|right; eauto].
      unfold synced_recs in Hr. rewrite Ea in Hr. cbn [m' m_recs].
      destruct (take_prefix_mono (m_recs m) _ _ (fit_in_mono (m_recs m) _ _ Hn)) as [l ->].
      apply elem_of_app. by left.
  - exists ms'. split_and!; [by constructor|done| |].
    + intros x [->|Hx]%elem_of_cons Hs; [|auto]. rewrite Eb in Hs. by destruct Hs.
    + intros x r [->|Hx]%elem_of_cons Hr; [|eauto]. unfold synced_recs in Hr. rewrite Ea, P in Hr.
      destruct (m_recs m) as [|y l]; [by apply elem_of_nil in Hr|]. cbn [fit_in] in Hr.
      destruct (Nat.leb_spec (length (encode_record y)) 0) as [Hl|]; [|by apply elem_of_nil in Hr].
      rewrite length_encode_record in Hl. lia.
Qed.

(** A power cut leaves a directory of the same kind, with the synced records. *)
Lemma power_cut_ok f f' ms : files_ok f ms -> power_cut f f' ->
  exists ms', files_ok f' ms' /\ cuts ms ms' /\
    (forall m r, m ∈ ms -> r ∈ synced_recs f m -> r ∈ all_recs ms').
Proof.
  intros F P.
  destruct (power_cut_segments f f' ms P) as (ms' & Hc & Hin & Hex & Hsy); [apply F| |apply F|].
  { intros m Hm. apply Forall_forall. intros r Hr. pose proof (fo_good _ _ F) as HG. rewrite Forall_forall in HG.
    apply HG, elem_of_all_recs. eauto. }
  destruct (cuts_sorted _ _ Hc (fo_sorted _ _ F) (fo_recs _ _ F)) as [S1 S2].
  exists ms'. split; [|done]. split; try done.
  - intros m Hm. apply (Hin m Hm).
  - intros p Hp Hs. assert (is_Some (f !! p)) as Hp0.
    { specialize (P p). destruct (f !! p), (f' !! p), Hp; eauto; done. }
    destruct (fo_only _ _ F p Hp0 Hs) as (m & Hm & ->). destruct (Hex m Hm Hp) as (m' & Hm' & E).
    exists m'. split; [done|]. unfold m_name. by rewrite E.
  - intros m' Hm'. destruct (cuts_elem _ _ _ Hc Hm') as (m & Hm & -> & _). by apply F.
  - apply Forall_forall. intros r Hr%(cuts_recs _ _ _ Hc). pose proof (fo_good _ _ F) as HG.
    rewrite Forall_forall in HG. auto.
  - intros m Hm. apply (Hin m Hm).
Qed.
