(* ===== verification/StreamCrash.v ===== *)
(** * Crashes and restarts of the stream (src/src/router/stream.rs)

    The invariant of the stream with its disk ([StreamDisk]) over any run, and what a
    restart finds after a crash at any point of it. *)

From Stdlib Require Import ZArith Lia String Strings.Byte.
From stdpp Require Import base list gmap strings fin_maps sorting.
From S2P Require Import Prelude Protocol StreamRecord StreamLog StreamSystem StreamDisk.
Open Scope Z_scope.

Definition event_placed (e : DEvent) : list StreamRec := match e with Placed r => [r] | _ => [] end.
Definition event_unwritten (e : DEvent) : list StreamRec := match e with Unwritten r => [r] | _ => [] end.

Definition placed_in (es : list DEvent) : list StreamRec := es ≫= event_placed.
Definition unwritten_in (es : list DEvent) : list StreamRec := es ≫= event_unwritten.

(** No write and no save failed. *)
Definition disk_worked (es : list DEvent) : Prop := unwritten_in es = [] /\ Unsaved ∉ es.

Section Crash.
Context {J : Type} (state_of : Z -> Z -> gmap string Z -> J) (read_state : J -> Saved).
Context {V : Type} (ack_of_value : V -> option Z).

Abbreviation DSys := (@DSys J).
Abbreviation Fs := (@Fs J).
Abbreviation dstep := (dstep state_of ack_of_value).
Abbreviation drun := (drun state_of ack_of_value).
Abbreviation step := (step ack_of_value).
Abbreviation run := (run ack_of_value).

(** ** The disk does not change what the stream does *)

Lemma write_record_sys io (ds : DSys) r ds' ok : write_record io ds r = (ds', ok) -> ds_sys ds' = ds_sys ds.
Proof.
  unfold write_record. destruct (ds_disk ds) as [d0|]; [|by intros [= <- _]].
  destruct (Disk.append _ _ _ _) as [[d f] o]. by intros [= <- _].
Qed.

Lemma save_housekeeping_sys ok ds kf nl next cs ds' saved :
  save_housekeeping state_of ok ds kf nl next cs = (ds', saved) -> ds_sys ds' = ds_sys ds.
Proof.
  unfold save_housekeeping, save_state.
  intros E. repeat case_match; simplify_eq; done.
Qed.

(** Every step is one of [StreamSystem], or leaves it as it was. *)
Lemma dstep_sim ds e ds' : dstep ds e ds' ->
  (exists p, option_list p = event_placed e /\ step (ds_sys ds) p (ds_sys ds')) \/
  (event_placed e = [] /\ ds_sys ds' = ds_sys ds).
Proof.
  destruct 1 as [now i sh c r _ _ _ E|now i sh c _ E|io r ds' ok _ E|io _|now _|ok kf nl next cs ds' saved _ E
    |rm kf nl _|sink now b Ht|sink batch l sc b reply now Ht].
  - left. exists (Some r). split; [done|]. by eapply step_take.
  - left. exists None. split; [done|]. by eapply step_take.
  - right. destruct ok; (split; [done|by eapply write_record_sys]).
  - unfold fsync_disk. destruct (ds_disk ds) as [d|]; [|by right].
    destruct (Disk.fsync _ _ _) as [[d' f] [[n|]|]]; [|by right..].
    left. exists None. split; [done|]. apply step_fsync.
  - left. exists None. split; [done|]. exact (step_trim ack_of_value (ds_sys ds) now).
  - right. destruct saved; (split; [done|by eapply save_housekeeping_sys]).
  - right. split; [done|]. unfold trim_housekeeping. destruct (ds_disk ds); [|done]. by destruct (Disk.trim _ _ _ _ _).
  - left. exists None. split; [done|]. by eapply step_plan.
  - left. exists None. split; [done|]. by eapply step_reply.
Qed.

Lemma drun_sim ds es ds' : drun ds es ds' -> run (ds_sys ds) (placed_in es) (ds_sys ds').
Proof.
  induction 1 as [|ds e ds1 es ds2 S R IH]; [apply run_refl|].
  change (placed_in (e :: es)) with (event_placed e ++ placed_in es).
  destruct (dstep_sim _ _ _ S) as [(p & <- & Sp)|[-> E]].
  - by eapply run_step.
  - by rewrite E in IH.
Qed.

(** ** What a directory promises a restart *)

(** [serde_json] reads back the state it wrote. *)
Hypothesis state_roundtrip : forall epoch next cursors,
  0 <= epoch < 2 ^ 64 -> 0 <= next < 2 ^ 64 -> (forall s c, cursors !! s = Some c -> 0 <= c < 2 ^ 64) ->
  read_state (state_of epoch next cursors) = mkSaved (Some epoch) (Some next) (Some cursors).

(** The state on disk is missing, or one that was saved whole, with its cursors behind
    its next seq. *)
Definition state_ok (fs : Fs) : Prop :=
  state_json fs = None \/
  exists e n c, saved_state read_state fs = mkSaved (Some e) (Some n) (Some c) /\
    0 < e < 2 ^ 64 /\ 0 < n < 2 ^ 64 /\ forall s k, c !! s = Some k -> 0 <= k < n.

Definition saved_next (fs : Fs) : Z := unwrap_or 1 (sv_next_seq (saved_state read_state fs)).

Definition saved_cursor (fs : Fs) (s : string) : option Z :=
  sv_cursors (saved_state read_state fs) ≫= fun m => m !! s.

(** The seq a restart goes on with. *)
Definition restart_seq (fs : Fs) (ms : list SegM) : Z :=
  Z.max (Z.max (saved_next fs) (last_seq_of (all_recs ms) + 1)) 1.

Record dir_ok (fs : Fs) (ms : list SegM) : Prop := {
  do_files : files_ok (files fs) ms;
  do_state : state_ok fs;
  do_width : restart_seq fs ms <= u64_max }.

(** No segment is named after a record yet to come, unless it is empty. *)
Definition restartable (fs : Fs) (ms : list SegM) : Prop :=
  forall m, m ∈ ms -> m_first m < restart_seq fs ms \/ (m_first m = restart_seq fs ms /\ m_recs m = []).

Lemma last_seq_max l r : StronglySorted seq_lt l -> r ∈ l -> seq r <= last_seq_of l.
Proof.
  destruct (last_case l) as [->|(l' & x & ->)]; [by intros _ ?%elem_of_nil|].
  intros (Hlt & _)%StronglySorted_app. unfold last_seq_of. rewrite last_snoc.
  intros [Hr|Hr]%elem_of_app; [|by apply list_elem_of_singleton in Hr as ->].
  specialize (Hlt r x Hr ltac:(by left)). unfold seq_lt in Hlt. lia.
Qed.

Lemma last_seq_elem l : last_seq_of l = 0 \/ exists r, r ∈ l /\ last_seq_of l = seq r.
Proof.
  unfold last_seq_of. destruct (last_case l) as [->|(l' & x & ->)]; [by left|right].
  rewrite last_snoc. exists x. split; [in_app|done].
Qed.

Lemma recover_cursors_lookup saved sinks last s c :
  recover_cursors saved sinks last !! s = Some c <->
  s ∈ sinks /\ exists k, (saved ≫= fun m => m !! s) = Some k /\ c = Z.min k last.
Proof.
  unfold recover_cursors. destruct saved as [m|]; cbn [mbind option_bind].
  2:{ rewrite lookup_empty. split; [done|]. by intros (_ & k & ? & _). }
  assert (forall acc : gmap string Z,
    fold_left (fun acc s => match m !! s with Some c => <[s := Z.min c last]> acc | None => acc end) sinks acc !! s
    = if decide (s ∈ sinks /\ is_Some (m !! s)) then (fun k => Z.min k last) <$> m !! s else acc !! s) as ->.
  { induction sinks as [|x sinks IH]; intros acc; cbn [fold_left].
    { rewrite decide_False; [done|]. by intros [?%elem_of_nil _]. }
    rewrite IH. destruct (decide (s ∈ sinks /\ is_Some (m !! s))) as [[H1 H2]|Hn].
    - rewrite decide_True; [done|]. split; [by right|done].
    - destruct (decide (s = x)) as [->|Hne].
      + destruct (m !! x) as [k|] eqn:Ek.
        * rewrite lookup_insert_eq, decide_True; [done|]. split; [by left|eauto].
        * rewrite decide_False; [done|]. by intros [_ [? ?]].
      + rewrite decide_False; [by destruct (m !! x); rewrite ?lookup_insert_ne by done|].
        intros [[?|?]%elem_of_cons ?]; [done|]. tauto. }
  case_decide as Hd.
  - destruct Hd as [Hs [k Hk]]. rewrite Hk. cbn. split; [intros [= <-]; eauto|].
    by intros (_ & k' & [= <-] & ->).
  - rewrite lookup_empty. split; [done|]. intros (Hs & k & Hk & _). destruct Hd. eauto.
Qed.

Lemma state_ok_cursor fs s k : state_ok fs -> saved_cursor fs s = Some k -> 0 <= k < saved_next fs.
Proof.
  unfold saved_cursor, saved_next, saved_state. intros [H|(e & n & c & E & _ & _ & Hc)].
  - by rewrite H.
  - unfold saved_state in E. rewrite E. cbn. apply Hc.
Qed.

(** What [recover] does of a directory the stream left: it finds the records of every
    segment up to its tear, goes on with the seq after all of them, never sets a cursor
    past the disk, and leaves a disk to write on; it fails only if the file system
    does. *)
Record recovered_from (fs fs' : Fs) (ms : list SegM) (sinks : list string) (d : Disk) (rec : Recovered) : Prop := {
  rf_records : rec_records rec = all_recs ms;
  rf_next : rec_next_seq rec = restart_seq fs ms;
  rf_cursors : forall s c, rec_cursors rec !! s = Some c <->
    s ∈ sinks /\ exists k, saved_cursor fs s = Some k /\ c = Z.min k (last_seq_of (all_recs ms));
  rf_ok : recovered_ok rec;
  rf_state : state_json fs' = state_json fs;
  rf_disk : restartable fs ms -> exists ms', disk_ok d (files fs') ms' (restart_seq fs ms) /\ all_recs ms' = all_recs ms }.

(** The disk of a recovery, on the directory it left. *)
Lemma recovered_disk_ok f ms N w d : files_ok f ms -> 0 < N -> 0 <= w ->
  (forall r, r ∈ all_recs ms -> seq r < N) ->
  (forall m, m ∈ ms -> m_first m < N \/ (m_first m = N /\ m_recs m = [])) ->
  (forall m, last ms = Some m -> m_tail m = []) ->
  d = mkDisk (map seg_of ms) (match last (map seg_of ms) with
        | Some s => Some (seg_path s, match f !! seg_path s with
            | Some file => Z.of_nat (length (content file)) | None => 0 end)
        | None => None end) w false ->
  disk_ok d f ms N.
Proof.
  intros F HN Hw Hb Hf Ht ->.
  assert (forall ms0 m, ms = ms0 ++ [m] -> forall x, x ∈ ms0 -> m_first x < N) as Hprev.
  { intros ms0 m -> x Hx. pose proof (fo_sorted _ _ F) as Hs. apply StronglySorted_app in Hs as (Hlt & _).
    specialize (Hlt x m Hx ltac:(by left)). unfold first_lt in Hlt. destruct (Hf m ltac:(in_app)) as [?|[? _]]; lia. }
  split; cbn [segments current]; try done.
  - intros m Hm. destruct (Hf m Hm) as [|[E Er]]; [by left|right]. split_and!; try done.
    destruct (last_case ms) as [->|(ms0 & x & ->)]; [by apply elem_of_nil in Hm|].
    apply elem_of_app in Hm as [Hm|Hm]; [specialize (Hprev _ _ eq_refl m Hm); lia|].
    apply list_elem_of_singleton in Hm as ->. apply Ht, last_snoc.
  - intros sg m r (m' & -> & Hm')%list_elem_of_fmap Hm En Hr. cbn in En |- *.
    apply (names_inj _ _ _ _ F) in En as ->; [|done..]. pose proof (fo_recs _ _ F) as HR.
    apply list_elem_of_split in Hm as (l1 & l2 & ->).
    change (m :: l2) with ([m] ++ l2) in HR. rewrite !all_recs_app, all_recs_one in HR.
    apply StronglySorted_app_1_r, StronglySorted_app_1_l in HR.
    pose proof (last_seq_max _ _ HR Hr) as Hl. unfold last_seq_of in Hl.
    destruct (last_case (m_recs m)) as [El|(l & x & El)]; [rewrite El in Hr; by apply elem_of_nil in Hr|].
    rewrite El, last_snoc in *. done.
  - intros sg (m & -> & Hm)%list_elem_of_fmap. exists (m_first m). split; [by apply F|]. split; [done|].
    destruct (Hf m Hm) as [|[E Er]]; [by left|right]. split; [done|].
    destruct (last_case ms) as [->|(ms0 & x & ->)]; [by apply elem_of_nil in Hm|].
    apply elem_of_app in Hm as [Hm|Hm]; [specialize (Hprev _ _ eq_refl m Hm); lia|].
    apply list_elem_of_singleton in Hm as ->. rewrite map_app. cbn [map]. rewrite last_snoc. cbn. unfold m_name. by rewrite E.
  - rewrite map_map. apply (NoDup_fmap_2_strong (fun m => seg_path (seg_of m))); [|apply firsts_nodup, F].
    intros a b Ha Hb' E. by apply (names_inj _ _ _ _ F).
  - intros p size. destruct (last_case ms) as [->|(ms0 & m & ->)]; [done|]. rewrite map_app. cbn [map].
    rewrite last_snoc. cbn [seg_of seg_path]. pose proof (fo_in _ _ F m ltac:(in_app)) as Hc.
    destruct (f !! m_name m) as [file|]; [|done]. cbn in Hc. injection Hc as Hc. rewrite Hc. intros [= <- <-].
    exists ms0, m, (map seg_of ms0), (seg_of m). split_and!; try done. apply Ht, last_snoc.
Qed.

(** Two lists of segments with the same firsts and records. *)
Lemma same_segment a b m : map m_first a = map m_first b -> map m_recs a = map m_recs b -> m ∈ a ->
  exists m0, m0 ∈ b /\ m_first m0 = m_first m /\ m_recs m0 = m_recs m.
Proof.
  revert b. induction a as [|x a IH]; intros [|y b]; try done; [by intros _ _ ?%elem_of_nil|].
  cbn. intros [= E1 E1'] [= E2 E2'] [->|Hm]%elem_of_cons; [exists y; split; [by left|done]|].
  destruct (IH b E1' E2' Hm) as (m0 & ? & ? & ?). exists m0. split; [by right|done].
Qed.

Lemma restart_seq_above fs ms r : files_ok (files fs) ms -> r ∈ all_recs ms -> 0 < seq r < restart_seq fs ms.
Proof.
  intros F Hr. pose proof (last_seq_max _ _ (fo_recs _ _ F) Hr). pose proof (fo_good _ _ F) as HG.
  rewrite Forall_forall in HG. destruct (HG r Hr). unfold restart_seq. lia.
Qed.

Lemma last_seq_nonneg f ms : files_ok f ms -> 0 <= last_seq_of (all_recs ms).
Proof.
  intros F. destruct (last_seq_elem (all_recs ms)) as [->|(r & Hr & ->)]; [done|].
  pose proof (fo_good _ _ F) as HG. rewrite Forall_forall in HG. destruct (HG r Hr). lia.
Qed.

Lemma rec_ok_of fs ms sinks rec : dir_ok fs ms -> rec_records rec = all_recs ms ->
  rec_next_seq rec = restart_seq fs ms ->
  rec_cursors rec = recover_cursors (sv_cursors (saved_state read_state fs)) sinks (last_seq_of (all_recs ms)) ->
  recovered_ok rec.
Proof.
  intros D Hr Hn Hc. pose proof (do_files _ _ D) as F. split; rewrite ?Hr, ?Hn.
  - apply F.
  - apply Forall_forall. intros r. by apply restart_seq_above.
  - unfold restart_seq. lia.
  - intros s c. rewrite Hc, recover_cursors_lookup. intros (_ & k & Hk & ->).
    pose proof (state_ok_cursor fs s k (do_state _ _ D) Hk). pose proof (last_seq_nonneg _ _ F).
    unfold restart_seq. lia.
Qed.

Lemma recover_correct io fs ms sinks fresh : dir_ok fs ms ->
  let res := recover read_state io fs sinks fresh in
  (forall d rec epoch, snd res = Some (d, rec, epoch) -> recovered_from fs (fst res) ms sinks d rec) /\
  (ri_dir io = true -> (forall p, ri_read io p = true) -> ri_cut io = true -> ri_reopen io = true ->
   is_Some (snd res)).
Proof.
  intros D. pose proof (do_files _ _ D) as F. unfold recover.
  destruct (ri_dir io); cbn [negb]; [|split; done].
  destruct (recover_segments_ok io (files fs) ms F) as [Htot Hres].
  destruct (recover_segments io (segment_paths (files fs)) (files fs) [] []) as [f [out|]]; cbn [fst snd] in *.
  2:{ split; [done|]. intros _ H1 H2 _. by destruct (Htot H1 H2). }
  destruct (Hres out eq_refl) as (-> & ms' & F' & Er & Es & Ef & Em & Ht). cbv zeta.
  set (rec := mkRecovered _ _ _).
  assert (rec_next_seq rec = restart_seq fs ms) as Hn.
  { cbn. unfold restart_seq. rewrite wrap64_id; [done|]. pose proof (do_width _ _ D) as Hw.
    pose proof (last_seq_nonneg _ _ F). unfold restart_seq, u64_max in Hw. lia. }
  assert (recovered_ok rec) as Hok by (eapply rec_ok_of; (done || apply D)).
  assert (forall d, d = mkDisk (map seg_of ms) (match last (map seg_of ms) with
        | Some s => Some (seg_path s, match f !! seg_path s with
            | Some file => Z.of_nat (length (content file)) | None => 0 end)
        | None => None end) (last_seq_of (all_recs ms)) false ->
    recovered_from fs (mkFs f (state_json fs)) ms sinks d rec) as Hfrom.
  { intros d Hd. split; try done.
    - intros s c. cbn [rec_cursors rec]. by rewrite recover_cursors_lookup.
    - intros Hre. exists ms'. split; [|done]. apply (recovered_disk_ok _ _ _ (last_seq_of (all_recs ms))); cbn [files]; try done.
      + unfold restart_seq. lia.
      + by eapply last_seq_nonneg.
      + intros r. rewrite Er. intros Hr. by apply restart_seq_above.
      + intros m Hm. assert (exists m0, m0 ∈ ms /\ m_first m0 = m_first m /\ m_recs m0 = m_recs m) as (m0 & Hm0 & <- & <-).
        { apply (same_segment ms' ms); done. }
        by apply Hre.
      + by rewrite Es. }
  destruct (last (map seg_of ms)) as [sg|]; [destruct (ri_reopen io); cbn [negb]|]; cbn [fst snd].
  - split; [|by eexists]. intros d r e [= <- <- _]. by apply Hfrom.
  - split; [done|]. by intros _ _ _.
  - split; [|by eexists]. intros d r e [= <- <- _]. by apply Hfrom.
Qed.

(** ** The invariant of the stream with its disk *)

(** The seq of the next record to write. *)
Definition write_seq (ds : DSys) : Z :=
  match ds_pc ds with Writing r => seq r | _ => next_seq (log (ds_sys ds)) end.

(** A sink is owed nothing at or under [c]. *)
Definition safe_cursor (sys : Sys) (s : string) (c : Z) : Prop :=
  is_Some (tasks sys !! s) -> forall r, r ∈ pending (log sys) s -> c < seq r.

Definition cursors_safe (sys : Sys) (cs : gmap string Z) : Prop :=
  forall s c, cs !! s = Some c -> 0 <= c < next_seq (log sys) /\ safe_cursor sys s c.

(** What the disk thread holds between two steps still stands. [clean]: no write and
    no save has failed. *)
Definition pc_ok (clean : Prop) (ds : DSys) : Prop :=
  let sh := log (ds_sys ds) in
  match ds_pc ds with
  | Looping => True
  | Writing r => seq r + 1 = next_seq sh /\ rec_wf r
  | Saving kf nl next cs =>
    next = next_seq sh /\ (forall r, r ∈ records sh -> kf <= seq r) /\ (nl = true -> records sh = []) /\
    cursors_safe (ds_sys ds) cs
  | Trimming kf nl =>
    (forall r, r ∈ records sh -> kf <= seq r) /\ (nl = true -> records sh = []) /\
    (clean -> saved_next (ds_fs ds) = next_seq sh)
  end.

(** [known]: what was recovered or placed; [failed]: what could not be written. *)
Record ds_ok (known failed : list StreamRec) (clean : Prop) (ds : DSys) (d : Disk) (ms : list SegM) : Prop := {
  ok_sys : sys_ok (ds_sys ds);
  ok_some : ds_disk ds = Some d;
  ok_disk : disk_ok d (files (ds_fs ds)) ms (write_seq ds);
  ok_pc : pc_ok clean ds;
  ok_width : next_seq (log (ds_sys ds)) <= u64_max;
  ok_fsynced : 0 <= fsynced_seq (log (ds_sys ds));
  ok_epoch : 0 < ds_epoch ds < 2 ^ 64;
  ok_covered : forall r, r ∈ records (log (ds_sys ds)) ->
    r ∈ all_recs ms \/ r ∈ failed \/ ds_pc ds = Writing r;
  ok_known : forall r, r ∈ all_recs ms \/ ds_pc ds = Writing r -> r ∈ known;
  ok_state : state_ok (ds_fs ds);
  ok_saved_next : saved_next (ds_fs ds) <= next_seq (log (ds_sys ds));
  ok_writing : forall r, ds_pc ds = Writing r -> saved_next (ds_fs ds) <= seq r;
  ok_cursors : forall s k, saved_cursor (ds_fs ds) s = Some k -> safe_cursor (ds_sys ds) s k;
  ok_last_saved : forall n c, ds_last_saved ds = Some (n, c) ->
    exists e, saved_state read_state (ds_fs ds) = mkSaved (Some e) (Some n) (Some c);
  ok_exact : clean -> restart_seq (ds_fs ds) ms = write_seq ds }.

Lemma safe_cursor_step sys sys' s c : sys_ok sys -> step sys None sys' -> safe_cursor sys s c -> safe_cursor sys' s c.
Proof.
  intros Ok S H Hs r Hr. pose proof (step_frame_ok _ _ _ _ Ok S) as F.
  assert (is_Some (tasks sys !! s)) as Hs0 by (by apply F).
  destruct (step_pending _ _ _ _ _ _ Ok S Hs0 Hr) as [Hr0|]; [|done]. by apply H.
Qed.

Lemma records_step sys sys' r : sys_ok sys -> step sys None sys' -> r ∈ records (log sys') -> r ∈ records (log sys).
Proof.
  intros Ok S Hr. destruct (sf_records _ _ _ (step_frame_ok _ _ _ _ Ok S)) as [gone E].
  cbn in E. rewrite app_nil_r in E. rewrite E. apply elem_of_app. by right.
Qed.

(** A step of the stream that places nothing keeps what the disk thread holds. *)
Lemma quiet_step_ok K F C ds d ms sys' : ds_ok K F C ds d ms -> step (ds_sys ds) None sys' ->
  0 <= fsynced_seq (log sys') ->
  ds_ok K F C (set_pc ds sys' (ds_pc ds)) d ms.
Proof.
  intros D S Hfs. pose proof (ok_sys _ _ _ _ _ _ D) as Ok. pose proof (step_frame_ok _ _ _ _ Ok S) as Fr.
  pose proof (sf_next _ _ _ Fr) as Hn. cbn in Hn. rewrite Z.add_0_r in Hn.
  pose proof (fun r => records_step _ _ r Ok S) as Hrec.
  pose proof (fun s c => safe_cursor_step _ _ s c Ok S) as Hsafe.
  assert (write_seq (set_pc ds sys' (ds_pc ds)) = write_seq ds) as Ew
    by (unfold write_seq; cbn; by rewrite Hn).
  destruct D. split; rewrite ?Ew; cbn [set_pc ds_sys ds_disk ds_fs ds_pc ds_last_saved ds_epoch]; rewrite ?Hn;
    eauto using step_ok.
  - unfold pc_ok in *. cbn [set_pc ds_sys ds_pc ds_fs]. destruct (ds_pc ds) as [|r|kf nl next cs|kf nl]; rewrite ?Hn; try done.
    + destruct ok_pc0 as (H1 & H2 & H3 & H4). split_and!; eauto.
      * intros Hnl. apply H3 in Hnl. destruct (records (log sys')) as [|r l]; [done|].
        specialize (Hrec r ltac:(by left)). rewrite Hnl in Hrec. by apply elem_of_nil in Hrec.
      * intros s c Hs. rewrite Hn. destruct (H4 s c Hs). eauto.
    + destruct ok_pc0 as (H1 & H2 & H3). split_and!; eauto.
      intros Hnl. apply H2 in Hnl. destruct (records (log sys')) as [|r l]; [done|].
      specialize (Hrec r ltac:(by left)). rewrite Hnl in Hrec. by apply elem_of_nil in Hrec.
Qed.

(** An append: the record is the one to write, and nothing on disk changed. *)
Lemma take_step_ok K F C ds d ms now i sh c r : ds_ok K F C ds d ms -> ds_pc ds = Looping ->
  rec_wf (record_of (log (ds_sys ds)) i) -> next_seq (log (ds_sys ds)) < u64_max ->
  take_incoming now i (log (ds_sys ds)) (ctr (ds_sys ds)) = (sh, c, Some r) ->
  ds_ok (K ++ [r]) F C (set_pc ds (mkSys sh c (tasks (ds_sys ds))) (Writing r)) d ms.
Proof.
  intros D Hpc Hwf Hw E. pose proof (ok_sys _ _ _ _ _ _ D) as Ok.
  assert (step (ds_sys ds) (Some r) (mkSys sh c (tasks (ds_sys ds)))) as S by (by eapply step_take).
  pose proof (step_frame_ok _ _ _ _ Ok S) as Fr. pose proof (sf_next _ _ _ Fr) as Hn. cbn in Hn.
  assert (seq r = next_seq (log (ds_sys ds))) as Hr by (pose proof (sf_seq _ _ _ Fr) as Hq; by injection Hq).
  assert (r = record_of (log (ds_sys ds)) i /\ fsynced_seq sh = fsynced_seq (log (ds_sys ds))) as [Hrec Hfs].
  { destruct (take_incoming_effect _ _ _ _ _ _ _ E) as (sh1 & gone & T & ? & -> & _). split; [done|apply T]. }
  assert (write_seq (set_pc ds (mkSys sh c (tasks (ds_sys ds))) (Writing r)) = write_seq ds) as Ew
    by (unfold write_seq; cbn; by rewrite Hpc, Hr).
  assert (forall s k, saved_cursor (ds_fs ds) s = Some k -> safe_cursor (mkSys sh c (tasks (ds_sys ds))) s k) as Hsafe.
  { intros s k Hk Hs x Hx. destruct (step_pending _ _ _ _ _ _ Ok S Hs Hx) as [Hx0|[= <-]].
    - by apply (ok_cursors _ _ _ _ _ _ D s k Hk).
    - pose proof (state_ok_cursor _ _ _ (ok_state _ _ _ _ _ _ D) Hk). pose proof (ok_saved_next _ _ _ _ _ _ D). lia. }
  destruct D. split; rewrite ?Ew; cbn [set_pc ds_sys ds_disk ds_fs ds_pc ds_last_saved ds_epoch log]; eauto using step_ok; try lia.
  - unfold pc_ok. cbn. rewrite Hrec at 2. split; [lia|done].
  - intros x Hx. destruct (sf_records _ _ _ Fr) as [gone Eg]. cbn in Eg.
    assert (x ∈ records (log (ds_sys ds)) ++ [r]) as Hin by (rewrite Eg; apply elem_of_app; by right).
    apply elem_of_app in Hin as [Hin|Hin].
    + destruct (ok_covered0 x Hin) as [?|[?|Hp]]; [auto|auto|congruence].
    + apply list_elem_of_singleton in Hin as ->. auto.
  - intros x [Hx|[= <-]]; apply elem_of_app; [left; auto|right; by left].
  - intros x [= <-]. lia.
Qed.

Lemma last_seq_snoc l r : last_seq_of (l ++ [r]) = seq r.
Proof. unfold last_seq_of. by rewrite last_snoc. Qed.

(** The record goes to disk, or its write fails. *)
Lemma write_step_ok K F C ds d ms io r ds' ok : ds_ok K F C ds d ms -> ds_pc ds = Writing r ->
  write_record io ds r = (ds', ok) ->
  exists d' ms', ds_ok K (F ++ if ok then [] else [r]) (C /\ ok = true) ds' d' ms'.
Proof.
  intros D Hpc. unfold write_record. rewrite (ok_some _ _ _ _ _ _ D).
  destruct (Disk.append io d (files (ds_fs ds)) r) as [[d' f'] o] eqn:Ea. intros [= <- ->].
  pose proof (ok_pc _ _ _ _ _ _ D) as Hr. unfold pc_ok in Hr. rewrite Hpc in Hr. destruct Hr as [Hn Hwf].
  pose proof (ok_disk _ _ _ _ _ _ D) as Dk. unfold write_seq in Dk. rewrite Hpc in Dk.
  destruct (append_ok _ _ _ _ _ _ _ _ Dk Hwf Ea) as (ms' & Dk' & Er). exists d', ms'.
  pose proof (ok_writing _ _ _ _ _ _ D r Hpc) as Hsn. destruct D.
  split; cbn [ds_sys ds_disk ds_fs ds_pc ds_last_saved ds_epoch files]; try done.
  - unfold write_seq. cbn. by rewrite <- Hn.
  - intros x Hx. rewrite Er, !elem_of_app. destruct (ok_covered0 x Hx) as [?|[?|Hp]]; [tauto|tauto|].
    rewrite Hpc in Hp. injection Hp as <-. destruct ok; [left; right; by left|right; left; right; by left].
  - intros x [Hx|?]; [|done]. rewrite Er in Hx. apply elem_of_app in Hx as [Hx|Hx]; [auto|].
    destruct ok; [|by apply elem_of_nil in Hx]. apply list_elem_of_singleton in Hx as ->. auto.
  - intros [_ ->]. unfold restart_seq, write_seq in *. cbn [ds_pc ds_sys ds_fs]. rewrite Er, last_seq_snoc.
    unfold saved_next, saved_state in *. cbn [state_json] in *. pose proof (dk_next _ _ _ _ Dk). lia.
Qed.

Lemma fsync_step_ok K F C ds d ms io : ds_ok K F C ds d ms -> ds_pc ds = Looping ->
  exists d', ds_ok K F C (fsync_disk io ds) d' ms.
Proof.
  intros D Hpc. unfold fsync_disk. rewrite (ok_some _ _ _ _ _ _ D).
  destruct (Disk.fsync io d (files (ds_fs ds))) as [[d' f'] res] eqn:Ef.
  pose proof (fsync_ok _ _ _ _ _ _ _ _ (ok_disk _ _ _ _ _ _ D) Ef) as Dk. exists d'.
  set (sys := match res with Some (Some n) => _ | _ => _ end).
  assert (ds_ok K F C (set_pc ds sys (ds_pc ds)) d ms) as D'.
  { destruct res as [[n|]|]; [|by destruct ds..].
    apply quiet_step_ok; [done|apply step_fsync|]. cbn.
    unfold Disk.fsync in Ef. pose proof (dk_written _ _ _ _ (ok_disk _ _ _ _ _ _ D)).
    repeat case_match; simplify_eq; done. }
  assert (write_seq ds = write_seq (set_pc ds sys (ds_pc ds))) as Ew.
  { unfold write_seq. cbn. unfold sys. by destruct (ds_pc ds), res as [[?|]|]. }
  rewrite Ew in Dk. destruct D'. split; try done.
Qed.

Lemma house_step_ok K F C ds d ms now : ds_ok K F C ds d ms -> ds_pc ds = Looping ->
  ds_ok K F C (housekeeping now ds) d ms.
Proof.
  intros D Hpc. pose proof (ok_sys _ _ _ _ _ _ D) as [Ok _].
  destruct (trim_loop_effect (length (records (log (ds_sys ds)))) now (log (ds_sys ds))) as [gone T].
  assert (step (ds_sys ds) None (mkSys (fst (StreamLog.trim now (log (ds_sys ds)))) (ctr (ds_sys ds)) (tasks (ds_sys ds)))) as S
    by apply step_trim.
  unfold housekeeping. unfold StreamLog.trim in *. cbn [fst] in S. set (sh := trim_loop _ _ _) in *.
  pose proof (quiet_step_ok _ _ _ _ _ _ _ D S ltac:(cbn; rewrite (te_fsynced _ _ _ _ T); apply D)) as D'.
  pose proof (trim_effect_ok _ _ _ _ T Ok) as Ok'. pose proof (ok_fsynced _ _ _ _ _ _ D') as Hfs. cbn in Hfs.
  rewrite Hpc in D'. destruct D'. split; try done.
  2:{ intros r Hr. destruct (ok_covered0 r Hr) as [?|[?|?]]; [tauto|tauto|done]. }
  2:{ intros r [?|?]; [auto|done]. }
  unfold pc_ok. cbn [ds_sys ds_pc log]. split_and!; try done.
  - intros r Hr. destruct (records sh) as [|x l] eqn:El; [by apply elem_of_nil in Hr|].
    pose proof (log_sorted _ Ok') as Hs. rewrite El in Hs. apply StronglySorted_cons in Hs as [Hs _].
    apply elem_of_cons in Hr as [->|Hr]; [lia|]. rewrite Forall_forall in Hs. specialize (Hs _ Hr). unfold seq_lt in Hs. lia.
  - by destruct (records sh).
  - intros s c Hc. rewrite lookup_fmap in Hc. destruct (sinks sh !! s) as [st|] eqn:Est; [|done].
    cbn in Hc. injection Hc as <-. pose proof (log_cursors _ Ok' s st Est). split; [cbn [log]; lia|].
    intros _ r Hr. cbn [log] in Hr. unfold pending, above in Hr. apply list_elem_of_filter in Hr as [[_ Hlt] _].
    rewrite (sink_state_Some _ _ _ Est) in Hlt. lia.
Qed.

(** A directory whose state is at the stream's next seq restarts there. *)
Lemma restart_at_next d f ms N fs : disk_ok d f ms N -> saved_next fs = N -> restart_seq fs ms = N.
Proof.
  intros Dk E. unfold restart_seq. rewrite E. pose proof (dk_next _ _ _ _ Dk).
  destruct (last_seq_elem (all_recs ms)) as [->|(r & Hr & ->)]; [lia|].
  pose proof (dk_below _ _ _ _ Dk r Hr). lia.
Qed.

Lemma save_step_ok K F C ds d ms ok kf nl next cs ds' saved : ds_ok K F C ds d ms ->
  ds_pc ds = Saving kf nl next cs -> save_housekeeping state_of ok ds kf nl next cs = (ds', saved) ->
  ds_ok K F (C /\ saved = true) ds' d ms.
Proof.
  intros D Hpc. unfold save_housekeeping. rewrite (ok_some _ _ _ _ _ _ D).
  pose proof (ok_pc _ _ _ _ _ _ D) as Hp. unfold pc_ok in Hp. rewrite Hpc in Hp.
  destruct Hp as (-> & Hkf & Hnl & Hcs). pose proof (ok_sys _ _ _ _ _ _ D) as [Ok _].
  pose proof (log_next _ Ok) as H0. pose proof (ok_width _ _ _ _ _ _ D) as Hw. unfold u64_max in Hw.
  assert (read_state (state_of (ds_epoch ds) (next_seq (log (ds_sys ds))) cs)
    = mkSaved (Some (ds_epoch ds)) (Some (next_seq (log (ds_sys ds)))) (Some cs)) as Hrt.
  { pose proof (ok_epoch _ _ _ _ _ _ D). apply state_roundtrip; [lia|lia|].
    intros s c Hc. destruct (Hcs s c Hc). lia. }
  assert (forall r, r ∈ records (log (ds_sys ds)) -> r ∈ all_recs ms \/ r ∈ F) as Hcov.
  { intros r Hr. destruct (ok_covered _ _ _ _ _ _ D r Hr) as [?|[?|E]]; [tauto|tauto|congruence]. }
  pose proof (ok_disk _ _ _ _ _ _ D) as Dk. unfold write_seq in Dk. rewrite Hpc in Dk.
  case_bool_decide as Els; [|unfold save_state; destruct ok].
  - intros [= <- <-]. destruct (ok_last_saved _ _ _ _ _ _ D _ _ Els) as [e Hsv].
    assert (saved_next (ds_fs ds) = next_seq (log (ds_sys ds))) as Hsn by (unfold saved_next; by rewrite Hsv).
    destruct D. split; cbn [ds_sys ds_disk ds_fs ds_pc ds_last_saved ds_epoch]; try done.
    + intros r Hr. destruct (Hcov r Hr); auto.
    + intros r [?|?]; [auto|done].
    + intros _. unfold write_seq. cbn. by eapply restart_at_next.
  - intros [= <- <-]. set (fs := mkFs _ _).
    assert (saved_state read_state fs = mkSaved (Some (ds_epoch ds)) (Some (next_seq (log (ds_sys ds)))) (Some cs)) as Hsv
      by exact Hrt.
    assert (saved_next fs = next_seq (log (ds_sys ds))) as Hsn by (unfold saved_next; by rewrite Hsv).
    destruct D. split; cbn [ds_sys ds_disk ds_fs ds_pc ds_last_saved ds_epoch]; try done.
    + intros r Hr. destruct (Hcov r Hr); auto.
    + intros r [?|?]; [auto|done].
    + right. exists (ds_epoch ds), (next_seq (log (ds_sys ds))), cs. split_and!; try done; try lia.
      all: intros s k Hk; destruct (Hcs s k Hk); lia.
    + rewrite Hsn. lia.
    + intros s k. unfold saved_cursor. rewrite Hsv. cbn. intros Hk. by destruct (Hcs s k Hk).
    + intros n c [= <- <-]. eauto.
    + intros _. unfold write_seq. cbn. by eapply restart_at_next.
  - intros [= <- <-]. destruct D.
    split; cbn [ds_sys ds_disk ds_fs ds_pc ds_last_saved ds_epoch]; try done.
    + unfold pc_ok. cbn. split_and!; try done. by intros [_ ?].
    + intros r Hr. destruct (Hcov r Hr); auto.
    + intros r [?|?]; [auto|done].
    + by intros [_ ?].
Qed.

Lemma trim_step_ok K F C ds d ms rm kf nl : ds_ok K F C ds d ms -> ds_pc ds = Trimming kf nl ->
  exists d' ms', ds_ok K F C (trim_housekeeping rm ds kf nl) d' ms'.
Proof.
  intros D Hpc. unfold trim_housekeeping. rewrite (ok_some _ _ _ _ _ _ D).
  destruct (Disk.trim rm kf nl d (files (ds_fs ds))) as [d' f'] eqn:Et.
  pose proof (ok_disk _ _ _ _ _ _ D) as Dk. unfold write_seq in Dk. rewrite Hpc in Dk.
  destruct (trim_ok _ _ _ _ _ _ _ _ _ Dk Et) as (ms' & Dk' & Hin & Hkeep). exists d', ms'.
  pose proof (ok_pc _ _ _ _ _ _ D) as Hp. unfold pc_ok in Hp. rewrite Hpc in Hp. destruct Hp as (Hkf & Hnl & Hsn).
  destruct D. split; cbn [ds_sys ds_disk ds_fs ds_pc ds_last_saved ds_epoch files]; try done.
  - intros r Hr. destruct (ok_covered0 r Hr) as [Hm|[?|E]]; [|tauto|congruence].
    destruct nl; [rewrite Hnl in Hr by done; by apply elem_of_nil in Hr|]. left. apply Hkeep; auto.
  - intros r [?|?]; [auto|done].
  - intros Hc. unfold write_seq. cbn. eapply restart_at_next; [exact Dk'|]. by apply Hsn.
Qed.

Lemma ds_ok_weaken K F C K' F' C' ds d ms : (forall r, r ∈ K -> r ∈ K') -> (forall r, r ∈ F -> r ∈ F') ->
  (C' -> C) -> ds_ok K F C ds d ms -> ds_ok K' F' C' ds d ms.
Proof.
  intros HK HF HC []. split; eauto.
  - unfold pc_ok in *. destruct (ds_pc ds); tauto.
  - intros r Hr. destruct (ok_covered0 r Hr) as [?|[?|?]]; auto.
Qed.

Ltac weaken D := refine (ds_ok_weaken _ _ _ _ _ _ _ _ _ _ _ _ D); [auto|auto|tauto].

Definition event_clean (e : DEvent) : Prop := event_unwritten e = [] /\ e <> Unsaved.

Lemma dstep_ok K F C ds d ms e ds' : ds_ok K F C ds d ms -> dstep ds e ds' ->
  exists d' ms', ds_ok (K ++ event_placed e) (F ++ event_unwritten e) (C /\ event_clean e) ds' d' ms'.
Proof.
  intros D S.
  assert (forall r (l k : list StreamRec), r ∈ l -> r ∈ l ++ k) as Happ by (intros; apply elem_of_app; auto).
  destruct S as [now i sh c r Hpc Hwf Hw E|now i sh c Hpc E|io r ds' ok Hpc E|io Hpc|now Hpc
    |ok kf nl next cs ds' saved Hpc E|rm kf nl Hpc|sink now b Ht|sink batch l sc b reply now Ht].
  - pose proof (take_step_ok _ _ _ _ _ _ _ _ _ _ _ D Hpc Hwf Hw E) as D'. exists d, ms. weaken D'.
  - assert (ds_ok K F C (set_pc ds (mkSys sh c (tasks (ds_sys ds))) (ds_pc ds)) d ms) as D'.
    { apply quiet_step_ok; [done|by eapply step_take|].
      destruct (take_incoming_effect _ _ _ _ _ _ _ E) as (sh1 & gone & T & ->). cbn.
      rewrite (te_fsynced _ _ _ _ T). apply D. }
    rewrite Hpc in D'. exists d, ms. weaken D'.
  - destruct (write_step_ok _ _ _ _ _ _ _ _ _ _ D Hpc E) as (d' & ms' & D'). exists d', ms'.
    destruct ok; [weaken D'|]. refine (ds_ok_weaken _ _ _ _ _ _ _ _ _ _ _ _ D'); [auto|done|].
    by intros [_ [? _]].
  - destruct (fsync_step_ok _ _ _ _ _ _ io D Hpc) as (d' & D'). exists d', ms. weaken D'.
  - pose proof (house_step_ok _ _ _ _ _ _ now D Hpc) as D'. exists d, ms. weaken D'.
  - pose proof (save_step_ok _ _ _ _ _ _ _ _ _ _ _ _ _ D Hpc E) as D'. exists d, ms.
    destruct saved; [weaken D'|]. refine (ds_ok_weaken _ _ _ _ _ _ _ _ _ _ _ _ D'); [auto|auto|].
    by intros [_ [_ ?]].
  - destruct (trim_step_ok _ _ _ _ _ _ rm _ _ D Hpc) as (d' & ms' & D'). exists d', ms'. weaken D'.
  - assert (ds_ok K F C (set_pc ds (sink_plan (ds_sys ds) sink now b) (ds_pc ds)) d ms) as D'.
    { apply quiet_step_ok; [done|by apply step_plan|]. unfold sink_plan.
      pose proof (ok_sys _ _ _ _ _ _ D) as [Ok _]. pose proof (plan_batch_effect _ sink now Ok) as P.
      destruct (plan_batch _ _ _) as [sh plan]. apply pe_fsynced in P. cbn in *. rewrite P. apply D. }
    exists d, ms. weaken D'.
  - match goal with |- context [set_pc ds ?sys _] =>
      assert (ds_ok K F C (set_pc ds sys (ds_pc ds)) d ms) as D' end.
    { apply quiet_step_ok; [done|by apply step_reply|]. unfold sink_done, sink_reply.
      destruct (match reply with Some _ => _ | None => None end); apply D. }
    exists d, ms. weaken D'.
Qed.

Lemma drun_ok K F C ds d ms es ds' : ds_ok K F C ds d ms -> drun ds es ds' ->
  exists d' ms', ds_ok (K ++ placed_in es) (F ++ unwritten_in es) (C /\ disk_worked es) ds' d' ms'.
Proof.
  intros D R. revert K F C d ms D. induction R as [ds|ds e ds1 es ds2 S R IH]; intros K F C d ms D.
  - exists d, ms. refine (ds_ok_weaken _ _ _ _ _ _ _ _ _ _ _ _ D); [..|tauto]; intros r Hr; apply elem_of_app; auto.
  - destruct (dstep_ok _ _ _ _ _ _ _ _ D S) as (d1 & ms1 & D1).
    destruct (IH _ _ _ _ _ D1) as (d2 & ms2 & D2). exists d2, ms2.
    refine (ds_ok_weaken _ _ _ _ _ _ _ _ _ _ _ _ D2).
    + intros r. change (placed_in (e :: es)) with (event_placed e ++ placed_in es). by rewrite app_assoc.
    + intros r. change (unwritten_in (e :: es)) with (event_unwritten e ++ unwritten_in es). by rewrite app_assoc.
    + unfold disk_worked, event_clean. change (unwritten_in (e :: es)) with (event_unwritten e ++ unwritten_in es).
      intros (? & [Hn ?]%app_nil & Hu). rewrite elem_of_cons in Hu. split_and!; try done; intros ?; subst; tauto.
Qed.

(** ** Opening *)

Lemma recover_epoch io fs sinks fresh d rec e : state_ok fs -> 0 < fresh < 2 ^ 64 ->
  snd (recover read_state io fs sinks fresh) = Some (d, rec, e) -> 0 < e < 2 ^ 64.
Proof.
  intros Hst Hf. unfold recover. destruct (ri_dir io); cbn [negb]; [|done].
  destruct (recover_segments _ _ _ _ _) as [f [[recs segs]|]]; [|done].
  assert (0 < match sv_epoch (saved_state read_state (mkFs f (state_json fs))) with
    | Some e0 => if 0 <? e0 then e0 else fresh | None => fresh end < 2 ^ 64) as He.
  { destruct Hst as [H|(e0 & n & c & E & He0 & _)].
    - unfold saved_state. cbn. rewrite H. done.
    - assert (saved_state read_state (mkFs f (state_json fs)) = saved_state read_state fs) as -> by done.
      rewrite E. cbn. case_match; [lia|done]. }
  destruct (last segs); [destruct (ri_reopen io); cbn [negb snd]; [|done]|]; by intros [= _ _ <-].
Qed.

(** What a sink is owed when the stream opens is past its recovered cursor. *)
Lemma open_pending rl hv rec now s r : recovered_ok rec -> s ∈ all_sinks rl hv ->
  r ∈ pending (log (open_stream rl hv rec now)) s ->
  r ∈ rec_records rec /\ unwrap_or 0 (rec_cursors rec !! s) < seq r.
Proof.
  intros Hrec Hs. pose proof (opened_sink rl hv rec s) as Hst. rewrite decide_True in Hst by done.
  destruct (trim_loop_effect (length (records (opened rl hv rec))) now (opened rl hv rec)) as [gone T].
  rewrite open_stream_log. cbn [StreamLog.trim fst]. unfold pending, above.
  rewrite (trim_effect_cursor _ _ _ _ s T), (sink_state_Some _ _ _ Hst). cbn [cursor].
  intros [[_ Hlt] Hr]%list_elem_of_filter. split; [|done].
  assert (r ∈ records (opened rl hv rec)) as Hin by (rewrite (te_records _ _ _ _ T); apply elem_of_app; by right).
  unfold opened in Hin. by rewrite (proj1 (add_recovered_all _ _)) in Hin.
Qed.

Lemma ds_sys_open io rl hv fs fresh now :
  ds_sys (open_disk read_state io rl hv fs fresh now)
  = open_stream rl hv (snd (fst (snd (recover_or_memory read_state io fs (all_sinks rl hv) fresh)))) now.
Proof. unfold open_disk. by destruct (recover_or_memory _ _ _ _ _) as [fs' [[d rec] e]]. Qed.

Lemma open_disk_ok io rl hv fs ms fresh now :
  dir_ok fs ms -> restartable fs ms -> 0 < fresh < 2 ^ 64 ->
  is_Some (ds_disk (open_disk read_state io rl hv fs fresh now)) ->
  exists d ms', ds_ok (all_recs ms) [] True (open_disk read_state io rl hv fs fresh now) d ms'.
Proof.
  intros Dir Hre Hf. unfold open_disk, recover_or_memory.
  destruct (recover_correct io fs ms (all_sinks rl hv) fresh Dir) as [Hc _].
  pose proof (recover_epoch io fs (all_sinks rl hv) fresh) as He.
  destruct (recover read_state io fs (all_sinks rl hv) fresh) as [fs' [[[d rec] e]|]]; [|by intros [? ?]].
  intros _. specialize (Hc _ _ _ eq_refl). cbn [fst snd] in *. destruct Hc as [Hr Hn Hcur Hok Hst Hd].
  destruct (Hd Hre) as (ms' & Dk & Er). exists d, ms'.
  pose proof (open_stream_next rl hv rec now) as Hnext. rewrite Hn in Hnext.
  assert (forall s, saved_cursor fs' s = saved_cursor fs s) as Hsc
    by (intros; unfold saved_cursor, saved_state; by rewrite Hst).
  assert (saved_next fs' = saved_next fs) as Hsn by (unfold saved_next, saved_state; by rewrite Hst).
  split; cbn [ds_sys ds_disk ds_fs ds_pc ds_last_saved ds_epoch]; try done.
  - by apply open_stream_ok.
  - unfold write_seq. cbn [ds_pc ds_sys]. by rewrite Hnext.
  - rewrite Hnext. apply Dir.
  - destruct (trim_loop_effect (length (records (opened rl hv rec))) now (opened rl hv rec)) as [gone T].
    rewrite open_stream_log. cbn [StreamLog.trim fst]. rewrite (te_fsynced _ _ _ _ T), opened_fsynced.
    unfold saturating_sub. lia.
  - eapply He; [apply Dir|done|reflexivity].
  - intros r Hin. left. rewrite Er, <- Hr.
    destruct (trim_loop_effect (length (records (opened rl hv rec))) now (opened rl hv rec)) as [gone T].
    rewrite open_stream_log in Hin. cbn [StreamLog.trim fst] in Hin.
    assert (r ∈ records (opened rl hv rec)) as Hin' by (rewrite (te_records _ _ _ _ T); apply elem_of_app; by right).
    unfold opened in Hin'. by rewrite (proj1 (add_recovered_all _ _)) in Hin'.
  - intros r [Hin|?]; [by rewrite Er in Hin|done].
  - pose proof (do_state _ _ Dir) as Hso. unfold state_ok, saved_state in *. by rewrite Hst.
  - rewrite Hsn, Hnext. unfold restart_seq. lia.
  - intros s k Hk Hs r Hp. rewrite Hsc in Hk. rewrite open_stream_tasks in Hs.
    destruct (decide (s ∈ all_sinks rl hv)) as [Hin|]; [|by destruct Hs].
    destruct (open_pending _ _ _ _ _ _ Hok Hin Hp) as [Hin' Hlt]. rewrite Hr in Hin'.
    assert (rec_cursors rec !! s = Some (Z.min k (last_seq_of (all_recs ms)))) as Ec by (apply Hcur; eauto).
    rewrite Ec in Hlt. cbn in Hlt. pose proof (last_seq_max _ _ (fo_recs _ _ (do_files _ _ Dir)) Hin'). lia.
  - intros _. unfold write_seq, restart_seq. cbn [ds_pc ds_sys ds_fs]. rewrite Hnext, Hsn, Er. done.
Qed.

(** What a crash leaves is a directory [recover] can use. *)
Lemma ds_ok_dir K F C ds d ms : ds_ok K F C ds d ms -> dir_ok (ds_fs ds) ms.
Proof.
  intros D. pose proof (ok_disk _ _ _ _ _ _ D) as Dk. split; [apply Dk|apply D|].
  pose proof (ok_width _ _ _ _ _ _ D). pose proof (ok_saved_next _ _ _ _ _ _ D). unfold restart_seq, u64_max in *.
  assert (write_seq ds <= next_seq (log (ds_sys ds))) as Hw.
  { pose proof (ok_pc _ _ _ _ _ _ D) as Hp. unfold pc_ok, write_seq in *. destruct (ds_pc ds); lia. }
  destruct (last_seq_elem (all_recs ms)) as [->|(r & Hr & ->)]; [lia|].
  pose proof (dk_below _ _ _ _ Dk r Hr). lia.
Qed.

Lemma ds_ok_restartable K F (C : Prop) ds d ms : ds_ok K F C ds d ms -> C -> restartable (ds_fs ds) ms.
Proof.
  intros D HC m Hm. rewrite (ok_exact _ _ _ _ _ _ D HC).
  destruct (dk_firsts _ _ _ _ (ok_disk _ _ _ _ _ _ D) m Hm) as [|(? & ? & _)]; auto.
Qed.

(** The file system answers a recovery. *)
Definition io_works (io : RecoverIo) : Prop :=
  ri_dir io = true /\ (forall p, ri_read io p = true) /\ ri_cut io = true /\ ri_reopen io = true.

(** The stream as it is opened on a directory, with its disk. *)
Definition opens (io : RecoverIo) (rl hv : string) (fs : Fs) (fresh now : Z) (ds : DSys) : Prop :=
  0 < fresh < 2 ^ 64 /\ ds = open_disk read_state io rl hv fs fresh now /\ is_Some (ds_disk ds).

(** A sink of the router has its sender all along. *)
Lemma sink_has_task io rl hv fs fresh now es ds s : sys_ok (ds_sys (open_disk read_state io rl hv fs fresh now)) ->
  drun (open_disk read_state io rl hv fs fresh now) es ds -> s ∈ all_sinks rl hv ->
  is_Some (tasks (ds_sys ds) !! s).
Proof.
  intros Ok R Hs. apply (run_tasks ack_of_value _ (placed_in es) _ _ Ok (drun_sim _ _ _ R)).
  rewrite ds_sys_open, open_stream_tasks, decide_True by done. eauto.
Qed.

(** What a power cut leaves. *)
Lemma cut_dir_ok fs fs' ms ms' : dir_ok fs ms -> files_ok (files fs') ms' -> cuts ms ms' ->
  (state_json fs' = state_json fs \/ state_json fs' = None) -> dir_ok fs' ms'.
Proof.
  intros D F' Hc Hst. pose proof (do_width _ _ D) as Hw. pose proof (do_state _ _ D) as Hs. split; [done| |].
  - destruct Hst as [E|E]; [|by left]. unfold state_ok, saved_state in *. by rewrite E.
  - assert (saved_next fs' <= saved_next fs \/ saved_next fs' = 1) as Hn.
    { unfold saved_next, saved_state. destruct Hst as [->| ->]; [by left|by right]. }
    assert (last_seq_of (all_recs ms') <= last_seq_of (all_recs ms)) as Hl.
    { destruct (last_seq_elem (all_recs ms')) as [->|(r & Hr & ->)].
      - by eapply last_seq_nonneg, D.
      - apply last_seq_max; [apply D|by eapply cuts_recs]. }
    unfold restart_seq, u64_max in *. lia.
Qed.



(** Lives of a stream, each ended by a crash or a stop: the records they place, one
    life after the other, on the directory the last one left. The disk works, and no
    life ends between placing a record and writing it. *)
Inductive lives (rl hv : string) (fs : Fs) : list StreamRec -> Fs -> Prop :=
| lives_none : lives rl hv fs [] fs
| lives_one io fresh now ds0 es ds ps fs' :
    opens io rl hv fs fresh now ds0 -> drun ds0 es ds -> disk_worked es ->
    (forall r, ds_pc ds <> Writing r) -> lives rl hv (ds_fs ds) ps fs' ->
    lives rl hv fs (placed_in es ++ ps) fs'.

(** One life: the seqs it places follow the directory's, and it leaves a directory
    whose seq is after them. *)
Lemma one_life io rl hv fs ms fresh now ds0 es ds : dir_ok fs ms -> restartable fs ms ->
  opens io rl hv fs fresh now ds0 -> drun ds0 es ds -> disk_worked es -> (forall r, ds_pc ds <> Writing r) ->
  exists ms', dir_ok (ds_fs ds) ms' /\ restartable (ds_fs ds) ms' /\
    map seq (placed_in es) = seqZ (restart_seq fs ms) (Z.of_nat (length (placed_in es))) /\
    restart_seq (ds_fs ds) ms' = restart_seq fs ms + Z.of_nat (length (placed_in es)).
Proof.
  intros Dir Hre (Hf & -> & Hd) R Hw Hpc.
  destruct (open_disk_ok _ _ _ _ _ _ _ Dir Hre Hf Hd) as (d0 & ms0 & D0).
  destruct (drun_ok _ _ _ _ _ _ _ _ D0 R) as (d1 & ms1 & D1). exists ms1.
  destruct (run_seqs _ _ _ _ (ok_sys _ _ _ _ _ _ D0) (drun_sim _ _ _ R)) as [Hs Hn].
  assert (restart_seq fs ms = next_seq (log (ds_sys (open_disk read_state io rl hv fs fresh now)))) as E0.
  { rewrite ds_sys_open, open_stream_next. unfold recover_or_memory.
    destruct (recover_correct io fs ms (all_sinks rl hv) fresh Dir) as [Hc _].
    unfold open_disk, recover_or_memory in Hd.
    destruct (recover read_state io fs (all_sinks rl hv) fresh) as [fs' [[[d rec] e]|]]; [|by destruct Hd].
    symmetry. apply (Hc _ _ _ eq_refl). }
  split_and!; [by eapply ds_ok_dir|by eapply ds_ok_restartable|by rewrite E0|].
  rewrite (ok_exact _ _ _ _ _ _ D1) by done. unfold write_seq. rewrite E0, <- Hn.
  destruct (ds_pc ds) as [|r| |]; try done. by destruct (Hpc r).
Qed.

Lemma empty_dir_ok : dir_ok (mkFs ∅ None) [].
Proof.
  split; [|by left|vm_compute; congruence].
  split; try (by intros ? ?%elem_of_nil); try constructor. intros p [? Hp] _.
  cbn [files] in Hp. by rewrite lookup_empty in Hp.
Qed.

(** A seq is never given twice, nor out of order, however many times the stream
    stops and starts: from an empty directory, over any number of lives in which the
    disk works, the records placed have strictly increasing seqs from 1 on, none left
    out, and the next life goes on right after them. *)
Theorem seqs_never_reused rl hv ps fs' : lives rl hv (mkFs ∅ None) ps fs' ->
  map seq ps = seqZ 1 (Z.of_nat (length ps)) /\
  exists ms, dir_ok fs' ms /\ restart_seq fs' ms = 1 + Z.of_nat (length ps).
Proof.
  assert (forall fs, lives rl hv fs ps fs' -> forall ms, dir_ok fs ms -> restartable fs ms ->
    map seq ps = seqZ (restart_seq fs ms) (Z.of_nat (length ps)) /\
    exists ms', dir_ok fs' ms' /\ restart_seq fs' ms' = restart_seq fs ms + Z.of_nat (length ps)) as H.
  { induction 1 as [fs|fs io fresh now ds0 es ds ps fs' O R W Hpc L IH]; intros ms Dir Hre.
    - split; [done|]. exists ms. split; [done|]. cbn. lia.
    - destruct (one_life _ _ _ _ _ _ _ _ _ _ Dir Hre O R W Hpc) as (ms1 & Dir1 & Hre1 & Hs & Hn).
      destruct (IH _ Dir1 Hre1) as [Hs' (ms' & Dir' & Hn')]. rewrite Hn in Hs', Hn'.
      rewrite map_app, Hs, Hs', length_app, Nat2Z.inj_add. split.
      + by rewrite seqZ_app by lia.
      + exists ms'. split; [done|]. lia. }
  intros L. apply (H _ L []); [apply empty_dir_ok|by intros m ?%elem_of_nil].
Qed.

(** A record in the synced part of a segment's file. *)
Definition synced_on_disk (f : Files) (r : StreamRec) : Prop :=
  exists p a, f !! p = Some a /\ is_Some (segment_first p) /\
    r ∈ fst (decode_records (take (synced a) (content a))).

Lemma synced_on_disk_recs f ms r : files_ok f ms -> synced_on_disk f r ->
  exists m, m ∈ ms /\ r ∈ synced_recs f m.
Proof.
  intros F (p & a & Ea & Hs & Hr). destruct (fo_only _ _ F p ltac:(eauto) Hs) as (m & Hm & ->).
  exists m. split; [done|]. unfold synced_recs. rewrite Ea. pose proof (fo_in _ _ F m Hm) as Hc.
  rewrite Ea in Hc. cbn in Hc. injection Hc as Hc. rewrite Hc in Hr.
  assert (Forall rec_wf (m_recs m)) as Hw.
  { apply Forall_forall. intros x Hx. pose proof (fo_good _ _ F) as HG. rewrite Forall_forall in HG.
    apply HG, elem_of_all_recs. eauto. }
  destruct (take_segment (m_recs m) (m_tail m) (synced a) Hw (fo_tails _ _ F m Hm)) as (t & (x & k & Hx & Hk & ->) & E).
  unfold m_bytes in Hr. rewrite E, decode_torn in Hr; [done| |done|done]. by apply Forall_take.
Qed.

(** A power cut loses no record that was synced. Stop a stream at any point of any
    run and lose, in each file, any bytes written after the last sync, with the last
    state saved or none: a restart that can read the directory succeeds, its log is one
    the stream can go on with, every record a sink was still owed that was synced is
    there and past that sink's cursor, and nothing is there that was not recovered
    before or placed since. *)
Theorem power_cut_keeps_synced_records io rl hv fs ms fresh now ds0 es ds fs' io' fresh' :
  dir_ok fs ms -> restartable fs ms -> opens io rl hv fs fresh now ds0 -> drun ds0 es ds ->
  power_cut (files (ds_fs ds)) (files fs') ->
  (state_json fs' = state_json (ds_fs ds) \/ state_json fs' = None) -> io_works io' ->
  exists d rec epoch,
    snd (recover read_state io' fs' (all_sinks rl hv) fresh') = Some (d, rec, epoch) /\
    recovered_ok rec /\
    (forall s r, s ∈ all_sinks rl hv -> r ∈ pending (log (ds_sys ds)) s -> synced_on_disk (files (ds_fs ds)) r ->
       r ∈ rec_records rec /\ unwrap_or 0 (rec_cursors rec !! s) < seq r) /\
    (forall r, r ∈ rec_records rec -> r ∈ all_recs ms ++ placed_in es).
Proof.
  intros Dir Hre (Hf & -> & Hd) R P Hst (W1 & W2 & W3 & W4).
  destruct (open_disk_ok _ _ _ _ _ _ _ Dir Hre Hf Hd) as (d0 & ms0 & D0).
  destruct (drun_ok _ _ _ _ _ _ _ _ D0 R) as (d1 & ms1 & D1).
  pose proof (ds_ok_dir _ _ _ _ _ _ D1) as Dir1. pose proof (do_files _ _ Dir1) as F1.
  destruct (power_cut_ok _ _ _ F1 P) as (ms2 & F2 & Hc2 & Hsy).
  assert (dir_ok fs' ms2) as Dir2 by (by eapply cut_dir_ok).
  destruct (recover_correct io' fs' ms2 (all_sinks rl hv) fresh' Dir2) as [Hc Ht].
  destruct (Ht W1 W2 W3 W4) as [[[d rec] e] E]. exists d, rec, e. destruct (Hc _ _ _ E) as [Hr Hn Hcur Hok _ _].
  split_and!; try done.
  - intros s r Hs Hp Hsd. destruct (synced_on_disk_recs _ _ _ F1 Hsd) as (m & Hm & Hin).
    pose proof (Hsy m r Hm Hin) as Hr2. rewrite Hr. split; [done|].
    destruct (rec_cursors rec !! s) as [c|] eqn:Ec; cbn.
    + apply Hcur in Ec as (_ & k & Hk & ->). assert (k < seq r); [|lia].
      assert (saved_cursor (ds_fs ds) s = Some k) as Hk'.
      { unfold saved_cursor, saved_state in *. by destruct Hst as [Hst|Hst]; rewrite Hst in Hk. }
      apply (ok_cursors _ _ _ _ _ _ D1 s k Hk'); [|done]. by eapply (sink_has_task io rl hv fs fresh now); [apply D0|..].
    + pose proof (fo_good _ _ F2) as HG. rewrite Forall_forall in HG. by destruct (HG r Hr2).
  - intros r Hin. rewrite Hr in Hin. apply (ok_known _ _ _ _ _ _ D1). left. by eapply cuts_recs.
Qed.

End Crash.

(** ** Concrete inputs *)

Module CrashExamples.
Import Examples.

(** The state in [state.json] as a triple: reading it gives back what was saved. *)

Definition saved_as (e n : Z) (c : gmap string Z) : Z * Z * gmap string Z := (e, n, c).
Definition read_back (j : Z * Z * gmap string Z) : Saved :=
  mkSaved (Some (fst (fst j))) (Some (snd (fst j))) (Some (snd j)).

Lemma read_back_ok epoch next cursors :
  0 <= epoch < 2 ^ 64 -> 0 <= next < 2 ^ 64 -> (forall s c, cursors !! s = Some c -> 0 <= c < 2 ^ 64) ->
  read_back (saved_as epoch next cursors) = mkSaved (Some epoch) (Some next) (Some cursors).
Proof. done. Qed.

Definition all_works : RecoverIo := mkRecoverIo true (fun _ => true) true true.
Definition no_failure : Io := mkIo true true None.
Definition torn_write : Io := mkIo true true (Some 5%nat).

Abbreviation State := (Z * Z * gmap string Z)%type.

Definition empty_dir : @Fs State := mkFs ∅ None.

Definition at_open : DSys := open_disk read_back all_works "motherbee" "h1" empty_dir 7 1000.

(** [take_incoming] of an append that fits. *)
Definition taken (ds : @DSys State) (i : Incoming) (r : StreamRec) : DSys :=
  let '(sh, c, _) := take_incoming 1000 i (log (ds_sys ds)) (ctr (ds_sys ds)) in
  set_pc ds (mkSys sh c (tasks (ds_sys ds))) (Writing r).

Definition at_placed : DSys := taken at_open turn turn_record.
Definition at_written : DSys := fst (write_record no_failure at_placed turn_record).
Definition at_synced : DSys := fsync_disk no_failure at_written.

Lemma synced_run : drun saved_as (V:=Z) Some at_open [Placed turn_record; Quiet; Quiet] at_synced.
Proof.
  eapply drun_step.
  { eapply (d_take saved_as Some at_open 1000 turn _ _ turn_record); [done| |done|vm_compute; reflexivity].
    unfold rec_wf. vm_compute. repeat split; congruence. }
  eapply drun_step. { by eapply (d_write saved_as Some at_placed no_failure turn_record at_written true). }
  eapply drun_step. { by apply (d_fsync saved_as Some at_written no_failure). }
  apply drun_refl.
Qed.

Lemma at_open_opens : opens read_back all_works "motherbee" "h1" empty_dir 7 1000 at_open.
Proof. split; [lia|]. split; [done|]. vm_compute. eauto. Qed.

Lemma owed_after_sync : turn_record ∈ pending (log (ds_sys at_synced)) storage.
Proof. apply list_elem_of_In. vm_compute. by left. Qed.

Lemma synced_pc : ds_pc at_synced <> Writing turn_record.
Proof. vm_compute. congruence. Qed.

Lemma all_works_ok : io_works all_works.
Proof. by split_and!. Qed.

Lemma no_segments fs : restartable read_back (fs : @Fs State) [].
Proof. by intros m ?%elem_of_nil. Qed.



Lemma turn_synced : synced_on_disk (files (ds_fs at_synced)) turn_record.
Proof.
  eexists (segment_path 1), _. split; [vm_compute; reflexivity|]. split; [vm_compute; eauto|].
  apply list_elem_of_In. vm_compute. by left.
Qed.

Lemma nothing_cut (f : Files) : power_cut f f.
Proof.
  intros p. destruct (f !! p) as [a|]; [|done]. exists (Nat.max (synced a) (length (content a))).
  split; [lia|]. rewrite take_ge by lia. done.
Qed.

Lemma power_cut_keeps_synced_records_witness :
  exists rec d epoch,
    snd (recover read_back all_works (mkFs (files (ds_fs at_synced)) None) (all_sinks "motherbee" "h1") 9)
      = Some (d, rec, epoch) /\
    turn_record ∈ rec_records rec.
Proof.
  destruct (power_cut_keeps_synced_records saved_as read_back Some read_back_ok all_works "motherbee" "h1" empty_dir []
    7 1000 at_open _ at_synced (mkFs (files (ds_fs at_synced)) None) all_works 9 (empty_dir_ok read_back)
    (no_segments _) at_open_opens synced_run (nothing_cut _) (or_intror eq_refl) all_works_ok)
    as (d & rec & e & E & _ & H & _).
  exists rec, d, e. split; [exact E|]. exact (proj1 (H storage turn_record storage_sink owed_after_sync turn_synced)).
Defined.

Lemma one_life_run : lives saved_as read_back (V:=Z) Some "motherbee" "h1" empty_dir [turn_record] (ds_fs at_synced).
Proof.
  change [turn_record] with (placed_in [Placed turn_record; Quiet; Quiet] ++ []).
  eapply lives_one; [exact at_open_opens|exact synced_run| | |apply lives_none].
  - split; [done|]. rewrite !elem_of_cons. intros [?|[?|[?|?%elem_of_nil]]]; done.
  - intros r. vm_compute. congruence.
Qed.

Lemma seqs_never_reused_witness :
  lives saved_as read_back (V:=Z) Some "motherbee" "h1" empty_dir [turn_record] (ds_fs at_synced) /\
  map seq [turn_record] = seqZ 1 1.
Proof.
  split; [exact one_life_run|].
  exact (proj1 (seqs_never_reused saved_as read_back Some read_back_ok "motherbee" "h1" [turn_record] _ one_life_run)).
Defined.

(** ** What a failed write leaves

    A record whose write failed stays in memory and goes to its sink; nothing on disk
    remembers its seq until the next state is saved. *)

Definition at_saving : DSys := housekeeping 1000 at_open.
Definition at_saved : DSys :=
  match ds_pc at_saving with
  | Saving kf nl next cs => fst (save_housekeeping saved_as true at_saving kf nl next cs)
  | _ => at_saving
  end.
Definition at_loop : DSys := trim_housekeeping (fun _ => true) at_saved 1 true.
Definition at_failing : DSys := taken at_loop turn turn_record.
Definition at_failed : DSys := fst (write_record torn_write at_failing turn_record).
Definition at_sent : DSys := set_pc at_failed (sink_plan (ds_sys at_failed) storage 1001 STREAM_RETRY_MIN_MS) Looping.
Definition at_acked : DSys :=
  set_pc at_sent (sink_done Some (ds_sys at_sent) storage [turn_record] 1 1 STREAM_RETRY_MIN_MS (Some (ack 1)) 1002) Looping.

Lemma failed_run : drun saved_as (V:=Z) Some at_open
  [Quiet; Quiet; Quiet; Placed turn_record; Unwritten turn_record; Quiet; Quiet] at_acked.
Proof.
  eapply drun_step. { by apply (d_house saved_as Some at_open 1000). }
  eapply drun_step. { eapply (d_save saved_as Some at_saving true _ _ _ _ at_saved true); vm_compute; reflexivity. }
  eapply drun_step. { apply (d_trim saved_as Some at_saved (fun _ => true) 1 true). vm_compute. reflexivity. }
  eapply drun_step.
  { eapply (d_take saved_as Some at_loop 1000 turn _ _ turn_record); [vm_compute; reflexivity| |done|vm_compute; reflexivity].
    unfold rec_wf. vm_compute. repeat split; congruence. }
  eapply drun_step. { eapply (d_write saved_as Some at_failing torn_write turn_record at_failed false); vm_compute; reflexivity. }
  eapply drun_step. { apply (d_plan saved_as Some at_failed storage 1001). vm_compute. reflexivity. }
  eapply drun_step. { apply (d_reply saved_as Some at_sent storage [turn_record] 1 1 STREAM_RETRY_MIN_MS (Some (ack 1)) 1002).
    vm_compute. reflexivity. }
  apply drun_refl.
Qed.

(** After a failed write, a restart of the router gives the seq of a record its sink
    already took to another one, in the same epoch. *)
Theorem failed_write_reuses_seq : exists es ds d rec,
  drun saved_as (V:=Z) Some at_open es ds /\
  delivered (sink_state (log (ds_sys ds)) storage) = 1 /\ turn_record ∈ placed_in es /\
  snd (recover read_back all_works (ds_fs ds) (all_sinks "motherbee" "h1") 9) = Some (d, rec, ds_epoch ds) /\
  rec_next_seq rec = seq turn_record.
Proof.
  eexists _, at_acked, _, _. split; [exact failed_run|]. split; [vm_compute; reflexivity|].
  split; [apply list_elem_of_In; by left|]. split; [vm_compute; reflexivity|done].
Qed.

(** A record written before a failed one in the same segment is reported synced by the
    next [fsync], which syncs nothing: the segment was closed by the failure. *)
Definition next_turn : Incoming := mkIncoming Turns 1001 SUBJECT_STORAGE_TURNS "AI.a@h1" [Byte.x42].
Definition next_record : StreamRec := record_of (log (ds_sys at_written)) next_turn.
Definition at_next : DSys := fst (write_record torn_write (taken at_written next_turn next_record) next_record).

Theorem fsync_skips_closed_segment :
  fsynced_seq (log (ds_sys (fsync_disk no_failure at_next))) = seq turn_record /\
  synced <$> files (ds_fs (fsync_disk no_failure at_next)) !! segment_path (seq turn_record) = Some 0%nat.
Proof. split; vm_compute; reflexivity. Qed.

End CrashExamples.
