(* ===== verification/Paging.v ===== *)
(** * Rows read in order, a page at a time

    A query with [ORDER BY], a cursor and [LIMIT], as SY.storage's retry and its usage
    queries use it: the rows after the cursor, in the order of their keys, at most so
    many. Following the cursor of the last row read visits every row once. *)

From Stdlib Require Import ZArith Lia String.
From stdpp Require Import base list sorting.
From S2P Require Import Prelude.
Open Scope Z_scope.

(** An order in which only equals compare equal. *)
Class TotalOrder {K : Type} (cmp : K -> K -> comparison) : Prop := {
  order_preorder :: TotalPreorder cmp;
  order_eq : forall a b, cmp a b = Eq -> a = b }.

#[export] Instance string_order : TotalOrder String.compare.
Proof.
  assert (forall a b, String.compare a b = Gt -> forall c, String.compare c b <> Gt -> String.compare c a <> Gt)
    as Haux.
  { induction a as [|x a IH]; intros [|y b]; cbn; try done.
    - by intros _ [|z c].
    - intros Hab [|z c]; [done|]. cbn. revert Hab. unfold Ascii.compare.
      destruct (N.compare_spec (Ascii.N_of_ascii x) (Ascii.N_of_ascii y)) as [Exy|Exy|Exy];
        destruct (N.compare_spec (Ascii.N_of_ascii z) (Ascii.N_of_ascii y)) as [Ezy|Ezy|Ezy];
        destruct (N.compare_spec (Ascii.N_of_ascii z) (Ascii.N_of_ascii x)) as [Ezx|Ezx|Ezx];
        intros Hab Hcb; try done; try lia. by eapply IH. }
  split; [split|].
  - intros x y. apply String.compare_antisym.
  - intros x y z Hxy Hyz. destruct (String.compare y z) eqn:E; [|clear Hyz|done].
    + apply String.compare_eq_iff in E as ->. done.
    + apply (Haux z y); [|done]. by rewrite String.compare_antisym, E.
  - intros a b. apply String.compare_eq_iff.
Qed.

(** A time, then a text: the keys the queries order by. *)
Definition cursor_cmp (text_cmp : string -> string -> comparison) (a b : Z * string) : comparison :=
  then_with (Z.compare (fst a) (fst b)) (text_cmp (snd a) (snd b)).

#[export] Instance cursor_order text_cmp : TotalOrder text_cmp -> TotalOrder (cursor_cmp text_cmp).
Proof.
  intros [[Hanti Htrans] Heq]. split; [split|]; unfold cursor_cmp, then_with.
  - intros [a s] [b t]. cbn. rewrite (Z.compare_antisym a b). destruct (Z.compare a b); cbn; auto.
  - intros [a s] [b t] [c u]. cbn.
    destruct (Z.compare_spec a b), (Z.compare_spec b c), (Z.compare_spec a c); try done; try lia; eauto.
  - intros [a s] [b t]. cbn. destruct (Z.compare_spec a b) as [->|?|?]; [|done..].
    intros ?%Heq. congruence.
Qed.

Section Paging.
Context {R K : Type} (key : R -> K) (kcmp : K -> K -> comparison) `{Ho : !TotalOrder kcmp}.

Definition in_order (rows : list R) : list R := sort_by (fun a b => kcmp (key a) (key b)) rows.

(** A row after the cursor. *)
Definition after_key (after : option K) (r : R) : bool :=
  match after with
  | None => true
  | Some k => match kcmp (key r) k with Gt => true | _ => false end
  end.

(** [WHERE key > after ORDER BY key LIMIT limit]. *)
Definition fetch (after : option K) (limit : nat) (rows : list R) : list R :=
  take limit (in_order (List.filter (after_key after) rows)).

Definition before (a b : R) : Prop := kcmp (key a) (key b) = Lt.

#[local] Instance row_preorder : TotalPreorder (fun a b => kcmp (key a) (key b)).
Proof. split; intros; [apply cmp_antisym, _|by eapply cmp_trans; eauto; apply _]. Qed.

#[local] Instance before_antisym : AntiSymm (=) before.
Proof. intros a b H1 H2. unfold before in *. rewrite (cmp_antisym kcmp (key a) (key b)), H1 in H2. done. Qed.

Lemma kcmp_refl k : kcmp k k = Eq.
Proof. pose proof (cmp_antisym kcmp k k) as H. by destruct (kcmp k k). Qed.

Lemma elem_of_in_order r rows : r ∈ in_order rows <-> r ∈ rows.
Proof. apply elem_of_sort_by. Qed.

Lemma in_order_sorted rows : NoDup (key <$> rows) -> StronglySorted before (in_order rows).
Proof.
  intros Hn. assert (NoDup (key <$> in_order rows)) as Hn'.
  { unfold in_order. by rewrite sort_by_perm. }
  pose proof (sort_by_sorted (fun a b => kcmp (key a) (key b)) rows) as Hs. fold (in_order rows) in Hs.
  induction Hs as [|x l Hl IH Hx]; [constructor|].
  apply NoDup_cons in Hn' as [Hin Hn']. constructor; [by apply IH|].
  rewrite Forall_forall in *. intros y Hy. specialize (Hx y Hy). unfold before, not_after in *.
  destruct (kcmp (key x) (key y)) eqn:E; [|done..]. apply order_eq in E. rewrite E in Hin.
  exfalso. by apply Hin, list_elem_of_fmap_2.
Qed.

Lemma sorted_filter p l : StronglySorted before l -> StronglySorted before (List.filter p l).
Proof.
  induction 1 as [|x l Hl IH Hx]; cbn; [constructor|]. destruct (p x); [|done].
  constructor; [done|]. rewrite Forall_forall in *. intros y [Hy _]%list_elem_of_In%filter_In.
  by apply Hx, list_elem_of_In.
Qed.

(** Sorted rows are their set, sorted. *)
Lemma in_order_unique l rows : StronglySorted before l -> l ≡ₚ rows -> NoDup (key <$> rows) ->
  in_order rows = l.
Proof.
  intros Hs Hp Hn. eapply StronglySorted_unique; [apply _|by apply in_order_sorted|done|].
  unfold in_order. by rewrite sort_by_perm.
Qed.

Lemma filter_perm (p : R -> bool) l l' : l ≡ₚ l' -> List.filter p l ≡ₚ List.filter p l'.
Proof. intros H. induction H; cbn; repeat case_match; try done; [by constructor|by constructor|by etrans]. Qed.

Lemma in_order_filter p rows : NoDup (key <$> rows) ->
  in_order (List.filter p rows) = List.filter p (in_order rows).
Proof.
  intros Hn. apply in_order_unique.
  - by apply sorted_filter, in_order_sorted.
  - apply filter_perm. unfold in_order. by rewrite sort_by_perm.
  - induction rows as [|x rows IH]; [constructor|]. apply NoDup_cons in Hn as [Hx Hn].
    cbn. destruct (p x); [|by apply IH]. apply NoDup_cons. split; [|by apply IH].
    intros (y & E & [Hy _]%list_elem_of_In%filter_In)%list_elem_of_fmap. apply Hx. rewrite E.
    by apply list_elem_of_fmap_2, list_elem_of_In.
Qed.

(** The rows of a sorted list after one of them are those that follow it. *)
Lemma after_split l1 x l2 : StronglySorted before (l1 ++ x :: l2) ->
  List.filter (after_key (Some (key x))) (l1 ++ x :: l2) = l2.
Proof.
  intros Hs. rewrite List.filter_app. cbn. rewrite kcmp_refl.
  assert (List.filter (after_key (Some (key x))) l1 = []) as ->.
  { induction l1 as [|y l1 IH]; [done|]. cbn in Hs. apply StronglySorted_inv in Hs as [Hs Hy]. cbn.
    rewrite Forall_forall in Hy. specialize (Hy x (ltac:(apply elem_of_app; right; left))).
    unfold before in Hy. rewrite Hy. by apply IH. }
  cbn. clear -Hs Ho. assert (Forall (before x) l2) as Hx.
  { induction l1 as [|y l1 IH]; cbn in Hs; apply StronglySorted_inv in Hs as [? ?]; [done|by apply IH]. }
  induction Hx as [|y l2 Hy _ IH]; [done|]. cbn. unfold before in Hy.
  rewrite (cmp_antisym kcmp (key x) (key y)), Hy. cbn. f_equal. apply IH.
  clear -Hs. induction l1 as [|z l1 IH]; cbn in *.
  - apply StronglySorted_inv in Hs as [Hs Hx]. apply StronglySorted_inv in Hs as [? ?].
    constructor; [done|]. by apply Forall_cons in Hx as [_ ?].
  - apply StronglySorted_inv in Hs as [? Hz]. constructor; [by apply IH|].
    rewrite Forall_app, !Forall_cons in *. naive_solver.
Qed.

(** What a fetch from the cursor of a row reads. *)
Lemma fetch_after rows l1 x l2 limit : NoDup (key <$> rows) -> in_order rows = l1 ++ x :: l2 ->
  fetch (Some (key x)) limit rows = take limit l2.
Proof.
  intros Hn E. unfold fetch. rewrite in_order_filter by done. rewrite E, after_split; [done|].
  rewrite <- E. by apply in_order_sorted.
Qed.

Lemma filter_true (l : list R) : List.filter (fun _ => true) l = l.
Proof. induction l; cbn; [done|by f_equal]. Qed.

Lemma fetch_first rows limit : fetch None limit rows = take limit (in_order rows).
Proof. unfold fetch. by rewrite filter_true. Qed.

End Paging.
