(* ===== verification/Storage.v ===== *)
(** * SY.storage's intake (src/src/bin/sy_storage.rs, src/crates/fluxbee_sdk/src/usage.rs)

    What SY.storage does with a stream's batch: the records it takes and refuses, the
    inbox they enter in one transaction before the ack, their processing into [turns] and
    [llm_usage], the retry and the purge. The database is its three tables; a statement
    may fail. The theorems: what is stored came from a node of the stream's own hive and
    in its own name, a usage record is charged as its producer's role allows, a record
    lands once however often it is delivered, and what is acked is stored. *)

From Stdlib Require Import ZArith Lia Ascii String Strings.Byte.
From stdpp Require Import base list gmap strings fin_maps.
From S2P Require Import Prelude Protocol StreamRecord StreamLog Paging.
Open Scope Z_scope.

(** ** JSON, as [serde_json] gives it *)

Class Json (V : Type) := {
  json_get : V -> string -> option V;
  json_as_str : V -> option string;
  json_as_array : V -> option (list V);
  json_is_null : V -> bool;
  json_null : V;
  json_to_string : V -> string;
  json_to_vec : V -> option (list byte);
  json_from_slice : list byte -> option V }.

(** What [serde_json] writes it reads back. *)
Class JsonLaws (V : Type) `{Json V} : Prop := {
  json_roundtrip : forall v b, json_to_vec v = Some b -> json_from_slice b = Some v }.

(** ** The stream's wire records (crates/fluxbee_sdk/src/stream.rs) *)

Record StreamRecord (V : Type) := mkStreamRecord {
  sr_seq : Z;
  sr_ts_ms : Z;
  sr_subject : string;
  sr_producer : string;
  sr_payload : V }.
Arguments mkStreamRecord {V}. Arguments sr_seq {V}. Arguments sr_ts_ms {V}.
Arguments sr_subject {V}. Arguments sr_producer {V}. Arguments sr_payload {V}.

Record StreamBatch (V : Type) := mkStreamBatch {
  sb_stream : string;
  sb_epoch : Z;
  sb_records : list (StreamRecord V) }.
Arguments mkStreamBatch {V}. Arguments sb_stream {V}. Arguments sb_epoch {V}. Arguments sb_records {V}.

(** [is_stream_node_name]. *)
Definition is_stream_node_name (name : string) : bool :=
  match split_once "@" name with
  | None => false
  | Some (local, hive) =>
    if str_is_empty (Prelude.trim hive) then false
    else
      let lower := to_ascii_lowercase local in
      starts_with lower "rt." && ends_with lower ".stream"
      && (String.length "rt..stream" <? String.length lower)%nat
  end.

(** [stream_hive]. *)
Definition stream_hive (name : string) : option string :=
  match split_once "@" name with
  | Some (_, hive) => if str_is_empty (Prelude.trim hive) then None else Some (Prelude.trim hive)
  | None => None
  end.

(** ** Usage records (crates/fluxbee_sdk/src/usage.rs) *)

Inductive TenantSource := TsNode | TsAgent | TsWriter | TsCase | TsRoot | TsFallbackRoot.

#[export] Instance TenantSource_eq_dec : EqDecision TenantSource.
Proof. solve_decision. Defined.

Inductive UsageKind := Generate | FunctionTurn.

Inductive UsageOutcome := UoOk | UoTruncated | UoRefused | UoUnreadable | UoAbandoned.

Record UsageWork := mkUsageWork {
  session_id : option string;
  pipeline_run_id : option string;
  solution_id : option string;
  stage : option string;
  execution_id : option string;
  caller : option string }.

Definition USAGE_FIELD_MAX_CHARS : nat := 256.
Definition USAGE_RAW_MAX_BYTES : nat := 2 * 1024.

Record UsageRecord (V : Type) := mkUsageRecord {
  record_id : string;
  provider_response_id : option string;
  u_ts : string;
  u_hive : string;
  node_name : string;
  node_ilk : option string;
  u_tenant_id : string;
  tenant_source : TenantSource;
  counterpart_ilk : option string;
  provider : string;
  model : string;
  served_model : option string;
  service_tier : option string;
  u_kind : UsageKind;
  outcome : UsageOutcome;
  uncached_input : option Z;
  cache_read : option Z;
  cache_write : option Z;
  output : option Z;
  reasoning : option Z;
  raw_usage : option V;
  u_trace_id : option string;
  u_thread_id : option string;
  work : option UsageWork }.
Arguments mkUsageRecord {V}. Arguments record_id {V}. Arguments provider_response_id {V}.
Arguments u_ts {V}. Arguments u_hive {V}. Arguments node_name {V}. Arguments node_ilk {V}.
Arguments u_tenant_id {V}. Arguments tenant_source {V}. Arguments counterpart_ilk {V}.
Arguments provider {V}. Arguments model {V}. Arguments served_model {V}. Arguments service_tier {V}.
Arguments u_kind {V}. Arguments outcome {V}. Arguments uncached_input {V}. Arguments cache_read {V}.
Arguments cache_write {V}. Arguments output {V}. Arguments reasoning {V}. Arguments raw_usage {V}.
Arguments u_trace_id {V}. Arguments u_thread_id {V}. Arguments work {V}.

(** [chars().count()]: the bytes that do not continue a character. *)
Definition char_count (s : string) : nat :=
  length (List.filter (fun b => negb (is_cont b)) (as_bytes s)).

Definition too_long (s : string) : bool := (USAGE_FIELD_MAX_CHARS <? char_count s)%nat.

Definition opt_too_long (o : option string) : bool :=
  match o with Some s => too_long s | None => false end.

Definition DEFAULT_ROOT_TENANT_ID : string := "tnt:00000000-0000-0000-0000-000000000001".

Section Usage.
Context {V : Type} `{J : Json V}.

Definition work_values (w : UsageWork) : list (option string) :=
  [session_id w; pipeline_run_id w; solution_id w; stage w; execution_id w; caller w].

(** [UsageRecord::defect]: whether it finds one. *)
Definition defect (r : UsageRecord V) : bool :=
  existsb (fun s => str_is_empty (Prelude.trim s) || too_long s)
    [record_id r; u_ts r; u_hive r; node_name r; u_tenant_id r; provider r; model r]
  || existsb opt_too_long
       [provider_response_id r; node_ilk r; counterpart_ilk r; served_model r; service_tier r;
        u_trace_id r; u_thread_id r]
  || match work r with Some w => existsb opt_too_long (work_values w) | None => false end
  || match raw_usage r with
     | Some raw => match json_to_vec raw with
                   | Some bytes => (USAGE_RAW_MAX_BYTES <? length bytes)%nat
                   | None => true
                   end
     | None => false
     end.

End Usage.

(** ** What SY.storage takes of a batch *)

Inductive HandlerKind := HkTurns | HkUsage.

Definition handler_kind_for_subject (subject : string) : option HandlerKind :=
  if subject =s SUBJECT_STORAGE_TURNS then Some HkTurns
  else if subject =s SUBJECT_STORAGE_USAGE then Some HkUsage
  else None.

Definition hex_digit (z : Z) : ascii :=
  ascii_of_N (Z.to_N (if z <? 10 then 48 + z else 87 + z)).

(** The last [k] hexadecimal digits of [z]: [{z:0kx}] when [z] has no more. *)
Fixpoint hex_padded (k : nat) (z : Z) : list ascii :=
  match k with
  | O => []
  | S k => hex_padded k (z / 16) ++ [hex_digit (z mod 16)]
  end.

Fixpoint dec_digits (fuel : nat) (z : Z) : list ascii :=
  match fuel with
  | O => []
  | S k => (if z <? 10 then [] else dec_digits k (z / 10))
           ++ [ascii_of_N (Z.to_N (48 + z mod 10))]
  end.

(** [{z}] of a [usize]: at most twenty digits. *)
Definition dec (z : Z) : string := string_of_list_ascii (dec_digits 20 z).

(** [message_dedupe_key]. *)
Definition message_dedupe_key (subject : string) (payload : list byte) : string :=
  let hash := fold_left fnv_step (as_bytes subject ++ payload) 0xcbf29ce484222325 in
  (subject ++ ":" ++ string_of_list_ascii (hex_padded 16 hash) ++ ":"
     ++ dec (Z.of_nat (length payload)))%string.

Record StreamRow := mkStreamRow {
  dedupe_key : string;
  row_subject : string;
  row_kind : HandlerKind;
  row_payload : list byte;
  source_ts : Z }.

Inductive UsageProducer := UpNode | UpCognition | UpFrontdesk | UpRoot.

#[export] Instance UsageProducer_eq_dec : EqDecision UsageProducer.
Proof. solve_decision. Defined.

(** [usage_producer]. *)
Definition usage_producer (name : string) : option UsageProducer :=
  let base := to_ascii_lowercase (match split_once "@" name with Some (b, _) => b | None => name end) in
  if negb (starts_with base "sy.") then Some UpNode
  else if base =s "sy.cognition" then Some UpCognition
  else if base =s "sy.frontdesk.gov" then Some UpFrontdesk
  else if (base =s "sy.architect") || (base =s "sy.admin") then Some UpRoot
  else None.

(** [i64::try_from] of a [u64]. *)
Definition fits_i64 (z : Z) : bool := z <? 2 ^ 63.

Definition opt_fits_i64 (o : option Z) : bool := match o with Some z => fits_i64 z | None => true end.

(** Which tenant sources a producer's role may use. *)
Definition source_fits {V} (role : UsageProducer) (record : UsageRecord V) : bool :=
  match tenant_source record with
  | TsNode => bool_decide (role = UpNode)
  | TsAgent | TsWriter =>
    bool_decide (role = UpCognition) && match counterpart_ilk record with Some _ => true | None => false end
  | TsCase => bool_decide (role = UpFrontdesk)
  | TsRoot => bool_decide (role = UpRoot)
  | TsFallbackRoot => true
  end.

Inductive IdentityLookup := HandlerNode (name : string) | IlkOf (ilk : string).

Record UsageCharge := mkUsageCharge { charge_tenant : string; verified : bool }.

Definition INBOX_MAX_ATTEMPTS : Z := 10.

(** Times are in microseconds, as the database keeps them. *)
Definition SECOND : Z := 1000000.

Section Storage.
Context {V : Type} `{J : Json V}.

(** [UsageRecord::deserialize], and [chrono]'s reading of a time. *)
Variable usage_of_value : V -> option (UsageRecord V).
Variable parse_from_rfc3339 : string -> option Z.

(** [check_usage_record]: why a record is refused, none when it is not. *)
Definition check_usage_record (producer : string) (payload : V) : option string :=
  match usage_producer producer with
  | None => Some "foreign_sy"%string
  | Some role =>
    match usage_of_value payload with
    | None => Some "malformed"%string
    | Some record =>
      if match parse_from_rfc3339 (u_ts record) with None => true | Some _ => false end
         || negb (forallb opt_fits_i64 [uncached_input record; cache_read record; cache_write record;
                                        output record; reasoning record])
      then Some "malformed"%string
      else if defect record then Some "defective"%string
      else if negb (node_name record =s producer) then Some "not_producer"%string
      else if negb (source_fits role record) then Some "wrong_source"%string
      else if (bool_decide (role = UpRoot) || bool_decide (tenant_source record = TsFallbackRoot))
              && negb (u_tenant_id record =s DEFAULT_ROOT_TENANT_ID)
      then Some "not_root"%string
      else None
    end
  end.

(** [payload["routing"]["src_l2_name"].as_str()]. *)
Definition payload_sender (payload : V) : option string :=
  routing ← json_get payload "routing"; name ← json_get routing "src_l2_name"; json_as_str name.

(** What becomes of one record of a batch. *)
Inductive Taken := Row (r : StreamRow) | Skipped | UsageRefused (reason : string).

(** The body of [stream_rows]' loop; none when the payload cannot be serialized. *)
Definition stream_row (hive : string) (record : StreamRecord V) : option Taken :=
  let producer_hive := match rsplit_once "@" (sr_producer record) with Some (_, h) => Some h | None => None end in
  if negb (opt_str_is producer_hive hive) then Some Skipped
  else match handler_kind_for_subject (sr_subject record) with
  | None => Some Skipped
  | Some kind =>
    if (sr_subject record =s SUBJECT_STORAGE_TURNS)
       && negb (opt_str_is (payload_sender (sr_payload record)) (sr_producer record))
    then Some Skipped
    else
      match (if sr_subject record =s SUBJECT_STORAGE_USAGE
             then check_usage_record (sr_producer record) (sr_payload record) else None) with
      | Some reason => Some (UsageRefused reason)
      | None =>
        match json_to_vec (sr_payload record) with
        | Some payload =>
          Some (Row (mkStreamRow (message_dedupe_key (sr_subject record) payload) (sr_subject record)
                       kind payload (sr_ts_ms record * 1000)))
        | None => None
        end
      end
  end.

(** [stream_rows]: what becomes of each record, or an error. *)
Fixpoint stream_rows_of (hive : string) (l : list (StreamRecord V)) : option (list Taken) :=
  match l with
  | [] => Some []
  | r :: rest =>
    match stream_row hive r with
    | None => None
    | Some t => match stream_rows_of hive rest with None => None | Some ts => Some (t :: ts) end
    end
  end.

Definition stream_rows (batch : StreamBatch V) (from : string) : option (list Taken) :=
  stream_rows_of (unwrap_or "" (stream_hive from)) (sb_records batch).

Definition rows_of (ts : list Taken) : list StreamRow :=
  omap (fun t => match t with Row r => Some r | _ => None end) ts.

(** [decide_usage_tenant]: none is an error, which the inbox retries; [tenant_of] is none when
    identity cannot answer. *)
Definition decide_usage_tenant (record : UsageRecord V) (last_attempt : bool)
  (tenant_of : IdentityLookup -> option (option string)) : option UsageCharge :=
  match usage_producer (node_name record) with
  | None => None
  | Some role =>
    let ask lookup :=
      match tenant_of lookup with
      | Some (Some tenant) => Some (mkUsageCharge tenant true)
      | Some None | None =>
        if last_attempt then Some (mkUsageCharge (u_tenant_id record) false) else None
      end in
    match role, tenant_source record with
    | UpNode, _ => ask (HandlerNode (node_name record))
    | UpCognition, (TsAgent | TsWriter) =>
      match counterpart_ilk record with Some ilk => ask (IlkOf ilk) | None => None end
    | UpFrontdesk, TsCase => Some (mkUsageCharge (u_tenant_id record) true)
    | _, _ => Some (mkUsageCharge DEFAULT_ROOT_TENANT_ID true)
    end
  end.

(** ** Turns *)

(** [Writer] (message_writer.rs) and the reading of one by [serde_json]. *)
Record Writer := mkWriter { writer_ilk : option string; writer_name : option string }.

Variable writer_of_value : V -> option Writer.

(** The closure [kept] of [Writer::new]. *)
Definition kept (o : option string) : option string :=
  match o with
  | Some s => let s := Prelude.trim s in if str_is_empty s then None else Some s
  | None => None
  end.

(** [writer_of]. *)
Definition writer_of (context : option V) : option Writer :=
  c ← context; w ← json_get c "writer"; w ← writer_of_value w;
  let w := mkWriter (kept (writer_ilk w)) (kept (writer_name w)) in
  match writer_ilk w, writer_name w with None, None => None | _, _ => Some w end.

(** [get_value]. *)
Fixpoint get_value (value : V) (path : list string) : option V :=
  match path with
  | [] => Some value
  | key :: rest => v ← json_get value key; get_value v rest
  end.

(** [get_str]. *)
Definition get_str (value : V) (path : list string) : option string :=
  match get_value value path with
  | Some v =>
    match json_as_str v with
    | Some s => if str_is_empty (Prelude.trim s) then Some (json_to_string v) else Some s
    | None => if json_is_null v then None else Some (json_to_string v)
    end
  | None => None
  end.

(** An item of a list of strings, when it is a string and not blank. *)
Definition item_str (item : V) : option string := kept (json_as_str item).

(** [get_string_vec]. *)
Definition get_string_vec (value : V) (path : list string) : option (list string) :=
  match get_value value path with
  | Some v => match json_as_array v with Some l => Some (omap item_str l) | None => None end
  | None => None
  end.

(** [dedup_sort]. *)
Definition dedup_sort (l : list string) : list string := dedup (sort_by String.compare l).

Record TurnRecord := mkTurnRecord {
  from_ilk : string;
  to_ilk : option string;
  ich : string;
  t_msg_type : string;
  t_content : V;
  t_tags : list string;
  t_thread_id : option string;
  t_trace_id : string;
  t_message : V;
  t_writer_ilk : option string;
  t_writer_name : option string }.

Definition or_else {A} (o p : option A) : option A := match o with Some _ => o | None => p end.

(** [parse_turn]. *)
Definition parse_turn (value : V) : option TurnRecord :=
  trace_id ← get_str value ["routing"; "trace_id"];
  let writer := writer_of (get_value value ["meta"; "context"]) in
  let w_ilk := writer ≫= writer_ilk in
  let w_name := writer ≫= writer_name in
  Some (mkTurnRecord
    (unwrap_or "" (or_else (get_str value ["meta"; "src_ilk"]) w_ilk))
    (get_str value ["meta"; "dst_ilk"])
    (unwrap_or "unknown" (get_str value ["meta"; "ich"]))
    (unwrap_or "unknown" (or_else (get_str value ["meta"; "msg_type"]) (get_str value ["meta"; "type"])))
    (unwrap_or json_null (json_get value "payload"))
    (dedup_sort (unwrap_or [] (or_else (get_string_vec value ["payload"; "tags"])
                                       (get_string_vec value ["meta"; "tags"]))))
    (get_str value ["meta"; "thread_id"])
    trace_id value w_ilk w_name).

(** ** The database *)

(** [storage_inbox]; of [last_error] whether it is set. *)
Record InboxRow := mkInboxRow {
  ib_subject : string;
  ib_payload : list byte;
  ib_received_at : Z;
  ib_source_ts : option Z;
  ib_attempts : Z;
  ib_processed_at : option Z;
  ib_last_error : bool }.

Definition set_attempts (n : Z) (r : InboxRow) : InboxRow :=
  mkInboxRow (ib_subject r) (ib_payload r) (ib_received_at r) (ib_source_ts r) n
    (ib_processed_at r) (ib_last_error r).

Definition set_error (e : bool) (r : InboxRow) : InboxRow :=
  mkInboxRow (ib_subject r) (ib_payload r) (ib_received_at r) (ib_source_ts r) (ib_attempts r)
    (ib_processed_at r) e.

Definition set_processed (now : Z) (r : InboxRow) : InboxRow :=
  mkInboxRow (ib_subject r) (ib_payload r) (ib_received_at r) (ib_source_ts r) (ib_attempts r)
    (Some now) (ib_last_error r).

(** A row of [llm_usage]: the record's columns, when it was stored and its charge. *)
Record UsageRow := mkUsageRow {
  ur_record : UsageRecord V;
  ur_ts : Z;
  ur_stored_at : Z;
  ur_charge : UsageCharge }.

Record UsageCounts := mkUsageCounts { refused : gmap string Z; mismatched : Z; unverified : Z }.

Definition no_counts : UsageCounts := mkUsageCounts ∅ 0 0.

(** [Storage]: the database's [storage_inbox] and [turns] by their primary keys, its
    [llm_usage] by its rows, and the counters in memory. *)
Record Db := mkDb {
  inbox : gmap string InboxRow;
  turns : gmap string (Z * TurnRecord);
  llm_usage : list UsageRow;
  counts : UsageCounts }.

Definition set_inbox (ib : gmap string InboxRow) (d : Db) : Db :=
  mkDb ib (turns d) (llm_usage d) (counts d).

Definition set_counts (c : UsageCounts) (d : Db) : Db := mkDb (inbox d) (turns d) (llm_usage d) c.

(** [UPDATE storage_inbox … WHERE dedupe_key = key]. *)
Definition alter_inbox (f : InboxRow -> InboxRow) (key : string) (d : Db) : Db :=
  set_inbox (alter f key (inbox d)) d.

(** The statement of [upsert_stream_rows] for one row: the row's attempts, none when it
    was processed already. *)
Definition upsert_row (now : Z) (ib : gmap string InboxRow) (row : StreamRow)
  : gmap string InboxRow * option Z :=
  match ib !! dedupe_key row with
  | Some r =>
    (<[dedupe_key row := set_error false (set_attempts (ib_attempts r + 1) r)]> ib,
     match ib_processed_at r with Some _ => None | None => Some (ib_attempts r + 1) end)
  | None =>
    (<[dedupe_key row := mkInboxRow (row_subject row) (row_payload row) now (Some (source_ts row)) 1 None false]> ib,
     Some 1)
  end.

(** [upsert_stream_rows]: one transaction. *)
Fixpoint upsert_rows (now : Z) (ib : gmap string InboxRow) (rows : list StreamRow)
  : gmap string InboxRow * list (option Z) :=
  match rows with
  | [] => (ib, [])
  | row :: rest =>
    let '(ib, a) := upsert_row now ib row in
    let '(ib, l) := upsert_rows now ib rest in
    (ib, a :: l)
  end.

(** [persist_turn]. *)
Definition persist_turn (key : string) (turn : TurnRecord) (ts : option Z) (now : Z) (d : Db) : Db :=
  match turns d !! key with
  | Some _ => d
  | None => mkDb (inbox d) (<[key := (unwrap_or now ts, turn)]> (turns d)) (llm_usage d) (counts d)
  end.

(** A row of [llm_usage] that stands in another's way: the same [record_id], or the same
    provider's response. *)
Definition usage_conflict (r s : UsageRecord V) : bool :=
  (record_id r =s record_id s)
  || match provider_response_id r, provider_response_id s with
     | Some a, Some b => a =s b
     | _, _ => false
     end.

(** What a record that landed counts. *)
Definition count_landed (record : UsageRecord V) (charge : UsageCharge) (c : UsageCounts) : UsageCounts :=
  if negb (verified charge) then mkUsageCounts (refused c) (mismatched c) (unverified c + 1)
  else if negb (charge_tenant charge =s u_tenant_id record)
  then mkUsageCounts (refused c) (mismatched c + 1) (unverified c)
  else c.

(** [persist_usage]: none is an error; [db_ok] whether the insert works. *)
Definition persist_usage (record : UsageRecord V) (last_attempt : bool)
  (tenant_of : IdentityLookup -> option (option string)) (now : Z) (db_ok : bool) (d : Db) : option Db :=
  charge ← decide_usage_tenant record last_attempt tenant_of;
  ts ← parse_from_rfc3339 (u_ts record);
  if negb db_ok then None
  else Some (if existsb (fun u => usage_conflict record (ur_record u)) (llm_usage d) then d
             else mkDb (inbox d) (turns d) (llm_usage d ++ [mkUsageRow record ts now charge])
                    (count_landed record charge (counts d))).

(** [process_subject_payload]: none is an error. *)
Definition process_subject_payload (kind : HandlerKind) (payload : list byte) (key : string)
  (ts : option Z) (last_attempt : bool) (tenant_of : IdentityLookup -> option (option string))
  (now : Z) (db_ok : bool) (d : Db) : option Db :=
  value ← json_from_slice payload;
  match kind with
  | HkTurns =>
    turn ← parse_turn value;
    if db_ok then Some (persist_turn key turn ts now d) else None
  | HkUsage =>
    record ← usage_of_value value;
    persist_usage record last_attempt tenant_of now db_ok d
  end.

(** How the database answers the statements of a processing: the insert, the mark on the
    inbox row, and the retry's count of an attempt. *)
Record ProcessIo := mkProcessIo { pio_insert : bool; pio_mark : bool; pio_bump : bool }.

(** [process_inbox_message]; the boolean is whether it returned [Ok]. *)
Definition process_inbox_message (key : string) (kind : HandlerKind) (payload : list byte)
  (ts : option Z) (attempt : Z) (tenant_of : IdentityLookup -> option (option string))
  (now : Z) (io : ProcessIo) (d : Db) : Db * bool :=
  let last_attempt := INBOX_MAX_ATTEMPTS <=? attempt in
  match process_subject_payload kind payload key ts last_attempt tenant_of now (pio_insert io) d with
  | Some d =>
    if pio_mark io
    then (alter_inbox (fun r => set_error false (set_processed now r)) key d, true)
    else (d, false)
  | None => (if pio_mark io then alter_inbox (set_error true) key d else d, false)
  end.

(** ** The retry *)

Definition INBOX_REPLAY_BATCH_SIZE : nat := 200.
Definition INBOX_REPLAY_MAX_ROUNDS : nat := 20.
Definition INBOX_RETRY_MIN_AGE_SECS : Z := 60.
Definition STORAGE_INBOX_RETENTION_HOURS : Z := 24.

(** The collation of the database's text columns. *)
Variable text_cmp : string -> string -> comparison.

(** A row [replay_pending_messages] selects. *)
Definition replayable (now min_age : Z) (r : InboxRow) : bool :=
  match ib_processed_at r with Some _ => false | None => true end
  && (ib_attempts r <? INBOX_MAX_ATTEMPTS) && (ib_received_at r <? now - min_age * SECOND).

Definition inbox_key (p : string * InboxRow) : Z * string := (ib_received_at (snd p), fst p).

Definition pending (now min_age : Z) (d : Db) : list (string * InboxRow) :=
  List.filter (fun p => replayable now min_age (snd p)) (map_to_list (inbox d)).

(** [replay_pending_messages] at work: the rounds left, where its cursor stands, the rows
    it selected and has not taken, and whether the select was full. *)
Record Pass := mkPass {
  pass_min_age : Z;
  pass_rounds : nat;
  pass_after : option (Z * string);
  pass_rows : list (string * InboxRow);
  pass_full : bool }.

Definition new_pass (min_age : Z) : Pass := mkPass min_age INBOX_REPLAY_MAX_ROUNDS None [] true.

(** One row of the retry, as it was selected; false when its statements failed and the
    pass ends. *)
Definition replay_row (key : string) (r : InboxRow) (tenant_of : IdentityLookup -> option (option string))
  (now : Z) (io : ProcessIo) (d : Db) : Db * bool :=
  let attempt := ib_attempts r + 1 in
  let bump f d := if pio_bump io then (alter_inbox f key d, true) else (d, false) in
  match handler_kind_for_subject (ib_subject r) with
  | None => bump (fun r => set_error true (set_attempts (ib_attempts r + 1) r)) d
  | Some kind =>
    match process_inbox_message key kind (ib_payload r) (ib_source_ts r) attempt tenant_of now io d with
    | (d, true) => (d, true)
    | (d, false) => bump (fun r => set_attempts (ib_attempts r + 1) r) d
    end
  end.

(** A step of the loops of [replay_pending_messages]: a row, or the next select. *)
Definition pass_step (tenant_of : IdentityLookup -> option (option string)) (now : Z)
  (io : ProcessIo) (p : Pass) (d : Db) : option Pass * Db :=
  match pass_rows p with
  | (key, r) :: rest =>
    let '(d, go_on) := replay_row key r tenant_of now io d in
    (if go_on then Some (mkPass (pass_min_age p) (pass_rounds p) (Some (inbox_key (key, r))) rest (pass_full p))
     else None, d)
  | [] =>
    match pass_rounds p with
    | S rounds =>
      if pass_full p then
        match fetch inbox_key (cursor_cmp text_cmp) (pass_after p) INBOX_REPLAY_BATCH_SIZE
                (pending now (pass_min_age p) d) with
        | [] => (None, d)
        | rows => (Some (mkPass (pass_min_age p) rounds (pass_after p) rows
                           (INBOX_REPLAY_BATCH_SIZE <=? length rows)%nat), d)
        end
      else (None, d)
    | O => (None, d)
    end
  end.

(** A row [purge_processed_inbox] deletes. *)
Definition purgeable (now : Z) (r : InboxRow) : bool :=
  match ib_processed_at r with
  | Some t => t <? now - STORAGE_INBOX_RETENTION_HOURS * 3600 * SECOND
  | None => false
  end.

Definition INBOX_PURGE_BATCH : Z := 10000.

(** [purge_processed_inbox]: [keys] is the set of rows the database chose. *)
Definition purge_processed_inbox (keys : list string) (d : Db) : Db :=
  set_inbox (foldr delete (inbox d) keys) d.

Definition may_purge (now : Z) (keys : list string) (d : Db) : Prop :=
  Z.of_nat (length keys) <= INBOX_PURGE_BATCH /\
  Forall (fun k => exists r, inbox d !! k = Some r /\ purgeable now r = true) keys.

(** ** Batches *)

(** The rows not processed yet, with their attempts. *)
Definition unprocessed (rows : list StreamRow) (attempts : list (option Z)) : list (StreamRow * Z) :=
  omap (fun p : StreamRow * option Z => match snd p with Some a => Some (fst p, a) | None => None end)
    (zip rows attempts).

(** Why each refused usage record of a batch was. *)
Definition usage_refused (ts : list Taken) : list string :=
  omap (fun t => match t with UsageRefused reason => Some reason | _ => None end) ts.

Definition count_reason (c : UsageCounts) (reason : string) : UsageCounts :=
  mkUsageCounts (partial_alter (fun n => Some (unwrap_or 0 n + 1)) reason (refused c)) (mismatched c) (unverified c).

(** How the database and the mesh answer a batch: the transaction, and the ack. *)
Record IngestIo := mkIngestIo { iio_tx : bool; iio_ack : bool }.

(** [ingest_stream_batch]: the database, the seq it acked, and the rows to process, none on
    an error; [batch] is what the payload reads as. *)
Definition ingest_stream_batch (now : Z) (from : string) (batch : option (StreamBatch V))
  (io : IngestIo) (d : Db) : Db * option Z * option (list (StreamRow * Z)) :=
  if negb (is_stream_node_name from) then (d, None, Some [])
  else match batch with
  | None => (d, None, None)
  | Some batch =>
    match last (sb_records batch) with
    | None => (d, None, Some [])
    | Some last_record =>
      match stream_rows batch from with
      | None => (d, None, None)
      | Some ts =>
        if negb (iio_tx io) then (d, None, None)
        else
          let '(ib, attempts) := upsert_rows now (inbox d) (rows_of ts) in
          let d := set_inbox ib d in
          if negb (iio_ack io) then (d, None, None)
          else (set_counts (fold_left count_reason (usage_refused ts) (counts d)) d,
                Some (sr_seq last_record), Some (unprocessed (rows_of ts) attempts))
      end
    end
  end.

(** ** SY.storage *)

Definition STREAM_INGEST_QUEUE : nat := 64.
Definition STREAM_PROCESS_QUEUE : nat := 64.

(** SY.storage: its [Storage], the queue of its ingest task, the queue of its processing
    task and the rows that one has in hand, and the retry under way. *)
Record Store := mkStore {
  db : Db;
  ingest_queue : list (string * option (StreamBatch V));
  process_queue : list (list (StreamRow * Z));
  processing : list (StreamRow * Z);
  retry : option Pass }.

(** [try_send] into a channel of so many places. *)
Definition try_send {A} (places : nat) (q : list A) (a : A) : list A :=
  if (length q <? places)%nat then q ++ [a] else q.

(** The rows of a batch to the processing task; a full queue leaves them in the inbox. *)
Definition hand_over (rows : option (list (StreamRow * Z))) (q : list (list (StreamRow * Z))) :=
  match rows with
  | None | Some [] => q
  | Some rows => try_send STREAM_PROCESS_QUEUE q rows
  end.

(** What identity has held: the tenant of an ILK. *)
Variable holds : IdentityLookup -> string -> Prop.

Definition answers (tenant_of : IdentityLookup -> option (option string)) : Prop :=
  forall l t, tenant_of l = Some (Some t) -> holds l t.

(** What a step shows: the ack of a batch. *)
Definition Ack : Type := string * StreamBatch V * Z.

(** The main loop's hand-over of a [STREAM_BATCH], the ingest task's batch, the processing
    task's row, the maintenance loop's retry and purge, the report of the counters, and
    a restart, one transaction or one row at a time. *)
Inductive store_step (s : Store) : list Ack -> Store -> Prop :=
| st_receive msg :
    store_step s [] (mkStore (db s) (try_send STREAM_INGEST_QUEUE (ingest_queue s) msg)
                       (process_queue s) (processing s) (retry s))
| st_ingest from batch q now io d ack rows :
    ingest_queue s = (from, batch) :: q ->
    ingest_stream_batch now from batch io (db s) = (d, ack, rows) ->
    store_step s (match ack, batch with Some n, Some b => [(from, b, n)] | _, _ => [] end)
      (mkStore d q (hand_over rows (process_queue s)) (processing s) (retry s))
| st_take rows q :
    processing s = [] -> process_queue s = rows :: q ->
    store_step s [] (mkStore (db s) (ingest_queue s) q rows (retry s))
| st_process row attempt rest tenant_of now io :
    processing s = (row, attempt) :: rest -> answers tenant_of ->
    store_step s []
      (mkStore (fst (process_inbox_message (dedupe_key row) (row_kind row) (row_payload row)
                       (Some (source_ts row)) attempt tenant_of now io (db s)))
         (ingest_queue s) (process_queue s) rest (retry s))
| st_retry_begin min_age :
    retry s = None ->
    store_step s [] (mkStore (db s) (ingest_queue s) (process_queue s) (processing s) (Some (new_pass min_age)))
| st_retry p tenant_of now io p' d :
    retry s = Some p -> answers tenant_of -> pass_step tenant_of now io p (db s) = (p', d) ->
    store_step s [] (mkStore d (ingest_queue s) (process_queue s) (processing s) p')
| st_purge now keys :
    may_purge now keys (db s) ->
    store_step s [] (mkStore (purge_processed_inbox keys (db s)) (ingest_queue s) (process_queue s)
                       (processing s) (retry s))
| st_report :
    store_step s [] (mkStore (set_counts no_counts (db s)) (ingest_queue s) (process_queue s)
                       (processing s) (retry s))
| st_restart :
    store_step s [] (mkStore (set_counts no_counts (db s)) [] [] [] None).

Inductive store_run (s : Store) : list Ack -> Store -> Prop :=
| sr_refl : store_run s [] s
| sr_step acks s1 acks' s2 :
    store_run s acks s1 -> store_step s1 acks' s2 -> store_run s (acks ++ acks') s2.

Definition empty_store : Store := mkStore (mkDb ∅ ∅ [] no_counts) [] [] [] None.

(** ** What is stored, and where it comes from *)

(** A record a router's stream delivered and SY.storage took. *)
Definition admitted (row : StreamRow) : Prop :=
  exists from rec, is_stream_node_name from = true /\
    stream_row (unwrap_or "" (stream_hive from)) rec = Some (Row row).

(** An inbox row that holds such a record. *)
Definition holds_row (key : string) (r : InboxRow) : Prop :=
  exists row, admitted row /\ dedupe_key row = key /\ row_subject row = ib_subject r /\
    row_payload row = ib_payload r.

(** The hive a node's name ends with. *)
Definition name_hive (name : string) : option string :=
  match rsplit_once "@" name with Some (_, h) => Some h | None => None end.

(** A turn that its hive's stream delivered in its sender's name. *)
Definition turn_authentic (turn : TurnRecord) : Prop :=
  exists from sender, is_stream_node_name from = true /\ parse_turn (t_message turn) = Some turn /\
    payload_sender (t_message turn) = Some sender /\
    name_hive sender = Some (unwrap_or "" (stream_hive from)).

(** What a charge rests on, by its producer's role. *)
Definition charge_fits (r : UsageRecord V) (c : UsageCharge) : Prop :=
  match usage_producer (node_name r) with
  | None => False
  | Some UpNode =>
    if verified c then holds (HandlerNode (node_name r)) (charge_tenant c)
    else charge_tenant c = u_tenant_id r
  | Some UpCognition =>
    (verified c = true /\ charge_tenant c = DEFAULT_ROOT_TENANT_ID /\ tenant_source r = TsFallbackRoot) \/
    exists ilk, counterpart_ilk r = Some ilk /\
      if verified c then holds (IlkOf ilk) (charge_tenant c) else charge_tenant c = u_tenant_id r
  | Some UpFrontdesk =>
    verified c = true /\ charge_tenant c = u_tenant_id r
  | Some UpRoot => verified c = true /\ charge_tenant c = DEFAULT_ROOT_TENANT_ID
  end.

(** A usage record that its hive's stream delivered in its producer's name, charged as that
    producer may be. *)
Definition usage_authentic (u : UsageRow) : Prop :=
  exists from v, is_stream_node_name from = true /\ usage_of_value v = Some (ur_record u) /\
    check_usage_record (node_name (ur_record u)) v = None /\
    name_hive (node_name (ur_record u)) = Some (unwrap_or "" (stream_hive from)) /\
    charge_fits (ur_record u) (ur_charge u).

(** A record that landed in its table, itself or the one it repeats. *)
Definition stored (d : Db) (row : StreamRow) : Prop :=
  match row_kind row with
  | HkTurns => is_Some (turns d !! dedupe_key row)
  | HkUsage => exists v record u, json_from_slice (row_payload row) = Some v /\
      usage_of_value v = Some record /\ u ∈ llm_usage d /\ usage_conflict record (ur_record u) = true
  end.

(** Some record of a key landed. *)
Definition landed (d : Db) (key : string) : Prop :=
  exists row, admitted row /\ dedupe_key row = key /\ stored d row.

Definition waits (d : Db) (key : string) : Prop :=
  exists r, inbox d !! key = Some r /\ ib_processed_at r = None.

(** Only additions to the tables. *)
Record grows (d d' : Db) : Prop := {
  grow_turns : turns d ⊆ turns d';
  grow_usage : llm_usage d `prefix_of` llm_usage d' }.

Record tables_ok (d : Db) : Prop := {
  tb_turns : forall k ts turn, turns d !! k = Some (ts, turn) -> turn_authentic turn;
  tb_usage : forall u, u ∈ llm_usage d -> usage_authentic u;
  tb_unique : forall i j u v, llm_usage d !! i = Some u -> llm_usage d !! j = Some v ->
    usage_conflict (ur_record u) (ur_record v) = true -> i = j }.

Record inbox_ok (d : Db) : Prop := {
  in_rows : forall k r, inbox d !! k = Some r -> holds_row k r;
  in_done : forall k r, inbox d !! k = Some r -> is_Some (ib_processed_at r) -> landed d k }.

Record store_ok (s : Store) : Prop := {
  so_tables : tables_ok (db s);
  so_inbox : inbox_ok (db s);
  so_queue : forall row a, (row, a) ∈ processing s ++ concat (process_queue s) -> admitted row;
  so_retry : forall p k r, retry s = Some p -> (k, r) ∈ pass_rows p -> holds_row k r }.

(** *** The records SY.storage takes *)

Lemma stream_row_inv hive rec row : stream_row hive rec = Some (Row row) ->
  name_hive (sr_producer rec) = Some hive /\ row_subject row = sr_subject rec /\
  handler_kind_for_subject (sr_subject rec) = Some (row_kind row) /\
  json_to_vec (sr_payload rec) = Some (row_payload row) /\
  dedupe_key row = message_dedupe_key (row_subject row) (row_payload row) /\
  (row_kind row = HkTurns -> payload_sender (sr_payload rec) = Some (sr_producer rec)) /\
  (row_kind row = HkUsage -> check_usage_record (sr_producer rec) (sr_payload rec) = None).
Proof.
  clear text_cmp writer_of_value holds.
  unfold stream_row, name_hive, handler_kind_for_subject.
  destruct (rsplit_once "@" (sr_producer rec)) as [[? h]|]; cbn; [|done].
  destruct (String.eqb_spec h hive) as [->|]; cbn; [|done].
  destruct (String.eqb_spec (sr_subject rec) SUBJECT_STORAGE_TURNS) as [E|E].
  - cbn. rewrite E. cbn.
    destruct (payload_sender (sr_payload rec)) as [x|]; cbn; [|done].
    destruct (String.eqb_spec x (sr_producer rec)) as [->|]; cbn; [|done].
    destruct (json_to_vec _) as [b|]; [|done]. intros [= <-]. cbn. naive_solver.
  - destruct (String.eqb_spec (sr_subject rec) SUBJECT_STORAGE_USAGE) as [E'|E']; [|done]. cbn.
    destruct (check_usage_record _ _) as [e|] eqn:Ec; [done|].
    destruct (json_to_vec _) as [b|]; [|done]. intros [= <-]. cbn. naive_solver.
Qed.

Lemma admitted_kind row : admitted row -> handler_kind_for_subject (row_subject row) = Some (row_kind row).
Proof. intros (from & rec & _ & (_ & -> & ? & _)%stream_row_inv). done. Qed.

Lemma check_usage_inv producer v : check_usage_record producer v = None ->
  exists role record, usage_producer producer = Some role /\ usage_of_value v = Some record /\
    is_Some (parse_from_rfc3339 (u_ts record)) /\ node_name record = producer /\
    source_fits role record = true /\
    (role = UpRoot \/ tenant_source record = TsFallbackRoot -> u_tenant_id record = DEFAULT_ROOT_TENANT_ID).
Proof.
  clear text_cmp writer_of_value holds.
  unfold check_usage_record. destruct (usage_producer producer) as [role|] eqn:Er; [|done].
  destruct (usage_of_value v) as [record|] eqn:Ev; [|done].
  destruct (parse_from_rfc3339 (u_ts record)) as [t|] eqn:Et; [|done]. cbn [orb].
  destruct (forallb _ _); [|done]. cbn [negb].
  destruct (defect record); [done|].
  destruct (String.eqb_spec (node_name record) producer) as [En|]; [|done]. cbn [negb].
  destruct (source_fits role record) eqn:Es; [|done]. cbn [negb].
  destruct (String.eqb_spec (u_tenant_id record) DEFAULT_ROOT_TENANT_ID) as [Eu|Eu].
  - intros _. exists role, record. rewrite Et. naive_solver.
  - cbn [negb]. rewrite andb_true_r. destruct (_ || _) eqn:Eb; [done|]. intros _.
    exists role, record. rewrite Et. repeat split; try done; eauto.
    apply orb_false_elim in Eb as [Hb1%bool_decide_eq_false Hb2%bool_decide_eq_false]. naive_solver.
Qed.

(** What is charged is what the role of a record's producer allows. *)
Lemma decide_fits record last tenant_of c producer v : answers tenant_of ->
  usage_of_value v = Some record -> check_usage_record producer v = None ->
  decide_usage_tenant record last tenant_of = Some c -> charge_fits record c.
Proof.
  intros Hans Hv (role & r & Hrole & Hv' & _ & Hn & Hfits & Hroot)%check_usage_inv.
  rewrite Hv in Hv'. injection Hv' as <-. unfold decide_usage_tenant, charge_fits. rewrite Hn, Hrole.
  assert (forall l c, match tenant_of l with
      | Some (Some tenant) => Some (mkUsageCharge tenant true)
      | _ => if last then Some (mkUsageCharge (u_tenant_id record) false) else None
      end = Some c -> if verified c then holds l (charge_tenant c) else charge_tenant c = u_tenant_id record) as Hask.
  { intros l c'. destruct (tenant_of l) as [[t|]|] eqn:Et; [|destruct last; [|done]..]; intros [= <-]; cbn; auto. }
  unfold source_fits in Hfits. destruct role, (tenant_source record) eqn:Es; cbn in Hfits |- *; try discriminate Hfits.
  all: try (apply Hask).
  all: try (destruct (counterpart_ilk record) as [ilk|]; [|done]; intros ?%Hask; right; by exists ilk).
  all: intros [= <-]; cbn; try tauto.
  split; [done|]. symmetry. naive_solver.
Qed.

(** On its last attempt a record that passed the checks is charged, whatever identity says. *)
Lemma decide_last record tenant_of producer v :
  usage_of_value v = Some record -> check_usage_record producer v = None ->
  is_Some (decide_usage_tenant record true tenant_of).
Proof.
  intros Hv (role & r & Hrole & Hv' & _ & Hn & Hfits & _)%check_usage_inv.
  rewrite Hv in Hv'. injection Hv' as <-. unfold decide_usage_tenant. rewrite Hn, Hrole.
  unfold source_fits in Hfits.
  destruct role, (tenant_source record); cbn in Hfits |- *; try discriminate Hfits; try done.
  all: try (destruct (counterpart_ilk record) as [ilk|]; [|done]).
  all: destruct (tenant_of _) as [[t|]|]; eauto.
Qed.

(** *** The tables *)

Lemma grows_refl d : grows d d.
Proof. by split. Qed.

Lemma grows_trans d1 d2 d3 : grows d1 d2 -> grows d2 d3 -> grows d1 d3.
Proof. intros [] []. split; by etrans. Qed.

Lemma stored_mono d d' row : grows d d' -> stored d row -> stored d' row.
Proof.
  intros [Ht [l Hl]]. unfold stored. destruct (row_kind row).
  - intros [x Hx]. exists x. by eapply lookup_weaken.
  - intros (v & r & u & Hj & Hv & Hu & Hc). exists v, r, u. rewrite Hl, elem_of_app. auto.
Qed.

Lemma landed_mono d d' key : grows d d' -> landed d key -> landed d' key.
Proof. intros Hg (row & Ha & Hk & Hs). exists row. eauto using stored_mono. Qed.

Lemma usage_conflict_sym (r r' : UsageRecord V) : usage_conflict r r' = usage_conflict r' r.
Proof.
  unfold usage_conflict. rewrite String.eqb_sym. f_equal.
  destruct (provider_response_id r), (provider_response_id r'); try done. apply String.eqb_sym.
Qed.

Lemma usage_conflict_refl (r : UsageRecord V) : usage_conflict r r = true.
Proof. unfold usage_conflict. by rewrite String.eqb_refl. Qed.

Context `{HJ : !JsonLaws V}.

Lemma parse_turn_message v turn : parse_turn v = Some turn -> t_message turn = v.
Proof. unfold parse_turn. destruct (get_str v ["routing"; "trace_id"]%string); cbn; [|done]. by intros [= <-]. Qed.

Lemma admitted_turn row v turn : admitted row -> row_kind row = HkTurns ->
  json_from_slice (row_payload row) = Some v -> parse_turn v = Some turn -> turn_authentic turn.
Proof.
  intros (from & rec & Hf & (Hh & _ & _ & Hp & _ & Ht & _)%stream_row_inv) Hk Hv Hturn.
  apply json_roundtrip in Hp. rewrite Hv in Hp. injection Hp as ->.
  exists from, (sr_producer rec). rewrite (parse_turn_message _ _ Hturn). auto.
Qed.

Lemma admitted_usage row v record : admitted row -> row_kind row = HkUsage ->
  json_from_slice (row_payload row) = Some v -> usage_of_value v = Some record ->
  exists from, is_stream_node_name from = true /\ check_usage_record (node_name record) v = None /\
    name_hive (node_name record) = Some (unwrap_or "" (stream_hive from)).
Proof.
  intros (from & rec & Hf & (Hh & _ & _ & Hp & _ & _ & Hu)%stream_row_inv) Hk Hv Hrec.
  apply json_roundtrip in Hp. rewrite Hv in Hp. injection Hp as ->. specialize (Hu Hk).
  pose proof (check_usage_inv _ _ Hu) as (role & r & _ & Hv' & _ & Hn & _).
  rewrite Hrec in Hv'. injection Hv' as <-. exists from. by rewrite Hn.
Qed.

(** The insertion of one usage record keeps the table free of repeats. *)
Lemma unique_snoc l u :
  (forall i j a b, l !! i = Some a -> l !! j = Some b ->
     usage_conflict (ur_record a) (ur_record b) = true -> i = j) ->
  existsb (fun x => usage_conflict (ur_record u) (ur_record x)) l = false ->
  forall i j a b, (l ++ [u]) !! i = Some a -> (l ++ [u]) !! j = Some b ->
    usage_conflict (ur_record a) (ur_record b) = true -> i = j.
Proof.
  intros Hl Hu.
  assert (forall i x, l !! i = Some x -> usage_conflict (ur_record u) (ur_record x) = false) as Hno.
  { intros i x Hx. apply not_true_iff_false. intros Hc. apply not_true_iff_false in Hu. apply Hu.
    apply existsb_exists. exists x. split; [by eapply list_elem_of_In, list_elem_of_lookup_2|done]. }
  intros i j a b [Hi|[Hi Hi']]%lookup_app_Some [Hj|[Hj Hj']]%lookup_app_Some Hc; [by eauto|..].
  - apply list_lookup_singleton_Some in Hj' as [_ <-]. rewrite usage_conflict_sym, (Hno i a) in Hc by done. done.
  - apply list_lookup_singleton_Some in Hi' as [_ <-]. rewrite (Hno j b) in Hc by done. done.
  - apply list_lookup_singleton_Some in Hi' as [? _], Hj' as [? _]. lia.
Qed.

(** What a processing that works does to the tables. *)
Lemma process_subject_ok row ts last tenant_of now ok d d' : admitted row -> answers tenant_of -> tables_ok d ->
  process_subject_payload (row_kind row) (row_payload row) (dedupe_key row) ts last tenant_of now ok d = Some d' ->
  tables_ok d' /\ grows d d' /\ inbox d' = inbox d /\ stored d' row.
Proof.
  intros Ha Hans Ht. unfold process_subject_payload, stored.
  destruct (json_from_slice _) as [v|] eqn:Ev; cbn; [|done]. destruct (row_kind row) eqn:Ek.
  - destruct (parse_turn v) as [turn|] eqn:Etu; cbn; [|done]. destruct ok; [|done]. intros [= <-].
    unfold persist_turn. destruct (turns d !! dedupe_key row) as [x|] eqn:Ex.
    { split; [done|]. split; [apply grows_refl|]. eauto. }
    cbn. split; [|split; [split; cbn; [by apply insert_subseteq|done]|]].
    + destruct Ht as [H1 H2 H3]. split; cbn; [|done..]. intros k t tu.
      rewrite lookup_insert_Some. intros [[_ [= _ <-]]|[_ ?]]; [by eapply admitted_turn|by eauto].
    + rewrite lookup_insert_eq. eauto.
  - destruct (usage_of_value v) as [record|] eqn:Er; cbn; [|done]. unfold persist_usage.
    destruct (decide_usage_tenant _ _ _) as [c|] eqn:Ec; cbn; [|done].
    destruct (parse_from_rfc3339 _) as [t|]; cbn; [|done]. destruct ok; cbn; [|done]. intros [= <-].
    destruct (existsb _ _) eqn:Ee.
    { apply existsb_exists in Ee as (u & Hu%list_elem_of_In & Hc).
      split; [done|]. split; [apply grows_refl|]. split; [done|]. by exists v, record, u. }
    destruct (admitted_usage row v record Ha Ek Ev Er) as (from & Hf & Hch & Hh).
    split; [|split; [split; cbn; [done|by eexists]|]].
    + destruct Ht as [H1 H2 H3]. split; cbn; [done| |].
      * intros u [?|?%list_elem_of_singleton]%elem_of_app; [by apply H2|]. subst u. exists from, v. cbn.
        eauto 10 using decide_fits.
      * by apply unique_snoc.
    + split; [done|]. exists v, record, (mkUsageRow record t now c). cbn. rewrite elem_of_app, list_elem_of_singleton.
      by rewrite usage_conflict_refl; auto.
Qed.

(** A statement on an inbox row that keeps what the row holds. *)
Definition keeps_row (f : InboxRow -> InboxRow) : Prop :=
  forall r, ib_subject (f r) = ib_subject r /\ ib_payload (f r) = ib_payload r.

Definition keeps_processed (f : InboxRow -> InboxRow) : Prop :=
  forall r, ib_processed_at (f r) = ib_processed_at r.

Lemma tables_inbox ib d : tables_ok d -> tables_ok (set_inbox ib d).
Proof. intros []. by split. Qed.

Lemma holds_row_ext k r r' : ib_subject r' = ib_subject r -> ib_payload r' = ib_payload r ->
  holds_row k r -> holds_row k r'.
Proof. intros E1 E2 (row & ? & ? & ? & ?). exists row. by rewrite E1, E2. Qed.

Lemma alter_inbox_ok f key d : keeps_row f -> keeps_processed f \/ landed d key -> inbox_ok d ->
  inbox_ok (alter_inbox f key d).
Proof.
  intros Hf Hp [H1 H2]. split; intros k r; cbn; rewrite lookup_alter_Some.
  - intros [(-> & r0 & Hr & ->)|[_ Hr]]; [|by eauto].
    destruct (Hf r0) as [E1 E2]. eapply holds_row_ext; [done..|by eauto].
  - intros [(-> & r0 & Hr & ->)|[_ Hr]] Hdone.
    + destruct Hp as [Hp|(row & ? & ? & ?)]; [|by exists row].
      rewrite Hp in Hdone. exact (H2 _ _ Hr Hdone).
    + exact (H2 _ _ Hr Hdone).
Qed.

(** Steps that change only tables that grow and inbox rows. *)
Record moves (d d' : Db) : Prop := {
  mv_tables : tables_ok d';
  mv_inbox : inbox_ok d';
  mv_grows : grows d d';
  mv_keys : forall k, is_Some (inbox d !! k) -> is_Some (inbox d' !! k) }.

Lemma moves_refl d : tables_ok d -> inbox_ok d -> moves d d.
Proof. intros. split; auto using grows_refl. Qed.

Lemma moves_trans d1 d2 d3 : moves d1 d2 -> moves d2 d3 -> moves d1 d3.
Proof. intros [] []. split; eauto using grows_trans. Qed.

Lemma moves_alter f key d : tables_ok d -> inbox_ok d -> keeps_row f ->
  keeps_processed f \/ landed d key -> moves d (alter_inbox f key d).
Proof.
  intros Ht Hi Hf Hp. split; [by apply tables_inbox|by apply alter_inbox_ok|by split|].
  intros k. cbn. by rewrite lookup_alter_is_Some.
Qed.

Lemma inbox_grows d d' : inbox_ok d -> inbox d' = inbox d -> grows d d' -> inbox_ok d'.
Proof. intros [H1 H2] E Hg. split; rewrite E; eauto using landed_mono. Qed.

Lemma process_moves row ts attempt tenant_of now io d : admitted row -> answers tenant_of ->
  tables_ok d -> inbox_ok d ->
  moves d (fst (process_inbox_message (dedupe_key row) (row_kind row) (row_payload row) ts attempt tenant_of now io d)).
Proof.
  intros Ha Hans Ht Hi. unfold process_inbox_message.
  destruct (process_subject_payload _ _ _ _ _ _ _ _ d) as [d'|] eqn:E.
  - apply process_subject_ok in E as (Ht' & Hg & Eib & Hs); [|done..].
    assert (moves d d') as Hm.
    { split; [done|by eapply inbox_grows|done|by rewrite Eib]. }
    destruct (pio_mark io); [|done]. cbn. eapply moves_trans; [exact Hm|].
    apply moves_alter; [apply Hm..|done|]. right. by exists row.
  - destruct (pio_mark io); cbn; [|by apply moves_refl]. apply moves_alter; [done..|]. by left.
Qed.

Lemma replay_moves key r tenant_of now io d : holds_row key r -> answers tenant_of ->
  tables_ok d -> inbox_ok d -> moves d (fst (replay_row key r tenant_of now io d)).
Proof.
  intros (row & Ha & <- & Es & Ep) Hans Ht Hi. unfold replay_row.
  rewrite <- Es, <- Ep, (admitted_kind row Ha).
  pose proof (process_moves row (ib_source_ts r) (ib_attempts r + 1) tenant_of now io d Ha Hans Ht Hi) as Hm.
  destruct (process_inbox_message _ _ _ _ _ _ _ _ d) as [d' [|]]; [done|]. cbn in Hm.
  destruct (pio_bump io); [|done]. cbn. eapply moves_trans; [exact Hm|].
  apply moves_alter; [apply Hm..|done|]. by left.
Qed.

Lemma pending_elem now min_age d k r : (k, r) ∈ pending now min_age d ->
  inbox d !! k = Some r /\ replayable now min_age r = true.
Proof.
  intros [Hin%list_elem_of_In Hr]%list_elem_of_In%filter_In. split; [by apply elem_of_map_to_list|done].
Qed.

Lemma fetch_subset {R K} (key : R -> K) kcmp after n rows x : x ∈ fetch key kcmp after n rows -> x ∈ rows.
Proof.
  unfold fetch. intros Hx%elem_of_take. destruct Hx as (i & Hx & _).
  apply list_elem_of_lookup_2, elem_of_sort_by, list_elem_of_In, filter_In in Hx as [Hx _].
  by apply list_elem_of_In.
Qed.

Lemma pass_moves p tenant_of now io d p' d' : answers tenant_of -> tables_ok d -> inbox_ok d ->
  (forall k r, (k, r) ∈ pass_rows p -> holds_row k r) -> pass_step tenant_of now io p d = (p', d') ->
  moves d d' /\ forall q k r, p' = Some q -> (k, r) ∈ pass_rows q -> holds_row k r.
Proof.
  intros Hans Ht Hi Hp. unfold pass_step. destruct (pass_rows p) as [|[key r] rest].
  - assert (moves d d) as Hm by by apply moves_refl.
    destruct (pass_rounds p) as [|n]; [by intros [= <- <-]|].
    destruct (pass_full p); [|by intros [= <- <-]].
    destruct (fetch _ _ _ _ _) as [|x rows] eqn:Ef; [by intros [= <- <-]|].
    intros [= <- <-]. split; [done|]. intros q k r [= <-]. cbn [pass_rows]. rewrite <- Ef.
    intros [Hk _]%fetch_subset%pending_elem. by apply Hi.
  - pose proof (replay_moves key r tenant_of now io d (Hp _ _ (ltac:(left))) Hans Ht Hi) as Hm.
    destruct (replay_row _ _ _ _ _ _) as [d1 b]. intros [= <- <-]. split; [done|].
    destruct b; [|done]. intros q k r' [= <-]. cbn. intros Hin. apply Hp. by right.
Qed.

(** *** A batch's rows *)

Lemma stream_rows_admitted batch from ts row : is_stream_node_name from = true ->
  stream_rows batch from = Some ts -> row ∈ rows_of ts -> admitted row.
Proof.
  intros Hf. unfold stream_rows. revert ts.
  induction (sb_records batch) as [|rec l IH]; cbn; intros ts.
  - intros [= <-]. by intros ?%elem_of_nil.
  - destruct (stream_row _ rec) as [t|] eqn:Er; [|done].
    destruct (stream_rows_of _ l) as [ts'|]; [|done]. intros [= <-].
    unfold rows_of. cbn. destruct t as [r| |reason]; [|by apply IH..].
    intros [->|?]%elem_of_cons; [by exists from, rec|by eapply IH].
Qed.

(** Every record of a batch SY.storage takes has its row. *)
Lemma stream_rows_complete batch from ts rec row : stream_rows batch from = Some ts ->
  rec ∈ sb_records batch -> stream_row (unwrap_or "" (stream_hive from)) rec = Some (Row row) ->
  row ∈ rows_of ts.
Proof.
  unfold stream_rows. revert ts. induction (sb_records batch) as [|rec' l IH]; cbn; intros ts.
  - by intros _ ?%elem_of_nil.
  - destruct (stream_row _ rec') as [t|] eqn:Er; [|done].
    destruct (stream_rows_of _ l) as [ts'|]; [|done]. intros [= <-] [->|Hin]%elem_of_cons Hrow.
    + rewrite Er in Hrow. injection Hrow as ->. left.
    + unfold rows_of. cbn. specialize (IH ts' eq_refl Hin Hrow). destruct t; [by right|done..].
Qed.

Lemma upsert_row_ok now row d : admitted row -> tables_ok d -> inbox_ok d ->
  moves d (set_inbox (fst (upsert_row now (inbox d) row)) d) /\
  is_Some (fst (upsert_row now (inbox d) row) !! dedupe_key row).
Proof.
  intros Ha Ht [H1 H2]. unfold upsert_row.
  assert (forall r, holds_row (dedupe_key row) r -> (is_Some (ib_processed_at r) -> landed d (dedupe_key row)) ->
    moves d (set_inbox (<[dedupe_key row := r]> (inbox d)) d)) as Hput.
  { intros r Hr Hd. split; [by apply tables_inbox|split|by split|].
    - intros k r'. cbn. rewrite lookup_insert_Some. intros [[<- <-]|[_ ?]]; eauto.
    - intros k r'. cbn. rewrite lookup_insert_Some. intros [[<- <-]|[_ Hr']] Hdone; [by apply Hd|].
      exact (H2 _ _ Hr' Hdone).
    - intros k. cbn. rewrite lookup_insert_is_Some. destruct (decide (dedupe_key row = k)); auto. }
  destruct (inbox d !! dedupe_key row) as [r|] eqn:E; cbn; rewrite lookup_insert_eq;
    (split; [|by eauto]); apply Hput; cbn.
  - by eapply holds_row_ext; [..|by eapply H1].
  - intros Hd. exact (H2 _ _ E Hd).
  - by exists row.
  - by intros [? [=]].
Qed.

Lemma upsert_rows_ok now rows d : Forall admitted rows -> tables_ok d -> inbox_ok d ->
  moves d (set_inbox (fst (upsert_rows now (inbox d) rows)) d) /\
  forall row, row ∈ rows -> is_Some (fst (upsert_rows now (inbox d) rows) !! dedupe_key row).
Proof.
  intros Hrows. revert d. induction Hrows as [|row rows Ha _ IH]; intros d Ht Hi; cbn.
  - split; [|by intros ? ?%elem_of_nil]. destruct d. by apply moves_refl.
  - pose proof (upsert_row_ok now row d Ha Ht Hi) as [Hm Hk].
    destruct (upsert_row now (inbox d) row) as [ib a]. cbn in Hm, Hk.
    destruct (IH (set_inbox ib d)) as [Hm' Hk']; [apply Hm..|]. cbn in Hm', Hk'.
    destruct (upsert_rows now ib rows) as [ib' l]. cbn in *.
    split; [exact (moves_trans _ _ _ Hm Hm')|]. intros row' [->|Hin]%elem_of_cons; [|by apply Hk'].
    apply (mv_keys _ _ Hm'). cbn. done.
Qed.

Lemma moves_counts c d d' : moves d d' -> moves d (set_counts c d').
Proof. intros [[] [] [] ?]. by repeat split. Qed.

Lemma unprocessed_elem rows attempts row a : (row, a) ∈ unprocessed rows attempts -> row ∈ rows.
Proof.
  unfold unprocessed. intros ([row' o] & Hin & E)%list_elem_of_omap. cbn in E.
  destruct o as [a'|]; [|done]. injection E as -> ->. by apply elem_of_zip_l in Hin.
Qed.

(** What a batch does: nothing is acked before it is in the inbox. *)
Lemma ingest_ok now from batch io d d' ack rows : tables_ok d -> inbox_ok d ->
  ingest_stream_batch now from batch io d = (d', ack, rows) ->
  moves d d' /\ (forall l row a, rows = Some l -> (row, a) ∈ l -> admitted row) /\
  (forall n, ack = Some n -> exists b, batch = Some b /\ is_stream_node_name from = true /\
     sr_seq <$> last (sb_records b) = Some n /\
     forall rec row, rec ∈ sb_records b ->
       stream_row (unwrap_or "" (stream_hive from)) rec = Some (Row row) -> is_Some (inbox d' !! dedupe_key row)).
Proof.
  intros Ht Hi. assert (moves d d) as Hm by by apply moves_refl.
  assert (forall (l : list (StreamRow * Z)) row a, Some [] = Some l -> (row, a) ∈ l -> admitted row) as Hnil.
  { by intros l row a [= <-] ?%elem_of_nil. }
  unfold ingest_stream_batch. destruct (is_stream_node_name from) eqn:Hf; cbn [negb]; [|by intros [= <- <- <-]].
  destruct batch as [b|]; [|by intros [= <- <- <-]].
  destruct (last (sb_records b)) as [lr|] eqn:El; [|by intros [= <- <- <-]].
  destruct (stream_rows b from) as [ts|] eqn:Es; [|by intros [= <- <- <-]].
  destruct (iio_tx io); cbn [negb]; [|by intros [= <- <- <-]].
  assert (Forall admitted (rows_of ts)) as Ha.
  { apply Forall_forall. intros row. by eapply stream_rows_admitted. }
  pose proof (upsert_rows_ok now (rows_of ts) d Ha Ht Hi) as [Hu Hk].
  destruct (upsert_rows now (inbox d) (rows_of ts)) as [ib attempts]. cbn in Hu, Hk.
  destruct (iio_ack io); cbn [negb]; [|by intros [= <- <- <-]]. intros [= <- <- <-].
  split; [by apply moves_counts|]. split.
  - intros l row a [= <-] Hin%unprocessed_elem. rewrite Forall_forall in Ha. by apply Ha.
  - intros n [= <-]. exists b. rewrite El. repeat split; try done. intros rec row Hrec Hrow. cbn.
    eapply Hk, stream_rows_complete; done.
Qed.

(** The inbox holds a key, or its record landed. *)
Definition known (d : Db) (key : string) : Prop := is_Some (inbox d !! key) \/ landed d key.

Lemma moves_known d d' key : moves d d' -> known d key -> known d' key.
Proof. intros [_ _ Hg Hk] [H|H]; [left; by apply Hk|right; by eapply landed_mono]. Qed.

Lemma delete_keys_lookup keys (m : gmap string InboxRow) k :
  foldr delete m keys !! k = if decide (k ∈ keys) then None else m !! k.
Proof.
  induction keys as [|k' keys IH]; cbn; [done|]. destruct (decide (k' = k)) as [->|Hne].
  - rewrite lookup_delete_eq. by rewrite decide_True by left.
  - rewrite lookup_delete_ne, IH by done. apply decide_ext. rewrite elem_of_cons. naive_solver.
Qed.

(** The purge takes no record that did not land. *)
Lemma purge_ok now keys d : may_purge now keys d -> tables_ok d -> inbox_ok d ->
  tables_ok (purge_processed_inbox keys d) /\ inbox_ok (purge_processed_inbox keys d) /\
  grows d (purge_processed_inbox keys d) /\ forall k, known d k -> known (purge_processed_inbox keys d) k.
Proof.
  intros [_ Hp] Ht [H1 H2]. unfold purge_processed_inbox. rewrite Forall_forall in Hp.
  assert (forall k r, foldr delete (inbox d) keys !! k = Some r -> inbox d !! k = Some r) as Hsub.
  { intros k r. rewrite delete_keys_lookup. by case_decide. }
  split; [by apply tables_inbox|]. split; [split; cbn; intros k r Hr|].
  - eauto.
  - intros Hd. exact (H2 _ _ (Hsub _ _ Hr) Hd).
  - split; [by split|]. intros k [[r Hr]|Hl]; [|by right]. unfold known. cbn. rewrite delete_keys_lookup.
    case_decide as Hin; [|by left; eauto]. right. destruct (Hp k Hin) as (r' & Hr' & Hpu).
    rewrite Hr' in Hr. injection Hr as ->. apply (H2 _ _ Hr'). unfold purgeable in Hpu.
    destruct (ib_processed_at r); [by eauto|done].
Qed.

Lemma hand_over_elem rows q row a : (row, a) ∈ concat (hand_over rows q) ->
  (row, a) ∈ concat q \/ exists l, rows = Some l /\ (row, a) ∈ l.
Proof.
  unfold hand_over, try_send. destruct rows as [[|x l]|]; auto. case_match; auto.
  rewrite concat_app, elem_of_app. cbn. rewrite app_nil_r. naive_solver.
Qed.

(** Every step keeps the invariant, only adds to the tables, and forgets no key. *)
Lemma store_step_ok s acks s' : store_ok s -> store_step s acks s' ->
  store_ok s' /\ grows (db s) (db s') /\ forall k, known (db s) k -> known (db s') k.
Proof.
  intros [Ht Hi Hq Hr] Hstep.
  assert (forall d', moves (db s) d' -> tables_ok d' /\ inbox_ok d' /\ grows (db s) d' /\
    forall k, known (db s) k -> known d' k) as Hmv.
  { intros d' Hm. repeat split; try apply Hm. intros k. by apply moves_known. }
  assert (moves (db s) (db s)) as Hid by by apply moves_refl.
  destruct Hstep as [msg|from batch q now io d ack rows Eq Ein|rows q Ep Eq|row a rest tof now io Ep Hans
    |min_age En|p tof now io p' d Ep Hans Estep|now keys Hp| |].
  - destruct (Hmv _ Hid) as (? & ? & ? & ?). by split; [split|].
  - apply ingest_ok in Ein as (Hm & Hrows & _); [|done..]. destruct (Hmv _ Hm) as (? & ? & ? & ?).
    split; [split; cbn; try done|done]. intros row a [Hin|[Hin|(l & -> & Hin)]%hand_over_elem]%elem_of_app; [| |by eauto].
    all: eapply Hq, elem_of_app; eauto.
  - destruct (Hmv _ Hid) as (? & ? & ? & ?). split; [split; cbn; try done|done].
    intros row a Hin. apply (Hq row a). by rewrite Ep, Eq.
  - destruct (Hmv _ (process_moves row (Some (source_ts row)) a tof now io (db s)
      (Hq row a (ltac:(rewrite Ep; left))) Hans Ht Hi)) as (? & ? & ? & ?).
    split; [split; cbn; try done|done]. intros row' a' Hin. apply (Hq row' a'). rewrite Ep. by right.
  - destruct (Hmv _ Hid) as (? & ? & ? & ?). split; [split; cbn; try done|done].
    intros p k r [= <-]. by intros ?%elem_of_nil.
  - apply pass_moves in Estep as [Hm Hp']; [|done..|by eauto]. destruct (Hmv _ Hm) as (? & ? & ? & ?).
    split; [split; cbn; try done; eauto|done].
  - destruct (purge_ok _ _ _ Hp Ht Hi) as (? & ? & ? & ?). by split; [split|].
  - destruct (Hmv _ (moves_counts no_counts _ _ Hid)) as (? & ? & ? & ?). by split; [split|].
  - destruct (Hmv _ (moves_counts no_counts _ _ Hid)) as (? & ? & ? & ?). split; [split; cbn; try done|done].
    by intros row a ?%elem_of_nil.
Qed.

Lemma store_run_ok s acks s' : store_ok s -> store_run s acks s' ->
  store_ok s' /\ grows (db s) (db s') /\ forall k, known (db s) k -> known (db s') k.
Proof.
  intros Hs. induction 1 as [|acks s1 acks' s2 _ (Hok & Hg & Hk) Hstep].
  - split; [done|]. split; [apply grows_refl|done].
  - destruct (store_step_ok _ _ _ Hok Hstep) as (? & ? & ?). split; [done|].
    split; [by eapply grows_trans|auto].
Qed.

Lemma empty_store_ok : store_ok empty_store.
Proof.
  split; [split| |by intros ? ? ?%elem_of_nil|done]; cbn.
  - intros k ts turn. by rewrite lookup_empty.
  - by intros ? ?%elem_of_nil.
  - done.
  - split; intros k r; cbn; by rewrite lookup_empty.
Qed.

Lemma dedupe_key_subject row row' : admitted row -> admitted row' -> dedupe_key row = dedupe_key row' ->
  row_subject row = row_subject row'.
Proof.
  assert (forall row, admitted row -> dedupe_key row = message_dedupe_key (row_subject row) (row_payload row) /\
    (row_subject row = SUBJECT_STORAGE_TURNS \/ row_subject row = SUBJECT_STORAGE_USAGE)) as Hs.
  { intros r (from & rec & _ & (_ & Es & Hk & _ & Hd & _)%stream_row_inv). split; [done|].
    rewrite Es. revert Hk. unfold handler_kind_for_subject.
    destruct (String.eqb_spec (sr_subject rec) SUBJECT_STORAGE_TURNS); [by left|].
    destruct (String.eqb_spec (sr_subject rec) SUBJECT_STORAGE_USAGE); [by right|done]. }
  intros [E H]%Hs [E' H']%Hs Hkey. rewrite E, E' in Hkey. unfold message_dedupe_key in Hkey.
  apply (f_equal (String.get 8)) in Hkey.
  destruct H as [E1|E1], H' as [E2|E2]; rewrite E1, E2 in Hkey |- *; try done; lazy in Hkey; done.
Qed.

(** *** Theorems *)

(** C10. Nothing acked is lost. SY.storage acks a batch with the seq of its last record, and from
    then on, through any interleaving of its tasks, failed statements, purges and
    restarts, each record of the batch that it takes waits in the inbox, or a record of
    the same key is in its table. *)
Theorem acked_never_lost acks s from batch n rec row : store_run empty_store acks s ->
  (from, batch, n) ∈ acks -> rec ∈ sb_records batch ->
  stream_row (unwrap_or "" (stream_hive from)) rec = Some (Row row) ->
  sr_seq <$> last (sb_records batch) = Some n /\
  (waits (db s) (dedupe_key row) \/
   exists row', admitted row' /\ dedupe_key row' = dedupe_key row /\ row_subject row' = row_subject row /\
     stored (db s) row').
Proof.
  intros Hrun Hack Hrec Hrow.
  assert (is_stream_node_name from = true /\ sr_seq <$> last (sb_records batch) = Some n /\
    known (db s) (dedupe_key row)) as (Hf & Hn & Hk).
  { clear -Hrun Hack Hrec Hrow HJ. induction Hrun as [|acks s1 acks' s2 Hrun IH Hstep]; [by apply elem_of_nil in Hack|].
    destruct (store_run_ok _ _ _ empty_store_ok Hrun) as (Hok & _ & _).
    destruct (store_step_ok _ _ _ Hok Hstep) as (_ & _ & Hk).
    apply elem_of_app in Hack as [Hack|Hack]; [naive_solver|]. clear IH Hk.
    destruct Hstep as [|from' batch' q now io d ack rows Eq Ein| | | | | | |]; try by apply elem_of_nil in Hack.
    apply ingest_ok in Ein as (_ & _ & Ha); [|apply Hok..]. destruct ack as [n'|]; [|by apply elem_of_nil in Hack].
    destruct (Ha n' eq_refl) as (b & -> & Hf & Hn & Hin). apply list_elem_of_singleton in Hack as [= -> -> ->].
    repeat split; [done..|]. left. cbn. by eapply Hin. }
  split; [done|]. destruct (store_run_ok _ _ _ empty_store_ok Hrun) as ([_ [_ Hdone] _ _] & _ & _).
  assert (landed (db s) (dedupe_key row) -> exists row', admitted row' /\ dedupe_key row' = dedupe_key row /\
    row_subject row' = row_subject row /\ stored (db s) row') as Hl.
  { intros (row' & Ha & Hd & Hs). exists row'. repeat split; try done. apply dedupe_key_subject; try done.
    by exists from, rec. }
  destruct Hk as [[r Hr]|Hk]; [|by auto]. destruct (ib_processed_at r) eqn:Ep; [right|left; by exists r].
  apply Hl. apply (Hdone _ _ Hr). by rewrite Ep.
Qed.


(** C39. A usage record lands once and a stored row is final: however often a record is delivered,
    retried or raced by the two tasks, no two rows of [llm_usage] share a record id or a
    provider's response id, and every later state keeps each row of [llm_usage], in its
    place, and each row of [turns] as they are. *)
Theorem usage_lands_once acks s acks' s' : store_run empty_store acks s -> store_run s acks' s' ->
  (forall i j u v, llm_usage (db s) !! i = Some u -> llm_usage (db s) !! j = Some v -> i <> j ->
     record_id (ur_record u) <> record_id (ur_record v) /\
     (is_Some (provider_response_id (ur_record u)) ->
        provider_response_id (ur_record u) <> provider_response_id (ur_record v))) /\
  (forall i u, llm_usage (db s) !! i = Some u -> llm_usage (db s') !! i = Some u) /\
  (forall key t, turns (db s) !! key = Some t -> turns (db s') !! key = Some t).
Proof.
  intros (Hok & _ & _)%store_run_ok (_ & [Ht Hu] & _)%store_run_ok; [|done|apply empty_store_ok]. split.
  - intros i j u v Hi Hj Hne. pose proof (tb_unique _ (so_tables _ Hok) i j u v Hi Hj) as Huniq.
    unfold usage_conflict in Huniq. destruct (String.eqb_spec (record_id (ur_record u)) (record_id (ur_record v))).
    { by specialize (Huniq eq_refl). }
    split; [done|]. intros [a Ha] E. rewrite <- E, Ha, String.eqb_refl in Huniq. by specialize (Huniq eq_refl).
  - split; [intros i u Hi; by eapply prefix_lookup_Some|]. intros key t Hk. by eapply lookup_weaken.
Qed.

(** Spend is never dropped for a lookup: at its last attempt a usage record SY.storage took is
    stored whatever identity answers, if the database works. *)
Theorem usage_lands_at_last_attempt row ts attempt tenant_of now bump d : admitted row ->
  row_kind row = HkUsage -> INBOX_MAX_ATTEMPTS <= attempt ->
  exists d', process_inbox_message (dedupe_key row) (row_kind row) (row_payload row) ts attempt tenant_of now
    (mkProcessIo true true bump) d = (d', true) /\ stored d' row.
Proof.
  intros Ha Hk Hat. pose proof Ha as (from & rec & _ & (_ & _ & _ & Hp & _ & _ & Hu)%stream_row_inv).
  specialize (Hu Hk). apply json_roundtrip in Hp.
  pose proof (check_usage_inv _ _ Hu) as (role & record & _ & Hv & [t Ht] & _).
  destruct (decide_last record tenant_of _ _ Hv Hu) as [c Hc].
  unfold process_inbox_message, process_subject_payload, stored. rewrite Hk, Hp. cbn. rewrite Hv. cbn.
  unfold persist_usage. apply Z.leb_le in Hat. rewrite Hat, Hc. cbn. rewrite Ht. cbn.
  eexists. split; [done|]. exists (sr_payload rec), record. cbn.
  destruct (existsb _ _) eqn:Ee; cbn.
  - apply existsb_exists in Ee as (u & ?%list_elem_of_In & ?). by exists u.
  - eexists. repeat split; [done..| |]; [by rewrite elem_of_app, list_elem_of_singleton; right|].
    apply usage_conflict_refl.
Qed.

(** *** The retry's order *)

Context `{Htext : !TotalOrder text_cmp}.

(** A pass on a database nothing else touches: the keys it tried, and the database it
    left; [io] is how each row's statements fare. *)
Fixpoint run_pass (fuel : nat) (tenant_of : IdentityLookup -> option (option string)) (now : Z)
  (io : string -> ProcessIo) (p : Pass) (d : Db) : option (list string * Db) :=
  match fuel with
  | O => None
  | S fuel =>
    let key := match pass_rows p with (k, _) :: _ => Some k | [] => None end in
    match pass_step tenant_of now (io (unwrap_or "" key)) p d with
    | (None, d) => Some (option_list key, d)
    | (Some p, d) =>
      match run_pass fuel tenant_of now io p d with
      | Some (keys, d) => Some (option_list key ++ keys, d)
      | None => None
      end
    end
  end.

Abbreviation inbox_cmp := (cursor_cmp text_cmp).

(** The rows a select after a cursor finds. *)
Definition remaining (now min_age : Z) (after : option (Z * string)) (d : Db) : list (string * InboxRow) :=
  in_order inbox_key inbox_cmp (List.filter (after_key inbox_key inbox_cmp after) (pending now min_age d)).

Lemma inbox_keys_nodup l : NoDup (fst <$> l) -> NoDup (inbox_key <$> l).
Proof.
  intros Hn. induction l as [|x l IH]; [constructor|]. apply NoDup_cons in Hn as [Hx Hn].
  apply NoDup_cons. split; [|by apply IH]. intros (y & E & Hy)%list_elem_of_fmap. apply Hx.
  unfold inbox_key in E. injection E as _ E. rewrite E. by apply list_elem_of_fmap_2.
Qed.

Lemma filter_fst_nodup (f : string * InboxRow -> bool) l : NoDup (fst <$> l) -> NoDup (fst <$> List.filter f l).
Proof.
  induction l as [|x l IH]; cbn; [done|]. intros [Hx Hn]%NoDup_cons. destruct (f x); [|by apply IH].
  apply NoDup_cons. split; [|by apply IH]. intros (y & E & [Hy _]%list_elem_of_In%filter_In)%list_elem_of_fmap.
  apply Hx. rewrite E. by apply list_elem_of_fmap_2, list_elem_of_In.
Qed.

Lemma pending_nodup now min_age d : NoDup (fst <$> pending now min_age d).
Proof. apply filter_fst_nodup, NoDup_fst_map_to_list. Qed.

Lemma remaining_nodup now min_age after d : NoDup (fst <$> remaining now min_age after d).
Proof. unfold remaining, in_order. rewrite sort_by_perm. apply filter_fst_nodup, pending_nodup. Qed.

Lemma elem_of_selected now min_age after d k r :
  (k, r) ∈ List.filter (after_key inbox_key inbox_cmp after) (pending now min_age d) <->
  after_key inbox_key inbox_cmp after (k, r) = true /\ inbox d !! k = Some r /\ replayable now min_age r = true.
Proof.
  unfold pending. rewrite list_elem_of_In, !filter_In, <- list_elem_of_In, elem_of_map_to_list. cbn. tauto.
Qed.

Lemma elem_of_remaining now min_age after d k r : (k, r) ∈ remaining now min_age after d <->
  after_key inbox_key inbox_cmp after (k, r) = true /\ inbox d !! k = Some r /\ replayable now min_age r = true.
Proof. unfold remaining. rewrite elem_of_in_order. apply elem_of_selected. Qed.

(** The rows after the first of those that remain are the others. *)
Lemma remaining_next now min_age after d x l : remaining now min_age after d = x :: l ->
  remaining now min_age (Some (inbox_key x)) d = l.
Proof.
  pose proof (inbox_keys_nodup _ (pending_nodup now min_age d)) as Hn.
  unfold remaining. rewrite !(in_order_filter inbox_key inbox_cmp) by done. intros E.
  pose proof (in_order_sorted inbox_key inbox_cmp _ Hn) as Hs.
  set (S := in_order _ _ _) in *. pose proof (sorted_filter _ _ (after_key inbox_key inbox_cmp after) _ Hs) as Hs'.
  rewrite E in Hs'. pose proof (after_split inbox_key inbox_cmp [] x l Hs') as Ha. cbn [app] in Ha.
  rewrite <- E in Ha. rewrite <- Ha, filter_filter_impl; [done|]. intros y Hy.
  assert (x ∈ List.filter (after_key inbox_key inbox_cmp after) S) as [_ Hx]%list_elem_of_In%filter_In by (rewrite E; left).
  destruct after as [k|]; [|done]. cbn in *. destruct (inbox_cmp (inbox_key y) (inbox_key x)) eqn:Eyx; [done..|].
  destruct (inbox_cmp (inbox_key x) k) eqn:Exk; [done..|]. rewrite (gt_le_trans inbox_cmp (inbox_key y) k (inbox_key x)); [done|done|].
  rewrite (cmp_antisym inbox_cmp), Exk. done.
Qed.

(** A change to the cursor's own row does not move what remains after it. *)
Lemma remaining_frame now min_age k r d d' f : inbox d !! k = Some r -> inbox d' = alter f k (inbox d) ->
  (forall x, ib_received_at (f x) = ib_received_at x) ->
  remaining now min_age (Some (inbox_key (k, r))) d' = remaining now min_age (Some (inbox_key (k, r))) d.
Proof.
  intros Hr E Hf. unfold remaining at 1. apply (in_order_unique inbox_key inbox_cmp).
  - by apply (in_order_sorted inbox_key inbox_cmp), inbox_keys_nodup, filter_fst_nodup, pending_nodup.
  - unfold remaining, in_order. rewrite sort_by_perm.
    apply NoDup_Permutation; [eapply (NoDup_fmap_1 fst), filter_fst_nodup, pending_nodup..|].
    intros [k' r']. rewrite !elem_of_selected, E, lookup_alter_Some.
    assert (forall x, ib_received_at x = ib_received_at r ->
      after_key inbox_key inbox_cmp (Some (inbox_key (k, r))) (k, x) = false) as Hno.
    { intros x Ex. cbn. unfold inbox_key. cbn. rewrite Ex. by rewrite (kcmp_refl inbox_cmp). }
    split.
    + intros (H1 & H2 & H3). split; [done|]. split; [|done]. right. split; [|done]. intros ->.
      rewrite Hr in H2. injection H2 as <-. by rewrite Hno in H1.
    + intros (H1 & [(-> & x & Hx & ->)|[_ H2]] & H3); [|done]. rewrite Hr in Hx. injection Hx as <-.
      by rewrite Hno in H1 by apply Hf.
  - apply inbox_keys_nodup, filter_fst_nodup, pending_nodup.
Qed.

(** What a try of a row leaves of it. *)
Definition tried (r r' : InboxRow) : Prop :=
  is_Some (ib_processed_at r') \/ ib_attempts r' = ib_attempts r + 1.

Lemma process_frame key kind payload ts attempt tenant_of now io d d' b :
  process_inbox_message key kind payload ts attempt tenant_of now io d = (d', b) ->
  exists f, inbox d' = alter f key (inbox d) /\
    forall r, ib_received_at (f r) = ib_received_at r /\ ib_attempts (f r) = ib_attempts r /\
      (b = true -> is_Some (ib_processed_at (f r))) /\
      (is_Some (ib_processed_at r) -> is_Some (ib_processed_at (f r))).
Proof.
  assert (forall m : gmap string InboxRow, m = alter (fun r => r) key m) as Hid.
  { intros m. symmetry. apply map_eq. intros k. destruct (decide (key = k)) as [<-|].
    - rewrite lookup_alter_eq. by destruct (m !! key).
    - by rewrite lookup_alter_ne. }
  assert (forall d', process_subject_payload kind payload key ts (INBOX_MAX_ATTEMPTS <=? attempt) tenant_of now
    (pio_insert io) d = Some d' -> inbox d' = inbox d) as Hin.
  { unfold process_subject_payload, persist_turn, persist_usage. intros d1.
    destruct (json_from_slice _); cbn; [|done]. destruct kind.
    - destruct (parse_turn _); cbn; [|done]. destruct (pio_insert io); [|done]. intros [= <-]. by case_match.
    - destruct (usage_of_value _); cbn; [|done]. destruct (decide_usage_tenant _ _ _); cbn; [|done].
      destruct (parse_from_rfc3339 _); cbn; [|done]. destruct (pio_insert io); cbn; [|done]. intros [= <-]. by case_match. }
  unfold process_inbox_message.
  destruct (process_subject_payload _ _ _ _ _ _ _ _ d) as [d1|] eqn:E; [rewrite <- (Hin d1 eq_refl)|];
    destruct (pio_mark io); intros [= <- <-]; cbn; eexists; (split; [done || apply Hid|]); naive_solver.
Qed.

Lemma replay_frame key r tenant_of now io d d' b : replay_row key r tenant_of now io d = (d', b) ->
  exists f, inbox d' = alter f key (inbox d) /\
    forall x, ib_received_at (f x) = ib_received_at x /\
      (pio_bump io = true -> b = true /\ tried x (f x)).
Proof.
  unfold replay_row, tried. destruct (handler_kind_for_subject (ib_subject r)) as [kind|].
  - destruct (process_inbox_message _ _ _ _ _ _ _ _ d) as [d1 b1] eqn:E.
    apply process_frame in E as (f & Ef & Hf). destruct b1; [|destruct (pio_bump io)]; intros [= <- <-].
    + exists f. split; [done|]. intros x. destruct (Hf x) as (? & ? & Hp & _). auto.
    + exists (fun r => set_attempts (ib_attempts r + 1) (f r)). cbn. rewrite Ef. split; [|by intros x; cbn; destruct (Hf x) as (-> & _); auto].
      apply map_eq. intros k. destruct (decide (key = k)) as [<-|]; [|by rewrite !lookup_alter_ne].
      rewrite !lookup_alter_eq. destruct (inbox d !! key) as [x|]; [|done]. cbn. by rewrite (proj1 (proj2 (Hf x))).
    + exists f. split; [done|]. intros x. destruct (Hf x) as (? & ? & Hp & _). split; [done|]. done.
  - destruct (pio_bump io); intros [= <- <-].
    + eexists. split; [done|]. cbn. auto.
    + exists id. split; [|done]. apply map_eq. intros k. destruct (decide (key = k)) as [<-|].
      * rewrite lookup_alter_eq. by destruct (inbox d !! key).
      * by rewrite lookup_alter_ne.
Qed.

(** The state of a pass between two of its steps. *)
Record pass_ok (now : Z) (p : Pass) (rest : list (string * InboxRow)) (d : Db) : Prop := {
  po_remaining : remaining now (pass_min_age p) (pass_after p) d = pass_rows p ++ rest;
  po_full : pass_full p = false -> rest = [] }.

Lemma pass_ok_row now p k r rows rest d d' f : pass_ok now p rest d -> pass_rows p = (k, r) :: rows ->
  inbox d' = alter f k (inbox d) -> (forall x, ib_received_at (f x) = ib_received_at x) ->
  inbox d !! k = Some r /\
  pass_ok now (mkPass (pass_min_age p) (pass_rounds p) (Some (inbox_key (k, r))) rows (pass_full p)) rest d'.
Proof.
  intros [Hrem Hfull] E Ef Hf. rewrite E in Hrem.
  assert (inbox d !! k = Some r) as Hr.
  { eapply elem_of_remaining. rewrite Hrem. by left. }
  split; [done|]. split; [|done]. cbn [pass_min_age pass_after pass_rows].
  rewrite (remaining_frame _ _ _ _ d d' f) by done. by apply remaining_next in Hrem.
Qed.

Lemma pass_ok_select now p rounds rest d : pass_ok now p rest d -> pass_rows p = [] ->
  pass_ok now (mkPass (pass_min_age p) rounds (pass_after p) (take INBOX_REPLAY_BATCH_SIZE rest)
    (INBOX_REPLAY_BATCH_SIZE <=? length (take INBOX_REPLAY_BATCH_SIZE rest))%nat)
    (drop INBOX_REPLAY_BATCH_SIZE rest) d.
Proof.
  intros [Hrem _] E. rewrite E in Hrem. split; cbn [pass_min_age pass_after pass_rows pass_full].
  - by rewrite Hrem, take_drop.
  - intros Hlt%Nat.leb_gt. apply nil_length_inv. rewrite length_take in Hlt. rewrite length_drop. lia.
Qed.

Lemma run_pass_ok fuel tenant_of now io p rest d : (forall k, pio_bump (io k) = true) -> pass_ok now p rest d ->
  (length (pass_rows p) + pass_rounds p * S INBOX_REPLAY_BATCH_SIZE < fuel)%nat ->
  exists d', let l := pass_rows p ++ take (pass_rounds p * INBOX_REPLAY_BATCH_SIZE) rest in
    run_pass fuel tenant_of now io p d = Some (fst <$> l, d') /\
    (forall k, k ∉ fst <$> l -> inbox d' !! k = inbox d !! k) /\
    (forall k r, (k, r) ∈ l -> exists r', inbox d' !! k = Some r' /\ tried r r').
Proof.
  intros Hio. revert p rest d. induction fuel as [|fuel IH]; intros p rest d Hp Hfuel; [lia|].
  assert (NoDup (fst <$> pass_rows p ++ rest)) as Hn.
  { rewrite <- (po_remaining _ _ _ _ Hp). apply remaining_nodup. }
  cbn [run_pass]. unfold pass_step. destruct (pass_rows p) as [|[k r] rows] eqn:E.
  - assert (forall l : list (string * InboxRow), l = [] -> exists d', Some ([], d) = Some (fst <$> [] ++ l, d') /\
      (forall k, k ∉ fst <$> [] ++ l -> inbox d' !! k = inbox d !! k) /\
      (forall k r, (k, r) ∈ [] ++ l -> exists r', inbox d' !! k = Some r' /\ tried r r')) as Hend.
    { intros l ->. exists d. split; [done|]. split; [done|]. by intros k r ?%elem_of_nil. }
    destruct (pass_rounds p) as [|rounds]; [by apply Hend|].
    destruct (pass_full p) eqn:Ef; [|apply Hend; by rewrite (po_full _ _ _ _ Hp Ef), take_nil].
    change (fetch _ _ _ _ _) with (take INBOX_REPLAY_BATCH_SIZE (remaining now (pass_min_age p) (pass_after p) d)).
    rewrite (po_remaining _ _ _ _ Hp), E. cbn [app].
    pose proof (pass_ok_select now p rounds rest d Hp E) as Hp'.
    destruct (take INBOX_REPLAY_BATCH_SIZE rest) as [|x rows'] eqn:Et.
    { apply Hend. by destruct rest. }
    rewrite <- Et in Hp' |- *. destruct (IH _ _ _ Hp') as (d' & -> & H2 & H3).
    { cbn [pass_rows pass_rounds]. rewrite length_take. clear -Hfuel. cbn [length] in Hfuel. lia. }
    exists d'. cbn [option_list app pass_rows pass_rounds] in *.
    assert (take INBOX_REPLAY_BATCH_SIZE rest ++ take (rounds * INBOX_REPLAY_BATCH_SIZE) (drop INBOX_REPLAY_BATCH_SIZE rest)
      = take (S rounds * INBOX_REPLAY_BATCH_SIZE) rest) as <-; [|done].
    by rewrite take_take_drop.
  - destruct (replay_row k r tenant_of now _ d) as [d1 b] eqn:Er.
    apply replay_frame in Er as (f & Ef & Hf). destruct (Hf r) as (_ & Hb). destruct (Hb (Hio _)) as [-> _].
    destruct (pass_ok_row now p k r rows rest d d1 f Hp E Ef (fun x => proj1 (Hf x))) as [Hr Hp'].
    destruct (IH _ _ _ Hp') as (d' & -> & H2 & H3); [cbn in Hfuel |- *; lia|].
    cbn [pass_rows pass_rounds] in *. exists d'. split; [done|]. cbn [app] in Hn |- *. rewrite fmap_cons in Hn |- *.
    apply NoDup_cons in Hn as [Hk _].
    assert (k ∉ fst <$> rows ++ take (pass_rounds p * INBOX_REPLAY_BATCH_SIZE) rest) as Hk'.
    { intros (y & Ey & Hy)%list_elem_of_fmap. apply Hk. cbn. rewrite Ey. apply list_elem_of_fmap_2.
      apply elem_of_app in Hy as [?|Hy]; apply elem_of_app; [by left|right]. by eapply subseteq_take in Hy. }
    split.
    + intros k' [Hne Hk'']%not_elem_of_cons. rewrite H2, Ef by done. by rewrite lookup_alter_ne.
    + intros k' r' [[= -> ->]|Hin]%elem_of_cons; [|by apply H3].
      exists (f r). rewrite H2, Ef, lookup_alter_eq, Hr by done. split; [done|]. by apply Hf, Hio.
Qed.

(** A retry pass tries the pending rows oldest first, each once, and a row that fails again
    does not hold back those after it. On a database nothing else touches, a pass ends, having
    tried exactly the rows that are unprocessed, old enough and short of
    [INBOX_MAX_ATTEMPTS], in the order of their arrival, up to twenty selects of two
    hundred; each is then processed or has one attempt more, and no other row changed. *)
Theorem retry_visits_pending fuel tenant_of now io min_age d : (forall k, pio_bump (io k) = true) ->
  (INBOX_REPLAY_MAX_ROUNDS * S INBOX_REPLAY_BATCH_SIZE < fuel)%nat ->
  exists d', let l := take (INBOX_REPLAY_MAX_ROUNDS * INBOX_REPLAY_BATCH_SIZE)
                        (in_order inbox_key inbox_cmp (pending now min_age d)) in
    run_pass fuel tenant_of now io (new_pass min_age) d = Some (fst <$> l, d') /\
    (forall k, k ∉ fst <$> l -> inbox d' !! k = inbox d !! k) /\
    (forall k r, (k, r) ∈ l -> exists r', inbox d' !! k = Some r' /\ tried r r').
Proof.
  intros Hio Hfuel. apply (run_pass_ok fuel tenant_of now io (new_pass min_age)); [done| |done].
  split; [|done]. cbn [new_pass pass_min_age pass_after pass_rows app]. unfold remaining. cbn.
  f_equal. apply filter_true.
Qed.

(** *** Rows out of attempts *)

(** A row that no task has in hand and no retry will select. *)
Record exhausted (k : string) (s : Store) : Prop := {
  ex_row : exists r, inbox (db s) !! k = Some r /\ ib_processed_at r = None /\ INBOX_MAX_ATTEMPTS <= ib_attempts r;
  ex_queue : forall row a, (row, a) ∈ processing s ++ concat (process_queue s) -> dedupe_key row <> k;
  ex_retry : forall p, retry s = Some p -> k ∉ fst <$> pass_rows p }.

(** A run in which no batch waits to be ingested. *)
Inductive quiet_run (s : Store) : Store -> Prop :=
| qr_refl : quiet_run s s
| qr_step s1 acks s2 : quiet_run s s1 -> store_step s1 acks s2 -> ingest_queue s2 = [] -> quiet_run s s2.

Lemma replayable_attempts now min_age r : replayable now min_age r = true -> ib_attempts r < INBOX_MAX_ATTEMPTS.
Proof.
  unfold replayable. destruct (Z.ltb_spec (ib_attempts r) INBOX_MAX_ATTEMPTS); [done|].
  by rewrite andb_false_r.
Qed.

Lemma pass_step_other k p tenant_of now io d p' d' : k ∉ fst <$> pass_rows p ->
  (forall r, inbox d !! k = Some r -> INBOX_MAX_ATTEMPTS <= ib_attempts r) ->
  pass_step tenant_of now io p d = (p', d') ->
  inbox d' !! k = inbox d !! k /\ forall q, p' = Some q -> k ∉ fst <$> pass_rows q.
Proof.
  intros Hk Hex. unfold pass_step. destruct (pass_rows p) as [|[key r] rest].
  - destruct (pass_rounds p) as [|n]; [by intros [= <- <-]|]. destruct (pass_full p); [|by intros [= <- <-]].
    destruct (fetch _ _ _ _ _) as [|x rows] eqn:Ef; [by intros [= <- <-]|]. intros [= <- <-]. split; [done|].
    intros q [= <-]. cbn [pass_rows]. rewrite <- Ef. intros ([k' r] & Ek & Hin)%list_elem_of_fmap. cbn in Ek. subst k'.
    apply fetch_subset, pending_elem in Hin as [Hr Ha%replayable_attempts]. specialize (Hex r Hr). lia.
  - rewrite fmap_cons in Hk. apply not_elem_of_cons in Hk as [Hne Hk]. cbn in Hne.
    destruct (replay_row _ _ _ _ _ _) as [d1 b] eqn:Er. apply replay_frame in Er as (f & Ef & _). intros [= <- <-].
    rewrite Ef, lookup_alter_ne by done. split; [done|]. destruct b; [|done]. by intros q [= <-].
Qed.

(** Such a row waits for ever: no retry, at work or after a restart, takes it up. *)
Theorem exhausted_row_waits k s s' : ingest_queue s = [] -> exhausted k s -> quiet_run s s' -> exhausted k s'.
Proof.
  intros Hq Hex Hrun. cut (ingest_queue s' = [] /\ exhausted k s'); [by intros []|].
  induction Hrun as [|s1 acks s2 _ [Hq1 [(r & Hr & Hp & Ha) Hqu Hre]] Hstep Hq2]; [done|]. split; [done|]. clear Hex.
  assert (exists r, inbox (db s1) !! k = Some r /\ ib_processed_at r = None /\ INBOX_MAX_ATTEMPTS <= ib_attempts r) as Hrow
    by (by exists r).
  destruct Hstep as [msg|from batch q now io d ack rows Eq Ein|rows q Ep Eq|row a rest tof now io Ep Hans
    |min_age En|p tof now io p' d Ep Hans Estep|now keys Hpu| |].
  - by split.
  - by rewrite Hq1 in Eq.
  - split; [done| |done]. cbn. intros row a Hin. apply (Hqu row a). by rewrite Ep, Eq.
  - assert (dedupe_key row <> k) as Hne by (apply (Hqu row a); rewrite Ep; left).
    split; [|cbn; intros row' a' Hin; apply (Hqu row' a'); rewrite Ep; by right|done].
    destruct (process_inbox_message _ _ _ _ _ _ _ _ _) as [d b] eqn:E. apply process_frame in E as (f & Ef & _).
    cbn. by rewrite Ef, lookup_alter_ne.
  - split; [done|done|]. cbn. intros p [= <-]. apply not_elem_of_nil.
  - apply (pass_step_other k) in Estep as [Ei Hp']; [|by apply Hre|intros r0; rewrite Hr; by intros [= <-]].
    split; [cbn; by rewrite Ei|done|done].
  - split; [|done|done]. cbn. rewrite delete_keys_lookup. case_decide as Hin; [|done].
    destruct Hpu as [_ Hpu]. rewrite Forall_forall in Hpu. destruct (Hpu k Hin) as (r0 & Hr0 & Hpr).
    rewrite Hr in Hr0. injection Hr0 as <-. unfold purgeable in Hpr. by rewrite Hp in Hpr.
  - by split.
  - split; [done| |done]. intros row a. by intros ?%elem_of_nil.
Qed.

End Storage.

(** ** Concrete inputs *)

Module StorageExamples.

(** Three documents: a turn, its parts, and a usage record. *)
Inductive Doc := TurnDoc | RoutingDoc | TextDoc (s : string) | UsageDoc.

#[export] Instance doc_json : Json Doc := {
  json_get v k :=
    match v with
    | TurnDoc => if k =s "routing" then Some RoutingDoc else None
    | RoutingDoc => if k =s "src_l2_name" then Some (TextDoc "AI.support@branch")
                    else if k =s "trace_id" then Some (TextDoc "trace-1") else None
    | _ => None
    end;
  json_as_str v := match v with TextDoc s => Some s | _ => None end;
  json_as_array _ := None;
  json_is_null _ := false;
  json_null := TextDoc "";
  json_to_string v := match v with TextDoc s => s | _ => "{}"%string end;
  json_to_vec v :=
    match v with
    | TurnDoc => Some [x01] | RoutingDoc => Some [x02] | UsageDoc => Some [x03] | TextDoc _ => None
    end;
  json_from_slice b :=
    match b with
    | [x01] => Some TurnDoc | [x02] => Some RoutingDoc | [x03] => Some UsageDoc | _ => None
    end }.

#[export] Instance doc_laws : JsonLaws Doc.
Proof. split. by intros [] b [= <-]. Qed.

Definition usage_record : UsageRecord Doc :=
  mkUsageRecord "rec-1" (Some "resp-1"%string) "2026-01-01T00:00:00Z" "branch" "AI.support@branch" None
    "tnt:7" TsNode None "openai" "gpt" None None Generate UoOk (Some 10) None None (Some 5) None None None None None.

Definition read_usage (v : Doc) : option (UsageRecord Doc) :=
  match v with UsageDoc => Some usage_record | _ => None end.

Definition read_time (s : string) : option Z := if s =s "2026-01-01T00:00:00Z" then Some 1767225600 else None.

Definition no_writer (v : Doc) : option Writer := None.

(** Identity held one tenant for the node. *)
Definition held (l : IdentityLookup) (t : string) : Prop := l = HandlerNode "AI.support@branch" /\ t = "tnt:7"%string.

Definition identity (l : IdentityLookup) : option (option string) :=
  match l with
  | HandlerNode n => if n =s "AI.support@branch" then Some (Some "tnt:7"%string) else Some None
  | IlkOf _ => None
  end.

Lemma identity_answers : answers held identity.
Proof.
  intros [n|i] t; cbn; [|done]. destruct (String.eqb_spec n "AI.support@branch") as [->|]; [|done].
  by intros [= <-].
Qed.

Definition from : string := "RT.main.stream@branch".

Definition turn : StreamRecord Doc := mkStreamRecord 1 500 SUBJECT_STORAGE_TURNS "AI.support@branch" TurnDoc.
Definition usage : StreamRecord Doc := mkStreamRecord 2 600 SUBJECT_STORAGE_USAGE "AI.support@branch" UsageDoc.

Definition batch : StreamBatch Doc := mkStreamBatch from 1 [turn; usage].

Abbreviation run := (store_run read_usage read_time no_writer String.compare held).
Abbreviation step := (store_step read_usage read_time no_writer String.compare held).
Abbreviation Store0 := (Store (V := Doc)).

(** A batch received and ingested. *)
Definition deliver (io : IngestIo) (s : Store0) : Store0 * list Ack :=
  let '(d, ack, rows) := ingest_stream_batch read_usage read_time (700 * SECOND) from (Some batch) io (db s) in
  (mkStore d [] (hand_over rows (process_queue s)) (processing s) (retry s),
   match ack with Some n => [(from, batch, n)] | None => [] end).

Lemma deliver_run io s0 acks s : run s0 acks s -> ingest_queue s = [] ->
  run s0 (acks ++ snd (deliver io s)) (fst (deliver io s)).
Proof.
  intros Hrun Hq. unfold deliver. destruct (ingest_stream_batch _ _ _ _ _ _ _) as [[d ack] rows] eqn:E. cbn.
  rewrite <- (app_nil_r acks). eapply sr_step; [eapply sr_step; [exact Hrun|apply (st_receive _ _ _ _ _ _ (from, Some batch))]|].
  match goal with |- store_step _ _ _ _ _ ?s1 _ _ =>
    refine (st_ingest read_usage read_time no_writer String.compare held s1 from (Some batch) [] (700 * SECOND) io d ack rows _ E) end.
  cbn. by rewrite Hq.
Qed.

Lemma deliver_queue io s : ingest_queue (fst (deliver io s)) = [].
Proof. unfold deliver. by destruct (ingest_stream_batch _ _ _ _ _ _ _) as [[d ack] rows]. Qed.

Definition works : ProcessIo := mkProcessIo true true true.

(** The next row processed. *)
Definition process (s : Store0) : Store0 :=
  match processing s with
  | (row, a) :: rest =>
    mkStore (fst (process_inbox_message read_usage read_time no_writer (dedupe_key row) (row_kind row)
      (row_payload row) (Some (source_ts row)) a identity (800 * SECOND) works (db s))) (ingest_queue s) (process_queue s) rest (retry s)
  | [] => s
  end.

Lemma process_run s0 acks s : run s0 acks s -> processing s <> [] -> run s0 acks (process s).
Proof.
  intros Hrun Hp. unfold process. destruct (processing s) as [|[row a] rest] eqn:E; [done|].
  rewrite <- (app_nil_r acks). eapply sr_step; [exact Hrun|].
  by refine (st_process _ _ _ _ _ _ _ _ _ _ _ _ E identity_answers).
Qed.

(** The batch delivered, and its two rows processed. *)
Definition delivered : Store0 := fst (deliver (mkIngestIo true true) empty_store).

Definition taken : Store0 :=
  mkStore (db delivered) [] [] (match process_queue delivered with rows :: _ => rows | [] => [] end) None.

Definition all_stored : Store0 := process (process taken).

Lemma delivered_run : run empty_store [(from, batch, 2)] delivered.
Proof.
  pose proof (deliver_run (mkIngestIo true true) empty_store [] empty_store (sr_refl _ _ _ _ _ _) eq_refl) as H.
  by replace [(from, batch, 2)] with ([] ++ snd (deliver (mkIngestIo true true) empty_store)) by by vm_compute.
Qed.

Lemma all_stored_run : run empty_store [(from, batch, 2)] all_stored.
Proof.
  apply process_run; [apply process_run|]; [|by vm_compute..].
  rewrite <- (app_nil_r [_]). eapply sr_step; [apply delivered_run|].
  refine (st_take _ _ _ _ _ _ (match process_queue delivered with rows :: _ => rows | [] => [] end) [] _ _); by vm_compute.
Qed.

Definition turn_row : StreamRow :=
  mkStreamRow (message_dedupe_key SUBJECT_STORAGE_TURNS [x01]) SUBJECT_STORAGE_TURNS HkTurns [x01] 500000.

Definition usage_row : StreamRow :=
  mkStreamRow (message_dedupe_key SUBJECT_STORAGE_USAGE [x03]) SUBJECT_STORAGE_USAGE HkUsage [x03] 600000.

Lemma turn_row_taken : stream_row read_usage read_time (unwrap_or "" (stream_hive from)) turn = Some (Row turn_row).
Proof. by vm_compute. Qed.

Lemma usage_row_admitted : admitted read_usage read_time usage_row.
Proof. exists from, usage. split; by vm_compute. Qed.

(** A turn acked and processed. *)
Lemma acked_never_lost_witness :
  sr_seq <$> last (sb_records batch) = Some 2 /\
  (waits (db all_stored) (dedupe_key turn_row) \/
   exists row', admitted read_usage read_time row' /\ dedupe_key row' = dedupe_key turn_row /\
     row_subject row' = row_subject turn_row /\ stored read_usage (db all_stored) row').
Proof.
  refine (acked_never_lost read_usage read_time no_writer String.compare held
            [(from, batch, 2)] all_stored from batch 2 turn turn_row all_stored_run _ _ turn_row_taken); left.
Defined.


(** The batch delivered again, and processed. *)
Lemma usage_lands_once_witness :
  match llm_usage (db all_stored) !! 0%nat with
  | Some u => llm_usage (db (fst (deliver (mkIngestIo true true) all_stored))) !! 0%nat = Some u
  | None => False
  end.
Proof.
  destruct (llm_usage (db all_stored) !! 0%nat) as [u|] eqn:E; [|vm_compute in E; discriminate E].
  exact (proj1 (proj2 (usage_lands_once read_usage read_time no_writer String.compare held _ all_stored _ _
    all_stored_run (deliver_run (mkIngestIo true true) all_stored [] all_stored (sr_refl _ _ _ _ _ _) eq_refl))) 0%nat u E).
Defined.

(** Identity silent at the tenth attempt. *)
Lemma usage_lands_at_last_attempt_witness :
  exists d', process_inbox_message read_usage read_time no_writer (dedupe_key usage_row) HkUsage [x03] (Some 600000)
    10 (fun _ => None) (900 * SECOND) works (db delivered) = (d', true) /\ stored read_usage d' usage_row.
Proof.
  exact (usage_lands_at_last_attempt read_usage read_time no_writer usage_row (Some 600000) 10 (fun _ => None) (900 * SECOND) true
    (db delivered) usage_row_admitted eq_refl (Z.le_refl 10)).
Defined.

(** A pass over the batch's two rows, the first of which cannot be inserted. *)
Definition first_fails (k : string) : ProcessIo :=
  mkProcessIo (negb (k =s dedupe_key turn_row)) true true.

Lemma retry_visits_pending_witness :
  exists d', run_pass read_usage read_time no_writer String.compare 4100 identity (900 * SECOND) first_fails (new_pass 60) (db delivered)
    = Some (fst <$> take (INBOX_REPLAY_MAX_ROUNDS * INBOX_REPLAY_BATCH_SIZE) (in_order inbox_key (cursor_cmp String.compare) (pending (900 * SECOND) 60 (db delivered))), d').
Proof.
  destruct (retry_visits_pending read_usage read_time no_writer String.compare 4100 identity (900 * SECOND) first_fails 60
    (db delivered) (fun _ => eq_refl)) as (d' & H & _); [by apply Nat.ltb_lt; vm_compute|]. exists d'. exact H.
Defined.

(** An acked turn whose ten earlier deliveries SY.storage could not ack, after a restart:
    its deliveries used its attempts up, it was never processed, and no retry takes it. *)
Fixpoint deliver_unacked (n : nat) (s : Store0) : Store0 :=
  match n with O => s | S n => deliver_unacked n (fst (deliver (mkIngestIo true false) s)) end.

Definition tenfold : Store0 := deliver_unacked 10 empty_store.

Lemma deliver_unacked_run n s : ingest_queue s = [] -> run empty_store [] s ->
  run empty_store [] (deliver_unacked n s) /\ ingest_queue (deliver_unacked n s) = [].
Proof.
  revert s. induction n as [|n IH]; intros s Hq Hrun; [done|]. apply IH; [apply deliver_queue|].
  pose proof (deliver_run (mkIngestIo true false) _ _ _ Hrun Hq) as H.
  assert (snd (deliver (mkIngestIo true false) s) = []) as E.
  { unfold deliver, ingest_stream_batch.
    destruct (stream_rows _ _ _ _) as [ts|]; [|done]. cbn.
    by destruct (upsert_rows _ _ _) as [ib l]. }
  by rewrite E in H.
Qed.

Definition restarted : Store0 :=
  mkStore (set_counts no_counts (db (fst (deliver (mkIngestIo true true) tenfold)))) [] [] [] None.

Lemma tenfold_run : run empty_store [] tenfold /\ ingest_queue tenfold = [].
Proof. exact (deliver_unacked_run 10 empty_store eq_refl (sr_refl _ _ _ _ _ _)). Qed.

Lemma restarted_run : run empty_store [(from, batch, 2)] restarted.
Proof.
  destruct tenfold_run as [Hrun Hq]. pose proof (deliver_run (mkIngestIo true true) _ _ _ Hrun Hq) as H.
  assert ([] ++ snd (deliver (mkIngestIo true true) tenfold) = [(from, batch, 2)]) as E by (vm_compute; reflexivity).
  rewrite E in H. unfold restarted.
  exact (sr_step _ _ _ _ _ _ _ _ _ _ H (st_restart _ _ _ _ _ _)).
Qed.

Lemma idle_exhausted k (d : Db (V := Doc)) :
  match inbox d !! k with
  | Some r => match ib_processed_at r with None => INBOX_MAX_ATTEMPTS <=? ib_attempts r | Some _ => false end
  | None => false
  end = true -> exhausted k (mkStore d [] [] [] None).
Proof.
  intros H. split; [|by intros ? ? ?%elem_of_nil|done]. cbn.
  destruct (inbox d !! k) as [r|]; [|done]. exists r. destruct (ib_processed_at r); [done|]. by apply Z.leb_le in H.
Qed.

Theorem acked_row_exhausted : exists acks s,
  run empty_store acks s /\ (from, batch, 2) ∈ acks /\ ingest_queue s = [] /\
  exhausted (dedupe_key turn_row) s.
Proof.
  exists [(from, batch, 2)], restarted. split; [exact restarted_run|]. split; [left|]. split; [exact eq_refl|].
  apply idle_exhausted. vm_compute. reflexivity.
Qed.

End StorageExamples.
