(* ===== verification/StorageQuery.v ===== *)
(** * USAGE_QUERY (src/src/bin/sy_storage.rs, src/crates/fluxbee_sdk/src/usage.rs)

    How SY.storage answers SY.admin's questions about the usage records: the check of a
    question, the page of rows it reads, the cursor it gives for the next. The theorems:
    following the cursors reads every matching record, or every group, once and in
    order, and ends; a reader that syncs by [since] misses no row of a table that grows. *)

From Stdlib Require Import ZArith Lia Ascii String Strings.Byte.
From stdpp Require Import base list gmap strings sorting.
From S2P Require Import Prelude Protocol Paging Storage.
Open Scope Z_scope.

(** ** Questions and answers *)

Definition USAGE_QUERY_MAX_DAYS : Z := 92.
Definition USAGE_QUERY_DEFAULT_LIMIT : Z := 500.
Definition USAGE_QUERY_MAX_LIMIT : Z := 1000.
Definition USAGE_QUERY_PAGE_BYTES : Z := 62 * 1024.

Inductive UsageGroupBy := GbDay | GbModel | GbNode | GbTenant.

Record UsageQuery := mkUsageQuery {
  q_tenant_id : option string;
  all_tenants : bool;
  q_from : option string;
  q_to : option string;
  group_by : option UsageGroupBy;
  since : option string;
  q_after : option string;
  q_limit : option Z }.

Record UsageGroup := mkUsageGroup {
  g_key : string;
  g_calls : Z;
  g_uncached_input : Z;
  g_cache_read : Z;
  g_cache_write : Z;
  g_output : Z;
  g_reasoning : Z }.

Inductive UsageQueryMode :=
| Since (stored_at : Z) (record_id : string)
| Records (from to : Z) (after : option (Z * string))
| Groups (from to : Z) (gb : UsageGroupBy) (after : option string).

Record UsageQueryPlan := mkUsageQueryPlan {
  plan_tenant_id : option string;
  plan_mode : UsageQueryMode;
  plan_limit : Z }.

(** Why a question is refused. *)
Inductive QueryError :=
| OneOfTenants | SinceAlone | SinceNotACursor | NoPeriod | NotATime (name : string)
| ToNotAfterFrom | PeriodTooLong | AfterNotACursor.

Inductive Result (A E : Type) := Ok (a : A) | Err (e : E).
Arguments Ok {A E}. Arguments Err {A E}.

(** The closure [given] of [plan_usage_query]. *)
Definition given (value : option string) : option string :=
  match value with
  | Some v => if str_is_empty (Prelude.trim v) then None else Some v
  | None => None
  end.

Section Query.
Context {V : Type} `{J : Json V}.

(** [chrono]: the reading of a time and its writing to the microsecond. *)
Variable parse_from_rfc3339 : string -> option Z.
Variable rfc3339_micros : Z -> string.

(** [usage_cursor] and [parse_usage_cursor]. *)
Definition usage_cursor (time : Z) (record_id : string) : string :=
  (rfc3339_micros time ++ "|" ++ record_id)%string.

Definition parse_usage_cursor (cursor : string) : option (Z * string) :=
  let '(time, record_id) := match split_once "|" cursor with Some p => p | None => (cursor, EmptyString) end in
  match parse_from_rfc3339 time with Some t => Some (t, record_id) | None => None end.

Definition clamp (lo hi z : Z) : Z := if z <? lo then lo else if hi <? z then hi else z.

(** [plan_usage_query]. *)
Definition plan_usage_query (query : UsageQuery) : Result UsageQueryPlan QueryError :=
  match (match given (q_tenant_id query), all_tenants query with
         | Some t, false => Some (Some t)
         | None, true => Some None
         | _, _ => None
         end) with
  | None => Err OneOfTenants
  | Some tenant_id =>
    let limit := clamp 1 USAGE_QUERY_MAX_LIMIT (unwrap_or USAGE_QUERY_DEFAULT_LIMIT (q_limit query)) in
    let after := given (q_after query) in
    match given (since query) with
    | Some since =>
      match given (q_from query), given (q_to query), group_by query, after with
      | None, None, None, None =>
        match parse_usage_cursor since with
        | Some (stored_at, record_id) => Ok (mkUsageQueryPlan tenant_id (Since stored_at record_id) limit)
        | None => Err SinceNotACursor
        end
      | _, _, _, _ => Err SinceAlone
      end
    | None =>
      match given (q_from query), given (q_to query) with
      | Some from, Some to =>
        match parse_from_rfc3339 from, parse_from_rfc3339 to with
        | None, _ => Err (NotATime "from")
        | _, None => Err (NotATime "to")
        | Some from, Some to =>
          if to <=? from then Err ToNotAfterFrom
          else if USAGE_QUERY_MAX_DAYS * 86400 * SECOND <? to - from then Err PeriodTooLong
          else match group_by query, after with
          | Some gb, _ => Ok (mkUsageQueryPlan tenant_id (Groups from to gb after) limit)
          | None, None => Ok (mkUsageQueryPlan tenant_id (Records from to None) limit)
          | None, Some a =>
            match parse_usage_cursor a with
            | Some c => Ok (mkUsageQueryPlan tenant_id (Records from to (Some c)) limit)
            | None => Err AfterNotACursor
            end
          end
        end
      | _, _ => Err NoPeriod
      end
    end
  end.

(** ** Rows as JSON *)

(** A column's value. *)
Inductive Column :=
| CText (s : string) | CInt (z : Z) | CBool (b : bool) | CJson (v : V) | CWork (w : UsageWork).

Definition tenant_source_str (s : TenantSource) : string :=
  match s with
  | TsNode => "node" | TsAgent => "agent" | TsWriter => "writer" | TsCase => "case" | TsRoot => "root"
  | TsFallbackRoot => "fallback_root"
  end.

Definition usage_kind_str (k : UsageKind) : string :=
  match k with Generate => "generate" | FunctionTurn => "function_turn" end.

Definition outcome_str (o : UsageOutcome) : string :=
  match o with
  | UoOk => "ok" | UoTruncated => "truncated" | UoRefused => "refused" | UoUnreadable => "unreadable"
  | UoAbandoned => "abandoned"
  end.

(** [UsageWork::is_empty]. *)
Definition work_is_empty (w : UsageWork) : bool :=
  forallb (fun o : option string => match o with None => true | Some _ => false end) (work_values w).

(** [usage_record_json]: the columns [persist_usage] wrote, the null ones left out. *)
Definition usage_record_json (u : UsageRow (V := V)) : list (string * Column) :=
  let r := ur_record u in
  let text := option_map CText in
  let count := option_map CInt in
  omap (fun p : string * option Column => match snd p with Some c => Some (fst p, c) | None => None end)
  [("record_id"%string, Some (CText (record_id r)));
   ("provider_response_id"%string, text (provider_response_id r));
   ("ts"%string, Some (CText (rfc3339_micros (ur_ts u))));
   ("stored_at"%string, Some (CText (rfc3339_micros (ur_stored_at u))));
   ("hive"%string, Some (CText (u_hive r)));
   ("node_name"%string, Some (CText (node_name r)));
   ("node_ilk"%string, text (node_ilk r));
   ("tenant_id"%string, Some (CText (charge_tenant (ur_charge u))));
   ("tenant_source"%string, Some (CText (tenant_source_str (tenant_source r))));
   ("claimed_tenant_id"%string, Some (CText (u_tenant_id r)));
   ("verified"%string, Some (CBool (verified (ur_charge u))));
   ("counterpart_ilk"%string, text (counterpart_ilk r));
   ("provider"%string, Some (CText (provider r)));
   ("model"%string, Some (CText (model r)));
   ("served_model"%string, text (served_model r));
   ("service_tier"%string, text (service_tier r));
   ("kind"%string, Some (CText (usage_kind_str (u_kind r))));
   ("outcome"%string, Some (CText (outcome_str (outcome r))));
   ("uncached_input"%string, count (uncached_input r));
   ("cache_read"%string, count (cache_read r));
   ("cache_write"%string, count (cache_write r));
   ("output"%string, count (output r));
   ("reasoning"%string, count (reasoning r));
   ("raw_usage"%string, match raw_usage r with
                        | Some v => if json_is_null v then None else Some (CJson v)
                        | None => None
                        end);
   ("trace_id"%string, text (u_trace_id r));
   ("thread_id"%string, text (u_thread_id r));
   ("work"%string, match work r with
                   | Some w => if work_is_empty w then None else Some (CWork w)
                   | None => None
                   end)].

(** ** Pages *)

(** [serde_json::to_vec] of an item, its length, zero when it fails. *)
Variable record_len : list (string * Column) -> nat.
Variable group_len : UsageGroup -> nat.

(** An item's bytes and a separator. *)
Definition item_size {T : Type} (len : T -> nat) (item : T) : Z := Z.of_nat (len item) + 1.

(** The loop of [page_usage]: the items taken and the cursor of the last. *)
Fixpoint page_loop {T : Type} (len : T -> nat) (limit : Z) (page : list T) (bytes : Z)
  (last : option string) (items : list (string * T)) : list T * option string :=
  match items with
  | [] => (page, last)
  | (cursor, item) :: rest =>
    let size := item_size len item in
    if (limit <=? Z.of_nat (length page))
       || (negb (bool_decide (page = [])) && (USAGE_QUERY_PAGE_BYTES <? bytes + size))
    then (page, last)
    else page_loop len limit (page ++ [item]) (bytes + size) (Some cursor) rest
  end.

(** [page_usage]: a page, the cursor of its last item, and whether any were left out. *)
Definition page_usage {T : Type} (len : T -> nat) (items : list (string * T)) (limit : Z)
  : list T * option string * bool :=
  let '(page, last) := page_loop len limit [] 0 None items in
  (page, last, (length page <? length items)%nat).

(** ** Queries *)

(** Postgres: the day a time is in, and the collation of its text columns. *)
Variable day_of : Z -> string.
Variable text_cmp : string -> string -> comparison.

(** [usage_group_key]. *)
Definition usage_group_key (gb : UsageGroupBy) (u : UsageRow (V := V)) : string :=
  match gb with
  | GbDay => day_of (ur_ts u)
  | GbModel => model (ur_record u)
  | GbNode => node_name (ur_record u)
  | GbTenant => charge_tenant (ur_charge u)
  end.

(** [tenant_id] of a question: none is every tenant. *)
Definition tenant_is (tenant : option string) (u : UsageRow (V := V)) : bool :=
  match tenant with Some t => charge_tenant (ur_charge u) =s t | None => true end.

Definition in_period (from to : Z) (u : UsageRow (V := V)) : bool := (from <=? ur_ts u) && (ur_ts u <? to).

(** [COALESCE(SUM(column), 0)]. *)
Definition column_sum (column : UsageRecord V -> option Z) (rows : list (UsageRow (V := V))) : Z :=
  sum_of (fun u => unwrap_or 0 (column (ur_record u))) rows.

(** One group of [usage_groups_sql]: its rows' count and sums. *)
Definition usage_group (gb : UsageGroupBy) (rows : list (UsageRow (V := V))) (key : string) : UsageGroup :=
  let rows := List.filter (fun u => usage_group_key gb u =s key) rows in
  mkUsageGroup key (Z.of_nat (length rows)) (column_sum uncached_input rows) (column_sum cache_read rows)
    (column_sum cache_write rows) (column_sum output rows) (column_sum reasoning rows).

Definition group_fits (g : UsageGroup) : bool :=
  forallb fits_i64 [g_calls g; g_uncached_input g; g_cache_read g; g_cache_write g; g_output g; g_reasoning g].

(** The inner select of [usage_groups_sql]; none when a sum does not fit its [BIGINT]. *)
Definition usage_groups (gb : UsageGroupBy) (rows : list (UsageRow (V := V))) : option (list UsageGroup) :=
  let groups := usage_group gb rows <$> remove_dups (usage_group_key gb <$> rows) in
  if forallb group_fits groups then Some groups else None.

Record UsageQueryResponse := mkUsageQueryResponse {
  r_groups : list UsageGroup;
  r_records : list (list (string * Column));
  r_next : option string }.

(** [last.filter(|_| more)]. *)
Definition next_if (more : bool) (last : option string) : option string := if more then last else None.

Definition ts_key (u : UsageRow (V := V)) : Z * string := (ur_ts u, record_id (ur_record u)).
Definition stored_key (u : UsageRow (V := V)) : Z * string := (ur_stored_at u, record_id (ur_record u)).

(** A record of a page, with its cursor in an order. *)
Definition record_item (key : UsageRow -> Z * string) (u : UsageRow) :=
  (usage_cursor (fst (key u)) (snd (key u)), usage_record_json u).

(** [usage_query_page]; none is a database error. *)
Definition usage_query_page (plan : UsageQueryPlan) (table : list (UsageRow (V := V)))
  : option UsageQueryResponse :=
  let limit := plan_limit plan in
  let places := Z.to_nat (limit + 1) in
  match plan_mode plan with
  | Groups from to gb after =>
    match usage_groups gb (List.filter (fun u => tenant_is (plan_tenant_id plan) u && in_period from to u) table) with
    | None => None
    | Some groups =>
      let rows := fetch g_key text_cmp after places groups in
      let '(page, last, more) := page_usage group_len ((fun g => (g_key g, g)) <$> rows) limit in
      Some (mkUsageQueryResponse page [] (next_if more last))
    end
  | Records from to after =>
    let rows := fetch ts_key (cursor_cmp text_cmp) after places
      (List.filter (fun u => tenant_is (plan_tenant_id plan) u && in_period from to u) table) in
    let '(page, last, more) := page_usage record_len (record_item ts_key <$> rows) limit in
    Some (mkUsageQueryResponse [] page (next_if more last))
  | Since stored_at record_id =>
    let rows := fetch stored_key (cursor_cmp text_cmp) (Some (stored_at, record_id)) places
      (List.filter (tenant_is (plan_tenant_id plan)) table) in
    let '(page, last, _) := page_usage record_len (record_item stored_key <$> rows) limit in
    Some (mkUsageQueryResponse [] page last)
  end.

Definition PRIMARY_ADMIN : string := ("SY.admin@" ++ PRIMARY_HIVE_ID)%string.

Inductive AnswerError := Forbidden | InvalidRequest (e : option QueryError) | UsageUnavailable.

(** [usage_query_answer]: [table] is none without a database, [query] what the payload
    reads as. *)
Definition usage_query_answer (table : option (list (UsageRow (V := V)))) (from : string)
  (query : option UsageQuery) : Result UsageQueryResponse AnswerError :=
  if negb (from =s PRIMARY_ADMIN) then Err Forbidden
  else match table with
  | None => Err UsageUnavailable
  | Some table =>
    match query with
    | None => Err (InvalidRequest None)
    | Some query =>
      match plan_usage_query query with
      | Err e => Err (InvalidRequest (Some e))
      | Ok plan => match usage_query_page plan table with Some r => Ok r | None => Err UsageUnavailable end
      end
    end
  end.

(** ** Readers *)

Definition with_after (c : string) (q : UsageQuery) : UsageQuery :=
  mkUsageQuery (q_tenant_id q) (all_tenants q) (q_from q) (q_to q) (group_by q) (since q) (Some c) (q_limit q).

(** SY.admin asks for a period and follows [next] until there is none: the records and the
    groups it read, none when it was refused or did not end. *)
Fixpoint read_all (fuel : nat) (table : list (UsageRow (V := V))) (q : UsageQuery)
  : option (list (list (string * Column)) * list UsageGroup) :=
  match fuel with
  | O => None
  | S fuel =>
    match usage_query_answer (Some table) PRIMARY_ADMIN (Some q) with
    | Err _ => None
    | Ok r =>
      match r_next r with
      | None => Some (r_records r, r_groups r)
      | Some c =>
        match read_all fuel table (with_after c q) with
        | Some (rs, gs) => Some (r_records r ++ rs, r_groups r ++ gs)
        | None => None
        end
      end
    end
  end.

(** A reader that syncs: it asks for what was stored since its cursor, and keeps the last
    record's cursor. *)
Definition sync_query (limit : option Z) (tenant : option string) (all : bool) (cursor : string) : UsageQuery :=
  mkUsageQuery tenant all None None None (Some cursor) None limit.

Definition sync (limit : option Z) (tenant : option string) (all : bool) (table : list (UsageRow (V := V)))
  (cursor : string) : option (list (list (string * Column)) * string) :=
  match usage_query_answer (Some table) PRIMARY_ADMIN (Some (sync_query limit tenant all cursor)) with
  | Ok r => Some (r_records r, unwrap_or cursor (r_next r))
  | Err _ => None
  end.

(** Its syncs one after the other, each on the table as it then is. *)
Fixpoint sync_all (limit : option Z) (tenant : option string) (all : bool)
  (tables : list (list (UsageRow (V := V)))) (cursor : string)
  : option (list (list (string * Column)) * string) :=
  match tables with
  | [] => Some ([], cursor)
  | table :: tables =>
    match sync limit tenant all table cursor with
    | Some (rs, cursor) =>
      match sync_all limit tenant all tables cursor with
      | Some (rs', cursor) => Some (rs ++ rs', cursor)
      | None => None
      end
    | None => None
    end
  end.

(** ** Pages: lemmas *)

Lemma page_loop_spec {T} (len : T -> nat) limit items page bytes last :
  bytes = sum_of (item_size len) page ->
  Z.of_nat (length page) <= limit -> (length page <= 1)%nat \/ bytes <= USAGE_QUERY_PAGE_BYTES ->
  exists n, (n <= length items)%nat /\
    page_loop len limit page bytes last items
      = (page ++ take n (snd <$> items), match n with O => last | S k => (fst <$> items) !! k end) /\
    Z.of_nat (length page + n) <= limit /\
    ((length page + n <= 1)%nat \/ sum_of (item_size len) (page ++ take n (snd <$> items)) <= USAGE_QUERY_PAGE_BYTES) /\
    (page = [] -> items <> [] -> 0 < limit -> n <> O).
Proof.
  revert page bytes last. induction items as [|[c x] items IH]; intros page bytes last Hb Hl Hp.
  { exists 0%nat. rewrite take_0, app_nil_r, Nat.add_0_r. cbn. subst bytes. repeat split; try lia; auto. }
  cbn [page_loop]. destruct (Z.leb_spec limit (Z.of_nat (length page))) as [Hfull|Hroom].
  { exists 0%nat. rewrite take_0, app_nil_r, Nat.add_0_r. cbn [orb]. subst bytes.
    repeat split; try lia; auto. intros ->. cbn in Hfull. lia. }
  cbn [orb]. destruct (negb (bool_decide (page = [])) && (USAGE_QUERY_PAGE_BYTES <? bytes + item_size len x)) eqn:E.
  { exists 0%nat. rewrite take_0, app_nil_r, Nat.add_0_r. subst bytes. repeat split; try lia; auto.
    intros ->. by rewrite bool_decide_true in E. }
  destruct (IH (page ++ [x]) (bytes + item_size len x) (Some c)) as (n & Hn & Hrun & Hlim & Hbytes & _).
  - rewrite sum_of_app, sum_of_cons, sum_of_nil. lia.
  - rewrite length_app. cbn. lia.
  - rewrite length_app. cbn. apply andb_false_iff in E as [E|E%Z.ltb_ge]; [|by right].
    apply negb_false_iff, bool_decide_eq_true in E as ->. left. cbn. lia.
  - exists (S n). rewrite length_app in Hlim, Hbytes. cbn in Hlim, Hbytes.
    rewrite Hrun. cbn [fmap list_fmap take snd fst length]. rewrite <- !app_assoc in *. cbn [app] in *.
    split; [lia|]. split; [destruct n; [done|done]|]. split; [lia|]. split; [|done].
    destruct Hbytes as [?|?]; [left; lia|by right].
Qed.

(** A page holds the first items, one at least, and no more than its limits allow. *)
Lemma page_usage_spec {T} (len : T -> nat) items limit : 0 < limit ->
  exists n, (n <= length items)%nat /\ Z.of_nat n <= limit /\ (items <> [] -> n <> O) /\
    (n = 1%nat \/ sum_of (item_size len) (take n (snd <$> items)) <= USAGE_QUERY_PAGE_BYTES) /\
    page_usage len items limit
      = (take n (snd <$> items), match n with O => None | S k => (fst <$> items) !! k end, (n <? length items)%nat).
Proof.
  intros Hl. destruct (page_loop_spec len limit items [] 0 None) as (n & Hn & Hrun & Hlim & Hb & H0);
    [done|cbn; lia|left; cbn; lia|]. exists n. cbn [length app Nat.add] in *.
  split; [done|]. split; [done|]. split; [auto|]. split.
  - destruct Hb as [Hb|Hb]; [|by right]. destruct n as [|[|n]]; [right; by rewrite take_0|by left|lia].
  - unfold page_usage. rewrite Hrun. rewrite length_take, length_fmap, Nat.min_l by done. done.
Qed.

(** A page of a fetch: what it took of the rows left, and whether it says there are more. *)
Lemma page_fetch {R T} (len : T -> nat) (item : R -> string * T) limit (rest : list R) : 0 < limit ->
  exists n last more,
    page_usage len (item <$> take (Z.to_nat (limit + 1)) rest) limit = ((fun r => snd (item r)) <$> take n rest, last, more) /\
    (n <= length rest)%nat /\
    (rest = [] /\ last = None \/
     exists y, n <> O /\ rest !! (n - 1)%nat = Some y /\ last = Some (fst (item y))) /\
    (more = false -> take n rest = rest) /\ (more = true -> (n < length rest)%nat).
Proof.
  intros Hl. set (k := Z.to_nat (limit + 1)).
  destruct (page_usage_spec len (item <$> take k rest) limit Hl) as (n & Hn & Hlim & H0 & _ & Hrun).
  rewrite length_fmap, length_take in Hn, Hrun.
  assert (n < k)%nat as Hnk by lia.
  exists n, (match n with O => None | S k' => (fst <$> (item <$> take k rest)) !! k' end), (n <? k `min` length rest)%nat.
  rewrite Hrun. split.
  { f_equal. f_equal. rewrite <- list_fmap_compose, <- fmap_take, take_take. f_equal. f_equal. lia. }
  split; [lia|]. split.
  - destruct rest as [|r rest]; [left|right].
    + rewrite take_nil in Hrun. destruct n; [done|cbn in Hn; lia].
    + destruct n as [|n]; [exfalso; apply H0; [|done]; destruct k; [lia|done]|].
      destruct (lookup_lt_is_Some_2 (r :: rest) n) as [y Hy]; [cbn in Hn |- *; lia|].
      exists y. split; [done|]. replace (S n - 1)%nat with n by lia. split; [done|].
      rewrite !list_lookup_fmap, lookup_take_lt, Hy by lia. done.
  - split; [intros Hm%Nat.ltb_ge; apply take_ge; lia|intros Hm%Nat.ltb_lt; lia].
Qed.

(** ** Cursors *)

Context `{Htext : !TotalOrder text_cmp}.

(** A time [chrono] writes as RFC 3339, which holds no bar, and reads back. *)
Definition writable (t : Z) : Prop :=
  parse_from_rfc3339 (rfc3339_micros t) = Some t /\ str_contains (rfc3339_micros t) "|" = false.

Lemma parse_cursor t id : writable t -> parse_usage_cursor (usage_cursor t id) = Some (t, id).
Proof.
  intros [Hr Hb]. unfold parse_usage_cursor, usage_cursor.
  change (rfc3339_micros t ++ "|" ++ id)%string with (rfc3339_micros t ++ String "|" id)%string.
  by rewrite split_once_none_app, Hr.
Qed.

Lemma given_cursor t id : given (Some (usage_cursor t id)) = Some (usage_cursor t id).
Proof.
  cbn. rewrite (trim_keeps _ "|"); [done|done|]. unfold usage_cursor.
  by rewrite !str_contains_app, orb_true_r.
Qed.

Lemma plan_limit_pos q plan : plan_usage_query q = Ok plan -> 0 < plan_limit plan <= USAGE_QUERY_MAX_LIMIT.
Proof.
  assert (forall z, 0 < clamp 1 USAGE_QUERY_MAX_LIMIT z <= USAGE_QUERY_MAX_LIMIT) as Hc.
  { intros z. unfold clamp, USAGE_QUERY_MAX_LIMIT. destruct (Z.ltb_spec z 1); [lia|]. destruct (Z.ltb_spec 1000 z); lia. }
  unfold plan_usage_query. repeat (case_match; try discriminate); intros [= <-]; apply Hc.
Qed.

(** The same question after a record, or a group, asks for what follows it. *)
Lemma plan_after_record q tenant from to a limit t id : writable t ->
  plan_usage_query q = Ok (mkUsageQueryPlan tenant (Records from to a) limit) ->
  plan_usage_query (with_after (usage_cursor t id) q) = Ok (mkUsageQueryPlan tenant (Records from to (Some (t, id))) limit).
Proof.
  intros Ht. unfold plan_usage_query. cbn [q_tenant_id all_tenants q_from q_to group_by since q_after q_limit with_after].
  rewrite given_cursor. set (l := clamp _ _ _). clearbody l. repeat (case_match; try discriminate).
  all: intros [= <- <- <- ? <-]; rewrite ?parse_cursor in * by done; simplify_eq; done.
Qed.

Lemma plan_after_group q tenant from to gb a limit key : given (Some key) = Some key ->
  plan_usage_query q = Ok (mkUsageQueryPlan tenant (Groups from to gb a) limit) ->
  plan_usage_query (with_after key q) = Ok (mkUsageQueryPlan tenant (Groups from to gb (Some key)) limit).
Proof.
  intros Hk. unfold plan_usage_query. cbn [q_tenant_id all_tenants q_from q_to group_by since q_after q_limit with_after].
  rewrite Hk. set (l := clamp _ _ _). clearbody l. repeat (case_match; try discriminate).
  all: intros [= <- <- <- <- ? <-]; done.
Qed.

(** Where a reader's cursor stands in sorted rows: before the first, or on the last one
    read. *)
Definition stands {R K} (key : R -> K) (after : option K) (l1 : list R) : Prop :=
  match after with
  | None => l1 = []
  | Some k => exists l x, l1 = l ++ [x] /\ k = key x
  end.

Lemma fetch_stands {R K} (key : R -> K) (kcmp : K -> K -> comparison) `{!TotalOrder kcmp} rows after l1 rest n :
  NoDup (key <$> rows) -> in_order key kcmp rows = l1 ++ rest -> stands key after l1 ->
  fetch key kcmp after n rows = take n rest.
Proof.
  intros Hn E. destruct after as [k|]; cbn.
  - intros (l & x & -> & ->). rewrite <- app_assoc in E. cbn in E. by eapply fetch_after.
  - intros ->. cbn in E. by rewrite fetch_first, E.
Qed.

Lemma stands_next {R K} (key : R -> K) (l1 rest : list R) n y : n <> O -> rest !! (n - 1)%nat = Some y ->
  stands key (Some (key y)) (l1 ++ take n rest).
Proof.
  intros Hn Hy. exists (l1 ++ take (n - 1) rest), y. split; [|done]. rewrite <- app_assoc. f_equal.
  replace n with (S (n - 1)) at 1 by lia. by apply take_S_r.
Qed.

Section Reading.
Variable table : list (UsageRow (V := V)).
Hypothesis table_ids : NoDup ((fun u => record_id (ur_record u)) <$> table).

Definition matching (tenant : option string) (from to : Z) : list UsageRow :=
  List.filter (fun u => tenant_is tenant u && in_period from to u) table.

Lemma matching_ids key tenant from to : (forall u, snd (key u) = record_id (ur_record u)) ->
  NoDup ((key : UsageRow -> Z * string) <$> matching tenant from to).
Proof.
  intros Hkey. unfold matching. induction table as [|u l IH]; [constructor|].
  apply NoDup_cons in table_ids as [Hu Hl]. cbn. destruct (_ && _); [|by apply IH].
  apply NoDup_cons. split; [|by apply IH].
  intros (y & E & [Hy _]%list_elem_of_In%filter_In)%list_elem_of_fmap. apply Hu, list_elem_of_fmap.
  exists y. split; [|by apply list_elem_of_In]. by rewrite <- !Hkey, E.
Qed.

Lemma matching_elem tenant from to u : u ∈ matching tenant from to -> u ∈ table.
Proof. intros [Hu _]%list_elem_of_In%filter_In. by apply list_elem_of_In. Qed.

Lemma read_records_ok fuel q tenant from to after limit l1 rest :
  plan_usage_query q = Ok (mkUsageQueryPlan tenant (Records from to after) limit) ->
  in_order ts_key (cursor_cmp text_cmp) (matching tenant from to) = l1 ++ rest -> stands ts_key after l1 ->
  (forall u, u ∈ table -> writable (ur_ts u)) ->
  (length rest < fuel)%nat -> read_all fuel table q = Some (usage_record_json <$> rest, []).
Proof.
  intros Hplan E Hs Hw. revert q after l1 rest Hplan E Hs. induction fuel as [|fuel IH]; intros q after l1 rest Hplan E Hs Hf; [lia|].
  pose proof (plan_limit_pos _ _ Hplan) as [Hl _]. cbn [plan_limit] in Hl.
  cbn [read_all]. unfold usage_query_answer. rewrite Hplan. unfold usage_query_page.
  cbn [plan_limit plan_mode plan_tenant_id]. rewrite String.eqb_refl. cbn [negb].
  rewrite (fetch_stands ts_key (cursor_cmp text_cmp) (matching tenant from to) after l1 rest);
    [|by apply matching_ids|done..].
  destruct (page_fetch record_len (record_item ts_key) limit rest Hl) as (n & last & more & -> & Hn & Hlast & Hno & Hmore).
  cbn [r_next r_records r_groups]. destruct more; cbn [next_if].
  - specialize (Hmore eq_refl). destruct Hlast as [[-> _]|(y & Hn0 & Hy & ->)]; [cbn in Hmore; lia|].
    unfold record_item at 1. cbn [fst].
    rewrite (IH _ (Some (ts_key y)) (l1 ++ take n rest) (drop n rest)).
    + cbn [snd record_item]. by rewrite <- fmap_app, take_drop.
    + rewrite (surjective_pairing (ts_key y)). eapply plan_after_record; [|done]. apply Hw.
      eapply matching_elem, (elem_of_in_order ts_key (cursor_cmp text_cmp)). rewrite E, elem_of_app. right.
      by eapply list_elem_of_lookup_2.
    + by rewrite <- app_assoc, take_drop.
    + by apply stands_next.
    + rewrite length_drop. lia.
  - by rewrite (Hno eq_refl).
Qed.

Lemma read_groups_ok fuel q tenant from to gb after limit groups l1 rest :
  plan_usage_query q = Ok (mkUsageQueryPlan tenant (Groups from to gb after) limit) ->
  usage_groups gb (matching tenant from to) = Some groups ->
  in_order g_key text_cmp groups = l1 ++ rest -> stands g_key after l1 -> NoDup (g_key <$> groups) ->
  (forall g, g ∈ groups -> given (Some (g_key g)) = Some (g_key g)) ->
  (length rest < fuel)%nat -> read_all fuel table q = Some ([], rest).
Proof.
  intros Hplan Hg E Hs Hn Hk. revert q after l1 rest Hplan E Hs.
  induction fuel as [|fuel IH]; intros q after l1 rest Hplan E Hs Hf; [lia|].
  pose proof (plan_limit_pos _ _ Hplan) as [Hl _]. cbn [plan_limit] in Hl.
  cbn [read_all]. unfold usage_query_answer. rewrite Hplan. unfold usage_query_page.
  cbn [plan_limit plan_mode plan_tenant_id]. rewrite String.eqb_refl. cbn [negb].
  change (List.filter _ table) with (matching tenant from to). rewrite Hg.
  rewrite (fetch_stands g_key text_cmp groups after l1 rest) by done.
  destruct (page_fetch group_len (fun g => (g_key g, g)) limit rest Hl) as (n & last & more & -> & Hln & Hlast & Hno & Hmore).
  cbn [r_next r_records r_groups snd]. rewrite list_fmap_id. destruct more; cbn [next_if].
  - specialize (Hmore eq_refl). destruct Hlast as [[-> _]|(y & Hn0 & Hy & ->)]; [cbn in Hmore; lia|]. cbn [fst].
    rewrite (IH _ (Some (g_key y)) (l1 ++ take n rest) (drop n rest)).
    + by rewrite take_drop.
    + apply (plan_after_group _ _ _ _ _ after); [|done]. apply Hk.
      apply (elem_of_in_order g_key text_cmp). rewrite E, elem_of_app. right. by eapply list_elem_of_lookup_2.
    + by rewrite <- app_assoc, take_drop.
    + by apply stands_next.
    + rewrite length_drop. lia.
  - by rewrite (Hno eq_refl).
Qed.

End Reading.

(** What the groups of some rows add up to is what the rows do. *)
Lemma groups_sum gb (f : UsageRow -> Z) rows keys : NoDup keys ->
  (forall u, u ∈ rows -> usage_group_key gb u ∈ keys) ->
  sum_of (fun k => sum_of f (List.filter (fun u => usage_group_key gb u =s k) rows)) keys = sum_of f rows.
Proof.
  intros Hn. induction rows as [|u rows IH]; intros Hin.
  { rewrite sum_of_nil. clear. induction keys as [|k keys IH]; [done|]. by rewrite sum_of_cons, IH. }
  rewrite sum_of_cons, <- IH by (intros; apply Hin; by right).
  assert (usage_group_key gb u ∈ keys) as Hu by (apply Hin; left). clear Hin IH.
  induction keys as [|k keys IHk]; [by apply elem_of_nil in Hu|].
  apply NoDup_cons in Hn as [Hk Hn]. rewrite !sum_of_cons. cbn [List.filter].
  destruct (String.eqb_spec (usage_group_key gb u) k) as [E|Hne].
  - rewrite sum_of_cons. subst k.
    rewrite (sum_of_ext _ (fun k => sum_of f (List.filter (fun u => usage_group_key gb u =s k) rows)) keys); [lia|].
    intros k Hk'. destruct (String.eqb_spec (usage_group_key gb u) k) as [E|]; [by rewrite <- E in Hk'|done].
  - apply elem_of_cons in Hu as [?|Hu]; [done|]. specialize (IHk Hn Hu). cbn [List.filter] in IHk. rewrite IHk. lia.
Qed.

Lemma sum_of_one {A} (l : list A) : sum_of (fun _ => 1) l = Z.of_nat (length l).
Proof. induction l as [|a l IH]; [done|]. rewrite sum_of_cons, IH. cbn [length]. lia. Qed.

Lemma usage_group_calls gb rows k : g_calls (usage_group gb rows k)
  = sum_of (fun _ => 1) (List.filter (fun u => usage_group_key gb u =s k) rows).
Proof. by rewrite sum_of_one. Qed.

Lemma sum_of_fmap {A B} (f : B -> Z) (g : A -> B) l : sum_of f (g <$> l) = sum_of (fun a => f (g a)) l.
Proof. induction l as [|a l IH]; [done|]. rewrite fmap_cons, !sum_of_cons. by rewrite IH. Qed.

Lemma usage_groups_inv gb rows groups : usage_groups gb rows = Some groups ->
  groups = usage_group gb rows <$> remove_dups (usage_group_key gb <$> rows).
Proof. unfold usage_groups. case_match; congruence. Qed.

Lemma group_keys gb rows groups : usage_groups gb rows = Some groups ->
  g_key <$> groups = remove_dups (usage_group_key gb <$> rows).
Proof.
  intros ->%usage_groups_inv. rewrite <- list_fmap_compose. cbn. apply list_fmap_id.
Qed.

Lemma groups_total gb rows groups (field : UsageGroup -> Z) (f : UsageRow -> Z) :
  usage_groups gb rows = Some groups ->
  (forall k, field (usage_group gb rows k) = sum_of f (List.filter (fun u => usage_group_key gb u =s k) rows)) ->
  sum_of field groups = sum_of f rows.
Proof.
  intros ->%usage_groups_inv Hf. rewrite sum_of_fmap, (sum_of_ext _ _ _ (fun k _ => Hf k)).
  apply groups_sum; [apply NoDup_remove_dups|]. intros u Hu.
  by apply elem_of_remove_dups, list_elem_of_fmap_2.
Qed.

(** *** Syncs *)

Abbreviation stored_cmp := (cursor_cmp text_cmp).

(** Rows in the order they were stored, the clock advancing between them. *)
Definition stored_in_order (table : list (UsageRow (V := V))) : Prop :=
  StronglySorted (before stored_key stored_cmp) table.

(** The rows a sync from [start] is for. *)
Definition to_sync (tenant : option string) (start : Z * string) (table : list (UsageRow (V := V))) : list UsageRow :=
  List.filter (after_key stored_key stored_cmp (Some start)) (List.filter (tenant_is tenant) table).

Lemma sorted_nodup (l : list (UsageRow (V := V))) : stored_in_order l -> NoDup (stored_key <$> l).
Proof.
  induction 1 as [|x l Hl IH Hx]; [constructor|]. apply NoDup_cons. split; [|done].
  intros (y & E & Hy)%list_elem_of_fmap. rewrite Forall_forall in Hx. specialize (Hx y Hy). unfold before in Hx.
  rewrite E in Hx. by rewrite (kcmp_refl stored_cmp) in Hx.
Qed.

Lemma sorted_in_order (l : list (UsageRow (V := V))) : stored_in_order l -> in_order stored_key stored_cmp l = l.
Proof. intros Hs. apply (in_order_unique stored_key stored_cmp); [done|done|by apply sorted_nodup]. Qed.

Lemma to_sync_app tenant start l l' : to_sync tenant start (l ++ l') = to_sync tenant start l ++ to_sync tenant start l'.
Proof. unfold to_sync. by rewrite !List.filter_app. Qed.

(** The rows after the last one read, of those to sync. *)
Lemma to_sync_next tenant start table l x rest : stored_in_order table ->
  to_sync tenant start table = (l ++ [x]) ++ rest -> to_sync tenant (stored_key x) table = rest.
Proof.
  intros Hs E. unfold to_sync in *. set (F := List.filter (tenant_is tenant) table) in *.
  assert (StronglySorted (before stored_key stored_cmp) F) as HF by by apply sorted_filter.
  pose proof (sorted_filter _ _ (after_key stored_key stored_cmp (Some start)) _ HF) as HM.
  rewrite E, <- app_assoc in HM. pose proof (after_split stored_key stored_cmp l x rest HM) as Ha.
  cbn [app] in Ha. rewrite <- Ha. change (l ++ x :: rest) with (l ++ [x] ++ rest). rewrite app_assoc, <- E.
  symmetry. apply filter_filter_impl. intros y Hy.
  assert (x ∈ List.filter (after_key stored_key stored_cmp (Some start)) F) as [_ Hx]%list_elem_of_In%filter_In.
  { rewrite E. apply elem_of_app. left. apply elem_of_app. right. left. }
  cbn in *. destruct (stored_cmp (stored_key y) (stored_key x)) eqn:Eyx; [done..|].
  destruct (stored_cmp (stored_key x) start) eqn:Exs; [done..|].
  rewrite (gt_le_trans stored_cmp (stored_key y) start (stored_key x)); [done|done|].
  rewrite (cmp_antisym stored_cmp), Exs. done.
Qed.

Section Syncing.
Context (limit : option Z) (tenant : option string) (all : bool) (tn : option string) (lim : Z) (start : Z * string).
Context (start_cursor : string).
Hypothesis start_plan :
  plan_usage_query (sync_query limit tenant all start_cursor) = Ok (mkUsageQueryPlan tn (Since (fst start) (snd start)) lim).

(** A cursor that stands after the rows read. *)
Definition cursor_at (c : string) (read : list UsageRow) : Prop :=
  given (Some c) = Some c /\
  parse_usage_cursor c = Some (match last read with Some x => stored_key x | None => start end).

Lemma start_at : cursor_at start_cursor [].
Proof.
  unfold cursor_at. revert start_plan. unfold plan_usage_query, sync_query. cbn [since q_tenant_id all_tenants].
  destruct (match given tenant, all with Some t, false => _ | None, true => _ | _, _ => _ end); [|done].
  destruct (given (Some start_cursor)) as [c|] eqn:Eg; [|done].
  assert (c = start_cursor) as -> by (cbn in Eg; case_match; congruence). cbn.
  destruct (parse_usage_cursor start_cursor) as [[t id]|]; [|done]. intros [= _ -> -> _]. by destruct start.
Qed.

Lemma sync_plan c k : given (Some c) = Some c -> parse_usage_cursor c = Some k ->
  plan_usage_query (sync_query limit tenant all c) = Ok (mkUsageQueryPlan tn (Since (fst k) (snd k)) lim).
Proof.
  intros Hg Hp. pose proof start_at as [Hg0 Hp0]. revert start_plan. unfold plan_usage_query, sync_query.
  cbn [since q_tenant_id all_tenants q_limit q_after q_from q_to group_by]. rewrite Hg, Hg0, Hp, Hp0.
  destruct (match given tenant, all with Some t, false => _ | None, true => _ | _, _ => _ end); [|done].
  cbn. destruct start as [t0 id0], k as [t id]. intros [= -> ->]. done.
Qed.

(** A sync reads the next rows, one at least if there is one. *)
Lemma sync_step table c read rest : stored_in_order table -> (forall u, u ∈ table -> writable (ur_stored_at u)) ->
  to_sync tn start table = read ++ rest -> cursor_at c read ->
  exists n c', sync limit tenant all table c = Some (usage_record_json <$> take n rest, c') /\
    cursor_at c' (read ++ take n rest) /\ (rest <> [] -> n <> O).
Proof.
  intros Hs Hw E [Hg Hp]. pose proof (sync_plan c _ Hg Hp) as Hplan.
  pose proof (plan_limit_pos _ _ Hplan) as [Hl _]. cbn [plan_limit] in Hl.
  unfold sync, usage_query_answer. rewrite Hplan, String.eqb_refl. cbn [negb]. unfold usage_query_page.
  cbn [plan_limit plan_mode plan_tenant_id]. rewrite <- surjective_pairing.
  set (k := match last read with Some x => stored_key x | None => start end).
  assert (fetch stored_key stored_cmp (Some k) (Z.to_nat (lim + 1)) (List.filter (tenant_is tn) table)
    = take (Z.to_nat (lim + 1)) rest) as ->.
  { unfold fetch. f_equal. rewrite sorted_in_order by (do 2 apply sorted_filter; done).
    change (to_sync tn k table = rest). subst k. destruct read as [|x l _] using rev_ind; [done|].
    rewrite last_snoc. by apply (to_sync_next tn start table l). }
  destruct (page_fetch record_len (record_item stored_key) lim rest Hl) as (n & lst & more & -> & Hn & Hlast & _).
  exists n, (unwrap_or c lst). split; [done|].
  destruct Hlast as [[-> ->]|(y & Hn0 & Hy & ->)].
  - rewrite take_nil, app_nil_r. split; [done|]. intros []. done.
  - split; [|done]. cbn [unwrap_or]. unfold record_item. cbn [fst]. split; [apply given_cursor|].
    rewrite parse_cursor.
    + destruct (stands_next stored_key read rest n y Hn0 Hy) as (l & x & -> & Ek).
      rewrite last_snoc, <- Ek. by destruct (stored_key y).
    + apply Hw. assert (y ∈ to_sync tn start table) as Hin.
      { rewrite E. apply elem_of_app. right. by eapply list_elem_of_lookup_2. }
      unfold to_sync in Hin. apply list_elem_of_In, filter_In in Hin as [[Hin _]%filter_In _]. by apply list_elem_of_In.
Qed.

Lemma take_sorted n (table : list (UsageRow (V := V))) : stored_in_order table -> stored_in_order (take n table).
Proof.
  unfold stored_in_order. intros Hs. rewrite <- (take_drop n table) in Hs. revert Hs.
  generalize (drop n table) as l'. induction (take n table) as [|x l IH]; intros l' Hs; [constructor|].
  cbn in Hs. apply StronglySorted_inv in Hs as [Hs Hx]. apply Forall_app in Hx as [Hx _].
  constructor; [by eapply IH|done].
Qed.

Lemma to_sync_take table n m : (n <= m)%nat -> exists l, to_sync tn start (take m table) = to_sync tn start (take n table) ++ l.
Proof.
  intros H. exists (to_sync tn start (drop n (take m table))). rewrite <- to_sync_app.
  by rewrite <- (take_drop n (take m table)) at 1; rewrite take_take, Nat.min_l.
Qed.

Lemma sync_all_ok table ns n c read rest : stored_in_order table -> (forall u, u ∈ table -> writable (ur_stored_at u)) ->
  StronglySorted le (n :: ns) -> to_sync tn start (take n table) = read ++ rest -> cursor_at c read ->
  exists rs c' read' rest',
    sync_all limit tenant all ((fun n => take n table) <$> ns) c = Some (usage_record_json <$> rs, c') /\
    read' = read ++ rs /\ to_sync tn start (take (List.last ns n) table) = read' ++ rest' /\ cursor_at c' read'.
Proof.
  intros Hs Hw. revert n c read rest. induction ns as [|m ns IH]; intros n c read rest Hns E Hc.
  - exists [], c, read, rest. cbn. by rewrite app_nil_r.
  - apply StronglySorted_inv in Hns as [Hns Hn]. apply Forall_cons in Hn as [Hnm _].
    destruct (to_sync_take table n m Hnm) as [l El]. rewrite E, <- app_assoc in El.
    destruct (sync_step (take m table) c read (rest ++ l)) as (k & c1 & Hsync & Hc1 & _);
      [by apply take_sorted|intros u Hu; apply Hw; by eapply subseteq_take in Hu|done|done|].
    destruct (IH m c1 (read ++ take k (rest ++ l)) (drop k (rest ++ l))) as (rs & c' & read' & rest' & Ha & Hr & Et & Hc');
      [done|by rewrite <- app_assoc, take_drop|done|].
    exists (take k (rest ++ l) ++ rs), c', read', rest'. cbn [fmap list_fmap sync_all]. rewrite Hsync.
    change (list_fmap _ _ (fun n => take n table) ns) with ((fun n => take n table) <$> ns).
    rewrite Ha, fmap_app. split; [done|]. split; [by rewrite Hr, app_assoc|]. split; [|done].
    rewrite <- Et. f_equal. f_equal. destruct ns as [|m' ns]; [done|]. cbn [List.last]. clear. revert m'. induction ns; intros; [done|]. cbn. auto.
Qed.

(** A reader that syncs by [since] and keeps the cursor it is given misses no record and gets
    none twice, though records are stored between its questions: after any questions,
    on the table as it was at each, it holds the first records of those stored after its
    start, in the order they were stored, and a question that brings nothing shows it
    holds them all. The rows were stored one after the other by an advancing clock. *)
Theorem sync_misses_nothing table ns n : stored_in_order table -> (forall u, u ∈ table -> writable (ur_stored_at u)) ->
  StronglySorted le (0%nat :: ns ++ [n]) ->
  exists rs c page c',
    sync_all limit tenant all ((fun n => take n table) <$> ns) start_cursor = Some (usage_record_json <$> rs, c) /\
    rs `prefix_of` to_sync tn start (take n table) /\
    sync limit tenant all (take n table) c = Some (page, c') /\
    (page = [] -> rs = to_sync tn start (take n table)).
Proof.
  intros Hs Hw Hns.
  assert (StronglySorted le (0%nat :: ns) /\ (List.last ns 0%nat <= n)%nat) as [Hns' Hlast].
  { revert Hns. generalize 0%nat. induction ns as [|m ns IH]; intros k Hk.
    - split; [by repeat constructor|]. apply StronglySorted_inv in Hk as [_ Hk]. by apply Forall_cons in Hk as [? _].
    - cbn in Hk. apply StronglySorted_inv in Hk as [Hk Hf]. destruct (IH m Hk) as [H1 H2].
      apply (Forall_app _ (m :: ns) [n]) in Hf as [Hf _]. split; [by constructor|].
      destruct ns as [|m' ns]; [done|]. cbn [List.last] in *. clear -H2. revert m' H2. induction ns; intros; cbn in *; auto. }
  destruct (sync_all_ok table ns 0 start_cursor [] []) as (rs & c & read & rest & Ha & -> & Et & Hc);
    [done..|apply start_at|]. cbn [app] in *.
  destruct (to_sync_take table _ n Hlast) as [l El]. rewrite Et, <- app_assoc in El.
  destruct (sync_step (take n table) c rs (rest ++ l)) as (k & c' & Hsync & _ & Hk);
    [by apply take_sorted|intros u Hu; apply Hw; by eapply subseteq_take in Hu|done|done|].
  exists rs, c, (usage_record_json <$> take k (rest ++ l)), c'. split; [done|].
  split; [rewrite El; by eexists|]. split; [done|]. intros Hp%fmap_nil_inv. rewrite El.
  destruct (rest ++ l) as [|x r]; [by rewrite app_nil_r|]. destruct k; [by destruct Hk|done].
Qed.

End Syncing.

(** ** Theorems *)

(** A reader that asks for a period's records and follows [next] until there is none gets each
    matching record once, in the order of time and record id, and stops: no page
    boundary, whatever the limit or the page's bytes, skips or repeats a record. *)
Theorem records_paging_complete fuel table q tenant from to limit :
  NoDup ((fun u => record_id (ur_record u)) <$> table) -> (forall u, u ∈ table -> writable (ur_ts u)) ->
  plan_usage_query q = Ok (mkUsageQueryPlan tenant (Records from to None) limit) ->
  (length table < fuel)%nat ->
  read_all fuel table q
    = Some (usage_record_json <$> in_order ts_key (cursor_cmp text_cmp) (matching table tenant from to), []).
Proof.
  intros Hn Hw Hplan Hf. eapply (read_records_ok table Hn fuel q _ _ _ None limit []); [done..|].
  unfold in_order. rewrite sort_by_perm. unfold matching. pose proof (filter_length_le (fun u => tenant_is tenant u && in_period from to u) table). lia.
Qed.

(** A reader that asks for a period's groups and follows [next] gets one group per key of a
    matching record, in key order, and the calls and the output tokens of what it read
    add up to those of the period, if no sum overflows its column and no key is
    blank. *)
Theorem groups_paging_complete fuel table q tenant from to gb limit groups :
  plan_usage_query q = Ok (mkUsageQueryPlan tenant (Groups from to gb None) limit) ->
  usage_groups gb (matching table tenant from to) = Some groups ->
  (forall u, u ∈ matching table tenant from to ->
     given (Some (usage_group_key gb u)) = Some (usage_group_key gb u)) ->
  (length groups < fuel)%nat ->
  read_all fuel table q = Some ([], in_order g_key text_cmp groups) /\
  (forall k, k ∈ g_key <$> groups <-> exists u, u ∈ matching table tenant from to /\ usage_group_key gb u = k) /\
  sum_of g_calls groups = Z.of_nat (length (matching table tenant from to)) /\
  sum_of g_output groups = column_sum output (matching table tenant from to).
Proof.
  intros Hplan Hg Hk Hf.
  assert (forall k, k ∈ g_key <$> groups <-> exists u, u ∈ matching table tenant from to /\ usage_group_key gb u = k) as Hkeys.
  { intros k. rewrite (group_keys _ _ _ Hg), elem_of_remove_dups, list_elem_of_fmap. naive_solver. }
  split; [|split; [done|split]].
  - eapply (read_groups_ok table fuel q _ _ _ _ None limit groups []); try done.
    + rewrite (group_keys _ _ _ Hg). apply NoDup_remove_dups.
    + intros g Hin. assert (g_key g ∈ g_key <$> groups) as (u & Hu & <-)%Hkeys by by apply list_elem_of_fmap_2.
      by apply Hk.
    + unfold in_order. by rewrite sort_by_perm.
  - rewrite (groups_total _ _ _ g_calls (fun _ => 1) Hg) by apply usage_group_calls.
    apply sum_of_one.
  - by apply (groups_total _ _ _ g_output _ Hg).
Qed.


End Query.

(** ** Concrete inputs *)

Module QueryExamples.
Import StorageExamples.

(** Two days of a calendar. *)
Definition day1 : Z := 1767225600 * SECOND.
Definition day2 : Z := 1767312000 * SECOND.

Definition write_time (t : Z) : string :=
  if t =? day1 then "2026-01-01T00:00:00Z" else if t =? day2 then "2026-01-02T00:00:00Z" else "2026-02-01T00:00:00Z".

Definition parse_time (s : string) : option Z :=
  if s =s "2026-01-01T00:00:00Z" then Some day1
  else if s =s "2026-01-02T00:00:00Z" then Some day2
  else if s =s "2026-02-01T00:00:00Z" then Some (day1 + 31 * 86400 * SECOND) else None.

Definition name_day (t : Z) : string := if t =? day1 then "2026-01-01" else "2026-01-02".

Definition record (id : string) : UsageRecord Doc :=
  mkUsageRecord id None "2026-01-01T00:00:00Z" "branch" "AI.support@branch" None
    "tnt:7" TsNode None "openai" "gpt" None None Generate UoOk (Some 10) None None (Some 5) None None None None None.

(** Two records, the later day's stored first. *)
Definition table : list (UsageRow (V := Doc)) :=
  [mkUsageRow (record "b") day2 day1 (mkUsageCharge "tnt:7" true);
   mkUsageRow (record "a") day1 day2 (mkUsageCharge "tnt:7" true)].

Definition one_byte (r : list (string * Column (V := Doc))) : nat := 1.
Definition one_group_byte (g : UsageGroup) : nat := 1.

(** January, a record a page. *)
Definition january : UsageQuery :=
  mkUsageQuery (Some "tnt:7"%string) false (Some "2026-01-01T00:00:00Z"%string) (Some "2026-02-01T00:00:00Z"%string)
    None None None (Some 1).

Lemma table_writable u : u ∈ table -> writable parse_time write_time (ur_ts u) /\ writable parse_time write_time (ur_stored_at u).
Proof. intros [->|[->|?%elem_of_nil]%elem_of_cons]%elem_of_cons; [..|done]; by vm_compute. Qed.

Lemma records_paging_complete_witness :
  read_all parse_time write_time one_byte one_group_byte name_day String.compare 3 table january
  = Some ([usage_record_json write_time (mkUsageRow (record "a") day1 day2 (mkUsageCharge "tnt:7" true));
           usage_record_json write_time (mkUsageRow (record "b") day2 day1 (mkUsageCharge "tnt:7" true))], []).
Proof.
  refine (eq_trans (records_paging_complete parse_time write_time one_byte one_group_byte name_day String.compare 3 table
    january (Some "tnt:7"%string) day1 (day1 + 31 * 86400 * SECOND) 1 _ _ _ _) _).
  - apply (bool_decide_unpack _). vm_compute. exact I.
  - intros u Hu. apply (table_writable u Hu).
  - vm_compute. reflexivity.
  - cbn. lia.
  - vm_compute. reflexivity.
Defined.

(** January by day, a group a page. *)
Definition by_day : UsageQuery :=
  mkUsageQuery None true (Some "2026-01-01T00:00:00Z"%string) (Some "2026-02-01T00:00:00Z"%string)
    (Some GbDay) None None (Some 1).

Lemma groups_paging_complete_witness :
  read_all parse_time write_time one_byte one_group_byte name_day String.compare 3 table by_day
  = Some ([], [mkUsageGroup "2026-01-01" 1 10 0 0 5 0; mkUsageGroup "2026-01-02" 1 10 0 0 5 0]).
Proof.
  refine (eq_trans (proj1 (groups_paging_complete parse_time write_time one_byte one_group_byte name_day String.compare 3
    table by_day None day1 (day1 + 31 * 86400 * SECOND) GbDay 1
    [mkUsageGroup "2026-01-02" 1 10 0 0 5 0; mkUsageGroup "2026-01-01" 1 10 0 0 5 0] _ _ _ _)) _).
  - vm_compute. reflexivity.
  - vm_compute. reflexivity.
  - intros u [Hu _]%list_elem_of_In%filter_In. revert Hu. rewrite <- list_elem_of_In.
    intros [->|[->|?%elem_of_nil]%elem_of_cons]%elem_of_cons; [..|done]; by vm_compute.
  - cbn. lia.
  - vm_compute. reflexivity.
Defined.

(** A reader that starts in 2025 and asks after each of the two records was stored. *)
Definition parse_time_from (s : string) : option Z := if s =s "2025" then Some 0 else parse_time s.

Lemma sync_misses_nothing_witness : exists rs c page c',
  sync_all parse_time_from write_time one_byte one_group_byte name_day String.compare (Some 1) None true
    [take 1 table; table] "2025" = Some (usage_record_json write_time <$> rs, c) /\
  rs `prefix_of` to_sync String.compare None (0, ""%string) table /\
  sync parse_time_from write_time one_byte one_group_byte name_day String.compare (Some 1) None true table c
    = Some (page, c') /\
  (page = [] -> rs = to_sync String.compare None (0, ""%string) table).
Proof.
  refine (sync_misses_nothing parse_time_from write_time one_byte one_group_byte name_day String.compare
    (Some 1) None true None 1 (0, ""%string) "2025" _ table [1%nat; 2%nat] 2 _ _ _).
  - vm_compute. reflexivity.
  - repeat constructor.
  - intros u [->|[->|?%elem_of_nil]%elem_of_cons]%elem_of_cons; [..|done]; by vm_compute.
  - repeat constructor.
Defined.

End QueryExamples.
