(* ===== verification/Glob.v ===== *)
(** * Name patterns: exact, prefix and glob

    [wildcard_match], [pattern_match] and [pattern_match_kind] of
    src/src/router/mod.rs, and the reference semantics of a [*] pattern they are
    compared with. *)

From Stdlib Require Import ZArith Lia Ascii String Strings.Byte.
From stdpp Require Import base list.
From S2P Require Import Prelude.
Open Scope nat_scope.

Definition star_byte : byte := Byte.x2a.

(** ** The code *)

(** The first loop of [wildcard_match]: [None] is its [return false]; [Some pi] is
    where the loop leaves the pattern index. *)
Fixpoint wildcard_loop (fuel : nat) (pattern text : list byte) (pi ti : nat)
  (star : option nat) (match_idx : nat) : option nat :=
  match fuel with
  | 0 => None
  | S fuel =>
    match text !! ti with
    | None => Some pi
    | Some c =>
      if match pattern !! pi with Some b => Byte.eqb b c | None => false end then
        wildcard_loop fuel pattern text (pi + 1) (ti + 1) star match_idx
      else if match pattern !! pi with Some b => Byte.eqb b star_byte | None => false end then
        wildcard_loop fuel pattern text (pi + 1) ti (Some pi) ti
      else match star with
      | Some star_idx =>
        wildcard_loop fuel pattern text (star_idx + 1) (match_idx + 1) star (match_idx + 1)
      | None => None
      end
    end
  end.

(** The second loop: skip the stars that are left. *)
Fixpoint skip_stars (pattern : list byte) : list byte :=
  match pattern with
  | b :: rest => if Byte.eqb b star_byte then skip_stars rest else pattern
  | [] => []
  end.

Definition wildcard_fuel (pattern text : list byte) : nat :=
  (length text + 1) * (length pattern + 1) + 1.

Definition wildcard_match (pattern text : list byte) : bool :=
  match wildcard_loop (wildcard_fuel pattern text) pattern text 0 0 None 0 with
  | None => false
  | Some pi => match skip_stars (drop pi pattern) with [] => true | _ => false end
  end.

Definition pattern_match (pattern name : string) : bool :=
  if str_contains pattern "*"%char then wildcard_match (as_bytes pattern) (as_bytes name)
  else (pattern =s name)%string.

Definition MATCH_EXACT : Z := 0.
Definition MATCH_PREFIX : Z := 1.
Definition MATCH_GLOB : Z := 2.

Definition pattern_match_kind (match_kind : Z) (pattern name : string) : bool :=
  if Z.eqb match_kind MATCH_EXACT then (pattern =s name)%string
  else if Z.eqb match_kind MATCH_PREFIX then
    starts_with name (trim_end_matches ".*" pattern)
  else if Z.eqb match_kind MATCH_GLOB then wildcard_match (as_bytes pattern) (as_bytes name)
  else false.

(** ** The reference

    A [*] stands for any bytes, none included; any other byte for itself. *)

Fixpoint suffix_sat (P : list byte -> bool) (text : list byte) : bool :=
  P text || match text with [] => false | _ :: rest => suffix_sat P rest end.

Fixpoint glob (pattern : list byte) : list byte -> bool :=
  match pattern with
  | [] => fun text => match text with [] => true | _ => false end
  | b :: rest => fun text =>
    if Byte.eqb b star_byte then suffix_sat (glob rest) text
    else match text with [] => false | c :: text => Byte.eqb b c && glob rest text end
  end.

Definition star_free (text : list byte) : Prop := Forall (fun c => c <> star_byte) text.

(** ** Lemmas on the reference *)

Lemma byte_eqb_iff (a b : byte) : Byte.eqb a b = true <-> a = b.
Proof. split; [apply byte_dec_bl|apply byte_dec_lb]. Qed.

Lemma byte_eqb_refl (b : byte) : Byte.eqb b b = true.
Proof. by apply byte_eqb_iff. Qed.

Lemma byte_eqb_neq (a b : byte) : Byte.eqb a b = false <-> a <> b.
Proof. rewrite <- byte_eqb_iff. by destruct (Byte.eqb a b). Qed.

Lemma suffix_sat_iff P text : suffix_sat P text = true <-> exists j, j <= length text /\ P (drop j text) = true.
Proof.
  induction text as [|c text IH]; cbn.
  - rewrite orb_false_r. split; [by exists 0|]. intros (j & Hj & H). by destruct j; [|lia].
  - rewrite orb_true_iff, IH. split.
    + intros [H|(j & Hj & H)]; [by exists 0; split; [lia|]|by exists (S j); split; [lia|]].
    + intros ([|j] & Hj & H); [by left|right]. exists j. split; [lia|done].
Qed.

Lemma glob_star rest text : glob (star_byte :: rest) text = suffix_sat (glob rest) text.
Proof. done. Qed.

(** A star takes whatever precedes. *)
Lemma suffix_sat_app P pre text : suffix_sat P text = true -> suffix_sat P (pre ++ text) = true.
Proof.
  rewrite !suffix_sat_iff. intros (j & Hj & H). exists (length pre + j). rewrite length_app.
  split; [lia|]. rewrite drop_app. rewrite drop_ge by lia. cbn.
  by replace (length pre + j - length pre) with j by lia.
Qed.

Lemma glob_lit lit rest text : star_free lit -> glob (lit ++ rest) (lit ++ text) = glob rest text.
Proof.
  induction 1 as [|c lit Hc _ IH]; [done|]. cbn.
  apply byte_eqb_neq in Hc as ->. by rewrite byte_eqb_refl, IH.
Qed.

Lemma glob_lit_inv lit rest text : star_free lit -> glob (lit ++ rest) text = true ->
  exists text', text = lit ++ text' /\ glob rest text' = true.
Proof.
  intros Hl. revert text. induction Hl as [|c lit Hc _ IH]; intros text; [by exists text|]. cbn.
  apply byte_eqb_neq in Hc as ->. destruct text as [|d text]; [done|].
  rewrite andb_true_iff, byte_eqb_iff. intros [<- (text' & -> & H)%IH]. by exists text'.
Qed.

Lemma glob_nil pattern : glob pattern [] = match skip_stars pattern with [] => true | _ => false end.
Proof. induction pattern as [|b rest IH]; [done|]. cbn. destruct (Byte.eqb b star_byte); [by rewrite orb_false_r|done]. Qed.

(** Under a star, the leftmost occurrence of a literal is as good as any. *)
Lemma leftmost_literal lit rest text : star_free lit ->
  suffix_sat (glob (lit ++ star_byte :: rest)) (lit ++ text) = suffix_sat (glob rest) text.
Proof.
  intros Hl. apply eq_bool_prop_intro. rewrite !Is_true_true. split; intros H.
  - apply suffix_sat_iff in H as (j & Hj & H).
    apply glob_lit_inv in H as (text' & Ht & H); [|done]. rewrite glob_star in H.
    assert (text' = drop j text) as ->.
    { transitivity (drop (length lit) (drop j (lit ++ text))); [by rewrite Ht, drop_app_length|].
      rewrite drop_drop, Nat.add_comm, <- drop_drop, drop_app_length. done. }
    rewrite <- (take_drop j text). by apply suffix_sat_app.
  - apply suffix_sat_iff. exists 0. split; [lia|]. by rewrite drop_0, glob_lit.
Qed.

Lemma suffix_sat_cons P c text : suffix_sat P (c :: text) = P (c :: text) || suffix_sat P text.
Proof. done. Qed.

Lemma literal_to_the_end lit rest : star_free lit ->
  suffix_sat (glob (lit ++ rest)) lit = glob rest [].
Proof.
  intros Hl. apply eq_bool_prop_intro. rewrite !Is_true_true. split; intros H.
  - apply suffix_sat_iff in H as (j & Hj & H).
    apply glob_lit_inv in H as (text' & Ht & H); [|done].
    apply (f_equal length) in Ht as Hlen. rewrite length_drop, length_app in Hlen.
    by destruct text' as [|? ?]; [|cbn in Hlen; lia].
  - apply suffix_sat_iff. exists 0. split; [lia|]. rewrite drop_0.
    rewrite <- (app_nil_r lit) at 2. by rewrite glob_lit.
Qed.

(** ** The loop computes the reference *)

(** What the loop's variables say about the question that is left. *)
Definition loop_inv (P T : list byte) (pi ti : nat) (star : option nat) (mi : nat) : Prop :=
  pi <= length P /\ mi <= ti <= length T /\
  match star with
  | None => glob P T = glob (drop pi P) (drop ti T)
  | Some s => exists lit, star_free lit /\ pi = s + 1 + length lit /\ ti = mi + length lit /\
      drop (s + 1) P = lit ++ drop pi P /\ drop mi T = lit ++ drop ti T /\
      glob P T = suffix_sat (glob (drop (s + 1) P)) (drop mi T)
  end.

Definition loop_answer (P : list byte) (r : option nat) : bool :=
  match r with
  | None => false
  | Some pi => match skip_stars (drop pi P) with [] => true | _ => false end
  end.

Section Loop.
Variables (P T : list byte).
Hypothesis HT : star_free T.

Lemma drop_lookup (l : list byte) i x : l !! i = Some x -> drop i l = x :: drop (i + 1) l.
Proof. intros H. rewrite Nat.add_1_r. by apply drop_S. Qed.

Lemma inv_literal pi ti star mi c :
  loop_inv P T pi ti star mi -> T !! ti = Some c -> P !! pi = Some c ->
  loop_inv P T (pi + 1) (ti + 1) star mi.
Proof.
  intros (Hp & Ht & H) HT' HP'. pose proof (lookup_lt_Some _ _ _ HT'). pose proof (lookup_lt_Some _ _ _ HP').
  assert (c <> star_byte) as Hc by (eapply (Forall_lookup_1 _ _ _ _ HT HT')).
  split; [lia|]. split; [lia|]. destruct star as [s|].
  - destruct H as (lit & Hl & -> & -> & Hq & Hm & Hg). exists (lit ++ [c]).
    rewrite length_app. cbn [length]. split_and!; try lia; try done.
    + by apply Forall_app; repeat constructor.
    + rewrite Hq, (drop_lookup _ _ _ HP'), <- app_assoc. done.
    + rewrite Hm, (drop_lookup _ _ _ HT'), <- app_assoc. done.
  - rewrite H, (drop_lookup _ _ _ HP'), (drop_lookup _ _ _ HT'). cbn.
    apply byte_eqb_neq in Hc as ->. by rewrite byte_eqb_refl.
Qed.

Lemma inv_star pi ti star mi :
  loop_inv P T pi ti star mi -> P !! pi = Some star_byte -> ti < length T ->
  loop_inv P T (pi + 1) ti (Some pi) ti.
Proof.
  intros (Hp & Ht & H) HP' Hlt. pose proof (lookup_lt_Some _ _ _ HP').
  split; [lia|]. split; [lia|]. exists []. cbn [length app]. split_and!; try lia; try done; [constructor|].
  rewrite (drop_lookup _ _ _ HP') in H. destruct star as [s|]; [|by rewrite H, glob_star].
  destruct H as (lit & Hl & _ & _ & Hq & Hm & Hg). by rewrite Hg, Hq, Hm, leftmost_literal.
Qed.

Lemma inv_back pi ti s mi c :
  loop_inv P T pi ti (Some s) mi -> T !! ti = Some c -> P !! pi <> Some c -> P !! pi <> Some star_byte ->
  loop_inv P T (s + 1) (mi + 1) (Some s) (mi + 1).
Proof.
  intros (Hp & Ht & lit & Hl & -> & -> & Hq & Hm & Hg) HT' H1 H2.
  pose proof (lookup_lt_Some _ _ _ HT'). split; [lia|]. split; [lia|].
  exists []. cbn [length app]. split_and!; try lia; try done; [constructor|].
  rewrite Hg. assert (glob (drop (s + 1) P) (drop mi T) = false) as Hf.
  { rewrite Hq, Hm, glob_lit, (drop_lookup _ _ _ HT') by done.
    destruct (P !! (s + 1 + length lit)) as [b|] eqn:E.
    - rewrite (drop_lookup _ _ _ E). cbn. assert (b <> star_byte) as ->%byte_eqb_neq by congruence.
      assert (b <> c) as ->%byte_eqb_neq by congruence. done.
    - apply lookup_ge_None in E. by rewrite drop_ge by lia. }
  destruct (lookup_lt_is_Some_2 T mi ltac:(lia)) as [d Hd].
  rewrite (drop_lookup _ _ _ Hd), suffix_sat_cons in *. by rewrite Hf.
Qed.

Lemma inv_stuck pi ti mi c :
  loop_inv P T pi ti None mi -> T !! ti = Some c -> P !! pi <> Some c -> P !! pi <> Some star_byte ->
  glob P T = false.
Proof.
  intros (Hp & Ht & ->) HT' H1 H2. rewrite (drop_lookup _ _ _ HT'). destruct (P !! pi) as [b|] eqn:E.
  - rewrite (drop_lookup _ _ _ E). cbn. assert (b <> star_byte) as ->%byte_eqb_neq by congruence.
    assert (b <> c) as ->%byte_eqb_neq by congruence. done.
  - apply lookup_ge_None in E. by rewrite drop_ge by lia.
Qed.

Lemma inv_end pi ti star mi :
  loop_inv P T pi ti star mi -> T !! ti = None -> glob P T = loop_answer P (Some pi).
Proof.
  intros (Hp & Ht & H) Hend%lookup_ge_None. cbn. rewrite <- glob_nil.
  rewrite (drop_ge T ti) in H by lia. destruct star as [s|]; [|done].
  destruct H as (lit & Hl & _ & _ & Hq & Hm & Hg). rewrite app_nil_r in Hm.
  by rewrite Hg, Hq, Hm, literal_to_the_end.
Qed.

(** Each turn of the loop lowers this. *)
Definition loop_measure (pi mi : nat) : nat :=
  (length T - mi) * (length P + 1) + (length P - pi).

Lemma wildcard_loop_glob fuel : forall pi ti star mi,
  loop_inv P T pi ti star mi -> loop_measure pi mi < fuel ->
  loop_answer P (wildcard_loop fuel P T pi ti star mi) = glob P T.
Proof.
  induction fuel as [|fuel IH]; intros pi ti star mi Hinv Hfuel; [lia|]. cbn [wildcard_loop].
  pose proof Hinv as (Hp & Ht & Hs). unfold loop_measure in *.
  destruct (T !! ti) as [c|] eqn:Ec; [|symmetry; by eapply inv_end].
  pose proof (lookup_lt_Some _ _ _ Ec) as Hlt.
  destruct (P !! pi) as [b|] eqn:Eb.
  - pose proof (lookup_lt_Some _ _ _ Eb). destruct (Byte.eqb b c) eqn:E1.
    { apply byte_eqb_iff in E1 as ->. apply IH; [by eapply inv_literal|lia]. }
    apply byte_eqb_neq in E1. destruct (Byte.eqb b star_byte) eqn:E2.
    { apply byte_eqb_iff in E2 as ->. apply IH; [by eapply inv_star|]. nia. }
    apply byte_eqb_neq in E2. destruct star as [s|].
    + apply IH; [eapply inv_back; [done..|congruence|congruence]|]. nia.
    + symmetry. eapply inv_stuck; [done..|congruence|congruence].
  - destruct star as [s|].
    + apply IH; [eapply inv_back; [done..|congruence|congruence]|]. nia.
    + symmetry. eapply inv_stuck; [done..|congruence|congruence].
Qed.

End Loop.

(** The router's glob matcher, an iterative one that backtracks to the last star
    only, decides the usual meaning of a [*] pattern on every text without a [*]; it
    always terminates, within (|text|+1)(|pattern|+1) turns. *)
Theorem wildcard_match_is_glob (pattern text : list byte) :
  star_free text -> wildcard_match pattern text = glob pattern text.
Proof.
  intros HT. apply (wildcard_loop_glob pattern text HT).
  - split_and!; try lia; try done.
  - unfold loop_measure, wildcard_fuel. nia.
Qed.

Lemma wildcard_match_is_glob_witness :
  glob (as_bytes "AI.*.frontdesk@*") (as_bytes "AI.sales.frontdesk@h1") = true /\
  wildcard_match (as_bytes "AI.*.frontdesk@*") (as_bytes "AI.sales.frontdesk@h1")
  = glob (as_bytes "AI.*.frontdesk@*") (as_bytes "AI.sales.frontdesk@h1").
Proof.
  split; [reflexivity|]. apply wildcard_match_is_glob.
  repeat (apply Forall_cons; split; [discriminate|]). apply Forall_nil. exact I.
Defined.

(** ** Texts with a star *)

Section Sound.
Variables (P T : list byte).

(** Whatever is left to match, matching it matches the whole. *)
Definition sound_inv (pi ti : nat) (star : option nat) (mi : nat) : Prop :=
  (glob (drop pi P) (drop ti T) = true -> glob P T = true) /\
  match star with
  | None => True
  | Some s => P !! s = Some star_byte /\
      (suffix_sat (glob (drop (s + 1) P)) (drop mi T) = true -> glob P T = true)
  end.

Lemma glob_cons_same b rest text : glob rest text = true -> glob (b :: rest) (b :: text) = true.
Proof.
  intros H. cbn [glob]. destruct (Byte.eqb b star_byte).
  - apply suffix_sat_iff. exists 1. split; [cbn; lia|done].
  - by rewrite byte_eqb_refl.
Qed.

Lemma suffix_sat_drop1 Q text i : suffix_sat Q (drop (i + 1) text) = true -> suffix_sat Q (drop i text) = true.
Proof.
  rewrite <- drop_drop. intros H. rewrite <- (take_drop 1 (drop i text)). by apply suffix_sat_app.
Qed.

Lemma wildcard_loop_sound fuel : forall pi ti star mi,
  sound_inv pi ti star mi -> loop_answer P (wildcard_loop fuel P T pi ti star mi) = true ->
  glob P T = true.
Proof.
  induction fuel as [|fuel IH]; intros pi ti star mi [Ha Hs]; [done|]. cbn [wildcard_loop].
  destruct (T !! ti) as [c|] eqn:Ec.
  2: { cbn. rewrite <- glob_nil. apply lookup_ge_None in Ec. by rewrite (drop_ge T) in Ha by lia. }
  assert (forall s, star = Some s ->
    sound_inv (s + 1) (mi + 1) star (mi + 1)) as Hback.
  { intros s ->. destruct Hs as [Hst Hs]. split; [|split; [done|]]; intros H; apply Hs, suffix_sat_drop1.
    - apply suffix_sat_iff. exists 0. split; [lia|done].
    - done. }
  destruct (P !! pi) as [b|] eqn:Eb; [|destruct star; [by apply IH, Hback|done]].
  destruct (Byte.eqb b c) eqn:E1.
  { apply byte_eqb_iff in E1 as ->. apply IH. split; [|done]. intros H. apply Ha.
    rewrite (drop_lookup _ _ _ Ec), (drop_lookup _ _ _ Eb). by apply glob_cons_same. }
  destruct (Byte.eqb b star_byte) eqn:E2; [|destruct star; [by apply IH, Hback|done]].
  apply byte_eqb_iff in E2 as ->. rewrite (drop_lookup _ _ _ Eb), glob_star in Ha.
  apply IH. split; [|done]. intros H. apply Ha, suffix_sat_iff. exists 0. split; [lia|done].
Qed.

End Sound.

Lemma wildcard_match_glob (pattern text : list byte) :
  wildcard_match pattern text = true -> glob pattern text = true.
Proof. apply (wildcard_loop_sound pattern text _ 0 0 None 0). by split. Qed.

(** A text is at least as long as the bytes its pattern spells out. *)
Lemma glob_length pattern : forall text, glob pattern text = true ->
  length (List.filter (fun b => negb (Byte.eqb b star_byte)) pattern) <= length text.
Proof.
  induction pattern as [|b rest IH]; intros text; cbn [glob List.filter]; [cbn; lia|].
  destruct (Byte.eqb b star_byte); cbn [negb].
  - intros (j & Hj & H)%suffix_sat_iff. specialize (IH _ H). rewrite length_drop in IH. lia.
  - destruct text as [|c text]; [done|]. intros [_ H]%andb_true_iff. specialize (IH _ H). cbn. lia.
Qed.

(** The router's glob matcher never matches what the pattern does not mean,
    whatever the text. *)
Theorem wildcard_match_sound (pattern text : list byte) :
  wildcard_match pattern text = true -> glob pattern text = true.
Proof. apply wildcard_match_glob. Qed.

Lemma wildcard_match_sound_witness : glob (as_bytes "a*") (as_bytes "a*") = true.
Proof. apply wildcard_match_sound. reflexivity. Defined.

(** It is not complete: a text that begins with a star is not matched by the
    pattern [*], though that pattern means any text. The literal comparison comes
    before the star test, so the pattern's star is taken as the text's own star and
    is not remembered. *)
Theorem wildcard_match_star_text (c : byte) (rest : list byte) :
  wildcard_match [star_byte] (star_byte :: c :: rest) = false /\
  glob [star_byte] (star_byte :: c :: rest) = true.
Proof.
  split.
  - unfold wildcard_match, wildcard_fuel. cbn [length Nat.add Nat.mul wildcard_loop lookup]. done.
  - rewrite glob_star. apply suffix_sat_iff. exists (length (star_byte :: c :: rest)).
    split; [done|]. by rewrite drop_all.
Qed.
