(* ===== verification/Policy.v ===== *)
(** * The system policy: who may ask for a protected action

    src/policy/system.rego, the rules the router bakes as WebAssembly, and
    src/src/router/system_policy.rs, which decides what is protected and evaluates
    them. The evaluation of the WebAssembly is a parameter of [authorize_system]:
    the policy it is compiled from is modelled here rule by rule. *)

From Stdlib Require Import ZArith Lia Ascii String.
From stdpp Require Import base list strings.
From S2P Require Import Prelude Protocol.
Open Scope string_scope.

(** ** policy/system.rego *)

Definition edge_service_actions : list string :=
  ["EDGE_OPEN_URL"; "EDGE_CLOSE_URL"; "EDGE_LIST_URLS"; "EDGE_PUBLISH_BLOB"; "EDGE_UNPUBLISH_BLOB";
   "EDGE_TLS_STATUS"; "EDGE_TLS_RELOAD"; "EDGE_ACME_CHALLENGE"; "EDGE_WEB_ROUTES"].

Definition node_control_actions : list string :=
  ["CONFIG_GET"; "CONFIG_SET"; "SYSTEM_UPDATE"; "SYSTEM_SYNC_HINT"; "CONFIG_CHANGED"].

Definition orchestrator_mutations : list string :=
  ["SPAWN_NODE"; "KILL_NODE"; "START_NODE"; "RESTART_NODE"; "REMOVE_NODE_INSTANCE";
   "NODE_CONFIG_SET"; "SYSTEM_CORE_ROLLBACK"; "ADD_HIVE_FINALIZE"; "REMOVE_HIVE_CLEANUP"].

Definition spoke_only_actions : list string := ["ADD_HIVE_FINALIZE"; "REMOVE_HIVE_CLEANUP"].

Definition spoke_only_action_on_motherbee (action hive_id : string) : bool :=
  str_mem action spoke_only_actions && (hive_id =s "motherbee").

Definition orchestrator_reads : list string :=
  ["NODE_CONFIG_GET"; "NODE_STATE_GET"; "NODE_STATUS_GET"; "NODE_HELP"; "LIST_NODES";
   "GET_VERSIONS"; "GET_RUNTIMES"; "GET_RUNTIME"].

Definition reachability_actions : list string := ["WAN_REACHABILITY_VOUCH"].

(** [name], [parsed.role] and [parsed.hive]: undefined without a name, without an [@],
    or with nothing before it. *)
Definition parsed (src_l2_name : option string) : option (string * string) :=
  match src_l2_name with
  | None => None
  | Some n =>
    match split_once "@" (trim n) with
    | Some (role, hive) => if str_is_empty role then None else Some (role, hive)
    | None => None
    end
  end.

(** The six [allow] rules, in the order of the file. *)
Definition allow_rules (action role hive hive_id : string) : list bool :=
  [ str_mem action edge_service_actions && (role =s "SY.admin") && (hive =s "motherbee");
    str_mem action node_control_actions && (role =s "SY.admin") && (hive =s "motherbee");
    str_mem action orchestrator_mutations && (role =s "SY.orchestrator") && (hive =s "motherbee")
      && negb (spoke_only_action_on_motherbee action hive_id);
    str_mem action orchestrator_reads && (role =s "SY.orchestrator")
      && str_mem hive ["motherbee"; hive_id];
    negb (str_mem action edge_service_actions) && negb (str_mem action node_control_actions)
      && negb (str_mem action reachability_actions)
      && negb (spoke_only_action_on_motherbee action hive_id)
      && (hive =s hive_id) && (role =s "SY.admin");
    negb (str_mem action edge_service_actions) && negb (role =s "SY.orchestrator")
      && (hive =s hive_id) && (action =s "NODE_STATUS_GET") && (role =s "SY.vault");
    (action =s "WAN_REACHABILITY_VOUCH") && (role =s "RT.gateway") && (hive =s "motherbee") ].

Definition allow (action : string) (src_l2_name : option string) (hive_id : string) : bool :=
  match parsed src_l2_name with
  | None => false
  | Some (role, hive) => existsb id (allow_rules action role hive hive_id)
  end.

Definition frontdesk_route (registration_status : option string) (src_ilk_present : bool) : bool :=
  negb src_ilk_present || opt_str_is registration_status "temporary".

(** ** system_policy.rs *)

Definition PROTECTED_SYSTEM_ACTIONS : list string :=
  ["SYSTEM_UPDATE"; "SYSTEM_CORE_ROLLBACK"; "SYSTEM_SYNC_HINT"; "EDGE_OPEN_URL"; "EDGE_CLOSE_URL";
   "EDGE_LIST_URLS"; "EDGE_PUBLISH_BLOB"; "EDGE_UNPUBLISH_BLOB"; "EDGE_TLS_STATUS";
   "EDGE_TLS_RELOAD"; "EDGE_ACME_CHALLENGE"; "EDGE_WEB_ROUTES"; "SPAWN_NODE"; "KILL_NODE";
   "START_NODE"; "RESTART_NODE"; "REMOVE_NODE_INSTANCE"; "NODE_CONFIG_SET"; "NODE_CONFIG_GET";
   "CONFIG_SET"; "CONFIG_GET"; "NODE_STATE_GET"; "NODE_STATUS_GET"; "NODE_HELP"; "GET_VERSIONS";
   "GET_RUNTIMES"; "GET_RUNTIME"; "LIST_NODES"; "INVENTORY_REQUEST"; "ADD_HIVE_FINALIZE";
   "REMOVE_HIVE_CLEANUP"; "CONFIG_CHANGED"].

Definition EDGE_CONTROL_AUTHORITY : string := "SY.admin@motherbee".

Definition protected_system_action (action : string) : option string :=
  let action := trim action in
  List.find (fun protected => eq_ignore_ascii_case protected action) PROTECTED_SYSTEM_ACTIONS.

Definition is_protected_system_action (action : string) : bool :=
  match protected_system_action action with Some _ => true | None => false end.

Definition same_hive_role_allowed (hive_id : string) (src_l2_name : option string)
  (allowed_roles : list string) : bool :=
  match src_l2_name with
  | None => false
  | Some n =>
    let src := trim n in
    if str_is_empty src then false
    else match split_once "@" src with
    | None => false
    | Some (role, hive) =>
      if str_is_empty hive || negb (hive =s hive_id) then false else str_mem role allowed_roles
    end
  end.

Definition prefix_allowed_same_hive_scoped (name hive_id : string)
  (allowed_prefixes same_hive_only : list string) : bool :=
  existsb (fun prefix =>
    if negb (starts_with name prefix) then false
    else if str_mem prefix same_hive_only then
      match rsplit_once "@" name with Some (_, h) => h =s hive_id | None => false end
    else true) allowed_prefixes.

Section Evaluation.

(** The baked policies: [None] when the lock is poisoned or the evaluation fails. *)
Variable evaluate_allow : string -> option string -> string -> option bool.
Variable evaluate_route : bool -> option string -> option bool.

Definition authorize_system (action : string) (src_l2_name : option string) (hive_id : string)
  : bool := unwrap_or false (evaluate_allow action src_l2_name hive_id).

Definition route_to_frontdesk (registration_status : option string) (src_ilk_present : bool)
  : bool := unwrap_or false (evaluate_route src_ilk_present registration_status).

Definition wan_reachability_voucher_allowed (voucher_hive : string) : bool :=
  authorize_system "WAN_REACHABILITY_VOUCH" (Some ("RT.gateway@" ++ trim voucher_hive))
    PRIMARY_HIVE_ID.

End Evaluation.

(** ** The authority table

    Which origins may ask a hive for an action, read off as a table: for each kind of
    action, the [(role, hive)] pairs. *)

Definition allowed_origins (action hive_id : string) : list (string * string) :=
  if str_mem action edge_service_actions || str_mem action node_control_actions then
    [("SY.admin", "motherbee")]
  else if spoke_only_action_on_motherbee action hive_id then []
  else if str_mem action orchestrator_mutations then
    [("SY.orchestrator", "motherbee"); ("SY.admin", hive_id)]
  else if str_mem action orchestrator_reads then
    [("SY.orchestrator", "motherbee"); ("SY.orchestrator", hive_id); ("SY.admin", hive_id)]
    ++ (if action =s "NODE_STATUS_GET" then [("SY.vault", hive_id)] else [])
  else [("SY.admin", hive_id)].

(** The kinds are disjoint on the protected actions. *)
Definition one_kind (a : string) : bool :=
  let edge := str_mem a edge_service_actions in
  let node := str_mem a node_control_actions in
  let mut := str_mem a orchestrator_mutations in
  let read := str_mem a orchestrator_reads in
  implb edge (negb (node || mut || read)) && implb node (negb (mut || read))
  && implb mut (negb read) && negb (str_mem a reachability_actions)
  && implb (str_mem a spoke_only_actions) mut && implb (a =s "NODE_STATUS_GET") read
  && negb (a =s "WAN_REACHABILITY_VOUCH").

Lemma protected_one_kind a : a ∈ PROTECTED_SYSTEM_ACTIONS -> one_kind a = true.
Proof.
  intros H%list_elem_of_In. revert a H. apply forallb_forall. vm_compute. reflexivity.
Qed.

Lemma allow_rules_table a role hive h : one_kind a = true ->
  existsb id (allow_rules a role hive h) = true <-> (role, hive) ∈ allowed_origins a h.
Proof.
  unfold one_kind, allow_rules, allowed_origins, spoke_only_action_on_motherbee.
  destruct (str_mem a edge_service_actions), (str_mem a node_control_actions),
    (str_mem a orchestrator_mutations), (str_mem a orchestrator_reads),
    (str_mem a reachability_actions), (str_mem a spoke_only_actions); try done;
  destruct (a =s "NODE_STATUS_GET"), (a =s "WAN_REACHABILITY_VOUCH"); try done; intros _.
  all: cbn [existsb id andb orb negb app].
  all: destruct (h =s "motherbee") eqn:Eh; cbn [andb negb].
  all: rewrite ?orb_true_iff, ?andb_true_iff, ?negb_true_iff, ?str_mem_iff, ?String.eqb_eq, ?String.eqb_neq.
  all: rewrite ?elem_of_cons, ?elem_of_nil, ?pair_equal_spec.
  all: try (apply String.eqb_eq in Eh; subst h).
  all: intuition (try congruence).
Qed.

(** ** What the policy admits *)

Lemma existsb_allow a role hive h : existsb id (allow_rules a role hive h) = true ->
  (role = "SY.admin" /\ (hive = "motherbee" \/ hive = h)) \/
  (role = "SY.orchestrator" /\ hive = "motherbee") \/
  (role = "SY.orchestrator" /\ hive = h /\ a ∈ orchestrator_reads) \/
  (role = "SY.vault" /\ hive = h /\ a = "NODE_STATUS_GET") \/
  (role = "RT.gateway" /\ hive = "motherbee" /\ a = "WAN_REACHABILITY_VOUCH").
Proof.
  cbn [existsb allow_rules id].
  rewrite !orb_true_iff, !andb_true_iff, !String.eqb_eq, !str_mem_iff, !elem_of_cons, elem_of_nil.
  intuition (done || auto).
Qed.

(** C35. The authority table. For every protected action, the policy's six rules admit
    exactly the origins of one row: an edge command and a node's live configuration
    only [SY.admin@motherbee]; a mutation the motherbee's orchestrator and the hive's
    own admin, the join/leave handshake never on the motherbee; a read also the
    hive's own orchestrator, and the health probe the hive's vault. *)
Theorem allow_is_table a src h : a ∈ PROTECTED_SYSTEM_ACTIONS ->
  allow a src h = true <->
  exists role hive, parsed src = Some (role, hive) /\ (role, hive) ∈ allowed_origins a h.
Proof.
  intros Ha%protected_one_kind. unfold allow. destruct (parsed src) as [[role hive]|].
  - rewrite allow_rules_table by done. split; [eauto|]. by intros (? & ? & [= <- <-] & ?).
  - split; [done|]. by intros (? & ? & ? & _).
Qed.

Lemma allow_is_table_witness :
  allow "SPAWN_NODE" (Some "SY.orchestrator@motherbee") "h1" = true <->
  exists role hive, parsed (Some "SY.orchestrator@motherbee") = Some (role, hive) /\
    (role, hive) ∈ allowed_origins "SPAWN_NODE" "h1".
Proof. apply allow_is_table. apply str_mem_iff. reflexivity. Defined.

(** Direction of the control plane: whatever the action, an origin the policy
    admits is a system node of the hive that is asked or of the motherbee; in
    particular no node of one spoke commands another hive, and no node but
    [SY.admin], [SY.orchestrator], [SY.vault] and the gateway ever holds authority. *)
Theorem allow_origin_hive a src h : allow a src h = true ->
  exists role hive, parsed src = Some (role, hive) /\ (hive = "motherbee" \/ hive = h) /\
    role ∈ ["SY.admin"; "SY.orchestrator"; "SY.vault"; "RT.gateway"].
Proof.
  unfold allow. destruct (parsed src) as [[role hive]|]; [|done]. intros H%existsb_allow.
  exists role, hive. split; [done|]. rewrite !elem_of_cons. intuition auto.
Qed.

(** The canonical name of a protected action is one of the list, equal to what was
    asked up to case and surrounding white space. *)
Lemma protected_system_action_Some s a : protected_system_action s = Some a ->
  a ∈ PROTECTED_SYSTEM_ACTIONS /\ eq_ignore_ascii_case a (trim s) = true.
Proof. intros [H1 H2]%find_some. split; [by apply list_elem_of_In|done]. Qed.

(** Two texts equal up to case name the same protected action, or neither names one. *)
Lemma protected_system_action_case s s' :
  eq_ignore_ascii_case (trim s) (trim s') = true ->
  protected_system_action s = protected_system_action s'.
Proof.
  unfold protected_system_action, eq_ignore_ascii_case. by intros ->%String.eqb_eq.
Qed.

Section Evaluated.
Variable evaluate_allow : string -> option string -> string -> option bool.
(** [policy/system.wasm] is compiled from [policy/system.rego], and evaluates. *)
Hypothesis wasm_is_rego : forall a s h, evaluate_allow a s h = Some (allow a s h).

(** Only the primary hive's gateway may vouch for the reachability of other hives' nodes. *)
Lemma voucher_is_primary voucher_hive :
  wan_reachability_voucher_allowed evaluate_allow voucher_hive = true <->
  trim voucher_hive = "motherbee".
Proof.
  unfold wan_reachability_voucher_allowed, authorize_system. rewrite wasm_is_rego. cbn [unwrap_or].
  unfold allow, parsed. rewrite trim_prefixed by first [done | repeat constructor].
  assert (forall x, split_once "@" ("RT.gateway@" ++ x) = Some ("RT.gateway", x)) as -> by reflexivity.
  cbn [str_is_empty]. split.
  - intros H%existsb_allow. intuition congruence.
  - intros ->. reflexivity.
Qed.

End Evaluated.
