(* ===== verification/Gates.v ===== *)
(** * Reachability gates: which node may send to which

    The name tests and the VPN and edge gates of src/src/router/mod.rs, and the
    assignment of a node to its VPN. *)

From Stdlib Require Import ZArith Lia Ascii String.
From stdpp Require Import base list strings.
From S2P Require Import Prelude Protocol Policy Glob.
Open Scope string_scope.

(** ** Names *)

(** The part before the first [@] satisfies [f], or the whole name without one. *)
Definition is_system_node (name : string) : bool :=
  starts_with name "SY." || starts_with name "RT.".

Definition is_edge_node (name : string) : bool :=
  match split_once "@" name with Some (role, _) => role =s "SY.edge" | None => name =s "SY.edge" end.

Definition is_io_node (name : string) : bool :=
  match split_once "@" name with
  | Some (role, _) => starts_with role "IO."
  | None => starts_with name "IO."
  end.

Definition is_vault_node (name : string) : bool :=
  match split_once "@" name with Some (role, _) => role =s "SY.vault" | None => name =s "SY.vault" end.

(** [name.get(..3)] compared with a prefix, in any case. *)
Definition is_agent_node (name : string) : bool :=
  match get_prefix 3 name with Some p => eq_ignore_ascii_case p "AI." | None => false end.

Definition is_workflow_node (name : string) : bool :=
  match get_prefix 3 name with Some p => eq_ignore_ascii_case p "WF." | None => false end.

Definition extract_hive (name : string) : option string :=
  match split_once "@" name with Some (_, hive) => Some hive | None => None end.

Definition node_is_on_hive (name hive : string) : bool :=
  negb (str_is_empty hive)
  && match split_once "@" name with
     | Some (role, name_hive) => negb (str_is_empty role) && (name_hive =s hive)
     | None => false
     end.

Definition normalize_name (name hive_id : string) : string :=
  if str_contains name "@"%char then name else name ++ "@" ++ hive_id.

(** [bytes_to_string]: a fixed-size field of a shared-memory entry. *)
Definition bytes_to_string (buf : list byte) (len : Z) : string :=
  unwrap_or "" (from_utf8 (take (Z.to_nat len) buf)).

(** ** The gates of the edge *)

Definition EDGE_SERVICE_COMMANDS : list string :=
  ["EDGE_OPEN_URL"; "EDGE_CLOSE_URL"; "EDGE_LIST_URLS"; "EDGE_PUBLISH_BLOB"; "EDGE_UNPUBLISH_BLOB";
   "EDGE_TLS_STATUS"; "EDGE_TLS_RELOAD"; "EDGE_ACME_CHALLENGE"; "EDGE_WEB_ROUTES"].

Definition EDGE_SERVICE_RESPONSES : list string :=
  ["EDGE_OPEN_URL_RESPONSE"; "EDGE_CLOSE_URL_RESPONSE"; "EDGE_LIST_URLS_RESPONSE";
   "EDGE_PUBLISH_BLOB_RESPONSE"; "EDGE_UNPUBLISH_BLOB_RESPONSE"; "EDGE_TLS_STATUS_RESPONSE";
   "EDGE_TLS_RELOAD_RESPONSE"; "EDGE_ACME_CHALLENGE_RESPONSE"; "EDGE_WEB_ROUTES_RESPONSE"].

Definition MSG_VAULT_GET : string := "VAULT_GET".
Definition MSG_VAULT_GET_RESPONSE : string := "VAULT_GET_RESPONSE".
Definition MSG_VAULT_SECRET_CHANGED : string := "VAULT_SECRET_CHANGED".

Section Gates.
Context {V : Type}.
Implicit Types meta : Meta V.

Definition is_global_scope meta : bool := opt_str_is (scope meta) SCOPE_GLOBAL.

Definition msg_in meta (l : list string) : bool :=
  match msg meta with Some action => str_mem action l | None => false end.

Definition is_edge_service_control_message meta (dst_name : string) : bool :=
  is_edge_node dst_name && is_system_kind (msg_type meta) && msg_in meta EDGE_SERVICE_COMMANDS.

Definition edge_service_control_allowed meta (src_name dst_name : string) : bool :=
  is_edge_service_control_message meta dst_name && (src_name =s EDGE_CONTROL_AUTHORITY).

Definition edge_service_control_response_allowed meta (src_name dst_name : string) : bool :=
  is_edge_node src_name && (dst_name =s EDGE_CONTROL_AUTHORITY) && is_system_kind (msg_type meta)
  && msg_in meta EDGE_SERVICE_RESPONSES.

Definition edge_data_path_allowed meta (src_name dst_name : string) : bool :=
  if is_system_kind (msg_type meta) then false
  else (is_edge_node src_name && is_io_node dst_name) || (is_io_node src_name && is_edge_node dst_name).

Definition edge_vault_read_allowed meta (src_name dst_name : string) : bool :=
  if negb (is_system_kind (msg_type meta)) then false
  else match msg meta with
  | Some m =>
    if m =s MSG_VAULT_GET then is_edge_node src_name && is_vault_node dst_name
    else if m =s MSG_VAULT_GET_RESPONSE then is_vault_node src_name && is_edge_node dst_name
    else false
  | None => false
  end.

Definition edge_vault_notice_allowed meta (src_name dst_name : string) : bool :=
  is_system_kind (msg_type meta) && opt_str_is (msg meta) MSG_VAULT_SECRET_CHANGED
  && match split_once "@" src_name with
     | Some (role, hive) => (role =s "SY.vault") && (hive =s PRIMARY_HIVE_ID)
     | None => false
     end
  && is_edge_node dst_name.

(** ** The VPN gates *)

Definition vpn_allows_between meta (src_name : string) (src_vpn : Z) (dst_name : string)
  (dst_vpn : Z) : bool :=
  if is_edge_node src_name || is_edge_node dst_name then
    if is_edge_service_control_message meta dst_name then
      edge_service_control_allowed meta src_name dst_name
    else edge_service_control_response_allowed meta src_name dst_name
      || edge_data_path_allowed meta src_name dst_name
      || edge_vault_read_allowed meta src_name dst_name
      || edge_vault_notice_allowed meta src_name dst_name
  else if is_system_kind (msg_type meta) && is_global_scope meta then true
  else if is_system_node src_name || is_system_node dst_name then true
  else Z.eqb src_vpn dst_vpn.

Definition vpn_allows_broadcast_between meta (src_name : string) (src_vpn : Z) (dst_name : string)
  (dst_vpn : Z) : bool :=
  negb (edge_vault_notice_allowed meta src_name dst_name)
  && vpn_allows_between meta src_name src_vpn dst_name dst_vpn.

End Gates.

(** ** VPN assignment *)

Definition FLAG_ACTIVE : Z := 1.
Definition FLAG_DELETED : Z := 2.
Definition FLAG_STALE : Z := 4.
Definition FLAG_FROZEN : Z := 8.
Definition HIVE_FLAG_SELF : Z := 16.

Record VpnAssignment := mkVpnAssignment {
  va_pattern : list byte;
  va_pattern_len : Z;
  va_match_kind : Z;
  va_vpn_id : Z;
  va_priority : Z;
  va_flags : Z }.

Definition vpn_rule_active (e : VpnAssignment) : bool :=
  negb (negb (Z.eqb (va_flags e) 0) && Z.eqb (Z.land (va_flags e) FLAG_ACTIVE) 0).

Definition vpn_rule_matches (name : string) (e : VpnAssignment) : bool :=
  pattern_match_kind (va_match_kind e) (bytes_to_string (va_pattern e) (va_pattern_len e)) name.

(** [snapshot] is the VPN table of the configuration, none without a configuration. *)
Definition assign_vpn (name : string) (snapshot : option (list VpnAssignment)) : Z :=
  if starts_with name "SY." || starts_with name "RT." then 0%Z
  else match snapshot with
  | None => 0%Z
  | Some vpns =>
    let rules := sort_by (fun a b => Z.compare (va_priority a) (va_priority b))
                   (List.filter vpn_rule_active vpns) in
    match List.find (vpn_rule_matches name) rules with
    | Some e => va_vpn_id e
    | None => 0%Z
    end
  end.

(** ** Lemmas on names *)

Lemma split_once_Some c s l r : split_once c s = Some (l, r) -> s = l ++ String c r.
Proof.
  revert l. induction s as [|a s IH]; intros l; cbn [split_once]; [done|].
  destruct (Ascii.eqb_spec a c) as [->|Hne].
  - by intros [= <- <-].
  - destruct (split_once c s) as [[l' r']|] eqn:E; [|done]. intros [= <- <-].
    by rewrite (IH l' eq_refl) at 1.
Qed.

(** What precedes the first [@]; the whole name without one. *)
Definition role_of (name : string) : string :=
  match split_once "@" name with Some (role, _) => role | None => name end.

Lemma is_edge_role name : is_edge_node name = true <-> role_of name = "SY.edge".
Proof.
  unfold is_edge_node, role_of. destruct (split_once "@" name) as [[r h]|]; apply String.eqb_eq.
Qed.

Lemma is_vault_role name : is_vault_node name = true <-> role_of name = "SY.vault".
Proof.
  unfold is_vault_node, role_of. destruct (split_once "@" name) as [[r h]|]; apply String.eqb_eq.
Qed.

Lemma is_io_role name : is_io_node name = starts_with (role_of name) "IO.".
Proof. unfold is_io_node, role_of. by destruct (split_once "@" name) as [[r h]|]. Qed.

Lemma authority_not_edge : is_edge_node EDGE_CONTROL_AUTHORITY = false.
Proof. reflexivity. Qed.

Lemma edge_not_io name : is_edge_node name = true -> is_io_node name = false.
Proof. rewrite is_edge_role, is_io_role. by intros ->. Qed.

Lemma edge_not_vault name : is_edge_node name = true -> is_vault_node name = false.
Proof.
  rewrite is_edge_role. intros H. apply not_true_iff_false. rewrite is_vault_role, H. done.
Qed.

Create HintDb gates.
#[export] Hint Resolve edge_not_io edge_not_vault authority_not_edge : gates.

(** ** What the gates guarantee *)

Section GateTheorems.
Context {V : Type}.
Implicit Types meta : Meta V.

(** What reaches an edge. Whatever the VPNs and the scope, a message addressed to
    an edge passes the gate only if it is a non-system frame of an IO node, one of the
    edge commands from [SY.admin@motherbee], a vault's answer to a read, or the
    primary vault's notice about a secret. *)
Theorem edge_inbound meta src_name src_vpn dst_name dst_vpn :
  is_edge_node dst_name = true ->
  vpn_allows_between meta src_name src_vpn dst_name dst_vpn = true ->
  if is_system_kind (msg_type meta) then
    (src_name = "SY.admin@motherbee" /\ msg_in meta EDGE_SERVICE_COMMANDS = true) \/
    (is_vault_node src_name = true /\ msg meta = Some MSG_VAULT_GET_RESPONSE) \/
    (split_once "@" src_name = Some ("SY.vault", "motherbee") /\
     msg meta = Some MSG_VAULT_SECRET_CHANGED)
  else is_io_node src_name = true.
Proof.
  intros Hd. unfold vpn_allows_between. rewrite Hd, orb_true_r.
  unfold is_edge_service_control_message, edge_service_control_allowed,
    is_edge_service_control_message, edge_service_control_response_allowed, edge_data_path_allowed,
    edge_vault_read_allowed, edge_vault_notice_allowed. rewrite Hd.
  rewrite (edge_not_io _ Hd), (edge_not_vault _ Hd).
  assert ((dst_name =s EDGE_CONTROL_AUTHORITY) = false) as ->.
  { apply String.eqb_neq. intros ->. by rewrite authority_not_edge in Hd. }
  destruct (is_system_kind (msg_type meta)); cbn [andb orb negb].
  - destruct (msg_in meta EDGE_SERVICE_COMMANDS) eqn:Em; cbn [andb].
    + intros ->%String.eqb_eq. by left.
    + rewrite !andb_false_r. cbn [orb]. unfold opt_str_is. destruct (msg meta) as [m|]; [|done].
      rewrite orb_true_iff. intros [H|H].
      * destruct (m =s MSG_VAULT_GET); [done|].
        destruct (m =s MSG_VAULT_GET_RESPONSE) eqn:E; [|done].
        apply String.eqb_eq in E. rewrite andb_true_r in H. subst. right. left. cbn in H.
        by rewrite andb_true_r in H.
      * rewrite !andb_true_iff, String.eqb_eq in H. destruct H as [[-> H] _]. right. right.
        split; [|done]. destruct (split_once "@" src_name) as [[r h]|]; [|done].
        rewrite andb_true_iff, !String.eqb_eq in H. by destruct H as [-> ->].
  - rewrite andb_false_r, !andb_true_r. cbn [orb]. by rewrite !orb_false_r, andb_false_r.
Qed.

(** What an edge can reach: an IO node with a non-system frame, the vault with a
    read, or [SY.admin@motherbee] with an answer to a command. No other node,
    whatever the VPNs and the scope: a compromised edge reaches neither an agent nor
    the control plane. *)
Theorem edge_outbound meta src_name src_vpn dst_name dst_vpn :
  is_edge_node src_name = true ->
  vpn_allows_between meta src_name src_vpn dst_name dst_vpn = true ->
  if is_system_kind (msg_type meta) then
    (dst_name = "SY.admin@motherbee" /\ msg_in meta EDGE_SERVICE_RESPONSES = true) \/
    (is_vault_node dst_name = true /\ msg meta = Some MSG_VAULT_GET)
  else is_io_node dst_name = true.
Proof.
  intros Hs. unfold vpn_allows_between. rewrite Hs. cbn [orb].
  assert ((src_name =s EDGE_CONTROL_AUTHORITY) = false) as Hauth.
  { apply String.eqb_neq. intros ->. by rewrite authority_not_edge in Hs. }
  assert (edge_vault_notice_allowed meta src_name dst_name = false) as ->.
  { unfold edge_vault_notice_allowed. rewrite is_edge_role in Hs. unfold role_of in Hs.
    destruct (split_once "@" src_name) as [[r h]|]; [subst r|]; by rewrite !andb_false_r. }
  unfold edge_service_control_allowed, edge_service_control_response_allowed,
    edge_data_path_allowed, edge_vault_read_allowed.
  rewrite Hauth, Hs, (edge_not_io _ Hs), (edge_not_vault _ Hs), !andb_false_r.
  destruct (is_edge_service_control_message meta dst_name); [done|].
  destruct (is_system_kind (msg_type meta)); cbn [andb orb negb].
  - rewrite !orb_false_r, orb_true_iff, !andb_true_iff, String.eqb_eq. intros [H|H]; [left; tauto|right].
    destruct (msg meta) as [m|]; [|done].
    destruct (m =s MSG_VAULT_GET) eqn:E; [|by destruct (m =s MSG_VAULT_GET_RESPONSE)].
    apply String.eqb_eq in E. by subst.
  - by rewrite !andb_false_r, !orb_false_r.
Qed.

(** VPNs isolate: between two nodes neither of which is a system node, a message
    that is not a system one of global scope passes exactly when both are in the same
    VPN. *)
Theorem vpn_isolation meta src_name src_vpn dst_name dst_vpn :
  is_system_node src_name = false -> is_system_node dst_name = false ->
  is_system_kind (msg_type meta) && is_global_scope meta = false ->
  vpn_allows_between meta src_name src_vpn dst_name dst_vpn = true <-> src_vpn = dst_vpn.
Proof.
  intros Hs Hd Hg. unfold vpn_allows_between. rewrite Hg, Hs, Hd.
  assert (forall n, is_system_node n = false -> is_edge_node n = false) as Hedge.
  { intros n. unfold is_system_node, is_edge_node. intros Hn. apply not_true_iff_false. intros He.
    destruct (split_once "@" n) as [[r h]|] eqn:E; apply String.eqb_eq in He; subst; [|done].
    apply split_once_Some in E. by subst n. }
  rewrite !Hedge by done. apply Z.eqb_eq.
Qed.

(** A broadcast never reaches further than an addressed message would, and the
    vault's notice about secrets never reaches an edge by broadcast. *)
Theorem broadcast_gate_narrower meta src_name src_vpn dst_name dst_vpn :
  vpn_allows_broadcast_between meta src_name src_vpn dst_name dst_vpn = true ->
  vpn_allows_between meta src_name src_vpn dst_name dst_vpn = true /\
  ~ (is_edge_node dst_name = true /\ is_system_kind (msg_type meta) = true /\
     msg meta = Some MSG_VAULT_SECRET_CHANGED).
Proof.
  unfold vpn_allows_broadcast_between. rewrite andb_true_iff, negb_true_iff. intros [Hn Ha].
  split; [done|]. intros (Hd & Hk & Hm).
  revert Ha Hn. unfold vpn_allows_between, is_edge_service_control_message,
    edge_service_control_response_allowed, edge_data_path_allowed, edge_vault_read_allowed, msg_in.
  rewrite Hd, Hk, Hm, orb_true_r. cbn. rewrite !andb_false_r. cbn. congruence.
Qed.

End GateTheorems.

(** A node's VPN is that of the first matching rule by priority: an active rule
    that matches its name, such that every active matching rule before it in the
    configuration has a greater priority number and none after it a smaller one; VPN
    0 when no active rule matches; a system node is always in VPN 0. *)
Theorem assign_vpn_first_match name vpns :
  if is_system_node name then assign_vpn name (Some vpns) = 0%Z
  else (Forall (fun e => vpn_rule_active e && vpn_rule_matches name e = false) vpns /\
        assign_vpn name (Some vpns) = 0%Z) \/
    exists l1 e l2, vpns = (l1 ++ e :: l2)%list /\ assign_vpn name (Some vpns) = va_vpn_id e /\
      vpn_rule_active e = true /\ vpn_rule_matches name e = true /\
      Forall (fun e' => vpn_rule_active e' = true -> vpn_rule_matches name e' = true ->
                (va_priority e < va_priority e')%Z) l1 /\
      Forall (fun e' => vpn_rule_active e' = true -> vpn_rule_matches name e' = true ->
                (va_priority e <= va_priority e')%Z) l2.
Proof.
  unfold is_system_node, assign_vpn. destruct (starts_with name "SY." || starts_with name "RT."); [done|].
  assert (TotalPreorder (fun a b : VpnAssignment => Z.compare (va_priority a) (va_priority b))) as Hc.
  { split; [intros; apply Z.compare_antisym|]. intros x y z. cbn. rewrite !Z.compare_gt_iff. lia. }
  pose proof (find_sort_by (fun a b => Z.compare (va_priority a) (va_priority b))
    (vpn_rule_matches name) (List.filter vpn_rule_active vpns)) as H.
  destruct (List.find _ _) as [e|].
  - right. destruct H as (Hm & f1 & f2 & Hf & H1 & H2).
    destruct (filter_split vpn_rule_active vpns f1 e f2 Hf) as (l1 & l2 & -> & <- & <- & Ha).
    exists l1, e, l2. split_and!; try done.
    + rewrite Forall_forall in *. intros x Hx Hax Hmx.
      specialize (H1 x). rewrite Z.compare_gt_iff in H1. apply H1; [|done].
      apply list_elem_of_In, filter_In. split; [by apply list_elem_of_In|done].
    + rewrite Forall_forall in *. intros x Hx Hax Hmx.
      specialize (H2 x). rewrite Z.compare_gt_iff in H2. apply Z.nlt_ge, H2; [|done].
      apply list_elem_of_In, filter_In. split; [by apply list_elem_of_In|done].
  - left. split; [|done]. rewrite Forall_forall in *. intros x Hx.
    destruct (vpn_rule_active x) eqn:Ha; [|done]. apply H. apply list_elem_of_In, filter_In.
    split; [by apply list_elem_of_In|done].
Qed.

(** The router's list of edge commands, the policy's and the protected actions agree. *)
Lemma edge_commands_agree :
  EDGE_SERVICE_COMMANDS = edge_service_actions /\
  Forall (fun a => a ∈ PROTECTED_SYSTEM_ACTIONS) EDGE_SERVICE_COMMANDS.
Proof.
  split; [reflexivity|]. apply Forall_forall. intros a Ha. apply list_elem_of_In in Ha.
  apply str_mem_iff. revert a Ha. apply forallb_forall. reflexivity.
Qed.

(** ** Concrete gates *)

Module Examples.

Definition frame (kind : string) (m : option string) : Meta unit :=
  mkMeta kind m None None None None None None None None None None None None None None false.

Lemma edge_inbound_witness : is_io_node "IO.slack@h1" = true.
Proof. apply (edge_inbound (frame "user" None) "IO.slack@h1" 3 "SY.edge@dmz" 0); reflexivity. Defined.

Lemma edge_outbound_witness :
  ("SY.vault@motherbee" = "SY.admin@motherbee" /\
   msg_in (frame "SYSTEM" (Some "VAULT_GET")) EDGE_SERVICE_RESPONSES = true) \/
  (is_vault_node "SY.vault@motherbee" = true /\
   msg (frame "SYSTEM" (Some "VAULT_GET")) = Some MSG_VAULT_GET).
Proof.
  apply (edge_outbound (frame "SYSTEM" (Some "VAULT_GET")) "SY.edge@dmz" 0 "SY.vault@motherbee" 0);
    reflexivity.
Defined.

Lemma vpn_isolation_witness :
  vpn_allows_between (frame "user" None) "AI.a@h1" 3 "AI.b@h1" 4 = true <-> 3%Z = 4%Z.
Proof. apply vpn_isolation; reflexivity. Defined.

End Examples.
