(* ===== verification/Turns.v ===== *)
(** * The turns SY.cognition keeps of a communication

    src/src/bin/sy_cognition.rs, from a message a router copied to the last turns of its
    communication: [recent_turn_of], [push_recent_turn], [merge_recent_turns],
    [hold_recent_turns] and [write_back_turn]. What the identity says of an ILK ([facts]),
    the clock's text forms and serde are arguments. *)

From Stdlib Require Import ZArith Lia Ascii String.
From stdpp Require Import base list strings gmap sorting.
From S2P Require Import Prelude Protocol StreamLog Storage Gates.
Open Scope string_scope.

(** ** Fields within their caps *)

Definition COGNITION_RECENT_TURNS : nat := 20.
Definition COGNITION_TURN_TEXT_MAX_CHARS : nat := 2000.
Definition COGNITION_TURN_NAME_MAX_CHARS : nat := 256.
Definition COGNITION_RECENT_TURNS_MAX_BYTES : Z := 49152.
Definition NO_AGENT_ILK : string := "none".

(** [str::chars().take(n)]: a character is a byte that begins one and those that go on. *)
Fixpoint take_chars (n : nat) (s : string) : string :=
  match s with
  | EmptyString => EmptyString
  | String a r =>
    if is_cont (byte_of_ascii a) then String a (take_chars n r)
    else match n with O => EmptyString | S n => String a (take_chars n r) end
  end.

Definition ellipsis : string := string_of_list_byte [Byte.xe2; Byte.x80; Byte.xa6].

Definition cut_chars (value : string) (max_chars : nat) : string :=
  if (char_count value <=? max_chars)%nat then value
  else take_chars (max_chars - 1) value ++ ellipsis.

(** [replace('\0', "")]. *)
Fixpoint without_nul (s : string) : string :=
  match s with
  | EmptyString => EmptyString
  | String a r => if Ascii.eqb a zero then without_nul r else String a (without_nul r)
  end.

Definition turn_field (value : string) (max_chars : nat) : string := cut_chars (without_nul value) max_chars.

(** [Option::map(str::trim).filter(not empty)]. *)
Definition present (value : option string) : option string :=
  match value with
  | Some v => let v := Prelude.trim v in if str_is_empty v then None else Some v
  | None => None
  end.

(** ** Parties *)

(** What the identity says of an ILK (message_writer.rs). *)
Record IlkFacts := mkIlkFacts { ilk_type : string; facts_name : option string }.

Definition ilk_kind (f : IlkFacts) : option string :=
  if ilk_type f =s "human" then Some "person"
  else if ilk_type f =s "agent" then
    Some (if match facts_name f with Some name => is_workflow_node name | None => false end
          then "workflow" else "agent")
  else if ilk_type f =s "system" then Some "system"
  else None.

Definition turn_party (ilk name : option string) (facts : string -> option IlkFacts)
  : option MemoryTurnParty :=
  let ilk := present ilk in
  let known := ilk ≫= facts in
  let name := or_else (present name) (known ≫= facts_name) in
  match ilk, name with
  | None, None => None
  | _, _ =>
    Some (mkMemoryTurnParty (option_map (fun i => turn_field i COGNITION_TURN_NAME_MAX_CHARS) ilk)
            (option_map (fun n => turn_field n COGNITION_TURN_NAME_MAX_CHARS) name)
            (known ≫= ilk_kind))
  end.

(** ** Communications *)

Record CommunicationKey := mkKey { key_thread_id : string; key_agent_ilk : string }.

#[export] Instance key_eq_dec : EqDecision CommunicationKey.
Proof. solve_decision. Defined.

#[export] Program Instance key_countable : Countable CommunicationKey :=
  inj_countable' (fun k => (key_thread_id k, key_agent_ilk k)) (fun p => mkKey p.1 p.2) _.
Next Obligation. by intros []. Qed.

#[export] Instance direction_eq_dec : EqDecision MemoryTurnDirection.
Proof. solve_decision. Defined.
#[export] Instance party_eq_dec : EqDecision MemoryTurnParty.
Proof. solve_decision. Defined.
#[export] Instance choice_eq_dec : EqDecision MemoryTurnChoice.
Proof. solve_decision. Defined.
#[export] Instance turn_eq_dec : EqDecision MemoryTurn.
Proof. solve_decision. Defined.

(** A turn as the intake takes it. *)
Record RecentTurn := mkRecentTurn {
  rt_key : CommunicationKey; rt_seq : Z; rt_turn_key : string; rt_agent_node : string;
  rt_src_ilk : option string; rt_dst_ilk : option string; rt_ich : option string;
  rt_turn : MemoryTurn }.

(** A communication as it is held and written to the file. [th_derived] is what the worker
    derives of the turns, its counts and times included. *)
Record ThreadState {D : Type} := mkThreadState {
  th_agent_node : string; th_src_ilk : option string; th_dst_ilk : option string;
  th_ich : option string; th_turns : list MemoryTurn; th_turn_keys : list string; th_derived : D }.
Arguments ThreadState : clear implicits.

(** [TextV1Payload] of the SDK; a blob reference is whether it is a valid one. *)
Record TextV1Payload := mkTextV1Payload {
  payload_type : string; content : option string; content_ref : option bool; blobs : list bool }.

Definition text_valid (p : TextV1Payload) : bool :=
  (payload_type p =s "text")
  && match content_ref p, content p with
     | Some _, Some _ | None, None => false
     | _, _ => true
     end
  && match content_ref p with Some ok => ok | None => true end
  && forallb id (blobs p).

(** The code a turn's reading calls: serde_json on a payload, a writer and an object, the trace's
    first entry's name, chrono's reading and writing of a time, a turn's serialized length. *)
Record Readers {V : Type} := mkReaders {
  rd_text : V -> option TextV1Payload;
  rd_writer : V -> option Writer;
  rd_object_len : V -> option nat;
  rd_parse_ms : string -> option Z;
  rd_ts_of_ms : Z -> option string;
  rd_turn_len : MemoryTurn -> option Z }.
Arguments Readers : clear implicits.

Section Turns.
Context {V D : Type} `{J : Json V} (R : Readers V).
Implicit Types (m : Message V) (t : MemoryTurn) (turns : list MemoryTurn).

(** ** A copy of a message as a turn *)

Definition text_payload (payload : V) : option TextV1Payload :=
  match rd_text R payload with Some p => if text_valid p then Some p else None | None => None end.

Definition extract_turn_text (payload : V) : option string := present (text_payload payload ≫= content).

Definition u32_max : Z := 2 ^ 32 - 1.

Definition turn_attachments (payload : V) : Z :=
  match text_payload payload with
  | Some p => Z.min u32_max
                (Z.of_nat (length (blobs p)) + match content_ref p with Some _ => 1 | None => 0 end)
  | None => 0
  end.

Definition turn_writer m (facts : string -> option IlkFacts) : option MemoryTurnParty :=
  match writer_of (rd_writer R) (context (meta m)) with
  | Some w => turn_party (writer_ilk w) (writer_name w) facts
  | None => turn_party (Protocol.src_ilk (meta m)) None facts
  end.

(** Whether a turn has a person at its other end: the turns the worker analyzes. *)
Definition person_at_other_end m (agent_node : string) (facts : string -> option IlkFacts) : bool :=
  let known_not_a_person (ilk : string) :=
    match facts (Prelude.trim ilk) with
    | Some f => negb (ilk_type f =s "human") && match ilk_kind f with Some _ => true | None => false end
    | None => false
    end in
  let not_person (o : option string) := match o with Some ilk => known_not_a_person ilk | None => false end in
  if opt_str_is (src_l2_name (routing m)) agent_node then negb (not_person (Protocol.dst_ilk (meta m)))
  else match writer_of (rd_writer R) (context (meta m)) with
  | Some w => match writer_ilk w with Some ilk => negb (known_not_a_person ilk) | None => false end
  | None => negb (not_person (Protocol.src_ilk (meta m)))
  end.

(** [message_trace::origin]. *)
Definition origin (context : option V) : option string :=
  present (c ← context; trace ← json_get c "trace"; entries ← json_as_array trace; first ← head entries;
           from ← json_get first "from"; json_as_str from).

Definition turn_via m : option string :=
  let named (node : option string) :=
    option_map (fun n => turn_field n COGNITION_TURN_NAME_MAX_CHARS) (present node) in
  or_else (named (origin (context (meta m)))) (named (src_l2_name (routing m))).

Definition menu_choice (context : option V) : option MemoryTurnChoice :=
  c ← context; evaluation ← json_get c "evaluation"; o ← json_get evaluation "option";
  option ← present (json_as_str o);
  let params :=
    match json_get evaluation "params" with
    | Some p => match rd_object_len R p with
                | Some (S _) => turn_field (json_to_string p) COGNITION_TURN_TEXT_MAX_CHARS
                | _ => ""
                end
    | None => ""
    end in
  Some (mkMemoryTurnChoice (turn_field option COGNITION_TURN_NAME_MAX_CHARS) params).

Definition relay_destination m : option string :=
  match dst (routing m) with
  | Unicast d => let d := Prelude.trim d in
    if is_io_node d then Some (turn_field d COGNITION_TURN_NAME_MAX_CHARS) else None
  | _ => None
  end.

Definition i64_max : Z := 2 ^ 63 - 1.

Definition turn_ts (ts_ms : Z) (now : string) : string :=
  if (ts_ms <=? i64_max)%Z && (0 <? ts_ms)%Z then unwrap_or now (rd_ts_of_ms R ts_ms) else now.

(** Its cycle, its writer and the FNV hash of its text. *)
Definition turn_key m : string :=
  let writer := unwrap_or "" (or_else (writer_of (rd_writer R) (context (meta m)) ≫= writer_ilk)
                                      (Protocol.src_ilk (meta m))) in
  let text := unwrap_or "" (extract_turn_text (msg_payload m)) in
  trace_id (routing m) ++ "|" ++ Prelude.trim writer ++ "|" ++
    string_of_list_ascii (hex_padded 16 (fold_left (fun hash b => (Z.lxor hash (Z_of_byte b) * 1099511628211) mod 2 ^ 64)%Z
      (as_bytes text) 14695981039346656037%Z)).

Definition thread_of m : option string :=
  match thread_id (meta m) with
  | Some id => if str_is_empty (Prelude.trim id) then None else Some id
  | None => None
  end.

Definition recent_turn_of m (agent_node agent_ilk : string) (seq ts_ms : Z) (now : string)
  (facts : string -> option IlkFacts) : option RecentTurn :=
  thread ← thread_of m;
  let dir := if opt_str_is (src_l2_name (routing m)) agent_node then DirOut else DirIn in
  let text := match extract_turn_text (msg_payload m) with
    | Some text => turn_field text COGNITION_TURN_TEXT_MAX_CHARS
    | None => ""
    end in
  let files := turn_attachments (msg_payload m) in
  let chosen := match dir with DirOut => menu_choice (context (meta m)) | DirIn => None end in
  if str_is_empty text && Z.eqb files 0 && match chosen with None => true | _ => false end then None
  else
    let to_via := match dir with DirIn => relay_destination m | DirOut => None end in
    let turn := mkMemoryTurn dir
      (option_map (fun i => turn_field i COGNITION_TURN_NAME_MAX_CHARS) (present (Protocol.src_ilk (meta m))))
      (match dir with DirIn => turn_via m | DirOut => None end)
      (match dir with DirIn => turn_writer m facts | DirOut => None end)
      (match dir, to_via with
       | DirIn, None => None
       | _, _ => turn_party (Protocol.dst_ilk (meta m)) None facts
       end)
      to_via text files chosen (turn_ts ts_ms now) in
    Some (mkRecentTurn (mkKey thread agent_ilk) seq (turn_key m) agent_node (Protocol.src_ilk (meta m))
            (Protocol.dst_ilk (meta m)) (Protocol.ich (meta m)) turn).

(** ** The last turns of a communication *)

Definition turn_ms t : Z := unwrap_or 0%Z (rd_parse_ms R (ts t)).

Definition by_time (a b : MemoryTurn) : comparison := Z.compare (turn_ms a) (turn_ms b).

Definition turn_size t : Z := match rd_turn_len R t with Some n => (n + 1)%Z | None => 0%Z end.

Definition turns_bytes turns : Z := sum_of turn_size turns.

(** The loop of [bound_recent_turns] over the oldest: the newest always stays. *)
Fixpoint drop_oldest (bytes : Z) turns : list MemoryTurn :=
  match turns with
  | oldest :: ((_ :: _) as rest) =>
    if (COGNITION_RECENT_TURNS_MAX_BYTES <? bytes)%Z then drop_oldest (bytes - turn_size oldest) rest
    else turns
  | _ => turns
  end.

Definition bound_recent_turns turns : list MemoryTurn :=
  let turns := drop (length turns - COGNITION_RECENT_TURNS) turns in
  drop_oldest (turns_bytes turns) turns.

Definition push_recent_turn turns t : list MemoryTurn :=
  if bool_decide (t ∈ turns) then turns
  else bound_recent_turns (sort_by by_time (turns ++ [t])).

Definition same_turn (a b : MemoryTurn) : bool :=
  (ts a =s ts b) && bool_decide (direction a = direction b) && bool_decide (turn_src_ilk a = turn_src_ilk b)
  && bool_decide (via a = via b) && bool_decide (writer a = writer b) && (text a =s text b)
  && Z.eqb (attachments a) (attachments b) && bool_decide (choice a = choice b).

Definition merge_recent_turns (worker held : list MemoryTurn) : list MemoryTurn :=
  let merged := fold_left (fun merged t =>
    if existsb (fun k => same_turn k t) merged then merged else (merged ++ [t])%list) worker held in
  bound_recent_turns (sort_by by_time merged).

(** The last turn [f] holds of, changed. *)
Definition change_last (f : MemoryTurn -> bool) (change : MemoryTurn -> MemoryTurn) turns : list MemoryTurn :=
  reverse ((fix go l := match l with
            | [] => []
            | t :: rest => if f t then change t :: rest else t :: go rest
            end) (reverse turns)).

Definition said_to_no_one t : MemoryTurn :=
  mkMemoryTurn (direction t) (turn_src_ilk t) (via t) (writer t) None None (text t) (attachments t)
    (choice t) (ts t).

Definition said_to_the_agent_too turns (copy : MemoryTurn) : list MemoryTurn :=
  if bool_decide (direction copy = DirIn) then
    change_last (fun t => bool_decide (direction t = DirIn) && bool_decide (to_via t <> None)
                          && bool_decide (writer t = writer copy) && bool_decide (via t = via copy)
                          && (text t =s text copy)) said_to_no_one turns
  else turns.

(** ** Held communications *)

#[local] Abbreviation State := (ThreadState D).

Definition with_turns (h : State) turns : State :=
  mkThreadState D (th_agent_node h) (th_src_ilk h) (th_dst_ilk h) (th_ich h) turns (th_turn_keys h) (th_derived h).

Definition echoes_own_answer (held : State) (recent : RecentTurn) : bool :=
  bool_decide (direction (rt_turn recent) = DirIn)
  && match writer (rt_turn recent) ≫= party_ilk with
     | Some ilk => eq_ignore_ascii_case (Prelude.trim ilk) (key_agent_ilk (rt_key recent))
     | None => false
     end
  && existsb (fun t => bool_decide (direction t = DirOut) && (text t =s text (rt_turn recent))) (th_turns held).

(** One turn into its communication, and whether the communication had it. *)
Definition hold_turn (held : State) (recent : RecentTurn) : State * bool :=
  if str_mem (rt_turn_key recent) (th_turn_keys held) || echoes_own_answer held recent then
    (match to_via (rt_turn recent) with
     | None => with_turns held (said_to_the_agent_too (th_turns held) (rt_turn recent))
     | Some _ => held
     end, true)
  else
    let keys := (th_turn_keys held ++ [rt_turn_key recent])%list in
    (mkThreadState D
       (if str_is_empty (rt_agent_node recent) then th_agent_node held else rt_agent_node recent)
       (rt_src_ilk recent) (rt_dst_ilk recent) (rt_ich recent)
       (push_recent_turn (th_turns held) (rt_turn recent))
       (drop (length keys - 2 * COGNITION_RECENT_TURNS) keys) (th_derived held), false).

(** The worker's turn back into what is held. *)
Definition write_back_turn (held : option State) (updated : State) : State :=
  match held with
  | Some h =>
    mkThreadState D (th_agent_node updated) (th_src_ilk h) (th_dst_ilk h) (th_ich h)
      (merge_recent_turns (th_turns updated) (th_turns h)) (th_turn_keys h) (th_derived updated)
  | None => updated
  end.

End Turns.

(** ** Caps *)

Fixpoint has_nul (s : string) : bool :=
  match s with EmptyString => false | String a r => Ascii.eqb a zero || has_nul r end.

Definition field_ok (n : nat) (s : string) : bool := (char_count s <=? n)%nat && negb (has_nul s).

Definition opt_field_ok (n : nat) (o : option string) : bool :=
  match o with Some s => field_ok n s | None => true end.

Definition party_ok (o : option MemoryTurnParty) : bool :=
  match o with
  | Some p => opt_field_ok COGNITION_TURN_NAME_MAX_CHARS (party_ilk p)
              && opt_field_ok COGNITION_TURN_NAME_MAX_CHARS (party_name p)
  | None => true
  end.

(** A turn's fields within its caps. *)
Definition turn_ok (t : MemoryTurn) : bool :=
  opt_field_ok COGNITION_TURN_NAME_MAX_CHARS (turn_src_ilk t)
  && opt_field_ok COGNITION_TURN_NAME_MAX_CHARS (via t)
  && party_ok (writer t) && party_ok (turn_to t)
  && opt_field_ok COGNITION_TURN_NAME_MAX_CHARS (to_via t)
  && field_ok COGNITION_TURN_TEXT_MAX_CHARS (text t)
  && match choice t with
     | Some ch => field_ok COGNITION_TURN_NAME_MAX_CHARS (choice_option ch)
                  && field_ok COGNITION_TURN_TEXT_MAX_CHARS (choice_params ch)
     | None => true
     end.

Lemma char_count_cons a r :
  char_count (String a r) = ((if is_cont (byte_of_ascii a) then 0 else 1) + char_count r)%nat.
Proof. unfold char_count. cbn. by destruct (is_cont (byte_of_ascii a)). Qed.

Lemma char_count_app r u : char_count (r ++ u) = (char_count r + char_count u)%nat.
Proof.
  induction r as [|a r IH]; [done|]. change (String a r ++ u) with (String a (r ++ u)).
  rewrite !char_count_cons, IH. lia.
Qed.

Lemma take_chars_count n r : (char_count (take_chars n r) <= n)%nat.
Proof.
  revert n. induction r as [|a r IH]; intros n; [cbn; lia|]. cbn [take_chars].
  destruct (is_cont (byte_of_ascii a)) eqn:E; [rewrite char_count_cons, E; apply IH|].
  destruct n as [|n]; [cbn; lia|]. rewrite char_count_cons, E. specialize (IH n). lia.
Qed.

Lemma take_chars_nul n r : has_nul r = false -> has_nul (take_chars n r) = false.
Proof.
  revert n. induction r as [|a r IH]; intros n; [done|]. cbn. intros [Ha Hr]%orb_false_iff.
  destruct (is_cont (byte_of_ascii a)); [cbn; by rewrite Ha, IH|].
  destruct n; [done|]. cbn. by rewrite Ha, IH.
Qed.

Lemma has_nul_app r u : has_nul (r ++ u) = has_nul r || has_nul u.
Proof.
  induction r as [|a r IH]; [done|]. change (String a r ++ u) with (String a (r ++ u)). cbn [has_nul].
  by rewrite IH, orb_assoc.
Qed.

Lemma without_nul_ok r : has_nul (without_nul r) = false.
Proof. induction r as [|a r IH]; [done|]. cbn. destruct (Ascii.eqb a zero) eqn:E; [done|]. cbn. by rewrite E. Qed.

Lemma turn_field_ok v n : (1 <= n)%nat -> field_ok n (turn_field v n) = true.
Proof.
  intros Hn. unfold field_ok, turn_field, cut_chars. pose proof (without_nul_ok v) as Hv.
  destruct (Nat.leb_spec (char_count (without_nul v)) n) as [Hle|_].
  - rewrite Hv. apply andb_true_iff; split; [by apply Nat.leb_le|done].
  - rewrite char_count_app, has_nul_app, take_chars_nul by done.
    pose proof (take_chars_count (n - 1) (without_nul v)).
    change (char_count ellipsis) with 1%nat. apply andb_true_iff; split; [apply Nat.leb_le; lia|done].
Qed.

Lemma opt_turn_field_ok n o :
  (1 <= n)%nat -> opt_field_ok n (option_map (fun v => turn_field v n) o) = true.
Proof. intros Hn. destruct o; [by apply turn_field_ok|done]. Qed.

Create HintDb turns.
#[export] Hint Resolve turn_field_ok opt_turn_field_ok : turns.

Lemma turn_party_ok ilk name facts : party_ok (turn_party ilk name facts) = true.
Proof.
  unfold turn_party.
  destruct (present ilk) as [i|], (or_else (present name) _) as [n|]; cbn [party_ok party_ilk party_name];
    try done; rewrite !opt_turn_field_ok; unfold COGNITION_TURN_NAME_MAX_CHARS; first [done|lia].
Qed.

Section Keeping.
Context {V D : Type} `{J : Json V} (R : Readers V).
Implicit Types (t : MemoryTurn) (turns : list MemoryTurn).

Lemma menu_choice_ok ctx ch : menu_choice R ctx = Some ch ->
  field_ok COGNITION_TURN_NAME_MAX_CHARS (choice_option ch) = true
  /\ field_ok COGNITION_TURN_TEXT_MAX_CHARS (choice_params ch) = true.
Proof.
  unfold menu_choice. intros (c & _ & (e & _ & (o & _ & (opt & _ & H)%bind_Some)%bind_Some)%bind_Some)%bind_Some.
  injection H as <-. cbn [choice_option choice_params]. split; [apply turn_field_ok; cbv; lia|].
  destruct (json_get e "params") as [p|]; [|done]. destruct (rd_object_len R p) as [[|n]|]; [done| |done].
  apply turn_field_ok. cbv. lia.
Qed.

Lemma turn_via_ok m : opt_field_ok COGNITION_TURN_NAME_MAX_CHARS (turn_via m) = true.
Proof.
  unfold turn_via. destruct (present (origin _)); cbn [option_map or_else opt_field_ok].
  - apply turn_field_ok. cbv. lia.
  - apply opt_turn_field_ok. cbv. lia.
Qed.

Lemma recent_turn_ok m node ilk seq ts_ms now facts r :
  recent_turn_of R m node ilk seq ts_ms now facts = Some r -> turn_ok (rt_turn r) = true.
Proof.
  unfold recent_turn_of. intros (thread & _ & H)%bind_Some.
  match type of H with (if ?b then _ else _) = _ => destruct b; [done|] end.
  injection H as <-. unfold turn_ok. cbn [rt_turn turn_src_ilk via writer turn_to to_via text choice].
  rewrite !andb_true_iff. repeat split.
  - apply opt_turn_field_ok. cbv. lia.
  - destruct (opt_str_is _ _); [done|]. apply turn_via_ok.
  - destruct (opt_str_is _ _); [done|]. unfold turn_writer. destruct (writer_of _ _); apply turn_party_ok.
  - destruct (opt_str_is _ _); [apply turn_party_ok|]. destruct (relay_destination m); [apply turn_party_ok|done].
  - destruct (opt_str_is _ _); [done|]. unfold relay_destination. destruct (dst (routing m)); try done.
    destruct (is_io_node _); [|done]. apply turn_field_ok. cbv. lia.
  - destruct (extract_turn_text R _); [|done]. apply turn_field_ok. cbv. lia.
  - destruct (opt_str_is _ _); [|done]. destruct (menu_choice R _) as [ch|] eqn:E; [|done].
    apply andb_true_iff. by apply menu_choice_ok in E.
Qed.

(** ** The order and the bounds *)

#[export] Instance by_time_order : TotalPreorder (by_time R).
Proof.
  split; unfold by_time; [intros x y; apply Z.compare_antisym|].
  intros x y z Hxy Hyz. rewrite Z.compare_gt_iff in *. lia.
Qed.

(** Turns in the order they were taken, within the count and the bytes. *)
Record turns_in_bounds turns : Prop := {
  tb_sorted : StronglySorted (not_after (by_time R)) turns;
  tb_count : (length turns <= COGNITION_RECENT_TURNS)%nat;
  tb_bytes : (turns_bytes R turns <= COGNITION_RECENT_TURNS_MAX_BYTES)%Z \/ (length turns <= 1)%nat }.

Lemma drop_oldest_suffix turns : exists gone,
  turns = (gone ++ drop_oldest R (turns_bytes R turns) turns)%list
  /\ (gone = [] \/ exists d, d ∈ gone
      /\ (COGNITION_RECENT_TURNS_MAX_BYTES < turn_size R d + turns_bytes R (drop_oldest R (turns_bytes R turns) turns))%Z).
Proof.
  induction turns as [|t [|u rest] IH]; [by exists []; auto..|].
  change (drop_oldest R (turns_bytes R (t :: u :: rest)) (t :: u :: rest))
    with (if (COGNITION_RECENT_TURNS_MAX_BYTES <? turns_bytes R (t :: u :: rest))%Z
          then drop_oldest R (turns_bytes R (t :: u :: rest) - turn_size R t) (u :: rest) else t :: u :: rest).
  destruct (Z.ltb_spec COGNITION_RECENT_TURNS_MAX_BYTES (turns_bytes R (t :: u :: rest))) as [Hlt|_];
    [|by exists []; auto].
  unfold turns_bytes in *. rewrite (sum_of_cons _ t) in *.
  replace (turn_size R t + sum_of (turn_size R) (u :: rest) - turn_size R t)%Z
    with (sum_of (turn_size R) (u :: rest)) by lia.
  destruct IH as (gone & Hl & Hd). exists (t :: gone). split; [exact (f_equal (cons t) Hl)|]. right.
  destruct Hd as [->|(d & Hin & Hd)]; [|exists d; split; [by right|done]].
  exists t. split; [left|]. cbn [app] in Hl. by rewrite <- Hl.
Qed.

Lemma drop_oldest_bytes turns :
  let l := drop_oldest R (turns_bytes R turns) turns in
  (turns_bytes R l <= COGNITION_RECENT_TURNS_MAX_BYTES)%Z \/ (length l <= 1)%nat.
Proof.
  induction turns as [|t [|u rest] IH]; [by right; cbn; lia..|].
  change (drop_oldest R (turns_bytes R (t :: u :: rest)) (t :: u :: rest))
    with (if (COGNITION_RECENT_TURNS_MAX_BYTES <? turns_bytes R (t :: u :: rest))%Z
          then drop_oldest R (turns_bytes R (t :: u :: rest) - turn_size R t) (u :: rest) else t :: u :: rest).
  destruct (Z.ltb_spec COGNITION_RECENT_TURNS_MAX_BYTES (turns_bytes R (t :: u :: rest))) as [_|Hle]; [|by left].
  unfold turns_bytes in *. rewrite (sum_of_cons _ t).
  by replace (turn_size R t + sum_of (turn_size R) (u :: rest) - turn_size R t)%Z
    with (sum_of (turn_size R) (u :: rest)) by lia.
Qed.

(** What [bound_recent_turns] lets go is the oldest, and only past a bound. *)
Definition full turns (d : MemoryTurn) : Prop :=
  length turns = COGNITION_RECENT_TURNS
  \/ (COGNITION_RECENT_TURNS_MAX_BYTES < turn_size R d + turns_bytes R turns)%Z.

Lemma bound_suffix turns : exists gone,
  turns = (gone ++ bound_recent_turns R turns)%list
  /\ (gone = [] \/ exists d, d ∈ gone /\ full (bound_recent_turns R turns) d).
Proof.
  unfold bound_recent_turns. set (n := (length turns - COGNITION_RECENT_TURNS)%nat).
  destruct (drop_oldest_suffix (drop n turns)) as (gone & Hl & Hd).
  exists (take n turns ++ gone)%list. rewrite <- app_assoc, <- Hl, take_drop. split; [done|].
  destruct Hd as [->|(d & Hin & Hd)].
  - cbn [app] in Hl. rewrite app_nil_r. rewrite <- Hl. destruct (take n turns) as [|d r] eqn:E; [by left|].
    right. exists d. split; [left|]. left. rewrite length_drop.
    assert (n <> 0)%nat by (intros H0; rewrite H0, take_0 in E; done). unfold n in *. lia.
  - right. exists d. split; [by apply elem_of_app; right|]. by right.
Qed.

Lemma same_turn_iff a b : same_turn a b = true <-> said_to_no_one a = said_to_no_one b.
Proof.
  unfold same_turn, said_to_no_one. destruct a, b. cbn.
  rewrite !andb_true_iff, !bool_decide_eq_true, !String.eqb_eq, Z.eqb_eq. split.
  - intros [[[[[[[-> ->] ->] ->] ->] ->] ->] ->]. done.
  - intros H. injection H as -> -> -> -> -> -> -> ->. done.
Qed.

(** [turns'] is [turns] and [new], each turn once or more, but for what newer turns push out. *)
Definition keeps turns (new turns' : list MemoryTurn) : Prop :=
  (forall t, t ∈ turns' -> said_to_no_one t ∈ map said_to_no_one (turns ++ new))
  /\ forall t, t ∈ turns -> said_to_no_one t ∈ map said_to_no_one turns'
     \/ (forall t', t' ∈ turns' -> turn_ms R t <= turn_ms R t')%Z
        /\ exists d, (forall t', t' ∈ turns' -> turn_ms R d <= turn_ms R t')%Z /\ full turns' d.

Lemma unmarked_in t turns : t ∈ turns -> said_to_no_one t ∈ map said_to_no_one turns.
Proof. intros H. by apply list_elem_of_fmap_2. Qed.

Lemma sorted_app_le (a b : list MemoryTurn) x y : StronglySorted (not_after (by_time R)) (a ++ b) ->
  x ∈ a -> y ∈ b -> (turn_ms R x <= turn_ms R y)%Z.
Proof.
  intros Hs Hx Hy. induction a as [|z a IH]; [by apply elem_of_nil in Hx|].
  apply StronglySorted_inv in Hs as [Hs Hz]. apply elem_of_cons in Hx as [->|Hx]; [|by apply IH].
  rewrite Forall_forall in Hz. apply Z.compare_le_iff, (Hz y), elem_of_app. by right.
Qed.

Lemma sorted_suffix (a b : list MemoryTurn) : StronglySorted (not_after (by_time R)) (a ++ b) ->
  StronglySorted (not_after (by_time R)) b.
Proof. induction a as [|x a IH]; [done|]. intros H. apply IH. by apply StronglySorted_inv in H as [H _]. Qed.

Lemma bound_in_bounds l : turns_in_bounds (bound_recent_turns R (sort_by (by_time R) l)).
Proof.
  destruct (bound_suffix (sort_by (by_time R) l)) as (gone & Hl & _). split.
  - apply (sorted_suffix gone). rewrite <- Hl. exact (sort_by_sorted _ _).
  - unfold bound_recent_turns. set (n := (_ - _)%nat). set (k := drop n _).
    destruct (drop_oldest_suffix k) as (g & Hk & _). apply (f_equal length) in Hk.
    rewrite length_app in Hk. unfold k at 1 in Hk. rewrite length_drop in Hk. unfold n in *. lia.
  - apply drop_oldest_bytes.
Qed.

(** The bounded sort of turns keeps each of them or drops it for newer ones. *)
Lemma bound_keeps turns new l : (forall t, t ∈ turns -> t ∈ l) ->
  (forall t, t ∈ l -> said_to_no_one t ∈ map said_to_no_one (turns ++ new)) ->
  keeps turns new (bound_recent_turns R (sort_by (by_time R) l)).
Proof.
  intros Hin Hfrom. destruct (bound_suffix (sort_by (by_time R) l)) as (gone & Hl & Hd).
  pose proof (sort_by_sorted (by_time R) l) as Hs. rewrite Hl in Hs.
  assert (Hmem : forall t, t ∈ l <-> t ∈ (gone ++ bound_recent_turns R (sort_by (by_time R) l))%list)
    by (intros t; by rewrite <- Hl, elem_of_sort_by).
  split; [intros t Ht; apply Hfrom, Hmem, elem_of_app; by right|].
  intros t Ht. apply Hin, Hmem, elem_of_app in Ht as [Ht|Ht]; [|left; by apply unmarked_in].
  right. split; [intros t'; by apply (sorted_app_le gone)|].
  destruct Hd as [->|(d & Hdin & Hf)]; [by apply elem_of_nil in Ht|].
  exists d. split; [intros t'; by apply (sorted_app_le gone)|done].
Qed.

Lemma push_keeps turns t : keeps turns [t] (push_recent_turn R turns t).
Proof.
  unfold push_recent_turn. case_bool_decide.
  - split; [intros u Hu; apply unmarked_in, elem_of_app; by left|]. intros u Hu. left. by apply unmarked_in.
  - apply bound_keeps; [intros u Hu; apply elem_of_app; by left|]. intros u Hu. by apply unmarked_in.
Qed.

Lemma merge_into worker held :
  let l := fold_left (fun merged t => if existsb (fun k => same_turn k t) merged then merged else (merged ++ [t])%list)
             worker held in
  (forall t, t ∈ held -> t ∈ l) /\ forall t, t ∈ l -> t ∈ (held ++ worker)%list.
Proof.
  revert held. induction worker as [|w worker IH]; intros held; cbn [fold_left].
  - rewrite app_nil_r. done.
  - destruct (existsb _ held).
    + destruct (IH held) as [H1 H2]. split; [done|]. intros t Ht%H2. rewrite !elem_of_app, elem_of_cons in *. tauto.
    + destruct (IH (held ++ [w])%list) as [H1 H2]. split; [intros t Ht; apply H1, elem_of_app; by left|].
      intros t Ht%H2. by rewrite <- app_assoc in Ht.
Qed.

Lemma merge_keeps worker held : keeps held worker (merge_recent_turns R worker held).
Proof.
  unfold merge_recent_turns. destruct (merge_into worker held) as [H1 H2].
  apply bound_keeps; [done|]. intros t Ht. by apply unmarked_in, H2.
Qed.

Lemma change_last_spec f change turns :
  Forall2 (fun t u => u = t \/ u = change t) turns (change_last f change turns).
Proof.
  unfold change_last. rewrite <- (reverse_involutive turns) at 1.
  apply Forall2_reverse. induction (reverse turns) as [|t l IH]; [constructor|].
  destruct (f t); constructor; auto. clear. induction l; constructor; auto.
Qed.

Lemma agent_too_spec turns copy :
  Forall2 (fun t u => u = t \/ u = said_to_no_one t) turns (said_to_the_agent_too turns copy).
Proof.
  unfold said_to_the_agent_too. case_bool_decide; [apply change_last_spec|].
  apply Forall_Forall2_diag, Forall_forall. auto.
Qed.

Lemma agent_too_unmarked turns copy :
  map said_to_no_one (said_to_the_agent_too turns copy) = map said_to_no_one turns.
Proof.
  induction (agent_too_spec turns copy) as [|t u l k [-> | ->] _ IH]; [done|..]; cbn; by rewrite IH.
Qed.

Lemma keeps_unmarked turns new turns' :
  map said_to_no_one turns' = map said_to_no_one turns -> keeps turns new turns'.
Proof.
  intros H. split; intros t Ht.
  - apply unmarked_in in Ht. rewrite H in Ht. rewrite map_app. apply elem_of_app. by left.
  - left. rewrite H. by apply unmarked_in.
Qed.

(** ** Communications *)

#[local] Abbreviation State := (ThreadState D).

(** Two states of a communication that differ in nothing but where its relays went. *)
#[export] Instance state_equiv : Equiv State := fun a b =>
  with_turns a (map said_to_no_one (th_turns a)) = with_turns b (map said_to_no_one (th_turns b)).

#[export] Instance state_equivalence : Equivalence (≡@{State}).
Proof. split; [done|intros a b; apply eq_sym|intros a b c; apply eq_trans]. Qed.

Lemma hold_turn_duplicate (h : State) r : (hold_turn R h r).2 = true -> (hold_turn R h r).1 ≡ h.
Proof.
  unfold hold_turn. destruct (str_mem _ _ || _); [|done]. intros _. cbn [fst].
  destruct (to_via (rt_turn r)); [done|]. unfold equiv, state_equiv, with_turns. cbn.
  by rewrite agent_too_unmarked.
Qed.

Lemma hold_turn_keeps (h : State) r : keeps (th_turns h) [rt_turn r] (th_turns (hold_turn R h r).1).
Proof.
  unfold hold_turn. destruct (str_mem _ _ || _); cbn [fst]; [|apply push_keeps].
  destruct (to_via (rt_turn r)); apply keeps_unmarked; [done|]. apply agent_too_unmarked.
Qed.

Lemma write_back_keeps (h updated : State) :
  keeps (th_turns h) (th_turns updated) (th_turns (write_back_turn R (Some h) updated)).
Proof. apply merge_keeps. Qed.

(** A communication loses a turn only to newer ones. When the intake holds a turn, and when the
    worker's copy is written back over what was taken meanwhile, every turn the communication had is
    still there, up to where a relay went, or every turn there is at least as new and the bounds are
    reached: twenty turns, or 48 KiB with one more. And nothing is there but what the communication
    had and what came in. *)
Theorem turns_lost_only_to_newer (h updated : State) r :
  keeps (th_turns h) [rt_turn r] (th_turns (hold_turn R h r).1)
  /\ keeps (th_turns h) (th_turns updated) (th_turns (write_back_turn R (Some h) updated)).
Proof. split; [apply hold_turn_keeps|apply write_back_keeps]. Qed.

(** What a communication holds of its turns, within every bound. *)
Record state_ok (st : State) : Prop := {
  so_turns : turns_in_bounds (th_turns st);
  so_fields : Forall (fun t => turn_ok t = true) (th_turns st);
  so_keys : (length (th_turn_keys st) <= 2 * COGNITION_RECENT_TURNS)%nat }.

(** serde_json leaves an absent field out: a turn that names less is no longer. *)
Hypothesis clearing_shortens : forall t, (turn_size R (said_to_no_one t) <= turn_size R t)%Z.

Lemma cleared_in_bounds turns turns' :
  Forall2 (fun t u => u = t \/ u = said_to_no_one t) turns turns' -> turns_in_bounds turns -> turns_in_bounds turns'.
Proof.
  intros H [Hs Hc Hb]. pose proof (Forall2_length _ _ _ H) as Hlen. split; [|lia|].
  - clear Hc Hb Hlen. induction H as [|t u l k Htu Hlk IH]; [constructor|].
    apply StronglySorted_inv in Hs as [Hs Ht]. constructor; [by apply IH|].
    clear IH Hs. induction Hlk as [|x y l k Hxy Hlk IH]; [constructor|].
    apply Forall_cons in Ht as [Hx Ht]. constructor; [|by apply IH].
    by destruct Htu as [-> | ->], Hxy as [-> | ->].
  - rewrite <- Hlen. destruct Hb as [Hb|Hb]; [left|by right]. etrans; [|exact Hb]. clear Hb Hs Hc Hlen.
    unfold turns_bytes. induction H as [|t u l k Htu _ IH]; [done|]. rewrite !sum_of_cons.
    specialize (clearing_shortens t). destruct Htu as [-> | ->]; lia.
Qed.

Lemma push_in_bounds turns t : turns_in_bounds turns -> turns_in_bounds (push_recent_turn R turns t).
Proof. intros H. unfold push_recent_turn. case_bool_decide; [done|]. apply bound_in_bounds. Qed.

Lemma bound_fields (P : MemoryTurn -> Prop) l : Forall P l -> Forall P (bound_recent_turns R (sort_by (by_time R) l)).
Proof.
  intros H. destruct (bound_suffix (sort_by (by_time R) l)) as (gone & Hl & _).
  rewrite <- (sort_by_perm (by_time R) l), Hl in H. by apply Forall_app in H as [_ H].
Qed.

Lemma hold_turn_ok h r : state_ok h -> turn_ok (rt_turn r) = true -> state_ok (hold_turn R h r).1.
Proof.
  intros [Ht Hf Hk] Hr. unfold hold_turn. destruct (str_mem _ _ || _); cbn [fst].
  - destruct (to_via (rt_turn r)); [by split|].
    pose proof (agent_too_spec (th_turns h) (rt_turn r)) as Hspec. split; cbn; [|clear Ht|done].
    + by eapply cleared_in_bounds.
    + induction Hspec as [|t u l k Htu _ IH]; [done|]. apply Forall_cons in Hf as [Hh Hf].
      constructor; [|by apply IH]. destruct Htu as [-> | ->]; [done|].
      unfold turn_ok in *. cbn. rewrite !andb_true_iff in *. naive_solver.
  - split; cbn.
    + by apply push_in_bounds.
    + unfold push_recent_turn. case_bool_decide; [done|]. apply bound_fields.
      apply Forall_app. split; [done|]. by constructor.
    + rewrite length_drop. rewrite length_app. cbn. unfold COGNITION_RECENT_TURNS in *. lia.
Qed.

Lemma write_back_ok h updated : state_ok h -> state_ok updated -> state_ok (write_back_turn R (Some h) updated).
Proof.
  intros [Ht Hf Hk] [_ Hu _]. split; cbn; [apply bound_in_bounds| |done].
  apply bound_fields, Forall_forall. destruct (merge_into (th_turns updated) (th_turns h)) as [_ H].
  intros t [Hin|Hin]%H%elem_of_app; rewrite Forall_forall in Hf, Hu; auto.
Qed.

End Keeping.

