(* ===== verification/Cognition.v ===== *)
(** * SY.cognition: the intake of turns and what is kept of them

    src/src/bin/sy_cognition.rs and its state_store.rs: the batches of its routers' streams
    ([take_stream_batch]), the communications it holds in memory and in its file
    ([sync_held_state]), the hot set of the memory region, the worker's copy and write-back,
    and a restart. The intake and the worker are two tasks; each section of code under the
    held state's lock is one step. What the worker derives of a turn is any value. *)

From Stdlib Require Import ZArith Lia Ascii String.
From stdpp Require Import base list strings gmap sorting.
From S2P Require Import Prelude Protocol StreamLog Storage Gates Turns.
Open Scope string_scope.

Definition COGNITION_TURN_QUEUE : nat := 256.
Definition MEMORY_MAX_DATA_SIZE : Z := 4194304.

(** Who holds a copied turn's communication; of an agent's identity the ILK. *)
Inductive Holder := HolderAgent (node ilk : string) | HolderNoAgent.

Definition agent_node_of (h : Holder) : string := match h with HolderAgent node _ => node | HolderNoAgent => "" end.

Definition agent_ilk_of (h : Holder) : string :=
  match h with HolderAgent _ ilk => ilk | HolderNoAgent => NO_AGENT_ILK end.

(** What the ranking of the hot set and the file's order read of the worker's derivations, and
    serde_json's length of a state. *)
Record Ranks {D : Type} := mkRanks {
  rk_new : D;
  rk_last_seen_ms : D -> Z;
  rk_has_scope : D -> bool;
  rk_live_entities : D -> Z;
  rk_turn_count : D -> Z;
  rk_state_len : ThreadState D -> Z }.
Arguments Ranks : clear implicits.

(** The memory region as a write finds it: serde_json's lengths of its entries, with the news of
    that moment, and of a snapshot with none. *)
Record Region {D : Type} := mkRegion {
  rg_entry_len : CommunicationKey -> ThreadState D -> option Z;
  rg_base_len : option Z }.
Arguments Region : clear implicits.

Section Cognition.
Context {V D : Type} `{J : Json V} (R : Readers V) (K : Ranks D).
(** serde_json on a stream record's payload, and the hive. *)
Context (message_of : V -> option (Message V)) (hive_id : string).

#[local] Abbreviation State := (ThreadState D).
#[local] Abbreviation Key := CommunicationKey.
Implicit Types (m : Message V) (st : State) (k : Key).

Definition new_state : State := mkThreadState D "" None None None [] [] (rk_new K).

Definition last_turn_ms st : Z :=
  match last (th_turns st) with Some t => turn_ms R t | None => 0%Z end.

Definition thread_recency_ms st : Z := Z.max (rk_last_seen_ms K (th_derived st)) (last_turn_ms st).

(** ** The file *)

(** [CognitionStore::save] in one transaction: the rows held of [keys]. *)
Definition save_rows (keys : list Key) (threads file : gmap Key State) : gmap Key State :=
  fold_left (fun file k => match threads !! k with Some st => <[k := st]> file | None => file end) keys file.

Definition later_agent (last : option (Z * string)) st : option (Z * string) :=
  if str_is_empty (Prelude.trim (th_agent_node st)) then last
  else match last with
  | Some (ms, _) => if (ms <? last_turn_ms st)%Z then Some (last_turn_ms st, th_agent_node st) else last
  | None => Some (last_turn_ms st, th_agent_node st)
  end.

(** [last_agent_on_thread]. *)
Definition last_agent_on_thread (thread_id : string) (file : gmap Key State) : option (Z * string) :=
  fold_left (fun last '(k, st) =>
    if (key_thread_id k =s thread_id) && negb (key_agent_ilk k =s NO_AGENT_ILK) then later_agent last st
    else last) (map_to_list file) None.

Fixpoint until_bytes (max_bytes bytes : Z) (rows : list (Key * State)) : list (Key * State) :=
  match rows with
  | [] => []
  | (k, st) :: rest =>
    if (max_bytes <=? bytes)%Z then []
    else (k, st) :: until_bytes max_bytes (bytes + rk_state_len K st) rest
  end.

(** [most_recent]. *)
Definition most_recent (max_bytes : Z) (file : gmap Key State) : list (Key * State) :=
  until_bytes max_bytes 0
    (sort_by (fun a b => Z.compare (thread_recency_ms b.2) (thread_recency_ms a.2))
       (List.filter (fun '(k, _) => negb (key_agent_ilk k =s NO_AGENT_ILK)) (map_to_list file))).

(** ** The hot set *)

Record Candidate := mkCandidate {
  cd_key : Key; cd_bytes : Z; cd_just_updated : bool; cd_has_scope : bool; cd_live : Z;
  cd_last_seen : Z; cd_turn_count : Z }.

Definition bool_cmp (a b : bool) : comparison :=
  match a, b with true, false => Gt | false, true => Lt | _, _ => Eq end.

Definition key_cmp (a b : Key) : comparison :=
  match String.compare (key_thread_id a) (key_thread_id b) with
  | Eq => String.compare (key_agent_ilk a) (key_agent_ilk b)
  | c => c
  end.

Definition rank_cmp (left right : Candidate) : comparison :=
  then_with (bool_cmp (cd_just_updated right) (cd_just_updated left))
    (then_with (Z.compare (cd_last_seen right) (cd_last_seen left))
      (then_with (bool_cmp (cd_has_scope right) (cd_has_scope left))
        (then_with (Z.compare (cd_live right) (cd_live left))
          (then_with (Z.compare (cd_turn_count right) (cd_turn_count left))
            (key_cmp (cd_key left) (cd_key right)))))).

(** [None]: an entry could not be serialized. *)
Definition candidate_of (g : Region D) (kept : list Key) (k : Key) st : option Candidate :=
  bytes ← rg_entry_len g k st;
  Some (mkCandidate k bytes (bool_decide (k ∈ kept)) (rk_has_scope K (th_derived st))
          (rk_live_entities K (th_derived st)) (thread_recency_ms st) (rk_turn_count K (th_derived st))).

Fixpoint candidates_of (g : Region D) (kept : list Key) (rows : list (Key * State)) : option (list Candidate) :=
  match rows with
  | [] => Some []
  | (k, st) :: rest =>
    if key_agent_ilk k =s NO_AGENT_ILK then candidates_of g kept rest
    else c ← candidate_of g kept k st; cs ← candidates_of g kept rest; Some (c :: cs)
  end.

(** The greedy choice: the selected, in rank order, and the bytes they take. *)
Fixpoint select_fitting (payload_bytes : Z) (selected : list Key) (cs : list Candidate) : list Key * Z :=
  match cs with
  | [] => (selected, payload_bytes)
  | c :: rest =>
    let extra_bytes := (cd_bytes c + match selected with [] => 0 | _ => 1 end)%Z in
    if (MEMORY_MAX_DATA_SIZE <? saturating_add64 payload_bytes extra_bytes)%Z
    then select_fitting payload_bytes selected rest
    else select_fitting (saturating_add64 payload_bytes extra_bytes) (selected ++ [cd_key c]) rest
  end.

(** [build_memory_hot_set_snapshot]: the communications of the snapshot, and its bytes. *)
Definition build_hot_set (g : Region D) (kept : list Key) (threads : gmap Key State) : option (list Key * Z) :=
  base_size ← rg_base_len g;
  cs ← candidates_of g kept (map_to_list threads);
  Some (select_fitting base_size [] (sort_by rank_cmp cs)).

(** [retain_memory_hot_set]. *)
Definition retain_hot_set (g : Region D) (kept : list Key) (threads : gmap Key State) : gmap Key State :=
  match build_hot_set g kept threads with
  | Some (selected, _) => filter (fun '(k, _) => k ∈ selected \/ k ∈ kept) threads
  | None => threads
  end.

(** ** The state *)

(** A copy of a turn on its way to the worker. *)
Record CognitionTurn := mkCognitionTurn {
  ct_message : Message V; ct_holder : option Holder; ct_relay : bool; ct_seq : Z; ct_duplicate : bool }.

(** A batch under way: who sent it, its epoch, its last seq and the last one seen, its turns, what
    the intake takes of them, and its relays with their place among the turns. *)
Record Batch := mkBatch {
  b_from : string; b_epoch : Z; b_last_seq : Z; b_seen : Z; b_turns : list CognitionTurn;
  b_recent : list RecentTurn; b_relays : list (nat * string * Z) }.

(** Where the intake is: starting, between batches, before the agents' turns are held, before the
    relays' holders are looked up, before the relays are held, before the turns are sent. *)
Inductive IntakePc :=
| IStart
| IIdle
| IHold (b : Batch)
| IRelays (b : Batch) (duplicates : list Z)
| IHoldRelays (b : Batch) (relayed : list RecentTurn) (duplicates : list Z)
| ISend (b : Batch) (duplicates : list Z).

(** Where the worker is: between turns, with a turn taken up, with its communication loaded, with its copy and the
    derivations of it, done with it. *)
Inductive WorkerPc :=
| WIdle
| WBegun (k : Key) (agent_node : string)
| WLoaded (k : Key) (agent_node : string)
| WCopied (k : Key) st
| WDone.

Record Cog := mkCog {
  threads : gmap Key State;
  file : gmap Key State;
  unsaved : gset Key;
  worker_turn : option Key;
  stream_seen : gmap (string * Z) Z;
  queue : list CognitionTurn;
  intake : IntakePc;
  work : WorkerPc;
  (** The turns taken since the start, by stream, epoch and seq, for the statements. *)
  taken : list (string * Z * Z) }.

Definition set_intake (c : Cog) (pc : IntakePc) : Cog :=
  mkCog (threads c) (file c) (unsaved c) (worker_turn c) (stream_seen c) (queue c) pc (work c) (taken c).

Definition set_work (c : Cog) (k : option Key) (pc : WorkerPc) : Cog :=
  mkCog (threads c) (file c) (unsaved c) k (stream_seen c) (queue c) (intake c) pc (taken c).

Definition set_threads (c : Cog) (ts : gmap Key State) : Cog :=
  mkCog ts (file c) (unsaved c) (worker_turn c) (stream_seen c) (queue c) (intake c) (work c) (taken c).

(** [sync_held_state] after the change: [changed] is written to the file with what was not yet,
    [saved] says whether the transaction went through; then the hot set, when there is a region. *)
Definition sync_held_state (c : Cog) (ts : gmap Key State) (changed kept : list Key)
  (saved : bool) (region : option (Region D)) : Cog :=
  let kept := match worker_turn c with
    | Some k => if bool_decide (k ∈ kept) then kept else (kept ++ [k])%list
    | None => kept
    end in
  let to_save := (changed ++ List.filter (fun k => negb (bool_decide (k ∈ changed))) (elements (unsaved c)))%list in
  let new_file := if saved then save_rows to_save ts (file c) else file c in
  let new_unsaved : gset Key :=
    if saved then ∅ else list_to_set (List.filter (fun k => bool_decide (is_Some (ts !! k))) to_save) in
  let kept := (kept ++ List.filter (fun k => negb (bool_decide (k ∈ kept))) (elements new_unsaved))%list in
  mkCog (match region with Some g => retain_hot_set g kept ts | None => ts end) new_file new_unsaved (worker_turn c)
    (stream_seen c) (queue c) (intake c) (work c) (taken c).

(** ** Holding turns *)

(** [held_or_loaded]: [readable] is whether the file's row can be read now. *)
Definition held_or_loaded (readable : Key -> bool) (ts file : gmap Key State) (k : Key) : option (gmap Key State) :=
  match ts !! k with
  | Some _ => Some ts
  | None => if readable k then Some (<[k := default new_state (file !! k)]> ts) else None
  end.

(** One turn of the loop of [hold_recent_turns]: the held communications, those touched and the
    seqs of duplicates. *)
Definition hold_step (readable : Key -> bool) (file : gmap Key State)
  (acc : gmap Key State * list Key * list Z) (recent : RecentTurn) : gmap Key State * list Key * list Z :=
  let '(ts, touched, duplicates) := acc in
  match held_or_loaded readable ts file (rt_key recent) with
  | None => acc
  | Some ts =>
    match ts !! rt_key recent with
    | None => acc
    | Some held =>
      let '(st, duplicate) := hold_turn R held recent in
      (<[rt_key recent := st]> ts,
       (if duplicate || bool_decide (rt_key recent ∈ touched) then touched else touched ++ [rt_key recent])%list,
       if duplicate then (duplicates ++ [rt_seq recent])%list else duplicates)
    end
  end.

Definition hold_recent_turns (readable : Key -> bool) (file ts : gmap Key State) (recent : list RecentTurn)
  : gmap Key State * list Key * list Z := fold_left (hold_step readable file) recent (ts, [], []).

(** The communications of [recent], each once. *)
Definition keys_of (recent : list RecentTurn) : list Key :=
  fold_left (fun kept t => if bool_decide (rt_key t ∈ kept) then kept else (kept ++ [rt_key t])%list) recent [].

(** [take_recent_turns]: the state after it and the duplicates. *)
Definition take_recent_turns (c : Cog) (readable : Key -> bool) (saved : bool) (region : option (Region D))
  (recent : list RecentTurn)
  : Cog * list Z :=
  match recent with
  | [] => (c, [])
  | _ =>
    let '(ts, touched, duplicates) := hold_recent_turns readable (file c) (threads c) recent in
    (sync_held_state c ts touched (keys_of recent) saved region, duplicates)
  end.

(** ** Whose communication a turn joins *)

(** [agent_identity_of]: [ident] is the ILK the identity has for a node. *)
Definition holder_agent (ident : string -> option string) (node : string) : option Holder :=
  match ident node with
  | Some ilk => if str_is_empty (Prelude.trim ilk) then None else Some (HolderAgent node ilk)
  | None => None
  end.

(** The held communication of the thread whose agent served it last. *)
Definition held_agent (thread_id : string) (ts : gmap Key State) : option (Z * string) :=
  fold_left (fun best '(k, st) =>
    if (key_thread_id k =s thread_id) && negb (key_agent_ilk k =s NO_AGENT_ILK)
       && negb (str_is_empty (th_agent_node st)) then
      match best with
      | Some (ms, _) => if (last_turn_ms st <? ms)%Z then best else Some (last_turn_ms st, th_agent_node st)
      | None => Some (last_turn_ms st, th_agent_node st)
      end
    else best) (map_to_list ts) None.

(** [holder_of]; [stored] is whether the file could be read. *)
Definition holder_of (c : Cog) (ident : string -> option string) (stored : bool)
  (thread_id producer : string) : option Holder :=
  if negb (is_workflow_node producer) then holder_agent ident producer
  else
    let in_file := if stored then last_agent_on_thread thread_id (file c) else None in
    let with_agent node := match holder_agent ident node with Some h => Some h | None => Some HolderNoAgent end in
    match held_agent thread_id (threads c), in_file with
    | Some (held_ms, node), Some (stored_ms, stored_node) =>
      if (held_ms <? stored_ms)%Z then with_agent stored_node else with_agent node
    | Some (_, node), None | None, Some (_, node) => with_agent node
    | None, None => Some HolderNoAgent
    end.

Definition intake_turn m (h : Holder) (seq ts_ms : Z) (now : string) (facts : string -> option IlkFacts)
  : list RecentTurn :=
  match recent_turn_of R m (agent_node_of h) (agent_ilk_of h) seq ts_ms now facts with
  | Some t => [t]
  | None => []
  end.

(** ** A batch *)

(** One record of the loop of [take_stream_batch]. *)
Definition take_record (ident : string -> option string) (now : string) (facts : string -> option IlkFacts)
  (b : Batch) (r : StreamRecord V) : Batch :=
  if (sr_seq r <=? b_seen b)%Z then b
  else
    let skipped := mkBatch (b_from b) (b_epoch b) (b_last_seq b) (sr_seq r) (b_turns b) (b_recent b) (b_relays b) in
    if negb (sr_subject r =s SUBJECT_COGNITION_TURNS) then skipped
    else match message_of (sr_payload r) with
    | None => skipped
    | Some m =>
      let relay := is_workflow_node (sr_producer r) in
      let threaded := match thread_of m with Some _ => true | None => false end in
      let holder := if threaded && negb relay then holder_agent ident (sr_producer r) else None in
      mkBatch (b_from b) (b_epoch b) (b_last_seq b) (sr_seq r)
        (b_turns b ++ [mkCognitionTurn m holder relay (sr_seq r) false])
        (b_recent b ++ match holder with
                       | Some h => intake_turn m h (sr_seq r) (sr_ts_ms r) now facts
                       | None => []
                       end)
        (if threaded && relay then b_relays b ++ [(length (b_turns b), sr_producer r, sr_ts_ms r)]
         else b_relays b)
    end.

Definition take_records (ident : string -> option string) (now : string) (facts : string -> option IlkFacts)
  (b : Batch) (rs : list (StreamRecord V)) : Batch := fold_left (take_record ident now facts) rs b.

Definition set_holder (h : option Holder) (t : CognitionTurn) : CognitionTurn :=
  mkCognitionTurn (ct_message t) h (ct_relay t) (ct_seq t) (ct_duplicate t).

(** A relay's holder, and what the intake takes of it. *)
Definition take_relay (c : Cog) (ident : string -> option string) (stored : bool) (now : string)
  (facts : string -> option IlkFacts) (acc : list CognitionTurn * list RecentTurn) (relay : nat * string * Z)
  : list CognitionTurn * list RecentTurn :=
  let '(turns, relayed) := acc in
  let '(at_, producer, ts_ms) := relay in
  match turns !! at_ with
  | None => acc
  | Some t =>
    let thread_id := unwrap_or "" (thread_id (meta (ct_message t))) in
    let holder := holder_of c ident stored thread_id producer in
    (<[at_ := set_holder holder t]> turns,
     match holder with
     | Some h => (relayed ++ intake_turn (ct_message t) h (ct_seq t) ts_ms now facts)%list
     | None => relayed
     end)
  end.

Definition with_batch_turns (b : Batch) (turns : list CognitionTurn) : Batch :=
  mkBatch (b_from b) (b_epoch b) (b_last_seq b) (b_seen b) turns (b_recent b) (b_relays b).

(** [try_send] of each turn: a full queue drops it. *)
Definition send_turns (duplicates : list Z) (turns : list CognitionTurn) (q : list CognitionTurn)
  : list CognitionTurn :=
  fold_left (fun q t =>
    if (length q <? COGNITION_TURN_QUEUE)%nat then
      (q ++ [mkCognitionTurn (ct_message t) (ct_holder t) (ct_relay t) (ct_seq t)
               (bool_decide (ct_seq t ∈ duplicates))])%list
    else q) turns q.

(** ** The worker *)

(** The communication and the agent of a turn [handle_turn] takes up, if it does. *)
Definition to_analyze (t : CognitionTurn) (facts : string -> option IlkFacts) : option (Key * string) :=
  id ← thread_of (ct_message t); h ← ct_holder t;
  if ct_duplicate t then None
  else if person_at_other_end R (ct_message t) (agent_node_of h) facts
       then Some (mkKey id (agent_ilk_of h), agent_node_of h) else None.

(** The copy with the turn's agent and the worker's derivations. *)
Definition derived_copy (agent_node : string) (d : D) st : State :=
  mkThreadState D (if str_is_empty agent_node then th_agent_node st else agent_node) (th_src_ilk st)
    (th_dst_ilk st) (th_ich st) (th_turns st) (th_turn_keys st) d.

(** ** Steps *)

Definition open_batch (from : string) (batch : StreamBatch V) (c : Cog) : option Batch :=
  if negb (is_stream_node_name from) || negb (opt_str_is (stream_hive from) hive_id) then None
  else match last (sb_records batch) with
  | None => None
  | Some r => Some (mkBatch from (sb_epoch batch) (sr_seq r)
                      (default 0%Z (stream_seen c !! (from, sb_epoch batch))) [] [] [])
  end.

(** The file's communications at start ([load_most_recent]). *)
Definition load_most_recent (c : Cog) (saved : bool) (region : option (Region D)) : Cog :=
  sync_held_state c
    (fold_left (fun ts '(k, st) => <[k := st]> ts) (most_recent (2 * MEMORY_MAX_DATA_SIZE) (file c)) (threads c))
    [] [] saved region.

Definition log_taken (c : Cog) (b : Batch) : Cog :=
  mkCog (threads c) (file c) (unsaved c) (worker_turn c) (stream_seen c) (queue c) (intake c) (work c)
    (taken c ++ map (fun t => (b_from b, b_epoch b, ct_seq t)) (b_turns b)).

Definition set_queue (c : Cog) (q : list CognitionTurn) : Cog :=
  mkCog (threads c) (file c) (unsaved c) (worker_turn c) (stream_seen c) q (intake c) (work c) (taken c).

Definition see (c : Cog) (b : Batch) : Cog :=
  mkCog (threads c) (file c) (unsaved c) (worker_turn c)
    (<[(b_from b, b_epoch b) := b_seen b]> (stream_seen c)) (queue c) (intake c) (work c) (taken c).

(** What a process starts with: what the file has. *)
Definition restart (file : gmap Key State) : Cog := mkCog ∅ file ∅ None ∅ [] IStart WIdle [].

(** What a step does to the communications: nothing; the turns of a batch go into those that are
    held or can be read; the worker writes its copy back; the process starts again. *)
Inductive Event :=
| EvQuiet
| EvHold (known : Key -> bool) (recent : list RecentTurn)
| EvWrite (k : Key) (updated : State)
| EvRestart.

Definition known_of (c : Cog) (readable : Key -> bool) (k : Key) : bool :=
  bool_decide (is_Some (threads c !! k)) || readable k.

Inductive step (c : Cog) : Event -> Cog -> Prop :=
| s_load saved region : intake c = IStart -> step c EvQuiet (set_intake (load_most_recent c saved region) IIdle)
| s_load_fails : intake c = IStart -> step c EvQuiet (set_intake c IIdle)
| s_batch from batch b0 ident now facts b :
    intake c = IIdle -> open_batch from batch c = Some b0 ->
    take_records ident now facts b0 (sb_records batch) = b ->
    step c EvQuiet (set_intake (log_taken c b) (IHold b))
| s_hold b readable saved region c' duplicates :
    intake c = IHold b -> take_recent_turns c readable saved region (b_recent b) = (c', duplicates) ->
    step c (EvHold (known_of c readable) (b_recent b)) (set_intake c' (IRelays b duplicates))
| s_relays b duplicates ident stored now facts turns relayed :
    intake c = IRelays b duplicates ->
    fold_left (take_relay c ident stored now facts) (b_relays b) (b_turns b, []) = (turns, relayed) ->
    step c EvQuiet (set_intake c (IHoldRelays (with_batch_turns b turns) relayed duplicates))
| s_hold_relays b relayed duplicates readable saved region c' more :
    intake c = IHoldRelays b relayed duplicates ->
    take_recent_turns c readable saved region relayed = (c', more) ->
    step c (EvHold (known_of c readable) relayed) (set_intake c' (ISend b (duplicates ++ more)))
| s_send b duplicates :
    intake c = ISend b duplicates ->
    step c EvQuiet (set_intake (see (set_queue c (send_turns duplicates (b_turns b) (queue c))) b) IIdle)
| s_episode saved region :
    intake c = IIdle \/ work c = WDone -> step c EvQuiet (sync_held_state c (threads c) [] [] saved region)
| s_turn t q facts :
    work c = WIdle -> queue c = t :: q ->
    step c EvQuiet (match to_analyze t facts with
               | Some (k, node) => set_work (set_queue c q) (Some k) (WBegun k node)
               | None => set_queue c q
               end)
| s_unreadable k node readable :
    work c = WBegun k node -> held_or_loaded readable (threads c) (file c) k = None ->
    step c EvQuiet (set_work c (worker_turn c) WDone)
| s_held k node readable ts :
    work c = WBegun k node -> held_or_loaded readable (threads c) (file c) k = Some ts ->
    step c EvQuiet (set_work (set_threads c ts) (worker_turn c) (WLoaded k node))
| s_no_answer k node : work c = WLoaded k node -> step c EvQuiet (set_work c (worker_turn c) WDone)
| s_copy k node st d :
    work c = WLoaded k node -> threads c !! k = Some st ->
    step c EvQuiet (set_work c (worker_turn c) (WCopied k (derived_copy node d st)))
| s_write k st saved region :
    work c = WCopied k st ->
    step c (EvWrite k st) (set_work (sync_held_state c (<[k := write_back_turn R (threads c !! k) st]> (threads c))
                            [k] [k] saved region) (worker_turn c) WDone)
| s_done : work c = WDone -> step c EvQuiet (set_work c None WIdle)
| s_restart : step c EvRestart (restart (file c)).

Inductive reachable : Cog -> Prop :=
| r_start : reachable (restart ∅)
| r_step c ev c' : reachable c -> step c ev c' -> reachable c'.

End Cognition.
