(* ===== verification/CognitionSafety.v ===== *)
(** * SY.cognition keeps the turns it takes

    What the memory and the file hold of a communication together, through evictions, failed
    writes, the worker's copies and restarts: a map from communications to states that only the
    turns taken and the worker's write-backs change ([held_and_filed_are_one]), each within its
    bounds ([communications_in_bounds]), and each record of a stream taken once
    ([records_taken_once]). *)

From Stdlib Require Import ZArith Lia Ascii String.
From stdpp Require Import base list strings gmap sorting.
From S2P Require Import Prelude Protocol StreamLog Storage Gates Turns Cognition.
Open Scope string_scope.

Lemma elem_of_list_filter {A} (f : A -> bool) l x : x ∈ List.filter f l <-> x ∈ l /\ f x = true.
Proof. by rewrite list_elem_of_In, filter_In, list_elem_of_In. Qed.

Section Kept.
Context {V D : Type} `{J : Json V} (R : Readers V) (K : Ranks D).
Context (message_of : V -> option (Message V)) (hive_id : string).

#[local] Abbreviation State := (ThreadState D).
#[local] Abbreviation Key := CommunicationKey.
#[local] Abbreviation Map := (gmap Key State).
#[local] Abbreviation cog := (Cog (V := V) (D := D)).
#[local] Abbreviation step := (step R K message_of hive_id).
#[local] Abbreviation reachable := (reachable R K message_of hive_id).
Implicit Types (st : State) (k : Key) (ts fl : Map) (c : cog).

(** ** What is known of a communication *)

(** What is held of it, or else filed, or else a new one. *)
Definition view_in ts fl k : State := default (default (new_state K) (fl !! k)) (ts !! k).

Definition view c k : State := view_in (threads c) (file c) k.

(** What an event makes of it. *)
Definition after (ev : Event) k st : State :=
  match ev with
  | EvHold known recent =>
    if known k then
      fold_left (fun st r => (hold_turn R st r).1) (List.filter (fun r => bool_decide (rt_key r = k)) recent) st
    else st
  | EvWrite k' updated => if decide (k = k') then write_back_turn R (Some st) updated else st
  | _ => st
  end.

(** ** Writing and letting go *)

Lemma save_rows_lookup keys ts fl k :
  save_rows keys ts fl !! k = if decide (k ∈ keys) then match ts !! k with Some st => Some st | None => fl !! k end
                              else fl !! k.
Proof.
  revert fl. induction keys as [|x keys IH]; intros fl; [done|].
  change (save_rows (x :: keys) ts fl)
    with (save_rows keys ts (match ts !! x with Some st => <[x := st]> fl | None => fl end)).
  rewrite IH. destruct (decide (x = k)) as [->|Hne].
  - rewrite (decide_True (P := k ∈ k :: keys)) by left.
    destruct (ts !! k) eqn:E; [rewrite lookup_insert_eq|]; by destruct (decide _).
  - assert (k ∈ x :: keys <-> k ∈ keys) as Hiff by (rewrite elem_of_cons; naive_solver).
    destruct (ts !! x); rewrite ?lookup_insert_ne by done;
      destruct (decide (k ∈ keys)), (decide (k ∈ x :: keys)); tauto || done.
Qed.

Lemma retain_lookup (g : Region D) kept ts k st :
  retain_hot_set R K g kept ts !! k = Some st -> ts !! k = Some st.
Proof.
  unfold retain_hot_set. destruct (build_hot_set _ _ _ _ _) as [[sel n]|]; [|done].
  by intros [H _]%map_lookup_filter_Some.
Qed.

Lemma retain_kept (g : Region D) kept ts k st :
  ts !! k = Some st -> k ∈ kept -> retain_hot_set R K g kept ts !! k = Some st.
Proof.
  intros H Hk. unfold retain_hot_set. destruct (build_hot_set _ _ _ _ _) as [[sel n]|]; [|done].
  apply map_lookup_filter_Some. split; [done|]. by right.
Qed.

(** Memory and file agree on what is not owed to the file. *)
Definition coherent ts fl (unsaved : gset Key) : Prop :=
  forall k st, ts !! k = Some st -> k ∉ unsaved -> st ≡ default (new_state K) (fl !! k).

Lemma evicted_view ts ts' fl k : (forall st, ts' !! k = Some st -> ts !! k = Some st) ->
  (forall st, ts !! k = Some st -> ts' !! k = None -> st ≡ default (new_state K) (fl !! k)) ->
  view_in ts' fl k ≡ view_in ts fl k.
Proof.
  intros Hsub Hgone. unfold view_in. destruct (ts' !! k) as [st|] eqn:E'.
  - by rewrite (Hsub st).
  - destruct (ts !! k) as [st|] eqn:E; [|done]. cbn. symmetry. by apply Hgone.
Qed.

Section Sync.
Context (c : cog) (ts : Map) (changed kept : list Key) (saved : bool) (region : option (Region D)).
#[local] Abbreviation c' := (sync_held_state R K c ts changed kept saved region).

Hypothesis Hcoh : forall k st, ts !! k = Some st -> k ∉ changed -> k ∉ unsaved c ->
  st ≡ default (new_state K) (file c !! k).

Lemma to_save_iff k :
  k ∈ (changed ++ List.filter (fun k => negb (bool_decide (k ∈ changed))) (elements (unsaved c)))%list
  <-> k ∈ changed \/ k ∈ unsaved c.
Proof.
  rewrite elem_of_app, elem_of_list_filter, elem_of_elements, negb_true_iff, bool_decide_eq_false.
  destruct (decide (k ∈ changed)); tauto.
Qed.

Lemma sync_held k st : threads c' !! k = Some st -> ts !! k = Some st.
Proof. cbn. destruct region; [apply retain_lookup|done]. Qed.

Lemma sync_keeps k st : ts !! k = Some st -> k ∈ kept \/ worker_turn c = Some k \/ k ∈ unsaved c' ->
  threads c' !! k = Some st.
Proof.
  intros H Hk. cbn in *. destruct region; [|done]. apply retain_kept; [done|].
  set (kept' := match worker_turn c with Some _ => _ | None => _ end).
  assert (k ∈ kept \/ worker_turn c = Some k -> k ∈ kept') as Hin.
  { unfold kept'. intros [Hkept|Hw]; [|rewrite Hw].
    - destruct (worker_turn c); [|done]. case_bool_decide; [done|]. apply elem_of_app. by left.
    - case_bool_decide; [done|]. apply elem_of_app. right. by left. }
  rewrite elem_of_app. destruct (decide (k ∈ kept')) as [|Hn]; [by left|]. right.
  apply elem_of_list_filter. split; [apply elem_of_elements; tauto|by apply negb_true_iff, bool_decide_eq_false].
Qed.

(** What the file has after the write. *)
Lemma sync_file k : file c' !! k =
  if saved && bool_decide (k ∈ changed \/ k ∈ unsaved c)
  then match ts !! k with Some st => Some st | None => file c !! k end else file c !! k.
Proof.
  cbn. destruct saved; [|done]. rewrite save_rows_lookup.
  case_bool_decide as Hk; rewrite <- to_save_iff in Hk; by case_decide.
Qed.

Lemma sync_unsaved k : k ∈ unsaved c' <->
  saved = false /\ (k ∈ changed \/ k ∈ unsaved c) /\ is_Some (ts !! k).
Proof.
  cbn. destruct saved; [set_solver|].
  rewrite elem_of_list_to_set, elem_of_list_filter, to_save_iff, bool_decide_eq_true. naive_solver.
Qed.

(** What was not owed to the file, or has been written, is as filed. *)
Lemma sync_filed k st : ts !! k = Some st -> k ∉ unsaved c' -> st ≡ default (new_state K) (file c' !! k).
Proof.
  intros H Hk. rewrite sync_unsaved in Hk. rewrite sync_file.
  destruct (decide (k ∈ changed \/ k ∈ unsaved c)) as [Hin|Hn].
  - destruct saved; [|exfalso; apply Hk; repeat split; [tauto|by exists st]].
    cbn. rewrite bool_decide_eq_true_2 by done. by rewrite H.
  - rewrite bool_decide_eq_false_2 by done. rewrite andb_false_r. apply Hcoh; tauto.
Qed.

Lemma sync_coherent : coherent (threads c') (file c') (unsaved c').
Proof. intros k st H%sync_held Hk. by apply sync_filed. Qed.

Lemma sync_view k : view c' k ≡ view_in ts (file c) k.
Proof.
  unfold view. transitivity (view_in ts (file c') k).
  - apply evicted_view; [intros st; apply sync_held|]. intros st H Hnone. apply sync_filed; [done|].
    intros Hk. rewrite (sync_keeps k st) in Hnone by tauto. done.
  - unfold view_in. destruct (ts !! k) as [st|] eqn:E; [done|]. cbn.
    rewrite sync_file, E. by destruct (_ && _).
Qed.

End Sync.

(** ** Holding turns *)

Section Hold.
Context (readable : Key -> bool) (fl : Map).

Definition known_in ts k : bool := bool_decide (is_Some (ts !! k)) || readable k.

Lemma loaded_spec ts k ts1 : held_or_loaded K readable ts fl k = Some ts1 ->
  known_in ts k = true /\ ts1 !! k = Some (view_in ts fl k)
  /\ (forall k', k' <> k -> ts1 !! k' = ts !! k').
Proof.
  unfold held_or_loaded, known_in, view_in. destruct (ts !! k) as [st|] eqn:E.
  - intros [= <-]. by rewrite E.
  - destruct (readable k); [|done]. intros [= <-]. rewrite orb_true_r, lookup_insert_eq. split_and!; [done..|].
    intros k' Hne. by rewrite lookup_insert_ne.
Qed.

Lemma unloaded_spec ts k : held_or_loaded K readable ts fl k = None -> known_in ts k = false.
Proof.
  unfold held_or_loaded, known_in. destruct (ts !! k); [done|]. destruct (readable k); [done|].
  intros _. by rewrite bool_decide_eq_false_2 by (intros [? ?]; done).
Qed.

(** One turn of the loop. *)
Lemma hold_step_spec ts touched dups r : exists ts1 touched1 dups1,
  hold_step R K readable fl (ts, touched, dups) r = (ts1, touched1, dups1)
  /\ (forall k, view_in ts1 fl k
       = if bool_decide (rt_key r = k) && known_in ts k then (hold_turn R (view_in ts fl k) r).1
         else view_in ts fl k)
  /\ (forall k, known_in ts1 k = known_in ts k)
  /\ (forall k, is_Some (ts !! k) -> is_Some (ts1 !! k))
  /\ (forall k, k ∈ touched -> k ∈ touched1)
  /\ (forall k, k ∉ touched1 -> view_in ts1 fl k ≡ view_in ts fl k).
Proof.
  unfold hold_step. destruct (held_or_loaded K readable ts fl (rt_key r)) as [ts0|] eqn:E.
  2: { apply unloaded_spec in E. exists ts, touched, dups. split_and!; try done. intros k.
       case_bool_decide as Hk; [|done]. subst. by rewrite E. }
  apply loaded_spec in E as (Hknown & Hat & Hne). rewrite Hat.
  pose proof (hold_turn_duplicate R (view_in ts fl (rt_key r)) r) as Hdup.
  destruct (hold_turn R (view_in ts fl (rt_key r)) r) as [st dup] eqn:Eh. cbn [fst snd] in Hdup.
  eexists _, _, _. split; [reflexivity|].
  assert (forall k, k <> rt_key r -> <[rt_key r := st]> ts0 !! k = ts !! k) as Hoth
    by (intros k Hk; rewrite lookup_insert_ne by done; by apply Hne).
  assert (forall k, k <> rt_key r -> view_in (<[rt_key r := st]> ts0) fl k = view_in ts fl k) as Hview
    by (intros k Hk; unfold view_in; by rewrite Hoth).
  assert (view_in (<[rt_key r := st]> ts0) fl (rt_key r) = st) as Hself
    by (unfold view_in; by rewrite lookup_insert_eq).
  split_and!.
  - intros k. case_bool_decide as Hk; [subst k|by apply Hview]. by rewrite Hknown, Eh, Hself.
  - intros k. destruct (decide (k = rt_key r)) as [->|Hk]; unfold known_in in *; [|by rewrite Hoth].
    rewrite Hknown, lookup_insert_eq, bool_decide_eq_true_2 by (by eexists). done.
  - intros k Hk. destruct (decide (k = rt_key r)) as [->|Hn]; [rewrite lookup_insert_eq; by eexists|].
    by rewrite Hoth.
  - intros k Hk. destruct (dup || _); [done|]. apply elem_of_app. by left.
  - intros k Hk. destruct (decide (k = rt_key r)) as [->|Hn]; [|by rewrite Hview].
    rewrite Hself. destruct dup; [by apply Hdup|]. exfalso. apply Hk. cbn.
    case_bool_decide; [done|]. apply elem_of_app. right. by left.
Qed.

Lemma after_hold_ext known known' recent k st : known k = known' k ->
  after (EvHold known recent) k st = after (EvHold known' recent) k st.
Proof. cbn. by intros ->. Qed.

Lemma hold_turns_spec recent ts touched dups : exists ts' touched' dups',
  fold_left (hold_step R K readable fl) recent (ts, touched, dups) = (ts', touched', dups')
  /\ (forall k, view_in ts' fl k = after (EvHold (known_in ts) recent) k (view_in ts fl k))
  /\ (forall k, is_Some (ts !! k) -> is_Some (ts' !! k))
  /\ (forall k, k ∈ touched -> k ∈ touched')
  /\ (forall k, k ∉ touched' -> view_in ts' fl k ≡ view_in ts fl k).
Proof.
  revert ts touched dups. induction recent as [|r recent IH]; intros ts touched dups.
  - exists ts, touched, dups. split_and!; try done. intros k. cbn. by destruct (known_in ts k).
  - destruct (hold_step_spec ts touched dups r) as (ts1 & t1 & d1 & Heq & Hv1 & Hk1 & Hm1 & Ht1 & He1).
    destruct (IH ts1 t1 d1) as (ts' & t' & d' & Heq' & Hv' & Hm' & Ht' & He').
    exists ts', t', d'. cbn [fold_left]. rewrite Heq. split_and!; [done| |auto|auto|].
    + intros k. rewrite Hv', (after_hold_ext _ (known_in ts)), Hv1 by done. cbn [after List.filter].
      destruct (known_in ts k); [|by rewrite andb_false_r].
      rewrite andb_true_r. by case_bool_decide.
    + intros k Hk. transitivity (view_in ts1 fl k); [by apply He'|]. apply He1. auto.
Qed.

End Hold.

(** ** The invariant *)

(** What the worker has taken up stays held until it is done with it. *)
Definition worker_holds c : Prop :=
  match work c with
  | WBegun k _ => worker_turn c = Some k
  | WLoaded k _ | WCopied k _ => worker_turn c = Some k /\ is_Some (threads c !! k)
  | WIdle | WDone => True
  end.

Record inv c : Prop := {
  i_coherent : coherent (threads c) (file c) (unsaved c);
  i_worker : worker_holds c }.

(** A write with the changes made keeps the invariant and shows what the changes made. *)
Lemma sync_inv c ts changed kept saved region (c1 := sync_held_state R K c ts changed kept saved region) :
  worker_holds c -> (forall k, is_Some (threads c !! k) -> is_Some (ts !! k)) ->
  (forall k st, ts !! k = Some st -> k ∉ changed -> k ∉ unsaved c -> st ≡ default (new_state K) (file c !! k)) ->
  inv c1 /\ forall k, view c1 k ≡ view_in ts (file c) k.
Proof.
  intros Hw Hm Hc. unfold c1. split; [|intros k; by apply sync_view]. split; [by apply sync_coherent|].
  assert (forall k, worker_turn c = Some k -> is_Some (threads c !! k) ->
    is_Some (threads (sync_held_state R K c ts changed kept saved region) !! k)) as Hkeep.
  { intros k Hk [st Hst]%Hm. exists st. apply sync_keeps; auto. }
  unfold worker_holds in *. cbn [work worker_turn sync_held_state] in *. destruct (work c); naive_solver.
Qed.

Lemma held_matches c k st : inv c -> threads c !! k = Some st -> k ∉ unsaved c ->
  st ≡ default (new_state K) (file c !! k).
Proof. intros Hi. apply (i_coherent _ Hi). Qed.

(** Taking a batch's turns. *)
Lemma take_turns_spec c readable saved region recent c1 dups : inv c ->
  take_recent_turns R K c readable saved region recent = (c1, dups) ->
  inv c1 /\ forall k, view c1 k ≡ after (EvHold (known_of c readable) recent) k (view c k).
Proof.
  intros Hi H. destruct recent as [|r rest] eqn:Er.
  { injection H as <- <-. split; [done|]. intros k. cbn. by destruct (known_of c readable k). }
  rewrite <- Er in *. unfold take_recent_turns in H. rewrite Er in H at 1.
  destruct (hold_turns_spec readable (file c) recent (threads c) [] []) as (ts & touched & d & Heq & Hv & Hm & _ & He).
  unfold hold_recent_turns in H. rewrite Heq in H. injection H as <- <-.
  apply (sync_inv _ _ touched (keys_of recent) saved region (i_worker _ Hi)) in Hm as [Hinv Hview].
  - split; [done|]. intros k. rewrite Hview. by rewrite Hv.
  - intros k st Hst Hk Hu. specialize (He k Hk). unfold view_in in He. rewrite Hst in He. cbn in He.
    rewrite He. destruct (threads c !! k) eqn:E; [|done]. cbn. by apply (held_matches c).
Qed.

(** ** Start *)

Lemma until_bytes_in max bytes (rows : list (Key * State)) x : x ∈ until_bytes K max bytes rows -> x ∈ rows.
Proof.
  revert bytes. induction rows as [|[k st] rows IH]; intros bytes; [done|]. cbn.
  destruct (_ <=? _)%Z; [intros H; by apply elem_of_nil in H|].
  rewrite !elem_of_cons. intros [->|H]; [by left|]. right. by eapply IH.
Qed.

Lemma most_recent_filed max fl k st : (k, st) ∈ most_recent R K max fl -> fl !! k = Some st.
Proof.
  unfold most_recent. intros H%until_bytes_in%elem_of_sort_by. apply elem_of_list_filter in H as [H _].
  by apply elem_of_map_to_list.
Qed.

Lemma insert_rows_lookup (rows : list (Key * State)) ts k st :
  fold_left (fun ts '(k, st) => <[k := st]> ts) rows ts !! k = Some st -> (k, st) ∈ rows \/ ts !! k = Some st.
Proof.
  revert ts. induction rows as [|[k' st'] rows IH]; intros ts; cbn [fold_left]; [by right|].
  intros [H|H]%IH; [left; by right|]. destruct (decide (k' = k)) as [->|Hne].
  - rewrite lookup_insert_eq in H. injection H as ->. left. by left.
  - rewrite lookup_insert_ne in H by done. by right.
Qed.

(** A process that starts holds nothing yet. *)
Definition starting c : Prop := intake c = IStart -> threads c = ∅ /\ work c = WIdle /\ queue c = [].

Lemma load_spec c saved region : inv c -> threads c = ∅ ->
  inv (load_most_recent R K c saved region) /\ forall k, view (load_most_recent R K c saved region) k ≡ view c k.
Proof.
  intros Hi He. unfold load_most_recent. rewrite He.
  set (ts := fold_left _ _ _).
  assert (forall k st, ts !! k = Some st -> file c !! k = Some st) as Hts.
  { intros k st [H|H]%insert_rows_lookup; [by eapply most_recent_filed|]. by rewrite lookup_empty in H. }
  destruct (sync_inv c ts [] [] saved region (i_worker _ Hi)) as [Hinv Hview].
  - intros k [st H]. rewrite He in H. by rewrite lookup_empty in H.
  - intros k st H%Hts _ _. by rewrite H.
  - split; [done|]. intros k. rewrite Hview. unfold view, view_in. rewrite He, lookup_empty.
    destruct (ts !! k) as [st|] eqn:E; [|done]. by rewrite (Hts _ _ E).
Qed.

(** ** Steps *)

Lemma inv_set_intake c pc : inv c -> inv (set_intake c pc).
Proof. by intros [Hc Hw]. Qed.

Lemma inv_restart fl : inv (restart fl).
Proof. split; [|done]. intros k st Hk. cbn in Hk. by rewrite lookup_empty in Hk. Qed.

Lemma loaded_view c readable k ts : inv c -> held_or_loaded K readable (threads c) (file c) k = Some ts ->
  coherent ts (file c) (unsaved c) /\ is_Some (ts !! k) /\ forall k', view_in ts (file c) k' = view c k'.
Proof.
  intros Hi (_ & Hat & Hne)%loaded_spec. split_and!.
  - intros k' st H Hu. destruct (decide (k' = k)) as [->|Hk].
    + rewrite Hat in H. injection H as <-. unfold view_in.
      destruct (threads c !! k) eqn:E; [|done]. by apply (held_matches c).
    + rewrite Hne in H by done. by apply (held_matches c).
  - rewrite Hat. by eexists.
  - intros k'. destruct (decide (k' = k)) as [->|Hk]; unfold view, view_in; [by rewrite Hat|by rewrite Hne].
Qed.

(** The worker's copy goes into what is held. *)
Lemma write_spec c k updated saved region : inv c -> work c = WCopied k updated ->
  let c1 := set_work (sync_held_state R K c (<[k := write_back_turn R (threads c !! k) updated]> (threads c))
                        [k] [k] saved region) (worker_turn c) WDone in
  inv c1 /\ forall k', view c1 k' ≡ after (EvWrite k updated) k' (view c k').
Proof.
  intros Hi Hw. pose proof (i_worker _ Hi) as Hh. unfold worker_holds in Hh. rewrite Hw in Hh.
  destruct Hh as [Hwt [h Hh]]. rewrite Hh.
  set (ts := <[k := _]> _).
  destruct (sync_inv c ts [k] [k] saved region (i_worker _ Hi)) as [[Hc _] Hview].
  - intros k' Hk'. unfold ts. destruct (decide (k = k')) as [->|Hne]; [rewrite lookup_insert_eq; by eexists|].
    by rewrite lookup_insert_ne.
  - intros k' st H Hk' Hu. assert (k <> k') by (intros ->; apply Hk'; by left).
    unfold ts in H. rewrite lookup_insert_ne in H by done. by apply (held_matches c).
  - split; [by split|]. intros k'. change (view (set_work ?x _ _) k') with (view x k'). rewrite Hview.
    unfold view, view_in, ts, after. case_decide as Hk.
    + subst. by rewrite lookup_insert_eq, Hh.
    + by rewrite lookup_insert_ne.
Qed.

(** A step of the worker is none of a process that starts. *)
Lemma starting_worker c c1 : starting c -> intake c1 = intake c ->
  (work c <> WIdle \/ queue c <> []) -> starting c1.
Proof. intros Hs Hi Hw H. rewrite Hi in H. apply Hs in H as (_ & ? & ?). by destruct Hw. Qed.

Lemma step_starting c ev c1 : starting c -> step c ev c1 -> starting c1.
Proof.
  intros Hs Hstep. destruct Hstep as [| | | | | |? ? H|? ? H|? ? ? H Hq|? ? ? H|? ? ? ? H|? ? H|? ? ? ? H|? ? ? ? H|H|];
    try done.
  - destruct H as [H|H]; [|eapply starting_worker; [done..|]; left; by rewrite H].
    intros H'. cbn in H'. by rewrite H in H'.
  - eapply starting_worker; [exact Hs| |right; by rewrite Hq]. by destruct (to_analyze _ _ _) as [[k node]|].
  - eapply starting_worker; [done..|]. left. by rewrite H.
  - eapply starting_worker; [done..|]. left. by rewrite H.
  - eapply starting_worker; [done..|]. left. by rewrite H.
  - eapply starting_worker; [done..|]. left. by rewrite H.
  - eapply starting_worker; [done..|]. left. by rewrite H.
  - eapply starting_worker; [done..|]. left. by rewrite H.
Qed.

(** Each step keeps the invariant and does to every communication what its event says. *)
Lemma step_spec c ev c1 : inv c -> starting c -> step c ev c1 ->
  inv c1 /\ forall k, (ev = EvRestart -> k ∉ unsaved c) -> view c1 k ≡ after ev k (view c k).
Proof.
  intros Hi Hs Hstep. pose proof (i_coherent _ Hi) as Hc. pose proof (i_worker _ Hi) as Hw.
  destruct Hstep as [saved region H| |from batch b0 ident now facts b H| b readable saved region c1 dups H Ht
    | |b relayed dups readable saved region c1 more H Ht| |saved region H|t q facts H Hq|k node readable H
    |k node readable ts H Hl|k node H|k node st d H Hst|k st saved region H|H|].
  - destruct (Hs H) as [He _]. destruct (load_spec c saved region Hi He) as [Hi1 Hv].
    split; [by apply inv_set_intake|]. intros k _. apply Hv.
  - by split.
  - by split.
  - destruct (take_turns_spec _ _ _ _ _ _ _ Hi Ht) as [Hi1 Hv]. split; [by apply inv_set_intake|].
    intros k _. apply Hv.
  - by split.
  - destruct (take_turns_spec _ _ _ _ _ _ _ Hi Ht) as [Hi1 Hv]. split; [by apply inv_set_intake|].
    intros k _. apply Hv.
  - by split.
  - destruct (sync_inv c (threads c) [] [] saved region Hw) as [Hi1 Hv]; [done| |].
    + intros k st Hk _ Hu. by apply (held_matches c).
    + split; [done|]. intros k _. apply Hv.
  - by destruct (to_analyze _ _ _) as [[k node]|].
  - split; [by split|done].
  - destruct (loaded_view _ _ _ _ Hi Hl) as (Hc1 & Hat & Hv). unfold worker_holds in Hw. rewrite H in Hw.
    split; [by split|]. intros k' _. cbn. unfold view. cbn. by rewrite Hv.
  - split; [by split|done].
  - unfold worker_holds in Hw. rewrite H in Hw. split; [by split|done].
  - destruct (write_spec c k st saved region Hi H) as [Hi1 Hv]. split; [done|]. intros k' _. apply Hv.
  - split; [by split|done].
  - split; [apply inv_restart|].
    intros k Hk. specialize (Hk eq_refl). unfold view, view_in. cbn. rewrite lookup_empty.
    destruct (threads c !! k) as [st|] eqn:E; [|done]. symmetry. by apply (held_matches c).
Qed.

Lemma reached_inv c : reachable c -> inv c /\ starting c.
Proof.
  induction 1 as [|c ev c1 _ [Hi Hs] Hstep].
  - split; [apply inv_restart|]. by intros _.
  - split; [by eapply step_spec|by eapply step_starting].
Qed.

(** C13. Memory and file together are one map from communications to states. A reader who takes
    what is held of a communication, or else what the file has, or else a new state, finds after any
    step what the step's event makes of what it found before: the turns of a batch go into their
    communications one by one, the worker's copy is merged into its own, and evictions from the hot
    set, failed writes, loads and starts change nothing. A restart changes only what a failed write
    left in memory alone. The states are compared but for where a relay went. *)
Theorem held_and_filed_are_one c ev c1 : reachable c -> step c ev c1 ->
  forall k, (ev = EvRestart -> k ∉ unsaved c) -> view c1 k ≡ after ev k (view c k).
Proof. intros [Hi Hs]%reached_inv Hstep. by apply step_spec. Qed.

(** ** Bounds *)

Section Bounds.
Hypothesis clearing_shortens : forall t, (turn_size R (said_to_no_one t) <= turn_size R t)%Z.

Definition all_ok ts : Prop := forall k st, ts !! k = Some st -> state_ok R st.

Definition recent_ok (recent : list RecentTurn) : Prop := Forall (fun r => turn_ok (rt_turn r) = true) recent.

(** Everything held, filed, copied or about to be held is within the bounds. *)
Record bounded c : Prop := {
  bd_threads : all_ok (threads c);
  bd_file : all_ok (file c);
  bd_work : match work c with WCopied _ st => state_ok R st | _ => True end;
  bd_intake : match intake c with
              | IHold b => recent_ok (b_recent b)
              | IHoldRelays _ relayed _ => recent_ok relayed
              | _ => True
              end }.

Lemma new_state_ok : state_ok R (new_state K).
Proof. split; cbn; [split; cbn; [constructor|lia|by left]|constructor|lia]. Qed.

Lemma view_ok ts fl k : all_ok ts -> all_ok fl -> state_ok R (view_in ts fl k).
Proof.
  intros Ht Hf. unfold view_in. destruct (ts !! k) eqn:E; [by eapply Ht|]. cbn.
  destruct (fl !! k) eqn:E'; [by eapply Hf|]. apply new_state_ok.
Qed.

Lemma sync_bounded c ts changed kept saved region (c1 := sync_held_state R K c ts changed kept saved region) :
  all_ok ts -> all_ok (file c) -> all_ok (threads c1) /\ all_ok (file c1).
Proof.
  intros Ht Hf. split.
  - intros k st H%sync_held. by eapply Ht.
  - intros k st H. unfold c1 in H. rewrite sync_file in H. destruct (_ && _); [|by eapply Hf].
    destruct (ts !! k) eqn:E; [|by eapply Hf]. injection H as ->. by eapply Ht.
Qed.

Lemma after_hold_ok known recent k st : recent_ok recent -> state_ok R st ->
  state_ok R (after (EvHold known recent) k st).
Proof.
  intros Hr Hst. cbn. destruct (known k); [|done]. revert st Hst.
  induction Hr as [|r recent Hr _ IH]; intros st Hst; [done|]. cbn.
  case_bool_decide; [|by apply IH]. apply IH. by apply hold_turn_ok.
Qed.

Lemma take_turns_bounded c readable saved region recent c1 dups :
  all_ok (threads c) -> all_ok (file c) -> recent_ok recent ->
  take_recent_turns R K c readable saved region recent = (c1, dups) ->
  all_ok (threads c1) /\ all_ok (file c1) /\ work c1 = work c.
Proof.
  intros Ht Hf Hr H. destruct recent as [|r rest] eqn:Er; [by injection H as <- <-|].
  rewrite <- Er in *. unfold take_recent_turns in H. rewrite Er in H at 1.
  destruct (hold_turns_spec readable (file c) recent (threads c) [] []) as (ts & touched & d & Heq & Hv & _).
  unfold hold_recent_turns in H. rewrite Heq in H. injection H as <- <-.
  assert (all_ok ts) as Hts.
  { intros k st Hk. pose proof (Hv k) as Hk'. unfold view_in at 1 in Hk'. rewrite Hk in Hk'. cbn [default from_option id] in Hk'.
    rewrite Hk'. apply after_hold_ok; [done|]. by apply view_ok. }
  by destruct (sync_bounded c ts touched (keys_of recent) saved region Hts Hf).
Qed.

Lemma intake_turn_ok m h seq ts_ms now facts : recent_ok (intake_turn R m h seq ts_ms now facts).
Proof.
  unfold intake_turn. destruct (recent_turn_of _ _ _ _ _ _ _ _) eqn:E; [|constructor].
  constructor; [|constructor]. by eapply recent_turn_ok.
Qed.

Lemma take_records_ok ident now facts b rs :
  recent_ok (b_recent b) -> recent_ok (b_recent (take_records R message_of ident now facts b rs)).
Proof.
  revert b. induction rs as [|r rs IH]; intros b Hb; [done|]. apply IH. unfold take_record.
  destruct (_ <=? _)%Z; [done|]. destruct (negb _); [done|]. destruct (message_of _) as [m|]; [|done]. cbn.
  apply Forall_app. split; [done|]. destruct (if _ && _ then _ else _); [apply intake_turn_ok|constructor].
Qed.

Lemma take_relays_ok c ident stored now facts relays turns relayed turns' relayed' : recent_ok relayed ->
  fold_left (take_relay R c ident stored now facts) relays (turns, relayed) = (turns', relayed') ->
  recent_ok relayed'.
Proof.
  revert turns relayed. induction relays as [|[[at_ producer] ts_ms] relays IH]; intros turns relayed Hr.
  - by intros [= <- <-].
  - cbn [fold_left take_relay]. destruct (turns !! at_) as [t|]; [|by apply IH]. apply IH.
    destruct (holder_of _ _ _ _ _ _); [|done]. apply Forall_app. split; [done|apply intake_turn_ok].
Qed.

Lemma load_bounded c saved region : all_ok (threads c) -> all_ok (file c) ->
  all_ok (threads (load_most_recent R K c saved region)) /\ all_ok (file (load_most_recent R K c saved region)).
Proof.
  intros Ht Hf. apply sync_bounded; [|done].
  intros k st [H|H]%insert_rows_lookup; [|by eapply Ht]. eapply Hf. by eapply most_recent_filed.
Qed.

Lemma loaded_bounded c readable k ts : all_ok (threads c) -> all_ok (file c) ->
  held_or_loaded K readable (threads c) (file c) k = Some ts -> all_ok ts.
Proof.
  intros Ht Hf (_ & Hat & Hne)%loaded_spec k' st H. destruct (decide (k' = k)) as [->|Hk].
  - rewrite Hat in H. injection H as <-. by apply view_ok.
  - rewrite Hne in H by done. by eapply Ht.
Qed.

Lemma written_bounded c k updated : inv c -> bounded c -> work c = WCopied k updated ->
  all_ok (<[k := write_back_turn R (threads c !! k) updated]> (threads c)).
Proof.
  intros Hi [Ht Hf Hw _] H. rewrite H in Hw. pose proof (i_worker _ Hi) as Hh. unfold worker_holds in Hh.
  rewrite H in Hh. destruct Hh as [_ [h Hh]]. rewrite Hh. intros k' st.
  destruct (decide (k = k')) as [->|Hne]; [rewrite lookup_insert_eq|rewrite lookup_insert_ne by done; apply Ht].
  intros [= <-]. apply write_back_ok; [|done]. by eapply Ht.
Qed.

Lemma step_bounded c ev c1 : inv c -> bounded c -> step c ev c1 -> bounded c1.
Proof.
  intros Hi Hb Hstep. pose proof Hb as [Ht Hf Hw Hp].
  destruct Hstep as [saved region H|H|from batch b0 ident now facts b H Ho Hr|b readable saved region c1 dups H Htt
    |b dups ident stored now facts turns relayed H Hr|b relayed dups readable saved region c1 more H Htt|b dups H
    |saved region H|t q facts H Hq|k node readable H|k node readable ts H Hl|k node H|k node st d H Hst
    |k st saved region H|H|].
  - destruct (load_bounded c saved region Ht Hf). by split.
  - by split.
  - split; try done. cbn. rewrite <- Hr. apply take_records_ok.
    unfold open_batch in Ho. destruct (_ || _); [done|]. destruct (last _); [|done]. injection Ho as <-. constructor.
  - rewrite H in Hp. destruct (take_turns_bounded _ _ _ _ _ _ _ Ht Hf Hp Htt) as (? & ? & Hwork).
    rewrite <- Hwork in Hw. by split.
  - split; try done. cbn. by eapply take_relays_ok, Hr; constructor.
  - rewrite H in Hp. destruct (take_turns_bounded _ _ _ _ _ _ _ Ht Hf Hp Htt) as (? & ? & Hwork).
    rewrite <- Hwork in Hw. by split.
  - by split.
  - destruct (sync_bounded c (threads c) [] [] saved region Ht Hf). by split.
  - by destruct (to_analyze _ _ _) as [[k node]|].
  - by split.
  - split; try done. cbn. by eapply loaded_bounded.
  - by split.
  - destruct (Ht _ _ Hst). by split.
  - pose proof (written_bounded c k st Hi Hb H) as Hts.
    destruct (sync_bounded c _ [k] [k] saved region Hts Hf). by split.
  - by split.
  - by split.
Qed.

Lemma reachable_bounded c : reachable c -> bounded c.
Proof.
  induction 1 as [|c ev c1 Hc IH Hstep].
  - split; try done; intros k st Hk; cbn in Hk; by rewrite lookup_empty in Hk.
  - eapply step_bounded; [|done..]. by apply reached_inv.
Qed.

(** What SY.cognition holds and files of a communication is always within its bounds: its last
    turns in the order they were taken, at most twenty of them, within 48 KiB or one alone, at most
    forty keys, and every field of a turn within its character cap and free of U+0000. *)
Theorem communications_in_bounds c k st : reachable c ->
  threads c !! k = Some st \/ file c !! k = Some st -> state_ok R st.
Proof. intros [Ht Hf _ _]%reachable_bounded [H|H]; [by eapply Ht|by eapply Hf]. Qed.

End Bounds.

(** ** Each record once *)

Definition seqs_of (from : string) (epoch : Z) (taken : list (string * Z * Z)) : list Z :=
  omap (fun '(f, e, s) => if decide ((f, e) = (from, epoch)) then Some s else None) taken.

(** The last record seen of a stream: a batch under way has seen its own. *)
Definition last_seen c (from : string) (epoch : Z) : Z :=
  match intake c with
  | IHold b | IRelays b _ | IHoldRelays b _ _ | ISend b _ =>
    if decide ((b_from b, b_epoch b) = (from, epoch)) then b_seen b
    else default 0%Z (stream_seen c !! (from, epoch))
  | IStart | IIdle => default 0%Z (stream_seen c !! (from, epoch))
  end.

Lemma sorted_app_lt (a b : list Z) n : StronglySorted Z.lt a -> StronglySorted Z.lt b ->
  Forall (fun x => (x <= n)%Z) a -> Forall (fun x => (n < x)%Z) b -> StronglySorted Z.lt (a ++ b).
Proof.
  intros Ha Hb Hn Hb'. induction Ha as [|x a Ha IH Hx]; [done|]. apply Forall_cons in Hn as [Hxn Hn].
  cbn. constructor; [by apply IH|]. apply Forall_app. split; [done|].
  eapply Forall_impl; [exact Hb'|]. cbn. lia.
Qed.

Lemma take_record_seqs ident now facts b r (b1 := take_record R message_of ident now facts b r) :
  b_from b1 = b_from b /\ b_epoch b1 = b_epoch b /\ (b_seen b <= b_seen b1)%Z
  /\ (b_turns b1 = b_turns b
      \/ exists t, b_turns b1 = (b_turns b ++ [t])%list /\ (b_seen b < ct_seq t)%Z /\ ct_seq t = b_seen b1).
Proof.
  unfold b1, take_record. destruct (Z.leb_spec (sr_seq r) (b_seen b)); [split_and!; by auto|].
  destruct (negb _); [split_and!; cbn; auto; lia|]. destruct (message_of _); [|split_and!; cbn; auto; lia].
  cbn. split_and!; [done..|lia|]. right. eexists. split_and!; [done|cbn; lia|done].
Qed.

(** The turns a batch adds are of records past the last one seen, in order. *)
Lemma take_records_seqs ident now facts b rs (b1 := take_records R message_of ident now facts b rs) :
  b_from b1 = b_from b /\ b_epoch b1 = b_epoch b /\ (b_seen b <= b_seen b1)%Z
  /\ exists new, b_turns b1 = (b_turns b ++ new)%list /\ StronglySorted Z.lt (map ct_seq new)
     /\ Forall (fun s => (b_seen b < s <= b_seen b1)%Z) (map ct_seq new).
Proof.
  unfold b1. clear b1. revert b. induction rs as [|r rs IH]; intros b.
  - split_and!; try done. exists []. rewrite app_nil_r. split_and!; [done|constructor..].
  - change (take_records R message_of ident now facts b (r :: rs))
      with (take_records R message_of ident now facts (take_record R message_of ident now facts b r) rs).
    destruct (IH (take_record R message_of ident now facts b r)) as (Hf & He & Hs & new & Ht & Hsorted & Hin).
    destruct (take_record_seqs ident now facts b r) as (Hf1 & He1 & Hs1 & Ht1).
    rewrite Hf, He, Hf1, He1. split_and!; [done..|lia|]. destruct Ht1 as [Ht1|(t & Ht1 & Hlt & Hseq)].
    + exists new. rewrite Ht, Ht1. split_and!; [done..|]. eapply Forall_impl; [exact Hin|]. cbn. lia.
    + exists (t :: new). rewrite Ht, Ht1, <- app_assoc. cbn [map app]. split_and!; [done| |].
      * constructor; [done|]. eapply Forall_impl; [exact Hin|]. cbn. lia.
      * constructor; [lia|]. eapply Forall_impl; [exact Hin|]. cbn. lia.
Qed.

Lemma seqs_of_app from epoch l1 l2 : seqs_of from epoch (l1 ++ l2) = (seqs_of from epoch l1 ++ seqs_of from epoch l2)%list.
Proof. apply omap_app. Qed.

Lemma seqs_of_batch from epoch (b : Batch (V := V)) :
  seqs_of from epoch (map (fun t => (b_from b, b_epoch b, ct_seq t)) (b_turns b))
  = if decide ((b_from b, b_epoch b) = (from, epoch)) then map ct_seq (b_turns b) else [].
Proof. unfold seqs_of. induction (b_turns b) as [|t l IH]; cbn; case_decide; try done; by rewrite IH. Qed.

(** What was taken of each stream and epoch is in order and not past the last one seen. *)
Definition once c : Prop := forall from epoch,
  StronglySorted Z.lt (seqs_of from epoch (taken c))
  /\ Forall (fun s => (s <= last_seen c from epoch)%Z) (seqs_of from epoch (taken c)).

Lemma once_same c c1 : taken c1 = taken c -> (forall from epoch, last_seen c1 from epoch = last_seen c from epoch) ->
  once c -> once c1.
Proof. intros Ht Hl Ho from epoch. rewrite Ht, Hl. apply Ho. Qed.

Lemma taken_frame c readable saved region recent c1 dups :
  take_recent_turns R K c readable saved region recent = (c1, dups) ->
  taken c1 = taken c /\ stream_seen c1 = stream_seen c.
Proof.
  unfold take_recent_turns. destruct recent; [by intros [= <- <-]|].
  destruct (hold_recent_turns _ _ _ _ _ _) as [[ts touched] d]. by intros [= <- <-].
Qed.

Lemma batch_once c from batch b0 ident now facts b : once c -> intake c = IIdle ->
  open_batch hive_id from batch c = Some b0 ->
  take_records R message_of ident now facts b0 (sb_records batch) = b ->
  once (set_intake (log_taken c b) (IHold b)).
Proof.
  intros Ho Hidle Hopen Hb f e. specialize (Ho f e). unfold last_seen in *. rewrite Hidle in Ho.
  destruct Ho as [Hs Hle]. cbn [intake taken stream_seen set_intake log_taken]. unfold open_batch in Hopen. destruct (_ || _); [done|].
  destruct (last _); [|done]. injection Hopen as <-. subst b.
  match goal with |- context [take_records R message_of ident now facts ?b0 ?rs] =>
    destruct (take_records_seqs ident now facts b0 rs) as (Hf & He & Hseen & new & Ht & Hsorted & Hin) end.
  rewrite seqs_of_app, seqs_of_batch.
  cbn in Ht. rewrite Ht. cbn in Hf, He, Hseen, Hin. rewrite Hf, He. case_decide as Heq.
  - injection Heq as <- <-. split.
    + eapply sorted_app_lt; [done|done|exact Hle|]. eapply Forall_impl; [exact Hin|]. cbn. lia.
    + apply Forall_app. split; [eapply Forall_impl; [exact Hle|]; cbn; lia|].
      eapply Forall_impl; [exact Hin|]. cbn. lia.
  - rewrite app_nil_r. by split.
Qed.

Lemma step_once c ev c1 : once c -> step c ev c1 -> once c1.
Proof.
  intros Ho Hstep.
  destruct Hstep as [saved region H|H|from batch b0 ident now facts b H Hop Hr|b readable saved region c1 dups H Ht
    |b dups ident stored now facts turns relayed H Hr|b relayed dups readable saved region c1 more H Ht|b dups H
    |saved region H|t q facts H Hq|k node readable H|k node readable ts H Hl|k node H|k node st d H Hst
    |k st saved region H|H|].
  - apply (once_same c); [done| |done]. intros from epoch. unfold last_seen. by rewrite H.
  - apply (once_same c); [done| |done]. intros from epoch. unfold last_seen. by rewrite H.
  - by eapply batch_once.
  - apply taken_frame in Ht as [Ht Hseen]. apply (once_same c); [done| |done]. intros from epoch.
    unfold last_seen. rewrite H. cbn. by rewrite Hseen.
  - apply (once_same c); [done| |done]. intros from epoch. unfold last_seen. by rewrite H.
  - apply taken_frame in Ht as [Ht Hseen]. apply (once_same c); [done| |done]. intros from epoch.
    unfold last_seen. rewrite H. cbn. by rewrite Hseen.
  - apply (once_same c); [done| |done]. intros from epoch. unfold last_seen. rewrite H. cbn. case_decide as Heq.
    + by rewrite Heq, lookup_insert_eq.
    + by rewrite lookup_insert_ne.
  - by apply (once_same c).
  - destruct (to_analyze _ _ _) as [[k node]|]; by apply (once_same c).
  - by apply (once_same c).
  - by apply (once_same c).
  - by apply (once_same c).
  - by apply (once_same c).
  - by apply (once_same c).
  - by apply (once_same c).
  - intros from epoch. split; constructor.
Qed.

(** The turns SY.cognition takes since its start from one stream and epoch are those of records
    of increasing seq: a record its router sends again, after a lost ack or in an overlapping batch,
    is taken once, and none out of order. *)
Theorem records_taken_once c from epoch : reachable c -> StronglySorted Z.lt (seqs_of from epoch (taken c)).
Proof.
  intros Hr. enough (once c) as Ho by apply Ho. induction Hr as [|c ev c1 _ IH Hstep]; [|by eapply step_once].
  intros f e. split; constructor.
Qed.

(** ** A whole batch

    The five steps of [take_stream_batch] with nothing of the worker's between them. *)

Section Batches.
Context (ident : string -> option string) (now : string) (facts : string -> option IlkFacts).
Context (readable : Key -> bool) (stored saved : bool) (region : option (Region D)).

Definition take_batch c from batch : cog :=
  match open_batch hive_id from batch c with
  | None => c
  | Some b0 =>
    let b := take_records R message_of ident now facts b0 (sb_records batch) in
    let c1 := set_intake (log_taken c b) (IHold b) in
    let '(c2, dups) := take_recent_turns R K c1 readable saved region (b_recent b) in
    let c2 := set_intake c2 (IRelays b dups) in
    let '(turns, relayed) := fold_left (take_relay R c2 ident stored now facts) (b_relays b) (b_turns b, []) in
    let b2 := with_batch_turns b turns in
    let c3 := set_intake c2 (IHoldRelays b2 relayed dups) in
    let '(c4, more) := take_recent_turns R K c3 readable saved region relayed in
    let c4 := set_intake c4 (ISend b2 (dups ++ more)) in
    set_intake (see (set_queue c4 (send_turns (dups ++ more) (b_turns b2) (queue c4))) b2) IIdle
  end.

Lemma take_batch_reachable c from batch : reachable c -> intake c = IIdle ->
  reachable (take_batch c from batch) /\ intake (take_batch c from batch) = IIdle.
Proof.
  intros Hr Hi. unfold take_batch. destruct (open_batch hive_id from batch c) as [b0|] eqn:Eo; [|done].
  set (b := take_records _ _ _ _ _ _ _). set (c1 := set_intake (log_taken c b) (IHold b)).
  assert (reachable c1) as H1 by (eapply r_step; [exact Hr|]; by eapply s_batch).
  destruct (take_recent_turns R K c1 readable saved region (b_recent b)) as [c2 dups] eqn:E2.
  assert (reachable (set_intake c2 (IRelays b dups))) as H2 by (eapply r_step; [exact H1|]; by eapply s_hold).
  destruct (fold_left _ _ _) as [turns relayed] eqn:E3.
  set (c3 := set_intake (set_intake c2 _) _).
  assert (reachable c3) as H3 by (eapply r_step; [exact H2|]; by eapply s_relays).
  destruct (take_recent_turns R K c3 readable saved region relayed) as [c4 more] eqn:E4.
  assert (reachable (set_intake c4 (ISend (with_batch_turns b turns) (dups ++ more)))) as H4
    by (eapply r_step; [exact H3|]; by eapply s_hold_relays).
  split; [|done]. eapply r_step; [exact H4|]. by eapply s_send.
Qed.

End Batches.
End Kept.

(** ** Concrete inputs *)

Module CogExamples.

(** A payload is its text; a record's payload names the message it holds. *)
#[export] Instance text_json : Json string := {
  json_get _ _ := None;
  json_as_str v := Some v;
  json_as_array _ := None;
  json_is_null _ := false;
  json_null := "";
  json_to_string v := v;
  json_to_vec _ := None;
  json_from_slice _ := None }.

(** A time is as many characters as its milliseconds. *)
Definition readers : Readers string :=
  mkReaders string (fun text => Some (mkTextV1Payload "text" (Some text) None [])) (fun _ => None) (fun _ => None)
    (fun s => Some (Z.of_nat (String.length s)))
    (fun ms => Some (string_of_list_ascii (repeat "x"%char (Z.to_nat ms))))
    (fun t => Some (Z.of_nat (String.length (text t) + match to_via t with Some v => String.length v | None => 0 end))).

Lemma readers_shorten t : (turn_size readers (said_to_no_one t) <= turn_size readers t)%Z.
Proof. unfold turn_size. cbn. lia. Qed.

Definition ranks : Ranks unit := mkRanks unit tt (fun _ => 0%Z) (fun _ => false) (fun _ => 0%Z) (fun _ => 0%Z) (fun _ => 0%Z).

(** A message of the thread, from a person through an IO node. *)
Definition message (to trace text : string) : Message string :=
  mkMessage (mkRouting "u" (Some "WF.desk@branch") (Unicast to) 16 trace)
    (mkMeta "user" None (Some "ilk:ana") None None (Some "thread-1") None None None None None None None None
       None None false) text.

Definition agent : string := "AI.support@branch".

(** A question for the agent, then news the workflow relays to a person and sends to the agent too. *)
Definition message_of (name : string) : option (Message string) :=
  if name =s "question" then Some (message agent "trace-1" "what is new?")
  else if name =s "relay" then Some (message "IO.mail@branch" "trace-2" "all is well")
  else if name =s "copy" then Some (message agent "trace-2" "all is well") else None.

Definition ident (node : string) : option string := if node =s agent then Some "ilk:support" else None.

Definition batch (seq : Z) (producer name : string) : StreamBatch string :=
  mkStreamBatch "RT.main.stream@branch" 1 [mkStreamRecord seq seq SUBJECT_COGNITION_TURNS producer name].

Abbreviation take := (take_batch readers ranks message_of "branch" ident "" (fun _ => None) (fun _ => true) true true None).
Abbreviation reached := (reachable readers ranks message_of "branch").

Definition k : CommunicationKey := mkKey "thread-1" "ilk:support".

Definition started : Cog (V := string) (D := unit) := set_intake (restart ∅) IIdle.
Definition asked := take started "RT.main.stream@branch" (batch 1 agent "question").
Definition relayed := take asked "RT.main.stream@branch" (batch 2 "WF.desk@branch" "relay").
Definition told := take relayed "RT.main.stream@branch" (batch 3 agent "copy").

Lemma started_reached : reached started /\ intake started = IIdle.
Proof. split; [|done]. eapply r_step; [apply r_start|]. by apply s_load_fails. Qed.

Lemma relayed_reached : reached relayed /\ intake relayed = IIdle.
Proof.
  apply take_batch_reachable; [|apply take_batch_reachable; apply started_reached].
  apply take_batch_reachable; apply started_reached.
Qed.

Lemma told_reached : reached told /\ intake told = IIdle.
Proof. apply take_batch_reachable; apply relayed_reached. Qed.

Lemma held_and_filed_are_one_witness :
  length (th_turns (view ranks relayed k)) = 2%nat
  /\ view ranks (restart (V := string) (file relayed)) k ≡ after readers EvRestart k (view ranks relayed k).
Proof.
  split; [vm_compute; reflexivity|].
  apply (held_and_filed_are_one readers ranks message_of "branch" relayed EvRestart (restart (file relayed)) (proj1 relayed_reached) (s_restart _ _ _ _ _)).
  intros _. replace (unsaved relayed) with (∅ : gset CommunicationKey) by (vm_compute; reflexivity).
  apply not_elem_of_empty.
Defined.

Lemma communications_in_bounds_witness : state_ok readers (view ranks relayed k).
Proof.
  apply (communications_in_bounds readers ranks message_of "branch" readers_shorten relayed k _ (proj1 relayed_reached)).
  left. vm_compute. reflexivity.
Defined.

Lemma records_taken_once_witness : StronglySorted Z.lt [1; 2; 3]%Z.
Proof.
  replace [1; 2; 3]%Z with (seqs_of "RT.main.stream@branch" 1 (taken told)) by (vm_compute; reflexivity).
  apply (records_taken_once readers ranks message_of "branch" told "RT.main.stream@branch" 1 (proj1 told_reached)).
Defined.

(** The agent's own copy of news the workflow relayed makes the turn one said to the agent too, in
    memory only: the communication is not among those written to the file, so the turn names the
    person again after a restart, although no write failed. *)
Theorem relay_mark_comes_back :
  reached told /\ unsaved told = ∅
  /\ map to_via (th_turns (view ranks relayed k)) = [None; Some "IO.mail@branch"]
  /\ map to_via (th_turns (view ranks told k)) = [None; None]
  /\ map to_via (th_turns (view ranks (restart (V := string) (file told)) k)) = [None; Some "IO.mail@branch"].
Proof. split; [apply told_reached|]. repeat split; vm_compute; reflexivity. Qed.

End CogExamples.
