(* ===== verification/Delivery.v ===== *)
(** * Delivery to the local nodes

    The authority gate, the stamps and the memory package of a delivery
    ([prepare_local_delivery], [deliver_locally], [serialize_with_package],
    [serialize_for_local_delivery]) and the copies a router keeps of a turn
    ([turn_copy], [cognition_copy]), from src/src/router/mod.rs. A node's socket is
    its name; what is sent on it is a list of frames. Log lines are left out. *)

From Stdlib Require Import ZArith Lia Ascii String.
From stdpp Require Import base list strings.
From S2P Require Import Prelude Protocol Policy Gates.
Open Scope string_scope.

Definition MAX_FRAME_SIZE : Z := 128 * 1024.

Record MemoryShmThreadEntry := mkMemoryShmThreadEntry {
  mt_thread_id : string;
  mt_agent_ilk : string;
  mt_agent_node : string;
  mt_package : MemoryPackage }.

Record MemoryShmSnapshot := mkMemoryShmSnapshot {
  ms_schema_version : Z;
  ms_updated_at : Z;
  ms_threads : list MemoryShmThreadEntry }.

Section Turns.
Context {V : Type}.
Implicit Types (m : Message V) (e : Meta V).

Definition canonical_thread_id_from_meta e : option string :=
  match thread_id e with
  | Some value => let t := trim value in if str_is_empty t then None else Some t
  | None => None
  end.

Definition should_publish_turn m : bool := is_solution_kind (msg_type (meta m)).

Definition should_enrich_with_memory_package m : bool := is_solution_kind (msg_type (meta m)).

Definition has_thread e : bool :=
  match canonical_thread_id_from_meta e with Some _ => true | None => false end.

Definition is_broadcast m : bool := match dst (routing m) with Broadcast => true | _ => false end.

Definition is_communication_turn m : bool :=
  should_publish_turn m && negb (via_tap (meta m)) && negb (is_broadcast m) && has_thread (meta m).

Definition copied_for_cognition_at_entry (sender : string) m : bool :=
  let to_an_io_node := match dst (routing m) with Unicast d => is_io_node d | _ => false end in
  is_communication_turn m
  && (is_agent_node sender || (is_workflow_node sender && to_an_io_node)).

(** The action class of a routed message when nobody set one. *)
Definition stamp_action_class m : Message V :=
  match action_class (meta m) with
  | None => with_meta m (set_action_class (meta m) (classify_routed_message (msg_type (meta m))))
  | Some _ => m
  end.

Definition drop_package m : Message V := with_meta m (set_memory_package (meta m) None).

(** The message a [turn_copy] and a [cognition_copy] serialize. *)
Definition turn_copy m (conn_node_name : string) : Message V :=
  set_src_l2_name (stamp_action_class m) (Some conn_node_name).

Definition cognition_copy m (sender_name : string) : Message V :=
  stamp_action_class (drop_package (set_src_l2_name m (Some sender_name))).

(** The package of the communication between a message's thread and an agent node. *)
Definition package_for (memory : option MemoryShmSnapshot) m (agent_node : string)
  : option MemoryPackage :=
  match canonical_thread_id_from_meta (meta m), memory with
  | Some thread_id, Some memory =>
    match List.find (fun entry => (mt_thread_id entry =s thread_id)
                                  && (mt_agent_node entry =s agent_node)) (ms_threads memory) with
    | Some entry => Some (mt_package entry)
    | None => None
    end
  | _, _ => None
  end.

Section Gate.
Variable evaluate_allow : string -> option string -> string -> option bool.

Definition prepare_local_delivery (hive_id : string) m (src_via_hub : bool) : option (Message V) :=
  let named := unwrap_or "" (msg (meta m)) in
  let prepared := drop_package (stamp_action_class m) in
  match protected_system_action named with
  | Some action =>
    if negb src_via_hub && negb (via_tap (meta m))
       && authorize_system evaluate_allow action (src_l2_name (routing m)) hive_id
    then Some prepared else None
  | None => Some prepared
  end.

End Gate.

(** ** Serialization within a frame *)

Section Frames.
(** [serde_json::to_vec] of a message; none when it fails. *)
Variable to_vec : Message V -> option (list byte).
(** The length of a serialized turn, none when it fails. *)
Variable turn_len : MemoryTurn -> option Z.

Definition drop_turns (p : MemoryPackage) (n : nat) : MemoryPackage :=
  mkMemoryPackage (package_version p) (package_thread_id p) (dominant_context p) (dominant_reason p)
    (contexts p) (reasons p) (memories p) (feelings p) (news p) (drop n (turns p)) (truncated p).

Definition with_package m (p : option MemoryPackage) : Message V :=
  with_meta m (set_memory_package (meta m) p).

(** How many of the oldest turns the [take_while] counts: until they free the excess. *)
Fixpoint oldest_turns (excess freed : Z) (ts : list MemoryTurn) : nat :=
  match ts with
  | [] => O
  | t :: rest =>
    if Z.leb excess freed then O
    else S (oldest_turns excess
              (freed + match turn_len t with Some n => n + 1 | None => 0 end)%Z rest)
  end.

Fixpoint serialize_loop (fuel : nat) (enriched : Message V) : option (list byte) :=
  match fuel with
  | O => None
  | S fuel =>
    match to_vec enriched with
    | None => None
    | Some data =>
      let excess := saturating_sub (Z.of_nat (length data)) MAX_FRAME_SIZE in
      match memory_package (meta enriched) with
      | None => Some data
      | Some package =>
        if Z.eqb excess 0 then Some data
        else match turns package with
        | [] => serialize_loop fuel (with_package enriched None)
        | _ => serialize_loop fuel (with_package enriched
                 (Some (drop_turns package (Nat.max (oldest_turns excess 0 (turns package)) 1))))
        end
      end
    end
  end.

Definition serialize_with_package (prepared : Message V) (package : MemoryPackage)
  : option (list byte) :=
  serialize_loop (length (turns package) + 2) (with_package prepared (Some package)).

(** ** Delivery *)

(** What [deliver_locally] leaves behind: the frames on the nodes' sockets and the
    turns appended for the hive's cognition, oldest first, and whether it returned an
    error. *)
Record Delivered := mkDelivered {
  sent : list (string * list byte);
  cognition_turns : list (string * list byte);
  failed : bool }.

(** The two values the loop keeps between deliveries: the serialization without a
    package, and the memory region's snapshot once read. *)
Record DeliveryCache := mkDeliveryCache {
  plain : option (list byte);
  memory_read : option (option MemoryShmSnapshot) }.

Variable evaluate_allow : string -> option string -> string -> option bool.
(** What [read_memory_snapshot_for_delivery] finds in the memory region. *)
Variable memory : option MemoryShmSnapshot.

Definition wants_package (prepared : Message V) (node : string) : bool :=
  is_agent_node node && should_enrich_with_memory_package prepared && has_thread (meta prepared).

Definition sender_of (prepared : Message V) : string := unwrap_or "" (src_l2_name (routing prepared)).

(** One turn of the loop of [deliver_locally]. *)
Definition deliver_step (prepared : Message V) (d : Delivered) (c : DeliveryCache) (node : string)
  : Delivered * DeliveryCache :=
  let agent := is_agent_node node in
  let '(package, c) :=
    if wants_package prepared node then
      let read := match memory_read c with Some read => read | None => memory end in
      (package_for read prepared node, mkDeliveryCache (plain c) (Some read))
    else (None, c) in
  let turns :=
    if agent && is_communication_turn prepared then
      match to_vec (cognition_copy prepared (sender_of prepared)) with
      | Some copy => [(node, copy)]
      | None => []
      end
    else [] in
  let d := mkDelivered (sent d) (cognition_turns d ++ turns) (failed d) in
  let '(data, c) :=
    match package with
    | Some package => (serialize_with_package prepared package, c)
    | None =>
      match plain c with
      | Some data => (Some data, c)
      | None =>
        match to_vec prepared with
        | Some data => (Some data, mkDeliveryCache (Some data) (memory_read c))
        | None => (None, c)
        end
      end
    end in
  match data with
  | Some data => (mkDelivered (sent d ++ [(node, data)]) (cognition_turns d) (failed d), c)
  | None => (mkDelivered (sent d) (cognition_turns d) true, c)
  end.

(** The loop; a serialization error ends it ([?]). *)
Fixpoint deliver_loop (prepared : Message V) (d : Delivered) (c : DeliveryCache)
  (deliveries : list string) : Delivered :=
  match deliveries with
  | [] => d
  | node :: rest =>
    let '(d, c) := deliver_step prepared d c node in
    if failed d then d else deliver_loop prepared d c rest
  end.

Definition nothing_delivered : Delivered := mkDelivered [] [] false.

Definition deliver_locally (deliveries : list string) (m : Message V) (hive_id : string)
  (src_via_hub : bool) : Delivered :=
  match deliveries with
  | [] => nothing_delivered
  | _ =>
    match prepare_local_delivery evaluate_allow hive_id m src_via_hub with
    | None => nothing_delivered
    | Some prepared => deliver_loop prepared nothing_delivered (mkDeliveryCache None None) deliveries
    end
  end.

(** [serialize_for_local_delivery]: [None] is an error, [Some None] a message the gate
    drops. *)
Definition serialize_for_local_delivery (hive_id : string) (m : Message V) (src_via_hub : bool)
  (dst_node : string) : option (option (list byte)) :=
  match prepare_local_delivery evaluate_allow hive_id m src_via_hub with
  | None => Some None
  | Some prepared =>
    let package := if wants_package prepared dst_node then package_for memory prepared dst_node
                   else None in
    match package with
    | Some package => option_map Some (serialize_with_package prepared package)
    | None => option_map Some (to_vec prepared)
    end
  end.

End Frames.
End Turns.

(** ** The gate *)

(** The protected actions are distinct up to case. *)
Lemma protected_distinct a b :
  a ∈ PROTECTED_SYSTEM_ACTIONS -> b ∈ PROTECTED_SYSTEM_ACTIONS ->
  eq_ignore_ascii_case a b = true -> a = b.
Proof.
  intros Ha%list_elem_of_In Hb%list_elem_of_In.
  assert (forallb (fun a => forallb (fun b => implb (eq_ignore_ascii_case a b) (a =s b))
            PROTECTED_SYSTEM_ACTIONS) PROTECTED_SYSTEM_ACTIONS = true) as H by (vm_compute; reflexivity).
  rewrite forallb_forall in H. specialize (H a Ha). rewrite forallb_forall in H. specialize (H b Hb).
  intros E. rewrite E in H. by apply String.eqb_eq.
Qed.

Lemma protected_system_action_named s a :
  a ∈ PROTECTED_SYSTEM_ACTIONS -> eq_ignore_ascii_case a (trim s) = true ->
  protected_system_action s = Some a.
Proof.
  intros Ha He. destruct (protected_system_action s) as [b|] eqn:E.
  - apply protected_system_action_Some in E as [Hb Heb]. f_equal. symmetry.
    apply protected_distinct; [done..|]. unfold eq_ignore_ascii_case in *.
    apply String.eqb_eq in He, Heb. apply String.eqb_eq. congruence.
  - unfold protected_system_action in E. apply list_elem_of_In in Ha.
    pose proof (find_none _ _ E a Ha) as Hn. cbn in Hn. congruence.
Qed.

Lemma stamp_action_class_frame {V} (m : Message V) :
  routing (stamp_action_class m) = routing m /\ msg_payload (stamp_action_class m) = msg_payload m.
Proof. unfold stamp_action_class. by destruct (action_class (meta m)). Qed.

Section GateTheorems.
Context {V : Type} (evaluate_allow : string -> option string -> string -> option bool).
(** [policy/system.wasm] is compiled from [policy/system.rego], and evaluates. *)
Hypothesis wasm_is_rego : forall a s h, evaluate_allow a s h = Some (allow a s h).

(** C5. The delivery gate. A message that names a protected action, in any case and with
    any white space around it and whatever its kind, is delivered on a hive exactly
    when it did not come by the hub's vouching, is not a tap's copy, and the sender's
    router-stamped name is one of the action's row of the authority table. *)
Theorem delivery_gate hive_id (m : Message V) via_hub a named :
  a ∈ PROTECTED_SYSTEM_ACTIONS -> msg (meta m) = Some named ->
  eq_ignore_ascii_case a (trim named) = true ->
  is_Some (prepare_local_delivery evaluate_allow hive_id m via_hub) <->
  via_hub = false /\ via_tap (meta m) = false /\
  exists role hive, parsed (src_l2_name (routing m)) = Some (role, hive) /\
    (role, hive) ∈ allowed_origins a hive_id.
Proof.
  intros Ha Hm He. unfold prepare_local_delivery. rewrite Hm. cbn [unwrap_or].
  rewrite (protected_system_action_named named a) by done. unfold authorize_system.
  rewrite wasm_is_rego. cbn [unwrap_or].
  assert (allow a (src_l2_name (routing m)) hive_id = true <-> exists role hive,
    parsed (src_l2_name (routing m)) = Some (role, hive) /\ (role, hive) ∈ allowed_origins a hive_id)
    as Ht.
  { unfold allow. destruct (parsed _) as [[role hive]|].
    - rewrite allow_rules_table by by apply protected_one_kind.
      split; [eauto|]. by intros (? & ? & [= <- <-] & ?).
    - split; [done|]. by intros (? & ? & ? & _). }
  rewrite <- Ht. destruct via_hub, (via_tap (meta m)), (allow _ _ _); cbn; split;
    try (by intros [? [=]]); try (intros (? & ? & ?); done); eauto.
Qed.

(** What a delivery may change. A prepared message is the routed one but for two
    stamps: an action class when none was set, and no memory package, whatever the
    sender put there. *)
Theorem prepared_message hive_id (m p : Message V) via_hub :
  prepare_local_delivery evaluate_allow hive_id m via_hub = Some p ->
  memory_package (meta p) = None /\ routing p = routing m /\ msg_payload p = msg_payload m /\
  (action_class (meta m) <> None -> meta p = set_memory_package (meta m) None) /\
  (action_class (meta m) = None -> action_class (meta p) = classify_routed_message (msg_type (meta m))).
Proof.
  intros H. assert (p = drop_package (stamp_action_class m)) as ->.
  { unfold prepare_local_delivery in H. destruct (protected_system_action _); [|congruence].
    destruct (_ && _); congruence. }
  destruct (stamp_action_class_frame m) as [Hr Hp]. unfold drop_package, with_meta. cbn.
  rewrite Hr, Hp. unfold stamp_action_class.
  destruct (action_class (meta m)) eqn:E; split_and!; try done; by rewrite E.
Qed.

End GateTheorems.

Lemma prepared_no_package {V} ev hive_id (m p : Message V) via_hub :
  prepare_local_delivery ev hive_id m via_hub = Some p -> with_package p None = p.
Proof.
  unfold prepare_local_delivery. destruct (protected_system_action _); [destruct (_ && _)|]; by intros [= <-].
Qed.

Lemma package_for_Some {V} memory (m : Message V) node p : package_for memory m node = Some p ->
  exists region entry, memory = Some region /\ entry ∈ ms_threads region /\
    canonical_thread_id_from_meta (meta m) = Some (mt_thread_id entry) /\
    mt_agent_node entry = node /\ mt_package entry = p.
Proof.
  unfold package_for. destruct (canonical_thread_id_from_meta (meta m)) as [t|]; [|done].
  destruct memory as [region|]; [|done]. destruct (List.find _ _) as [entry|] eqn:E; [|done].
  intros [= <-]. apply find_some in E as [Hin H]. rewrite andb_true_iff, !String.eqb_eq in H.
  destruct H as [<- <-]. exists region, entry. split_and!; try done. by apply list_elem_of_In.
Qed.

(** ** Frames *)

Section FrameTheorems.
Context {V : Type}.
Variable to_vec : Message V -> option (list byte).
Variable turn_len : MemoryTurn -> option Z.
(** Serializing a message to memory does not fail. *)
Hypothesis to_vec_total : forall m, is_Some (to_vec m).

Lemma with_package_twice (m : Message V) p q : with_package (with_package m p) q = with_package m q.
Proof. done. Qed.

(** Some frame of the message with its package cut to [n] turns fewer, or without. *)
Definition frame_of (prepared : Message V) (package : MemoryPackage) (data : list byte) : Prop :=
  to_vec (with_package prepared None) = Some data \/
  (Z.of_nat (length data) <= MAX_FRAME_SIZE)%Z /\
  exists n, to_vec (with_package prepared (Some (drop_turns package n))) = Some data.

Lemma drop_turns_twice p n k : drop_turns (drop_turns p n) k = drop_turns p (n + k).
Proof. unfold drop_turns. cbn. by rewrite drop_drop. Qed.

Lemma serialize_loop_frame fuel : forall prepared package n,
  (length (turns package) - n + 2 <= fuel)%nat ->
  exists data, serialize_loop to_vec turn_len fuel (with_package prepared (Some (drop_turns package n)))
    = Some data /\ frame_of prepared package data.
Proof.
  induction fuel as [|fuel IH]; intros prepared package n Hf; [lia|]. cbn [serialize_loop].
  destruct (to_vec_total (with_package prepared (Some (drop_turns package n)))) as [data Hd].
  rewrite Hd. cbn [with_package meta with_meta memory_package set_memory_package].
  unfold saturating_sub. destruct (Z.eqb_spec (Z.max 0 (Z.of_nat (length data) - MAX_FRAME_SIZE)) 0) as [Hz|Hz].
  - exists data. split; [done|]. right. split; [lia|eauto].
  - destruct (turns (drop_turns package n)) as [|t ts] eqn:Et.
    + destruct fuel as [|fuel]; [lia|]. rewrite with_package_twice. cbn [serialize_loop].
      destruct (to_vec_total (with_package prepared None)) as [bare Hb]. rewrite Hb.
      exists bare. split; [done|by left].
    + rewrite with_package_twice, drop_turns_twice. apply IH.
      apply (f_equal length) in Et. cbn [drop_turns turns] in Et. rewrite length_drop in Et.
      cbn [length] in Et. lia.
Qed.

Lemma serialize_with_package_frame prepared package : exists data,
  serialize_with_package to_vec turn_len prepared package = Some data /\ frame_of prepared package data.
Proof.
  destruct (serialize_loop_frame (length (turns package) + 2) prepared package 0) as (data & Hs & Hd); [lia|].
  exists data. split; [|done]. unfold serialize_with_package. rewrite <- Hs. by destruct package.
Qed.

(** A memory package never costs the message. Serializing a message with its
    package always ends and gives a frame: the message with the package less some of
    its oldest turns, within [MAX_FRAME_SIZE], or the bare message. So the frame is
    over [MAX_FRAME_SIZE] only if the bare message is. *)
Theorem serialize_with_package_fits prepared package :
  exists data, serialize_with_package to_vec turn_len prepared package = Some data /\
  frame_of prepared package data /\
  ((MAX_FRAME_SIZE < Z.of_nat (length data))%Z -> to_vec (with_package prepared None) = Some data).
Proof.
  destruct (serialize_with_package_frame prepared package) as (data & Hs & Hd).
  exists data. split_and!; [done..|]. intros Hlt. destruct Hd as [Hd|[Hd _]]; [done|lia].
Qed.

(** ** The loop over the deliveries *)

Variable evaluate_allow : string -> option string -> string -> option bool.
Variable memory : option MemoryShmSnapshot.

(** The frame one node gets, without the loop's caches. *)
Definition frame_for (prepared : Message V) (node : string) : option (list byte) :=
  match (if wants_package prepared node then package_for memory prepared node else None) with
  | Some package => serialize_with_package to_vec turn_len prepared package
  | None => to_vec prepared
  end.

(** The turn one node's delivery appends for cognition. *)
Definition turn_for (prepared : Message V) (node : string) : list (string * list byte) :=
  if is_agent_node node && is_communication_turn prepared then
    match to_vec (cognition_copy prepared (sender_of prepared)) with
    | Some copy => [(node, copy)]
    | None => []
    end
  else [].

Definition cache_ok (prepared : Message V) (c : DeliveryCache) : Prop :=
  (forall data, plain c = Some data -> to_vec prepared = Some data) /\
  (forall read, memory_read c = Some read -> read = memory).

Lemma frame_for_total prepared node : is_Some (frame_for prepared node).
Proof.
  unfold frame_for. destruct (if wants_package prepared node then _ else _) as [p|]; [|by apply to_vec_total].
  destruct (serialize_with_package_frame prepared p) as (data & -> & _). eauto.
Qed.

Lemma deliver_step_spec prepared d c node : cache_ok prepared c -> exists data c',
  frame_for prepared node = Some data /\ cache_ok prepared c' /\
  deliver_step to_vec turn_len memory prepared d c node
  = (mkDelivered (sent d ++ [(node, data)]) (cognition_turns d ++ turn_for prepared node) (failed d), c').
Proof.
  intros [Hp Hm]. destruct (frame_for_total prepared node) as [data Hd].
  exists data. unfold deliver_step. fold (turn_for prepared node). revert Hd. unfold frame_for.
  assert (match memory_read c with Some read => read | None => memory end = memory) as ->.
  { destruct (memory_read c) eqn:E; [by apply Hm|done]. }
  destruct (wants_package prepared node).
  - destruct (package_for memory prepared node) as [p|].
    + intros Hd. eexists. rewrite Hd. split; [done|]. split; [|reflexivity].
      split; cbn; [exact Hp|by intros ? [= <-]].
    + intros Hd. cbn [plain]. destruct (plain c) as [x|] eqn:E.
      * specialize (Hp x eq_refl). eexists. split; [done|]. split; [|repeat f_equal; congruence].
        split; cbn; [|by intros ? [= <-]]. intros y [= <-]. done.
      * eexists. rewrite Hd. split; [done|]. split; [|reflexivity].
        split; cbn; [by intros ? [= <-]|by intros ? [= <-]].
  - intros Hd. destruct (plain c) as [x|] eqn:E.
    + specialize (Hp x eq_refl). eexists. split; [done|]. split; [|repeat f_equal; congruence].
      split; [|done]. rewrite E. intros y [= <-]. done.
    + eexists. rewrite Hd. split; [done|]. split; [|reflexivity].
      split; cbn; [by intros ? [= <-]|done].
Qed.

Lemma deliver_loop_spec prepared deliveries : forall d c, cache_ok prepared c -> failed d = false ->
  let r := deliver_loop to_vec turn_len memory prepared d c deliveries in
  failed r = false /\
  cognition_turns r = (cognition_turns d ++ flat_map (turn_for prepared) deliveries)%list /\
  exists frames, sent r = (sent d ++ frames)%list /\
    Forall2 (fun node f => f.1 = node /\ frame_for prepared node = Some f.2) deliveries frames.
Proof.
  induction deliveries as [|node rest IH]; intros d c Hc Hf; cbn [deliver_loop flat_map].
  - rewrite app_nil_r. split_and!; try done. exists []. by rewrite app_nil_r.
  - destruct (deliver_step_spec prepared d c node Hc) as (data & c' & Hd & Hc' & ->). cbn [failed].
    rewrite Hf. destruct (IH (mkDelivered (sent d ++ [(node, data)])
      (cognition_turns d ++ turn_for prepared node) false) c' Hc' eq_refl) as (H1 & H2 & frames & H3 & H4).
    cbn [sent cognition_turns] in *. split_and!; [done|by rewrite H2, app_assoc|].
    exists ((node, data) :: frames). rewrite H3, <- app_assoc. split; [done|]. by constructor.
Qed.

(** Delivering to many is delivering to each. [deliver_locally], with its caches of
    the plain serialization and of the memory snapshot, sends every node of the list,
    in order, one frame: the one [serialize_for_local_delivery] makes for that node
    alone; and it sends nothing exactly when the gate drops the message. *)
Theorem deliver_locally_each deliveries (m : Message V) hive_id via_hub :
  let r := deliver_locally to_vec turn_len evaluate_allow memory deliveries m hive_id via_hub in
  failed r = false /\
  match prepare_local_delivery evaluate_allow hive_id m via_hub with
  | None => sent r = [] /\ cognition_turns r = []
  | Some prepared =>
      cognition_turns r = flat_map (turn_for prepared) deliveries /\
      Forall2 (fun node f => f.1 = node /\
        serialize_for_local_delivery to_vec turn_len evaluate_allow memory hive_id m via_hub node
        = Some (Some f.2)) deliveries (sent r)
  end.
Proof.
  unfold deliver_locally, serialize_for_local_delivery.
  destruct (prepare_local_delivery _ _ _ _) as [prepared|]; [|by destruct deliveries].
  destruct deliveries as [|node rest]; [by split_and!|].
  destruct (deliver_loop_spec prepared (node :: rest) nothing_delivered (mkDeliveryCache None None))
    as (H1 & H2 & frames & H3 & H4); [done..|]. split; [done|]. split; [done|].
  rewrite H3. cbn [nothing_delivered sent app]. eapply Forall2_impl; [exact H4|].
  intros x f [-> Hf]. split; [done|]. unfold frame_for in Hf.
  destruct (if wants_package prepared x then _ else _); by rewrite Hf.
Qed.

(** No forged memory. Every frame [deliver_locally] sends carries no memory
    package, or the memory region's own package of the message's thread for that very
    agent node, less some of its oldest turns; never one the sender put in the
    message. *)
Theorem delivered_packages deliveries (m : Message V) hive_id via_hub node data :
  (node, data) ∈ sent (deliver_locally to_vec turn_len evaluate_allow memory deliveries m hive_id via_hub) ->
  node ∈ deliveries /\
  exists prepared, prepare_local_delivery evaluate_allow hive_id m via_hub = Some prepared /\
  (to_vec (with_package prepared None) = Some data \/
   exists region entry n, memory = Some region /\ entry ∈ ms_threads region /\
     is_agent_node node = true /\ mt_agent_node entry = node /\
     canonical_thread_id_from_meta (meta prepared) = Some (mt_thread_id entry) /\
     to_vec (with_package prepared (Some (drop_turns (mt_package entry) n))) = Some data).
Proof.
  unfold deliver_locally. destruct deliveries as [|first rest]; [by intros ?%elem_of_nil|].
  destruct (prepare_local_delivery _ _ _ _) as [prepared|] eqn:Ep; [|by intros ?%elem_of_nil].
  destruct (deliver_loop_spec prepared (first :: rest) nothing_delivered (mkDeliveryCache None None))
    as (_ & _ & frames & -> & HF); [done..|]. cbn [nothing_delivered sent app]. intros Hin.
  destruct (Forall2_in_r _ _ _ _ HF Hin) as (x & Hx & Hn & Hf). cbn in Hn, Hf. subst x.
  split; [done|]. exists prepared. split; [done|]. revert Hf. unfold frame_for.
  assert (with_package prepared None = prepared) as Hw by by apply prepared_no_package in Ep.
  destruct (wants_package prepared node) eqn:Ew; [|left; by rewrite Hw].
  destruct (package_for memory prepared node) as [p|] eqn:Epk; [|left; by rewrite Hw].
  intros Hs. destruct (serialize_with_package_frame prepared p) as (data' & Hs' & Hfr).
  assert (data' = data) as -> by congruence. destruct Hfr as [Hb|[_ [n Hn]]]; [by left|right].
  unfold wants_package in Ew. rewrite !andb_true_iff in Ew. destruct Ew as [[Hag _] _].
  destruct (package_for_Some _ _ _ _ Epk) as (region & entry & ? & ? & ? & ? & <-).
  by exists region, entry, n.
Qed.

End FrameTheorems.

(** ** A concrete delivery *)

Module Examples.

Definition some_frame (m : Message unit) : option (list byte) := Some (as_bytes (trace_id (routing m))).
Definition rego (a : string) (s : option string) (h : string) : option bool := Some (allow a s h).

Definition spawn : Message unit :=
  mkMessage (mkRouting "u" (Some "SY.orchestrator@motherbee") (Unicast "SY.orchestrator@h1") 16 "t")
    (mkMeta "admin" (Some " spawn_node") None None None None None None None None None None None None
       None None false) tt.

Lemma delivery_gate_witness :
  is_Some (prepare_local_delivery rego "h1" spawn false) <->
  false = false /\ via_tap (meta spawn) = false /\
  exists role hive, parsed (Some "SY.orchestrator@motherbee") = Some (role, hive) /\
    (role, hive) ∈ allowed_origins "SPAWN_NODE" "h1".
Proof.
  apply (delivery_gate rego (fun a s h => eq_refl) "h1" spawn false "SPAWN_NODE" " spawn_node").
  - apply str_mem_iff. reflexivity.
  - reflexivity.
  - reflexivity.
Defined.

Definition region_package (ts : list MemoryTurn) : MemoryPackage :=
  mkMemoryPackage 1 "t1" None None [] [] [] [] [] ts None.

Lemma some_frame_total (m : Message unit) : is_Some (some_frame m).
Proof. eexists. reflexivity. Qed.

Lemma serialize_with_package_fits_witness :
  exists data, serialize_with_package some_frame (fun _ => Some 0%Z) spawn (region_package []) = Some data.
Proof.
  destruct (serialize_with_package_fits some_frame (fun _ => Some 0%Z) some_frame_total spawn
    (region_package [])) as (data & H & _).
  exists data. exact H.
Defined.

Lemma deliver_locally_each_witness :
  failed (deliver_locally some_frame (fun _ => Some 0%Z) rego None ["SY.orchestrator@h1"] spawn "h1" false)
  = false.
Proof.
  destruct (deliver_locally_each some_frame (fun _ => Some 0%Z) some_frame_total rego None
    ["SY.orchestrator@h1"] spawn "h1" false) as [H _].
  exact H.
Defined.

Lemma delivered_packages_witness : "SY.orchestrator@h1" ∈ ["SY.orchestrator@h1"].
Proof.
  destruct (delivered_packages some_frame (fun _ => Some 0%Z) some_frame_total rego None
    ["SY.orchestrator@h1"] spawn "h1" false "SY.orchestrator@h1" (as_bytes "t")) as [H _].
  - apply list_elem_of_In. vm_compute. left. reflexivity.
  - exact H.
Defined.

End Examples.
