(* ===== verification/Fib.v ===== *)
(** * The forwarding table

    [rebuild_fib], [resolve_by_name] and what they rest on, from
    src/src/router/mod.rs; the entries of the shared-memory regions they read are
    those of src/src/shm/mod.rs, reduced to the fields the router uses. A [HashMap]'s
    iteration order is unknown: where the code iterates over one, the definition takes
    the entries as a list, in some order. *)

From Stdlib Require Import ZArith Lia Ascii String.
From stdpp Require Import base list strings gmap sorting.
From S2P Require Import Prelude Protocol Policy Glob Gates.
Open Scope string_scope.

(** ** Data *)

Definition ACTION_FORWARD : Z := 0.
Definition ACTION_DROP : Z := 1.

Record RemoteHiveEntry := mkRemoteHiveEntry {
  rh_hive_id : list byte; rh_hive_id_len : Z;
  rh_router_uuid : Uuid;
  rh_router_name : list byte; rh_router_name_len : Z;
  rh_last_lsa_seq : Z; rh_last_updated : Z; rh_flags : Z;
  rh_node_count : Z; rh_route_count : Z; rh_vpn_count : Z; rh_tap_count : Z }.

Record RemoteNodeEntry := mkRemoteNodeEntry {
  rn_uuid : Uuid; rn_name : list byte; rn_name_len : Z;
  rn_vpn_id : Z; rn_hive_index : Z; rn_flags : Z }.

Record RemoteRouteEntry := mkRemoteRouteEntry {
  rr_prefix : list byte; rr_prefix_len : Z; rr_match_kind : Z; rr_action : Z;
  rr_next_hop_hive : list byte; rr_next_hop_hive_len : Z;
  rr_metric : Z; rr_priority : Z; rr_flags : Z; rr_hive_index : Z }.

Record RemoteVpnEntry := mkRemoteVpnEntry {
  rv_pattern : list byte; rv_pattern_len : Z; rv_match_kind : Z; rv_vpn_id : Z;
  rv_priority : Z; rv_flags : Z; rv_hive_index : Z }.

Record RemoteTapEntry := mkRemoteTapEntry {
  rt_match_src : list byte; rt_match_src_len : Z;
  rt_match_dst : list byte; rt_match_dst_len : Z;
  rt_target : list byte; rt_target_len : Z;
  rt_mode : Z; rt_enabled : Z; rt_flags : Z; rt_hive_index : Z }.

Record LsaSnapshot := mkLsaSnapshot {
  ls_hives : list RemoteHiveEntry;
  ls_nodes : list RemoteNodeEntry;
  ls_routes : list RemoteRouteEntry;
  ls_vpns : list RemoteVpnEntry;
  ls_taps : list RemoteTapEntry }.

(** A node connected to this router; its socket is its UUID's. *)
Record NodeHandle := mkNodeHandle { nh_name : string; nh_vpn_id : Z; nh_connected_at : Z }.

(** A node of a sibling router of the same hive. *)
Record PeerNode := mkPeerNode {
  pn_uuid : Uuid; pn_name : string; pn_vpn_id : Z; pn_router_uuid : Uuid }.

Record StaticRoute := mkStaticRoute {
  sr_pattern : string; sr_match_kind : Z; sr_action : Z; sr_next_hop_hive : string;
  sr_priority : Z; sr_metric : Z; sr_installed_at : Z }.

(** A node the hub vouches for. *)
Record ReachabilityEntry := mkReachabilityEntry {
  re_name : string; re_origin_hive : string; re_next_hop_hive : string;
  re_vpn_id : Z; re_last_updated : Z }.

Definition ADMIN_DISTANCE_LOCAL : Z := 0.
Definition ADMIN_DISTANCE_STATIC : Z := 1.
Definition ADMIN_DISTANCE_LSA : Z := 2.
Definition ADMIN_DISTANCE_REACHABILITY : Z := 3.

Inductive FibSource :=
| FromLocalNode | FromPeerNode | FromStaticRoute | FromLsaNode
| FromLsaRoute (advertised_by : string) | FromReachableNode.

Inductive FibNextHop := HopLocal (uuid : Uuid) | HopRouter (uuid : Uuid) | HopHive (hive : string).

Record FibEntry := mkFibEntry {
  fe_pattern : string; fe_match_kind : Z; fe_vpn_id : Z; fe_source : FibSource;
  fe_next_hop : option FibNextHop; fe_admin_distance : Z; fe_priority : Z; fe_metric : Z;
  fe_installed_at : Z; fe_action : Z }.

Inductive ResolvedRoute :=
| RouteDrop
| RouteUnreachable (reason : string)
| RouteDeliver (uuid : Uuid)
| RouteForwardRouter (uuid : Uuid)
| RouteForwardHive (hive : string).

(** ** The order of the table *)

(** [chars().filter(|c| *c != '*').count()]: the characters that are not a star, counted
    by their first byte. *)
Definition literal_chars (pattern : string) : Z :=
  Z.of_nat (length (List.filter
    (fun a => negb (ascii_between 128 191 a) && negb (Ascii.eqb a "*")) (list_ascii_of_string pattern))).

Definition fib_specificity (e : FibEntry) : Z * Z :=
  let k := fe_match_kind e in
  if Z.eqb k MATCH_EXACT then (Z.of_nat (String.length (fe_pattern e)), 3%Z)
  else if Z.eqb k MATCH_PREFIX then
    (Z.of_nat (String.length (trim_end_matches ".*" (fe_pattern e))), 2%Z)
  else if Z.eqb k MATCH_GLOB then (literal_chars (fe_pattern e), 1%Z)
  else (0%Z, 0%Z).

(** The closure [rebuild_fib] sorts by. *)
Definition fib_cmp (a b : FibEntry) : comparison :=
  let sa := fib_specificity a in
  let sb := fib_specificity b in
  then_with (then_with (Z.compare (fst sb) (fst sa)) (Z.compare (snd sb) (snd sa)))
  (then_with (Z.compare (fe_admin_distance a) (fe_admin_distance b))
  (then_with (Z.compare (fe_priority a) (fe_priority b))
  (then_with (Z.compare (fe_metric a) (fe_metric b))
             (Z.compare (fe_installed_at a) (fe_installed_at b))))).

(** ** Building it *)

Definition fib_of_node (n : Uuid * NodeHandle) : FibEntry :=
  mkFibEntry (nh_name (snd n)) MATCH_EXACT (nh_vpn_id (snd n)) FromLocalNode (Some (HopLocal (fst n)))
    ADMIN_DISTANCE_LOCAL 0 0 (nh_connected_at (snd n)) ACTION_FORWARD.

Definition fib_of_peer_node (n : Uuid * PeerNode) : FibEntry :=
  mkFibEntry (pn_name (snd n)) MATCH_EXACT (pn_vpn_id (snd n)) FromPeerNode
    (Some (HopRouter (pn_router_uuid (snd n)))) ADMIN_DISTANCE_LOCAL 0 0 0 ACTION_FORWARD.

Definition hop_of_hive (hive : string) : option FibNextHop :=
  if str_is_empty hive then None else Some (HopHive hive).

Definition fib_of_static (r : StaticRoute) : FibEntry :=
  mkFibEntry (sr_pattern r) (sr_match_kind r) 0 FromStaticRoute (hop_of_hive (sr_next_hop_hive r))
    ADMIN_DISTANCE_STATIC (sr_priority r) (sr_metric r) (sr_installed_at r) (sr_action r).

(** A flag of [mask] is set. *)
Definition has_flag (flags mask : Z) : bool := negb (Z.eqb (Z.land flags mask) 0).

(** [hive_map]: the other hives that are not stale, with their index (a [u16]) and when
    they were last heard of. *)
Fixpoint hive_map_from (idx : Z) (hives : list RemoteHiveEntry) : list (string * Z * Z) :=
  match hives with
  | [] => []
  | h :: rest =>
    let tail := hive_map_from (idx + 1) rest in
    if Z.eqb (rh_hive_id_len h) 0 || has_flag (rh_flags h) HIVE_FLAG_SELF
       || has_flag (rh_flags h) FLAG_STALE then tail
    else (bytes_to_string (rh_hive_id h) (rh_hive_id_len h), Z.modulo idx 65536, rh_last_updated h)
         :: tail
  end.

Definition hive_map (snapshot : LsaSnapshot) : list (string * Z * Z) :=
  hive_map_from 0 (ls_hives snapshot).

Definition hive_at (hives : list (string * Z * Z)) (index : Z) : option (string * Z) :=
  match List.find (fun '(_, idx, _) => Z.eqb idx index) hives with
  | Some (name, _, updated) => Some (name, updated)
  | None => None
  end.

Definition DELETED_OR_STALE : Z := Z.lor FLAG_DELETED FLAG_STALE.

Definition fib_of_lsa_node (hives : list (string * Z * Z)) (n : RemoteNodeEntry) : list FibEntry :=
  if Z.eqb (rn_name_len n) 0 || has_flag (rn_flags n) DELETED_OR_STALE then []
  else match hive_at hives (rn_hive_index n) with
  | None => []
  | Some (hive_id, updated_at) =>
    [mkFibEntry (bytes_to_string (rn_name n) (rn_name_len n)) MATCH_EXACT (rn_vpn_id n) FromLsaNode
       (Some (HopHive hive_id)) ADMIN_DISTANCE_LSA 0 0 updated_at ACTION_FORWARD]
  end.

Definition fib_of_lsa_route (hives : list (string * Z * Z)) (r : RemoteRouteEntry) : list FibEntry :=
  if Z.eqb (rr_prefix_len r) 0 || has_flag (rr_flags r) DELETED_OR_STALE then []
  else match hive_at hives (rr_hive_index r) with
  | None => []
  | Some (hive_id, updated_at) =>
    let next := bytes_to_string (rr_next_hop_hive r) (rr_next_hop_hive_len r) in
    let next := if str_is_empty next then hive_id else next in
    [mkFibEntry (bytes_to_string (rr_prefix r) (rr_prefix_len r)) (rr_match_kind r) 0
       (FromLsaRoute hive_id) (hop_of_hive next) ADMIN_DISTANCE_LSA (rr_priority r) (rr_metric r)
       updated_at (rr_action r)]
  end.

Definition fib_of_reachable (r : ReachabilityEntry) : FibEntry :=
  mkFibEntry (re_name r) MATCH_EXACT (re_vpn_id r) FromReachableNode (Some (HopHive (re_next_hop_hive r)))
    ADMIN_DISTANCE_REACHABILITY 0 0 (re_last_updated r) ACTION_FORWARD.

Definition lsa_entries (lsa : option LsaSnapshot) : list FibEntry :=
  match lsa with
  | None => []
  | Some snapshot =>
    let hives := hive_map snapshot in
    flat_map (fib_of_lsa_node hives) (ls_nodes snapshot)
    ++ flat_map (fib_of_lsa_route hives) (ls_routes snapshot)
  end%list.

Definition fib_entries (nodes : list (Uuid * NodeHandle)) (peer_nodes : list (Uuid * PeerNode))
  (static_routes : list StaticRoute) (lsa : option LsaSnapshot)
  (reachability : list ReachabilityEntry) : list FibEntry :=
  (map fib_of_node nodes ++ map fib_of_peer_node peer_nodes ++ map fib_of_static static_routes
   ++ lsa_entries lsa ++ map fib_of_reachable reachability)%list.

Definition rebuild_fib (nodes : list (Uuid * NodeHandle)) (peer_nodes : list (Uuid * PeerNode))
  (static_routes : list StaticRoute) (lsa : option LsaSnapshot)
  (reachability : list ReachabilityEntry) : list FibEntry :=
  sort_by fib_cmp (fib_entries nodes peer_nodes static_routes lsa reachability).

(** ** Resolving a name *)

Definition lsa_route_applies (advertised_by target : string) : bool :=
  ends_with target "@*" || node_is_on_hive target advertised_by.

Definition match_any_hive (base full_name : string) : bool :=
  match split_once "@" full_name with
  | None => false
  | Some (name_base, _) =>
    if str_contains base "*" then wildcard_match (as_bytes base) (as_bytes name_base)
    else name_base =s base
  end.

Definition NODE_NOT_FOUND : string := "NODE_NOT_FOUND".
Definition VPN_BLOCKED : string := "VPN_BLOCKED".

Section Resolve.
Context {V : Type}.
Variables (nodes : gmap Uuid NodeHandle) (src : NodeHandle) (meta : Meta V).

(** What a route does: drop, forward to its hive, or nothing. *)
Definition route_action (e : FibEntry) : option ResolvedRoute :=
  if Z.eqb (fe_action e) ACTION_DROP then Some RouteDrop
  else if Z.eqb (fe_action e) ACTION_FORWARD then
    match fe_next_hop e with Some (HopHive hive) => Some (RouteForwardHive hive) | _ => None end
  else None.

(** The gate to a remote entry's node. *)
Definition gated (e : FibEntry) (r : ResolvedRoute) : option ResolvedRoute :=
  Some (if vpn_allows_between meta (nh_name src) (nh_vpn_id src) (fe_pattern e) (fe_vpn_id e)
        then r else RouteUnreachable VPN_BLOCKED).

(** The body of the loops of [resolve_by_name_inner] and [resolve_by_name_any_hive] for an
    entry that matched: [None] goes on to the next entry. *)
Definition entry_route (target : string) (e : FibEntry) : option ResolvedRoute :=
  match fe_source e with
  | FromStaticRoute => route_action e
  | FromLsaRoute advertised_by =>
    if lsa_route_applies advertised_by target then route_action e else None
  | FromLocalNode =>
    match fe_next_hop e with
    | Some (HopLocal dst_uuid) =>
      match nodes !! dst_uuid with
      | Some dst_handle =>
        Some (if vpn_allows_between meta (nh_name src) (nh_vpn_id src) (nh_name dst_handle)
                   (nh_vpn_id dst_handle)
              then RouteDeliver dst_uuid else RouteUnreachable VPN_BLOCKED)
      | None => None
      end
    | _ => None
    end
  | FromPeerNode =>
    match fe_next_hop e with
    | Some (HopRouter peer_uuid) => gated e (RouteForwardRouter peer_uuid)
    | _ => None
    end
  | FromLsaNode | FromReachableNode =>
    match fe_next_hop e with
    | Some (HopHive hive) => gated e (RouteForwardHive hive)
    | _ => None
    end
  end.

Fixpoint first_route (f : FibEntry -> option ResolvedRoute) (fib : list FibEntry) : ResolvedRoute :=
  match fib with
  | [] => RouteUnreachable NODE_NOT_FOUND
  | e :: rest => match f e with Some r => r | None => first_route f rest end
  end.

Definition resolve_by_name_inner (fib : list FibEntry) (target : string) : ResolvedRoute :=
  first_route (fun e =>
    if pattern_match_kind (fe_match_kind e) (fe_pattern e) target then entry_route target e
    else None) fib.

Definition matches_any_hive (base : string) (e : FibEntry) : bool :=
  match fe_source e with
  | FromLocalNode | FromPeerNode | FromLsaNode | FromReachableNode => match_any_hive base (fe_pattern e)
  | FromStaticRoute | FromLsaRoute _ =>
    pattern_match_kind (fe_match_kind e) (fe_pattern e) (base ++ "@*")
  end.

Definition resolve_by_name_any_hive (fib : list FibEntry) (base : string) : ResolvedRoute :=
  first_route (fun e =>
    if matches_any_hive base e then entry_route (base ++ "@*") e else None) fib.

Definition is_not_found (r : ResolvedRoute) : bool :=
  match r with RouteUnreachable why => why =s NODE_NOT_FOUND | _ => false end.

Definition resolve_by_name (fib : list FibEntry) (target : string) : ResolvedRoute :=
  match strip_suffix "@*" target with
  | Some base =>
    match extract_hive (nh_name src) with
    | Some src_hive =>
      let local := resolve_by_name_inner fib (base ++ "@" ++ src_hive) in
      if is_not_found local then resolve_by_name_any_hive fib base else local
    | None => resolve_by_name_any_hive fib base
    end
  | None => resolve_by_name_inner fib target
  end.

End Resolve.

(** ** The order is a total preorder *)

#[export] Instance fib_cmp_preorder : TotalPreorder fib_cmp.
Proof.
  unfold fib_cmp. repeat apply then_preorder.
  - apply (rev_key_preorder (fun e => fst (fib_specificity e))).
  - apply (rev_key_preorder (fun e => snd (fib_specificity e))).
  - apply (key_preorder fe_admin_distance).
  - apply (key_preorder fe_priority).
  - apply (key_preorder fe_metric).
  - apply (key_preorder fe_installed_at).
Qed.

(** ** Exact entries come first *)

Lemma starts_with_length s p : starts_with s p = true -> (String.length p <= String.length s)%nat.
Proof.
  revert s. induction p as [|b p IH]; intros s; [cbn; lia|]. destruct s as [|a s]; [done|].
  cbn. intros [_ H]%andb_true_iff. specialize (IH s H). lia.
Qed.

Lemma literal_chars_le pattern :
  (literal_chars pattern <=
   Z.of_nat (length (List.filter (fun b => negb (Byte.eqb b star_byte)) (as_bytes pattern))))%Z.
Proof.
  unfold literal_chars, as_bytes. apply Nat2Z.inj_le.
  induction pattern as [|a s IH]; [done|].
  change (list_byte_of_string (String a s)) with (byte_of_ascii a :: list_byte_of_string s).
  cbn [list_ascii_of_string List.filter].
  assert (negb (Byte.eqb (byte_of_ascii a) star_byte) = negb (Ascii.eqb a "*")) as ->.
  { f_equal. destruct (Ascii.eqb_spec a "*") as [->|Hne]; [done|]. apply byte_eqb_neq.
    intros E. apply Hne. rewrite <- (ascii_of_byte_of_ascii a), E. done. }
  destruct (ascii_between 128 191 a), (Ascii.eqb a "*"); cbn [negb andb length]; lia.
Qed.

(** An entry that matches a name is at most as specific as the exact name, and as
    specific only if it is the exact name. *)
Lemma match_specificity e target :
  pattern_match_kind (fe_match_kind e) (fe_pattern e) target = true ->
  (fst (fib_specificity e) <= Z.of_nat (String.length target))%Z /\
  ((snd (fib_specificity e) < 3)%Z \/ (fe_match_kind e = MATCH_EXACT /\ fe_pattern e = target)).
Proof.
  unfold pattern_match_kind, fib_specificity.
  destruct (Z.eqb_spec (fe_match_kind e) MATCH_EXACT) as [Hk|_].
  { intros ->%String.eqb_eq. split; [cbn; lia|by right]. }
  destruct (Z.eqb (fe_match_kind e) MATCH_PREFIX).
  { intros H%starts_with_length. cbn [fst snd]. split; [lia|left; lia]. }
  destruct (Z.eqb (fe_match_kind e) MATCH_GLOB); [|done].
  intros H%wildcard_match_glob%glob_length. cbn [fst snd]. split; [|left; lia].
  pose proof (literal_chars_le (fe_pattern e)) as Hl. rewrite length_as_bytes in H. lia.
Qed.

Lemma exact_specificity e : fe_match_kind e = MATCH_EXACT ->
  fib_specificity e = (Z.of_nat (String.length (fe_pattern e)), 3%Z).
Proof. unfold fib_specificity. by intros ->. Qed.

(** What sorts no later than an exact entry for a name, and matches the name, is an exact
    entry for it no farther. *)
Lemma exact_first e e0 target :
  fe_match_kind e = MATCH_EXACT -> fe_pattern e = target ->
  pattern_match_kind (fe_match_kind e0) (fe_pattern e0) target = true -> not_after fib_cmp e0 e ->
  fe_match_kind e0 = MATCH_EXACT /\ fe_pattern e0 = target /\
  (fe_admin_distance e0 <= fe_admin_distance e)%Z.
Proof.
  intros Hk Hp Hm Hle. destruct (match_specificity e0 target Hm) as [Hlen Hrank].
  unfold not_after, fib_cmp in Hle. rewrite (exact_specificity e Hk), Hp, !then_with_gt in Hle. cbn [fst snd] in Hle.
  rewrite !Z.compare_gt_iff, !Z.compare_eq_iff in Hle.
  destruct Hrank as [Hr|[He0 Hp0]].
  - exfalso. apply Hle. left. destruct (Z.eq_dec (Z.of_nat (String.length target)) (fst (fib_specificity e0))); [|lia].
    right. lia.
  - split_and!; [done..|]. rewrite (exact_specificity e0 He0), Hp0 in Hle. cbn [fst snd] in Hle.
    destruct (Z.le_gt_cases (fe_admin_distance e0) (fe_admin_distance e)); [done|]. exfalso. apply Hle.
    right. split; [by rewrite !Z.compare_refl|]. left. lia.
Qed.

(** The first entry of a sorted table that decides precedes every other that would. *)
Lemma first_route_sorted f fib : StronglySorted (not_after fib_cmp) fib ->
  (exists e r, e ∈ fib /\ f e = Some r) ->
  exists e0, e0 ∈ fib /\ f e0 = Some (first_route f fib) /\
    forall e, e ∈ fib -> is_Some (f e) -> not_after fib_cmp e0 e.
Proof.
  induction 1 as [|e fib Hs IH He]; [by intros (? & ? & ?%elem_of_nil & _)|].
  intros (e1 & r & Hin & Hr). cbn [first_route]. destruct (f e) as [r0|] eqn:E.
  - exists e. split_and!; [by left|done|]. intros e' [->|Hin']%elem_of_cons _.
    + unfold not_after. pose proof (@cmp_antisym _ _ fib_cmp_preorder e e) as Ha. by destruct (fib_cmp e e).
    + rewrite Forall_forall in He. auto.
  - apply elem_of_cons in Hin as [->|Hin]; [congruence|].
    destruct IH as (e0 & H0 & Hf & Hmin); [eauto|]. exists e0. split_and!; [by right|done|].
    intros e' [->|Hin']%elem_of_cons Hs'; [rewrite E in Hs'; by destruct Hs'|auto].
Qed.

(** ** What resolution guarantees *)

Section ResolveTheorems.
Context {V : Type}.
Variables (nodes : gmap Uuid NodeHandle) (src : NodeHandle) (meta : Meta V).

Abbreviation allowed := (vpn_allows_between meta (nh_name src) (nh_vpn_id src)).

(** Why an outcome is the right one for some entry of the table. *)
Definition justified (fib : list FibEntry) (r : ResolvedRoute) : Prop :=
  match r with
  | RouteDeliver u => exists h, nodes !! u = Some h /\ allowed (nh_name h) (nh_vpn_id h) = true
  | RouteForwardRouter p => exists e, e ∈ fib /\ fe_source e = FromPeerNode /\
      fe_next_hop e = Some (HopRouter p) /\ allowed (fe_pattern e) (fe_vpn_id e) = true
  | RouteForwardHive hive => exists e, e ∈ fib /\ fe_next_hop e = Some (HopHive hive) /\
      match fe_source e with
      | FromLsaNode | FromReachableNode => allowed (fe_pattern e) (fe_vpn_id e) = true
      | FromStaticRoute | FromLsaRoute _ => fe_action e = ACTION_FORWARD
      | _ => False
      end
  | RouteDrop => exists e, e ∈ fib /\ fe_action e = ACTION_DROP /\
      match fe_source e with FromStaticRoute | FromLsaRoute _ => True | _ => False end
  | RouteUnreachable why => why = NODE_NOT_FOUND \/ why = VPN_BLOCKED
  end.

Lemma route_action_justified fib e r : e ∈ fib -> route_action e = Some r ->
  match fe_source e with FromStaticRoute | FromLsaRoute _ => True | _ => False end -> justified fib r.
Proof.
  unfold route_action. intros Hin H Hs. destruct (Z.eqb_spec (fe_action e) ACTION_DROP) as [Ea|_].
  { injection H as <-. by exists e. }
  destruct (Z.eqb_spec (fe_action e) ACTION_FORWARD) as [Ea|_]; [|done].
  destruct (fe_next_hop e) as [[?|?|hive]|] eqn:Eh; try done. injection H as <-.
  exists e. split_and!; try done. by destruct (fe_source e).
Qed.

Lemma entry_route_justified fib target e r : e ∈ fib ->
  entry_route nodes src meta target e = Some r -> justified fib r.
Proof.
  unfold entry_route, gated. intros Hin H. destruct (fe_source e) eqn:Es.
  - destruct (fe_next_hop e) as [[u|?|?]|]; try done. destruct (nodes !! u) as [h|] eqn:Eh; [|done].
    destruct (allowed (nh_name h) (nh_vpn_id h)) eqn:Ea; injection H as <-; cbn; eauto.
  - destruct (fe_next_hop e) as [[?|p|?]|] eqn:Eh; try done.
    destruct (allowed (fe_pattern e) (fe_vpn_id e)) eqn:Ea; injection H as <-; cbn; eauto 10.
  - eapply route_action_justified; [done..|]. by rewrite Es.
  - destruct (fe_next_hop e) as [[?|?|hive]|] eqn:Eh; try done.
    destruct (allowed (fe_pattern e) (fe_vpn_id e)) eqn:Ea; injection H as <-; cbn; [|eauto].
    exists e. rewrite Es. eauto.
  - destruct (lsa_route_applies _ _); [|done]. eapply route_action_justified; [done..|]. by rewrite Es.
  - destruct (fe_next_hop e) as [[?|?|hive]|] eqn:Eh; try done.
    destruct (allowed (fe_pattern e) (fe_vpn_id e)) eqn:Ea; injection H as <-; cbn; [|eauto].
    exists e. rewrite Es. eauto.
Qed.

Lemma first_route_justified (f : FibEntry -> option ResolvedRoute) fib :
  (forall e r, e ∈ fib -> f e = Some r -> justified fib r) -> justified fib (first_route f fib).
Proof.
  intros H. enough (forall l, (forall e, e ∈ l -> e ∈ fib) -> justified fib (first_route f l)) by auto.
  induction l as [|e l IH]; intros Hl; cbn [first_route]; [by left|].
  destruct (f e) as [r|] eqn:E; [apply (H e); [apply Hl; by left|done]|].
  apply IH. intros e' He'. apply Hl. by right.
Qed.

(** Resolution by name answers only what an entry of the table justifies: a node is
    reached, here or through another router or hive, only through the VPN gate; what is
    dropped or sent to a hive otherwise is so by a route; and there are two reasons to
    refuse. *)
Theorem resolve_by_name_justified fib target :
  justified fib (resolve_by_name nodes src meta fib target).
Proof.
  assert (forall t, justified fib (resolve_by_name_inner nodes src meta fib t)) as Hin.
  { intros t. apply first_route_justified. intros e r He.
    destruct (pattern_match_kind _ _ _); [|done]. by apply entry_route_justified. }
  assert (forall b, justified fib (resolve_by_name_any_hive nodes src meta fib b)) as Hany.
  { intros b. apply first_route_justified. intros e r He.
    destruct (matches_any_hive _ _); [|done]. by apply entry_route_justified. }
  unfold resolve_by_name. destruct (strip_suffix _ _); [|apply Hin].
  destruct (extract_hive _); [|apply Hany]. by destruct (is_not_found _).
Qed.

(** An entry of a hive's own advertised routes. *)
Definition advertised_by (hive : string) (e : FibEntry) : bool :=
  match fe_source e with FromLsaRoute h => h =s hive | _ => false end.

Lemma first_route_filter (f : FibEntry -> option ResolvedRoute) keep fib :
  (forall e, keep e = false -> f e = None) ->
  first_route f (List.filter keep fib) = first_route f fib.
Proof.
  intros H. induction fib as [|e fib IH]; [done|]. cbn [List.filter first_route].
  destruct (keep e) eqn:Ek; cbn [first_route]; [by rewrite IH|]. by rewrite (H e Ek).
Qed.

(** A hive's advertised routes do not reach beyond it. For a destination written with
    a hive, resolution gives the same answer with and without the routes another hive
    advertises: it can neither redirect nor drop the traffic of a third hive's nodes. *)
Theorem advertised_routes_contained fib target hive :
  ends_with target "@*" = false -> node_is_on_hive target hive = false ->
  resolve_by_name nodes src meta fib target
  = resolve_by_name nodes src meta (List.filter (fun e => negb (advertised_by hive e)) fib) target.
Proof.
  intros Hw Hh. unfold resolve_by_name.
  assert (strip_suffix "@*" target = None) as ->.
  { unfold ends_with in Hw. by destruct (strip_suffix "@*" target). }
  symmetry. apply first_route_filter. intros e He. rewrite negb_false_iff in He.
  unfold advertised_by in He. unfold entry_route. destruct (fe_source e); try done.
  apply String.eqb_eq in He. subst. unfold lsa_route_applies. rewrite Hw, Hh.
  by destruct (pattern_match_kind _ _ _).
Qed.

End ResolveTheorems.

(** ** Precedence in a rebuilt table *)

Lemma rebuild_fib_sorted nl pl sr lsa rl :
  StronglySorted (not_after fib_cmp) (rebuild_fib nl pl sr lsa rl).
Proof. apply sort_by_sorted, _. Qed.

Lemma elem_of_rebuild_fib e nl pl sr lsa rl :
  e ∈ rebuild_fib nl pl sr lsa rl <-> e ∈ fib_entries nl pl sr lsa rl.
Proof. apply elem_of_sort_by. Qed.

(** Where an entry comes from, and how far that is. *)
Lemma fib_entries_inv e nl pl sr lsa rl : e ∈ fib_entries nl pl sr lsa rl ->
  (exists n, n ∈ nl /\ e = fib_of_node n) \/
  (exists n, n ∈ pl /\ e = fib_of_peer_node n) \/
  (fe_admin_distance e = ADMIN_DISTANCE_STATIC /\ fe_source e <> FromReachableNode) \/
  (fe_admin_distance e = ADMIN_DISTANCE_LSA /\ fe_source e <> FromReachableNode) \/
  (fe_admin_distance e = ADMIN_DISTANCE_REACHABILITY /\ fe_source e = FromReachableNode).
Proof.
  unfold fib_entries. rewrite !elem_of_app, !list_elem_of_fmap.
  intros [(n & -> & H)|[(n & -> & H)|[(n & -> & H)|[H|(n & -> & H)]]]];
    [eauto 10|eauto 10|by right; right; left| |by do 4 right].
  right. right. right. left. unfold lsa_entries in H. destruct lsa as [snapshot|]; [|by apply elem_of_nil in H].
  apply elem_of_app in H as [H|H]; apply list_elem_of_In, in_flat_map in H as (n & _ & H).
  - unfold fib_of_lsa_node in H. destruct (_ || _); [done|].
    destruct (hive_at _ _) as [[? ?]|]; [|done]. destruct H as [<-|[]]. done.
  - unfold fib_of_lsa_route in H. destruct (_ || _); [done|].
    destruct (hive_at _ _) as [[? ?]|]; [|done]. destruct H as [<-|[]]. done.
Qed.

Section Precedence.
Context {V : Type}.
Variables (nodes : gmap Uuid NodeHandle) (src : NodeHandle) (meta : Meta V).
Variables (nl : list (Uuid * NodeHandle)) (pl : list (Uuid * PeerNode)) (sr : list StaticRoute).
Variables (lsa : option LsaSnapshot) (rl : list ReachabilityEntry).
(** The table is built from the nodes it is used with, in some order. *)
Hypothesis nodes_listed : nl ≡ₚ map_to_list nodes.

Abbreviation fib := (rebuild_fib nl pl sr lsa rl).

Lemma listed_node u h : (u, h) ∈ nl <-> nodes !! u = Some h.
Proof. by rewrite nodes_listed, elem_of_map_to_list. Qed.

(** An exact entry that decides is preceded only by exact entries for the same name, no
    farther. *)
Lemma exact_decides target e : e ∈ fib ->
  fe_match_kind e = MATCH_EXACT -> fe_pattern e = target ->
  is_Some (entry_route nodes src meta target e) ->
  exists e0, e0 ∈ fib /\ fe_match_kind e0 = MATCH_EXACT /\ fe_pattern e0 = target /\
    (fe_admin_distance e0 <= fe_admin_distance e)%Z /\
    entry_route nodes src meta target e0 = Some (resolve_by_name_inner nodes src meta fib target).
Proof.
  intros Hin Hk Hp [r Hr]. set (f := fun e => if pattern_match_kind (fe_match_kind e) (fe_pattern e) target
    then entry_route nodes src meta target e else None).
  assert (f e = Some r) as Hf.
  { unfold f. rewrite Hk, Hp. unfold pattern_match_kind. cbn. by rewrite String.eqb_refl. }
  destruct (first_route_sorted f fib (rebuild_fib_sorted _ _ _ _ _)) as (e0 & H0 & Hf0 & Hmin); [eauto|].
  assert (not_after fib_cmp e0 e) as Hle by (apply Hmin; [done|by rewrite Hf]).
  change (first_route f fib) with (resolve_by_name_inner nodes src meta fib target) in Hf0.
  unfold f in Hf0. destruct (pattern_match_kind _ _ _) eqn:Em; [|done].
  destruct (exact_first e e0 target Hk Hp Em Hle) as (? & ? & ?). eauto 10.
Qed.

(** Nothing diverts what is addressed to a local node. A message for a node
    connected to this router, by its name, goes to a local node of that name or is
    blocked by the VPN gate, whatever the static routes, the routes and nodes other
    hives advertise and the hub vouches for, and their priorities; provided no sibling
    router has a node of that name. *)
Theorem local_node_not_diverted target u h :
  nodes !! u = Some h -> nh_name h = target -> ends_with target "@*" = false ->
  (forall p n, (p, n) ∈ pl -> pn_name n <> target) ->
  exists u' h', nodes !! u' = Some h' /\ nh_name h' = target /\
    resolve_by_name nodes src meta fib target
    = (if vpn_allows_between meta (nh_name src) (nh_vpn_id src) (nh_name h') (nh_vpn_id h')
       then RouteDeliver u' else RouteUnreachable VPN_BLOCKED).
Proof.
  intros Hu Hn Hw Hpl. unfold resolve_by_name.
  assert (strip_suffix "@*" target = None) as ->.
  { unfold ends_with in Hw. by destruct (strip_suffix "@*" target). }
  destruct (exact_decides target (fib_of_node (u, h))) as (e0 & H0 & Hk0 & Hp0 & Hd0 & Hr0).
  - apply elem_of_rebuild_fib. unfold fib_entries. rewrite elem_of_app. left.
    apply list_elem_of_fmap. exists (u, h). split; [done|]. by apply listed_node.
  - done.
  - done.
  - unfold entry_route. cbn. rewrite Hu. eauto.
  - apply elem_of_rebuild_fib, fib_entries_inv in H0
      as [([u' h'] & Hin & ->)|[([p n] & Hin & ->)|[[Hd _]|[[Hd _]|[Hd _]]]]];
      [| |rewrite Hd in Hd0; cbn in Hd0; done..].
    + apply listed_node in Hin. exists u', h'. split_and!; try done.
      unfold entry_route in Hr0. cbn in Hr0. rewrite Hin in Hr0. by injection Hr0 as <-.
    + cbn in Hp0. by apply Hpl in Hin.
Qed.

(** A hub's vouching never overrides what a hive says of its own nodes. When a live
    hive's own LSA lists a node by the name that is looked up, the answer is not the one
    of an entry the hub vouched for. *)
Theorem direct_beats_vouched target n hive_id updated :
  match lsa with Some s => n ∈ ls_nodes s /\ hive_at (hive_map s) (rn_hive_index n) = Some (hive_id, updated)
               | None => False end ->
  rn_name_len n <> 0%Z -> has_flag (rn_flags n) DELETED_OR_STALE = false ->
  bytes_to_string (rn_name n) (rn_name_len n) = target ->
  exists e0, e0 ∈ fib /\ fe_source e0 <> FromReachableNode /\ fe_pattern e0 = target /\
    entry_route nodes src meta target e0 = Some (resolve_by_name_inner nodes src meta fib target).
Proof.
  intros Hlsa Hlen Hfl Hname. destruct lsa as [s|] eqn:El; [|done]. destruct Hlsa as [Hin Hat].
  set (e := mkFibEntry target MATCH_EXACT (rn_vpn_id n) FromLsaNode (Some (HopHive hive_id))
              ADMIN_DISTANCE_LSA 0 0 updated ACTION_FORWARD).
  rewrite <- El.
  destruct (exact_decides target e) as (e0 & H0 & Hk0 & Hp0 & Hd0 & Hr0).
  - apply elem_of_rebuild_fib. unfold fib_entries, lsa_entries. rewrite El, !elem_of_app.
    right. right. right. left. left. apply list_elem_of_In, in_flat_map. exists n.
    split; [by apply list_elem_of_In|]. unfold fib_of_lsa_node.
    destruct (Z.eqb_spec (rn_name_len n) 0); [done|]. rewrite Hfl, Hat, Hname. by left.
  - done.
  - done.
  - unfold entry_route, gated. cbn. eauto.
  - exists e0. split_and!; try done. intros Hs. apply elem_of_rebuild_fib, fib_entries_inv in H0
      as [(? & _ & ->)|[(? & _ & ->)|[[_ Hn]|[[_ Hn]|[Hd _]]]]]; try done.
    rewrite Hd in Hd0. done.
Qed.

End Precedence.

(** ** Concrete tables *)

Module Examples.

Definition plain_meta : Meta unit :=
  mkMeta "user" None None None None None None None None None None None None None None None false.
Definition sender : NodeHandle := mkNodeHandle "AI.a@h1" 0 10.
Definition agent : NodeHandle := mkNodeHandle "AI.b@h1" 0 20.
Definition attached : gmap Uuid NodeHandle := {[ 1%Z := sender; 2%Z := agent ]}.

(** A static route that claims every agent, with the best priority there is. *)
Definition grab : StaticRoute := mkStaticRoute "AI.*" MATCH_GLOB ACTION_FORWARD "h2" 0 0 0.

Lemma local_node_not_diverted_witness :
  exists u' h', attached !! u' = Some h' /\ nh_name h' = "AI.b@h1" /\
    resolve_by_name attached sender plain_meta
      (rebuild_fib (map_to_list attached) [] [grab] None []) "AI.b@h1"
    = (if vpn_allows_between plain_meta "AI.a@h1" 0 (nh_name h') (nh_vpn_id h')
       then RouteDeliver u' else RouteUnreachable VPN_BLOCKED).
Proof.
  apply (local_node_not_diverted attached sender plain_meta (map_to_list attached) [] [grab] None []
    ltac:(reflexivity) "AI.b@h1" 2 agent); try reflexivity.
  intros p n H. apply elem_of_nil in H. destruct H.
Defined.

(** Hive h2 lists AI.c, and the hub vouches for a node of the same name on h3. *)
Definition h2 : RemoteHiveEntry := mkRemoteHiveEntry (as_bytes "h2") 2 7 [] 0 1 5 FLAG_ACTIVE 1 1 0 0.
Definition ai_c : RemoteNodeEntry := mkRemoteNodeEntry 3 (as_bytes "AI.c@h2") 7 0 0 FLAG_ACTIVE.
Definition drop_all : RemoteRouteEntry :=
  mkRemoteRouteEntry (as_bytes "*") 1 MATCH_GLOB ACTION_DROP [] 0 0 0 FLAG_ACTIVE 0.
Definition region : LsaSnapshot := mkLsaSnapshot [h2] [ai_c] [drop_all] [] [].
Definition vouched : ReachabilityEntry := mkReachabilityEntry "AI.c@h2" "h2" "motherbee" 0 1.

Lemma direct_beats_vouched_witness :
  exists e0, e0 ∈ rebuild_fib (map_to_list attached) [] [] (Some region) [vouched] /\
    fe_source e0 <> FromReachableNode /\ fe_pattern e0 = "AI.c@h2" /\
    entry_route attached sender plain_meta "AI.c@h2" e0
    = Some (resolve_by_name_inner attached sender plain_meta
              (rebuild_fib (map_to_list attached) [] [] (Some region) [vouched]) "AI.c@h2").
Proof.
  apply (direct_beats_vouched attached sender plain_meta (map_to_list attached) [] [] (Some region)
    [vouched] "AI.c@h2" ai_c "h2" 5); try reflexivity.
  - split; [apply list_elem_of_In; left; reflexivity|reflexivity].
  - discriminate.
Defined.

(** Hive h2 advertises a route that drops everything: AI.b@h1 does not notice. *)
Lemma advertised_routes_contained_witness :
  resolve_by_name attached sender plain_meta (rebuild_fib (map_to_list attached) [] [] (Some region) [])
    "AI.d@h1"
  = resolve_by_name attached sender plain_meta
      (List.filter (fun e => negb (advertised_by "h2" e))
         (rebuild_fib (map_to_list attached) [] [] (Some region) [])) "AI.d@h1".
Proof. apply advertised_routes_contained; reflexivity. Defined.

End Examples.

(** Where the glob matcher's gap shows. A static glob route [AI.*] to a hive carries
    [AI.sales@*], but not [AI.*@*], a destination form the router supports: it answers
    NODE_NOT_FOUND, although the pattern covers it. *)
Theorem glob_route_misses_star_destination :
  let fib := rebuild_fib [] [] [Examples.grab] None [] in
  let resolve := resolve_by_name ∅ Examples.sender Examples.plain_meta fib in
  resolve "AI.sales@*" = RouteForwardHive "h2" /\
  glob (as_bytes "AI.*") (as_bytes "AI.*@*") = true /\
  resolve "AI.*@*" = RouteUnreachable NODE_NOT_FOUND.
Proof. vm_compute. auto. Qed.
