(* ===== verification/Lsa.v ===== *)
(** * What the hives tell each other: LSAs and vouched reachability

    The link-state advertisements a hive sends its WAN peers, the state a router keeps
    of the other hives, the region it publishes from that state, and the resolution of
    a UUID against it, from src/src/router/mod.rs ([apply_lsa_payload],
    [write_lsa_state], [find_remote_node], [wan_frame_source],
    [apply_wan_reachability], [broadcast_reachability], [lsa_stale_loop]). The region's
    write and read back are those of src/src/shm/mod.rs without the seqlock. *)

From Stdlib Require Import ZArith Lia Ascii String.
From stdpp Require Import base list strings gmap sorting.
From S2P Require Import Prelude Protocol Policy Glob Gates Fib.
Open Scope string_scope.

(** ** Data *)

Record LsaNode := mkLsaNode { ln_uuid : string; ln_name : string; ln_vpn_id : Z }.

Record LsaRoute := mkLsaRoute {
  lr_prefix : string; lr_match_kind : string; lr_action : string; lr_next_hop_hive : string;
  lr_metric : Z }.

Record LsaVpn := mkLsaVpn { lv_pattern : string; lv_match_kind : string; lv_vpn_id : Z }.

Record LsaTap := mkLsaTap {
  lt_match_src : string; lt_match_dst : string; lt_target : string; lt_mode : string;
  lt_enabled : bool }.

Record LsaPayload := mkLsaPayload {
  lp_hive : string; lp_router_id : string; lp_router_name : string; lp_seq : Z;
  lp_timestamp : string; lp_nodes : list LsaNode; lp_routes : list LsaRoute;
  lp_vpns : list LsaVpn; lp_taps : list LsaTap }.

Record WanReachabilityEntry := mkWanReachabilityEntry {
  wr_uuid : string; wr_name : string; wr_hive_id : string; wr_vpn_id : Z }.

Record WanReachabilityPayload := mkWanReachabilityPayload {
  wp_origin_hive : string; wp_router_id : string; wp_router_name : string; wp_seq : Z;
  wp_timestamp : string; wp_entries : list WanReachabilityEntry }.

(** What a router keeps of another hive. *)
Record RemoteHiveState := mkRemoteHiveState {
  hs_session_epoch : Z; hs_last_seq : Z; hs_last_updated : Z; hs_flags : Z;
  hs_router_uuid : Uuid; hs_router_name : string;
  hs_nodes : list LsaNode; hs_routes : list LsaRoute; hs_vpns : list LsaVpn;
  hs_taps : list LsaTap }.

(** [RemoteHiveState::default]. *)
Definition hive_state_default : RemoteHiveState := mkRemoteHiveState 0 0 0 0 0 "" [] [] [] [].

Inductive LsaApplyResult :=
| LsaApplied (foreign_nodes duplicate_uuids : list string)
| LsaRejected (reason payload_hive : string) (seq last_seq session_epoch : Z).

Definition LSA_REJECT_HIVE_MISMATCH : string := "hive_mismatch".
Definition LSA_REJECT_STALE_SEQ : string := "stale_seq".
Definition LSA_REJECT_PARSE_ERROR : string := "parse_error".

(** A configured tap of this hive. *)
Record TapEntry := mkTapEntry {
  te_match_src : list byte; te_match_src_len : Z;
  te_match_dst : list byte; te_match_dst_len : Z;
  te_target : list byte; te_target_len : Z;
  te_mode : Z; te_enabled : Z; te_flags : Z }.

Record RemoteNodeInfo := mkRemoteNodeInfo {
  ri_name : string; ri_vpn_id : Z; ri_hive_id : string; ri_next_hop_hive : string;
  ri_via_hub : bool }.

(** ** Labels *)

Definition match_kind_label (kind : Z) : string :=
  if Z.eqb kind MATCH_EXACT then "EXACT"
  else if Z.eqb kind MATCH_PREFIX then "PREFIX"
  else if Z.eqb kind MATCH_GLOB then "GLOB"
  else "PREFIX".

Definition match_kind_from_label (label : string) : option Z :=
  let l := to_ascii_uppercase label in
  if l =s "EXACT" then Some MATCH_EXACT
  else if l =s "PREFIX" then Some MATCH_PREFIX
  else if l =s "GLOB" then Some MATCH_GLOB
  else None.

Definition action_label (action : Z) : string :=
  if Z.eqb action ACTION_DROP then "DROP" else "FORWARD".

Definition action_from_label (label : string) : option Z :=
  let l := to_ascii_uppercase label in
  if l =s "DROP" then Some ACTION_DROP
  else if l =s "FORWARD" then Some ACTION_FORWARD
  else None.

Definition tap_mode_label (mode : Z) : string := "best_effort".

Definition tap_mode_from_label (label : string) : option Z :=
  let l := to_ascii_lowercase (trim label) in
  if (l =s "") || (l =s "best_effort") then Some 0%Z else None.

(** ** Names across the WAN *)

Definition canonical_wan_src_name (name bucket_hive : string) : string :=
  let role := trim (match split_once "@" name with Some (r, _) => r | None => name end) in
  role ++ "@" ++ bucket_hive.

Section Uuids.
(** [Uuid::parse_str] and [Uuid::to_string] of the uuid crate. *)
Variable parse_uuid : string -> option Uuid.
Variable uuid_to_string : Uuid -> string.

(** ** The local LSA *)

Definition lsa_of_node (u : Uuid) (h : NodeHandle) : LsaNode :=
  mkLsaNode (uuid_to_string u) (nh_name h) (nh_vpn_id h).

Definition lsa_of_peer_node (u : Uuid) (n : PeerNode) : LsaNode :=
  mkLsaNode (uuid_to_string u) (pn_name n) (pn_vpn_id n).

(** The nodes of the hive: this router's and its siblings', a sibling's first on a UUID
    that both list. *)
Definition node_map (nodes : gmap Uuid NodeHandle) (peer_nodes : gmap Uuid PeerNode)
  : gmap Uuid LsaNode :=
  map_imap (fun u n => Some (lsa_of_peer_node u n)) peer_nodes
  ∪ map_imap (fun u h => Some (lsa_of_node u h)) nodes.

Definition lsa_route_of (r : StaticRoute) : LsaRoute :=
  mkLsaRoute (sr_pattern r) (match_kind_label (sr_match_kind r)) (action_label (sr_action r))
    (sr_next_hop_hive r) (sr_metric r).

Definition lsa_vpn_of (v : VpnAssignment) : list LsaVpn :=
  if Z.eqb (va_pattern_len v) 0 || negb (vpn_rule_active v) then []
  else [mkLsaVpn (bytes_to_string (va_pattern v) (va_pattern_len v))
          (match_kind_label (va_match_kind v)) (va_vpn_id v)].

Definition lsa_tap_of (t : TapEntry) : list LsaTap :=
  if Z.eqb (te_enabled t) 0 || Z.eqb (te_match_src_len t) 0 || Z.eqb (te_match_dst_len t) 0
     || Z.eqb (te_target_len t) 0 then []
  else if negb (Z.eqb (te_flags t) 0) && Z.eqb (Z.land (te_flags t) FLAG_ACTIVE) 0 then []
  else [mkLsaTap (bytes_to_string (te_match_src t) (te_match_src_len t))
          (bytes_to_string (te_match_dst t) (te_match_dst_len t))
          (bytes_to_string (te_target t) (te_target_len t)) (tap_mode_label (te_mode t))
          (negb (Z.eqb (te_enabled t) 0))].

(** [listed] is [node_map] in its iteration order. *)
Definition build_local_lsa_payload (router_uuid : Uuid) (router_name hive_id : string) (seq : Z)
  (listed : list LsaNode) (static_routes : list StaticRoute) (vpn_rules : list VpnAssignment)
  (tap_rules : list TapEntry) (timestamp : string) : LsaPayload :=
  mkLsaPayload hive_id (uuid_to_string router_uuid) router_name seq timestamp listed
    (map lsa_route_of static_routes) (flat_map lsa_vpn_of vpn_rules) (flat_map lsa_tap_of tap_rules).

(** ** Taking another hive's LSA *)

(** A hive other than [hive] lists the UUID in its last LSA. *)
Definition listed_elsewhere (lsa_state : gmap string RemoteHiveState) (hive : string) (u : Uuid) : bool :=
  existsb (fun '(name, state) =>
    negb (name =s hive)
    && existsb (fun n => match parse_uuid (ln_uuid n) with Some v => Z.eqb v u | None => false end)
         (hs_nodes state)) (map_to_list lsa_state).

(** The loop over the payload's nodes: those kept, those of another hive, and those whose
    UUID is taken. *)
Fixpoint sift_nodes (local_uuids : gset Uuid) (elsewhere : Uuid -> bool) (hive : string)
  (l : list LsaNode) : list LsaNode * list string * list string :=
  match l with
  | [] => ([], [], [])
  | node :: rest =>
    let '(nodes, foreign_nodes, duplicate_uuids) := sift_nodes local_uuids elsewhere hive rest in
    if negb (node_is_on_hive (ln_name node) hive) then
      (nodes, ln_name node :: foreign_nodes, duplicate_uuids)
    else match parse_uuid (ln_uuid node) with
    | Some u =>
      if bool_decide (u ∈ local_uuids) then (nodes, foreign_nodes, ln_name node :: duplicate_uuids)
      else if elsewhere u then (node :: nodes, foreign_nodes, ln_name node :: duplicate_uuids)
      else (node :: nodes, foreign_nodes, duplicate_uuids)
    | None => (node :: nodes, foreign_nodes, duplicate_uuids)
    end
  end.

(** The session's epoch is new: its sequence starts over. *)
Definition enter_session (state : RemoteHiveState) (session_epoch : Z) : RemoteHiveState :=
  if Z.eqb (hs_session_epoch state) session_epoch then state
  else mkRemoteHiveState session_epoch 0 (hs_last_updated state) (hs_flags state)
         (hs_router_uuid state) (hs_router_name state) (hs_nodes state) (hs_routes state)
         (hs_vpns state) (hs_taps state).

Definition clear_stale (flags : Z) : Z := Z.ldiff flags FLAG_STALE.

Definition apply_lsa_payload (lsa_state : gmap string RemoteHiveState) (local_uuids : gset Uuid)
  (expected_hive : string) (peer_router_uuid : Uuid) (peer_router_name : string) (session_epoch : Z)
  (payload : LsaPayload) (now : Z) : gmap string RemoteHiveState * LsaApplyResult :=
  if negb (lp_hive payload =s expected_hive) then
    (lsa_state, LsaRejected LSA_REJECT_HIVE_MISMATCH (lp_hive payload) (lp_seq payload) 0 session_epoch)
  else
    let elsewhere := listed_elsewhere lsa_state expected_hive in
    let entry := enter_session (unwrap_or hive_state_default (lsa_state !! expected_hive)) session_epoch in
    let reject reason := (<[expected_hive := entry]> lsa_state,
      LsaRejected reason (lp_hive payload) (lp_seq payload) (hs_last_seq entry) (hs_session_epoch entry)) in
    if Z.leb (lp_seq payload) (hs_last_seq entry) then reject LSA_REJECT_STALE_SEQ
    else
      match (if str_is_empty (lp_router_id payload) then Some peer_router_uuid
             else parse_uuid (lp_router_id payload)) with
      | None => reject LSA_REJECT_PARSE_ERROR
      | Some router_uuid =>
        let name := if str_is_empty (lp_router_name payload) then peer_router_name
                    else lp_router_name payload in
        let '(nodes, foreign_nodes, duplicate_uuids) :=
          sift_nodes local_uuids elsewhere expected_hive (lp_nodes payload) in
        (<[expected_hive :=
             mkRemoteHiveState (hs_session_epoch entry) (lp_seq payload) now
               (clear_stale (hs_flags entry)) router_uuid name nodes (lp_routes payload)
               (lp_vpns payload) (lp_taps payload)]> lsa_state,
         LsaApplied foreign_nodes duplicate_uuids)
      end.

(** ** The region *)

Definition MAX_REMOTE_HIVES : Z := 16.
Definition MAX_REMOTE_NODES : Z := 1024.
Definition MAX_REMOTE_ROUTES : Z := 256.
Definition MAX_REMOTE_VPNS : Z := 256.
Definition MAX_REMOTE_TAPS : Z := 256.

(** [copy_bytes_with_len] into a zeroed field of [size] bytes: the field and the length. *)
Definition copy_bytes_with_len (size : nat) (s : string) : list byte * Z :=
  let bytes := take size (as_bytes s) in
  (bytes ++ replicate (size - length bytes) Byte.x00, Z.of_nat (length bytes))%list.

Definition region_hive (hive_id : string) (state : RemoteHiveState) : RemoteHiveEntry :=
  let '(hive, hive_len) := copy_bytes_with_len 64 hive_id in
  let '(name, name_len) := copy_bytes_with_len 64 (hs_router_name state) in
  mkRemoteHiveEntry hive hive_len (hs_router_uuid state) name name_len (hs_last_seq state)
    (hs_last_updated state) (hs_flags state) (Z.of_nat (length (hs_nodes state)))
    (Z.of_nat (length (hs_routes state))) (Z.of_nat (length (hs_vpns state)))
    (Z.of_nat (length (hs_taps state))).

Definition region_node (index : Z) (n : LsaNode) : list RemoteNodeEntry :=
  match parse_uuid (ln_uuid n) with
  | None => []
  | Some u =>
    let '(name, name_len) := copy_bytes_with_len 256 (ln_name n) in
    [mkRemoteNodeEntry u name name_len (ln_vpn_id n) (Z.modulo index 65536) FLAG_ACTIVE]
  end.

Definition region_route (index : Z) (r : LsaRoute) : list RemoteRouteEntry :=
  match match_kind_from_label (lr_match_kind r), action_from_label (lr_action r) with
  | Some match_kind, Some action =>
    let '(prefix, prefix_len) := copy_bytes_with_len 256 (lr_prefix r) in
    let '(next, next_len) := copy_bytes_with_len 32 (lr_next_hop_hive r) in
    [mkRemoteRouteEntry prefix prefix_len match_kind action next next_len (lr_metric r) 0 FLAG_ACTIVE
       (Z.modulo index 65536)]
  | _, _ => []
  end.

Definition region_vpn (index : Z) (v : LsaVpn) : list RemoteVpnEntry :=
  match match_kind_from_label (lv_match_kind v) with
  | Some match_kind =>
    let '(pattern, pattern_len) := copy_bytes_with_len 256 (lv_pattern v) in
    [mkRemoteVpnEntry pattern pattern_len match_kind (lv_vpn_id v) 0 FLAG_ACTIVE (Z.modulo index 65536)]
  | None => []
  end.

Definition region_tap (index : Z) (t : LsaTap) : list RemoteTapEntry :=
  match tap_mode_from_label (lt_mode t) with
  | Some mode =>
    let '(s, s_len) := copy_bytes_with_len 256 (lt_match_src t) in
    let '(d, d_len) := copy_bytes_with_len 256 (lt_match_dst t) in
    let '(g, g_len) := copy_bytes_with_len 256 (lt_target t) in
    [mkRemoteTapEntry s s_len d d_len g g_len mode (if lt_enabled t then 1 else 0) FLAG_ACTIVE
       (Z.modulo index 65536)]
  | None => []
  end.

(** The entries of the hives from index [index] on. *)
Fixpoint region_of (index : Z) (hives : list (string * RemoteHiveState)) : LsaSnapshot :=
  match hives with
  | [] => mkLsaSnapshot [] [] [] [] []
  | (hive_id, state) :: rest =>
    let r := region_of (index + 1) rest in
    mkLsaSnapshot (region_hive hive_id state :: ls_hives r)
      (flat_map (region_node index) (hs_nodes state) ++ ls_nodes r)
      (flat_map (region_route index) (hs_routes state) ++ ls_routes r)
      (flat_map (region_vpn index) (hs_vpns state) ++ ls_vpns r)
      (flat_map (region_tap index) (hs_taps state) ++ ls_taps r)
  end%list.

(** [LsaRegionWriter::write_snapshot] and the read back: refused when a table is full. *)
Definition region_fits (s : LsaSnapshot) : bool :=
  Z.leb (Z.of_nat (length (ls_hives s))) MAX_REMOTE_HIVES
  && Z.leb (Z.of_nat (length (ls_nodes s))) MAX_REMOTE_NODES
  && Z.leb (Z.of_nat (length (ls_routes s))) MAX_REMOTE_ROUTES
  && Z.leb (Z.of_nat (length (ls_vpns s))) MAX_REMOTE_VPNS
  && Z.leb (Z.of_nat (length (ls_taps s))) MAX_REMOTE_TAPS.

(** This hive's own state, from its own LSA. *)
Definition self_state (self_payload : LsaPayload) (router_uuid : Uuid) (last_updated : Z)
  : RemoteHiveState :=
  mkRemoteHiveState 0 (lp_seq self_payload) last_updated (Z.lor FLAG_ACTIVE HIVE_FLAG_SELF) router_uuid
    (lp_router_name self_payload) (lp_nodes self_payload) (lp_routes self_payload)
    (lp_vpns self_payload) (lp_taps self_payload).

(** The hives in the region's order: this one, then the others by name. *)
Definition region_hives (hive_id : string) (self : RemoteHiveState)
  (lsa_state : gmap string RemoteHiveState) : list (string * RemoteHiveState) :=
  (hive_id, self)
  :: sort_by (fun a b => String.compare (fst a) (fst b))
       (List.filter (fun '(name, _) => negb (name =s hive_id)) (map_to_list lsa_state)).

(** [write_lsa_state], with the region present: the snapshot the router then resolves
    against, the former one when the region refuses the write. *)
Definition write_lsa_state (hive_id : string) (self : RemoteHiveState)
  (lsa_state : gmap string RemoteHiveState) (snapshot : option LsaSnapshot) : option LsaSnapshot :=
  let s := region_of 0 (region_hives hive_id self lsa_state) in
  if region_fits s then Some s else snapshot.

End Uuids.

(** ** Resolving a UUID *)

Definition hive_live (h : RemoteHiveEntry) : bool :=
  negb (Z.eqb (rh_hive_id_len h) 0) && negb (has_flag (rh_flags h) HIVE_FLAG_SELF)
  && negb (has_flag (rh_flags h) FLAG_STALE).

Definition hive_name (h : RemoteHiveEntry) : string := bytes_to_string (rh_hive_id h) (rh_hive_id_len h).

(** [position]. *)
Fixpoint position {A} (f : A -> bool) (l : list A) : option nat :=
  match l with
  | [] => None
  | x :: rest => if f x then Some 0%nat else option_map S (position f rest)
  end.

Definition node_live (n : RemoteNodeEntry) : bool :=
  negb (Z.eqb (rn_name_len n) 0) && negb (has_flag (rn_flags n) DELETED_OR_STALE).

Definition node_name (n : RemoteNodeEntry) : string := bytes_to_string (rn_name n) (rn_name_len n).

Definition find_node_of_hive (snapshot : option LsaSnapshot) (uuid : Uuid) (hive : string)
  : option RemoteNodeInfo :=
  match snapshot with
  | None => None
  | Some s =>
    match position (fun entry =>
            negb (Z.eqb (rh_hive_id_len entry) 0)
            && negb (has_flag (rh_flags entry) (Z.lor HIVE_FLAG_SELF FLAG_STALE))
            && (hive_name entry =s hive)) (ls_hives s) with
    | None => None
    | Some hive_index =>
      match List.find (fun node => Z.eqb (rn_hive_index node) (Z.of_nat hive_index) && node_live node
                                   && Z.eqb (rn_uuid node) uuid) (ls_nodes s) with
      | Some node => Some (mkRemoteNodeInfo (node_name node) (rn_vpn_id node) hive hive false)
      | None => None
      end
    end
  end.

Definition uuid_listed_by_several_hives (s : LsaSnapshot) (uuid : Uuid) : bool :=
  match List.filter (fun node => negb (Z.eqb (rn_name_len node) 0) && Z.eqb (rn_uuid node) uuid)
          (ls_nodes s) with
  | [] => false
  | first :: rest => existsb (fun n => negb (Z.eqb (rn_hive_index n) (rn_hive_index first))) rest
  end.

(** The [hives] map of [find_remote_node]: a later entry of the same index replaces an
    earlier one. *)
Definition live_step (acc : gmap Z string * Z) (h : RemoteHiveEntry) : gmap Z string * Z :=
  (if hive_live h then <[Z.modulo (snd acc) 65536 := hive_name h]> (fst acc) else fst acc,
   (snd acc + 1)%Z).

Definition live_hives (s : LsaSnapshot) : gmap Z string :=
  fst (fold_left live_step (ls_hives s) (∅, 0%Z)).

Definition find_remote_node (snapshot : option LsaSnapshot) (uuid : Uuid) : option RemoteNodeInfo :=
  match snapshot with
  | None => None
  | Some s =>
    if uuid_listed_by_several_hives s uuid then None
    else match List.find (fun node => node_live node && Z.eqb (rn_uuid node) uuid) (ls_nodes s) with
    | None => None
    | Some node =>
      match live_hives s !! rn_hive_index node with
      | None => None
      | Some hive_id =>
        Some (mkRemoteNodeInfo (node_name node) (rn_vpn_id node) hive_id hive_id false)
      end
    end
  end.

Definition find_reachable_node (reachability : gmap Uuid ReachabilityEntry) (uuid : Uuid)
  : option RemoteNodeInfo :=
  match reachability !! uuid with
  | Some e => Some (mkRemoteNodeInfo (re_name e) (re_vpn_id e) (re_origin_hive e) (re_next_hop_hive e) true)
  | None => None
  end.

Definition wan_frame_source (snapshot : option LsaSnapshot) (reachability : gmap Uuid ReachabilityEntry)
  (src_uuid : Uuid) (peer_hive : string) : option RemoteNodeInfo :=
  match find_node_of_hive snapshot src_uuid peer_hive with
  | Some own => Some own
  | None =>
    match find_reachable_node reachability src_uuid with
    | Some relayed => if ri_next_hop_hive relayed =s peer_hive then Some relayed else None
    | None => None
    end
  end.

(** Whether a tap of the region applies to a message. *)
Definition lsa_tap_applies (s : LsaSnapshot) (tap : RemoteTapEntry) (src_name dst_name : string) : bool :=
  match ls_hives s !! Z.to_nat (rt_hive_index tap) with
  | None => false
  | Some hive =>
    if has_flag (rh_flags hive) HIVE_FLAG_SELF then true
    else
      let advertised_by := hive_name hive in
      let target := bytes_to_string (rt_target tap) (rt_target_len tap) in
      node_is_on_hive target advertised_by
      && (node_is_on_hive src_name advertised_by || node_is_on_hive dst_name advertised_by)
  end.

(** ** Vouched reachability *)

(** Every UUID the region lists. *)
Definition lsa_listed_uuids (snapshot : option LsaSnapshot) : gset Uuid :=
  match snapshot with
  | None => ∅
  | Some s => list_to_set (map rn_uuid (List.filter (fun n => negb (Z.eqb (rn_name_len n) 0)) (ls_nodes s)))
  end.

Definition local_node_uuids (nodes : gmap Uuid NodeHandle) (peer_nodes : gmap Uuid PeerNode)
  : gset Uuid := dom nodes ∪ dom peer_nodes.

Section Vouching.
Variable parse_uuid : string -> option Uuid.
Variable evaluate_allow : string -> option string -> string -> option bool.

(** How often an advertisement lists a UUID. *)
Definition times_listed (entries : list WanReachabilityEntry) (u : Uuid) : Z :=
  Z.of_nat (length (List.filter
    (fun e => match parse_uuid (wr_uuid e) with Some v => Z.eqb v u | None => false end) entries)).

(** One turn of the loop over the entries. *)
Definition vouch_step (taken : gset Uuid) (all : list WanReachabilityEntry)
  (own_hive peer_hive : string) (now : Z) (table : gmap Uuid ReachabilityEntry)
  (e : WanReachabilityEntry) : gmap Uuid ReachabilityEntry :=
  match parse_uuid (wr_uuid e) with
  | None => table
  | Some uuid =>
    if (wr_hive_id e =s own_hive) || (wr_hive_id e =s peer_hive) || str_is_empty (wr_name e) then table
    else if bool_decide (uuid ∈ taken) || Z.ltb 1 (times_listed all uuid) then table
    else <[uuid := mkReachabilityEntry (wr_name e) (wr_hive_id e) peer_hive (wr_vpn_id e) now]> table
  end.

(** [apply_wan_reachability]; [payload] is the message's, none when it does not parse. *)
Definition apply_wan_reachability (own_hive : string) (taken : gset Uuid)
  (table : gmap Uuid ReachabilityEntry) (peer_hive : string) (payload : option WanReachabilityPayload)
  (now : Z) : gmap Uuid ReachabilityEntry :=
  if negb (wan_reachability_voucher_allowed evaluate_allow peer_hive) then table
  else match payload with
  | None => table
  | Some payload =>
    if negb (wp_origin_hive payload =s peer_hive) then table
    else
      let kept := filter (fun '(_, e) => re_next_hop_hive e <> peer_hive) table in
      fold_left (vouch_step taken (wp_entries payload) own_hive peer_hive now) (wp_entries payload) kept
  end.

(** A UUID that more than one hive's LSA lists. *)
Definition listing_hives (lsa_state : gmap string RemoteHiveState) (u : Uuid) : Z :=
  Z.of_nat (length (List.filter (fun '(_, st) =>
    existsb (fun n => match parse_uuid (ln_uuid n) with Some v => Z.eqb v u | None => false end)
      (hs_nodes st)) (map_to_list lsa_state))).

Definition contested (lsa_state : gmap string RemoteHiveState) (u : Uuid) : bool :=
  Z.ltb 1 (listing_hives lsa_state u).

(** The entries [broadcast_reachability] sends [target_hive]; [state] is the live hives in
    the order they are iterated. *)
Definition reachability_entries (lsa_state : gmap string RemoteHiveState)
  (state : list (string * RemoteHiveState)) (target_hive : string) : list WanReachabilityEntry :=
  flat_map (fun '(origin_hive, st) =>
    if origin_hive =s target_hive then []
    else flat_map (fun node =>
      match parse_uuid (ln_uuid node) with
      | Some u => if contested lsa_state u then []
                  else [mkWanReachabilityEntry (ln_uuid node) (ln_name node) origin_hive (ln_vpn_id node)]
      | None => [mkWanReachabilityEntry (ln_uuid node) (ln_name node) origin_hive (ln_vpn_id node)]
      end) (hs_nodes st))
    (List.filter (fun '(_, st) => negb (has_flag (hs_flags st) FLAG_STALE)) state).

End Vouching.

(** ** Staleness *)

Definition set_hive_flags (st : RemoteHiveState) (flags : Z) : RemoteHiveState :=
  mkRemoteHiveState (hs_session_epoch st) (hs_last_seq st) (hs_last_updated st) flags
    (hs_router_uuid st) (hs_router_name st) (hs_nodes st) (hs_routes st) (hs_vpns st) (hs_taps st).

(** A turn of [lsa_stale_loop] for one hive. *)
Definition refresh_stale (now dead_interval_ms : Z) (st : RemoteHiveState) : RemoteHiveState :=
  if Z.ltb dead_interval_ms (saturating_sub now (hs_last_updated st)) then
    if has_flag (hs_flags st) FLAG_STALE then st
    else set_hive_flags st (Z.lor (hs_flags st) FLAG_STALE)
  else if has_flag (hs_flags st) FLAG_STALE then set_hive_flags st (clear_stale (hs_flags st))
  else st.

Definition lsa_stale_tick (now dead_interval_ms : Z) (lsa_state : gmap string RemoteHiveState)
  : gmap string RemoteHiveState := refresh_stale now dead_interval_ms <$> lsa_state.

Definition expire_reachability (now dead_interval_ms : Z) (table : gmap Uuid ReachabilityEntry)
  : gmap Uuid ReachabilityEntry :=
  filter (fun '(_, e) => (saturating_sub now (re_last_updated e) <= dead_interval_ms)%Z) table.

(** ** Taking an LSA: lemmas *)

Section ApplyTheorems.
Variable parse_uuid : string -> option Uuid.

(** A node of a payload that is kept: of the hive itself, with no UUID of a local node. *)
Definition keeps (local_uuids : gset Uuid) (hive : string) (n : LsaNode) : bool :=
  node_is_on_hive (ln_name n) hive
  && match parse_uuid (ln_uuid n) with Some u => negb (bool_decide (u ∈ local_uuids)) | None => true end.

Lemma sift_nodes_kept local_uuids elsewhere hive l :
  fst (fst (sift_nodes parse_uuid local_uuids elsewhere hive l)) = List.filter (keeps local_uuids hive) l.
Proof.
  induction l as [|n l IH]; [done|]. cbn [sift_nodes List.filter]. unfold keeps at 1.
  destruct (sift_nodes _ _ _ _ l) as [[ns fs] ds]. cbn in IH.
  destruct (node_is_on_hive (ln_name n) hive); [|done]. cbn [negb andb].
  destruct (parse_uuid (ln_uuid n)) as [u|]; [|cbn; by rewrite IH].
  destruct (bool_decide (u ∈ local_uuids)); [done|]. destruct (elsewhere u); cbn; by rewrite IH.
Qed.

(** The nodes of a hive the state knows, in the order of its last LSA. *)
Definition known_nodes (lsa_state : gmap string RemoteHiveState) (hive : string) : list LsaNode :=
  match lsa_state !! hive with Some st => hs_nodes st | None => [] end.

(** The last seq taken from a hive in a session. *)
Definition session_seq (lsa_state : gmap string RemoteHiveState) (hive : string) (epoch : Z) : Z :=
  hs_last_seq (enter_session (unwrap_or hive_state_default (lsa_state !! hive)) epoch).

Lemma enter_session_nodes st epoch : hs_nodes (enter_session st epoch) = hs_nodes st.
Proof. unfold enter_session. by destruct (Z.eqb _ _). Qed.

Lemma enter_session_epoch st epoch : hs_session_epoch (enter_session st epoch) = epoch.
Proof. unfold enter_session. destruct (Z.eqb_spec (hs_session_epoch st) epoch); done. Qed.

Lemma enter_session_same st epoch : hs_session_epoch st = epoch -> enter_session st epoch = st.
Proof. unfold enter_session. intros ->. by rewrite Z.eqb_refl. Qed.

(** The three ways an LSA ends. *)
Lemma apply_lsa_cases lsa_state local_uuids hive peer_uuid peer_name epoch payload now :
  let '(lsa_state', r) :=
    apply_lsa_payload parse_uuid lsa_state local_uuids hive peer_uuid peer_name epoch payload now in
  let entry := enter_session (unwrap_or hive_state_default (lsa_state !! hive)) epoch in
  match r with
  | LsaApplied _ _ => lp_hive payload = hive /\ (hs_last_seq entry < lp_seq payload)%Z /\
      exists st, lsa_state' = <[hive := st]> lsa_state /\
        hs_nodes st = List.filter (keeps local_uuids hive) (lp_nodes payload) /\
        hs_last_seq st = lp_seq payload /\ hs_session_epoch st = epoch
  | LsaRejected _ _ _ _ _ => lsa_state' = lsa_state \/ lsa_state' = <[hive := entry]> lsa_state
  end.
Proof.
  unfold apply_lsa_payload. destruct (String.eqb_spec (lp_hive payload) hive) as [Hh|Hh]; cbn [negb]; [|by left].
  set (entry := enter_session _ epoch).
  destruct (Z.leb_spec (lp_seq payload) (hs_last_seq entry)) as [Hle|Hlt]; [by right|].
  destruct (if str_is_empty (lp_router_id payload) then _ else _) as [ru|]; [|by right].
  pose proof (sift_nodes_kept local_uuids (listed_elsewhere parse_uuid lsa_state hive) hive (lp_nodes payload)) as Hk.
  destruct (sift_nodes _ _ _ _ _) as [[ns fs] ds]. cbn in Hk. split_and!; [done..|].
  eexists. split; [reflexivity|]. cbn. split_and!; try done. apply enter_session_epoch.
Qed.

Lemma known_nodes_insert lsa_state hive st h :
  known_nodes (<[hive := st]> lsa_state) h
  = if decide (h = hive) then hs_nodes st else known_nodes lsa_state h.
Proof.
  unfold known_nodes. destruct (decide (h = hive)) as [->|Hne].
  - by rewrite lookup_insert_eq.
  - by rewrite lookup_insert_ne.
Qed.

Lemma known_nodes_entry lsa_state hive epoch h :
  known_nodes (<[hive := enter_session (unwrap_or hive_state_default (lsa_state !! hive)) epoch]> lsa_state) h
  = known_nodes lsa_state h.
Proof.
  rewrite known_nodes_insert. destruct (decide (h = hive)) as [->|]; [|done].
  rewrite enter_session_nodes. unfold known_nodes. by destruct (lsa_state !! hive).
Qed.

(** Taking a peer's LSA. Only the entry of the hive that sent it changes. It is
    applied only if it names that hive and its seq is past the last one taken in the
    session; the hive's nodes are then exactly the payload's nodes that are named for
    that hive and do not carry a UUID of a local node, in order. A rejected one changes
    no hive's nodes. *)
Theorem apply_lsa_contained lsa_state local_uuids hive peer_uuid peer_name epoch payload now :
  let '(lsa_state', r) :=
    apply_lsa_payload parse_uuid lsa_state local_uuids hive peer_uuid peer_name epoch payload now in
  (forall h, h <> hive -> lsa_state' !! h = lsa_state !! h) /\
  match r with
  | LsaApplied _ _ => lp_hive payload = hive /\ (session_seq lsa_state hive epoch < lp_seq payload)%Z /\
      session_seq lsa_state' hive epoch = lp_seq payload /\
      known_nodes lsa_state' hive = List.filter (keeps local_uuids hive) (lp_nodes payload)
  | LsaRejected _ _ _ _ _ => forall h, known_nodes lsa_state' h = known_nodes lsa_state h
  end.
Proof.
  pose proof (apply_lsa_cases lsa_state local_uuids hive peer_uuid peer_name epoch payload now) as H.
  destruct (apply_lsa_payload _ _ _ _ _ _ _ _) as [s' [fs ds|? ? ? ? ?]]; cbv zeta in H.
  - destruct H as (Hh & Hlt & st & -> & Hn & Hs & He). split_and!; try done.
    + intros h Hne. by rewrite lookup_insert_ne.
    + unfold session_seq. rewrite lookup_insert_eq. cbn [unwrap_or]. by rewrite enter_session_same.
    + rewrite known_nodes_insert, decide_True by done. exact Hn.
  - destruct H as [->| ->]; [done|]. split; [intros h Hne; by rewrite lookup_insert_ne|].
    apply known_nodes_entry.
Qed.

(** ** Histories *)

(** What happens to the state of the other hives: an LSA of some peer's session, or a
    tick of the staleness loop. *)
Inductive lsa_event :=
| EvLsa (local_uuids : gset Uuid) (hive : string) (peer_uuid : Uuid) (peer_name : string)
    (epoch : Z) (payload : LsaPayload) (now : Z)
| EvStale (now dead_interval_ms : Z).

Definition lsa_exec (lsa_state : gmap string RemoteHiveState) (ev : lsa_event)
  : gmap string RemoteHiveState :=
  match ev with
  | EvLsa local_uuids hive peer_uuid peer_name epoch payload now =>
    fst (apply_lsa_payload parse_uuid lsa_state local_uuids hive peer_uuid peer_name epoch payload now)
  | EvStale now dead => lsa_stale_tick now dead lsa_state
  end.

(** Every node a hive is known by is named for that hive. *)
Definition lsa_ok (lsa_state : gmap string RemoteHiveState) : Prop :=
  forall h, Forall (fun n => node_is_on_hive (ln_name n) h = true) (known_nodes lsa_state h).

Lemma refresh_stale_nodes now dead st : hs_nodes (refresh_stale now dead st) = hs_nodes st.
Proof. unfold refresh_stale. destruct (_ <? _)%Z, (has_flag _ _); done. Qed.

Lemma lsa_exec_ok lsa_state ev : lsa_ok lsa_state -> lsa_ok (lsa_exec lsa_state ev).
Proof.
  intros Hok h. destruct ev as [local_uuids hive peer_uuid peer_name epoch payload now|now dead].
  - cbn [lsa_exec].
    pose proof (apply_lsa_cases lsa_state local_uuids hive peer_uuid peer_name epoch payload now) as H.
    destruct (apply_lsa_payload _ _ _ _ _ _ _ _) as [s' [fs ds|? ? ? ? ?]]; cbv zeta in H; cbn [fst].
    + destruct H as (_ & _ & st & -> & Hn & _). rewrite known_nodes_insert.
      destruct (decide (h = hive)) as [->|]; [|apply Hok]. rewrite Hn. apply Forall_forall.
      intros n Hin%list_elem_of_In. apply filter_In in Hin as [_ Hk]. unfold keeps in Hk.
      by apply andb_true_iff in Hk as [Hk _].
    + destruct H as [->| ->]; [apply Hok|]. rewrite known_nodes_entry. apply Hok.
  - specialize (Hok h). unfold known_nodes in *. cbn [lsa_exec]. unfold lsa_stale_tick. rewrite lookup_fmap.
    destruct (lsa_state !! h); [|done]. cbn. by rewrite refresh_stale_nodes.
Qed.

(** Whatever the peers send, a hive is known only by nodes named for itself: after any
    history of LSAs, from any peers, in any sessions and in any order, no hive lists a
    node under another hive's name. *)
Theorem lsa_names_own_hive evs : lsa_ok (fold_left lsa_exec evs ∅).
Proof.
  enough (forall s, lsa_ok s -> lsa_ok (fold_left lsa_exec evs s)) as H.
  { apply H. intros h. unfold known_nodes. rewrite lookup_empty. constructor. }
  induction evs as [|ev evs IH]; intros s Hs; [done|]. cbn. apply IH. by apply lsa_exec_ok.
Qed.

(** The seqs a session's LSAs were applied with. *)
Fixpoint applied_seqs (local_uuids : gset Uuid) (hive : string) (peer_uuid : Uuid) (peer_name : string)
  (epoch : Z) (lsa_state : gmap string RemoteHiveState) (payloads : list (LsaPayload * Z)) : list Z :=
  match payloads with
  | [] => []
  | (payload, now) :: rest =>
    let '(s, r) := apply_lsa_payload parse_uuid lsa_state local_uuids hive peer_uuid peer_name epoch payload now in
    match r with LsaApplied _ _ => [lp_seq payload] | LsaRejected _ _ _ _ _ => [] end
    ++ applied_seqs local_uuids hive peer_uuid peer_name epoch s rest
  end%list.

Lemma applied_seqs_above local_uuids hive peer_uuid peer_name epoch payloads : forall lsa_state,
  StronglySorted Z.lt (session_seq lsa_state hive epoch
    :: applied_seqs local_uuids hive peer_uuid peer_name epoch lsa_state payloads).
Proof.
  induction payloads as [|[payload now] rest IH]; intros s; cbn [applied_seqs]; [repeat constructor|].
  pose proof (apply_lsa_cases s local_uuids hive peer_uuid peer_name epoch payload now) as H.
  destruct (apply_lsa_payload _ _ _ _ _ _ _ _) as [s' [fs ds|? ? ? ? ?]]; cbv zeta in H; cbn [app].
  - destruct H as (_ & Hlt & st & -> & _ & Hs & He). fold (session_seq s hive epoch) in Hlt.
    specialize (IH (<[hive := st]> s)). revert IH. unfold session_seq at 1. rewrite lookup_insert_eq.
    cbn [unwrap_or]. rewrite enter_session_same, Hs by done. intros IH. pose proof IH as [Hs1 Hf1]%StronglySorted_inv.
    constructor; [done|]. constructor; [done|]. eapply Forall_impl; [exact Hf1|]. simpl. lia.
  - assert (session_seq s' hive epoch = session_seq s hive epoch) as Hsame.
    { destruct H as [->| ->]; [done|]. unfold session_seq. rewrite lookup_insert_eq. cbn [unwrap_or].
      by rewrite (enter_session_same (enter_session _ _)) by apply enter_session_epoch. }
    rewrite <- Hsame. apply IH.
Qed.

(** Within a session an LSA is never undone by an older one: the seqs that are applied
    are strictly increasing, whatever order the payloads arrive in and however often. *)
Theorem lsa_session_in_order local_uuids hive peer_uuid peer_name epoch lsa_state payloads :
  StronglySorted Z.lt (applied_seqs local_uuids hive peer_uuid peer_name epoch lsa_state payloads).
Proof. by destruct (StronglySorted_inv (applied_seqs_above local_uuids hive peer_uuid peer_name epoch payloads lsa_state)). Qed.

End ApplyTheorems.

(** ** The region and a UUID: lemmas *)

Section Region.
Variable parse_uuid : string -> option Uuid.
Variable u : Uuid.

(** The length a name has in the region. *)
Definition wire_len (name : string) : Z := snd (copy_bytes_with_len 256 name).

(** A node of an LSA that the region lists under [u]. *)
Definition lists (n : LsaNode) : bool :=
  match parse_uuid (ln_uuid n) with Some v => Z.eqb v u | None => false end
  && negb (Z.eqb (wire_len (ln_name n)) 0).

Definition listing (st : RemoteHiveState) : option LsaNode := List.find lists (hs_nodes st).

(** Its entry, at a hive's index. *)
Definition node_entry (index : Z) (n : LsaNode) : RemoteNodeEntry :=
  mkRemoteNodeEntry u (fst (copy_bytes_with_len 256 (ln_name n))) (wire_len (ln_name n)) (ln_vpn_id n)
    (Z.modulo index 65536) FLAG_ACTIVE.

Definition live_match (node : RemoteNodeEntry) : bool := node_live node && Z.eqb (rn_uuid node) u.
Definition any_match (node : RemoteNodeEntry) : bool :=
  negb (Z.eqb (rn_name_len node) 0) && Z.eqb (rn_uuid node) u.

Lemma region_node_match index n :
  List.find live_match (region_node parse_uuid index n)
  = (if lists n then Some (node_entry index n) else None) /\
  List.filter any_match (region_node parse_uuid index n) = (if lists n then [node_entry index n] else []).
Proof.
  unfold region_node, lists, live_match, any_match, node_entry, wire_len.
  destruct (parse_uuid (ln_uuid n)) as [v|]; [|done].
  destruct (copy_bytes_with_len 256 (ln_name n)) as [name len]. cbn -[Z.eqb Z.modulo].
  unfold node_live. cbn [rn_name_len rn_uuid rn_flags].
  change (has_flag FLAG_ACTIVE DELETED_OR_STALE) with false. cbn [negb]. rewrite andb_true_r.
  destruct (Z.eqb_spec v u) as [->|]; destruct (Z.eqb len 0); done.
Qed.

Lemma find_app {A} (f : A -> bool) l1 l2 :
  List.find f (l1 ++ l2) = match List.find f l1 with Some x => Some x | None => List.find f l2 end.
Proof. induction l1 as [|x l1 IH]; [done|]. cbn. by destruct (f x). Qed.

Lemma region_nodes_find index l :
  List.find live_match (flat_map (region_node parse_uuid index) l)
  = option_map (node_entry index) (List.find lists l).
Proof.
  induction l as [|n l IH]; [done|]. cbn [flat_map List.find].
  rewrite find_app, (proj1 (region_node_match index n)). by destruct (lists n).
Qed.

Lemma region_nodes_any index l e :
  e ∈ List.filter any_match (flat_map (region_node parse_uuid index) l) <->
  exists n, n ∈ l /\ lists n = true /\ e = node_entry index n.
Proof.
  induction l as [|n l IH]; cbn [flat_map].
  - split; [by intros ?%elem_of_nil|]. by intros (? & ?%elem_of_nil & _).
  - rewrite List.filter_app, elem_of_app, IH, (proj2 (region_node_match index n)). split.
    + intros [H|(x & Hx & Hl & He)]; [|exists x; split_and!; [by right|done..]].
      destruct (lists n) eqn:El; [|by apply elem_of_nil in H].
      apply list_elem_of_singleton in H as ->. exists n. split_and!; [by left|done..].
    + intros (x & [->|Hx]%elem_of_cons & Hl & ->); [left; rewrite Hl; by left|right; eauto].
Qed.

Lemma region_hives_map i hs :
  ls_hives (region_of parse_uuid i hs) = map (fun p => region_hive (fst p) (snd p)) hs.
Proof. revert i. induction hs as [|[h st] hs IH]; intros i; [done|]. cbn. by rewrite IH. Qed.

(** The node found is the first of the first hive that lists the UUID. *)
Lemma region_find hs : forall i e, List.find live_match (ls_nodes (region_of parse_uuid i hs)) = Some e ->
  exists k h st n, hs !! k = Some (h, st) /\ listing st = Some n /\ e = node_entry (i + Z.of_nat k) n.
Proof.
  induction hs as [|[h st] hs IH]; intros i e; [done|]. cbn [region_of ls_nodes].
  rewrite find_app, region_nodes_find. destruct (List.find lists (hs_nodes st)) as [n|] eqn:En; cbn [option_map].
  - intros [= <-]. exists 0%nat, h, st, n. split_and!; [done..|]. by rewrite Z.add_0_r.
  - intros (k & h' & st' & n & Hk & Hn & ->)%IH. exists (S k), h', st', n. split_and!; [done..|].
    f_equal. lia.
Qed.

Lemma region_any hs : forall i k h st n, hs !! k = Some (h, st) -> listing st = Some n ->
  node_entry (i + Z.of_nat k) n ∈ List.filter any_match (ls_nodes (region_of parse_uuid i hs)).
Proof.
  induction hs as [|[h0 st0] hs IH]; intros i k h st n; [done|]. cbn [region_of ls_nodes].
  rewrite List.filter_app, elem_of_app. destruct k as [|k]; cbn.
  - intros [= -> ->] Hn. left. apply region_nodes_any. exists n. apply find_some in Hn as [Hin Hl].
    split_and!; [by apply list_elem_of_In|done|]. by rewrite Z.add_0_r.
  - intros Hk Hn. right. replace (i + Z.of_nat (S k))%Z with ((i + 1) + Z.of_nat k)%Z by lia. by eapply IH.
Qed.

(** A UUID one hive lists, by index. *)
Lemma not_several s e1 e2 : uuid_listed_by_several_hives s u = false ->
  e1 ∈ List.filter any_match (ls_nodes s) -> e2 ∈ List.filter any_match (ls_nodes s) ->
  rn_hive_index e1 = rn_hive_index e2.
Proof.
  unfold uuid_listed_by_several_hives. fold any_match.
  change (fun node => negb (Z.eqb (rn_name_len node) 0) && Z.eqb (rn_uuid node) u) with any_match.
  destruct (List.filter any_match (ls_nodes s)) as [|first rest]; [by intros _ ?%elem_of_nil|].
  intros H. assert (forall e, e ∈ first :: rest -> rn_hive_index e = rn_hive_index first) as He.
  { intros e [->|Hin]%elem_of_cons; [done|]. apply list_elem_of_In in Hin.
    apply not_true_iff_false in H. rewrite existsb_exists in H.
    destruct (Z.eqb_spec (rn_hive_index e) (rn_hive_index first)) as [?|Hne]; [done|].
    exfalso. apply H. exists e. split; [done|]. by apply negb_true_iff, Z.eqb_neq. }
  intros H1 H2. by rewrite (He _ H1), (He _ H2).
Qed.
(** The map of the live hives, read at an index. *)
Lemma live_hives_fold hives : forall (m : gmap Z string) i, (0 <= i)%Z -> (i + Z.of_nat (length hives) <= 65536)%Z ->
  (forall j, (i <= j)%Z -> m !! j = None) ->
  forall k, (k < length hives)%nat ->
  fst (fold_left live_step hives (m, i)) !! (i + Z.of_nat k)%Z
  = match hives !! k with Some h => if hive_live h then Some (hive_name h) else None | None => None end.
Proof.
  induction hives as [|h hives IH]; intros m i Hi Hlen Hm k Hk; [cbn in Hk; lia|].
  cbn [fold_left length] in *. unfold live_step at 2. cbn [fst snd].
  rewrite (Z.mod_small i) by lia. destruct k as [|k].
  - rewrite Z.add_0_r. cbn [lookup list_lookup]. clear IH.
    assert (forall l m' i', (i < i')%Z -> (i' + Z.of_nat (length l) <= 65536)%Z ->
      fst (fold_left live_step l (m', i')) !! i = m' !! i) as Hkeep.
    { induction l as [|x l IHl]; intros m' i' Hi' Hl; [done|]. cbn [fold_left length] in *.
      unfold live_step at 2. cbn [fst snd]. rewrite IHl by lia. destruct (hive_live x); [|done]. rewrite lookup_insert_ne; [done|].
      rewrite Z.mod_small by lia. lia. }
    rewrite Hkeep by lia. destruct (hive_live h); [by rewrite lookup_insert_eq|]. apply Hm. lia.
  - replace (i + Z.of_nat (S k))%Z with ((i + 1) + Z.of_nat k)%Z by lia. cbn [lookup list_lookup].
    apply IH; try lia. intros j Hj. destruct (hive_live h); [|apply Hm; lia].
    rewrite lookup_insert_ne by lia. apply Hm. lia.
Qed.

(** What a hive is called in the region. *)
Definition wire_hive (h : string) : string :=
  let '(bytes, len) := copy_bytes_with_len 64 h in bytes_to_string bytes len.

Lemma region_hive_name h st : hive_name (region_hive h st) = wire_hive h.
Proof. unfold region_hive, wire_hive, hive_name. by destruct (copy_bytes_with_len 64 h), (copy_bytes_with_len 64 _). Qed.

Definition info_of (h : string) (n : LsaNode) : RemoteNodeInfo :=
  mkRemoteNodeInfo (node_name (node_entry 0 n)) (ln_vpn_id n) (wire_hive h) (wire_hive h) false.

(** A UUID that resolves is listed by one hive only, a live one, and resolves to its
    node. *)
Lemma find_remote_node_inv hs info : (Z.of_nat (length hs) <= 65536)%Z ->
  find_remote_node (Some (region_of parse_uuid 0 hs)) u = Some info ->
  exists h st n, (h, st) ∈ hs /\ listing st = Some n /\ hive_live (region_hive h st) = true /\
    info = info_of h n /\
    forall h' st', (h', st') ∈ hs -> is_Some (listing st') -> (h', st') = (h, st).
Proof.
  intros Hlen. unfold find_remote_node.
  destruct (uuid_listed_by_several_hives _ u) eqn:Es; [done|].
  change (fun node => node_live node && Z.eqb (rn_uuid node) u) with live_match.
  destruct (List.find live_match _) as [e|] eqn:Ef; [|done].
  destruct (region_find _ _ _ Ef) as (k & h & st & n & Hk & Hn & ->).
  pose proof (lookup_lt_Some _ _ _ Hk) as Hlt. cbn [rn_hive_index node_entry]. rewrite Z.mod_small by lia.
  unfold live_hives. rewrite live_hives_fold; rewrite ?region_hives_map, ?length_map; try done; try lia.
  rewrite list_lookup_fmap, Hk. cbn [fmap option_fmap option_map fst snd].
  destruct (hive_live (region_hive h st)) eqn:El; [|done]. intros [= <-].
  exists h, st, n. split_and!; try done.
  - by eapply list_elem_of_lookup_2.
  - intros h' st' [k' Hk']%list_elem_of_lookup [n' Hn'].
    pose proof (not_several _ _ _ Es (region_any _ 0 _ _ _ _ Hk Hn) (region_any _ 0 _ _ _ _ Hk' Hn')) as Hi.
    cbn [rn_hive_index node_entry] in Hi. pose proof (lookup_lt_Some _ _ _ Hk').
    rewrite !Z.mod_small in Hi by lia. assert (k = k') as <- by lia. congruence.
Qed.

(** ** Who gets what is addressed to a UUID *)

Variables (own_hive : string) (self : RemoteHiveState).

Lemma region_hives_in lsa_state h st : (h, st) ∈ region_hives own_hive self lsa_state <->
  (h, st) = (own_hive, self) \/ (h <> own_hive /\ lsa_state !! h = Some st).
Proof.
  unfold region_hives. rewrite elem_of_cons, elem_of_sort_by. apply or_iff_compat_l.
  rewrite list_elem_of_In, filter_In, <- list_elem_of_In, elem_of_map_to_list.
  rewrite negb_true_iff, String.eqb_neq. tauto.
Qed.

Lemma region_fits_length lsa_state :
  region_fits (region_of parse_uuid 0 (region_hives own_hive self lsa_state)) = true ->
  (Z.of_nat (length (region_hives own_hive self lsa_state)) <= 65536)%Z.
Proof.
  unfold region_fits. rewrite !andb_true_iff, !Z.leb_le, region_hives_map, length_map.
  unfold MAX_REMOTE_HIVES. lia.
Qed.

(** A UUID two hives list is neither's: what is addressed to it is not delivered to
    either of them, this hive's own nodes included among the claims. *)
Theorem contested_uuid_unresolved lsa_state snapshot h1 st1 h2 st2 :
  let hs := region_hives own_hive self lsa_state in
  region_fits (region_of parse_uuid 0 hs) = true ->
  (h1, st1) ∈ hs -> (h2, st2) ∈ hs -> h1 <> h2 ->
  is_Some (listing st1) -> is_Some (listing st2) ->
  find_remote_node (write_lsa_state parse_uuid own_hive self lsa_state snapshot) u = None.
Proof.
  intros hs Hfit H1 H2 Hne L1 L2. unfold write_lsa_state. fold hs. rewrite Hfit.
  destruct (find_remote_node _ u) as [info|] eqn:E; [|done].
  apply find_remote_node_inv in E as (h & st & n & _ & _ & _ & _ & Huniq); [|by apply region_fits_length].
  specialize (Huniq _ _ H1 L1) as E1. specialize (Huniq _ _ H2 L2) as E2. congruence.
Qed.


End Region.

(** ** Where a WAN frame's sender comes from *)

Lemma position_Some {A} (f : A -> bool) l k : position f l = Some k ->
  exists x, l !! k = Some x /\ f x = true.
Proof.
  revert k. induction l as [|x l IH]; intros k; cbn [position]; [done|].
  destruct (f x) eqn:E; [intros [= <-]; eauto|].
  destruct (position f l) as [j|]; [|done]. intros [= <-]. by apply IH.
Qed.

Lemma canonical_parsed name hive : hive <> "" -> graphic_str hive ->
  parsed (Some (canonical_wan_src_name name hive))
  = let role := trim (role_of name) in
    if str_is_empty role then None else Some (role, hive).
Proof.
  intros Hne Hg. unfold canonical_wan_src_name. fold (role_of name). cbv zeta.
  assert (str_contains (role_of name) "@" = false) as Hat.
  { unfold role_of. destruct (split_once "@" name) as [[r h]|] eqn:E.
    - by apply split_once_contains in E.
    - by apply split_once_None. }
  apply trim_contains in Hat. set (role := trim (role_of name)) in *.
  assert (graphic_str ("@" ++ hive)) as Hgs by (apply Forall_cons; split; done).
  unfold parsed. destruct (str_is_empty role) eqn:Ee.
  - destruct role; [|done]. change ("" ++ "@" ++ hive) with ("@" ++ hive).
    assert (trim ("@" ++ hive) = "@" ++ hive) as ->.
    { unfold trim. rewrite trim_start_id by (apply (starts_clean_app "@" hive); [by cbn|done|done]).
      unfold trim_end. rewrite trim_rev_id; [by rewrite rev_involutive, string_of_list_ascii_of_string|].
      rewrite <- (app_nil_l (rev _)). apply trimmed_rev_app; [done|]. by apply Forall_rev. }
    change (split_once "@" ("@" ++ hive)) with (Some ("", hive)). done.
  - assert (role <> "") as Hr by (by destruct role).
    unfold role in *. rewrite trim_suffixed by done. fold role in Hr, Ee, Hat |- *.
    change ("@" ++ hive) with (String "@" hive). rewrite split_once_none_app by done. by rewrite Ee.
Qed.

(** A sender the peer does not relay has the peer's hive in its name. *)
Lemma direct_name_hive snapshot reachability u peer info role hive : peer <> "" -> graphic_str peer ->
  wan_frame_source snapshot reachability u peer = Some info -> ri_via_hub info = false ->
  parsed (Some (canonical_wan_src_name (ri_name info) (ri_hive_id info))) = Some (role, hive) -> hive = peer.
Proof.
  intros Hne Hg. unfold wan_frame_source. destruct (find_node_of_hive snapshot u peer) as [own|] eqn:Ef.
  - intros [= <-] _. assert (ri_hive_id own = peer) as ->.
    { unfold find_node_of_hive in Ef. destruct snapshot as [s|]; [|done].
      destruct (position _ (ls_hives s)); [|done]. destruct (List.find _ (ls_nodes s)); [|done].
      by injection Ef as <-. }
    rewrite canonical_parsed by done. cbv zeta. destruct (str_is_empty _); [done|]. by intros [= _ <-].
  - unfold find_reachable_node. destruct (reachability !! u) as [e|]; [|done].
    destruct (String.eqb _ _); [|done]. by intros [= <-].
Qed.

(** A WAN peer speaks only for its own nodes, or, as their vouching hub, for the nodes
    it relays. A frame whose sender resolves was sent by a node of the peer's own live
    bucket, and the name it is given is a name of the peer's hive; or the sender is in
    the reachability table with that peer as the next hop, and is marked as such. *)
Theorem wan_sender_bound snapshot reachability u peer info :
  peer <> "" -> graphic_str peer ->
  wan_frame_source snapshot reachability u peer = Some info ->
  (ri_via_hub info = false /\ ri_hive_id info = peer /\
   (exists s n, snapshot = Some s /\ n ∈ ls_nodes s /\ rn_uuid n = u /\ ri_name info = node_name n /\
      exists h, ls_hives s !! Z.to_nat (rn_hive_index n) = Some h /\ hive_name h = peer) /\
   forall role hive, parsed (Some (canonical_wan_src_name (ri_name info) (ri_hive_id info)))
     = Some (role, hive) -> hive = peer) \/
  (ri_via_hub info = true /\ ri_next_hop_hive info = peer /\
   exists e, reachability !! u = Some e /\ re_next_hop_hive e = peer /\ ri_hive_id info = re_origin_hive e).
Proof.
  intros Hne Hg Hs. pose proof Hs as Hs'. unfold wan_frame_source in Hs'. revert Hs'.
  destruct (find_node_of_hive snapshot u peer) as [own|] eqn:Ef.
  - intros [= <-]. left. unfold find_node_of_hive in Ef. destruct snapshot as [s|]; [|done].
    destruct (position _ (ls_hives s)) as [k|] eqn:Ek; [|done].
    destruct (List.find _ (ls_nodes s)) as [n|] eqn:En; [|done]. injection Ef as <-.
    cbn [ri_via_hub ri_hive_id ri_name].
    apply find_some in En as [Hin Hm]. rewrite !andb_true_iff, !Z.eqb_eq in Hm. destruct Hm as [[Hi _] Hu].
    split_and!; try done.
    + exists s, n. split_and!; try done; [by apply list_elem_of_In|].
      destruct (position_Some _ _ _ Ek) as (h & Hh & Hp). exists h. rewrite Hi, Nat2Z.id. split; [done|].
      rewrite !andb_true_iff, String.eqb_eq in Hp. tauto.
    + intros role hive Hp. exact (direct_name_hive _ _ _ _ _ role hive Hne Hg Hs eq_refl Hp).
  - unfold find_reachable_node. destruct (reachability !! u) as [e|]; [|done]. cbn [ri_next_hop_hive].
    destruct (String.eqb_spec (re_next_hop_hive e) peer) as [Hp|]; [|done]. intros [= <-]. right.
    cbn. split_and!; try done. by exists e.
Qed.

(** ** What a voucher gives *)

Section Vouched.
Variable parse_uuid : string -> option Uuid.
Variables (own_hive peer_hive : string) (taken : gset Uuid) (now : Z).

(** The entry of an advertisement that is taken for a UUID. *)
Definition admitted (all : list WanReachabilityEntry) (u : Uuid) (w : WanReachabilityEntry) : Prop :=
  parse_uuid (wr_uuid w) = Some u /\ wr_hive_id w <> own_hive /\ wr_hive_id w <> peer_hive /\
  wr_name w <> "" /\ u ∉ taken /\ (times_listed parse_uuid all u <= 1)%Z.

Definition vouched_as (w : WanReachabilityEntry) : ReachabilityEntry :=
  mkReachabilityEntry (wr_name w) (wr_hive_id w) peer_hive (wr_vpn_id w) now.

Lemma vouch_step_spec all table w :
  vouch_step parse_uuid taken all own_hive peer_hive now table w = table /\
    (forall u, ~ admitted all u w) \/
  exists u, admitted all u w /\
    vouch_step parse_uuid taken all own_hive peer_hive now table w = <[u := vouched_as w]> table.
Proof.
  unfold vouch_step, admitted. destruct (parse_uuid (wr_uuid w)) as [u|];
    [|left; split; [done|]; intros v (Hv & _); done].
  destruct (String.eqb_spec (wr_hive_id w) own_hive); cbn [orb];
    [left; split; [done|]; intros v (_ & Hv & _); done|].
  destruct (String.eqb_spec (wr_hive_id w) peer_hive); cbn [orb];
    [left; split; [done|]; intros v (_ & _ & Hv & _); done|].
  destruct (wr_name w) as [|c name] eqn:En; cbn [str_is_empty];
    [left; split; [done|]; intros v (_ & _ & _ & Hv & _); done|].
  case_bool_decide; cbn [orb]; [left; split; [done|]; intros v (Hv & _ & _ & _ & Ht & _); congruence|].
  destruct (Z.ltb_spec 1 (times_listed parse_uuid all u)).
  - left. split; [done|]. intros v (Hv & _ & _ & _ & _ & Ht). injection Hv as ->. lia.
  - right. exists u. unfold vouched_as. rewrite En. split_and!; try done.
Qed.

Lemma admitted_inj all u v w : admitted all u w -> admitted all v w -> u = v.
Proof. intros (Hu & _) (Hv & _). congruence. Qed.

(** Where an entry of the table comes from. *)
Lemma vouched_from all l table u e :
  fold_left (vouch_step parse_uuid taken all own_hive peer_hive now) l table !! u = Some e ->
  (table !! u = Some e /\ forall w, w ∈ l -> ~ admitted all u w) \/
  exists w, w ∈ l /\ admitted all u w /\ e = vouched_as w.
Proof.
  revert table. induction l as [|x l IH]; intros table; cbn [fold_left].
  - intros H. left. split; [done|]. intros w Hw. inversion Hw.
  - intros [(Ht & Hl)|(w & Hw & Ha & ->)]%IH.
    + destruct (vouch_step_spec all table x) as [(Hs & Hn)|(v & Ha & Hs)]; rewrite Hs in Ht.
      * left. split; [done|]. intros w [->|Hw]%elem_of_cons; auto.
      * destruct (decide (u = v)) as [<-|Hne].
        -- rewrite lookup_insert_eq in Ht. injection Ht as <-. right. exists x. split_and!; try done. left.
        -- rewrite lookup_insert_ne in Ht by done. left. split; [done|].
           intros w [->|Hw]%elem_of_cons; [|by apply Hl]. intros Ha'. by pose proof (admitted_inj _ _ _ _ Ha Ha').
    + right. exists w. split_and!; try done. by right.
Qed.

(** Nothing else reaches it. *)
Lemma vouched_others all l table u :
  (forall w, w ∈ l -> ~ admitted all u w) ->
  fold_left (vouch_step parse_uuid taken all own_hive peer_hive now) l table !! u = table !! u.
Proof.
  revert table. induction l as [|x l IH]; intros table H; [done|]. cbn [fold_left].
  rewrite IH by (intros w Hw; apply H; by right).
  destruct (vouch_step_spec all table x) as [(-> & _)|(v & Ha & ->)]; [done|].
  rewrite lookup_insert_ne; [done|]. intros ->. apply (H x); [left|done].
Qed.

(** An admitted entry is the only one of its UUID. *)
Lemma admitted_unique all u w w' : admitted all u w -> w ∈ all ->
  parse_uuid (wr_uuid w') = Some u -> w' ∈ all -> w' = w.
Proof.
  intros (Hu & _ & _ & _ & _ & Ht) Hw Hu' Hw'. unfold times_listed in Ht.
  set (f := fun e => match parse_uuid (wr_uuid e) with Some v => Z.eqb v u | None => false end) in Ht.
  assert (forall x, parse_uuid (wr_uuid x) = Some u -> x ∈ all -> In x (List.filter f all)) as Hin.
  { intros x Hx Hxa. apply filter_In. split; [by apply list_elem_of_In|]. unfold f. rewrite Hx. apply Z.eqb_refl. }
  pose proof (Hin _ Hu Hw) as H1. pose proof (Hin _ Hu' Hw') as H2.
  destruct (List.filter f all) as [|a [|b r]]; cbn in Ht, H1, H2; [done| |lia]. intuition congruence.
Qed.

(** An entry is replaced, never removed, by the later ones. *)
Lemma vouched_keeps all l table u : is_Some (table !! u) ->
  is_Some (fold_left (vouch_step parse_uuid taken all own_hive peer_hive now) l table !! u).
Proof.
  revert table. induction l as [|x l IH]; intros t' Ht; [done|]. apply IH.
  destruct (vouch_step_spec all t' x) as [(-> & _)|(v & _ & ->)]; [done|].
  destruct (decide (v = u)) as [->|]; [by rewrite lookup_insert_eq; eauto|by rewrite lookup_insert_ne].
Qed.

Lemma vouched_present all l table u w : w ∈ l -> admitted all u w ->
  is_Some (fold_left (vouch_step parse_uuid taken all own_hive peer_hive now) l table !! u).
Proof.
  intros Hw Ha. apply list_elem_of_split in Hw as (l1 & l2 & ->).
  rewrite fold_left_app. cbn [fold_left]. apply vouched_keeps. set (t := fold_left _ l1 table).
  destruct (vouch_step_spec all t w) as [(_ & Hn)|(v & Hv & ->)]; [by destruct (Hn u)|].
  rewrite <- (admitted_inj _ _ _ _ Ha Hv), lookup_insert_eq. eauto.
Qed.

Lemma vouched_lookup all table u w : w ∈ all -> admitted all u w ->
  fold_left (vouch_step parse_uuid taken all own_hive peer_hive now) all table !! u = Some (vouched_as w).
Proof.
  intros Hw Ha. destruct (vouched_present all all table u w Hw Ha) as [e E]. rewrite E.
  apply vouched_from in E as [(_ & Hn)|(w' & Hw' & Ha' & ->)]; [by destruct (Hn w)|].
  by rewrite (admitted_unique _ _ _ w' Ha) by (try apply Ha'; done).
Qed.

Variable evaluate_allow : string -> option string -> string -> option bool.
Hypothesis wasm_is_rego : forall a s h, evaluate_allow a s h = Some (allow a s h).

(** The reachability a router takes on a hub's word. An advertisement of any hive but
    the primary one, or of another hive than its sender's, changes nothing. One of the
    primary hive's gateway replaces all it vouched for before: afterwards a UUID is
    reachable through it exactly when the advertisement lists the UUID once, under a name
    and a hive that is neither this one nor the hub's, and no local node, sibling router
    or LSA has it; every other entry is as it was. *)
Theorem vouched_reachability table payload u e :
  let table' :=
    apply_wan_reachability parse_uuid evaluate_allow own_hive taken table peer_hive (Some payload) now in
  if (trim peer_hive =s "motherbee") && (wp_origin_hive payload =s peer_hive) then
    table' !! u = Some e <->
    (exists w, w ∈ wp_entries payload /\ admitted (wp_entries payload) u w /\ e = vouched_as w) \/
    (table !! u = Some e /\ re_next_hop_hive e <> peer_hive /\
     forall w, w ∈ wp_entries payload -> ~ admitted (wp_entries payload) u w)
  else table' = table.
Proof.
  cbv zeta. unfold apply_wan_reachability.
  pose proof (voucher_is_primary evaluate_allow wasm_is_rego peer_hive) as Hv.
  destruct (String.eqb_spec (trim peer_hive) "motherbee") as [Ht|Ht]; cbn [andb].
  2:{ destruct (wan_reachability_voucher_allowed _ _); [by destruct Ht; apply Hv|done]. }
  rewrite (proj2 Hv Ht). cbn [negb]. destruct (wp_origin_hive payload =s peer_hive); [|done]. cbn [negb].
  split.
  - intros [(Hk & Hn)|Hw]%vouched_from; [|by left]. right.
    apply map_lookup_filter_Some in Hk as [Hk Hne]. done.
  - intros [(w & Hw & Ha & ->)|(Hk & Hne & Hn)]; [by apply vouched_lookup|].
    rewrite vouched_others by done. by apply map_lookup_filter_Some.
Qed.

End Vouched.

Module Examples.

(** Two hives, their nodes' UUIDs written as one letter. *)
Definition parse_uuid (s : string) : option Uuid :=
  if s =s "a" then Some 1%Z else if s =s "b" then Some 2%Z else None.

Definition hive_of (nodes : list LsaNode) : RemoteHiveState :=
  mkRemoteHiveState 1 1 0 FLAG_ACTIVE 7 "RT.gateway" nodes [] [] [].

Definition self : RemoteHiveState :=
  mkRemoteHiveState 0 1 0 (Z.lor FLAG_ACTIVE HIVE_FLAG_SELF) 8 "RT.gateway" [] [] [] [].

Definition node_a : LsaNode := mkLsaNode "a" "AI.one@worker" 0.

Definition hives : gmap string RemoteHiveState :=
  {[ "worker" := hive_of [node_a]; "intruder" := hive_of [node_a] ]}.

Lemma contested_uuid_unresolved_witness :
  find_remote_node (write_lsa_state parse_uuid "home" self hives None) 1 = None.
Proof.
  apply (contested_uuid_unresolved parse_uuid 1 "home" self hives None "worker" (hive_of [node_a])
           "intruder" (hive_of [node_a])); try done.
  - vm_compute. do 2 right. left.
  - vm_compute. do 1 right. left.
Defined.

Definition one_hive : gmap string RemoteHiveState := {[ "worker" := hive_of [node_a] ]}.

Definition claim_a : LsaPayload :=
  mkLsaPayload "intruder" "r" "RT.gateway" 1 "" [node_a] [] [] [].


Definition region : option LsaSnapshot := write_lsa_state parse_uuid "home" self one_hive None.

Lemma wan_sender_bound_witness :
  let info := mkRemoteNodeInfo "AI.one@worker" 0 "worker" "worker" false in
  (ri_via_hub info = false /\ ri_hive_id info = "worker" /\
   (exists s n, region = Some s /\ n ∈ ls_nodes s /\ rn_uuid n = 1%Z /\ ri_name info = node_name n /\
      exists h, ls_hives s !! Z.to_nat (rn_hive_index n) = Some h /\ hive_name h = "worker") /\
   forall role hive, parsed (Some (canonical_wan_src_name (ri_name info) (ri_hive_id info)))
     = Some (role, hive) -> hive = "worker") \/
  (ri_via_hub info = true /\ ri_next_hop_hive info = "worker" /\
   exists e, (∅ : gmap Uuid ReachabilityEntry) !! 1%Z = Some e /\ re_next_hop_hive e = "worker" /\
     ri_hive_id info = re_origin_hive e).
Proof.
  apply (wan_sender_bound region ∅ 1 "worker"); [done|by repeat constructor|by vm_compute].
Defined.

Definition advert : WanReachabilityPayload :=
  mkWanReachabilityPayload "motherbee" "r" "RT.gateway" 1 ""
    [mkWanReachabilityEntry "a" "AI.one@worker" "worker" 3].

Lemma vouched_reachability_witness :
  let e := mkReachabilityEntry "AI.one@worker" "worker" "motherbee" 3 50 in
  let table' := apply_wan_reachability parse_uuid (fun a s h => Some (allow a s h)) "home" ∅ ∅ "motherbee"
                  (Some advert) 50 in
  if (trim "motherbee" =s "motherbee") && (wp_origin_hive advert =s "motherbee") then
    table' !! 1%Z = Some e <->
    (exists w, w ∈ wp_entries advert /\ admitted parse_uuid "home" "motherbee" ∅ (wp_entries advert) 1 w /\
       e = vouched_as "motherbee" 50 w) \/
    ((∅ : gmap Uuid ReachabilityEntry) !! 1%Z = Some e /\ re_next_hop_hive e <> "motherbee" /\
     forall w, w ∈ wp_entries advert -> ~ admitted parse_uuid "home" "motherbee" ∅ (wp_entries advert) 1 w)
  else table' = ∅.
Proof. apply vouched_reachability. reflexivity. Defined.

End Examples.
