(* ===== verification/Identity.v ===== *)
(** * Resolving a message's target through its sender's identity

    [resolve_target_with_identity] of src/src/router/mod.rs and what it calls: the
    identity region's aliases and registration states, the system policy's
    [frontdesk_route], and the hive's own OPA policy, which is the parameter
    [resolve_user]. An identity's sixteen bytes are its UUID. *)

From Stdlib Require Import ZArith Lia Ascii String.
From stdpp Require Import base list strings.
From S2P Require Import Prelude Protocol Policy Gates.
Open Scope string_scope.

(** ** Data *)

(** The fields of the identity region the resolution reads. *)
Record IlkEntry := mkIlkEntry { ilk_id : Uuid; registration_status : Z; ilk_flags : Z }.

Record IlkAliasEntry := mkIlkAliasEntry {
  old_ilk_id : Uuid; canonical_ilk_id : Uuid; expires_at : Z; alias_flags : Z }.

Record IdentitySnapshot := mkIdentitySnapshot {
  ilks : list IlkEntry; ilk_aliases : list IlkAliasEntry }.

(** ** Operations *)

Definition get_src_ilk_from_meta {V} (e : Meta V) : option string :=
  match src_ilk e with
  | Some value => let t := trim value in if str_is_empty t then None else Some t
  | None => None
  end.

Definition active (flags : Z) : bool := negb (Z.eqb (Z.land flags FLAG_ACTIVE) 0).

(** The names of the registration states. *)
Definition status_name (status : Z) : string :=
  if Z.eqb status 0 then "temporary"
  else if Z.eqb status 1 then "partial"
  else if Z.eqb status 2 then "complete"
  else "unknown".

Section Identity.
Variable parse_uuid : string -> option Uuid.
Variable uuid_to_string : Uuid -> string.

Definition parse_prefixed_uuid_bytes (value prefix : string) : option Uuid :=
  match strip_prefix (prefix ++ ":") (trim value) with
  | Some raw => parse_uuid raw
  | None => None
  end.

Definition format_prefixed_uuid (prefix : string) (bytes : Uuid) : string :=
  prefix ++ ":" ++ uuid_to_string bytes.

(** The alias loop: the first one active, not expired and of this identity. *)
Fixpoint canonical_ilk (aliases : list IlkAliasEntry) (id : Uuid) (now_ms : Z) : Uuid :=
  match aliases with
  | [] => id
  | alias :: rest =>
    if negb (active (alias_flags alias)) then canonical_ilk rest id now_ms
    else if Z.leb (expires_at alias) now_ms then canonical_ilk rest id now_ms
    else if Z.eqb (old_ilk_id alias) id then canonical_ilk_id alias
    else canonical_ilk rest id now_ms
  end.

Definition status_of (s : IdentitySnapshot) (id : Uuid) : option string :=
  option_map (fun i => status_name (registration_status i))
    (List.find (fun i => active (ilk_flags i) && Z.eqb (ilk_id i) id) (ilks s)).

Definition canonicalize_src_ilk_and_status (s : IdentitySnapshot) (ilk : string) (now_ms : Z)
  : option string * option string :=
  match parse_prefixed_uuid_bytes ilk "ilk" with
  | None => (None, None)
  | Some id =>
    let canonical := canonical_ilk (ilk_aliases s) id now_ms in
    (Some (format_prefixed_uuid "ilk" canonical), status_of s canonical)
  end.

Section Routes.
Context {V : Type}.
Variable evaluate_route : bool -> option string -> option bool.
(** The hive's OPA policy on a message and the identity data; [None] when it fails. *)
Variable resolve_user : Message V -> option IdentitySnapshot -> option (option string).

(** The message as the hive's policy sees it, and the target when one is forced. *)
Definition apply_identity_pre_resolve (m : Message V) (frontdesk : string) (s : IdentitySnapshot)
  (now_ms : Z) : Message V * option string :=
  match get_src_ilk_from_meta (meta m) with
  | None => (m, None)
  | Some ilk =>
    match canonicalize_src_ilk_and_status s ilk now_ms with
    | (None, _) => (m, None)
    | (Some canonical, status) =>
      let m := if canonical =s ilk then m else with_meta m (set_src_ilk (meta m) (Some canonical)) in
      (m, if route_to_frontdesk evaluate_route status true then Some frontdesk else None)
    end
  end.

(** [snapshot] is what [read_identity_snapshot] gives; [None] is an error of the hive's
    policy. *)
Definition resolve_target_with_identity (snapshot : option IdentitySnapshot) (frontdesk : string)
  (now_ms : Z) (m : Message V) : option (option string) :=
  match get_src_ilk_from_meta (meta m), route_to_frontdesk evaluate_route None false with
  | None, true => Some (Some frontdesk)
  | _, _ =>
    match snapshot with
    | Some s =>
      match apply_identity_pre_resolve m frontdesk s now_ms with
      | (_, Some forced) => Some (Some forced)
      | (m, None) => resolve_user m (Some s)
      end
    | None => resolve_user m None
    end
  end.

End Routes.
End Identity.

(** ** Who the front desk gets *)

(** An identity that has not completed its registration: none is given, or the one
    given, followed through the alias in force, is registered as temporary. *)
Definition unregistered {V} (parse_uuid : string -> option Uuid) (snapshot : option IdentitySnapshot)
  (now_ms : Z) (m : Message V) : Prop :=
  get_src_ilk_from_meta (meta m) = None \/
  exists s ilk id entry, snapshot = Some s /\ get_src_ilk_from_meta (meta m) = Some ilk /\
    parse_prefixed_uuid_bytes parse_uuid ilk "ilk" = Some id /\
    List.find (fun i => active (ilk_flags i)
                        && Z.eqb (ilk_id i) (canonical_ilk (ilk_aliases s) id now_ms)) (ilks s) = Some entry /\
    registration_status entry = 0%Z.

Lemma status_name_temporary n : status_name n = "temporary" <-> n = 0%Z.
Proof.
  unfold status_name. destruct (Z.eqb_spec n 0); [done|]. split; [|done].
  destruct (Z.eqb n 1); [done|]. destruct (Z.eqb n 2); done.
Qed.

Lemma status_of_temporary s id : opt_str_is (status_of s id) "temporary" = true <->
  exists entry, List.find (fun i => active (ilk_flags i) && Z.eqb (ilk_id i) id) (ilks s) = Some entry /\
    registration_status entry = 0%Z.
Proof.
  unfold status_of. destruct (List.find _ (ilks s)) as [entry|]; cbn [option_map opt_str_is].
  - rewrite String.eqb_eq, status_name_temporary. split; [eauto|]. by intros (? & [= <-] & ?).
  - split; [done|]. by intros (? & ? & _).
Qed.

Section Forced.
Context {V : Type}.
Variables (parse_uuid : string -> option Uuid) (uuid_to_string : Uuid -> string).
Variable evaluate_route : bool -> option string -> option bool.
(** [policy/system.wasm] is compiled from [policy/system.rego], and evaluates. *)
Hypothesis route_is_rego : forall present status,
  evaluate_route present status = Some (frontdesk_route status present).

(** The front desk before any policy of the hive. A sender that gives no identity, even
    with the identity region unavailable, or one whose identity is registered as
    temporary, goes to the front desk whatever the hive's policy says; every other
    sender goes where the hive's policy sends it, and the policy is asked about the same
    message with the sender's identity replaced at most by its canonical one. *)
Theorem frontdesk_takes_unregistered snapshot frontdesk now_ms (m : Message V) :
  (unregistered parse_uuid snapshot now_ms m /\
   forall resolve_user,
     resolve_target_with_identity parse_uuid uuid_to_string evaluate_route resolve_user snapshot frontdesk
       now_ms m = Some (Some frontdesk)) \/
  (~ unregistered parse_uuid snapshot now_ms m /\
   exists ilk, (ilk = src_ilk (meta m) \/
      exists s given id, snapshot = Some s /\ get_src_ilk_from_meta (meta m) = Some given /\
        parse_prefixed_uuid_bytes parse_uuid given "ilk" = Some id /\
        ilk = Some (format_prefixed_uuid uuid_to_string "ilk" (canonical_ilk (ilk_aliases s) id now_ms))) /\
   forall resolve_user,
     resolve_target_with_identity parse_uuid uuid_to_string evaluate_route resolve_user snapshot frontdesk
       now_ms m = resolve_user (with_meta m (set_src_ilk (meta m) ilk)) snapshot).
Proof.
  assert (with_meta m (set_src_ilk (meta m) (src_ilk (meta m))) = m) as Hid by by destruct m as [? [] ?].
  unfold resolve_target_with_identity, route_to_frontdesk, unregistered. rewrite !route_is_rego.
  destruct (get_src_ilk_from_meta (meta m)) as [ilk|] eqn:Ei; [|by left; split; [left|]].
  destruct snapshot as [s|].
  2:{ right. split; [intros [?|(? & ? & ? & ? & ? & _)]; done|]. exists (src_ilk (meta m)).
      split; [by left|]. intros resolve_user. by rewrite Hid. }
  unfold apply_identity_pre_resolve, canonicalize_src_ilk_and_status, route_to_frontdesk. rewrite Ei.
  destruct (parse_prefixed_uuid_bytes parse_uuid ilk "ilk") as [id|] eqn:Ep.
  2:{ right. split; [intros [?|(? & ? & ? & ? & [= <-] & [= <-] & ? & _)]; congruence|].
      exists (src_ilk (meta m)). split; [by left|]. intros resolve_user. by rewrite Hid. }
  rewrite route_is_rego. unfold frontdesk_route. cbn [negb orb unwrap_or].
  set (canonical := canonical_ilk (ilk_aliases s) id now_ms).
  pose proof (status_of_temporary s canonical) as Hs.
  destruct (opt_str_is (status_of s canonical) "temporary").
  - left. split; [|done]. right. destruct (proj1 Hs eq_refl) as (entry & Hf & H0). by exists s, ilk, id, entry.
  - right. split.
    + intros [?|(s' & ilk' & id' & entry & [= <-] & [= <-] & Hp & Hf & H0)]; [done|].
      assert (id' = id) as -> by congruence. assert (false = true) by (apply Hs; eauto). done.
    + destruct (String.eqb_spec (format_prefixed_uuid uuid_to_string "ilk" canonical) ilk) as [He|He].
      * exists (src_ilk (meta m)). split; [by left|]. intros resolve_user. by rewrite Hid.
      * eexists. split; [right; by exists s, ilk, id|]. done.
Qed.

End Forced.

Module Examples.

Definition parse_uuid (s : string) : option Uuid := if s =s "1" then Some 1%Z else None.
Definition new_ilk : IdentitySnapshot := mkIdentitySnapshot [mkIlkEntry 1 0 FLAG_ACTIVE] [].
Definition hello : Message unit :=
  mkMessage (mkRouting "n" None Resolve 5 "t")
    (mkMeta "user" None None None (Some "ilk:1") None None None None None None None None None None None false) tt.

Lemma frontdesk_takes_unregistered_witness :
  (exists m' : Message unit, forall resolve_user,
     resolve_target_with_identity parse_uuid (fun _ => "1")
       (fun present status => Some (frontdesk_route status present)) resolve_user (Some new_ilk) "SY.frontdesk@h"
       7 hello = resolve_user m' (Some new_ilk)) \/
  forall resolve_user,
    resolve_target_with_identity parse_uuid (fun _ => "1")
      (fun present status => Some (frontdesk_route status present)) resolve_user (Some new_ilk) "SY.frontdesk@h"
      7 hello = Some (Some "SY.frontdesk@h").
Proof.
  destruct (frontdesk_takes_unregistered parse_uuid (fun _ => "1")
    (fun present status => Some (frontdesk_route status present)) (fun _ _ => eq_refl) (Some new_ilk)
    "SY.frontdesk@h" 7 hello) as [[_ H]|(_ & ilk & _ & H)].
  - right. exact H.
  - left. eexists. exact H.
Defined.

End Examples.
