(* ===== verification/NodeRegion.v ===== *)
(** * The node table of a router's shared-memory region

    [RouterRegionWriter] of src/src/shm/mod.rs: the array of node slots a router keeps for
    its siblings and for SY.orchestrator, and the snapshot a reader takes of it. A writer
    holds the region's mutex and the seqlock's write side for the whole operation, and a
    reader keeps a copy only if the sequence number did not move, so an operation and a
    snapshot are one step each. The slots refine a finite map from UUID to entry, with a
    capacity. *)

From Stdlib Require Import ZArith Lia Ascii String.
From stdpp Require Import base list strings gmap.
From S2P Require Import Prelude Protocol Gates Fib Lsa Identity.
Open Scope string_scope.

(** ** State *)

Record NodeEntry := mkNodeEntry {
  ne_uuid : Uuid; ne_name : list byte; ne_name_len : Z; ne_vpn_id : Z; ne_flags : Z;
  ne_connected_at : Z }.

(** The fields of the header the router and its readers use. *)
Record ShmHeader := mkShmHeader {
  h_router_uuid : Uuid; h_generation : Z; node_count_ : Z; h_updated_at : Z; h_heartbeat : Z;
  h_hive_id : list byte; h_hive_id_len : Z; h_router_name : list byte; h_router_name_len : Z;
  h_is_gateway : Z; h_opa_policy_version : Z; h_opa_load_status : Z }.

Record Region := mkRegion { hdr : ShmHeader; slots : list NodeEntry }.

Definition node_count (reg : Region) : Z := node_count_ (hdr reg).

Definition MAX_NODES : Z := 1024.

Definition empty_node_entry : NodeEntry := mkNodeEntry 0 (replicate 256 Byte.x00) 0 0 0 0.

Definition is_active (e : NodeEntry) : bool := active (ne_flags e).

Definition holds_uuid (u : Uuid) (e : NodeEntry) : bool := is_active e && Z.eqb (ne_uuid e) u.

Definition count_active_nodes (nodes : list NodeEntry) : Z :=
  Z.of_nat (length (List.filter is_active nodes)).

(** ** Operations *)

(** [Iterator::position]. *)
Fixpoint position {A} (f : A -> bool) (l : list A) : option nat :=
  match l with
  | [] => None
  | x :: rest => if f x then Some O else option_map S (position f rest)
  end.

(** A loop over the slots that changes the first of [f] and breaks. *)
Fixpoint change_first {A} (f : A -> bool) (change : A -> A) (l : list A) : list A :=
  match l with
  | [] => []
  | x :: rest => if f x then change x :: rest else x :: change_first f change rest
  end.

(** The header as an operation at [now] leaves it. *)
Definition counted (h : ShmHeader) (count now : Z) : ShmHeader :=
  mkShmHeader (h_router_uuid h) (h_generation h) count now now (h_hive_id h) (h_hive_id_len h)
    (h_router_name h) (h_router_name_len h) (h_is_gateway h) (h_opa_policy_version h)
    (h_opa_load_status h).

Definition update_heartbeat (now : Z) (reg : Region) : Region :=
  let h := hdr reg in
  mkRegion (mkShmHeader (h_router_uuid h) (h_generation h) (node_count_ h) (h_updated_at h) now
    (h_hive_id h) (h_hive_id_len h) (h_router_name h) (h_router_name_len h) (h_is_gateway h)
    (h_opa_policy_version h) (h_opa_load_status h)) (slots reg).

Definition update_opa_status (policy_version load_status now : Z) (reg : Region) : Region :=
  let h := hdr reg in
  if Z.eqb (h_opa_policy_version h) policy_version && Z.eqb (h_opa_load_status h) load_status then reg
  else mkRegion (mkShmHeader (h_router_uuid h) (h_generation h) (node_count_ h) now now
         (h_hive_id h) (h_hive_id_len h) (h_router_name h) (h_router_name_len h) (h_is_gateway h)
         policy_version load_status) (slots reg).

Definition named_header (router_uuid : Uuid) (hive_id router_name : string) (is_gateway : bool)
  (generation opa_policy_version opa_load_status now : Z) : ShmHeader :=
  let '(hive, hive_len) := copy_bytes_with_len 64 hive_id in
  let '(name, name_len) := copy_bytes_with_len 64 router_name in
  mkShmHeader router_uuid generation 0 now now hive hive_len name name_len
    (if is_gateway then 1 else 0) opa_policy_version opa_load_status.

(** [initialize_router_header] in a region of zeroes. *)
Definition initialize_router_header (router_uuid : Uuid) (hive_id router_name : string)
  (is_gateway : bool) (now : Z) : Region :=
  mkRegion (named_header router_uuid hive_id router_name is_gateway 1 0 0 now)
    (replicate (Z.to_nat MAX_NODES) empty_node_entry).

Definition take_over (router_uuid : Uuid) (hive_id router_name : string) (is_gateway : bool)
  (now : Z) (reg : Region) : Region :=
  mkRegion (named_header router_uuid hive_id router_name is_gateway
              (saturating_add64 (h_generation (hdr reg)) 1)
              (h_opa_policy_version (hdr reg)) (h_opa_load_status (hdr reg)) now)
    (map (fun _ => empty_node_entry) (slots reg)).

Definition registered_entry (node_uuid : Uuid) (name : string) (vpn_id connected_at : Z) : NodeEntry :=
  let '(bytes, len) := copy_bytes_with_len 256 name in
  mkNodeEntry node_uuid bytes (len mod 65536) vpn_id FLAG_ACTIVE connected_at.

Inductive ShmError := ValueTooLong (len max : Z) | SlotFull.

Definition register_node (node_uuid : Uuid) (name : string) (vpn_id connected_at now : Z) (reg : Region)
  : ShmError + Region :=
  let len := Z.of_nat (String.length name) in
  if (256 <? len)%Z then inl (ValueTooLong len 256)
  else
    let own_slot := position (holds_uuid node_uuid) (slots reg) in
    let slot := match own_slot with
      | Some i => Some i
      | None => position (fun e => negb (is_active e)) (slots reg)
      end in
    match slot with
    | None => inl SlotFull
    | Some i =>
      let nodes := <[i := registered_entry node_uuid name vpn_id connected_at]> (slots reg) in
      inr (mkRegion (counted (hdr reg) (count_active_nodes nodes) now) nodes)
    end.

Definition deleted_entry (_ : NodeEntry) : NodeEntry :=
  mkNodeEntry 0 (replicate 256 Byte.x00) 0 0 FLAG_DELETED 0.

Definition unregister_node (node_uuid : Uuid) (now : Z) (reg : Region) : Region :=
  let found := existsb (holds_uuid node_uuid) (slots reg) in
  let nodes := change_first (holds_uuid node_uuid) deleted_entry (slots reg) in
  mkRegion (if found then counted (hdr reg) (count_active_nodes nodes) now else hdr reg) nodes.

Definition with_vpn (vpn_id : Z) (e : NodeEntry) : NodeEntry :=
  mkNodeEntry (ne_uuid e) (ne_name e) (ne_name_len e) vpn_id (ne_flags e) (ne_connected_at e).

Definition update_node_vpn (node_uuid : Uuid) (vpn_id now : Z) (reg : Region) : Region :=
  let updated := existsb (holds_uuid node_uuid) (slots reg) in
  mkRegion (if updated then counted (hdr reg) (node_count reg) now else hdr reg)
    (change_first (holds_uuid node_uuid) (with_vpn vpn_id) (slots reg)).

(** The loop of [read_router_snapshot]: the active slots, up to [count] of them. *)
Definition read_loop (count : Z) : list NodeEntry -> list NodeEntry -> list NodeEntry :=
  fix go snapshot nodes :=
    match nodes with
    | [] => snapshot
    | node :: rest =>
      if (count <=? Z.of_nat (length snapshot))%Z then snapshot
      else go (if is_active node then snapshot ++ [node] else snapshot)%list rest
    end.

Record ShmHeaderSnapshot := mkShmHeaderSnapshot {
  s_router_uuid : Uuid; s_router_name : string; s_hive_id : string; s_is_gateway : bool;
  s_node_count : Z; s_heartbeat : Z; s_generation : Z; s_opa_policy_version : Z;
  s_opa_load_status : Z }.

Record ShmSnapshot := mkShmSnapshot { s_header : ShmHeaderSnapshot; s_nodes : list NodeEntry }.

Definition read_router_snapshot (reg : Region) : ShmSnapshot :=
  let h := hdr reg in
  mkShmSnapshot
    (mkShmHeaderSnapshot (h_router_uuid h) (bytes_to_string (h_router_name h) (h_router_name_len h))
       (bytes_to_string (h_hive_id h) (h_hive_id_len h)) (negb (Z.eqb (h_is_gateway h) 0))
       (node_count_ h) (h_heartbeat h) (h_generation h) (h_opa_policy_version h) (h_opa_load_status h))
    (read_loop (node_count reg) [] (slots reg)).

(** ** The regions of the sibling routers *)

(** A file of /dev/shm: its name, its owner and permission bits, and the region that opening
    it and reading it gives, if any. *)
Record ShmFile := mkShmFile {
  sf_name : string; sf_uid : Z; sf_mode : Z; sf_region : option Region }.

Record PeerRegion := mkPeerRegion {
  pg_router_uuid : Uuid; pg_is_gateway : bool; pg_nodes : list PeerNode }.

Definition region_owner_trusted (uid mode owner_uid : Z) : bool :=
  Z.eqb uid owner_uid && Z.eqb (Z.land mode 18) 0.

Definition HEARTBEAT_STALE_MS : Z := 30000.

Definition peer_node_of (router_uuid : Uuid) (node : NodeEntry) : list PeerNode :=
  if Z.eqb (ne_name_len node) 0 then []
  else if negb (Z.eqb (Z.land (ne_flags node) (Z.lor FLAG_DELETED FLAG_STALE)) 0) then []
  else [mkPeerNode (ne_uuid node) (bytes_to_string (ne_name node) (ne_name_len node)) (ne_vpn_id node)
          router_uuid].

(** The body of the loop of [discover_peer_regions] over the files. *)
Definition peer_region_of (self_uuid : Uuid) (self_shm_name hive_id : string) (own_uid now : Z)
  (f : ShmFile) : list PeerRegion :=
  let name := sf_name f in
  if negb (starts_with name "jsr-") then []
  else if starts_with name "jsr-config-" || starts_with name "jsr-lsa-" then []
  else if ("/" ++ name) =s self_shm_name then []
  else if negb (region_owner_trusted (sf_uid f) (sf_mode f) own_uid) then []
  else match sf_region f with
  | None => []
  | Some reg =>
    let snapshot := read_router_snapshot reg in
    let h := s_header snapshot in
    if negb (s_hive_id h =s hive_id) then []
    else if Z.eqb (s_router_uuid h) self_uuid then []
    else if (HEARTBEAT_STALE_MS <? saturating_sub now (s_heartbeat h))%Z then []
    else [mkPeerRegion (s_router_uuid h) (s_is_gateway h)
            (flat_map (peer_node_of (s_router_uuid h)) (s_nodes snapshot))]
  end.

Definition discover_peer_regions (self_uuid : Uuid) (self_shm_name hive_id : string) (own_uid now : Z)
  (files : list ShmFile) : list PeerRegion :=
  flat_map (peer_region_of self_uuid self_shm_name hive_id own_uid now) files.

(** ** The map it refines *)

Definition table_of (nodes : list NodeEntry) : gmap Uuid NodeEntry :=
  list_to_map (map (fun e => (ne_uuid e, e)) (List.filter is_active nodes)).

Definition table (reg : Region) : gmap Uuid NodeEntry := table_of (slots reg).

(** Active slots have distinct UUIDs and [node_count] of them there are. *)
Definition distinct_uuids (nodes : list NodeEntry) : Prop :=
  NoDup (map ne_uuid (List.filter is_active nodes)).

Record region_ok (reg : Region) : Prop := {
  ro_length : Z.of_nat (length (slots reg)) = MAX_NODES;
  ro_distinct : distinct_uuids (slots reg);
  ro_count : node_count reg = count_active_nodes (slots reg) }.

(** ** Slots *)

Lemma position_split {A} (f : A -> bool) l i : position f l = Some i ->
  exists l1 x l2, l = (l1 ++ x :: l2)%list /\ i = length l1 /\ f x = true /\ Forall (fun y => f y = false) l1.
Proof.
  revert i. induction l as [|y l IH]; intros i; cbn; [done|]. destruct (f y) eqn:Ef.
  - intros [= <-]. by exists [], y, l.
  - destruct (position f l) as [j|]; [|done]. intros [= <-].
    destruct (IH j eq_refl) as (l1 & x & l2 & -> & -> & Hx & Hl). exists (y :: l1), x, l2. by split_and!; auto.
Qed.

Lemma position_none {A} (f : A -> bool) l : position f l = None -> Forall (fun y => f y = false) l.
Proof.
  induction l as [|y l IH]; cbn; [auto|]. destruct (f y) eqn:Ef; [done|].
  destruct (position f l); [done|]. auto.
Qed.

(** Either no slot is of [f] and nothing changes, or the first one changes. *)
Lemma change_first_split {A} (f : A -> bool) change l :
  (existsb f l = false /\ Forall (fun y => f y = false) l /\ change_first f change l = l) \/
  exists l1 x l2, existsb f l = true /\ l = (l1 ++ x :: l2)%list /\ f x = true /\
    change_first f change l = (l1 ++ change x :: l2)%list.
Proof.
  induction l as [|y l IH]; cbn; [auto|]. destruct (f y) eqn:Ef; cbn.
  - right. by exists [], y, l.
  - destruct IH as [(He & Hl & ->)|(l1 & x & l2 & He & -> & Hx & ->)]; [auto|].
    right. by exists (y :: l1), x, l2.
Qed.

Lemma insert_mid {A} (l1 : list A) x y l2 : <[length l1 := y]> (l1 ++ x :: l2)%list = (l1 ++ y :: l2)%list.
Proof. rewrite insert_app_r_alt by lia. by rewrite Nat.sub_diag. Qed.

Lemma filter_mid {A} (f : A -> bool) l1 x l2 :
  List.filter f (l1 ++ x :: l2) = (List.filter f l1 ++ (if f x then [x] else []) ++ List.filter f l2)%list.
Proof. rewrite List.filter_app. cbn. by destruct (f x). Qed.

Lemma filter_drop {A} (f : A -> bool) l1 x l2 : f x = false ->
  List.filter f (l1 ++ x :: l2) = List.filter f (l1 ++ l2).
Proof. intros Hx. by rewrite filter_mid, Hx, List.filter_app. Qed.

Lemma table_of_drop l1 x l2 : is_active x = false -> table_of (l1 ++ x :: l2) = table_of (l1 ++ l2).
Proof. intros Hx. unfold table_of. by rewrite filter_drop. Qed.

Lemma distinct_mid l1 x l2 : is_active x = true -> distinct_uuids (l1 ++ x :: l2) <->
  ne_uuid x ∉ map ne_uuid (List.filter is_active (l1 ++ l2)) /\ distinct_uuids (l1 ++ l2).
Proof.
  intros Hx. unfold distinct_uuids. rewrite filter_mid, Hx, List.filter_app, !map_app. cbn.
  by rewrite <- NoDup_cons, Permutation_middle.
Qed.

Lemma table_of_uuid l u : u ∉ map ne_uuid (List.filter is_active l) -> table_of l !! u = None.
Proof.
  intros H. unfold table_of. apply not_elem_of_list_to_map. contradict H.
  apply list_elem_of_fmap in H as ([v e] & -> & H). apply list_elem_of_In, in_map_iff in H as (e' & [= <- ->] & H).
  apply list_elem_of_In, in_map_iff. by exists e.
Qed.

Lemma table_of_mid l1 x l2 : is_active x = true -> distinct_uuids (l1 ++ x :: l2) ->
  table_of (l1 ++ x :: l2) = <[ne_uuid x := x]> (table_of (l1 ++ l2)) /\ table_of (l1 ++ l2) !! ne_uuid x = None.
Proof.
  intros Hx Hd. pose proof Hd as Hd'. apply (distinct_mid l1 x l2 Hx) in Hd' as [Hn _].
  split; [|by apply table_of_uuid]. unfold table_of. rewrite filter_mid, Hx, List.filter_app, !map_app. cbn.
  rewrite <- list_to_map_cons. apply list_to_map_proper; [|symmetry; apply Permutation_middle].
  unfold distinct_uuids in Hd. rewrite filter_mid, Hx, !map_app in Hd. cbn in Hd.
  rewrite !fmap_app, fmap_cons, <- !list_fmap_compose. exact Hd.
Qed.

(** Rewriting one slot: a free one taken, an own one taken again or changed, one given up. *)
Lemma refill_slot l1 x y l2 : distinct_uuids (l1 ++ x :: l2) -> is_active x = true -> is_active y = true ->
  ne_uuid x = ne_uuid y ->
  distinct_uuids (l1 ++ y :: l2) /\
  table_of (l1 ++ y :: l2) = <[ne_uuid y := y]> (table_of (l1 ++ x :: l2)).
Proof.
  intros Hd Hx Hy Hu. assert (distinct_uuids (l1 ++ y :: l2)) as Hd'.
  { apply distinct_mid; [done|]. rewrite <- Hu. by apply distinct_mid in Hd. }
  split; [done|]. destruct (table_of_mid l1 x l2) as [-> _]; [done..|].
  destruct (table_of_mid l1 y l2) as [-> _]; [done..|]. by rewrite Hu, insert_insert_eq.
Qed.

Lemma fill_slot l1 x y l2 : distinct_uuids (l1 ++ x :: l2) -> is_active x = false -> is_active y = true ->
  Forall (fun e => holds_uuid (ne_uuid y) e = false) (l1 ++ x :: l2) ->
  distinct_uuids (l1 ++ y :: l2) /\
  table_of (l1 ++ y :: l2) = <[ne_uuid y := y]> (table_of (l1 ++ x :: l2)).
Proof.
  intros Hd Hx Hy Hn. assert (distinct_uuids (l1 ++ y :: l2)) as Hd'.
  { apply distinct_mid; [done|]. split.
    - intros (e & He & (Hin & Ha)%filter_In)%list_elem_of_In%in_map_iff. rewrite Forall_forall in Hn.
      apply list_elem_of_In in Hin. specialize (Hn e). unfold holds_uuid in Hn.
      rewrite Ha, He, Z.eqb_refl in Hn. discriminate Hn. set_solver.
    - unfold distinct_uuids in *. by rewrite filter_drop in Hd. }
  split; [done|]. rewrite (table_of_drop l1 x l2) by done. by destruct (table_of_mid l1 y l2) as [-> _].
Qed.

Lemma empty_slot l1 x y l2 : distinct_uuids (l1 ++ x :: l2) -> is_active x = true -> is_active y = false ->
  distinct_uuids (l1 ++ y :: l2) /\
  table_of (l1 ++ y :: l2) = delete (ne_uuid x) (table_of (l1 ++ x :: l2)).
Proof.
  intros Hd Hx Hy. rewrite (table_of_drop l1 y l2) by done. destruct (table_of_mid l1 x l2) as [-> Hn]; [done..|].
  rewrite delete_insert_id by done. split; [|done]. apply distinct_mid in Hd as [_ Hd]; [|done].
  unfold distinct_uuids in *. by rewrite filter_drop.
Qed.

Lemma holds_uuid_true u e : holds_uuid u e = true -> is_active e = true /\ ne_uuid e = u.
Proof. unfold holds_uuid. rewrite andb_true_iff, Z.eqb_eq. tauto. Qed.

Lemma table_of_elem l u e : distinct_uuids l ->
  table_of l !! u = Some e <-> e ∈ l /\ is_active e = true /\ ne_uuid e = u.
Proof.
  intros Hd. unfold table_of. rewrite <- elem_of_list_to_map.
  - rewrite list_elem_of_In, in_map_iff, list_elem_of_In. setoid_rewrite filter_In. naive_solver.
  - rewrite <- list_fmap_compose. exact Hd.
Qed.

Lemma table_of_none l u : Forall (fun e => holds_uuid u e = false) l -> table_of l !! u = None.
Proof.
  intros Hn. apply table_of_uuid. intros (e & He & (Hin & Ha)%filter_In)%list_elem_of_In%in_map_iff.
  rewrite Forall_forall in Hn. apply list_elem_of_In in Hin. specialize (Hn e Hin). unfold holds_uuid in Hn.
  by rewrite Ha, He, Z.eqb_refl in Hn.
Qed.

(** ** The operations on the map *)

Lemma registered_active u name vpn_id at_ : is_active (registered_entry u name vpn_id at_) = true.
Proof. done. Qed.

Lemma registered_uuid u name vpn_id at_ : ne_uuid (registered_entry u name vpn_id at_) = u.
Proof. done. Qed.

Lemma table_size nodes : distinct_uuids nodes -> Z.of_nat (size (table_of nodes)) = count_active_nodes nodes.
Proof.
  intros Hd. unfold count_active_nodes, table_of. f_equal.
  rewrite <- length_map_to_list, (map_to_list_to_map (map (fun e => (ne_uuid e, e)) _)).
  - apply List.length_map.
  - rewrite <- list_fmap_compose. exact Hd.
Qed.

Lemma all_active_count nodes : Forall (fun e => negb (is_active e) = false) nodes ->
  count_active_nodes nodes = Z.of_nat (length nodes).
Proof.
  intros H. unfold count_active_nodes. do 2 f_equal. induction H as [|e l He _ IH]; cbn; [done|].
  rewrite negb_false_iff in He. by rewrite He, IH.
Qed.

(** [register_node] on the map: the name must fit, a new UUID needs room. *)
Definition spec_register (u : Uuid) (name : string) (vpn_id connected_at : Z) (t : gmap Uuid NodeEntry)
  : ShmError + gmap Uuid NodeEntry :=
  let len := Z.of_nat (String.length name) in
  if (256 <? len)%Z then inl (ValueTooLong len 256)
  else match t !! u with
  | None => if (MAX_NODES <=? Z.of_nat (size t))%Z then inl SlotFull
            else inr (<[u := registered_entry u name vpn_id connected_at]> t)
  | Some _ => inr (<[u := registered_entry u name vpn_id connected_at]> t)
  end.

Definition on_table (r : ShmError + Region) : ShmError + gmap Uuid NodeEntry :=
  match r with inl e => inl e | inr reg => inr (table reg) end.

Lemma count_split_inactive l1 x l2 : is_active x = false ->
  (count_active_nodes (l1 ++ x :: l2) < Z.of_nat (length (l1 ++ x :: l2)))%Z.
Proof.
  intros Hx. unfold count_active_nodes. rewrite filter_drop by done. rewrite List.filter_app, !length_app. cbn.
  pose proof (List.filter_length_le is_active l1). pose proof (List.filter_length_le is_active l2). lia.
Qed.

Lemma register_node_spec u name vpn_id at_ now reg : region_ok reg ->
  on_table (register_node u name vpn_id at_ now reg) = spec_register u name vpn_id at_ (table reg) /\
  forall reg', register_node u name vpn_id at_ now reg = inr reg' -> region_ok reg'.
Proof.
  intros [Hl Hd Hc]. unfold register_node, spec_register, on_table, table. cbv zeta.
  destruct (256 <? _)%Z; [done|]. set (y := registered_entry u name vpn_id at_).
  destruct (position (holds_uuid u) (slots reg)) as [i|] eqn:Eo.
  - apply position_split in Eo as (l1 & x & l2 & Hs & -> & Hx & _).
    destruct (holds_uuid_true u x Hx) as [Ha Hu]. rewrite Hs in *. rewrite insert_mid.
    destruct (refill_slot l1 x y l2) as [Hd' Ht]; [done..|].
    assert (is_Some (table_of (l1 ++ x :: l2) !! u)) as [e0 He0].
    { exists x. apply table_of_elem; [done|]. set_solver. }
    rewrite He0. split; [cbn [slots]; by rewrite Ht|]. intros reg' [= <-]. split; cbn; [|done..].
    rewrite length_app in *. done.
  - apply position_none in Eo. rewrite (table_of_none _ _ Eo), (table_size _ Hd).
    destruct (position _ (slots reg)) as [i|] eqn:Ef.
    + apply position_split in Ef as (l1 & x & l2 & Hs & -> & Hx%negb_true_iff & _). rewrite Hs in *.
      rewrite insert_mid. destruct (fill_slot l1 x y l2) as [Hd' Ht]; [done..|].
      pose proof (count_split_inactive l1 x l2 Hx). rewrite (proj2 (Z.leb_gt _ _)) by lia.
      split; [cbn [slots]; by rewrite Ht|]. intros reg' [= <-]. split; cbn; [|done..].
      rewrite length_app in *. done.
    + apply position_none, all_active_count in Ef. rewrite Ef, Hl. done.
Qed.

Lemma unregister_node_spec u now reg : region_ok reg ->
  region_ok (unregister_node u now reg) /\ table (unregister_node u now reg) = delete u (table reg).
Proof.
  intros [Hl Hd Hc]. unfold unregister_node, table. cbv zeta. cbn [slots node_count].
  destruct (change_first_split (holds_uuid u) deleted_entry (slots reg))
    as [(He & Hn & Hs)|(l1 & x & l2 & He & Hs & Hx & Hch)].
  - rewrite Hs, He. split; [by split|]. by rewrite delete_id by (by apply table_of_none).
  - rewrite Hch, He. destruct (holds_uuid_true u x Hx) as [Ha <-]. rewrite Hs in *.
    destruct (empty_slot l1 x (deleted_entry x) l2) as [Hd' Ht]; [done..|].
    split; [|done]. split; cbn; [|done..]. rewrite length_app in *. done.
Qed.

Lemma update_node_vpn_spec u vpn_id now reg : region_ok reg ->
  region_ok (update_node_vpn u vpn_id now reg) /\
  table (update_node_vpn u vpn_id now reg) = alter (with_vpn vpn_id) u (table reg).
Proof.
  intros [Hl Hd Hc]. unfold update_node_vpn, table. cbn [slots node_count].
  destruct (change_first_split (holds_uuid u) (with_vpn vpn_id) (slots reg))
    as [(He & Hn & Hs)|(l1 & x & l2 & He & Hs & Hx & Hch)].
  - rewrite Hs, He. split; [by split|]. by rewrite alter_id' by (by apply table_of_none).
  - rewrite Hch, He. destruct (holds_uuid_true u x Hx) as [Ha <-]. rewrite Hs in *.
    destruct (refill_slot l1 x (with_vpn vpn_id x) l2) as [Hd' Ht]; [done..|].
    split.
    + split; cbn; [rewrite length_app in *; done|done|]. rewrite Hc.
      unfold count_active_nodes. rewrite !filter_mid. destruct x; cbn in *. unfold is_active in *. cbn in *.
      rewrite Ha. rewrite !length_app. done.
    + rewrite Ht. cbn. apply map_eq. intros v. destruct (decide (v = ne_uuid x)) as [->|Hv].
      * rewrite lookup_insert_eq, lookup_alter_eq. erewrite (proj2 (table_of_elem _ _ x Hd)); [done|]. set_solver.
      * by rewrite lookup_insert_ne, lookup_alter_ne.
Qed.

(** ** What a reader takes *)

Lemma read_loop_take count snapshot nodes :
  read_loop count snapshot nodes =
  (snapshot ++ take (Z.to_nat count - length snapshot) (List.filter is_active nodes))%list.
Proof.
  revert snapshot. induction nodes as [|e nodes IH]; intros snapshot; cbn.
  - by rewrite take_nil, app_nil_r.
  - destruct (Z.leb_spec count (Z.of_nat (length snapshot))).
    + replace (Z.to_nat count - length snapshot)%nat with O by lia. by rewrite take_0, app_nil_r.
    + rewrite IH. destruct (is_active e); [|done]. rewrite length_app. cbn.
      replace (Z.to_nat count - length snapshot)%nat
        with (S (Z.to_nat count - (length snapshot + 1)))%nat by lia. cbn. by rewrite <- app_assoc.
Qed.

(** A reader finds every active slot, none twice. *)
Lemma read_nodes_all reg : region_ok reg ->
  s_nodes (read_router_snapshot reg) ≡ₚ map snd (map_to_list (table reg)).
Proof.
  intros [_ Hd Hc]. cbn [s_nodes read_router_snapshot]. rewrite read_loop_take, Hc. unfold count_active_nodes.
  rewrite Nat2Z.id, Nat.sub_0_r, firstn_all. cbn. unfold table, table_of.
  rewrite (map_to_list_to_map (map (fun e => (ne_uuid e, e)) _)).
  - by rewrite map_map, map_id.
  - rewrite <- list_fmap_compose. exact Hd.
Qed.

(** ** Runs *)

Inductive RegionOp :=
| Register (u : Uuid) (name : string) (vpn_id connected_at : Z)
| Unregister (u : Uuid)
| UpdateVpn (u : Uuid) (vpn_id : Z)
| Heartbeat
| OpaStatus (policy_version load_status : Z)
| TakeOver (router_uuid : Uuid) (hive_id router_name : string) (is_gateway : bool).

(** One operation at a time; a refused registration leaves the region as it is. *)
Definition run_op (reg : Region) (op : RegionOp * Z) : Region :=
  let '(op, now) := op in
  match op with
  | Register u name vpn_id at_ =>
    match register_node u name vpn_id at_ now reg with inr reg' => reg' | inl _ => reg end
  | Unregister u => unregister_node u now reg
  | UpdateVpn u vpn_id => update_node_vpn u vpn_id now reg
  | Heartbeat => update_heartbeat now reg
  | OpaStatus v s => update_opa_status v s now reg
  | TakeOver u hive name gw => take_over u hive name gw now reg
  end.

(** The same on a map. *)
Definition spec_op (t : gmap Uuid NodeEntry) (op : RegionOp * Z) : gmap Uuid NodeEntry :=
  match fst op with
  | Register u name vpn_id at_ =>
    match spec_register u name vpn_id at_ t with inr t' => t' | inl _ => t end
  | Unregister u => delete u t
  | UpdateVpn u vpn_id => alter (with_vpn vpn_id) u t
  | Heartbeat | OpaStatus _ _ => t
  | TakeOver _ _ _ _ => ∅
  end.

Lemma no_active {A} (l : list A) : List.filter is_active (map (fun _ => empty_node_entry) l) = [].
Proof. by induction l. Qed.

Lemma new_region_ok u hive name gw now : region_ok (initialize_router_header u hive name gw now) /\
  table (initialize_router_header u hive name gw now) = ∅.
Proof. split; [split|]; vm_compute; constructor. Qed.

Lemma take_over_ok u hive name gw now reg : Z.of_nat (length (slots reg)) = MAX_NODES ->
  region_ok (take_over u hive name gw now reg) /\ table (take_over u hive name gw now reg) = ∅.
Proof.
  intros Hl. unfold take_over, table, table_of. cbn [slots]. rewrite no_active. split; [|done].
  split; unfold distinct_uuids, node_count, count_active_nodes; cbn [slots hdr]; rewrite ?no_active;
    [by rewrite List.length_map|constructor|done].
Qed.

Lemma heartbeat_ok now reg : region_ok reg -> region_ok (update_heartbeat now reg).
Proof. intros []. by split. Qed.

Lemma opa_status_ok v st now reg : region_ok reg ->
  region_ok (update_opa_status v st now reg) /\ table (update_opa_status v st now reg) = table reg.
Proof. unfold update_opa_status. destruct (_ && _); intros []; by repeat split. Qed.

Lemma run_op_spec reg op : region_ok reg ->
  region_ok (run_op reg op) /\ table (run_op reg op) = spec_op (table reg) op.
Proof.
  destruct op as [[u name vpn_id at_|u|u vpn_id| |v s|u hive name gw] now]; intros Hok; cbn [run_op spec_op fst].
  - destruct (register_node_spec u name vpn_id at_ now reg Hok) as [Hs Hr]. rewrite <- Hs.
    destruct (register_node _ _ _ _ _ _) as [e|reg']; cbn; auto.
  - by apply unregister_node_spec.
  - by apply update_node_vpn_spec.
  - split; [by apply heartbeat_ok|done].
  - by apply opa_status_ok.
  - apply take_over_ok, Hok.
Qed.

Lemma run_ops_spec ops reg : region_ok reg ->
  region_ok (fold_left run_op ops reg) /\
  table (fold_left run_op ops reg) = fold_left spec_op ops (table reg).
Proof.
  revert reg. induction ops as [|op ops IH]; intros reg Hok; [done|].
  cbn [fold_left]. destruct (run_op_spec reg op Hok) as [Hok' <-]. by apply IH.
Qed.

(** The node slots of a region implement a finite map. Whatever registrations,
    unregistrations, VPN changes, heartbeats and restarts a router writes to its region, in
    whatever order and with whatever holes they leave, the region stands for the map the
    same operations give: a registration replaces the node's own entry and is refused, with
    nothing written, exactly when the name is over 256 bytes or a new UUID finds
    [MAX_NODES] entries. A reader's snapshot holds each entry of the map once and nothing
    else, and the header's count is the map's size, at most [MAX_NODES]. *)
Theorem region_is_a_map u hive name gw start ops :
  let reg := fold_left run_op ops (initialize_router_header u hive name gw start) in
  let t := fold_left spec_op ops ∅ in
  table reg = t /\
  s_nodes (read_router_snapshot reg) ≡ₚ map snd (map_to_list t) /\
  s_node_count (s_header (read_router_snapshot reg)) = Z.of_nat (size t) /\
  (Z.of_nat (size t) <= MAX_NODES)%Z /\
  forall v n vpn_id at_ now,
    on_table (register_node v n vpn_id at_ now reg) = spec_register v n vpn_id at_ t.
Proof.
  intros reg t. destruct (new_region_ok u hive name gw start) as [Hok He].
  destruct (run_ops_spec ops _ Hok) as [Hok' Ht]. rewrite He in Ht. fold reg t in Ht, Hok'.
  pose proof Hok' as [Hl Hd Hc]. pose proof (table_size _ Hd) as Hsz. fold (table reg) in Hsz.
  rewrite Ht in Hsz. split_and!; [done|rewrite <- Ht; by apply read_nodes_all|..].
  - cbn [read_router_snapshot s_header s_node_count]. fold (node_count reg). congruence.
  - rewrite Hsz, <- Hl. unfold count_active_nodes. pose proof (List.filter_length_le is_active (slots reg)). lia.
  - intros. rewrite <- Ht. by apply register_node_spec.
Qed.

(** ** The header's router *)

Lemma register_header u name vpn_id at_ now reg reg' : register_node u name vpn_id at_ now reg = inr reg' ->
  h_router_uuid (hdr reg') = h_router_uuid (hdr reg).
Proof.
  unfold register_node. cbv zeta. destruct (_ <? _)%Z; [done|].
  destruct (match position _ _ with Some i => Some i | None => _ end); [|done]. by intros [= <-].
Qed.

Lemma unregister_header u now reg : h_router_uuid (hdr (unregister_node u now reg)) = h_router_uuid (hdr reg).
Proof. unfold unregister_node. cbv zeta. cbn [hdr]. by destruct (existsb _ _). Qed.

Lemma update_vpn_header u vpn_id now reg :
  h_router_uuid (hdr (update_node_vpn u vpn_id now reg)) = h_router_uuid (hdr reg).
Proof. unfold update_node_vpn. cbv zeta. cbn [hdr]. by destruct (existsb _ _). Qed.

Lemma opa_status_header v st now reg :
  h_router_uuid (hdr (update_opa_status v st now reg)) = h_router_uuid (hdr reg).
Proof. unfold update_opa_status. by destruct (_ && _). Qed.

(** ** A name read back *)

Lemma copied_back size s bytes len : is_str s -> (String.length s <= size)%nat ->
  copy_bytes_with_len size s = (bytes, len) ->
  bytes_to_string bytes len = s /\ len = Z.of_nat (String.length s).
Proof.
  intros Hs Hl. unfold copy_bytes_with_len. rewrite <- length_as_bytes in Hl |- *.
  rewrite take_ge by done. intros [= <- <-]. split; [|done]. unfold bytes_to_string.
  rewrite Nat2Z.id, take_app_length. by rewrite from_utf8_as_bytes.
Qed.

Lemma registered_name u name vpn_id at_ : is_str name -> (Z.of_nat (String.length name) <= 256)%Z ->
  let e := registered_entry u name vpn_id at_ in
  bytes_to_string (ne_name e) (ne_name_len e) = name /\ ne_name_len e = Z.of_nat (String.length name).
Proof.
  intros Hs Hl. unfold registered_entry. destruct (copy_bytes_with_len 256 name) as [bytes len] eqn:Ec.
  apply copied_back in Ec as [Hb ->]; [|done|lia]. cbn [ne_name ne_name_len].
  rewrite Z.mod_small by lia. by rewrite Hb.
Qed.

(** ** What a sibling makes of a region *)

Lemma read_nodes_elem reg e : region_ok reg ->
  e ∈ s_nodes (read_router_snapshot reg) <-> table reg !! ne_uuid e = Some e.
Proof.
  intros Hok. rewrite (read_nodes_all reg Hok), list_elem_of_In, in_map_iff. split.
  - intros ([u e'] & <- & He%list_elem_of_In%elem_of_map_to_list). cbn.
    pose proof He as He'. apply table_of_elem in He' as (_ & _ & ->); [done|apply Hok].
  - intros He. exists (ne_uuid e, e). split; [done|]. by apply list_elem_of_In, elem_of_map_to_list.
Qed.

Lemma peer_region_of_inv self shm hive uid now f g : g ∈ peer_region_of self shm hive uid now f ->
  exists reg, sf_region f = Some reg /\ region_owner_trusted (sf_uid f) (sf_mode f) uid = true /\
    g = mkPeerRegion (h_router_uuid (hdr reg)) (s_is_gateway (s_header (read_router_snapshot reg)))
          (flat_map (peer_node_of (h_router_uuid (hdr reg))) (s_nodes (read_router_snapshot reg))).
Proof.
  unfold peer_region_of. cbv zeta. destruct (negb (starts_with _ _)); [by intros ?%elem_of_nil|].
  destruct (_ || _); [by intros ?%elem_of_nil|]. destruct (_ =s shm); [by intros ?%elem_of_nil|].
  destruct (region_owner_trusted _ _ _); [|by intros ?%elem_of_nil].
  destruct (sf_region f) as [reg|]; [|by intros ?%elem_of_nil]. cbn [negb].
  repeat (case_match; [by intros ?%elem_of_nil|]). intros ->%list_elem_of_singleton. by exists reg.
Qed.

(** The nodes read from a region are its entries'. *)
Lemma peer_nodes_of_region reg r p : region_ok reg ->
  p ∈ flat_map (peer_node_of r) (s_nodes (read_router_snapshot reg)) ->
  exists e, table reg !! pn_uuid p = Some e /\ pn_router_uuid p = r /\ pn_vpn_id p = ne_vpn_id e /\
    pn_name p = bytes_to_string (ne_name e) (ne_name_len e).
Proof.
  intros Hok (e & He & Hp)%list_elem_of_In%in_flat_map. apply list_elem_of_In in He, Hp.
  apply read_nodes_elem in He; [|done]. unfold peer_node_of in Hp.
  destruct (Z.eqb _ 0); [by apply elem_of_nil in Hp|]. destruct (negb _); [by apply elem_of_nil in Hp|].
  apply list_elem_of_singleton in Hp as ->. by exists e.
Qed.

Lemma registered_peer_node reg r u name vpn_id at_ : region_ok reg -> is_str name -> name <> EmptyString ->
  (Z.of_nat (String.length name) <= 256)%Z -> table reg !! u = Some (registered_entry u name vpn_id at_) ->
  mkPeerNode u name vpn_id r ∈ flat_map (peer_node_of r) (s_nodes (read_router_snapshot reg)).
Proof.
  intros Hok Hs Hne Hl He. apply list_elem_of_In, in_flat_map. exists (registered_entry u name vpn_id at_).
  destruct (registered_name u name vpn_id at_ Hs Hl) as [Hn Hlen]. split.
  - apply list_elem_of_In, read_nodes_elem; [done|]. by rewrite registered_uuid.
  - unfold peer_node_of. rewrite Hn, Hlen. destruct (Z.eqb_spec (Z.of_nat (String.length name)) 0) as [Hz|].
    { by destruct name. }
    cbn. by left.
Qed.
