(* ===== verification/Router.v ===== *)
(** * The router's message handlers

    [handle_message], [handle_wan_message] and [handle_peer_message] of
    src/src/router/mod.rs, which take a frame of a node's socket, of another hive's
    gateway and of a sibling router. A handler writes its effects, in order, and may end
    early ([return Ok(())]) or with an error ([?]): the monad of the section below. The
    tables it reads are the fields of [Router]; a [HashMap] is iterated in the order of
    its [gmap]. Each handler is one step: the tables do not change while it runs. *)

From Stdlib Require Import ZArith Lia Ascii String.
From stdpp Require Import base list strings gmap sorting.
From S2P Require Import Prelude Protocol Policy Glob Gates Delivery Fib Lsa Identity.
Open Scope string_scope.

(** ** State *)

Record PeerRouter := mkPeerRouter { pr_uuid : Uuid; pr_is_gateway : bool }.

(** The shared tables of a router; [r_peers] and [r_wan_peers] are the sibling routers and
    the hives with a live connection, [r_seen] the broadcast cache. *)
Record Router := mkRouter {
  r_nodes : gmap Uuid NodeHandle;
  r_peer_nodes : gmap Uuid PeerNode;
  r_peer_routers : gmap Uuid PeerRouter;
  r_peers : gset Uuid;
  r_wan_peers : gset string;
  r_fib : list FibEntry;
  r_static_routes : list StaticRoute;
  r_vpn_rules : list VpnAssignment;
  r_tap_rules : list TapEntry;
  r_seen : gmap Uuid Z;
  r_lsa_seq : Z;
  r_lsa_state : gmap string RemoteHiveState;
  r_lsa_snapshot : option LsaSnapshot;
  r_reachability : gmap Uuid ReachabilityEntry }.

Definition set_seen (r : Router) (seen : gmap Uuid Z) : Router :=
  mkRouter (r_nodes r) (r_peer_nodes r) (r_peer_routers r) (r_peers r) (r_wan_peers r) (r_fib r)
    (r_static_routes r) (r_vpn_rules r) (r_tap_rules r) seen (r_lsa_seq r) (r_lsa_state r)
    (r_lsa_snapshot r) (r_reachability r).

Definition set_lsa (r : Router) (state : gmap string RemoteHiveState) (snapshot : option LsaSnapshot)
  : Router :=
  mkRouter (r_nodes r) (r_peer_nodes r) (r_peer_routers r) (r_peers r) (r_wan_peers r) (r_fib r)
    (r_static_routes r) (r_vpn_rules r) (r_tap_rules r) (r_seen r) (r_lsa_seq r) state snapshot
    (r_reachability r).

(** The FIB of the tables: [rebuild_fib]. *)
Definition rebuilt (r : Router) : Router :=
  mkRouter (r_nodes r) (r_peer_nodes r) (r_peer_routers r) (r_peers r) (r_wan_peers r)
    (rebuild_fib (map_to_list (r_nodes r)) (map_to_list (r_peer_nodes r)) (r_static_routes r)
       (r_lsa_snapshot r) (map snd (map_to_list (r_reachability r))))
    (r_static_routes r) (r_vpn_rules r) (r_tap_rules r) (r_seen r) (r_lsa_seq r) (r_lsa_state r)
    (r_lsa_snapshot r) (r_reachability r).

Definition set_reachability (r : Router) (table : gmap Uuid ReachabilityEntry) : Router :=
  mkRouter (r_nodes r) (r_peer_nodes r) (r_peer_routers r) (r_peers r) (r_wan_peers r) (r_fib r)
    (r_static_routes r) (r_vpn_rules r) (r_tap_rules r) (r_seen r) (r_lsa_seq r) (r_lsa_state r)
    (r_lsa_snapshot r) table.

(** [refresh_lsa]; [region] is what [read_lsa_snapshot_for_routing] gives. *)
Definition refresh_lsa (region : option LsaSnapshot) (r : Router) : Router :=
  match region with
  | Some s => rebuilt (set_lsa r (r_lsa_state r) (Some s))
  | None => r
  end.

(** ** The broadcast cache *)

Definition BROADCAST_CACHE_TTL_MS : Z := 30000.

(** [BroadcastCache::check_and_add]. *)
Definition check_and_add (seen : gmap Uuid Z) (now : Z) (trace_id : Uuid) : bool * gmap Uuid Z :=
  let seen := filter (fun '(_, ts) => (saturating_sub now ts <= BROADCAST_CACHE_TTL_MS)%Z) seen in
  match seen !! trace_id with
  | Some _ => (false, seen)
  | None => (true, <[trace_id := now]> seen)
  end.

(** ** Effects *)

(** The writing end of a connection's channel. *)
Inductive Chan := NodeCh (u : Uuid) | PeerCh (u : Uuid) | WanCh (hive : string).

Section Effects.
Context {V : Type}.

Inductive Effect :=
| Send (c : Chan) (m : Message V)
| Delivery (c : Chan) (node : string) (data : list byte)
| CognitionTurn (node : string) (data : list byte).

(** How a piece of a handler ends: it goes on, [return Ok(())], or an error. *)
Inductive Flow {A : Type} := Next (a : A) | Return | Error.

Definition M (A : Type) : Type := list Effect * @Flow A.

Definition ret {A} (a : A) : M A := ([], Next a).
Definition return_ok {A} : M A := ([], Return).
Definition error {A} : M A := ([], Error).
Definition emit (e : Effect) : M unit := ([e], Next tt).

Definition bind {A B} (c : M A) (f : A -> M B) : M B :=
  match c with
  | (w, Next a) => let '(w', r) := f a in ((w ++ w')%list, r)
  | (w, Return) => (w, Return)
  | (w, Error) => (w, Error)
  end.

(** [let _ = c]: an error is dropped. *)
Definition ignore {A} (c : M A) : M unit := (fst c, Next tt).

End Effects.
Arguments Effect : clear implicits.
Arguments M : clear implicits.
Arguments Flow : clear implicits.

Declare Scope router_scope.
Delimit Scope router_scope with router.
Notation "'let*' x ':=' c 'in' k" := (bind c (fun x => k))
  (at level 10, x name, c at level 100, k at level 200) : router_scope.
Notation "c ';;' k" := (bind c (fun _ => k)) (at level 100, right associativity) : router_scope.
Open Scope router_scope.

(** ** Sending *)

(** The code the router calls, and the router itself. *)
Record Env {V : Type} := mkEnv {
  (** The uuid crate and serde_json. *)
  e_parse_uuid : string -> option Uuid;
  e_uuid_to_string : Uuid -> string;
  e_json_unreachable : UnreachablePayload -> V;
  e_json_ttl_exceeded : TtlExceededPayload -> V;
  e_to_vec : Message V -> option (list byte);
  e_turn_len : MemoryTurn -> option Z;
  (** What the payloads of the LSA, reachability and reload messages parse to. *)
  e_lsa_of_value : V -> option LsaPayload;
  e_reachability_of_value : V -> option WanReachabilityPayload;
  e_is_reload_payload : V -> bool;
  (** The compiled system policy. *)
  e_evaluate_allow : string -> option string -> string -> option bool;
  e_evaluate_route : bool -> option string -> option bool;
  (** A context with one more trace entry ([message_trace::append]): its sender, its target. *)
  e_trace_context : option V -> string -> option string -> option V;
  (** [Uuid::new_v4] for a tap's copy. *)
  e_new_trace_id : string -> string;
  e_hive_id : string;
  e_frontdesk : string;
  e_router_name : string;
  e_router_uuid : Uuid;
  e_is_gateway : bool }.
Arguments Env : clear implicits.

(** What a router finds as it handles a frame: the clock, in milliseconds and as text, the
    memory, identity and LSA regions, and the hive's policy. *)
Record Moment {V : Type} := mkMoment {
  w_now : Z;
  w_now_text : string;
  w_memory : option MemoryShmSnapshot;
  w_identity : option IdentitySnapshot;
  w_region : option LsaSnapshot;
  w_resolve_user : Message V -> option IdentitySnapshot -> option (option string) }.
Arguments Moment : clear implicits.

Section Handlers.
Context {V : Type} (E : Env V) (w : Moment V).

#[local] Abbreviation parse_uuid := (e_parse_uuid E).
#[local] Abbreviation uuid_to_string := (e_uuid_to_string E).
#[local] Abbreviation to_vec := (e_to_vec E).
#[local] Abbreviation evaluate_allow := (e_evaluate_allow E).
#[local] Abbreviation hive_id := (e_hive_id E).
#[local] Abbreviation router_uuid := (e_router_uuid E).
#[local] Abbreviation is_gateway := (e_is_gateway E).
#[local] Abbreviation own_router_name := (e_router_name E).
#[local] Abbreviation now := (w_now w).

Implicit Types (m : Message V) (r : Router).

Definition send (c : Chan) m : M V unit :=
  match to_vec m with Some _ => emit (Send c m) | None => error end.

Definition original_dst_of m : string :=
  match dst (routing m) with Unicast value => value | Broadcast => "broadcast" | Resolve => "null" end.

Definition router_name : string := "router:" ++ uuid_to_string router_uuid.

Definition unreachable_reply m (reason : string) : Message V :=
  build_unreachable (e_json_unreachable E) (uuid_to_string router_uuid) (src (routing m))
    (trace_id (routing m)) (original_dst_of m) reason.

Definition ttl_exceeded_reply m : Message V :=
  build_ttl_exceeded (e_json_ttl_exceeded E) (uuid_to_string router_uuid) (src (routing m))
    (trace_id (routing m)) (original_dst_of m) router_name.

Definition send_unreachable_to m (sender : Chan) (reason : string) : M V unit :=
  send sender (unreachable_reply m reason).

Definition send_ttl_exceeded_to m (sender : Chan) : M V unit := send sender (ttl_exceeded_reply m).

(** The copy a router forwards. *)
Definition forwarded m : Message V :=
  if Z.ltb 0 (ttl (routing m)) then set_ttl m (saturating_sub (ttl (routing m)) 1) else m.

Definition send_to_peer_router r (peer_uuid : Uuid) m : M V bool :=
  if bool_decide (peer_uuid ∈ r_peers r)
  then send (PeerCh peer_uuid) (forwarded m) ;; ret true
  else ret false.

Definition send_to_wan_peer r (hive : string) m : M V bool :=
  if bool_decide (hive ∈ r_wan_peers r)
  then send (WanCh hive) (forwarded m) ;; ret true
  else ret false.

(** One serialization, then the copies. *)
Definition send_all (l : list Chan) m : M V unit :=
  match l with
  | [] => ret tt
  | _ => match to_vec m with Some _ => (map (fun c => Send c m) l, Next tt) | None => error end
  end.

Definition broadcast_to_peers r m : M V unit :=
  send_all (map PeerCh (elements (r_peers r))) (forwarded m).

Definition broadcast_to_wan r m : M V unit :=
  send_all (map WanCh (elements (r_wan_peers r))) (forwarded m).

(** The hive's gateway, as the router knows it. *)
Definition gateway_uuid r : option Uuid :=
  option_map pr_uuid (List.find pr_is_gateway (map snd (map_to_list (r_peer_routers r)))).

Definition forward_to_hive r (hive : string) m (gateway : bool) (sender : Chan) : M V unit :=
  if Z.leb (ttl (routing m)) 1 then send_ttl_exceeded_to m sender
  else if gateway then
    let* sent := send_to_wan_peer r hive m in
    if sent then ret tt else send_unreachable_to m sender "WAN_UNAVAILABLE"
  else match gateway_uuid r with
  | None => send_unreachable_to m sender "GATEWAY_UNAVAILABLE"
  | Some gateway_uuid =>
    let* sent := send_to_peer_router r gateway_uuid m in
    if sent then ret tt else send_unreachable_to m sender "GATEWAY_UNAVAILABLE"
  end.

Definition forward_broadcast_to_wan r m (gateway : bool) (sender : Chan) : M V unit :=
  if Z.leb (ttl (routing m)) 2 then ret tt
  else if gateway then broadcast_to_wan r m
  else match gateway_uuid r with
  | None => send_unreachable_to m sender "GATEWAY_UNAVAILABLE"
  | Some gateway_uuid => let* _ := send_to_peer_router r gateway_uuid m in ret tt
  end.

(** ** Routing *)

(** A delivery to a local node: its channel and its name. *)
Abbreviation LocalDelivery := (Chan * string)%type.

(** What goes back on a connection that may have gone. *)
Definition on_reply (reply : option Chan) (f : Chan -> M V unit) : M V unit :=
  match reply with Some sender => f sender | None => ret tt end.

Definition vpn_open (s : NodeHandle) m (name : string) (vpn : Z) : bool :=
  vpn_allows_between (meta m) (nh_name s) (nh_vpn_id s) name vpn.

Definition deliver_or_block (reply : option Chan) (s : NodeHandle) m (u : Uuid) (h : NodeHandle)
  : M V (list LocalDelivery) :=
  if vpn_open s m (nh_name h) (nh_vpn_id h) then ret [(NodeCh u, nh_name h)]
  else on_reply reply (fun sender => send_unreachable_to m sender "VPN_BLOCKED") ;; ret [].

(** A UUID of another hive: of the LSA, else vouched for by the hub. *)
Definition unicast_remote r (reply : option Chan) (s : NodeHandle) m (u : Uuid) (gateway : bool)
  : M V (list LocalDelivery) :=
  let remote := match find_remote_node (r_lsa_snapshot r) u with
    | Some info => Some info
    | None => find_reachable_node (r_reachability r) u
    end in
  match remote with
  | Some remote =>
    if vpn_open s m (ri_name remote) (ri_vpn_id remote)
    then on_reply reply (fun sender => forward_to_hive r (ri_next_hop_hive remote) m gateway sender) ;; ret []
    else on_reply reply (fun sender => send_unreachable_to m sender "VPN_BLOCKED") ;; ret []
  | None => on_reply reply (fun sender => send_unreachable_to m sender "NODE_NOT_FOUND") ;; ret []
  end.

(** To a sibling router: the arms of [handle_message] and [handle_wan_message]. *)
Definition forward_router r (sender : Chan) m (peer_uuid : Uuid) : M V (list LocalDelivery) :=
  if Z.leb (ttl (routing m)) 1 then send_ttl_exceeded_to m sender ;; return_ok
  else let* sent := send_to_peer_router r peer_uuid m in
    if sent then return_ok else send_unreachable_to m sender "PEER_UNAVAILABLE" ;; ret [].

(** The same arm of [handle_peer_message]. *)
Definition peer_forward_router r m (peer_uuid : Uuid) : M V (list LocalDelivery) :=
  (if bool_decide (peer_uuid ∈ r_peers r) && Z.leb (ttl (routing m)) 1
   then send_ttl_exceeded_to m (PeerCh peer_uuid) ;; return_ok
   else ret tt) ;;
  let* sent := send_to_peer_router r peer_uuid m in
  if sent then return_ok
  else if bool_decide (peer_uuid ∈ r_peers r)
  then send_unreachable_to m (PeerCh peer_uuid) "PEER_UNAVAILABLE" ;; ret []
  else ret [].

(** A UUID that is not a local node's: a sibling router's, else another hive's. *)
Definition unicast_elsewhere r (sender : Chan) (s : NodeHandle) m (u : Uuid) (gateway : bool)
  : M V (list LocalDelivery) :=
  match r_peer_nodes r !! u with
  | Some peer_node =>
    if vpn_open s m (pn_name peer_node) (pn_vpn_id peer_node)
    then forward_router r sender m (pn_router_uuid peer_node)
    else send_unreachable_to m sender "VPN_BLOCKED" ;; ret []
  | None => unicast_remote r (Some sender) s m u gateway
  end.

(** The match on what a name resolves to; [to_router] is the [ForwardRouter] arm. *)
Definition by_name r (reply : option Chan) (s : NodeHandle) m (target : string) (gateway : bool)
  (to_router : Uuid -> M V (list LocalDelivery)) : M V (list LocalDelivery) :=
  match resolve_by_name (r_nodes r) s (meta m) (r_fib r) target with
  | RouteDrop => ret []
  | RouteUnreachable reason => on_reply reply (fun sender => send_unreachable_to m sender reason) ;; ret []
  | RouteDeliver u =>
    match r_nodes r !! u with
    | Some h => deliver_or_block reply s m u h
    | None => on_reply reply (fun sender => send_unreachable_to m sender "NODE_NOT_FOUND") ;; ret []
    end
  | RouteForwardRouter peer_uuid => to_router peer_uuid
  | RouteForwardHive hive =>
    on_reply reply (fun sender => forward_to_hive r hive m gateway sender) ;; ret []
  end.

(** The loop of a broadcast over the local nodes. *)
Definition broadcast_targets r (src_uuid : Uuid) (s : NodeHandle) m : list LocalDelivery :=
  map (fun '(u, h) => (NodeCh u, nh_name h))
    (List.filter (fun '(u, h) =>
       negb (Z.eqb u src_uuid)
       && vpn_allows_broadcast_between (meta m) (nh_name s) (nh_vpn_id s) (nh_name h) (nh_vpn_id h)
       && match target (meta m) with Some pattern => pattern_match pattern (nh_name h) | None => true end)
       (map_to_list (r_nodes r))).

(** The target of a [Resolve], or the end of the handler. *)
Definition resolved_target (reply : option Chan) m : M V string :=
  match resolve_target_with_identity parse_uuid uuid_to_string (e_evaluate_route E) (w_resolve_user w) (w_identity w)
          (e_frontdesk E) now m with
  | None => on_reply reply (fun sender => send_unreachable_to m sender "OPA_ERROR") ;; return_ok
  | Some None => on_reply reply (fun sender => send_unreachable_to m sender "OPA_NO_TARGET") ;; return_ok
  | Some (Some target) => ret target
  end.

(** [deliver_locally]: the frames on the channels of the deliveries, then the error if it
    ended with one. *)
Definition deliver (deliveries : list LocalDelivery) m (src_via_hub : bool) : M V unit :=
  let d := deliver_locally to_vec (e_turn_len E) evaluate_allow (w_memory w) (map snd deliveries) m hive_id src_via_hub in
  ((zip_with (fun '(c, _) '(node, data) => Delivery c node data) deliveries (sent d)
    ++ map (fun '(node, data) => CognitionTurn node data) (cognition_turns d))%list,
   if failed d then Error else Next tt).

(** ** Taps *)

(** The name of a message's destination: a UUID's node, of this router, of a sibling, or
    of the LSA; empty when it is none's. *)
Definition tap_dst_name r (dst_label : string) : string :=
  match parse_uuid dst_label with
  | None => dst_label
  | Some u =>
    match r_nodes r !! u, r_peer_nodes r !! u with
    | Some h, _ => nh_name h
    | None, Some n => pn_name n
    | None, None => unwrap_or "" (option_map ri_name (find_remote_node (r_lsa_snapshot r) u))
    end
  end.

Definition config_tap_target (src_name dst_name : string) (t : TapEntry) : list string :=
  if Z.eqb (te_enabled t) 0 then []
  else if negb (bytes_to_string (te_match_src t) (te_match_src_len t) =s src_name)
          || negb (bytes_to_string (te_match_dst t) (te_match_dst_len t) =s dst_name) then []
  else let target := bytes_to_string (te_target t) (te_target_len t) in
    if str_is_empty target then [] else [target].

Definition lsa_tap_target (snapshot : LsaSnapshot) (src_name dst_name : string) (t : RemoteTapEntry)
  : list string :=
  if Z.eqb (rt_enabled t) 0 then []
  else if negb (Z.eqb (rt_flags t) 0) && Z.eqb (Z.land (rt_flags t) FLAG_ACTIVE) 0 then []
  else if negb (bytes_to_string (rt_match_src t) (rt_match_src_len t) =s src_name)
          || negb (bytes_to_string (rt_match_dst t) (rt_match_dst_len t) =s dst_name) then []
  else if negb (lsa_tap_applies snapshot t src_name dst_name) then []
  else let target := bytes_to_string (rt_target t) (rt_target_len t) in
    if str_is_empty target then [] else [target].

Definition tap_targets r (taps : list TapEntry) (src_name dst_name : string) : list string :=
  dedup (sort_by String.compare
    (flat_map (config_tap_target src_name dst_name) taps
     ++ match r_lsa_snapshot r with
        | Some s => flat_map (lsa_tap_target s src_name dst_name) (ls_taps s)
        | None => []
        end)%list).

Definition tap_copy m (tap_target : string) : Message V :=
  with_meta (with_routing m (set_routing_dst_trace (routing m) (Unicast tap_target) ((e_new_trace_id E) tap_target)))
    (set_via_tap (meta m) true).

(** One tap's copy; the copy's failures are dropped. *)
Definition fanout_tap r (src_uuid : Uuid) (s : NodeHandle) m (tap_target : string) : M V unit :=
  let copy := tap_copy m tap_target in
  match resolve_by_name (r_nodes r) s (meta copy) (r_fib r) tap_target with
  | RouteDrop | RouteUnreachable _ => ret tt
  | RouteDeliver u =>
    match r_nodes r !! u with
    | None => ret tt
    | Some h =>
      if vpn_open s copy (nh_name h) (nh_vpn_id h) then
        match serialize_for_local_delivery to_vec (e_turn_len E) evaluate_allow (w_memory w) hive_id copy false
                (nh_name h) with
        | Some (Some data) => emit (Delivery (NodeCh u) (nh_name h) data)
        | _ => ret tt
        end
      else ret tt
    end
  | RouteForwardRouter peer_uuid =>
    if Z.leb (ttl (routing copy)) 1 then ret tt else ignore (send_to_peer_router r peer_uuid copy)
  | RouteForwardHive hive => ignore (forward_to_hive r hive copy is_gateway (NodeCh src_uuid))
  end.

Fixpoint each {A} (f : A -> M V unit) (l : list A) : M V unit :=
  match l with [] => ret tt | a :: rest => f a ;; each f rest end.

Definition fanout_taps_for_unicast r (taps : list TapEntry) (src_uuid : Uuid) (s : NodeHandle) m
  (dst_label : string) : M V unit :=
  let src_name := unwrap_or "" (src_l2_name (routing m)) in
  let dst_name := tap_dst_name r dst_label in
  if str_is_empty src_name || str_is_empty dst_name then ret tt
  else each (fanout_tap r src_uuid s m) (tap_targets r taps src_name dst_name).

(** The end of [handle_message]: [taps] are the configuration snapshot's, if there is one. *)
Definition tap_fanout r (taps : option (list TapEntry)) (src_uuid : Uuid) (s : NodeHandle) m
  : M V unit :=
  if via_tap (meta m) then ret tt
  else match dst (routing m), taps with
  | Unicast dst_label, Some ((_ :: _) as taps) => fanout_taps_for_unicast r taps src_uuid s m dst_label
  | _, _ => ret tt
  end.

(** ** A frame of a local node *)

(** [message_trace::write_entry] with the resolved target. *)
Definition write_entry m (from to : string) : Message V :=
  let from := trim from in
  if str_is_empty from || negb (is_solution_kind (msg_type (meta m))) then m
  else
    let to := let t := trim to in
      if str_is_empty t then
        match dst (routing m) with
        | Unicast value =>
          match parse_uuid value with
          | None => let v := trim value in if str_is_empty v then None else Some v
          | Some _ => None
          end
        | Broadcast => Some "broadcast"
        | Resolve => None
        end
      else Some t in
    with_meta m (set_context (meta m) ((e_trace_context E) (context (meta m)) from to)).

Definition frame_is_from_connection m (node_uuid : Uuid) : bool :=
  match parse_uuid (src (routing m)) with Some u => Z.eqb u node_uuid | None => false end.

Definition node_unicast r (src_uuid : Uuid) (s : NodeHandle) m (d : string) : M V (list LocalDelivery) :=
  match parse_uuid d with
  | Some u =>
    match r_nodes r !! u with
    | Some h => deliver_or_block (Some (NodeCh src_uuid)) s m u h
    | None => unicast_elsewhere r (NodeCh src_uuid) s m u is_gateway
    end
  | None => by_name r (Some (NodeCh src_uuid)) s m d is_gateway (forward_router r (NodeCh src_uuid) m)
  end.

Definition node_broadcast r (src_uuid : Uuid) (s : NodeHandle) m : M V (list LocalDelivery) :=
  (if Z.leb 2 (ttl (routing m)) then broadcast_to_peers r m else ret tt) ;;
  (if Z.leb 3 (ttl (routing m)) then forward_broadcast_to_wan r m is_gateway (NodeCh src_uuid) else ret tt) ;;
  ret (broadcast_targets r src_uuid s m).

(** The first time a broadcast is seen: the rest of its handling, on the cache as it is
    then. *)
Definition once r m (k : M V unit) : M V unit * Router :=
  match parse_uuid (trace_id (routing m)) with
  | None => (ret tt, r)
  | Some t =>
    let '(fresh, seen) := check_and_add (r_seen r) now t in
    (if fresh then k else ret tt, set_seen r seen)
  end.

Definition handle_message r (taps : option (list TapEntry)) m : M V unit * Router :=
  match parse_uuid (src (routing m)) with
  | None => (ret tt, r)
  | Some src_uuid =>
    match r_nodes r !! src_uuid with
    | None => (ret tt, r)
    | Some s =>
      let m := set_src_l2_name m (Some (nh_name s)) in
      if Z.eqb (ttl (routing m)) 0 then (send_ttl_exceeded_to m (NodeCh src_uuid), r)
      else match dst (routing m) with
      | Unicast d =>
        (let* senders := node_unicast r src_uuid s m d in
         deliver senders m false ;; tap_fanout r taps src_uuid s m, r)
      | Broadcast =>
        once r m (let* senders := node_broadcast r src_uuid s m in
                  deliver senders m false ;; tap_fanout r taps src_uuid s m)
      | Resolve =>
        (let* target := resolved_target (Some (NodeCh src_uuid)) m in
         let m := write_entry m own_router_name target in
         let* senders := by_name r (Some (NodeCh src_uuid)) s m target is_gateway
                           (forward_router r (NodeCh src_uuid) m) in
         deliver senders m false ;; tap_fanout r taps src_uuid s m, r)
      end
    end
  end.

(** ** A frame of another hive's gateway *)

(** An error report for a local node, handed over as it is. *)
Definition pass_report r m : M V unit :=
  match dst (routing m) with
  | Unicast d =>
    match parse_uuid d with
    | Some u => match r_nodes r !! u with Some _ => send (NodeCh u) m | None => ret tt end
    | None => ret tt
    end
  | _ => ret tt
  end.

Definition is_report m : bool :=
  opt_str_is (msg (meta m)) MSG_UNREACHABLE || opt_str_is (msg (meta m)) MSG_TTL_EXCEEDED.

Definition own_state r : RemoteHiveState :=
  self_state (build_local_lsa_payload uuid_to_string router_uuid own_router_name hive_id (r_lsa_seq r)
    (map snd (map_to_list (node_map uuid_to_string (r_nodes r) (r_peer_nodes r)))) (r_static_routes r)
    (r_vpn_rules r) (r_tap_rules r) (w_now_text w)) router_uuid now.

(** The LSA arm. *)
Definition take_lsa r (peer_hive : string) (peer_router_uuid : Uuid) (peer_router_name : string)
  (session_epoch : Z) m : Router :=
  match (e_lsa_of_value E) (msg_payload m) with
  | None => r
  | Some payload =>
    match apply_lsa_payload parse_uuid (r_lsa_state r) (local_node_uuids (r_nodes r) (r_peer_nodes r))
            peer_hive peer_router_uuid peer_router_name session_epoch payload now with
    | (state, LsaApplied _ _) =>
      set_lsa r state (write_lsa_state parse_uuid hive_id (own_state r) state (r_lsa_snapshot r))
    | (state, LsaRejected _ _ _ _ _) => set_lsa r state (r_lsa_snapshot r)
    end
  end.

(** The reachability arm: the FIB is rebuilt when the advertisement is taken. *)
Definition take_reachability r (peer_hive : string) m : Router :=
  let payload := (e_reachability_of_value E) (msg_payload m) in
  let taken := lsa_listed_uuids (r_lsa_snapshot r) ∪ local_node_uuids (r_nodes r) (r_peer_nodes r) in
  let table := apply_wan_reachability parse_uuid evaluate_allow hive_id taken (r_reachability r) peer_hive
                 payload now in
  let accepted := wan_reachability_voucher_allowed evaluate_allow peer_hive
    && match payload with Some p => wp_origin_hive p =s peer_hive | None => false end in
  if accepted then rebuilt (set_reachability r table) else set_reachability r table.

Definition wan_unicast r (sender : Chan) (s : NodeHandle) m (d : string) : M V (list LocalDelivery) :=
  match parse_uuid d with
  | Some u =>
    match r_nodes r !! u with
    | Some h => deliver_or_block (Some sender) s m u h
    | None => unicast_elsewhere r sender s m u true
    end
  | None => by_name r (Some sender) s m d true (forward_router r sender m)
  end.

Definition wan_broadcast r (src_uuid : Uuid) (s : NodeHandle) m : M V (list LocalDelivery) :=
  (if Z.leb 2 (ttl (routing m)) then broadcast_to_peers r m else ret tt) ;;
  (if Z.leb 3 (ttl (routing m)) then broadcast_to_wan r m else ret tt) ;;
  ret (broadcast_targets r src_uuid s m).

(** What a resolved source sends, once stamped. *)
Definition handle_wan_data r (sender : Chan) (src_uuid : Uuid) (info : RemoteNodeInfo) m
  : M V unit * Router :=
  let name := canonical_wan_src_name (ri_name info) (ri_hive_id info) in
  let s := mkNodeHandle name (ri_vpn_id info) 0 in
  let m := set_src_l2_name m (Some name) in
  if Z.eqb (ttl (routing m)) 0 then (send_ttl_exceeded_to m sender, r)
  else match dst (routing m) with
  | Unicast d => (let* senders := wan_unicast r sender s m d in deliver senders m (ri_via_hub info), r)
  | Broadcast =>
    once r m (let* senders := wan_broadcast r src_uuid s m in deliver senders m (ri_via_hub info))
  | Resolve =>
    (let* target := resolved_target (Some sender) m in
     let* senders := by_name r (Some sender) s m target true (forward_router r sender m) in
     deliver senders m (ri_via_hub info), r)
  end.

Definition handle_wan_message r (peer_hive : string) (peer_router_uuid : Uuid)
  (peer_router_name : string) (session_epoch : Z) m : M V unit * Router :=
  let system := is_system_kind (msg_type (meta m)) in
  if system && opt_str_is (msg (meta m)) MSG_LSA then
    (ret tt, take_lsa r peer_hive peer_router_uuid peer_router_name session_epoch m)
  else if system && opt_str_is (msg (meta m)) MSG_WAN_REACHABILITY then
    (ret tt, take_reachability r peer_hive m)
  else if system && is_report m then (pass_report r m, r)
  else match parse_uuid (src (routing m)) with
  | None => (ret tt, r)
  | Some src_uuid =>
    match wan_frame_source (r_lsa_snapshot r) (r_reachability r) src_uuid peer_hive with
    | None => (ret tt, r)
    | Some info => handle_wan_data r (WanCh peer_hive) src_uuid info m
    end
  end.

(** ** A frame of a sibling router *)

Definition MSG_OPA_RELOAD : string := "OPA_RELOAD".

Definition from_gateway r (peer_uuid : Uuid) : bool :=
  match r_peer_routers r !! peer_uuid with Some router => pr_is_gateway router | None => false end.

Definition remote_source_from_gateway r (peer_uuid src_uuid : Uuid) : option PeerNode :=
  if from_gateway r peer_uuid then
    match find_remote_node (r_lsa_snapshot r) src_uuid with
    | Some remote =>
      Some (mkPeerNode src_uuid (canonical_wan_src_name (ri_name remote) (ri_hive_id remote))
              (ri_vpn_id remote) peer_uuid)
    | None => None
    end
  else None.

(** The sender's node, and the tables once refreshed for it. *)
Definition peer_source r (peer_uuid src_uuid : Uuid) : option PeerNode * Router :=
  match r_peer_nodes r !! src_uuid with
  | Some node => (Some node, r)
  | None =>
    match remote_source_from_gateway r peer_uuid src_uuid with
    | Some node => (Some node, r)
    | None =>
      if from_gateway r peer_uuid then
        let r := refresh_lsa (w_region w) r in (remote_source_from_gateway r peer_uuid src_uuid, r)
      else (None, r)
    end
  end.

Definition peer_unicast r (reply : option Chan) (s : NodeHandle) m (d : string)
  : M V (list LocalDelivery) :=
  match parse_uuid d with
  | Some u =>
    match r_nodes r !! u with
    | Some h => deliver_or_block reply s m u h
    | None => unicast_remote r reply s m u is_gateway
    end
  | None => by_name r reply s m d is_gateway (peer_forward_router r m)
  end.

Definition peer_broadcast r (reply : option Chan) (src_uuid : Uuid) (s : NodeHandle) m
  : M V (list LocalDelivery) :=
  (if Z.leb 3 (ttl (routing m))
   then on_reply reply (fun sender => forward_broadcast_to_wan r m is_gateway sender) else ret tt) ;;
  ret (broadcast_targets r src_uuid s m).

Definition handle_peer_data r (peer_uuid src_uuid : Uuid) (node : PeerNode) m : M V unit :=
  let s := mkNodeHandle (pn_name node) (pn_vpn_id node) 0 in
  let m := set_src_l2_name m (Some (pn_name node)) in
  let reply := if bool_decide (peer_uuid ∈ r_peers r) then Some (PeerCh peer_uuid) else None in
  if Z.eqb (ttl (routing m)) 0 then on_reply reply (fun sender => send_ttl_exceeded_to m sender)
  else match dst (routing m) with
  | Unicast d => let* senders := peer_unicast r reply s m d in deliver senders m false
  | Broadcast => let* senders := peer_broadcast r reply src_uuid s m in deliver senders m false
  | Resolve =>
    let* target := resolved_target reply m in
    let* senders := by_name r reply s m target is_gateway (peer_forward_router r m) in
    deliver senders m false
  end.

Definition handle_peer_message r (peer_uuid : Uuid) m
  : M V unit * Router :=
  match parse_uuid (src (routing m)) with
  | None => (ret tt, r)
  | Some src_uuid =>
    let system := is_system_kind (msg_type (meta m)) in
    if system && opt_str_is (msg (meta m)) MSG_OPA_RELOAD then
      (if (e_is_reload_payload E) (msg_payload m) then ret tt else error, r)
    else match peer_source r peer_uuid src_uuid with
    | (None, r) => (if system && is_report m then pass_report r m else ret tt, r)
    | (Some node, r) =>
      let r := refresh_lsa (w_region w) r in (handle_peer_data r peer_uuid src_uuid node m, r)
    end
  end.

(** ** Taking a frame *)

(** Who a frame speaks for, and whether the hub vouches for it: the node of the connection
    it came on, the node of the other hive's LSA or of the hub's vouching, the sibling
    router's node or the one its gateway took in. *)
Definition frame_source r (from : Chan) m : option (NodeHandle * bool) :=
  match from, parse_uuid (src (routing m)) with
  | NodeCh u, _ => option_map (fun h => (h, false)) (r_nodes r !! u)
  | WanCh hive, Some src_uuid =>
    option_map (fun info => (mkNodeHandle (canonical_wan_src_name (ri_name info) (ri_hive_id info))
                               (ri_vpn_id info) 0, ri_via_hub info))
      (wan_frame_source (r_lsa_snapshot r) (r_reachability r) src_uuid hive)
  | PeerCh p, Some src_uuid =>
    option_map (fun n => (mkNodeHandle (pn_name n) (pn_vpn_id n) 0, false))
      (fst (peer_source r p src_uuid))
  | _, None => None
  end.

(** One frame of one connection, handled: its effects and the tables after it. The read
    loop of a node's connection drops a frame that is not of that node. *)
Inductive handled r : Chan -> Message V -> list (Effect V) -> Router -> Prop :=
| FromNode taps u m :
    frame_is_from_connection m u = true ->
    handled r (NodeCh u) m (fst (fst (handle_message r taps m))) (snd (handle_message r taps m))
| FromWan hive peer_router_uuid peer_router_name session_epoch m :
    handled r (WanCh hive) m
      (fst (fst (handle_wan_message r hive peer_router_uuid peer_router_name session_epoch m)))
      (snd (handle_wan_message r hive peer_router_uuid peer_router_name session_epoch m))
| FromPeer p m :
    handled r (PeerCh p) m (fst (fst (handle_peer_message r p m))) (snd (handle_peer_message r p m)).

End Handlers.
