(* ===== verification/RouterSafety.v ===== *)
(** * What the handlers may do

    Properties of the handlers of [Router], of all three at once: what a router sends,
    delivers and forwards when it takes a frame, from whomever. *)

From Stdlib Require Import ZArith Lia Ascii String.
From stdpp Require Import base list strings gmap sorting.
From S2P Require Import Prelude Protocol Policy Glob Gates Delivery Fib Lsa Identity Router.
Open Scope string_scope.

(** ** Effects of composed computations *)

Section Emits.
Context {V : Type}.

(** Every effect satisfies [P], and a value it goes on with satisfies [Q]. *)
Definition emits {A} (P : Effect V -> Prop) (Q : A -> Prop) (c : M V A) : Prop :=
  Forall P (fst c) /\ match snd c with Next a => Q a | _ => True end.

Lemma emits_ret {A} P (Q : A -> Prop) a : Q a -> emits P Q (ret a).
Proof. by split. Qed.

Lemma emits_return_ok {A} P (Q : A -> Prop) : emits P Q return_ok.
Proof. by split. Qed.

Lemma emits_error {A} P (Q : A -> Prop) : emits P Q error.
Proof. by split. Qed.

Lemma emits_emit P e : P e -> emits P (fun _ => True) (emit e).
Proof. intros. split; [by constructor|done]. Qed.

Lemma emits_bind {A B} P (Q : A -> Prop) (R : B -> Prop) c f :
  emits P Q c -> (forall a, Q a -> emits P R (f a)) -> emits P R (bind c f).
Proof.
  intros [Hw Hq] Hf. destruct c as [w [a| |]]; cbn in *; [|done..].
  specialize (Hf a Hq). unfold emits in Hf. destruct (f a) as [w' res]. cbn in *.
  destruct Hf as [Hw' Hr]. split; [by apply Forall_app|done].
Qed.

(** The value of the first part does not matter. *)
Lemma emits_seq {A B} P (R : B -> Prop) (c : M V A) f :
  emits P (fun _ => True) c -> (forall a, emits P R (f a)) -> emits P R (bind c f).
Proof. intros Hc Hf. eapply emits_bind; [exact Hc|auto]. Qed.

Lemma emits_ignore {A} P (c : M V A) Q : emits P Q c -> emits P (fun _ => True) (ignore c).
Proof. intros [Hw _]. by split. Qed.

Lemma emits_true {A} P Q (c : M V A) : emits P Q c -> emits P (fun _ => True) c.
Proof. intros [Hw _]. split; [done|]. destruct (snd c); exact I. Qed.

Lemma emits_impl {A} (P P' : Effect V -> Prop) (Q : A -> Prop) c :
  (forall e, P e -> P' e) -> emits P Q c -> emits P' Q c.
Proof. intros Hi [Hw Hq]. split; [|done]. by eapply Forall_impl. Qed.

Lemma emits_in {A} P Q (c : M V A) e : emits P Q c -> e ∈ fst c -> P e.
Proof. intros [Hw _] Hin. rewrite Forall_forall in Hw. by apply Hw. Qed.

Lemma emits_each {A} P (f : A -> M V unit) l :
  (forall a, a ∈ l -> emits P (fun _ => True) (f a)) -> emits P (fun _ => True) (each f l).
Proof.
  induction l as [|a l IH]; intros H; cbn [each]; [by apply emits_ret|].
  apply emits_seq; [apply H; left|]. intros _. apply IH. intros b Hb. apply H. by right.
Qed.

End Emits.

Create HintDb emits discriminated.
#[export] Hint Resolve emits_return_ok emits_error : emits.
#[export] Hint Extern 1 (emits _ _ (ret _)) => apply emits_ret; try done : emits.
#[export] Hint Extern 2 (emits _ _ (bind _ _)) => apply emits_seq; [|intros []] : emits.

(** ** What one frame may cause *)

Section Fine.
Context {V : Type} (E : Env V) (w : Moment V).
(** Serializing a message does not fail: its maps' keys are strings. *)
Hypothesis to_vec_total : forall m, is_Some (e_to_vec E m).

Implicit Types (m : Message V) (r : Router).

(** A copy that says the same and is gated the same: a tap's, or one with a trace entry. *)
Definition carries m m' : Prop :=
  src (routing m') = src (routing m) /\ src_l2_name (routing m') = src_l2_name (routing m) /\
  ttl (routing m') = ttl (routing m) /\ msg_payload m' = msg_payload m /\ msg (meta m') = msg (meta m) /\
  forall a va b vb, vpn_allows_between (meta m') a va b vb = vpn_allows_between (meta m) a va b vb.

(** A frame handed on: to a live neighbour, one hop of its time to live spent and one left. *)
Definition forward r m (c : Chan) m' : Prop :=
  ((exists p, c = PeerCh p /\ p ∈ r_peers r) \/ (exists h, c = WanCh h /\ h ∈ r_wan_peers r)) /\
  exists m1, carries m m1 /\ (2 <= ttl (routing m1))%Z /\ m' = set_ttl m1 (ttl (routing m1) - 1).

(** A report of the router's on the frame, for its sender. *)
Definition report m m' : Prop :=
  exists m1, src (routing m1) = src (routing m) /\
    (m' = ttl_exceeded_reply E m1 \/ exists reason, m' = unreachable_reply E m1 reason).

(** A node of this router that the gate opens to the source. *)
Definition open_to r (s : NodeHandle) m (l : Chan * string) : Prop :=
  exists u h, l = (NodeCh u, nh_name h) /\ r_nodes r !! u = Some h /\
    vpn_allows_between (meta m) (nh_name s) (nh_vpn_id s) (nh_name h) (nh_vpn_id h) = true.

(** A delivery of the frame to such a node, past the delivery gate. *)
Definition delivered r (s : NodeHandle) m (via_hub : bool) (c : Chan) (node : string) (data : list byte)
  : Prop :=
  open_to r s m (c, node) /\ exists m1, carries m m1 /\
    serialize_for_local_delivery (e_to_vec E) (e_turn_len E) (e_evaluate_allow E) (w_memory w) (e_hive_id E)
      m1 via_hub node = Some (Some data).

Definition fine r (s : NodeHandle) m (via_hub : bool) (back : Chan -> Prop) (e : Effect V) : Prop :=
  match e with
  | Send c m' => forward r m c m' \/ (back c /\ report m m')
  | Delivery c node data => delivered r s m via_hub c node data
  | CognitionTurn _ _ => True
  end.

Lemma carries_refl m : carries m m.
Proof. by split_and!. Qed.

Lemma carries_tap m t : carries m (tap_copy E m t).
Proof. by split_and!. Qed.

Lemma carries_entry m from to : carries m (write_entry E m from to).
Proof. unfold write_entry. cbv zeta. destruct (_ || _); by split_and!. Qed.

Section Source.
Variables (r : Router) (s : NodeHandle) (m0 : Message V) (via_hub : bool) (back : Chan -> Prop).

#[local] Abbreviation ok := (fine r s m0 via_hub back).
#[local] Abbreviation targets := (Forall (open_to r s m0)).

Lemma send_ok c m : ok (Send c m) -> emits ok (fun _ => True) (send E c m).
Proof. intros H. unfold send. destruct (e_to_vec E m); [by apply emits_emit|apply emits_error]. Qed.

Lemma unreachable_ok m c reason : back c -> carries m0 m ->
  emits ok (fun _ => True) (send_unreachable_to E m c reason).
Proof. intros Hb Hc. apply send_ok. right. split; [done|]. exists m. split; [apply Hc|eauto]. Qed.

Lemma ttl_exceeded_ok m c : back c -> carries m0 m ->
  emits ok (fun _ => True) (send_ttl_exceeded_to E m c).
Proof. intros Hb Hc. apply send_ok. right. split; [done|]. exists m. split; [apply Hc|eauto]. Qed.

Lemma forwarded_ok m c : carries m0 m -> (2 <= ttl (routing m))%Z ->
  (exists p, c = PeerCh p /\ p ∈ r_peers r) \/ (exists h, c = WanCh h /\ h ∈ r_wan_peers r) ->
  ok (Send c (forwarded m)).
Proof.
  intros Hc Ht Hch. left. split; [done|]. exists m. split_and!; try done.
  unfold forwarded, saturating_sub. destruct (Z.ltb_spec 0 (ttl (routing m))); [|lia].
  f_equal. lia.
Qed.

Lemma send_to_peer_ok m p : carries m0 m -> (2 <= ttl (routing m))%Z ->
  emits ok (fun _ => True) (send_to_peer_router E r p m).
Proof.
  intros Hc Ht. unfold send_to_peer_router. case_bool_decide; [|by apply emits_ret].
  apply emits_seq; [|intros _; by apply emits_ret]. apply send_ok, forwarded_ok; eauto.
Qed.

Lemma send_to_wan_ok m h : carries m0 m -> (2 <= ttl (routing m))%Z ->
  emits ok (fun _ => True) (send_to_wan_peer E r h m).
Proof.
  intros Hc Ht. unfold send_to_wan_peer. case_bool_decide; [|by apply emits_ret].
  apply emits_seq; [|intros _; by apply emits_ret]. apply send_ok, forwarded_ok; eauto.
Qed.

Lemma send_all_ok l m : (forall c, c ∈ l -> ok (Send c m)) -> emits ok (fun _ => True) (send_all E l m).
Proof.
  intros H. unfold send_all. destruct l as [|c l]; [by apply emits_ret|].
  destruct (e_to_vec E m); [|apply emits_error]. split; [|done]. cbn [fst].
  apply Forall_forall. intros e (c' & -> & Hc)%list_elem_of_fmap. by apply H.
Qed.

Lemma broadcast_to_peers_ok m : carries m0 m -> (2 <= ttl (routing m))%Z ->
  emits ok (fun _ => True) (broadcast_to_peers E r m).
Proof.
  intros Hc Ht. apply send_all_ok. intros c (p & -> & Hp%elem_of_elements)%list_elem_of_fmap.
  apply forwarded_ok; eauto.
Qed.

Lemma broadcast_to_wan_ok m : carries m0 m -> (2 <= ttl (routing m))%Z ->
  emits ok (fun _ => True) (broadcast_to_wan E r m).
Proof.
  intros Hc Ht. apply send_all_ok. intros c (h & -> & Hh%elem_of_elements)%list_elem_of_fmap.
  apply forwarded_ok; eauto.
Qed.

Lemma forward_to_hive_ok m h gw c : back c -> carries m0 m ->
  emits ok (fun _ => True) (forward_to_hive E r h m gw c).
Proof.
  intros Hb Hc. unfold forward_to_hive. destruct (Z.leb_spec (ttl (routing m)) 1); [by apply ttl_exceeded_ok|].
  assert (2 <= ttl (routing m))%Z by lia.
  destruct gw; [|destruct (gateway_uuid r) as [g|]; [|by apply unreachable_ok]];
    (apply emits_seq; [by first [apply send_to_wan_ok | apply send_to_peer_ok]|]);
    intros []; by first [apply emits_ret | apply unreachable_ok].
Qed.

Lemma forward_broadcast_ok m gw c : back c -> carries m0 m ->
  emits ok (fun _ => True) (forward_broadcast_to_wan E r m gw c).
Proof.
  intros Hb Hc. unfold forward_broadcast_to_wan. destruct (Z.leb_spec (ttl (routing m)) 2); [by apply emits_ret|].
  assert (2 <= ttl (routing m))%Z by lia. destruct gw; [by apply broadcast_to_wan_ok|].
  destruct (gateway_uuid r) as [g|]; [|by apply unreachable_ok].
  apply emits_seq; [by apply send_to_peer_ok|]. intros []; by apply emits_ret.
Qed.

Lemma on_reply_ok reply f : (forall c, reply = Some c -> emits ok (fun _ => True) (f c)) ->
  emits ok (fun _ => True) (on_reply (V := V) reply f).
Proof. intros H. destruct reply; [by apply H|by apply emits_ret]. Qed.

(** A reply, then no delivery. *)
Lemma nothing_more (c : M V unit) : emits ok (fun _ => True) c -> emits ok targets (bind c (fun _ => ret [])).
Proof. intros H. apply emits_seq; [done|]. intros []. by apply emits_ret. Qed.

Definition back_on (reply : option Chan) : Prop := forall c, reply = Some c -> back c.

Lemma deliver_or_block_ok reply m u h : back_on reply -> carries m0 m -> r_nodes r !! u = Some h ->
  emits ok targets (deliver_or_block E reply s m u h).
Proof.
  intros Hb Hc Hu. unfold deliver_or_block, vpn_open. destruct (vpn_allows_between _ _ _ _ _) eqn:Ev.
  - apply emits_ret. constructor; [|done]. exists u, h. split_and!; try done.
    destruct Hc as (_ & _ & _ & _ & _ & Hg). by rewrite Hg in Ev.
  - apply nothing_more, on_reply_ok. intros c Hcc. apply unreachable_ok; auto.
Qed.

Lemma unicast_remote_ok reply m u gw : back_on reply -> carries m0 m ->
  emits ok targets (unicast_remote E r reply s m u gw).
Proof.
  intros Hb Hc. unfold unicast_remote. cbv zeta.
  destruct (match find_remote_node _ u with Some info => Some info | None => _ end) as [remote|];
    [destruct (vpn_open _ _ _ _)|]; apply nothing_more, on_reply_ok; intros c Hcc;
    first [apply forward_to_hive_ok | apply unreachable_ok]; auto.
Qed.

Lemma forward_router_ok c m p : back c -> carries m0 m ->
  emits ok targets (forward_router E r c m p).
Proof.
  intros Hb Hc. unfold forward_router. destruct (Z.leb_spec (ttl (routing m)) 1).
  - apply emits_seq; [by apply ttl_exceeded_ok|intros; apply emits_return_ok].
  - apply emits_seq; [apply send_to_peer_ok; [done|lia]|]. intros []; [apply emits_return_ok|].
    by apply nothing_more, unreachable_ok.
Qed.

Lemma peer_forward_router_ok m p : (p ∈ r_peers r -> back (PeerCh p)) -> carries m0 m ->
  emits ok targets (peer_forward_router E r m p).
Proof.
  intros Hb Hc. unfold peer_forward_router.
  apply (emits_bind _ (fun _ => p ∈ r_peers r -> 2 <= ttl (routing m))%Z).
  { case_bool_decide as Hp; cbn [andb]; [|by apply emits_ret].
    destruct (Z.leb_spec (ttl (routing m)) 1); [|apply emits_ret; lia].
    apply emits_seq; [by apply ttl_exceeded_ok; auto|intros; apply emits_return_ok]. }
  intros _ Ht. unfold send_to_peer_router. case_bool_decide as Hp; [|split; [constructor|constructor]].
  apply emits_seq; [|intros []; [apply emits_return_ok|by apply nothing_more, unreachable_ok; auto]].
  apply emits_seq; [|intros; by apply emits_ret]. apply send_ok, forwarded_ok; eauto.
Qed.

Lemma unicast_elsewhere_ok c m u gw : back c -> carries m0 m ->
  emits ok targets (unicast_elsewhere E r c s m u gw).
Proof.
  intros Hb Hc. unfold unicast_elsewhere. destruct (r_peer_nodes r !! u) as [pn|].
  - destruct (vpn_open _ _ _ _); [by apply forward_router_ok|by apply nothing_more, unreachable_ok].
  - apply unicast_remote_ok; [|done]. by intros ? [= <-].
Qed.

Lemma by_name_ok reply m target gw to_router : back_on reply -> carries m0 m ->
  (forall p, emits ok targets (to_router p)) ->
  emits ok targets (by_name E r reply s m target gw to_router).
Proof.
  intros Hb Hc Hr. unfold by_name. destruct (resolve_by_name _ _ _ _ _) as [|reason|u|p|h]; [by apply emits_ret| | |done|].
  - apply nothing_more, on_reply_ok. intros c Hcc. apply unreachable_ok; auto.
  - destruct (r_nodes r !! u) as [hd|] eqn:Hu; [by apply deliver_or_block_ok|].
    apply nothing_more, on_reply_ok. intros c Hcc. apply unreachable_ok; auto.
  - apply nothing_more, on_reply_ok. intros c Hcc. apply forward_to_hive_ok; auto.
Qed.

Lemma broadcast_targets_ok u m : carries m0 m -> targets (broadcast_targets r u s m).
Proof.
  intros (_ & _ & _ & _ & _ & Hg). unfold broadcast_targets. apply Forall_forall.
  intros x ([v h] & -> & Hx)%list_elem_of_fmap. apply list_elem_of_In, filter_In in Hx as [Hin Hf].
  apply list_elem_of_In, elem_of_map_to_list in Hin. exists v, h. split_and!; try done.
  rewrite !andb_true_iff in Hf. destruct Hf as [[_ Hv] _]. unfold vpn_allows_broadcast_between in Hv.
  rewrite andb_true_iff, Hg in Hv. tauto.
Qed.

Lemma resolved_target_ok reply m : back_on reply -> carries m0 m ->
  emits ok (fun _ => True) (resolved_target E w reply m).
Proof.
  intros Hb Hc. unfold resolved_target. destruct (resolve_target_with_identity _ _ _ _ _ _ _ _) as [[t|]|];
    [by apply emits_ret|..]; (apply emits_seq; [|intros; apply emits_return_ok]);
    apply on_reply_ok; intros c Hcc; apply unreachable_ok; auto.
Qed.

(** The frames that [deliver_locally] puts on the channels. *)
Lemma deliver_ok l m : targets l -> carries m0 m ->
  emits ok (fun _ => True) (deliver E w l m via_hub).
Proof.
  intros Hl Hc. unfold deliver, deliver_locally. split; [|by destruct (failed _)]. cbn [fst].
  apply Forall_app. split; [|by apply Forall_forall; intros e ([n d] & -> & _)%list_elem_of_fmap].
  destruct l as [|first rest]; [done|]. cbn [map].
  destruct (prepare_local_delivery _ _ _ _) as [prepared|] eqn:Ep; [|done].
  destruct (deliver_loop_spec (e_to_vec E) (e_turn_len E) to_vec_total (w_memory w) prepared
    (map snd (first :: rest)) nothing_delivered (mkDeliveryCache None None)) as (_ & _ & frames & Hs & HF);
    [done..|]. cbn [map] in Hs. rewrite Hs. cbn [nothing_delivered sent app]. revert HF Hl. clear Hs. generalize (first :: rest) as l. clear first rest.
  intros l HF Hl. revert frames HF. induction Hl as [|[c node] l Ho Hl IH]; intros frames HF.
  { by inversion HF. }
  apply Forall2_cons_inv_l in HF as ([n d] & frames' & [Hn Hf] & HF' & ->). cbn in Hn, Hf. subst n.
  cbn [zip_with]. constructor; [|by apply IH]. split; [done|]. exists m. split; [done|].
  unfold serialize_for_local_delivery. rewrite Ep. unfold frame_for in Hf.
  destruct (if wants_package prepared node then _ else _); by rewrite Hf.
Qed.

(** A tap's copies, of a frame that did not come by the hub. *)
Lemma fanout_tap_ok u m t : via_hub = false -> back (NodeCh u) -> carries m0 m ->
  emits ok (fun _ => True) (fanout_tap E w r u s m t).
Proof.
  intros Hv Hb Hc. unfold fanout_tap. cbv zeta.
  assert (carries m0 (tap_copy E m t)) as Ht by exact Hc. set (copy := tap_copy E m t) in *.
  destruct (resolve_by_name _ _ _ _ _) as [|reason|v|p|h]; try (by apply emits_ret).
  - destruct (r_nodes r !! v) as [hd|] eqn:Hn; [|by apply emits_ret].
    unfold vpn_open. destruct (vpn_allows_between _ _ _ _ _) eqn:Ev; [|by apply emits_ret].
    destruct (serialize_for_local_delivery _ _ _ _ _ _ _) as [[data|]|] eqn:Es; try (by apply emits_ret).
    apply emits_emit. split; [|by rewrite Hv; exists copy]. exists v, hd. split_and!; try done.
    destruct Ht as (_ & _ & _ & _ & _ & Hg). by rewrite Hg in Ev.
  - destruct (Z.leb_spec (ttl (routing copy)) 1); [by apply emits_ret|].
    apply (emits_ignore _ _ (fun _ => True)), send_to_peer_ok; [done|lia].
  - by apply (emits_ignore _ _ (fun _ => True)), forward_to_hive_ok.
Qed.

Lemma tap_fanout_ok taps u m : via_hub = false -> back (NodeCh u) -> carries m0 m ->
  emits ok (fun _ => True) (tap_fanout E w r taps u s m).
Proof.
  intros Hv Hb Hc. unfold tap_fanout. destruct (via_tap (meta m)); [by apply emits_ret|].
  destruct (dst (routing m)); try (by apply emits_ret). destruct taps as [[|t ts]|]; try (by apply emits_ret).
  unfold fanout_taps_for_unicast. cbv zeta. destruct (_ || _); [by apply emits_ret|].
  apply emits_each. intros target _. by apply fanout_tap_ok.
Qed.

(** *** The three handlers' arms *)

Lemma node_unicast_ok u m d : back (NodeCh u) -> carries m0 m ->
  emits ok targets (node_unicast E r u s m d).
Proof.
  intros Hb Hc. assert (back_on (Some (NodeCh u))) by (by intros ? [= <-]).
  unfold node_unicast. destruct (e_parse_uuid E d) as [v|].
  - destruct (r_nodes r !! v) as [h|] eqn:Hv; [by apply deliver_or_block_ok|by apply unicast_elsewhere_ok].
  - apply by_name_ok; [done..|]. intros p. by apply forward_router_ok.
Qed.

Lemma wan_unicast_ok c m d : back c -> carries m0 m -> emits ok targets (wan_unicast E r c s m d).
Proof.
  intros Hb Hc. assert (back_on (Some c)) by (by intros ? [= <-]).
  unfold wan_unicast. destruct (e_parse_uuid E d) as [v|].
  - destruct (r_nodes r !! v) as [h|] eqn:Hv; [by apply deliver_or_block_ok|by apply unicast_elsewhere_ok].
  - apply by_name_ok; [done..|]. intros p. by apply forward_router_ok.
Qed.

Lemma peer_unicast_ok reply m d : back_on reply -> (forall p, p ∈ r_peers r -> back (PeerCh p)) ->
  carries m0 m -> emits ok targets (peer_unicast E r reply s m d).
Proof.
  intros Hb Hp Hc. unfold peer_unicast. destruct (e_parse_uuid E d) as [v|].
  - destruct (r_nodes r !! v) as [h|] eqn:Hv; [by apply deliver_or_block_ok|by apply unicast_remote_ok].
  - apply by_name_ok; [done..|]. intros p. by apply peer_forward_router_ok; auto.
Qed.

Lemma when_ttl_ok n m (c : M V unit) : (2 <= n)%Z ->
  ((2 <= ttl (routing m))%Z -> emits ok (fun _ => True) c) ->
  emits ok (fun _ => True) (if Z.leb n (ttl (routing m)) then c else ret tt).
Proof. intros Hn H. destruct (Z.leb_spec n (ttl (routing m))); [apply H; lia|by apply emits_ret]. Qed.

Lemma node_broadcast_ok u m : back (NodeCh u) -> carries m0 m ->
  emits ok targets (node_broadcast E r u s m).
Proof.
  intros Hb Hc. unfold node_broadcast. apply emits_seq; [|intros []; apply emits_seq; [|intros []]].
  - apply when_ttl_ok; [lia|]. by apply broadcast_to_peers_ok.
  - apply when_ttl_ok; [lia|]. intros _. by apply forward_broadcast_ok.
  - by apply emits_ret, broadcast_targets_ok.
Qed.

Lemma wan_broadcast_ok u m : carries m0 m -> emits ok targets (wan_broadcast E r u s m).
Proof.
  intros Hc. unfold wan_broadcast. apply emits_seq; [|intros []; apply emits_seq; [|intros []]].
  - apply when_ttl_ok; [lia|]. by apply broadcast_to_peers_ok.
  - apply when_ttl_ok; [lia|]. by apply broadcast_to_wan_ok.
  - by apply emits_ret, broadcast_targets_ok.
Qed.

Lemma peer_broadcast_ok reply u m : back_on reply -> carries m0 m ->
  emits ok targets (peer_broadcast E r reply u s m).
Proof.
  intros Hb Hc. unfold peer_broadcast. apply emits_seq; [|intros []; by apply emits_ret, broadcast_targets_ok].
  apply when_ttl_ok; [lia|]. intros _. apply on_reply_ok. intros c Hcc. apply forward_broadcast_ok; auto.
Qed.

(** The arms, then the delivery of what they leave. *)
Lemma then_deliver_ok c m : emits ok targets c -> carries m0 m ->
  emits ok (fun _ => True) (bind c (fun senders => deliver E w senders m via_hub)).
Proof. intros H Hc. eapply emits_bind; [exact H|]. intros l Hl. by apply deliver_ok. Qed.

Lemma then_deliver_tap_ok taps u c m : via_hub = false -> back (NodeCh u) ->
  emits ok targets c -> carries m0 m ->
  emits ok (fun _ => True)
    (bind c (fun senders => bind (deliver E w senders m false) (fun _ => tap_fanout E w r taps u s m))).
Proof.
  intros Hv Hb H Hc. eapply emits_bind; [exact H|]. intros l Hl.
  apply emits_seq; [rewrite <- Hv; by apply deliver_ok|]. intros []. by apply tap_fanout_ok.
Qed.

Lemma once_ok m c : emits ok (fun _ => True) c -> emits ok (fun _ => True) (fst (once E w r m c)).
Proof.
  intros H. unfold once. destruct (e_parse_uuid E _) as [t|]; [|by apply emits_ret].
  destruct (check_and_add _ _ t) as [[] seen]; [done|by apply emits_ret].
Qed.

End Source.

(** The channels a report on a frame may go to: back where the frame came from; for a
    frame of a sibling router, any live sibling. *)
Definition back_of r (from c : Chan) : Prop :=
  match from with PeerCh _ => exists p, c = PeerCh p /\ p ∈ r_peers r | _ => c = from end.

(** The frame as its source's, with the name the router gives it. *)
Definition stamped m (s : NodeHandle) : Message V := set_src_l2_name m (Some (nh_name s)).

Lemma handle_message_ok r taps u s m :
  e_parse_uuid E (src (routing m)) = Some u -> r_nodes r !! u = Some s ->
  emits (fine r s (stamped m s) false (back_of r (NodeCh u))) (fun _ => True)
    (fst (handle_message E w r taps m)).
Proof.
  intros Hp Hs. unfold handle_message. rewrite Hp, Hs. fold (stamped m s). cbv zeta.
  pose proof (carries_refl (stamped m s)) as Hc. assert (back_of r (NodeCh u) (NodeCh u)) as Hb by done.
  destruct (Z.eqb _ 0); [by apply ttl_exceeded_ok|]. destruct (dst (routing (stamped m s))) as [d| |].
  - by apply then_deliver_tap_ok; [..|apply node_unicast_ok|].
  - by apply once_ok, then_deliver_tap_ok; [..|apply node_broadcast_ok|].
  - apply emits_seq; [apply resolved_target_ok; [by intros ? [= <-]|done]|]. intros t.
    pose proof (carries_entry (stamped m s) (e_router_name E) t).
    apply then_deliver_tap_ok; [done..| |done]. apply by_name_ok; [by intros ? [= <-]|done|].
    intros p. by apply forward_router_ok.
Qed.

Lemma handle_wan_data_ok r hive u info m :
  let s := mkNodeHandle (canonical_wan_src_name (ri_name info) (ri_hive_id info)) (ri_vpn_id info) 0 in
  emits (fine r s (stamped m s) (ri_via_hub info) (back_of r (WanCh hive))) (fun _ => True)
    (fst (handle_wan_data E w r (WanCh hive) u info m)).
Proof.
  intros s. unfold handle_wan_data. cbv zeta. fold s.
  change (set_src_l2_name m _) with (stamped m s).
  pose proof (carries_refl (stamped m s)) as Hc. assert (back_of r (WanCh hive) (WanCh hive)) as Hb by done.
  destruct (Z.eqb _ 0); [by apply ttl_exceeded_ok|]. destruct (dst (routing (stamped m s))) as [d| |].
  - by apply then_deliver_ok; [apply wan_unicast_ok|].
  - by apply once_ok, then_deliver_ok; [apply wan_broadcast_ok|].
  - apply emits_seq; [apply resolved_target_ok; [by intros ? [= <-]|done]|]. intros t.
    apply then_deliver_ok; [|done]. apply by_name_ok; [by intros ? [= <-]|done|].
    intros p. by apply forward_router_ok.
Qed.

Lemma handle_peer_data_ok r p u node m :
  let s := mkNodeHandle (pn_name node) (pn_vpn_id node) 0 in
  emits (fine r s (stamped m s) false (back_of r (PeerCh p))) (fun _ => True)
    (handle_peer_data E w r p u node m).
Proof.
  intros s. unfold handle_peer_data. cbv zeta. fold s. change (set_src_l2_name m _) with (stamped m s).
  pose proof (carries_refl (stamped m s)) as Hc.
  set (reply := if bool_decide (p ∈ r_peers r) then Some (PeerCh p) else None).
  assert (back_on (back_of r (PeerCh p)) reply) as Hb.
  { unfold reply. case_bool_decide; [|done]. intros c [= <-]. by exists p. }
  assert (forall q, q ∈ r_peers r -> back_of r (PeerCh p) (PeerCh q)) as Hq by (intros q ?; by exists q).
  destruct (Z.eqb _ 0); [apply on_reply_ok; intros c Hcc; apply ttl_exceeded_ok; auto|].
  destruct (dst (routing (stamped m s))) as [d| |].
  - by apply then_deliver_ok; [apply peer_unicast_ok|].
  - by apply then_deliver_ok; [apply peer_broadcast_ok|].
  - apply emits_seq; [by apply resolved_target_ok|]. intros t.
    apply then_deliver_ok; [|done]. apply by_name_ok; [done..|].
    intros q. by apply peer_forward_router_ok; auto.
Qed.

(** An effect on a frame is a report handed to a local node as it came, or one of the
    frame's source. *)
Definition accounted r (from : Chan) m (e : Effect V) : Prop :=
  (exists u, e = Send (NodeCh u) m /\ is_Some (r_nodes r !! u) /\ is_report m = true /\
     forall v, from <> NodeCh v) \/
  exists s via_hub, frame_source E w r from m = Some (s, via_hub) /\
    fine r s (stamped m s) via_hub (back_of r from) e.

Lemma pass_report_ok r r0 from m : (forall v, from <> NodeCh v) -> r_nodes r0 = r_nodes r ->
  is_report m = true -> Forall (accounted r from m) (fst (pass_report E r0 m)).
Proof.
  intros Hfr Hn Hrep. unfold pass_report. rewrite Hn. destruct (dst (routing m)) as [d| |]; [|done..].
  destruct (e_parse_uuid E d) as [u|]; [|done]. destruct (r_nodes r !! u) as [h|] eqn:Hu; [|done].
  unfold send. destruct (e_to_vec E m); [|done]. constructor; [|done]. left. exists u.
  split_and!; [done|by rewrite Hu|done..].
Qed.

Lemma emits_accounted {A} r from m s via_hub (c : M V A) Q :
  frame_source E w r from m = Some (s, via_hub) ->
  emits (fine r s (stamped m s) via_hub (back_of r from)) Q c -> Forall (accounted r from m) (fst c).
Proof. intros Hs [Hw _]. eapply Forall_impl; [exact Hw|]. intros e He. right. by exists s, via_hub. Qed.

Lemma from_node_accounted r taps u m : frame_is_from_connection E m u = true ->
  Forall (accounted r (NodeCh u) m) (fst (fst (handle_message E w r taps m))).
Proof.
  unfold frame_is_from_connection. destruct (e_parse_uuid E (src (routing m))) as [v|] eqn:Hv; [|done].
  intros ->%Z.eqb_eq. destruct (r_nodes r !! u) as [s|] eqn:Hs.
  - eapply emits_accounted; [|by apply handle_message_ok]. unfold frame_source. by rewrite Hs.
  - unfold handle_message. by rewrite Hv, Hs.
Qed.

Lemma from_wan_accounted r hive pu pn epoch m :
  Forall (accounted r (WanCh hive) m) (fst (fst (handle_wan_message E w r hive pu pn epoch m))).
Proof.
  unfold handle_wan_message. cbv zeta. destruct (_ && opt_str_is _ MSG_LSA); [done|].
  destruct (_ && opt_str_is _ MSG_WAN_REACHABILITY); [done|].
  destruct (is_system_kind _ && is_report m) eqn:Er.
  { rewrite andb_true_iff in Er. apply pass_report_ok; [done|done|tauto]. }
  destruct (e_parse_uuid E (src (routing m))) as [v|] eqn:Hv; [|done].
  destruct (wan_frame_source _ _ _ _) as [info|] eqn:Hi; [|done].
  eapply emits_accounted; [|apply handle_wan_data_ok]. unfold frame_source. by rewrite Hv, Hi.
Qed.

(** What a refresh of the LSA leaves alone. *)
Definition same_nodes r r' : Prop :=
  r_nodes r' = r_nodes r /\ r_peers r' = r_peers r /\ r_wan_peers r' = r_wan_peers r.

Lemma refresh_same region r : same_nodes r (refresh_lsa region r).
Proof. by destruct region. Qed.

Lemma fine_same r r' s m via_hub back e : same_nodes r r' ->
  fine r' s m via_hub back e -> fine r s m via_hub back e.
Proof.
  intros (Hn & Hp & Hw). destruct e as [c m'|c node data|]; cbn; [|..|done].
  - intros [H|H]; [left|by right]. unfold forward in *. by rewrite Hp, Hw in H.
  - unfold delivered, open_to. by rewrite Hn.
Qed.

Lemma peer_source_same r p u : same_nodes r (snd (peer_source w r p u)).
Proof.
  unfold peer_source. destruct (r_peer_nodes r !! u); [done|]. destruct (remote_source_from_gateway _ _ _); [done|].
  destruct (from_gateway r p); [apply refresh_same|done].
Qed.

Lemma from_peer_accounted r p m :
  Forall (accounted r (PeerCh p) m) (fst (fst (handle_peer_message E w r p m))).
Proof.
  unfold handle_peer_message. destruct (e_parse_uuid E (src (routing m))) as [v|] eqn:Hv; [|done]. cbv zeta.
  destruct (_ && opt_str_is _ MSG_OPA_RELOAD); [by destruct (e_is_reload_payload E _)|].
  pose proof (peer_source_same r p v) as Hsame. destruct (peer_source w r p v) as [[node|] r1] eqn:Es; cbn in Hsame.
  - cbn [fst]. set (r2 := refresh_lsa _ r1).
    assert (same_nodes r r2) as H2.
    { destruct Hsame as (H1 & H2 & H3), (refresh_same (w_region w) r1) as (G1 & G2 & G3).
      unfold r2, same_nodes. by rewrite G1, G2, G3. }
    set (s := mkNodeHandle (pn_name node) (pn_vpn_id node) 0).
    apply (emits_accounted _ _ _ s false _ (fun _ => True)).
    { unfold frame_source. by rewrite Hv, Es. }
    eapply emits_impl; [|apply handle_peer_data_ok]. intros e He. apply (fine_same _ _ _ _ _ _ _ H2).
    replace (back_of r (PeerCh p)) with (back_of r2 (PeerCh p)); [exact He|].
    unfold back_of. by destruct H2 as (_ & -> & _).
  - destruct (is_system_kind _ && is_report m) eqn:Er; [|done]. rewrite andb_true_iff in Er.
    apply pass_report_ok; [done|apply Hsame|tauto].
Qed.

Lemma handled_accounted r from m out r' : handled E w r from m out r' -> Forall (accounted r from m) out.
Proof.
  intros [taps u m1 Hc|hive pu pn epoch m1|p m1];
    [by apply from_node_accounted|apply from_wan_accounted|apply from_peer_accounted].
Qed.

End Fine.

(** ** The theorems *)

Section Theorems.
Context {V : Type}.
Implicit Types (E : Env V) (w : Moment V) (m : Message V) (r : Router).

(** A frame that a router wrote itself about one it could not pass on. *)
Definition own_report E m m' : Prop :=
  src (routing m') = e_uuid_to_string E (e_router_uuid E) /\ src_l2_name (routing m') = None /\
  dst (routing m') = Unicast (src (routing m)) /\ msg_type (meta m') = SYSTEM_KIND /\ is_report m' = true.

Lemma report_own E m m' : report E m m' -> own_report E m m'.
Proof.
  intros (m1 & Hs & [->|[reason ->]]); unfold own_report; cbn; rewrite Hs; by split_and!.
Qed.

(** C2. What a router sends besides deliveries. Whatever connection a frame came on, each
    frame the router writes in answer is one of three. It is the frame handed on to a live
    sibling router or hive, with the same sender, payload and action, under the name the
    router itself found for the sender, with one hop less to live and at least one left;
    or the router's own report to the frame's sender, written where the frame came from
    (of a sibling's frame, to some live sibling); or another router's report, handed to the
    local node it is for. *)
Theorem router_sends E w r from m out r' c m' :
  (forall m, is_Some (e_to_vec E m)) ->
  handled E w r from m out r' -> Send c m' ∈ out ->
  (exists s via_hub, frame_source E w r from m = Some (s, via_hub) /\
     ((exists p, c = PeerCh p /\ p ∈ r_peers r) \/ (exists h, c = WanCh h /\ h ∈ r_wan_peers r)) /\
     src (routing m') = src (routing m) /\ src_l2_name (routing m') = Some (nh_name s) /\
     msg_payload m' = msg_payload m /\ msg (meta m') = msg (meta m) /\
     ttl (routing m') = (ttl (routing m) - 1)%Z /\ (1 <= ttl (routing m'))%Z) \/
  (is_Some (frame_source E w r from m) /\ back_of r from c /\ own_report E m m') \/
  (m' = m /\ is_report m = true /\ (forall v, from <> NodeCh v) /\
   exists u, c = NodeCh u /\ is_Some (r_nodes r !! u)).
Proof.
  intros Ht H Hin. pose proof (handled_accounted E w Ht _ _ _ _ _ H) as HF. rewrite Forall_forall in HF.
  destruct (HF _ Hin) as [(u & [= -> ->] & Hu & Hr & Hf)|(s & via & Hs & [Hfw|[Hb Hr]])].
  - right. right. split_and!; [done..|]. by exists u.
  - left. exists s, via. destruct Hfw as (Hc & m1 & (H1 & H2 & H3 & H4 & H5 & _) & H6 & ->).
    cbn in *. rewrite H3 in *. split_and!; first [done | lia].
  - right. left. split_and!; [by rewrite Hs|done|]. by apply report_own in Hr.
Qed.

Lemma serialized_as E w m1 via_hub node data : (forall m, is_Some (e_to_vec E m)) ->
  serialize_for_local_delivery (e_to_vec E) (e_turn_len E) (e_evaluate_allow E) (w_memory w) (e_hive_id E)
    m1 via_hub node = Some (Some data) ->
  exists p package, prepare_local_delivery (e_evaluate_allow E) (e_hive_id E) m1 via_hub = Some p /\
    e_to_vec E (with_package p package) = Some data.
Proof.
  intros Ht. unfold serialize_for_local_delivery.
  destruct (prepare_local_delivery _ _ _ _) as [p|] eqn:Ep; [|done]. intros H. exists p.
  pose proof (prepared_no_package _ _ _ _ _ Ep) as Hn.
  destruct (if wants_package p node then _ else _) as [pk|].
  - destruct (serialize_with_package_frame (e_to_vec E) (e_turn_len E) Ht p pk) as (data' & Hs & Hf).
    rewrite Hs in H. injection H as ->. destruct Hf as [Hf|(_ & n & Hf)]; eauto.
  - exists None. rewrite Hn. destruct (e_to_vec E p); [|done]. by injection H as ->.
Qed.

Lemma prepared_frame E m1 via_hub p :
  prepare_local_delivery (e_evaluate_allow E) (e_hive_id E) m1 via_hub = Some p ->
  routing p = routing m1 /\ msg_payload p = msg_payload m1 /\
  forall a, protected_system_action (unwrap_or "" (msg (meta m1))) = Some a ->
    via_hub = false /\ authorize_system (e_evaluate_allow E) a (src_l2_name (routing m1)) (e_hive_id E) = true.
Proof.
  destruct (stamp_action_class_frame m1) as [Hr Hp]. unfold prepare_local_delivery.
  destruct (protected_system_action _) as [a|].
  - destruct (negb via_hub && _ && _) eqn:Eg; [|done]. intros [= <-].
    rewrite !andb_true_iff, !negb_true_iff in Eg. destruct Eg as [[? ?] ?].
    split_and!; [done|done|]. by intros ? [= <-].
  - intros [= <-]. by split_and!.
Qed.

(** C1. What a router delivers. Each frame it puts on a local node's socket as a delivery is
    of the message it took, under the name the router itself found for the sender; the
    node is connected here, the VPN and edge gates open from the sender to it; and if the
    message names a protected action, the sender did not come by the hub's vouching and
    the system policy allows the action to the sender's name. *)
Theorem router_deliveries E w r from m out r' c node data :
  (forall m, is_Some (e_to_vec E m)) ->
  handled E w r from m out r' -> Delivery c node data ∈ out ->
  exists u h s via_hub p, c = NodeCh u /\ r_nodes r !! u = Some h /\ node = nh_name h /\
    frame_source E w r from m = Some (s, via_hub) /\
    vpn_allows_between (meta m) (nh_name s) (nh_vpn_id s) (nh_name h) (nh_vpn_id h) = true /\
    e_to_vec E p = Some data /\ src (routing p) = src (routing m) /\
    src_l2_name (routing p) = Some (nh_name s) /\ msg_payload p = msg_payload m /\
    forall a, protected_system_action (unwrap_or "" (msg (meta m))) = Some a ->
      via_hub = false /\ authorize_system (e_evaluate_allow E) a (Some (nh_name s)) (e_hive_id E) = true.
Proof.
  intros Ht H Hin. pose proof (handled_accounted E w Ht _ _ _ _ _ H) as HF. rewrite Forall_forall in HF.
  destruct (HF _ Hin) as [(u & [=] & _)|(s & via & Hs & Hd)].
  destruct Hd as ((u & h & [= -> ->] & Hu & Hv) & m1 & (H1 & H2 & _ & H4 & H5 & _) & Hser).
  destruct (serialized_as E w m1 via (nh_name h) data Ht Hser) as (p & pk & Hp & Hdata).
  destruct (prepared_frame E m1 via p Hp) as (Hr & Hpay & Hauth).
  exists u, h, s, via, (with_package p pk). cbn in H1, H2, H4, H5 |- *. rewrite Hr, Hpay, H1, H2, H4.
  rewrite H5, H2 in Hauth. by split_and!.
Qed.
(** One link: some router took the frame and wrote [m'] to a sibling or another hive, not
    as a report of its own. *)
Definition hop m m' : Prop :=
  exists E w r from out r' c, (forall m, is_Some (e_to_vec E m)) /\ handled E w r from m out r' /\
    Send c m' ∈ out /\ (forall u, c <> NodeCh u) /\
    src (routing m') <> e_uuid_to_string E (e_router_uuid E).

Lemma hop_spends m m' : hop m m' ->
  src (routing m') = src (routing m) /\ msg_payload m' = msg_payload m /\ msg (meta m') = msg (meta m) /\
  ttl (routing m') = (ttl (routing m) - 1)%Z /\ (1 <= ttl (routing m'))%Z.
Proof.
  intros (E & w & r & from & out & r' & c & Ht & Hh & Hin & Hc & Hs).
  pose proof (handled_accounted E w Ht _ _ _ _ _ Hh) as HF. rewrite Forall_forall in HF.
  destruct (HF _ Hin) as [(u & [= -> ->] & _)|(s & via & _ & [Hfw|[_ Hr]])]; [by destruct (Hc u)| |].
  - destruct Hfw as (_ & m1 & (H1 & _ & H3 & H4 & H5 & _) & H6 & ->). cbn in *. rewrite H3 in *.
    split_and!; first [done | lia].
  - apply report_own in Hr as [Hr _]. congruence.
Qed.

(** C36. No frame travels forever. Along any route, through any routers in any states, a
    frame crosses fewer links between routers than the time to live it started with, and
    it arrives with its sender, its action and its payload unchanged. *)
Theorem frame_hops_bounded n m m' : nsteps hop n m m' ->
  src (routing m') = src (routing m) /\ msg_payload m' = msg_payload m /\ msg (meta m') = msg (meta m) /\
  ttl (routing m') = (ttl (routing m) - Z.of_nat n)%Z /\
  (n = O \/ (Z.of_nat n < ttl (routing m))%Z).
Proof.
  induction 1 as [m|n m m1 m' Hh _ IH]; [split_and!; try done; [lia|by left]|].
  destruct (hop_spends _ _ Hh) as (G1 & G2 & G3 & G4 & G5). destruct IH as (I1 & I2 & I3 & I4 & I5).
  split_and!; [congruence..|lia|lia].
Qed.

Section Authority.
Variables (E : Env V) (w : Moment V).
Hypothesis to_vec_total : forall m, is_Some (e_to_vec E m).
(** [policy/system.wasm] is compiled from [policy/system.rego], and evaluates. *)
Hypothesis wasm_is_rego : forall a s h, e_evaluate_allow E a s h = Some (allow a s h).

Lemma allowed_hive a name : authorize_system (e_evaluate_allow E) a (Some name) (e_hive_id E) = true ->
  exists role hive, parsed (Some name) = Some (role, hive) /\ (hive = "motherbee" \/ hive = e_hive_id E).
Proof.
  unfold authorize_system. rewrite wasm_is_rego. cbn [unwrap_or]. unfold allow.
  destruct (parsed (Some name)) as [[role hive]|]; [|done]. intros H%existsb_allow.
  exists role, hive. split; [done|]. intuition auto.
Qed.

Lemma report_not_protected m : is_report m = true -> protected_system_action (unwrap_or "" (msg (meta m))) = None.
Proof.
  unfold is_report. destruct (msg (meta m)) as [k|]; [|done]. cbn [opt_str_is unwrap_or].
  rewrite orb_true_iff, !String.eqb_eq. intros [->| ->]; by vm_compute.
Qed.

(** C3. Another hive commands nothing here. No frame from the gateway of a hive that is
    neither the primary one nor this one, whatever it claims to be, brings any local node
    a message that names a protected action: not delivered, not as a report, and not
    through a name or a UUID of somebody else's. *)
Theorem wan_commands_nothing r peer m out r' :
  peer <> "" -> graphic_str peer -> peer <> "motherbee" -> peer <> e_hive_id E ->
  protected_system_action (unwrap_or "" (msg (meta m))) <> None ->
  handled E w r (WanCh peer) m out r' ->
  forall e, e ∈ out -> match e with
    | Send (NodeCh _) _ | Delivery _ _ _ => False
    | _ => True
    end.
Proof.
  intros Hne Hg Hm Hown Hprot H e Hin. pose proof (handled_accounted E w to_vec_total _ _ _ _ _ H) as HF.
  rewrite Forall_forall in HF.
  destruct (HF _ Hin) as [(u & -> & _ & Hr & _)|(s & via & Hs & Hf)].
  { by apply report_not_protected in Hr. }
  destruct e as [c m'|c node data|]; [| |done].
  - destruct Hf as [([(p & -> & _)|(h & -> & _)] & _)|[Hb _]]; [done..|]. by rewrite Hb.
  - destruct Hf as (_ & m1 & (_ & H2 & _ & _ & H5 & _) & Hser).
    destruct (serialized_as E w m1 via node data to_vec_total Hser) as (p & pk & Hp & _).
    destruct (prepared_frame E m1 via p Hp) as (_ & _ & Hauth). cbn in H2, H5. rewrite H5, H2 in Hauth.
    destruct (protected_system_action _) as [a|]; [|done]. destruct (Hauth a eq_refl) as [-> Ha].
    destruct (allowed_hive a _ Ha) as (role & hive & Hpar & Hh). unfold frame_source in Hs.
    destruct (e_parse_uuid E _) as [v|]; [|done].
    destruct (wan_frame_source _ _ v peer) as [info|] eqn:Hi; [|done]. injection Hs as <- Hvia.
    rewrite (direct_name_hive _ _ _ _ _ role hive Hne Hg Hi Hvia Hpar) in Hh. destruct Hh; done.
Qed.

End Authority.
End Theorems.
