(* ===== verification/RouterCases.v ===== *)
(** * Broadcasts, and where the handlers differ

    The broadcast cache over a run of frames, and cases in which the handlers of [Router]
    part from what their comments say: each is a closed theorem about the definitions. *)

From Stdlib Require Import ZArith Lia Ascii String.
From stdpp Require Import base list strings gmap sorting.
From S2P Require Import Prelude Protocol Policy Glob Gates Delivery Fib Lsa Identity Router RouterSafety.
Open Scope string_scope.

(** ** A broadcast is taken once *)

(** The cache after a run of checks, each with its time. *)
Fixpoint cache_run (seen : gmap Uuid Z) (l : list (Z * Uuid)) : gmap Uuid Z :=
  match l with
  | [] => seen
  | (now, t) :: rest => cache_run (snd (check_and_add seen now t)) rest
  end.

Definition within (since now : Z) : Prop := (now <= since + BROADCAST_CACHE_TTL_MS)%Z.

Lemma check_cached seen now t since : seen !! t = Some since -> within since now ->
  exists seen', check_and_add seen now t = (false, seen').
Proof.
  intros Hs Hw. unfold check_and_add. cbv zeta.
  assert (filter (fun '(_, ts) => (saturating_sub now ts <= BROADCAST_CACHE_TTL_MS)%Z) seen !! t = Some since) as ->;
    [|eauto]. apply map_lookup_filter_Some. split; [done|].
  unfold within, saturating_sub, BROADCAST_CACHE_TTL_MS in *. lia.
Qed.

Lemma check_keeps seen now u t since : seen !! t = Some since -> within since now ->
  snd (check_and_add seen now u) !! t = Some since.
Proof.
  intros Hs Hw. unfold check_and_add. cbv zeta. set (kept := filter _ seen).
  assert (kept !! t = Some since) as Hk.
  { apply map_lookup_filter_Some. split; [done|].
    unfold within, saturating_sub, BROADCAST_CACHE_TTL_MS in *. lia. }
  destruct (kept !! u) as [ts|] eqn:Hu; [done|]. cbn [snd]. rewrite lookup_insert_ne; [done|]. congruence.
Qed.

Lemma cache_run_keeps l seen t since : seen !! t = Some since ->
  Forall (fun '(now, _) => within since now) l -> cache_run seen l !! t = Some since.
Proof.
  revert seen. induction l as [|[now u] l IH]; intros seen Hs HF; [done|].
  inversion HF; subst. cbn [cache_run]. apply IH; [by apply check_keeps|done].
Qed.

Section Once.
Context {V : Type} (E : Env V).
Implicit Types (m : Message V) (r : Router) (w : Moment V).

Lemma once_cached w r m c t since : e_parse_uuid E (trace_id (routing m)) = Some t ->
  r_seen r !! t = Some since -> within since (w_now w) -> fst (once E w r m c) = ret tt.
Proof.
  intros Ht Hs Hw. unfold once. rewrite Ht.
  by destruct (check_cached _ _ _ _ Hs Hw) as (seen' & ->).
Qed.

Lemma once_taken w r m c t e : e_parse_uuid E (trace_id (routing m)) = Some t ->
  e ∈ fst (fst (once E w r m c)) -> r_seen (snd (once E w r m c)) !! t = Some (w_now w).
Proof.
  intros Ht. unfold once. rewrite Ht. unfold check_and_add. cbv zeta. destruct (filter _ _ !! t).
  - by intros ?%elem_of_nil.
  - intros _. cbn. by rewrite lookup_insert_eq.
Qed.

(** The handlers that keep the cache, on a broadcast: nothing, a report that its time to
    live is over, or the rest of its handling under the cache. *)
Lemma handled_broadcast w r from m out r' : handled E w r from m out r' ->
  (forall p, from <> PeerCh p) -> dst (routing m) = Broadcast ->
  out = [] \/ ttl (routing m) = 0%Z \/
  exists s c, out = fst (fst (once E w r (stamped m s) c)) /\ r' = snd (once E w r (stamped m s) c).
Proof.
  intros [taps u m1 _|hive pu pn epoch m1|p m1] Hp Hd; [..|by destruct (Hp p)].
  - unfold handle_message. destruct (e_parse_uuid E _) as [v|]; [|by left].
    destruct (r_nodes r !! v) as [s|]; [|by left]. cbv zeta. fold (stamped m1 s).
    destruct (Z.eqb_spec (ttl (routing (stamped m1 s))) 0); [by right; left|].
    change (dst (routing (stamped m1 s))) with (dst (routing m1)). rewrite Hd. right. right. by eexists s, _.
  - unfold handle_wan_message. cbv zeta. destruct (_ && opt_str_is _ MSG_LSA); [by left|].
    destruct (_ && opt_str_is _ MSG_WAN_REACHABILITY); [by left|].
    destruct (_ && is_report m1); [left; unfold pass_report; by rewrite Hd|].
    destruct (e_parse_uuid E _) as [v|]; [|by left]. destruct (wan_frame_source _ _ _ _) as [info|]; [|by left].
    unfold handle_wan_data. cbv zeta.
    set (s := mkNodeHandle _ (ri_vpn_id info) 0). change (set_src_l2_name m1 _) with (stamped m1 s).
    destruct (Z.eqb_spec (ttl (routing (stamped m1 s))) 0); [by right; left|].
    change (dst (routing (stamped m1 s))) with (dst (routing m1)). rewrite Hd. right. right. by eexists s, _.
Qed.

(** A broadcast goes out once. When a router took a broadcast from a node or another
    hive and delivered or forwarded anything of it, then for half a minute, whatever other
    broadcasts it takes meanwhile, a frame with the same trace from a node or another hive
    is not delivered, not forwarded and not answered, unless its time to live is over. *)
Theorem broadcast_once w1 w2 r1 r1' r2 r2' from1 from2 m1 m2 out1 out2 e t l :
  handled E w1 r1 from1 m1 out1 r1' -> handled E w2 r2 from2 m2 out2 r2' ->
  (forall p, from1 <> PeerCh p) -> (forall p, from2 <> PeerCh p) ->
  dst (routing m1) = Broadcast -> dst (routing m2) = Broadcast ->
  e_parse_uuid E (trace_id (routing m1)) = Some t -> e_parse_uuid E (trace_id (routing m2)) = Some t ->
  ttl (routing m1) <> 0%Z -> ttl (routing m2) <> 0%Z ->
  e ∈ out1 ->
  r_seen r2 = cache_run (r_seen r1') l -> Forall (fun '(now, _) => within (w_now w1) now) l ->
  within (w_now w1) (w_now w2) ->
  out2 = [].
Proof.
  intros H1 H2 Hp1 Hp2 Hd1 Hd2 Ht1 Ht2 Hz1 Hz2 He Hseen HF Hw.
  destruct (handled_broadcast _ _ _ _ _ _ H1 Hp1 Hd1) as [->|[?|(s1 & c1 & -> & ->)]];
    [by apply elem_of_nil in He|done|].
  apply (once_taken w1 r1 (stamped m1 s1) c1 t e Ht1) in He.
  apply (cache_run_keeps l _ t _) in He; [|done]. rewrite <- Hseen in He.
  destruct (handled_broadcast _ _ _ _ _ _ H2 Hp2 Hd2) as [?|[?|(s2 & c2 & -> & ->)]]; [done..|].
  by rewrite (once_cached w2 r2 (stamped m2 s2) c2 t (w_now w1) Ht2 He Hw).
Qed.

End Once.

(** ** Cases *)

Section Cases.
Context {V : Type} (E : Env V) (w : Moment V).
Hypothesis to_vec_total : forall m, is_Some (e_to_vec E m).
Implicit Types (m : Message V) (r : Router).

Lemma send_emits c m : send E c m = emit (Send c m).
Proof. unfold send. by destruct (to_vec_total m) as [d ->]. Qed.

(** A sibling router's frame for a node of a third router, its time to live over: the
    report goes to that third router, not back where the frame came from. *)
Theorem peer_ttl_report_goes_forward r m p : p ∈ r_peers r -> (ttl (routing m) <= 1)%Z ->
  peer_forward_router E r m p = ([Send (PeerCh p) (ttl_exceeded_reply E m)], Return).
Proof.
  intros Hp Ht. unfold peer_forward_router. rewrite bool_decide_eq_true_2 by done.
  destruct (Z.leb_spec (ttl (routing m)) 1); [|lia]. cbn [andb]. unfold send_ttl_exceeded_to.
  by rewrite send_emits.
Qed.

(** The same with the third router gone: nobody is told. *)
Theorem peer_gone_is_silent r m p : p ∉ r_peers r -> peer_forward_router E r m p = ret [].
Proof.
  intros Hp. unfold peer_forward_router, send_to_peer_router. by rewrite bool_decide_eq_false_2 by done.
Qed.

(** A frame for a node of a sibling router is not tapped, whatever taps are installed. *)
Theorem sibling_destination_not_tapped r taps m u s d v pn :
  e_parse_uuid E (src (routing m)) = Some u -> r_nodes r !! u = Some s ->
  dst (routing m) = Unicast d -> e_parse_uuid E d = Some v -> r_nodes r !! v = None ->
  r_peer_nodes r !! v = Some pn -> pn_router_uuid pn ∈ r_peers r -> (2 <= ttl (routing m))%Z ->
  vpn_allows_between (meta m) (nh_name s) (nh_vpn_id s) (pn_name pn) (pn_vpn_id pn) = true ->
  handle_message E w r taps m
  = (([Send (PeerCh (pn_router_uuid pn)) (forwarded (stamped m s))], Return), r).
Proof.
  intros Hu Hs Hd Hv Hn Hpn Hp Ht Hg. unfold handle_message. rewrite Hu, Hs. cbv zeta. fold (stamped m s).
  change (ttl (routing (stamped m s))) with (ttl (routing m)).
  change (dst (routing (stamped m s))) with (dst (routing m)). rewrite Hd.
  destruct (Z.eqb_spec (ttl (routing m)) 0); [lia|].
  unfold node_unicast. rewrite Hv, Hn. unfold unicast_elsewhere, vpn_open. rewrite Hpn.
  change (meta (stamped m s)) with (meta m). rewrite Hg. unfold forward_router.
  change (ttl (routing (stamped m s))) with (ttl (routing m)).
  destruct (Z.leb_spec (ttl (routing m)) 1); [lia|]. unfold send_to_peer_router.
  rewrite bool_decide_eq_true_2 by done. by rewrite send_emits.
Qed.

(** Another hive's taps run only where this hive has one of its own: with an empty list of
    configured taps a router does what it does without a configuration. *)
Theorem remote_taps_need_local_ones r m :
  handle_message E w r (Some []) m = handle_message E w r None m.
Proof.
  unfold handle_message. destruct (e_parse_uuid E _) as [u|]; [|done]. destruct (r_nodes r !! u) as [s|]; [|done].
  cbv zeta. assert (forall m', tap_fanout E w r (Some []) u s m' = tap_fanout E w r None u s m') as Ht.
  { intros m'. unfold tap_fanout. destruct (via_tap (meta m')); [done|]. by destruct (dst (routing m')). }
  destruct (Z.eqb _ 0); [done|]. destruct (dst _) as [d| |].
  - by destruct (node_unicast _ _ _ _ _ _) as [out [l| |]]; cbn; rewrite ?Ht.
  - unfold once. destruct (e_parse_uuid E _); [|done]. destruct (check_and_add _ _ _) as [[] seen]; [|done].
    by destruct (node_broadcast _ _ _ _ _) as [out [l| |]]; cbn; rewrite ?Ht.
  - destruct (resolved_target _ _ _ _) as [out [t| |]]; cbn; [|done..].
    by destruct (by_name _ _ _ _ _ _ _ _) as [out' [l| |]]; cbn; rewrite ?Ht.
Qed.

(** A tap whose target's hive is not connected: the sender of the tapped message gets an
    [UNREACHABLE] about a target it never named. *)
Theorem tap_failure_reaches_sender r u s m t h :
  resolve_by_name (r_nodes r) s (meta (tap_copy E m t)) (r_fib r) t = RouteForwardHive h ->
  e_is_gateway E = true -> h ∉ r_wan_peers r -> (2 <= ttl (routing m))%Z ->
  fst (fanout_tap E w r u s m t)
  = [Send (NodeCh u) (unreachable_reply E (tap_copy E m t) "WAN_UNAVAILABLE")].
Proof.
  intros Hr Hg Hh Ht. unfold fanout_tap. cbv zeta. rewrite Hr. unfold forward_to_hive.
  change (ttl (routing (tap_copy E m t))) with (ttl (routing m)).
  destruct (Z.leb_spec (ttl (routing m)) 1); [lia|]. rewrite Hg. unfold send_to_wan_peer.
  rewrite bool_decide_eq_false_2 by done. cbn [ret bind]. unfold send_unreachable_to. by rewrite send_emits.
Qed.

(** Another hive's gateway writes any report, of any sender, under any name, to a local
    node: the frame goes on its socket as it came. *)
Theorem wan_report_unstamped r hive pu pn epoch m d u h :
  is_system_kind (msg_type (meta m)) = true -> is_report m = true ->
  dst (routing m) = Unicast d -> e_parse_uuid E d = Some u -> r_nodes r !! u = Some h ->
  handle_wan_message E w r hive pu pn epoch m = (([Send (NodeCh u) m], Next tt), r).
Proof.
  intros Hk Hr Hd Hu Hn. unfold handle_wan_message. cbv zeta. rewrite Hk, Hr. cbn [andb].
  assert (opt_str_is (msg (meta m)) MSG_LSA = false /\ opt_str_is (msg (meta m)) MSG_WAN_REACHABILITY = false)
    as [-> ->].
  { unfold is_report in Hr. destruct (msg (meta m)) as [k|]; [|done]. cbn [opt_str_is] in *.
    rewrite orb_true_iff, !String.eqb_eq in Hr. by destruct Hr as [->| ->]. }
  unfold pass_report. rewrite Hd, Hu, Hn. by rewrite send_emits.
Qed.

(** A broadcast of a router that is not the gateway reaches the gateway twice: among its
    siblings, and as the way to the other hives. *)
Theorem broadcast_reaches_gateway_twice r u s m g :
  e_is_gateway E = false -> gateway_uuid r = Some g -> g ∈ r_peers r -> (3 <= ttl (routing m))%Z ->
  exists l1 l2, fst (node_broadcast E r u s m)
    = (l1 ++ Send (PeerCh g) (forwarded m) :: l2 ++ [Send (PeerCh g) (forwarded m)])%list.
Proof.
  intros Hgw Hg Hp Ht. unfold node_broadcast.
  destruct (Z.leb_spec 2 (ttl (routing m))); [|lia]. destruct (Z.leb_spec 3 (ttl (routing m))); [|lia].
  unfold broadcast_to_peers, send_all, forward_broadcast_to_wan. rewrite Hgw, Hg.
  destruct (Z.leb_spec (ttl (routing m)) 2); [lia|]. unfold send_to_peer_router.
  rewrite bool_decide_eq_true_2 by done. rewrite send_emits.
  assert (PeerCh g ∈ map PeerCh (elements (r_peers r))) as Hin
    by (apply list_elem_of_fmap; exists g; by rewrite elem_of_elements).
  apply list_elem_of_split in Hin as (l1 & l2 & ->). destruct (to_vec_total (forwarded m)) as [data Hdata].
  exists (map (fun c => Send c (forwarded m)) l1), (map (fun c => Send c (forwarded m)) l2).
  destruct l1 as [|c l1]; cbn; rewrite Hdata; cbn; rewrite ?map_app; cbn; by rewrite <- ?app_assoc.
Qed.

(** A sibling router's frame is handled without the broadcast cache: the gateway's nodes
    get both copies. *)
Theorem peer_frames_not_deduplicated r seen p m :
  fst (handle_peer_message E w (set_seen r seen) p m) = fst (handle_peer_message E w r p m).
Proof.
  unfold handle_peer_message. destruct (e_parse_uuid E _) as [u|]; [|done]. cbv zeta.
  destruct (_ && opt_str_is _ MSG_OPA_RELOAD); [done|]. unfold peer_source, remote_source_from_gateway.
  change (r_peer_nodes (set_seen r seen)) with (r_peer_nodes r).
  change (from_gateway (set_seen r seen) p) with (from_gateway r p).
  change (r_lsa_snapshot (set_seen r seen)) with (r_lsa_snapshot r).
  destruct (r_peer_nodes r !! u); [by destruct (w_region w)|].
  destruct (from_gateway r p) eqn:Hg; [|done].
  destruct (find_remote_node (r_lsa_snapshot r) u); [by destruct (w_region w)|].
  destruct (w_region w) as [region|]; cbn [refresh_lsa].
  - change (from_gateway (rebuilt (set_lsa ?x _ _)) p) with (from_gateway x p).
    unfold from_gateway in *. cbn [r_peer_routers rebuilt set_lsa set_seen r_lsa_snapshot]. rewrite Hg.
    by destruct (find_remote_node (Some region) u).
  - change (from_gateway (set_seen r seen) p) with (from_gateway r p). rewrite Hg.
    change (r_lsa_snapshot (set_seen r seen)) with (r_lsa_snapshot r).
    by destruct (find_remote_node (r_lsa_snapshot r) u).
Qed.

End Cases.

Module Examples.

Definition parse_uuid (s : string) : option Uuid :=
  if s =s "a" then Some 1%Z else if s =s "b" then Some 2%Z else if s =s "c" then Some 3%Z
  else if s =s "trace" then Some 100%Z else None.

Definition uuid_to_string (u : Uuid) : string :=
  if Z.eqb u 1 then "a" else if Z.eqb u 2 then "b" else if Z.eqb u 3 then "c" else "router".

Definition frame (m : Message unit) : option (list byte) := Some (as_bytes "frame").

Lemma frame_total (m : Message unit) : is_Some (frame m).
Proof. by eexists. Qed.

Definition env : Env unit :=
  mkEnv _ parse_uuid uuid_to_string (fun _ => tt) (fun _ => tt) frame (fun _ => Some 0%Z) (fun _ => None)
    (fun _ => None) (fun _ => false) (fun a s h => Some (allow a s h))
    (fun present status => Some (frontdesk_route status present)) (fun c _ _ => c) (fun t => t)
    "home" "SY.frontdesk@home" "RT.one@home" 8 false.

Definition at_ms (now : Z) : Moment unit := mkMoment _ now "" None None None (fun _ _ => Some None).

(** Two nodes here, one on the sibling router 9, one in the LSA of the hive [worker]. *)
Definition region : option LsaSnapshot := Lsa.Examples.region.

Definition router : Router :=
  mkRouter {[ 1%Z := mkNodeHandle "AI.a@home" 0 0; 2%Z := mkNodeHandle "AI.b@home" 0 0 ]}
    {[ 3%Z := mkPeerNode 3 "AI.c@home" 0 9 ]} {[ 9%Z := mkPeerRouter 9 true ]} {[ 9%Z ]} {[ "worker" ]} [] [] [] []
    ∅ 0 ∅ region ∅.

Definition message (from : string) (to : Destination) (named : option string) : Message unit :=
  mkMessage (mkRouting from None to 5 "trace")
    (mkMeta "system" named None None None None None None None None None None None None None None false) tt.

Definition to_c : Message unit := message "a" (Unicast "c") None.

Lemma router_sends_witness :
  (exists s via_hub, frame_source env (at_ms 0) router (NodeCh 1) to_c = Some (s, via_hub)) \/
  is_report to_c = true.
Proof.
  destruct (router_sends env (at_ms 0) router (NodeCh 1) to_c
    (fst (fst (handle_message env (at_ms 0) router None to_c)))
    (snd (handle_message env (at_ms 0) router None to_c))
    (PeerCh 9) (set_ttl (set_src_l2_name to_c (Some "AI.a@home")) 4) frame_total)
    as [(s & v & H & _)|[([[s v] H] & _)|(_ & H & _)]].
  - apply FromNode. vm_compute. reflexivity.
  - apply list_elem_of_In. vm_compute. left. reflexivity.
  - left. exists s, v. exact H.
  - left. exists s, v. exact H.
  - right. exact H.
Defined.

Definition to_b : Message unit := message "a" (Unicast "b") None.

Lemma router_deliveries_witness :
  exists s via_hub, frame_source env (at_ms 0) router (NodeCh 1) to_b = Some (s, via_hub) /\
    vpn_allows_between (meta to_b) (nh_name s) (nh_vpn_id s) "AI.b@home" 0 = true.
Proof.
  destruct (router_deliveries env (at_ms 0) router (NodeCh 1) to_b
    (fst (fst (handle_message env (at_ms 0) router None to_b)))
    (snd (handle_message env (at_ms 0) router None to_b))
    (NodeCh 2) "AI.b@home" (as_bytes "frame") frame_total)
    as (u & h & s & v & p & Hc & Hu & Hn & Hs & Hv & _).
  - apply FromNode. vm_compute. reflexivity.
  - apply list_elem_of_In. vm_compute. left. reflexivity.
  - exists s, v. split; [exact Hs|]. injection Hc as <-. vm_compute in Hu. injection Hu as <-. exact Hv.
Defined.

Lemma to_c_hop : hop to_c (set_ttl (set_src_l2_name to_c (Some "AI.a@home")) 4).
Proof.
  exists env, (at_ms 0), router, (NodeCh 1), (fst (fst (handle_message env (at_ms 0) router None to_c))),
    (snd (handle_message env (at_ms 0) router None to_c)), (PeerCh 9). split_and!.
  - exact frame_total.
  - apply FromNode. vm_compute. reflexivity.
  - apply list_elem_of_In. vm_compute. left. reflexivity.
  - done.
  - done.
Qed.

Lemma frame_hops_bounded_witness : 1 = O \/ (Z.of_nat 1 < ttl (routing to_c))%Z.
Proof.
  destruct (frame_hops_bounded 1 to_c _ (nsteps_l _ _ _ _ _ to_c_hop (nsteps_O _ _))) as (_ & _ & _ & _ & H).
  exact H.
Defined.

(** A node of [worker] asks for a spawn under another's name. *)
Definition spawn : Message unit :=
  set_src_l2_name (message "a" (Unicast "b") (Some "SPAWN_NODE")) (Some "SY.orchestrator@motherbee").

Lemma wan_commands_nothing_witness :
  Forall (fun e : Effect unit => match e with
    | Send (NodeCh _) _ | Delivery _ _ _ => False
    | _ => True
    end) (fst (fst (handle_wan_message env (at_ms 0) router "worker" 7 "RT.w" 1 spawn))).
Proof.
  apply Forall_forall. apply (wan_commands_nothing env (at_ms 0) frame_total (fun a s h => eq_refl) router "worker" spawn _
    (snd (handle_wan_message env (at_ms 0) router "worker" 7 "RT.w" 1 spawn))).
  - done.
  - by repeat constructor.
  - done.
  - done.
  - by vm_compute.
  - apply FromWan.
Defined.

Definition to_all : Message unit := message "a" Broadcast None.

Lemma broadcast_once_witness :
  fst (fst (handle_message env (at_ms 20000)
    (snd (handle_message env (at_ms 5) router None to_all)) None to_all)) = [].
Proof.
  apply (broadcast_once env (at_ms 5) (at_ms 20000) router
    (snd (handle_message env (at_ms 5) router None to_all))
    (snd (handle_message env (at_ms 5) router None to_all))
    (snd (handle_message env (at_ms 20000) (snd (handle_message env (at_ms 5) router None to_all)) None to_all))
    (NodeCh 1) (NodeCh 1) to_all to_all (fst (fst (handle_message env (at_ms 5) router None to_all))) _
    (Delivery (NodeCh 2) "AI.b@home" (as_bytes "frame")) 100 []); try done.
  - apply FromNode. vm_compute. reflexivity.
  - apply FromNode. vm_compute. reflexivity.
  - apply list_elem_of_In. vm_compute. by repeat first [left; reflexivity | right].
Defined.

End Examples.
