(* ===== verification/Connections.v ===== *)
(** * The connections of a router's nodes

    [handle_node] of src/src/router/mod.rs, the task of one node's socket, with
    [claim_node_uuid], [rt_name_allowed], [take_stream_append], [refresh_config],
    [reassign_vpns], [broadcast_lsa_direct] and the tables' other writers, over the tables
    of [Router], the node region of [NodeRegion] and the configuration's version. A task is
    a program counter; each section of code between two awaits on shared state is one step,
    and the steps of all tasks interleave as they like. *)

From Stdlib Require Import ZArith Lia Ascii String.
From stdpp Require Import base list strings gmap sorting.
From S2P Require Import Prelude Protocol StreamLog Storage Policy Glob Gates Delivery Fib Lsa Identity.
From S2P Require Import NodeRegion Router RouterSafety RouterCases.
Open Scope string_scope.

(** ** The configuration *)

(** An entry of the static routes of the configuration's region. *)
Record StaticRouteEntry := mkStaticRouteEntry {
  se_prefix : list byte; se_prefix_len : Z; se_match_kind : Z; se_action : Z;
  se_next_hop_hive : list byte; se_next_hop_hive_len : Z; se_metric : Z; se_priority : Z;
  se_flags : Z; se_installed_at : Z }.

Record ConfigSnapshot := mkConfigSnapshot {
  cs_version : Z; cs_routes : list StaticRouteEntry; cs_vpns : list VpnAssignment;
  cs_taps : list TapEntry }.

Definition route_forwards (route : StaticRouteEntry) : bool :=
  (Z.eqb (se_flags route) 0 || active (se_flags route)) && Z.eqb (Z.land (se_flags route) FLAG_FROZEN) 0.

Definition static_route_of (route : StaticRouteEntry) : StaticRoute :=
  mkStaticRoute (bytes_to_string (se_prefix route) (se_prefix_len route)) (se_match_kind route)
    (se_action route) (bytes_to_string (se_next_hop_hive route) (se_next_hop_hive_len route))
    (se_priority route) (se_metric route) (se_installed_at route).

Definition compare_routes (a b : StaticRoute) : comparison :=
  match Z.compare (sr_priority a) (sr_priority b) with
  | Eq => Z.compare (sr_metric a) (sr_metric b)
  | c => c
  end.

Definition config_routes (snapshot : ConfigSnapshot) : list StaticRoute :=
  sort_by compare_routes (map static_route_of (List.filter route_forwards (cs_routes snapshot))).

(** The routes, VPN rules and taps of a new version. *)
Definition apply_config (snapshot : ConfigSnapshot) (r : Router) : Router :=
  mkRouter (r_nodes r) (r_peer_nodes r) (r_peer_routers r) (r_peers r) (r_wan_peers r) (r_fib r)
    (config_routes snapshot) (cs_vpns snapshot) (cs_taps snapshot) (r_seen r) (r_lsa_seq r)
    (r_lsa_state r) (r_lsa_snapshot r) (r_reachability r).

Definition set_nodes (r : Router) (nodes : gmap Uuid NodeHandle) : Router :=
  mkRouter nodes (r_peer_nodes r) (r_peer_routers r) (r_peers r) (r_wan_peers r) (r_fib r)
    (r_static_routes r) (r_vpn_rules r) (r_tap_rules r) (r_seen r) (r_lsa_seq r) (r_lsa_state r)
    (r_lsa_snapshot r) (r_reachability r).

(** [reassign_vpns]: the scan, and what it writes to the node table and to the region. *)
Definition vpn_updates (snapshot : ConfigSnapshot) (nodes : gmap Uuid NodeHandle) : list (Uuid * Z) :=
  flat_map (fun '(u, h) =>
    let new_vpn := assign_vpn (nh_name h) (Some (cs_vpns snapshot)) in
    if Z.eqb new_vpn (nh_vpn_id h) then [] else [(u, new_vpn)]) (map_to_list nodes).

Definition with_node_vpn (vpn_id : Z) (h : NodeHandle) : NodeHandle :=
  mkNodeHandle (nh_name h) vpn_id (nh_connected_at h).

Definition update_vpns (updates : list (Uuid * Z)) (nodes : gmap Uuid NodeHandle)
  : gmap Uuid NodeHandle :=
  fold_left (fun nodes '(u, vpn_id) => alter (with_node_vpn vpn_id) u nodes) updates nodes.

Definition update_region_vpns (updates : list (Uuid * Z)) (now : Z) (reg : Region) : Region :=
  fold_left (fun reg '(u, vpn_id) => update_node_vpn u vpn_id now reg) updates reg.

(** ** The siblings *)

(** What a turn of [peer_discovery_loop] makes of the regions it found. *)
Definition discovered_nodes (regions : list PeerRegion) : gmap Uuid PeerNode :=
  fold_left (fun nodes n => <[pn_uuid n := n]> nodes) (flat_map pg_nodes regions) ∅.

Definition discovered_routers (regions : list PeerRegion) : gmap Uuid PeerRouter :=
  fold_left (fun routers g => <[pg_router_uuid g := mkPeerRouter (pg_router_uuid g) (pg_is_gateway g)]> routers)
    regions ∅.

Definition set_siblings (r : Router) (regions : list PeerRegion) : Router :=
  mkRouter (r_nodes r) (discovered_nodes regions) (discovered_routers regions) (r_peers r) (r_wan_peers r)
    (r_fib r) (r_static_routes r) (r_vpn_rules r) (r_tap_rules r) (r_seen r) (r_lsa_seq r)
    (r_lsa_state r) (r_lsa_snapshot r) (r_reachability r).

(** The links of the peers and of the WAN, and what the hub vouches for. *)
Definition set_links (r : Router) (peers : gset Uuid) (wan_peers : gset string)
  (reachability : gmap Uuid ReachabilityEntry) : Router :=
  mkRouter (r_nodes r) (r_peer_nodes r) (r_peer_routers r) peers wan_peers (r_fib r) (r_static_routes r)
    (r_vpn_rules r) (r_tap_rules r) (r_seen r) (r_lsa_seq r) (r_lsa_state r) (r_lsa_snapshot r)
    reachability.

(** ** Names *)

(** [SO_PEERCRED] of a socket: the peer's user and, if known, its process. *)
Record Cred := mkCred { cr_uid : Z; cr_pid : option Z }.

Definition local_peer_admitted (cred : option Cred) (own_uid : Z) : bool :=
  match cred with Some c => Z.eqb (cr_uid c) own_uid | None => false end.

Definition peer_pid (cred : option Cred) : option Z := match cred with Some c => cr_pid c | None => None end.

(** The peer is the router's own process; a negative [i32] is no [u32]. *)
Definition is_own_process (pid : option Z) (own_pid : Z) : bool :=
  match pid with Some p => (0 <=? p)%Z && Z.eqb p own_pid | None => false end.

Definition rt_name_allowed (node_name : string) (pid : option Z) (own_pid : Z) : bool :=
  let local := Prelude.trim (before_at node_name) in
  let reserved :=
    match get_prefix 3 local with Some p => eq_ignore_ascii_case p "RT." | None => false end in
  if negb reserved then true else is_own_process pid own_pid.

(** ** The machine *)

Definition MSG_HELLO : string := "HELLO".
Definition MSG_ANNOUNCE : string := "ANNOUNCE".
Definition MSG_WITHDRAW : string := "WITHDRAW".
Definition MSG_STREAM_APPEND : string := "STREAM_APPEND".

(** In milliseconds. *)
Definition DUPLICATE_HELLO_GRACE : Z := 1000.

Record NodeHelloPayload := mkNodeHelloPayload { hello_uuid : string; hello_name : string }.

Record NodeAnnouncePayload := mkNodeAnnouncePayload {
  an_uuid : string; an_name : string; an_status : string; an_vpn_id : Z; an_router_name : string }.

(** [StreamAppend] of the SDK. *)
Record StreamAppend {V : Type} := mkStreamAppend { ap_subject : string; ap_payload : V }.
Arguments StreamAppend : clear implicits.

(** The rest of the router and of the code a connection calls: serde_json on the payloads of a
    connection, the process, its user, the role of its stream, and the snapshots SY.config
    publishes. *)
Record Host {V : Type} := mkHost {
  ho_hello_of_value : V -> option NodeHelloPayload;
  ho_append_of_value : V -> option (StreamAppend V);
  ho_value_to_vec : V -> option (list byte);
  ho_json_announce : NodeAnnouncePayload -> V;
  ho_own_pid : Z;
  ho_own_uid : Z;
  ho_role : string;
  ho_shm_name : string;
  ho_published : ConfigSnapshot -> Prop }.
Arguments Host : clear implicits.

Section Machine.
Context {V : Type} (E : Env V) (host : Host V).
Implicit Types (m : Message V) (r : Router) (u : Uuid) (h : NodeHandle).

#[local] Abbreviation hive_id := (e_hive_id E).
#[local] Abbreviation own_pid := (ho_own_pid host).

(** What a task does besides the shared state: an effect of a handler, an append to the
    router's stream or a refused one, a policy to reload, an announcement to the node, an
    LSA to another hive. *)
Inductive Out :=
| Eff (e : Effect V)
| Append (subject producer : string) (data : list byte)
| Refused
| Reload m
| Announce u m
| LsaTo (hive : string) (payload : LsaPayload).

(** Why the configuration is refreshed: a HELLO, a frame, the router's timer. *)
Inductive Kont := KHello u (name : string) m | KFrame u h m | KTimer.

(** Where [refresh_config] is. *)
Inductive Stage :=
| RfRead
| RfLock (s : ConfigSnapshot)
| RfScan (s : ConfigSnapshot)
| RfApply (s : ConfigSnapshot) (updates : list (Uuid * Z))
| RfShm (s : ConfigSnapshot) (updates : list (Uuid * Z))
| RfFib (s : ConfigSnapshot).

(** Where a task is. *)
Inductive Pc :=
| Opened
| Refreshing (k : Kont) (st : Stage)
| Assigning u (name : string) m (snapshot : option ConfigSnapshot)
| Claiming u h m (deadline : Z)
| Registering u h m
| Unclaiming u h
| Joining u h m
| Serving u h
| Handling u h m (snapshot : option ConfigSnapshot)
| Leaving u h
| Parting
| Closed.

Record Task := mkTask { t_cred : option Cred; t_pc : Pc }.

(** The shared state: the tables, whose node's channel is [senders]' task, the region, the
    configuration's version and who holds its lock, and the tasks. *)
Record Sys := mkSys {
  net : Router; senders : gmap Uuid nat; region : Region; version : Z; guard : option nat;
  tasks : gmap nat Task }.

Definition goto (s : Sys) (c : nat) (cred : option Cred) (pc : Pc) : Sys :=
  mkSys (net s) (senders s) (region s) (version s) (guard s) (<[c := mkTask cred pc]> (tasks s)).

Definition with_net (s : Sys) r : Sys := mkSys r (senders s) (region s) (version s) (guard s) (tasks s).

Definition with_region (s : Sys) (reg : Region) : Sys :=
  mkSys (net s) (senders s) reg (version s) (guard s) (tasks s).

(** The configuration's lock, and the version it guards. *)
Definition with_version (s : Sys) (v : Z) (g : option nat) : Sys :=
  mkSys (net s) (senders s) (region s) v g (tasks s).

Definition claim_entry (s : Sys) (c : nat) u h : Sys :=
  mkSys (set_nodes (net s) (<[u := h]> (r_nodes (net s)))) (<[u := c]> (senders s)) (region s)
    (version s) (guard s) (tasks s).

Definition remove_entry (s : Sys) u : Sys :=
  mkSys (set_nodes (net s) (delete u (r_nodes (net s)))) (delete u (senders s)) (region s)
    (version s) (guard s) (tasks s).

(** After [refresh_config]. *)
Definition resume (k : Kont) (snapshot : option ConfigSnapshot) : Pc :=
  match k with
  | KHello u name m => Assigning u name m snapshot
  | KFrame u h m => Handling u h m snapshot
  | KTimer => Closed
  end.

(** ** What a task does between two awaits *)

Definition is_system_msg m (name : string) : bool :=
  is_system_kind (msg_type (meta m)) && opt_str_is (msg (meta m)) name.

(** The checks on the first frame: the node's UUID and name, or the connection is refused. *)
Definition on_hello (cred : option Cred) m : option (Uuid * string) :=
  if negb (is_system_msg m MSG_HELLO) then None
  else match ho_hello_of_value host (msg_payload m) with
  | None => None
  | Some payload =>
    match e_parse_uuid E (src (routing m)), e_parse_uuid E (hello_uuid payload) with
    | Some src_uuid, Some node_uuid =>
      if negb (Z.eqb node_uuid src_uuid) then None
      else
        let node_name := normalize_name (hello_name payload) hive_id in
        if rt_name_allowed node_name (peer_pid cred) own_pid then Some (node_uuid, node_name) else None
    | _, _ => None
    end
  end.

Definition append_copy (subject producer : string) m : list Out :=
  match e_to_vec E m with Some data => [Append subject producer data] | None => [] end.

(** The copies of a message for the turns and for cognition, when the router takes it. *)
Definition entry_copies (name : string) m : list Out :=
  ((if should_publish_turn m then append_copy SUBJECT_STORAGE_TURNS name (turn_copy m name) else []) ++
   (if copied_for_cognition_at_entry name m then
      append_copy SUBJECT_COGNITION_TURNS name (cognition_copy m name) else []))%list.

Definition take_stream_append m (producer : string) : list Out :=
  match ho_append_of_value host (msg_payload m) with
  | Some append =>
    if subject_allowed (ap_subject append) producer (ho_role host) then
      match ho_value_to_vec host (ap_payload append) with
      | Some payload => [Append (ap_subject append) producer payload]
      | None => [Refused]
      end
    else [Refused]
  | None => [Refused]
  end.

(** A parsed frame of the read loop, up to the refresh of the configuration. *)
Definition on_frame r u h m : list Out * Pc :=
  let conn_node_name := nh_name h in
  if negb (frame_is_from_connection E m u) then ([], Serving u h)
  else if is_system_msg m MSG_STREAM_APPEND then (take_stream_append m conn_node_name, Serving u h)
  else
    let copies := entry_copies conn_node_name m in
    if is_system_msg m MSG_WITHDRAW then (copies, Leaving u h)
    else if is_system_msg m MSG_OPA_RELOAD then
      ((copies ++
        if e_is_reload_payload E (msg_payload m) then
          Reload m :: (if (2 <=? ttl (routing m))%Z then map Eff (fst (broadcast_to_peers E r m)) else [])
        else [])%list, Serving u h)
    else (copies, Refreshing (KFrame u h m) RfRead).

Definition announcement h m : Message V :=
  build_system_message (e_uuid_to_string E (e_router_uuid E)) (Unicast (src (routing m))) 1
    (trace_id (routing m)) MSG_ANNOUNCE
    (ho_json_announce host (mkNodeAnnouncePayload
       (match ho_hello_of_value host (msg_payload m) with Some p => hello_uuid p | None => "" end)
       (nh_name h) "registered" (nh_vpn_id h) (e_router_name E))).

Definition next_lsa_seq r : Router :=
  mkRouter (r_nodes r) (r_peer_nodes r) (r_peer_routers r) (r_peers r) (r_wan_peers r) (r_fib r)
    (r_static_routes r) (r_vpn_rules r) (r_tap_rules r) (r_seen r) (saturating_add64 (r_lsa_seq r) 1)
    (r_lsa_state r) (r_lsa_snapshot r) (r_reachability r).

Definition broadcast_lsa_direct r (now_text : string) : list Out * Router :=
  if bool_decide (r_wan_peers r = ∅) then ([], r)
  else
    let r := next_lsa_seq r in
    let payload := build_local_lsa_payload (e_uuid_to_string E) (e_router_uuid E) (e_router_name E) hive_id
      (r_lsa_seq r) (map snd (map_to_list (node_map (e_uuid_to_string E) (r_nodes r) (r_peer_nodes r))))
      (r_static_routes r) (r_vpn_rules r) (r_tap_rules r) now_text in
    (map (fun hive => LsaTo hive payload) (elements (r_wan_peers r)), r).

(** The FIB anew and, on the gateway, the LSA. *)
Definition tables_changed r (now_text : string) : list Out * Router :=
  let r := rebuilt r in if e_is_gateway E then broadcast_lsa_direct r now_text else ([], r).

(** The lock of the version: the snapshot is the one in force, or it is put in force. *)
Definition lock_version (s : Sys) (c : nat) (cred : option Cred) (k : Kont) (snapshot : ConfigSnapshot) : Sys :=
  if Z.eqb (cs_version snapshot) (version s) then goto s c cred (resume k (Some snapshot))
  else goto (with_version (with_net s (apply_config snapshot (net s))) (cs_version snapshot) (Some c)) c cred
         (Refreshing k (RfScan snapshot)).

(** The entry is this connection's by the time it was made. *)
Definition own_entry (s : Sys) u h : bool :=
  match r_nodes (net s) !! u with
  | Some handle => Z.eqb (nh_connected_at handle) (nh_connected_at h)
  | None => false
  end.

(** One step of the task [Some c], or of a part of the router that is not a connection. *)
Inductive step (s : Sys) : option nat -> list Out -> Sys -> Prop :=
(* A socket accepted, its HELLO, and the timer's refresh. *)
| st_open c cred : tasks s !! c = None -> local_peer_admitted cred (ho_own_uid host) = true ->
    step s (Some c) [] (goto s c cred Opened)
| st_no_hello c cred : tasks s !! c = Some (mkTask cred Opened) -> step s (Some c) [] (goto s c cred Closed)
| st_hello c cred m : tasks s !! c = Some (mkTask cred Opened) ->
    step s (Some c) [] (goto s c cred
      match on_hello cred m with
      | Some (u, name) => Refreshing (KHello u name m) RfRead
      | None => Closed
      end)
| st_timer c : tasks s !! c = None -> step s (Some c) [] (goto s c None (Refreshing KTimer RfRead))
(* [refresh_config]. *)
| st_unread c cred k : tasks s !! c = Some (mkTask cred (Refreshing k RfRead)) ->
    step s (Some c) [] (goto s c cred (resume k None))
| st_read c cred k snapshot : tasks s !! c = Some (mkTask cred (Refreshing k RfRead)) ->
    ho_published host snapshot -> step s (Some c) [] (goto s c cred (Refreshing k (RfLock snapshot)))
| st_lock c cred k snapshot : tasks s !! c = Some (mkTask cred (Refreshing k (RfLock snapshot))) ->
    guard s = None -> step s (Some c) [] (lock_version s c cred k snapshot)
| st_scan c cred k snapshot : tasks s !! c = Some (mkTask cred (Refreshing k (RfScan snapshot))) ->
    step s (Some c) [] (goto s c cred (Refreshing k
      match vpn_updates snapshot (r_nodes (net s)) with
      | [] => RfFib snapshot
      | updates => RfApply snapshot updates
      end))
| st_apply c cred k snapshot updates :
    tasks s !! c = Some (mkTask cred (Refreshing k (RfApply snapshot updates))) ->
    step s (Some c) [] (goto (with_net s (set_nodes (net s) (update_vpns updates (r_nodes (net s))))) c cred
                          (Refreshing k (RfShm snapshot updates)))
| st_shm c cred k snapshot updates now :
    tasks s !! c = Some (mkTask cred (Refreshing k (RfShm snapshot updates))) ->
    step s (Some c) [] (goto (with_region s (update_region_vpns updates now (region s))) c cred
                          (Refreshing k (RfFib snapshot)))
| st_fib c cred k snapshot : tasks s !! c = Some (mkTask cred (Refreshing k (RfFib snapshot))) ->
    step s (Some c) [] (goto (with_version (with_net s (rebuilt (net s))) (version s) None) c cred
                          (resume k (Some snapshot)))
(* [assign_vpn] and [claim_node_uuid]. *)
| st_assign c cred u name m snapshot connected_at clock :
    tasks s !! c = Some (mkTask cred (Assigning u name m snapshot)) ->
    step s (Some c) [] (goto s c cred
      (Claiming u (mkNodeHandle name (assign_vpn name (option_map cs_vpns snapshot)) connected_at) m
         (clock + DUPLICATE_HELLO_GRACE)))
| st_claim c cred u h m deadline clock : tasks s !! c = Some (mkTask cred (Claiming u h m deadline)) ->
    step s (Some c) []
      match r_nodes (net s) !! u with
      | None => goto (claim_entry s c u h) c cred (Registering u h m)
      | Some _ => goto s c cred (if (deadline <=? clock)%Z then Closed else Claiming u h m deadline)
      end
(* The registration in the region, and the end of the handshake. *)
| st_register c cred u h m now : tasks s !! c = Some (mkTask cred (Registering u h m)) ->
    step s (Some c) []
      match register_node u (nh_name h) (nh_vpn_id h) (nh_connected_at h) now (region s) with
      | inr reg => goto (with_region s reg) c cred (Joining u h m)
      | inl _ => goto s c cred (Unclaiming u h)
      end
| st_unclaim c cred u h : tasks s !! c = Some (mkTask cred (Unclaiming u h)) ->
    step s (Some c) [] (goto (if own_entry s u h then remove_entry s u else s) c cred Closed)
| st_join c cred u h m now_text : tasks s !! c = Some (mkTask cred (Joining u h m)) ->
    step s (Some c)
      (fst (tables_changed (net s) now_text) ++
       match e_to_vec E (announcement h m) with Some _ => [Announce u (announcement h m)] | None => [] end)
      (goto (with_net s (snd (tables_changed (net s) now_text))) c cred
         match e_to_vec E (announcement h m) with Some _ => Serving u h | None => Closed end)
(* The read loop: a frame, one that is no message, the end of the stream or an error. *)
| st_frame c cred u h m : tasks s !! c = Some (mkTask cred (Serving u h)) ->
    step s (Some c) (fst (on_frame (net s) u h m)) (goto s c cred (snd (on_frame (net s) u h m)))
| st_noise c cred u h : tasks s !! c = Some (mkTask cred (Serving u h)) -> step s (Some c) [] s
| st_eof c cred u h : tasks s !! c = Some (mkTask cred (Serving u h)) ->
    step s (Some c) [] (goto s c cred (Leaving u h))
| st_handle c cred u h m snapshot w : tasks s !! c = Some (mkTask cred (Handling u h m snapshot)) ->
    let r := refresh_lsa (w_region w) (net s) in
    step s (Some c) (map Eff (fst (fst (handle_message E w r (option_map cs_taps snapshot) m))))
      (goto (with_net s (snd (handle_message E w r (option_map cs_taps snapshot) m))) c cred (Serving u h))
(* The cleanup. *)
| st_leave c cred u h now : tasks s !! c = Some (mkTask cred (Leaving u h)) ->
    step s (Some c) [] (goto
      (if own_entry s u h then with_region (remove_entry s u) (unregister_node u now (region s)) else s)
      c cred Parting)
| st_part c cred now_text : tasks s !! c = Some (mkTask cred Parting) ->
    step s (Some c) (fst (tables_changed (net s) now_text))
      (goto (with_net s (snd (tables_changed (net s) now_text))) c cred Closed)
(* The other tasks: frames of other routers, the siblings, the LSA, the links, the heartbeat. *)
| st_link w from m out r : handled E w (net s) from m out r -> (forall u, from <> NodeCh u) ->
    step s None (map Eff out) (with_net s r)
| st_discover now files :
    step s None [] (with_net s (rebuilt (set_siblings (net s)
      (discover_peer_regions (e_router_uuid E) (ho_shm_name host) hive_id (ho_own_uid host) now files))))
| st_lsa lsa : step s None [] (with_net s (refresh_lsa lsa (net s)))
| st_links peers wan_peers reachability :
    step s None [] (with_net s (set_links (net s) peers wan_peers reachability))
| st_heartbeat policy_version load_status now now' :
    step s None [] (with_region s
      (update_opa_status policy_version load_status now' (update_heartbeat now (region s))))
| st_opa policy_version load_status now :
    step s None [] (with_region s (update_opa_status policy_version load_status now (region s))).

Definition fresh_router : Router := mkRouter ∅ ∅ ∅ ∅ ∅ [] [] [] [] ∅ 0 ∅ None ∅.

Definition initial (reg : Region) : Sys := mkSys fresh_router ∅ reg 0 None ∅.

(** A run from a router that starts: no node, its region taken over or new. *)
Inductive reachable : Sys -> Prop :=
| reach_fresh hive name gw start :
    reachable (initial (initialize_router_header (e_router_uuid E) hive name gw start))
| reach_restart hive name gw start reg : Z.of_nat (length (slots reg)) = MAX_NODES ->
    reachable (initial (take_over (e_router_uuid E) hive name gw start reg))
| reach_step s c out s' : reachable s -> step s c out s' -> reachable s'.

End Machine.

(** ** The names of the router's streams *)

(** Trimming the end stops at printable bytes and takes nothing from before them. *)
Lemma trim_rev_app p : p <> [] -> Forall (fun a => graphic a = true) p ->
  forall l, exists l1 l2, l = (l1 ++ l2)%list /\ trim_rev (l ++ p) = (l2 ++ p)%list.
Proof.
  intros Hne Hp l. destruct p as [|x p]; [done|]. apply Forall_cons in Hp as [Hx _].
  destruct (trim_rev_suffix l) as [q Hq]. exists q, (trim_rev l). split; [done|by apply trim_rev_before].
Qed.

(** [trim] of a text that begins with three printable bytes keeps them, and what follows them
    is a beginning of what followed them. *)
Lemma trim_prefix3 a b c rest : graphic a = true -> graphic b = true -> graphic c = true ->
  exists kept lost, list_ascii_of_string rest = (kept ++ lost)%list /\
    Prelude.trim (String a (String b (String c rest))) = String a (String b (String c (string_of_list_ascii kept))).
Proof.
  intros Ha Hb Hc. unfold Prelude.trim.
  assert (trim_start (String a (String b (String c rest))) = String a (String b (String c rest))) as ->.
  { destruct (graphic_plain a Ha) as (H1 & H2 & _ & H4 & _). cbn [trim_start]. by rewrite H1, H2, H4. }
  unfold trim_end. change (list_ascii_of_string (String a (String b (String c rest))))
    with ([a; b; c] ++ list_ascii_of_string rest)%list. rewrite rev_app_distr.
  destruct (trim_rev_app (rev [a; b; c])) with (l := rev (list_ascii_of_string rest)) as (l1 & l2 & Hl & ->).
  - done.
  - cbn. by repeat constructor.
  - exists (rev l2), (rev l1). split; [by rewrite <- rev_app_distr, <- Hl, rev_involutive|].
    by rewrite rev_app_distr.
Qed.

Lemma not_cont d : is_cont (byte_of_ascii d) = false -> ascii_between 128 191 d = false.
Proof. destruct d as [[] [] [] [] [] [] [] []]; by vm_compute. Qed.

Lemma lower_rt a b c : String (ascii_lower a) (String (ascii_lower b) (String (ascii_lower c) "")) = "rt." ->
  graphic a = true /\ graphic b = true /\ graphic c = true /\
  in_range 0 127 (byte_of_ascii a) = true /\ in_range 0 127 (byte_of_ascii b) = true /\
  in_range 0 127 (byte_of_ascii c) = true.
Proof.
  intros [= Ha Hb Hc].
  assert (forall x y, graphic (ascii_lower x) = true -> ascii_lower x = y ->
    graphic x = true /\ in_range 0 127 (byte_of_ascii x) = true) as Hg.
  { intros [[] [] [] [] [] [] [] []] y; by vm_compute. }
  destruct (Hg a "r"%char) as [? ?]; [by rewrite Ha|done|]. destruct (Hg b "t"%char) as [? ?]; [by rewrite Hb|done|].
  destruct (Hg c "."%char) as [? ?]; [by rewrite Hc|done|]. done.
Qed.

Lemma split_once_app c s l r : split_once c s = Some (l, r) -> s = (l ++ String c r)%string.
Proof.
  revert l. induction s as [|a s IH]; intros l; cbn [split_once]; [done|].
  destruct (Ascii.eqb a c) eqn:Ea; [apply Ascii.eqb_eq in Ea as ->; by intros [= <- <-]|].
  destruct (split_once c s) as [[l' r']|]; [|done]. intros [= <- <-]. by rewrite (IH l').
Qed.

(** A text of UTF-8 has a character boundary after three ASCII bytes. *)
Lemma prefix3_boundary a b c rest s : is_str (String a (String b (String c rest)) ++ s)%string ->
  in_range 0 127 (byte_of_ascii a) = true -> in_range 0 127 (byte_of_ascii b) = true ->
  in_range 0 127 (byte_of_ascii c) = true ->
  match rest with String d _ => ascii_between 128 191 d = false | EmptyString => True end.
Proof.
  destruct rest as [|d rest]; [done|]. intros Hs Ha Hb Hc. apply not_cont. unfold is_str in Hs.
  change (as_bytes (String a (String b (String c (String d rest))) ++ s)%string) with
    (byte_of_ascii a :: byte_of_ascii b :: byte_of_ascii c :: byte_of_ascii d :: as_bytes (rest ++ s)%string) in Hs.
  cbn [utf8_ok] in Hs. rewrite Ha, Hb, Hc in Hs. unfold is_cont in *. unfold in_range in *.
  revert Hs. generalize (as_bytes (rest ++ s)%string). intros l Hs.
  destruct ((128 <=? Z_of_byte (byte_of_ascii d))%Z && (Z_of_byte (byte_of_ascii d) <=? 191)%Z) eqn:Ed; [|done].
  rewrite andb_true_iff, !Z.leb_le in Ed. exfalso.
  repeat (case_match; try discriminate); repeat rewrite ?andb_true_iff, ?andb_false_iff, ?Z.leb_le, ?Z.leb_gt in *; lia.
Qed.

Lemma stream_name_reserved name pid own_pid : is_str name -> is_stream_node_name name = true ->
  rt_name_allowed name pid own_pid = true -> is_own_process pid own_pid = true.
Proof.
  intros Hs. unfold is_stream_node_name, rt_name_allowed, before_at.
  destruct (split_once "@" name) as [[local hive]|] eqn:Esp; [|done]. destruct (str_is_empty _); [done|]. cbv zeta.
  intros [[Hst _]%andb_true_iff _]%andb_true_iff. apply split_once_app in Esp as ->.
  destruct local as [|a [|b [|c rest]]]; cbn [to_ascii_lowercase str_map starts_with] in Hst;
    rewrite ?andb_false_r in Hst; [done..|]. rewrite !andb_true_iff, !Ascii.eqb_eq in Hst.
  destruct Hst as (Ea & Eb & Ec & _).
  destruct (lower_rt a b c) as (Ga & Gb & Gc & Ra & Rb & Rc); [by rewrite Ea, Eb, Ec|].
  destruct (trim_prefix3 a b c rest Ga Gb Gc) as (kept & lost & Hk & ->).
  pose proof (prefix3_boundary a b c rest _ Hs Ra Rb Rc) as Hd.
  assert (get_prefix 3 (String a (String b (String c (string_of_list_ascii kept)))) =
            Some (String a (String b (String c "")))) as ->.
  { unfold get_prefix. rewrite bool_decide_false by (cbn; lia). cbn [String.get].
    destruct kept as [|d kept]; [done|]. destruct rest as [|d' rest]; [done|]. injection Hk as <- _. cbn.
    by rewrite Hd. }
  unfold eq_ignore_ascii_case. cbn [to_ascii_lowercase str_map]. rewrite Ea, Eb, Ec. done.
Qed.

(** ** The invariant *)

Section Invariant.
Context {V : Type} (E : Env V) (host : Host V).
Hypothesis to_vec_total : forall m, is_Some (e_to_vec E m).
Implicit Types (m : Message V) (r : Router) (u : Uuid) (h : NodeHandle) (s : @Sys V) (pc : @Pc V).

(** The claim a task holds on the node table, and the one it holds on the region. *)
Definition owns pc : option (Uuid * NodeHandle) :=
  match pc with
  | Refreshing (KFrame u h _) _ | Registering u h _ | Unclaiming u h | Joining u h _ | Serving u h
  | Handling u h _ _ | Leaving u h => Some (u, h)
  | _ => None
  end.

Definition listed pc : option (Uuid * NodeHandle) :=
  match pc with
  | Registering _ _ _ | Unclaiming _ _ => None
  | _ => owns pc
  end.

(** The name a task's HELLO was taken with. *)
Definition named pc : option string :=
  match pc with
  | Refreshing (KHello _ name _) _ | Assigning _ name _ _ => Some name
  | Claiming _ h _ _ => Some (nh_name h)
  | _ => option_map (fun '(_, h) => nh_name h) (owns pc)
  end.

Definition pc_at s (c : nat) : Pc := match tasks s !! c with Some t => t_pc t | None => Closed end.

Definition cred_at s (c : nat) : option Cred := match tasks s !! c with Some t => t_cred t | None => None end.

(** The same node, whatever its VPN. *)
Definition same_node (h h0 : NodeHandle) : Prop :=
  nh_name h = nh_name h0 /\ nh_connected_at h = nh_connected_at h0.

Definition entry_of (e : NodeEntry) u h0 : Prop :=
  exists vpn_id, e = registered_entry u (nh_name h0) vpn_id (nh_connected_at h0).

Record inv s : Prop := {
  i_dom u c : senders s !! u = Some c -> is_Some (r_nodes (net s) !! u);
  i_node u h : r_nodes (net s) !! u = Some h ->
    exists c h0, senders s !! u = Some c /\ owns (pc_at s c) = Some (u, h0) /\ same_node h h0;
  i_owner c u h0 : owns (pc_at s c) = Some (u, h0) -> senders s !! u = Some c;
  i_region : region_ok (region s);
  i_entry u e : table (region s) !! u = Some e ->
    exists c h0, listed (pc_at s c) = Some (u, h0) /\ entry_of e u h0;
  i_listed c u h0 : listed (pc_at s c) = Some (u, h0) ->
    is_Some (table (region s) !! u) /\ (Z.of_nat (String.length (nh_name h0)) <= 256)%Z;
  i_name c name : named (pc_at s c) = Some name ->
    rt_name_allowed name (peer_pid (cred_at s c)) (ho_own_pid host) = true }.

Lemma at_task s c cred pc : tasks s !! c = Some (mkTask cred pc) -> pc_at s c = pc /\ cred_at s c = cred.
Proof. unfold pc_at, cred_at. by intros ->. Qed.

Lemma at_goto s c cred pc c' :
  pc_at (goto s c cred pc) c' = (if decide (c = c') then pc else pc_at s c') /\
  cred_at (goto s c cred pc) c' = (if decide (c = c') then cred else cred_at s c').
Proof.
  unfold pc_at, cred_at. cbn. destruct (decide (c = c')) as [->|Hne]; [by rewrite lookup_insert_eq|].
  by rewrite lookup_insert_ne.
Qed.

Lemma listed_owns pc x : listed pc = Some x -> owns pc = Some x.
Proof. by destruct pc. Qed.

(** A task that moves and keeps its claims, the node table and the region keeping theirs. *)
Lemma inv_move s s' c pc' cred' : inv s ->
  (forall c', pc_at s' c' = if decide (c = c') then pc' else pc_at s c') ->
  (forall c', cred_at s' c' = if decide (c = c') then cred' else cred_at s c') ->
  senders s' = senders s ->
  (forall u, option_Forall2 same_node (r_nodes (net s') !! u) (r_nodes (net s) !! u)) ->
  region_ok (region s') ->
  (forall u, option_Forall2 (fun e' e => forall h0, entry_of e u h0 -> entry_of e' u h0)
    (table (region s') !! u) (table (region s) !! u)) ->
  owns pc' = owns (pc_at s c) -> listed pc' = listed (pc_at s c) ->
  (forall name, named pc' = Some name -> rt_name_allowed name (peer_pid cred') (ho_own_pid host) = true) ->
  inv s'.
Proof.
  intros [H1 H2 H3 H4 H5 H6 H7] Hpc Hcr Hs Hn Hok Ht Ho Hl Hna.
  assert (forall c', owns (pc_at s' c') = owns (pc_at s c')) as Ho'.
  { intros c'. rewrite Hpc. by destruct (decide (c = c')) as [<-|]. }
  assert (forall c', listed (pc_at s' c') = listed (pc_at s c')) as Hl'.
  { intros c'. rewrite Hpc. by destruct (decide (c = c')) as [<-|]. }
  split; [..|done| | |]; try (setoid_rewrite Ho'); try (setoid_rewrite Hl'); try rewrite Hs.
  - intros u c' [h Hh]%H1. specialize (Hn u). rewrite Hh in Hn. inversion Hn. by eexists.
  - intros u h Hh. specialize (Hn u). rewrite Hh in Hn. inversion Hn as [? h1 [E1 E2] Hx Hy|].
    symmetry in Hy. destruct (H2 _ _ Hy) as (c' & h0 & ? & ? & [? ?]). exists c', h0. split_and!; [done..|].
    split; congruence.
  - done.
  - intros u e He. specialize (Ht u). rewrite He in Ht. inversion Ht as [? e1 E1 Hx Hy|].
    symmetry in Hy. destruct (H5 _ _ Hy) as (c' & h0 & ? & ?). exists c', h0. auto.
  - intros c' u h0 [[e He] ?]%H6. split; [|done]. specialize (Ht u). rewrite He in Ht. inversion Ht. by eexists.
  - intros c' name. rewrite Hpc, Hcr. destruct (decide (c = c')); [apply Hna|apply H7].
Qed.

Lemma same_node_refl (o : option NodeHandle) : option_Forall2 same_node o o.
Proof. destruct o; by repeat constructor. Qed.

Lemma entry_refl u (o : option NodeEntry) :
  option_Forall2 (fun e' e => forall h0, entry_of e u h0 -> entry_of e' u h0) o o.
Proof. destruct o; by repeat constructor. Qed.

Lemma inv_nodes s r : inv s -> (forall u, option_Forall2 same_node (r_nodes r !! u) (r_nodes (net s) !! u)) ->
  inv (with_net s r).
Proof.
  intros Hi Hn. apply (inv_move s _ 0 (pc_at s 0) (cred_at s 0) Hi); try done.
  - intros c'. by destruct (decide (0 = c')) as [<-|].
  - intros c'. by destruct (decide (0 = c')) as [<-|].
  - apply Hi.
  - intros u. apply entry_refl.
  - intros name. apply Hi.
Qed.

Lemma inv_net s r : inv s -> r_nodes r = r_nodes (net s) -> inv (with_net s r).
Proof. intros Hi Hr. apply inv_nodes; [done|]. intros u. rewrite Hr. apply same_node_refl. Qed.

Lemma inv_version s v g : inv s -> inv (with_version s v g).
Proof. intros []. by split. Qed.

Lemma inv_region s reg : inv s -> region_ok reg ->
  (forall u, option_Forall2 (fun e' e => forall h0, entry_of e u h0 -> entry_of e' u h0)
    (table reg !! u) (table (region s) !! u)) ->
  inv (with_region s reg).
Proof.
  intros Hi Hok Ht. apply (inv_move s _ 0 (pc_at s 0) (cred_at s 0) Hi); try done.
  - intros c'. by destruct (decide (0 = c')) as [<-|].
  - intros c'. by destruct (decide (0 = c')) as [<-|].
  - intros u. apply same_node_refl.
  - intros name. apply Hi.
Qed.

Lemma inv_goto s c cred pc pc' : inv s -> tasks s !! c = Some (mkTask cred pc) ->
  owns pc' = owns pc -> listed pc' = listed pc ->
  (forall name, named pc' = Some name ->
     named pc = Some name \/ rt_name_allowed name (peer_pid cred) (ho_own_pid host) = true) ->
  inv (goto s c cred pc').
Proof.
  intros Hi Hc Ho Hl Hn. destruct (at_task _ _ _ _ Hc) as [Hpc Hcr].
  apply (inv_move s _ c pc' cred Hi); try (intros c'; apply at_goto); try done.
  - intros u. apply same_node_refl.
  - apply Hi.
  - intros u. apply entry_refl.
  - by rewrite Hpc.
  - by rewrite Hpc.
  - intros name [H|H]%Hn; [|done]. rewrite <- Hcr. apply Hi. by rewrite Hpc.
Qed.

Lemma inv_start s c cred pc : inv s -> tasks s !! c = None -> owns pc = None -> named pc = None ->
  inv (goto s c cred pc).
Proof.
  intros Hi Hc Ho Hn. assert (pc_at s c = Closed) as Hpc by (unfold pc_at; by rewrite Hc).
  apply (inv_move s _ c pc cred Hi); try (intros c'; apply at_goto); try done.
  - intros u. apply same_node_refl.
  - apply Hi.
  - intros u. apply entry_refl.
  - by rewrite Hpc.
  - rewrite Hpc. destruct (listed pc) as [x|] eqn:El; [|done]. apply listed_owns in El. congruence.
  - congruence.
Qed.

(** ** Taking and leaving a UUID *)

Lemma inv_claim s c cred u h m deadline : inv s -> tasks s !! c = Some (mkTask cred (Claiming u h m deadline)) ->
  r_nodes (net s) !! u = None -> inv (goto (claim_entry s c u h) c cred (Registering u h m)).
Proof.
  intros [H1 H2 H3 H4 H5 H6 H7] Hc Hu. destruct (at_task _ _ _ _ Hc) as [Hpc Hcr].
  assert (forall c', pc_at (goto (claim_entry s c u h) c cred (Registering u h m)) c' =
            if decide (c = c') then Registering u h m else pc_at s c') as Hpc'.
  { intros c'. by rewrite (proj1 (at_goto _ _ _ _ _)). }
  assert (senders s !! u = None) as Hsu.
  { destruct (senders s !! u) eqn:Es; [|done]. destruct (H1 _ _ Es). congruence. }
  split; cbn [senders net region goto claim_entry set_nodes r_nodes]; try done; try setoid_rewrite Hpc'.
  - intros v c'. destruct (decide (u = v)) as [<-|]; [rewrite !lookup_insert_eq; by eexists|].
    rewrite !lookup_insert_ne by done. apply H1.
  - intros v h'. destruct (decide (u = v)) as [<-|].
    + rewrite !lookup_insert_eq. intros [= <-]. exists c, h. by rewrite decide_True.
    + rewrite !lookup_insert_ne by done. intros (c' & h0 & ? & ? & ?)%H2. exists c', h0.
      rewrite decide_False; [done|]. intros ->. by rewrite Hpc in *.
  - intros c' v h0. destruct (decide (c = c')) as [<-|].
    + intros [= -> ->]. by rewrite lookup_insert_eq.
    + intros Hs%H3. rewrite lookup_insert_ne; [done|]. intros ->. congruence.
  - intros v e (c' & h0 & ? & ?)%H5. exists c', h0. rewrite decide_False; [done|]. intros ->. by rewrite Hpc in *.
  - intros c' v h0. destruct (decide (c = c')) as [<-|]; [done|]. apply H6.
  - intros c' name. rewrite (proj2 (at_goto _ _ _ _ _)). destruct (decide (c = c')) as [<-|]; [|apply H7].
    intros [= <-]. rewrite <- Hcr. apply H7. by rewrite Hpc.
Qed.

Lemma own_entry_true s c cred pc u h : inv s -> tasks s !! c = Some (mkTask cred pc) -> owns pc = Some (u, h) ->
  own_entry s u h = true.
Proof.
  intros [H1 H2 H3 _ _ _ _] Hc Ho. destruct (at_task _ _ _ _ Hc) as [Hpc _]. rewrite <- Hpc in Ho.
  pose proof (H3 _ _ _ Ho) as Hs. destruct (H1 _ _ Hs) as [h' Hh']. unfold own_entry. rewrite Hh'.
  destruct (H2 _ _ Hh') as (c' & h0 & Hs' & Ho' & _ & Hat). rewrite Hs in Hs'. injection Hs' as <-.
  rewrite Ho in Ho'. injection Ho' as ->. by apply Z.eqb_eq.
Qed.

(** Two tasks with a claim on one UUID are one task. *)
Lemma owner_unique s c c' u h h' : inv s -> owns (pc_at s c) = Some (u, h) ->
  owns (pc_at s c') = Some (u, h') -> c' = c.
Proof. intros Hi H%(i_owner s Hi) H'%(i_owner s Hi). congruence. Qed.

Lemma inv_register s c cred u h m reg : inv s -> tasks s !! c = Some (mkTask cred (Registering u h m)) ->
  region_ok reg -> (Z.of_nat (String.length (nh_name h)) <= 256)%Z ->
  table reg = <[u := registered_entry u (nh_name h) (nh_vpn_id h) (nh_connected_at h)]> (table (region s)) ->
  inv (goto (with_region s reg) c cred (Joining u h m)).
Proof.
  intros Hi Hc Hok Hlen Ht. destruct (at_task _ _ _ _ Hc) as [Hpc Hcr].
  assert (forall c', pc_at (goto (with_region s reg) c cred (Joining u h m)) c' =
            if decide (c = c') then Joining u h m else pc_at s c') as Hpc'.
  { intros c'. by rewrite (proj1 (at_goto _ _ _ _ _)). }
  assert (forall c', owns (if decide (c = c') then Joining u h m else pc_at s c') = owns (pc_at s c')) as Ho.
  { intros c'. destruct (decide (c = c')) as [<-|]; [by rewrite Hpc|done]. }
  pose proof Hi as [H1 H2 H3 H4 H5 H6 H7].
  split; cbn [senders net region goto with_region]; try done; try setoid_rewrite Hpc'; try setoid_rewrite Ho;
    try done; rewrite ?Ht.
  - intros v e. destruct (decide (u = v)) as [<-|].
    + rewrite lookup_insert_eq. intros [= <-]. exists c, h. rewrite decide_True by done. split; [done|]. by eexists.
    + rewrite lookup_insert_ne by done. intros (c' & h0 & ? & ?)%H5. exists c', h0.
      rewrite decide_False; [done|]. intros ->. by rewrite Hpc in *.
  - intros c' v h0. destruct (decide (c = c')) as [<-|].
    + intros [= -> ->]. rewrite lookup_insert_eq. split; [by eexists|done].
    + intros [? ?]%H6. split; [|done]. destruct (decide (u = v)) as [<-|].
      * rewrite lookup_insert_eq. by eexists.
      * by rewrite lookup_insert_ne.
  - intros c' name. rewrite (proj2 (at_goto _ _ _ _ _)). destruct (decide (c = c')) as [<-|]; [|apply H7].
    intros [= <-]. rewrite <- Hcr. apply H7. by rewrite Hpc.
Qed.

Lemma inv_release s c cred pc u h reg pc' : inv s -> tasks s !! c = Some (mkTask cred pc) ->
  owns pc = Some (u, h) -> owns pc' = None -> named pc' = None ->
  region_ok reg -> table reg = delete u (table (region s)) ->
  inv (goto (with_region (remove_entry s u) reg) c cred pc').
Proof.
  intros Hi Hc Ho Ho' Hn' Hok Ht. destruct (at_task _ _ _ _ Hc) as [Hpc Hcr]. rewrite <- Hpc in Ho.
  set (s' := goto _ _ _ _). assert (forall c', pc_at s' c' = if decide (c = c') then pc' else pc_at s c') as Hpc'.
  { intros c'. unfold s'. by rewrite (proj1 (at_goto _ _ _ _ _)). }
  assert (listed pc' = None) as Hl'.
  { destruct (listed pc') eqn:El; [|done]. apply listed_owns in El. congruence. }
  assert (forall c' v h0, owns (pc_at s' c') = Some (v, h0) -> c <> c' /\ owns (pc_at s c') = Some (v, h0)) as Hown.
  { intros c' v h0. rewrite Hpc'. destruct (decide (c = c')); [congruence|done]. }
  pose proof Hi as [H1 H2 H3 H4 H5 H6 H7].
  assert (forall c' v h0, c <> c' -> owns (pc_at s c') = Some (v, h0) -> u <> v) as Hne.
  { intros c' v h0 Hcc Hv ->. apply Hcc. symmetry. by eapply owner_unique. }
  split; unfold s'; cbn [senders net region goto with_region remove_entry set_nodes r_nodes]; fold s'; try done.
  - intros v c' [Huv Hs]%lookup_delete_Some. rewrite lookup_delete_ne by done. by eapply H1.
  - intros v h' [Huv Hh]%lookup_delete_Some. destruct (H2 _ _ Hh) as (c' & h0 & Hs & Hv & ?).
    exists c', h0. rewrite lookup_delete_ne, Hpc', decide_False; [done| |done]. intros ->. congruence.
  - intros c' v h0 [Hcc Hv]%Hown. rewrite lookup_delete_ne by eauto. by eapply H3.
  - rewrite Ht. intros v e [Huv He]%lookup_delete_Some. destruct (H5 _ _ He) as (c' & h0 & Hl & ?).
    exists c', h0. rewrite Hpc', decide_False; [done|]. intros ->. apply listed_owns in Hl. congruence.
  - intros c' v h0. rewrite Hpc'. destruct (decide (c = c')) as [|Hcc]; [congruence|]. intros Hl.
    destruct (H6 _ _ _ Hl). rewrite Ht, lookup_delete_ne; [done|]. apply listed_owns in Hl. eauto.
  - intros c' name. rewrite Hpc'. unfold s'. rewrite (proj2 (at_goto _ _ _ _ _)).
    destruct (decide (c = c')); [congruence|apply H7].
Qed.

(** A claim that never reached the region has no entry there. *)
Lemma unlisted_entry s c u h : inv s -> owns (pc_at s c) = Some (u, h) -> listed (pc_at s c) = None ->
  table (region s) !! u = None.
Proof.
  intros Hi Ho Hl. destruct (table (region s) !! u) as [e|] eqn:He; [|done].
  destruct (i_entry s Hi _ _ He) as (c' & h0 & Hl' & _). pose proof (listed_owns _ _ Hl') as Ho'.
  rewrite (owner_unique s c c' u h h0) in Hl' by done. congruence.
Qed.

(** ** What leaves the node table and the configuration's tables alone *)

Section Kept.
Context {A : Type} (f : Router -> A).
Hypothesis f_seen : forall r seen, f (set_seen r seen) = f r.
Hypothesis f_lsa : forall r state snapshot, f (set_lsa r state snapshot) = f r.
Hypothesis f_rebuilt : forall r, f (rebuilt r) = f r.
Hypothesis f_reachability : forall r table, f (set_reachability r table) = f r.
Hypothesis f_lsa_seq : forall r, f (next_lsa_seq r) = f r.

Lemma once_kept w r m (k : M V unit) : f (snd (once E w r m k)) = f r.
Proof. unfold once. destruct (e_parse_uuid E _); [|done]. destruct (check_and_add _ _ _). apply f_seen. Qed.

Lemma refresh_lsa_kept lsa r : f (refresh_lsa lsa r) = f r.
Proof. destruct lsa; cbn; [by rewrite f_rebuilt, f_lsa|done]. Qed.

Lemma handle_message_kept w r taps m : f (snd (handle_message E w r taps m)) = f r.
Proof.
  unfold handle_message. destruct (e_parse_uuid E _); [|done]. destruct (r_nodes r !! _); [|done]. cbv zeta.
  destruct (Z.eqb _ 0); [done|]. by destruct (dst _); [|apply once_kept|].
Qed.

Lemma handled_kept w r from m out r' : handled E w r from m out r' -> f r' = f r.
Proof.
  intros [taps u m1 _|hive pu pn epoch m1|p m1].
  - apply handle_message_kept.
  - unfold handle_wan_message. cbv zeta. destruct (_ && opt_str_is _ MSG_LSA).
    { cbn. unfold take_lsa. destruct (e_lsa_of_value E _); [|done].
      destruct (apply_lsa_payload _ _ _ _ _ _ _ _ _) as [st []]; apply f_lsa. }
    destruct (_ && opt_str_is _ MSG_WAN_REACHABILITY).
    { cbn. unfold take_reachability. cbv zeta. destruct (_ && _); by rewrite ?f_rebuilt, f_reachability. }
    destruct (_ && is_report _); [done|]. destruct (e_parse_uuid E _); [|done].
    destruct (wan_frame_source _ _ _ _); [|done]. unfold handle_wan_data. cbv zeta.
    destruct (Z.eqb _ 0); [done|]. by destruct (dst _); [|apply once_kept|].
  - unfold handle_peer_message. destruct (e_parse_uuid E _) as [v|]; [|done]. cbv zeta.
    destruct (_ && opt_str_is _ MSG_OPA_RELOAD); [done|].
    assert (f (snd (peer_source w r p v)) = f r) as Hn.
    { unfold peer_source. destruct (r_peer_nodes r !! v); [done|]. destruct (remote_source_from_gateway _ _ _); [done|].
      destruct (from_gateway r p); [apply refresh_lsa_kept|done]. }
    destruct (peer_source w r p v) as [[n|] r1]; cbn in *; [|done]. by rewrite refresh_lsa_kept.
Qed.

Lemma tables_changed_kept r now_text : f (snd (tables_changed E r now_text)) = f r.
Proof.
  unfold tables_changed. cbv zeta. destruct (e_is_gateway E); [|apply f_rebuilt]. unfold broadcast_lsa_direct.
  destruct (bool_decide _); cbn [snd]; by rewrite ?f_lsa_seq, f_rebuilt.
Qed.

End Kept.

Lemma update_vpns_same updates nodes u : option_Forall2 same_node (update_vpns updates nodes !! u) (nodes !! u).
Proof.
  unfold update_vpns. revert nodes. induction updates as [|[v vpn_id] updates IH]; intros nodes; cbn.
  { apply same_node_refl. }
  specialize (IH (alter (with_node_vpn vpn_id) v nodes)). destruct (decide (v = u)) as [->|Hv].
  - rewrite lookup_alter_eq in IH. destruct (nodes !! u) as [h|]; cbn in IH; inversion IH; constructor.
    unfold same_node in *. cbn in *. done.
  - by rewrite lookup_alter_ne in IH.
Qed.

Lemma update_region_vpns_same updates now reg : region_ok reg ->
  region_ok (update_region_vpns updates now reg) /\
  forall u, option_Forall2 (fun e' e => forall h0, entry_of e u h0 -> entry_of e' u h0)
    (table (update_region_vpns updates now reg) !! u) (table reg !! u).
Proof.
  unfold update_region_vpns. revert reg. induction updates as [|[v vpn_id] updates IH]; intros reg Hok; cbn.
  { split; [done|]. intros u. apply entry_refl. }
  destruct (update_node_vpn_spec v vpn_id now reg Hok) as [Hok' Ht].
  destruct (IH _ Hok') as [Hok2 Hs]. split; [done|]. intros u. specialize (Hs u). rewrite Ht in Hs.
  destruct (decide (v = u)) as [->|Hv].
  - rewrite lookup_alter_eq in Hs. destruct (table reg !! u) as [e|]; cbn in Hs; inversion Hs as [e' ? Hx|]; constructor.
    intros h0 [old ->]. apply Hx. by exists vpn_id.
  - by rewrite lookup_alter_ne in Hs.
Qed.

(** ** Every step keeps the invariant *)

Lemma on_hello_allowed cred m u name : on_hello E host cred m = Some (u, name) ->
  rt_name_allowed name (peer_pid cred) (ho_own_pid host) = true.
Proof.
  unfold on_hello. destruct (negb _); [done|]. destruct (ho_hello_of_value host _) as [payload|]; [|done].
  destruct (e_parse_uuid E _); [|done]. destruct (e_parse_uuid E (hello_uuid payload)); [|done].
  destruct (negb _); [done|]. cbv zeta.
  destruct (rt_name_allowed _ _ _) eqn:Ea; [|done]. by intros [= <- <-].
Qed.

Lemma resume_claims k snapshot st :
  owns (resume k snapshot) = owns (Refreshing k st) /\ listed (resume k snapshot) = listed (Refreshing k st) /\
  forall name, named (resume k snapshot) = Some name -> named (Refreshing k st) = Some name.
Proof. by destruct k. Qed.

Lemma on_frame_claims r u h m : owns (snd (on_frame E host r u h m)) = Some (u, h) /\
  listed (snd (on_frame E host r u h m)) = Some (u, h) /\
  named (snd (on_frame E host r u h m)) = Some (nh_name h).
Proof. unfold on_frame. cbv zeta. by repeat case_match. Qed.

(** The task moves and holds what it held. *)
Ltac moves := eapply inv_goto; [try eassumption|cbn; eassumption|done|done|by auto].

Lemma inv_refresh s c cred k st pc' : inv s -> tasks s !! c = Some (mkTask cred (Refreshing k st)) ->
  (exists st', pc' = Refreshing k st') \/ (exists snapshot, pc' = resume k snapshot) ->
  inv (goto s c cred pc').
Proof.
  intros Hi Hc [[st' ->]|[snapshot ->]].
  - eapply inv_goto; [done..|]. cbn. by destruct k; auto.
  - destruct (resume_claims k snapshot st) as (? & ? & ?). eapply inv_goto; [done..|]. auto.
Qed.

Lemma inv_join s c cred u h m r : inv s -> tasks s !! c = Some (mkTask cred (Joining u h m)) ->
  r_nodes r = r_nodes (net s) ->
  inv (goto (with_net s r) c cred match e_to_vec E (announcement E host h m) with Some _ => Serving u h | None => Closed end).
Proof.
  intros Hi Hc Hr. destruct (to_vec_total (announcement E host h m)) as [data ->].
  eapply inv_goto; [by apply inv_net|done..|]. auto.
Qed.

Lemma inv_register_step s c cred u h m now : inv s -> tasks s !! c = Some (mkTask cred (Registering u h m)) ->
  inv match register_node u (nh_name h) (nh_vpn_id h) (nh_connected_at h) now (region s) with
      | inr reg => goto (with_region s reg) c cred (Joining u h m)
      | inl _ => goto s c cred (Unclaiming u h)
      end.
Proof.
  intros Hi Hc.
  destruct (register_node_spec u (nh_name h) (nh_vpn_id h) (nh_connected_at h) now (region s) (i_region s Hi)) as [Hs Hok].
  destruct (register_node _ _ _ _ _ _) as [e|reg].
  - eapply inv_goto; [done..|]. auto.
  - cbn [on_table] in Hs. unfold spec_register in Hs.
    destruct (Z.ltb_spec 256 (Z.of_nat (String.length (nh_name h)))); [done|].
    eapply inv_register; [done..|by apply Hok|done|].
    destruct (table (region s) !! u); [by injection Hs|]. destruct (_ <=? _)%Z; [done|]. by injection Hs.
Qed.

Lemma inv_step s c out s' : inv s -> step E host s c out s' -> inv s'.
Proof.
  intros Hi Hst. destruct Hst as
    [c cred Hc _|c cred Hc|c cred m Hc|c Hc|c cred k Hc|c cred k snapshot Hc _|c cred k snapshot Hc Hg
    |c cred k snapshot Hc|c cred k snapshot upd Hc|c cred k snapshot upd now Hc|c cred k snapshot Hc
    |c cred u name m snapshot at_ clock Hc|c cred u h m deadline clock Hc|c cred u h m now Hc|c cred u h Hc
    |c cred u h m txt Hc|c cred u h m Hc|c cred u h Hc|c cred u h Hc|c cred u h m snapshot w Hc r
    |c cred u h now Hc|c cred txt Hc|w from m out r Hh _|now files|lsa|peers wan reach|v st now now'|v st now].
  - by apply inv_start.
  - moves.
  - destruct (on_hello E host cred m) as [[u name]|] eqn:Eh; [|moves].
    eapply inv_goto; [done..|]. intros n [= <-]. right. by eapply on_hello_allowed.
  - by apply inv_start.
  - eapply inv_refresh; eauto.
  - eapply inv_refresh; eauto.
  - unfold lock_version. destruct (Z.eqb _ _); [eapply inv_refresh; eauto|].
    eapply inv_refresh; [apply inv_version, inv_net; [done|done]|cbn; eassumption|eauto].
  - eapply inv_refresh; eauto.
  - eapply inv_refresh; [apply inv_nodes; [done|apply update_vpns_same]|cbn; eassumption|eauto].
  - destruct (update_region_vpns_same upd now (region s) (i_region s Hi)).
    eapply inv_refresh; [by apply inv_region|cbn; eassumption|eauto].
  - eapply inv_refresh; [by apply inv_version, inv_net|cbn; eassumption|eauto].
  - moves.
  - destruct (r_nodes (net s) !! u) eqn:Hu; [|by eapply inv_claim].
    destruct (_ <=? _)%Z; moves.
  - by apply inv_register_step.
  - rewrite (own_entry_true s c cred _ u h Hi Hc eq_refl).
    apply (inv_release s c cred _ u h (region s) Closed Hi Hc); try done; [apply Hi|].
    destruct (at_task _ _ _ _ Hc) as [Hpc _]. rewrite delete_id; [done|].
    eapply unlisted_entry; [done|by rewrite Hpc..].
  - apply inv_join; [done..|]. by apply (tables_changed_kept r_nodes).
  - destruct (on_frame_claims (net s) u h m) as (Ho & Hl & Hn). eapply inv_goto; [done..|].
    rewrite Hn. auto.
  - done.
  - moves.
  - eapply inv_goto; [apply inv_net; [done|]|cbn; eassumption|done|done|by auto].
    rewrite (handle_message_kept r_nodes) by done. by apply (refresh_lsa_kept r_nodes).
  - rewrite (own_entry_true s c cred _ u h Hi Hc eq_refl).
    destruct (unregister_node_spec u now (region s) (i_region s Hi)). by eapply inv_release.
  - eapply inv_goto; [apply inv_net; [done|by apply (tables_changed_kept r_nodes)]|cbn; eassumption|done..].
  - apply inv_net; [done|]. by eapply (handled_kept r_nodes).
  - by apply inv_net.
  - apply inv_net; [done|]. apply refresh_same.
  - by apply inv_net.
  - destruct (opa_status_ok v st now' (update_heartbeat now (region s))) as [Hok Ht].
    { apply heartbeat_ok, Hi. }
    apply inv_region; [done..|]. intros u. rewrite Ht. apply entry_refl.
  - destruct (opa_status_ok v st now (region s)) as [Hok Ht]; [apply Hi|].
    apply inv_region; [done..|]. intros u. rewrite Ht. apply entry_refl.
Qed.

Lemma inv_initial reg : region_ok reg -> table reg = ∅ -> inv (initial reg).
Proof.
  intros Hok Ht. assert (forall c, pc_at (initial reg) c = Closed) as Hpc by done.
  split; cbn; rewrite ?Ht; try done; intros *; try (by rewrite ?Hpc); by rewrite lookup_empty.
Qed.

Lemma reachable_inv s : reachable E host s -> inv s.
Proof.
  induction 1 as [hive name gw start|hive name gw start reg Hl|s c out s' _ IH Hst].
  - destruct (new_region_ok (e_router_uuid E) hive name gw start). by apply inv_initial.
  - destruct (take_over_ok (e_router_uuid E) hive name gw start reg Hl). by apply inv_initial.
  - by eapply inv_step.
Qed.

(** ** The frame in hand, and the region's owner *)

(** A frame a task handles is its node's. *)
Definition frame_ok pc : Prop :=
  match pc with
  | Refreshing (KFrame u _ m) _ | Handling u _ m _ => frame_is_from_connection E m u = true
  | _ => True
  end.

Definition frames_ok s : Prop := forall c, frame_ok (pc_at s c).

Lemma frames_goto s s0 c cred pc : frames_ok s -> frame_ok pc -> tasks s0 = tasks s -> frames_ok (goto s0 c cred pc).
Proof.
  intros Hs Hpc Ht c'. rewrite (proj1 (at_goto _ _ _ _ _)). destruct (decide (c = c')); [done|].
  unfold pc_at. rewrite Ht. apply Hs.
Qed.

Lemma on_frame_ok r u h m : frame_ok (snd (on_frame E host r u h m)).
Proof.
  unfold on_frame. cbv zeta. destruct (frame_is_from_connection E m u) eqn:Ef; [|done]. cbn [negb].
  by repeat case_match.
Qed.

Lemma resume_ok k st snapshot : frame_ok (Refreshing k st) -> frame_ok (resume k snapshot).
Proof. by destruct k. Qed.

Lemma frames_step s c out s' : frames_ok s -> step E host s c out s' -> frames_ok s'.
Proof.
  intros Hi Hst. destruct Hst; try exact Hi; try match goal with
    | Hc : tasks s !! ?c = Some _ |- _ =>
      pose proof (Hi c) as Hf; rewrite (proj1 (at_task _ _ _ _ Hc)) in Hf
    end; unfold lock_version; repeat case_match;
    (apply (frames_goto s); [done| |done]); try done; try (by eapply resume_ok); apply on_frame_ok.
Qed.

Lemma header_step s c out s' : step E host s c out s' ->
  h_router_uuid (hdr (region s')) = h_router_uuid (hdr (region s)).
Proof.
  intros Hst. destruct Hst; unfold lock_version; try done; try (by repeat case_match).
  - cbn [region goto with_region]. unfold update_region_vpns. clear.
    generalize (region s). induction updates as [|[v vpn_id] l IH]; intros reg; cbn; [done|].
    rewrite IH. apply update_vpn_header.
  - destruct (register_node _ _ _ _ _ _) eqn:Er; [done|]. by eapply register_header.
  - cbn [region goto with_region]. destruct (own_entry s u h); [apply unregister_header|done].
  - cbn [region with_region]. by rewrite opa_status_header.
  - cbn [region with_region]. by rewrite opa_status_header.
Qed.

Lemma reachable_frames s : reachable E host s ->
  frames_ok s /\ h_router_uuid (hdr (region s)) = e_router_uuid E.
Proof.
  induction 1 as [hive name gw start|hive name gw start reg Hl|s c out s' _ [Hf Hh] Hst]; [done..|].
  split; [by eapply frames_step|]. by rewrite (header_step _ _ _ _ Hst).
Qed.

(** ** The configuration in force *)

(** The tables the configuration gives. *)
Definition config_of (r : Router) : list StaticRoute * list VpnAssignment * list TapEntry :=
  (r_static_routes r, r_vpn_rules r, r_tap_rules r).

(** A snapshot SY.config published has the version in force, and gives the tables. *)
Definition in_force s : Prop :=
  (version s = 0%Z /\ config_of (net s) = ([], [], [])) \/
  exists snapshot, ho_published host snapshot /\ version s = cs_version snapshot /\
    config_of (net s) = (config_routes snapshot, cs_vpns snapshot, cs_taps snapshot).

(** The snapshots tasks hold are published ones. *)
Definition held_published s : Prop :=
  forall c cred k snapshot, tasks s !! c = Some (mkTask cred (Refreshing k (RfLock snapshot))) -> ho_published host snapshot.

Lemma in_force_same s s' : in_force s -> version s' = version s -> config_of (net s') = config_of (net s) -> in_force s'.
Proof. unfold in_force. by intros H -> ->. Qed.

Lemma in_force_step s c out s' : in_force s -> held_published s -> step E host s c out s' -> in_force s'.
Proof.
  intros Hi Hh Hst. destruct Hst; try exact Hi.
  - unfold lock_version. destruct (Z.eqb _ _); [exact Hi|]. right. exists snapshot. split; [by eapply Hh|done].
  - eapply in_force_same; [exact Hi|..]; by destruct (r_nodes (net s) !! u).
  - eapply in_force_same; [exact Hi|..]; by destruct (register_node _ _ _ _ _ _).
  - eapply in_force_same; [exact Hi|..]; by destruct (own_entry s u h).
  - eapply in_force_same; [exact Hi|done|]. cbn. by apply (tables_changed_kept config_of).
  - eapply in_force_same; [exact Hi|done|]. cbn.
    rewrite (handle_message_kept config_of) by done. by apply (refresh_lsa_kept config_of).
  - eapply in_force_same; [exact Hi|..]; by destruct (own_entry s u h).
  - eapply in_force_same; [exact Hi|done|]. cbn. by apply (tables_changed_kept config_of).
  - eapply in_force_same; [exact Hi|done|]. cbn. by eapply (handled_kept config_of).
  - eapply in_force_same; [exact Hi|done|]. cbn. by apply (refresh_lsa_kept config_of).
Qed.

(** Where a task goes: only the read of a snapshot leads to the lock. *)
Lemma held_goto s s0 c cred pc : held_published s -> tasks s0 = tasks s ->
  (forall k snapshot, pc = Refreshing k (RfLock snapshot) -> ho_published host snapshot) ->
  held_published (goto s0 c cred pc).
Proof.
  intros Hh Ht Hp c' cred' k snapshot. cbn. rewrite Ht. destruct (decide (c' = c)) as [->|].
  - rewrite lookup_insert_eq. intros [= -> ->]. by eapply Hp.
  - rewrite lookup_insert_ne by done. apply Hh.
Qed.

Lemma on_frame_no_lock r u h m k snapshot : snd (on_frame E host r u h m) <> Refreshing k (RfLock snapshot).
Proof. unfold on_frame. cbv zeta. by repeat case_match. Qed.

Lemma resume_no_lock k snapshot k' snapshot' : resume (V := V) k snapshot <> Refreshing k' (RfLock snapshot').
Proof. by destruct k. Qed.

Lemma held_step s c out s' : held_published s -> step E host s c out s' -> held_published s'.
Proof.
  intros Hh Hst. destruct Hst; try exact Hh; unfold lock_version; repeat case_match;
    (apply (held_goto s); [done|done|]); intros k' held Hk; try done;
    try (by apply resume_no_lock in Hk); try (by apply on_frame_no_lock in Hk). by injection Hk as <- <-.
Qed.

Lemma reachable_in_force s : reachable E host s -> in_force s /\ held_published s.
Proof.
  assert (fresh : forall reg, in_force (initial reg) /\ held_published (initial reg)).
  { intros reg. split; [by left|]. intros c cred k snapshot. cbn. by rewrite lookup_empty. }
  induction 1 as [| |s c out s' _ [Hf Hh] Hst]; [done..|]. split; [by eapply in_force_step|by eapply held_step].
Qed.

End Invariant.

(** ** The theorems *)

Section Theorems.
Context {V : Type} (E : Env V) (host : Host V).
Implicit Types (m : Message V) (u : Uuid) (h : NodeHandle) (s : @Sys V).

Lemma owns_named (pc : @Pc V) u h : owns pc = Some (u, h) -> named pc = Some (nh_name h).
Proof. destruct pc as [|[]| | | | | | | | | |]; intros; by simplify_eq/=. Qed.

(** C9. One live connection per node UUID, and the node table is its connections'. In every
    state the tasks of a router can reach, under any interleaving of HELLOs, refreshes,
    frames, withdrawals and disconnections: each entry of the node table is the entry of
    exactly one connection, under the name that connection's HELLO was taken with, and its
    channel is that connection's; each connection between its claim and its cleanup has its
    entry; and a name of a router's stream is held only by a connection of the router's own
    process. *)
Theorem connections_own_nodes s :
  (forall m, is_Some (e_to_vec E m)) -> reachable E host s ->
  (forall u h, r_nodes (net s) !! u = Some h ->
     exists c h0, senders s !! u = Some c /\ owns (pc_at s c) = Some (u, h0) /\ same_node h h0 /\
       (forall c' h', owns (pc_at s c') = Some (u, h') -> c' = c) /\
       (is_str (nh_name h) -> is_stream_node_name (nh_name h) = true ->
          is_own_process (peer_pid (cred_at s c)) (ho_own_pid host) = true)) /\
  (forall c u h0, owns (pc_at s c) = Some (u, h0) ->
     senders s !! u = Some c /\ exists h, r_nodes (net s) !! u = Some h /\ same_node h h0).
Proof.
  intros Ht Hr. pose proof (reachable_inv E host Ht s Hr) as Hi. split.
  - intros u h Hh. destruct (i_node host s Hi u h Hh) as (c & h0 & Hs & Ho & Hn). exists c, h0.
    split_and!; [done..| |].
    + intros c' h' Ho'. by eapply owner_unique.
    + intros Hstr Hst. eapply stream_name_reserved; [done|done|].
      apply (i_name host s Hi). destruct Hn as [-> _]. by apply (owns_named _ u).
  - intros c u h0 Ho. pose proof (i_owner host s Hi _ _ _ Ho) as Hs. split; [done|].
    destruct (i_dom host s Hi _ _ Hs) as [h Hh]. exists h. split; [done|].
    destruct (i_node host s Hi u h Hh) as (c' & h1 & Hs' & Ho' & Hn). congruence.
Qed.

(** What a step of the task [c] puts out is under the name of the task's node. *)
Definition authentic s (c : nat) (o : @Out V) : Prop :=
  match o with
  | Eff (Delivery _ _ data) =>
    exists u h0 p, owns (pc_at s c) = Some (u, h0) /\ e_to_vec E p = Some data /\
      e_parse_uuid E (src (routing p)) = Some u /\ src_l2_name (routing p) = Some (nh_name h0)
  | Append subject producer _ =>
    exists u h0, owns (pc_at s c) = Some (u, h0) /\ producer = nh_name h0 /\
      (subject = SUBJECT_STORAGE_TURNS \/ subject = SUBJECT_COGNITION_TURNS \/
       subject_allowed subject producer (ho_role host) = true)
  | _ => True
  end.

Lemma entry_copies_authentic s c u h m : owns (pc_at s c) = Some (u, h) ->
  Forall (authentic s c) (entry_copies E (nh_name h) m).
Proof.
  intros Ho. unfold entry_copies, append_copy. apply Forall_app.
  split; repeat case_match; repeat constructor; exists u, h; auto.
Qed.

Lemma on_frame_authentic s c u h m : owns (pc_at s c) = Some (u, h) ->
  Forall (authentic s c) (fst (on_frame E host (net s) u h m)).
Proof.
  intros Ho. unfold on_frame. cbv zeta. destruct (negb _); [done|].
  destruct (is_system_msg m MSG_STREAM_APPEND).
  { cbn. unfold take_stream_append. destruct (ho_append_of_value host _) as [ap|]; [|by repeat constructor].
    destruct (subject_allowed _ _ _) eqn:Ea; [|by repeat constructor].
    destruct (ho_value_to_vec host _); repeat constructor. exists u, h. auto. }
  pose proof (entry_copies_authentic s c u h m Ho) as Hc.
  destruct (is_system_msg m MSG_WITHDRAW); [done|]. destruct (is_system_msg m MSG_OPA_RELOAD); [|done].
  apply Forall_app. split; [done|]. destruct (e_is_reload_payload E _); [|done]. constructor; [done|].
  destruct (_ <=? _)%Z; [|done]. unfold broadcast_to_peers, send_all. repeat case_match; try done.
  cbn [fst]. rewrite map_map. apply Forall_forall. by intros o (c1 & <- & _)%list_elem_of_In%in_map_iff.
Qed.

Lemma tables_authentic s c r now_text : Forall (authentic s c) (fst (tables_changed E r now_text)).
Proof.
  unfold tables_changed. cbv zeta. destruct (e_is_gateway E); [|done]. unfold broadcast_lsa_direct.
  destruct (bool_decide _); [done|]. cbn [fst]. apply Forall_forall.
  by intros o (hive & <- & _)%list_elem_of_In%in_map_iff.
Qed.

Lemma handle_authentic s c cred u h m snapshot w : (forall m, is_Some (e_to_vec E m)) -> reachable E host s ->
  tasks s !! c = Some (mkTask cred (Handling u h m snapshot)) ->
  let r := refresh_lsa (w_region w) (net s) in
  Forall (authentic s c) (map Eff (fst (fst (handle_message E w r (option_map cs_taps snapshot) m)))).
Proof.
  intros Ht Hr Hc r. destruct (at_task _ _ _ _ Hc) as [Hpc _]. pose proof (reachable_inv E host Ht s Hr) as Hi.
  pose proof (proj1 (reachable_frames E host s Hr) c) as Hf. rewrite Hpc in Hf. cbn in Hf.
  assert (owns (pc_at s c) = Some (u, h)) as Ho by (by rewrite Hpc).
  apply Forall_map. eapply Forall_impl; [by apply (from_node_accounted E w Ht r _ u)|].
  intros [ch m'|ch node data|]; [done| |done]. intros [(v & [=] & _)|(s0 & via & Hs & Hd)].
  unfold frame_source in Hs. assert (r_nodes r = r_nodes (net s)) as Hn by apply refresh_same. rewrite Hn in Hs.
  destruct (r_nodes (net s) !! u) as [h1|] eqn:Hu; [|done]. injection Hs as <- <-.
  destruct Hd as (_ & m1 & (H1 & H2 & _) & Hser).
  destruct (serialized_as E w m1 false node data Ht Hser) as (p & pk & Hp & Hdata).
  destruct (prepared_frame E m1 false p Hp) as (Hrt & _ & _).
  exists u, h, (with_package p pk). cbn in H1, H2 |- *. rewrite Hrt, H1, H2. split_and!; [done|done|..].
  - unfold frame_is_from_connection in Hf. destruct (e_parse_uuid E _); [|done]. by apply Z.eqb_eq in Hf as ->.
  - destruct (i_node host s Hi u h1 Hu) as (c' & h0 & Hs' & Ho' & -> & _).
    rewrite (i_owner host s Hi _ _ _ Ho) in Hs'. injection Hs' as <-. congruence.
Qed.


(** ** The siblings *)

Lemma discovered_nodes_inv regions u p : discovered_nodes regions !! u = Some p ->
  exists g, g ∈ regions /\ p ∈ pg_nodes g /\ pn_uuid p = u.
Proof.
  unfold discovered_nodes. assert (forall l (t : gmap Uuid PeerNode), fold_left (fun nodes n => <[pn_uuid n := n]> nodes) l t !! u = Some p ->
    t !! u = Some p \/ (p ∈ l /\ pn_uuid p = u)) as Hf.
  { induction l as [|n l IH]; intros t; cbn; [auto|]. intros [H|[H ?]]%IH; [|set_solver].
    destruct (decide (pn_uuid n = u)) as [<-|]; [|rewrite lookup_insert_ne in H by done; auto].
    rewrite lookup_insert_eq in H. injection H as ->. set_solver. }
  intros [H|[(g & Hg & Hp)%list_elem_of_In%in_flat_map <-]]%Hf; [by rewrite lookup_empty in H|].
  exists g. by rewrite !list_elem_of_In.
Qed.

Lemma discovered_nodes_all regions g p : g ∈ regions -> p ∈ pg_nodes g ->
  is_Some (discovered_nodes regions !! pn_uuid p).
Proof.
  intros Hg Hp. unfold discovered_nodes.
  assert (p ∈ flat_map pg_nodes regions) as Hin.
  { apply list_elem_of_In, in_flat_map. exists g. by rewrite <- !list_elem_of_In. }
  revert Hin. generalize (flat_map pg_nodes regions). intros l. generalize (∅ : gmap Uuid PeerNode).
  assert (forall l (t : gmap Uuid PeerNode), is_Some (t !! pn_uuid p) ->
    is_Some (fold_left (fun nodes n => <[pn_uuid n := n]> nodes) l t !! pn_uuid p)) as Hk.
  { clear. induction l as [|n l IH]; intros t Ht; cbn; [done|]. apply IH.
    destruct (decide (pn_uuid n = pn_uuid p)) as [->|]; [rewrite lookup_insert_eq; by eexists|].
    by rewrite lookup_insert_ne. }
  induction l as [|n l IH]; intros t Hin; [by apply elem_of_nil in Hin|]. cbn.
  apply elem_of_cons in Hin as [->|Hin]; [|by apply IH]. apply Hk. rewrite lookup_insert_eq. by eexists.
Qed.

(** The entry of a node in the region of its router. *)
Lemma region_entry_node s u e : (forall m, is_Some (e_to_vec E m)) -> reachable E host s ->
  table (region s) !! u = Some e -> exists h, r_nodes (net s) !! u = Some h /\ entry_of e u h /\
    (Z.of_nat (String.length (nh_name h)) <= 256)%Z.
Proof.
  intros Ht Hr He. pose proof (reachable_inv E host Ht s Hr) as Hi.
  destruct (i_entry host s Hi u e He) as (c & h0 & Hl & [vpn_id ->]).
  destruct (i_listed host s Hi _ _ _ Hl) as [_ Hlen]. apply listed_owns in Hl.
  pose proof (i_owner host s Hi _ _ _ Hl) as Hs. destruct (i_dom host s Hi _ _ Hs) as [h Hh].
  destruct (i_node host s Hi u h Hh) as (c' & h1 & Hs' & Ho' & Hn & Hat). rewrite Hs in Hs'. injection Hs' as <-.
  rewrite Hl in Ho'. injection Ho' as <-. exists h. split_and!; [done| |by rewrite Hn].
  exists vpn_id. by rewrite Hn, Hat.
Qed.

End Theorems.

(** What a router learns of its siblings' nodes. A router looks through the shared-memory
    files, those of its own user that nobody else may write being regions of routers of
    such runs. Each node it then holds as a sibling's is, at that moment, a node connected
    to that sibling, under the name the sibling's connection has; and each node a sibling
    has registered is found. *)
Theorem siblings_see_nodes {V} (E : Env V) (host : Host V) s s' now files :
  (forall f reg, f ∈ files -> region_owner_trusted (sf_uid f) (sf_mode f) (ho_own_uid host) = true ->
     sf_region f = Some reg -> exists (E' : Env V) (host' : Host V) sib,
       (forall m, is_Some (e_to_vec E' m)) /\ reachable E' host' sib /\ region sib = reg) ->
  s' = with_net s (rebuilt (set_siblings (net s)
         (discover_peer_regions (e_router_uuid E) (ho_shm_name host) (e_hive_id E) (ho_own_uid host) now files))) ->
  step E host s None [] s' /\
  (forall u p, r_peer_nodes (net s') !! u = Some p ->
     exists (E' : Env V) (host' : Host V) sib h f, f ∈ files /\ sf_region f = Some (region sib) /\
       reachable E' host' sib /\ r_nodes (net sib) !! u = Some h /\ pn_router_uuid p = e_router_uuid E' /\
       (is_str (nh_name h) -> pn_name p = nh_name h)) /\
  (forall f (E' : Env V) (host' : Host V) sib u, f ∈ files -> sf_region f = Some (region sib) ->
     (forall m, is_Some (e_to_vec E' m)) -> reachable E' host' sib ->
     peer_region_of (e_router_uuid E) (ho_shm_name host) (e_hive_id E) (ho_own_uid host) now f <> [] ->
     forall h, r_nodes (net sib) !! u = Some h -> is_Some (table (region sib) !! u) ->
     is_str (nh_name h) -> nh_name h <> EmptyString -> is_Some (r_peer_nodes (net s') !! u)).
Proof.
  intros Hfiles ->. split; [apply st_discover|]. cbn [net with_net rebuilt set_siblings r_peer_nodes]. split.
  - intros u p (g & Hg & Hp & <-)%discovered_nodes_inv. apply list_elem_of_In, in_flat_map in Hg as (f & Hf & Hg).
    apply list_elem_of_In in Hf, Hg. apply peer_region_of_inv in Hg as (reg & Hreg & Htr & ->).
    destruct (Hfiles f reg Hf Htr Hreg) as (E' & host' & sib & Ht & Hr & <-).
    pose proof (reachable_inv E' host' Ht sib Hr) as Hi. destruct (reachable_frames E' host' sib Hr) as [_ Hu].
    apply peer_nodes_of_region in Hp as (e & He & Hpr & _ & Hname); [|apply Hi].
    destruct (region_entry_node E' host' sib _ e Ht Hr He) as (h & Hh & [vpn_id ->] & Hlen).
    exists E', host', sib, h, f. split_and!; [done|done|done|done|congruence|].
    intros Hs. rewrite Hname. by apply registered_name.
  - intros f E' host' sib u Hf Hreg Ht Hr Hne h Hh [e He] Hs Hn.
    destruct (peer_region_of _ _ _ _ _ f) as [|g l] eqn:Eg; [done|]. clear Hne.
    assert (g ∈ peer_region_of (e_router_uuid E) (ho_shm_name host) (e_hive_id E) (ho_own_uid host) now f) as Hg.
    { rewrite Eg. set_solver. }
    assert (g ∈ discover_peer_regions (e_router_uuid E) (ho_shm_name host) (e_hive_id E) (ho_own_uid host) now files) as Hgs.
    { apply list_elem_of_In, in_flat_map. exists f. by rewrite <- !list_elem_of_In. }
    apply peer_region_of_inv in Hg as (reg & Hreg' & _ & ->). rewrite Hreg in Hreg'. injection Hreg' as <-.
    pose proof (reachable_inv E' host' Ht sib Hr) as Hi.
    destruct (region_entry_node E' host' sib u e Ht Hr He) as (h' & Hh' & [vpn_id ->] & Hlen).
    rewrite Hh in Hh'. injection Hh' as <-.
    pose proof (registered_peer_node (region sib) (h_router_uuid (hdr (region sib))) u (nh_name h) vpn_id _
      (i_region _ _ Hi) Hs Hn Hlen He) as Hp.
    by apply (discovered_nodes_all _ _ _ Hgs) in Hp.
Qed.

(** ** Runs *)

Module ConnExamples.
Import RouterCases.Examples.

Definition pattern : list byte := as_bytes "AI.a@home".

Definition old_config : ConfigSnapshot := mkConfigSnapshot 1 [] [] [].

(** The next version puts the node on VPN 7. *)
Definition new_config : ConfigSnapshot :=
  mkConfigSnapshot 2 [] [mkVpnAssignment pattern 9 MATCH_EXACT 7 0 FLAG_ACTIVE] [].

Definition host : Host unit :=
  mkHost _ (fun _ => Some (mkNodeHelloPayload "a" "AI.a")) (fun _ => None) (fun _ => None) (fun _ => tt)
    50 0 "worker" "/jsr-one" (fun s => s = old_config \/ s = new_config).

Definition hello : Message unit := message "a" (Unicast "router") (Some MSG_HELLO).

Definition cred : option Cred := Some (mkCred 0 (Some 60%Z)).

Definition s0 : @Sys unit := initial (initialize_router_header 8 "home" "RT.one@home" false 0).
Definition k0 : @Kont unit := KHello 1 "AI.a@home" hello.

(** The node's task reads the old version and puts it in force; *)
Definition s1 := goto s0 0 cred Opened.
Definition s2 := goto s1 0 cred
  match on_hello env host cred hello with
  | Some (u, name) => Refreshing (KHello u name hello) RfRead
  | None => Closed
  end.
Definition s3 := goto s2 0 cred (Refreshing k0 (RfLock old_config)).
Definition s4 := lock_version s3 0 cred k0 old_config.
Definition s5 := goto s4 0 cred (Refreshing k0
  match vpn_updates old_config (r_nodes (net s4)) with
  | [] => RfFib old_config
  | updates => RfApply old_config updates
  end).
Definition s6 := goto (with_version (with_net s5 (rebuilt (net s5))) (version s5) None) 0 cred
  (resume k0 (Some old_config)).

(** the timer puts the new one in force, and finds no node to move; *)
Definition s7 := goto s6 1 None (Refreshing KTimer RfRead).
Definition s8 := goto s7 1 None (Refreshing KTimer (RfLock new_config)).
Definition s9 := lock_version s8 1 None KTimer new_config.
Definition s10 := goto s9 1 None (Refreshing KTimer
  match vpn_updates new_config (r_nodes (net s9)) with
  | [] => RfFib new_config
  | updates => RfApply new_config updates
  end).
Definition s11 := goto (with_version (with_net s10 (rebuilt (net s10))) (version s10) None) 1 None
  (resume KTimer (Some new_config)).

(** and the node goes on with the VPN of the old one. *)
Definition h0 : NodeHandle :=
  mkNodeHandle "AI.a@home" (assign_vpn "AI.a@home" (option_map cs_vpns (Some old_config))) 5.
Definition s12 := goto s11 0 cred (Claiming 1 h0 hello (0 + DUPLICATE_HELLO_GRACE)).
Definition s13 :=
  match r_nodes (net s12) !! 1%Z with
  | None => goto (claim_entry s12 0 1 h0) 0 cred (Registering 1 h0 hello)
  | Some _ => goto s12 0 cred (if (0 + DUPLICATE_HELLO_GRACE <=? 10)%Z then Closed
                               else Claiming 1 h0 hello (0 + DUPLICATE_HELLO_GRACE))
  end.
Definition s14 :=
  match register_node 1 (nh_name h0) (nh_vpn_id h0) (nh_connected_at h0) 11 (Connections.region s13) with
  | inr reg => goto (with_region s13 reg) 0 cred (Joining 1 h0 hello)
  | inl _ => goto s13 0 cred (Unclaiming 1 h0)
  end.
Definition s15 := goto (with_net s14 (snd (tables_changed env (net s14) ""))) 0 cred
  match e_to_vec env (announcement env host h0 hello) with Some _ => Serving 1 h0 | None => Closed end.

Ltac there := vm_compute; reflexivity.

Lemma reach6 : reachable env host s6.
Proof.
  apply (reach_step _ _ s5 (Some 0) []); [|apply (st_fib _ _ s5 0 cred k0); there].
  apply (reach_step _ _ s4 (Some 0) []); [|apply (st_scan _ _ s4 0 cred k0); there].
  apply (reach_step _ _ s3 (Some 0) []); [|apply (st_lock _ _ s3 0 cred k0); there].
  apply (reach_step _ _ s2 (Some 0) []); [|apply (st_read _ _ s2 0 cred k0); [there|by left]].
  apply (reach_step _ _ s1 (Some 0) []); [|apply (st_hello _ _ s1 0 cred hello); there].
  apply (reach_step _ _ s0 (Some 0) []); [|apply (st_open _ _ s0 0 cred); there].
  apply reach_fresh.
Qed.

Lemma reach11 : reachable env host s11.
Proof.
  apply (reach_step _ _ s10 (Some 1) []); [|apply (st_fib _ _ s10 1 None KTimer); there].
  apply (reach_step _ _ s9 (Some 1) []); [|apply (st_scan _ _ s9 1 None KTimer); there].
  apply (reach_step _ _ s8 (Some 1) []); [|apply (st_lock _ _ s8 1 None KTimer); there].
  apply (reach_step _ _ s7 (Some 1) []); [|apply (st_read _ _ s7 1 None KTimer); [there|by right]].
  apply (reach_step _ _ s6 (Some 1) []); [|apply (st_timer _ _ s6 1); there].
  exact reach6.
Qed.

Lemma reach15 : reachable env host s15.
Proof.
  refine (reach_step _ _ s14 (Some 0) _ s15 _ (st_join env host s14 0 cred 1 h0 hello "" _)); [|there].
  apply (reach_step _ _ s13 (Some 0) []); [|apply (st_register _ _ s13 0 cred 1 h0 hello 11); there].
  apply (reach_step _ _ s12 (Some 0) []);
    [|apply (st_claim _ _ s12 0 cred 1 h0 hello (0 + DUPLICATE_HELLO_GRACE) 10); there].
  apply (reach_step _ _ s11 (Some 0) []);
    [|apply (st_assign _ _ s11 0 cred 1 "AI.a@home" hello (Some old_config) 5 0); there].
  exact reach11.
Qed.

(** A configuration put in force between a HELLO's read of the old one and its claim misses
    the node: nothing is under way, the rules in force give the node VPN 7, it is on VPN 0,
    and a refresh that reads the version in force changes nothing. *)
Lemma hello_keeps_old_vpn :
  reachable env host s15 /\ version s15 = cs_version new_config /\ guard s15 = None /\
  r_vpn_rules (net s15) = cs_vpns new_config /\
  r_nodes (net s15) !! 1%Z = Some h0 /\ nh_vpn_id h0 = 0%Z /\
  assign_vpn (nh_name h0) (Some (r_vpn_rules (net s15))) = 7%Z /\
  pc_at s15 0 = Serving 1 h0 /\ pc_at s15 1 = Closed.
Proof. split; [exact reach15|]. split_and!; there. Qed.

Lemma connections_own_nodes_witness : exists c, senders s15 !! 1%Z = Some c /\
  forall c' h', owns (pc_at s15 c') = Some (1%Z, h') -> c' = c.
Proof.
  destruct (connections_own_nodes env host s15 frame_total reach15) as [H _].
  destruct (H 1%Z h0) as (c & h1 & Hs & _ & _ & Hu & _); [there|]. exists c. split; [exact Hs|exact Hu].
Defined.

(** The node sends itself a message. *)
Definition to_a : Message unit := message "a" (Unicast "a") None.
Definition s16 := goto s15 0 cred (snd (on_frame env host (net s15) 1 h0 to_a)).
Definition s17 := goto s16 0 cred (resume (KFrame 1 h0 to_a) None).
Definition out17 : list (@Out unit) :=
  map Eff (fst (fst (handle_message env (at_ms 20) (refresh_lsa (w_region (at_ms 20)) (net s17))
    (option_map cs_taps None) to_a))).
Definition s18 :=
  goto (with_net s17 (snd (handle_message env (at_ms 20) (refresh_lsa (w_region (at_ms 20)) (net s17))
    (option_map cs_taps None) to_a))) 0 cred (Serving 1 h0).

Lemma reach17 : reachable env host s17.
Proof.
  apply (reach_step _ _ s16 (Some 0) []); [|apply (st_unread _ _ s16 0 cred (KFrame 1 h0 to_a)); there].
  refine (reach_step _ _ s15 (Some 0) _ s16 _ (st_frame env host s15 0 cred 1 h0 to_a _)); [|there].
  exact reach15.
Qed.


(** A sibling router of the hive reads the region. *)
Definition env9 : Env unit :=
  mkEnv _ parse_uuid uuid_to_string (fun _ => tt) (fun _ => tt) frame (fun _ => Some 0%Z) (fun _ => None)
    (fun _ => None) (fun _ => false) (fun a s h => Some (allow a s h))
    (fun present status => Some (frontdesk_route status present)) (fun c _ _ => c) (fun t => t)
    "home" "SY.frontdesk@home" "RT.nine@home" 9 false.

Definition host9 : Host unit :=
  mkHost _ (fun _ => None) (fun _ => None) (fun _ => None) (fun _ => tt) 51 0 "worker" "/jsr-nine" (fun _ => False).

Definition files : list ShmFile := [mkShmFile "jsr-one" 0 384 (Some (Connections.region s15))].

Definition found : @Sys unit :=
  with_net s0 (rebuilt (set_siblings (net s0) (discover_peer_regions 9 "/jsr-nine" "home" 0 100 files))).

Lemma siblings_see_nodes_witness : is_Some (r_peer_nodes (net found) !! 1%Z).
Proof.
  destruct (siblings_see_nodes env9 host9 s0 found 100 files) as (_ & _ & H).
  - intros f reg ->%list_elem_of_singleton _ [= <-]. exists env, host, s15.
    split; [exact frame_total|]. split; [exact reach15|reflexivity].
  - reflexivity.
  - apply (H (mkShmFile "jsr-one" 0 384 (Some (Connections.region s15))) env host s15 1%Z) with (h := h0).
    + by apply list_elem_of_singleton.
    + reflexivity.
    + exact frame_total.
    + exact reach15.
    + by vm_compute.
    + there.
    + vm_compute. by eexists.
    + there.
    + done.
Defined.

End ConnExamples.
