(* ===== verification/ConfigRoutes.v ===== *)
(** * SY.config.routes: the routes, VPN rules and taps of a hive

    src/src/bin/sy_config_routes.rs with the writer and the reader of the configuration's region
    (src/src/shm/mod.rs) and the control messages of the SDK's node_config.rs. The process keeps one
    configuration in three places: its memory, a YAML file, and the region the routers of the hive
    read. Its calls of the file system and of the router each may fail, and any of them, a write to the
    region included, may be where the process dies ([Fate]). serde and the clock are parameters. *)

From Stdlib Require Import ZArith Lia Ascii String Strings.Byte.
From stdpp Require Import base list strings gmap pretty.
From S2P Require Import Prelude Effects Protocol Policy Glob Gates Fib Lsa Connections.
Open Scope Z_scope.
Open Scope string_scope.
Open Scope rust_scope.
#[local] Open Scope effect_scope.

(** ** The configuration *)

Record RouteConfig := mkRouteConfig {
  rc_prefix : string; rc_match_kind : option string; rc_action : string; rc_next_hop_hive : option string;
  rc_metric : option Z; rc_priority : option Z }.

Record VpnConfig := mkVpnConfig {
  vc_pattern : string; vc_match_kind : option string; vc_vpn_id : Z; vc_priority : option Z }.

Record TapConfig := mkTapConfig {
  tc_match_src : string; tc_match_dst : string; tc_target : string; tc_mode : string; tc_enabled : bool }.

Record SyConfigFile := mkSyConfigFile {
  cf_version : Z; cf_updated_at : string; cf_routes : list RouteConfig; cf_vpns : list VpnConfig;
  cf_taps : list TapConfig }.

#[export] Instance RouteConfig_eq : EqDecision RouteConfig.
Proof. solve_decision. Defined.

#[export] Instance VpnConfig_eq : EqDecision VpnConfig.
Proof. solve_decision. Defined.

#[export] Instance TapConfig_eq : EqDecision TapConfig.
Proof. solve_decision. Defined.

#[export] Instance SyConfigFile_eq : EqDecision SyConfigFile.
Proof. solve_decision. Defined.

Definition set_routes (routes : list RouteConfig) (c : SyConfigFile) : SyConfigFile :=
  mkSyConfigFile (cf_version c) (cf_updated_at c) routes (cf_vpns c) (cf_taps c).

Definition set_vpns (vpns : list VpnConfig) (c : SyConfigFile) : SyConfigFile :=
  mkSyConfigFile (cf_version c) (cf_updated_at c) (cf_routes c) vpns (cf_taps c).

Definition set_taps (taps : list TapConfig) (c : SyConfigFile) : SyConfigFile :=
  mkSyConfigFile (cf_version c) (cf_updated_at c) (cf_routes c) (cf_vpns c) taps.

Definition set_version (version : Z) (updated_at : string) (c : SyConfigFile) : SyConfigFile :=
  mkSyConfigFile version updated_at (cf_routes c) (cf_vpns c) (cf_taps c).

(** ** The region *)

Definition MAX_STATIC_ROUTES : nat := 256.
Definition MAX_VPN_ASSIGNMENTS : nat := 256.
Definition MAX_TAP_ENTRIES : nat := 256.

(** The header's fields that are read, and the slots. [g_odd]: the sequence number of the seqlock is
    odd, and no reader takes a snapshot. *)
Record ConfigRegion := mkConfigRegion {
  g_odd : bool; g_config_version : Z; g_heartbeat : Z;
  g_static_route_count : Z; g_routes : list StaticRouteEntry;
  g_vpn_assignment_count : Z; g_vpns : list VpnAssignment;
  g_tap_count : Z; g_taps : list TapEntry }.

Definition empty_static_route : StaticRouteEntry :=
  mkStaticRouteEntry (replicate 256 Byte.x00) 0 0 0 (replicate 32 Byte.x00) 0 0 0 0 0.

Definition empty_vpn_assignment : VpnAssignment := mkVpnAssignment (replicate 256 Byte.x00) 0 0 0 0 0.

Definition empty_tap_entry : TapEntry :=
  mkTapEntry (replicate 256 Byte.x00) 0 (replicate 256 Byte.x00) 0 (replicate 256 Byte.x00) 0 0 0 0.

(** The slots of a table after a write of [entries]. *)
Definition slots {A} (n : nat) (empty : A) (entries : list A) : list A :=
  take n (entries ++ replicate n empty)%list.

Definition put_version (bump : bool) (version : Z) : Z := if bump then saturating_add64 version 1 else version.

Definition put_static_routes (bump : bool) (routes : list StaticRouteEntry) (now : Z) (g : ConfigRegion) : ConfigRegion :=
  mkConfigRegion (g_odd g) (put_version bump (g_config_version g)) now
    (Z.of_nat (length routes)) (slots MAX_STATIC_ROUTES empty_static_route routes)
    (g_vpn_assignment_count g) (g_vpns g) (g_tap_count g) (g_taps g).

Definition put_vpn_assignments (bump : bool) (vpns : list VpnAssignment) (now : Z) (g : ConfigRegion) : ConfigRegion :=
  mkConfigRegion (g_odd g) (put_version bump (g_config_version g)) now (g_static_route_count g) (g_routes g)
    (Z.of_nat (length vpns)) (slots MAX_VPN_ASSIGNMENTS empty_vpn_assignment vpns) (g_tap_count g) (g_taps g).

Definition put_taps (bump : bool) (taps : list TapEntry) (now : Z) (g : ConfigRegion) : ConfigRegion :=
  mkConfigRegion (g_odd g) (put_version bump (g_config_version g)) now (g_static_route_count g) (g_routes g)
    (g_vpn_assignment_count g) (g_vpns g) (Z.of_nat (length taps)) (slots MAX_TAP_ENTRIES empty_tap_entry taps).

Definition put_heartbeat (now : Z) (g : ConfigRegion) : ConfigRegion :=
  mkConfigRegion (g_odd g) (g_config_version g) now (g_static_route_count g) (g_routes g)
    (g_vpn_assignment_count g) (g_vpns g) (g_tap_count g) (g_taps g).

Definition set_odd (odd : bool) (g : ConfigRegion) : ConfigRegion :=
  mkConfigRegion odd (g_config_version g) (g_heartbeat g) (g_static_route_count g) (g_routes g)
    (g_vpn_assignment_count g) (g_vpns g) (g_tap_count g) (g_taps g).

(** A region just created: zeroes, and [initialize_config_header]. *)
Definition initialize_config_header (now : Z) : ConfigRegion :=
  mkConfigRegion false 1 now 0 (replicate MAX_STATIC_ROUTES empty_static_route)
    0 (replicate MAX_VPN_ASSIGNMENTS empty_vpn_assignment) 0 (replicate MAX_TAP_ENTRIES empty_tap_entry).

(** What a reader gets, while no write is under way. *)
Definition read_config_snapshot (g : ConfigRegion) : option ConfigSnapshot :=
  if g_odd g then None
  else Some (mkConfigSnapshot (g_config_version g)
    (take (Z.to_nat (g_static_route_count g)) (g_routes g))
    (take (Z.to_nat (g_vpn_assignment_count g)) (g_vpns g))
    (take (Z.to_nat (g_tap_count g)) (g_taps g))).

(** ** What is outside *)

(** [NodeConfigSetPayload] of the SDK, as far as it is read. *)
Record NodeConfigSetPayload {V : Type} := mkNodeConfigSetPayload {
  ns_schema_version : Z; ns_config_version : Z; ns_apply_mode : string; ns_config : V }.
Arguments NodeConfigSetPayload : clear implicits.
Arguments mkNodeConfigSetPayload {V}.

(** serde's readings, an error as its text; [read_config_get] gives the payload's [node_name]; [clock]
    is the k-th reading of [now_epoch_ms]. *)
Record ConfigEnv {V : Type} := mkConfigEnv {
  read_route : V -> string + RouteConfig;
  read_vpn : V -> string + VpnConfig;
  read_tap : V -> string + TapConfig;
  read_routes : V -> string + list RouteConfig;
  read_vpns : V -> string + list VpnConfig;
  read_taps : V -> string + list TapConfig;
  read_config_get : V -> string + string;
  read_config_set : V -> string + NodeConfigSetPayload V;
  is_null : V -> bool;
  is_array : V -> bool;
  is_object : V -> bool;
  value_get : V -> string -> option V;
  as_str : V -> option string;
  to_yaml : SyConfigFile -> string + string;
  from_yaml : string -> string + SyConfigFile;
  clock : nat -> Z }.
Arguments ConfigEnv : clear implicits.

(** What a start fixes: the hive, the node's UUID, the environment's answer to the status handler. *)
Record Settings := mkSettings {
  hive_id : string; uuid : string; status_handler_enabled : bool; health_state : string }.

(** ** The answers *)

Inductive AdminData :=
| RoutesAre (config_version : Z) (routes : list RouteConfig)
| VpnsAre (config_version : Z) (vpns : list VpnConfig)
| TapsAre (config_version : Z) (taps : list TapConfig)
| RouteAdded (config_version : Z) (route : RouteConfig)
| VpnAdded (config_version : Z) (vpn : VpnConfig)
| TapAdded (config_version : Z) (tap : TapConfig)
| EntryDeleted (config_version : Z).

(** The configuration in an answer: routes, VPNs, taps and [updated_at], with the hive. *)
Record EffectiveConfig := mkEffectiveConfig { ec_config : SyConfigFile; ec_hive : string }.

(** [Raw]: a value taken over from the request. *)
Inductive Body {V : Type} :=
| AdminOk (action : string) (data : AdminData)
| AdminError (action code detail : string)
| ConfigError (node_name : string) (versions : option (Z * Z)) (code detail : string)
| Configured (node_name : string) (schema_version : Z) (effective : EffectiveConfig) (applied_fields : list string)
| ConfigGot (node_name state : string) (effective : EffectiveConfig) (requested_node_name : string)
| NodeStatus (health_state : string)
| Raw (v : V).
Arguments Body : clear implicits.

(** ** The effects

    What a call comes to. A write of a file that fails or dies leaves the file alone ([kept] is none)
    or the first [kept] bytes of the new contents; a write of the region that dies leaves the
    sequence odd, the table it was writing in any state ([torn]) and the version bumped or not. *)
Record Torn := mkTorn {
  torn_routes : list StaticRouteEntry; torn_vpns : list VpnAssignment; torn_taps : list TapEntry;
  torn_count : Z; torn_bump : bool }.

Inductive Fate :=
| Works
| Fails (why : string) (kept : option nat)
| Dies (kept : option nat) (torn : option Torn).

(** The two files, the region, every state the region was in since the world began, newest first, the
    process's configuration, the fates of the calls to come, the readings of the clock so far and
    what was sent. *)
Record World {V : Type} := mkWorld {
  w_file : option string; w_temp : option string; w_region : option ConfigRegion;
  w_seen : list ConfigRegion; w_config : SyConfigFile;
  w_fates : list Fate; w_draws : nat; w_sent : list (Message (Body V)) }.
Arguments World : clear implicits.
Arguments mkWorld {V}.

#[local] Abbreviation M V := (Effects.M (World V) string).

Section Calls.
Context {V : Type}.
Implicit Types w : World V.

Definition set_fates fates w : World V :=
  mkWorld (w_file w) (w_temp w) (w_region w) (w_seen w) (w_config w) fates (w_draws w) (w_sent w).

Definition set_file file w : World V :=
  mkWorld file (w_temp w) (w_region w) (w_seen w) (w_config w) (w_fates w) (w_draws w) (w_sent w).

Definition set_temp temp w : World V :=
  mkWorld (w_file w) temp (w_region w) (w_seen w) (w_config w) (w_fates w) (w_draws w) (w_sent w).

Definition set_region g w : World V :=
  mkWorld (w_file w) (w_temp w) (Some g) (g :: w_seen w) (w_config w) (w_fates w) (w_draws w) (w_sent w).

Definition set_config c w : World V :=
  mkWorld (w_file w) (w_temp w) (w_region w) (w_seen w) c (w_fates w) (w_draws w) (w_sent w).

(** The next fate. *)
Definition next_fate w : Fate * World V :=
  match w_fates w with [] => (Works, w) | f :: fs => (f, set_fates fs w) end.

(** One call: [f] its effect, [cut] what a failed or last one leaves. *)
Definition call {A} (a : A) (f : World V -> World V) (cut : option nat -> World V -> World V) : M V A :=
  fun w => match next_fate w with
           | (Works, w') => (Done a, f w')
           | (Fails why kept, w') => (Err why, cut kept w')
           | (Dies kept _, w') => (Dead, cut kept w')
           end.

Definition unchanged (_ : option nat) w : World V := w.

Definition draw {A} (f : nat -> A) : M V A :=
  fun w => (Done (f (w_draws w)),
            mkWorld (w_file w) (w_temp w) (w_region w) (w_seen w) (w_config w) (w_fates w) (S (w_draws w)) (w_sent w)).

(** [fs::write]. *)
Definition cut_to (old : option string) (data : string) (kept : option nat) : option string :=
  match kept with None => old | Some n => Some (substring 0 n data) end.

Definition write_file (data : string) : M V unit :=
  call tt (set_file (Some data)) (fun kept w => set_file (cut_to (w_file w) data kept) w).

Definition write_temp (data : string) : M V unit :=
  call tt (set_temp (Some data)) (fun kept w => set_temp (cut_to (w_temp w) data kept) w).

Definition rename_temp : M V unit := call tt (fun w => set_temp None (set_file (w_temp w) w)) unchanged.

(** [Path::exists]: false too when the file cannot be looked at. *)
Definition file_exists : M V bool :=
  fun w => match next_fate w with
           | (Works, w') => (Done (match w_file w with Some _ => true | None => false end), w')
           | (Fails _ _, w') => (Done false, w')
           | (Dies _ _, w') => (Dead, w')
           end.

Definition read_file : M V string :=
  fun w => match w_file w with
           | None => fail "No such file or directory (os error 2)" w
           | Some data => call data id unchanged w
           end.

(** [NodeSender::send]. *)
Definition send (m : Message (Body V)) : M V unit :=
  call tt (fun w => mkWorld (w_file w) (w_temp w) (w_region w) (w_seen w) (w_config w) (w_fates w) (w_draws w)
                      (w_sent w ++ [m])%list) unchanged.

(** A write under the seqlock's guard: it does not fail. *)
Definition guarded (f : ConfigRegion -> ConfigRegion) (torn : Torn -> ConfigRegion -> ConfigRegion) : M V unit :=
  fun w => match w_region w with
           | None => fail "invalid header" w
           | Some g =>
             match next_fate w with
             | (Works, w') | (Fails _ _, w') => (Done tt, set_region (f g) w')
             | (Dies _ None, w') => (Dead, w')
             | (Dies _ (Some t), w') => (Dead, set_region (set_odd true (torn t g)) w')
             end
           end.

End Calls.

(** ** The process *)

Definition ADMIN_KIND : string := "admin".
Definition MSG_CONFIG_GET : string := "CONFIG_GET".
Definition MSG_CONFIG_SET : string := "CONFIG_SET".
Definition MSG_CONFIG_RESPONSE : string := "CONFIG_RESPONSE".
Definition MSG_NODE_STATUS_GET : string := "NODE_STATUS_GET".
Definition MSG_NODE_STATUS_GET_RESPONSE : string := "NODE_STATUS_GET_RESPONSE".
Definition NODE_CONFIG_CONTROL_TARGET : string := "node_config_control".
Definition NODE_CONFIG_APPLY_MODE_REPLACE : string := "replace".

Definition match_kind (value : option string) : string + Z :=
  let value := unwrap_or "PREFIX" value in
  if value =s "EXACT" then inr MATCH_EXACT
  else if value =s "PREFIX" then inr MATCH_PREFIX
  else if value =s "GLOB" then inr MATCH_GLOB
  else inl "invalid match_kind".

Definition action_kind (value : string) : string + Z :=
  if value =s "FORWARD" then inr ACTION_FORWARD
  else if value =s "DROP" then inr ACTION_DROP
  else inl ("invalid action '" ++ value ++ "'").

Definition tap_mode_kind (mode : string) : string + Z :=
  let mode := to_ascii_lowercase (trim mode) in
  if (mode =s "best_effort") || (mode =s "") then inr 0
  else inl ("invalid tap mode '" ++ mode ++ "' (expected 'best_effort')").

Section Process.
Context {V : Type} (E : ConfigEnv V).
#[local] Abbreviation M := (Effects.M (World V) string).

Definition now_epoch_ms : M Z := draw (clock E).

(** The text of a reading of the clock. *)
Definition now_text : M string := now <- now_epoch_ms ;; ret (pretty (Z.to_N now)).

(** *** The region's writer *)

Definition value_too_long (len max : nat) : string :=
  "value too long: " ++ pretty (N.of_nat len) ++ " > " ++ pretty (N.of_nat max).

(** The table a write that was the last one leaves. *)
Definition torn_static_routes (bump : bool) (t : Torn) (g : ConfigRegion) : ConfigRegion :=
  mkConfigRegion (g_odd g) (put_version (bump && torn_bump t) (g_config_version g)) (g_heartbeat g)
    (torn_count t) (slots MAX_STATIC_ROUTES empty_static_route (torn_routes t))
    (g_vpn_assignment_count g) (g_vpns g) (g_tap_count g) (g_taps g).

Definition torn_vpn_assignments (bump : bool) (t : Torn) (g : ConfigRegion) : ConfigRegion :=
  mkConfigRegion (g_odd g) (put_version (bump && torn_bump t) (g_config_version g)) (g_heartbeat g)
    (g_static_route_count g) (g_routes g)
    (torn_count t) (slots MAX_VPN_ASSIGNMENTS empty_vpn_assignment (torn_vpns t)) (g_tap_count g) (g_taps g).

Definition torn_tap_entries (bump : bool) (t : Torn) (g : ConfigRegion) : ConfigRegion :=
  mkConfigRegion (g_odd g) (put_version (bump && torn_bump t) (g_config_version g)) (g_heartbeat g)
    (g_static_route_count g) (g_routes g) (g_vpn_assignment_count g) (g_vpns g)
    (torn_count t) (slots MAX_TAP_ENTRIES empty_tap_entry (torn_taps t)).

Definition write_static_routes (routes : list StaticRouteEntry) (bump : bool) : M unit :=
  if bool_decide (MAX_STATIC_ROUTES < length routes)%nat then fail (value_too_long (length routes) MAX_STATIC_ROUTES)
  else now <- now_epoch_ms ;; guarded (put_static_routes bump routes now) (torn_static_routes bump).

Definition write_vpn_assignments (vpns : list VpnAssignment) (bump : bool) : M unit :=
  if bool_decide (MAX_VPN_ASSIGNMENTS < length vpns)%nat then fail (value_too_long (length vpns) MAX_VPN_ASSIGNMENTS)
  else now <- now_epoch_ms ;; guarded (put_vpn_assignments bump vpns now) (torn_vpn_assignments bump).

Definition write_taps (taps : list TapEntry) (bump : bool) : M unit :=
  if bool_decide (MAX_TAP_ENTRIES < length taps)%nat then fail (value_too_long (length taps) MAX_TAP_ENTRIES)
  else now <- now_epoch_ms ;; guarded (put_taps bump taps now) (torn_tap_entries bump).

(** Without a header, nothing. *)
Definition update_heartbeat : M unit :=
  now <- now_epoch_ms ;; attempt (guarded (put_heartbeat now) (fun _ g => g)) ;;; ret tt.

(** [open_or_create], and [normalize_seq_header]; a region that is not there or not valid is made. *)
Definition open_or_create : M unit :=
  now <- now_epoch_ms ;;
  fun w => match next_fate w with
           | (Works, w') =>
             (Done tt, set_region match w_region w with
                                  | Some g => set_odd false g
                                  | None => initialize_config_header now
                                  end w')
           | (Fails why _, w') => (Err why, w')
           | (Dies _ _, w') => (Dead, w')
           end.

(** *** The entries of a configuration *)

Definition static_route_entry (route : RouteConfig) (kind action now : Z) : StaticRouteEntry :=
  let '(prefix, prefix_len) := copy_bytes_with_len 256 (rc_prefix route) in
  let '(next, next_len) :=
    match rc_next_hop_hive route with
    | Some next => copy_bytes_with_len 32 next
    | None => (replicate 32 Byte.x00, 0)
    end in
  mkStaticRouteEntry prefix prefix_len kind action next next_len (unwrap_or 0 (rc_metric route))
    (unwrap_or 100 (rc_priority route)) FLAG_ACTIVE now.

Fixpoint build_routes (routes : list RouteConfig) : M (list StaticRouteEntry) :=
  match routes with
  | [] => ret []
  | route :: rest =>
    kind <- lift (match_kind (rc_match_kind route)) ;;
    action <- lift (action_kind (rc_action route)) ;;
    now <- now_epoch_ms ;;
    out <- build_routes rest ;;
    ret (static_route_entry route kind action now :: out)
  end.

Definition vpn_entry (vpn : VpnConfig) (kind : Z) : VpnAssignment :=
  let '(pattern, pattern_len) := copy_bytes_with_len 256 (vc_pattern vpn) in
  mkVpnAssignment pattern pattern_len kind (vc_vpn_id vpn) (unwrap_or 100 (vc_priority vpn)) FLAG_ACTIVE.

Fixpoint build_vpns (vpns : list VpnConfig) : string + list VpnAssignment :=
  match vpns with
  | [] => inr []
  | vpn :: rest =>
    match match_kind (vc_match_kind vpn) with
    | inl e => inl e
    | inr kind => match build_vpns rest with inl e => inl e | inr out => inr (vpn_entry vpn kind :: out) end
    end
  end.

Definition tap_entry (tap : TapConfig) (mode : Z) : TapEntry :=
  let '(s, s_len) := copy_bytes_with_len 256 (tc_match_src tap) in
  let '(d, d_len) := copy_bytes_with_len 256 (tc_match_dst tap) in
  let '(t, t_len) := copy_bytes_with_len 256 (tc_target tap) in
  mkTapEntry s s_len d d_len t t_len mode (if tc_enabled tap then 1 else 0) FLAG_ACTIVE.

Fixpoint build_taps (taps : list TapConfig) : string + list TapEntry :=
  match taps with
  | [] => inr []
  | tap :: rest =>
    match tap_mode_kind (tc_mode tap) with
    | inl e => inl e
    | inr mode => match build_taps rest with inl e => inl e | inr out => inr (tap_entry tap mode :: out) end
    end
  end.

Definition frozen_route (pattern : string) (kind now : Z) : StaticRouteEntry :=
  let '(prefix, prefix_len) := copy_bytes_with_len 256 pattern in
  mkStaticRouteEntry prefix prefix_len kind ACTION_FORWARD (replicate 32 Byte.x00) 0 0 0
    (Z.lor FLAG_ACTIVE FLAG_FROZEN) now.

Definition frozen_system_authority_routes (hive : string) : M (list StaticRouteEntry) :=
  now <- now_epoch_ms ;;
  now' <- now_epoch_ms ;;
  ret [frozen_route "SY.orchestrator@*" MATCH_GLOB now; frozen_route ("SY.admin@" ++ hive) MATCH_EXACT now'].

Definition apply_config (hive : string) (c : SyConfigFile) : M unit :=
  routes <- build_routes (cf_routes c) ;;
  frozen <- frozen_system_authority_routes hive ;;
  vpns <- lift (build_vpns (cf_vpns c)) ;;
  taps <- lift (build_taps (cf_taps c)) ;;
  write_static_routes (routes ++ frozen)%list false ;;;
  write_vpn_assignments vpns false ;;;
  write_taps taps true.

(** *** The file *)

Definition load_config : M SyConfigFile :=
  there <- file_exists ;;
  if negb there then
    let empty := mkSyConfigFile 1 "" [] [] [] in
    data <- lift (to_yaml E empty) ;;
    write_file data ;;;
    ret empty
  else
    data <- read_file ;;
    c <- lift (from_yaml E data) ;;
    if str_is_empty (trim (cf_updated_at c)) then
      updated_at <- now_text ;;
      let c := set_version (cf_version c) updated_at c in
      data <- lift (to_yaml E c) ;;
      write_file data ;;;
      ret c
    else ret c.

Definition write_config (c : SyConfigFile) : M unit :=
  data <- lift (to_yaml E c) ;;
  write_temp data ;;;
  rename_temp.

(** *** Changes *)

Definition current : M SyConfigFile := fun w => (Done (w_config w), w).

Definition become (c : SyConfigFile) : M unit := fun w => (Done tt, set_config c w).

(** A failed restoring is logged. *)
Definition restore (hive : string) : M unit :=
  c <- current ;; attempt (apply_config hive c) ;;; ret tt.

Definition commit_config (hive : string) (next : SyConfigFile) : M unit :=
  applied <- attempt (apply_config hive next) ;;
  match applied with
  | inl e => restore hive ;;; fail e
  | inr _ =>
    written <- attempt (write_config next) ;;
    match written with
    | inl e => restore hive ;;; fail ("the config could not be saved: " ++ e)
    | inr _ => become next
    end
  end.

Definition commit_admin_change (hive : string) (next : SyConfigFile) (action : string)
  (answer : SyConfigFile -> AdminData) : M (Body V) :=
  c <- current ;;
  updated_at <- now_text ;;
  committed <- attempt (commit_config hive (set_version (saturating_add64 (cf_version c) 1) updated_at next)) ;;
  match committed with
  | inr _ => c' <- current ;; ret (AdminOk action (answer c'))
  | inl detail => ret (AdminError action "INVALID_CONFIG" detail)
  end.

(** *** The admin actions *)

Definition admin_action_mutates (action : string) : bool :=
  str_mem action ["add_route"; "delete_route"; "add_vpn"; "delete_vpn"; "add_tap"; "delete_tap"].

Definition is_primary_admin_origin (src_l2_name : option string) : bool :=
  opt_str_is (option_map trim src_l2_name) ("SY.admin@" ++ PRIMARY_HIVE_ID).

Definition same_tap (match_src match_dst target : string) (t : TapConfig) : bool :=
  (tc_match_src t =s match_src) && (tc_match_dst t =s match_dst) && (tc_target t =s target).

Definition tap_text (match_src match_dst target rest : string) : string :=
  "Tap (match_src=" ++ match_src ++ ", match_dst=" ++ match_dst ++ ", target=" ++ target ++ ") " ++ rest.

(** A text of the payload, empty when it has none. *)
Definition text_field (payload : V) (name : string) : string :=
  unwrap_or "" (match value_get E payload name with Some v => as_str E v | None => None end).

Definition invalid_request (action err : string) : Body V :=
  AdminError action "INVALID_REQUEST" ("invalid " ++ action ++ " payload: " ++ err).

Definition add_route (hive action : string) (c : SyConfigFile) (payload : V) : M (Body V) :=
  match read_route E payload with
  | inl err => ret (invalid_request action err)
  | inr route =>
    if existsb (fun r => rc_prefix r =s rc_prefix route) (cf_routes c) then
      ret (AdminError action "DUPLICATE_PREFIX" ("Route with prefix '" ++ rc_prefix route ++ "' already exists"))
    else
      commit_admin_change hive (set_routes (cf_routes c ++ [route])%list c) action
        (fun c => RouteAdded (cf_version c) route)
  end.

Definition delete_route (hive action : string) (c : SyConfigFile) (payload : V) : M (Body V) :=
  let prefix := text_field payload "prefix" in
  let routes := List.filter (fun r => negb (rc_prefix r =s prefix)) (cf_routes c) in
  if Nat.eqb (length routes) (length (cf_routes c)) then
    ret (AdminError action "NOT_FOUND" ("Route with prefix '" ++ prefix ++ "' not found"))
  else commit_admin_change hive (set_routes routes c) action (fun c => EntryDeleted (cf_version c)).

Definition add_vpn (hive action : string) (c : SyConfigFile) (payload : V) : M (Body V) :=
  match read_vpn E payload with
  | inl err => ret (invalid_request action err)
  | inr vpn =>
    if existsb (fun v => vc_pattern v =s vc_pattern vpn) (cf_vpns c) then
      ret (AdminError action "DUPLICATE_PATTERN" ("VPN with pattern '" ++ vc_pattern vpn ++ "' already exists"))
    else
      commit_admin_change hive (set_vpns (cf_vpns c ++ [vpn])%list c) action (fun c => VpnAdded (cf_version c) vpn)
  end.

Definition delete_vpn (hive action : string) (c : SyConfigFile) (payload : V) : M (Body V) :=
  let pattern := text_field payload "pattern" in
  let vpns := List.filter (fun v => negb (vc_pattern v =s pattern)) (cf_vpns c) in
  if Nat.eqb (length vpns) (length (cf_vpns c)) then
    ret (AdminError action "NOT_FOUND" ("VPN with pattern '" ++ pattern ++ "' not found"))
  else commit_admin_change hive (set_vpns vpns c) action (fun c => EntryDeleted (cf_version c)).

Definition add_tap (hive action : string) (c : SyConfigFile) (payload : V) : M (Body V) :=
  match read_tap E payload with
  | inl err => ret (invalid_request action err)
  | inr tap =>
    if existsb (same_tap (tc_match_src tap) (tc_match_dst tap) (tc_target tap)) (cf_taps c) then
      ret (AdminError action "DUPLICATE_TAP"
             (tap_text (tc_match_src tap) (tc_match_dst tap) (tc_target tap) "already exists"))
    else
      commit_admin_change hive (set_taps (cf_taps c ++ [tap])%list c) action (fun c => TapAdded (cf_version c) tap)
  end.

Definition delete_tap (hive action : string) (c : SyConfigFile) (payload : V) : M (Body V) :=
  let match_src := text_field payload "match_src" in
  let match_dst := text_field payload "match_dst" in
  let target := text_field payload "target" in
  let taps := List.filter (fun t => negb (same_tap match_src match_dst target t)) (cf_taps c) in
  if Nat.eqb (length taps) (length (cf_taps c)) then
    ret (AdminError action "NOT_FOUND" (tap_text match_src match_dst target "not found"))
  else commit_admin_change hive (set_taps taps c) action (fun c => EntryDeleted (cf_version c)).

(** The [match] on the action. *)
Definition admin_answer (hive action : string) (payload : V) : M (Body V) :=
  c <- current ;;
  if action =s "list_routes" then ret (AdminOk action (RoutesAre (cf_version c) (cf_routes c)))
  else if action =s "list_vpns" then ret (AdminOk action (VpnsAre (cf_version c) (cf_vpns c)))
  else if action =s "add_route" then add_route hive action c payload
  else if action =s "delete_route" then delete_route hive action c payload
  else if action =s "add_vpn" then add_vpn hive action c payload
  else if action =s "delete_vpn" then delete_vpn hive action c payload
  else if action =s "list_taps" then ret (AdminOk action (TapsAre (cf_version c) (cf_taps c)))
  else if action =s "add_tap" then add_tap hive action c payload
  else if action =s "delete_tap" then delete_tap hive action c payload
  else ret (AdminError action "UNKNOWN_ACTION" ("Unsupported admin action '" ++ action ++ "'")).

Context (C : Settings).

Definition send_admin_reply (request : Message V) (action : string) (b : Body V) : M unit :=
  send (mkMessage
    (mkRouting (uuid C) None (Unicast (src (routing request))) 16 (trace_id (routing request)))
    (mkMeta ADMIN_KIND None None None None None None None None (Some action) None None None None None None false) b).

Definition handle_admin_action (m : Message V) : M unit :=
  let action := unwrap_or "" (Protocol.action (meta m)) in
  if admin_action_mutates action && negb (is_primary_admin_origin (src_l2_name (routing m))) then
    send_admin_reply m action (AdminError action "FORBIDDEN" "admin action origin not allowed")
  else
    b <- admin_answer (hive_id C) action (msg_payload m) ;;
    send_admin_reply m action b.

(** *** CONFIG_GET and CONFIG_SET *)

Inductive NodeConfigControlRequest :=
| Get (node_name : string)
| Set_ (request : NodeConfigSetPayload V).

Definition json_error {A} (r : string + A) : string + A :=
  match r with inl e => inl ("json error: " ++ e) | inr a => inr a end.

Definition parse_node_config_request (m : Message V) : string + NodeConfigControlRequest :=
  match msg (meta m) with
  | Some name =>
    if negb (is_system_kind (msg_type (meta m))) then
      inl "invalid message: message is not a node config control request"
    else if name =s MSG_CONFIG_GET then
      match json_error (read_config_get E (msg_payload m)) with inl e => inl e | inr n => inr (Get n) end
    else if name =s MSG_CONFIG_SET then
      match json_error (read_config_set E (msg_payload m)) with inl e => inl e | inr r => inr (Set_ r) end
    else inl ("invalid message: unsupported system msg '" ++ name ++ "' for node config control")
  | None => inl "invalid message: message is not a node config control request"
  end.

(** The SDK's answer to a control request. *)
Definition normalize_ttl (ttl : Z) : Z := Z.max ttl 1.

Definition build_reply_routing (request : Message V) (src_uuid : string) : Routing :=
  let dst := if str_is_empty (trim (src (routing request))) then Broadcast else Unicast (src (routing request)) in
  mkRouting src_uuid None dst (normalize_ttl (ttl (routing request))) (trace_id (routing request)).

Definition build_response_meta (request : Message V) : Meta (Body V) :=
  let m := meta request in
  mkMeta SYSTEM_KIND (Some MSG_CONFIG_RESPONSE) (src_ilk m) None None None None (scope m)
    (Some NODE_CONFIG_CONTROL_TARGET) (Some MSG_CONFIG_RESPONSE) None None None None (priority m)
    (option_map Raw (context m)) false.

Definition build_node_config_response_message (incoming : Message V) (src_uuid : string) (b : Body V)
  : Message (Body V) :=
  mkMessage (build_reply_routing incoming src_uuid) (build_response_meta incoming) b.

Definition send_node_config_control_response (request : Message V) (b : Body V) : M unit :=
  send (build_node_config_response_message request (uuid C) b).

Definition node_name : string := "SY.config.routes@" ++ hive_id C.

Definition build_node_config_get_payload (c : SyConfigFile) (requested_node_name : string) : Body V :=
  ConfigGot node_name
    (match cf_routes c, cf_vpns c, cf_taps c with [], [], [] => "empty" | _, _, _ => "configured" end)
    (mkEffectiveConfig c (hive_id C)) requested_node_name.

Definition handle_node_config_get (m : Message V) : M unit :=
  match parse_node_config_request m with
  | inr (Get requested) =>
    c <- current ;; send_node_config_control_response m (build_node_config_get_payload c requested)
  | inr (Set_ _) =>
    send_node_config_control_response m
      (ConfigError node_name None "INVALID_CONFIG_GET" "received CONFIG_SET while handling CONFIG_GET")
  | inl err => send_node_config_control_response m (ConfigError node_name None "INVALID_CONFIG_GET" err)
  end.

(** [parse_routes], [parse_vpns] and [parse_taps]: a list, or the list in the field [name]. *)
Definition parse_section {A} (read : V -> string + list A) (name : string) (value : V) : string + option (list A) :=
  let read_some v := match read v with inl e => inl e | inr l => inr (Some l) end in
  if is_null E value then inr None
  else if is_array E value then read_some value
  else match value_get E value name with Some v => read_some v | None => inr None end.

(** One section of a CONFIG_SET: the new list if the request has one that differs. *)
Definition section {A} `{EqDecision A} (read : V -> string + list A) (name : string) (config : V) (old : list A)
  : string + option (list A) :=
  match value_get E config name with
  | None => inr None
  | Some _ =>
    match parse_section read name config with
    | inl e => inl e
    | inr None => inl (name ++ " must be present")
    | inr (Some l) => inr (if bool_decide (l = old) then None else Some l)
    end
  end.

Definition has (config : V) (name : string) : bool :=
  match value_get E config name with Some _ => true | None => false end.

Definition changed {A} (name : string) (new : option (list A)) : list string :=
  match new with Some _ => [name] | None => [] end.

Definition or_old {A} (new : option (list A)) (old : list A) : list A := unwrap_or old new.

(** The next configuration and the fields that change. *)
Definition apply_node_config_set_request (c : SyConfigFile) (request : NodeConfigSetPayload V)
  : M (SyConfigFile * list string) :=
  if negb (ns_apply_mode request =s NODE_CONFIG_APPLY_MODE_REPLACE) then
    fail ("unsupported apply_mode '" ++ ns_apply_mode request ++ "'")
  else
  let config := ns_config request in
  if negb (is_object E config) then fail "config must be a JSON object"
  else
  routes <- lift (section (read_routes E) "routes" config (cf_routes c)) ;;
  vpns <- lift (section (read_vpns E) "vpns" config (cf_vpns c)) ;;
  taps <- lift (section (read_taps E) "taps" config (cf_taps c)) ;;
  if negb (has config "routes") && negb (has config "vpns") && negb (has config "taps") then
    fail "config must include 'routes', 'vpns', or 'taps'"
  else
  let next := mkSyConfigFile (cf_version c) (cf_updated_at c) (or_old routes (cf_routes c)) (or_old vpns (cf_vpns c))
                (or_old taps (cf_taps c)) in
  let fields := (changed "routes" routes ++ changed "vpns" vpns ++ changed "taps" taps)%list in
  match fields with
  | [] => ret (next, fields)
  | _ =>
    updated_at <- now_text ;;
    ret (set_version (if Z.eqb (ns_config_version request) 0 then saturating_add64 (cf_version c) 1
                      else ns_config_version request) updated_at next, fields)
  end.

Definition refuse_config_set (m : Message V) (request : NodeConfigSetPayload V) (detail : string) : M unit :=
  c <- current ;;
  send_node_config_control_response m
    (ConfigError node_name (Some (ns_schema_version request, cf_version c)) "INVALID_CONFIG_SET" detail).

Definition commit_if_changed (next : SyConfigFile) : M unit :=
  c <- current ;; if bool_decide (next = c) then ret tt else commit_config (hive_id C) next.

Definition handle_node_config_set (m : Message V) : M unit :=
  match parse_node_config_request m with
  | inr (Set_ request) =>
    c <- current ;;
    result <- attempt (apply_node_config_set_request c request) ;;
    match result with
    | inl err => refuse_config_set m request err
    | inr (next, fields) =>
      committed <- attempt (commit_if_changed next) ;;
      match committed with
      | inl detail => refuse_config_set m request detail
      | inr _ =>
        c' <- current ;;
        send_node_config_control_response m
          (Configured node_name (ns_schema_version request) (mkEffectiveConfig c' (hive_id C)) fields)
      end
    end
  | inr (Get _) =>
    send_node_config_control_response m
      (ConfigError node_name None "INVALID_CONFIG_SET" "received CONFIG_GET while handling CONFIG_SET")
  | inl err => send_node_config_control_response m (ConfigError node_name None "INVALID_CONFIG_SET" err)
  end.

(** *** The main loop *)

(** [try_handle_default_node_status] of the SDK. *)
Definition try_handle_default_node_status (m : Message V) : M bool :=
  if negb (is_system_kind (msg_type (meta m))) || negb (opt_str_is (msg (meta m)) MSG_NODE_STATUS_GET) then ret false
  else if negb (status_handler_enabled C) then ret false
  else
    send (build_system_message (uuid C) (Unicast (src (routing m))) 16 (trace_id (routing m))
            MSG_NODE_STATUS_GET_RESPONSE (NodeStatus (health_state C))) ;;; ret true.

(** A handler's error is logged; the status answer's ends the process. *)
Definition on_message (m : Message V) : M unit :=
  handled <- try_handle_default_node_status m ;;
  if handled : bool then ret tt
  else if msg_type (meta m) =s ADMIN_KIND then attempt (handle_admin_action m) ;;; ret tt
  else if is_system_kind (msg_type (meta m)) && opt_str_is (msg (meta m)) MSG_CONFIG_GET then
    attempt (handle_node_config_get m) ;;; ret tt
  else if is_system_kind (msg_type (meta m)) && opt_str_is (msg (meta m)) MSG_CONFIG_SET then
    attempt (handle_node_config_set m) ;;; ret tt
  else ret tt.

(** What the main loop waits for. *)
Inductive Input := Tick | Incoming (m : Message V).

Definition on_input (i : Input) : M unit :=
  match i with Tick => update_heartbeat | Incoming m => on_message m end.

Fixpoint serve (inputs : list Input) : M unit :=
  match inputs with
  | [] => ret tt
  | i :: rest => on_input i ;;; serve rest
  end.

(** [main] up to its loop. *)
Definition start : M unit :=
  c <- load_config ;;
  become c ;;;
  open_or_create ;;;
  apply_config (hive_id C) c.

Definition run (inputs : list Input) : M unit := start ;;; serve inputs.

End Process.

Arguments Get {V}.
Arguments Set_ {V}.
Arguments Tick {V}.
Arguments Incoming {V}.
