(* ===== verification/ConfigSafety.v ===== *)
(** * SY.config.routes: one configuration in three places

    Whatever the file system and the router do and wherever the process dies, the configuration in
    memory, in the file and in the region are one between two messages ([agreed]), a change is made
    whole or not at all, and a state of the region that a router read before has the tables of now
    if it has the version of now ([settled]). *)

From Stdlib Require Import ZArith Lia Ascii String Strings.Byte.
From stdpp Require Import base list strings gmap.
From S2P Require Import Prelude Protocol Policy Glob Gates Fib Lsa Connections Effects ConfigRoutes.
Open Scope Z_scope.
Open Scope string_scope.
Open Scope rust_scope.
#[local] Open Scope effect_scope.

(** ** What the region holds *)

(** An entry made of a route at some time. *)
Definition routed (route : RouteConfig) (e : StaticRouteEntry) : Prop :=
  exists kind action now, match_kind (rc_match_kind route) = inr kind /\
    action_kind (rc_action route) = inr action /\ e = static_route_entry route kind action now.

(** The snapshot is the configuration's: its entries in order, and the markers after the routes. *)
Definition shows (hive : string) (c : SyConfigFile) (s : ConfigSnapshot) : Prop :=
  (exists entries now now', Forall2 routed (cf_routes c) entries /\
     cs_routes s = (entries ++ [frozen_route "SY.orchestrator@*" MATCH_GLOB now;
                                frozen_route ("SY.admin@" ++ hive) MATCH_EXACT now'])%list) /\
  build_vpns (cf_vpns c) = inr (cs_vpns s) /\ build_taps (cf_taps c) = inr (cs_taps s).

Definition holds (hive : string) (c : SyConfigFile) (g : ConfigRegion) : Prop :=
  exists s, read_config_snapshot g = Some s /\ shows hive c s.

Definition is_inr {A B} (r : A + B) : bool := match r with inr _ => true | inl _ => false end.

Definition route_ok (route : RouteConfig) : bool :=
  is_inr (match_kind (rc_match_kind route)) && is_inr (action_kind (rc_action route)).

(** The configurations a region takes. *)
Definition acceptable (c : SyConfigFile) : bool :=
  forallb route_ok (cf_routes c) && is_inr (build_vpns (cf_vpns c)) && is_inr (build_taps (cf_taps c))
  && bool_decide (length (cf_routes c) + 2 <= MAX_STATIC_ROUTES)%nat
  && bool_decide (length (cf_vpns c) <= MAX_VPN_ASSIGNMENTS)%nat
  && bool_decide (length (cf_taps c) <= MAX_TAP_ENTRIES)%nat.

Lemma slots_back {A} n (empty : A) l : (length l <= n)%nat -> take (Z.to_nat (Z.of_nat (length l))) (slots n empty l) = l.
Proof. intros H. unfold slots. rewrite Nat2Z.id, take_take, Nat.min_l by done. by rewrite take_app_length. Qed.

Lemma build_vpns_length vpns out : build_vpns vpns = inr out -> length out = length vpns.
Proof.
  revert out. induction vpns as [|v vpns IH]; intros out; cbn [build_vpns]; [by intros [= <-]|].
  destruct (match_kind _); [done|]. destruct (build_vpns vpns) as [|l]; [done|]. intros [= <-]. cbn. f_equal. by apply IH.
Qed.

Lemma build_taps_length taps out : build_taps taps = inr out -> length out = length taps.
Proof.
  revert out. induction taps as [|t taps IH]; intros out; cbn [build_taps]; [by intros [= <-]|].
  destruct (tap_mode_kind _); [done|]. destruct (build_taps taps) as [|l]; [done|]. intros [= <-]. cbn. f_equal. by apply IH.
Qed.

(** ** Entries by their key *)

Section Keys.
Context {A K : Type} `{EqDecision K} (key : A -> K) (k : K) (f : A -> bool).
Hypothesis f_key : forall x, f x = bool_decide (key x = k).

Lemma exists_key l : existsb f l = bool_decide (k ∈ map key l).
Proof.
  induction l as [|x l IH]; [done|]. cbn [existsb map]. rewrite f_key, IH. apply eq_true_iff_eq.
  rewrite orb_true_iff, !bool_decide_eq_true, elem_of_cons. naive_solver.
Qed.

Lemma filter_key l : List.filter (fun x => negb (f x)) l = filter (fun x => key x <> k) l.
Proof.
  induction l as [|x l IH]; [done|]. cbn [List.filter]. rewrite f_key, filter_cons, IH.
  by destruct (decide (key x = k)) as [Hk|Hk]; [rewrite bool_decide_true by done|rewrite bool_decide_false by done];
    destruct (decide (key x <> k)).
Qed.

Lemma filter_key_all l : Nat.eqb (length (List.filter (fun x => negb (f x)) l)) (length l) = negb (bool_decide (k ∈ map key l)).
Proof.
  induction l as [|x l IH]; [done|]. cbn [List.filter map]. rewrite f_key. destruct (decide (key x = k)) as [Hk|Hk].
  - rewrite (bool_decide_true (key x = k)) by done. cbn [negb length]. rewrite bool_decide_true by (rewrite elem_of_cons; auto). cbn [negb].
    apply Nat.eqb_neq. pose proof (List.filter_length_le (fun x => negb (f x)) l). lia.
  - rewrite (bool_decide_false (key x = k)) by done. cbn [negb length Nat.eqb]. rewrite IH. f_equal. apply bool_decide_ext.
    rewrite elem_of_cons. naive_solver.
Qed.

End Keys.

Lemma str_is_key {A} (key : A -> string) k (x : A) : (key x =s k) = bool_decide (key x = k).
Proof. destruct (String.eqb_spec (key x) k); [by rewrite bool_decide_true|by rewrite bool_decide_false]. Qed.

Section Worlds.
Context {V : Type} (E : ConfigEnv V).
Implicit Types (w : World V) (g : ConfigRegion) (c : SyConfigFile).

(** ** What a computation leaves as it was *)

Definition same_files w w' : Prop :=
  w_file w' = w_file w /\ w_temp w' = w_temp w /\ w_config w' = w_config w.

Definition quiet w w' : Prop :=
  same_files w w' /\ w_region w' = w_region w /\ w_seen w' = w_seen w.

(** One more state of the region. *)
Definition wrote g w w' : Prop :=
  same_files w w' /\ w_region w' = Some g /\ w_seen w' = g :: w_seen w.

Lemma quiet_then w w' w'' : quiet w w' -> quiet w' w'' -> quiet w w''.
Proof. unfold quiet, same_files. naive_solver congruence. Qed.

Lemma same_files_trans w w' w'' : same_files w w' -> same_files w' w'' -> same_files w w''.
Proof. unfold same_files. naive_solver congruence. Qed.

Lemma quiet_files w w' : quiet w w' -> same_files w w'.
Proof. by intros [H _]. Qed.

Lemma next_fate_quiet w : quiet w (next_fate w).2.
Proof. unfold next_fate. by destruct (w_fates w). Qed.

Lemma ends_now w (Q : Out string Z -> World V -> Prop) :
  (forall now w', quiet w w' -> Q (Done now) w') -> ends (now_epoch_ms E) w Q.
Proof. intros H. by apply H. Qed.

Lemma ends_now_text w (Q : Out string string -> World V -> Prop) :
  (forall text w', quiet w w' -> Q (Done text) w') -> ends (now_text E) w Q.
Proof. intros H. unfold now_text. ends_step. apply ends_now. intros now w' Hq. ends_step. by apply H. Qed.

Lemma ends_guarded f t w g (Q : Out string unit -> World V -> Prop) : w_region w = Some g ->
  (forall w', wrote (f g) w w' -> Q (Done tt) w') -> (forall w', quiet w w' -> Q Dead w') ->
  (forall torn w', wrote (set_odd true (t torn g)) w w' -> Q Dead w') -> ends (guarded f t) w Q.
Proof.
  intros Hg H1 H2 H3. unfold ends, guarded. rewrite Hg. pose proof (next_fate_quiet w) as Hq.
  destruct (next_fate w) as [fate w1]. cbn in Hq. destruct Hq as [Hf [Hr Hs]].
  destruct fate as [|why kept|kept [torn|]]; cbn; [apply H1|apply H1|eapply H3|apply H2]; unfold wrote, quiet; cbn;
    by rewrite ?Hs.
Qed.

(** A call that does not touch the region. *)
Lemma ends_call {A} (a : A) f cut w (Q : Out string A -> World V -> Prop) :
  (forall w', quiet w w' -> Q (Done a) (f w')) -> (forall why kept w', quiet w w' -> Q (Err why) (cut kept w')) ->
  (forall kept w', quiet w w' -> Q Dead (cut kept w')) -> ends (call a f cut) w Q.
Proof.
  intros H1 H2 H3. unfold ends, call. pose proof (next_fate_quiet w) as Hq.
  destruct (next_fate w) as [[|why kept|kept torn] w1]; cbn in *; auto.
Qed.

Lemma ends_send m w (Q : Out string unit -> World V -> Prop) :
  (forall o w', quiet w w' -> Q o w') -> ends (send m) w Q.
Proof. intros H. apply ends_call; intros; apply H; done. Qed.

Lemma ends_current w (Q : Out string SyConfigFile -> World V -> Prop) :
  Q (Done (w_config w)) w -> ends current w Q.
Proof. done. Qed.

Lemma ends_become c w (Q : Out string unit -> World V -> Prop) : Q (Done tt) (set_config c w) -> ends (become c) w Q.
Proof. done. Qed.

(** ** The entries of a configuration *)

Lemma ends_build_routes routes w :
  ends (build_routes E routes) w (fun o w' => quiet w w' /\
    match o with
    | Done entries => forallb route_ok routes = true /\ Forall2 routed routes entries
    | Err _ => forallb route_ok routes = false
    | Dead => False
    end).
Proof.
  revert w. induction routes as [|route routes IH]; intros w; cbn [build_routes forallb]; [by ends_step|].
  unfold route_ok at 1 3. do 2 ends_step.
  destruct (match_kind (rc_match_kind route)) as [|kind] eqn:Ek; [done|]. do 2 ends_step.
  destruct (action_kind (rc_action route)) as [|action] eqn:Ea; [done|]. ends_step.
  apply ends_now. intros now w1 Hq1. ends_step. eapply ends_mono; [apply IH|].
  intros [entries|e|] w2 [Hq2 H]; [|by eauto using quiet_then|done].
  ends_step. split; [by eauto using quiet_then|]. destruct H as [H1 H2]. split; [by rewrite H1|].
  constructor; [|done]. by exists kind, action, now.
Qed.

Lemma routed_length routes entries : Forall2 routed routes entries -> length entries = length routes.
Proof. intros H. symmetry. by eapply Forall2_length. Qed.

(** ** Versions *)

Definition no_newer (v : Z) (seen : list ConfigRegion) : Prop := Forall (fun g => g_config_version g <= v) seen.

(** The region has the version [v], and no state before it a newer one. *)
Definition tracked (v : Z) w : Prop :=
  exists g, w_region w = Some g /\ g_config_version g = v /\ 1 <= v /\ no_newer v (w_seen w).

(** The same, and no write is under way. *)
Definition at_rest (v : Z) w : Prop :=
  tracked v w /\ forall g, w_region w = Some g -> g_odd g = false.

Lemma no_newer_le v v' seen : v <= v' -> no_newer v seen -> no_newer v' seen.
Proof. intros H Hs. eapply Forall_impl; [exact Hs|]. cbn. intros. lia. Qed.

Lemma tracked_quiet v w w' : tracked v w -> quiet w w' -> tracked v w'.
Proof. intros (g & H1 & H2 & H3 & H4) (_ & Hr & Hs). exists g. by rewrite Hr, Hs. Qed.

Lemma at_rest_quiet v w w' : at_rest v w -> quiet w w' -> at_rest v w'.
Proof. intros [H1 H2] Hq. split; [by eapply tracked_quiet|]. destruct Hq as (_ & Hr & _). by rewrite Hr. Qed.

Lemma tracked_wrote v w g w' : tracked v w -> v <= g_config_version g -> wrote g w w' -> tracked (g_config_version g) w'.
Proof.
  intros (g0 & _ & _ & H1 & H3) Hle (_ & Hr & Hs). exists g. rewrite Hr, Hs. split_and!; [done|done|lia|].
  constructor; [lia|]. by eapply no_newer_le.
Qed.

Lemma put_version_le bump v : v <= u64_max -> v <= put_version bump v.
Proof. unfold put_version, saturating_add64. destruct bump; lia. Qed.

(** A version is a [u64]. *)
Definition version_ok w : Prop := forall g, w_region w = Some g -> g_config_version g <= u64_max.

(** A write of the region that keeps the version, in the middle of an apply. *)
Lemma ends_write_table f t v w (Q : Out string unit -> World V -> Prop) : at_rest v w -> v <= u64_max ->
  (forall g, g_config_version (f g) = g_config_version g /\ g_odd (f g) = g_odd g) ->
  (forall torn g, g_config_version (t torn g) = g_config_version g) ->
  (forall g w', w_region w = Some g -> at_rest v w' -> same_files w w' -> w_region w' = Some (f g) -> Q (Done tt) w') ->
  (forall w', tracked v w' -> same_files w w' -> Q Dead w') -> ends (guarded f t) w Q.
Proof.
  intros [Ht Hodd] Hv Hf Htorn H1 H2. pose proof Ht as (g & Hg & Hvg & _).
  apply (ends_guarded f t w g Q Hg).
  - intros w' Hw. destruct (Hf g) as [Hfv Hfo]. apply (H1 g); [done| |by destruct Hw|by destruct Hw as (_ & ? & _)].
    split; [|intros g' Hg'; destruct Hw as (_ & Hr & _); rewrite Hr in Hg'; injection Hg' as <-; rewrite Hfo; by apply Hodd].
    rewrite <- Hvg, <- Hfv. eapply tracked_wrote; [done|lia|done].
  - intros w' Hq. apply H2; [by eapply tracked_quiet|by apply quiet_files].
  - intros torn w' Hw. apply H2; [|by destruct Hw]. specialize (Htorn torn g).
    rewrite <- Hvg, <- Htorn. change (g_config_version (t torn g)) with (g_config_version (set_odd true (t torn g))).
    eapply tracked_wrote; [done| |done]. cbn. lia.
Qed.

(** The write that ends an apply: the new version is newer than all the region had. *)
Definition published c hive v w : Prop :=
  exists g older, w_region w = Some g /\ holds hive c g /\ g_config_version g = put_version true v /\ 1 <= v /\
    w_seen w = g :: older /\ no_newer v older.

Lemma ends_write_last f t v w (Q : Out string unit -> World V -> Prop) : at_rest v w -> v <= u64_max ->
  (forall g, g_config_version (f g) = put_version true (g_config_version g)) ->
  (forall torn g, exists bump, g_config_version (t torn g) = put_version bump (g_config_version g)) ->
  (forall g w', w_region w = Some g -> wrote (f g) w w' -> Q (Done tt) w') ->
  (forall v' w', v <= v' -> v' <= u64_max -> tracked v' w' -> same_files w w' -> Q Dead w') -> ends (guarded f t) w Q.
Proof.
  intros [Ht Hodd] Hv Hf Htorn H1 H2. pose proof Ht as (g & Hg & Hvg & _).
  apply (ends_guarded f t w g Q Hg); [intros w' Hw; by apply (H1 g)| |].
  - intros w' Hq. apply (H2 v); [done|done|by eapply tracked_quiet|by apply quiet_files].
  - intros torn w' Hw. destruct (Htorn torn g) as [bump Hb].
    assert (Hle : g_config_version g <= put_version bump (g_config_version g)) by (apply put_version_le; lia).
    apply (H2 (g_config_version (set_odd true (t torn g)))); cbn [set_odd g_config_version]; rewrite ?Hb; [lia| |
      |by destruct Hw].
    + unfold put_version, saturating_add64. destruct bump; lia.
    + rewrite <- Hb. eapply (tracked_wrote v w (set_odd true (t torn g))); [done| |done]. cbn. lia.
Qed.

(** ** [apply_config] *)

Definition applied hive c v w (o : Out string unit) w' : Prop :=
  same_files w w' /\
  match o with
  | Done _ => acceptable c = true /\ published c hive v w'
  | Err _ => acceptable c = false /\ at_rest v w'
  | Dead => exists v', v <= v' <= u64_max /\ tracked v' w'
  end.

(** The last of the three writes. *)
Lemma ends_write_taps hive c v w entries now now' vpns taps g :
  at_rest v w -> v <= u64_max -> w_region w = Some g ->
  forallb route_ok (cf_routes c) = true -> Forall2 routed (cf_routes c) entries ->
  let rs := (entries ++ [frozen_route "SY.orchestrator@*" MATCH_GLOB now;
                         frozen_route ("SY.admin@" ++ hive) MATCH_EXACT now'])%list in
  (length rs <= MAX_STATIC_ROUTES)%nat -> (length vpns <= MAX_VPN_ASSIGNMENTS)%nat ->
  build_vpns (cf_vpns c) = inr vpns -> build_taps (cf_taps c) = inr taps ->
  g_static_route_count g = Z.of_nat (length rs) -> g_routes g = slots MAX_STATIC_ROUTES empty_static_route rs ->
  g_vpn_assignment_count g = Z.of_nat (length vpns) -> g_vpns g = slots MAX_VPN_ASSIGNMENTS empty_vpn_assignment vpns ->
  ends (write_taps E taps true) w (applied hive c v w).
Proof.
  intros Hrest Hv Hg Hok Hr rs Lr Lv Ev Et Gc Gr Gvc Gv. unfold write_taps.
  pose proof (routed_length _ _ Hr) as L1. pose proof (build_vpns_length _ _ Ev) as L2.
  pose proof (build_taps_length _ _ Et) as L3.
  assert (length rs = length (cf_routes c) + 2)%nat as L4 by (unfold rs; rewrite length_app, L1; done).
  assert (Hacc : acceptable c = bool_decide (length (cf_taps c) <= MAX_TAP_ENTRIES)%nat).
  { unfold acceptable. rewrite Hok, Ev, Et. cbn [is_inr andb]. rewrite !bool_decide_true by lia. done. }
  destruct (decide (MAX_TAP_ENTRIES < length taps)%nat) as [Hb|Hb];
    [rewrite (bool_decide_true _ Hb)|rewrite (bool_decide_false _ Hb)].
  { ends_step. unfold applied. split; [done|]. split; [|done]. rewrite Hacc, bool_decide_false by lia. done. }
  ends_step. apply ends_now. intros t w1 Hq. pose proof (quiet_files _ _ Hq) as Hf1.
  pose proof (at_rest_quiet _ _ _ Hrest Hq) as Hrest1.
  assert (w_region w1 = Some g) as Hg1 by (destruct Hq as (_ & Hr1 & _); by rewrite Hr1).
  apply (ends_write_last _ _ v w1); [done|done|done|intros torn g1; by exists (torn_bump torn)| |].
  - intros g1 w2 Hg2 (Hf2 & Hr2 & Hs2). rewrite Hg1 in Hg2. injection Hg2 as <-.
    destruct Hrest1 as [(g1 & Hg1' & Hv1 & Hpos & Hn1) Hodd]. rewrite Hg1 in Hg1'. injection Hg1' as <-.
    split; [by eapply same_files_trans|]. split; [by rewrite Hacc, bool_decide_true by lia|].
    eexists _, _. split_and!; [exact Hr2| |by rewrite <- Hv1|done|exact Hs2|done].
    eexists. unfold read_config_snapshot. cbn [put_taps g_odd g_config_version g_static_route_count g_routes
      g_vpn_assignment_count g_vpns g_tap_count g_taps]. rewrite (Hodd g Hg1). split; [done|].
    rewrite Gc, Gr, Gvc, Gv, !slots_back by lia. unfold shows. cbn [cs_routes cs_vpns cs_taps]. split_and!; [|done|done].
    by exists entries, now, now'.
  - intros v' w2 H1 H2 Ht Hf2. split; [by eapply same_files_trans|]. by exists v'.
Qed.

Lemma ends_apply_config hive c v w : at_rest v w -> v <= u64_max ->
  ends (apply_config E hive c) w (applied hive c v w).
Proof.
  intros Hrest Hv. unfold apply_config. ends_step. eapply ends_mono; [apply ends_build_routes|].
  intros [entries|e|] w1 [Hq1 H]; [| |done].
  2: { split; [by apply quiet_files|]. split; [|by eapply at_rest_quiet]. unfold acceptable. by rewrite H. }
  destruct H as [Hok Hr]. unfold frozen_system_authority_routes. do 2 ends_step. apply ends_now. intros now w2 Hq2.
  ends_step. apply ends_now. intros now' w3 Hq3. do 3 ends_step.
  assert (Hq : quiet w w3) by eauto using quiet_then. clear Hq1 Hq2 Hq3 w1 w2.
  assert (refused : acceptable c = false -> forall e, applied hive c v w (Err e) w3).
  { intros Ha e. split; [by apply quiet_files|]. split; [done|]. by eapply at_rest_quiet. }
  destruct (build_vpns (cf_vpns c)) as [e|vpns] eqn:Ev.
  { apply refused. unfold acceptable. rewrite Ev. cbn [is_inr]. by rewrite andb_false_r. }
  do 2 ends_step. destruct (build_taps (cf_taps c)) as [e|taps] eqn:Et.
  { apply refused. unfold acceptable. rewrite Et. cbn [is_inr]. by rewrite andb_false_r. }
  pose proof (routed_length _ _ Hr) as L1. pose proof (build_vpns_length _ _ Ev) as L2.
  ends_step. unfold write_static_routes. case_bool_decide as Hb1.
  { ends_step. apply refused. unfold acceptable. rewrite length_app, L1 in Hb1. cbn [length] in Hb1.
    rewrite (bool_decide_false (length (cf_routes c) + 2 <= _)%nat) by lia. by rewrite !andb_false_r. }
  ends_step. apply ends_now. intros t1 w4 Hq4. pose proof (at_rest_quiet _ _ _ Hrest (quiet_then _ _ _ Hq Hq4)) as Hrest4.
  pose proof (quiet_files _ _ (quiet_then _ _ _ Hq Hq4)) as Hf4.
  assert (died : forall w', tracked v w' -> same_files w w' -> applied hive c v w Dead w').
  { intros w' Ht Hf. split; [done|]. exists v. split; [lia|done]. }
  apply (ends_write_table _ _ v w4); [done|done|done|done| |by eauto using same_files_trans].
  intros g5 w5 _ Hrest5 Hf5 Hg5. ends_step. unfold write_vpn_assignments. case_bool_decide as Hb2.
  { ends_step. split; [by eapply same_files_trans|]. split; [|done]. unfold acceptable.
    rewrite (bool_decide_false (length (cf_vpns c) <= _)%nat) by lia. by rewrite !andb_false_r. }
  ends_step. apply ends_now. intros t2 w6 Hq6. pose proof (at_rest_quiet _ _ _ Hrest5 Hq6) as Hrest6.
  pose proof (same_files_trans _ _ _ (same_files_trans _ _ _ Hf4 Hf5) (quiet_files _ _ Hq6)) as Hf6.
  apply (ends_write_table _ _ v w6); [done|done|done|done| |by eauto using same_files_trans].
  intros g7 w7 Hg6 Hrest7 Hf7 Hg7. destruct Hq6 as (_ & Hr6 & _). rewrite Hr6, Hg5 in Hg6. injection Hg6 as <-.
  eapply ends_mono; [eapply (ends_write_taps hive c v w7 entries now now' vpns taps); try done; lia|].
  intros o w8 [Hf8 H8]. split; [by eauto using same_files_trans|done].
Qed.

(** ** One configuration in three places *)

(** The file reads as the configuration. *)
Definition saved c w : Prop := exists data, w_file w = Some data /\ from_yaml E data = inr c.

(** A state the region was in with the version of now has the tables of now; unless the version is the
    last a [u64] has. *)
Definition settled w : Prop :=
  exists g, w_region w = Some g /\ g ∈ w_seen w /\ 1 <= g_config_version g <= u64_max /\ no_newer (g_config_version g) (w_seen w) /\
    (g_config_version g < u64_max -> forall h, h ∈ w_seen w -> g_config_version h = g_config_version g ->
       g_odd h = false -> read_config_snapshot h = read_config_snapshot g).

Definition agreed hive w : Prop :=
  acceptable (w_config w) = true /\ saved (w_config w) w /\ settled w /\
  exists g, w_region w = Some g /\ holds hive (w_config w) g.

(** What a process that is gone leaves. *)
Definition wreck w : Prop := exists v, v <= u64_max /\ tracked v w.

(** After a computation that may change the configuration [c] into one of [N]. *)
Definition fared {A} hive c (N : SyConfigFile -> Prop) (o : Out string A) w : Prop :=
  match o with
  | Dead => wreck w /\ (saved c w \/ exists n, N n /\ acceptable n = true /\ saved n w)
  | _ => agreed hive w /\ (w_config w = c \/ N (w_config w))
  end.

Lemma published_settled c hive v w : v <= u64_max -> published c hive v w -> settled w.
Proof.
  intros Hv (g & older & Hg & _ & Hgv & Hpos & Hs & Hn). exists g. rewrite Hs, Hgv.
  pose proof (put_version_le true v Hv) as Hle. split_and!; [done|set_solver|lia| | |].
  - unfold put_version, saturating_add64. lia.
  - constructor; [lia|]. by eapply no_newer_le.
  - intros Hlt h [->|Hh]%elem_of_cons Hvh; [done|]. unfold no_newer in Hn. rewrite Forall_forall in Hn. specialize (Hn h Hh). cbn in Hn.
    unfold put_version, saturating_add64 in *. lia.
Qed.

Lemma holds_odd hive c g : holds hive c g -> g_odd g = false.
Proof. intros (s & H & _). unfold read_config_snapshot in H. by destruct (g_odd g). Qed.

Lemma published_at_rest c hive v w w' : v <= u64_max -> published c hive v w ->
  w_region w' = w_region w -> w_seen w' = w_seen w -> exists v', v' <= u64_max /\ at_rest v' w'.
Proof.
  intros Hv Hp Hr Hs. pose proof (published_settled _ _ _ _ Hv Hp) as (g & Hg & _ & [Hpos Hgv] & Hn & _).
  destruct Hp as (g' & _ & Hg' & Hh & _). rewrite Hg in Hg'. injection Hg' as <-. exists (g_config_version g). split; [done|].
  split; [exists g; by rewrite Hr, Hs|]. rewrite Hr, Hg. intros ? [= <-]. by eapply holds_odd.
Qed.

Lemma agreed_at_rest hive w : agreed hive w -> exists v, v <= u64_max /\ at_rest v w.
Proof.
  intros (_ & _ & (g & Hg & _ & [Hpos Hv] & Hn & _) & (g' & Hg' & Hh)). exists (g_config_version g). split; [done|]. split; [by exists g|].
  rewrite Hg in Hg'. injection Hg' as <-. rewrite Hg. intros ? [= <-]. by eapply holds_odd.
Qed.

Lemma agreed_quiet hive w w' : agreed hive w -> quiet w w' -> agreed hive w'.
Proof.
  intros H ((Hf & _ & Hc) & Hr & Hs). unfold agreed, saved, settled in *. by rewrite Hf, Hc, Hr, Hs.
Qed.

Lemma agreed_wreck hive w : agreed hive w -> wreck w.
Proof. intros (v & Hv & Ht & _)%agreed_at_rest. by exists v. Qed.

Lemma agreed_fared {A} hive N (o : Out string A) w w' : agreed hive w -> quiet w w' -> fared hive (w_config w) N o w'.
Proof.
  intros H Hq. pose proof (agreed_quiet _ _ _ H Hq) as H'. destruct Hq as ((_ & _ & Hc) & _).
  destruct o; cbn; rewrite ?Hc; [by auto|by auto|]. split; [by eapply agreed_wreck|]. left. rewrite <- Hc. by destruct H' as (_ & ? & _).
Qed.

Lemma fared_weaken {A} hive c (N N' : SyConfigFile -> Prop) (o : Out string A) w :
  (forall n, N n -> N' n) -> fared hive c N o w -> fared hive c N' o w.
Proof. intros HN. destruct o; cbn; intros [? [?|?]]; split; auto. right. naive_solver. Qed.

(** Sending after a change. *)
Lemma fared_quiet {A} hive c N (o : Out string A) w w' : agreed hive w -> (w_config w = c \/ N (w_config w)) ->
  quiet w w' -> fared hive c N o w'.
Proof.
  intros H HN Hq. pose proof (agreed_quiet _ _ _ H Hq) as H'. pose proof Hq as ((_ & _ & Hc) & _).
  destruct o; cbn; rewrite ?Hc; [done|done|]. split; [by eapply agreed_wreck|].
  destruct H' as (Ha & Hs & _). rewrite Hc in Ha, Hs. destruct HN as [<-|HN]; [by left|right; eauto].
Qed.

(** *** The file *)

Hypothesis yaml_roundtrip : forall c data, to_yaml E c = inr data -> from_yaml E data = inr c.

(** The region is not touched, and a failure leaves the file. *)
Lemma ends_write_config c w :
  ends (write_config E c) w (fun o w' =>
    w_config w' = w_config w /\ w_region w' = w_region w /\ w_seen w' = w_seen w /\
    match o with Done _ => saved c w' | _ => w_file w' = w_file w end).
Proof.
  unfold write_config. do 2 ends_step. destruct (to_yaml E c) as [|data] eqn:Ey; [done|].
  ends_step. unfold write_temp. apply ends_call; cbn; intros.
  1: unfold rename_temp; apply ends_call; cbn; intros.
  all: unfold quiet, same_files, unchanged in *; destruct_and?; cbn in *; split_and!; try congruence.
  exists data. split; [by cbn|]. by apply yaml_roundtrip.
Qed.

(** *** [commit_config] *)

(** Putting the current configuration back. *)
Lemma ends_restore hive v w : at_rest v w -> v <= u64_max -> acceptable (w_config w) = true -> saved (w_config w) w ->
  ends (restore E hive) w (fun o w' => same_files w w' /\
    match o with Done _ => agreed hive w' | Err _ => False | Dead => wreck w' end).
Proof.
  intros Hrest Hv Hacc Hsaved. unfold restore. ends_step. apply ends_current. do 2 ends_step.
  eapply ends_mono; [by apply (ends_apply_config hive (w_config w) v w)|].
  intros [[]|e|] w' [Hf H]; [|by destruct H; congruence|].
  - ends_step. split; [done|]. destruct H as [Ha Hp]. destruct Hf as (Hff & _ & Hc). unfold agreed, saved. rewrite Hc, Hff.
    split_and!; [done|done|by eapply published_settled|]. destruct Hp as (g & _ & Hg & Hh & _). by exists g.
  - split; [done|]. destruct H as (v' & [_ Hv'] & Ht). by exists v'.
Qed.

Lemma ends_commit_config hive next w : agreed hive w ->
  ends (commit_config E hive next) w (fun o w' =>
    fared hive (w_config w) (fun n => n = next) o w' /\
    match o with Done _ => w_config w' = next | Err _ => w_config w' = w_config w | Dead => True end).
Proof.
  intros H. pose proof (agreed_at_rest _ _ H) as (v & Hv & Hrest). destruct H as (Hacc & Hsaved & _ & _).
  unfold commit_config. do 2 ends_step. eapply ends_mono; [by apply (ends_apply_config hive next v w)|].
  (* Where [current] is put back. *)
  assert (back : forall v' w1 (e : string), at_rest v' w1 -> v' <= u64_max -> w_config w1 = w_config w ->
    w_file w1 = w_file w -> ends (restore E hive ;;; fail e) w1 (fun o w' =>
      fared (A := unit) hive (w_config w) (fun n => n = next) o w' /\
      match o with Done _ => w_config w' = next | Err _ => w_config w' = w_config w | Dead => True end)).
  { intros v' w1 e Hr1 Hv1 Hc1 Hf1. ends_step. assert (saved (w_config w1) w1) by (unfold saved; by rewrite Hf1, Hc1).
    eapply ends_mono; [apply (ends_restore hive v' w1); [done|done|by rewrite Hc1|done]|].
    intros [[]|e'|] w2 [(Hf2 & _ & Hc2) H2]; [|done|].
    - ends_step. split; [|by rewrite Hc2]. split; [done|]. left. by rewrite Hc2.
    - split; [|done]. split; [done|]. left. unfold saved. rewrite Hf2, Hf1. done. }
  intros [[]|e|] w1 [Hf1 H1].
  - destruct H1 as [Hacc1 Hp]. do 2 ends_step. eapply ends_mono; [apply ends_write_config|].
    destruct Hf1 as (Hff & _ & Hc1). intros [[]|e|] w2 (Hc2 & Hr2 & Hs2 & H2).
    + apply ends_become. split; [|done]. unfold fared, agreed. cbn. unfold settled, saved. cbn. rewrite Hr2, Hs2.
      split; [|by right]. split_and!; [done|done|by eapply published_settled|].
      destruct Hp as (g & _ & Hg & Hh & _). by exists g.
    + destruct (published_at_rest _ _ _ _ _ Hv Hp Hr2 Hs2) as (v' & Hv' & Hrest'). apply (back v'); [done|done|congruence|congruence].
    + split; [|done]. split; [|left; unfold saved; by rewrite H2, Hff].
      destruct (published_at_rest _ _ _ _ _ Hv Hp Hr2 Hs2) as (v' & Hv' & Ht & _). by exists v'.
  - destruct H1 as [_ Hr1], Hf1 as (Hff & _ & Hc1). by apply (back v).
  - split; [|done]. destruct H1 as (v' & [_ Hv'] & Ht). split; [by exists v'|]. left. destruct Hf1 as (Hff & _). unfold saved.
    by rewrite Hff.
Qed.

(** ** What a message asks for *)

Inductive Edit :=
| AddRoute (route : RouteConfig) | DeleteRoute (prefix : string)
| AddVpn (vpn : VpnConfig) | DeleteVpn (pattern : string)
| AddTap (tap : TapConfig) | DeleteTap (match_src match_dst target : string)
| Replace (routes : option (list RouteConfig)) (vpns : option (list VpnConfig)) (taps : option (list TapConfig))
    (version : Z).

Definition tap_key (t : TapConfig) : string * string * string := (tc_match_src t, tc_match_dst t, tc_target t).

(** The configuration an edit makes: none if the entry is there already, or is not there to delete, or
    nothing changes. *)
Definition edited_tables (e : Edit) c : option SyConfigFile :=
  match e with
  | AddRoute r => if decide (rc_prefix r ∈ map rc_prefix (cf_routes c)) then None
                  else Some (set_routes (cf_routes c ++ [r])%list c)
  | DeleteRoute p => if decide (p ∈ map rc_prefix (cf_routes c)) then
                       Some (set_routes (filter (fun r => rc_prefix r <> p) (cf_routes c)) c) else None
  | AddVpn v => if decide (vc_pattern v ∈ map vc_pattern (cf_vpns c)) then None
                else Some (set_vpns (cf_vpns c ++ [v])%list c)
  | DeleteVpn p => if decide (p ∈ map vc_pattern (cf_vpns c)) then
                     Some (set_vpns (filter (fun v => vc_pattern v <> p) (cf_vpns c)) c) else None
  | AddTap t => if decide (tap_key t ∈ map tap_key (cf_taps c)) then None else Some (set_taps (cf_taps c ++ [t])%list c)
  | DeleteTap s d t => if decide ((s, d, t) ∈ map tap_key (cf_taps c)) then
                         Some (set_taps (filter (fun x => tap_key x <> (s, d, t)) (cf_taps c)) c) else None
  | Replace rs vs ts _ =>
    let next := set_routes (or_old rs (cf_routes c)) (set_vpns (or_old vs (cf_vpns c)) (set_taps (or_old ts (cf_taps c)) c)) in
    if decide (next = c) then None else Some next
  end.

Definition edited_version (e : Edit) c : Z :=
  match e with
  | Replace _ _ _ v => if Z.eqb v 0 then saturating_add64 (cf_version c) 1 else v
  | _ => saturating_add64 (cf_version c) 1
  end.

Definition edited (e : Edit) (updated_at : string) c : option SyConfigFile :=
  option_map (set_version (edited_version e c) updated_at) (edited_tables e c).

Definition ok_of {A} (r : string + A) : option A := match r with inr a => Some a | inl _ => None end.

Definition admin_edit (action : string) (payload : V) : option Edit :=
  if action =s "add_route" then option_map AddRoute (ok_of (read_route E payload))
  else if action =s "delete_route" then Some (DeleteRoute (text_field E payload "prefix"))
  else if action =s "add_vpn" then option_map AddVpn (ok_of (read_vpn E payload))
  else if action =s "delete_vpn" then Some (DeleteVpn (text_field E payload "pattern"))
  else if action =s "add_tap" then option_map AddTap (ok_of (read_tap E payload))
  else if action =s "delete_tap" then
    Some (DeleteTap (text_field E payload "match_src") (text_field E payload "match_dst") (text_field E payload "target"))
  else None.

(** A section of a CONFIG_SET's configuration: the outer none is one that does not read. *)
Definition asked_section {A} (read : V -> string + list A) (name : string) (config : V) : option (option (list A)) :=
  if has E config name then
    match parse_section E read name config with inr (Some l) => Some (Some l) | _ => None end
  else Some None.

Definition set_edit (r : NodeConfigSetPayload V) : option Edit :=
  let config := ns_config r in
  if (ns_apply_mode r =s NODE_CONFIG_APPLY_MODE_REPLACE) && is_object E config
     && (has E config "routes" || has E config "vpns" || has E config "taps") then
    match asked_section (read_routes E) "routes" config, asked_section (read_vpns E) "vpns" config,
          asked_section (read_taps E) "taps" config with
    | Some rs, Some vs, Some ts => Some (Replace rs vs ts (ns_config_version r))
    | _, _, _ => None
    end
  else None.

Definition edit_of (m : Message V) : option Edit :=
  if msg_type (meta m) =s ADMIN_KIND then
    if is_primary_admin_origin (src_l2_name (routing m)) then
      admin_edit (unwrap_or "" (Protocol.action (meta m))) (msg_payload m)
    else None
  else if is_system_kind (msg_type (meta m)) && opt_str_is (msg (meta m)) MSG_CONFIG_SET then
    match ok_of (read_config_set E (msg_payload m)) with Some r => set_edit r | None => None end
  else None.

(** The configurations a message may make of [c]. *)
Definition asked c (m : Message V) (next : SyConfigFile) : Prop :=
  exists e updated_at, edit_of m = Some e /\ edited e updated_at c = Some next.

(** ** The handlers *)

Definition some_edit (e : Edit) c (n : SyConfigFile) : Prop := exists updated_at, edited e updated_at c = Some n.

Lemma ends_commit_admin_change hive e next action answer w : agreed hive w ->
  edited_tables e (w_config w) = Some next -> edited_version e (w_config w) = saturating_add64 (cf_version (w_config w)) 1 ->
  ends (commit_admin_change E hive next action answer) w (fared hive (w_config w) (some_edit e (w_config w))).
Proof.
  intros H He Hver. unfold commit_admin_change. ends_step. apply ends_current. ends_step. apply ends_now_text.
  intros text w1 Hq. pose proof (agreed_quiet _ _ _ H Hq) as H1. destruct Hq as ((_ & _ & Hc) & _).
  set (n := set_version _ _ _). assert (Hn : some_edit e (w_config w) n) by (exists text; unfold edited; by rewrite He, Hver).
  do 2 ends_step. eapply ends_mono; [by apply ends_commit_config|]. rewrite Hc.
  assert (weaker : forall x, x = n -> some_edit e (w_config w) x) by (by intros ? ->).
  intros [[]|d|] w2 [H2 _]; apply (fared_weaken _ _ _ _ _ _ weaker) in H2; [|by ends_step|done].
  ends_step. apply ends_current. by ends_step.
Qed.

Definition admin_asked c (action : string) (payload : V) (n : SyConfigFile) : Prop :=
  exists e, admin_edit action payload = Some e /\ some_edit e c n.

(** An answer without a change. *)
Lemma answer_only hive N (b : Body V) w : agreed hive w -> ends (ret b) w (fared hive (w_config w) N).
Proof. intros H. ends_step. by eapply agreed_fared. Qed.

(** The answer of an admin action that makes an edit. *)
Definition admin_data (e : Edit) (version : Z) : AdminData :=
  match e with
  | AddRoute r => RouteAdded version r
  | AddVpn v => VpnAdded version v
  | AddTap t => TapAdded version t
  | _ => EntryDeleted version
  end.

(** [h] makes the edit [e]: it commits the configuration [e] makes, or refuses if there is none. *)
Definition does_edit hive action c (e : Edit) (h : Effects.M (World V) string (Body V)) : Prop :=
  match edited_tables e c with
  | Some t => h = commit_admin_change E hive t action (fun c => admin_data e (cf_version c))
  | None => exists code detail, h = ret (AdminError action code detail)
  end.

Lemma same_tap_key s d t x : same_tap s d t x = bool_decide (tap_key x = (s, d, t)).
Proof.
  unfold same_tap, tap_key. apply eq_true_iff_eq. rewrite bool_decide_eq_true, !andb_true_iff, !String.eqb_eq.
  naive_solver congruence.
Qed.

Ltac edit_case :=
  unfold does_edit; cbn [edited_tables]; case_bool_decide; [rewrite decide_True by done|rewrite decide_False by done]; cbn [negb]; eauto.

Lemma add_route_edit hive action c payload r : read_route E payload = inr r ->
  does_edit hive action c (AddRoute r) (add_route E hive action c payload).
Proof. intros Hr. unfold add_route. rewrite Hr, (exists_key rc_prefix (rc_prefix r)) by (intros; apply str_is_key). edit_case. Qed.

Lemma add_vpn_edit hive action c payload v : read_vpn E payload = inr v ->
  does_edit hive action c (AddVpn v) (add_vpn E hive action c payload).
Proof. intros Hr. unfold add_vpn. rewrite Hr, (exists_key vc_pattern (vc_pattern v)) by (intros; apply str_is_key). edit_case. Qed.

Lemma add_tap_edit hive action c payload t : read_tap E payload = inr t ->
  does_edit hive action c (AddTap t) (add_tap E hive action c payload).
Proof. intros Hr. unfold add_tap. rewrite Hr, (exists_key tap_key (tap_key t)) by (intros; apply same_tap_key). edit_case. Qed.

Lemma delete_route_edit hive action c payload :
  does_edit hive action c (DeleteRoute (text_field E payload "prefix")) (delete_route E hive action c payload).
Proof.
  unfold delete_route. set (p := text_field _ _ _).
  rewrite (filter_key_all rc_prefix p), (filter_key rc_prefix p) by (intros; apply str_is_key). edit_case.
Qed.

Lemma delete_vpn_edit hive action c payload :
  does_edit hive action c (DeleteVpn (text_field E payload "pattern")) (delete_vpn E hive action c payload).
Proof.
  unfold delete_vpn. set (p := text_field _ _ _).
  rewrite (filter_key_all vc_pattern p), (filter_key vc_pattern p) by (intros; apply str_is_key). edit_case.
Qed.

Lemma delete_tap_edit hive action c payload :
  does_edit hive action c (DeleteTap (text_field E payload "match_src") (text_field E payload "match_dst")
    (text_field E payload "target")) (delete_tap E hive action c payload).
Proof.
  unfold delete_tap. set (ms := text_field _ _ "match_src"). set (md := text_field _ _ "match_dst"). set (tg := text_field _ _ "target").
  rewrite (filter_key_all tap_key (ms, md, tg)), (filter_key tap_key (ms, md, tg)) by (intros; apply same_tap_key). edit_case.
Qed.

(** An admin action makes the edit it asks for, or only answers. *)
Lemma admin_answer_edit hive action payload w :
  match admin_edit action payload with
  | Some e => exists h, admin_answer E hive action payload w = h w /\ does_edit hive action (w_config w) e h
  | None => exists b, admin_answer E hive action payload w = (Done b, w)
  end.
Proof.
  unfold admin_edit, admin_answer, bind, current.
  destruct (String.eqb_spec action "list_routes") as [->|_]; [cbn; by eauto|].
  destruct (String.eqb_spec action "list_vpns") as [->|_]; [cbn; by eauto|].
  destruct (String.eqb_spec action "add_route") as [->|_].
  { destruct (read_route E payload) eqn:Er; cbn; [unfold add_route; rewrite Er; by eauto|eauto using add_route_edit]. }
  destruct (String.eqb_spec action "delete_route") as [->|_]; [eauto using delete_route_edit|].
  destruct (String.eqb_spec action "add_vpn") as [->|_].
  { destruct (read_vpn E payload) eqn:Er; cbn; [unfold add_vpn; rewrite Er; by eauto|eauto using add_vpn_edit]. }
  destruct (String.eqb_spec action "delete_vpn") as [->|_]; [eauto using delete_vpn_edit|].
  destruct (String.eqb_spec action "list_taps") as [->|_]; [cbn; by eauto|].
  destruct (String.eqb_spec action "add_tap") as [->|_].
  { destruct (read_tap E payload) eqn:Er; cbn; [unfold add_tap; rewrite Er; by eauto|eauto using add_tap_edit]. }
  destruct (String.eqb_spec action "delete_tap") as [->|_]; [eauto using delete_tap_edit|cbn; by eauto].
Qed.

Lemma admin_edit_version action payload e c : admin_edit action payload = Some e ->
  edited_version e c = saturating_add64 (cf_version c) 1.
Proof.
  unfold admin_edit. intros H. by destruct e; [..|repeat destruct (_ =s _);
    first [done | by destruct (read_route E payload) | by destruct (read_vpn E payload) | by destruct (read_tap E payload)]].
Qed.

Lemma ends_admin_answer hive action payload w : agreed hive w ->
  ends (admin_answer E hive action payload) w (fared hive (w_config w) (admin_asked (w_config w) action payload)).
Proof.
  intros H. unfold ends. pose proof (admin_answer_edit hive action payload w) as Ha.
  destruct (admin_edit action payload) as [e|] eqn:He.
  - destruct Ha as (h & -> & Hd). unfold does_edit in Hd. destruct (edited_tables e (w_config w)) as [t|] eqn:Et.
    + subst h. eapply ends_mono; [eapply (ends_commit_admin_change hive e); [done|done|by eapply admin_edit_version]|].
      intros o w'. apply fared_weaken. intros n Hn. by exists e.
    + destruct Hd as (code & detail & ->). by apply answer_only.
  - destruct Ha as (b & ->). by apply (answer_only hive _ b w).
Qed.

Lemma admin_edit_mutates action payload e : admin_edit action payload = Some e -> admin_action_mutates action = true.
Proof.
  unfold admin_edit, admin_action_mutates, str_mem. cbn [existsb].
  rewrite (String.eqb_sym "add_route"), (String.eqb_sym "delete_route"), (String.eqb_sym "add_vpn"),
    (String.eqb_sym "delete_vpn"), (String.eqb_sym "add_tap"), (String.eqb_sym "delete_tap").
  repeat (destruct (_ =s _); [done|]). done.
Qed.

(** *** CONFIG_SET *)

(** What a section of the request gives: the new list, or none if it is the old one. *)
Definition gives {A} (old : list A) (l new : option (list A)) : Prop :=
  or_old new old = or_old l old /\ (new = None -> or_old l old = old) /\ (is_Some new -> or_old l old <> old).

Lemma section_asked {A} `{EqDecision A} (read : V -> string + list A) name config old :
  match section E read name config old with
  | inr new => exists l, asked_section read name config = Some l /\ gives old l new
  | inl _ => asked_section read name config = None
  end.
Proof.
  unfold section, asked_section, has, gives. destruct (value_get E config name).
  - destruct (parse_section E read name config) as [|[l|]]; [done| |done]. exists (Some l). cbn.
    case_bool_decide as Hl; cbn; split_and!; try done; by intros [? [=]].
  - exists None. cbn. split_and!; try done; by intros [? [=]].
Qed.

(** An edit's configuration differs from the one before, whatever its version. *)
Lemma replace_differs rs vs ts v c t n text : edited_tables (Replace rs vs ts v) c = Some t -> set_version n text t <> c.
Proof.
  cbn [edited_tables]. case_decide as Hd; [done|]. intros [= <-] Hc. apply Hd. destruct c. cbn in *. by injection Hc as _ _ -> -> ->.
Qed.

(** A CONFIG_SET's request makes the edit it asks for, if it asks for one. *)
Lemma ends_apply_node_config_set_request c r w :
  ends (apply_node_config_set_request E c r) w (fun o w' => quiet w w' /\
    match o with
    | Done (next, _) => exists e, set_edit r = Some e /\
        match edited_tables e c with
        | Some t => (exists text, next = set_version (edited_version e c) text t) /\ next <> c
        | None => next = c
        end
    | Err _ => set_edit r = None
    | Dead => False
    end).
Proof.
  unfold apply_node_config_set_request, set_edit. destruct (_ =s NODE_CONFIG_APPLY_MODE_REPLACE); [|done].
  destruct (is_object E (ns_config r)); [|done]. cbn [negb andb].
  do 2 ends_step. pose proof (section_asked (read_routes E) "routes" (ns_config r) (cf_routes c)) as H1.
  destruct (section E (read_routes E) _ _ _) as [|rs]; [rewrite H1; by destruct (_ || _)|]. destruct H1 as (lr & -> & Hr & Nr & Sr).
  do 2 ends_step. pose proof (section_asked (read_vpns E) "vpns" (ns_config r) (cf_vpns c)) as H2.
  destruct (section E (read_vpns E) _ _ _) as [|vs]; [rewrite H2; by destruct (_ || _)|]. destruct H2 as (lv & -> & Hv & Nv & Sv).
  do 2 ends_step. pose proof (section_asked (read_taps E) "taps" (ns_config r) (cf_taps c)) as H3.
  destruct (section E (read_taps E) _ _ _) as [|ts]; [rewrite H3; by destruct (_ || _)|]. destruct H3 as (lt & -> & Ht & Nt & St).
  rewrite <- !negb_orb. destruct (_ || _ || _); [|done]. cbn [negb].
  set (e := Replace lr lv lt (ns_config_version r)).
  assert (same : rs = None -> vs = None -> ts = None -> edited_tables e c = None).
  { intros -> -> ->. cbn. rewrite Nr, Nv, Nt by done. rewrite decide_True; [done|by destruct c]. }
  destruct (changed "routes" rs ++ changed "vpns" vs ++ changed "taps" ts)%list as [|x fields] eqn:Ef.
  { assert (rs = None /\ vs = None /\ ts = None) as (-> & -> & ->) by (by destruct rs, vs, ts).
    ends_step. split; [done|]. exists e. rewrite same by done. split; [done|]. by destruct c. }
  ends_step. apply ends_now_text. intros text w' Hq. ends_step. split; [done|]. exists e. split; [done|].
  assert (exists t, edited_tables e c = Some t /\
    mkSyConfigFile (cf_version c) (cf_updated_at c) (or_old rs (cf_routes c)) (or_old vs (cf_vpns c)) (or_old ts (cf_taps c)) = t) as (t & Et & <-).
  { cbn [e edited_tables]. rewrite decide_False; [eexists; split; [done|by rewrite Hr, Hv, Ht]|]. intros Heq.
    pose proof (f_equal cf_routes Heq) as Q1. pose proof (f_equal cf_vpns Heq) as Q2. pose proof (f_equal cf_taps Heq) as Q3.
    cbn in Q1, Q2, Q3. destruct rs; [by apply Sr|]. destruct vs; [by apply Sv|]. destruct ts; [by apply St|]. done. }
  rewrite Et. split; [by exists text|]. by eapply replace_differs.
Qed.

Section Node.
Context (C : Settings).
#[local] Abbreviation hive := (hive_id C).
#[local] Abbreviation agreed := (agreed (hive_id C)).

Lemma ends_handle_admin_action m w : agreed w -> msg_type (meta m) = ADMIN_KIND ->
  ends (handle_admin_action E C m) w (fared hive (w_config w) (asked (w_config w) m)).
Proof.
  intros H Hk. unfold handle_admin_action. set (action := unwrap_or "" _).
  destruct (admin_action_mutates action && negb (is_primary_admin_origin (src_l2_name (routing m)))) eqn:Hgate.
  { apply ends_send. intros o w' Hq. by eapply agreed_fared. }
  ends_step. eapply ends_mono; [by apply ends_admin_answer|].
  assert (weaker : forall n, admin_asked (w_config w) action (msg_payload m) n -> asked (w_config w) m n).
  { intros n (e & He & text & Hn). exists e, text. split; [|done]. unfold edit_of. rewrite Hk. cbn [String.eqb].
    rewrite (admin_edit_mutates _ _ _ He) in Hgate. apply negb_false_iff in Hgate. rewrite Hgate. exact He. }
  intros [b|d|] w1 H1; apply (fared_weaken _ _ _ _ _ _ weaker) in H1; [|done|done].
  apply ends_send. intros o w' Hq. destruct H1. by eapply fared_quiet.
Qed.

Lemma ends_commit_if_changed next w : agreed w ->
  ends (commit_if_changed E C next) w (fared hive (w_config w) (fun n => n = next)).
Proof.
  intros H. unfold commit_if_changed. ends_step. apply ends_current. case_bool_decide.
  - ends_step. by eapply agreed_fared.
  - eapply ends_mono; [by apply ends_commit_config|]. by intros o w' [? _].
Qed.

Lemma ends_config_send m b w (Q : Out string unit -> World V -> Prop) : (forall o w', quiet w w' -> Q o w') ->
  ends (send_node_config_control_response C m b) w Q.
Proof. apply ends_send. Qed.

Lemma ends_refuse N c m r detail w : agreed w -> (w_config w = c \/ N (w_config w)) ->
  ends (refuse_config_set C m r detail) w (fared hive c N).
Proof.
  intros H Hc. unfold refuse_config_set. ends_step. apply ends_current. apply ends_config_send. intros o w' Hq.
  by eapply fared_quiet.
Qed.

Lemma ends_handle_node_config_set m w : agreed w -> (msg_type (meta m) =s ADMIN_KIND) = false ->
  is_system_kind (msg_type (meta m)) && opt_str_is (msg (meta m)) MSG_CONFIG_SET = true ->
  ends (handle_node_config_set E C m) w (fared hive (w_config w) (asked (w_config w) m)).
Proof.
  intros H Hk Hm. assert (only : forall b, ends (send_node_config_control_response C m b) w (fared hive (w_config w) (asked (w_config w) m))).
  { intros b. apply ends_config_send. intros o w' Hq. by eapply agreed_fared. }
  unfold handle_node_config_set. destruct (parse_node_config_request E m) as [err|[n|r]] eqn:Ep; [apply only|apply only|].
  assert (Hr : edit_of m = set_edit r).
  { unfold edit_of. rewrite Hk, Hm. unfold parse_node_config_request in Ep. apply andb_true_iff in Hm as [Hs Hm].
    destruct (msg (meta m)) as [name|]; [|done]. cbn in Hm. apply String.eqb_eq in Hm as ->. rewrite Hs in Ep. cbn in Ep.
    unfold json_error in Ep. destruct (read_config_set E (msg_payload m)) as [|r']; [done|]. by injection Ep as ->. }
  ends_step. apply ends_current. do 2 ends_step. eapply ends_mono; [apply ends_apply_node_config_set_request|].
  intros [[next fields]|err|] w1 [Hq H1]; [| |done].
  2: { clear H1. apply ends_refuse; [by eapply agreed_quiet|left]. by destruct Hq as ((_ & _ & ->) & _). }
  pose proof (agreed_quiet _ _ _ H Hq) as Hag. destruct Hq as ((_ & _ & Hc) & _). do 2 ends_step.
  eapply ends_mono; [by apply (ends_commit_if_changed next)|]. rewrite Hc. intros o w2 H2.
  assert (H3 : fared hive (w_config w) (asked (w_config w) m) o w2).
  { destruct H1 as (e & He & H1). destruct (edited_tables e (w_config w)) as [t|] eqn:Et.
    - destruct H1 as [[text ->] _]. eapply fared_weaken; [|exact H2]. intros n ->. exists e, text. unfold edited. by rewrite Hr, Et.
    - subst next. destruct o; cbn in *; [by destruct H2 as [? [?|?]]; auto|by destruct H2 as [? [?|?]]; auto|].
      destruct H2 as [? [?|(n & -> & _ & ?)]]; auto. }
  clear H1 H2. destruct o as [[]|d|]; [|by destruct H3; apply ends_refuse|done]. destruct H3 as [Ha Hc3].
  ends_step. apply ends_current. apply ends_config_send. intros o w' Hq. by eapply fared_quiet.
Qed.

Lemma ends_handle_node_config_get N m w : agreed w -> ends (handle_node_config_get E C m) w (fared hive (w_config w) N).
Proof.
  intros H. unfold handle_node_config_get. destruct (parse_node_config_request E m) as [err|[n|r]].
  2: ends_step; apply ends_current.
  all: apply ends_config_send; intros o w' Hq; by eapply agreed_fared.
Qed.

Lemma ends_logged {A} c N (h : Effects.M (World V) string A) w : ends h w (fared hive c N) ->
  ends (attempt h ;;; ret tt) w (fared hive c N).
Proof. intros Hh. do 2 ends_step. eapply ends_mono; [exact Hh|]. by intros [a|e|] w'. Qed.

Lemma ends_on_message m w : agreed w -> ends (on_message E C m) w (fared hive (w_config w) (asked (w_config w) m)).
Proof.
  intros H. unfold on_message. ends_step. assert (ends (try_handle_default_node_status C m) w (fun o w' => quiet w w')) as Hst.
  { unfold try_handle_default_node_status. destruct (_ || _); [done|]. destruct (negb _); [done|]. ends_step. apply ends_send.
    by intros [[]|e|] w' Hq. }
  eapply ends_mono; [exact Hst|]. intros [b|e|] w1 Hq; [|by eapply agreed_fared..].
  pose proof (agreed_quiet _ _ _ H Hq) as H1. pose proof Hq as ((_ & _ & Hc) & _). rewrite <- Hc.
  destruct b; [ends_step; by eapply agreed_fared|].
  destruct (String.eqb_spec (msg_type (meta m)) ADMIN_KIND) as [Hk|Hk]; [by apply ends_logged, ends_handle_admin_action|].
  destruct (_ && opt_str_is _ MSG_CONFIG_GET); [by apply ends_logged, ends_handle_node_config_get|].
  destruct (_ && opt_str_is _ MSG_CONFIG_SET) eqn:Hs; [|ends_step; by eapply agreed_fared].
  apply ends_logged, ends_handle_node_config_set; [done| |done]. by apply String.eqb_neq.
Qed.

End Node.

End Worlds.
