(* ===== verification/ConfigRuns.v ===== *)
(** * SY.config.routes: its lives, and the routers that read it

    A world goes through lives of the process ([lived]): starts, inputs, failed calls, deaths at any
    call, an operator's edits of the file in between. Over it, the theorems on the one configuration,
    on who changes it, and on what a router of the hive makes of the region. *)

From Stdlib Require Import ZArith Lia Ascii String Strings.Byte.
From stdpp Require Import base list strings gmap.
From S2P Require Import Prelude Protocol Policy Glob Gates Delivery Fib Lsa NodeRegion Router Connections.
From S2P Require Import Effects ConfigRoutes ConfigSafety.
Open Scope Z_scope.
Open Scope string_scope.
Open Scope rust_scope.
#[local] Open Scope effect_scope.

Definition is_done {E A} (o : Effects.Out E A) : bool := match o with Done _ => true | _ => false end.

Section Lives.
Context {V : Type} (E : ConfigEnv V) (C : Settings).
Implicit Types (w : World V) (g : ConfigRegion) (m : Message V) (c : SyConfigFile).
#[local] Abbreviation hive := (hive_id C).

(** Worlds in which no process ran yet, or lives of it did; [true] while one serves. *)
Inductive lived : bool -> World V -> Prop :=
| lived_fresh w : w_region w = None -> w_seen w = [] -> lived false w
| lived_edit w file : lived false w -> lived false (set_file file w)
| lived_start w o w' : lived false w -> start E C w = (o, w') -> lived (is_done o) w'
| lived_input w i o w' : lived true w -> on_input E C i w = (o, w') -> lived (is_done o) w'
| lived_stop w : lived true w -> lived false w.

(** ** A start and a tick *)

Definition off w : Prop := (w_region w = None /\ w_seen w = []) \/ wreck w.

Lemma agreed_off w : agreed E hive w -> off w.
Proof. intros H. right. by eapply agreed_wreck. Qed.

Lemma snapshot_heartbeat now g : read_config_snapshot (put_heartbeat now g) = read_config_snapshot g.
Proof. done. Qed.

Lemma agreed_heartbeat now g w w' : agreed E hive w -> w_region w = Some g -> wrote (put_heartbeat now g) w w' ->
  agreed E hive w'.
Proof.
  intros (Ha & Hs & (g1 & Hg1 & _ & [Hpos Hv] & Hn & Hsame) & (g2 & Hg2 & Hh)) Hg ((Hf & _ & Hc) & Hr & Hseen).
  rewrite Hg in Hg1, Hg2. injection Hg1 as <-. injection Hg2 as <-.
  unfold agreed, saved, settled. rewrite Hc, Hf, Hr, Hseen. split_and!; [done|done| |].
  - exists (put_heartbeat now g). split_and!; [done|set_solver|done|done|by constructor|]. cbn [put_heartbeat g_config_version].
    intros Hlt h [->|Hh']%elem_of_cons; [done|]. rewrite snapshot_heartbeat. by apply Hsame.
  - by exists (put_heartbeat now g).
Qed.

Lemma ends_update_heartbeat w : agreed E hive w ->
  ends (update_heartbeat E) w (fun o w' => same_files w w' /\
    match o with Done _ => agreed E hive w' | Err _ => False | Dead => wreck w' end).
Proof.
  intros H. unfold update_heartbeat. ends_step. apply ends_now. intros now w1 Hq. do 2 ends_step.
  pose proof (agreed_quiet _ _ _ _ H Hq) as H1. pose proof (quiet_files _ _ Hq) as Hf1.
  pose proof (agreed_at_rest _ _ _ H1) as (v & Hv & (g & Hg & Hgv & Hpos & Hn) & _).
  apply (ends_guarded _ _ w1 g _ Hg).
  - intros w2 Hw. ends_step. split; [by eapply same_files_trans; [|apply Hw]|]. by eapply agreed_heartbeat.
  - intros w2 Hq2. split; [by eapply same_files_trans; [|apply quiet_files]|]. eapply agreed_wreck. by eapply agreed_quiet.
  - intros torn w2 Hw. split; [by eapply same_files_trans; [|apply Hw]|]. exists v. split; [done|].
    rewrite <- Hgv. eapply (tracked_wrote v w1 (set_odd true g)); [by exists g|cbn; lia|done].
Qed.

(** What [load_config] and what precedes the region's opening keep. *)
Definition same_region w w' : Prop := w_region w' = w_region w /\ w_seen w' = w_seen w.

Lemma off_same w w' : off w -> same_region w w' -> off w'.
Proof. intros H [Hr Hs]. unfold off, wreck, tracked in *. by rewrite Hr, Hs. Qed.

Lemma quiet_region w w' : quiet w w' -> same_region w w'.
Proof. by intros (_ & Hr & Hs). Qed.

Hypothesis yaml_roundtrip : forall c data, to_yaml E c = inr data -> from_yaml E data = inr c.

(** A file written in place. *)
Lemma ends_write_file c data w : to_yaml E c = inr data ->
  ends (write_file data ;;; ret c) w (fun o w' => same_region w w' /\
    match o with Done c' => saved E c' w' | _ => True end).
Proof.
  intros Hy. ends_step. unfold write_file. apply ends_call; intros; [ends_step|..];
    (split; [lazymatch goal with Hq : quiet _ _ |- _ => exact (quiet_region _ _ Hq) end|]); [|done|done]. exists data. split; [done|]. by apply yaml_roundtrip.
Qed.

Lemma ends_file_exists w (Q : Effects.Out string bool -> World V -> Prop) :
  (forall b w', quiet w w' -> Q (Done b) w') -> (forall w', quiet w w' -> Q Dead w') -> ends file_exists w Q.
Proof.
  intros H1 H2. unfold ends, file_exists. pose proof (next_fate_quiet w) as Hq.
  destruct (next_fate w) as [[|why kept|kept torn] w1]; cbn in *; auto.
Qed.

Lemma ends_read_file w (Q : Effects.Out string string -> World V -> Prop) :
  (forall data w', w_file w' = Some data -> quiet w w' -> Q (Done data) w') ->
  (forall e w', quiet w w' -> Q (Err e) w') -> (forall w', quiet w w' -> Q Dead w') -> ends read_file w Q.
Proof.
  intros H1 H2 H3. unfold ends, read_file. destruct (w_file w) as [data|] eqn:Ef; [|by apply H2].
  apply ends_call; [|by auto..]. intros w' Hq. apply H1; [|done]. destruct Hq as ((Hf & _) & _). unfold id. congruence.
Qed.

Lemma ends_load_config w :
  ends (load_config E) w (fun o w' => same_region w w' /\ match o with Done c => saved E c w' | _ => True end).
Proof.
  assert (stops : forall w', quiet w w' -> same_region w w' /\ True) by (intros; split; [by apply quiet_region|done]).
  assert (writes : forall c w1, quiet w w1 -> ends (data <- lift (to_yaml E c) ;; write_file data ;;; ret c) w1
    (fun o w' => same_region w w' /\ match o with Done c => saved E c w' | _ => True end)).
  { intros c w1 Hq1. do 2 ends_step. destruct (to_yaml E c) as [|data] eqn:Ey; [by apply stops|].
    eapply ends_mono; [by apply ends_write_file|]. intros o w2 [[Hr Hs] H2]. split; [|done].
    apply quiet_region in Hq1 as [Hr1 Hs1]. split; congruence. }
  unfold load_config. ends_step. apply ends_file_exists; [|by intros; apply stops].
  intros [] w1 Hq1; cbn [negb]; [|by apply writes]. ends_step.
  apply ends_read_file; [|by intros; apply stops; eapply quiet_then..].
  intros data w2 Hf2 Hq2. assert (Hq : quiet w w2) by by eapply quiet_then. do 2 ends_step.
  destruct (from_yaml E data) as [|c] eqn:Ey; [by apply stops|]. destruct (str_is_empty _).
  - ends_step. apply ends_now_text. intros text w3 Hq3. apply writes. by eapply quiet_then.
  - ends_step. split; [by apply quiet_region|]. by exists data.
Qed.

Lemma ends_open_or_create w : off w ->
  ends (open_or_create E) w (fun o w' => same_files w w' /\
    match o with Done _ => exists v, v <= u64_max /\ at_rest v w' | _ => off w' end).
Proof.
  intros H. unfold open_or_create. ends_step. apply ends_now. intros now w1 Hq1. unfold ends.
  pose proof (next_fate_quiet w1) as Hq2. destruct (next_fate w1) as [[|why kept|kept torn] w2]; cbn in Hq2; cbn [fst snd].
  2,3: split; [apply quiet_files; by eapply quiet_then|eapply off_same; [done|apply quiet_region; by eapply quiet_then]].
  pose proof (quiet_files _ _ (quiet_then _ _ _ Hq1 Hq2)) as Hf. split; [exact Hf|].
  pose proof (quiet_region _ _ Hq1) as [Hr1 _]. pose proof (quiet_region _ _ (quiet_then _ _ _ Hq1 Hq2)) as [Hr2 Hs2].
  rewrite Hr1. destruct H as [[Hr Hs]|(v & Hv & g & Hg & Hgv & Hpos & Hn)].
  - rewrite Hr. exists 1. split; [unfold u64_max; lia|]. split; [|by cbn; intros ? [= <-]].
    eexists. split_and!; [done|done|lia|]. cbn. rewrite Hs2, Hs. constructor; [cbn; lia|constructor].
  - rewrite Hg. exists v. split; [done|]. split; [|by cbn; intros ? [= <-]]. eexists. split_and!; [done|done|done|]. cbn.
    rewrite Hs2. constructor; [cbn; lia|done].
Qed.

Lemma ends_start w : off w -> ends (start E C) w (fun o w' => match o with Done _ => agreed E hive w' | _ => off w' end).
Proof.
  intros H. unfold start. ends_step. eapply ends_mono; [apply ends_load_config|].
  intros [c|e|] w1 [Hs Hc]; [|by eapply off_same..]. pose proof (off_same _ _ H Hs) as H1. ends_step.
  apply ends_become. ends_step. eapply ends_mono; [apply (ends_open_or_create (set_config c w1) H1)|].
  intros [[]|e|] w2 [Hf2 H2]; [|done|done]. destruct H2 as (v & Hv & Hrest).
  eapply ends_mono; [by apply (ends_apply_config _ hive c v w2)|]. intros [[]|e|] w3 [Hf3 H3].
  - destruct H3 as [Ha Hp]. pose proof (same_files_trans _ _ _ Hf2 Hf3) as (Hff & _ & Hcc). cbn in Hff, Hcc.
    unfold agreed, saved. rewrite Hff, Hcc. split_and!; [done|done|by eapply published_settled|].
    destruct Hp as (g & _ & Hg & Hh & _). by exists g.
  - right. destruct H3 as (_ & Ht & _). by exists v.
  - right. destruct H3 as (v' & [_ Hv'] & Ht). by exists v'.
Qed.

Lemma lived_ok up w : lived up w -> if up then agreed E hive w else off w.
Proof.
  induction 1 as [w Hr Hs|w file _ IH|w o w' _ IH Hst|w i o w' _ IH Hin|w _ IH].
  - by left.
  - exact IH.
  - pose proof (ends_run _ _ _ _ _ (ends_start w IH) Hst) as H. by destruct o.
  - destruct i as [|m]; cbn in Hin.
    + pose proof (ends_run _ _ _ _ _ (ends_update_heartbeat w IH) Hin) as [_ H]. destruct o; cbn in *; [done|done|]. by right.
    + pose proof (ends_run _ _ _ _ _ (ends_on_message E yaml_roundtrip C m w IH) Hin) as H.
      destruct o; cbn in *; [by destruct H|destruct H; by apply agreed_off|right; by destruct H].
  - by apply agreed_off.
Qed.

(** The region's state is one of those it was in. *)
Lemma region_seen w g : lived true w -> w_region w = Some g -> g ∈ w_seen w.
Proof. intros (_ & _ & (g' & Hg' & Hin & _) & _)%lived_ok Hg. congruence. Qed.

(** ** The theorems *)

(** C19. One configuration in three places. Whatever happened before (failed reads and writes of the
    file, answers that could not be sent, the process dying at any call or in the middle of a write to
    the region, restarts, the operator editing the file while no process runs), while SY.config.routes
    serves, the file reads as the configuration in memory, and the region is readable and shows that
    configuration: the entry of each route, VPN rule and tap, in order, and the two authority markers. *)
Theorem config_in_three_places w : lived true w ->
  exists data g s, w_file w = Some data /\ from_yaml E data = inr (w_config w) /\
    w_region w = Some g /\ read_config_snapshot g = Some s /\ shows hive (w_config w) s.
Proof.
  intros H. apply lived_ok in H as (_ & (data & Hf & Hy) & _ & g & Hg & s & Hs & Hsh). by exists data, g, s.
Qed.

(** C20. A change is made whole or not at all. Whatever its calls come to, a message leaves the
    configuration as it was or makes it the one the message asks for ([edited]: a plain operation on
    lists of routes, VPN rules and taps), and memory and file have the same one; if the process dies
    on the way, the file reads as the one or the other, never as a cut one, and if it is the new one,
    it is one the region takes, so the next start serves it. *)
Theorem config_changes_whole w m o w' : lived true w -> on_message E C m w = (o, w') ->
  exists c, saved E c w' /\ (c = w_config w \/ (asked E (w_config w) m c /\ acceptable c = true)) /\
    (o = Dead \/ w_config w' = c).
Proof.
  intros H Hm. apply lived_ok in H. pose proof (ends_run _ _ _ _ _ (ends_on_message E yaml_roundtrip C m w H) Hm) as F.
  assert (there : forall P : Prop, agreed E hive w' /\ (w_config w' = w_config w \/ asked E (w_config w) m (w_config w')) ->
    exists c, saved E c w' /\ (c = w_config w \/ (asked E (w_config w) m c /\ acceptable c = true)) /\ (P \/ w_config w' = c)).
  { intros P [(Ha & Hs & _) Hc]. exists (w_config w'). split_and!; [done|naive_solver|by right]. }
  destruct o as [[]|e|]; [by apply there|by apply there|]. destruct F as [_ [Hs|(n & Hn & Ha & Hs)]].
  - exists (w_config w). auto.
  - exists n. auto 6.
Qed.

Lemma prepared_kind ev h m via_hub p : prepare_local_delivery ev h m via_hub = Some p ->
  p = drop_package (stamp_action_class m) /\ routing p = routing m /\ msg (meta p) = msg (meta m) /\
  msg_type (meta p) = msg_type (meta m).
Proof.
  intros H. assert (p = drop_package (stamp_action_class m)) as ->.
  { unfold prepare_local_delivery in H. destruct (protected_system_action _); [|congruence]. destruct (_ && _); congruence. }
  unfold drop_package, stamp_action_class, with_meta. by destruct (action_class (meta m)).
Qed.

Lemma config_set_delivered ev h m via_hub p : (forall a s h', ev a s h' = Some (allow a s h')) ->
  prepare_local_delivery ev h m via_hub = Some p -> msg (meta m) = Some MSG_CONFIG_SET ->
  is_primary_admin_origin (src_l2_name (routing m)) = true.
Proof.
  intros Hev H Hm. unfold prepare_local_delivery in H. rewrite Hm in H.
  change (protected_system_action (unwrap_or "" (Some MSG_CONFIG_SET))) with (Some "CONFIG_SET") in H.
  unfold authorize_system in H. rewrite Hev in H. cbn [unwrap_or] in H.
  destruct (allow "CONFIG_SET" (src_l2_name (routing m)) h) eqn:Ha; [|by rewrite andb_false_r in H]. clear H. unfold allow in Ha.
  destruct (parsed (src_l2_name (routing m))) as [[role hv]|] eqn:Ep; [|done]. rewrite allow_rules_table in Ha by done.
  change (allowed_origins "CONFIG_SET" h) with [("SY.admin", "motherbee")] in Ha. apply list_elem_of_singleton in Ha.
  injection Ha as -> ->. unfold parsed in Ep. destruct (src_l2_name (routing m)) as [n|]; [|done].
  destruct (split_once "@" (trim n)) as [[r h']|] eqn:Es; [|done]. apply split_once_Some in Es.
  destruct (str_is_empty r); [done|]. injection Ep as -> ->. unfold is_primary_admin_origin. cbn. by rewrite Es.
Qed.

(** C21. Only the primary hive's SY.admin changes a hive's routes, VPN rules and taps. If a message that
    the router delivers to SY.config.routes leaves the file with anything but the configuration before
    it, then the name the router stamped on it is SY.admin@motherbee: of the admin actions by the
    process's own gate, and of CONFIG_SET, for which the process has none, by the system policy at the
    delivery. *)
Theorem config_changed_by_primary_admin ev w m via_hub p o w' :
  (forall a s h, ev a s h = Some (allow a s h)) -> lived true w ->
  prepare_local_delivery ev hive m via_hub = Some p -> on_message E C p w = (o, w') ->
  ~ saved E (w_config w) w' -> option_map trim (src_l2_name (routing m)) = Some "SY.admin@motherbee".
Proof.
  intros Hev H Hp Hm Hn. apply lived_ok in H. pose proof (ends_run _ _ _ _ _ (ends_on_message E yaml_roundtrip C p w H) Hm) as F.
  assert (exists n, asked E (w_config w) p n) as (n & e & text & He & _).
  { destruct o as [[]|err|]; [| |by destruct F as [_ [Hs|(n & Ha & _)]]; eauto];
      (destruct F as [(_ & Hs & _) [Hc|Ha]]; [by rewrite Hc in Hs|by eauto]). }
  destruct (prepared_kind _ _ _ _ _ Hp) as (_ & Hr & Hmsg & Hk). unfold edit_of in He. rewrite Hr, Hmsg, Hk in He.
  assert (is_primary_admin_origin (src_l2_name (routing m)) = true) as Ho.
  { destruct (_ =s ADMIN_KIND); [by destruct (is_primary_admin_origin _)|].
    destruct (is_system_kind _); [|done]. destruct (msg (meta m)) as [name|] eqn:En; [|done]. cbn in He.
    destruct (String.eqb_spec name MSG_CONFIG_SET) as [->|]; [|done]. by eapply config_set_delivered. }
  unfold is_primary_admin_origin in Ho. destruct (src_l2_name (routing m)) as [n'|]; [|done]. cbn in *. f_equal. by apply String.eqb_eq.
Qed.

End Lives.
