(* ===== verification/ConfigReaders.v ===== *)
(** * What the routers of a hive make of its configuration

    The tables a router has in force, against the configuration SY.config.routes serves: the entries
    read back as the configuration's texts and numbers when these fit the entries' fields, and a
    router whose version is the region's enforces the file's configuration. *)

From Stdlib Require Import ZArith Lia Ascii String Strings.Byte.
From stdpp Require Import base list strings gmap.
From S2P Require Import Prelude Protocol Policy Glob Gates Delivery Fib Lsa NodeRegion Router Connections.
From S2P Require Import Effects ConfigRoutes ConfigSafety ConfigRuns.
Open Scope Z_scope.
Open Scope string_scope.
Open Scope rust_scope.

(** ** What a configuration says *)

Definition kind_of (k : option string) : Z := match match_kind k with inr k => k | inl _ => 0 end.

Definition action_of (a : string) : Z := match action_kind a with inr a => a | inl _ => 0 end.

(** The VPN of a node: the id of the first rule by priority, among equals by position, that matches its
    name; system nodes and routers are on VPN 0. *)
Definition vpn_priority (v : VpnConfig) : Z := unwrap_or 100 (vc_priority v).

Definition config_vpn (name : string) (c : SyConfigFile) : Z :=
  if starts_with name "SY." || starts_with name "RT." then 0
  else
    let rules := sort_by (fun a b => Z.compare (vpn_priority a) (vpn_priority b)) (cf_vpns c) in
    match List.find (fun v => pattern_match_kind (kind_of (vc_match_kind v)) (vc_pattern v) name) rules with
    | Some v => vc_vpn_id v
    | None => 0
    end.

(** The static routes by priority and metric; the time of their installation apart. *)
Definition config_route (r : RouteConfig) : StaticRoute :=
  mkStaticRoute (rc_prefix r) (kind_of (rc_match_kind r)) (action_of (rc_action r)) (unwrap_or "" (rc_next_hop_hive r))
    (unwrap_or 100 (rc_priority r)) (unwrap_or 0 (rc_metric r)) 0.

Definition untimed (r : StaticRoute) : StaticRoute :=
  mkStaticRoute (sr_pattern r) (sr_match_kind r) (sr_action r) (sr_next_hop_hive r) (sr_priority r) (sr_metric r) 0.

(** A tap as the router reads it: its three names, and whether it is on. *)
Definition tap_read (e : TapEntry) : string * string * string * bool :=
  (bytes_to_string (te_match_src e) (te_match_src_len e), bytes_to_string (te_match_dst e) (te_match_dst_len e),
   bytes_to_string (te_target e) (te_target_len e), Z.eqb (te_enabled e) 1).

(** The texts are UTF-8 and fit the fields. *)
Definition text_fits (size : nat) (s : string) : Prop := is_str s /\ (String.length s <= size)%nat.

Definition fits (c : SyConfigFile) : Prop :=
  Forall (fun r => text_fits 256 (rc_prefix r) /\ text_fits 32 (unwrap_or "" (rc_next_hop_hive r))) (cf_routes c) /\
  Forall (fun v => text_fits 256 (vc_pattern v)) (cf_vpns c) /\
  Forall (fun t => text_fits 256 (tc_match_src t) /\ text_fits 256 (tc_match_dst t) /\ text_fits 256 (tc_target t)) (cf_taps c).

(** ** The entries read back *)

Lemma text_back size s bytes len : text_fits size s -> copy_bytes_with_len size s = (bytes, len) -> bytes_to_string bytes len = s.
Proof. intros [Hs Hl] H. by destruct (copied_back size s bytes len Hs Hl H). Qed.

Lemma build_vpns_map vpns out : build_vpns vpns = inr out ->
  out = map (fun v => vpn_entry v (kind_of (vc_match_kind v))) vpns.
Proof.
  revert out. induction vpns as [|v vpns IH]; intros out; cbn [build_vpns map]; [by intros [= <-]|].
  unfold kind_of at 1. destruct (match_kind _); [done|]. destruct (build_vpns vpns) as [|l]; [done|]. intros [= <-].
  by rewrite (IH l).
Qed.

Lemma build_taps_read taps out : build_taps taps = inr out ->
  Forall (fun t => text_fits 256 (tc_match_src t) /\ text_fits 256 (tc_match_dst t) /\ text_fits 256 (tc_target t)) taps ->
  map tap_read out = map (fun t => (tap_key t, tc_enabled t)) taps.
Proof.
  revert out. induction taps as [|t taps IH]; intros out; cbn [build_taps map]; [by intros [= <-]|].
  destruct (tap_mode_kind _); [done|]. destruct (build_taps taps) as [|l]; [done|].
  intros [= <-] [(H1 & H2 & H3) Ht]%Forall_cons. cbn [map]. rewrite (IH l) by done. f_equal. unfold tap_entry, tap_read, tap_key.
  destruct (copy_bytes_with_len 256 (tc_match_src t)) as [b1 l1] eqn:E1, (copy_bytes_with_len 256 (tc_match_dst t)) as [b2 l2] eqn:E2,
    (copy_bytes_with_len 256 (tc_target t)) as [b3 l3] eqn:E3. cbn.
  rewrite (text_back _ _ _ _ H1 E1), (text_back _ _ _ _ H2 E2), (text_back _ _ _ _ H3 E3). by destruct (tc_enabled t).
Qed.

Lemma vpn_entry_fields v kind : va_vpn_id (vpn_entry v kind) = vc_vpn_id v /\
  va_priority (vpn_entry v kind) = vpn_priority v /\ va_flags (vpn_entry v kind) = FLAG_ACTIVE.
Proof. unfold vpn_entry. by destruct (copy_bytes_with_len 256 (vc_pattern v)). Qed.

Lemma vpn_entry_matches name v : text_fits 256 (vc_pattern v) ->
  vpn_rule_matches name (vpn_entry v (kind_of (vc_match_kind v))) =
  pattern_match_kind (kind_of (vc_match_kind v)) (vc_pattern v) name.
Proof.
  intros Hf. unfold vpn_rule_matches, vpn_entry. destruct (copy_bytes_with_len 256 (vc_pattern v)) as [b l] eqn:Ec. cbn.
  by rewrite (text_back _ _ _ _ Hf Ec).
Qed.

Lemma find_map_eq {A B} (f : A -> B) (p : B -> bool) (q : A -> bool) l : Forall (fun x => p (f x) = q x) l ->
  List.find p (map f l) = option_map f (List.find q l).
Proof. induction 1 as [|x l Hx _ IH]; [done|]. cbn. rewrite Hx. by destruct (q x). Qed.

Lemma filter_all {A} (p : A -> bool) l : Forall (fun x => p x = true) l -> List.filter p l = l.
Proof. induction 1 as [|x l Hx _ IH]; [done|]. cbn. by rewrite Hx, IH. Qed.

Lemma assign_vpn_config name c out : build_vpns (cf_vpns c) = inr out ->
  Forall (fun v => text_fits 256 (vc_pattern v)) (cf_vpns c) -> assign_vpn name (Some out) = config_vpn name c.
Proof.
  intros ->%build_vpns_map Hf. unfold assign_vpn, config_vpn. destruct (_ || _); [done|]. rewrite filter_all.
  2: { apply Forall_forall. intros e [v [-> _]]%list_elem_of_fmap. unfold vpn_rule_active. by rewrite (proj2 (proj2 (vpn_entry_fields _ _))). }
  rewrite (sort_by_map _ _ (fun a b => Z.compare (vpn_priority a) (vpn_priority b))).
  2: { intros a b. by rewrite !(proj1 (proj2 (vpn_entry_fields _ _))). }
  rewrite (find_map_eq _ _ (fun v => pattern_match_kind (kind_of (vc_match_kind v)) (vc_pattern v) name)).
  - destruct (List.find _ _) as [v|]; [|done]. apply vpn_entry_fields.
  - apply Forall_forall. intros v Hv%elem_of_sort_by. rewrite Forall_forall in Hf. by apply vpn_entry_matches, Hf.
Qed.

Lemma routed_config r e : routed r e -> text_fits 256 (rc_prefix r) -> text_fits 32 (unwrap_or "" (rc_next_hop_hive r)) ->
  route_forwards e = true /\ untimed (static_route_of e) = config_route r.
Proof.
  intros (kind & action & now & Hk & Ha & ->) H1 H2. unfold static_route_entry.
  destruct (copy_bytes_with_len 256 (rc_prefix r)) as [b l] eqn:Ec.
  unfold config_route, kind_of, action_of. rewrite Hk, Ha. destruct (rc_next_hop_hive r) as [next|]; cbn [unwrap_or] in *.
  - destruct (copy_bytes_with_len 32 next) as [b' l'] eqn:Ec'. split; [done|]. unfold untimed, static_route_of. cbn.
    by rewrite (text_back _ _ _ _ H1 Ec), (text_back _ _ _ _ H2 Ec').
  - split; [done|]. unfold untimed, static_route_of. cbn. by rewrite (text_back _ _ _ _ H1 Ec).
Qed.

Lemma frozen_not_forwarded p kind now : route_forwards (frozen_route p kind now) = false.
Proof. unfold frozen_route. by destruct (copy_bytes_with_len 256 p). Qed.

Lemma shown_routes hive c s : shows hive c s -> fits c ->
  map untimed (config_routes s) = sort_by compare_routes (map config_route (cf_routes c)).
Proof.
  intros ((entries & now & now' & Hr & Hs) & _) (Hf & _). unfold config_routes. rewrite Hs, List.filter_app.
  cbn [List.filter]. rewrite !frozen_not_forwarded, app_nil_r. rewrite <- (sort_by_map untimed compare_routes compare_routes) by done.
  f_equal. clear Hs s. induction Hr as [|r e rs es Hre _ IH]; [done|]. apply Forall_cons in Hf as [[H1 H2] Hf].
  destruct (routed_config r e Hre H1 H2) as [Hfw Hu]. cbn. by rewrite Hfw, <- Hu, <- (IH Hf).
Qed.

(** ** The router *)

Section Enforced.
Context {V : Type} (E : ConfigEnv V) (C : Settings) {U : Type} (R : Env U) (host : Host U).
Hypothesis yaml_roundtrip : forall c data, to_yaml E c = inr data -> from_yaml E data = inr c.

(** C22. A router of the hive enforces the configuration of the file. Take any router whose snapshots are
    states of the region it found readable, at any time since the region was made, in the middle of
    SY.config.routes's three writes too, and whose tasks put them in force in any order. Once the
    version it has in force is the one of the region while SY.config.routes serves (and not the last a
    [u64] has), its tables are those of the configuration in the file: it assigns each node the VPN the
    configuration's rules give it, its static routes are the configuration's by priority and metric,
    and its taps the configuration's; provided the configuration's texts fit the region's fields. *)
Theorem router_enforces_config w g (s : @Sys U) : lived E C true w -> reachable R host s ->
  (forall p, ho_published host p -> exists h, h ∈ w_seen w /\ read_config_snapshot h = Some p) ->
  w_region w = Some g -> version s = g_config_version g -> g_config_version g < u64_max -> fits (w_config w) ->
  saved E (w_config w) w /\
  (forall name, assign_vpn name (Some (r_vpn_rules (net s))) = config_vpn name (w_config w)) /\
  map untimed (r_static_routes (net s)) = sort_by compare_routes (map config_route (cf_routes (w_config w))) /\
  map tap_read (r_tap_rules (net s)) = map (fun t => (tap_key t, tc_enabled t)) (cf_taps (w_config w)).
Proof.
  intros Hl Hr Hp Hg Hv Hlt Hf. apply (lived_ok E C yaml_roundtrip) in Hl as (_ & Hsaved & (g1 & Hg1 & _ & [Hpos _] & _ & Hsame) & (g2 & Hg2 & Hh)).
  rewrite Hg in Hg1, Hg2. injection Hg1 as <-. injection Hg2 as <-. destruct Hh as (snap & Hsnap & Hsh).
  destruct (reachable_in_force R host s Hr) as [[[H0 _]|(p & Hpub & Hver & Hin)] _]; [lia|].
  destruct (Hp p Hpub) as (h & Hseen & Hread).
  assert (p = snap) as ->.
  { assert (g_odd h = false /\ g_config_version h = cs_version p) as [Hodd Hvh].
    { unfold read_config_snapshot in Hread. destruct (g_odd h); [done|]. by injection Hread as <-. }
    rewrite (Hsame Hlt h Hseen) in Hread; congruence. }
  unfold config_of in Hin. injection Hin as Hi1 Hi2 Hi3. rewrite Hi1, Hi2, Hi3. split; [done|].
  destruct Hsh as (Hs1 & Hs2 & Hs3). destruct Hf as (Hf1 & Hf2 & Hf3). split_and!.
  - intros name. by apply assign_vpn_config.
  - by eapply shown_routes.
  - by apply build_taps_read.
Qed.

End Enforced.
