(* ===== verification/ConfigCases.v ===== *)
(** * SY.config.routes: what it does when nothing fails, and concrete lives

    A message that asks for a change, in a world whose calls all work: the change is made if the region
    takes the configuration, and answered. Then the instance the theorems on the configuration are
    applied to, and cases where the code parts from its comments. *)

From Stdlib Require Import ZArith Lia Ascii String Strings.Byte.
From stdpp Require Import base list strings gmap.
From S2P Require Import Prelude Protocol Policy Glob Gates Delivery Fib Lsa NodeRegion Router Connections.
From S2P Require Import Effects ConfigRoutes ConfigSafety ConfigRuns ConfigReaders.
Open Scope Z_scope.
Open Scope string_scope.
Open Scope rust_scope.
#[local] Open Scope effect_scope.

(** ** Computations whose calls all work *)

Section Steady.
Context {V : Type}.
#[local] Abbreviation M := (Effects.M (World V) string).

(** It does not die, and sends nothing. *)
Definition steady {A} (m : M A) : Prop :=
  forall w, w_fates w = [] -> (m w).1 <> Dead /\ w_fates (m w).2 = [] /\ w_sent (m w).2 = w_sent w.

Context {A B : Type}.

Lemma steady_ret (a : A) : steady (ret a).
Proof. by intros w H. Qed.

Lemma steady_fail e : steady (A := A) (fail e).
Proof. by intros w H. Qed.

Lemma steady_lift (r : string + A) : steady (lift r).
Proof. destruct r; [apply steady_fail|apply steady_ret]. Qed.

Lemma steady_bind (m : M B) (f : B -> M A) : steady m -> (forall b, steady (f b)) -> steady (bind m f).
Proof.
  intros Hm Hf w H. destruct (Hm w H) as (H1 & H2 & H3). unfold bind. destruct (m w) as [[b|e|] w']; cbn in *; [|done|done].
  destruct (Hf b w' H2) as (H4 & H5 & H6). by rewrite H6.
Qed.

Lemma steady_attempt (m : M A) : steady m -> steady (attempt m).
Proof. intros Hm w H. destruct (Hm w H) as (H1 & H2 & H3). unfold attempt. by destruct (m w) as [[b|e|] w']. Qed.

Lemma next_fate_none (w : World V) : w_fates w = [] -> next_fate w = (Works, w).
Proof. unfold next_fate. by intros ->. Qed.

Lemma steady_call (a : A) f cut : (forall w, w_fates (f w) = w_fates w /\ w_sent (f w) = w_sent w) -> steady (call a f cut).
Proof. intros Hf w H. unfold call. rewrite (next_fate_none w H). cbn. destruct (Hf w) as [-> ->]. done. Qed.

Lemma steady_draw (f : nat -> A) : steady (draw f).
Proof. by intros w H. Qed.

Lemma steady_guarded f t : steady (guarded f t).
Proof. intros w H. unfold guarded. destruct (w_region w); [|done]. by rewrite (next_fate_none w H). Qed.

Lemma steady_current : steady current.
Proof. by intros w H. Qed.

Lemma steady_become c : steady (become c).
Proof. by intros w H. Qed.

End Steady.

Create HintDb steady.
#[export] Hint Resolve steady_ret steady_fail steady_lift steady_bind steady_attempt steady_call steady_draw steady_guarded
  steady_current steady_become : steady.

Section Cases.
Context {V : Type} (E : ConfigEnv V) (C : Settings).
Implicit Types (w : World V) (m : Message V) (c : SyConfigFile).
#[local] Abbreviation hive := (hive_id C).

Lemma steady_now : steady (now_epoch_ms E).
Proof. apply steady_draw. Qed.

Lemma steady_now_text : steady (now_text E).
Proof. unfold now_text. auto using steady_now with steady. Qed.

Lemma steady_build_routes routes : steady (build_routes E routes).
Proof.
  induction routes as [|r routes IH]; cbn [build_routes]; [auto with steady|].
  repeat (apply steady_bind; [auto using steady_now with steady|intros ?]). auto with steady.
Qed.

#[local] Hint Resolve steady_now steady_now_text steady_build_routes : steady.

Lemma steady_apply_config c : steady (apply_config E hive c).
Proof.
  unfold apply_config, frozen_system_authority_routes, write_static_routes, write_vpn_assignments, write_taps.
  repeat first [apply steady_bind; [|intros ?] | case_bool_decide | progress auto with steady].
Qed.

Lemma steady_write_config c : steady (write_config E c).
Proof.
  unfold write_config, write_temp, rename_temp. repeat (apply steady_bind; [auto with steady|intros ?]). auto with steady.
Qed.

#[local] Hint Resolve steady_apply_config steady_write_config : steady.

Lemma steady_commit_config next : steady (commit_config E hive next).
Proof.
  unfold commit_config, restore. apply steady_bind; [auto with steady|]. intros [e|_]; [auto 6 with steady|].
  apply steady_bind; [auto with steady|]. intros [e|_]; auto 6 with steady.
Qed.

(** ** A change when nothing fails *)

Hypothesis yaml_roundtrip : forall c data, to_yaml E c = inr data -> from_yaml E data = inr c.
Hypothesis yaml_total : forall c, exists data, to_yaml E c = inr data.

Lemma write_config_works c w : w_fates w = [] -> (write_config E c w).1 = Done tt.
Proof.
  intros H. unfold write_config. destruct (yaml_total c) as [data ->]. unfold bind, lift, ret, write_temp, rename_temp, call.
  rewrite (next_fate_none w H). cbn. by rewrite next_fate_none.
Qed.

Lemma commit_works next w : agreed E hive w -> w_fates w = [] -> acceptable next = true -> (commit_config E hive next w).1 = Done tt.
Proof.
  intros Hw Hf Ha. destruct (agreed_at_rest _ _ _ Hw) as (v & Hv & Hrest).
  pose proof (ends_apply_config E hive next v w Hrest Hv) as Hap. destruct (steady_apply_config next w Hf) as (Hd & Hf1 & _).
  unfold commit_config, bind, attempt. unfold ends in Hap. destruct (apply_config E hive next w) as [[[]|e|] w1]; cbn in *; [| |done].
  - pose proof (write_config_works next w1 Hf1) as Hw1. destruct (write_config E next w1) as [o w2]. cbn in Hw1. by subst o.
  - destruct Hap as (_ & Hn & _). congruence.
Qed.

Lemma runs_commit next w : agreed E hive w -> w_fates w = [] ->
  exists o w', commit_config E hive next w = (o, w') /\ w_fates w' = [] /\ w_sent w' = w_sent w /\
    if acceptable next then o = Done tt /\ w_config w' = next else (exists e, o = Err e) /\ w_config w' = w_config w.
Proof.
  intros Hw Hf. pose proof (ends_commit_config E yaml_roundtrip hive next w Hw) as He. unfold ends in He.
  destruct (steady_commit_config next w Hf) as (Hd & Hf' & Hs). pose proof (commit_works next w Hw Hf) as Hok.
  destruct (commit_config E hive next w) as [o w']. exists o, w'. cbn in *. split_and!; [done..|].
  destruct o as [[]|e|]; [| |done]; destruct He as [Hfared Hc].
  - destruct Hfared as [(Ha & _) _]. rewrite Hc in Ha. by rewrite Ha.
  - destruct (acceptable next); [by specialize (Hok eq_refl)|]. eauto.
Qed.

Definition answers_change (e : Edit) c (b : Body V) : Prop :=
  match e with
  | Replace _ _ _ _ => exists schema fields, b = Configured (node_name C) schema (mkEffectiveConfig c hive) fields
  | _ => exists action, b = AdminOk action (admin_data e (cf_version c))
  end.

Definition answers_error (b : Body V) : Prop :=
  (exists action code detail, b = AdminError action code detail) \/
  exists versions code detail, b = ConfigError (node_name C) versions code detail.

(** What a message that asks for [e] comes to, when nothing fails: the configuration before, after, the answer. *)
Definition made (e : Edit) c c' (b : Body V) : Prop :=
  match edited_tables e c with
  | Some t =>
    if acceptable t then (exists updated_at, c' = set_version (edited_version e c) updated_at t) /\ answers_change e c' b
    else c' = c /\ answers_error b
  | None => c' = c /\ match e with Replace _ _ _ _ => answers_change e c b | _ => answers_error b end
  end.

Lemma runs_admin_change e t action answer w : agreed E hive w -> w_fates w = [] -> edited_tables e (w_config w) = Some t ->
  edited_version e (w_config w) = saturating_add64 (cf_version (w_config w)) 1 ->
  (forall c, answers_change e c (AdminOk action (answer c))) ->
  exists b w', commit_admin_change E hive t action answer w = (Done b, w') /\ w_fates w' = [] /\ w_sent w' = w_sent w /\
    made e (w_config w) (w_config w') b.
Proof.
  intros Hw Hf He Hv Ha. unfold commit_admin_change. unfold bind at 1. unfold current at 1.
  pose proof (ends_now_text E w (fun o w1 => exists text, o = Done text /\ quiet w w1)) as Hn.
  unfold ends in Hn. destruct Hn as (text & Ho & Hq); [by eauto|]. destruct (steady_now_text w Hf) as (_ & Hf1 & Hs1).
  unfold bind at 1. destruct (now_text E w) as [o w1]. cbn in *. subst o.
  set (n := set_version _ text t). destruct (runs_commit n w1 (agreed_quiet _ _ _ _ Hw Hq) Hf1) as (o & w2 & Hc & Hf2 & Hs2 & H2).
  unfold bind, attempt. rewrite Hc. assert (acceptable n = acceptable t) as Hacc by done. rewrite Hacc in H2.
  destruct Hq as ((_ & _ & Hcfg) & _). unfold made. rewrite He. destruct (acceptable t).
  - destruct H2 as [-> Hn2]. cbn. eexists _, w2. split_and!; [done|done|congruence| |apply Ha]. exists text. by rewrite Hv.
  - destruct H2 as [[d ->] Hn2]. cbn. eexists _, w2. split_and!; [done|done|congruence|congruence|]. left. eauto.
Qed.

Lemma runs_admin_answer action payload e w : agreed E hive w -> w_fates w = [] -> admin_edit E action payload = Some e ->
  exists b w', admin_answer E hive action payload w = (Done b, w') /\ w_fates w' = [] /\ w_sent w' = w_sent w /\
    made e (w_config w) (w_config w') b.
Proof.
  intros Hw Hf He. pose proof (admin_answer_edit E hive action payload w) as Ha. rewrite He in Ha.
  destruct Ha as (h & -> & Hd). unfold does_edit in Hd. destruct (edited_tables e (w_config w)) as [t|] eqn:Et.
  - subst h. apply runs_admin_change; [done|done|done|by eapply admin_edit_version|]. intros c.
    destruct e; try (by eexists). unfold admin_edit in He. by repeat destruct (_ =s _);
      first [done | by destruct (read_route E payload) | by destruct (read_vpn E payload) | by destruct (read_tap E payload)].
  - destruct Hd as (code & detail & ->). eexists _, w. split_and!; [done|done|done|]. unfold made. rewrite Et. split; [done|].
    assert (answers_error (AdminError action code detail)) as Herr by (left; eauto).
    destruct e; try done. unfold admin_edit in He. by repeat destruct (_ =s _);
      first [done | by destruct (read_route E payload) | by destruct (read_vpn E payload) | by destruct (read_tap E payload)].
Qed.

(** An answer sent. *)
Definition replies (b : Body V) w (r : Effects.Out string unit * World V) : Prop :=
  exists reply w', r = (Done tt, w') /\ w_config w' = w_config w /\ w_sent w' = (w_sent w ++ [reply])%list /\ msg_payload reply = b.

Lemma send_works (reply : Message (Body V)) w : w_fates w = [] -> replies (msg_payload reply) w (send reply w).
Proof. intros H. unfold send, call. rewrite (next_fate_none w H). by exists reply; eexists. Qed.

Lemma config_reply_works m b w : w_fates w = [] -> replies b w (send_node_config_control_response C m b w).
Proof. intros H. by apply (send_works (mkMessage _ _ b)). Qed.

Lemma admin_reply_works m action b w : w_fates w = [] -> replies b w (send_admin_reply C m action b w).
Proof. intros H. by apply (send_works (mkMessage _ _ b)). Qed.

Lemma steady_set_request c r : steady (apply_node_config_set_request E c r).
Proof.
  unfold apply_node_config_set_request. destruct (negb _); [auto with steady|]. destruct (negb _); [auto with steady|].
  do 3 (apply steady_bind; [auto with steady|intros ?]). destruct (_ && _); [auto with steady|].
  destruct (_ ++ _)%list; auto with steady.
Qed.

(** A CONFIG_SET, up to its answer. *)
Lemma runs_config_set m r e w : agreed E hive w -> w_fates w = [] -> parse_node_config_request E m = inr (Set_ r) ->
  set_edit E r = Some e -> exists reply w', handle_node_config_set E C m w = (Done tt, w') /\
    w_sent w' = (w_sent w ++ [reply])%list /\ made e (w_config w) (w_config w') (msg_payload reply).
Proof.
  intros Hw Hf Hp He. unfold handle_node_config_set. rewrite Hp. unfold bind at 1. unfold current at 1. unfold bind at 1, attempt at 1.
  pose proof (ends_apply_node_config_set_request E (w_config w) r w) as Ha. unfold ends in Ha.
  destruct (steady_set_request (w_config w) r w Hf) as (_ & Hf1 & Hs1).
  destruct (apply_node_config_set_request E (w_config w) r w) as [[[next fields]|err|] w1]; cbn in *;
    [|by destruct Ha as [_ Ha]; rewrite He in Ha|by destruct Ha].
  destruct Ha as [Hq (e' & He' & Ht)]. rewrite He in He'. injection He' as <-.
  pose proof (agreed_quiet _ _ _ _ Hw Hq) as Hw1. destruct Hq as ((_ & _ & Hc1) & _).
  unfold commit_if_changed. unfold bind at 1, attempt at 1, bind at 1. unfold current at 1. rewrite Hc1. unfold made.
  assert (isset : exists rs vs ts v, e = Replace rs vs ts v).
  { unfold set_edit in He. repeat case_match; simplify_eq; eauto. }
  destruct isset as (rs & vs & ts & v & ->). destruct (edited_tables _ (w_config w)) as [t|] eqn:Et.
  - destruct Ht as [[text ->] Hne]. rewrite bool_decide_false by done. set (n := set_version _ text t).
    destruct (runs_commit n w1 Hw1 Hf1) as (o & w2 & Hcm & Hf2 & Hs2 & H2). rewrite Hcm.
    assert (acceptable n = acceptable t) as Hacc by done. rewrite Hacc in H2. destruct (acceptable t).
    + destruct H2 as [-> Hc2]. cbn. unfold bind, current. edestruct config_reply_works as (reply & w3 & -> & Hc3 & Hs3 & Hb); [exact Hf2|].
      exists reply, w3. split; [done|]. split; [congruence|]. rewrite Hc3, Hc2, Hb. split; [by exists text|]. rewrite <- Hc2. cbn. eauto.
    + destruct H2 as [[d ->] Hc2]. cbn. unfold refuse_config_set, bind, current.
      edestruct config_reply_works as (reply & w3 & -> & Hc3 & Hs3 & Hb); [exact Hf2|].
      exists reply, w3. split; [done|]. split; [congruence|]. split; [congruence|]. rewrite Hb. right. eauto.
  - subst next. rewrite bool_decide_true by done. cbn. unfold bind, current.
    edestruct config_reply_works as (reply & w3 & -> & Hc3 & Hs3 & Hb); [exact Hf1|].
    exists reply, w3. split; [done|]. split; [congruence|]. split; [congruence|]. rewrite Hb, Hc1. cbn. eauto.
Qed.

(** C23. A change asked for is made and answered. When the calls of the file system and of the router
    work, a message that asks for an edit of the configuration, an admin action of the primary
    hive's SY.admin or a CONFIG_SET, has exactly one answer. If the edit makes a configuration that the
    region takes, it becomes the configuration, under the next version or the one the CONFIG_SET
    names, and the answer says so with that version; if the region does not take it, nothing changes
    and the answer is an error; and so if the entry to add is there already or the one to delete is
    not; a CONFIG_SET that changes nothing is confirmed. *)
Theorem change_made_and_answered w m e : lived E C true w -> w_fates w = [] -> edit_of E m = Some e ->
  exists reply w', on_message E C m w = (Done tt, w') /\ w_sent w' = (w_sent w ++ [reply])%list /\
    made e (w_config w) (w_config w') (msg_payload reply).
Proof.
  intros Hl Hf He. apply (lived_ok E C yaml_roundtrip) in Hl. unfold edit_of in He. unfold on_message.
  destruct (String.eqb_spec (msg_type (meta m)) ADMIN_KIND) as [Hk|Hk].
  - assert (try_handle_default_node_status C m w = (Done false, w)) as Hst.
    { unfold try_handle_default_node_status. by rewrite Hk. }
    unfold bind at 1. rewrite Hst. destruct (is_primary_admin_origin _) eqn:Ho; [|done].
    unfold bind, attempt, handle_admin_action. rewrite Ho, andb_false_r. unfold bind.
    destruct (runs_admin_answer _ _ _ _ Hl Hf He) as (b & w1 & -> & Hf1 & Hs1 & Hm).
    destruct (admin_reply_works m (unwrap_or "" (Protocol.action (meta m))) b w1 Hf1) as (reply & w2 & -> & Hc2 & Hs2 & Hb).
    exists reply, w2. split_and!; [done|congruence|]. by rewrite Hc2, Hb.
  - destruct (is_system_kind (msg_type (meta m))) eqn:Hs; [|done]. cbn [andb] in He.
    destruct (msg (meta m)) as [name|] eqn:Hn; [|done]. cbn in He.
    destruct (String.eqb_spec name MSG_CONFIG_SET) as [->|]; [|done].
    assert (try_handle_default_node_status C m w = (Done false, w)) as Hst.
    { unfold try_handle_default_node_status. by rewrite Hs, Hn. }
    unfold bind at 1. rewrite Hst. cbn [andb].
    change (opt_str_is (Some MSG_CONFIG_SET) MSG_CONFIG_GET) with false.
    change (opt_str_is (Some MSG_CONFIG_SET) MSG_CONFIG_SET) with true. cbv iota.
    destruct (read_config_set E (msg_payload m)) as [|r] eqn:Er; [done|]. cbn in He.
    assert (parse_node_config_request E m = inr (Set_ r)) as Hp.
    { unfold parse_node_config_request. rewrite Hn, Hs. cbn. by rewrite Er. }
    destruct (runs_config_set m r e w Hl Hf Hp He) as (reply & w' & Hr & Hs' & Hm). unfold bind, attempt. rewrite Hr.
    by exists reply, w'.
Qed.

End Cases.

(** ** A hive's configuration *)

Module ConfigExamples.

(** A configuration as text: the bits of its code. *)
#[export] Instance route_countable : Countable RouteConfig.
Proof.
  refine (inj_countable' (fun r => (rc_prefix r, rc_match_kind r, rc_action r, rc_next_hop_hive r, rc_metric r, rc_priority r))
    (fun '(p, k, a, n, m, q) => mkRouteConfig p k a n m q) _). by intros [].
Defined.

#[export] Instance vpn_countable : Countable VpnConfig.
Proof.
  refine (inj_countable' (fun v => (vc_pattern v, vc_match_kind v, vc_vpn_id v, vc_priority v))
    (fun '(p, k, i, q) => mkVpnConfig p k i q) _). by intros [].
Defined.

#[export] Instance tap_countable : Countable TapConfig.
Proof.
  refine (inj_countable' (fun t => (tc_match_src t, tc_match_dst t, tc_target t, tc_mode t, tc_enabled t))
    (fun '(s, d, t, m, e) => mkTapConfig s d t m e) _). by intros [].
Defined.

#[export] Instance config_countable : Countable SyConfigFile.
Proof.
  refine (inj_countable' (fun c => (cf_version c, cf_updated_at c, cf_routes c, cf_vpns c, cf_taps c))
    (fun '(v, u, r, n, t) => mkSyConfigFile v u r n t) _). by intros [].
Defined.

Fixpoint bits (p : positive) : string :=
  match p with xH => "." | xO p => String "0" (bits p) | xI p => String "1" (bits p) end.

Fixpoint unbits (s : string) : option positive :=
  match s with
  | EmptyString => None
  | String a r =>
    if Ascii.eqb a "." then match r with EmptyString => Some xH | _ => None end
    else option_map (if Ascii.eqb a "1" then xI else xO) (unbits r)
  end.

Lemma unbits_bits p : unbits (bits p) = Some p.
Proof. induction p as [p IH|p IH|]; cbn; by rewrite ?IH. Qed.

Definition yaml (c : SyConfigFile) : string + string := inr (bits (encode c)).

Definition unyaml (s : string) : string + SyConfigFile :=
  match unbits s with
  | Some p => match decode p with Some c => inr c | None => inl "invalid type" end
  | None => inl "EOF while parsing a value"
  end.

Lemma yaml_back c data : yaml c = inr data -> unyaml data = inr c.
Proof. intros [= <-]. unfold unyaml. by rewrite unbits_bits, decode_encode. Qed.

Lemma yaml_all c : exists data, yaml c = inr data.
Proof. by eexists. Qed.

(** The payloads of the messages. *)
Inductive Val :=
| VStr (s : string) | VRoute (r : RouteConfig) | VVpns (l : list VpnConfig) | VTaps (l : list TapConfig)
| VEmpty | VField (name : string) (v rest : Val) | VSet (config : Val).

(** An object is [VEmpty] or a [VField]. *)
Fixpoint field (v : Val) (name : string) : option Val :=
  match v with
  | VField n x rest => if n =s name then Some x else field rest name
  | _ => None
  end.

Definition no_field {A} : string + A := inl "missing field".

Definition env : ConfigEnv Val :=
  mkConfigEnv _ (fun v => match v with VRoute r => inr r | _ => no_field end) (fun _ => no_field) (fun _ => no_field)
    (fun _ => no_field) (fun v => match v with VVpns l => inr l | _ => no_field end)
    (fun v => match v with VTaps l => inr l | _ => no_field end) (fun _ => no_field)
    (fun v => match v with VSet c => inr (mkNodeConfigSetPayload 1 0 "replace" c) | _ => no_field end)
    (fun _ => false) (fun _ => false) (fun v => match v with VEmpty | VField _ _ _ => true | _ => false end) field
    (fun v => match v with VStr s => Some s | _ => None end) yaml unyaml (fun k => 1000 + Z.of_nat k).

Definition settings : Settings := mkSettings "hive1" "uuid-cr" true "HEALTHY".

Definition message (kind : string) (name action : option string) (from : option string) (payload : Val) : Message Val :=
  mkMessage (mkRouting "uuid-admin" from (Unicast "uuid-cr") 16 "trace")
    (mkMeta kind name None None None None None None None action None None None None None None false) payload.

Definition admin : option string := Some "SY.admin@motherbee".

Definition support : RouteConfig := mkRouteConfig "AI.support" None "FORWARD" (Some "hive2") (Some 10) None.

Definition add_support : Message Val := message ADMIN_KIND None (Some "add_route") admin (VRoute support).

(** No process ran yet; the file is not there. *)
Definition w0 : World Val := mkWorld None None None [] (mkSyConfigFile 0 "" [] [] []) [] 0 [].

Definition w1 : World Val := (start env settings w0).2.

Ltac there := vm_compute; reflexivity.

Lemma lived0 : lived env settings false w0.
Proof. by apply lived_fresh. Qed.

Lemma started (w : World Val) : lived env settings false w -> (start env settings w).1 = Done tt ->
  lived env settings true (start env settings w).2.
Proof.
  intros H Hd. destruct (start env settings w) as [o w'] eqn:Es. cbn in *. subst o. exact (lived_start env settings w (Done tt) w' H Es).
Qed.

Lemma served (w : World Val) i : lived env settings true w -> (on_input env settings i w).1 = Done tt ->
  lived env settings true (on_input env settings i w).2.
Proof.
  intros H Hd. destruct (on_input env settings i w) as [o w'] eqn:Ei. cbn in *. subst o. exact (lived_input env settings w i (Done tt) w' H Ei).
Qed.

Lemma lived1 : lived env settings true w1.
Proof. apply (started w0 lived0). there. Qed.

Definition w2 : World Val := (on_input env settings (Incoming add_support) w1).2.

Lemma lived2 : lived env settings true w2.
Proof. apply (served w1 _ lived1). there. Qed.

Lemma config_in_three_places_witness : cf_routes (w_config w2) = [support] /\
  exists data g s, w_file w2 = Some data /\ unyaml data = inr (w_config w2) /\ w_region w2 = Some g /\
    read_config_snapshot g = Some s /\ shows "hive1" (w_config w2) s.
Proof. split; [there|]. exact (config_in_three_places env settings yaml_back w2 lived2). Defined.

(** The same, the process dying when it sends the answer: the file has the route. *)
Definition v0 : World Val := set_fates (replicate 11 Works ++ [Dies None None])%list w0.
Definition v1 : World Val := (start env settings v0).2.

Lemma lived_v1 : lived env settings true v1.
Proof. apply (started v0); [by apply lived_fresh|there]. Qed.

Lemma config_changes_whole_witness :
  (on_message env settings add_support v1).1 = Dead /\
  exists c, saved env c (on_message env settings add_support v1).2 /\
    (c = w_config v1 \/ (asked env (w_config v1) add_support c /\ acceptable c = true)) /\
    ((on_message env settings add_support v1).1 = Dead \/ w_config (on_message env settings add_support v1).2 = c).
Proof.
  split; [there|]. apply (config_changes_whole env settings yaml_back v1 add_support _ _ lived_v1). apply surjective_pairing.
Defined.

(** Whether the file reads as a configuration. *)
Definition reads_as (c : SyConfigFile) (file : option string) : bool :=
  match file with
  | Some data => match unyaml data with inr c' => bool_decide (c' = c) | inl _ => false end
  | None => false
  end.

Lemma not_saved c (w : World Val) : reads_as c (w_file w) = false -> ~ saved env c w.
Proof.
  intros H (data & Hf & Hy). rewrite Hf in H. change (from_yaml env) with unyaml in Hy. cbn in H. rewrite Hy in H.
  by rewrite bool_decide_true in H.
Qed.

Definition rego (a : string) (s : option string) (h : string) : option bool := Some (allow a s h).

Lemma config_changed_by_primary_admin_witness :
  option_map trim (src_l2_name (routing add_support)) = Some "SY.admin@motherbee".
Proof.
  eapply (config_changed_by_primary_admin env settings yaml_back rego w1 add_support false
    (drop_package (stamp_action_class add_support)) _ _ (fun _ _ _ => eq_refl) lived1); [there|apply surjective_pairing|].
  apply not_saved. there.
Defined.

Lemma change_made_and_answered_witness :
  exists reply w', on_message env settings add_support w1 = (Done tt, w') /\ w_sent w' = (w_sent w1 ++ [reply])%list /\
    made settings (AddRoute support) (w_config w1) (w_config w') (msg_payload reply).
Proof.
  apply (change_made_and_answered env settings yaml_back yaml_all w1 add_support (AddRoute support) lived1); there.
Defined.

(** A router that took the configuration. *)
Definition snapshot2 : ConfigSnapshot :=
  match w_region w2 with
  | Some g => unwrap_or (mkConfigSnapshot 0 [] [] []) (read_config_snapshot g)
  | None => mkConfigSnapshot 0 [] [] []
  end.

Definition host : Host unit :=
  mkHost _ (fun _ => None) (fun _ => None) (fun _ => None) (fun _ => tt) 50 0 "worker" "/jsr-one" (fun p => p = snapshot2).

#[local] Abbreviation router_env := RouterCases.Examples.env.

Definition r0 : @Sys unit := initial (initialize_router_header 8 "hive1" "RT.one@hive1" false 0).
Definition r1 := goto r0 0%nat None (Refreshing KTimer RfRead).
Definition r2 := goto r1 0%nat None (Refreshing KTimer (RfLock snapshot2)).
Definition r3 := lock_version r2 0%nat None KTimer snapshot2.
Definition r4 := goto r3 0%nat None (Refreshing KTimer
  match vpn_updates snapshot2 (r_nodes (net r3)) with
  | [] => RfFib snapshot2
  | updates => RfApply snapshot2 updates
  end).

Lemma reach_r4 : reachable router_env host r4.
Proof.
  apply (reach_step _ _ r3 (Some 0%nat) []); [|apply (st_scan _ _ r3 0%nat None KTimer); there].
  apply (reach_step _ _ r2 (Some 0%nat) []); [|apply (st_lock _ _ r2 0%nat None KTimer); there].
  apply (reach_step _ _ r1 (Some 0%nat) []); [|apply (st_read _ _ r1 0%nat None KTimer); [there|reflexivity]].
  apply (reach_step _ _ r0 (Some 0%nat) []); [|apply (st_timer _ _ r0 0%nat); there].
  apply reach_fresh.
Qed.

Lemma support_fits : fits (w_config w2).
Proof.
  assert (cf_routes (w_config w2) = [support] /\ cf_vpns (w_config w2) = [] /\ cf_taps (w_config w2) = []) as (H1 & H2 & H3)
    by (split_and!; there).
  unfold fits. rewrite H1, H2, H3. split_and!; [|constructor..]. constructor; [|constructor].
  unfold text_fits, is_str. split; (split; [there|cbn; lia]).
Qed.

Definition region2 : ConfigRegion :=
  match w_region w2 with Some g => g | None => initialize_config_header 0 end.

Lemma region2_eq : w_region w2 = Some region2.
Proof.
  assert (match w_region w2 with Some _ => true | None => false end = true) as H by there.
  unfold region2. by destruct (w_region w2).
Qed.

Lemma router_enforces_config_witness :
  map untimed (r_static_routes (net r4)) = [mkStaticRoute "AI.support" MATCH_PREFIX ACTION_FORWARD "hive2" 100 10 0].
Proof.
  destruct (router_enforces_config env settings router_env host yaml_back w2 region2 r4 lived2 reach_r4) as (_ & _ & H & _).
  - intros p ->. exists region2. split; [exact (region_seen env settings yaml_back w2 region2 lived2 region2_eq)|there].
  - exact region2_eq.
  - there.
  - there.
  - exact support_fits.
  - rewrite H. there.
Defined.

(** A route to a hive whose id has more bytes than the field of the next hop, which is_valid_hive_id
    allows: it is committed and confirmed, and a router sends to the first 32 bytes of the id. *)
Definition long_hive : string := "hive-of-the-northern-region-office-1".

Definition add_long : Message Val :=
  message ADMIN_KIND None (Some "add_route") admin (VRoute (mkRouteConfig "AI.north" None "FORWARD" (Some long_hive) None None)).

Definition w_long : World Val := (on_message env settings add_long w1).2.

Lemma next_hop_is_cut :
  map msg_payload (w_sent w_long) = [AdminOk "add_route"
    (RouteAdded 2 (mkRouteConfig "AI.north" None "FORWARD" (Some long_hive) None None))] /\
  option_map (fun s => map sr_next_hop_hive (config_routes s))
    match w_region w_long with Some g => read_config_snapshot g | None => None end =
    Some ["hive-of-the-northern-region-offi"].
Proof. split; there. Qed.

(** CONFIG_SET is taken from any node the router delivers it from: the process has no gate of its own. *)
Definition set_vpns_as_agent : Message Val :=
  message SYSTEM_KIND (Some MSG_CONFIG_SET) None (Some "AI.chat@hive1")
    (VSet (VField "vpns" (VVpns [mkVpnConfig "AI." None 7 None]) VEmpty)).

Lemma config_set_has_no_gate :
  cf_vpns (w_config (on_message env settings set_vpns_as_agent w1).2) = [mkVpnConfig "AI." None 7 None].
Proof. there. Qed.

(** A configuration the region refuses for its 257 taps is, between the writes, in the region: a router
    that reads it then, as each HELLO does, gets its VPN rules. *)
Definition too_many : Message Val :=
  message SYSTEM_KIND (Some MSG_CONFIG_SET) None admin
    (VSet (VField "vpns" (VVpns [mkVpnConfig "AI." None 7 None])
       (VField "taps" (VTaps (replicate 257 (mkTapConfig "AI.a@hive1" "AI.b@hive1" "AI.c@hive1" "" true))) VEmpty))).

Definition w_refused : World Val := (on_message env settings too_many w1).2.

Definition gives_vpn (name : string) (g : ConfigRegion) : option Z :=
  option_map (fun s => assign_vpn name (Some (cs_vpns s))) (read_config_snapshot g).

Lemma refused_config_is_seen :
  cf_vpns (w_config w_refused) = [] /\
  option_map (gives_vpn "AI.chat@hive1") (w_region w_refused) = Some (Some 0) /\
  existsb (fun g => bool_decide (gives_vpn "AI.chat@hive1" g = Some 7)) (w_seen w_refused) = true.
Proof. split_and!; there. Qed.

(** A start that finds a file without [updated_at] writes it in place: dying there leaves a cut file, and
    no later start reads it. *)
Definition by_hand : SyConfigFile := mkSyConfigFile 1 "" [support] [] [].

Definition w_hand : World Val := set_fates [Works; Works; Dies (Some 100%nat) None] (set_file (Some (bits (encode by_hand))) w0).

Definition w_cut : World Val := (start env settings w_hand).2.

Lemma start_cuts_the_file :
  reads_as by_hand (w_file w_hand) = true /\
  (start env settings w_hand).1 = Dead /\ (start env settings w_cut).1 = Err "EOF while parsing a value".
Proof. split_and!; there. Qed.

End ConfigExamples.
