(* ===== verification/Vault.v ===== *)
(** * SY.vault: the secrets of a hive

    src/src/bin/sy_vault.rs, with the requests and metadata of the SDK (vault.rs, managed_node.rs). A
    request is a computation over the vault's tables whose calls of the database and of the router
    each may work, fail, or be the process's last ([Fate]); what changes in one transaction changes
    whole or not at all. The database is its two tables; AES-256-GCM, SHA-256, serde and the identity
    region are parameters. *)

From Stdlib Require Import ZArith Lia Ascii String Strings.Byte.
From stdpp Require Import base list strings gmap.
From S2P Require Import Prelude Effects Protocol Gates.
Open Scope Z_scope.
Open Scope string_scope.
Open Scope rust_scope.

(** ** Metadata (the SDK's vault.rs) *)

Record VaultMetadata := mkMetadata {
  tenant_id : string;
  owner_ilk : string;
  resource_type : option string;
  ilk : option string;
  assigned_ilks : list string;
  description : option string;
  created_by : option string;
  created_at : option string;
  updated_at : option string;
  tags : list string }.

Definition set_users (i : option string) (o : string) (l : list string) (m : VaultMetadata) : VaultMetadata :=
  mkMetadata (tenant_id m) o (resource_type m) i l (description m) (created_by m) (created_at m) (updated_at m) (tags m).
Definition set_assigned_ilks (l : list string) (m : VaultMetadata) : VaultMetadata := set_users (ilk m) (owner_ilk m) l m.
Definition set_created (by_ at_ : option string) (m : VaultMetadata) : VaultMetadata :=
  mkMetadata (tenant_id m) (owner_ilk m) (resource_type m) (ilk m) (assigned_ilks m) (description m) by_ at_
    (updated_at m) (tags m).
Definition set_updated_at (t : string) (m : VaultMetadata) : VaultMetadata :=
  mkMetadata (tenant_id m) (owner_ilk m) (resource_type m) (ilk m) (assigned_ilks m) (description m) (created_by m)
    (created_at m) (Some t) (tags m).

Record VaultFilter := mkFilter {
  f_prefix : option string; f_tenant_id : option string; f_resource_type : option string; f_ilk : option string;
  f_assigned_ilk : option string; f_tags : list string; f_limit : option nat }.

Definition no_filter : VaultFilter := mkFilter None None None None None [] None.

Definition DEFAULT_ROOT_TENANT_ID : string := "tnt:00000000-0000-0000-0000-000000000001".

Definition MAX_SECRET_VALUE_BYTES : Z := 1024 * 1024.

(** A text that is not blank, trimmed. *)
Definition trimmed_text (s : string) : option string :=
  let t := trim s in if str_is_empty t then None else Some t.

Definition opt_trimmed (o : option string) : option string := match o with Some s => trimmed_text s | None => None end.

Definition secret_owner_ilk (m : VaultMetadata) : option string :=
  match opt_trimmed (ilk m) with
  | Some i => Some i
  | None => trimmed_text (owner_ilk m)
  end.

Definition is_some {A} (o : option A) : bool := match o with Some _ => true | None => false end.

Definition is_general_secret (m : VaultMetadata) : bool :=
  negb (is_some (secret_owner_ilk m)) && forallb (fun i => str_is_empty (trim i)) (assigned_ilks m).

(** ** Errors *)

Inductive VaultError :=
| Sqlite (why : string)
| Json (why : string)
| NodeError (why : string)
| IdentityError (why : string)
| InvalidRequest (why : string)
| Unauthorized
| KeyNotFound
| KeyNotFoundInTenant
| KeyTaken
| TenantNotActive (why : string)
| TenantUnknown (why : string)
| CallerMismatch (why : string)
| CallerUnknown (why : string)
| NoPreviousVersion
| Encryption.

(** [VaultError::code]. *)
Definition code (e : VaultError) : string :=
  match e with
  | InvalidRequest _ => "INVALID_REQUEST"
  | Unauthorized | TenantNotActive _ | CallerMismatch _ => "UNAUTHORIZED"
  | KeyNotFound | KeyNotFoundInTenant => "KEY_NOT_FOUND"
  | KeyTaken => "KEY_TAKEN"
  | NoPreviousVersion => "NO_PREVIOUS_VERSION"
  | Sqlite _ => "STORAGE_ERROR"
  | Encryption => "ENCRYPTION_ERROR"
  | IdentityError _ | TenantUnknown _ | CallerUnknown _ => "IDENTITY_UNAVAILABLE"
  | Json _ => "INVALID_VALUE"
  | NodeError _ => "NODE_ERROR"
  end.

(** Its [to_string]. *)
Definition error_text (e : VaultError) : string :=
  match e with
  | Sqlite w => "sqlite error: " ++ w
  | Json w => "json error: " ++ w
  | NodeError w => "node error: " ++ w
  | IdentityError w => "identity SHM error: " ++ w
  | InvalidRequest w => "invalid request: " ++ w
  | Unauthorized => "unauthorized"
  | KeyNotFound | KeyNotFoundInTenant => "key not found"
  | KeyTaken => "key is taken by another tenant"
  | TenantNotActive w | TenantUnknown w => "the secret's tenant " ++ w
  | CallerMismatch w | CallerUnknown w => "caller " ++ w
  | NoPreviousVersion => "no previous version available"
  | Encryption => "encryption error"
  end.

Definition audit_result_for_error (e : VaultError) : string :=
  match e with
  | Unauthorized | TenantNotActive _ | TenantUnknown _ | CallerMismatch _ | CallerUnknown _ | KeyNotFoundInTenant
  | KeyTaken => "denied"
  | _ => "error"
  end.

(** ** The tables *)

Record Caller := mkCaller {
  l2_name : option string; ilk_id : option string; c_tenant_id : option string; ilk_type : option string }.

Definition no_caller : Caller := mkCaller None None None None.

#[local] Abbreviation bytes := (list byte).

(** A row of [secrets]; its metadata is the JSON of the column. *)
Record SecretRow := mkSecretRow {
  metadata : VaultMetadata;
  version : Z;
  current_nonce : bytes;
  current_ciphertext : bytes;
  previous_nonce : option bytes;
  previous_ciphertext : option bytes;
  previous_version : option Z;
  row_created_at : string;
  row_updated_at : string;
  last_accessed_at : option string;
  access_count : Z }.

Record AuditRow := mkAuditRow {
  au_timestamp : string; au_operation : string; au_key : option string; au_caller : Caller; au_result : string;
  au_error_code : option string }.

Record Store := mkStore { secrets : gmap string SecretRow; audit_log : list AuditRow }.

Definition set_secrets (f : gmap string SecretRow -> gmap string SecretRow) (s : Store) : Store :=
  mkStore (f (secrets s)) (audit_log s).
Definition add_audit (r : AuditRow) (s : Store) : Store := mkStore (secrets s) (audit_log s ++ [r]).

(** ** What is outside *)

(** What a row's list entry shows of it. *)
Record VaultSecretSummary := mkSummary {
  s_key : string; s_metadata : VaultMetadata; s_version : Z; s_last_accessed_at : option string; s_access_count : Z }.

Inductive VaultSecretOp := OpPut | OpRotate | OpDelete | OpRollback | OpAssign.

Record VaultSecretChangedPayload := mkChanged {
  ch_op : VaultSecretOp; ch_resource_type : string; ch_tenant_id : string; ch_ilk : option string;
  ch_assigned_ilks : list string; ch_general : bool; ch_version : Z; ch_key : string; ch_hive_id : string; ch_at_ms : Z }.

(** The payloads the vault sends. *)
Inductive Body {V : Type} :=
| GotSecret (key : string) (m : VaultMetadata) (version : Z) (last_accessed_at : option string) (access_count : Z)
    (value : option V)
| Listed (secrets : list VaultSecretSummary)
| Deleted (key : string)
| Rotated (key rotated_at : string) (current_version previous_version : Z)
| RolledBack (key : string) (current_version previous_version : Z)
| PutDone (key : string) (version : Z) (changed : bool)
| Assigned (key : string) (assigned_ilks : list string) (general changed : bool)
| ErrorBody (error_code message : string)
| NodeStatus (health_state : string)
| Changed (p : VaultSecretChangedPayload).
Arguments Body : clear implicits.

(** An entry of the identity region, and what a request finds outside the vault: the ILKs of the region
    when it can be read, a tenant's status there, and the directories of the hive registry when it can
    be read. *)
Record IdentityIlkOption := mkIlkOption {
  io_ilk_id : string; io_tenant_id : string; io_ilk_type : string; io_handler_node : option string }.

Record Surroundings := mkSurroundings {
  shm_ilks : option (list IdentityIlkOption);
  tenant_status_in_hive_config : string -> option string + string;
  hive_entries : option (list string) }.

Record PutRequest {V : Type} := mkPutRequest { pr_key : string; pr_value : V; pr_metadata : VaultMetadata }.
Arguments PutRequest : clear implicits.
Record ScopedKeyRequest := mkScoped { sk_key : string; sk_tenant_id : string }.
Record RotateRequest {V : Type} := mkRotate { rr_key : string; rr_tenant_id : string; rr_value : V }.
Arguments RotateRequest : clear implicits.
Record AssignRequest := mkAssign { ar_key : string; ar_tenant_id : string; ar_assigned_ilks : list string }.

(** AES-256-GCM under the master key, SHA-256 of a node's name ([deterministic_system_ilk_id]),
    [Uuid::parse_str], and serde of a secret's value and of each request; [clock], [clock_ms], [nonce]
    and [new_trace] are the k-th reading of the clock, the k-th nonce and the k-th trace id drawn. *)
Record VaultEnv {V : Type} := mkVaultEnv {
  aes_encrypt : bytes -> string -> option bytes;
  aes_decrypt : bytes -> bytes -> option string;
  deterministic_system_ilk_id : string -> string;
  parse_uuid : string -> option Z;
  to_vec : V -> string;
  from_slice : string -> string + V;
  read_put : V -> string + PutRequest V;
  read_scoped : V -> string + ScopedKeyRequest;
  read_rotate : V -> string + RotateRequest V;
  read_assign : V -> string + AssignRequest;
  read_list : V -> string + option VaultFilter;
  payload_key : V -> option string;
  clock : nat -> string;
  clock_ms : nat -> Z;
  nonce : nat -> bytes;
  new_trace : nat -> string }.
Arguments VaultEnv : clear implicits.

(** What a start fixes: the hive, the vault's own UUID, the ILKs that may write, those of the hive's
    system nodes, and the environment's answer to the status handler. *)
Record VaultConfig := mkVaultConfig {
  hive_id : string;
  uuid : string;
  well_known_admin_ilks : list string;
  well_known_system_ilks : list string;
  status_handler_enabled : bool;
  health_state : string }.

(** ** The effects

    What a call of the database or of the router comes to: it works, it fails, or the process dies
    before or after it took effect. *)
Inductive Fate := Works | Fails (why : string) | Dies | DiesAfter.

Record World {V : Type} := mkWorld {
  w_store : Store; w_fates : list Fate; w_draws : nat; w_sent : list (Message (Body V)) }.
Arguments World : clear implicits.
Arguments mkWorld {V}.

Abbreviation Out := (Effects.Out VaultError).

Definition M (V A : Type) : Type := Effects.M (World V) VaultError A.

Section Calls.
Context {V A : Type}.

(** One call with its fate: [err] is what its failure becomes, [f] its effect. *)
Definition call (err : string -> VaultError) (a : A) (f : World V -> World V) : M V A :=
  fun w =>
    let w' fs := mkWorld (w_store w) fs (w_draws w) (w_sent w) in
    match w_fates w with
    | [] => (Done a, f (w' []))
    | Works :: fs => (Done a, f (w' fs))
    | Fails why :: fs => (Err (err why), w' fs)
    | Dies :: fs => (Dead, w' fs)
    | DiesAfter :: fs => (Dead, f (w' fs))
    end.

(** A read, of the clock or of what is random. *)
Definition draw (f : nat -> A) : M V A :=
  fun w => (Done (f (w_draws w)), mkWorld (w_store w) (w_fates w) (S (w_draws w)) (w_sent w)).

(** A query: it may fail, and changes nothing. *)
Definition query (f : Store -> A) : M V A := fun w => call Sqlite (f (w_store w)) (fun w' => w') w.

End Calls.

#[local] Open Scope effect_scope.

Definition on_store {V} (f : Store -> Store) (w : World V) : World V :=
  mkWorld (f (w_store w)) (w_fates w) (w_draws w) (w_sent w).

(** A statement of its own, or a transaction: all of it or nothing. *)
Definition execute {V} (f : Store -> Store) : M V unit := call Sqlite tt (on_store f).

(** [NodeSender::send]. *)
Definition send {V} (m : Message (Body V)) : M V unit :=
  call NodeError tt (fun w => mkWorld (w_store w) (w_fates w) (w_draws w) (w_sent w ++ [m])%list).

(** ** The vault's messages; VAULT_GET, its response and VAULT_SECRET_CHANGED are [Gates]'s. *)

Definition MSG_VAULT_PUT : string := "VAULT_PUT".
Definition MSG_VAULT_PUT_RESPONSE : string := "VAULT_PUT_RESPONSE".
Definition MSG_VAULT_GET_METADATA : string := "VAULT_GET_METADATA".
Definition MSG_VAULT_GET_METADATA_RESPONSE : string := "VAULT_GET_METADATA_RESPONSE".
Definition MSG_VAULT_LIST : string := "VAULT_LIST".
Definition MSG_VAULT_LIST_RESPONSE : string := "VAULT_LIST_RESPONSE".
Definition MSG_VAULT_DELETE : string := "VAULT_DELETE".
Definition MSG_VAULT_DELETE_RESPONSE : string := "VAULT_DELETE_RESPONSE".
Definition MSG_VAULT_ROTATE : string := "VAULT_ROTATE".
Definition MSG_VAULT_ROTATE_RESPONSE : string := "VAULT_ROTATE_RESPONSE".
Definition MSG_VAULT_ROLLBACK : string := "VAULT_ROLLBACK".
Definition MSG_VAULT_ROLLBACK_RESPONSE : string := "VAULT_ROLLBACK_RESPONSE".
Definition MSG_VAULT_ASSIGN : string := "VAULT_ASSIGN".
Definition MSG_VAULT_ASSIGN_RESPONSE : string := "VAULT_ASSIGN_RESPONSE".
Definition VAULT_BOOTSTRAP_ACTION : string := "bootstrap".
Definition MSG_NODE_STATUS_GET : string := "NODE_STATUS_GET".
Definition MSG_NODE_STATUS_GET_RESPONSE : string := "NODE_STATUS_GET_RESPONSE".

(** ** Validation *)

Definition key_start (a : ascii) : bool := ascii_between 97 122 a || ascii_between 48 57 a.

Definition key_char (a : ascii) : bool := key_start a || ascii_is 58 a || ascii_is 95 a || ascii_is 45 a.

Definition key_length_ok (key : string) : bool :=
  negb (str_is_empty key) && bool_decide (String.length key <= 256)%nat.

Definition key_start_ok (key : string) : bool :=
  match key with String a _ => key_start a | EmptyString => false end.

(** [vault_key_is_valid] of the SDK. *)
Definition vault_key_is_valid (key : string) : bool :=
  if negb (key_length_ok key) then false
  else if negb (key_start_ok key) then false
  else forallb key_char (list_ascii_of_string key).

Definition validate_key (key : string) : VaultError + unit :=
  if negb (key_length_ok key) then inl (InvalidRequest "invalid key length")
  else if negb (key_start_ok key) then inl (InvalidRequest "invalid key prefix")
  else if negb (vault_key_is_valid key) then inl (InvalidRequest "invalid key format")
  else inr tt.

Definition validate_metadata (m : VaultMetadata) : VaultError + unit :=
  if negb (starts_with (trim (tenant_id m)) "tnt:") then
    inl (InvalidRequest "metadata.tenant_id must be tnt:<uuid> (use the hive's root tenant for infrastructure secrets — admin defaults to it when tenant_id is omitted)")
  else match resource_type m with
  | None => inl (InvalidRequest "metadata.resource_type is required (e.g. 'openai', 'postgres')")
  | Some r =>
    if str_is_empty (trim r) then inl (InvalidRequest "metadata.resource_type must not be empty")
    else if match opt_trimmed (ilk m) with Some i => negb (starts_with i "ilk:") | None => false end then
      inl (InvalidRequest "metadata.ilk must be ilk:<uuid> (or omit for pool)")
    else if existsb (fun i => negb (starts_with (trim i) "ilk:")) (assigned_ilks m) then
      inl (InvalidRequest "metadata.assigned_ilks must hold ilk:<uuid> values")
    else if negb (str_is_empty (owner_ilk m)) && negb (starts_with (owner_ilk m) "ilk:") then
      inl (InvalidRequest "metadata.owner_ilk if provided must be ilk:<uuid>; prefer metadata.ilk in Model D'")
    else inr tt
  end.

Definition validate_request_tenant (tenant : string) : VaultError + string :=
  if negb (starts_with (trim tenant) "tnt:") then
    inl (InvalidRequest "tenant_id must be tnt:<uuid> (the tenant the key belongs to; the hive's root tenant for infrastructure keys)")
  else inr (trim tenant).

Definition ensure_in_tenant (m : option VaultMetadata) (tenant : string) : VaultError + unit :=
  match m with
  | Some m => if negb (trim (tenant_id m) =s tenant) then inl KeyNotFoundInTenant else inr tt
  | None => inr tt
  end.

Definition is_well_known_admin (c : Caller) (well_known : list string) : bool :=
  match ilk_id c with Some i => str_mem i well_known | None => false end.

(** Whether the caller may delete, rotate or roll back a secret: an admin, or its owner. The code of
    [handle_delete], [handle_rotate] and [handle_rollback]. *)
Definition authorize_change (c : Caller) (well_known : list string) (m : option VaultMetadata) : VaultError + unit :=
  if is_well_known_admin c well_known then inr tt
  else match m with
  | None => inl Unauthorized
  | Some m =>
    match secret_owner_ilk m, ilk_id c with
    | Some owner, Some self => if owner =s self then inr tt else inl Unauthorized
    | _, _ => inl Unauthorized
    end
  end.

Definition EDGE_NODE_BASE_NAME : string := "SY.edge".

Definition is_edge_node_name (name : string) : bool :=
  match split_once "@" name with Some (role, _) => role | None => name end =s EDGE_NODE_BASE_NAME.

Definition caller_is_an_edge (c : Caller) : bool :=
  match l2_name c with Some n => is_edge_node_name n | None => false end.

(** ** The store *)

Section Vault.
Context {V : Type} `{EqDecision V} (E : VaultEnv V).

#[local] Abbreviation M := (M V).

Definition now : M string := draw (clock E).

Definition get_record (key : string) : M (option SecretRow) := query (fun s => secrets s !! key).

(** [audit_with_tx]: the row, in the transaction of the change it records. *)
Definition audit_row (operation : string) (key : option string) (c : Caller) (result : string)
  (error_code : option string) : M AuditRow :=
  t <- now ;; ret (mkAuditRow t operation key c result error_code).

(** [VaultStore::audit]: the row, in a statement of its own. *)
Definition audit (operation : string) (key : option string) (c : Caller) (result : string)
  (error_code : option string) : M unit :=
  r <- audit_row operation key c result error_code ;; execute (add_audit r).

(** A change of the secrets and its audit row, in one transaction. *)
Definition audited_change (operation key : string) (c : Caller) (f : gmap string SecretRow -> gmap string SecretRow)
  : M unit :=
  r <- audit_row operation (Some key) c "success" None ;;
  execute (fun s => add_audit r (set_secrets f s)).

Definition encrypt_value (v : V) : M (bytes * bytes) :=
  n <- draw (nonce E) ;;
  match aes_encrypt E n (to_vec E v) with
  | Some ct => ret (n, ct)
  | None => fail Encryption
  end.

Definition decrypt_value (n ct : bytes) : VaultError + V :=
  if negb (bool_decide (length n = 12%nat)) then inl Encryption
  else match aes_decrypt E n ct with
  | None => inl Encryption
  | Some plaintext => match from_slice E plaintext with inl why => inl (Json why) | inr v => inr v end
  end.

(** [i64::saturating_add(1)]. *)
Definition next_version (v : Z) : Z := Z.min (2 ^ 63 - 1) (v + 1).

(** The UPDATE of a put, a rotate and a rollback: the current value becomes the previous one. *)
Definition new_value (m : VaultMetadata) (v : Z) (n ct : bytes) (existing : SecretRow) (t : string)
  (row : SecretRow) : SecretRow :=
  mkSecretRow m v n ct (Some (current_nonce existing)) (Some (current_ciphertext existing)) (Some (version existing))
    (row_created_at row) t (last_accessed_at row) (access_count row).

Definition put (key : string) (value : V) (m : VaultMetadata) (c : Caller) : M (Z * bool) :=
  t <- now ;;
  let m := set_updated_at t (set_created (ilk_id c) (created_at m) m) in
  existing <- get_record key ;;
  match existing with
  | Some existing =>
    if negb (trim (tenant_id (metadata existing)) =s trim (tenant_id m)) then fail KeyTaken
    else
      current_value <- lift (decrypt_value (current_nonce existing) (current_ciphertext existing)) ;;
      if bool_decide (current_value = value) then
        audit MSG_VAULT_PUT (Some key) c "noop" None ;;; ret (version existing, false)
      else
        let m := set_created (created_by m)
                   (match created_at (metadata existing) with Some a => Some a | None => Some t end) m in
        nc <- encrypt_value value ;;
        let v := next_version (version existing) in
        audited_change MSG_VAULT_PUT key c (alter (new_value m v nc.1 nc.2 existing t) key) ;;; ret (v, true)
  | None =>
    let m := set_created (created_by m) (Some t) m in
    nc <- encrypt_value value ;;
    audited_change MSG_VAULT_PUT key c
      (insert key (mkSecretRow m 1 nc.1 nc.2 None None None t t None 0)) ;;;
    ret (1, true)
  end.

(** A listed row passes the filter. *)
Definition opt_all {A} (o : option A) (f : A -> bool) : bool := match o with Some a => f a | None => true end.

Definition opt_string_eqb (a b : option string) : bool := bool_decide (a = b).

Definition listed (filter : VaultFilter) (key : string) (m : VaultMetadata) : bool :=
  opt_all (f_prefix filter) (fun p => starts_with key p)
  && opt_all (f_tenant_id filter) (fun t => tenant_id m =s t)
  && opt_all (f_resource_type filter) (fun r => opt_str_is (resource_type m) r)
  && opt_all (f_ilk filter) (fun i =>
       if str_is_empty i then is_general_secret m else opt_string_eqb (secret_owner_ilk m) (Some i))
  && opt_all (f_assigned_ilk filter) (fun a => existsb (fun i => trim i =s trim a) (assigned_ilks m))
  && forallb (fun tag => str_mem tag (tags m)) (f_tags filter).

(** ORDER BY updated_at DESC, created_at DESC, key ASC. *)
Definition row_order (a b : string * SecretRow) : comparison :=
  then_with (String.compare (row_updated_at b.2) (row_updated_at a.2))
    (then_with (String.compare (row_created_at b.2) (row_created_at a.2)) (String.compare a.1 b.1)).

Definition list_limit (filter : VaultFilter) : nat := Nat.max 1 (Nat.min 1000 (unwrap_or 200%nat (f_limit filter))).

Definition summary_of (r : string * SecretRow) : VaultSecretSummary :=
  mkSummary r.1 (metadata r.2) (version r.2) (last_accessed_at r.2) (access_count r.2).

Definition rows_listed (filter : VaultFilter) (s : Store) : list (string * SecretRow) :=
  firstn (list_limit filter)
    (List.filter (fun r => listed filter r.1 (metadata r.2)) (sort_by row_order (map_to_list (secrets s)))).

(** [VaultStore::list]. *)
Definition list_secrets (filter : VaultFilter) : M (list VaultSecretSummary) :=
  query (fun s => map summary_of (rows_listed filter s)).

Definition need {A} (e : VaultError) (o : option A) : M A := match o with Some a => ret a | None => fail e end.

Definition set_assigned (key : string) (m : VaultMetadata) (c : Caller) : M (Z * bool) :=
  found <- get_record key ;;
  existing <- need KeyNotFound found ;;
  if bool_decide (assigned_ilks (metadata existing) = assigned_ilks m) then
    audit MSG_VAULT_ASSIGN (Some key) c "noop" None ;;; ret (version existing, false)
  else
    t <- now ;;
    let m := set_updated_at t m in
    audited_change MSG_VAULT_ASSIGN key c (alter (fun row =>
      mkSecretRow m (version row) (current_nonce row) (current_ciphertext row) (previous_nonce row)
        (previous_ciphertext row) (previous_version row) (row_created_at row) t (last_accessed_at row)
        (access_count row)) key) ;;;
    ret (version existing, true).

(** [VaultStore::delete]: the DELETE's count is read inside the transaction, and none deleted rolls it back. *)
Definition delete_secret (key : string) (c : Caller) : M unit :=
  found <- get_record key ;;
  _ <- need KeyNotFound found ;;
  audited_change MSG_VAULT_DELETE key c (delete key).

Definition rotate (key : string) (value : V) (c : Caller) : M (string * Z * Z) :=
  found <- get_record key ;;
  existing <- need KeyNotFound found ;;
  t <- now ;;
  let m := set_updated_at t (metadata existing) in
  nc <- encrypt_value value ;;
  let v := next_version (version existing) in
  audited_change MSG_VAULT_ROTATE key c (alter (new_value m v nc.1 nc.2 existing t) key) ;;;
  rotated_at <- now ;;
  ret (rotated_at, v, version existing).

Definition rollback (key : string) (c : Caller) : M (Z * Z) :=
  found <- get_record key ;;
  existing <- need KeyNotFound found ;;
  n <- need NoPreviousVersion (previous_nonce existing) ;;
  ct <- need NoPreviousVersion (previous_ciphertext existing) ;;
  v <- need NoPreviousVersion (previous_version existing) ;;
  t <- now ;;
  let m := set_updated_at t (metadata existing) in
  t' <- now ;;
  audited_change MSG_VAULT_ROLLBACK key c (alter (new_value m v n ct existing t') key) ;;;
  ret (v, version existing).

Definition accessed (t : string) (row : SecretRow) : SecretRow :=
  mkSecretRow (metadata row) (version row) (current_nonce row) (current_ciphertext row) (previous_nonce row)
    (previous_ciphertext row) (previous_version row) (row_created_at row) (row_updated_at row) (Some t)
    (access_count row + 1).

(** [VaultStore::mark_accessed]; the count is a 64-bit column, here unbounded. *)
Definition mark_accessed (key : string) : M unit :=
  t <- now ;;
  execute (set_secrets (alter (accessed t) key)).

(** ** Who asks, and what it may read *)

Definition check_caller_binding (name : option string) (self : string) (registered : option IdentityIlkOption)
  : VaultError + unit :=
  match name with
  | None => inl (CallerMismatch ("claims " ++ self ++ " without a router-stamped node name"))
  | Some name =>
    if starts_with name "SY." && (deterministic_system_ilk_id E name =s self) then inr tt
    else match registered with
    | Some i =>
      if opt_str_is (io_handler_node i) name then inr tt
      else inl (CallerMismatch (name ++ " claims " ++ self ++ ", which identity registered for another node"))
    | None => inl (CallerUnknown (name ++ " claims " ++ self ++ ", which the identity SHM does not hold (yet)"))
    end
  end.

Definition filter_nonempty (o : option string) : option string :=
  match o with Some s => if str_is_empty s then None else Some s | None => None end.

Definition resolve_caller (S : Surroundings) (m : Message V) : VaultError + Caller :=
  let name := filter_nonempty (src_l2_name (routing m)) in
  match opt_trimmed (src_ilk (meta m)) with
  | None => inr (mkCaller name None None None)
  | Some self =>
    let registered := match shm_ilks S with
                      | Some l => List.find (fun i => io_ilk_id i =s self) l
                      | None => None
                      end in
    match check_caller_binding name self registered with
    | inl e => inl e
    | inr _ => inr (mkCaller name (Some self) (option_map io_tenant_id registered) (option_map io_ilk_type registered))
    end
  end.

Definition caller_is_a_system_node_by_name (c : Caller) : bool :=
  match l2_name c, ilk_id c with
  | Some name, Some self => starts_with name "SY." && (deterministic_system_ilk_id E name =s self)
  | _, _ => false
  end.

Definition authorize_read (c : Caller) (m : VaultMetadata) (well_known_system : list string) : VaultError + unit :=
  let caller_ilk := filter_nonempty (ilk_id c) in
  let owns := match secret_owner_ilk m, caller_ilk with Some o, Some self => o =s self | _, _ => false end in
  let assigned := match caller_ilk with
                  | Some self => existsb (fun i => trim i =s self) (assigned_ilks m)
                  | None => false
                  end in
  if owns then inr tt
  else if assigned then inr tt
  else if is_general_secret m then
    let own_tenant := if opt_str_is (c_tenant_id c) (tenant_id m) then inr tt else inl Unauthorized in
    if caller_is_an_edge c then inl Unauthorized
    else if tenant_id m =s DEFAULT_ROOT_TENANT_ID then
      if match caller_ilk with Some self => str_mem self well_known_system | None => false end then inr tt
      else if opt_str_is (ilk_type c) "system" then inr tt
      else if negb (is_some (ilk_type c)) && caller_is_a_system_node_by_name c then
        inl (CallerUnknown (unwrap_or "" (l2_name c) ++ " is a system node the identity SHM does not hold yet; retry"))
      else own_tenant
    else own_tenant
  else inl Unauthorized.

Definition tenant_uuid (t : string) : option Z :=
  match strip_prefix "tnt:" (trim t) with Some raw => parse_uuid E raw | None => None end.

Definition is_root_tenant (t : string) : bool :=
  match tenant_uuid t, tenant_uuid DEFAULT_ROOT_TENANT_ID with Some a, Some b => Z.eqb a b | _, _ => false end.

Definition tenant_check (t : string) (status : option string + string) : VaultError + unit :=
  if negb (is_some (tenant_uuid t)) then inl (TenantNotActive (t ++ " is not a valid tenant id"))
  else match status with
  | inr why => inl (IdentityError why)
  | inl (Some st) =>
    if st =s "active" then inr tt else inl (TenantNotActive (t ++ " is not active (" ++ st ++ ")"))
  | inl None => inl (TenantUnknown (t ++ " is not in the identity SHM (deleted, or identity has not loaded yet)"))
  end.

Definition ensure_tenant_active (S : Surroundings) (t : string) : VaultError + unit :=
  if is_root_tenant t then inr tt else tenant_check t (tenant_status_in_hive_config S t).

(** ** The notices of a change *)

(** Trimmed, blanks dropped, sorted and deduplicated. *)
Definition ilk_set (l : list string) : list string := dedup (sort_by String.compare (omap trimmed_text l)).

(** The owner a change took the secret from. *)
Definition lost_owner (m : VaultMetadata) (previous : option VaultMetadata) : list string :=
  match previous with
  | Some p => match secret_owner_ilk p with
              | Some o => if opt_str_is (secret_owner_ilk m) o then [] else [o]
              | None => []
              end
  | None => []
  end.

Definition changed_payload (r : string) (op : VaultSecretOp) (key : string) (m : VaultMetadata)
  (previous : option VaultMetadata) (v : Z) (hive : string) (at_ms : Z) : VaultSecretChangedPayload :=
  let had := match previous with Some p => assigned_ilks p | None => [] end in
  mkChanged op r (tenant_id m) (filter_nonempty (ilk m))
    (ilk_set (assigned_ilks m ++ had ++ lost_owner m previous)%list)
    (is_general_secret m || match previous with Some p => is_general_secret p | None => false end)
    v key hive at_ms.

Definition build_secret_changed_payload (op : VaultSecretOp) (key : string) (m : VaultMetadata)
  (previous : option VaultMetadata) (v : Z) (hive : string) : M (option VaultSecretChangedPayload) :=
  match resource_type m with
  | None => ret None
  | Some r => at_ms <- draw (clock_ms E) ;; ret (Some (changed_payload r op key m previous v hive at_ms))
  end.

Record EdgeNode := mkEdgeNode { edge_name : string; edge_ilk : string }.

Definition hive_char (a : ascii) : bool :=
  ascii_between 65 90 a || ascii_between 97 122 a || ascii_between 48 57 a || ascii_is 95 a || ascii_is 45 a.

Definition is_valid_hive_id (h : string) : bool :=
  negb (str_is_empty h) && bool_decide (String.length h <= 64)%nat && forallb hive_char (list_ascii_of_string h).

Definition edge_nodes (own_hive : string) (entries : option (list string)) : list EdgeNode :=
  map (fun hive => let name := EDGE_NODE_BASE_NAME ++ "@" ++ hive in
         mkEdgeNode name (deterministic_system_ilk_id E name))
    (dedup (sort_by String.compare (own_hive :: List.filter is_valid_hive_id (unwrap_or [] entries)))).

Definition edge_owner (owner : option string) (edges : list EdgeNode) : option string :=
  match opt_trimmed owner with
  | Some o => option_map edge_name (List.find (fun e => edge_ilk e =s o) edges)
  | None => None
  end.

Definition notice (src_uuid : string) (src_ilk_ : option string) (bootstrap : bool) (p : VaultSecretChangedPayload)
  (d : Destination) (trace : string) : Message (Body V) :=
  mkMessage (mkRouting src_uuid None d 16 trace)
    (mkMeta SYSTEM_KIND (Some MSG_VAULT_SECRET_CHANGED) src_ilk_ None None None None
       (match d with Broadcast => Some SCOPE_GLOBAL | _ => None end) None
       (if bootstrap then Some VAULT_BOOTSTRAP_ACTION else None) None None None None None None false)
    (Changed p).

Definition secret_changed_notices (src_uuid : string) (src_ilk_ : option string) (bootstrap : bool)
  (p : VaultSecretChangedPayload) (owner : option string) (edges : list EdgeNode) : M (list (Message (Body V))) :=
  t <- draw (new_trace E) ;;
  let all := notice src_uuid src_ilk_ bootstrap p Broadcast t in
  match edge_owner owner edges with
  | None => ret [all]
  | Some edge => t' <- draw (new_trace E) ;; ret [all; notice src_uuid src_ilk_ bootstrap p (Unicast edge) t']
  end.

(** The sends of [notices], each on its own: a failed one is logged. *)
Fixpoint send_each (l : list (Message (Body V))) : M unit :=
  match l with
  | [] => ret tt
  | n :: rest => attempt (send n) ;;; send_each rest
  end.

(** ** The handlers *)

Record HandlerOutcome := mkOutcome {
  response : Body V; broadcast : option VaultSecretChangedPayload; owner : option string }.

Definition response_only (b : Body V) : HandlerOutcome := mkOutcome b None None.

(** [serde_json::from_value] of a request. *)
Definition decode {A} (r : string + A) : M A := match r with inl why => fail (Json why) | inr a => ret a end.

Definition request_key (m : Message V) : option string := option_map trim (payload_key E (msg_payload m)).

Definition request_key_required (m : Message V) : M string :=
  need (InvalidRequest "missing key") (filter_nonempty (request_key m)).

Definition metadata_of (o : option SecretRow) : option VaultMetadata := option_map metadata o.

Definition owner_of (o : option VaultMetadata) : option string :=
  match o with Some m => secret_owner_ilk m | None => None end.

(** The payload of a change to a secret that was there. *)
Definition payload_of (op : VaultSecretOp) (key : string) (pre : option VaultMetadata) (v : Z) (hive : string)
  : M (option VaultSecretChangedPayload) :=
  match pre with Some m => build_secret_changed_payload op key m None v hive | None => ret None end.

Definition check_value_size (v : V) : M unit :=
  if bool_decide (MAX_SECRET_VALUE_BYTES < Z.of_nat (String.length (to_vec E v)))%Z
  then fail (InvalidRequest "secret value exceeds 1 MiB") else ret tt.

Definition handle_list (m : Message V) (c : Caller) : M (Body V) :=
  f <- decode (read_list E (msg_payload m)) ;;
  secrets <- list_secrets (unwrap_or no_filter f) ;;
  audit MSG_VAULT_LIST None c "success" None ;;;
  ret (Listed secrets).

Definition handle_delete (m : Message V) (c : Caller) (well_known : list string) (hive : string) : M HandlerOutcome :=
  r <- decode (read_scoped E (msg_payload m)) ;;
  lift (validate_key (sk_key r)) ;;;
  tenant <- lift (validate_request_tenant (sk_tenant_id r)) ;;
  record <- get_record (sk_key r) ;;
  let pre := metadata_of record in
  lift (ensure_in_tenant pre tenant) ;;;
  lift (authorize_change c well_known pre) ;;;
  delete_secret (sk_key r) c ;;;
  p <- payload_of OpDelete (sk_key r) pre 0 hive ;;
  ret (mkOutcome (Deleted (sk_key r)) p (owner_of pre)).

Definition handle_rotate (m : Message V) (c : Caller) (well_known : list string) (hive : string) : M HandlerOutcome :=
  r <- decode (read_rotate E (msg_payload m)) ;;
  lift (validate_key (rr_key r)) ;;;
  tenant <- lift (validate_request_tenant (rr_tenant_id r)) ;;
  record <- get_record (rr_key r) ;;
  let pre := metadata_of record in
  lift (ensure_in_tenant pre tenant) ;;;
  lift (authorize_change c well_known pre) ;;;
  check_value_size (rr_value r) ;;;
  result <- rotate (rr_key r) (rr_value r) c ;;
  let '(rotated_at, current_version, previous_version) := result in
  p <- payload_of OpRotate (rr_key r) pre current_version hive ;;
  ret (mkOutcome (Rotated (rr_key r) rotated_at current_version previous_version) p (owner_of pre)).

Definition handle_rollback (m : Message V) (c : Caller) (well_known : list string) (hive : string)
  : M HandlerOutcome :=
  r <- decode (read_scoped E (msg_payload m)) ;;
  lift (validate_key (sk_key r)) ;;;
  tenant <- lift (validate_request_tenant (sk_tenant_id r)) ;;
  record <- get_record (sk_key r) ;;
  let pre := metadata_of record in
  lift (ensure_in_tenant pre tenant) ;;;
  lift (authorize_change c well_known pre) ;;;
  result <- rollback (sk_key r) c ;;
  let '(current_version, previous_version) := result in
  p <- payload_of OpRollback (sk_key r) pre current_version hive ;;
  ret (mkOutcome (RolledBack (sk_key r) current_version previous_version) p (owner_of pre)).

(** An update that names no user keeps the ones there are. *)
Definition keep_users (m : VaultMetadata) (previous : option VaultMetadata) : VaultMetadata :=
  match previous with
  | Some p =>
    let names_users := is_some (secret_owner_ilk m) || negb (bool_decide (assigned_ilks m = [])) in
    if negb names_users && (trim (tenant_id p) =s trim (tenant_id m))
    then set_users (ilk p) (owner_ilk p) (assigned_ilks p) m else m
  | None => m
  end.

Definition handle_put (m : Message V) (c : Caller) (well_known : list string) (hive : string) : M HandlerOutcome :=
  if negb (is_well_known_admin c well_known) then fail Unauthorized
  else
    r <- decode (read_put E (msg_payload m)) ;;
    lift (validate_key (pr_key r)) ;;;
    lift (validate_metadata (pr_metadata r)) ;;;
    check_value_size (pr_value r) ;;;
    record <- get_record (pr_key r) ;;
    let previous := metadata_of record in
    let md := keep_users (pr_metadata r) previous in
    result <- put (pr_key r) (pr_value r) md c ;;
    let '(v, changed) := result in
    p <- (if changed : bool then build_secret_changed_payload OpPut (pr_key r) md previous v hive else ret None) ;;
    ret (mkOutcome (PutDone (pr_key r) v changed) p (secret_owner_ilk md)).

Definition handle_assign (m : Message V) (c : Caller) (well_known : list string) (hive : string) : M HandlerOutcome :=
  if negb (is_well_known_admin c well_known) then fail Unauthorized
  else
    r <- decode (read_assign E (msg_payload m)) ;;
    lift (validate_key (ar_key r)) ;;;
    tenant <- lift (validate_request_tenant (ar_tenant_id r)) ;;
    record <- get_record (ar_key r) ;;
    lift (ensure_in_tenant (metadata_of record) tenant) ;;;
    previous <- need KeyNotFound (metadata_of record) ;;
    let md := set_assigned_ilks (ilk_set (ar_assigned_ilks r)) previous in
    lift (validate_metadata md) ;;;
    result <- set_assigned (ar_key r) md c ;;
    let '(v, changed) := result in
    p <- (if changed : bool then build_secret_changed_payload OpAssign (ar_key r) md (Some previous) v hive
          else ret None) ;;
    ret (mkOutcome (Assigned (ar_key r) (assigned_ilks md) (is_general_secret md) changed) p (secret_owner_ilk md)).

Definition handle_get (S : Surroundings) (m : Message V) (c : Caller) (well_known_system : list string)
  (include_value : bool) : M (Body V) :=
  key <- request_key_required m ;;
  lift (validate_key key) ;;;
  found <- get_record key ;;
  record <- need KeyNotFound found ;;
  (if include_value then
     lift (authorize_read c (metadata record) well_known_system) ;;;
     lift (ensure_tenant_active S (tenant_id (metadata record)))
   else ret tt) ;;;
  value <- (if include_value then
              v <- lift (decrypt_value (current_nonce record) (current_ciphertext record)) ;;
              mark_accessed key ;;; ret (Some v)
            else ret None) ;;
  audit (if include_value then MSG_VAULT_GET else MSG_VAULT_GET_METADATA) (Some key) c "success" None ;;;
  ret (GotSecret key (metadata record) (version record) (last_accessed_at record) (access_count record) value).

(** ** A message *)

Definition error_payload (e : VaultError) : Body V := ErrorBody (code e) (error_text e).

Definition response_action_for (action : string) : string :=
  if action =s MSG_VAULT_PUT then MSG_VAULT_PUT_RESPONSE
  else if action =s MSG_VAULT_GET_METADATA then MSG_VAULT_GET_METADATA_RESPONSE
  else if action =s MSG_VAULT_GET then MSG_VAULT_GET_RESPONSE
  else if action =s MSG_VAULT_LIST then MSG_VAULT_LIST_RESPONSE
  else if action =s MSG_VAULT_DELETE then MSG_VAULT_DELETE_RESPONSE
  else if action =s MSG_VAULT_ROTATE then MSG_VAULT_ROTATE_RESPONSE
  else if action =s MSG_VAULT_ROLLBACK then MSG_VAULT_ROLLBACK_RESPONSE
  else if action =s MSG_VAULT_ASSIGN then MSG_VAULT_ASSIGN_RESPONSE
  else MSG_VAULT_GET_RESPONSE.

Section Node.
Context (C : VaultConfig).

Definition reply_to (request : Message V) (msg_name : string) (b : Body V) : Message (Body V) :=
  build_system_message (uuid C) (Unicast (src (routing request))) 16 (trace_id (routing request)) msg_name b.

Definition send_system_response (request : Message V) (msg_name : string) (b : Body V) : M unit :=
  send (reply_to request msg_name b).

Definition send_error_response (request : Message V) (msg_name : string) (e : VaultError) : M unit :=
  send_system_response request msg_name (error_payload e).

Definition action_of (m : Message V) : string := unwrap_or "" (msg (meta m)).

(** The [match] on the action. *)
Definition dispatch (S : Surroundings) (m : Message V) (c : Caller) : M HandlerOutcome :=
  let a := action_of m in
  let admins := well_known_admin_ilks C in
  if a =s MSG_VAULT_PUT then handle_put m c admins (hive_id C)
  else if a =s MSG_VAULT_GET then b <- handle_get S m c (well_known_system_ilks C) true ;; ret (response_only b)
  else if a =s MSG_VAULT_GET_METADATA then
    b <- handle_get S m c (well_known_system_ilks C) false ;; ret (response_only b)
  else if a =s MSG_VAULT_LIST then b <- handle_list m c ;; ret (response_only b)
  else if a =s MSG_VAULT_DELETE then handle_delete m c admins (hive_id C)
  else if a =s MSG_VAULT_ROTATE then handle_rotate m c admins (hive_id C)
  else if a =s MSG_VAULT_ROLLBACK then handle_rollback m c admins (hive_id C)
  else if a =s MSG_VAULT_ASSIGN then handle_assign m c admins (hive_id C)
  else fail (InvalidRequest "unsupported vault action").

Definition audit_refusal (m : Message V) (c : Caller) (e : VaultError) : M unit :=
  attempt (audit (action_of m) (request_key m) c (audit_result_for_error e) (Some (code e))) ;;; ret tt.

Definition handle_vault_message (S : Surroundings) (m : Message V) : M unit :=
  let response_action := response_action_for (action_of m) in
  match resolve_caller S m with
  | inl e =>
    audit_refusal m (mkCaller (src_l2_name (routing m)) (src_ilk (meta m)) None None) e ;;;
    send_system_response m response_action (error_payload e)
  | inr c =>
    result <- attempt (dispatch S m c) ;;
    outcome <- match result with
               | inr o => ret o
               | inl e => audit_refusal m c e ;;; ret (response_only (error_payload e))
               end ;;
    send_system_response m response_action (response outcome) ;;;
    match broadcast outcome with
    | None => ret tt
    | Some p =>
      notices <- secret_changed_notices (uuid C) (dst_ilk (meta m)) false p (owner outcome)
                   (edge_nodes (hive_id C) (hive_entries S)) ;;
      send_each notices
    end
  end.

(** [try_handle_default_node_status] of the SDK. *)
Definition try_handle_default_node_status (m : Message V) : M bool :=
  if negb (is_system_kind (msg_type (meta m))) || negb (opt_str_is (msg (meta m)) MSG_NODE_STATUS_GET) then ret false
  else if negb (status_handler_enabled C) then ret false
  else send (reply_to m MSG_NODE_STATUS_GET_RESPONSE (NodeStatus (health_state C))) ;;; ret true.

Definition vault_actions : list string :=
  [MSG_VAULT_PUT; MSG_VAULT_GET; MSG_VAULT_GET_METADATA; MSG_VAULT_LIST; MSG_VAULT_DELETE; MSG_VAULT_ROTATE;
   MSG_VAULT_ROLLBACK; MSG_VAULT_ASSIGN].

(** One turn of the main loop; an error ends the process. *)
Definition on_message (S : Surroundings) (m : Message V) : M unit :=
  handled <- try_handle_default_node_status m ;;
  if handled : bool then ret tt
  else if negb (is_system_kind (msg_type (meta m))) then ret tt
  else if negb (str_mem (action_of m) vault_actions) then ret tt
  else
    result <- attempt (handle_vault_message S m) ;;
    match result with
    | inr _ => ret tt
    | inl e => attempt (send_error_response m (response_action_for (action_of m)) e) ;;; ret tt
    end.

(** The announcements of a start, of the secrets [list] gives without a filter. *)
Fixpoint announce (edges : list EdgeNode) (l : list VaultSecretSummary) : M unit :=
  match l with
  | [] => ret tt
  | s :: rest =>
    p <- build_secret_changed_payload OpPut (s_key s) (s_metadata s) None (s_version s) (hive_id C) ;;
    match p with
    | None => ret tt
    | Some p =>
      notices <- secret_changed_notices (uuid C) None true p (secret_owner_ilk (s_metadata s)) edges ;;
      send_each notices
    end ;;;
    announce edges rest
  end.

Definition emit_bootstrap_secret_broadcasts (S : Surroundings) : M unit :=
  summaries <- list_secrets no_filter ;;
  announce (edge_nodes (hive_id C) (hive_entries S)) summaries.

End Node.

(** [compute_well_known_system_ilks]: [nodes] are the texts of [system_nodes.<role>.nodes], none when
    hive.yaml cannot be read or parsed. *)
Definition compute_well_known_system_ilks (hive self_ilk : string) (admin_set nodes : list string) : list string :=
  (self_ilk :: admin_set
   ++ omap (fun entry => let name := trim entry in
                         if negb (starts_with name "SY.") then None
                         else Some (deterministic_system_ilk_id E
                                      (if str_contains name "@"%char then name else name ++ "@" ++ hive))) nodes)%list.

(** What [main] fixes at its start, of the hive's id and nodes. *)
Definition vault_config (hive vault_uuid : string) (nodes : list string) (enabled : bool) (state : string) : VaultConfig :=
  let admins := [deterministic_system_ilk_id E ("SY.admin@" ++ hive);
                 deterministic_system_ilk_id E ("SY.architect@" ++ hive)] in
  mkVaultConfig hive vault_uuid admins
    (compute_well_known_system_ilks hive (deterministic_system_ilk_id E ("SY.vault@" ++ hive)) admins nodes)
    enabled state.

(** A start of the process, then the messages of its loop until it dies. *)
Fixpoint serve (C : VaultConfig) (l : list (Surroundings * Message V)) : M unit :=
  match l with
  | [] => ret tt
  | (around, m) :: rest => on_message C around m ;;; serve C rest
  end.

Definition run_vault (C : VaultConfig) (S : Surroundings) (l : list (Surroundings * Message V)) : M unit :=
  attempt (emit_bootstrap_secret_broadcasts C S) ;;; serve C l.

End Vault.
