(* ===== verification/VaultSafety.v ===== *)
(** * SY.vault: who changes a secret and who reads it

    [wp]: what holds after a computation whatever the database and the router do, the process dying at
    any of its calls included. Over it: the vault refines a map from keys to plain secrets that changes
    only by the operations an administrator or the secret's owner asked for, each with its audit row,
    and a value goes out only to a node that may read it. *)

From Stdlib Require Import ZArith Lia Ascii String Strings.Byte.
From stdpp Require Import base list strings gmap.
From S2P Require Import Prelude Effects Protocol Gates Vault.
Open Scope Z_scope.
Open Scope string_scope.
Open Scope rust_scope.
#[local] Open Scope effect_scope.

(** ** What holds after a computation *)

Section Wp.
Context {V : Type}.
#[local] Abbreviation Sent := (list (Message (Body V))).

Definition wp {A} (m : M V A) (s : Store) (l : Sent) (Q : Out A -> Store -> Sent -> Prop) : Prop :=
  forall w, w_store w = s -> w_sent w = l -> Q (m w).1 (w_store (m w).2) (w_sent (m w).2).

Context {A B : Type}.
Implicit Types (Q : Out A -> Store -> Sent -> Prop).

Lemma wp_ret (a : A) s l Q : Q (Done a) s l -> wp (ret a) s l Q.
Proof. by intros H w <- <-. Qed.

Lemma wp_fail e s l Q : Q (Err e) s l -> wp (fail e) s l Q.
Proof. by intros H w <- <-. Qed.

Lemma wp_bind (m : M V B) (f : B -> M V A) s l Q :
  wp m s l (fun o s' l' => match o with
                           | Done b => wp (f b) s' l' Q
                           | Err e => Q (Err e) s' l'
                           | Dead => Q Dead s' l'
                           end) -> wp (bind m f) s l Q.
Proof. intros H w Es El. specialize (H w Es El). unfold bind. destruct (m w) as [[b|e|] w']; cbn in *; auto. Qed.

Lemma wp_attempt (m : M V B) s l (Q : Out (VaultError + B) -> Store -> Sent -> Prop) :
  wp m s l (fun o s' l' => match o with
                           | Done b => Q (Done (inr b)) s' l'
                           | Err e => Q (Done (inl e)) s' l'
                           | Dead => Q Dead s' l'
                           end) -> wp (attempt m) s l Q.
Proof. intros H w Es El. specialize (H w Es El). unfold attempt. destruct (m w) as [[b|e|] w']; cbn in *; auto. Qed.

Lemma wp_lift (r : VaultError + A) s l Q :
  match r with inl e => Q (Err e) s l | inr a => Q (Done a) s l end -> wp (lift r) s l Q.
Proof. destruct r; [apply wp_fail | apply wp_ret]. Qed.

Lemma wp_draw (f : nat -> A) s l Q : (forall k, Q (Done (f k)) s l) -> wp (draw f) s l Q.
Proof. intros H w <- <-. apply H. Qed.

Lemma wp_call err (a : A) f s l Q s' l' :
  (forall w, w_store w = s -> w_sent w = l -> w_store (f w) = s' /\ w_sent (f w) = l') ->
  Q (Done a) s' l' -> (forall why, Q (Err (err why)) s l) -> Q Dead s l -> Q Dead s' l' ->
  wp (call err a f) s l Q.
Proof.
  intros Hf H1 H2 H3 H4 w Es El. unfold call.
  destruct (w_fates w) as [|[|why| |] fs]; cbn; rewrite ?Es, ?El; auto;
    match goal with |- context [f ?u] => destruct (Hf u) as [E1 E2]; [done|done|]; by rewrite E1, E2 end.
Qed.

Lemma wp_query (f : Store -> A) s l Q :
  Q (Done (f s)) s l -> (forall why, Q (Err (Sqlite why)) s l) -> Q Dead s l -> wp (query f) s l Q.
Proof.
  intros H1 H2 H3 w Es El. unfold query.
  apply (wp_call Sqlite (f (w_store w)) (fun w' => w') s l Q s l); auto. by rewrite Es.
Qed.

Lemma wp_need e (o : option A) s l Q :
  match o with Some a => Q (Done a) s l | None => Q (Err e) s l end -> wp (need e o) s l Q.
Proof. destruct o; [apply wp_ret | apply wp_fail]. Qed.

Lemma wp_decode (r : string + A) s l Q :
  match r with inl why => Q (Err (Json why)) s l | inr a => Q (Done a) s l end -> wp (decode r) s l Q.
Proof. destruct r; [apply wp_fail | apply wp_ret]. Qed.

Lemma wp_mono (m : M V A) s l Q (R : Out A -> Store -> Sent -> Prop) :
  wp m s l Q -> (forall o s' l', Q o s' l' -> R o s' l') -> wp m s l R.
Proof. intros H HQ w Es El. auto. Qed.

Lemma wp_and (m : M V A) s l Q (R : Out A -> Store -> Sent -> Prop) :
  wp m s l Q -> wp m s l R -> wp m s l (fun o s' l' => Q o s' l' /\ R o s' l').
Proof. intros H1 H2 w Es El. auto. Qed.

End Wp.

(** What a computation returns, whatever it did. *)
Definition returns {V A} (P : A -> Prop) (m : M V A) : Prop :=
  forall s l, wp m s l (fun o _ _ => match o with Done a => P a | _ => True end).

Lemma returns_bind {V A B} (P : A -> Prop) (m : M V B) (f : B -> M V A) :
  (forall b, returns P (f b)) -> returns P (bind m f).
Proof.
  intros H s l w Es El. unfold bind. destruct (m w) as [[b|e|] w']; [|done|done]. by apply (H b (w_store w') (w_sent w') w').
Qed.

Lemma returns_ret {V A} (P : A -> Prop) (a : A) : P a -> returns (V := V) P (ret a).
Proof. intros H s l. by apply wp_ret. Qed.

Lemma returns_fail {V A} (P : A -> Prop) e : returns (V := V) (A := A) P (fail e).
Proof. intros s l. by apply wp_fail. Qed.

Ltac returns_step :=
  lazymatch goal with
  | |- returns _ (bind _ _) => apply returns_bind; intros ?
  | |- returns _ (ret _) => apply returns_ret
  | |- returns _ (fail _) => apply returns_fail
  | |- returns _ (let '(_, _) := ?x in _) => destruct x
  | |- returns _ (if ?b then _ else _) => destruct b
  end.

Lemma wp_execute {V} f s l (Q : Out unit -> Store -> list (Message (Body V)) -> Prop) :
  Q (Done tt) (f s) l -> (forall why, Q (Err (Sqlite why)) s l) -> Q Dead s l -> Q Dead (f s) l ->
  wp (execute f) s l Q.
Proof. intros. apply (wp_call _ _ _ s l Q (f s) l); auto. by intros w <- <-. Qed.

Lemma wp_send {V} (m : Message (Body V)) s l (Q : Out unit -> Store -> list (Message (Body V)) -> Prop) :
  Q (Done tt) s (l ++ [m])%list -> (forall why, Q (Err (NodeError why)) s l) -> Q Dead s l ->
  Q Dead s (l ++ [m])%list -> wp (send m) s l Q.
Proof. intros. apply (wp_call _ _ _ s l Q s (l ++ [m])%list); auto. by intros w <- <-. Qed.

(** ** The plain secrets *)

Record Secret {V : Type} := mkSecret {
  x_metadata : VaultMetadata;
  x_version : Z;
  x_value : VaultError + V;
  x_previous : option ((VaultError + V) * Z);
  x_created : string;
  x_updated : string }.
Arguments Secret : clear implicits.
Arguments mkSecret {V}.

(** The changes there are. *)
Inductive Change {V : Type} :=
| CPut (key : string) (value : V) (m : VaultMetadata) (t : string)
| CAssign (key : string) (m : VaultMetadata) (t : string)
| CDelete (key : string)
| CRotate (key : string) (value : V) (t : string)
| CRollback (key : string) (t t' : string).
Arguments Change : clear implicits.

Section Spec.
Context {V : Type} `{EqDecision V} (E : VaultEnv V) (C : VaultConfig).

Definition change_key (ch : Change V) : string :=
  match ch with CPut k _ _ _ | CAssign k _ _ | CDelete k | CRotate k _ _ | CRollback k _ _ => k end.

Definition change_op (ch : Change V) : string :=
  match ch with
  | CPut _ _ _ _ => MSG_VAULT_PUT
  | CAssign _ _ _ => MSG_VAULT_ASSIGN
  | CDelete _ => MSG_VAULT_DELETE
  | CRotate _ _ _ => MSG_VAULT_ROTATE
  | CRollback _ _ _ => MSG_VAULT_ROLLBACK
  end.

Definition renew (x : Secret V) (m : VaultMetadata) (v : Z) (value : VaultError + V) (t : string) : Secret V :=
  mkSecret m v value (Some (x_value x, x_version x)) (x_created x) t.

Definition rolled_back (t t' : string) (x : Secret V) : Secret V :=
  match x_previous x with
  | Some (value, v) => renew x (set_updated_at t (x_metadata x)) v value t'
  | None => x
  end.

Definition reassigned (m : VaultMetadata) (t : string) (x : Secret V) : Secret V :=
  mkSecret m (x_version x) (x_value x) (x_previous x) (x_created x) t.

Definition apply_change (ch : Change V) (x : gmap string (Secret V)) : gmap string (Secret V) :=
  match ch with
  | CPut k value m t =>
    match x !! k with
    | Some o => <[k := renew o m (next_version (x_version o)) (inr value) t]> x
    | None => <[k := mkSecret m 1 (inr value) None t t]> x
    end
  | CAssign k m t => alter (reassigned m t) k x
  | CDelete k => delete k x
  | CRotate k value t =>
    alter (fun o => renew o (set_updated_at t (x_metadata o)) (next_version (x_version o)) (inr value) t) k x
  | CRollback k t t' => alter (rolled_back t t') k x
  end.

(** The sender of a message: the node the router names, and the ILK it claims, which its name gives
    (a system node) or identity registered for it. *)
Definition registered_as (around : Surroundings) (self : string) : option IdentityIlkOption :=
  match shm_ilks around with Some l => List.find (fun i => io_ilk_id i =s self) l | None => None end.

Definition bound (around : Surroundings) (name self : string) : Prop :=
  (starts_with name "SY." = true /\ deterministic_system_ilk_id E name = self)
  \/ exists i, registered_as around self = Some i /\ io_handler_node i = Some name.

Definition speaks_for (around : Surroundings) (m : Message V) (self : string) : Prop :=
  opt_trimmed (src_ilk (meta m)) = Some self
  /\ exists name, src_l2_name (routing m) = Some name /\ bound around name self.

Definition admin_asks (around : Surroundings) (m : Message V) (self : string) : Prop :=
  speaks_for around m self /\ self ∈ well_known_admin_ilks C.

Definition may_change (around : Surroundings) (m : Message V) (md : VaultMetadata) : Prop :=
  exists self, speaks_for around m self /\ (self ∈ well_known_admin_ilks C \/ secret_owner_ilk md = Some self).

Definition small (value : V) : Prop := Z.of_nat (String.length (to_vec E value)) <= MAX_SECRET_VALUE_BYTES.

(** The metadata a put writes over the ones there are. *)
Definition put_metadata (m : VaultMetadata) (old : option VaultMetadata) (self t : string) : VaultMetadata :=
  set_created (Some self)
    (match old with Some o => match created_at o with Some a => Some a | None => Some t end | None => Some t end)
    (set_updated_at t (keep_users m old)).

Definition in_tenant (x : Secret V) (tenant : string) : Prop := trim (tenant_id (x_metadata x)) = trim tenant.

(** The changes a message may make to [x]. *)
Inductive requested (around : Surroundings) (m : Message V) (x : gmap string (Secret V)) : Change V -> Prop :=
| requested_put r self t :
    action_of m = MSG_VAULT_PUT -> read_put E (msg_payload m) = inr r -> admin_asks around m self ->
    validate_key (pr_key r) = inr tt -> validate_metadata (pr_metadata r) = inr tt -> small (pr_value r) ->
    (forall o, x !! pr_key r = Some o -> in_tenant o (tenant_id (pr_metadata r)) /\ x_value o <> inr (pr_value r)) ->
    requested around m x
      (CPut (pr_key r) (pr_value r) (put_metadata (pr_metadata r) (option_map x_metadata (x !! pr_key r)) self t) t)
| requested_assign r self o t :
    action_of m = MSG_VAULT_ASSIGN -> read_assign E (msg_payload m) = inr r -> admin_asks around m self ->
    x !! ar_key r = Some o -> in_tenant o (ar_tenant_id r) ->
    validate_metadata (set_assigned_ilks (ilk_set (ar_assigned_ilks r)) (x_metadata o)) = inr tt ->
    requested around m x
      (CAssign (ar_key r) (set_updated_at t (set_assigned_ilks (ilk_set (ar_assigned_ilks r)) (x_metadata o))) t)
| requested_delete r o :
    action_of m = MSG_VAULT_DELETE -> read_scoped E (msg_payload m) = inr r ->
    x !! sk_key r = Some o -> in_tenant o (sk_tenant_id r) -> may_change around m (x_metadata o) ->
    requested around m x (CDelete (sk_key r))
| requested_rotate r o t :
    action_of m = MSG_VAULT_ROTATE -> read_rotate E (msg_payload m) = inr r ->
    x !! rr_key r = Some o -> in_tenant o (rr_tenant_id r) -> may_change around m (x_metadata o) ->
    small (rr_value r) ->
    requested around m x (CRotate (rr_key r) (rr_value r) t)
| requested_rollback r o previous t t' :
    action_of m = MSG_VAULT_ROLLBACK -> read_scoped E (msg_payload m) = inr r ->
    x !! sk_key r = Some o -> in_tenant o (sk_tenant_id r) -> may_change around m (x_metadata o) ->
    x_previous o = Some previous ->
    requested around m x (CRollback (sk_key r) t t').

(** ** The rows as plain secrets *)

Definition plain_previous (r : SecretRow) : option ((VaultError + V) * Z) :=
  match previous_nonce r, previous_ciphertext r, previous_version r with
  | Some n, Some ct, Some v => Some (decrypt_value E n ct, v)
  | _, _, _ => None
  end.

Definition plain_row (r : SecretRow) : Secret V :=
  mkSecret (metadata r) (version r) (decrypt_value E (current_nonce r) (current_ciphertext r)) (plain_previous r)
    (row_created_at r) (row_updated_at r).

Definition plain (s : Store) : gmap string (Secret V) := plain_row <$> secrets s.

(** A row of the audit log that records a change. *)
Definition is_change_row (r : AuditRow) : bool :=
  (au_result r =s "success")
  && str_mem (au_operation r)
       [MSG_VAULT_PUT; MSG_VAULT_ASSIGN; MSG_VAULT_DELETE; MSG_VAULT_ROTATE; MSG_VAULT_ROLLBACK].

(** Nothing changed that the plain secrets show, and the log records no change. *)
Definition quiet (s s' : Store) : Prop :=
  plain s' = plain s
  /\ exists rows, audit_log s' = (audit_log s ++ rows)%list /\ Forall (fun r => is_change_row r = false) rows.

(** One change that the message asked for, and its row. *)
Definition changed_by (around : Surroundings) (m : Message V) (s s' : Store) : Prop :=
  exists ch c t,
    requested around m (plain s) ch /\ resolve_caller E around m = inr c
    /\ plain s' = apply_change ch (plain s)
    /\ audit_log s' = (audit_log s ++ [mkAuditRow t (change_op ch) (Some (change_key ch)) c "success" None])%list.

End Spec.

(** What the cryptography and the JSON of a value are relied on for. *)
Class VaultLaws {V} (E : VaultEnv V) : Prop := {
  decrypt_encrypt n p ct : aes_encrypt E n p = Some ct -> aes_decrypt E n ct = Some p;
  nonce_length k : length (nonce E k) = 12%nat;
  value_json v : from_slice E (to_vec E v) = inr v }.

(** ** Lemmas *)

(** A step of a computation. *)
Ltac wp_step :=
  lazymatch goal with
  | |- wp (bind _ _) _ _ _ => apply wp_bind
  | |- wp (ret _) _ _ _ => apply wp_ret
  | |- wp (fail _) _ _ _ => apply wp_fail
  | |- wp (lift _) _ _ _ => apply wp_lift
  | |- wp (need _ _) _ _ _ => apply wp_need
  | |- wp (decode _) _ _ _ => apply wp_decode
  | |- wp (draw _) _ _ _ => apply wp_draw; intro
  | |- wp (attempt _) _ _ _ => apply wp_attempt
  end; cbv beta iota.

Lemma alter_as_insert {A} (g : A -> A) (k : string) (x : gmap string A) o :
  x !! k = Some o -> alter g k x = <[k := g o]> x.
Proof.
  intros H. apply map_eq. intros i. destruct (decide (i = k)) as [->|N].
  - by rewrite lookup_alter_eq, lookup_insert_eq, H.
  - by rewrite lookup_alter_ne, lookup_insert_ne by done.
Qed.

Section Lemmas.
Context {V : Type} `{EqDecision V} (E : VaultEnv V) (C : VaultConfig).
#[local] Abbreviation Sent := (list (Message (Body V))).

Lemma unchanged_refl s : quiet E s s.
Proof. split; [done|]. exists []. by rewrite app_nil_r. Qed.

Lemma unchanged_trans s s' s'' : quiet E s s' -> quiet E s' s'' -> quiet E s s''.
Proof.
  intros [P (rows & A & F)] [P' (rows' & A' & F')]. split; [congruence|].
  exists (rows ++ rows')%list. rewrite A', A, <- app_assoc, Forall_app. auto.
Qed.

Lemma quiet_audit r s : is_change_row r = false -> quiet E s (add_audit r s).
Proof. intros N. split; [done|]. exists [r]. auto. Qed.

Lemma plain_lookup s k r : secrets s !! k = Some r -> plain E s !! k = Some (plain_row E r).
Proof. intros H. unfold plain. by rewrite lookup_fmap, H. Qed.

Lemma plain_none s k : secrets s !! k = None -> plain E s !! k = None.
Proof. intros H. unfold plain. by rewrite lookup_fmap, H. Qed.

Lemma plain_alter s r0 f k r :
  secrets s !! k = Some r ->
  plain E (add_audit r0 (set_secrets (alter f k) s)) = <[k := plain_row E (f r)]> (plain E s).
Proof. intros H. unfold plain. cbn. by rewrite (alter_as_insert _ _ _ r H), fmap_insert. Qed.

Lemma wp_encrypt `{VaultLaws V E} v s l (Q : Out _ -> Store -> Sent -> Prop) :
  Q (Err Encryption) s l -> (forall n ct, decrypt_value E n ct = inr v -> Q (Done (n, ct)) s l) ->
  wp (encrypt_value E v) s l Q.
Proof.
  intros H1 H2. unfold encrypt_value. do 2 wp_step.
  destruct (aes_encrypt E _ _) as [ct|] eqn:Enc; wp_step; [|done]. apply H2. unfold decrypt_value.
  rewrite (bool_decide_eq_true_2 _ (nonce_length _)). cbn.
  by rewrite (decrypt_encrypt _ _ _ Enc), value_json.
Qed.

Lemma wp_audit op k c res ec s l (Q : Out _ -> Store -> Sent -> Prop) :
  (forall t, Q (Done tt) (add_audit (mkAuditRow t op k c res ec) s) l
             /\ Q Dead (add_audit (mkAuditRow t op k c res ec) s) l) ->
  (forall why, Q (Err (Sqlite why)) s l) -> Q Dead s l -> wp (audit E op k c res ec) s l Q.
Proof.
  intros H1 H2 H3. unfold audit, audit_row, now. do 4 wp_step. apply wp_execute; try done; apply H1.
Qed.

Lemma wp_audited_change op key c f s l (Q : Out _ -> Store -> Sent -> Prop) :
  (forall t, Q (Done tt) (add_audit (mkAuditRow t op (Some key) c "success" None) (set_secrets f s)) l
             /\ Q Dead (add_audit (mkAuditRow t op (Some key) c "success" None) (set_secrets f s)) l) ->
  (forall why, Q (Err (Sqlite why)) s l) -> Q Dead s l -> wp (audited_change E op key c f) s l Q.
Proof.
  intros H1 H2 H3. unfold audited_change, audit_row, now. do 4 wp_step. apply wp_execute; try done; apply H1.
Qed.

(** The payload of a notice is read off the metadata and the clock alone. *)
Lemma wp_payload op key m p v hive s l (Q : Out _ -> Store -> Sent -> Prop) :
  (forall o, Q (Done o) s l) -> wp (build_secret_changed_payload E op key m p v hive) s l Q.
Proof. intros H. unfold build_secret_changed_payload. destruct (resource_type m); repeat wp_step; auto. Qed.

Lemma wp_payload_of op key pre v hive s l (Q : Out _ -> Store -> Sent -> Prop) :
  (forall o, Q (Done o) s l) -> wp (payload_of E op key pre v hive) s l Q.
Proof. intros H. unfold payload_of. destruct pre; [by apply wp_payload | by wp_step]. Qed.

Lemma wp_size v s l (Q : Out _ -> Store -> Sent -> Prop) :
  (small E v -> Q (Done tt) s l) -> (forall e, Q (Err e) s l) -> wp (check_value_size E v) s l Q.
Proof. intros H1 H2. unfold check_value_size, small in *. case_bool_decide; wp_step; auto. apply H1. lia. Qed.

(** *** The caller *)

Lemma filter_nonempty_some o s : filter_nonempty o = Some s -> o = Some s.
Proof. destruct o as [s'|]; [|done]. cbn. by destruct (str_is_empty s'). Qed.

Lemma opt_str_is_iff o s : opt_str_is o s = true <-> o = Some s.
Proof.
  destruct o as [s'|]; cbn; [|done]. rewrite String.eqb_eq. split; [by intros ->|congruence].
Qed.

Lemma check_caller_binding_bound around name self :
  check_caller_binding E name self (registered_as around self) = inr tt ->
  exists n, name = Some n /\ bound E around n self.
Proof.
  unfold check_caller_binding. destruct name as [n|]; [|done]. exists n. split; [done|].
  destruct (starts_with n "SY." && _) eqn:Sy.
  - apply andb_true_iff in Sy as [P D]. left. by apply String.eqb_eq in D.
  - destruct (registered_as around self) as [i|] eqn:R; [|done].
    destruct (opt_str_is (io_handler_node i) n) eqn:O; [|done]. right. exists i. by apply opt_str_is_iff in O.
Qed.

Lemma resolved_caller around m c :
  resolve_caller E around m = inr c ->
  (ilk_id c = None /\ c_tenant_id c = None /\ ilk_type c = None)
  \/ exists self name, c = mkCaller (Some name) (Some self) (option_map io_tenant_id (registered_as around self))
                             (option_map io_ilk_type (registered_as around self))
                       /\ opt_trimmed (src_ilk (meta m)) = Some self
                       /\ src_l2_name (routing m) = Some name /\ bound E around name self.
Proof.
  unfold resolve_caller. destruct (opt_trimmed (src_ilk (meta m))) as [self|]; [|by intros [= <-]; left].
  fold (registered_as around self). destruct (check_caller_binding E _ _ _) as [|[]] eqn:B; [done|].
  apply check_caller_binding_bound in B as (name & F & B). rewrite F. intros [= <-]. right.
  exists self, name. by apply filter_nonempty_some in F.
Qed.

Lemma resolved_speaks around m c self :
  resolve_caller E around m = inr c -> ilk_id c = Some self -> speaks_for E around m self.
Proof.
  intros R I. destruct (resolved_caller _ _ _ R) as [(N & _)|(self' & name & -> & O & L & B)]; [congruence|].
  injection I as <-. split; [done|]. by exists name.
Qed.

Lemma resolved_admin around m c :
  resolve_caller E around m = inr c -> is_well_known_admin c (well_known_admin_ilks C) = true ->
  exists self, ilk_id c = Some self /\ admin_asks E C around m self.
Proof.
  unfold is_well_known_admin. intros R A. destruct (ilk_id c) as [self|] eqn:I; [|done].
  exists self. split; [done|]. split; [by apply (resolved_speaks around m c)|]. by apply str_mem_iff.
Qed.

Lemma resolved_may_change around m c md :
  resolve_caller E around m = inr c -> authorize_change c (well_known_admin_ilks C) (Some md) = inr tt ->
  may_change E C around m md.
Proof.
  unfold authorize_change. intros R A. destruct (is_well_known_admin c _) eqn:W.
  - destruct (resolved_admin _ _ _ R W) as (self & _ & Sp & In). exists self. auto.
  - destruct (secret_owner_ilk md) as [o|] eqn:O; [|done]. destruct (ilk_id c) as [self|] eqn:I; [|done].
    destruct (String.eqb_spec o self) as [->|_]; [|done]. exists self.
    split; [by apply (resolved_speaks around m c)|]. by right.
Qed.

End Lemmas.

(** ** The handlers *)

Section Handlers.
Context {V : Type} `{EqDecision V} (E : VaultEnv V) (C : VaultConfig) `{VaultLaws V E}.
Context (around : Surroundings) (m : Message V) (c : Caller) (R : resolve_caller E around m = inr c).
#[local] Abbreviation Sent := (list (Message (Body V))).

(** Nothing is sent, an error leaves the secrets as they were, and otherwise there is at most one change,
    which the message asked for. *)
Definition safely {A} (s : Store) (l : Sent) (o : Out A) (s' : Store) (l' : Sent) : Prop :=
  l' = l /\ match o with Err _ => quiet E s s' | _ => quiet E s s' \/ changed_by E C around m s s' end.

Lemma safely_quiet {A} s l (o : Out A) : safely s l o s l.
Proof. split; [done|]. destruct o; auto using unchanged_refl. Qed.

Lemma safely_audit {A} r s l (o : Out A) : is_change_row r = false -> safely s l o (add_audit r s) l.
Proof. intros N. split; [done|]. destruct o; auto using quiet_audit. Qed.

Lemma safely_change s l ch t s' :
  requested E C around m (plain E s) ch -> plain E s' = apply_change ch (plain E s) ->
  audit_log s' = (audit_log s ++ [mkAuditRow t (change_op ch) (Some (change_key ch)) c "success" None])%list ->
  (forall {A} (a : A), safely s l (Done a) s' l) /\ (forall A, @safely A s l Dead s' l).
Proof. intros Rq P A. split; intros; (split; [done|]; right; by exists ch, c, t). Qed.

Lemma not_change_row t op k res ec : res <> "success" -> is_change_row (mkAuditRow t op k c res ec) = false.
Proof. intros N. unfold is_change_row. cbn. by destruct (String.eqb_spec res "success"). Qed.

Hint Resolve safely_quiet : core.

(** The checks a change of a stored key begins with. *)
Lemma wp_admitted {A B} (rd : string + A) (k tn : A -> string) (f : A -> option SecretRow -> M V B) s l
  (Q : Out B -> Store -> Sent -> Prop) :
  (forall e, Q (Err e) s l) -> Q Dead s l ->
  (forall r row, rd = inr r -> secrets s !! k r = Some row ->
     in_tenant (plain_row E row) (tn r) -> may_change E C around m (metadata row) ->
     wp (f r (Some row)) s l Q) ->
  (forall r, rd = inr r -> secrets s !! k r = None -> wp (f r None) s l Q) ->
  wp (r <- decode rd ;;
      lift (validate_key (k r)) ;;;
      tenant <- lift (validate_request_tenant (tn r)) ;;
      record <- get_record (k r) ;;
      lift (ensure_in_tenant (metadata_of record) tenant) ;;;
      lift (authorize_change c (well_known_admin_ilks C) (metadata_of record)) ;;;
      f r record) s l Q.
Proof.
  intros He Hd H1 H2. do 2 wp_step. destruct rd as [|r]; [done|]. do 2 wp_step.
  destruct (validate_key (k r)); [done|]. do 2 wp_step.
  destruct (validate_request_tenant (tn r)) as [|tenant] eqn:T; [done|]. wp_step. apply wp_query; [|done|done].
  do 2 wp_step. destruct (ensure_in_tenant _ tenant) as [|[]] eqn:I; [done|]. do 2 wp_step.
  destruct (authorize_change _ _ _) as [|[]] eqn:A'; [done|].
  destruct (secrets s !! k r) as [row|] eqn:L; [|by apply H2]. apply H1; try done.
  - unfold validate_request_tenant in T. destruct (negb _) in T; [done|]. injection T as <-. cbn in I.
    unfold in_tenant. cbn. destruct (String.eqb_spec (trim (tenant_id (metadata row))) (trim (tn r))); [done|].
    done.
  - by apply (resolved_may_change E C around m c).
Qed.

Lemma handle_delete_safely s l :
  action_of m = MSG_VAULT_DELETE ->
  wp (handle_delete E m c (well_known_admin_ilks C) (hive_id C)) s l (safely s l).
Proof.
  intros A. unfold handle_delete.
  apply (wp_admitted _ sk_key sk_tenant_id (fun r record =>
    delete_secret E (sk_key r) c ;;;
    p <- payload_of E OpDelete (sk_key r) (metadata_of record) 0 (hive_id C) ;;
    ret (mkOutcome (Deleted (sk_key r)) p (owner_of (metadata_of record))))); [done|done|..].
  - intros r row Rd L T MC. wp_step. unfold delete_secret. wp_step. apply wp_query; [|done|done].
    do 2 wp_step. rewrite L. apply wp_audited_change; [|done|done]. intros t.
    destruct (safely_change s l (CDelete (sk_key r)) t (add_audit
      (mkAuditRow t MSG_VAULT_DELETE (Some (sk_key r)) c "success" None) (set_secrets (delete (sk_key r)) s)))
      as [D1 D2]; [|unfold plain; cbn; by rewrite fmap_delete|done|].
    { apply (requested_delete _ _ _ _ _ r (plain_row E row)); try done. by apply plain_lookup. }
    split; [|apply D2]. wp_step. apply wp_payload_of. intros o. wp_step. apply D1.
  - intros r Rd L. wp_step. unfold delete_secret. wp_step. apply wp_query; [|done|done]. do 2 wp_step. by rewrite L.
Qed.

Lemma handle_rotate_safely s l :
  action_of m = MSG_VAULT_ROTATE ->
  wp (handle_rotate E m c (well_known_admin_ilks C) (hive_id C)) s l (safely s l).
Proof.
  intros A. unfold handle_rotate.
  apply (wp_admitted _ rr_key rr_tenant_id (fun r record =>
    check_value_size E (rr_value r) ;;;
    result <- rotate E (rr_key r) (rr_value r) c ;;
    let '(rotated_at, current_version, previous_version) := result in
    p <- payload_of E OpRotate (rr_key r) (metadata_of record) current_version (hive_id C) ;;
    ret (mkOutcome (Rotated (rr_key r) rotated_at current_version previous_version) p
           (owner_of (metadata_of record))))); [done|done|..].
  - intros r row Rd L T MC. wp_step. apply wp_size; [|done]. intros Sm. wp_step. unfold rotate. wp_step.
    apply wp_query; [|done|done]. do 2 wp_step. rewrite L. unfold now. do 3 wp_step.
    apply wp_encrypt; [exact _|done|]. intros n ct D. wp_step. apply wp_audited_change; [|done|done]. intros t.
    match goal with |- context [add_audit ?a (set_secrets ?f s)] =>
      destruct (safely_change s l (CRotate (rr_key r) (rr_value r) (clock E k)) t (add_audit a (set_secrets f s)))
        as [D1 D2] end; [| |done|].
    { apply (requested_rotate _ _ _ _ _ r (plain_row E row)); try done. by apply plain_lookup. }
    { rewrite (plain_alter E _ _ _ _ _ L). cbn. rewrite (alter_as_insert _ _ _ _ (plain_lookup E _ _ _ L)).
      unfold plain_row, renew. cbn. by rewrite D. }
    split; [|apply D2]. do 3 wp_step. apply wp_bind, wp_payload_of. intros o. wp_step. apply D1.
  - intros r Rd L. wp_step. apply wp_size; [|done]. intros _. wp_step. unfold rotate. wp_step.
    apply wp_query; [|done|done]. do 2 wp_step. by rewrite L.
Qed.

Lemma handle_rollback_safely s l :
  action_of m = MSG_VAULT_ROLLBACK ->
  wp (handle_rollback E m c (well_known_admin_ilks C) (hive_id C)) s l (safely s l).
Proof.
  intros A. unfold handle_rollback.
  apply (wp_admitted _ sk_key sk_tenant_id (fun r record =>
    result <- rollback E (sk_key r) c ;;
    let '(current_version, previous_version) := result in
    p <- payload_of E OpRollback (sk_key r) (metadata_of record) current_version (hive_id C) ;;
    ret (mkOutcome (RolledBack (sk_key r) current_version previous_version) p (owner_of (metadata_of record))))); [done|done|..].
  - intros r row Rd L T MC. wp_step. unfold rollback. wp_step. apply wp_query; [|done|done]. do 2 wp_step. rewrite L.
    do 2 wp_step. destruct (previous_nonce row) as [n|] eqn:Pn; [|done]. do 2 wp_step.
    destruct (previous_ciphertext row) as [ct|] eqn:Pc; [|done]. do 2 wp_step.
    destruct (previous_version row) as [v|] eqn:Pv; [|done]. unfold now. do 5 wp_step.
    assert (P : plain_previous E row = Some (decrypt_value E n ct, v)).
    { unfold plain_previous. by rewrite Pn, Pc, Pv. }
    apply wp_audited_change; [|done|done]. intros t.
    match goal with |- context [add_audit ?a (set_secrets ?f s)] =>
      destruct (safely_change s l (CRollback (sk_key r) (clock E k) (clock E k0)) t (add_audit a (set_secrets f s)))
        as [D1 D2] end; [| |done|].
    { apply (requested_rollback _ _ _ _ _ r (plain_row E row) (decrypt_value E n ct, v)); try done.
      by apply plain_lookup. }
    { rewrite (plain_alter E _ _ _ _ _ L). cbn. rewrite (alter_as_insert _ _ _ _ (plain_lookup E _ _ _ L)).
      unfold rolled_back. cbn. by rewrite P. }
    split; [|apply D2]. do 2 wp_step. apply wp_payload_of. intros o. wp_step. apply D1.
  - intros r Rd L. wp_step. unfold rollback. wp_step. apply wp_query; [|done|done]. do 2 wp_step. by rewrite L.
Qed.

(** [VaultStore::put], of metadata that keep the users. *)
Lemma put_safely {B} r self s l (f : Z * bool -> M V B) :
  action_of m = MSG_VAULT_PUT -> read_put E (msg_payload m) = inr r -> ilk_id c = Some self ->
  admin_asks E C around m self -> validate_key (pr_key r) = inr tt -> validate_metadata (pr_metadata r) = inr tt ->
  small E (pr_value r) ->
  (forall res s', safely s l (Done res) s' l -> wp (f res) s' l (safely s l)) ->
  wp (res <- put E (pr_key r) (pr_value r) (keep_users (pr_metadata r) (metadata_of (secrets s !! pr_key r))) c ;;
      f res) s l (safely s l).
Proof.
  intros A Rd I Ad K Md Sm Hf. wp_step. unfold put, now. do 2 wp_step. wp_step. apply wp_query; [|done|done].
  assert (keeps : forall old, tenant_id (keep_users (pr_metadata r) old) = tenant_id (pr_metadata r)).
  { intros [o|]; [|done]. cbn. by destruct (negb _ && _). }
  destruct (secrets s !! pr_key r) as [row|] eqn:L; cbn [metadata_of option_map].
  - destruct (negb (trim _ =s trim _)) eqn:T; [by wp_step|]. cbn [tenant_id set_updated_at set_created] in T.
    rewrite keeps in T. apply negb_false_iff, String.eqb_eq in T. do 2 wp_step.
    destruct (decrypt_value E _ _) as [|cur] eqn:D; [done|]. case_bool_decide as Eq.
    { wp_step. apply wp_audit; [|done|done]. intros t. split; [wp_step; apply Hf|];
        apply safely_audit; by apply not_change_row. }
    wp_step. apply wp_encrypt; [exact _|done|]. intros n ct D'. wp_step. apply wp_audited_change; [|done|done].
    intros t. match goal with |- context [add_audit ?a (set_secrets ?f s)] =>
      destruct (safely_change s l (CPut (pr_key r) (pr_value r)
        (put_metadata (pr_metadata r) (Some (metadata row)) self (clock E k)) (clock E k)) t
        (add_audit a (set_secrets f s))) as [D1 D2] end; [| |done|].
    { pose proof (requested_put E C around m (plain E s) r self (clock E k)) as Rq.
      rewrite (plain_lookup E _ _ _ L) in Rq. apply Rq; try done. intros o [= <-]. split; [done|]. cbn.
      rewrite D. congruence. }
    { rewrite (plain_alter E _ _ _ _ _ L). cbn. rewrite (plain_lookup E _ _ _ L). unfold plain_row, renew. cbn.
      by rewrite D', I. }
    split; [|apply D2]. wp_step. apply Hf, D1.
  - wp_step. apply wp_encrypt; [exact _|done|]. intros n ct D'. wp_step. apply wp_audited_change; [|done|done].
    intros t. match goal with |- context [add_audit ?a (set_secrets ?f s)] =>
      destruct (safely_change s l (CPut (pr_key r) (pr_value r)
        (put_metadata (pr_metadata r) None self (clock E k)) (clock E k)) t
        (add_audit a (set_secrets f s))) as [D1 D2] end; [| |done|].
    { pose proof (requested_put E C around m (plain E s) r self (clock E k)) as Rq.
      rewrite (plain_none E _ _ L) in Rq. by apply Rq. }
    { cbn. rewrite (plain_none E _ _ L). unfold plain. cbn. rewrite fmap_insert. unfold plain_row at 1. cbn.
      by rewrite D', I. }
    split; [|apply D2]. wp_step. apply Hf, D1.
Qed.

Lemma handle_put_safely s l :
  action_of m = MSG_VAULT_PUT ->
  wp (handle_put E m c (well_known_admin_ilks C) (hive_id C)) s l (safely s l).
Proof.
  intros A. unfold handle_put. destruct (is_well_known_admin c _) eqn:W; cbn [negb]; [|by wp_step].
  destruct (resolved_admin E C _ _ _ R W) as (self & I & Ad). do 2 wp_step.
  destruct (read_put E _) as [|r] eqn:Rd; [done|]. do 2 wp_step.
  destruct (validate_key _) as [|[]] eqn:K; [done|]. do 2 wp_step.
  destruct (validate_metadata _) as [|[]] eqn:Md; [done|]. wp_step. apply wp_size; [|done]. intros Sm. wp_step.
  apply wp_query; [|done|done]. apply (put_safely r self); try done. intros [v changed] s' Sf. wp_step.
  destruct changed; [apply wp_payload; intros o|wp_step]; by wp_step.
Qed.

Lemma handle_assign_safely s l :
  action_of m = MSG_VAULT_ASSIGN ->
  wp (handle_assign E m c (well_known_admin_ilks C) (hive_id C)) s l (safely s l).
Proof.
  intros A. unfold handle_assign. destruct (is_well_known_admin c _) eqn:W; cbn [negb]; [|by wp_step].
  destruct (resolved_admin E C _ _ _ R W) as (self & I & Ad). do 2 wp_step.
  destruct (read_assign E _) as [|r] eqn:Rd; [done|]. do 2 wp_step.
  destruct (validate_key _) as [|[]] eqn:K; [done|]. do 2 wp_step.
  destruct (validate_request_tenant _) as [|tenant] eqn:T; [done|]. wp_step. apply wp_query; [|done|done]. do 2 wp_step.
  destruct (ensure_in_tenant _ tenant) as [|[]] eqn:In; [done|]. do 2 wp_step.
  destruct (secrets s !! ar_key r) as [row|] eqn:L; cbn [metadata_of option_map]; [|done]. do 2 wp_step.
  destruct (validate_metadata _) as [|[]] eqn:Md; [done|]. wp_step. unfold set_assigned. wp_step.
  apply wp_query; [|done|done]. do 2 wp_step. rewrite L. case_bool_decide as Eq.
  { wp_step. apply wp_audit; [|done|done]. intros t. split; [do 4 wp_step|];
      apply safely_audit; by apply not_change_row. }
  unfold now. do 3 wp_step. apply wp_audited_change; [|done|done]. intros t.
  match goal with |- context [add_audit ?a (set_secrets ?f s)] =>
    destruct (safely_change s l (CAssign (ar_key r) (set_updated_at (clock E k)
      (set_assigned_ilks (ilk_set (ar_assigned_ilks r)) (metadata row))) (clock E k)) t
      (add_audit a (set_secrets f s))) as [D1 D2] end; [| |done|].
  { apply (requested_assign E C around m _ r self (plain_row E row)); try done; [by apply plain_lookup|].
    unfold validate_request_tenant in T. destruct (negb _) in T; [done|]. injection T as <-. cbn in In.
    unfold in_tenant. cbn. by destruct (String.eqb_spec (trim (tenant_id (metadata row))) (trim (ar_tenant_id r))). }
  { rewrite (plain_alter E _ _ _ _ _ L). cbn. by rewrite (alter_as_insert _ _ _ _ (plain_lookup E _ _ _ L)). }
  split; [|apply D2]. do 2 wp_step. apply wp_payload. intros o. wp_step. apply D1.
Qed.

(** A value in an answer is the one stored, and the caller may read it. *)
Definition reads (s : Store) (key : string) (v : V) : Prop :=
  action_of m = MSG_VAULT_GET /\ request_key E m = Some key
  /\ exists row, secrets s !! key = Some row
       /\ decrypt_value E (current_nonce row) (current_ciphertext row) = inr v
       /\ authorize_read E c (metadata row) (well_known_system_ilks C) = inr tt
       /\ ensure_tenant_active E around (tenant_id (metadata row)) = inr tt.

Definition body_value (b : Body V) : option (string * V) :=
  match b with GotSecret key _ _ _ _ (Some v) => Some (key, v) | _ => None end.

Lemma plain_touched s k t :
  plain E (set_secrets (alter (accessed t) k) s) = plain E s.
Proof.
  unfold plain. cbn. destruct (secrets s !! k) as [row|] eqn:L.
  - rewrite (alter_as_insert _ _ _ _ L), fmap_insert. apply insert_id. by rewrite lookup_fmap, L.
  - apply map_eq. intros i. rewrite !lookup_fmap. destruct (decide (i = k)) as [->|N].
    + by rewrite lookup_alter_eq, L.
    + by rewrite lookup_alter_ne.
Qed.

Lemma quiet_touched s k t : quiet E s (set_secrets (alter (accessed t) k) s).
Proof. split; [apply plain_touched|]. exists []. cbn. by rewrite app_nil_r. Qed.

Definition get_safely (s : Store) (l : Sent) (o : Out (Body V)) (s' : Store) (l' : Sent) : Prop :=
  l' = l /\ quiet E s s'
  /\ forall b key v, o = Done b -> body_value b = Some (key, v) -> reads s key v.

Lemma handle_get_safely (iv : bool) s l :
  action_of m = (if iv then MSG_VAULT_GET else MSG_VAULT_GET_METADATA) ->
  wp (handle_get E around m c (well_known_system_ilks C) iv) s l (get_safely s l).
Proof.
  intros A. assert (stops : forall s' (o : Out (Body V)), quiet E s s' -> (forall b, o <> Done b) ->
    get_safely s l o s' l) by (intros s' o Q N; split; [done|]; split; [done|]; intros; by destruct (N b)).
  assert (Q0 := unchanged_refl E s). unfold handle_get, request_key_required. do 2 wp_step.
  destruct (filter_nonempty (request_key E m)) as [key|] eqn:K; [|by apply stops].
  apply filter_nonempty_some in K. do 2 wp_step. destruct (validate_key key); [by apply stops|]. wp_step.
  apply wp_query; [|intros; by apply stops|by apply stops]. do 2 wp_step.
  destruct (secrets s !! key) as [row|] eqn:L; [|by apply stops].
  assert (row_audit : forall t op s', quiet E s s' -> op = MSG_VAULT_GET \/ op = MSG_VAULT_GET_METADATA ->
    quiet E s (add_audit (mkAuditRow t op (Some key) c "success" None) s')).
  { intros t op s' Q Op. apply (unchanged_trans E _ s'); [done|]. apply quiet_audit. by destruct Op as [->| ->]. }
  destruct iv.
  - do 3 wp_step. destruct (authorize_read E c _ _) as [|[]] eqn:Au; [by apply stops|]. wp_step.
    destruct (ensure_tenant_active E around _) as [|[]] eqn:Te; [by apply stops|]. do 3 wp_step.
    destruct (decrypt_value E _ _) as [|v] eqn:D; [by apply stops|]. unfold mark_accessed, now. do 3 wp_step.
    pose proof (quiet_touched s key (clock E k)) as Qt.
    apply wp_execute; [|intros; by apply stops|by apply stops|by apply stops]. do 2 wp_step.
    apply wp_audit; [|intros; by apply stops|by apply stops]. intros t. split; [wp_step|apply stops; auto].
    split; [done|]. split; [auto|]. intros b key' v' [= <-] [= <- <-]. split; [done|]. split; [done|]. by exists row.
  - do 5 wp_step. apply wp_audit; [|intros; by apply stops|by apply stops].
    intros t. split; [wp_step|apply stops; auto]. split; [done|]. split; [auto|]. by intros b key' v' [= <-].
Qed.

Lemma handle_list_safely s l : action_of m = MSG_VAULT_LIST -> wp (handle_list E m c) s l (get_safely s l).
Proof.
  intros A. assert (stops : forall (o : Out (Body V)), (forall b, o <> Done b) -> get_safely s l o s l)
    by (intros o N; split; [done|]; split; [apply unchanged_refl|]; intros; by destruct (N b)).
  unfold handle_list. do 2 wp_step. destruct (read_list E _) as [|f]; [by apply stops|]. wp_step.
  apply wp_query; [|intros; by apply stops|by apply stops]. wp_step.
  apply wp_audit; [|intros; by apply stops|by apply stops].
  assert (Q : forall t, quiet E s (add_audit (mkAuditRow t MSG_VAULT_LIST None c "success" None) s))
    by (intros t; by apply quiet_audit).
  intros t. split; [wp_step|]; (split; [done|]; split; [auto|]); [by intros b key v [= <-]|done].
Qed.

(** What a dispatched message comes to. *)
Definition dispatched (s : Store) (l : Sent) (o : Out (HandlerOutcome (V := V))) (s' : Store) (l' : Sent) : Prop :=
  safely s l o s' l'
  /\ match o with
     | Done out => forall key v, body_value (response out) = Some (key, v) -> reads s key v
     | _ => True
     end.

Lemma dispatched_change (h : M V (HandlerOutcome (V := V))) s l :
  wp h s l (safely s l) -> returns (fun out => body_value (response out) = None) h -> wp h s l (dispatched s l).
Proof.
  intros H1 H2. eapply wp_mono; [apply (wp_and _ _ _ _ _ H1 (H2 s l))|].
  intros o s' l' [Sf N]. split; [done|]. destruct o; [|done|done]. intros key v B. by rewrite N in B.
Qed.

Lemma dispatched_get (h : M V (Body V)) s l :
  wp h s l (get_safely s l) -> wp (b <- h ;; ret (response_only b)) s l (dispatched s l).
Proof.
  intros Hg. wp_step. eapply wp_mono; [apply Hg|]. intros o s' l' (-> & Q & Rd).
  destruct o as [b|e|]; [wp_step|..]; (split; [split; auto|]); try done. intros key v B. by apply (Rd b).
Qed.

Lemma dispatch_ok s l : wp (dispatch E C around m c) s l (dispatched s l).
Proof.
  unfold dispatch.
  repeat match goal with |- wp (if ?a =s ?b then _ else _) _ _ _ => destruct (String.eqb_spec a b) end.
  - apply dispatched_change; [by apply handle_put_safely|]. unfold handle_put. by repeat returns_step.
  - apply dispatched_get. by apply (handle_get_safely true).
  - apply dispatched_get. by apply (handle_get_safely false).
  - apply dispatched_get. by apply handle_list_safely.
  - apply dispatched_change; [by apply handle_delete_safely|]. unfold handle_delete. by repeat returns_step.
  - apply dispatched_change; [by apply handle_rotate_safely|]. unfold handle_rotate. by repeat returns_step.
  - apply dispatched_change; [by apply handle_rollback_safely|]. unfold handle_rollback. by repeat returns_step.
  - apply dispatched_change; [by apply handle_assign_safely|]. unfold handle_assign. by repeat returns_step.
  - wp_step. split; [by apply safely_quiet|done].
Qed.

End Handlers.

(** ** A message *)

Section Turn.
Context {V : Type} `{EqDecision V} (E : VaultEnv V) (C : VaultConfig) `{VaultLaws V E}.
#[local] Abbreviation Sent := (list (Message (Body V))).

(** What was sent is kept, and what was sent since satisfies [P]. *)
Definition extends (P : Message (Body V) -> Prop) (l l' : Sent) : Prop := exists new, l' = (l ++ new)%list /\ Forall P new.

Lemma extends_refl P l : extends P l l.
Proof. exists []. by rewrite app_nil_r. Qed.

Lemma extends_one (P : Message (Body V) -> Prop) l n : P n -> extends P l (l ++ [n])%list.
Proof. intros. exists [n]. auto. Qed.

Lemma sent_trans P l l' l'' : extends P l l' -> extends P l' l'' -> extends P l l''.
Proof.
  intros (new & -> & F) (new' & -> & F'). exists (new ++ new')%list. by rewrite <- app_assoc, Forall_app.
Qed.

Hint Resolve extends_refl extends_one unchanged_refl : core.

Definition no_value (n : Message (Body V)) : Prop := body_value (msg_payload n) = None.

Lemma send_extends (P : Message (Body V) -> Prop) n s l :
  P n -> wp (send n) s l (fun _ s' l' => s' = s /\ extends P l l').
Proof. intros Pn. apply wp_send; auto. Qed.

Lemma send_each_ok P ns s l : Forall P ns -> wp (send_each ns) s l (fun _ s' l' => s' = s /\ extends P l l').
Proof.
  intros F. revert l. induction F as [|n ns Pn F IH]; intros l; cbn [send_each]; [by wp_step; auto|].
  do 2 wp_step. eapply wp_mono; [by apply (send_extends P)|]. intros o s' l' [-> X].
  destruct o; [| |by auto]; (eapply wp_mono; [apply IH|]; intros o' s' l'' [-> X']; eauto using sent_trans).
Qed.

Lemma notices_ok u i b p ow edges s l (Q : Out _ -> Store -> Sent -> Prop) :
  (forall ns, Forall no_value ns -> Q (Done ns) s l) ->
  wp (secret_changed_notices E u i b p ow edges) s l Q.
Proof.
  intros Hq. unfold secret_changed_notices. do 2 wp_step.
  destruct (edge_owner ow edges); repeat wp_step; apply Hq; by repeat constructor.
Qed.

Context (around : Surroundings) (m : Message V).

(** What is sent: a value goes back to the sender of the request, who may read it. *)
Definition rightful (s : Store) (n : Message (Body V)) : Prop :=
  forall key v, body_value (msg_payload n) = Some (key, v) ->
    dst (routing n) = Unicast (src (routing m)) /\ trace_id (routing n) = trace_id (routing m)
    /\ exists c, resolve_caller E around m = inr c /\ reads E C around m c s key v.

Definition turn (s : Store) (l : Sent) (s' : Store) (l' : Sent) : Prop :=
  (quiet E s s' \/ changed_by E C around m s s') /\ extends (rightful s) l l'.

Lemma no_value_rightful s n : no_value n -> rightful s n.
Proof. intros N key v B. unfold no_value in N. congruence. Qed.

Lemma extends_no_value s l l' : extends no_value l l' -> extends (rightful s) l l'.
Proof. intros (new & -> & F). exists new. split; [done|]. eapply Forall_impl; [exact F|]. apply no_value_rightful. Qed.

Lemma refused c e s l :
  wp (audit_refusal E m c e) s l (fun o s' l' => l' = l /\ quiet E s s' /\ forall e', o <> Err e').
Proof.
  unfold audit_refusal. do 2 wp_step. apply wp_audit; [|intros; by wp_step; auto|by auto].
  assert (Q : forall t, quiet E s (add_audit
    (mkAuditRow t (action_of m) (request_key E m) c (audit_result_for_error e) (Some (code e))) s)).
  { intros t. apply quiet_audit, not_change_row. by destruct e. }
  intros t. split; [wp_step|]; auto.
Qed.

Lemma answer_error_ok a e s0 s l :
  wp (send_system_response C m a (error_payload e)) s l (fun _ s' l' => s' = s /\ extends (rightful s0) l l').
Proof. by apply send_extends. Qed.

Lemma handle_vault_message_ok s l : wp (handle_vault_message E C around m) s l (fun _ => turn s l).
Proof.
  unfold handle_vault_message. destruct (resolve_caller E around m) as [e|c] eqn:R.
  { wp_step. eapply wp_mono; [apply refused|]. intros o s' l' (-> & Q & N).
    destruct o as [|e'|]; [|by destruct (N e')|by split; auto].
    eapply wp_mono; [apply (answer_error_ok _ _ s)|]. intros o s'' l'' [-> X]. split; auto. }
  do 2 wp_step. eapply wp_mono; [apply (dispatch_ok E C around m c R)|]. intros o s' l' [[-> Sf] Rd].
  destruct o as [out|e|]; [..|by split; auto].
  - do 2 wp_step. wp_step. eapply wp_mono; [apply (send_extends (rightful s))|].
    { intros key v B. split; [done|]. split; [done|]. exists c. auto. }
    intros o s'' l'' [-> X]. destruct o; [|by split; auto|by split; auto].
    destruct (broadcast out) as [p|]; [|by wp_step; split; auto]. wp_step. apply notices_ok. intros ns F.
    eapply wp_mono; [by apply (send_each_ok no_value)|]. intros o s'' l3 [-> X']. split; [done|].
    eauto using sent_trans, extends_no_value.
  - do 2 wp_step. eapply wp_mono; [apply refused|]. intros o s'' l'' (-> & Q & N).
    assert (Q' := unchanged_trans E _ _ _ Sf Q). destruct o as [|e'|]; [|by destruct (N e')|by split; auto].
    do 2 wp_step. eapply wp_mono; [apply (answer_error_ok _ _ s)|]. intros o s3 l3 [-> X].
    destruct o; [cbn [broadcast response_only]; wp_step|..]; split; auto.
Qed.

Lemma on_message_ok s l : wp (on_message E C around m) s l (fun _ => turn s l).
Proof.
  assert (T0 : forall l', extends no_value l l' -> turn s l s l').
  { intros l' X. split; [by left|]. by apply extends_no_value. }
  unfold on_message, try_handle_default_node_status. wp_step.
  destruct (negb _ || negb _) eqn:St; [|destruct (negb (status_handler_enabled C))].
  3: { wp_step. eapply wp_mono; [by apply (send_extends no_value)|]. intros o s' l' [-> X].
       destruct o; [do 2 wp_step|..]; auto. }
  all: wp_step; destruct (negb (is_system_kind _)); [by wp_step; auto|];
    (destruct (negb (str_mem _ _)); [by wp_step; auto|]); do 2 wp_step;
    (eapply wp_mono; [apply handle_vault_message_ok|]); intros o s' l' T; (destruct o; [by wp_step| |done]);
    do 2 wp_step; (eapply wp_mono; [apply (answer_error_ok _ _ s)|]); intros o s'' l'' [-> X];
    destruct T as [T X0]; destruct o; try wp_step; split; eauto using sent_trans.
Qed.

End Turn.
