(* ===== verification/VaultRuns.v ===== *)
(** * SY.vault: runs

    What holds over a whole run of the vault, from its start through the messages it served to its end
    or its death at any call: the plain secrets evolve by requested changes only, each recorded in the
    audit log; a restricted secret stays restricted; a value goes only to a node that may read it. *)

From Stdlib Require Import ZArith Lia Ascii String Strings.Byte.
From stdpp Require Import base list strings gmap.
From S2P Require Import Prelude Effects Protocol Gates Vault VaultSafety.
Open Scope Z_scope.
Open Scope string_scope.
Open Scope rust_scope.
#[local] Open Scope effect_scope.

(** ** How the plain secrets evolve *)

Section Evolution.
Context {V : Type} `{EqDecision V} (E : VaultEnv V) (C : VaultConfig).

(** The plain secrets, and the changes the audit log records. *)
Definition SpecState : Type := gmap string (Secret V) * list AuditRow.

Definition spec_state (s : Store) : SpecState := (plain E s, List.filter is_change_row (audit_log s)).

Definition change_record (ch : Change V) (c : Caller) (t : string) : AuditRow :=
  mkAuditRow t (change_op ch) (Some (change_key ch)) c "success" None.

(** Each message makes at most one change, that it may ask for and that is recorded in its sender's
    name; a run may end at any point. *)
Inductive evolves : list (Surroundings * Message V) -> SpecState -> SpecState -> Prop :=
| evolves_end msgs x : evolves msgs x x
| evolves_quiet around m rest x y : evolves rest x y -> evolves ((around, m) :: rest) x y
| evolves_change around m rest x rows ch c t y :
    requested E C around m x ch -> resolve_caller E around m = inr c ->
    evolves rest (apply_change ch x, (rows ++ [change_record ch c t])%list) y ->
    evolves ((around, m) :: rest) (x, rows) y.

Lemma change_recorded ch c t : is_change_row (change_record ch c t) = true.
Proof. by destruct ch. Qed.

Lemma spec_state_quiet s s' : quiet E s s' -> spec_state s' = spec_state s.
Proof.
  intros [P (rows & A & F)]. unfold spec_state. rewrite P, A, List.filter_app.
  assert (N : List.filter is_change_row rows = []); [|by rewrite N, app_nil_r].
  clear A. induction F as [|r rows Hr F IH]; [done|]. cbn. by rewrite Hr.
Qed.

Lemma evolves_turn around m rest s s' y :
  quiet E s s' \/ changed_by E C around m s s' -> evolves rest (spec_state s') y ->
  evolves ((around, m) :: rest) (spec_state s) y.
Proof.
  intros [Q|(ch & c & t & Rq & Rc & P & A)] Ev.
  - apply evolves_quiet. by rewrite <- (spec_state_quiet _ _ Q).
  - apply (evolves_change _ _ _ _ _ ch c t); [done|done|]. unfold spec_state in Ev.
    rewrite P, A, List.filter_app in Ev. cbn [List.filter] in Ev.
    fold (change_record ch c t) in Ev. by rewrite change_recorded in Ev.
Qed.

Context `{VaultLaws V E}.

Lemma serve_evolves msgs s l :
  wp (serve E C msgs) s l (fun _ s' _ => evolves msgs (spec_state s) (spec_state s')).
Proof.
  revert s l. induction msgs as [|[around m] msgs IH]; intros s l; cbn [serve].
  - wp_step. apply evolves_end.
  - wp_step. eapply wp_mono; [apply (on_message_ok E C around m)|]. intros o s' l' [T _].
    destruct o; [|by apply (evolves_turn _ _ _ _ _ _ T), evolves_end..].
    eapply wp_mono; [apply IH|]. intros o s'' l'' Ev. by apply (evolves_turn _ _ _ _ _ _ T).
Qed.

Lemma announce_ok edges rows s l :
  wp (announce E C edges rows) s l (fun _ s' l' => s' = s /\ extends no_value l l').
Proof.
  revert l. induction rows as [|r rows IH]; intros l; cbn [announce].
  - wp_step. auto using extends_refl.
  - wp_step. apply wp_payload. intros p. wp_step.
    assert (rest : forall l', extends no_value l l' ->
      wp (announce E C edges rows) s l' (fun _ s' l'' => s' = s /\ extends no_value l l'')).
    { intros l' X. eapply wp_mono; [apply IH|]. intros o s' l'' [-> X']. eauto using sent_trans. }
    destruct p as [p|]; [|wp_step; apply rest, extends_refl]. wp_step. apply notices_ok. intros ns F.
    eapply wp_mono; [by apply (send_each_ok no_value)|]. intros o s' l' [-> X]. destruct o; auto.
Qed.

Lemma bootstrap_ok around s l :
  wp (emit_bootstrap_secret_broadcasts E C around) s l (fun _ s' l' => s' = s /\ extends no_value l l').
Proof.
  unfold emit_bootstrap_secret_broadcasts. wp_step.
  apply wp_query; [apply announce_ok|intros; by auto using extends_refl|by auto using extends_refl].
Qed.

Lemma run_evolves around msgs s l :
  wp (run_vault E C around msgs) s l (fun _ s' _ => evolves msgs (spec_state s) (spec_state s')).
Proof.
  unfold run_vault. do 2 wp_step. eapply wp_mono; [apply bootstrap_ok|]. intros o s' l' [-> _].
  destruct o; [apply serve_evolves|apply serve_evolves|apply evolves_end].
Qed.

(** C25. Over any run of SY.vault, its start included, with any of its database statements and sends
    failing and the process dying before or after any of them, the secrets as plain values evolve only by
    changes the messages asked for and were allowed to make: a put or an assign by an administrator, and a
    delete, rotate or rollback by one or by the secret's owner, of a key of the tenant the request names,
    each message at most one; and the audit log holds exactly one success row for each change, in its order
    and in its sender's name, so no change is without its record nor a record without its change. *)
Theorem vault_refines_plain_secrets around msgs w :
  evolves msgs (spec_state (w_store w)) (spec_state (w_store (run_vault E C around msgs w).2)).
Proof. by apply (run_evolves around msgs (w_store w) (w_sent w)). Qed.

End Evolution.

(** ** Who reads a value *)

Section Readers.
Context {V : Type} `{EqDecision V} (E : VaultEnv V) (C : VaultConfig).

(** The nodes that read a secret: its owner, a node it is assigned to, and, of a general secret, a node
    that is no edge and that is charged to its tenant or, in the root tenant, is a system node. *)
Definition may_read (around : Surroundings) (m : Message V) (md : VaultMetadata) : Prop :=
  exists self name,
    opt_trimmed (src_ilk (meta m)) = Some self /\ src_l2_name (routing m) = Some name /\ bound E around name self
    /\ (secret_owner_ilk md = Some self
        \/ (exists i, i ∈ assigned_ilks md /\ trim i = self)
        \/ is_general_secret md = true /\ is_edge_node_name name = false
           /\ ((exists i, registered_as around self = Some i /\ io_tenant_id i = tenant_id md)
               \/ tenant_id md = DEFAULT_ROOT_TENANT_ID
                  /\ (self ∈ well_known_system_ilks C
                      \/ exists i, registered_as around self = Some i /\ io_ilk_type i = "system"))).

(** The tenants whose secrets are handed out. *)
Definition tenant_open (around : Surroundings) (t : string) : Prop :=
  is_root_tenant E t = true
  \/ is_some (tenant_uuid E t) = true /\ tenant_status_in_hive_config around t = inl (Some "active").

Lemma ensure_tenant_active_open around t : ensure_tenant_active E around t = inr tt -> tenant_open around t.
Proof.
  unfold ensure_tenant_active, tenant_check, tenant_open. destruct (is_root_tenant E t); [by left|].
  destruct (is_some (tenant_uuid E t)); [|done]. cbn. destruct (tenant_status_in_hive_config around t) as [[st|]|]; try done.
  destruct (String.eqb_spec st "active") as [->|]; [by right|done].
Qed.

Lemma opt_map_str_is {A} (f : A -> string) o s :
  opt_str_is (option_map f o) s = true -> exists i, o = Some i /\ f i = s.
Proof. intros H. apply opt_str_is_iff in H. destruct o as [i|]; [|done]. injection H as H. by exists i. Qed.

Lemma authorize_read_may_read around m c md :
  resolve_caller E around m = inr c -> authorize_read E c md (well_known_system_ilks C) = inr tt ->
  may_read around m md.
Proof.
  intros R A. unfold authorize_read in A. destruct (resolved_caller E around m c R)
    as [(I & T & Y)|(self & name & -> & O & L & B)].
  { rewrite I, T, Y in A. cbn in A. unfold caller_is_a_system_node_by_name in A. rewrite I in A.
    by repeat case_match. }
  exists self, name. split; [done|]. split; [done|]. split; [done|]. cbn in A.
  assert (self <> "") as Ne.
  { intros ->. unfold opt_trimmed, trimmed_text in O. destruct (src_ilk (meta m)) as [t|]; [|done].
    destruct (str_is_empty (trim t)) eqn:Em; [done|]. injection O as O. by rewrite O in Em. }
  assert (str_is_empty self = false) as Em by by destruct self. rewrite Em in A.
  destruct (match secret_owner_ilk md with Some o => o =s self | None => false end) eqn:Ow.
  { left. destruct (secret_owner_ilk md) as [o|]; [|done]. apply String.eqb_eq in Ow. congruence. }
  destruct (existsb _ (assigned_ilks md)) eqn:As.
  { right; left. apply existsb_exists in As as (i & In & Eq). exists i. by rewrite list_elem_of_In, String.eqb_eq in *. }
  destruct (is_general_secret md); [|done]. right; right. split; [done|].
  unfold caller_is_an_edge in A. cbn in A. destruct (is_edge_node_name name); [done|]. split; [done|].
  assert (own : (if opt_str_is (option_map io_tenant_id (registered_as around self)) (tenant_id md)
                 then inr tt else inl Unauthorized) = inr tt ->
    exists i, registered_as around self = Some i /\ io_tenant_id i = tenant_id md).
  { destruct (opt_str_is _ (tenant_id md)) eqn:Ot; [|done]. intros _. by apply opt_map_str_is in Ot. }
  destruct (String.eqb_spec (tenant_id md) DEFAULT_ROOT_TENANT_ID) as [Rt|]; [|by left; apply own].
  destruct (str_mem self _) eqn:Wk; [right; split; [done|]; left; by apply str_mem_iff|].
  destruct (opt_str_is _ "system") eqn:Sy; [right; split; [done|]; right; by apply opt_map_str_is in Sy|].
  left. apply own. destruct (negb _ && _) in A; done.
Qed.

Context `{VaultLaws V E}.

(** C24. Whatever happens to the vault's statements and sends, a message makes it send a secret's value only
    in the answer to a VAULT_GET, to the node that asked and under its trace, and the value is the one
    stored under the key asked for; the asker's ILK is the one bound to the name the router stamped, and it
    is the secret's owner, or assigned to it, or the secret is general, the asker no edge, and either
    identity registered it in the secret's tenant or the tenant is the root one and the asker a system node;
    and the secret's tenant is the root one or active. *)
Theorem vault_value_only_to_readers around m w :
  exists new, w_sent (on_message E C around m w).2 = (w_sent w ++ new)%list
  /\ forall n key v, n ∈ new -> body_value (msg_payload n) = Some (key, v) ->
       action_of m = MSG_VAULT_GET /\ request_key E m = Some key
       /\ dst (routing n) = Unicast (src (routing m)) /\ trace_id (routing n) = trace_id (routing m)
       /\ exists x, plain E (w_store w) !! key = Some x /\ x_value x = inr v
            /\ may_read around m (x_metadata x) /\ tenant_open around (tenant_id (x_metadata x)).
Proof.
  destruct (on_message_ok E C around m (w_store w) (w_sent w) w eq_refl eq_refl) as [_ (new & El & F)].
  exists new. split; [done|]. intros n key v In B. rewrite Forall_forall in F.
  destruct (F n In key v B) as (D & T & c & R & A & K & row & L & Dv & Au & Te).
  do 4 (split; [done|]). exists (plain_row E row). split; [by apply plain_lookup|]. split; [done|]. cbn.
  split; [by apply (authorize_read_may_read around m c)|by apply ensure_tenant_active_open].
Qed.

End Readers.

(** ** Restricted secrets *)

Section Restricted.
Context {V : Type} `{EqDecision V} (E : VaultEnv V) (C : VaultConfig).

(** Present, with an owner or a node it is assigned to, in a tenant. *)
Definition restricted_in (tenant : string) (o : option (Secret V)) : Prop :=
  exists x, o = Some x /\ trim (tenant_id (x_metadata x)) = tenant /\ is_general_secret (x_metadata x) = false.

Definition same_users (a b : VaultMetadata) : Prop :=
  tenant_id a = tenant_id b /\ ilk a = ilk b /\ owner_ilk a = owner_ilk b /\ assigned_ilks a = assigned_ilks b.

Lemma same_users_general a b : same_users a b -> is_general_secret a = is_general_secret b.
Proof. intros (_ & I & O & A). unfold is_general_secret, secret_owner_ilk. by rewrite I, O, A. Qed.

(** A put's metadata that name a user do not make a general secret. *)
Lemma names_users_restricted md :
  validate_metadata md = inr tt -> is_some (secret_owner_ilk md) || negb (bool_decide (assigned_ilks md = [])) = true ->
  is_general_secret md = false.
Proof.
  intros Val Us. unfold is_general_secret. destruct (is_some (secret_owner_ilk md)); [done|]. cbn in *.
  unfold validate_metadata in Val. destruct (negb (starts_with _ _)); [done|].
  destruct (resource_type md); [|done]. destruct (str_is_empty _); [done|]. destruct (match _ with Some _ => _ | None => _ end); [done|].
  destruct (assigned_ilks md) as [|i rest]; [done|]. cbn [existsb forallb] in *.
  destruct (starts_with (trim i) "ilk:") eqn:Sw; [|done]. by destruct (trim i).
Qed.

Lemma keep_users_restricted md old :
  validate_metadata md = inr tt -> trim (tenant_id old) = trim (tenant_id md) -> is_general_secret old = false ->
  is_general_secret (keep_users md (Some old)) = false.
Proof.
  intros Val T G. unfold keep_users. destruct (is_some _ || _) eqn:Us; cbn [negb andb].
  - by apply names_users_restricted.
  - rewrite (proj2 (String.eqb_eq _ _) T). by rewrite <- G.
Qed.

Lemma keep_users_tenant md old : tenant_id (keep_users md old) = tenant_id md.
Proof. destruct old as [o|]; [|done]. cbn. by destruct (negb _ && _). Qed.

Definition assigns_or_deletes (m : Message V) : Prop := action_of m = MSG_VAULT_ASSIGN \/ action_of m = MSG_VAULT_DELETE.

Lemma restricted_change tenant k x around m ch :
  requested E C around m x ch -> ~ assigns_or_deletes m -> restricted_in tenant (x !! k) ->
  restricted_in tenant (apply_change ch x !! k).
Proof.
  intros Rq N (o & L & T & G). unfold assigns_or_deletes in N.
  destruct Rq as [r self t A Rd Ad K Md Sm Old|r self o' t A|r o' A|r o' t A Rd L' T' MC Sm
    |r o' previous t t' A Rd L' T' MC P]; try (exfalso; tauto); cbn [apply_change change_key].
  - destruct (decide (k = pr_key r)) as [->|Ne].
    + rewrite L. destruct (Old o L) as [T' _]. cbn [option_map]. rewrite lookup_insert_eq. eexists. split; [done|].
      unfold renew, put_metadata. cbn [x_metadata tenant_id set_created set_updated_at]. rewrite keep_users_tenant. unfold in_tenant in T'. split; [congruence|].
      rewrite <- (keep_users_restricted (pr_metadata r) (x_metadata o) Md T' G). by apply same_users_general.
    + exists o. destruct (x !! pr_key r); by rewrite lookup_insert_ne.
  - destruct (decide (k = rr_key r)) as [->|Ne]; [|exists o; by rewrite lookup_alter_ne].
    rewrite lookup_alter_eq, L. by eexists.
  - destruct (decide (k = sk_key r)) as [->|Ne]; [|exists o; by rewrite lookup_alter_ne].
    rewrite lookup_alter_eq, L. eexists. split; [done|]. unfold rolled_back.
    destruct (x_previous o) as [[]|]; by cbn.
Qed.

Lemma restricted_evolves tenant k msgs x y :
  evolves E C msgs x y -> Forall (fun am => ~ assigns_or_deletes am.2) msgs ->
  restricted_in tenant (x.1 !! k) -> restricted_in tenant (y.1 !! k).
Proof.
  intros Ev. induction Ev as [|around m rest x y Ev IH|around m rest x rows ch c t y Rq Rc Ev IH]; intros F R; [done|..];
    apply Forall_cons in F as [N F]; apply IH; try done. by apply (restricted_change _ _ _ around m).
Qed.

Context `{VaultLaws V E}.


End Restricted.

(** ** The nodes that change secrets *)

Section Writers.
Context {V : Type} `{EqDecision V} (E : VaultEnv V) `{VaultLaws V E}.

(** Identity registers a system node's ILK for that node alone. *)
Definition system_ilks_registered (around : Surroundings) : Prop :=
  forall name i n, registered_as around (deterministic_system_ilk_id E name) = Some i ->
    io_handler_node i = Some n -> n = name.

Lemma bound_system_name around name name' :
  Inj (=) (=) (deterministic_system_ilk_id E) -> system_ilks_registered around ->
  bound E around name' (deterministic_system_ilk_id E name) -> name' = name.
Proof. intros I Hr [[_ D]|(i & Ri & Hn)]; [by apply I|by apply (Hr name i)]. Qed.

Lemma apply_change_other ch (x : gmap string (Secret V)) k : k <> change_key ch -> apply_change ch x !! k = x !! k.
Proof.
  destruct ch; cbn; intros N; [destruct (x !! key); by rewrite lookup_insert_ne|by rewrite lookup_alter_ne
    |by rewrite lookup_delete_ne|by rewrite lookup_alter_ne|by rewrite lookup_alter_ne].
Qed.

(** The owner's three operations. *)
Definition owner_action (a : string) : Prop :=
  a = MSG_VAULT_DELETE \/ a = MSG_VAULT_ROTATE \/ a = MSG_VAULT_ROLLBACK.

Lemma requested_writer C around m x ch :
  requested E C around m x ch ->
  (exists self, admin_asks E C around m self)
  \/ exists o self, x !! change_key ch = Some o /\ owner_action (action_of m)
       /\ secret_owner_ilk (x_metadata o) = Some self /\ speaks_for E around m self.
Proof.
  unfold owner_action. intros [r self t A Rd Ad|r self o t A Rd Ad|r o A Rd L T (self & Sp & [W|O])
    |r o t A Rd L T (self & Sp & [W|O])|r o p t t' A Rd L T (self & Sp & [W|O])];
    [left; by exists self|left; by exists self|..]; first [left; by exists self|right; exists o, self; auto].
Qed.

(** C26. When a message changes what is stored under a key, with any of the vault's calls failing or the
    process dying, the router named its sender SY.admin or SY.architect of the vault's own hive, or it is
    the owner of the secret that was there, with a delete, a rotate or a rollback: no other node, of this or
    of another hive, changes a secret. SHA-256 gives different nodes different ILKs, and identity registers a
    system node's ILK for that node alone. *)
Theorem vault_changed_by_admin_or_owner hive u nodes enabled state around m w key :
  Inj (=) (=) (deterministic_system_ilk_id E) -> system_ilks_registered around ->
  let C := vault_config E hive u nodes enabled state in
  let s' := w_store (on_message E C around m w).2 in
  plain E s' !! key <> plain E (w_store w) !! key ->
  src_l2_name (routing m) ∈ [Some ("SY.admin@" ++ hive); Some ("SY.architect@" ++ hive)]
  \/ owner_action (action_of m)
     /\ exists o self, plain E (w_store w) !! key = Some o /\ secret_owner_ilk (x_metadata o) = Some self
          /\ speaks_for E around m self.
Proof.
  intros Inj Reg C s' N. destruct (on_message_ok E C around m (w_store w) (w_sent w) w eq_refl eq_refl)
    as [[[Q _]|(ch & c & t & Rq & _ & P & _)] _]; [by destruct N; rewrite <- Q|].
  assert (key = change_key ch) as ->.
  { destruct (decide (key = change_key ch)); [done|]. destruct N. unfold s'. by rewrite P, apply_change_other. }
  destruct (requested_writer C around m _ ch Rq) as [(self & (Si & name & L & B) & W)|(o & self & L & A & O & Sp)].
  - left. rewrite L. cbn in W. rewrite !elem_of_cons in W.
    destruct W as [->|[->|[]%elem_of_nil]]; apply bound_system_name in B as ->; try done; rewrite !elem_of_cons; auto.
  - right. split; [done|]. by exists o, self.
Qed.

End Writers.
