(* ===== verification/VaultCases.v ===== *)
(** * SY.vault: what a request comes to

    Runs in which the database and the router answer ([runs]): a value put is read back, a change is
    announced to all who had or have the secret, another tenant's key is answered to an administrator like
    a missing one, and a start announces the newest two hundred secrets. *)

From Stdlib Require Import ZArith Lia Ascii String Strings.Byte.
From stdpp Require Import base list strings gmap.
From S2P Require Import Prelude Effects Protocol Gates Vault VaultSafety VaultRuns.
Open Scope Z_scope.
Open Scope string_scope.
Open Scope rust_scope.
#[local] Open Scope effect_scope.

(** ** Runs without a failure *)

Section Runs.
Context {V : Type}.
#[local] Abbreviation Sent := (list (Message (Body V))).

Definition runs {A} (m : M V A) (s : Store) (l : Sent) (Q : Out A -> Store -> Sent -> Prop) : Prop :=
  forall w, w_store w = s -> w_sent w = l -> w_fates w = [] ->
    w_fates (m w).2 = [] /\ Q (m w).1 (w_store (m w).2) (w_sent (m w).2).

Context {A B : Type}.
Implicit Types (Q : Out A -> Store -> Sent -> Prop).

Lemma runs_ret (a : A) s l Q : Q (Done a) s l -> runs (ret a) s l Q.
Proof. by intros H w <- <- F. Qed.

Lemma runs_fail e s l Q : Q (Err e) s l -> runs (fail e) s l Q.
Proof. by intros H w <- <- F. Qed.

Lemma runs_bind (m : M V B) (f : B -> M V A) s l Q :
  runs m s l (fun o s' l' => match o with
                             | Done b => runs (f b) s' l' Q
                             | Err e => Q (Err e) s' l'
                             | Dead => Q Dead s' l'
                             end) -> runs (bind m f) s l Q.
Proof.
  intros H w Es El F. destruct (H w Es El F) as [F' H']. unfold bind.
  destruct (m w) as [[b|e|] w']; cbn in *; auto.
Qed.

Lemma runs_attempt (m : M V B) s l (Q : Out (VaultError + B) -> Store -> Sent -> Prop) :
  runs m s l (fun o s' l' => match o with
                             | Done b => Q (Done (inr b)) s' l'
                             | Err e => Q (Done (inl e)) s' l'
                             | Dead => Q Dead s' l'
                             end) -> runs (attempt m) s l Q.
Proof.
  intros H w Es El F. destruct (H w Es El F) as [F' H']. unfold attempt. by destruct (m w) as [[b|e|] w'].
Qed.

Lemma runs_draw (f : nat -> A) s l Q : (forall k, Q (Done (f k)) s l) -> runs (draw f) s l Q.
Proof. intros H w <- <- F. split; [done|apply H]. Qed.

Lemma runs_lift (r : VaultError + A) s l Q :
  match r with inl e => Q (Err e) s l | inr a => Q (Done a) s l end -> runs (lift r) s l Q.
Proof. destruct r; [apply runs_fail | apply runs_ret]. Qed.

Lemma runs_need e (o : option A) s l Q :
  match o with Some a => Q (Done a) s l | None => Q (Err e) s l end -> runs (need e o) s l Q.
Proof. destruct o; [apply runs_ret | apply runs_fail]. Qed.

Lemma runs_decode (r : string + A) s l Q :
  match r with inl why => Q (Err (Json why)) s l | inr a => Q (Done a) s l end -> runs (decode r) s l Q.
Proof. destruct r; [apply runs_fail | apply runs_ret]. Qed.

Lemma runs_query (f : Store -> A) s l Q : Q (Done (f s)) s l -> runs (query f) s l Q.
Proof. intros H w <- <- F. unfold query, call. by rewrite F. Qed.

Lemma runs_mono (m : M V A) s l Q (R : Out A -> Store -> Sent -> Prop) :
  runs m s l Q -> (forall o s' l', Q o s' l' -> R o s' l') -> runs m s l R.
Proof. intros H HQ w Es El F. destruct (H w Es El F). auto. Qed.

Lemma runs_of_wp (m : M V A) s l Q (R : Out A -> Store -> Sent -> Prop) :
  wp m s l Q -> runs m s l R -> runs m s l (fun o s' l' => Q o s' l' /\ R o s' l').
Proof. intros H1 H2 w Es El F. destruct (H2 w Es El F). auto. Qed.

End Runs.

Lemma runs_execute {V} f s l (Q : Out unit -> Store -> list (Message (Body V)) -> Prop) :
  Q (Done tt) (f s) l -> runs (execute f) s l Q.
Proof. intros H w <- <- F. unfold execute, call. by rewrite F. Qed.

Lemma runs_send {V} (m : Message (Body V)) s l (Q : Out unit -> Store -> list (Message (Body V)) -> Prop) :
  Q (Done tt) s (l ++ [m])%list -> runs (send m) s l Q.
Proof. intros H w <- <- F. unfold send, call. by rewrite F. Qed.

Ltac run_step :=
  lazymatch goal with
  | |- runs (bind _ _) _ _ _ => apply runs_bind
  | |- runs (ret _) _ _ _ => apply runs_ret
  | |- runs (fail _) _ _ _ => apply runs_fail
  | |- runs (lift _) _ _ _ => apply runs_lift
  | |- runs (need _ _) _ _ _ => apply runs_need
  | |- runs (decode _) _ _ _ => apply runs_decode
  | |- runs (draw _) _ _ _ => apply runs_draw; intro
  | |- runs (attempt _) _ _ _ => apply runs_attempt
  | |- runs (query _) _ _ _ => apply runs_query
  | |- runs (get_record _) _ _ _ => apply runs_query
  | |- runs (execute _) _ _ _ => apply runs_execute
  | |- runs (send _) _ _ _ => apply runs_send
  end; cbv beta iota.

(** A computation the failures alone can stop. *)
Definition lives {V A} (m : M V A) : Prop := forall s l, runs m s l (fun o _ _ => o <> Dead).

Lemma lives_bind {V A B} (m : M V B) (f : B -> M V A) : lives m -> (forall b, lives (f b)) -> lives (bind m f).
Proof.
  intros Hm Hf s l. apply runs_bind. eapply runs_mono; [apply Hm|]. intros o s' l' N. destruct o; [apply Hf|done|done].
Qed.

Lemma lives_step {V A} (m : M V A) : (forall s l, runs m s l (fun o _ _ => o <> Dead)) -> lives m.
Proof. done. Qed.

Ltac lives_step :=
  cbv zeta;
  lazymatch goal with
  | |- lives (bind _ _) => apply lives_bind; [|intros ?]
  | |- lives (let '(_, _) := ?x in _) => destruct x
  | |- lives (if ?b then _ else _) => destruct b
  | |- lives (match ?o with _ => _ end) => destruct o
  | |- lives _ => first [ by apply lives_step; intros ? ?; run_step; try done; case_match; done ]
  end.

Section Lives.
Context {V : Type} `{EqDecision V} (E : VaultEnv V) (C : VaultConfig).

Lemma lives_audit op k c res ec : lives (audit E op k c res ec).
Proof. unfold audit, audit_row, now. by repeat lives_step. Qed.

Lemma lives_change op k c f : lives (audited_change E op k c f).
Proof. unfold audited_change, audit_row, now. by repeat lives_step. Qed.

Lemma lives_encrypt v : lives (encrypt_value E v).
Proof. unfold encrypt_value. by repeat lives_step. Qed.

Lemma lives_payload op key m p v hive : lives (build_secret_changed_payload E op key m p v hive).
Proof. unfold build_secret_changed_payload. by repeat lives_step. Qed.

Lemma lives_payload_of op key pre v hive : lives (payload_of E op key pre v hive).
Proof. unfold payload_of. destruct pre; [apply lives_payload|lives_step]. Qed.

Ltac lives_all :=
  repeat first [ apply lives_audit | apply lives_change | apply lives_encrypt | apply lives_payload
               | apply lives_payload_of | lives_step ].

Lemma lives_put k v md c : lives (put E k v md c).
Proof. unfold put, now. lives_all. Qed.

Lemma lives_dispatch around m c : lives (dispatch E C around m c).
Proof.
  unfold dispatch, handle_put, handle_get, handle_list, handle_delete, handle_rotate, handle_rollback, handle_assign,
    request_key_required, check_value_size, set_assigned, delete_secret, rotate, rollback, mark_accessed, now, list_secrets.
  repeat first [ apply lives_put | apply lives_audit | apply lives_change | apply lives_encrypt | apply lives_payload
               | apply lives_payload_of | lives_step ].
Qed.

End Lives.

(** ** A message served *)

Section Served.
Context {V : Type} `{EqDecision V} (E : VaultEnv V) (C : VaultConfig).
Context (around : Surroundings) (m : Message V) (c : Caller).
#[local] Abbreviation Sent := (list (Message (Body V))).

(** A request to the vault, of a caller it resolved. *)
Definition vault_request : Prop :=
  is_system_kind (msg_type (meta m)) = true /\ action_of m ∈ vault_actions /\ resolve_caller E around m = inr c.

Definition answer (b : Body V) : Message (Body V) := reply_to C m (response_action_for (action_of m)) b.

(** The notices that follow an answer. *)
Definition notices_of (out : HandlerOutcome (V := V)) (ns : Sent) : Prop :=
  match broadcast out with
  | None => ns = []
  | Some p => exists t t',
      ns = notice (uuid C) (dst_ilk (meta m)) false p Broadcast t
           :: match edge_owner (owner out) (edge_nodes E (hive_id C) (hive_entries around)) with
              | None => []
              | Some edge => [notice (uuid C) (dst_ilk (meta m)) false p (Unicast edge) t']
              end
  end.

Lemma runs_send_each ns s (l : Sent) (Q : Out unit -> Store -> Sent -> Prop) :
  Q (Done tt) s (l ++ ns)%list -> runs (send_each ns) s l Q.
Proof.
  revert l. induction ns as [|n ns IH]; intros l HQ; cbn [send_each]; run_step; [by rewrite app_nil_r in HQ|].
  do 2 run_step. apply IH. by rewrite <- app_assoc.
Qed.

Lemma runs_notices p ow s (l : Sent) (Q : Out unit -> Store -> Sent -> Prop) :
  (forall t t', Q (Done tt) s (l ++ notice (uuid C) (dst_ilk (meta m)) false p Broadcast t
     :: match edge_owner ow (edge_nodes E (hive_id C) (hive_entries around)) with
        | None => []
        | Some edge => [notice (uuid C) (dst_ilk (meta m)) false p (Unicast edge) t']
        end)%list) ->
  runs (ns <- secret_changed_notices E (uuid C) (dst_ilk (meta m)) false p ow
          (edge_nodes E (hive_id C) (hive_entries around)) ;; send_each ns) s l Q.
Proof.
  intros HQ. run_step. unfold secret_changed_notices. do 2 run_step.
  revert HQ. destruct (edge_owner _ _); intros HQ; repeat run_step; apply runs_send_each; [apply HQ|apply (HQ _ "")].
Qed.

Lemma not_node_status : action_of m ∈ vault_actions -> opt_str_is (msg (meta m)) MSG_NODE_STATUS_GET = false.
Proof.
  unfold action_of, opt_str_is. destruct (msg (meta m)) as [a|]; [|done]. cbn. intros In.
  destruct (String.eqb_spec a MSG_NODE_STATUS_GET) as [->|]; [|done]. apply str_mem_iff in In. by vm_compute in In.
Qed.

(** What a request whose handler answers, or refuses, comes to. *)
Definition served (P : HandlerOutcome (V := V) -> Store -> Prop) (F : VaultError -> Store -> Prop) (l : Sent)
  (s' : Store) (l' : Sent) : Prop :=
  (exists out ns, P out s' /\ l' = (l ++ answer (response out) :: ns)%list /\ notices_of out ns)
  \/ (exists e, F e s' /\ l' = (l ++ [answer (error_payload e)])%list).

Lemma runs_served s l (P : HandlerOutcome (V := V) -> Store -> Prop) (F : VaultError -> Store -> Prop) :
  vault_request ->
  (forall e s' r, F e s' -> F e (add_audit r s')) ->
  runs (dispatch E C around m c) s l (fun o s' l' => l' = l /\ match o with
                                                      | Done out => P out s'
                                                      | Err e => F e s'
                                                      | Dead => False
                                                      end) ->
  runs (on_message E C around m) s l (fun o s' l' => o = Done tt /\ served P F l s' l').
Proof.
  intros (K & In & R) FA Hd. unfold on_message, try_handle_default_node_status. run_step.
  rewrite K, (not_node_status In). cbn [negb orb]. run_step. rewrite (proj2 (str_mem_iff _ _) In).
  cbn [negb]. do 2 run_step. unfold handle_vault_message. rewrite R. do 2 run_step.
  eapply runs_mono; [apply Hd|]. intros o s' l' [-> HP]. destruct o as [out|e|]; [| |done].
  - do 3 run_step. apply runs_send. destruct (broadcast out) as [p|] eqn:B.
    + apply runs_notices. intros t t'. run_step. split; [done|]. left. eexists out, _. split; [done|].
      rewrite <- app_assoc. split; [done|]. unfold notices_of. rewrite B. by exists t, t'.
    + do 2 run_step. split; [done|]. left. exists out, []. split; [done|]. split; [done|]. unfold notices_of. by rewrite B.
  - do 2 run_step. unfold audit_refusal. do 2 run_step. unfold audit, audit_row, now. repeat run_step.
    apply runs_send. cbn [broadcast response_only]. do 2 run_step. split; [done|]. right. exists e. auto.
Qed.

End Served.

(** ** A value put is read back *)

Section RoundTrip.
Context {V : Type} `{EqDecision V} (E : VaultEnv V) (C : VaultConfig) `{VaultLaws V E}.
#[local] Abbreviation Sent := (list (Message (Body V))).

(** AES-256-GCM encrypts whatever it is given. *)
Definition encrypts : Prop := forall n p, exists ct, aes_encrypt E n p = Some ct.

Lemma runs_encrypt v s (l : Sent) (Q : Out _ -> Store -> Sent -> Prop) :
  encrypts -> (forall n ct, decrypt_value E n ct = inr v -> Q (Done (n, ct)) s l) -> runs (encrypt_value E v) s l Q.
Proof.
  intros En HQ. unfold encrypt_value. do 2 run_step. destruct (En (nonce E k) (to_vec E v)) as [ct Ct]. rewrite Ct.
  run_step. apply HQ. unfold decrypt_value. rewrite (bool_decide_eq_true_2 _ (nonce_length _)). cbn.
  by rewrite (decrypt_encrypt _ _ _ Ct), value_json.
Qed.

(** A put the vault accepts: of a free key, or of one of its tenant whose value it can read. *)
Record put_accepted (around : Surroundings) (m : Message V) (c : Caller) (s : Store) (r : PutRequest V) : Prop := {
  pa_request : vault_request E around m c;
  pa_action : action_of m = MSG_VAULT_PUT;
  pa_admin : is_well_known_admin c (well_known_admin_ilks C) = true;
  pa_read : read_put E (msg_payload m) = inr r;
  pa_key : validate_key (pr_key r) = inr tt;
  pa_metadata : validate_metadata (pr_metadata r) = inr tt;
  pa_small : small E (pr_value r);
  pa_old x : plain E s !! pr_key r = Some x -> in_tenant x (tenant_id (pr_metadata r)) /\ exists v, x_value x = inr v }.

(** What a put leaves. *)
Definition holds_value (s : Store) (key : string) (v : V) (ver : Z) : Prop :=
  exists x, plain E s !! key = Some x /\ x_value x = inr v /\ x_version x = ver.

Lemma runs_put key (v : V) md c s (l : Sent) :
  encrypts ->
  (forall x, plain E s !! key = Some x -> in_tenant x (tenant_id md) /\ exists v, x_value x = inr v) ->
  runs (put E key v md c) s l (fun o s' l' => l' = l /\ exists ver changed,
    o = Done (ver, changed) /\ holds_value s' key v ver).
Proof.
  intros En Old. unfold put, now. do 2 run_step. do 2 run_step. cbv zeta.
  destruct (secrets s !! key) as [row|] eqn:L.
  - destruct (Old _ (plain_lookup E _ _ _ L)) as [T [v0 D]]. cbn in D. unfold in_tenant in T. cbn in T.
    cbn [tenant_id set_updated_at set_created]. rewrite (proj2 (String.eqb_eq _ _) T). cbn [negb]. do 2 run_step.
    rewrite D. case_bool_decide as Eq.
    + run_step. unfold audit, audit_row, now. repeat run_step. split; [done|]. eexists _, _. split; [done|].
      exists (plain_row E row). split; [by apply (plain_lookup E)|]. cbn. by rewrite D, Eq.
    + run_step. apply runs_encrypt; [done|]. intros n ct D'. run_step. unfold audited_change, audit_row, now.
      repeat run_step. split; [done|]. eexists _, _. split; [done|]. eexists.
      rewrite (plain_alter E _ _ _ _ _ L), lookup_insert_eq. split; [done|]. by cbn.
  - run_step. apply runs_encrypt; [done|]. intros n ct D'. run_step. unfold audited_change, audit_row, now.
    repeat run_step. split; [done|]. eexists _, _. split; [done|]. unfold holds_value, plain. cbn.
    eexists. rewrite lookup_fmap, lookup_insert_eq. split; [done|]. by cbn.
Qed.

Lemma runs_handle_put around m c s l r :
  encrypts -> put_accepted around m c s r ->
  runs (dispatch E C around m c) s l (fun o s' l' => l' = l /\ match o with
    | Done out => exists ver changed, response out = PutDone (pr_key r) ver changed
                    /\ holds_value s' (pr_key r) (pr_value r) ver
    | _ => False
    end).
Proof.
  intros En [_ A Ad Rd K Md Sm Old]. unfold dispatch. rewrite A. cbn [String.eqb]. cbv zeta.
  change (runs (handle_put E m c (well_known_admin_ilks C) (hive_id C)) s l (fun o s' l' => l' = l /\ match o with
    | Done out => exists ver changed, response out = PutDone (pr_key r) ver changed
                    /\ holds_value s' (pr_key r) (pr_value r) ver
    | _ => False
    end)). unfold handle_put. rewrite Ad. cbn [negb]. do 2 run_step. rewrite Rd. do 2 run_step. rewrite K.
  do 2 run_step. rewrite Md. run_step. unfold check_value_size. rewrite bool_decide_eq_false_2 by (unfold small in Sm; lia).
  do 2 run_step. run_step. run_step. eapply runs_mono.
  { apply runs_put; [done|]. intros x Lx. rewrite keep_users_tenant. auto. }
  intros o s' l' (-> & ver & changed & -> & Hv). run_step. destruct changed.
  - unfold build_secret_changed_payload. destruct (resource_type _); repeat run_step; split; eauto.
  - repeat run_step. split; eauto.
Qed.

(** A get the vault answers: of a key it holds, by a caller that may read it. *)
Record get_accepted (around : Surroundings) (m : Message V) (c : Caller) (key : string) (x : Secret V) : Prop := {
  ga_request : vault_request E around m c;
  ga_action : action_of m = MSG_VAULT_GET;
  ga_key : request_key E m = Some key;
  ga_valid : validate_key key = inr tt;
  ga_reader : authorize_read E c (x_metadata x) (well_known_system_ilks C) = inr tt;
  ga_tenant : ensure_tenant_active E around (tenant_id (x_metadata x)) = inr tt }.

Lemma runs_handle_get around m c s (l : Sent) key x v :
  get_accepted around m c key x -> plain E s !! key = Some x -> x_value x = inr v ->
  runs (dispatch E C around m c) s l (fun o s' l' => l' = l /\ match o with
    | Done out => exists la ac, out = response_only (GotSecret key (x_metadata x) (x_version x) la ac (Some v))
    | _ => False
    end).
Proof.
  intros [_ A K Vk Au Te] L D. unfold plain in L. rewrite lookup_fmap in L.
  destruct (secrets s !! key) as [row|] eqn:Lr; [|done]. injection L as <-. cbn in *. unfold dispatch. rewrite A.
  change (runs (b <- handle_get E around m c (well_known_system_ilks C) true ;; ret (response_only b)) s l
    (fun o s' l' => l' = l /\ match o with
    | Done out => exists la ac, out = response_only (GotSecret key (metadata row) (version row) la ac (Some v))
    | _ => False
    end)). run_step. unfold handle_get, request_key_required. do 2 run_step. rewrite K. unfold filter_nonempty.
  destruct (str_is_empty key) eqn:Ek; [by destruct key|]. do 2 run_step. rewrite Vk. do 2 run_step. run_step.
  run_step. rewrite Lr. do 3 run_step. rewrite Au. run_step. rewrite Te. do 3 run_step. rewrite D.
  unfold mark_accessed, audit, audit_row, now. repeat run_step. split; [done|]. eauto.
Qed.

(** A request whose handler answers [P] in every run without a failure. *)
Lemma answered around m c w (P : HandlerOutcome (V := V) -> Store -> Prop) :
  w_fates w = [] -> vault_request E around m c ->
  runs (dispatch E C around m c) (w_store w) (w_sent w) (fun o s' l' => l' = w_sent w /\ match o with
    | Done out => P out s'
    | _ => False
    end) ->
  let w' := (on_message E C around m w).2 in
  w_fates w' = [] /\ exists out ns, P out (w_store w') /\ notices_of E C around m out ns
    /\ w_sent w' = (w_sent w ++ answer C m (response out) :: ns)%list.
Proof.
  intros F Vr Hd w'. destruct (runs_served E C around m c (w_store w) (w_sent w) P (fun _ _ => False) Vr
    ltac:(done) Hd w eq_refl eq_refl F) as [F' [_ [(out & ns & HP & El & Nn)|(e & [] & _)]]].
  split; [done|]. by exists out, ns.
Qed.


End RoundTrip.

(** ** A change is announced *)

Section Announced.
Context {V : Type} `{EqDecision V} (E : VaultEnv V) (C : VaultConfig) (around : Surroundings) (m : Message V) (c : Caller).
#[local] Abbreviation Sent := (list (Message (Body V))).

(** The key, the metadata and the previous ones the notice of a change is made of. *)
Inductive describes (s : Store) : string -> VaultMetadata -> option VaultMetadata -> Prop :=
| describes_put r : action_of m = MSG_VAULT_PUT -> read_put E (msg_payload m) = inr r ->
    let old := metadata_of (secrets s !! pr_key r) in
    describes s (pr_key r) (keep_users (pr_metadata r) old) old
| describes_assign r row : action_of m = MSG_VAULT_ASSIGN -> read_assign E (msg_payload m) = inr r ->
    secrets s !! ar_key r = Some row ->
    describes s (ar_key r) (set_assigned_ilks (ilk_set (ar_assigned_ilks r)) (metadata row)) (Some (metadata row))
| describes_scoped r row : action_of m = MSG_VAULT_DELETE \/ action_of m = MSG_VAULT_ROLLBACK ->
    read_scoped E (msg_payload m) = inr r -> secrets s !! sk_key r = Some row ->
    describes s (sk_key r) (metadata row) None
| describes_rotate r row : action_of m = MSG_VAULT_ROTATE ->
    read_rotate E (msg_payload m) = inr r -> secrets s !! rr_key r = Some row ->
    describes s (rr_key r) (metadata row) None.

Definition announces (s s' : Store) (out : HandlerOutcome (V := V)) : Prop :=
  plain E s' = plain E s
  \/ exists key md prev, describes s key md prev /\ owner out = secret_owner_ilk md
       /\ (resource_type md = None
           \/ exists r op v t, broadcast out = Some (changed_payload r op key md prev v (hive_id C) t)).

Definition if_done (P : HandlerOutcome (V := V) -> Store -> Prop) (o : Out HandlerOutcome) (s' : Store) (_ : Sent) : Prop :=
  match o with Done out => P out s' | _ => True end.

Lemma wp_any {A B} (h : M V B) (f : B -> M V A) s l (Q : Out A -> Store -> Sent -> Prop) :
  (forall b s' l', wp (f b) s' l' Q) -> (forall e s' l', Q (Err e) s' l') -> (forall s' l', Q Dead s' l') ->
  wp (bind h f) s l Q.
Proof. intros Hf He Hd w Es El. unfold bind. destruct (h w) as [[b|e|] w']; cbn; auto. by apply (Hf b (w_store w') (w_sent w') w'). Qed.

Lemma wp_built op key md prev v s (l : Sent) (Q : Out _ -> Store -> Sent -> Prop) :
  (forall o, resource_type md = None \/ (exists r t, o = Some (changed_payload r op key md prev v (hive_id C) t)) ->
     Q (Done o) s l) ->
  wp (build_secret_changed_payload E op key md prev v (hive_id C)) s l Q.
Proof.
  intros HQ. unfold build_secret_changed_payload. destruct (resource_type md) eqn:Rt; repeat wp_step; apply HQ; eauto.
Qed.

(** An answer of no change leaves the secrets as they were. *)
Definition unless_changed {A} (s : Store) (o : Out (A * bool)) (s' : Store) (_ : Sent) : Prop :=
  match o with Done (_, false) => plain E s' = plain E s | _ => True end.

Lemma put_noop key v md s l : wp (put E key v md c) s l (unless_changed s).
Proof.
  unfold put, now. do 3 wp_step. apply wp_query; [|done|done]. destruct (secrets s !! key) as [row|].
  - destruct (negb _); [by wp_step|]. do 2 wp_step. destruct (decrypt_value E _ _); [done|]. case_bool_decide.
    + wp_step. apply wp_audit; [|done|done]. intros t. split; [by wp_step|done].
    + apply wp_any; [|done|done]. intros nc s' l'. apply wp_any; [|done|done]. intros _ s'' l''. by wp_step.
  - apply wp_any; [|done|done]. intros nc s' l'. apply wp_any; [|done|done]. intros _ s'' l''. by wp_step.
Qed.

Lemma set_assigned_noop key md s l : wp (set_assigned E key md c) s l (unless_changed s).
Proof.
  unfold set_assigned. wp_step. apply wp_query; [|done|done]. do 2 wp_step. destruct (secrets s !! key); [|done].
  case_bool_decide.
  - wp_step. apply wp_audit; [|done|done]. intros t. split; [by wp_step|done].
  - unfold now. do 2 wp_step. apply wp_any; [|done|done]. intros _ s' l'. by wp_step.
Qed.

(** The tail of a put and of an assign. *)
Lemma wp_changed_tail op key md prev s s' (l : Sent) v (changed : bool) (b : Body V) :
  describes s key md prev -> (if changed then True else plain E s' = plain E s) ->
  wp (p <- (if changed then build_secret_changed_payload E op key md prev v (hive_id C) else ret None) ;;
      ret (mkOutcome b p (secret_owner_ilk md))) s' l (if_done (fun out s'' => announces s s'' out)).
Proof.
  intros De Un. wp_step. destruct changed; [|do 2 wp_step; by left]. apply wp_built. intros o Ho. wp_step.
  right. exists key, md, prev. split; [done|]. split; [done|]. destruct Ho as [Ho|(r & t & ->)]; [by left|].
  right. by exists r, op, v, t.
Qed.

Lemma handle_put_announces s l :
  action_of m = MSG_VAULT_PUT ->
  wp (handle_put E m c (well_known_admin_ilks C) (hive_id C)) s l (if_done (fun out s' => announces s s' out)).
Proof.
  intros A. unfold handle_put. destruct (negb _); [by wp_step|]. do 2 wp_step.
  destruct (read_put E _) as [|r] eqn:Rd; [done|]. do 2 wp_step. destruct (validate_key _); [done|]. do 2 wp_step.
  destruct (validate_metadata _); [done|]. wp_step. apply wp_size; [intros _|done]. wp_step.
  apply wp_query; [|done|done]. wp_step. eapply wp_mono; [apply put_noop|]. intros o s' l' Un.
  destruct o as [[v changed]|e|]; [|done|done]. apply wp_changed_tail; [by constructor|by destruct changed].
Qed.

Lemma handle_assign_announces s l :
  action_of m = MSG_VAULT_ASSIGN ->
  wp (handle_assign E m c (well_known_admin_ilks C) (hive_id C)) s l (if_done (fun out s' => announces s s' out)).
Proof.
  intros A. unfold handle_assign. destruct (negb _); [by wp_step|]. do 2 wp_step.
  destruct (read_assign E _) as [|r] eqn:Rd; [done|]. do 2 wp_step. destruct (validate_key _); [done|]. do 2 wp_step.
  destruct (validate_request_tenant _) as [|tenant]; [done|]. wp_step. apply wp_query; [|done|done]. do 2 wp_step.
  destruct (ensure_in_tenant _ _); [done|]. do 2 wp_step. destruct (secrets s !! ar_key r) as [row|] eqn:L;
    cbn [metadata_of option_map]; [|done]. do 2 wp_step. destruct (validate_metadata _); [done|]. wp_step. eapply wp_mono; [apply set_assigned_noop|].
  intros o s' l' Un. destruct o as [[v changed]|e|]; [|done|done].
  apply wp_changed_tail; [by constructor|by destruct changed].
Qed.

(** The tail of a delete, a rotate and a rollback. *)
Lemma wp_scoped_tail op key s s' (l : Sent) v (b : Body V) md :
  describes s key md None ->
  wp (p <- payload_of E op key (Some md) v (hive_id C) ;; ret (mkOutcome b p (owner_of (Some md)))) s' l
    (if_done (fun out s'' => announces s s'' out)).
Proof. intros De. by apply (wp_changed_tail op key md None s s' l v true). Qed.

Context (R : resolve_caller E around m = inr c).

Lemma handle_delete_announces s l :
  action_of m = MSG_VAULT_DELETE ->
  wp (handle_delete E m c (well_known_admin_ilks C) (hive_id C)) s l (if_done (fun out s' => announces s s' out)).
Proof.
  intros A. unfold handle_delete.
  apply (wp_admitted E C around m c R _ sk_key sk_tenant_id (fun r record =>
    delete_secret E (sk_key r) c ;;;
    p <- payload_of E OpDelete (sk_key r) (metadata_of record) 0 (hive_id C) ;;
    ret (mkOutcome (Deleted (sk_key r)) p (owner_of (metadata_of record))))); [done|done|..].
  - intros r row Rd L _ _. apply wp_any; [|done|done]. intros _ s' l'. apply wp_scoped_tail. apply describes_scoped; auto.
  - intros r Rd L. wp_step. unfold delete_secret. wp_step. apply wp_query; [|done|done]. do 2 wp_step. by rewrite L.
Qed.

Lemma handle_rotate_announces s l :
  action_of m = MSG_VAULT_ROTATE ->
  wp (handle_rotate E m c (well_known_admin_ilks C) (hive_id C)) s l (if_done (fun out s' => announces s s' out)).
Proof.
  intros A. unfold handle_rotate.
  apply (wp_admitted E C around m c R _ rr_key rr_tenant_id (fun r record =>
    check_value_size E (rr_value r) ;;;
    result <- rotate E (rr_key r) (rr_value r) c ;;
    let '(rotated_at, current_version, previous_version) := result in
    p <- payload_of E OpRotate (rr_key r) (metadata_of record) current_version (hive_id C) ;;
    ret (mkOutcome (Rotated (rr_key r) rotated_at current_version previous_version) p
           (owner_of (metadata_of record))))); [done|done|..].
  - intros r row Rd L _ _. do 2 (apply wp_any; [intros ? ? ?|done|done]). destruct b0 as [[at_ cur] prev].
    apply wp_scoped_tail. by apply describes_rotate.
  - intros r Rd L. wp_step. apply wp_size; [|done]. intros _. wp_step. unfold rotate. wp_step.
    apply wp_query; [|done|done]. do 2 wp_step. by rewrite L.
Qed.

Lemma handle_rollback_announces s l :
  action_of m = MSG_VAULT_ROLLBACK ->
  wp (handle_rollback E m c (well_known_admin_ilks C) (hive_id C)) s l (if_done (fun out s' => announces s s' out)).
Proof.
  intros A. unfold handle_rollback.
  apply (wp_admitted E C around m c R _ sk_key sk_tenant_id (fun r record =>
    result <- rollback E (sk_key r) c ;;
    let '(current_version, previous_version) := result in
    p <- payload_of E OpRollback (sk_key r) (metadata_of record) current_version (hive_id C) ;;
    ret (mkOutcome (RolledBack (sk_key r) current_version previous_version) p
           (owner_of (metadata_of record))))); [done|done|..].
  - intros r row Rd L _ _. apply wp_any; [|done|done]. intros [cur prev] s' l'.
    apply wp_scoped_tail. apply describes_scoped; auto.
  - intros r Rd L. wp_step. unfold rollback. wp_step. apply wp_query; [|done|done]. do 2 wp_step. by rewrite L.
Qed.

Lemma dispatch_announces s l :
  wp (dispatch E C around m c) s l (if_done (fun out s' => announces s s' out)).
Proof.
  assert (gets : forall h, wp h s l (get_safely E C around m c s l) ->
    wp (b <- h ;; ret (response_only b)) s l (if_done (fun out s' => announces s s' out))).
  { intros h Hh. wp_step. eapply wp_mono; [apply Hh|]. intros o s' l' (_ & [P _] & _).
    destruct o; [wp_step; by left|done|done]. }
  unfold dispatch.
  repeat match goal with |- wp (if ?a =s ?b then _ else _) _ _ _ => destruct (String.eqb_spec a b) end;
    [by apply handle_put_announces|by apply gets, (handle_get_safely E C around m c true)
    |by apply gets, (handle_get_safely E C around m c false)|by apply gets, handle_list_safely
    |by apply handle_delete_announces|by apply handle_rotate_announces|by apply handle_rollback_announces
    |by apply handle_assign_announces|by wp_step].
Qed.

(** *** Who is told *)

(** The secret a change is about: the one there is, or the one that was. *)
Definition current (old new : option (Secret V)) : option (Secret V) := match new with Some _ => new | None => old end.

Definition md_of (o : option (Secret V)) : option VaultMetadata := option_map x_metadata o.

Definition assigned_to (i : string) (o : option (Secret V)) : Prop :=
  exists x a, o = Some x /\ a ∈ assigned_ilks (x_metadata x) /\ trimmed_text a = Some i.

Definition general (o : option (Secret V)) : Prop := exists x, o = Some x /\ is_general_secret (x_metadata x) = true.

(** The payload names every node the secret was or is assigned to, an owner the change took it from, its
    owner by the [ilk] field, and whether it was or is its tenant's general secret. *)
Record tells (p : VaultSecretChangedPayload) (old new : option (Secret V)) : Prop := {
  tells_assigned i : assigned_to i old \/ assigned_to i new -> i ∈ ch_assigned_ilks p;
  tells_lost i : owner_of (md_of old) = Some i -> owner_of (md_of (current old new)) <> Some i -> i ∈ ch_assigned_ilks p;
  tells_general : general old \/ general new -> ch_general p = true;
  tells_owner x : current old new = Some x ->
    ch_ilk p = filter_nonempty (ilk (x_metadata x)) /\ ch_tenant_id p = tenant_id (x_metadata x) }.

Lemma elem_of_ilk_set i l : i ∈ ilk_set l <-> exists a, a ∈ l /\ trimmed_text a = Some i.
Proof. unfold ilk_set. by rewrite elem_of_dedup, elem_of_sort_by, list_elem_of_omap. Qed.

Lemma secret_owner_trimmed md i : secret_owner_ilk md = Some i -> trimmed_text i = Some i.
Proof.
  assert (tt_ : forall s, trimmed_text s = Some i -> trimmed_text i = Some i).
  { unfold trimmed_text. intros s. destruct (str_is_empty (trim s)) eqn:Em; [done|]. intros [= <-].
    by rewrite trim_idem, Em. }
  unfold secret_owner_ilk. destruct (opt_trimmed (ilk md)) eqn:O; [|apply tt_]. intros [= ->].
  unfold opt_trimmed in O. destruct (ilk md); [by apply (tt_ s)|done].
Qed.

Lemma same_users_owner a b : same_users a b -> secret_owner_ilk a = secret_owner_ilk b.
Proof. intros (_ & I & O & _). unfold secret_owner_ilk. by rewrite I, O. Qed.

Lemma payload_tells r op key md prev v hive t old new cur :
  current old new = Some cur -> same_users md (x_metadata cur) ->
  prev = md_of old \/ (prev = None /\ forall o, old = Some o -> same_users md (x_metadata o)) ->
  tells (changed_payload r op key md prev v hive t) old new.
Proof.
  intros Cu Us Pr. assert (new_cur : forall x, new = Some x -> x = cur) by (intros x ->; cbn in Cu; congruence).
  assert (as_new : forall x, x = cur -> assigned_ilks (x_metadata x) = assigned_ilks md)
    by (intros x ->; symmetry; apply Us).
  split.
  - intros i As. cbn. apply elem_of_ilk_set. destruct As as [(x & a & -> & In & Ta)|(x & a & Ex & In & Ta)]; exists a.
    + split; [|done]. rewrite !elem_of_app. destruct Pr as [->|[-> So]]; [right; by left|]. left.
      by rewrite (proj2 (proj2 (proj2 (So x eq_refl)))).
    + split; [|done]. rewrite (as_new x (new_cur x Ex)) in In. rewrite !elem_of_app. by left.
  - intros i Oo On. cbn. apply elem_of_ilk_set. rewrite Cu in On. cbn in On.
    rewrite <- (same_users_owner _ _ Us) in On. destruct old as [o|]; [|done]. cbn in Oo.
    destruct Pr as [->|[-> So]]; [|by rewrite (same_users_owner _ _ (So o eq_refl)) in On]. exists i.
    split; [|by apply (secret_owner_trimmed (x_metadata o))]. rewrite !elem_of_app. right; right. cbn. rewrite Oo.
    destruct (opt_str_is (secret_owner_ilk md) i) eqn:Os; [by apply opt_str_is_iff in Os|]. apply elem_of_cons. by left.
  - intros [(x & -> & G)|(x & Ex & G)]; cbn.
    + destruct Pr as [->|[-> So]]; cbn; [by rewrite G, orb_true_r|].
      by rewrite (same_users_general _ _ (So x eq_refl)), G.
    + rewrite (new_cur x Ex) in G. by rewrite (same_users_general _ _ Us), G.
  - intros x Cx. rewrite Cu in Cx. injection Cx as <-. cbn. destruct Us as (T & I & _). by rewrite T, I.
Qed.

(** Every stored secret has its resource type, as every put has had to give. *)
Definition typed (x : gmap string (Secret V)) : Prop := map_Forall (fun _ o => resource_type (x_metadata o) <> None) x.

(** The notice of a change is made of what the change did. *)
Definition announcement_of (x x' : gmap string (Secret V)) (key : string) (md : VaultMetadata)
  (prev : option VaultMetadata) : Prop :=
  resource_type md <> None
  /\ (prev = md_of (x !! key) \/ (prev = None /\ forall o, x !! key = Some o -> same_users md (x_metadata o)))
  /\ exists cur, current (x !! key) (x' !! key) = Some cur /\ same_users md (x_metadata cur).

Lemma plain_metadata s key : metadata_of (secrets s !! key) = md_of (plain E s !! key).
Proof. unfold plain, md_of. rewrite lookup_fmap. by destruct (secrets s !! key). Qed.

Lemma keep_users_typed md old : resource_type (keep_users md old) = resource_type md.
Proof. destruct old as [o|]; [|done]. cbn. by destruct (negb _ && _). Qed.

Lemma validated_typed md : validate_metadata md = inr tt -> resource_type md <> None.
Proof. unfold validate_metadata. destruct (negb _); [done|]. by destruct (resource_type md). Qed.

Lemma describes_change s ch key md prev :
  typed (plain E s) -> requested E C around m (plain E s) ch -> describes s key md prev ->
  key = change_key ch /\ announcement_of (plain E s) (apply_change ch (plain E s)) key md prev.
Proof.
  intros Ty Rq De.
  assert (stored : forall k row, secrets s !! k = Some row -> resource_type (metadata row) <> None).
  { intros k row L. apply (Ty k (plain_row E row)). by apply plain_lookup. }
  destruct Rq as [r self t A Rd _ _ Md _ _|r self o t A Rd _ Lo _ Md|r o A Rd Lo|r o t A Rd Lo|r o p t t' A Rd Lo _ _ Po];
    destruct De as [r' A' Rd'|r' row A' Rd' L|r' row A' Rd' L|r' row A' Rd' L];
    rewrite A in A'; try done; try (destruct A' as [A'|A']; done);
    rewrite Rd in Rd'; injection Rd' as <-; (split; [done|]).
  - subst old. rewrite plain_metadata. split; [rewrite keep_users_typed; by apply validated_typed|]. split; [by left|].
    cbn [apply_change]. fold (md_of (plain E s !! pr_key r)).
    destruct (plain E s !! pr_key r) as [o|]; rewrite lookup_insert_eq; by eexists.
  - rewrite (plain_lookup E _ _ _ L) in Lo. injection Lo as <-. split; [by apply validated_typed|].
    split; [left; by rewrite (plain_lookup E _ _ _ L)|].
    cbn [apply_change]. rewrite lookup_alter_eq, (plain_lookup E _ _ _ L). by eexists.
  - split; [by apply (stored _ _ L)|]. rewrite (plain_lookup E _ _ _ L).
    split; [right; split; [done|]; by intros ? [= <-]|]. cbn [apply_change]. rewrite lookup_delete_eq. by eexists.
  - split; [by apply (stored _ _ L)|]. rewrite (plain_lookup E _ _ _ L).
    split; [right; split; [done|]; by intros ? [= <-]|]. cbn [apply_change].
    rewrite lookup_alter_eq, (plain_lookup E _ _ _ L). by eexists.
  - split; [by apply (stored _ _ L)|]. rewrite (plain_lookup E _ _ _ L).
    split; [right; split; [done|]; by intros ? [= <-]|]. cbn [apply_change].
    rewrite lookup_alter_eq, (plain_lookup E _ _ _ L). eexists. split; [done|]. unfold rolled_back.
    by destruct (x_previous (plain_row E row)) as [[]|].
Qed.

End Announced.

Section Announcements.
Context {V : Type} `{EqDecision V} (E : VaultEnv V) (C : VaultConfig) `{VaultLaws V E}.

(** The change, and what was sent about it. *)
Lemma change_announced around m c w :
  w_fates w = [] -> vault_request E around m c -> typed (plain E (w_store w)) ->
  let w' := (on_message E C around m w).2 in
  let x := plain E (w_store w) in
  let x' := plain E (w_store w') in
  x' = x
  \/ exists key p b t t',
       (forall k, k <> key -> x' !! k = x !! k) /\ ch_key p = key /\ tells p (x !! key) (x' !! key)
       /\ w_sent w' = (w_sent w ++ answer C m b
            :: notice (uuid C) (dst_ilk (meta m)) false p Broadcast t
            :: match edge_owner (owner_of (md_of (current (x !! key) (x' !! key))))
                       (edge_nodes E (hive_id C) (hive_entries around)) with
               | None => []
               | Some edge => [notice (uuid C) (dst_ilk (meta m)) false p (Unicast edge) t']
               end)%list.
Proof.
  intros F Vr Ty w' x x'. pose proof (proj2 (proj2 Vr)) as R.
  destruct (runs_served E C around m c (w_store w) (w_sent w)
    (fun out s' => (quiet E (w_store w) s' \/ changed_by E C around m (w_store w) s')
                   /\ announces E C m (w_store w) s' out)
    (fun _ s' => plain E s' = x) Vr) with (w := w) as [_ [_ [(out & ns & (Ch & An) & El & Nn)|(e & P & _)]]];
    [done| |done|done|done| |by left].
  { eapply runs_mono; [apply runs_of_wp; [apply wp_and; [apply (dispatch_ok E C around m c R)
      |apply (dispatch_announces E C around m c R)]|apply lives_dispatch]|].
    intros o s' l' [[[[-> Sf] _] An] Lv]. split; [done|]. destruct o as [out|e|]; [by split|by apply Sf|done]. }
  destruct Ch as [[P _]|(ch & c' & t0 & Rq & _ & P & _)]; [by left|]. change (x' = apply_change ch x) in P.
  destruct An as [An|(key & md & prev & De & Ow & Bc)]; [by left|]. right.
  destruct (describes_change E C around m _ _ _ _ _ Ty Rq De) as (Ky & Rt & Pr & cur & Cu & Us). fold x in Cu, Pr. rewrite <- P in Cu.
  destruct Bc as [Bc|(r & op & v & t & Bc)]; [done|]. unfold notices_of in Nn. rewrite Bc in Nn.
  destruct Nn as (t1 & t2 & ->). exists key, (changed_payload r op key md prev v (hive_id C) t), (response out), t1, t2.
  split; [intros k Ne; rewrite P; apply apply_change_other; congruence|]. split; [done|].
  split; [by apply (payload_tells _ _ _ _ _ _ _ _ _ _ cur)|].
  rewrite Ow in El. rewrite Cu. cbn [md_of option_map owner_of].
  by rewrite <- (same_users_owner _ _ Us).
Qed.


End Announcements.
