(* ===== verification/VaultNotices.v ===== *)
(** * SY.vault: refusals, the start's announcements, the edges

    An administrator is answered another tenant's key like a missing one; a start announces the two
    hundred secrets written last and no more; with the router's gates ([Gates]), an edge hears of a change
    only as the secret's owner. Last, an instance of the parameters on which the theorems are applied. *)

From Stdlib Require Import ZArith Lia Ascii String Strings.Byte.
From stdpp Require Import base list strings gmap sorting.
From S2P Require Import Prelude Effects Protocol Paging Gates Vault VaultSafety VaultRuns VaultCases.
Open Scope Z_scope.
Open Scope string_scope.
Open Scope rust_scope.
#[local] Open Scope effect_scope.

(** ** Another tenant's key *)

Section Foreign.
Context {V : Type} `{EqDecision V} (E : VaultEnv V) (C : VaultConfig).
#[local] Abbreviation Sent := (list (Message (Body V))).

(** The key and the tenant a request to change a stored secret names; the new value of a rotate is not too
    long. *)
Definition scoped_target (m : Message V) (key tenant : string) : Prop :=
  (action_of m = MSG_VAULT_DELETE \/ action_of m = MSG_VAULT_ROLLBACK)
    /\ read_scoped E (msg_payload m) = inr (mkScoped key tenant)
  \/ (exists v, action_of m = MSG_VAULT_ROTATE /\ small E v /\ read_rotate E (msg_payload m) = inr (mkRotate V key tenant v))
  \/ (exists l, action_of m = MSG_VAULT_ASSIGN /\ read_assign E (msg_payload m) = inr (mkAssign key tenant l)).

(** The key is missing, or another tenant's. *)
Definition not_in_tenant (s : Store) (key tenant : string) : Prop :=
  forall x, plain E s !! key = Some x -> ~ in_tenant x tenant.

Definition refuses (h : M V (HandlerOutcome (V := V))) (s : Store) (l : Sent) : Prop :=
  runs h s l (fun o s' l' => s' = s /\ l' = l /\ exists e, o = Err e /\ error_payload (V := V) e
                             = ErrorBody "KEY_NOT_FOUND" "key not found").

Lemma not_in_tenant_refused s key tenant :
  not_in_tenant s key tenant -> starts_with (trim tenant) "tnt:" = true ->
  match secrets s !! key with
  | Some row => ensure_in_tenant (Some (metadata row)) (trim tenant) = inl KeyNotFoundInTenant
  | None => True
  end.
Proof.
  intros N T. destruct (secrets s !! key) as [row|] eqn:L; [|done].
  assert (Ne := N _ (plain_lookup E _ _ _ L)). unfold in_tenant in Ne. cbn in *.
  by destruct (String.eqb_spec (trim (tenant_id (metadata row))) (trim tenant)).
Qed.

Context (c : Caller) (admin : is_well_known_admin c (well_known_admin_ilks C) = true).

(** The checks of a scoped request refuse another tenant's key; a missing one goes on. *)
Lemma runs_scoped_refused {A} (rd : string + A) (k tn : A -> string) r
  (f : A -> option SecretRow -> M V (HandlerOutcome (V := V))) s l :
  rd = inr r -> validate_key (k r) = inr tt -> starts_with (trim (tn r)) "tnt:" = true -> not_in_tenant s (k r) (tn r) ->
  (secrets s !! k r = None -> refuses (f r None) s l) ->
  refuses (r <- decode rd ;;
      lift (validate_key (k r)) ;;;
      tenant <- lift (validate_request_tenant (tn r)) ;;
      record <- get_record (k r) ;;
      lift (ensure_in_tenant (metadata_of record) tenant) ;;;
      lift (authorize_change c (well_known_admin_ilks C) (metadata_of record)) ;;;
      f r record) s l.
Proof.
  intros -> K T N Hf. unfold refuses. do 2 run_step. do 2 run_step. rewrite K. do 2 run_step.
  unfold validate_request_tenant. rewrite T. cbn [negb]. do 2 run_step. do 2 run_step.
  pose proof (not_in_tenant_refused s _ _ N T) as Rf. destruct (secrets s !! k r) as [row|] eqn:L.
  - cbn [metadata_of option_map]. rewrite Rf. split; [done|]. split; [done|]. by exists KeyNotFoundInTenant.
  - cbn [metadata_of option_map ensure_in_tenant]. do 2 run_step. unfold authorize_change. rewrite admin.
    by apply Hf.
Qed.

Lemma not_found_refuses (s : Store) (l : Sent) e (o : Out (HandlerOutcome (V := V))) :
  o = Err e -> e = KeyNotFound \/ e = KeyNotFoundInTenant ->
  s = s /\ l = l /\ exists e, o = Err e /\ error_payload (V := V) e = ErrorBody "KEY_NOT_FOUND" "key not found".
Proof. intros -> Ek. split; [done|]. split; [done|]. exists e. by destruct Ek as [->| ->]. Qed.

Lemma dispatch_refuses around m key tenant s l :
  scoped_target m key tenant -> validate_key key = inr tt -> starts_with (trim tenant) "tnt:" = true ->
  not_in_tenant s key tenant -> refuses (dispatch E C around m c) s l.
Proof.
  intros Tg K T N. unfold dispatch. destruct Tg as [[[A|A] Rd]|[(v & A & Sm & Rd)|(ilks & A & Rd)]]; rewrite A.
  - change (refuses (handle_delete E m c (well_known_admin_ilks C) (hive_id C)) s l).
    eapply (runs_scoped_refused _ sk_key sk_tenant_id (mkScoped key tenant) (fun r record => _)); try done.
    cbn. intros L. unfold refuses. run_step. unfold delete_secret. do 2 run_step. do 2 run_step. rewrite L.
    by apply (not_found_refuses _ _ KeyNotFound); auto.
  - change (refuses (handle_rollback E m c (well_known_admin_ilks C) (hive_id C)) s l).
    eapply (runs_scoped_refused _ sk_key sk_tenant_id (mkScoped key tenant) (fun r record => _)); try done.
    cbn. intros L. unfold refuses. run_step. unfold rollback. do 2 run_step. do 2 run_step. rewrite L.
    by apply (not_found_refuses _ _ KeyNotFound); auto.
  - change (refuses (handle_rotate E m c (well_known_admin_ilks C) (hive_id C)) s l).
    eapply (runs_scoped_refused _ rr_key rr_tenant_id (mkRotate V key tenant v) (fun r record => _)); try done.
    cbn. intros L. unfold refuses. run_step. unfold check_value_size.
    rewrite bool_decide_eq_false_2 by (unfold small in Sm; cbn; lia). do 2 run_step. unfold rotate. do 2 run_step.
    do 2 run_step. rewrite L. by apply (not_found_refuses _ _ KeyNotFound); auto.
  - change (refuses (handle_assign E m c (well_known_admin_ilks C) (hive_id C)) s l).
    unfold handle_assign, refuses. rewrite admin. cbn [negb]. do 2 run_step. rewrite Rd. do 2 run_step. cbn. rewrite K.
    do 2 run_step. unfold validate_request_tenant. rewrite T. cbn [negb]. do 2 run_step. do 2 run_step.
    pose proof (not_in_tenant_refused s _ _ N T) as Rf. destruct (secrets s !! key) as [row|];
      cbn [metadata_of option_map].
    + rewrite Rf. by apply (not_found_refuses _ _ KeyNotFoundInTenant); auto.
    + cbn [ensure_in_tenant]. do 2 run_step. by apply (not_found_refuses _ _ KeyNotFound); auto.
Qed.


End Foreign.

(** ** The announcements of a start *)

Section Bootstrap.
Context {V : Type} `{EqDecision V} (E : VaultEnv V) (C : VaultConfig).
#[local] Abbreviation Sent := (list (Message (Body V))).

(** The keys the broadcasts of a list of messages name. *)
Definition broadcast_key (n : Message (Body V)) : option string :=
  match dst (routing n), msg_payload n with Broadcast, Changed p => Some (ch_key p) | _, _ => None end.

Definition broadcast_keys (l : Sent) : list string := omap broadcast_key l.

Definition typed_rows (l : list VaultSecretSummary) : Prop := Forall (fun r => resource_type (s_metadata r) <> None) l.

Lemma runs_announce edges rows s (l : Sent) :
  typed_rows rows ->
  runs (announce E C edges rows) s l (fun o s' l' => o = Done tt /\ s' = s
    /\ exists new, l' = (l ++ new)%list /\ broadcast_keys new = map s_key rows).
Proof.
  intros Ty. revert l. induction Ty as [|r rows Tr Ty IH]; intros l; cbn [announce].
  { run_step. split; [done|]. split; [done|]. exists []. by rewrite app_nil_r. }
  assert (rest : forall sent, broadcast_keys sent = [s_key r] ->
    runs (announce E C edges rows) s (l ++ sent)%list (fun o s' l' => o = Done tt /\ s' = s
      /\ exists new, l' = (l ++ new)%list /\ broadcast_keys new = map s_key (r :: rows))).
  { intros sent Bk. eapply runs_mono; [apply IH|]. intros o s' l' (-> & -> & new & -> & Nk). split; [done|].
    split; [done|]. exists (sent ++ new)%list. split; [by rewrite app_assoc|]. unfold broadcast_keys in *.
    by rewrite omap_app, Bk, Nk. }
  run_step. unfold build_secret_changed_payload. destruct (resource_type (s_metadata r)) as [rt|]; [|done].
  do 3 run_step. run_step. unfold secret_changed_notices. run_step. do 2 run_step.
  destruct (edge_owner _ edges); repeat run_step; apply runs_send_each; by apply rest.
Qed.

Definition newest_first (s : Store) : list string := map fst (sort_by row_order (map_to_list (secrets s))).

Lemma unfiltered s : map s_key (map summary_of (rows_listed no_filter s)) = firstn 200 (newest_first s).
Proof.
  unfold rows_listed, newest_first. cbn [list_limit no_filter f_limit unwrap_or].
  assert (all : forall l : list (string * SecretRow),
    List.filter (fun r => listed no_filter r.1 (metadata r.2)) l = l).
  { induction l as [|r l IH]; [done|]. exact (f_equal (cons r) IH). }
  rewrite all, map_map, firstn_map. by apply map_ext.
Qed.

Lemma newest_first_keys s key : key ∈ newest_first s <-> secrets s !! key <> None.
Proof.
  unfold newest_first. rewrite list_elem_of_fmap. split.
  - intros ([k row] & -> & In). rewrite elem_of_sort_by in In. apply elem_of_map_to_list in In. cbn. congruence.
  - intros N. destruct (secrets s !! key) as [row|] eqn:L; [|done]. exists (key, row). split; [done|].
    by rewrite elem_of_sort_by, elem_of_map_to_list.
Qed.

Lemma newest_first_nodup s : NoDup (newest_first s).
Proof.
  unfold newest_first. rewrite (fmap_Permutation fst _ _ (sort_by_perm row_order (map_to_list (secrets s)))).
  apply NoDup_fst_map_to_list.
Qed.

Lemma newest_first_length s : length (newest_first s) = size (secrets s).
Proof.
  unfold newest_first. rewrite length_map, (Permutation_length (sort_by_perm row_order _)). apply length_map_to_list.
Qed.

Lemma start_announces around w :
  w_fates w = [] -> typed (plain E (w_store w)) ->
  exists new, w_sent (emit_bootstrap_secret_broadcasts E C around w).2 = (w_sent w ++ new)%list
    /\ broadcast_keys new = firstn 200 (newest_first (w_store w)).
Proof.
  intros F Ty. assert (Tr : typed_rows (map summary_of (rows_listed no_filter (w_store w)))).
  { apply Forall_forall. intros r In. apply list_elem_of_fmap in In as ([k row] & -> & In).
    apply elem_of_take in In as (i & In & _). apply list_elem_of_lookup_2, list_elem_of_In, filter_In in In as [In _].
    rewrite <- list_elem_of_In, elem_of_sort_by, elem_of_map_to_list in In.
    apply (Ty k (plain_row E row)). by apply plain_lookup. }
  assert (Rn : runs (emit_bootstrap_secret_broadcasts E C around) (w_store w) (w_sent w)
    (fun o s' l' => o = Done tt /\ s' = w_store w /\ exists new, l' = (w_sent w ++ new)%list
       /\ broadcast_keys new = map s_key (map summary_of (rows_listed no_filter (w_store w))))).
  { unfold emit_bootstrap_secret_broadcasts. run_step. apply runs_query. by apply runs_announce. }
  destruct (Rn w eq_refl eq_refl F) as [_ (_ & _ & new & El & Bk)]. rewrite unfiltered in Bk. by exists new.
Qed.

#[local] Instance row_order_preorder : TotalPreorder row_order.
Proof.
  pose proof (@order_preorder _ _ string_order) as So.
  apply then_preorder; [exact (on_preorder _ (fun a : string * SecretRow => row_updated_at a.2) (flip_preorder _ So))|].
  apply then_preorder; [exact (on_preorder _ (fun a : string * SecretRow => row_created_at a.2) (flip_preorder _ So))|].
  exact (on_preorder _ (fun a : string * SecretRow => a.1) So).
Qed.

(** Of the rows in order, one before another was not written before it. *)
Lemma earlier_is_newer s n k k' row row' :
  k ∈ firstn n (newest_first s) -> ~ k' ∈ firstn n (newest_first s) ->
  secrets s !! k = Some row -> secrets s !! k' = Some row' ->
  String.compare (row_updated_at row) (row_updated_at row') <> Lt.
Proof.
  intros In Out L L'. unfold newest_first in *. rewrite firstn_map in In, Out.
  pose proof (sort_by_sorted row_order (map_to_list (secrets s))) as So.
  rewrite <- (firstn_skipn n (sort_by row_order (map_to_list (secrets s)))) in So.
  assert (row_in : forall r, r ∈ sort_by row_order (map_to_list (secrets s)) <-> secrets s !! r.1 = Some r.2).
  { intros [i r]. by rewrite elem_of_sort_by, elem_of_map_to_list. }
  apply list_elem_of_fmap in In as ([i r] & -> & In). cbn in L.
  assert (r = row) as ->.
  { assert (Hr : (i, r) ∈ sort_by row_order (map_to_list (secrets s)))
      by (rewrite <- (firstn_skipn n (sort_by _ _)), elem_of_app; by left).
    apply row_in in Hr. cbn in Hr. congruence. }
  assert (Sk : (k', row') ∈ skipn n (sort_by row_order (map_to_list (secrets s)))).
  { assert (Hr : (k', row') ∈ sort_by row_order (map_to_list (secrets s))) by by apply row_in.
    rewrite <- (firstn_skipn n (sort_by _ _)), elem_of_app in Hr. destruct Hr as [Hr|]; [|done].
    destruct Out. apply list_elem_of_fmap. by exists (k', row'). }
  apply (StronglySorted_app_1_elem_of _ _ _ (i, row) (k', row')) in So; [|done|done].
  unfold not_after, row_order in So. rewrite then_with_gt in So. cbn in So.
  rewrite String.compare_antisym. destruct (String.compare (row_updated_at row') (row_updated_at row)); try done.
  intros _. apply So. by left.
Qed.

(** With the database and the router answering, a start of the vault broadcasts one notice for each of
    two hundred secrets, or of all when there are fewer, none of them written before one left out. With more
    secrets than that some stored secret is not announced, though the start is to announce each secret it
    has, and its consumers, which had no answer from the vault before it was up, are not woken. *)
Theorem bootstrap_announces_newest_200 around w :
  w_fates w = [] -> typed (plain E (w_store w)) ->
  let w' := (emit_bootstrap_secret_broadcasts E C around w).2 in
  let stored := secrets (w_store w) in
  exists new, w_sent w' = (w_sent w ++ new)%list
    /\ NoDup (broadcast_keys new) /\ length (broadcast_keys new) = Nat.min 200 (size stored)
    /\ (forall key, key ∈ broadcast_keys new -> stored !! key <> None)
    /\ (forall k k' row row', k ∈ broadcast_keys new -> ~ k' ∈ broadcast_keys new ->
          stored !! k = Some row -> stored !! k' = Some row' ->
          String.compare (row_updated_at row) (row_updated_at row') <> Lt)
    /\ ((200 < size stored)%nat -> exists key, stored !! key <> None /\ ~ key ∈ broadcast_keys new).
Proof.
  intros F Ty w' stored. destruct (start_announces around w F Ty) as (new & El & Bk).
  exists new. split; [done|]. rewrite Bk. split.
  { pose proof (newest_first_nodup (w_store w)) as Nd. rewrite <- (firstn_skipn 200 (newest_first (w_store w))) in Nd.
    by apply NoDup_app in Nd as [Nd _]. }
  split; [by rewrite firstn_length, newest_first_length|]. split.
  { intros key In. apply newest_first_keys. apply elem_of_take in In as (i & Li & _). by apply list_elem_of_lookup_2 in Li. }
  split; [intros k k' row row'; apply earlier_is_newer|]. intros Sz. unfold stored in Sz. rewrite <- newest_first_length in Sz.
  destruct (lookup_lt_is_Some_2 (newest_first (w_store w)) 200 Sz) as [key Lk]. exists key.
  split; [apply newest_first_keys; by apply list_elem_of_lookup_2 in Lk|].
  intros (i & Li & Lt)%elem_of_take. pose proof (NoDup_lookup _ _ _ _ (newest_first_nodup _) Lk Li). lia.
Qed.

End Bootstrap.

(** ** The edges *)

Section Edges.
Context {V : Type} `{EqDecision V} (E : VaultEnv V) (C : VaultConfig) `{VaultLaws V E}.

(** Whether the router delivers a message of the vault to a node: an addressed one to its name alone, and
    either only as its gates let it ([Gates]). *)
Definition reaches (vpn vpn' : Z) (node : string) (n : Message (Body V)) : bool :=
  let vault := "SY.vault@" ++ PRIMARY_HIVE_ID in
  match dst (routing n) with
  | Unicast d => (d =s node) && vpn_allows_between (meta n) vault vpn node vpn'
  | Broadcast => vpn_allows_broadcast_between (meta n) vault vpn node vpn'
  | Resolve => false
  end.

(** The broadcast of a change stops at the gates before every edge; the notice addressed to one passes. *)
Lemma broadcast_kept_from_edges u i b p t vpn vpn' edge :
  is_edge_node edge = true -> reaches vpn vpn' edge (notice u i b p Broadcast t) = false.
Proof.
  intros Ed. unfold reaches, vpn_allows_broadcast_between, edge_vault_notice_allowed. cbn. by rewrite Ed.
Qed.

Lemma addressed_reaches_edge u i b p t vpn vpn' edge :
  is_edge_node edge = true -> reaches vpn vpn' edge (notice u i b p (Unicast edge) t) = true.
Proof.
  intros Ed. unfold reaches. cbn [dst routing notice]. rewrite String.eqb_refl. cbn [andb].
  unfold vpn_allows_between, is_edge_service_control_message, edge_vault_notice_allowed. rewrite Ed, orb_true_r.
  reflexivity.
Qed.

Lemma edge_owner_ilk own hives hive edge :
  edge_owner own (edge_nodes E hive hives) = Some edge ->
  opt_trimmed own = Some (deterministic_system_ilk_id E edge).
Proof.
  unfold edge_owner. destruct (opt_trimmed own) as [o|]; [|done].
  destruct (List.find _ _) as [e|] eqn:Fi; [|done]. cbn. intros [= <-]. apply find_some in Fi as [In Eq].
  apply String.eqb_eq in Eq. rewrite <- Eq. apply in_map_iff in In as (h & <- & _). done.
Qed.

Lemma response_not_notice a : response_action_for a <> MSG_VAULT_SECRET_CHANGED.
Proof. unfold response_action_for. by repeat case_match. Qed.

(** With the database and the router answering, of the notices of a change a public edge, a node in the
    DMZ, receives only the one addressed to it, and that only when it is the owner of the changed secret:
    the router's gates keep every broadcast of the vault from it, so nothing of a secret of others reaches
    it. For the same reason an edge that the secret is merely assigned to, and one a put takes it from, hear
    nothing of the change. *)
Theorem edge_hears_only_as_owner around m c w edge vpn vpn' :
  w_fates w = [] -> vault_request E around m c -> typed (plain E (w_store w)) -> is_edge_node edge = true ->
  let w' := (on_message E C around m w).2 in
  let x := plain E (w_store w) in
  let x' := plain E (w_store w') in
  x' = x
  \/ exists key new, (forall k, k <> key -> x' !! k = x !! k) /\ w_sent w' = (w_sent w ++ new)%list
       /\ forall n, n ∈ new -> msg (meta n) = Some MSG_VAULT_SECRET_CHANGED -> reaches vpn vpn' edge n = true ->
            owner_of (md_of (current (x !! key) (x' !! key))) = Some (deterministic_system_ilk_id E edge).
Proof.
  intros F Vr Ty Ed w' x x'. destruct (change_announced E C around m c w F Vr Ty)
    as [Eq|(key & p & b & t & t' & Only & _ & _ & El)]; [by left|]. right.
  eexists key, _. split; [done|]. split; [exact El|]. intros n In Mn Rn. rewrite !elem_of_cons in In.
  destruct In as [->|[->|In]].
  - injection Mn as Mn. by apply response_not_notice in Mn.
  - by rewrite broadcast_kept_from_edges in Rn.
  - destruct (edge_owner _ _) as [e|] eqn:Eo; [|by apply elem_of_nil in In].
    rewrite elem_of_cons in In. destruct In as [->|[]%elem_of_nil]. unfold reaches in Rn. cbn in Rn.
    apply andb_true_iff in Rn as [Ne _]. apply String.eqb_eq in Ne as ->. apply edge_owner_ilk in Eo.
    fold w' x x' in Eo |- *. destruct (owner_of _) as [o|] eqn:Ow; [|done]. rewrite <- Eo.
    unfold owner_of, md_of in Ow. destruct (option_map _ _) as [md|]; [|done]. symmetry.
    by apply (secret_owner_trimmed md).
Qed.

End Edges.

(** ** An instance of the parameters

    A cipher that hides nothing, ILKs that spell the node's name, and payloads that are texts, each
    standing for one request. *)

Module VaultExamples.

Definition tenant_a : string := "tnt:a".
Definition tenant_b : string := "tnt:b".

Definition owned (tenant node : string) : VaultMetadata :=
  mkMetadata tenant "" (Some "openai") (Some ("ilk:" ++ node)) [] None None None None [].
Definition anyones (tenant : string) : VaultMetadata :=
  mkMetadata tenant "" (Some "openai") None [] None None None None [].

Definition the_put (p : string) : string + PutRequest string :=
  if p =s "put" then inr (mkPutRequest string "k1" "secret" (owned tenant_a "SY.edge@motherbee"))
  else if p =s "put-again" then inr (mkPutRequest string "k1" "other" (anyones tenant_a))
  else if p =s "put-agent" then inr (mkPutRequest string "k1" "secret" (owned tenant_a "AI.a@motherbee"))
  else inl "not a put".

Definition the_scoped (p : string) : string + ScopedKeyRequest :=
  if p =s "scoped-b" then inr (mkScoped "k1" tenant_b) else inl "not scoped".

Definition E : VaultEnv string :=
  mkVaultEnv string (fun _ p => Some (list_byte_of_string p)) (fun _ ct => Some (string_of_list_byte ct))
    (fun name => "ilk:" ++ name)
    (fun t => if t =s "a" then Some 1 else if t =s "b" then Some 2 else None)
    (fun v => v) inr the_put the_scoped (fun _ => inl "not a rotate") (fun _ => inl "not an assign")
    (fun _ => inl "not a list") (fun p => if p =s "get" then Some "k1" else None)
    (fun _ => "2026-01-01T00:00:00+00:00") (fun _ => 0) (fun _ => replicate 12 Byte.x00) (fun _ => "trace").

#[local] Instance laws : VaultLaws E.
Proof.
  split; [|done|done]. intros n p ct [= <-]. cbn. by rewrite string_of_list_byte_of_string.
Qed.

Definition C : VaultConfig := vault_config E "motherbee" "vault" ["SY.edge"] true "HEALTHY".

(** The region registers one agent, in tenant a, which is active. *)
Definition around : Surroundings :=
  mkSurroundings (Some [mkIlkOption "ilk:AI.a@motherbee" tenant_a "agent" (Some "AI.a@motherbee")])
    (fun t => if t =s tenant_a then inl (Some "active") else inl None) (Some ["motherbee"]).

Definition ask (action node payload : string) : Message string :=
  mkMessage (mkRouting "node" (Some node) (Unicast "SY.vault@motherbee") 16 "t")
    (mkMeta SYSTEM_KIND (Some action) (Some ("ilk:" ++ node)) None None None None None None None None None None None
       None None false) payload.

Definition admin : string := "SY.admin@motherbee".
Definition admin_caller : Caller := mkCaller (Some admin) (Some ("ilk:" ++ admin)) None None.

Definition fresh : World string := mkWorld (mkStore ∅ []) [] 0 [].
Definition put_by_admin (p : string) : Message string := ask MSG_VAULT_PUT admin p.
Definition after (p : string) (w : World string) : World string := (on_message E C around (put_by_admin p) w).2.

Lemma resolved_admin_caller p : vault_request E around (put_by_admin p) admin_caller.
Proof. split; [done|]. split; [apply str_mem_iff; by vm_compute|by vm_compute]. Qed.

(** A first put whose commit fails once, a second that works, and a death in the third. *)
Definition troubled : World string :=
  mkWorld (mkStore ∅ []) [Works; Works; Works; Fails "busy"; Works; Works; Works; Works; Works; Works; Works; Works; Dies] 0 [].
Definition three_puts : list (Surroundings * Message string) :=
  [(around, put_by_admin "put"); (around, put_by_admin "put"); (around, put_by_admin "put-again")].

Lemma vault_refines_plain_secrets_witness :
  evolves E C three_puts (spec_state E (mkStore ∅ [])) (spec_state E (w_store (run_vault E C around three_puts troubled).2))
  /\ option_map x_value (plain E (w_store (run_vault E C around three_puts troubled).2) !! "k1") = Some (inr "secret").
Proof.
  split; [apply (vault_refines_plain_secrets E C around three_puts troubled)|]. vm_compute. reflexivity.
Defined.

Definition agent_get : Message string := ask MSG_VAULT_GET "AI.a@motherbee" "get".

Lemma vault_value_only_to_readers_witness :
  exists new, w_sent (on_message E C around agent_get (after "put-agent" fresh)).2
    = (w_sent (after "put-agent" fresh) ++ new)%list
  /\ map body_value (map msg_payload new) = [Some ("k1", "secret")].
Proof.
  destruct (vault_value_only_to_readers E C around agent_get (after "put-agent" fresh)) as (new & El & _).
  exists new. split; [exact El|]. clear -El. revert El. vm_compute. intros El. injection El as <-. reflexivity.
Defined.


Lemma vault_changed_by_admin_or_owner_witness :
  src_l2_name (routing (put_by_admin "put")) ∈ [Some "SY.admin@motherbee"; Some "SY.architect@motherbee"]
  \/ owner_action (action_of (put_by_admin "put"))
     /\ exists o self, plain E (w_store fresh) !! "k1" = Some o /\ secret_owner_ilk (x_metadata o) = Some self
          /\ speaks_for E around (put_by_admin "put") self.
Proof.
  apply (vault_changed_by_admin_or_owner E "motherbee" "vault" ["SY.edge"] true "HEALTHY" around (put_by_admin "put") fresh "k1").
  - intros a b Eq. cbn in Eq. by injection Eq.
  - intros name i n Rg Hn. apply find_some in Rg as [[<-|[]] Eq]. apply String.eqb_eq in Eq. cbn in Eq, Hn.
    injection Eq as Eq. injection Hn as <-. exact Eq.
  - intros Eq. vm_compute in Eq. discriminate.
Defined.

Lemma put_accepted_fresh p r :
  the_put p = inr r -> pr_key r = "k1" -> validate_metadata (pr_metadata r) = inr tt -> small E (pr_value r) ->
  put_accepted E C around (put_by_admin p) admin_caller (w_store fresh) r.
Proof.
  intros Rd K Md Sm. split; try done; [apply resolved_admin_caller|by rewrite K].
Qed.

Definition agent_put : PutRequest string := mkPutRequest string "k1" "secret" (owned tenant_a "AI.a@motherbee").


Lemma fresh_typed : typed (plain E (w_store fresh)).
Proof. intros k x L. unfold plain in L. by rewrite lookup_fmap in L. Qed.


(** The edge is told of its own secret. *)
Lemma edge_hears_only_as_owner_witness :
  exists key new, w_sent (after "put" fresh) = new
    /\ forall n, n ∈ new -> msg (meta n) = Some MSG_VAULT_SECRET_CHANGED -> reaches 0 0 "SY.edge@motherbee" n = true ->
         owner_of (md_of (plain E (w_store (after "put" fresh)) !! key)) = Some "ilk:SY.edge@motherbee".
Proof.
  destruct (edge_hears_only_as_owner E C around (put_by_admin "put") admin_caller fresh "SY.edge@motherbee" 0 0 eq_refl
    (resolved_admin_caller "put") fresh_typed eq_refl) as [Eq|(key & new & Only & El & He)].
  - apply (f_equal (fun x => x !! "k1")) in Eq. vm_compute in Eq. discriminate.
  - assert (key = "k1") as ->.
    { destruct (decide (key = "k1")) as [Ek|Ne]; [exact Ek|]. specialize (Only "k1" (not_eq_sym Ne)).
      vm_compute in Only. discriminate. }
    exists "k1", new. split; [exact El|]. intros n In Mn Rn. exact (He n In Mn Rn).
Defined.

Definition delete_by (node : string) : Message string := ask MSG_VAULT_DELETE node "scoped-b".


(** A node that is no administrator is told the two apart: another tenant's key is not found, a missing one
    is refused. *)
Example foreign_key_told_apart_by_others :
  map msg_payload (w_sent (on_message E C around (delete_by "SY.edge@motherbee") fresh).2)
    = [ErrorBody "UNAUTHORIZED" "unauthorized"]
  /\ map msg_payload (skipn 3 (w_sent (on_message E C around (delete_by "SY.edge@motherbee") (after "put" fresh)).2))
    = [ErrorBody "KEY_NOT_FOUND" "key not found"].
Proof. split; vm_compute; reflexivity. Qed.

Lemma stored_typed : typed (plain E (w_store (after "put" fresh))).
Proof.
  intros k x L. destruct (decide (k = "k1")) as [->|N]; [vm_compute in L; injection L as <-; discriminate|].
  replace (plain E (w_store (after "put" fresh))) with
    (<["k1" := default (mkSecret (anyones "") 0 (inr "") None "" "") (plain E (w_store (after "put" fresh)) !! "k1")]>
       (∅ : gmap string (Secret string))) in L by (vm_compute; reflexivity).
  by rewrite lookup_insert_ne in L.
Qed.

Lemma bootstrap_announces_newest_200_witness :
  exists new, w_sent (emit_bootstrap_secret_broadcasts E C around (after "put" fresh)).2
    = (w_sent (after "put" fresh) ++ new)%list /\ broadcast_keys new = ["k1"].
Proof.
  destruct (bootstrap_announces_newest_200 E C around (after "put" fresh) eq_refl stored_typed) as (new & El & _).
  exists new. split; [exact El|]. clear -El. revert El. vm_compute. intros El. injection El as <-. reflexivity.
Defined.

End VaultExamples.
