(* ===== verification/WfDef.v ===== *)
(** * Workflow definitions and what a workflow reads of a message

    src/go/pkg/wfcel (types.go, validate.go) and the pure functions of
    src/go/nodes/wf/wf-generic/node: the definition of a workflow, the values it holds, [$ref]
    resolution (substitute.go), which transition takes an event (instance.go), which messages
    are notices and replies (dispatch.go), and the references of its timers (timer.go). *)

From Stdlib Require Import ZArith Lia Ascii String.
From stdpp Require Import base list strings gmap.
From S2P Require Import Prelude Protocol.
Open Scope string_scope.

(** ** Values

    A number is an integer or, with its decimal point, the text of a double. An object is its keys
    with their values. [JRaw] is JSON text put in a value as it is ([json.RawMessage]). *)

Inductive JVal :=
| JNull
| JBool (b : bool)
| JInt (z : Z)
| JDouble (text : string)
| JStr (s : string)
| JArr (items : list JVal)
| JObj (fields : list (string * JVal))
| JRaw (bytes : string).

#[local] Abbreviation Obj := (list (string * JVal)).

Fixpoint obj_get (k : string) (o : Obj) : option JVal :=
  match o with
  | [] => None
  | (k', v) :: rest => if k' =s k then Some v else obj_get k rest
  end.

Definition obj_del (k : string) (o : Obj) : Obj := List.filter (fun '(k', _) => negb (k' =s k)) o.

Definition obj_put (k : string) (v : JVal) (o : Obj) : Obj := ((k, v) :: obj_del k o)%list.

(** [strconv.ParseInt] of a decimal [int64]. *)
Fixpoint decimal (acc : Z) (s : string) : option Z :=
  match s with
  | EmptyString => Some acc
  | String c r => if ascii_between 48 57 c then decimal (acc * 10 + (Z.of_N (N_of_ascii c) - 48)) r else None
  end.

Definition ParseInt (s : string) : option Z :=
  let digits t := if str_is_empty t then None else decimal 0 t in
  let signed := match s with
                | String "-" t => option_map Z.opp (digits t)
                | String "+" t => digits t
                | _ => digits s
                end in
  match signed with
  | Some z => if ((- 2 ^ 63 <=? z) && (z <? 2 ^ 63))%Z then Some z else None
  | None => None
  end.

(** ** [$ref] (substitute.go, and [AsRef] of validate.go) *)

Record Ref := mkRef { ref_path : string; ref_default : option JVal }.

Definition isWorkflowRef (o : Obj) : option string :=
  match obj_get "$ref" o with
  | Some (JStr path) =>
    if str_contains path "#" || str_contains path "/" || str_contains path ":" then None else Some path
  | _ => None
  end.

Definition asRef (o : Obj) : option Ref :=
  match isWorkflowRef o with
  | None => None
  | Some path =>
    match length o, obj_get "default" o with
    | 1%nat, d => Some (mkRef (Prelude.trim path) d)
    | 2%nat, Some d => Some (mkRef (Prelude.trim path) (Some d))
    | _, _ => None
    end
  end.

Fixpoint splitDotPath_from (part : string) (path : string) : list string :=
  match path with
  | EmptyString => [part]
  | String c rest =>
    if Ascii.eqb c "." then part :: splitDotPath_from "" rest
    else splitDotPath_from (part ++ String c "") rest
  end.

Definition splitDotPath (path : string) : list string := splitDotPath_from "" path.

(** Why a reference has no value: its path leads nowhere, or it is no path at all. *)
Inductive RefError := RefMissing | RefInvalid.

Fixpoint walkMap (cur : JVal) (keys : list string) : JVal + RefError :=
  match keys with
  | [] => inl cur
  | key :: rest =>
    match cur with
    | JObj o => match obj_get key o with Some v => walkMap v rest | None => inr RefMissing end
    | _ => inr RefMissing
    end
  end.

(** What an action sees: the instance's input and state, and the event. *)
Record Scope := mkScope { sc_input : Obj; sc_state : Obj; sc_event : Obj }.

Definition lookupRef (path : string) (sc : Scope) : JVal + RefError :=
  match splitDotPath path with
  | root :: ((_ :: _) as keys) =>
    if root =s "input" then walkMap (JObj (sc_input sc)) keys
    else if root =s "state" then walkMap (JObj (sc_state sc)) keys
    else if root =s "event" then walkMap (JObj (sc_event sc)) keys
    else inr RefInvalid
  | _ => inr RefInvalid
  end.

(** [None]: the action fails. *)
Definition resolve_ref (r : Ref) (sc : Scope) : option JVal :=
  match lookupRef (ref_path r) sc, ref_default r with
  | inr RefMissing, Some d | inl JNull, Some d => Some d
  | inl v, _ => Some v
  | inr _, _ => None
  end.

Fixpoint resolve (sc : Scope) (v : JVal) {struct v} : option JVal :=
  match v with
  | JObj o =>
    match asRef o with
    | Some r => resolve_ref r sc
    | None =>
      option_map JObj ((fix go (o : Obj) : option Obj :=
        match o with
        | [] => Some []
        | (k, child) :: rest =>
          match resolve sc child, go rest with
          | Some c, Some r => Some ((k, c) :: r)
          | _, _ => None
          end
        end) o)
    end
  | JArr l =>
    option_map JArr ((fix go (l : list JVal) : option (list JVal) :=
      match l with
      | [] => Some []
      | child :: rest =>
        match resolve sc child, go rest with
        | Some c, Some r => Some (c :: r)
        | _, _ => None
        end
      end) l)
  | _ => Some v
  end.

(** ** Definitions (types.go) *)

Record EventMatch := mkEventMatch { em_msg : string; em_src : string }.

Inductive OnError := OnErrorDefault | OnErrorContinue | OnErrorFail.

(** A timer action's time, and the policy of a fire missed. *)
Record TimerSpec := mkTimerSpec {
  ts_key : string; ts_fire_in : JVal; ts_fire_at : JVal; ts_missed_policy : string; ts_missed_within : option Z }.

(** What a [send_message] and a [forward] write in the message's context: [meta.context], and the
    block of the workflow with its vars, its menu and its subject. *)
Record SendSpec := mkSendSpec {
  ss_target : string; ss_context : option JVal; ss_vars : option JVal; ss_menu : option JVal; ss_subject : string }.

Inductive Action :=
| ASendMessage (s : SendSpec) (msg_name : string) (payload : JVal)
| AForward (s : SendSpec) (message : string)
| AKeepMessage (name : string)
| AEmitInternalEvent (msg_name : string) (payload : JVal)
| AScheduleTimer (t : TimerSpec)
| ACancelTimer (key : string)
| ARescheduleTimer (t : TimerSpec)
| ASetVariable (name : string) (value : JVal)
| AUnknown (type : string).

Record ActionDefinition := mkActionDefinition { act : Action; on_error : OnError }.

(** [G] is the type of a compiled guard. *)
Record TransitionDefinition {G : Type} := mkTransition {
  event_match : EventMatch; program : option G; target_state : string; t_actions : list ActionDefinition }.
Arguments TransitionDefinition : clear implicits.

Record StateDefinition {G : Type} := mkStateDefinition {
  st_name : string; entry_actions : list ActionDefinition; exit_actions : list ActionDefinition;
  transitions : list (TransitionDefinition G) }.
Arguments StateDefinition : clear implicits.

Record WorkflowDefinition {G : Type} := mkDefinition {
  workflow_type : string; start_from : list string; initial_state : string; terminal_states : list string;
  states : list (StateDefinition G); catch : list (TransitionDefinition G);
  idle_timeout : string }.
Arguments WorkflowDefinition : clear implicits.

(** [EffectiveOnError]: whether the action's failure halts its transition. *)
Definition fails (a : ActionDefinition) : bool :=
  match on_error a with
  | OnErrorContinue => false
  | OnErrorFail => true
  | OnErrorDefault =>
    match act a with
    | ASendMessage _ _ _ | AForward _ _ | AKeepMessage _ | ASetVariable _ _ | AEmitInternalEvent _ _ => true
    | _ => false
    end
  end.

Section Definitions.
Context {G V : Type}.
Implicit Types (def : WorkflowDefinition G) (m : Message V).

Definition findState def (name : string) : option (StateDefinition G) :=
  List.find (fun s => st_name s =s name) (states def).

Definition isTerminalState def (name : string) : bool := str_mem name (terminal_states def).

(** Every action of the definition, the catch's included ([eachAction]). *)
Definition eachAction def : list ActionDefinition :=
  (flat_map (fun s => entry_actions s ++ exit_actions s ++ flat_map t_actions (transitions s)) (states def)
   ++ flat_map t_actions (catch def))%list.

Definition send_target (a : ActionDefinition) : option string :=
  match act a with
  | ASendMessage s _ _ | AForward s _ => Some (ss_target s)
  | _ => None
  end.

Definition StartsFrom def (name : string) : bool := negb (str_is_empty name) && str_mem name (start_from def).

(** The nodes written in a definition, which may drive its instances. *)
Definition Involves def (name : string) : bool :=
  StartsFrom def name
  || (negb (str_is_empty name)
      && (existsb (fun s => existsb (fun t => em_src (event_match t) =s name) (transitions s)) (states def)
          || existsb (fun t => em_src (event_match t) =s name) (catch def)
          || existsb (fun a => opt_str_is (send_target a) name) (eachAction def))).

(** ** Names *)

(** [strings.ToUpper], of the characters whose upper case is ASCII: the letters, the dotless i
    (U+0131) and the long s (U+017F). *)
Fixpoint go_upper (s : string) : string :=
  match s with
  | EmptyString => EmptyString
  | String a (String b rest as r) =>
    if ascii_is 196 a && ascii_is 177 b then String "I" (go_upper rest)
    else if ascii_is 197 a && ascii_is 191 b then String "S" (go_upper rest)
    else String (ascii_upper a) (go_upper r)
  | String a r => String (ascii_upper a) (go_upper r)
  end.

Definition IsAgent (name : string) : bool := starts_with (go_upper (Prelude.trim name)) "AI.".
Definition IsIO (name : string) : bool := starts_with (go_upper (Prelude.trim name)) "IO.".

Definition sourceL2Name m : string := unwrap_or "" (src_l2_name (routing m)).
Definition rawMsgName m : string := unwrap_or "" (msg (meta m)).

Definition nodeHive (node_name : string) : string :=
  match split_once "@" (Prelude.trim node_name) with Some (_, hive) => Prelude.trim hive | None => "" end.

Definition hive_service (service node_name : string) : string :=
  let hive := nodeHive node_name in if str_is_empty hive then "" else service ++ "@" ++ hive.

Definition wfRulesNode (node_name : string) : string := hive_service "SY.wf-rules" node_name.
Definition timerAuthority (node_name : string) : string := hive_service "SY.timer" node_name.

(** ** Which messages are events *)

Definition MsgTimerFired : string := "TIMER_FIRED".
Definition msgNotTaken : string := "NOT_TAKEN".

Definition isNotice m : bool :=
  str_is_empty (Prelude.trim (sourceL2Name m))
  || (let name := rawMsgName m in
      if str_is_empty name then is_system_kind (msg_type (meta m))
      else str_mem name ["HELLO"; "ANNOUNCE"; "WITHDRAW"; "ECHO"; "ECHO_REPLY"; "UNREACHABLE"; "TTL_EXCEEDED"; "TIMER_HELP"]).

Definition isReply (name : string) : bool :=
  ends_with name "_RESPONSE" || (name =s msgNotTaken) || ends_with name ".error".

Definition neverAnswered m : bool := isNotice m || str_is_empty (rawMsgName m) || isReply (rawMsgName m).

Definition PrimaryAdminNode : string := "SY.admin@motherbee".

Definition controlCallerAuthorized (node_name sender : string) : bool :=
  let sender := Prelude.trim sender in
  (sender =s PrimaryAdminNode)
  || (let rules := wfRulesNode node_name in negb (str_is_empty rules) && (sender =s rules)).

(** A message a node sent the workflow: not an internal event, not a system message. *)
Definition receivedFromANode m : bool :=
  negb (str_is_empty (sourceL2Name m)) && negb (is_system_kind (msg_type (meta m))).

(** ** Which transition takes an event *)

Definition matchesEvent (em : EventMatch) m : bool :=
  if str_is_empty (Prelude.trim (em_msg em)) && str_is_empty (em_src em) then false
  else if negb (str_is_empty (em_msg em)) && negb (opt_str_is (msg (meta m)) (em_msg em)) then false
  else str_is_empty (em_src em) || (sourceL2Name m =s em_src em).

Definition catchMatches (em : EventMatch) m : bool :=
  if str_is_empty (Prelude.trim (em_msg em)) && str_is_empty (em_src em) then true else matchesEvent em m.

(** Whether an event starts a new count of agent calls. *)
Definition startsATrigger m (self : string) : bool :=
  if is_system_kind (msg_type (meta m)) then rawMsgName m =s MsgTimerFired
  else let sender := sourceL2Name m in
    negb (str_is_empty sender) && negb (sender =s self) && negb (IsAgent sender).

End Definitions.

(** ** Statuses *)

Inductive Status := running | completed | cancelled | failed.

#[export] Instance Status_eq_dec : EqDecision Status.
Proof. solve_decision. Defined.

(** [strings.ToLower], of the characters whose lower case is ASCII: the letters, the dotted I
    (U+0130) and the kelvin sign (U+212A). *)
Fixpoint go_lower (s : string) : string :=
  match s with
  | EmptyString => EmptyString
  | String a r =>
    match r with
    | String b (String c rest2 as rest) =>
      if ascii_is 196 a && ascii_is 176 b then String "i" (go_lower rest)
      else if ascii_is 226 a && ascii_is 132 b && ascii_is 170 c then String "k" (go_lower rest2)
      else String (ascii_lower a) (go_lower r)
    | String b EmptyString =>
      if ascii_is 196 a && ascii_is 176 b then "i" else String (ascii_lower a) (go_lower r)
    | EmptyString => String (ascii_lower a) ""
    end
  end.

Definition terminalStatus (state_name : string) : Status :=
  let lower := go_lower state_name in
  if lower =s "cancelled" then cancelled else if lower =s "failed" then failed else completed.

(** ** Timer references (timer.go) *)

Definition timerClientRef (instance_id timer_key : string) : string := "wf:" ++ instance_id ++ "::" ++ timer_key.

(** [indexOf(after, "::")] with what is before and after it. *)
Fixpoint cut_double_colon (s : string) : option (string * string) :=
  match s with
  | EmptyString => None
  | String a r =>
    if starts_with s "::" then Some ("", match r with String _ r' => r' | EmptyString => "" end)
    else match cut_double_colon r with Some (before, after) => Some (String a before, after) | None => None end
  end.

Definition parseTimerClientRef (ref : string) : option (string * string) :=
  match strip_prefix "wf:" ref with
  | None => None
  | Some after =>
    match cut_double_colon after with
    | Some (id, key) => if str_is_empty id || str_is_empty key then None else Some (id, key)
    | None => None
    end
  end.
