(* ===== verification/WfStore.v ===== *)
(** * The workflow node's store (src/go/nodes/wf/wf-generic/node/store.go)

    The SQLite tables of a workflow node, and each of its transactions as one function: it applies
    whole or not at all. The instances' log is left out: nothing the engine does reads it. *)

From Stdlib Require Import ZArith Lia Ascii String Sorting.Sorted.
From stdpp Require Import base list strings gmap.
From S2P Require Import Prelude Protocol WfDef.
Open Scope string_scope.

(** ** Rows *)

Record WFInstanceRow := mkInstanceRow {
  r_instance_id : string; r_thread_id : string; r_workflow_type : string; r_definition_hash : string;
  r_status : Status; r_current_state : string; input_json : string; state_json : string;
  r_current_trace_id : string; r_created_at_ms : Z; r_updated_at_ms : Z; r_terminated_at_ms : option Z;
  r_person_ilk : string; r_person_ich : string; r_person_io : string }.

Record TimerRow := mkTimerRow {
  tm_instance_id : string; tm_timer_key : string; scheduled_at_ms : Z; fire_at_ms : Z }.

Record InternalEventRow := mkInternalEvent {
  ie_event_id : Z; ie_instance_id : string; ie_msg_type : string; ie_msg_name : string;
  payload_json : string; ie_trace_id : string; ie_created_at_ms : Z; ie_attempts : Z }.

Inductive InboundKind := inboundCreate | inboundEvent.

Record InboundEventRow := mkInboundEvent {
  in_event_id : Z; in_instance_id : string; in_kind : InboundKind; message_json : string;
  received_at_ms : Z; in_attempts : Z }.

Record KeptMessageRow := mkKeptRow {
  k_instance_id : string; k_name : string; k_message_json : string; kept_at_ms : Z }.

Record DefinitionRow := mkDefinitionRow {
  d_hash : string; d_workflow_type : string; definition_json : string; loaded_at_ms : Z }.

Record InstanceCommitMutation := mkMutation {
  ConsumedInternalEventID : option Z;
  ConsumedInboundEventID : option Z;
  EnqueueInternalEvents : list InternalEventRow;
  ClearInternalEvents : bool;
  KeepMessages : list KeptMessageRow;
  DropKeptMessages : bool }.

(** The tables; the two event tables are in the order of their ids, each with the last id it gave
    ([AUTOINCREMENT]: never given again). *)
Record Store := mkStore {
  wf_definitions : gmap string DefinitionRow;
  wf_instances : gmap string WFInstanceRow;
  wf_internal_events : list InternalEventRow; internal_seq : Z;
  wf_inbound_events : list InboundEventRow; inbound_seq : Z;
  wf_kept_messages : gmap (string * string) KeptMessageRow;
  wf_instance_timers : gmap (string * string) TimerRow }.

Definition set_definitions f (s : Store) : Store :=
  mkStore (f (wf_definitions s)) (wf_instances s) (wf_internal_events s) (internal_seq s)
    (wf_inbound_events s) (inbound_seq s) (wf_kept_messages s) (wf_instance_timers s).

Definition set_instances f (s : Store) : Store :=
  mkStore (wf_definitions s) (f (wf_instances s)) (wf_internal_events s) (internal_seq s)
    (wf_inbound_events s) (inbound_seq s) (wf_kept_messages s) (wf_instance_timers s).

Definition set_internal f (s : Store) : Store :=
  mkStore (wf_definitions s) (wf_instances s) (f (wf_internal_events s)) (internal_seq s)
    (wf_inbound_events s) (inbound_seq s) (wf_kept_messages s) (wf_instance_timers s).

Definition set_inbound f (s : Store) : Store :=
  mkStore (wf_definitions s) (wf_instances s) (wf_internal_events s) (internal_seq s)
    (f (wf_inbound_events s)) (inbound_seq s) (wf_kept_messages s) (wf_instance_timers s).

Definition set_kept f (s : Store) : Store :=
  mkStore (wf_definitions s) (wf_instances s) (wf_internal_events s) (internal_seq s)
    (wf_inbound_events s) (inbound_seq s) (f (wf_kept_messages s)) (wf_instance_timers s).

Definition set_timers f (s : Store) : Store :=
  mkStore (wf_definitions s) (wf_instances s) (wf_internal_events s) (internal_seq s)
    (wf_inbound_events s) (inbound_seq s) (wf_kept_messages s) (f (wf_instance_timers s)).

(** ** Definitions *)

Definition PutDefinition (row : DefinitionRow) : Store -> Store :=
  set_definitions (fun defs =>
    match defs !! d_hash row with
    | Some kept => <[d_hash row := mkDefinitionRow (d_hash kept) (d_workflow_type kept) (definition_json kept)
                                     (loaded_at_ms row)]> defs
    | None => <[d_hash row := row]> defs
    end).

Definition GetDefinition (hash : string) (s : Store) : option DefinitionRow := wf_definitions s !! hash.

Definition is_running (r : WFInstanceRow) : bool := bool_decide (r_status r = running).

Definition used_by_running (s : Store) (hash : string) : bool :=
  existsb (fun '(_, r) => is_running r && (r_definition_hash r =s hash)) (map_to_list (wf_instances s)).

Definition PruneDefinitions (current : string) (s : Store) : Store :=
  set_definitions (filter (fun '(hash, _) => (hash =s current) || used_by_running s hash = true)) s.

(** ** Instances *)

Definition GetInstance (id : string) (s : Store) : option WFInstanceRow := wf_instances s !! id.

(** The upsert: an existing row keeps its thread, its type, its definition, its input and when it
    was created. *)
Definition upsert (inst : WFInstanceRow) (rows : gmap string WFInstanceRow) : gmap string WFInstanceRow :=
  match rows !! r_instance_id inst with
  | Some old =>
    <[r_instance_id inst :=
        mkInstanceRow (r_instance_id old) (r_thread_id old) (r_workflow_type old) (r_definition_hash old)
          (r_status inst) (r_current_state inst) (input_json old) (state_json inst) (r_current_trace_id inst)
          (r_created_at_ms old) (r_updated_at_ms inst) (r_terminated_at_ms inst)
          (r_person_ilk inst) (r_person_ich inst) (r_person_io inst)]> rows
  | None => <[r_instance_id inst := inst]> rows
  end.

Definition of_other {A} (owner : A -> string) (id : string) (rows : list A) : list A :=
  List.filter (fun r => negb (owner r =s id)) rows.

(** One [INSERT] into the queue: the row's own id and attempts are the table's to give. *)
Definition enqueue (s : Store) (ev : InternalEventRow) : Store :=
  let id := (internal_seq s + 1)%Z in
  mkStore (wf_definitions s) (wf_instances s)
    (wf_internal_events s ++ [mkInternalEvent id (ie_instance_id ev) (ie_msg_type ev) (ie_msg_name ev)
                                (payload_json ev) (ie_trace_id ev) (ie_created_at_ms ev) 0])
    id (wf_inbound_events s) (inbound_seq s) (wf_kept_messages s) (wf_instance_timers s).

Definition keep_row (kept : gmap (string * string) KeptMessageRow) (row : KeptMessageRow) :=
  <[(k_instance_id row, k_name row) := row]> kept.

Definition drop_kept (id : string) (kept : gmap (string * string) KeptMessageRow) :=
  filter (fun '((owner, _), _) => owner <> id) kept.

(** The queue rows a mutation deletes. *)
Definition dequeue (id : string) (m : InstanceCommitMutation) (rows : list InternalEventRow) : list InternalEventRow :=
  if ClearInternalEvents m then of_other ie_instance_id id rows
  else match ConsumedInternalEventID m with
       | Some e => List.filter (fun r => negb ((ie_instance_id r =s id) && (ie_event_id r =? e)%Z)) rows
       | None => rows
       end.

(** The journal rows a mutation deletes: the consumed one and the instance's earlier ones. *)
Definition consume (id : string) (m : InstanceCommitMutation) (rows : list InboundEventRow) : list InboundEventRow :=
  match ConsumedInboundEventID m with
  | Some e => List.filter (fun r => negb ((in_instance_id r =s id) && (in_event_id r <=? e)%Z)) rows
  | None => rows
  end.

(** [None]: it is refused before the transaction. *)
Definition CommitInstanceMutation (inst : WFInstanceRow) (m : InstanceCommitMutation) (s : Store) : option Store :=
  let id := r_instance_id inst in
  match ClearInternalEvents m, EnqueueInternalEvents m with
  | true, _ :: _ => None
  | _, events =>
    let s := set_instances (upsert inst) s in
    let s := set_internal (dequeue id m) s in
    let s := set_inbound (consume id m) s in
    let s := foldl enqueue s events in
    Some (set_kept (if DropKeptMessages m then drop_kept id else fun kept => foldl keep_row kept (KeepMessages m)) s)
  end.

Definition ListKeptMessages (id : string) (s : Store) : list KeptMessageRow :=
  sort_by (fun a b => String.compare (k_name a) (k_name b))
    (List.filter (fun r => k_instance_id r =s id) (map snd (map_to_list (wf_kept_messages s)))).

Definition FailInstance (id : string) (now_ms : Z) (s : Store) : Store :=
  let s := set_instances (alter (fun r =>
    mkInstanceRow (r_instance_id r) (r_thread_id r) (r_workflow_type r) (r_definition_hash r) failed
      (r_current_state r) (input_json r) (state_json r) "" (r_created_at_ms r) now_ms (Some now_ms)
      (r_person_ilk r) (r_person_ich r) (r_person_io r)) id) s in
  let s := set_internal (of_other ie_instance_id id) s in
  let s := set_inbound (of_other in_instance_id id) s in
  set_kept (drop_kept id) s.

Definition LoadRunningInstances (s : Store) : list WFInstanceRow :=
  sort_by (fun a b => then_with (Z.compare (r_created_at_ms a) (r_created_at_ms b))
                        (String.compare (r_instance_id a) (r_instance_id b)))
    (List.filter is_running (map snd (map_to_list (wf_instances s)))).

(** ** The inbound journal *)

Definition JournalInbound (row : InboundEventRow) (fired_timer_key : string) (s : Store) : Store :=
  let id := (inbound_seq s + 1)%Z in
  mkStore (wf_definitions s) (wf_instances s) (wf_internal_events s) (internal_seq s)
    (wf_inbound_events s ++ [mkInboundEvent id (in_instance_id row) (in_kind row) (message_json row) (received_at_ms row) 0])
    id (wf_kept_messages s)
    (if str_is_empty fired_timer_key then wf_instance_timers s
     else delete (in_instance_id row, fired_timer_key) (wf_instance_timers s)).

Definition ListInboundEvents (s : Store) : list InboundEventRow := wf_inbound_events s.

Definition CountInboundAttempt (event_id : Z) : Store -> Store :=
  set_inbound (List.map (fun r =>
    if (in_event_id r =? event_id)%Z
    then mkInboundEvent (in_event_id r) (in_instance_id r) (in_kind r) (message_json r) (received_at_ms r) (in_attempts r + 1)
    else r)).

Definition CountInternalAttempt (event_id : Z) : Store -> Store :=
  set_internal (List.map (fun r =>
    if (ie_event_id r =? event_id)%Z
    then mkInternalEvent (ie_event_id r) (ie_instance_id r) (ie_msg_type r) (ie_msg_name r) (payload_json r)
           (ie_trace_id r) (ie_created_at_ms r) (ie_attempts r + 1)
    else r)).

Definition RetargetInboundEvent (event_id : Z) (id : string) : Store -> Store :=
  set_inbound (List.map (fun r =>
    if (in_event_id r =? event_id)%Z
    then mkInboundEvent (in_event_id r) id inboundEvent (message_json r) (received_at_ms r) (in_attempts r)
    else r)).

Definition DeleteInboundEvent (event_id : Z) : Store -> Store :=
  set_inbound (List.filter (fun r => negb (in_event_id r =? event_id)%Z)).

(** ** The internal events' queue *)

Definition GetNextInternalEvent (id : string) (s : Store) : option InternalEventRow :=
  List.find (fun r => ie_instance_id r =s id) (wf_internal_events s).

(** ** The timer index *)

Definition RegisterTimer (id key : string) (scheduled fire_at : Z) : Store -> Store :=
  set_timers (<[(id, key) := mkTimerRow id key scheduled fire_at]>).

Definition DeleteTimer (id key : string) : Store -> Store := set_timers (delete (id, key)).

Definition timer_cmp (a b : TimerRow) : comparison :=
  then_with (String.compare (tm_instance_id a) (tm_instance_id b)) (String.compare (tm_timer_key a) (tm_timer_key b)).

Definition ListTimersForInstance (id : string) (s : Store) : list TimerRow :=
  sort_by timer_cmp (List.filter (fun t => tm_instance_id t =s id) (map snd (map_to_list (wf_instance_timers s)))).

Definition GetTimerForInstance (id key : string) (s : Store) : option TimerRow := wf_instance_timers s !! (id, key).

Definition ListAllExpectedTimers (s : Store) : list TimerRow :=
  sort_by (fun a b => then_with (Z.compare (fire_at_ms a) (fire_at_ms b)) (timer_cmp a b))
    (map snd (map_to_list (wf_instance_timers s))).

(** ** The collection of ended instances

    Its deletes are one transaction each, in this order: a crash may leave any number of them
    undone. *)

Definition terminated_before (cutoff_ms : Z) (s : Store) : list string :=
  omap (fun '(id, r) => match r_terminated_at_ms r with
                        | Some t => if (t <? cutoff_ms)%Z then Some id else None
                        | None => None
                        end) (map_to_list (wf_instances s)).

Definition deletes_of (id : string) : list (Store -> Store) :=
  [ set_timers (filter (fun '((owner, _), _) => owner <> id));
    set_internal (of_other ie_instance_id id);
    set_inbound (of_other in_instance_id id);
    set_kept (drop_kept id);
    set_instances (delete id) ].

Definition DeleteTerminatedBefore (cutoff_ms : Z) (s : Store) : list (Store -> Store) :=
  flat_map deletes_of (terminated_before cutoff_ms s).

(** ** What every transaction keeps

    An instance has ended exactly when its row says when; an event waits, and a message is kept, only
    for an instance that runs; ids of the two event tables grow; a timer is under its own key. *)

Definition row_ok (r : WFInstanceRow) : Prop := r_status r = running <-> r_terminated_at_ms r = None.

Definition runs (s : Store) (id : string) : Prop :=
  exists r, wf_instances s !! id = Some r /\ r_status r = running.

Definition ids_ok (ids : list Z) (last : Z) : Prop :=
  StronglySorted Z.lt ids /\ Forall (fun i => (i <= last)%Z) ids.

Record store_ok (s : Store) : Prop := mk_store_ok {
  so_rows : forall id r, wf_instances s !! id = Some r -> r_instance_id r = id /\ row_ok r;
  so_queue : forall e, e ∈ wf_internal_events s -> runs s (ie_instance_id e);
  so_kept : forall id name k, wf_kept_messages s !! (id, name) = Some k -> runs s id;
  so_internal_ids : ids_ok (map ie_event_id (wf_internal_events s)) (internal_seq s);
  so_inbound_ids : ids_ok (map in_event_id (wf_inbound_events s)) (inbound_seq s);
  so_timers : forall id key t, wf_instance_timers s !! (id, key) = Some t ->
                tm_instance_id t = id /\ tm_timer_key t = key }.

Lemma no_rows_ok : store_ok (mkStore ∅ ∅ [] 0 [] 0 ∅ ∅).
Proof.
  split; cbn; try (intros *; rewrite lookup_empty; done); try (by intros ? ?%elem_of_nil); by split; constructor.
Qed.

Lemma ids_ok_filter {A} (key : A -> Z) f l last : ids_ok (map key l) last -> ids_ok (map key (List.filter f l)) last.
Proof.
  intros [Hs Hf]. induction l as [|x l IH]; cbn in *; [by split|].
  apply StronglySorted_inv in Hs as [Hs Hx]. apply Forall_cons in Hf as [Hl Hf].
  destruct (IH Hs Hf) as [Hs' Hf']. destruct (f x); [|by split]. cbn. split; [|by constructor].
  constructor; [done|]. apply Forall_forall. intros y (z & -> & Hz)%list_elem_of_fmap.
  rewrite Forall_forall in Hx. apply Hx, list_elem_of_fmap. exists z. split; [done|].
  apply list_elem_of_In in Hz. apply filter_In in Hz as [Hz _]. by apply list_elem_of_In.
Qed.

Lemma ids_ok_snoc ids last : ids_ok ids last -> ids_ok (ids ++ [last + 1]%Z)%list (last + 1).
Proof.
  intros [Hs Hf]. split.
  - induction ids as [|x l IH]; cbn; [by repeat constructor|].
    apply StronglySorted_inv in Hs as [Hs Hx]. apply Forall_cons in Hf as [Hl Hf].
    constructor; [by apply IH|]. apply Forall_app. split; [done|]. by repeat constructor; lia.
  - apply Forall_app. split; [|by repeat constructor].
    eapply Forall_impl; [exact Hf|]. cbn. lia.
Qed.

Lemma map_same_key {A B} (f : A -> A) (key : A -> B) l : (forall x, key (f x) = key x) -> map key (map f l) = map key l.
Proof. intros H. rewrite map_map. apply map_ext. done. Qed.

Lemma elem_of_filter_l {A} (f : A -> bool) l x : x ∈ List.filter f l <-> x ∈ l /\ f x = true.
Proof. rewrite !list_elem_of_In. apply filter_In. Qed.

(** What a transaction that leaves the instances as they are keeps, when it adds no event. *)
Lemma store_ok_sub s s' :
  store_ok s -> wf_instances s' = wf_instances s ->
  (forall e, e ∈ wf_internal_events s' -> exists e', e' ∈ wf_internal_events s /\ ie_instance_id e' = ie_instance_id e) ->
  (forall k x, wf_kept_messages s' !! k = Some x -> is_Some (wf_kept_messages s !! k)) ->
  ids_ok (map ie_event_id (wf_internal_events s')) (internal_seq s') ->
  ids_ok (map in_event_id (wf_inbound_events s')) (inbound_seq s') ->
  (forall id key t, wf_instance_timers s' !! (id, key) = Some t -> tm_instance_id t = id /\ tm_timer_key t = key) ->
  store_ok s'.
Proof.
  intros [H1 H2 H3 H4 H5 H6] Hi Hq Hk H4' H5' H6'.
  assert (forall id, runs s' id <-> runs s id) as Hr by (intros; unfold runs; by rewrite Hi).
  split; try done.
  - by rewrite Hi.
  - intros e (e' & He' & <-)%Hq. by apply Hr, H2.
  - intros id name k [x Hx]%Hk. apply Hr. by eapply H3.
Qed.

Ltac store_sub :=
  match goal with
  | H : store_ok ?s |- _ =>
    apply (store_ok_sub s); [exact H|reflexivity| | | | |];
    [ try by intros e He; exists e | try by intros k x Hx; exists x
    | try exact (so_internal_ids s H) | try exact (so_inbound_ids s H) | try exact (so_timers s H) ]
  end.

Lemma timers_store_ok f s : store_ok s ->
  (forall id key t, f (wf_instance_timers s) !! (id, key) = Some t -> tm_instance_id t = id /\ tm_timer_key t = key) ->
  store_ok (set_timers f s).
Proof. intros Hs Hf. store_sub. exact Hf. Qed.

Lemma RegisterTimer_ok id key a b s : store_ok s -> store_ok (RegisterTimer id key a b s).
Proof.
  intros Hs. apply timers_store_ok; [done|]. intros id' key' t [[[= <- <-] <-]|[_ H]]%lookup_insert_Some; [done|].
  by eapply so_timers.
Qed.

Lemma DeleteTimer_ok id key s : store_ok s -> store_ok (DeleteTimer id key s).
Proof. intros Hs. apply timers_store_ok; [done|]. intros id' key' t [_ H]%lookup_delete_Some. by eapply so_timers. Qed.

Lemma JournalInbound_ok row key s : store_ok s -> store_ok (JournalInbound row key s).
Proof.
  intros Hs. store_sub.
  - cbn. rewrite map_app. by apply ids_ok_snoc, so_inbound_ids.
  - intros id k t. cbn. case_match; [by apply so_timers|]. intros [_ Ht]%lookup_delete_Some. by eapply so_timers.
Qed.

Lemma inbound_map_ok f s : (forall r, in_event_id (f r) = in_event_id r) -> store_ok s -> store_ok (set_inbound (map f) s).
Proof. intros Hf Hs. store_sub. cbn. rewrite map_same_key by done. by apply so_inbound_ids. Qed.

Lemma CountInboundAttempt_ok e s : store_ok s -> store_ok (CountInboundAttempt e s).
Proof. apply inbound_map_ok. intros r. by destruct (in_event_id r =? e)%Z. Qed.

Lemma RetargetInboundEvent_ok e id s : store_ok s -> store_ok (RetargetInboundEvent e id s).
Proof. apply inbound_map_ok. intros r. by destruct (in_event_id r =? e)%Z. Qed.

Lemma inbound_filter_ok f s : store_ok s -> store_ok (set_inbound (List.filter f) s).
Proof. intros Hs. store_sub. exact (ids_ok_filter _ _ _ _ (so_inbound_ids s Hs)). Qed.

Lemma CountInternalAttempt_ok e s : store_ok s -> store_ok (CountInternalAttempt e s).
Proof.
  intros Hs. store_sub.
  - cbn. intros x (y & -> & Hy)%list_elem_of_fmap. exists y. split; [done|]. by destruct (ie_event_id y =? e)%Z.
  - cbn. rewrite map_same_key; [by apply so_internal_ids|]. intros r. by destruct (ie_event_id r =? e)%Z.
Qed.

Lemma internal_filter_ok f s : store_ok s -> store_ok (set_internal (List.filter f) s).
Proof.
  intros Hs. store_sub.
  - cbn. intros e [He _]%elem_of_filter_l. by exists e.
  - exact (ids_ok_filter _ _ _ _ (so_internal_ids s Hs)).
Qed.

Lemma PutDefinition_ok row s : store_ok s -> store_ok (PutDefinition row s).
Proof. intros Hs. store_sub. Qed.

Lemma PruneDefinitions_ok hash s : store_ok s -> store_ok (PruneDefinitions hash s).
Proof. intros Hs. store_sub. Qed.

Lemma drop_kept_lookup id kept id' name k :
  drop_kept id kept !! (id', name) = Some k <-> kept !! (id', name) = Some k /\ id' <> id.
Proof. unfold drop_kept. rewrite map_lookup_filter_Some. done. Qed.

Lemma drop_kept_ok id s : store_ok s -> store_ok (set_kept (drop_kept id) s).
Proof. intros Hs. store_sub. cbn. intros [i n] x [H _]%drop_kept_lookup. by exists x. Qed.

(** A transaction that changes the instance [id] alone: its row may only stop running once its events
    and its kept messages are gone. *)
Lemma instances_store_ok f id s :
  store_ok s ->
  (forall j, j <> id -> f (wf_instances s) !! j = wf_instances s !! j) ->
  (forall r, f (wf_instances s) !! id = Some r -> r_instance_id r = id /\ row_ok r) ->
  ((exists r, f (wf_instances s) !! id = Some r /\ r_status r = running)
   \/ (Forall (fun e => ie_instance_id e <> id) (wf_internal_events s)
       /\ forall name, wf_kept_messages s !! (id, name) = None)) ->
  store_ok (set_instances f s).
Proof.
  intros [H1 H2 H3 H4 H5 H6] Hoth Hrow Hid.
  assert (forall j, runs s j -> (j = id -> exists r, f (wf_instances s) !! id = Some r /\ r_status r = running) ->
            runs (set_instances f s) j) as Hruns.
  { intros j (r & Hr & Hst) Hj. destruct (decide (j = id)) as [->|Hne]; [by apply Hj|].
    exists r. cbn. by rewrite Hoth. }
  split; cbn; try done.
  - intros j r Hr. destruct (decide (j = id)) as [->|Hne]; [by apply Hrow|]. apply H1. by rewrite <- Hoth.
  - intros e He. apply Hruns; [by apply H2|]. intros Heq. destruct Hid as [Hid|[Hid _]]; [done|].
    rewrite Forall_forall in Hid. by destruct (Hid e He).
  - intros j name k Hk. apply Hruns; [by eapply H3|]. intros ->. destruct Hid as [Hid|[_ Hid]]; [done|].
    by rewrite Hid in Hk.
Qed.

Lemma enqueue_ok s e : store_ok s -> runs s (ie_instance_id e) -> store_ok (enqueue s e).
Proof.
  intros [H1 H2 H3 H4 H5 H6] Hr. split; cbn; try done.
  - intros x [Hx|Hx]%elem_of_app; [by apply H2|]. apply elem_of_cons in Hx as [->|[]%elem_of_nil]. done.
  - rewrite map_app. by apply ids_ok_snoc.
Qed.

Lemma enqueue_all_ok l s : store_ok s -> Forall (fun e => runs s (ie_instance_id e)) l -> store_ok (foldl enqueue s l).
Proof.
  revert s. induction l as [|e l IH]; intros s Hs Hl; [done|]. apply Forall_cons in Hl as [He Hl].
  cbn. apply IH; [by apply enqueue_ok|]. eapply Forall_impl; [exact Hl|]. done.
Qed.

Lemma enqueue_all_frame l s :
  wf_instances (foldl enqueue s l) = wf_instances s /\ wf_kept_messages (foldl enqueue s l) = wf_kept_messages s
  /\ wf_inbound_events (foldl enqueue s l) = wf_inbound_events s
  /\ inbound_seq (foldl enqueue s l) = inbound_seq s
  /\ wf_instance_timers (foldl enqueue s l) = wf_instance_timers s
  /\ wf_definitions (foldl enqueue s l) = wf_definitions s.
Proof. revert s. induction l as [|e l IH]; intros s; [done|]. cbn. destruct (IH (enqueue s e)) as (-> & -> & -> & -> & -> & ->). done. Qed.

Lemma upsert_lookup inst rows :
  exists r, upsert inst rows !! r_instance_id inst = Some r /\ r_status r = r_status inst
    /\ r_terminated_at_ms r = r_terminated_at_ms inst
    /\ r_current_state r = r_current_state inst /\ state_json r = state_json inst
    /\ ((forall old, rows !! r_instance_id inst = Some old -> r_instance_id old = r_instance_id inst) ->
        r_instance_id r = r_instance_id inst).
Proof.
  unfold upsert. destruct (rows !! r_instance_id inst) as [old|] eqn:E; rewrite lookup_insert_eq; eexists; split; try done.
  cbn. repeat (split; [done|]). intros H. by apply H.
Qed.

Lemma upsert_lookup_ne inst rows j : j <> r_instance_id inst -> upsert inst rows !! j = rows !! j.
Proof. intros H. unfold upsert. case_match; by rewrite lookup_insert_ne. Qed.

Lemma of_other_spec {A} (owner : A -> string) id l : Forall (fun r => owner r <> id) (of_other owner id l).
Proof.
  apply Forall_forall. intros x [_ Hx]%elem_of_filter_l. intros Heq. rewrite Heq in Hx.
  by rewrite (proj2 (String.eqb_eq id id) eq_refl) in Hx.
Qed.

Lemma keep_rows_lookup rows kept id name k :
  Forall (fun r => k_instance_id r = id) rows ->
  forall id', foldl keep_row kept rows !! (id', name) = Some k -> id' = id \/ kept !! (id', name) = Some k.
Proof.
  revert kept. induction rows as [|r rows IH]; intros kept Hr id' H; [by right|].
  apply Forall_cons in Hr as [Hid Hr]. destruct (IH _ Hr _ H) as [->|H']; [by left|].
  unfold keep_row in H'. apply lookup_insert_Some in H' as [[[= <- _] _]|[_ H']]; [by left|by right].
Qed.

Lemma keep_store_ok rows id s :
  store_ok s -> runs s id -> Forall (fun r => k_instance_id r = id) rows ->
  store_ok (set_kept (fun kept => foldl keep_row kept rows) s).
Proof.
  intros [H1 H2 H3 H4 H5 H6] Hr Hrows. split; cbn; try done.
  intros j name k Hk. destruct (keep_rows_lookup _ _ _ _ _ Hrows _ Hk) as [->|Hk']; [done|by eapply H3].
Qed.

Lemma dequeue_ok id m s : store_ok s -> store_ok (set_internal (dequeue id m) s).
Proof. intros Hs. unfold dequeue. repeat case_match; try by apply internal_filter_ok. by destruct s. Qed.

Lemma consume_ok id m s : store_ok s -> store_ok (set_inbound (consume id m) s).
Proof. intros Hs. unfold consume. case_match; [by apply inbound_filter_ok|by destruct s]. Qed.

(** The commit of an instance that runs. *)
Lemma commit_running_ok row m s :
  store_ok s -> row_ok row -> r_status row = running ->
  Forall (fun e => ie_instance_id e = r_instance_id row) (EnqueueInternalEvents m) ->
  Forall (fun k => k_instance_id k = r_instance_id row) (KeepMessages m) ->
  store_ok (set_kept (if DropKeptMessages m then drop_kept (r_instance_id row) else fun kept => foldl keep_row kept (KeepMessages m))
    (foldl enqueue (set_inbound (consume (r_instance_id row) m)
      (set_internal (dequeue (r_instance_id row) m) (set_instances (upsert row) s))) (EnqueueInternalEvents m))).
Proof.
  intros Hs Hrow Hst Hev Hk. set (id := r_instance_id row) in *.
  destruct (upsert_lookup row (wf_instances s)) as (r & Hr & Hrs & Hrt & _ & _ & Hid). fold id in Hr.
  assert (runs (set_instances (upsert row) s) id) as Hruns by (exists r; split; [done|congruence]).
  assert (store_ok (set_instances (upsert row) s)) as H1.
  { apply (instances_store_ok _ id); [done| | |left; by exists r; split; [|congruence]].
    - intros j Hj. by apply upsert_lookup_ne.
    - intros r' Hr'. rewrite Hr in Hr'. injection Hr' as <-. split.
      + apply Hid. intros old Ho. by apply (so_rows s Hs).
      + unfold row_ok in *. rewrite Hrs, Hrt. done. }
  apply (dequeue_ok id m), (consume_ok id m), (enqueue_all_ok (EnqueueInternalEvents m)) in H1; cycle 1.
  { eapply Forall_impl; [exact Hev|]. intros e ->. done. }
  destruct (DropKeptMessages m); [by apply drop_kept_ok|]. apply (keep_store_ok _ id); [done| |done].
  unfold runs. by rewrite (proj1 (enqueue_all_frame _ _)).
Qed.

(** What a store without the events and kept messages of [id] may do of its row. *)
Lemma ended_row_ok f id s :
  store_ok s ->
  (forall j, j <> id -> f (wf_instances s) !! j = wf_instances s !! j) ->
  (forall r, f (wf_instances s) !! id = Some r -> r_instance_id r = id /\ row_ok r) ->
  store_ok (set_instances f (set_kept (drop_kept id) (set_internal (of_other ie_instance_id id) s))).
Proof.
  intros Hs Hoth Hrow. apply (instances_store_ok _ id); [|done|done|right; split].
  - by apply drop_kept_ok, internal_filter_ok.
  - apply of_other_spec.
  - intros name. cbn. apply eq_None_not_Some. intros [k [_ Hk]%drop_kept_lookup]. done.
Qed.

Lemma CommitInstanceMutation_ok row m s s' :
  store_ok s -> row_ok row -> CommitInstanceMutation row m s = Some s' ->
  Forall (fun e => ie_instance_id e = r_instance_id row) (EnqueueInternalEvents m) ->
  Forall (fun k => k_instance_id k = r_instance_id row) (KeepMessages m) ->
  (r_status row <> running -> ClearInternalEvents m = true /\ DropKeptMessages m = true) ->
  store_ok s'.
Proof.
  intros Hs Hrow Hc Hev Hk Hend. destruct (decide (r_status row = running)) as [Hst|Hst].
  - pose proof (commit_running_ok row m s Hs Hrow Hst Hev Hk) as H.
    unfold CommitInstanceMutation in Hc. destruct (ClearInternalEvents m), (EnqueueInternalEvents m); simplify_eq; exact H.
  - destruct (Hend Hst) as [Hcl Hdk]. unfold CommitInstanceMutation in Hc. rewrite Hcl in Hc.
    destruct (EnqueueInternalEvents m) as [|] eqn:Eq; [|done]. rewrite Hdk in Hc. injection Hc as <-.
    destruct (upsert_lookup row (wf_instances s)) as (r & Hr & Hrs & Hrt & _ & _ & Hid).
    set (s1 := set_inbound (consume (r_instance_id row) m) s).
    assert (store_ok s1) as H1 by by apply consume_ok.
    enough (store_ok (set_instances (upsert row) (set_kept (drop_kept (r_instance_id row))
      (set_internal (of_other ie_instance_id (r_instance_id row)) s1)))) as H by (unfold dequeue; rewrite Hcl; exact H).
    apply ended_row_ok; [done| |].
    + intros j Hj. by apply upsert_lookup_ne.
    + intros r' Hr'. cbn in Hr'. rewrite Hr in Hr'. injection Hr' as <-. split.
      * apply Hid. intros old Ho. by apply (so_rows s Hs).
      * unfold row_ok in *. by rewrite Hrs, Hrt.
Qed.

Lemma FailInstance_ok id now s : store_ok s -> store_ok (FailInstance id now s).
Proof.
  intros Hs. unfold FailInstance.
  match goal with |- store_ok (set_kept _ (set_inbound _ (set_internal _ (set_instances ?f s)))) =>
    enough (store_ok (set_instances f (set_kept (drop_kept id) (set_internal (of_other ie_instance_id id)
      (set_inbound (of_other in_instance_id id) s))))) as H by exact H end.
  apply ended_row_ok; [by apply inbound_filter_ok| |].
  - intros j Hj. cbn. by rewrite lookup_alter_ne.
  - intros r. cbn. rewrite lookup_alter_eq. destruct (wf_instances s !! id) as [old|] eqn:Eo; [|done].
    intros [= <-]. cbn. split; [by apply (so_rows s Hs)|]. by split.
Qed.

(** Deletes of an instance that does not run. *)
Lemma deletes_ok id f s : store_ok s -> ~ runs s id -> f ∈ deletes_of id -> store_ok (f s) /\ ~ runs (f s) id.
Proof.
  intros Hs Hn Hf. unfold deletes_of in Hf. repeat apply elem_of_cons in Hf as [->|Hf]; [| | | | |by apply elem_of_nil in Hf].
  - split; [|done]. apply timers_store_ok; [done|]. intros j key t [H _]%map_lookup_filter_Some. by eapply so_timers.
  - split; [by apply internal_filter_ok|done].
  - split; [by apply inbound_filter_ok|done].
  - split; [by apply drop_kept_ok|done].
  - split; [|intros (r & Hr & _); cbn in Hr; by rewrite lookup_delete_eq in Hr].
    apply (instances_store_ok _ id); [done| | |right; split].
    + intros j Hj. by rewrite lookup_delete_ne.
    + intros r. by rewrite lookup_delete_eq.
    + apply Forall_forall. intros e He <-. apply Hn. by apply (so_queue s Hs).
    + intros name. apply eq_None_not_Some. intros [k Hk]. apply Hn. by eapply (so_kept s Hs).
Qed.

Lemma terminated_not_running cutoff s id : store_ok s -> id ∈ terminated_before cutoff s -> ~ runs s id.
Proof.
  intros Hs [[j r] [Hjr Hid]]%list_elem_of_omap (r' & Hr' & Hst).
  apply elem_of_map_to_list in Hjr. destruct (r_terminated_at_ms r) eqn:Et; [|done].
  case_match; [|done]. injection Hid as ->. rewrite Hjr in Hr'. injection Hr' as <-.
  destruct (so_rows s Hs id r Hjr) as [_ Hok]. apply Hok in Hst. by rewrite Et in Hst.
Qed.

(** What a commit writes in the tables it does not append to. *)
Lemma commit_tables row m s s' : CommitInstanceMutation row m s = Some s' ->
  wf_instances s' = upsert row (wf_instances s)
  /\ wf_inbound_events s' = consume (r_instance_id row) m (wf_inbound_events s)
  /\ inbound_seq s' = inbound_seq s /\ wf_instance_timers s' = wf_instance_timers s
  /\ wf_definitions s' = wf_definitions s.
Proof.
  intros Hc. unfold CommitInstanceMutation in Hc.
  destruct (ClearInternalEvents m), (EnqueueInternalEvents m); simplify_eq; try done; cbn;
    match goal with |- context [foldl enqueue ?x ?l] => destruct (enqueue_all_frame l x) as (-> & _ & -> & -> & -> & ->) end; done.
Qed.

Lemma consume_sub id m rows r : r ∈ consume id m rows -> r ∈ rows.
Proof. unfold consume. case_match; [|done]. by intros [Hr _]%elem_of_filter_l. Qed.

(** The row a commit wrote. *)
Lemma commit_row row m s s' : CommitInstanceMutation row m s = Some s' ->
  exists r, wf_instances s' !! r_instance_id row = Some r /\ r_status r = r_status row
    /\ r_current_state r = r_current_state row /\ state_json r = state_json row.
Proof.
  intros (-> & _)%commit_tables. destruct (upsert_lookup row (wf_instances s)) as (r & ? & ? & _ & ? & ? & _). by exists r.
Qed.
