(* ===== verification/WfEngine.v ===== *)
(** * The workflow engine: instances, their transitions and their actions

    src/go/nodes/wf/wf-generic/node: instance.go and actions.go. A computation is a function of the
    node's world: its store, its registry of running instances, what it sent, and the answers its
    store, its connection and SY.timer will give ([oracle]). Every one of those calls may succeed, fail
    or be the last thing the process does, and the engine's own code may also panic, before any action
    and in any commit: a theorem that holds for every oracle holds at every crash and every panic. *)

From Stdlib Require Import ZArith Lia Ascii String.
From stdpp Require Import base list strings gmap.
From S2P Require Import Prelude Protocol WfDef WfStore.
Open Scope string_scope.

#[local] Abbreviation Obj := (list (string * JVal)).
#[global] Abbreviation Msg := (Message string).

(** ** Instances *)

(** What an instance is born with. *)
Record Born {G : Type} := mkBorn {
  b_id : string; b_thread : string; b_type : string; b_hash : string; b_def : WorkflowDefinition G;
  b_input : Obj; b_created_at_ms : Z }.
Arguments Born : clear implicits.

Record AgentCalls := mkCalls { calls_sent : Z; calls_skipped : string; calls_reported : bool }.

Record Person := mkPerson { person_ilk : string; person_ich : string; person_io : string }.

Record WFInstance {G : Type} := mkInstance {
  born : Born G;
  i_status : Status; current_state : string; state_vars : Obj;
  current_trace_id : string; cycle_trace : option string; cycle_trace_id : string;
  updated_at_ms : Z; terminated_at_ms : option Z;
  person : Person;
  kept : gmap string (Msg * KeptMessageRow); kept_since : gset string;
  calls : AgentCalls }.
Arguments WFInstance : clear implicits.

Definition no_calls : AgentCalls := mkCalls 0 "" false.

(** The event's row, which the commit of its transition deletes. *)
Record TakenEvent := mkTaken { inbound_id : option Z; internal_id : option Z }.

Definition durable (t : TakenEvent) : bool :=
  match inbound_id t, internal_id t with None, None => false | _, _ => true end.

(** [takenEvent.mutation]; the kept messages are [commit]'s to add. *)
Definition mutation (t : TakenEvent) (events : list InternalEventRow) (clear : bool) : InstanceCommitMutation :=
  mkMutation (internal_id t) (inbound_id t) events clear [] false.

Section Instances.
Context {G : Type}.
Implicit Types i : WFInstance G.

Definition set_calls c i := mkInstance G (born i) (i_status i) (current_state i) (state_vars i) (current_trace_id i)
  (cycle_trace i) (cycle_trace_id i) (updated_at_ms i) (terminated_at_ms i) (person i) (kept i) (kept_since i) c.
Definition set_state s i := mkInstance G (born i) (i_status i) s (state_vars i) (current_trace_id i)
  (cycle_trace i) (cycle_trace_id i) (updated_at_ms i) (terminated_at_ms i) (person i) (kept i) (kept_since i) (calls i).
Definition set_var name v i := mkInstance G (born i) (i_status i) (current_state i) (obj_put name v (state_vars i))
  (current_trace_id i) (cycle_trace i) (cycle_trace_id i) (updated_at_ms i) (terminated_at_ms i) (person i) (kept i)
  (kept_since i) (calls i).
Definition set_trace t i := mkInstance G (born i) (i_status i) (current_state i) (state_vars i) t
  (cycle_trace i) (cycle_trace_id i) (updated_at_ms i) (terminated_at_ms i) (person i) (kept i) (kept_since i) (calls i).
Definition set_cycle c t i := mkInstance G (born i) (i_status i) (current_state i) (state_vars i) (current_trace_id i)
  c t (updated_at_ms i) (terminated_at_ms i) (person i) (kept i) (kept_since i) (calls i).
Definition set_updated t i := mkInstance G (born i) (i_status i) (current_state i) (state_vars i) (current_trace_id i)
  (cycle_trace i) (cycle_trace_id i) t (terminated_at_ms i) (person i) (kept i) (kept_since i) (calls i).
(** The status an instance ends with, and when. *)
Definition set_ended st t i := mkInstance G (born i) st (current_state i) (state_vars i) (current_trace_id i)
  (cycle_trace i) (cycle_trace_id i) (updated_at_ms i) (Some t) (person i) (kept i) (kept_since i) (calls i).
Definition set_person p i := mkInstance G (born i) (i_status i) (current_state i) (state_vars i) (current_trace_id i)
  (cycle_trace i) (cycle_trace_id i) (updated_at_ms i) (terminated_at_ms i) p (kept i) (kept_since i) (calls i).
Definition set_kept_messages k ks i := mkInstance G (born i) (i_status i) (current_state i) (state_vars i)
  (current_trace_id i) (cycle_trace i) (cycle_trace_id i) (updated_at_ms i) (terminated_at_ms i) (person i) k ks (calls i).

(** [notePerson]: a message of the person's IO node that carries another person takes the person off
    the instance. *)
Definition notePerson (event : Msg) i : WFInstance G :=
  let p := person i in
  if str_is_empty (person_ilk p) && str_is_empty (person_ich p) then i
  else let writer := unwrap_or "" (Protocol.src_ilk (meta event)) in
    if str_is_empty writer || (writer =s person_ilk p) || negb (sourceL2Name event =s person_io p) then i
    else set_person (mkPerson "" "" (person_io p)) i.

Definition personsIO i (target : string) : bool :=
  IsIO target && negb (str_is_empty (person_io (person i))) && (target =s person_io (person i)).

(** The message's name of the person: [dst_ilk] and [ich]. *)
Definition toPerson i (dst ich : option string) : option string * option string :=
  let p := person i in
  if str_is_empty (person_ilk p) then (dst, ich)
  else (Some (person_ilk p), if str_is_empty (person_ich p) then None else Some (person_ich p)).

Definition transitionTraceID i (event : Msg) : string :=
  if str_is_empty (current_trace_id i) then trace_id (routing event) else current_trace_id i.

End Instances.

(** ** What is outside the engine *)

(** A fire, as SY.timer sends it ([FiredEvent]). *)
Record FiredEvent := mkFired {
  f_timer_uuid : string; f_owner_l2_name : string; f_client_ref : option string; f_kind : string;
  f_scheduled_ms : Z; f_actual_ms : Z; f_fire_count : Z; f_is_last : bool; f_user_payload : string }.

(** The JSON codecs ([wfcel.DecodeJSON], [EncodeJSON], the SDK's [MarshalPayload], [encoding/json] into
    a map, a list, a writer, a message, a fire, a cancellation), CEL, the error the input schema's
    validator gives, the loading of a definition and its hash, the duration, time and quoting formats
    of Go, the UUIDs, what the node is, and the payloads of the verbs that only read. *)
Record Env {G : Type} := mkEnv {
  decode : string -> option JVal;
  encode : JVal -> option string;
  marshal_payload : JVal -> option string;
  read_fields : string -> option (list (string * string));
  read_list : string -> option (list string);
  read_writer : string -> option (string * string);
  marshal_message : Msg -> option string;
  unmarshal_message : string -> option Msg;
  read_fired : string -> option FiredEvent;
  write_fired : FiredEvent -> string;
  eval_guard : G -> Obj -> Obj -> Obj -> bool;
  eval_value : string -> Z -> Obj -> Obj -> Obj -> option JVal;
  input_error : WorkflowDefinition G -> Obj -> option string;
  load_definition : string -> option (WorkflowDefinition G);
  hash_of : string -> string;
  parse_duration : string -> option Z;
  parse_rfc3339 : string -> option Z;
  quote : string -> string;
  uuid : nat -> string;
  node_name : string;
  node_uuid : string;
  self_ilk : string;
  read_cancel : string -> option string;
  control_answer : Store -> Msg -> JVal;
  plane_answer : Msg -> Msg }.
Arguments Env : clear implicits.

(** Why a send did not go: its frame is over the limit, or anything else. *)
Inductive Answer := AOk | AErr | ATooLarge | APanic | ACrash.

Inductive TimerReq :=
| ScheduleIn (in_ms : Z) (client_ref policy : string) (within : option Z)
| ScheduleAt (at_ms : Z) (client_ref policy : string) (within : option Z)
| CancelByClientRef (client_ref : string)
| RescheduleByClientRef (client_ref : string) (at_ms : Z).

(** What the node did, oldest first: the sends of an instance's actions, the engine's own answers, its
    requests to SY.timer, and where an instance's count of agent calls starts again. *)
Inductive Did {G : Type} :=
| Sent (by_instance : Born G) (m : Msg)
| Answered (m : Msg)
| AskedTimer (r : TimerReq)
| CountStarts (of_instance : string).
Arguments Did : clear implicits.

(** [cur] is the instance being processed, which holds its mutex; the registry's copy of it is written
    when it lets the mutex go. [now_ns] does not move within one event. *)
Record World {G : Type} := mkWorld {
  store : Store; did : list (Did G); fresh : nat;
  oracle : list Answer; now_ns : Z;
  w_def : WorkflowDefinition G; w_def_hash : string;
  by_id : gmap string (WFInstance G); by_thread : gmap string string;
  cur : WFInstance G; timers_pending : bool }.
Arguments World : clear implicits.

Definition ms_of (ns : Z) : Z := (ns / 1000000)%Z.

(** ** Computations *)

(** How a computation stops: with a value, with a panic its caller may recover, or with the process. *)
Inductive Out (A : Type) := Done (a : A) | Panicked | Crashed.
Arguments Done {A} a.
Arguments Panicked {A}.
Arguments Crashed {A}.

Definition M (G A : Type) : Type := World G -> Out A * World G.

Definition ret {G A} (a : A) : M G A := fun w => (Done a, w).

Definition bind {G A B} (m : M G A) (k : A -> M G B) : M G B := fun w =>
  match m w with
  | (Done a, w') => k a w'
  | (Panicked, w') => (Panicked, w')
  | (Crashed, w') => (Crashed, w')
  end.

Declare Scope wf_scope.
Notation "'let!' x := m 'in' k" := (bind m (fun x => k))
  (at level 200, x name, m at level 100, k at level 200, right associativity) : wf_scope.
Notation "'do!' m 'in' k" := (bind m (fun _ => k))
  (at level 200, m at level 100, k at level 200, right associativity) : wf_scope.
Open Scope wf_scope.

Section Effects.
Context {G : Type}.
Implicit Types w : World G.

Definition set_store f w := mkWorld G (f (store w)) (did w) (fresh w) (oracle w) (now_ns w) (w_def w) (w_def_hash w)
  (by_id w) (by_thread w) (cur w) (timers_pending w).
Definition set_oracle o w := mkWorld G (store w) (did w) (fresh w) o (now_ns w) (w_def w) (w_def_hash w)
  (by_id w) (by_thread w) (cur w) (timers_pending w).
Definition set_cur f w := mkWorld G (store w) (did w) (fresh w) (oracle w) (now_ns w) (w_def w) (w_def_hash w)
  (by_id w) (by_thread w) (f (cur w)) (timers_pending w).
Definition add_did d w := mkWorld G (store w) (did w ++ [d]) (fresh w) (oracle w) (now_ns w) (w_def w) (w_def_hash w)
  (by_id w) (by_thread w) (cur w) (timers_pending w).
Definition set_registry ids threads w := mkWorld G (store w) (did w) (fresh w) (oracle w) (now_ns w) (w_def w)
  (w_def_hash w) ids threads (cur w) (timers_pending w).
Definition next_fresh w := mkWorld G (store w) (did w) (S (fresh w)) (oracle w) (now_ns w) (w_def w) (w_def_hash w)
  (by_id w) (by_thread w) (cur w) (timers_pending w).
Definition set_pending b w := mkWorld G (store w) (did w) (fresh w) (oracle w) (now_ns w) (w_def w) (w_def_hash w)
  (by_id w) (by_thread w) (cur w) b.

Definition gets {A} (f : World G -> A) : M G A := fun w => (Done (f w), w).
Definition modify (f : World G -> World G) : M G () := fun w => (Done (), f w).
Definition crash {A} : M G A := fun w => (Crashed, w).

(** The next answer to a call of the store, the connection or SY.timer's client; past the oracle's end
    every call succeeds. Such a call returns, or is the process's last. *)
Definition answer : M G Answer := fun w =>
  match oracle w with
  | [] => (Done AOk, w)
  | ACrash :: rest => (Crashed, set_oracle rest w)
  | a :: rest => (Done a, set_oracle rest w)
  end.

(** A point of the engine's own code, where it may panic (an action's, a guard's or a value's
    evaluation, the serialization of an instance). *)
Definition tick : M G () := fun w =>
  match oracle w with
  | [] => (Done (), w)
  | ACrash :: rest => (Crashed, set_oracle rest w)
  | APanic :: rest => (Panicked, set_oracle rest w)
  | _ :: rest => (Done (), set_oracle rest w)
  end.

Definition went_well (a : Answer) : bool := match a with AOk => true | _ => false end.

(** A transaction: whether it went. *)
Definition tx (f : Store -> Store) : M G bool :=
  let! a := answer in
  if went_well a then do! modify (set_store f) in ret true else ret false.

(** A read of the store: [None] when it failed. *)
Definition query {A} (f : Store -> A) : M G (option A) :=
  let! a := answer in
  if went_well a then gets (fun w => Some (f (store w))) else ret None.

(** [Dispatcher.SendMsg]. *)
Definition SendMsg (what : Did G) : M G Answer :=
  let! a := answer in
  if went_well a then do! modify (add_did what) in ret a else ret a.

Definition ask_timer (r : TimerReq) : M G bool :=
  let! a := answer in
  if went_well a then do! modify (add_did (AskedTimer r)) in ret true else ret false.

Definition now_ms : M G Z := gets (fun w => ms_of (now_ns w)).

(** [recover]: what a deferred function does of a panic. *)
Definition recover {A} (run : M G A) (handler : M G A) : M G A := fun w =>
  match run w with
  | (Panicked, w') => handler w'
  | r => r
  end.

Definition update (f : WFInstance G -> WFInstance G) : M G () := modify (set_cur f).

(** Starts the instance's count of agent calls again. *)
Definition reset_calls : M G () :=
  let! i := gets cur in
  do! modify (add_did (CountStarts (b_id (born i)))) in
  update (set_calls no_calls).

End Effects.

(** Runs [m] on each item, while it says to go on. *)
Fixpoint run_while {G A} (m : A -> M G bool) (l : list A) : M G bool :=
  match l with
  | [] => ret true
  | a :: rest => let! go_on := m a in if go_on then run_while m rest else ret false
  end.

Fixpoint run_each {G A} (m : A -> M G ()) (l : list A) : M G () :=
  match l with
  | [] => ret ()
  | a :: rest => do! m a in run_each m rest
  end.

Section Engine.
Context {G : Type} (E : Env G).
Implicit Types (i : WFInstance G) (event : Msg) (taken : TakenEvent).

(** ** What the engine reads of a message *)

Definition decodeObject (data : string) : option Obj :=
  match decode E data with Some (JObj o) => Some o | _ => None end.

Definition marshalJSON (v : JVal) : option string :=
  match v with JNull => Some "{}" | _ => encode E v end.

Definition unmarshalJSON (s : string) : option Obj :=
  if str_is_empty s || (s =s "{}") then Some [] else decodeObject s.

Definition context_of (m : Msg) : string := unwrap_or "" (context (meta m)).

(** [contextFields], [TraceOf] and [WriterOf] of the SDK (message_trace.go, message_writer.go). *)
Definition contextFields (ctx : string) : option (list (string * string)) :=
  let trimmed := Prelude.trim ctx in
  if str_is_empty trimmed || (trimmed =s "null") then Some [] else read_fields E trimmed.

Fixpoint field (k : string) (fields : list (string * string)) : option string :=
  match fields with
  | [] => None
  | (k', v) :: rest => if k' =s k then Some v else field k rest
  end.

Definition TraceOf (ctx : string) : option string :=
  match contextFields ctx with
  | Some fields =>
    match field "trace" fields with
    | Some raw => match read_list E raw with Some (_ :: _) => Some raw | _ => None end
    | None => None
    end
  | None => None
  end.

Definition WriterOf (ctx : string) : option (string * string) :=
  match contextFields ctx with
  | Some fields =>
    match field "writer" fields with
    | Some raw =>
      match read_writer E raw with
      | Some (ilk, name) =>
        let ilk := Prelude.trim ilk in
        let name := Prelude.trim name in
        if str_is_empty ilk && str_is_empty name then None else Some (ilk, name)
      | None => None
      end
    | None => None
    end
  | None => None
  end.

(** A [Writer] as JSON: its empty fields are left out. *)
Definition writer_json (ilk name : string) : JVal :=
  JObj ((if str_is_empty ilk then [] else [("ilk", JStr ilk)])
        ++ (if str_is_empty name then [] else [("name", JStr name)]))%list.

(** [firedTimer]. *)
Definition firedTimer (m : Msg) : option (string * string) :=
  match read_fired E (msg_payload m) with
  | Some fired => match f_client_ref fired with Some ref => parseTimerClientRef ref | None => None end
  | None => None
  end.

Definition when {A} (b : bool) (l : list A) : list A := if b then l else [].

Definition messageToMap (m : Msg) : Obj :=
  ([("trace_id", JStr (trace_id (routing m)))]
   ++ match msg (meta m) with Some name => [("msg", JStr name)] | None => [] end
   ++ [("type", JStr (msg_type (meta m)))]
   ++ match thread_id (meta m) with Some t => [("thread_id", JStr t)] | None => [] end
   ++ when (negb (str_is_empty (sourceL2Name m))) [("src", JStr (sourceL2Name m))]
   ++ (if str_is_empty (context_of m) then []
       else match decodeObject (context_of m) with Some o => [("context", JObj o)] | None => [] end)
   ++ (if str_is_empty (msg_payload m) then []
       else match decodeObject (msg_payload m) with Some o => [("payload", JObj o)] | None => [] end)
   ++ (if rawMsgName m =s MsgTimerFired then
         match firedTimer m with Some (_, key) => [("timer_key", JStr key)] | None => [] end
       else []))%list.

Definition scope_of i event : Scope := mkScope (b_input (born i)) (state_vars i) (messageToMap event).

(** ** The messages actions send *)

Definition wfMsgType : string := "user".
Definition sendMaxAttempts : nat := 4.

(** [writeActionContext]. *)
Definition writeActionContext (ctx : Obj) (s : SendSpec) (sc : Scope) : option Obj :=
  match ss_context s with
  | None => Some ctx
  | Some v =>
    match resolve sc v with
    | Some (JObj written) => Some (foldl (fun c '(k, v) => obj_put k v c) ctx written)
    | _ => None
    end
  end.

Definition withCycleTrace i (ctx : Obj) : Obj :=
  match cycle_trace i with
  | Some t => obj_put "trace" (JRaw t) ctx
  | None => obj_del "trace" ctx
  end.

Definition withSourceWriter (source : Msg) (ctx : Obj) : Obj :=
  match WriterOf (context_of source) with
  | Some (ilk, name) => obj_put "writer" (writer_json ilk name) ctx
  | None => obj_del "writer" ctx
  end.

(** [withWFBlock]: the context as it goes. *)
Definition withWFBlock (ctx : Obj) (s : SendSpec) (sc : Scope) : option string :=
  match (match ss_vars s with
         | None => Some []
         | Some v => match resolve sc v with Some r => Some [("vars", r)] | None => None end
         end) with
  | None => None
  | Some vars =>
    let block := (vars ++ match ss_menu s with Some m => [("menu", m)] | None => [] end
                  ++ when (negb (str_is_empty (ss_subject s))) [("subject", JStr (ss_subject s))])%list in
    encode E (JObj (match block with [] => obj_del "wf" ctx | _ => obj_put "wf" (JObj block) ctx end))
  end.

Definition some_text (s : string) : option string := if str_is_empty s then None else Some s.

Definition action_routing i event (target : string) : Routing :=
  mkRouting (node_uuid E) None (Unicast target) 16 (transitionTraceID i event).

(** The message a [send_message] makes. *)
Definition message_written i event (s : SendSpec) (msg_name : string) (body : JVal) : option Msg :=
  let sc := scope_of i event in
  match resolve sc body with
  | None => None
  | Some resolved =>
    match encode E resolved, writeActionContext [] s sc with
    | Some raw, Some ctx =>
      match withWFBlock (obj_put "writer" (writer_json (self_ilk E) (node_name E)) (withCycleTrace i ctx)) s sc with
      | Some ctx_raw =>
        let '(src_ilk, dst_ilk, ich) :=
          if personsIO i (ss_target s) then let '(d, c) := toPerson i None None in (None, d, c)
          else if IsIO (ss_target s) then (None, None, None)
          else (some_text (person_ilk (person i)), None, some_text (person_ich (person i))) in
        Some (mkMessage (action_routing i event (ss_target s))
                (mkMeta wfMsgType (Some msg_name) src_ilk dst_ilk ich (Some (b_thread (born i))) None None None None
                   None None None None None (Some ctx_raw) false)
                raw)
      | None => None
      end
    | _, _ => None
    end
  end.

Definition messageToForward i (name : string) event : option Msg :=
  if str_is_empty name then if receivedFromANode event then Some event else None
  else match kept i !! name with Some (m, _) => Some m | None => None end.

(** The message a [forward] makes of the one it forwards. *)
Definition message_forwarded i event (s : SendSpec) (source : Msg) : option Msg :=
  let sc := scope_of i event in
  let raw := context_of source in
  match (if str_is_empty raw || (raw =s "null") then Some [] else decodeObject raw) with
  | None => None
  | Some ctx =>
    match writeActionContext ctx s sc with
    | None => None
    | Some ctx =>
      match withWFBlock (withSourceWriter source (withCycleTrace i ctx)) s sc with
      | None => None
      | Some ctx_raw =>
        let m := meta source in
        let '(d, c) := if personsIO i (ss_target s) then toPerson i (Protocol.dst_ilk m) (Protocol.ich m)
                       else (Protocol.dst_ilk m, Protocol.ich m) in
        Some (mkMessage (action_routing i event (ss_target s))
                (mkMeta (msg_type m) (msg m) (Protocol.src_ilk m) d c (Some (b_thread (born i))) None
                   (scope m) (target m) (action m) (action_class m) (action_result m) (result_origin m)
                   (result_detail_code m) (priority m) (Some ctx_raw) false)
                (msg_payload source))
      end
    end
  end.

(** [sendWithRetry]. *)
Fixpoint send_attempts (n : nat) (what : Did G) : M G bool :=
  match n with
  | O => ret false
  | S n' =>
    let! a := SendMsg what in
    match a with
    | AOk => ret true
    | ATooLarge => ret false
    | _ => send_attempts n' what
    end
  end.

Definition sendWithRetry (m : option Msg) : M G bool :=
  let! i := gets cur in
  match m with
  | Some m => send_attempts sendMaxAttempts (Sent (born i) m)
  | None => ret false
  end.

(** ** Timers *)

Definition minTimerDuration : Z := 60000000000.
Definition day : Z := 86400000000000.
Definition maxDurationDays : Z := (9223372036854775807 / day)%Z.

Definition days_of (s : string) : option Z :=
  match strip_suffix "d" (Prelude.trim s) with
  | Some digits => if str_is_empty digits then None else decimal 0 digits
  | None => None
  end.

Definition ParseWorkflowDuration (value : string) : option Z :=
  match days_of value with
  | Some days => if (days >? maxDurationDays)%Z then None else Some (days * day)%Z
  | None => parse_duration E value
  end.

Definition IsTimeSet (v : JVal) : bool :=
  match v with JNull => false | JStr s => negb (str_is_empty (Prelude.trim s)) | _ => true end.

(** When a timer action's timer fires, and the [fire_in] it was given (zero for a [fire_at]). *)
Definition timerTime (t : TimerSpec) i event (now : Z) : option (Z * Z) :=
  let text v := match resolve (scope_of i event) v with Some (JStr s) => Some s | _ => None end in
  if IsTimeSet (ts_fire_at t) then
    match text (ts_fire_at t) with
    | Some s =>
      match parse_rfc3339 E s with
      | Some at_ns => if (at_ns - now <? minTimerDuration)%Z then None else Some (at_ns, 0%Z)
      | None => None
      end
    | None => None
    end
  else
    match text (ts_fire_in t) with
    | Some s =>
      match ParseWorkflowDuration s with
      | Some d => if (d <? minTimerDuration)%Z then None else Some ((now + d)%Z, d)
      | None => None
      end
    | None => None
    end.

Definition validTimerMissedPolicy (policy : string) (within : option Z) : bool :=
  if str_is_empty policy || (policy =s "fire") || (policy =s "drop") then
    match within with None => true | Some _ => false end
  else (policy =s "fire_if_within") && match within with Some n => (0 <? n)%Z | None => false end.

(** The [client_ref] as a request carries it. *)
Definition ref_sent (id key : string) : string := Prelude.trim (timerClientRef id key).

Definition schedule (id key : string) (in_ns at_ns : Z) (policy : string) (within : option Z) : M G bool :=
  if validTimerMissedPolicy policy within then
    ask_timer (if (in_ns >? 0)%Z then ScheduleIn (ms_of in_ns) (ref_sent id key) policy within
               else ScheduleAt (ms_of at_ns) (ref_sent id key) policy within)
  else ret false.

Definition execScheduleTimer (t : TimerSpec) event : M G bool :=
  let! i := gets cur in
  let! now := gets now_ns in
  let id := b_id (born i) in
  let policy := if str_is_empty (ts_missed_policy t) then "fire" else ts_missed_policy t in
  match timerTime t i event now with
  | None => ret false
  | Some (at_ns, in_ns) =>
    let! asked := schedule id (ts_key t) in_ns at_ns policy (ts_missed_within t) in
    if asked then tx (RegisterTimer id (ts_key t) (ms_of now) (ms_of at_ns)) else ret false
  end.

(** Whether the index has the timer; [None]: it was not read. *)
Definition timer_indexed (id key : string) : M G (option bool) :=
  let! timers := query (ListTimersForInstance id) in
  ret (option_map (existsb (fun t => tm_timer_key t =s key)) timers).

Definition execCancelTimer (key : string) : M G bool :=
  let! i := gets cur in
  let id := b_id (born i) in
  let! found := timer_indexed id key in
  match found with
  | None => ret false
  | Some false => ret true
  | Some true =>
    let! asked := ask_timer (CancelByClientRef (ref_sent id key)) in
    if asked then tx (DeleteTimer id key) else ret false
  end.

Definition execRescheduleTimer (t : TimerSpec) event : M G bool :=
  let! i := gets cur in
  let! now := gets now_ns in
  let id := b_id (born i) in
  let! found := timer_indexed id (ts_key t) in
  match found with
  | None => ret false
  | Some false => ret true
  | Some true =>
    match timerTime t i event now with
    | None => ret false
    | Some (at_ns, _) =>
      let! asked := ask_timer (RescheduleByClientRef (ref_sent id (ts_key t)) (ms_of at_ns)) in
      if asked then tx (RegisterTimer id (ts_key t) (ms_of now) (ms_of at_ns)) else ret false
    end
  end.

Definition cancelInstanceTimers (id : string) : M G () :=
  let! timers := query (ListTimersForInstance id) in
  match timers with
  | None => ret ()
  | Some timers =>
    run_each (fun t =>
      do! ask_timer (CancelByClientRef (ref_sent id (tm_timer_key t))) in
      do! tx (DeleteTimer id (tm_timer_key t)) in
      ret ()) timers
  end.

Definition cancelAllTimers : M G () := let! i := gets cur in cancelInstanceTimers (b_id (born i)).

(** ** Actions *)

Definition maxAgentCallsPerTrigger : Z := 8.

(** Whether the send may go; one past the cap is noted. *)
Definition callAgent (target : string) : M G bool :=
  if negb (IsAgent target) then ret true
  else
    let! i := gets cur in
    let c := calls i in
    if (maxAgentCallsPerTrigger <=? calls_sent c)%Z then
      do! update (set_calls (mkCalls (calls_sent c)
                               (if str_is_empty (calls_skipped c) then target else calls_skipped c) (calls_reported c))) in
      ret false
    else
      do! update (set_calls (mkCalls (calls_sent c + 1) (calls_skipped c) (calls_reported c))) in
      ret true.

Inductive ActionResult := ActionDone | ActionFailed | ActionCapped.

Definition of_bool (b : bool) : ActionResult := if b then ActionDone else ActionFailed.

Definition execKeepMessage (name : string) event : M G bool :=
  if receivedFromANode event then
    match marshal_message E event with
    | Some raw =>
      let! now := now_ms in
      do! update (fun i => set_kept_messages (<[name := (event, mkKeptRow (b_id (born i)) name raw now)]> (kept i))
                             ({[name]} ∪ kept_since i) i) in
      ret true
    | None => ret false
    end
  else ret false.

Definition internal_event i event (now : Z) (name payload : string) : InternalEventRow :=
  mkInternalEvent 0 (b_id (born i)) wfMsgType name payload (transitionTraceID i event) now 0.

(** The events an action emits, and how it went. *)
Definition executeAction (a : Action) event : M G (ActionResult * list InternalEventRow) :=
  let plain m := let! ok := m in ret (of_bool ok, []) in
  match a with
  | ASendMessage s msg_name body =>
    let! may := callAgent (ss_target s) in
    if may then
      let! i := gets cur in plain (sendWithRetry (message_written i event s msg_name body))
    else ret (ActionCapped, [])
  | AForward s name =>
    let! may := callAgent (ss_target s) in
    if may then
      let! i := gets cur in
      plain (sendWithRetry match messageToForward i name event with
                           | Some source => message_forwarded i event s source
                           | None => None
                           end)
    else ret (ActionCapped, [])
  | AKeepMessage name => plain (execKeepMessage name event)
  | AEmitInternalEvent msg_name body =>
    let! i := gets cur in
    let! now := now_ms in
    match resolve (scope_of i event) body with
    | Some v =>
      match marshalJSON v with
      | Some raw => ret (ActionDone, [internal_event i event now msg_name raw])
      | None => ret (ActionFailed, [])
      end
    | None => ret (ActionFailed, [])
    end
  | AScheduleTimer t => plain (execScheduleTimer t event)
  | ACancelTimer key => plain (execCancelTimer key)
  | ARescheduleTimer t => plain (execRescheduleTimer t event)
  | ASetVariable name v =>
    let! i := gets cur in
    let! now := gets now_ns in
    match v with
    | JStr expr =>
      if str_is_empty (Prelude.trim expr) then ret (ActionFailed, [])
      else match eval_value E expr now (b_input (born i)) (state_vars i) (messageToMap event) with
           | Some value => do! update (set_var name value) in ret (ActionDone, [])
           | None => ret (ActionFailed, [])
           end
    | _ => ret (ActionFailed, [])
    end
  | AUnknown _ => ret (ActionFailed, [])
  end.

(** [runActions]: whether no action halted the slice, and the events emitted. *)
Fixpoint runActions (best_effort : bool) (actions : list ActionDefinition) event (emitted : list InternalEventRow)
  : M G (bool * list InternalEventRow) :=
  match actions with
  | [] => ret (true, emitted)
  | a :: rest =>
    do! tick in
    let! r := executeAction (act a) event in
    let emitted := (emitted ++ r.2)%list in
    match r.1 with
    | ActionFailed =>
      if negb best_effort && fails a then ret (false, emitted) else runActions best_effort rest event emitted
    | _ => runActions best_effort rest event emitted
    end
  end.

(** ** Commits *)

Definition ToRow i (now : Z) : option WFInstanceRow :=
  match marshalJSON (JObj (b_input (born i))), marshalJSON (JObj (state_vars i)) with
  | Some input, Some state =>
    Some (mkInstanceRow (b_id (born i)) (b_thread (born i)) (b_type (born i)) (b_hash (born i)) (i_status i)
            (current_state i) input state (current_trace_id i) (b_created_at_ms (born i)) now (terminated_at_ms i)
            (person_ilk (person i)) (person_ich (person i)) (person_io (person i)))
  | _, _ => None
  end.

Definition ended i : bool := match terminated_at_ms i with Some _ => true | None => false end.

(** The rows of the messages kept since the last commit. *)
Definition kept_rows i : list KeptMessageRow :=
  omap (fun name => option_map snd (kept i !! name)) (elements (kept_since i)).

Definition with_kept i (m : InstanceCommitMutation) : InstanceCommitMutation :=
  mkMutation (ConsumedInternalEventID m) (ConsumedInboundEventID m) (EnqueueInternalEvents m) (ClearInternalEvents m)
    (if ended i then [] else kept_rows i) (ended i).

Definition commit (m : InstanceCommitMutation) : M G bool :=
  do! tick in
  let! i := gets cur in
  let! now := now_ms in
  match ToRow i now with
  | None => ret false
  | Some row =>
    let! s := gets store in
    match CommitInstanceMutation row (with_kept i m) s with
    | None => ret false
    | Some s' =>
      let! went := tx (fun _ => s') in
      if went then do! update (fun i => set_kept_messages (kept i) ∅ i) in ret true else ret false
    end
  end.

(** ** The engine's own answer (correlate.go) *)

Definition notTakenNoThread : string := "no_thread".
Definition notTakenNoConversation : string := "no_conversation".
Definition notTakenInvalidInput : string := "invalid_input".
Definition notTakenNotExpected : string := "not_expected".

Definition answers_not_taken (m : Msg) (reason : string) : bool :=
  if isNotice m || isReply (rawMsgName m) then false
  else IsIO (sourceL2Name m)
       || negb (neverAnswered m || negb ((reason =s notTakenNoThread) || (reason =s notTakenInvalidInput))).

Definition answerNotTaken (m : Msg) (reason detail : string) : M G bool :=
  if negb (answers_not_taken m reason) || str_is_empty (src (routing m)) then ret true
  else
    match marshal_payload E (JObj [("ok", JBool false); ("error", JStr "not_taken"); ("reason", JStr reason);
                                   ("detail", JStr detail)]) with
    | None => ret false
    | Some raw =>
      let! a := SendMsg (Answered (mkMessage
        (mkRouting (node_uuid E) None (Unicast (src (routing m))) 16 (trace_id (routing m)))
        (mkMeta SYSTEM_KIND (Some msgNotTaken) None None None (thread_id (meta m)) None None None None None None None
           None None None false) raw)) in
      ret (went_well a)
    end.

(** ** Transitions *)

(** [chooseTransition]. *)
Definition chooseTransition i (ts : list (TransitionDefinition G)) event
  (matches : EventMatch -> Msg -> bool) : option (TransitionDefinition G) :=
  List.find (fun t =>
    matches (event_match t) event
    && match program t with
       | Some g => eval_guard E g (b_input (born i)) (state_vars i) (messageToMap event)
       | None => false
       end) ts.

Definition takeCycleTrace event i : WFInstance G :=
  let t := trace_id (routing event) in
  if receivedFromANode event then set_cycle (TraceOf (context_of event)) t i
  else if str_is_empty t || negb (t =s cycle_trace_id i) then set_cycle None t i
  else set_cycle (cycle_trace i) t i.

Definition agentCallCapMessage (target : string) : string :=
  "8 messages went to agents since the last trigger (a message from an IO node or a WF, or a timer's fire), the most there may be: the one to "
  ++ target ++ " was not sent".

(** [agentCallCapEvent]: the event, once per trigger. *)
Definition agentCallCapEvent event : M G (list InternalEventRow) :=
  let! i := gets cur in
  let! now := now_ms in
  let c := calls i in
  if str_is_empty (calls_skipped c) || calls_reported c then ret []
  else
    do! update (set_calls (mkCalls (calls_sent c) (calls_skipped c) true)) in
    match marshalJSON (JObj [("type", JStr "error"); ("code", JStr "agent_call_cap");
                             ("message", JStr (agentCallCapMessage (calls_skipped c)));
                             ("target", JStr (calls_skipped c))]) with
    | Some raw => ret [internal_event i event now "AGENT_CALL_CAP" raw]
    | None => ret []
    end.

(** [routeToFailed]. *)
Definition routeToFailed event taken : M G bool :=
  do! reset_calls in
  let! i := gets cur in
  let! now := now_ms in
  let! _ := match findState (b_def (born i)) "failed" with
            | Some st =>
              if current_state i =s "failed" then ret (true, [])
              else do! update (set_state "failed") in runActions true (entry_actions st) event []
            | None => ret (true, [])
            end in
  do! update (fun i => set_updated now (set_trace "" (set_ended failed now i))) in
  do! cancelAllTimers in
  commit (mutation taken [] true).

Definition runCancelTransition event taken : M G bool :=
  do! reset_calls in
  let! i := gets cur in
  let! now := now_ms in
  let finish :=
    do! update (fun i => set_trace "" (set_ended cancelled now i)) in
    do! cancelAllTimers in
    commit (mutation taken [] true) in
  match findState (b_def (born i)) "cancelled" with
  | None => finish
  | Some st =>
    do! update (fun i => takeCycleTrace event (set_trace (trace_id (routing event)) i)) in
    let! _ := match findState (b_def (born i)) (current_state i) with
              | Some from => runActions true (exit_actions from) event []
              | None => ret (true, [])
              end in
    do! update (set_state "cancelled") in
    do! runActions true (entry_actions st) event [] in
    finish
  end.

(** The commit a transition ends with, in [target] when it leaves its state. *)
Definition finish_transition event taken (target : option string) (emitted : list InternalEventRow) : M G bool :=
  let! capped := agentCallCapEvent event in
  let! now := now_ms in
  do! update (fun i => set_updated now (set_trace "" i)) in
  let! i := gets cur in
  match target with
  | Some t =>
    if isTerminalState (b_def (born i)) t then
      do! update (set_ended (terminalStatus t) now) in
      do! cancelAllTimers in
      commit (mutation taken [] true)
    else commit (mutation taken (emitted ++ capped) false)
  | None => commit (mutation taken (emitted ++ capped) false)
  end.

(** The exit, own and entry actions of the transition chosen, and its commit. *)
Definition run_chosen event taken (from : StateDefinition G) (t : TransitionDefinition G)
  (to : option (StateDefinition G)) : M G bool :=
  do! update (fun i => takeCycleTrace event (set_trace (trace_id (routing event)) i)) in
  let! r := match to with Some _ => runActions false (exit_actions from) event [] | None => ret (true, []) end in
  if negb r.1 then routeToFailed event taken
  else
    let! r := runActions false (t_actions t) event r.2 in
    if negb r.1 then routeToFailed event taken
    else
      match to with
      | None => finish_transition event taken None r.2
      | Some st =>
        do! update (set_state (target_state t)) in
        let! r := runActions false (entry_actions st) event r.2 in
        if negb r.1 then routeToFailed event taken
        else finish_transition event taken (Some (target_state t)) r.2
      end.

(** The default: an event nothing takes is consumed, and its sender may hear so. *)
Definition unhandled event taken : M G bool :=
  let! i := gets cur in
  let! now := now_ms in
  let! consumed := if durable taken then do! update (set_updated now) in commit (mutation taken [] false)
                   else ret true in
  if consumed then
    do! answerNotTaken event notTakenNotExpected
          ("the conversation's instance is in state " ++ current_state i
           ++ ", where no transition and no catch takes the message") in
    ret true
  else ret false.

Definition RunTransition event taken : M G bool :=
  do! tick in
  do! if startsATrigger event (node_name E) then reset_calls else ret () in
  do! update (notePerson event) in
  let! i := gets cur in
  let def := b_def (born i) in
  match findState def (current_state i) with
  | None => routeToFailed event taken
  | Some from =>
    let chosen := match chooseTransition i (transitions from) event matchesEvent with
                  | Some t => Some t
                  | None => chooseTransition i (catch def) event catchMatches
                  end in
    match chosen with
    | None => unhandled event taken
    | Some t =>
      if str_is_empty (target_state t) then run_chosen event taken from t None
      else match findState def (target_state t) with
           | None => routeToFailed event taken
           | Some to => run_chosen event taken from t (Some to)
           end
    end
  end.

(** ** Internal events *)

Definition maxInternalEventsPerEvent : nat := 100.
Definition maxReplayAttempts : Z := 3.

(** [failStoredInstance] (correlate.go). *)
Definition failStoredInstance (id : string) : M G bool :=
  let! now := now_ms in
  do! cancelInstanceTimers id in
  tx (FailInstance id now).

(** [buildInternalEventMessage]; [json.Valid] is that the payload decodes. *)
Definition buildInternalEventMessage (row : InternalEventRow) (thread : string) : option Msg :=
  let body := if str_is_empty (payload_json row) then "{}" else payload_json row in
  match decode E body with
  | None => None
  | Some _ =>
    Some (mkMessage (mkRouting "" None (Unicast "") 0 (ie_trace_id row))
            (mkMeta (ie_msg_type row) (Some (ie_msg_name row)) None None None (Some thread) None None None None None None
               None None None None false) body)
  end.

(** One turn of [drain]: the instance's next event is given to [run], unless the instance ended, its
    queue is empty, or the event ran at [maxReplayAttempts] starts already. *)
Definition next_event (count_attempts : bool) (run : Msg -> TakenEvent -> M G bool) : M G bool :=
  let! i := gets cur in
  if negb (bool_decide (i_status i = running)) then ret true
  else
    let! next := query (GetNextInternalEvent (b_id (born i))) in
    match next with
    | None => ret false
    | Some None => ret true
    | Some (Some row) =>
      if count_attempts && (maxReplayAttempts <=? ie_attempts row)%Z then
        let! now := now_ms in
        do! update (set_ended failed now) in
        failStoredInstance (b_id (born i))
      else
        let! counted := if count_attempts then tx (CountInternalAttempt (ie_event_id row)) else ret true in
        if negb counted then ret false
        else
          match buildInternalEventMessage row (b_thread (born i)) with
          | None => ret false
          | Some event => run event (mkTaken None (Some (ie_event_id row)))
          end
    end.

(** [drain], with [left] events it may still run. *)
Fixpoint drain (left : nat) (count_attempts : bool) : M G bool :=
  next_event count_attempts (fun event taken =>
    match left with
    | O => routeToFailed event taken
    | S left' =>
      let! ok := RunTransition event taken in
      if ok then drain left' count_attempts else ret false
    end).

Definition drainInternalEvents : M G bool := drain maxInternalEventsPerEvent false.
Definition drainLeftoverInternalEvents : M G bool := drain maxInternalEventsPerEvent true.

End Engine.
