(* ===== verification/WfNode.v ===== *)
(** * The workflow node: correlation, dispatch, recovery and timers

    src/go/nodes/wf/wf-generic/node: correlate.go, dispatch.go, recover.go, idle.go, gc.go and node.go.
    The receive loop takes one message, tick or list of timers at a time; between any two of them, or
    within one, the process may stop and start again on the store it left. *)

From Stdlib Require Import ZArith Lia Ascii String.
From stdpp Require Import base list strings gmap.
From S2P Require Import Prelude Protocol WfDef WfStore WfEngine.
Open Scope string_scope.
Open Scope wf_scope.

#[local] Abbreviation Obj := (list (string * JVal)).

Section Node.
Context {G : Type} (E : Env G).
Implicit Types (i : WFInstance G) (m event : Msg) (taken : TakenEvent).

(** ** The registry *)

(** [Add]: whether the thread was free. *)
Definition registry_add i : M G bool :=
  let! ids := gets by_id in
  let! threads := gets by_thread in
  let id := b_id (born i) in
  let thread := b_thread (born i) in
  if match threads !! thread with Some holder => negb (holder =s id) | None => false end then ret false
  else do! modify (set_registry (<[id := i]> ids) (<[thread := id]> threads)) in ret true.

(** [Get]. *)
Definition registry_get (id : string) : M G (option (WFInstance G)) := gets (fun w => by_id w !! id).

(** [GetByThread]. *)
Definition registry_by_thread (thread : string) : M G (option (WFInstance G)) :=
  gets (fun w => match by_thread w !! thread with Some id => by_id w !! id | None => None end).

(** [Remove]. *)
Definition registry_remove (id : string) : M G () :=
  let! ids := gets by_id in
  let! threads := gets by_thread in
  let threads' := match ids !! id with
                  | Some i => if opt_str_is (threads !! b_thread (born i)) id then delete (b_thread (born i)) threads
                              else threads
                  | None => threads
                  end in
  modify (set_registry (delete id ids) threads').

(** Takes the instance's mutex: [cur] is the instance from here. *)
Definition lock i : M G () := update (fun _ => i).

(** Lets it go: the registry's instance, when it holds one of this id, is the one processed. *)
Definition unlock : M G () :=
  let! i := gets cur in
  let! ids := gets by_id in
  let! threads := gets by_thread in
  match ids !! b_id (born i) with
  | Some _ => modify (set_registry (<[b_id (born i) := i]> ids) threads)
  | None => ret ()
  end.

(** For each instance of [All]; one leaves the registry only in its own turn. *)
Definition each_registered (f : WFInstance G -> M G ()) : M G () :=
  let! ids := gets by_id in
  run_each (fun '(id, _) =>
    let! inst := registry_get id in
    match inst with Some i => f i | None => ret () end) (map_to_list ids).

(** ** Failures *)

Definition failInStore : M G bool :=
  let! now := now_ms in
  do! update (set_ended failed now) in
  let! i := gets cur in
  do! failStoredInstance (b_id (born i)) in
  ret false.

Definition failAfterPanic event taken : M G bool :=
  recover
    (let! ok := routeToFailed E event taken in
     if ok then ret false else failInStore)
    failInStore.

Definition protect event taken (run : M G bool) : M G bool := recover run (failAfterPanic event taken).

Definition pruneDefinitions : M G () :=
  let! hash := gets w_def_hash in
  do! tx (PruneDefinitions hash) in
  ret ().

(** [settle]. *)
Definition settle : M G () :=
  let! i := gets cur in
  if bool_decide (i_status i = running) then ret ()
  else
    do! registry_remove (b_id (born i)) in
    let! hash := gets w_def_hash in
    if b_hash (born i) =s hash then ret () else pruneDefinitions.

(** Runs [run] on [i], under its mutex. *)
Definition process i event taken (run : M G bool) : M G bool :=
  do! lock i in
  let! ok := protect event taken run in
  do! unlock in
  do! settle in
  ret ok.

(** ** Events and creations *)

(** [journal]: the event's id. *)
Definition journal (id : string) (kind : InboundKind) m (fired_timer_key : string) : M G (option Z) :=
  match marshal_message E m with
  | None => ret None
  | Some raw =>
    let! now := now_ms in
    let! s := gets store in
    let! went := tx (JournalInbound (mkInboundEvent 0 id kind raw now 0) fired_timer_key) in
    ret (if went then Some (inbound_seq s + 1)%Z else None)
  end.

Definition runEvent i m (event_id : Z) : M G bool :=
  let taken := mkTaken (Some event_id) None in
  process i m taken
    (let! ok := RunTransition E m taken in
     if ok then drainInternalEvents E else ret false).

Definition deliver i m (fired_timer_key : string) : M G bool :=
  let! id := journal (b_id (born i)) inboundEvent m fired_timer_key in
  match id with
  | None => ret false
  | Some event_id => runEvent i m event_id
  end.

(** [creationInput]: the input, or why there is none. *)
Definition creationInput (def : WorkflowDefinition G) m : Obj + string :=
  let raw := Prelude.trim (msg_payload m) in
  match (if str_is_empty raw || (raw =s "null") then Some [] else decodeObject E raw) with
  | None => inr "payload is not a JSON object"
  | Some input => match input_error E def input with Some e => inr e | None => inl input end
  end.

(** [NewInstance], with what [runCreation] writes on it before it takes its mutex. *)
Definition NewInstance (def : WorkflowDefinition G) (hash id : string) (input : Obj) (now : Z) m : WFInstance G :=
  takeCycleTrace E m
    (mkInstance G (mkBorn G id (unwrap_or "" (thread_id (meta m))) (workflow_type def) hash def input now)
       running (initial_state def) [] (trace_id (routing m)) None "" now None
       (mkPerson (unwrap_or "" (Protocol.src_ilk (meta m))) (unwrap_or "" (Protocol.ich (meta m))) (sourceL2Name m))
       ∅ ∅ no_calls).

(** The commit of a creation whose entry actions ran, and what follows it. *)
Definition commit_creation m taken (st : StateDefinition G) (emitted : list InternalEventRow) : M G bool :=
  let! capped := agentCallCapEvent E m in
  let! now := now_ms in
  let! i := gets cur in
  let terminal := isTerminalState (b_def (born i)) (st_name st) in
  do! if terminal then
        do! update (set_ended (terminalStatus (st_name st)) now) in cancelAllTimers
      else ret () in
  do! update (set_trace "") in
  let! went := commit E (mutation taken (if terminal then [] else emitted ++ capped) terminal) in
  if negb went then ret false
  else
    let! i := gets cur in
    let! added := if bool_decide (i_status i = running) then registry_add i else ret true in
    if added then drainInternalEvents E else failInStore.

(** [runCreation]; without its initial state a definition does not load, and the nil dereference would
    panic. *)
Definition runCreation m (id : string) (input : Obj) (event_id : Z) : M G bool :=
  let! def := gets w_def in
  let! hash := gets w_def_hash in
  let! now := now_ms in
  let taken := mkTaken (Some event_id) None in
  do! modify (add_did (CountStarts id)) in
  process (NewInstance def hash id input now m) m taken
    (match findState def (initial_state def) with
     | None => fun w => (Panicked, w)
     | Some st =>
       let! r := runActions E false (entry_actions st) m [] in
       if negb r.1 then routeToFailed E m taken else commit_creation m taken st r.2
     end).

Definition newInstanceID : M G string :=
  let! n := gets fresh in
  do! modify next_fresh in
  ret ("wfi:" ++ uuid E n).

Definition create m : M G bool :=
  let! def := gets w_def in
  match creationInput def m with
  | inr e => answerNotTaken E m notTakenInvalidInput e
  | inl input =>
    let! id := newInstanceID in
    let! event_id := journal id inboundCreate m "" in
    match event_id with
    | None => ret false
    | Some event_id => runCreation m id input event_id
    end
  end.

(** ** Timers *)

(** [scheduleAgain]. *)
Definition scheduleAgain (row : TimerRow) : M G () :=
  let! now := now_ms in
  let in_ns := Z.max ((fire_at_ms row - now) * 1000000) minTimerDuration in
  let! asked := schedule (tm_instance_id row) (tm_timer_key row) in_ns 0 "fire" None in
  if asked then
    do! tx (RegisterTimer (tm_instance_id row) (tm_timer_key row) now (now + ms_of in_ns)) in ret ()
  else ret ().

Definition timerFireTolerance_ms : Z := 2000.

(** [takeTimerFired]: a fire is taken only from SY.timer of the node's hive, for a timer this node
    scheduled, that the instance has in the index, at its time. *)
Definition takeTimerFired m : M G bool :=
  if negb (sourceL2Name m =s timerAuthority (node_name E)) then ret true
  else
    match read_fired E (msg_payload m), firedTimer E m with
    | Some fired, Some (id, key) =>
      if negb (f_owner_l2_name fired =s node_name E) then ret true
      else
        let! inst := registry_get id in
        match inst with
        | None => ret true
        | Some i =>
          let! timer := query (GetTimerForInstance id key) in
          match timer with
          | None => ret false
          | Some None => ret true
          | Some (Some row) =>
            if (fire_at_ms row >? f_scheduled_ms fired + timerFireTolerance_ms)%Z then
              do! scheduleAgain row in ret true
            else deliver i m key
          end
        end
    | _, _ => ret true
    end.

(** ** Correlation *)

Definition noThreadDetail : string := "the message has no thread_id, and a WF never makes one up".

Definition noConversationDetail (thread sender : string) : string :=
  "no running instance holds thread " ++ quote E thread ++ ", and a message from " ++ sender ++ " starts none".

Definition dispatchWorkflowEvent m : M G bool :=
  let name := rawMsgName m in
  let sender := sourceL2Name m in
  let thread := unwrap_or "" (thread_id (meta m)) in
  let has_thread := negb (str_is_empty (Prelude.trim thread)) in
  if name =s MsgTimerFired then takeTimerFired m
  else
    let! def := gets w_def in
    let! found := registry_by_thread thread in
    let on_thread := if has_thread then found else None in
    if negb (Involves match on_thread with Some i => b_def (born i) | None => def end sender) then ret true
    else
      match on_thread with
      | Some i => deliver i m ""
      | None =>
        if negb has_thread then answerNotTaken E m notTakenNoThread noThreadDetail
        else if negb (StartsFrom def sender) || isReply name then
          answerNotTaken E m notTakenNoConversation (noConversationDetail thread sender)
        else create m
      end.

(** ** Dispatch *)

Definition wfControlRequests : list (string * string) :=
  [("WF_HELP", "WF_HELP_RESPONSE"); ("WF_GET_INSTANCE", "WF_GET_INSTANCE_RESPONSE");
   ("WF_LIST_INSTANCES", "WF_LIST_INSTANCES_RESPONSE"); ("WF_GET_CODE", "WF_GET_CODE_RESPONSE");
   ("WF_CANCEL_INSTANCE", "WF_CANCEL_INSTANCE_RESPONSE")].

(** [BuildSystemResponse], to whoever asked. *)
Definition system_response m (response : string) (raw : string) : Msg :=
  mkMessage
    (mkRouting (node_uuid E) None
       (if str_is_empty (src (routing m)) then Broadcast else Unicast (src (routing m)))
       (if (ttl (routing m) =? 0)%Z then 1 else ttl (routing m)) (trace_id (routing m)))
    (mkMeta SYSTEM_KIND (Some response) None None None None None None None (Some response) None None None None None
       None false) raw.

Definition wfErrorPayload (code detail : string) : JVal :=
  JObj [("ok", JBool false); ("error", JStr code); ("detail", JStr detail)].

(** [replyOrError]: a reply that cannot go is answered with the error; its text is left out. *)
Definition sendReply m (response : string) (body : JVal) : M G bool :=
  let send body := match marshal_payload E body with
                   | None => ret ATooLarge
                   | Some raw => SendMsg (Answered (system_response m response raw))
                   end in
  let! a := send body in
  match a with
  | AOk => ret true
  | ATooLarge => do! send (wfErrorPayload "INTERNAL_ERROR" "") in ret false
  | _ => ret false
  end.

Definition status_text (s : Status) : string :=
  match s with running => "running" | completed => "completed" | cancelled => "cancelled" | failed => "failed" end.

(** [handleWFCancelInstance]. *)
Definition handleWFCancelInstance m : M G bool :=
  let reply := sendReply m "WF_CANCEL_INSTANCE_RESPONSE" in
  let id := unwrap_or "" (read_cancel E (msg_payload m)) in
  if str_is_empty id then reply (wfErrorPayload "INVALID_REQUEST" "instance_id required")
  else
    let! inst := registry_get id in
    match inst with
    | None =>
      let! row := query (GetInstance id) in
      match row with
      | Some (Some r) =>
        if is_running r then reply (wfErrorPayload "INSTANCE_NOT_FOUND" "instance not in active registry")
        else reply (wfErrorPayload "INSTANCE_ALREADY_TERMINATED"
                      ("instance " ++ quote E id ++ " is already " ++ status_text (r_status r)))
      | _ => reply (wfErrorPayload "INSTANCE_NOT_FOUND" ("instance " ++ quote E id ++ " not found"))
      end
    | Some i =>
      if negb (bool_decide (i_status i = running)) then
        reply (wfErrorPayload "INSTANCE_ALREADY_TERMINATED"
                 ("instance " ++ quote E id ++ " is already " ++ status_text (i_status i)))
      else
        let taken := mkTaken None None in
        let! ok := process i m taken (runCancelTransition E m taken) in
        if ok then reply (JObj [("ok", JBool true); ("instance_id", JStr id); ("status", JStr "cancelled")])
        else ret false
    end.

Definition is_plane_verb m : bool :=
  is_system_kind (msg_type (meta m)) && str_mem (rawMsgName m) ["NODE_STATUS_GET"; "CONFIG_GET"; "CONFIG_SET"].

Definition Dispatch m : M G bool :=
  let name := rawMsgName m in
  if is_plane_verb m then
    let! a := SendMsg (Answered (plane_answer E m)) in ret (went_well a)
  else if isNotice m then ret true
  else
    match field name wfControlRequests with
    | Some response =>
      if negb (controlCallerAuthorized (node_name E) (sourceL2Name m)) then
        sendReply m response (wfErrorPayload "UNAUTHORIZED"
          (name ++ " is answered only to " ++ PrimaryAdminNode ++ " and " ++ wfRulesNode (node_name E) ++ ", not "
           ++ quote E (sourceL2Name m)))
      else if name =s "WF_CANCEL_INSTANCE" then handleWFCancelInstance m
      else let! s := gets store in sendReply m response (control_answer E s m)
    | None =>
      if is_system_kind (msg_type (meta m)) && negb (name =s MsgTimerFired) then ret true
      else dispatchWorkflowEvent m
    end.

(** ** Recovery *)

(** [FromRow]. *)
Definition FromRow (row : WFInstanceRow) (def : WorkflowDefinition G) (rows : list KeptMessageRow)
  : option (WFInstance G) :=
  match unmarshalJSON E (input_json row), unmarshalJSON E (state_json row),
        mapM (fun k => option_map (fun m => (k_name k, (m, k))) (unmarshal_message E (k_message_json k))) rows with
  | Some input, Some state, Some messages =>
    Some (mkInstance G
            (mkBorn G (r_instance_id row) (r_thread_id row) (r_workflow_type row) (r_definition_hash row) def input
               (r_created_at_ms row))
            (r_status row) (r_current_state row) state (r_current_trace_id row) None "" (r_updated_at_ms row)
            (r_terminated_at_ms row) (mkPerson (r_person_ilk row) (r_person_ich row) (r_person_io row))
            (list_to_map messages) ∅ no_calls)
  | _, _, _ => None
  end.

(** [definitionFor]; a read that fails is no definition. *)
Definition definitionFor (hash : string) : M G (option (WorkflowDefinition G)) :=
  let! def := gets w_def in
  let! current := gets w_def_hash in
  if hash =s current then ret (Some def)
  else if str_is_empty hash then ret None
  else
    let! row := query (GetDefinition hash) in
    ret match row with Some (Some r) => load_definition E (definition_json r) | _ => None end.

(** One row of [loadRunningInstances]: whether the start goes on. *)
Definition load_instance (row : WFInstanceRow) : M G bool :=
  let id := r_instance_id row in
  let! def := definitionFor (r_definition_hash row) in
  match def with
  | None => failStoredInstance id
  | Some def =>
    match findState def (r_current_state row) with
    | None => failStoredInstance id
    | Some _ =>
      let! rows := query (ListKeptMessages id) in
      match rows with
      | None => ret false
      | Some rows =>
        match FromRow row def rows with
        | None => ret true
        | Some i =>
          do! modify (add_did (CountStarts id)) in
          let! added := registry_add i in
          if added then ret true else failStoredInstance id
        end
      end
    end
  end.

Definition loadRunningInstances : M G bool :=
  let! rows := query LoadRunningInstances in
  match rows with
  | None => ret false
  | Some rows => run_while load_instance rows
  end.

(** The message of a recovered drain: none. *)
Definition no_message : Msg :=
  mkMessage (mkRouting "" None (Unicast "") 0 "")
    (mkMeta "" None None None None None None None None None None None None None None None false) "".

Definition drainRecovered i : M G () :=
  let taken := mkTaken None None in
  do! process i no_message taken (drainLeftoverInternalEvents E) in
  ret ().

Definition giveUpInbound (row : InboundEventRow) : M G () :=
  let! inst := registry_get (in_instance_id row) in
  match inst with
  | None => do! tx (DeleteInboundEvent (in_event_id row)) in ret ()
  | Some i =>
    do! lock i in
    do! failInStore in
    do! unlock in
    settle
  end.

(** A creation that starts nothing leaves the journal, and then its sender may hear so. *)
Definition refuse (row : InboundEventRow) m (reason detail : string) : M G bool :=
  let! dropped := tx (DeleteInboundEvent (in_event_id row)) in
  let! def := gets w_def in
  if negb dropped || negb (Involves def (sourceL2Name m)) then ret true
  else do! answerNotTaken E m reason detail in ret true.

Definition drop (row : InboundEventRow) : M G bool :=
  do! tx (DeleteInboundEvent (in_event_id row)) in ret true.

(** A journaled creation run again. *)
Definition replay_creation (row : InboundEventRow) m : M G bool :=
  let! found := query (GetInstance (in_instance_id row)) in
  match found with
  | None => ret false
  | Some (Some _) => drop row
  | Some None =>
    let thread := unwrap_or "" (thread_id (meta m)) in
    let sender := sourceL2Name m in
    let! def := gets w_def in
    if str_is_empty (Prelude.trim thread) then refuse row m notTakenNoThread noThreadDetail
    else
      let! held := registry_by_thread thread in
      match held with
      | Some i =>
        if negb (Involves (b_def (born i)) sender) then drop row
        else
          let! went := tx (RetargetInboundEvent (in_event_id row) (b_id (born i))) in
          if went then do! runEvent i m (in_event_id row) in ret true else ret false
      | None =>
        if negb (StartsFrom def sender) then
          refuse row m notTakenNoConversation (noConversationDetail thread sender)
        else
          match creationInput def m with
          | inr e => refuse row m notTakenInvalidInput e
          | inl input => do! runCreation m (in_instance_id row) input (in_event_id row) in ret true
          end
      end
  end.

(** One row of [replayInbound]. *)
Definition replay_row (row : InboundEventRow) : M G bool :=
  match unmarshal_message E (message_json row) with
  | None => drop row
  | Some m =>
    if (maxReplayAttempts <=? in_attempts row)%Z then do! giveUpInbound row in ret true
    else
      let! counted := tx (CountInboundAttempt (in_event_id row)) in
      if negb counted then ret false
      else
        match in_kind row with
        | inboundCreate => replay_creation row m
        | inboundEvent =>
          let! inst := registry_get (in_instance_id row) in
          match inst with
          | None => drop row
          | Some i => do! runEvent i m (in_event_id row) in ret true
          end
        end
  end.

Definition replayInbound : M G bool :=
  let! rows := query ListInboundEvents in
  match rows with
  | None => ret false
  | Some rows => run_while replay_row rows
  end.

(** ** SY.timer's list *)

Record TimerInfo := mkTimerInfo { sy_uuid : string; sy_client_ref : option string; sy_fire_at_ms : Z }.

(** [buildSyntheticTimerFired]. *)
Definition buildSyntheticTimerFired (row : TimerRow) (timer_uuid : string) (now : Z) : Msg :=
  let owner := node_name E in
  let fired := mkFired timer_uuid owner (Some (timerClientRef (tm_instance_id row) (tm_timer_key row))) "oneshot"
    (fire_at_ms row) now 1 true
    (unwrap_or "" (marshal_payload E (JObj [("instance_id", JStr (tm_instance_id row));
                                            ("timer_key", JStr (tm_timer_key row))]))) in
  mkMessage (mkRouting owner None (Unicast owner) 1 ("recover-" ++ tm_instance_id row ++ "-" ++ tm_timer_key row))
    (mkMeta SYSTEM_KIND (Some MsgTimerFired) None None None None None None None None None None None None None None false)
    (write_fired E fired).

Definition fireMissedTimer i (row : TimerRow) (timer_uuid : string) : M G () :=
  let! now := now_ms in
  do! deliver i (buildSyntheticTimerFired row timer_uuid now) (tm_timer_key row) in
  ret ().

Definition sy_view (timers : list TimerInfo) : gmap string TimerInfo :=
  foldl (fun view t => match sy_client_ref t with
                       | Some ref => if str_is_empty ref then view else <[ref := t]> view
                       | None => view
                       end) ∅ timers.

Definition cancel_in_timer (ref : string) : M G () :=
  do! ask_timer (CancelByClientRef (Prelude.trim ref)) in ret ().

(** One row of the index, read again before anything is done with it. *)
Definition reconcile_row (view : gmap string TimerInfo) (asked_at_ms : Z) (listed : TimerRow) : M G () :=
  let id := tm_instance_id listed in
  let key := tm_timer_key listed in
  let ref := timerClientRef id key in
  let! found := query (GetTimerForInstance id key) in
  let! now := now_ms in
  match found with
  | Some (Some row) =>
    if negb (fire_at_ms row =? fire_at_ms listed)%Z || (scheduled_at_ms row >? asked_at_ms)%Z then ret ()
    else
      let! inst := registry_get id in
      let forget := do! tx (DeleteTimer id key) in ret () in
      match view !! ref, inst with
      | Some t, _ =>
        if (sy_fire_at_ms t >? now)%Z then ret ()
        else
          match inst with
          | Some i =>
            do! fireMissedTimer i row (sy_uuid t) in
            let! again := query (GetTimerForInstance id key) in
            match again with
            | Some (Some _) => ret ()
            | _ => cancel_in_timer ref
            end
          | None => do! forget in cancel_in_timer ref
          end
      | None, Some i => if (fire_at_ms row <=? now)%Z then fireMissedTimer i row "" else scheduleAgain row
      | None, None => forget
      end
  | _ => ret ()
  end.

Definition reconcileTimers (timers : list TimerInfo) (asked_at_ms : Z) : M G () :=
  let! expected := query ListAllExpectedTimers in
  match expected with
  | None => ret ()
  | Some rows =>
    let view := sy_view timers in
    do! run_each (reconcile_row view asked_at_ms) rows in
    let orphans := foldl (fun v r => delete (timerClientRef (tm_instance_id r) (tm_timer_key r)) v) view rows in
    run_each (fun '(ref, _) => match parseTimerClientRef ref with
                               | Some _ => cancel_in_timer ref
                               | None => ret ()
                               end) (map_to_list orphans)
  end.

(** [takeTimerList]; [None]: SY.timer did not answer. *)
Definition takeTimerList (timers : option (list TimerInfo)) (asked_at_ms : Z) : M G () :=
  match timers with
  | None => modify (set_pending true)
  | Some timers => do! reconcileTimers timers asked_at_ms in modify (set_pending false)
  end.

(** [Recover]: whether the store held. *)
Definition Recover (timers : option (list TimerInfo)) : M G bool :=
  let! loaded := loadRunningInstances in
  if negb loaded then ret false
  else
    do! each_registered drainRecovered in
    let! replayed := replayInbound in
    if negb replayed then ret false
    else
      let! now := now_ms in
      do! takeTimerList timers now in
      do! pruneDefinitions in
      ret true.

(** [startEngine]. *)
Definition startEngine (bytes : string) (timers : option (list TimerInfo)) : M G bool :=
  let! def := gets w_def in
  let! hash := gets w_def_hash in
  let! now := now_ms in
  let! kept := tx (PutDefinition (mkDefinitionRow hash (workflow_type def) bytes now)) in
  if kept then Recover timers else ret false.

(** ** Quiet instances *)

Definition DefaultIdleTimeout : string := "4d".

(** [IdleAfter], in nanoseconds, and its words. *)
Definition IdleAfter (def : WorkflowDefinition G) : Z * string :=
  let value := if str_is_empty (idle_timeout def) then DefaultIdleTimeout else idle_timeout def in
  match ParseWorkflowDuration E value with
  | Some d => (d, value)
  | None => (unwrap_or 0%Z (ParseWorkflowDuration E DefaultIdleTimeout), DefaultIdleTimeout)
  end.

(** [closeIfQuiet]. *)
Definition closeIfQuiet i : M G () :=
  let! now := now_ms in
  let '(after, words) := IdleAfter (b_def (born i)) in
  if negb (bool_decide (i_status i = running)) || (now - updated_at_ms i <? ms_of after)%Z then ret ()
  else
    let! timers := query (ListTimersForInstance (b_id (born i))) in
    match timers with
    | Some [] =>
      match marshal_payload E (JObj [("instance_id", JStr (b_id (born i)));
              ("reason", JStr ("quiet for " ++ words ++ " with no timer pending (idle_timeout)"))]) with
      | None => ret ()
      | Some raw =>
        let! n := gets fresh in
        do! modify next_fresh in
        let event := mkMessage (mkRouting "" None (Unicast "") 0 (uuid E n))
          (mkMeta SYSTEM_KIND (Some "WF_CANCEL_INSTANCE") None None None None None None None None None None None None None
             None false) raw in
        let taken := mkTaken None None in
        do! process i event taken (runCancelTransition E event taken) in
        ret ()
      end
    | _ => ret ()
    end.

Definition closeQuietInstances : M G () := each_registered closeIfQuiet.

(** [runGC]: its deletes stop at the first that fails. *)
Definition runGC (retention_days : Z) : M G () :=
  let! now := gets now_ns in
  let! deletes := query (DeleteTerminatedBefore (ms_of (now - retention_days * day))) in
  match deletes with
  | None => ret ()
  | Some deletes => do! run_while tx deletes in ret ()
  end.

(** ** The node *)

(** What the receive loop takes. *)
Inductive Input :=
| Inbound (m : Msg)
| TimerList (timers : option (list TimerInfo)) (asked_at_ms : Z)
| IdleTick
| GcTick (retention_days : Z).

Definition handle (x : Input) : M G () :=
  match x with
  | Inbound m => do! Dispatch m in ret ()
  | TimerList timers asked => takeTimerList timers asked
  | IdleTick => closeQuietInstances
  | GcTick days => runGC days
  end.

(** What outlives the process: its store, and the world it acted on. *)
Record Durable := mkDurable { d_store : Store; d_did : list (Did G); d_fresh : nat }.

Definition durable_of (w : World G) : Durable := mkDurable (store w) (did w) (fresh w).

(** The instance processed before there is one: it has no id, and may send nothing. *)
Definition nobody (def : WorkflowDefinition G) (hash : string) : WFInstance G :=
  set_calls (mkCalls maxAgentCallsPerTrigger "" false) (NewInstance def hash "" [] 0 no_message).

Definition boot (d : Durable) (def : WorkflowDefinition G) (hash : string) (o : list Answer) (now : Z) : World G :=
  mkWorld G (d_store d) (d_did d) (d_fresh d) o now def hash ∅ ∅ (nobody def hash) false.

Definition at_time (o : list Answer) (now : Z) (w : World G) : World G :=
  mkWorld G (store w) (did w) (fresh w) o now (w_def w) (w_def_hash w) (by_id w) (by_thread w) (cur w) (timers_pending w).

Inductive Node := Down (d : Durable) | Up (w : World G).

(** A start on any definition that loads; the process ends when the start fails. *)
Definition start (d : Durable) (bytes : string) (timers : option (list TimerInfo)) (o : list Answer) (now : Z) : Node :=
  match load_definition E bytes with
  | None => Down d
  | Some def =>
    match startEngine bytes timers (boot d def (hash_of E bytes) o now) with
    | (Done true, w) => Up w
    | (_, w) => Down (durable_of w)
    end
  end.

(** An input taken; a panic outside an instance's processing is logged ([dispatchGuarded]). *)
Definition take (w : World G) (x : Input) (o : list Answer) (now : Z) : Node :=
  match handle x (at_time o now w) with
  | (Crashed, w') => Down (durable_of w')
  | (_, w') => Up w'
  end.

Inductive node_step : Node -> Node -> Prop :=
| step_start d bytes timers o now : node_step (Down d) (start d bytes timers o now)
| step_take w x o now : node_step (Up w) (take w x o now)
| step_stop w : node_step (Up w) (Down (durable_of w)).

Definition empty_store : Store := mkStore ∅ ∅ [] 0 [] 0 ∅ ∅.

Inductive reachable_node : Node -> Prop :=
| reach_new : reachable_node (Down (mkDurable empty_store [] 0))
| reach_more n n' : reachable_node n -> node_step n n' -> reachable_node n'.

Definition durable_part (n : Node) : Durable := match n with Down d => d | Up w => durable_of w end.

End Node.
