(* ===== verification/WfAtomic.v ===== *)
(** * A transition of a workflow instance is one transaction

    Between what its actions ask of other nodes, a transition writes the timer index; everything else it
    leaves in the store is one [CommitInstanceMutation], with the event it took. *)

From Stdlib Require Import ZArith Lia String.
From stdpp Require Import base list strings gmap.
From S2P Require Import Prelude Protocol WfDef WfStore WfEngine WfNode.
Open Scope string_scope.
Open Scope wf_scope.

(** The store without its timer index. *)
Definition off_timers (s : Store) : Store := set_timers (fun _ => ∅) s.

Lemma off_timers_set f s : off_timers (set_timers f s) = off_timers s.
Proof. done. Qed.

Lemma off_timers_enqueue events s : off_timers (foldl enqueue s events) = foldl enqueue (off_timers s) events.
Proof. revert s. induction events as [|e events IH]; intros s; [done|]. cbn. by rewrite IH. Qed.

(** A commit neither reads nor writes the index. *)
Lemma commit_off_timers row m s :
  CommitInstanceMutation row m (off_timers s) = option_map off_timers (CommitInstanceMutation row m s).
Proof.
  unfold CommitInstanceMutation.
  destruct (ClearInternalEvents m), (EnqueueInternalEvents m) as [|e events]; try done; cbn [option_map]; f_equal.
  change (foldl enqueue (set_inbound (consume (r_instance_id row) m) (set_internal (dequeue (r_instance_id row) m)
    (set_instances (upsert row) (off_timers s)))) (e :: events))
    with (foldl enqueue (off_timers (set_inbound (consume (r_instance_id row) m) (set_internal (dequeue (r_instance_id row) m)
    (set_instances (upsert row) s)))) (e :: events)).
  by rewrite <- off_timers_enqueue.
Qed.

Section Atomic.
Context {G : Type} (E : Env G).
Implicit Types (w : World G) (event : Msg) (taken : TakenEvent).

(** ** What writes nothing but the index *)

Definition untouched w w' : Prop := off_timers (store w') = off_timers (store w) /\ born (cur w') = born (cur w).

Definition idle {A} (m : M G A) : Prop := forall w, untouched w (m w).2.

Lemma untouched_refl w : untouched w w. Proof. done. Qed.

Lemma untouched_trans w1 w2 w3 : untouched w1 w2 -> untouched w2 w3 -> untouched w1 w3.
Proof. intros [] []. split; congruence. Qed.

Lemma idle_ret {A} (a : A) : idle (ret a). Proof. done. Qed.

Lemma idle_bind {A B} (m : M G A) (k : A -> M G B) : idle m -> (forall a, idle (k a)) -> idle (bind m k).
Proof.
  intros Hm Hk w. unfold bind. specialize (Hm w). destruct (m w) as [[a| |] w']; cbn in *; [|done..].
  eapply untouched_trans; [done|apply Hk].
Qed.

Lemma idle_gets {A} (f : World G -> A) : idle (gets f). Proof. done. Qed.

Lemma idle_update (f : WFInstance G -> WFInstance G) : (forall i, born (f i) = born i) -> idle (update f).
Proof. intros Hf w. split; [done|apply Hf]. Qed.

Lemma idle_answer : idle answer.
Proof. intros w. unfold answer. by destruct (oracle w) as [|[] ?]. Qed.

Lemma idle_tick : idle tick.
Proof. intros w. unfold tick. by destruct (oracle w) as [|[] ?]. Qed.

Lemma idle_did d : idle (modify (add_did d)). Proof. done. Qed.

Lemma idle_set_timers f : idle (modify (set_store (set_timers f))). Proof. done. Qed.

Create HintDb wf_idle.
#[local] Hint Resolve idle_ret idle_gets idle_answer idle_tick idle_did idle_set_timers : wf_idle.
#[local] Hint Extern 3 (idle (update _)) => apply idle_update; intros; done : wf_idle.
#[local] Hint Extern 3 (idle now_ms) => apply idle_gets : wf_idle.

(** Follows the text of a computation. *)
Ltac idle_go :=
  repeat first
    [ solve [eauto with wf_idle]
    | lazymatch goal with
      | |- idle (bind _ _) => apply idle_bind; [|intros ?]
      | |- idle (if ?c then _ else _) => destruct c
      | |- idle (match ?c with _ => _ end) => destruct c
      end ].

Lemma idle_query {A} (f : Store -> A) : idle (query f). Proof. unfold query. idle_go. Qed.
Lemma idle_SendMsg d : idle (SendMsg d). Proof. unfold SendMsg. idle_go. Qed.
Lemma idle_ask_timer r : idle (ask_timer r). Proof. unfold ask_timer. idle_go. Qed.
Lemma idle_tx_timers f : idle (tx (set_timers f)). Proof. unfold tx. idle_go. Qed.
Lemma idle_reset_calls : idle reset_calls. Proof. unfold reset_calls. idle_go. Qed.
#[local] Hint Resolve idle_query idle_SendMsg idle_ask_timer idle_tx_timers idle_reset_calls : wf_idle.

Lemma idle_run_each {A} (m : A -> M G ()) l : (forall a, idle (m a)) -> idle (run_each m l).
Proof. intros Hm. induction l as [|a l IH]; cbn; idle_go. Qed.

Lemma idle_cancelInstanceTimers id : idle (cancelInstanceTimers id).
Proof. unfold cancelInstanceTimers, DeleteTimer. idle_go. apply idle_run_each. intros t. idle_go. Qed.
#[local] Hint Resolve idle_cancelInstanceTimers : wf_idle.

Lemma idle_cancelAllTimers : idle cancelAllTimers. Proof. unfold cancelAllTimers. idle_go. Qed.

Lemma idle_send_attempts n d : idle (send_attempts n d).
Proof. induction n; cbn; idle_go. Qed.
#[local] Hint Resolve idle_cancelAllTimers idle_send_attempts : wf_idle.

Lemma idle_executeAction a event : idle (executeAction E a event).
Proof.
  unfold executeAction, callAgent, sendWithRetry, execKeepMessage, execScheduleTimer, execCancelTimer, execRescheduleTimer,
    schedule, timer_indexed, RegisterTimer, DeleteTimer.
  destruct a; idle_go.
Qed.
#[local] Hint Resolve idle_executeAction : wf_idle.

Lemma idle_runActions be actions event emitted : idle (runActions E be actions event emitted).
Proof. revert emitted. induction actions; intros emitted; cbn; idle_go. Qed.

Lemma idle_agentCallCapEvent event : idle (agentCallCapEvent E event).
Proof. unfold agentCallCapEvent. idle_go. Qed.

Lemma idle_answerNotTaken m reason detail : idle (answerNotTaken E m reason detail).
Proof. unfold answerNotTaken. idle_go. Qed.
#[local] Hint Resolve idle_runActions idle_agentCallCapEvent idle_answerNotTaken : wf_idle.

Lemma born_cycle event t (i : WFInstance G) : born (takeCycleTrace E event (set_trace t i)) = born i.
Proof. unfold takeCycleTrace. by repeat case_match. Qed.

Lemma born_noted event (i : WFInstance G) : born (notePerson event i) = born i.
Proof. unfold notePerson. by repeat case_match. Qed.
#[local] Hint Extern 2 (idle (update _)) => apply idle_update; intros; apply born_cycle : wf_idle.
#[local] Hint Extern 2 (idle (update _)) => apply idle_update; intros; apply born_noted : wf_idle.

(** ** One commit *)

(** The store after is the one before with one commit of the instance, which consumes the event taken. *)
Definition written taken w w' : Prop :=
  exists row m, r_instance_id row = b_id (born (cur w))
    /\ ConsumedInboundEventID m = inbound_id taken /\ ConsumedInternalEventID m = internal_id taken
    /\ CommitInstanceMutation row m (off_timers (store w)) = Some (off_timers (store w')).

(** All of it, or nothing; [true] only with all of it, unless no stored event was taken. *)
Definition once {A} taken (m : M G A) (says : A -> bool) : Prop := forall w,
  let (o, w') := m w in
  (untouched w w' /\ match o with Done a => says a = true -> durable taken = false | _ => True end)
  \/ (written taken w w' /\ born (cur w') = born (cur w)).

Lemma written_after taken w1 w2 w3 : untouched w1 w2 -> written taken w2 w3 -> written taken w1 w3.
Proof. intros [Hs Hb] (row & m & ? & ? & ? & Hc). exists row, m. rewrite <- Hs, <- Hb. done. Qed.

Lemma written_before taken w1 w2 w3 : written taken w1 w2 -> untouched w2 w3 -> written taken w1 w3.
Proof. intros (row & m & ? & ? & ? & Hc) [Hs Hb]. exists row, m. by rewrite Hs. Qed.

Lemma once_after {A B} taken (m : M G A) (k : A -> M G B) says :
  idle m -> (forall a, once taken (k a) says) -> once taken (bind m k) says.
Proof.
  intros Hm Hk w. unfold bind. specialize (Hm w). destruct (m w) as [[a| |] w']; cbn in *; [|by left..].
  specialize (Hk a w'). destruct (k a w') as [o w'']. destruct Hk as [[Hu Hs]|[Hw Hb]].
  - left. split; [by eapply untouched_trans|done].
  - right. split; [by eapply written_after|]. rewrite Hb. apply Hm.
Qed.

Lemma once_then {A B} taken (m : M G A) (k : A -> M G B) says says' :
  once taken m says -> (forall a, idle (k a)) ->
  (forall a w, says a = false -> match (k a w).1 with Done b => says' b = false | _ => True end) ->
  once taken (bind m k) says'.
Proof.
  intros Hm Hk Hs w. unfold bind. specialize (Hm w). destruct (m w) as [[a| |] w']; [|by destruct Hm; auto..].
  specialize (Hk a w'). specialize (Hs a w'). destruct (k a w') as [o w'']. cbn in *. destruct Hm as [[Hu Ha]|[Hw Hb]].
  - left. split; [by eapply untouched_trans|]. destruct o as [b| |]; try done. intros Hb.
    apply Ha. destruct (says a); [done|]. rewrite Hs in Hb; done.
  - right. split; [by eapply written_before|]. rewrite <- Hb. apply Hk.
Qed.

Lemma once_ret_false taken : once taken (ret false) id.
Proof. intros w. cbn. by left. Qed.

Lemma once_commit taken events clear : once taken (commit E (mutation taken events clear)) id.
Proof.
  unfold commit. apply once_after; [idle_go|]. intros _. intros w. cbn.
  destruct (ToRow E (cur w) _) as [row|] eqn:Er; [|by left]. cbn.
  destruct (CommitInstanceMutation row _ (store w)) as [s'|] eqn:Ec; [|by left].
  assert (written taken w (set_store (fun _ => s') w)) as Hw.
  { eexists row, _. split; [|split; [|split; [|by rewrite commit_off_timers, Ec]]]; try done.
    unfold ToRow in Er. by repeat case_match; simplify_eq/=. }
  unfold tx, answer, bind. cbn. destruct (oracle w) as [|[] rest]; cbn; first [by left | by right].
Qed.
#[local] Hint Resolve once_commit once_ret_false : wf_idle.

Ltac once_go :=
  repeat first
    [ solve [eauto with wf_idle]
    | lazymatch goal with
      | |- once _ (bind _ _) _ => apply once_after; [idle_go|intros ?]
      | |- once _ (if ?c then _ else _) _ => destruct c
      | |- once _ (match ?c with _ => _ end) _ => destruct c
      end ].

Lemma once_routeToFailed event taken : once taken (routeToFailed E event taken) id.
Proof. unfold routeToFailed. once_go. Qed.
#[local] Hint Resolve once_routeToFailed : wf_idle.

Lemma once_finish_transition event taken target emitted : once taken (finish_transition E event taken target emitted) id.
Proof. unfold finish_transition. once_go. Qed.
#[local] Hint Resolve once_finish_transition : wf_idle.

Lemma once_run_chosen event taken from t to : once taken (run_chosen E event taken from t to) id.
Proof. unfold run_chosen. once_go. Qed.
#[local] Hint Resolve once_run_chosen : wf_idle.

Lemma once_unhandled event taken : once taken (unhandled E event taken) id.
Proof.
  unfold unhandled. apply once_after; [idle_go|]. intros i. apply once_after; [idle_go|]. intros now.
  apply (once_then _ _ _ id).
  - destruct (durable taken) eqn:Ed; [once_go|]. intros w. left. by split.
  - intros a. idle_go.
  - by intros [] w Ha.
Qed.
#[local] Hint Resolve once_unhandled : wf_idle.

Lemma once_RunTransition event taken : once taken (RunTransition E event taken) id.
Proof. unfold RunTransition. once_go. Qed.

Lemma once_runCancelTransition event taken : once taken (runCancelTransition E event taken) id.
Proof. unfold runCancelTransition. once_go. Qed.

(** C15. A transition is all or nothing, wherever its process stops, panics or is refused: the store it
    leaves, timers aside, is the one it found, or that one with a single commit of the instance's row
    that also deletes the event it took; it reports success only after that commit, when the event it
    took is a stored one. *)
Theorem transition_all_or_nothing event taken w :
  let (o, w') := RunTransition E event taken w in
  (off_timers (store w') = off_timers (store w) /\ (o = Done true -> durable taken = false))
  \/ exists row m, r_instance_id row = b_id (born (cur w))
       /\ ConsumedInboundEventID m = inbound_id taken /\ ConsumedInternalEventID m = internal_id taken
       /\ CommitInstanceMutation row m (off_timers (store w)) = Some (off_timers (store w')).
Proof.
  pose proof (once_RunTransition event taken w) as H. destruct (RunTransition E event taken w) as [o w'].
  destruct H as [[Hu Hs]|[Hw _]]; [left|by right]. split; [apply Hu|]. intros ->. by apply Hs.
Qed.

End Atomic.
