(* ===== verification/WfSafety.v ===== *)
(** * The invariant of a workflow node

    For every definition, every sequence of messages, timers and ticks, every failure of the store, of
    the connection and of SY.timer, every panic and every crash: what the node sends is on its
    instance's thread and to a node its definition names, an instance sends at most eight messages to
    agents between two triggers, the store stays consistent, and a thread has one running instance. *)

From Stdlib Require Import ZArith Lia Ascii String.
From stdpp Require Import base list strings gmap.
From S2P Require Import Prelude Protocol WfDef WfStore WfEngine WfNode.
Open Scope string_scope.
Open Scope wf_scope.

(** An instance whose definition has its initial state is in one of its states. *)
Definition in_state {G} (i : WFInstance G) : Prop :=
  let def := b_def (born i) in
  is_Some (findState def (initial_state def)) -> is_Some (findState def (current_state i)).

(** A change of an instance that leaves alone what the invariant reads. *)
Ltac tame_solve := intros ? ?; repeat split; cbn; auto; try (unfold in_state; cbn; tauto).

Section Safety.
Context {G : Type} (E : Env G).
Implicit Types (w : World G) (b : Born G) (i : WFInstance G) (event : Msg) (taken : TakenEvent).

(** ** What is kept *)

(** The instance whose send to an agent this is. *)
Definition agent_call (d : Did G) : option string :=
  match d with
  | Sent b m => match dst (routing m) with Unicast t => if IsAgent t then Some (b_id b) else None | _ => None end
  | _ => None
  end.

Definition count_step (id : string) (n : Z) (d : Did G) : Z :=
  match d with
  | CountStarts j => if j =s id then 0 else n
  | _ => if opt_str_is (agent_call d) id then n + 1 else n
  end.

(** The messages [id] sent to agents since its count last started. *)
Definition agent_calls (id : string) (l : list (Did G)) : Z := foldl (count_step id) 0%Z l.

#[local] Arguments agent_calls : simpl never.
#[local] Arguments send_attempts : simpl never.

Definition within_cap (l : list (Did G)) : Prop :=
  forall id l1 l2, l = (l1 ++ l2)%list -> (agent_calls id l1 <= maxAgentCallsPerTrigger)%Z.

(** A send the definition of its instance allows. *)
Definition legit (b : Born G) (m : Msg) : Prop :=
  (exists a t, a ∈ eachAction (b_def b) /\ send_target a = Some t /\ dst (routing m) = Unicast t)
  /\ thread_id (meta m) = Some (b_thread b) /\ memory_package (meta m) = None /\ src (routing m) = node_uuid E.

(** A definition the node loaded. *)
Definition loaded (def : WorkflowDefinition G) : Prop := exists bytes, load_definition E bytes = Some def.

Definition sends_legit (l : list (Did G)) : Prop := forall b m, Sent b m ∈ l -> legit b m /\ loaded (b_def b).

Definition calls_ok (l : list (Did G)) i : Prop :=
  (agent_calls (b_id (born i)) l <= calls_sent (calls i) <= maxAgentCallsPerTrigger)%Z.

Record instance_ok i : Prop := mk_instance_ok {
  io_status : i_status i = running <-> terminated_at_ms i = None;
  io_kept : forall name m k, kept i !! name = Some (m, k) -> k_instance_id k = b_id (born i);
  io_def : loaded (b_def (born i));
  io_state : in_state i }.

(** An id the node gave ([newInstanceID]), or none. *)
Definition known (n : nat) (id : string) : Prop := id = "" \/ exists k, (k < n)%nat /\ id = "wfi:" ++ uuid E k.

(** Every instance of the store, and of the journal, has an id the node gave. *)
Definition ids_known (n : nat) (s : Store) : Prop :=
  (forall id, is_Some (wf_instances s !! id) -> known n id)
  /\ (forall r, r ∈ wf_inbound_events s -> known n (in_instance_id r)).

(** While an instance is processed. *)
Record J w : Prop := mk_J {
  j_store : store_ok (store w);
  j_legit : sends_legit (did w);
  j_cap : within_cap (did w);
  j_calls : calls_ok (did w) (cur w);
  j_cur : instance_ok (cur w);
  j_known : ids_known (fresh w) (store w);
  j_id : known (fresh w) (b_id (born (cur w)));
  j_own : is_Some (by_id w !! b_id (born (cur w))) -> i_status (cur w) = running ->
          runs (store w) (b_id (born (cur w)));
  j_def : loaded (w_def w) }.

(** What processing an instance leaves alone. *)
Record frame w w' : Prop := mk_frame {
  fr_ids : by_id w' = by_id w;
  fr_threads : by_thread w' = by_thread w;
  fr_def : w_def w' = w_def w;
  fr_hash : w_def_hash w' = w_def_hash w;
  fr_now : now_ns w' = now_ns w;
  fr_fresh : fresh w' = fresh w;
  fr_born : born (cur w') = born (cur w);
  fr_rows : forall id, id <> b_id (born (cur w)) -> wf_instances (store w') !! id = wf_instances (store w) !! id;
  fr_others : forall id, id <> b_id (born (cur w)) -> agent_calls id (did w') = agent_calls id (did w) }.

(** What an action leaves alone, too. *)
Definition quiet w w' : Prop :=
  frame w w' /\ i_status (cur w') = i_status (cur w) /\ terminated_at_ms (cur w') = terminated_at_ms (cur w).

Lemma frame_refl w : frame w w. Proof. by split. Qed.

Lemma frame_trans w1 w2 w3 : frame w1 w2 -> frame w2 w3 -> frame w1 w3.
Proof.
  intros [] []. split; try congruence.
  - intros id Hid. rewrite fr_rows1, fr_rows0; [done|done|congruence].
  - intros id Hid. rewrite fr_others1, fr_others0; [done|done|congruence].
Qed.

Lemma quiet_refl w : quiet w w. Proof. split; [apply frame_refl|done]. Qed.

Lemma quiet_trans w1 w2 w3 : quiet w1 w2 -> quiet w2 w3 -> quiet w1 w3.
Proof. intros (H1 & ? & ?) (H2 & ? & ?). split; [by eapply frame_trans|]. split; congruence. Qed.

(** ** Triples

    [m] keeps [J], whatever the way it stops; [hq] is for what is [quiet], with what is known of its
    value, and [hf] for the rest. *)

Definition hq {A} (b : Born G) (m : M G A) (V : A -> Prop) : Prop :=
  forall w, J w -> born (cur w) = b ->
    J (m w).2 /\ quiet w (m w).2 /\ forall a, (m w).1 = Done a -> V a.

Definition hf {A} (b : Born G) (P : World G -> Prop) (m : M G A) (Q : A -> World G -> Prop) : Prop :=
  forall w, J w -> born (cur w) = b -> P w ->
    J (m w).2 /\ frame w (m w).2 /\ forall a, (m w).1 = Done a -> Q a (m w).2.

Lemma hq_weaken {A} b (m : M G A) (V V' : A -> Prop) : hq b m V -> (forall a, V a -> V' a) -> hq b m V'.
Proof. intros H HV w Hj Hb. destruct (H w Hj Hb) as (? & ? & ?). auto. Qed.

Lemma hq_ret {A} b (a : A) (V : A -> Prop) : V a -> hq b (ret a) V.
Proof. intros HV w Hj Hb. cbn. split; [done|]. split; [apply quiet_refl|]. by intros ? [= <-]. Qed.

Lemma hq_bind {A B} b (m : M G A) (k : A -> M G B) V V' :
  hq b m V -> (forall a, V a -> hq b (k a) V') -> hq b (bind m k) V'.
Proof.
  intros Hm Hk w Hj Hb. unfold bind. destruct (Hm w Hj Hb) as (Hj' & Hq & HV).
  destruct (m w) as [[a| |] w'] eqn:Em; cbn in *; [|done..].
  assert (born (cur w') = b) as Hb' by (rewrite (fr_born _ _ (proj1 Hq)); done).
  destruct (Hk a (HV a eq_refl) w' Hj' Hb') as (? & ? & ?). split; [done|]. split; [by eapply quiet_trans|done].
Qed.

Lemma hq_gets {A} b (f : World G -> A) (V : A -> Prop) :
  (forall w, J w -> born (cur w) = b -> V (f w)) -> hq b (gets f) V.
Proof. intros HV w Hj Hb. cbn. split; [done|]. split; [apply quiet_refl|]. intros ? [= <-]. auto. Qed.

Lemma hf_weaken {A} b P P' (m : M G A) (Q Q' : A -> World G -> Prop) :
  hf b P m Q -> (forall w, P' w -> P w) -> (forall a w, Q a w -> Q' a w) -> hf b P' m Q'.
Proof. intros H HP HQ w Hj Hb Hp. destruct (H w Hj Hb (HP w Hp)) as (? & ? & ?). auto. Qed.

Lemma hf_ret {A} b (a : A) (P : World G -> Prop) : hf b P (ret a) (fun a' w => a' = a /\ P w).
Proof. intros w Hj Hb Hp. cbn. split; [done|]. split; [apply frame_refl|]. by intros ? [= <-]. Qed.

Lemma hf_bind {A B} b P (m : M G A) (k : A -> M G B) Q Q' :
  hf b P m Q -> (forall a, hf b (Q a) (k a) Q') -> hf b P (bind m k) Q'.
Proof.
  intros Hm Hk w Hj Hb Hp. unfold bind. destruct (Hm w Hj Hb Hp) as (Hj' & Hq & HV).
  destruct (m w) as [[a| |] w'] eqn:Em; cbn in *; [|done..].
  assert (born (cur w') = b) as Hb' by (rewrite (fr_born _ _ Hq); done).
  destruct (Hk a w' Hj' Hb' (HV a eq_refl)) as (? & ? & ?). split; [done|]. split; [by eapply frame_trans|done].
Qed.

(** A quiet computation keeps what only depends on what it leaves alone. *)
Lemma hf_quiet {A} b P (m : M G A) V :
  hq b m V -> (forall w w', quiet w w' -> P w -> P w') -> hf b P m (fun a w => V a /\ P w).
Proof.
  intros Hm HP w Hj Hb Hp. destruct (Hm w Hj Hb) as (Hj' & Hq & HV). split; [done|]. split; [apply Hq|].
  intros a Ha. split; [by apply HV|by apply (HP w)].
Qed.

Lemma hf_quiet_bind {A B} b P (m : M G A) (k : A -> M G B) V Q :
  hq b m V -> (forall w w', quiet w w' -> P w -> P w') -> (forall a, V a -> hf b P (k a) Q) -> hf b P (bind m k) Q.
Proof.
  intros Hm HP Hk. apply (hf_bind _ _ _ _ (fun a w => V a /\ P w)); [by apply hf_quiet|].
  intros a w Hj Hb [Hv Hp]. by apply (Hk a Hv).
Qed.

(** What a call leaves alone: everything but the store and what the node did. *)
Record still w w' : Prop := mk_still {
  sl_ids : by_id w' = by_id w;
  sl_threads : by_thread w' = by_thread w;
  sl_def : w_def w' = w_def w;
  sl_hash : w_def_hash w' = w_def_hash w;
  sl_now : now_ns w' = now_ns w;
  sl_fresh : fresh w' = fresh w;
  sl_cur : cur w' = cur w;
  sl_rows : wf_instances (store w') = wf_instances (store w);
  sl_calls : forall id, agent_calls id (did w') = agent_calls id (did w) }.

Lemma still_refl w : still w w. Proof. by split. Qed.

Lemma still_trans w1 w2 w3 : still w1 w2 -> still w2 w3 -> still w1 w3.
Proof. intros [] []. split; congruence. Qed.

Lemma still_quiet w w' : still w w' -> quiet w w'.
Proof. intros []. split; [split; try congruence; intros id _; congruence|split; congruence]. Qed.

(** [hs] is for the calls, which never panic. *)
Definition hs {A} (m : M G A) (V : A -> Prop) : Prop :=
  forall w, J w -> J (m w).2 /\ still w (m w).2 /\ (m w).1 <> Panicked /\ forall a, (m w).1 = Done a -> V a.

Lemma hq_of_hs {A} b (m : M G A) V : hs m V -> hq b m V.
Proof. intros H w Hj _. destruct (H w Hj) as (? & ? & _ & ?). split; [done|]. split; [by apply still_quiet|done]. Qed.

Lemma hs_weaken {A} (m : M G A) (V V' : A -> Prop) : hs m V -> (forall a, V a -> V' a) -> hs m V'.
Proof. intros H HV w Hj. destruct (H w Hj) as (? & ? & ? & ?). by auto 6. Qed.

Lemma hs_ret {A} (a : A) (V : A -> Prop) : V a -> hs (ret a) V.
Proof. intros HV w Hj. split; [done|]. split; [apply still_refl|]. split; [done|]. by intros ? [= <-]. Qed.

Lemma hs_bind {A B} (m : M G A) (k : A -> M G B) V V' :
  hs m V -> (forall a, V a -> hs (k a) V') -> hs (bind m k) V'.
Proof.
  intros Hm Hk w Hj. unfold bind. destruct (Hm w Hj) as (Hj' & Hq & Hn & HV).
  destruct (m w) as [[a| |] w'] eqn:Em; cbn in *; [|done..].
  destruct (Hk a (HV a eq_refl) w' Hj') as (? & ? & ? & ?). split; [done|]. split; [by eapply still_trans|done].
Qed.

Lemma hs_gets {A} (f : World G -> A) (V : A -> Prop) : (forall w, J w -> V (f w)) -> hs (gets f) V.
Proof.
  intros HV w Hj. split; [done|]. split; [apply still_refl|]. split; [done|]. intros ? [= <-]. by apply HV.
Qed.

(** ** The history *)

Lemma agent_calls_snoc id l d : agent_calls id (l ++ [d]) = count_step id (agent_calls id l) d.
Proof. unfold agent_calls. by rewrite foldl_snoc. Qed.

Lemma within_cap_snoc l d :
  within_cap l -> (forall id, (agent_calls id (l ++ [d]) <= maxAgentCallsPerTrigger)%Z) -> within_cap (l ++ [d]).
Proof.
  intros Hl Hd id l1 l2 Heq. destruct l2 as [|x l2] using rev_ind; [by rewrite app_nil_r in Heq; subst|].
  rewrite app_assoc in Heq. apply app_inj_tail in Heq as [-> _]. by eapply Hl.
Qed.

Lemma sends_legit_snoc l d :
  sends_legit l -> (forall b m, d = Sent b m -> legit b m /\ loaded (b_def b)) -> sends_legit (l ++ [d]).
Proof.
  intros Hl Hd b m [H|H]%elem_of_app; [by apply Hl|]. apply elem_of_cons in H as [H|[]%elem_of_nil]. by apply Hd.
Qed.

Lemma within_cap_last l id : within_cap l -> (agent_calls id l <= maxAgentCallsPerTrigger)%Z.
Proof. intros H. apply (H id l []). by rewrite app_nil_r. Qed.

(** An entry that is no call to an agent, and starts no count. *)
Definition silent (d : Did G) : bool := match d with Answered _ | AskedTimer _ => true | _ => false end.

Lemma silent_calls id l d : silent d = true -> agent_calls id (l ++ [d]) = agent_calls id l.
Proof. intros Hd. rewrite agent_calls_snoc. by destruct d. Qed.

Lemma silent_cap l d : silent d = true -> within_cap l -> within_cap (l ++ [d]).
Proof. intros Hd Hl. apply within_cap_snoc; [done|]. intros id. rewrite silent_calls by done. by apply within_cap_last. Qed.

Lemma silent_legit l d : silent d = true -> sends_legit l -> sends_legit (l ++ [d]).
Proof. intros Hd Hl. apply sends_legit_snoc; [done|]. intros b m ->. done. Qed.

(** ** Calls *)

Lemma J_oracle o w : J w -> J (set_oracle o w).
Proof. by intros []. Qed.

Lemma still_oracle o w : still w (set_oracle o w).
Proof. by split. Qed.

Lemma quiet_oracle o w : quiet w (set_oracle o w).
Proof. apply still_quiet, still_oracle. Qed.

Lemma hs_answer : hs answer (fun _ => True).
Proof.
  intros w Hj. unfold answer. destruct (oracle w) as [|[] rest]; cbn; (split; [by (done || apply J_oracle)|]);
    (split; [by (apply still_refl || apply still_oracle)|done]).
Qed.

Lemma hq_tick b : hq b tick (fun _ => True).
Proof.
  intros w Hj Hb. unfold tick. destruct (oracle w) as [|[] rest]; cbn; (split; [by (done || apply J_oracle)|]);
    (split; [by (apply quiet_refl || apply quiet_oracle)|done]).
Qed.

(** A transaction on the other tables. *)
Record side (f : Store -> Store) : Prop := mk_side {
  sd_ok : forall s, store_ok s -> store_ok (f s);
  sd_rows : forall s, wf_instances (f s) = wf_instances s;
  sd_ids : forall s r, r ∈ wf_inbound_events (f s) -> exists r', r' ∈ wf_inbound_events s /\ in_instance_id r' = in_instance_id r }.

Lemma ids_known_side f n s : side f -> ids_known n s -> ids_known n (f s).
Proof.
  intros Hf [H1 H2]. split; [by rewrite (sd_rows _ Hf)|]. intros r (r' & Hr' & <-)%(sd_ids _ Hf). by apply H2.
Qed.

Lemma runs_rows s s' id : wf_instances s' = wf_instances s -> runs s id -> runs s' id.
Proof. unfold runs. by intros ->. Qed.

Lemma hs_store f : side f -> hs (modify (set_store f)) (fun _ => True).
Proof.
  intros Hf w [H1 H2 H3 H4 H5 H6 H7 H8 H9]. cbn. split; [split; cbn; try done|].
  - by apply (sd_ok _ Hf).
  - by apply ids_known_side.
  - intros Hi Hs. eapply runs_rows; [apply (sd_rows _ Hf)|by apply H8].
  - split; [|done]. split; try done. apply (sd_rows _ Hf).
Qed.

Lemma hs_tx f : side f -> hs (tx f) (fun _ => True).
Proof.
  intros Hf. eapply hs_bind; [apply hs_answer|]. intros a _. destruct (went_well a); [|by apply hs_ret].
  eapply hs_bind; [by apply hs_store|]. intros _ _. by apply hs_ret.
Qed.

(** What was read is of a store. *)
Lemma hs_query {A} (f : Store -> A) :
  hs (query f) (fun o => forall x, o = Some x -> exists s, store_ok s /\ x = f s).
Proof.
  eapply hs_bind; [apply hs_answer|]. intros a _. destruct (went_well a); [|by apply hs_ret].
  apply hs_gets. intros w Hj x [= <-]. exists (store w). split; [apply Hj|done].
Qed.

Lemma hs_add_did d : silent d = true -> hs (modify (add_did d)) (fun _ => True).
Proof.
  intros Hd w [H1 H2 H3 H4 H5 H6 H7 H8 H9]. cbn. split; [split; cbn; try done|].
  - by apply silent_legit.
  - by apply silent_cap.
  - unfold calls_ok. by rewrite silent_calls.
  - split; [|done]. split; try done. intros id. by apply silent_calls.
Qed.

Lemma hs_SendMsg d : silent d = true -> hs (SendMsg d) (fun _ => True).
Proof.
  intros Hd. eapply hs_bind; [apply hs_answer|]. intros a _. destruct (went_well a); [|by apply hs_ret].
  eapply hs_bind; [by apply hs_add_did|]. intros _ _. by apply hs_ret.
Qed.

Lemma hs_ask_timer r : hs (ask_timer r) (fun _ => True).
Proof.
  eapply hs_bind; [apply hs_answer|]. intros a _. destruct (went_well a); [|by apply hs_ret].
  eapply hs_bind; [by apply hs_add_did|]. intros _ _. by apply hs_ret.
Qed.

Lemma hs_gets_any {A} (f : World G -> A) : hs (gets f) (fun _ => True).
Proof. by apply hs_gets. Qed.

Lemma hs_query_any {A} (f : Store -> A) : hs (query f) (fun _ => True).
Proof. by eapply hs_weaken; [apply hs_query|]. Qed.

Lemma hs_run_each {A} (m : A -> M G ()) l : (forall a, hs (m a) (fun _ => True)) -> hs (run_each m l) (fun _ => True).
Proof.
  intros Hm. induction l as [|a l IH]; [by apply hs_ret|]. cbn. eapply hs_bind; [apply Hm|]. intros _ _. apply IH.
Qed.

Lemma hs_register id key s f : hs (tx (RegisterTimer id key s f)) (fun _ => True).
Proof. apply hs_tx. split; [intros; by apply RegisterTimer_ok|done|intros s' r Hr; by exists r]. Qed.

Lemma hs_delete_timer id key : hs (tx (DeleteTimer id key)) (fun _ => True).
Proof. apply hs_tx. split; [intros; by apply DeleteTimer_ok|done|intros s' r Hr; by exists r]. Qed.

Lemma hs_now_ms : hs now_ms (fun _ => True).
Proof. apply hs_gets_any. Qed.

Create HintDb wf_hs.
#[local] Hint Resolve hs_now_ms hs_answer hs_gets_any hs_query_any hs_ask_timer hs_register hs_delete_timer : wf_hs.

(** One step of a call of which nothing is known but that it is one. *)
Ltac hs_step :=
  lazymatch goal with
  | |- hs (bind _ _) _ => eapply hs_bind; [solve [eauto with wf_hs]|intros ? ?]
  | |- hs (ret _) _ => apply hs_ret; first [done | by cbn]
  | |- hs (if ?c then _ else _) _ => destruct c
  | |- hs (match ?c with _ => _ end) _ => destruct c
  | |- _ => solve [eauto with wf_hs]
  end.
Ltac hs_go := repeat hs_step.

Lemma hs_cancelInstanceTimers id : hs (cancelInstanceTimers id) (fun _ => True).
Proof. unfold cancelInstanceTimers. hs_step. destruct a; [|hs_go]. apply hs_run_each. intros t. hs_go. Qed.
#[local] Hint Resolve hs_cancelInstanceTimers : wf_hs.

Lemma hs_cancelAllTimers : hs cancelAllTimers (fun _ => True).
Proof. unfold cancelAllTimers. hs_go. Qed.

Lemma hs_schedule id key d at_ns p wi : hs (schedule id key d at_ns p wi) (fun _ => True).
Proof. unfold schedule. hs_go. Qed.

Lemma hs_timer_indexed id key : hs (timer_indexed id key) (fun _ => True).
Proof. unfold timer_indexed. hs_go. Qed.
#[local] Hint Resolve hs_cancelAllTimers hs_schedule hs_timer_indexed : wf_hs.

Lemma hs_execScheduleTimer t event : hs (execScheduleTimer E t event) (fun _ => True).
Proof. unfold execScheduleTimer. hs_go. Qed.

Lemma hs_execCancelTimer key : hs (execCancelTimer key) (fun _ => True).
Proof. unfold execCancelTimer. hs_go. Qed.

Lemma hs_execRescheduleTimer t event : hs (execRescheduleTimer E t event) (fun _ => True).
Proof. unfold execRescheduleTimer. hs_go. Qed.

Lemma hs_answerNotTaken m reason detail : hs (answerNotTaken E m reason detail) (fun _ => True).
Proof.
  unfold answerNotTaken. case_match; [by apply hs_ret|]. destruct (marshal_payload E _); [|by apply hs_ret].
  eapply hs_bind; [by apply hs_SendMsg|]. intros a _. by apply hs_ret.
Qed.
#[local] Hint Resolve hs_execScheduleTimer hs_execCancelTimer hs_execRescheduleTimer hs_answerNotTaken : wf_hs.

(** A change of the instance born [b] that [quiet] allows. *)
Definition tame b (f : WFInstance G -> WFInstance G) : Prop :=
  forall i, born i = b -> born (f i) = born i /\ i_status (f i) = i_status i /\ terminated_at_ms (f i) = terminated_at_ms i
    /\ calls (f i) = calls i /\ (in_state i -> in_state (f i))
    /\ forall name m k, kept (f i) !! name = Some (m, k) -> kept i !! name = Some (m, k) \/ k_instance_id k = b_id (born i).

Lemma hq_update b f : tame b f -> hq b (update f) (fun _ => True).
Proof.
  intros Hf w [H1 H2 H3 H4 [H5 H6 H10 H11] H7 H8 H9 H12] Hb. destruct (Hf (cur w) Hb) as (Hbo & Hs & Ht & Hc & Hst & Hk). cbn. split; [|split; [|done]].
  - split; cbn; rewrite ?Hbo, ?Hs; try done; [by unfold calls_ok; rewrite Hbo, Hc|].
    split; [by rewrite Hs, Ht| |by rewrite Hbo|by apply Hst].
    intros name m k Hn. rewrite Hbo. destruct (Hk name m k Hn) as [H|H]; [by eapply H6|done].
  - split; [split; try done|done].
Qed.

(** The count of agent calls starts again. *)
Lemma hq_reset_calls b : hq b reset_calls (fun _ => True).
Proof.
  intros w [H1 H2 H3 H4 [H5 H6 H10 H11] H7 H8 H9 H12] Hb. cbn.
  assert (forall id, agent_calls id (did w ++ [CountStarts (b_id (born (cur w)))])
            = if b_id (born (cur w)) =s id then 0 else agent_calls id (did w))%Z as Hc
    by (intros id; by rewrite agent_calls_snoc).
  split; [split; cbn; try done|].
  - apply sends_legit_snoc; [done|]. by intros ? ? [=].
  - apply within_cap_snoc; [done|]. intros id. rewrite Hc. case_match; [done|]. by apply within_cap_last.
  - unfold calls_ok. cbn. rewrite Hc, (proj2 (String.eqb_eq _ _) eq_refl). done.
  - split; [|done]. split; [|done]. split; try done. intros id Hid. cbn. rewrite Hc.
    destruct (String.eqb_spec (b_id (born (cur w))) id); [congruence|done].
Qed.

(** ** Sends *)

(** The count has room for a send to [target]. *)
Definition room (target : string) w : Prop :=
  IsAgent target = true -> (agent_calls (b_id (born (cur w))) (did w) < calls_sent (calls (cur w)))%Z.

Lemma set_calls_J w c :
  J w -> (agent_calls (b_id (born (cur w))) (did w) <= calls_sent c <= maxAgentCallsPerTrigger)%Z ->
  J (set_cur (set_calls c) w) /\ quiet w (set_cur (set_calls c) w).
Proof. intros [H1 H2 H3 H4 [H5 H6 H10 H11] H7 H8 H9 H12] Hc. split; [split; try done; by split|]. by repeat split. Qed.

Lemma callAgent_room target w : J w ->
  J (callAgent target w).2 /\ quiet w (callAgent target w).2
  /\ ((callAgent target w).1 = Done true -> room target (callAgent target w).2).
Proof.
  intros Hj. pose proof (j_calls _ Hj) as Hc. unfold calls_ok in Hc. unfold callAgent, room.
  destruct (IsAgent target); cbn; [|split; [done|]; split; [apply quiet_refl|done]].
  destruct (Z.leb_spec maxAgentCallsPerTrigger (calls_sent (calls (cur w)))) as [H|H]; cbn.
  - destruct (set_calls_J w (mkCalls (calls_sent (calls (cur w)))
        (if str_is_empty (calls_skipped (calls (cur w))) then target else calls_skipped (calls (cur w)))
        (calls_reported (calls (cur w)))) Hj) as [? ?]; done.
  - destruct (set_calls_J w (mkCalls (calls_sent (calls (cur w)) + 1) (calls_skipped (calls (cur w)))
        (calls_reported (calls (cur w)))) Hj) as [? ?]; [cbn; lia|].
    split; [done|]. split; [done|]. intros _ _. cbn. lia.
Qed.

Lemma sent_J target m w :
  J w -> room target w -> dst (routing m) = Unicast target -> legit (born (cur w)) m ->
  J (add_did (Sent (born (cur w)) m) w) /\ quiet w (add_did (Sent (born (cur w)) m) w).
Proof.
  intros [H1 H2 H3 H4 H5 H6 H7 H8 H9] Hr Hd Hl. unfold room in Hr. unfold calls_ok in H4.
  assert (forall id, agent_calls id (did w ++ [Sent (born (cur w)) m])
    = if IsAgent target && (b_id (born (cur w)) =s id) then agent_calls id (did w) + 1 else agent_calls id (did w))%Z as Hc.
  { intros id. rewrite agent_calls_snoc. cbn. rewrite Hd. destruct (IsAgent target); [|done]. cbn. by destruct (_ =s id). }
  split; [split; cbn; try done|].
  - apply sends_legit_snoc; [done|]. intros ? ? [= <- <-]. split; [done|apply H5].
  - apply within_cap_snoc; [done|]. intros id. rewrite Hc. destruct (IsAgent target) eqn:Ea; cbn; [|by apply within_cap_last].
    destruct (String.eqb_spec (b_id (born (cur w))) id) as [<-|]; [|by apply within_cap_last].
    specialize (Hr eq_refl). lia.
  - unfold calls_ok. cbn. rewrite Hc, (proj2 (String.eqb_eq _ _) eq_refl).
    destruct (IsAgent target); cbn; [specialize (Hr eq_refl); lia|lia].
  - split; [|done]. split; try done. intros id Hid. cbn. rewrite Hc.
    destruct (String.eqb_spec (b_id (born (cur w))) id); [congruence|]. by rewrite andb_false_r.
Qed.

Lemma send_attempts_J target m n w :
  J w -> room target w -> dst (routing m) = Unicast target -> legit (born (cur w)) m ->
  J (send_attempts n (Sent (born (cur w)) m) w).2 /\ quiet w (send_attempts n (Sent (born (cur w)) m) w).2.
Proof.
  intros Hj Hr Hd Hl. revert w Hj Hr Hl. induction n as [|n IH]; intros w Hj Hr Hl; [split; [done|apply quiet_refl]|].
  change (send_attempts (S n)) with (fun what : Did G => let! a := SendMsg what in
    match a with AOk => ret true | ATooLarge => ret false | _ => send_attempts n what end).
  unfold SendMsg, bind, answer.
  assert (forall o, let w' := set_oracle o w in
    J (send_attempts n (Sent (born (cur w)) m) w').2 /\ quiet w (send_attempts n (Sent (born (cur w)) m) w').2) as Hagain.
  { intros o w'. destruct (IH w' (J_oracle _ _ Hj) Hr Hl) as [H1 H2]. split; [exact H1|].
    eapply quiet_trans; [apply (quiet_oracle o)|exact H2]. }
  destruct (oracle w) as [|[] o]; cbn; try apply Hagain.
  - by apply (sent_J target).
  - destruct (sent_J target m (set_oracle o w) (J_oracle _ _ Hj) Hr Hd Hl) as [? ?].
    split; [done|]. eapply quiet_trans; [apply (quiet_oracle o)|done].
  - split; [by apply J_oracle|apply quiet_oracle].
  - split; [by apply J_oracle|apply quiet_oracle].
Qed.

(** A send its target's cap allows. *)
Lemma hq_call_send b target (mk : WFInstance G -> option Msg) :
  (forall i m, born i = b -> mk i = Some m -> dst (routing m) = Unicast target /\ legit b m) ->
  hq b (let! may := callAgent target in
        if may then let! i := gets cur in let! ok := sendWithRetry (mk i) in ret (of_bool ok, [])
        else ret (ActionCapped, @nil InternalEventRow)) (fun r => r.2 = []).
Proof.
  intros Hmk w Hj Hb. unfold bind. destruct (callAgent_room target w Hj) as (Hj1 & Hq1 & Hr).
  destruct (callAgent target w) as [[[]| |] w1] eqn:Ec; cbn in *;
    [|split; [done|]; split; [done|]; by intros ? [= <-]|done..].
  assert (born (cur w1) = b) as Hb1 by (rewrite (fr_born _ _ (proj1 Hq1)); done).
  destruct (mk (cur w1)) as [m|] eqn:Em; cbn; [|split; [done|]; split; [done|]; by intros ? [= <-]].
  destruct (Hmk _ _ Hb1 Em) as [Hd Hl]. rewrite <- Hb1 in Hl.
  destruct (send_attempts_J target m sendMaxAttempts w1 Hj1 (Hr eq_refl) Hd Hl) as [H2 H3].
  destruct (send_attempts sendMaxAttempts (Sent (born (cur w1)) m) w1) as [[ok| |] w2] eqn:Es; cbn [fst snd ret] in *.
  all: split; [exact H2|]; split; [by eapply quiet_trans|done || by intros ? [= <-]].
Qed.

Lemma message_written_legit b i event s name body m a :
  born i = b -> a ∈ eachAction (b_def b) -> act a = ASendMessage s name body ->
  message_written E i event s name body = Some m -> dst (routing m) = Unicast (ss_target s) /\ legit b m.
Proof.
  intros <- Ha Hact Hm. unfold message_written in Hm. repeat case_match; simplify_eq.
  all: split; [done|]; split; [|done].
  all: exists a, (ss_target s); split; [done|]; by unfold send_target; rewrite Hact.
Qed.

Lemma message_forwarded_legit b i event s name source m a :
  born i = b -> a ∈ eachAction (b_def b) -> act a = AForward s name ->
  message_forwarded E i event s source = Some m -> dst (routing m) = Unicast (ss_target s) /\ legit b m.
Proof.
  intros <- Ha Hact Hm. unfold message_forwarded in Hm. repeat case_match; simplify_eq.
  all: split; [done|]; split; [|done].
  all: exists a, (ss_target s); split; [done|]; by unfold send_target; rewrite Hact.
Qed.

(** ** Actions *)

Lemma hq_any {A} b (m : M G A) V : hq b m V -> hq b m (fun _ => True).
Proof. intros H. by eapply hq_weaken. Qed.

Lemma hq_gets_any {A} b (f : World G -> A) : hq b (gets f) (fun _ => True).
Proof. by apply hq_gets. Qed.

Lemma hq_execKeepMessage b name event : hq b (execKeepMessage E name event) (fun _ => True).
Proof.
  unfold execKeepMessage. case_match; [|by apply hq_ret]. destruct (marshal_message E event) as [raw|]; [|by apply hq_ret].
  eapply hq_bind; [apply hq_gets_any|]. intros now _. eapply hq_bind; [apply hq_update|intros _ _; by apply hq_ret].
  intros i _. repeat split; [done|]. cbn. intros n m k [[_ [= _ <-]]|[_ Hn]]%lookup_insert_Some; [by right|by left].
Qed.

(** The events are the instance's. *)
Definition owned (b : Born G) (l : list InternalEventRow) : Prop := Forall (fun e => ie_instance_id e = b_id b) l.

Lemma owned_app b l1 l2 : owned b l1 -> owned b l2 -> owned b (l1 ++ l2).
Proof. intros. by apply Forall_app. Qed.

Lemma hq_plain b (m : M G bool) : hq b m (fun _ => True) ->
  hq b (let! ok := m in ret (of_bool ok, @nil InternalEventRow)) (fun r => owned b r.2).
Proof. intros Hm. eapply hq_bind; [exact Hm|]. intros ok _. apply hq_ret. by constructor. Qed.

Lemma hq_executeAction b a event : a ∈ eachAction (b_def b) ->
  hq b (executeAction E (act a) event) (fun r => owned b r.2).
Proof.
  intros Ha. unfold executeAction. destruct (act a) as [s name body|s name|name|name body|t|key|t|name v|ty] eqn:Eact.
  - eapply hq_weaken; [apply (hq_call_send b (ss_target s) (fun i => message_written E i event s name body))|].
    + intros i m Hi Hm. by eapply message_written_legit.
    + intros r ->. by constructor.
  - eapply hq_weaken; [apply (hq_call_send b (ss_target s) (fun i => match messageToForward i name event with
      | Some source => message_forwarded E i event s source | None => None end))|].
    + intros i m Hi Hm. destruct (messageToForward i name event); [|done]. by eapply message_forwarded_legit.
    + intros r ->. by constructor.
  - apply hq_plain, hq_execKeepMessage.
  - eapply hq_bind; [apply (hq_gets _ _ (fun i => born i = b)); done|]. intros i Hi.
    eapply hq_bind; [apply hq_gets_any|]. intros now _.
    destruct (resolve _ _) as [v|]; [|by apply hq_ret; constructor].
    destruct (marshalJSON E v); apply hq_ret; [|by constructor]. repeat constructor. cbn. by rewrite Hi.
  - apply hq_plain, hq_of_hs. eauto with wf_hs.
  - apply hq_plain, hq_of_hs. eauto with wf_hs.
  - apply hq_plain, hq_of_hs. eauto with wf_hs.
  - eapply hq_bind; [apply hq_gets_any|]. intros i _. eapply hq_bind; [apply hq_gets_any|]. intros now _.
    destruct v; try (by apply hq_ret; constructor). case_match; [by apply hq_ret; constructor|].
    destruct (eval_value _ _ _ _ _ _); [|by apply hq_ret; constructor].
    eapply hq_bind; [apply hq_update; tame_solve|]. intros _ _. apply hq_ret. by constructor.
  - apply hq_ret. by constructor.
Qed.

Lemma hq_runActions b be actions event emitted :
  (forall a, a ∈ actions -> a ∈ eachAction (b_def b)) -> owned b emitted ->
  hq b (runActions E be actions event emitted) (fun r => owned b r.2).
Proof.
  revert emitted. induction actions as [|a rest IH]; intros emitted Hin Hem; [by apply hq_ret|].
  cbn [runActions]. eapply hq_bind; [apply hq_tick|]. intros _ _.
  eapply hq_bind; [apply hq_executeAction; apply Hin; left|]. intros r Hr.
  assert (forall a, a ∈ rest -> a ∈ eachAction (b_def b)) as Hrest by (intros; apply Hin; by right).
  destruct r.1; [apply IH; [done|by apply owned_app]| |apply IH; [done|by apply owned_app]].
  destruct (negb be && fails a); [apply hq_ret; by apply owned_app|]. apply IH; [done|by apply owned_app].
Qed.

(** ** Commits *)

Lemma ToRow_ok i now row : instance_ok i -> ToRow E i now = Some row ->
  row_ok row /\ r_instance_id row = b_id (born i) /\ (r_status row <> running -> ended i = true).
Proof.
  intros [Hs _ _ _] Hr. unfold ToRow in Hr. repeat case_match; simplify_eq. cbn. split; [done|]. split; [done|].
  intros Hn. unfold ended. destruct (terminated_at_ms i); [done|]. by destruct Hn; apply Hs.
Qed.

Lemma kept_rows_owned i : instance_ok i -> Forall (fun k => k_instance_id k = b_id (born i)) (kept_rows i).
Proof.
  intros [_ Hk _ _]. apply Forall_forall. intros k [name [_ H]]%list_elem_of_omap.
  destruct (kept i !! name) as [[m k']|] eqn:Ek; [|done]. injection H as <-. by eapply Hk.
Qed.

(** An instance that ended clears its queue. *)
Definition clears (m : InstanceCommitMutation) w : Prop := ended (cur w) = true -> ClearInternalEvents m = true.

Lemma clears_quiet m w w' : quiet w w' -> clears m w -> clears m w'.
Proof. intros (_ & _ & Ht). unfold clears, ended. by rewrite Ht. Qed.

Lemma hf_any {A} b (P : World G -> Prop) (m : M G A) : hq b m (fun _ => True) -> hf b P m (fun _ _ => True).
Proof. intros Hm w Hj Hb _. destruct (Hm w Hj Hb) as (? & [? ?] & ?). auto. Qed.

(** A read of the world, in which the rest runs. *)
Lemma hf_peel {A B} b P (f : World G -> A) (k : A -> M G B) Q :
  (forall w0, J w0 -> born (cur w0) = b -> P w0 -> hf b (fun w => w = w0) (k (f w0)) Q) -> hf b P (bind (gets f) k) Q.
Proof. intros H w Hj Hb Hp. by apply (H w Hj Hb Hp w). Qed.

Lemma committed_ok i now row m s s' :
  instance_ok i -> store_ok s -> ToRow E i now = Some row -> CommitInstanceMutation row (with_kept i m) s = Some s' ->
  owned (born i) (EnqueueInternalEvents m) -> (ended i = true -> ClearInternalEvents m = true) -> store_ok s'.
Proof.
  intros Hi Hs Er Ec Hem Hcl. destruct (ToRow_ok _ _ _ Hi Er) as (Hro & Hid & Hend).
  eapply CommitInstanceMutation_ok; [exact Hs|exact Hro|exact Ec| | |]; cbn.
  - by rewrite Hid.
  - rewrite Hid. destruct (ended i); [by constructor|by apply kept_rows_owned].
  - intros Hn. specialize (Hend Hn). split; [by apply Hcl|done].
Qed.

(** The store holds the instance running when it runs. *)
Definition committed w : Prop := i_status (cur w) = running -> runs (store w) (b_id (born (cur w))).

Lemma hf_ret_false b P (X : World G -> Prop) : hf b P (ret false) (fun ok w => ok = true -> X w).
Proof. intros w Hj Hb _. cbn. split; [done|]. split; [apply frame_refl|]. by intros ? [= <-]. Qed.

(** The write of an instance's commit. *)
Lemma hf_write b w0 s' :
  store_ok s' -> (forall id, id <> b_id b -> wf_instances s' !! id = wf_instances (store w0) !! id) ->
  ids_known (fresh w0) s' -> (i_status (cur w0) = running -> runs s' (b_id b)) ->
  hf b (fun w => w = w0) (tx (fun _ => s')) (fun went w => went = true -> committed w).
Proof.
  intros Hs Hrows Hk Hrun. apply (hf_bind _ _ _ _ (fun _ w => exists o, w = set_oracle o w0)).
  - intros w Hj Hb ->. destruct (hs_answer w0 Hj) as (H1 & H2 & _). split; [done|]. split; [apply (proj1 (still_quiet _ _ H2))|].
    intros a _. assert (w0 = set_oracle (oracle w0) w0) as Hw by (by destruct w0).
    unfold answer. destruct (oracle w0) as [|[] o]; cbn; by eauto.
  - intros a. destruct (went_well a); [|apply hf_ret_false].
    intros w Hj Hb (o & ->). destruct Hj as [H1 H2 H3 H4 H5 H6 H7 H8 H9]. cbn in *. split; [|split].
    + split; cbn; try done. rewrite Hb. by intros _.
    + split; try done. cbn. rewrite Hb. by intros id Hid; rewrite Hrows.
    + intros ? _ _. unfold committed. cbn. by rewrite Hb.
Qed.

Lemma hf_update_committed b f : tame b f -> hf b committed (update f) (fun _ w => committed w).
Proof.
  intros Hf w Hj Hb Hc. destruct (hq_update b f Hf w Hj Hb) as (H1 & H2 & _). split; [done|]. split; [apply H2|].
  intros ? _. unfold committed in *. cbn. destruct (Hf (cur w) Hb) as (-> & -> & _). done.
Qed.

Lemma committed_known i now row m s s' n : ToRow E i now = Some row -> CommitInstanceMutation row (with_kept i m) s = Some s' ->
  known n (b_id (born i)) -> ids_known n s -> ids_known n s'.
Proof.
  intros Er Ec Hi [H1 H2]. assert (r_instance_id row = b_id (born i)) as Hid
    by (unfold ToRow in Er; repeat case_match; by simplify_eq).
  destruct (commit_tables _ _ _ _ Ec) as (Hr & Hin & _). split.
  - intros id. rewrite Hr. destruct (decide (id = r_instance_id row)) as [->|Hne]; [by rewrite Hid|].
    rewrite upsert_lookup_ne by done. apply H1.
  - intros r. rewrite Hin. intros Hx%consume_sub. by apply H2.
Qed.

Lemma hf_commit b m : owned b (EnqueueInternalEvents m) -> hf b (clears m) (commit E m) (fun ok w => ok = true -> committed w).
Proof.
  intros Hem. unfold commit, now_ms. eapply hf_quiet_bind; [apply hq_tick|intros w w'; apply clears_quiet|]. intros _ _.
  apply hf_peel. intros w Hj Hb Hcl. apply hf_peel. intros w1 _ _ ->.
  destruct (ToRow E (cur w) (ms_of (now_ns w))) as [row|] eqn:Er; [|apply hf_ret_false].
  apply hf_peel. intros w1 _ _ ->.
  destruct (CommitInstanceMutation row (with_kept (cur w) m) (store w)) as [s'|] eqn:Ec; [|apply hf_ret_false].
  assert (r_instance_id row = b_id b /\ r_status row = i_status (cur w)) as [Hid Hst]
    by (rewrite <- Hb; unfold ToRow in Er; repeat case_match; by simplify_eq).
  destruct (commit_row _ _ _ _ Ec) as (r & Hr & Hrs & _). rewrite Hid in Hr.
  eapply hf_bind; [apply hf_write|].
  - rewrite <- Hb in Hem. exact (committed_ok _ _ _ _ _ _ (j_cur _ Hj) (j_store _ Hj) Er Ec Hem Hcl).
  - intros id Hne. rewrite (proj1 (commit_tables _ _ _ _ Ec)). apply upsert_lookup_ne. congruence.
  - exact (committed_known _ _ _ _ _ _ _ Er Ec (j_id _ Hj) (j_known _ Hj)).
  - intros Hru. exists r. split; [done|congruence].
  - intros went. destruct went; [|apply hf_ret_false].
    apply (hf_weaken _ committed (fun w => true = true -> committed w) _ (fun ok w => ok = true -> committed w)); [|auto|done].
    apply (hf_bind _ _ _ _ (fun _ => committed)); [apply hf_update_committed; tame_solve|].
    intros _. eapply hf_weaken; [apply (hf_ret _ _ committed)|done|]. by intros ? w2 [_ Hc].
Qed.

(** The instance ends, and its commit clears its queue. *)
Lemma hf_end b st f : st <> running -> (forall i, born (f i) = born i /\ i_status (f i) = st /\ terminated_at_ms (f i) <> None
    /\ calls (f i) = calls i /\ current_state (f i) = current_state i /\ kept (f i) = kept i) ->
  hf b (fun _ => True) (update f) (fun _ w => i_status (cur w) <> running).
Proof.
  intros Hst Hf w [H1 H2 H3 H4 [H5 H6 H10 H11] H7 H8 H9 H12] Hb _. destruct (Hf (cur w)) as (Hbo & Hs & Ht & Hc & Hcs & Hk).
  cbn. split; [|split; [by split|by intros _ _; rewrite Hs]].
  split; cbn; rewrite ?Hbo, ?Hs; try done; [by unfold calls_ok; rewrite Hbo, Hc|].
  split; [by rewrite Hs|by rewrite Hk, Hbo|by rewrite Hbo|]. unfold in_state. by rewrite Hbo, Hcs.
Qed.

Lemma hf_end_any b st f : st <> running -> (forall i, born (f i) = born i /\ i_status (f i) = st /\ terminated_at_ms (f i) <> None
    /\ calls (f i) = calls i /\ current_state (f i) = current_state i /\ kept (f i) = kept i) -> hf b (fun _ => True) (update f) (fun _ _ => True).
Proof. intros. by eapply hf_weaken; [eapply hf_end| |]. Qed.

Lemma hf_end_commit b taken :
  hf b (fun _ => True) (do! cancelAllTimers in commit E (mutation taken [] true)) (fun _ _ => True).
Proof.
  eapply hf_quiet_bind; [apply hq_of_hs, hs_cancelAllTimers|done|]. intros _ _.
  eapply hf_weaken; [apply hf_commit; by constructor|by intros w _ _|done].
Qed.

Lemma hf_true_bind {A B} b (m : M G A) (k : A -> M G B) :
  hf b (fun _ => True) m (fun _ _ => True) -> (forall a, hf b (fun _ => True) (k a) (fun _ _ => True)) ->
  hf b (fun _ => True) (bind m k) (fun _ _ => True).
Proof. intros Hm Hk. eapply hf_bind; [exact Hm|]. intros a. apply Hk. Qed.

Lemma hf_q {A B} b (m : M G A) (k : A -> M G B) V :
  hq b m V -> (forall a, V a -> hf b (fun _ => True) (k a) (fun _ _ => True)) ->
  hf b (fun _ => True) (bind m k) (fun _ _ => True).
Proof. intros Hm Hk. by eapply hf_quiet_bind. Qed.

(** The actions of a state are the definition's. *)
Lemma state_actions def (st : StateDefinition G) name a :
  findState def name = Some st ->
  a ∈ (entry_actions st ++ exit_actions st ++ flat_map t_actions (transitions st))%list -> a ∈ eachAction def.
Proof.
  intros [Hin _]%find_some Ha. unfold eachAction. apply elem_of_app. left.
  rewrite list_elem_of_In, in_flat_map. exists st. split; [done|]. by apply list_elem_of_In.
Qed.

Lemma entry_in def (st : StateDefinition G) name a : findState def name = Some st -> a ∈ entry_actions st -> a ∈ eachAction def.
Proof. intros Hf Ha. eapply state_actions; [exact Hf|]. rewrite !elem_of_app. auto. Qed.

Lemma exit_in def (st : StateDefinition G) name a : findState def name = Some st -> a ∈ exit_actions st -> a ∈ eachAction def.
Proof. intros Hf Ha. eapply state_actions; [exact Hf|]. rewrite !elem_of_app. auto. Qed.

Lemma hq_cur b : hq b (gets cur) (fun i => born i = b).
Proof. by apply hq_gets. Qed.

Lemma takeCycleTrace_tame event i :
  born (takeCycleTrace E event i) = born i /\ i_status (takeCycleTrace E event i) = i_status i
  /\ terminated_at_ms (takeCycleTrace E event i) = terminated_at_ms i /\ calls (takeCycleTrace E event i) = calls i
  /\ kept (takeCycleTrace E event i) = kept i.
Proof. unfold takeCycleTrace. by repeat case_match. Qed.

Lemma takeCycleTrace_state event i : in_state i -> in_state (takeCycleTrace E event i).
Proof. unfold takeCycleTrace. by repeat case_match. Qed.

Lemma tame_begin b event t : tame b (fun i => takeCycleTrace E event (set_trace t i)).
Proof.
  intros i _. pose proof (takeCycleTrace_state event (set_trace t i)) as Hs.
  destruct (takeCycleTrace_tame event (set_trace t i)) as (-> & -> & -> & -> & ->). repeat split; auto.
Qed.

(** An instance goes to a state its definition has. *)
Lemma tame_set_state b name : is_Some (findState (b_def b) name) -> tame b (set_state name).
Proof. intros Hn i Hb. repeat split; auto. intros _. unfold in_state. cbn. by rewrite Hb. Qed.

Lemma hf_routeToFailed b event taken : hf b (fun _ => True) (routeToFailed E event taken) (fun _ _ => True).
Proof.
  unfold routeToFailed. eapply hf_q; [apply hq_reset_calls|]. intros _ _.
  eapply hf_q; [apply hq_cur|]. intros i Hi. eapply hf_q; [apply hq_gets_any|]. intros now _.
  eapply (hf_q _ _ _ (fun _ => True)).
  { destruct (findState (b_def (born i)) "failed") as [st|] eqn:Ef; [|by apply hq_ret].
    case_match; [by apply hq_ret|]. rewrite Hi in Ef.
    eapply hq_bind; [by eapply hq_update, tame_set_state|]. intros _ _.
    eapply hq_any, hq_runActions; [|by constructor]. intros a. by eapply entry_in. }
  intros _ _. eapply hf_true_bind; [by eapply (hf_end_any _ failed); [|intros ?; repeat split]|]. intros _. apply hf_end_commit.
Qed.

(** ** Transitions *)

Definition alive w : Prop := ended (cur w) = false.

Lemma alive_quiet w w' : quiet w w' -> alive w -> alive w'.
Proof. intros (_ & _ & Ht). unfold alive, ended. by rewrite Ht. Qed.

Lemma hf_a {A B} b (m : M G A) (k : A -> M G B) V :
  hq b m V -> (forall a, V a -> hf b alive (k a) (fun _ _ => True)) -> hf b alive (bind m k) (fun _ _ => True).
Proof. intros Hm Hk. eapply hf_quiet_bind; [exact Hm|apply alive_quiet|exact Hk]. Qed.

Lemma hf_of_true {A} b P (m : M G A) : hf b (fun _ => True) m (fun _ _ => True) -> hf b P m (fun _ _ => True).
Proof. intros H. by eapply hf_weaken. Qed.

Lemma hf_commit_alive b taken events : owned b events -> hf b alive (commit E (mutation taken events false)) (fun _ _ => True).
Proof.
  intros Hem. eapply hf_weaken; [by apply hf_commit| |done]. intros w Ha He. unfold alive in Ha. congruence.
Qed.

Lemma hq_agentCallCapEvent b event : hq b (agentCallCapEvent E event) (owned b).
Proof.
  intros w Hj Hb. unfold agentCallCapEvent, now_ms, bind, gets. set (c := calls (cur w)).
  destruct (str_is_empty (calls_skipped c) || calls_reported c).
  { apply (hq_ret b (@nil InternalEventRow) (owned b)); [by constructor|done|done]. }
  destruct (set_calls_J w (mkCalls (calls_sent c) (calls_skipped c) true) Hj (j_calls _ Hj)) as [Hj' Hq].
  unfold update, modify. destruct (marshalJSON E _) as [raw|]; cbn [ret fst snd]; (split; [done|]); (split; [done|]);
    intros ? [= <-]; repeat constructor. cbn. by rewrite Hb.
Qed.

Lemma hf_finish_transition b event taken target emitted : owned b emitted ->
  hf b alive (finish_transition E event taken target emitted) (fun _ _ => True).
Proof.
  intros Hem. unfold finish_transition. eapply hf_a; [apply hq_agentCallCapEvent|]. intros capped Hc.
  eapply hf_a; [apply hq_gets_any|]. intros now _. eapply hf_a; [apply hq_update; tame_solve|]. intros _ _.
  eapply hf_a; [apply hq_cur|]. intros i Hi.
  pose proof (owned_app _ _ _ Hem Hc) as Hev. destruct target as [t|]; [|by apply hf_commit_alive].
  destruct (isTerminalState (b_def (born i)) t); [|by apply hf_commit_alive]. apply hf_of_true.
  eapply hf_true_bind; [eapply (hf_end_any _ (terminalStatus t)); [|intros ?; by repeat split]|intros _; apply hf_end_commit].
  unfold terminalStatus. by repeat case_match.
Qed.

(** A transition of the definition: one of a state's, or of the catch's. *)
Definition transition_of (def : WorkflowDefinition G) (t : TransitionDefinition G) : Prop :=
  forall a, a ∈ t_actions t -> a ∈ eachAction def.

Lemma catch_in def t : t ∈ catch def -> transition_of def t.
Proof.
  intros Ht a Ha. unfold eachAction. apply elem_of_app. right. rewrite list_elem_of_In, in_flat_map.
  exists t. split; by apply list_elem_of_In.
Qed.

Lemma state_transition_in def (st : StateDefinition G) name t :
  findState def name = Some st -> t ∈ transitions st -> transition_of def t.
Proof.
  intros Hf Ht a Ha. eapply state_actions; [exact Hf|]. rewrite !elem_of_app. right. right.
  rewrite list_elem_of_In, in_flat_map. exists t. split; by apply list_elem_of_In.
Qed.

Lemma hf_run_chosen b event taken from t to :
  (forall a, a ∈ exit_actions from -> a ∈ eachAction (b_def b)) -> transition_of (b_def b) t ->
  (forall st, to = Some st -> is_Some (findState (b_def b) (target_state t))
                              /\ forall a, a ∈ entry_actions st -> a ∈ eachAction (b_def b)) ->
  hf b alive (run_chosen E event taken from t to) (fun _ _ => True).
Proof.
  intros Hex Ht Hen. unfold run_chosen. eapply hf_a; [apply hq_update, tame_begin|]. intros _ _.
  eapply (hf_a _ _ _ (fun r => owned b r.2)).
  { destruct to; [|by apply hq_ret; constructor]. apply hq_runActions; [done|by constructor]. }
  intros r Hr. destruct (negb r.1); [apply hf_of_true, hf_routeToFailed|].
  eapply hf_a; [apply hq_runActions; [exact Ht|exact Hr]|]. intros r2 Hr2.
  destruct (negb r2.1); [apply hf_of_true, hf_routeToFailed|].
  destruct to as [st|]; [|by apply hf_finish_transition].
  destruct (Hen st eq_refl) as [Hto Hen'].
  eapply hf_a; [by apply hq_update, tame_set_state|]. intros _ _.
  eapply hf_a; [apply hq_runActions; [exact Hen'|exact Hr2]|]. intros r3 Hr3.
  destruct (negb r3.1); [apply hf_of_true, hf_routeToFailed|by apply hf_finish_transition].
Qed.

Lemma hf_unhandled b event taken : hf b alive (unhandled E event taken) (fun _ _ => True).
Proof.
  unfold unhandled. eapply hf_a; [apply hq_gets_any|]. intros i _. eapply hf_a; [apply hq_gets_any|]. intros now _.
  apply (hf_bind _ _ _ _ (fun _ _ => True)).
  - destruct (durable taken); [|by apply hf_any, hq_ret]. eapply hf_a; [apply hq_update; tame_solve|]. intros _ _.
    apply hf_commit_alive. by constructor.
  - intros went. apply hf_any. destruct went; [|by apply hq_ret].
    eapply hq_bind; [apply hq_of_hs, hs_answerNotTaken|]. intros _ _. by apply hq_ret.
Qed.

Lemma notePerson_tame b event : tame b (notePerson event).
Proof. intros i _. unfold notePerson. repeat case_match; repeat split; auto. Qed.

Lemma hf_RunTransition b event taken : hf b alive (RunTransition E event taken) (fun _ _ => True).
Proof.
  unfold RunTransition. eapply hf_a; [apply hq_tick|]. intros _ _.
  eapply (hf_a _ _ _ (fun _ => True)); [case_match; [apply hq_reset_calls|by apply hq_ret]|]. intros _ _.
  eapply hf_a; [apply hq_update, notePerson_tame|]. intros _ _. eapply hf_a; [apply hq_cur|]. intros i Hi.
  destruct (findState (b_def (born i)) (current_state i)) as [from|] eqn:Ef; [|apply hf_of_true, hf_routeToFailed].
  rewrite Hi in *. destruct (match chooseTransition E i (transitions from) event matchesEvent with
    | Some t => Some t | None => chooseTransition E i (catch (b_def b)) event catchMatches end) as [t|] eqn:Et;
    [|apply hf_unhandled].
  assert (transition_of (b_def b) t) as Ht.
  { destruct (chooseTransition E i (transitions from) event matchesEvent) as [t'|] eqn:E1.
    - injection Et as ->. apply find_some in E1 as [Hin _]. eapply state_transition_in; [exact Ef|by apply list_elem_of_In].
    - apply find_some in Et as [Hin _]. apply catch_in. by apply list_elem_of_In. }
  assert (forall a, a ∈ exit_actions from -> a ∈ eachAction (b_def b)) as Hex by (intros a; by eapply exit_in).
  destruct (str_is_empty (target_state t)); [by apply hf_run_chosen|].
  destruct (findState (b_def b) (target_state t)) as [to|] eqn:Eto; [|apply hf_of_true, hf_routeToFailed].
  apply hf_run_chosen; [done|done|]. intros st [= <-]. split; [done|]. intros a. by eapply entry_in.
Qed.

Lemma hf_runCancelTransition b event taken : hf b (fun _ => True) (runCancelTransition E event taken) (fun _ _ => True).
Proof.
  unfold runCancelTransition. eapply hf_q; [apply hq_reset_calls|]. intros _ _.
  eapply hf_q; [apply hq_cur|]. intros i Hi. eapply hf_q; [apply hq_gets_any|]. intros now _.
  set (finish := do! update (fun i => set_trace "" (set_ended cancelled now i)) in _).
  assert (hf b (fun _ => True) finish (fun _ _ => True)) as Hfin.
  { eapply hf_true_bind; [by eapply (hf_end_any _ cancelled); [|intros ?; repeat split]|]. intros _. apply hf_end_commit. }
  destruct (findState (b_def (born i)) "cancelled") as [st|] eqn:Ef; [|exact Hfin]. rewrite Hi in *.
  eapply hf_q; [apply hq_update, tame_begin|]. intros _ _.
  eapply (hf_q _ _ _ (fun _ => True)).
  { destruct (findState (b_def b) (current_state i)) as [from|] eqn:E1; [|by apply hq_ret].
    eapply hq_any, hq_runActions; [|by constructor]. intros a. by eapply exit_in. }
  intros _ _. eapply hf_q; [by eapply hq_update, tame_set_state|]. intros _ _.
  eapply hf_q; [apply hq_runActions; [|by constructor]; intros a; by eapply entry_in|]. intros _ _. exact Hfin.
Qed.

Lemma running_alive w : J w -> i_status (cur w) = running -> alive w.
Proof. intros Hj Hs. apply (io_status _ (j_cur _ Hj)) in Hs. unfold alive, ended. by rewrite Hs. Qed.

Lemma hs_count_internal e : hs (tx (CountInternalAttempt e)) (fun _ => True).
Proof. apply hs_tx. split; [intros; by apply CountInternalAttempt_ok|done|intros s' r Hr; by exists r]. Qed.

(** Failing the instance processed, once it ended. *)
Lemma hf_failStoredInstance b :
  hf b (fun w => i_status (cur w) <> running) (failStoredInstance (b_id b)) (fun _ _ => True).
Proof.
  unfold failStoredInstance.
  assert (forall w w', quiet w w' -> i_status (cur w) <> running -> i_status (cur w') <> running) as Hst
    by (intros w w' (_ & -> & _); done).
  eapply hf_quiet_bind; [apply hq_gets_any|exact Hst|]. intros now _.
  eapply hf_quiet_bind; [apply hq_of_hs, hs_cancelInstanceTimers|exact Hst|]. intros _ _.
  unfold tx. eapply hf_quiet_bind; [apply hq_of_hs, hs_answer|exact Hst|]. intros a _.
  destruct (went_well a); [|by apply hf_any, hq_ret].
  apply (hf_bind _ _ _ _ (fun _ _ => True)); [|intros _; by apply hf_any, hq_ret].
  intros w [H1 H2 H3 H4 H5 [H6 H6'] H7 H8 H9] Hb Hr. cbn. split; [split; cbn; try done|split; [|done]].
  - by apply FailInstance_ok.
  - split; cbn.
    + intros id. destruct (decide (id = b_id b)) as [->|Hne]; [by rewrite lookup_alter_eq, fmap_is_Some; apply H6|].
      rewrite lookup_alter_ne by done. apply H6.
    + intros r [Hin _]%elem_of_filter_l. by apply H6'.
  - split; try done. cbn. rewrite Hb. intros id Hne. by rewrite lookup_alter_ne.
Qed.

Lemma hf_next_event b c run :
  (forall event taken, hf b alive (run event taken) (fun _ _ => True)) ->
  hf b (fun _ => True) (next_event E c run) (fun _ _ => True).
Proof.
  intros Hrun. unfold next_event. apply hf_peel. intros w Hj Hb _.
  destruct (bool_decide_reflect (i_status (cur w) = running)) as [Hr|Hr]; [|by apply hf_any, hq_ret].
  apply (hf_weaken _ alive (fun w' => w' = w) _ (fun _ _ => True)); [|intros w' ->; by apply running_alive|done].
  eapply hf_a; [apply hq_of_hs, hs_query_any|]. intros [[row|]|] _; [|by apply hf_any, hq_ret..].
  destruct (c && _).
  - apply hf_of_true. eapply hf_q; [apply hq_gets_any|]. intros now _.
    rewrite Hb. apply (hf_bind _ _ _ _ (fun _ w => i_status (cur w) <> running)); [|intros _; apply hf_failStoredInstance].
    by eapply (hf_end _ failed); [|intros ?; repeat split].
  - eapply (hf_a _ _ _ (fun _ => True)); [destruct c; [apply hq_of_hs, hs_count_internal|by apply hq_ret]|].
    intros counted _. destruct (negb counted); [by apply hf_any, hq_ret|].
    destruct (buildInternalEventMessage E row _); [apply Hrun|by apply hf_any, hq_ret].
Qed.

(** The events queued are run in turn; their number is bounded by [left]. *)
Lemma hf_drain b left c : hf b (fun _ => True) (drain E left c) (fun _ _ => True).
Proof.
  induction left as [|left IH]; apply hf_next_event; intros event taken; [apply hf_of_true, hf_routeToFailed|].
  eapply hf_bind; [apply hf_RunTransition|]. intros ok. destruct ok; [exact IH|by apply hf_any, hq_ret].
Qed.
End Safety.

#[global] Arguments agent_calls : simpl never.
