(* ===== verification/WfInvariant.v ===== *)
(** * The invariant of a workflow node, for every history of it

    What WfSafety.v proves of the processing of one instance, through the registry, the journal,
    correlation, recovery, the timers' list, the idle tick and the collection: every node that is
    reached keeps the invariant, whatever stopped it before. *)

From Stdlib Require Import ZArith Lia Ascii String.
From stdpp Require Import base list strings gmap.
From S2P Require Import Prelude Protocol WfDef WfStore WfEngine WfNode WfSafety.
Open Scope string_scope.
Open Scope wf_scope.

Section Invariant.
Context {G : Type} (E : Env G).
Implicit Types (w : World G) (b : Born G) (i : WFInstance G) (event m : Msg) (taken : TakenEvent).

(** No two UUIDs are the same (github.com/google/uuid, [NewString]). *)
Hypothesis uuid_unique : forall n k, uuid E n = uuid E k -> n = k.

(** ** The registry *)

(** A thread has the instance that runs on it, and an instance its thread. *)
Definition threads_ok w : Prop :=
  (forall id i, by_id w !! id = Some i -> b_id (born i) = id /\ by_thread w !! b_thread (born i) = Some id)
  /\ (forall t id, by_thread w !! t = Some id -> exists i, by_id w !! id = Some i /\ b_thread (born i) = t).

(** A registered instance runs, in memory and in the store. *)
Definition live w i : Prop :=
  i_status i = running /\ instance_ok E i /\ calls_ok (did w) i /\ runs (store w) (b_id (born i)).

Record Inv w : Prop := mk_Inv {
  in_J : J E w;
  in_threads : threads_ok w;
  in_live : forall id i, by_id w !! id = Some i -> live w i }.

(** The same, while the instance born [b] is processed. *)
Record Rg b w : Prop := mk_Rg {
  rg_threads : threads_ok w;
  rg_live : forall id i, by_id w !! id = Some i -> id <> b_id b -> live w i;
  rg_own : forall i, by_id w !! b_id b = Some i -> born i = b }.

Lemma runs_eq s s' id : wf_instances s' !! id = wf_instances s !! id -> runs s id -> runs s' id.
Proof. unfold runs. by intros ->. Qed.

Lemma frame_Rg b w w' : frame w w' -> born (cur w) = b -> Rg b w -> Rg b w'.
Proof.
  intros [] Hb [H1 H2 H3]. rewrite Hb in *. split.
  - unfold threads_ok in *. by rewrite fr_ids, fr_threads.
  - rewrite fr_ids. intros id i Hi Hne. destruct (H2 id i Hi Hne) as (? & ? & Hc & Hr).
    destruct (proj1 H1 id i Hi) as [Hid _]. split; [done|]. split; [done|]. rewrite <- Hid in Hne. split.
    + unfold calls_ok in *. by rewrite fr_others.
    + eapply runs_eq; [by apply fr_rows|done].
  - by rewrite fr_ids.
Qed.

(** ** Triples, with the registry *)

Definition hp {A} b (P : World G -> Prop) (m : M G A) (Q : A -> World G -> Prop) : Prop :=
  forall w, J E w -> Rg b w -> born (cur w) = b -> P w ->
    J E (m w).2 /\ Rg b (m w).2 /\ (born (cur (m w).2) = b /\ fresh (m w).2 = fresh w) /\ forall a, (m w).1 = Done a -> Q a (m w).2.

Lemma hp_of_hf {A} b P (m : M G A) Q : hf E b P m Q -> hp b P m Q.
Proof.
  intros H w Hj Hr Hb Hp. destruct (H w Hj Hb Hp) as (? & Hf & ?). split; [done|].
  split; [by eapply frame_Rg|]. split; [|done]. by rewrite (fr_born _ _ Hf), (fr_fresh _ _ Hf).
Qed.

Lemma hp_bind {A B} b P (m : M G A) (k : A -> M G B) Q Q' :
  hp b P m Q -> (forall a, hp b (Q a) (k a) Q') -> hp b P (bind m k) Q'.
Proof.
  intros Hm Hk w Hj Hr Hb Hp. unfold bind. destruct (Hm w Hj Hr Hb Hp) as (Hj' & Hr' & [Hb' <-] & HV).
  destruct (m w) as [[a| |] w'] eqn:Em; cbn in *; [|done..]. by apply Hk; auto.
Qed.

Definition calm {A} (m : M G A) : Prop := forall w, (m w).1 <> Panicked.

Lemma calm_bind {A B} (m : M G A) (k : A -> M G B) : calm m -> (forall a, calm (k a)) -> calm (bind m k).
Proof. intros Hm Hk w. unfold bind. specialize (Hm w). destruct (m w) as [[a| |] w']; [apply Hk|done..]. Qed.

Lemma calm_ret {A} (a : A) : calm (ret a).
Proof. by intros w. Qed.

Lemma calm_answer : calm answer.
Proof. intros w. unfold answer. by destruct (oracle w) as [|[] ?]. Qed.

Lemma calm_tx f : calm (tx f).
Proof. apply calm_bind; [apply calm_answer|]. intros a. by destruct (went_well a). Qed.

Lemma calm_call {A} (m : Answer -> M G A) : (forall a, calm (m a)) -> calm (bind answer m).
Proof. intros Hm. by apply calm_bind; [apply calm_answer|]. Qed.

Lemma calm_cancelInstanceTimers id : calm (cancelInstanceTimers id).
Proof.
  unfold cancelInstanceTimers, query. apply calm_bind; [apply calm_call; intros a; by destruct (went_well a)|].
  intros [l|]; [|by intros w]. induction l as [|t l IH]; [by intros w|]. apply calm_bind; [|intros _; exact IH].
  apply calm_bind; [apply calm_call; intros a; by destruct (went_well a)|]. intros _.
  apply calm_bind; [apply calm_tx|by intros _ w].
Qed.

Lemma calm_failInStore : calm failInStore.
Proof.
  unfold failInStore, failStoredInstance. apply calm_bind; [by intros w|]. intros now. apply calm_bind; [by intros w|].
  intros _. apply calm_bind; [by intros w|]. intros i. apply calm_bind; [|by intros _ w]. apply calm_bind; [by intros w|].
  intros now'. apply calm_bind; [apply calm_cancelInstanceTimers|]. intros _. apply calm_tx.
Qed.

Lemma hp_failInStore b : hp b (fun _ => True) failInStore (fun _ _ => True).
Proof.
  apply hp_of_hf. unfold failInStore. eapply hf_q; [apply hq_gets_any|]. intros now _.
  apply (hf_bind _ _ _ _ _ (fun _ w => i_status (cur w) <> running)); [by eapply (hf_end _ _ failed); [|intros ?; repeat split]|].
  intros _. eapply hf_quiet_bind; [apply hq_cur|by intros w w' (_ & -> & _)|]. intros i ->.
  apply (hf_bind _ _ _ _ _ (fun _ _ => True)); [apply hf_failStoredInstance|]. intros _. by apply hf_any, hq_ret.
Qed.

(** Whatever panics, the instance processed is whole, and the panic goes no further. *)
Lemma protect_ok b event taken run w :
  hp b (alive (G:=G)) run (fun _ _ => True) -> J E w -> Rg b w -> born (cur w) = b -> alive w ->
  let r := protect E event taken run w in
  J E r.2 /\ Rg b r.2 /\ (born (cur r.2) = b /\ fresh r.2 = fresh w) /\ r.1 <> Panicked.
Proof.
  intros Hrun Hj Hr Hb Ha. unfold protect, recover. destruct (Hrun w Hj Hr Hb Ha) as (H1 & H2 & [H3 <-] & _).
  destruct (run w) as [[a| |] w1]; cbn in *; [done| |done]. unfold failAfterPanic, recover.
  assert (hp b (fun _ => True) (let! ok := routeToFailed E event taken in if ok then ret false else failInStore) (fun _ _ => True))
    as Hfail.
  { eapply hp_bind; [apply hp_of_hf, hf_routeToFailed|]. intros [|]; [|apply hp_failInStore].
    by apply hp_of_hf, hf_any, hq_ret. }
  destruct (Hfail w1 H1 H2 H3 I) as (H4 & H5 & [H6 <-] & _).
  destruct ((let! ok := routeToFailed E event taken in if ok then ret false else failInStore) w1) as [[a| |] w2];
    cbn in *; [done| |done].
  destruct (hp_failInStore b w2 H4 H5 H6 I) as (? & ? & ? & _). split; [done|]. split; [done|]. split; [done|].
  apply calm_failInStore.
Qed.

(** ** Processing an instance *)

(** [unlock] and [settle] give the registry an instance that runs, or take one that ended off it. *)
Lemma unlock_ok b w : J E w -> Rg b w -> born (cur w) = b ->
  exists w', unlock w = (Done (), w') /\ J E w' /\ Rg b w' /\ cur w' = cur w
    /\ (forall i, by_id w' !! b_id b = Some i -> i = cur w) /\ fresh w' = fresh w.
Proof.
  intros Hj Hr Hb. unfold unlock, bind, gets. rewrite Hb. destruct (by_id w !! b_id b) as [i0|] eqn:Ei.
  2: { exists w. do 4 (split; [done|]). split; [|done]. by rewrite Ei. }
  pose proof (rg_own _ _ Hr i0 Ei) as Hb0. eexists. split; [reflexivity|]. split; [|split; [|split; [done|split; [|done]]]].
  - destruct Hj as [H1 H2 H3 H4 H5 H6 H7 H8]. split; try done. cbn. rewrite Hb in *. intros _. apply H8. by exists i0.
  - destruct Hr as [[H1 H2] H3 H4]. split; cbn.
    + split; cbn.
      * intros id i [[<- <-]|[Hne Hi]]%lookup_insert_Some; [|by apply H1]. rewrite Hb. split; [done|].
        destruct (H1 _ _ Ei) as [_ Ht]. by rewrite Hb0 in Ht.
      * intros t id Ht. destruct (H2 t id Ht) as (i & Hi & Hit). destruct (decide (id = b_id b)) as [->|Hne].
        -- exists (cur w). rewrite lookup_insert_eq, Hb. split; [done|]. rewrite Ei in Hi. injection Hi as <-. congruence.
        -- exists i. by rewrite lookup_insert_ne.
    + intros id i [[<- _]|[_ Hi]]%lookup_insert_Some Hne; [done|]. by apply (H3 id).
    + intros i. rewrite lookup_insert_eq. by intros [= <-].
  - intros i. cbn. rewrite lookup_insert_eq. by intros [= <-].
Qed.

Lemma removed_Inv b w : J E w -> Rg b w -> born (cur w) = b ->
  forall ids threads, ids = delete (b_id b) (by_id w) ->
  threads = match by_id w !! b_id b with
            | Some i => if opt_str_is (by_thread w !! b_thread (born i)) (b_id b) then delete (b_thread (born i)) (by_thread w)
                        else by_thread w
            | None => by_thread w
            end -> Inv (set_registry ids threads w).
Proof.
  intros Hj [[H1 H2] H3 H4] Hb ids threads -> ->. split.
  - destruct Hj as [J1 J2 J3 J4 J5 J6 J7 J8 J9]. split; try done. cbn. rewrite Hb, lookup_delete_eq. by intros [? [=]].
  - destruct (by_id w !! b_id b) as [i0|] eqn:Ei.
    + destruct (H1 _ _ Ei) as [Hid Hth]. rewrite Hth. cbn. rewrite (proj2 (String.eqb_eq _ _) eq_refl). split; cbn.
      * intros id i [Hne Hi]%lookup_delete_Some. destruct (H1 _ _ Hi) as [Hid' Hth']. split; [done|].
        rewrite lookup_delete_ne; [done|]. intros Heq. rewrite Heq in Hth. congruence.
      * intros t id [Hne Ht]%lookup_delete_Some. destruct (H2 _ _ Ht) as (i & Hi & Hit). exists i.
        rewrite lookup_delete_ne; [done|]. intros <-. congruence.
    + split; cbn.
      * intros id i [_ Hi]%lookup_delete_Some. by apply H1.
      * intros t id Ht. destruct (H2 _ _ Ht) as (i & Hi & Hit). exists i. rewrite lookup_delete_ne; [done|]. intros <-. congruence.
  - cbn. intros id i [Hne Hi]%lookup_delete_Some. by apply (H3 id).
Qed.

(** Between two computations of the node. *)
Definition hn {A} (P : World G -> Prop) (m : M G A) (Q : A -> World G -> Prop) : Prop :=
  forall w, Inv w -> P w ->
    match m w with
    | (Done a, w') => Inv w' /\ (fresh w <= fresh w')%nat /\ Q a w'
    | (Panicked, _) => False
    | (Crashed, w') => J E w'
    end.

Lemma still_Inv w w' : J E w' -> still w w' -> Inv w -> Inv w'.
Proof.
  intros Hj [] [_ [H1 H2] H3]. split; [done| |].
  - by split; rewrite sl_ids, sl_threads.
  - rewrite sl_ids. intros id i Hi. destruct (H3 id i Hi) as (? & ? & Hc & Hr). split; [done|]. split; [done|]. split.
    + unfold calls_ok in *. by rewrite sl_calls.
    + by eapply runs_rows.
Qed.

Lemma hn_of_hs {A} P (m : M G A) V :
  hs E m V -> (forall w w', still w w' -> P w -> P w') -> hn P m (fun a w => V a /\ P w).
Proof.
  intros Hm HP w Hi Hp. destruct (Hm w (in_J _ Hi)) as (Hj & Hs & Hn & HV).
  destruct (m w) as [[a| |] w']; cbn in *; [|done..]. split; [by eapply still_Inv|]. split; [by rewrite (sl_fresh _ _ Hs)|].
  split; [by apply HV|by eapply HP].
Qed.

Lemma hn_bind {A B} P (m : M G A) (k : A -> M G B) Q Q' :
  hn P m Q -> (forall a, hn (Q a) (k a) Q') -> hn P (bind m k) Q'.
Proof.
  intros Hm Hk w Hi Hp. specialize (Hm w Hi Hp). unfold bind. destruct (m w) as [[a| |] w1]; [|done..].
  destruct Hm as (Hi1 & Hf & Hq). specialize (Hk a w1 Hi1 Hq). destruct (k a w1) as [[c| |] w2]; [|done..].
  destruct Hk as (? & ? & ?). split; [done|]. split; [lia|done].
Qed.

Lemma hn_weaken {A} (P P' : World G -> Prop) (m : M G A) (Q Q' : A -> World G -> Prop) :
  hn P m Q -> (forall w, P' w -> P w) -> (forall a w, Q a w -> Q' a w) -> hn P' m Q'.
Proof.
  intros H HP HQ w Hi Hp. specialize (H w Hi (HP w Hp)). destruct (m w) as [[a| |] w']; [|done..].
  destruct H as (? & ? & ?). auto.
Qed.

Lemma hn_pre {A} (P P' : World G -> Prop) (m : M G A) Q : (forall w, Inv w -> P' w -> P w) -> hn P m Q -> hn P' m Q.
Proof. intros HP H w Hi Hp. apply H; auto. Qed.

Lemma hn_s {A B} P (m : M G A) (k : A -> M G B) V Q :
  hs E m V -> (forall w w', still w w' -> P w -> P w') -> (forall a, V a -> hn P (k a) Q) -> hn P (bind m k) Q.
Proof.
  intros Hm HP Hk. apply (hn_bind _ _ _ (fun a w => V a /\ P w)); [by apply hn_of_hs|].
  intros a w Hi [Hv Hp]. by apply (Hk a Hv).
Qed.

Lemma hn_any {A} P (m : M G A) : hs E m (fun _ => True) -> hn P m (fun _ _ => True).
Proof.
  intros Hm w Hi _. destruct (Hm w (in_J _ Hi)) as (Hj & Hs & Hn & _).
  destruct (m w) as [[a| |] w']; cbn in *; [|done..]. split; [by eapply still_Inv|]. split; [by rewrite (sl_fresh _ _ Hs)|done].
Qed.

(** A read of the world, in which the rest runs. *)
Lemma hn_peel {A B} P (f : World G -> A) (k : A -> M G B) Q :
  (forall w0, Inv w0 -> P w0 -> hn (fun w => w = w0) (k (f w0)) Q) -> hn P (bind (gets f) k) Q.
Proof. intros H w Hi Hp. by apply (H w Hi Hp w). Qed.

(** ** Side transactions *)

Lemma side_same f : (forall s, store_ok s -> store_ok (f s)) -> (forall s, wf_instances (f s) = wf_instances s) ->
  (forall s, wf_inbound_events (f s) = wf_inbound_events s) -> side f.
Proof. intros H1 H2 H3. split; [done|done|]. intros s r. rewrite H3. intros Hr. by exists r. Qed.

Lemma side_prune hash : side (PruneDefinitions hash).
Proof. apply side_same; [intros; by apply PruneDefinitions_ok|done|done]. Qed.

Lemma side_put row : side (PutDefinition row).
Proof. apply side_same; [intros; by apply PutDefinition_ok|done|done]. Qed.

Lemma side_drop e : side (DeleteInboundEvent e).
Proof. split; [intros; by apply inbound_filter_ok|done|]. intros s r [Hr _]%elem_of_filter_l. by exists r. Qed.

Lemma side_count e : side (CountInboundAttempt e).
Proof.
  split; [intros; by apply CountInboundAttempt_ok|done|]. intros s r (r' & -> & Hr')%list_elem_of_fmap. exists r'.
  split; [done|]. by destruct (in_event_id r' =? e)%Z.
Qed.

Lemma hs_pruneDefinitions : hs E pruneDefinitions (fun _ => True).
Proof.
  unfold pruneDefinitions. eapply hs_bind; [apply hs_gets_any|]. intros hash _.
  eapply hs_bind; [apply hs_tx, side_prune|]. intros _ _. by apply hs_ret.
Qed.

(** [settle], of an instance the registry holds as it is. *)
Lemma settle_ok b w : J E w -> Rg b w -> born (cur w) = b -> (forall i, by_id w !! b_id b = Some i -> i = cur w) ->
  match settle w with
  | (Done _, w') => Inv w' /\ (fresh w <= fresh w')%nat
  | (Panicked, _) => False
  | (Crashed, w') => J E w'
  end.
Proof.
  intros Hj Hr Hb Hown. unfold settle, bind at 1, gets at 1.
  destruct (bool_decide_reflect (i_status (cur w) = running)) as [Hs|Hs].
  - cbn. split; [|done]. split; [done|apply Hr|]. intros id i Hi. destruct (decide (id = b_id b)) as [->|Hne]; [|by apply (rg_live _ _ Hr id)].
    rewrite (Hown _ Hi). split; [done|]. split; [apply Hj|]. split; [apply Hj|]. apply (j_own _ _ Hj); [|done]. rewrite Hb. by exists i.
  - unfold registry_remove, bind at 1, bind at 1, bind at 1, gets at 1, gets at 1. cbn [modify]. rewrite Hb.
    match goal with |- context [set_registry ?ids ?threads w] => set (w1 := set_registry ids threads w) end.
    assert (Inv w1) as Hi by (by eapply removed_Inv). unfold bind at 1, gets at 1.
    destruct (b_hash b =s w_def_hash w1); [done|].
    pose proof (hn_any (fun _ => True) _ hs_pruneDefinitions w1 Hi I) as H.
    destruct (pruneDefinitions w1) as [[a| |] w2]; [|done..]. destruct H as (? & ? & _). done.
Qed.

(** An instance that may be processed. *)
Definition ready i w : Prop :=
  i_status i = running /\ instance_ok E i /\ calls_ok (did w) i /\ known E (fresh w) (b_id (born i))
  /\ forall i', by_id w !! b_id (born i) = Some i' -> born i' = born i.

Lemma ready_still i w w' : still w w' -> ready i w -> ready i w'.
Proof. intros [] (? & ? & Hc & ? & ?). unfold ready, calls_ok in *. rewrite sl_calls, sl_fresh, sl_ids. done. Qed.

Lemma live_ready w id i : Inv w -> by_id w !! id = Some i -> ready i w.
Proof.
  intros Hi Hin. destruct (in_live _ Hi _ _ Hin) as (? & ? & ? & r & Hr & _). split; [done|]. split; [done|]. split; [done|].
  destruct (proj1 (in_threads _ Hi) _ _ Hin) as [<- _]. split; [|congruence].
  apply (j_known _ _ (in_J _ Hi)). by exists r.
Qed.

(** Processing an instance: whatever it does and however it stops, the node is whole. *)
Lemma hn_process i event taken run :
  hp (born i) (alive (G:=G)) run (fun _ _ => True) -> hn (ready i) (process E i event taken run) (fun _ _ => True).
Proof.
  intros Hrun w Hi (Hst & Hio & Hc & Hk & Hown). unfold process, lock, update, modify, bind.
  set (w0 := set_cur (fun _ => i) w).
  assert (J E w0) as Hj.
  { destruct (in_J _ Hi) as [J1 J2 J3 _ _ J6 _ _ J9]. split; try done. intros [i' Hi'] _.
    destruct (in_live _ Hi _ _ Hi') as (_ & _ & _ & Hr). destruct (proj1 (in_threads _ Hi) _ _ Hi') as [Hid _].
    by rewrite Hid in Hr. }
  assert (Rg (born i) w0) as Hr.
  { split; [apply Hi| |exact Hown]. intros id i' Hi' _. by apply (in_live _ Hi id). }
  assert (alive w0) as Ha by (apply (running_alive E); [done|exact Hst]).
  destruct (protect_ok (born i) event taken run w0 Hrun Hj Hr eq_refl Ha) as (H1 & H2 & [H3 Hf1] & H4).
  destruct (protect E event taken run w0) as [[ok| |] w1]; cbn in H1, H2, H3, H4, Hf1; [|done..].
  destruct (unlock_ok _ _ H1 H2 H3) as (w2 & Hu & H5 & H6 & H7 & H8 & Hf2). rewrite Hu.
  assert (born (cur w2) = born i) as Hb2 by (by rewrite H7).
  pose proof (settle_ok (born i) w2 H5 H6 Hb2) as Hs. rewrite H7 in Hs. specialize (Hs H8).
  destruct (settle w2) as [[[]| |] w3]; [|done..]. destruct Hs as [? ?]. split; [done|]. split; [|done]. rewrite <- Hf1, <- Hf2. done.
Qed.

(** ** Creations *)

Lemma hp_peel {A B} b P (f : World G -> A) (k : A -> M G B) Q :
  (forall w0, J E w0 -> born (cur w0) = b -> P w0 -> hp b (fun w => w = w0) (k (f w0)) Q) -> hp b P (bind (gets f) k) Q.
Proof. intros H w Hj Hr Hb Hp. by apply (H w Hj Hb Hp w). Qed.

Lemma added_Rg b w i : Rg b w -> born i = b ->
  (forall holder, by_thread w !! b_thread b = Some holder -> holder = b_id b) ->
  Rg b (set_registry (<[b_id b := i]> (by_id w)) (<[b_thread b := b_id b]> (by_thread w)) w).
Proof.
  intros [[H1 H2] H3 H4] Hb Hfree. split; cbn.
  - split; cbn.
    + intros id i' [[<- <-]|[Hne Hi]]%lookup_insert_Some; [by rewrite Hb, lookup_insert_eq|].
      destruct (H1 _ _ Hi) as [Hid Hth]. split; [done|]. destruct (decide (b_thread (born i') = b_thread b)) as [He|He].
      * rewrite He in Hth. apply Hfree in Hth. congruence.
      * by rewrite lookup_insert_ne.
    + intros t id [[<- <-]|[Hne Ht]]%lookup_insert_Some; [exists i; by rewrite lookup_insert_eq, Hb|].
      destruct (H2 _ _ Ht) as (i' & Hi' & Hit). destruct (decide (id = b_id b)) as [->|Hid].
      * apply H4 in Hi'. congruence.
      * exists i'. by rewrite lookup_insert_ne.
  - intros id i' [[<- _]|[_ Hi]]%lookup_insert_Some Hne; [done|]. by apply (H3 id).
  - intros i'. rewrite lookup_insert_eq. by intros [= <-].
Qed.

Lemma hp_registry_add b w0 : committed w0 ->
  hp b (fun w => w = w0) (registry_add (cur w0)) (fun _ _ => True).
Proof.
  intros Hc w Hj Hr Hb ->. unfold registry_add, bind, gets. rewrite Hb.
  destruct (by_thread w0 !! b_thread b) as [holder|] eqn:Et.
  - destruct (String.eqb_spec holder (b_id b)) as [->|Hne]; cbn; [|done]. split; [|split; [|done]].
    + destruct Hj as [J1 J2 J3 J4 J5 J6 J7 J8 J9]. by split.
    + apply added_Rg; [done|done|]. rewrite Et. congruence.
  - cbn. split; [|split; [|done]].
    + destruct Hj as [J1 J2 J3 J4 J5 J6 J7 J8 J9]. by split.
    + apply added_Rg; [done|done|]. by rewrite Et.
Qed.

Lemma hp_drain b left c : hp b (fun _ => True) (drain E left c) (fun _ _ => True).
Proof. apply hp_of_hf, hf_drain. Qed.

Lemma hp_true {A} b P (m : M G A) : hp b (fun _ => True) m (fun _ _ => True) -> hp b P m (fun _ _ => True).
Proof. intros H w Hj Hr Hb _. by apply H. Qed.

Lemma hp_and {A} b (V : Prop) P (m : M G A) Q : (V -> hp b P m Q) -> hp b (fun w => V /\ P w) m Q.
Proof. intros H w Hj Hr Hb [Hv Hp]. by apply H. Qed.

(** A creation's commit, the registration of its instance and its internal events. *)
Lemma hp_committed b taken events clear :
  hp b (fun w => committed w) (let! i := gets cur in
      let! added := if bool_decide (i_status i = running) then registry_add i else ret true in
      if added then drainInternalEvents E else failInStore) (fun _ _ => True) ->
  owned b events ->
  hp b (clears (mutation taken events clear))
    (let! went := commit E (mutation taken events clear) in
     if negb went then ret false
     else let! i := gets cur in
          let! added := if bool_decide (i_status i = running) then registry_add i else ret true in
          if added then drainInternalEvents E else failInStore) (fun _ _ => True).
Proof.
  intros Hk Hem. eapply hp_bind; [apply hp_of_hf, hf_commit; exact Hem|]. intros [|]; cbn [negb].
  - intros w Hj Hr Hb Hc. apply Hk; auto.
  - by apply hp_of_hf, hf_any, hq_ret.
Qed.

Lemma hp_register b : hp b (fun w => committed w) (let! i := gets cur in
      let! added := if bool_decide (i_status i = running) then registry_add i else ret true in
      if added then drainInternalEvents E else failInStore) (fun _ _ => True).
Proof.
  apply hp_peel. intros w0 Hj Hb Hc. apply (hp_bind _ _ _ _ (fun _ _ => True)).
  - destruct (bool_decide _); [by apply hp_registry_add|by apply hp_of_hf, hf_any, hq_ret].
  - intros [|]; [apply hp_drain|apply hp_failInStore].
Qed.

Lemma hp_commit_creation b m taken st emitted : owned b emitted ->
  hp b (alive (G:=G)) (commit_creation E m taken st emitted) (fun _ _ => True).
Proof.
  intros Hem. unfold commit_creation.
  apply (hp_bind _ _ _ _ (fun capped w => owned b capped /\ alive w));
    [apply hp_of_hf, hf_quiet; [apply hq_agentCallCapEvent|apply alive_quiet]|].
  intros capped. apply hp_and. intros Hca. pose proof (owned_app _ _ _ Hem Hca) as Hev.
  apply hp_peel. intros w0 _ _ Ha0. apply hp_peel. intros w1 _ Hb1 ->. rewrite Hb1.
  destruct (isTerminalState (b_def b) (st_name st)).
  - apply (hp_bind _ _ _ _ (fun _ _ => True)).
    { apply hp_true, hp_of_hf. eapply hf_true_bind; [eapply (hf_end_any _ _ (terminalStatus (st_name st))); [|intros ?; by repeat split]|].
      - unfold terminalStatus. by repeat case_match.
      - intros _. apply hf_any, hq_of_hs, hs_cancelAllTimers. }
    intros _. apply (hp_bind _ _ _ _ (fun _ _ => True)); [by apply hp_of_hf, hf_any, hq_update; tame_solve|]. intros _.
    intros w Hj Hr Hb _. apply (hp_committed b taken [] true (hp_register b)); [by constructor|done|done|done|by intros _].
  - apply (hp_bind _ _ _ _ (fun _ w => alive w)).
    { by intros w Hj Hr Hb ->. }
    intros _. apply (hp_bind _ _ _ _ (fun _ w => alive w)).
    { apply hp_of_hf. eapply hf_weaken; [apply (hf_quiet _ _ (alive (G:=G))); [apply hq_update; tame_solve|apply alive_quiet]|done|].
      by intros ? w [_ ?]. }
    intros _ w Hj Hr Hb Ha. apply (hp_committed b taken (emitted ++ capped) false (hp_register b)); [done|done|done|done|].
    intros He. unfold alive in Ha. congruence.
Qed.

(** ** Starting a count *)

Lemma agent_calls_nonneg id (l : list (Did G)) : (0 <= agent_calls id l)%Z.
Proof.
  induction l as [|d l IH] using rev_ind; [done|]. rewrite agent_calls_snoc. unfold count_step.
  destruct d; repeat case_match; lia.
Qed.

Lemma count_starts_calls id id' (l : list (Did G)) :
  agent_calls id' (l ++ [CountStarts id]) = (if id =s id' then 0 else agent_calls id' l)%Z.
Proof. by rewrite agent_calls_snoc. Qed.

Lemma count_starts_ok id i w : calls_ok (did w) i -> calls_ok (did (add_did (CountStarts id) w)) i.
Proof.
  unfold calls_ok. cbn [did add_did]. rewrite count_starts_calls. pose proof (agent_calls_nonneg (b_id (born i)) (did w)).
  case_match; lia.
Qed.

Lemma count_starts_Inv id w : Inv w -> Inv (add_did (CountStarts id) w).
Proof.
  intros [[J1 J2 J3 J4 J5 J6 J7 J8 J9] Ht Hl]. split; [|done|].
  - split; try done; [| |by apply count_starts_ok].
    + apply sends_legit_snoc; [done|]. by intros ? ? [=].
    + apply within_cap_snoc; [done|]. intros id'. rewrite count_starts_calls. case_match; [done|]. by apply within_cap_last.
  - intros id' i Hi. destruct (Hl _ _ Hi) as (? & ? & ? & ?). split; [done|]. split; [done|]. split; [by apply count_starts_ok|done].
Qed.

Definition unused (id : string) w : Prop := known E (fresh w) id /\ by_id w !! id = None.

Lemma unused_still id w w' : still w w' -> unused id w -> unused id w'.
Proof. intros [] H. unfold unused. by rewrite sl_fresh, sl_ids. Qed.

Lemma NewInstance_ready def hash id input now m w :
  loaded E def -> unused id w -> ready (NewInstance E def hash id input now m) (add_did (CountStarts id) w).
Proof.
  intros Hl [Hk Hn]. unfold NewInstance.
  match goal with |- ready (takeCycleTrace E m ?i) _ =>
    pose proof (takeCycleTrace_state E m i) as Hst; destruct (takeCycleTrace_tame E m i) as (Hb & Hs & Ht & Hc & Hke) end.
  unfold ready, calls_ok. rewrite Hb, Hs, Hc. cbn. rewrite count_starts_calls, (proj2 (String.eqb_eq _ _) eq_refl).
  split; [done|]. split; [|split; [done|split; [done|by rewrite Hn]]]. split.
  - by rewrite Hs, Ht.
  - rewrite Hke. intros name m' k. change (kept _) with (∅ : gmap string (Msg * KeptMessageRow)). by rewrite lookup_empty.
  - by rewrite Hb.
  - apply Hst. by intros ?.
Qed.

Lemma hn_runCreation m id input event_id : hn (unused id) (runCreation E m id input event_id) (fun _ _ => True).
Proof.
  unfold runCreation. apply hn_peel. intros w Hi Hu. apply hn_peel. intros w1 _ ->. unfold now_ms. apply hn_peel. intros w1 _ ->.
  apply (hn_bind _ _ _ (fun _ w' => w' = add_did (CountStarts id) w)).
  { intros w1 _ ->. cbn. split; [by apply count_starts_Inv|]. split; [cbn; lia|done]. }
  intros _. eapply hn_weaken; [apply hn_process|intros w1 ->; apply NewInstance_ready; [apply Hi|done]|done].
  set (b := born (NewInstance E (w_def w) (w_def_hash w) id input (ms_of (now_ns w)) m)).
  assert (b_def b = w_def w) as Hdef 
    by (subst b; unfold NewInstance; by rewrite (proj1 (takeCycleTrace_tame E m _))).
  destruct (findState (w_def w) (initial_state (w_def w))) as [st|] eqn:Ef; [|by intros ?].
  apply (hp_bind _ _ _ _ (fun r w' => owned b r.2 /\ alive w')).
  { apply hp_of_hf, hf_quiet; [|apply alive_quiet]. apply hq_runActions; [|by constructor].
    rewrite Hdef. intros a. by eapply entry_in. }
  intros r. apply hp_and. intros Hr. destruct (negb r.1); [|by apply hp_commit_creation].
  apply hp_true, hp_of_hf, hf_routeToFailed.
Qed.

(** ** The journal *)

Lemma journal_ok id kind m key w : J E w -> known E (fresh w) id ->
  let r := journal E id kind m key w in J E r.2 /\ still w r.2 /\ r.1 <> Panicked.
Proof.
  intros Hj Hk. unfold journal. destruct (marshal_message E m) as [raw|]; [|split; [done|]; split; [apply still_refl|done]].
  unfold now_ms, bind, gets, tx, bind. pose proof (hs_answer E w Hj) as (H1 & H2 & H3 & _).
  destruct (answer w) as [[a| |] w1]; cbn in H1, H2, H3; [|done..]. destruct (went_well a); cbn; [|done].
  assert (known E (fresh w1) id) as Hk1 by (by rewrite (sl_fresh _ _ H2)).
  split; [|split; [|done]].
  - destruct H1 as [J1 J2 J3 J4 J5 [J6 J6'] J7 J8 J9]. split; try done; [by apply JournalInbound_ok|].
    split; [done|]. cbn. intros r [Hr|Hr]%elem_of_app; [by apply J6'|]. apply elem_of_cons in Hr as [->|[]%elem_of_nil]. done.
  - destruct H2. by split.
Qed.

Lemma hn_journal P id kind m key :
  (forall w w', still w w' -> P w -> P w') -> (forall w, P w -> known E (fresh w) id) ->
  hn P (journal E id kind m key) (fun _ w => P w).
Proof.
  intros HP Hk w Hi Hp. destruct (journal_ok id kind m key w (in_J _ Hi) (Hk w Hp)) as (H1 & H2 & H3).
  destruct (journal E id kind m key w) as [[a| |] w']; cbn in *; [|done..]. split; [by eapply still_Inv|].
  split; [by rewrite (sl_fresh _ _ H2)|by eapply HP].
Qed.

Lemma hn_runEvent i m event_id : hn (ready i) (runEvent E i m event_id) (fun _ _ => True).
Proof.
  apply hn_process. eapply hp_bind; [apply hp_of_hf, hf_RunTransition|]. intros [|]; [apply hp_drain|].
  by apply hp_of_hf, hf_any, hq_ret.
Qed.

Lemma hn_deliver i m key : hn (ready i) (deliver E i m key) (fun _ _ => True).
Proof.
  unfold deliver. eapply hn_bind; [apply (hn_journal (ready i)); [apply ready_still|by intros w (_ & _ & _ & ? & _)]|].
  intros [e|]; [apply hn_runEvent|by apply hn_any, hs_ret].
Qed.

Lemma hn_newInstanceID : hn (fun _ => True) (newInstanceID E) (fun id w => unused id w).
Proof.
  intros w Hi _. unfold newInstanceID, bind, gets. cbn. set (n := fresh w).
  assert (forall id, known E n id -> known E (S n) id) as Hmono.
  { intros id [->|(k & Hk & ->)]; [by left|]. right. exists k. split; [lia|done]. }
  assert (forall id i, by_id w !! id = Some i -> known E n id) as Hreg.
  { intros id i Hid. destruct (live_ready _ _ _ Hi Hid) as (_ & _ & _ & Hk & _).
    by destruct (proj1 (in_threads _ Hi) _ _ Hid) as [<- _]. }
  split; [|split; [cbn; lia|split]].
  - destruct Hi as [[J1 J2 J3 J4 J5 [J6 J6'] J7 J8 J9] Ht Hl]. split; [|done|done]. split; try done; [|by apply Hmono].
    split; [intros id Hid; by apply Hmono, J6|intros r Hr; by apply Hmono, J6'].
  - right. exists n. split; [cbn; lia|done].
  - cbn. apply eq_None_not_Some. intros [i Hid]. destruct (Hreg _ _ Hid) as [Hk|(k & Hk & Heq)]; [done|].
    injection Heq as Heq. apply uuid_unique in Heq. lia.
Qed.

Lemma hn_create m : hn (fun _ => True) (create E m) (fun _ _ => True).
Proof.
  unfold create. apply hn_peel. intros w _ _. destruct (creationInput E (w_def w) m) as [input|e].
  - apply (hn_weaken (fun _ => True) _ _ (fun _ _ => True)); [|done|done]. eapply hn_bind; [apply hn_newInstanceID|]. intros id.
    eapply hn_bind; [apply (hn_journal (unused id)); [apply unused_still|by intros w' [? _]]|].
    intros [e|]; [apply hn_runCreation|by apply hn_any, hs_ret].
  - by apply hn_any, hs_answerNotTaken.
Qed.

(** ** Dispatch *)

Lemma hn_ret {A} P (a : A) : hn P (ret a) (fun _ _ => True).
Proof. by apply hn_any, hs_ret. Qed.

(** A registered instance, from where it was read. *)
Lemma hn_found {A} w0 id i (m : M G A) Q : Inv w0 -> by_id w0 !! id = Some i ->
  hn (ready i) m Q -> hn (fun w => w = w0) m Q.
Proof. intros Hi Hid Hm. eapply hn_weaken; [exact Hm|intros w ->; by eapply live_ready|done]. Qed.

Lemma hs_scheduleAgain row : hs E (scheduleAgain row) (fun _ => True).
Proof.
  unfold scheduleAgain. eapply hs_bind; [apply hs_now_ms|]. intros now _. eapply hs_bind; [apply hs_schedule|]. intros [|] _.
  - eapply hs_bind; [apply hs_register|]. intros _ _. by apply hs_ret.
  - by apply hs_ret.
Qed.

Lemma hs_sendReply m response body : hs E (sendReply E m response body) (fun _ => True).
Proof.
  assert (forall body, hs E (match marshal_payload E body with
                             | None => ret ATooLarge
                             | Some raw => SendMsg (Answered (system_response E m response raw))
                             end) (fun _ => True)) as Hsend
    by (intros body'; destruct (marshal_payload E body'); [by apply hs_SendMsg|by apply hs_ret]).
  unfold sendReply. eapply hs_bind; [apply Hsend|]. intros [] _; try by apply hs_ret.
  eapply hs_bind; [apply Hsend|]. intros _ _. by apply hs_ret.
Qed.

Lemma hn_takeTimerFired m : hn (fun _ => True) (takeTimerFired E m) (fun _ _ => True).
Proof.
  unfold takeTimerFired. destruct (negb _); [apply hn_ret|].
  destruct (read_fired E (msg_payload m)) as [fired|]; [|apply hn_ret].
  destruct (firedTimer E m) as [[id key]|]; [|apply hn_ret]. destruct (negb _); [apply hn_ret|].
  unfold registry_get. apply hn_peel. intros w0 Hi _. destruct (by_id w0 !! id) as [i|] eqn:Eid; [|apply hn_ret].
  eapply hn_found; [done|done|]. eapply hn_s; [apply hs_query_any|apply ready_still|]. intros [[row|]|] _; try apply hn_ret.
  destruct (_ >? _)%Z; [|apply hn_deliver]. eapply hn_s; [apply hs_scheduleAgain|apply ready_still|]. intros _ _. apply hn_ret.
Qed.

Lemma hn_true {A} P (m : M G A) : hn (fun _ => True) m (fun _ _ => True) -> hn P m (fun _ _ => True).
Proof. intros H. by eapply hn_weaken. Qed.

Lemma hn_dispatchWorkflowEvent m : hn (fun _ => True) (dispatchWorkflowEvent E m) (fun _ _ => True).
Proof.
  unfold dispatchWorkflowEvent. destruct (_ =s MsgTimerFired); [apply hn_takeTimerFired|]. apply hn_peel. intros w0 Hi _.
  unfold registry_by_thread. apply hn_peel. intros w1 _ ->.
  set (found := match by_thread w0 !! _ with Some id => _ | None => _ end).
  destruct (negb (Involves _ _)); [apply hn_ret|]. set (has := negb (str_is_empty (trim _))).
  destruct (if has then found else None) as [i|] eqn:Ei.
  - assert (exists id, by_id w0 !! id = Some i) as [id Hid].
    { destruct has; [|done]. subst found. destruct (by_thread w0 !! _) as [id|]; [by exists id|done]. }
    eapply hn_found; [done|done|apply hn_deliver].
  - destruct (negb has); [by apply hn_any, hs_answerNotTaken|].
    destruct (_ || _); [by apply hn_any, hs_answerNotTaken|]. apply hn_true, hn_create.
Qed.

Lemma hn_cancel i m taken : hn (ready i) (process E i m taken (runCancelTransition E m taken)) (fun _ _ => True).
Proof. apply hn_process, hp_true, hp_of_hf, hf_runCancelTransition. Qed.

Lemma hn_handleWFCancelInstance m : hn (fun _ => True) (handleWFCancelInstance E m) (fun _ _ => True).
Proof.
  unfold handleWFCancelInstance. destruct (str_is_empty _); [by apply hn_any, hs_sendReply|]. unfold registry_get. apply hn_peel.
  intros w0 Hi _. match goal with |- context [by_id w0 !! ?x] => destruct (by_id w0 !! x) as [i|] eqn:Eid end.
  - destruct (negb _); [by apply hn_any, hs_sendReply|]. eapply hn_found; [done|done|]. eapply hn_bind; [apply hn_cancel|].
    intros [|]; [by apply hn_any, hs_sendReply|apply hn_ret].
  - apply hn_any. eapply hs_bind; [apply hs_query_any|]. intros [[r|]|] _; try destruct (is_running r); apply hs_sendReply.
Qed.

Lemma hn_Dispatch m : hn (fun _ => True) (Dispatch E m) (fun _ _ => True).
Proof.
  unfold Dispatch. destruct (is_plane_verb m).
  { apply hn_any. eapply hs_bind; [by apply hs_SendMsg|]. intros a _. by apply hs_ret. }
  destruct (isNotice m); [apply hn_ret|]. destruct (field _ _) as [response|].
  - destruct (negb _); [by apply hn_any, hs_sendReply|]. destruct (_ =s "WF_CANCEL_INSTANCE"); [apply hn_handleWFCancelInstance|].
    apply hn_any. eapply hs_bind; [apply hs_gets_any|]. intros s _. apply hs_sendReply.
  - destruct (_ && _); [apply hn_ret|apply hn_dispatchWorkflowEvent].
Qed.

(** ** Recovery *)

(** A write that only touches the row of an instance that is not registered. *)
Lemma Inv_store f id w : Inv w -> by_id w !! id = None -> store_ok (f (store w)) ->
  (forall j, j <> id -> wf_instances (f (store w)) !! j = wf_instances (store w) !! j) ->
  ids_known E (fresh w) (f (store w)) -> Inv (set_store f w).
Proof.
  intros [[J1 J2 J3 J4 J5 J6 J7 J8 J9] Ht Hl] Hn Hs Hrows Hk. split; [|done|].
  - split; try done. cbn. intros Hi Hru. eapply runs_eq; [|by apply J8]. apply Hrows. intros Heq. rewrite Heq, Hn in Hi.
    by destruct Hi.
  - intros id' i Hi. destruct (Hl _ _ Hi) as (? & ? & ? & Hr). split; [done|]. split; [done|]. split; [done|].
    eapply runs_eq; [|done]. apply Hrows. destruct (proj1 Ht _ _ Hi) as [-> _]. cbn in Hi. congruence.
Qed.

Lemma still_set_store f w : wf_instances (f (store w)) = wf_instances (store w) -> still w (set_store f w).
Proof. by split. Qed.

(** [tx], from what the write does in the store it meets. *)
Lemma hn_tx P f Q : (forall w w', still w w' -> P w -> P w') ->
  (forall w, Inv w -> P w -> Inv (set_store f w) /\ Q true (set_store f w) /\ Q false w) -> hn P (tx f) Q.
Proof.
  intros HP Hf. unfold tx. eapply hn_s; [apply hs_answer|exact HP|]. intros a _ w Hi Hp. destruct (Hf w Hi Hp) as (? & ? & ?).
  destruct (went_well a); cbn; done.
Qed.

(** A read, of the store as it is. *)
Lemma hn_query {A} P (f : Store -> A) : (forall w w', still w w' -> P w -> P w') ->
  hn P (query f) (fun o w => P w /\ forall x, o = Some x -> x = f (store w)).
Proof.
  intros HP. unfold query. eapply hn_s; [apply hs_answer|exact HP|]. intros a _ w Hi Hp.
  destruct (went_well a); cbn; (split; [done|]); (split; [done|]); (split; [done|]); congruence.
Qed.

Lemma hn_run_while {A} (L : list A -> World G -> Prop) (m : A -> M G bool) l :
  (forall a rest, hn (L (a :: rest)) (m a) (fun _ w => L rest w)) -> hn (L l) (run_while m l) (fun _ _ => True).
Proof.
  intros Hm. induction l as [|a l IH]; [apply hn_ret|]. cbn. eapply hn_bind; [apply Hm|]. intros [|]; [apply IH|apply hn_ret].
Qed.

Lemma hn_run_each {A} (m : A -> M G ()) l :
  (forall a, hn (fun _ => True) (m a) (fun _ _ => True)) -> hn (fun _ => True) (run_each m l) (fun _ _ => True).
Proof.
  intros Hm. induction l as [|a l IH]; [apply hn_ret|]. cbn. eapply hn_bind; [apply Hm|]. intros []. apply IH.
Qed.

Lemma hn_each_registered f :
  (forall i, hn (ready i) (f i) (fun _ _ => True)) -> hn (fun _ => True) (each_registered f) (fun _ _ => True).
Proof.
  intros Hf. unfold each_registered. apply hn_peel. intros w _ _. apply hn_true, hn_run_each. intros [id i0].
  unfold registry_get. apply hn_peel. intros w0 Hi _. destruct (by_id w0 !! id) as [i|] eqn:Ei; [|apply hn_ret].
  by eapply hn_found.
Qed.

(** A row of the running instances a start has still to load. *)
Definition to_load (r : WFInstanceRow) w : Prop :=
  by_id w !! r_instance_id r = None /\ runs (store w) (r_instance_id r).

Definition loadable (rows : list WFInstanceRow) w : Prop :=
  NoDup (map r_instance_id rows) /\ forall r, r ∈ rows -> to_load r w /\ r_status r = running /\ row_ok r.

Lemma loadable_still rows w w' : still w w' -> loadable rows w -> loadable rows w'.
Proof.
  intros [] [Hn Hl]. split; [done|]. intros r Hr. destruct (Hl r Hr) as ([H1 H2] & ? & ?). split; [|done].
  split; [by rewrite sl_ids|by eapply runs_rows].
Qed.

Lemma loadable_tail r rows w : loadable (r :: rows) w -> loadable rows w.
Proof.
  intros [Hn Hl]. cbn in Hn. apply NoDup_cons in Hn as [_ Hn]. split; [done|]. intros r' Hr'. apply Hl. by right.
Qed.

Lemma loadable_other r r' rows w : loadable (r :: rows) w -> r' ∈ rows -> r_instance_id r' <> r_instance_id r.
Proof.
  intros [Hn _] Hr' Heq. cbn in Hn. apply NoDup_cons in Hn as [Hn _]. apply Hn. rewrite <- Heq. by apply list_elem_of_fmap_2.
Qed.

Lemma FailInstance_rows id now s j : j <> id -> wf_instances (FailInstance id now s) !! j = wf_instances s !! j.
Proof. intros Hj. cbn. by rewrite lookup_alter_ne. Qed.

Lemma FailInstance_known n id now s : ids_known E n s -> ids_known E n (FailInstance id now s).
Proof.
  intros [H1 H2]. split; cbn.
  - intros j. destruct (decide (j = id)) as [->|Hne]; [by rewrite lookup_alter_eq, fmap_is_Some; apply H1|].
    rewrite lookup_alter_ne by done. apply H1.
  - intros r [Hin _]%elem_of_filter_l. by apply H2.
Qed.

(** A running row that cannot be loaded fails in the store. *)
Lemma hn_fail_row r rows : hn (loadable (r :: rows)) (failStoredInstance (r_instance_id r)) (fun _ w => loadable rows w).
Proof.
  unfold failStoredInstance. eapply hn_s; [apply hs_now_ms|apply loadable_still|]. intros now _.
  eapply hn_s; [apply hs_cancelInstanceTimers|apply loadable_still|]. intros _ _.
  apply hn_tx; [apply loadable_still|]. intros w Hi Hl. pose proof (proj2 Hl r) as Hr.
  destruct Hr as ([Hn _] & _); [left|]. split; [|split; [|by eapply loadable_tail]].
  - apply (Inv_store _ (r_instance_id r)); [done|done|apply FailInstance_ok, Hi| |apply FailInstance_known, Hi].
    intros j Hj. by apply FailInstance_rows.
  - pose proof (loadable_tail _ _ _ Hl) as [Hnd Hl']. split; [done|]. intros r' Hr'. destruct (Hl' r' Hr') as ([H1 H2] & ? & ?).
    split; [|done]. split; [done|]. eapply runs_eq; [|done]. apply FailInstance_rows. by eapply loadable_other.
Qed.

Lemma ListKeptMessages_owner id s k : k ∈ ListKeptMessages id s -> k_instance_id k = id.
Proof.
  unfold ListKeptMessages. rewrite elem_of_sort_by. intros [_ Hk]%elem_of_filter_l. by apply String.eqb_eq in Hk.
Qed.

Lemma FromRow_born row def rows i : FromRow E row def rows = Some i ->
  b_id (born i) = r_instance_id row /\ b_thread (born i) = r_thread_id row /\ i_status i = r_status row
  /\ terminated_at_ms i = r_terminated_at_ms row /\ calls i = no_calls
  /\ (b_def (born i) = def /\ current_state i = r_current_state row)
  /\ forall name m k, kept i !! name = Some (m, k) -> k ∈ rows.
Proof.
  unfold FromRow. destruct (unmarshalJSON E (input_json row)), (unmarshalJSON E (state_json row)); try done.
  destruct (mapM _ rows) as [ms|] eqn:Em; [|done]. intros [= <-]. cbn. repeat (split; [done|]).
  intros name m k Hk. apply elem_of_list_to_map_2 in Hk. apply mapM_Some_1 in Em.
  destruct (Forall2_in_r _ _ _ _ Em Hk) as (k' & Hin & Hk'). destruct (unmarshal_message E (k_message_json k')); [|done].
  by simplify_eq/=.
Qed.

Lemma hs_definitionFor hash : hs E (definitionFor E hash) (fun o => forall def, o = Some def -> loaded E def).
Proof.
  unfold definitionFor. eapply hs_bind; [apply (hs_gets E w_def (loaded E)); by intros w Hj; apply Hj|]. intros def Hd.
  eapply hs_bind; [apply hs_gets_any|]. intros cu _.
  destruct (hash =s cu); [by apply hs_ret; intros ? [= <-]|]. destruct (str_is_empty _); [by apply hs_ret|].
  eapply hs_bind; [apply hs_query_any|]. intros o _. apply hs_ret. intros d Hl.
  destruct o as [[row|]|]; [by exists (definition_json row)|done..].
Qed.

(** The registration of a loaded instance. *)
Lemma registered_Inv i w : Inv w -> by_id w !! b_id (born i) = None -> by_thread w !! b_thread (born i) = None -> live w i ->
  Inv (set_registry (<[b_id (born i) := i]> (by_id w)) (<[b_thread (born i) := b_id (born i)]> (by_thread w)) w).
Proof.
  intros Hi Hn Hth Hl. assert (Rg (born i) w) as Hrg.
  { split; [apply Hi|intros id i' Hi' _; by apply (in_live _ Hi id)|by rewrite Hn]. }
  destruct (added_Rg (born i) w i Hrg eq_refl) as [H1 _ _]; [by rewrite Hth|]. split; [|done|].
  - destruct (in_J _ Hi) as [J1 J2 J3 J4 J5 J6 J7 J8 J9]. split; try done. cbn. intros [i' Hi'] Hru.
    apply lookup_insert_Some in Hi' as [[Hid _]|[_ Hi']]; [|apply J8; by eauto]. rewrite <- Hid. apply Hl.
  - cbn. intros id i' [[_ <-]|[_ Hi']]%lookup_insert_Some; [done|]. by apply (in_live _ Hi id).
Qed.

Lemma hn_load_instance r rows : hn (loadable (r :: rows)) (load_instance E r) (fun _ w => loadable rows w).
Proof.
  assert (forall w, loadable (r :: rows) w -> loadable rows w) as Htl by (intros w; apply loadable_tail).
  assert (forall a : bool, hn (loadable (r :: rows)) (ret a) (fun _ w => loadable rows w)) as Hret
    by (intros a w Hi Hl; cbn; split; [done|split; [done|by apply Htl]]).
  unfold load_instance. eapply hn_s; [apply hs_definitionFor|apply loadable_still|].
  intros [def|] Hdef; [|apply hn_fail_row]. specialize (Hdef def eq_refl).
  destruct (findState def (r_current_state r)) as [sd|] eqn:Esd; [|apply hn_fail_row].
  eapply hn_s; [apply hs_query|apply loadable_still|]. intros [krows|] Hk; [|apply Hret].
  destruct (Hk krows eq_refl) as (st & Hs & ->). destruct (FromRow E r def _) as [i|] eqn:Ef; [|apply Hret].
  destruct (FromRow_born _ _ _ _ Ef) as (Hid & Hth & Hst & Hte & Hca & [Hbd Hcs] & Hkept).
  apply (hn_bind _ _ _ (fun _ w => loadable (r :: rows) w /\ calls_ok (did w) i)).
  { intros w Hi Hl. cbn. split; [by apply count_starts_Inv|]. split; [done|]. split; [done|].
    unfold calls_ok. rewrite Hca, Hid, count_starts_calls, (proj2 (String.eqb_eq _ _) eq_refl). done. }
  intros _ w Hi [Hl Hc]. destruct (proj2 Hl r) as ([Hn Hru] & Hr1 & Hr2); [left|].
  unfold registry_add. unfold bind at 1, bind at 1, bind at 1, gets at 1, gets at 1. rewrite <- Hid in Hn, Hru.
  destruct (by_thread w !! b_thread (born i)) as [holder|] eqn:Et.
  - destruct (proj2 (in_threads _ Hi) _ _ Et) as (i' & Hi' & _).
    destruct (String.eqb_spec holder (b_id (born i))) as [->|Hne]; [congruence|]. cbn. by apply hn_fail_row.
  - cbn. split; [|split; [done|]].
    + apply registered_Inv; [done|done|done|]. split; [by rewrite Hst|]. split; [|done].
      split; [by rewrite Hst, Hte| |by rewrite Hbd|intros _; by rewrite Hbd, Hcs, Esd].
      intros name m k Hin. apply Hkept, ListKeptMessages_owner in Hin. congruence.
    + pose proof (Htl w Hl) as [Hnd Hl']. split; [done|]. intros r' Hr'. destruct (Hl' r' Hr') as ([H1 H2] & ? & ?).
      split; [|done]. split; [|done]. cbn. rewrite lookup_insert_ne; [done|]. rewrite Hid. intros Heq. by eapply loadable_other.
Qed.

Lemma NoDup_map_filter {A B} (f : A -> B) (p : A -> bool) l : NoDup (map f l) -> NoDup (map f (List.filter p l)).
Proof.
  induction l as [|x l IH]; cbn; [done|]. intros [Hx Hl]%NoDup_cons. destruct (p x); [|by apply IH]. cbn.
  apply NoDup_cons. split; [|by apply IH]. intros (y & Hy & [Hin _]%elem_of_filter_l)%list_elem_of_fmap. apply Hx.
  rewrite Hy. by apply list_elem_of_fmap_2.
Qed.

(** The rows a start loads are of distinct instances, which run. *)
Lemma LoadRunningInstances_loadable w : Inv w -> by_id w = ∅ -> loadable (LoadRunningInstances (store w)) w.
Proof.
  intros Hi He. pose proof (so_rows _ (j_store _ _ (in_J _ Hi))) as Hrows. unfold LoadRunningInstances. split.
  - erewrite Permutation_map by apply sort_by_perm. apply NoDup_map_filter.
    rewrite map_map. erewrite map_ext_in; [apply NoDup_fst_map_to_list|]. intros [id r] Hin. cbn.
    apply list_elem_of_In, elem_of_map_to_list in Hin. by apply Hrows.
  - intros r. rewrite elem_of_sort_by. intros [([id r'] & -> & Hin)%list_elem_of_fmap Hru]%elem_of_filter_l. cbn in *.
    apply elem_of_map_to_list in Hin. destruct (Hrows _ _ Hin) as [Hid Hok]. apply bool_decide_eq_true in Hru.
    split; [|done]. split; [by rewrite He, lookup_empty|]. exists r'. by rewrite Hid.
Qed.

Lemma hn_loadRunningInstances : hn (fun w => by_id w = ∅) (loadRunningInstances E) (fun _ _ => True).
Proof.
  unfold loadRunningInstances. eapply hn_bind; [apply hn_query; by intros w w' [-> _ _ _ _ _ _ _ _]|].
  intros [rows|]; [|apply hn_ret].
  apply (hn_pre (loadable rows)); [|apply hn_run_while; intros r rest; apply hn_load_instance].
  intros w Hi [He Hrows]. rewrite (Hrows rows eq_refl). by apply LoadRunningInstances_loadable.
Qed.

(** ** Replay *)

Lemma known_grows n n' id : (n <= n')%nat -> known E n id -> known E n' id.
Proof. intros Hn [->|(k & Hk & ->)]; [by left|]. right. exists k. split; [lia|done]. Qed.

Lemma known_still id w w' : still w w' -> known E (fresh w) id -> known E (fresh w') id.
Proof. by intros [_ _ _ _ _ -> _ _ _]. Qed.

Lemma hn_grows {A} (K : World G -> Prop) P (m : M G A) Q :
  (forall w w', (fresh w <= fresh w')%nat -> K w -> K w') -> hn P m Q -> hn (fun w => P w /\ K w) m (fun a w => Q a w /\ K w).
Proof.
  intros HK Hm w Hi [Hp Hk]. specialize (Hm w Hi Hp). destruct (m w) as [[a| |] w']; [|done..].
  destruct Hm as (? & ? & ?). split; [done|]. split; [done|]. split; [done|by eapply HK].
Qed.

Lemma hs_drop e : hs E (tx (DeleteInboundEvent e)) (fun _ => True).
Proof. apply hs_tx, side_drop. Qed.

Lemma hn_giveUpInbound row : hn (fun _ => True) (giveUpInbound row) (fun _ _ => True).
Proof.
  unfold giveUpInbound, registry_get. apply hn_peel. intros w0 Hi _. destruct (by_id w0 !! in_instance_id row) as [i|] eqn:Ei.
  2: { apply hn_any. eapply hs_bind; [apply hs_drop|]. intros _ _. by apply hs_ret. }
  eapply hn_found; [done|done|]. clear w0 Hi Ei. intros w Hi Hr.
  assert (forall w1, failInStore w1 = protect E no_message (mkTaken None None) failInStore w1) as Heq.
  { intros w1. unfold protect, recover. pose proof (calm_failInStore w1). by destruct (failInStore w1) as [[a| |] w2]. }
  assert (hp (born i) (alive (G:=G)) failInStore (fun _ _ => True)) as Hrun by apply hp_true, hp_failInStore.
  pose proof (hn_process i no_message (mkTaken None None) failInStore Hrun w Hi Hr) as H.
  unfold process, bind in H. unfold bind. destruct (lock i w) as [[[]| |] w1]; [|done..]. rewrite Heq.
  destruct (protect E no_message (mkTaken None None) failInStore w1) as [[ok| |] w2]; [|done..].
  destruct (unlock w2) as [[[]| |] w3]; [|done..]. by destruct (settle w3) as [[[]| |] w4].
Qed.

Lemma hs_refuse row m reason detail : hs E (refuse E row m reason detail) (fun _ => True).
Proof.
  unfold refuse. eapply hs_bind; [apply hs_drop|]. intros d _. eapply hs_bind; [apply hs_gets_any|]. intros def _.
  destruct (_ || _); [by apply hs_ret|]. eapply hs_bind; [apply hs_answerNotTaken|]. intros _ _. by apply hs_ret.
Qed.

Lemma hs_drop_row row : hs E (drop row) (fun _ => True).
Proof. unfold drop. eapply hs_bind; [apply hs_drop|]. intros _ _. by apply hs_ret. Qed.

(** The journaled event becomes an event of a registered instance. *)
Lemma hn_retarget i e : hn (ready i) (tx (RetargetInboundEvent e (b_id (born i)))) (fun _ w => ready i w).
Proof.
  apply hn_tx; [apply ready_still|]. intros w Hi Hr. split; [|done].
  apply (still_Inv w); [|by apply still_set_store|done].
  destruct (in_J _ Hi) as [J1 J2 J3 J4 J5 [J6 J6'] J7 J8 J9]. split; try done; [by apply RetargetInboundEvent_ok|].
  split; [done|]. cbn. intros r (r' & -> & Hr')%list_elem_of_fmap. destruct (in_event_id r' =? e)%Z; [apply Hr|by apply J6'].
Qed.

Lemma hn_replay_creation row m :
  hn (fun w => known E (fresh w) (in_instance_id row)) (replay_creation E row m) (fun _ _ => True).
Proof.
  unfold replay_creation. eapply hn_bind; [apply hn_query; intros w w'; apply known_still|]. intros [[r|]|];
    [by apply hn_any, hs_drop_row| |apply hn_ret].
  apply (hn_pre (unused (in_instance_id row))).
  { intros w Hi [Hk Hq]. split; [done|]. apply eq_None_not_Some. intros [i Hid].
    destruct (in_live _ Hi _ _ Hid) as (_ & _ & _ & r & Hr & _). destruct (proj1 (in_threads _ Hi) _ _ Hid) as [He _].
    rewrite He in Hr. specialize (Hq None eq_refl). unfold GetInstance in Hq. congruence. }
  apply hn_peel. intros w0 Hi Hu. destruct (str_is_empty _); [by apply hn_any, hs_refuse|].
  unfold registry_by_thread. apply hn_peel. intros w1 _ ->.
  destruct (by_thread w0 !! _) as [id|] eqn:Et; [destruct (by_id w0 !! id) as [i|] eqn:Eid|].
  1: { destruct (negb _); [by apply hn_any, hs_drop_row|]. eapply hn_found; [done|done|].
       eapply hn_bind; [apply hn_retarget|]. intros [|]; [|apply hn_ret]. eapply hn_bind; [apply hn_runEvent|].
       intros ?. apply hn_ret. }
  all: destruct (negb (StartsFrom _ _)); [by apply hn_any, hs_refuse|].
  all: destruct (creationInput E (w_def w0) m) as [input|e]; [|by apply hn_any, hs_refuse].
  all: apply (hn_pre (unused (in_instance_id row))); [by intros w _ ->|].
  all: eapply hn_bind; [apply hn_runCreation|]; intros ?; apply hn_ret.
Qed.

Lemma hn_replay_row row : hn (fun w => known E (fresh w) (in_instance_id row)) (replay_row E row) (fun _ _ => True).
Proof.
  unfold replay_row. destruct (unmarshal_message E (message_json row)) as [m|]; [|by apply hn_any, hs_drop_row].
  destruct (_ <=? _)%Z.
  { apply hn_true. eapply hn_bind; [apply hn_giveUpInbound|]. intros ?. apply hn_ret. }
  eapply hn_s; [apply hs_tx, side_count|intros w w'; apply known_still|]. intros counted _.
  destruct (negb counted); [apply hn_ret|]. destruct (in_kind row); [apply hn_replay_creation|].
  unfold registry_get. apply hn_peel. intros w0 Hi _. destruct (by_id w0 !! _) as [i|] eqn:Ei; [|by apply hn_any, hs_drop_row].
  eapply hn_found; [done|done|]. eapply hn_bind; [apply hn_runEvent|]. intros ?. apply hn_ret.
Qed.

Definition rows_known (rows : list InboundEventRow) w : Prop := Forall (fun r => known E (fresh w) (in_instance_id r)) rows.

Lemma hn_replayInbound : hn (fun _ => True) (replayInbound E) (fun _ _ => True).
Proof.
  unfold replayInbound. eapply hn_bind; [by apply hn_query|]. intros [rows|]; [|apply hn_ret].
  apply (hn_pre (rows_known rows)).
  { intros w Hi [_ Hr]. rewrite (Hr rows eq_refl). apply Forall_forall. apply (j_known _ _ (in_J _ Hi)). }
  apply hn_run_while. intros r rest. eapply hn_weaken.
  - apply (hn_grows (rows_known rest)); [|apply (hn_replay_row r)].
    intros w w' Hf Hk. eapply Forall_impl; [exact Hk|]. intros x. by apply known_grows.
  - intros w H. by apply Forall_cons in H.
  - by intros ? w [_ ?].
Qed.

(** ** Timers, quiet instances, the collection *)

Lemma hn_fireMissedTimer i row u : hn (ready i) (fireMissedTimer E i row u) (fun _ _ => True).
Proof.
  unfold fireMissedTimer. eapply hn_s; [apply hs_now_ms|apply ready_still|]. intros now _.
  eapply hn_bind; [apply hn_deliver|]. intros ?. apply hn_ret.
Qed.

Lemma hs_cancel_in_timer ref : hs E (cancel_in_timer ref) (fun _ => True).
Proof. unfold cancel_in_timer. eapply hs_bind; [apply hs_ask_timer|]. intros _ _. by apply hs_ret. Qed.

Lemma hs_forget id key : hs E (do! tx (DeleteTimer id key) in ret ()) (fun _ => True).
Proof. eapply hs_bind; [apply hs_delete_timer|]. intros _ _. by apply hs_ret. Qed.

Lemma hn_reconcile_row view asked listed : hn (fun _ => True) (reconcile_row E view asked listed) (fun _ _ => True).
Proof.
  unfold reconcile_row. eapply hn_s; [apply hs_query_any|done|]. intros found _. eapply hn_s; [apply hs_now_ms|done|]. intros now _.
  destruct found as [[row|]|]; [|apply hn_ret..]. destruct (_ || _); [apply hn_ret|].
  unfold registry_get. apply hn_peel. intros w0 Hi _. destruct (by_id w0 !! _) as [i|] eqn:Ei, (view !! _) as [t|].
  - destruct (_ >? _)%Z; [apply hn_ret|]. eapply hn_found; [done|done|]. eapply hn_bind; [apply hn_fireMissedTimer|]. intros [].
    eapply hn_s; [apply hs_query_any|done|]. intros [[?|]|] _; [apply hn_ret|by apply hn_any, hs_cancel_in_timer..].
  - eapply hn_found; [done|done|]. destruct (_ <=? _)%Z; [apply hn_fireMissedTimer|by apply hn_any, hs_scheduleAgain].
  - destruct (_ >? _)%Z; [apply hn_ret|]. apply hn_any. eapply hs_bind; [apply hs_forget|]. intros _ _. apply hs_cancel_in_timer.
  - apply hn_any, hs_forget.
Qed.

Lemma set_pending_Inv p w : Inv w -> Inv (set_pending p w).
Proof. by intros [[J1 J2 J3 J4 J5 J6 J7 J8 J9] [H1 H2] H3]. Qed.

Lemma hn_takeTimerList timers asked : hn (fun _ => True) (takeTimerList E timers asked) (fun _ _ => True).
Proof.
  assert (forall p, hn (fun _ => True) (modify (set_pending p)) (fun _ _ => True)) as Hp
    by (intros p w Hi _; cbn; split; [by apply set_pending_Inv|done]).
  unfold takeTimerList. destruct timers as [timers|]; [|apply Hp].
  apply (hn_bind _ _ _ (fun _ _ => True)); [|intros _; apply Hp]. unfold reconcileTimers.
  eapply hn_s; [apply hs_query_any|done|]. intros [rows|] _; [|apply hn_ret].
  apply (hn_bind _ _ _ (fun _ _ => True)); [apply hn_run_each; intros r; apply hn_reconcile_row|]. intros _.
  apply hn_run_each. intros [ref t]. destruct (parseTimerClientRef ref); [by apply hn_any, hs_cancel_in_timer|apply hn_ret].
Qed.

Lemma next_fresh_Inv w : Inv w -> Inv (next_fresh w).
Proof.
  assert (forall id, known E (fresh w) id -> known E (S (fresh w)) id) as Hk by (intros id; apply known_grows; lia).
  intros [[J1 J2 J3 J4 J5 [J6 J6'] J7 J8 J9] [H1 H2] H3]. split; [|done|done]. split; try done; [|by apply Hk]. split; auto.
Qed.

Lemma hn_closeIfQuiet i : hn (ready i) (closeIfQuiet E i) (fun _ _ => True).
Proof.
  unfold closeIfQuiet. eapply hn_s; [apply hs_now_ms|apply ready_still|]. intros now _.
  destruct (IdleAfter E (b_def (born i))) as [after words]. destruct (_ || _); [apply hn_ret|].
  eapply hn_s; [apply hs_query_any|apply ready_still|]. intros [[|]|] _; [|apply hn_ret..].
  destruct (marshal_payload E _) as [raw|]; [|apply hn_ret]. apply hn_peel. intros w0 _ Hr.
  apply (hn_bind _ _ _ (fun _ => ready i)).
  { intros w Hi ->. cbn. split; [by apply next_fresh_Inv|]. split; [cbn; lia|]. destruct Hr as (? & ? & ? & ? & ?).
    do 3 (split; [done|]). split; [|done]. eapply known_grows; [|done]. cbn. lia. }
  intros _. eapply hn_bind; [apply hn_cancel|]. intros ?. apply hn_ret.
Qed.

(** The collection's deletes are of instances that ended. *)
Definition collectable (fs : list (Store -> Store)) w : Prop :=
  forall f, f ∈ fs -> exists id, f ∈ deletes_of id /\ ~ runs (store w) id.

Lemma collectable_still fs w w' : still w w' -> collectable fs w -> collectable fs w'.
Proof.
  intros [] H f Hf. destruct (H f Hf) as (id & ? & Hn). exists id. split; [done|]. intros Hr. apply Hn. by eapply runs_rows.
Qed.

Lemma deletes_rows f id s j : f ∈ deletes_of id -> j <> id -> wf_instances (f s) !! j = wf_instances s !! j.
Proof.
  intros Hf Hj. unfold deletes_of in Hf. repeat apply elem_of_cons in Hf as [->|Hf]; try done; [|by apply elem_of_nil in Hf].
  cbn. by rewrite lookup_delete_ne.
Qed.

Lemma deletes_runs f id s j : f ∈ deletes_of id -> runs (f s) j -> runs s j.
Proof.
  intros Hf (r & Hr & Hst). exists r. split; [|done]. destruct (decide (j = id)) as [->|Hne]; [|by erewrite <- deletes_rows].
  unfold deletes_of in Hf. repeat apply elem_of_cons in Hf as [->|Hf]; try done; [|by apply elem_of_nil in Hf].
  cbn in Hr. by rewrite lookup_delete_eq in Hr.
Qed.

Lemma deletes_known f id n s : f ∈ deletes_of id -> ids_known E n s -> ids_known E n (f s).
Proof.
  intros Hf [H1 H2]. unfold deletes_of in Hf. repeat apply elem_of_cons in Hf as [->|Hf]; try done; [| |by apply elem_of_nil in Hf].
  - split; [done|]. intros r [Hr _]%elem_of_filter_l. by apply H2.
  - split; [|done]. intros j [r Hr]. cbn in Hr. apply lookup_delete_Some in Hr as [_ Hr]. apply H1. by exists r.
Qed.

Lemma hn_collect f fs : hn (collectable (f :: fs)) (tx f) (fun _ w => collectable fs w).
Proof.
  apply hn_tx; [apply collectable_still|]. intros w Hi Hc. destruct (Hc f) as (id & Hf & Hn); [left|].
  assert (collectable fs w) as Hc' by (intros g Hg; apply Hc; by right). split; [|split; [|done]].
  - apply (Inv_store _ id); [done| | | |by eapply deletes_known; [|apply Hi]].
    + apply eq_None_not_Some. intros [i Hid]. apply Hn. destruct (in_live _ Hi _ _ Hid) as (_ & _ & _ & Hr).
      destruct (proj1 (in_threads _ Hi) _ _ Hid) as [He _]. by rewrite He in Hr.
    + by apply (deletes_ok id f); [apply Hi| |].
    + intros j Hj. by apply (deletes_rows f id).
  - intros g Hg. destruct (Hc' g Hg) as (id' & ? & Hn'). exists id'. split; [done|]. intros Hr. by apply Hn', (deletes_runs f id).
Qed.

Lemma hn_runGC days : hn (fun _ => True) (runGC days) (fun _ _ => True).
Proof.
  unfold runGC. apply hn_peel. intros w0 _ _. apply hn_true. eapply hn_bind; [by apply hn_query|]. intros [fs|]; [|apply hn_ret].
  apply (hn_pre (collectable fs)).
  - intros w Hi [_ Hq]. rewrite (Hq fs eq_refl). intros f Hf. apply list_elem_of_In, in_flat_map in Hf as (id & Hid & Hf).
    exists id. split; [by apply list_elem_of_In|]. eapply terminated_not_running; [apply Hi|by apply list_elem_of_In].
  - eapply hn_bind; [apply hn_run_while, hn_collect|]. intros ?. apply hn_ret.
Qed.

Lemma hn_startEngine bytes timers : hn (fun w => by_id w = ∅) (startEngine E bytes timers) (fun _ _ => True).
Proof.
  assert (forall w w' : World G, still w w' -> by_id w = ∅ -> by_id w' = ∅) as Hst by (intros w w' []; congruence).
  unfold startEngine. eapply hn_s; [apply hs_gets_any|exact Hst|]. intros def _. eapply hn_s; [apply hs_gets_any|exact Hst|].
  intros hash _. eapply hn_s; [apply hs_now_ms|exact Hst|]. intros now _. eapply hn_s; [apply hs_tx, side_put|exact Hst|].
  intros [|] _; [|apply hn_ret]. unfold Recover. eapply hn_bind; [apply hn_loadRunningInstances|].
  intros ok. destruct (negb ok); [apply hn_ret|]. apply (hn_bind _ _ _ (fun _ _ => True)).
  { apply hn_each_registered. intros i. unfold drainRecovered. eapply hn_bind; [|intros ?; apply hn_ret].
    apply hn_process, hp_true, hp_drain. }
  intros _. eapply hn_bind; [apply hn_replayInbound|]. intros replayed. destruct (negb replayed); [apply hn_ret|].
  eapply hn_s; [apply hs_now_ms|done|]. intros now' _. apply (hn_bind _ _ _ (fun _ _ => True)); [apply hn_takeTimerList|].
  intros _. eapply hn_s; [apply hs_pruneDefinitions|done|]. intros _ _. apply hn_ret.
Qed.

Lemma hn_handle x : hn (fun _ => True) (handle E x) (fun _ _ => True).
Proof.
  destruct x as [m|timers asked| |days]; cbn.
  - eapply hn_bind; [apply hn_Dispatch|]. intros ?. apply hn_ret.
  - apply hn_takeTimerList.
  - apply hn_each_registered. apply hn_closeIfQuiet.
  - apply hn_runGC.
Qed.

(** ** Every node that is reached *)

Record DInv (d : Durable (G:=G)) : Prop := mk_DInv {
  di_store : store_ok (d_store d);
  di_legit : sends_legit E (d_did d);
  di_cap : within_cap (d_did d);
  di_known : ids_known E (d_fresh d) (d_store d) }.

Definition node_ok (n : Node (G:=G)) : Prop := match n with Down d => DInv d | Up w => Inv w end.

Lemma J_durable w : J E w -> DInv (durable_of w).
Proof. by intros []. Qed.

Lemma boot_Inv d def hash o now : loaded E def -> DInv d -> Inv (boot E d def hash o now).
Proof.
  intros Hl [H1 H2 H3 H4].
  assert (b_id (born (nobody E def hash)) = "" /\ calls_sent (calls (nobody E def hash)) = maxAgentCallsPerTrigger) as [Hb Hc].
  { unfold nobody, NewInstance.
    match goal with |- context [takeCycleTrace E no_message ?i] =>
      destruct (takeCycleTrace_tame E no_message i) as (Hb & _) end.
    split; [exact (f_equal b_id Hb)|done]. }
  split.
  - split; cbn [boot store did cur fresh by_id]; try done.
    + unfold calls_ok. rewrite Hc. split; [by apply within_cap_last|done].
    + split; [done|done|exact Hl|by intros ?].
    + rewrite Hb. by left.
    + rewrite lookup_empty. by intros [? [=]].
  - split; cbn; [intros ? ?; by rewrite lookup_empty|intros ? ?; by rewrite lookup_empty].
  - cbn. intros ? ?. by rewrite lookup_empty.
Qed.

Lemma at_time_Inv o now w : Inv w -> Inv (at_time o now w).
Proof. by intros [[J1 J2 J3 J4 J5 J6 J7 J8 J9] [H1 H2] H3]. Qed.

Lemma node_step_ok n n' : node_ok n -> node_step E n n' -> node_ok n'.
Proof.
  intros Hn Hs. revert Hn. destruct Hs; cbn [node_ok]; intros Hn.
  - unfold start. destruct (load_definition E bytes) as [def|] eqn:Hl; [|done].
    pose proof (hn_startEngine bytes timers _ (boot_Inv _ def (hash_of E bytes) o now (ex_intro _ bytes Hl) Hn) eq_refl) as H.
    destruct (startEngine E bytes timers _) as [[[]| |] w]; [apply H|apply J_durable, H|done|by apply J_durable].
  - unfold take. pose proof (hn_handle x _ (at_time_Inv o now w Hn) I) as H.
    destruct (handle E x _) as [[a| |] w']; [apply H|done|by apply J_durable].
  - apply J_durable, Hn.
Qed.

Lemma reachable_ok n : reachable_node E n -> node_ok n.
Proof.
  induction 1 as [|n n' _ IH Hs]; [|by eapply node_step_ok]. split; cbn.
  - apply no_rows_ok.
  - by intros ? ? ?%elem_of_nil.
  - intros id l1 l2 Heq. symmetry in Heq. by apply app_nil in Heq as [-> _].
  - split; [|by intros ? ?%elem_of_nil]. intros id. cbn. rewrite lookup_empty. by intros [? [=]].
Qed.

Lemma node_durable n : node_ok n -> DInv (durable_part n).
Proof. destruct n as [d|w]; cbn; [done|]. intros Hi. by apply J_durable, Hi. Qed.

End Invariant.
