(* ===== verification/WfCases.v ===== *)
(** * What a workflow node promises

    Who may change a node's store; what becomes of a timer's reference on its way through SY.timer; that
    an instance's queue empties; and what holds of every node that is reached. *)

From Stdlib Require Import ZArith Lia Ascii String.
From stdpp Require Import base list strings gmap.
From S2P Require Import Prelude Protocol WfDef WfStore WfEngine WfNode WfAtomic WfSafety WfInvariant.
Open Scope string_scope.
Open Scope wf_scope.

(** ** References of timers *)

Lemma trim_end_after p c v : graphic c = true -> trim_end (p ++ String c v) = p ++ String c (trim_end v).
Proof.
  intros Hc. unfold trim_end. rewrite list_ascii_app, rev_app_distr. cbn [list_ascii_of_string rev].
  rewrite <- app_assoc. cbn [app]. rewrite trim_rev_before by done. rewrite rev_app_distr, string_of_list_ascii_app.
  cbn [rev]. rewrite rev_involutive, string_of_list_ascii_app, string_of_list_ascii_of_string.
  induction p as [|a p IH]; [done|]. rewrite !string_app_cons. by f_equal.
Qed.

Lemma ref_sent_is id key : ref_sent id key = timerClientRef id (trim_end key).
Proof.
  unfold ref_sent, timerClientRef, Prelude.trim. rewrite trim_start_id by done.
  assert (forall k, id ++ "::" ++ k = (id ++ ":") ++ String ":" k) as Ha.
  { intros k. induction id as [|a id IH]; [done|]. rewrite !string_app_cons. by f_equal. }
  rewrite !Ha. by apply (trim_end_after ("wf:" ++ id ++ ":")).
Qed.

(** An id that [parseTimerClientRef] tells from the key that follows it. *)
Definition plain_id (id : string) : Prop := id <> "" /\ cut_double_colon (id ++ ":") = None.

Lemma cut_after_id id key : cut_double_colon (id ++ ":") = None -> cut_double_colon (id ++ "::" ++ key) = Some (id, key).
Proof.
  induction id as [|a id IH]; [by destruct key|]. intros H.
  assert (starts_with (String a (id ++ "::" ++ key)) "::" = starts_with (String a (id ++ ":")) "::") as Hs
    by by destruct id as [|b [|c id]].
  change (String a id ++ "::" ++ key) with (String a (id ++ "::" ++ key)).
  change (String a id ++ ":") with (String a (id ++ ":")) in H. cbn [cut_double_colon] in *. rewrite Hs.
  destruct (starts_with _ _); [done|]. destruct (cut_double_colon (id ++ ":")) as [[]|]; [done|]. by rewrite IH.
Qed.

Lemma ref_parsed id key : plain_id id -> key <> "" -> parseTimerClientRef (timerClientRef id key) = Some (id, key).
Proof.
  intros [Hid Hc] Hk. unfold parseTimerClientRef, timerClientRef.
  change (strip_prefix "wf:" ("wf:" ++ id ++ "::" ++ key)) with (Some (id ++ "::" ++ key)). cbv beta iota.
  rewrite cut_after_id by done. destruct id; [done|]. by destruct key.
Qed.

(** The reference a timer is scheduled under names its instance and its key again when SY.timer
    sends it back exactly when the key does not end in white space: it is trimmed on its way out. A key
    the validator takes, which is not blank, and ends in a space comes back as another key. *)
Theorem timer_ref_roundtrip id key : plain_id id -> Prelude.trim_end key <> "" ->
  parseTimerClientRef (ref_sent id key) = Some (id, key) <-> Prelude.trim_end key = key.
Proof. intros Hid Hk. rewrite ref_sent_is, ref_parsed by done. split; [by intros [= ->]|by intros ->]. Qed.

(** ** Who may change the store *)

Section Authority.
Context {G : Type} (E : Env G).
Implicit Types (w : World G) (m : Msg).

(** A computation that only answers: nothing is written, and no instance sends. *)
Definition answers_only w w' : Prop := store w' = store w /\ forall b x, Sent b x ∈ did w' -> Sent b x ∈ did w.

Definition replies {A} (c : M G A) : Prop := forall w, answers_only w (c w).2.

Lemma replies_ret {A} (a : A) : replies (ret a). Proof. done. Qed.

Lemma replies_gets {A} (f : World G -> A) : replies (gets f). Proof. done. Qed.

Lemma replies_bind {A B} (c : M G A) (k : A -> M G B) : replies c -> (forall a, replies (k a)) -> replies (bind c k).
Proof.
  intros Hc Hk w. unfold bind. specialize (Hc w). destruct (c w) as [[a| |] w']; cbn in *; [|done..].
  destruct (Hk a w') as [H1 H2]. destruct Hc as [H3 H4]. split; [congruence|auto].
Qed.

Lemma replies_answer : replies answer.
Proof. intros w. unfold answer. by destruct (oracle w) as [|[] ?]. Qed.

Lemma replies_send m : replies (SendMsg (Answered m)).
Proof.
  apply replies_bind; [apply replies_answer|]. intros a. destruct (went_well a); [|apply replies_ret].
  apply replies_bind; [|intros []; apply replies_ret]. intros w. split; [done|]. intros b x [H|H]%elem_of_app; [done|].
  by apply elem_of_cons in H as [?|?%elem_of_nil].
Qed.

Lemma replies_query {A} (f : Store -> A) : replies (query f).
Proof. apply replies_bind; [apply replies_answer|]. intros a. by destruct (went_well a). Qed.

Lemma replies_sendReply m response body : replies (sendReply E m response body).
Proof.
  assert (forall v, replies (match marshal_payload E v with
    | Some raw => SendMsg (Answered (system_response E m response raw)) | None => ret ATooLarge end)) as Hs
    by (intros v; destruct (marshal_payload E v); [apply replies_send|apply replies_ret]).
  apply replies_bind; [apply Hs|]. intros []; try apply replies_ret. apply replies_bind; [apply Hs|]. intros ?. apply replies_ret.
Qed.

(** A control verb that may cancel an instance of the registry. *)
Definition cancels w m : Prop :=
  rawMsgName m = "WF_CANCEL_INSTANCE" /\ controlCallerAuthorized (node_name E) (sourceL2Name m) = true
  /\ is_Some (by_id w !! unwrap_or "" (read_cancel E (msg_payload m))).

(** A fire from SY.timer of the node's hive of a timer the index has, of an instance of the registry. *)
Definition fires w m : Prop :=
  rawMsgName m = MsgTimerFired /\ sourceL2Name m = timerAuthority (node_name E)
  /\ exists id key, firedTimer E m = Some (id, key) /\ is_Some (by_id w !! id)
       /\ is_Some (wf_instance_timers (store w) !! (id, key)).

(** The definition a message is read under: of the instance its thread has, or the node's. *)
Definition definition_met w m : WorkflowDefinition G :=
  let thread := unwrap_or "" (thread_id (meta m)) in
  match (if str_is_empty (Prelude.trim thread) then None
         else match by_thread w !! thread with Some id => by_id w !! id | None => None end) with
  | Some i => b_def (born i)
  | None => w_def w
  end.

(** A message of a conversation, from a node that definition names. *)
Definition involved w m : Prop :=
  rawMsgName m <> MsgTimerFired /\ is_system_kind (msg_type (meta m)) = false
  /\ Involves (definition_met w m) (sourceL2Name m) = true.

Lemma cancel_authority m w : rawMsgName m = "WF_CANCEL_INSTANCE" ->
  controlCallerAuthorized (node_name E) (sourceL2Name m) = true ->
  answers_only w (handleWFCancelInstance E m w).2 \/ cancels w m.
Proof.
  intros Hn Hc. unfold handleWFCancelInstance. case_match; [left; apply replies_sendReply|].
  destruct (by_id w !! unwrap_or "" (read_cancel E (msg_payload m))) as [i|] eqn:Hi; [right; by repeat split|].
  left. unfold registry_get, bind at 1. cbn [gets]. rewrite Hi. apply replies_bind; [apply replies_query|].
  intros [[r|]|]; [destruct (is_running r)|..]; apply replies_sendReply.
Qed.

Lemma fire_authority m w : rawMsgName m = MsgTimerFired -> answers_only w (takeTimerFired E m w).2 \/ fires w m.
Proof.
  intros Hn. unfold takeTimerFired. destruct (String.eqb_spec (sourceL2Name m) (timerAuthority (node_name E))) as [Hs|];
    [|by left]. cbn [negb].
  destruct (read_fired E (msg_payload m)) as [fired|]; [|by left]. destruct (firedTimer E m) as [[id key]|] eqn:Ef; [|by left].
  destruct (negb _); [by left|]. unfold registry_get, bind at 1. cbn [gets].
  destruct (by_id w !! id) as [i|] eqn:Hi; [|by left].
  destruct (wf_instance_timers (store w) !! (id, key)) as [row|] eqn:Hk.
  { right. split; [done|]. split; [done|]. by exists id, key. }
  left. unfold query, answer, bind, GetTimerForInstance. destruct (oracle w) as [|[] rest]; cbn; by rewrite ?Hk.
Qed.

Lemma event_authority m w : is_system_kind (msg_type (meta m)) = false \/ rawMsgName m = MsgTimerFired ->
  answers_only w (dispatchWorkflowEvent E m w).2 \/ fires w m \/ involved w m.
Proof.
  intros Hk. unfold dispatchWorkflowEvent. destruct (String.eqb_spec (rawMsgName m) MsgTimerFired) as [Hn|Hn].
  { destruct (fire_authority m w Hn); auto. }
  destruct (Involves (definition_met w m) (sourceL2Name m)) eqn:Ei; [right; right; split; [done|]; split; [naive_solver|done]|].
  left. unfold registry_by_thread, bind at 1 2. cbn [gets]. unfold definition_met in Ei.
  destruct (str_is_empty (Prelude.trim (unwrap_or "" (thread_id (meta m))))); cbn [negb]; by rewrite Ei.
Qed.

(** C16. Whatever message a node is given, from whoever sends it, its store stays as it is and no
    instance sends anything, unless the message is a cancellation of a running instance asked by the
    primary admin or the hive's rules service, a fire from the hive's own SY.timer of a timer the index
    holds, or a message from a node the definition of its conversation names. *)
Theorem only_authorized_change m w :
  answers_only w (Dispatch E m w).2 \/ cancels w m \/ fires w m \/ involved w m.
Proof.
  unfold Dispatch. destruct (is_plane_verb m).
  { left. apply replies_bind; [apply replies_send|]. intros a. apply replies_ret. }
  destruct (isNotice m); [by left|]. destruct (field (rawMsgName m) wfControlRequests) as [response|].
  - destruct (controlCallerAuthorized _ _) eqn:Ec; cbn [negb]; [|left; apply replies_sendReply].
    destruct (String.eqb_spec (rawMsgName m) "WF_CANCEL_INSTANCE") as [Hn|].
    + destruct (cancel_authority m w Hn Ec); auto.
    + left. apply replies_bind; [apply replies_gets|]. intros s. apply replies_sendReply.
  - destruct (is_system_kind _) eqn:Ek; cbn [andb].
    + destruct (String.eqb_spec (rawMsgName m) MsgTimerFired) as [Hn|]; cbn [negb]; [|by left].
      destruct (event_authority m w (or_intror Hn)) as [|[|]]; auto.
    + destruct (event_authority m w (or_introl Ek)) as [|[|]]; auto.
Qed.

End Authority.

(** ** Every node that is reached *)

Section Reached.
Context {G : Type} (E : Env G).

(** The generator of UUIDs gives none twice. *)
Hypothesis uuid_unique : forall n k, uuid E n = uuid E k -> n = k.

(** C14. Over any run of a workflow node, with its starts on whatever definitions, crashes, panics and
    refused calls, a message an instance sends goes to a node a send of the instance's own definition
    names, on the instance's own thread, from the node itself, and carries no memory package. *)
Theorem workflow_sends_allowed n b m :
  reachable_node E n -> Sent b m ∈ d_did (durable_part n) ->
  (exists a t, a ∈ eachAction (b_def b) /\ send_target a = Some t /\ dst (routing m) = Unicast t)
  /\ thread_id (meta m) = Some (b_thread b) /\ memory_package (meta m) = None /\ src (routing m) = node_uuid E.
Proof. intros Hn Hm. by apply (di_legit _ _ (node_durable E n (reachable_ok E uuid_unique n Hn))). Qed.


(** C38. Whatever moment a node stops at, its store is consistent: an instance's row says when it ended
    exactly when it does not run; events wait in the queue, and messages are kept, only for instances
    that run; the ids of both event tables grow; every timer is under its own instance and key. *)
Theorem workflow_store_consistent n : reachable_node E n -> store_ok (d_store (durable_part n)).
Proof. intros Hn. apply (node_durable E n (reachable_ok E uuid_unique n Hn)). Qed.

(** In a node that is up, every instance of the registry runs, in memory and in the store, under its
    own id, its thread finds it, and no two of them hold the same thread. *)
Theorem workflow_thread_held_once w id i :
  reachable_node E (Up w) -> by_id w !! id = Some i ->
  b_id (born i) = id /\ i_status i = running /\ runs (store w) id
  /\ by_thread w !! b_thread (born i) = Some id
  /\ forall id' i', by_id w !! id' = Some i' -> b_thread (born i') = b_thread (born i) -> id' = id.
Proof.
  intros Hn Hi. destruct (reachable_ok E uuid_unique _ Hn) as [_ [Ht _] Hl].
  destruct (Ht id i Hi) as [Hid Hth]. destruct (Hl id i Hi) as (Hs & _ & _ & Hr). rewrite Hid in Hr.
  do 4 (split; [done|]). intros id' i' Hi' Heq. destruct (Ht id' i' Hi') as [_ Hth']. rewrite Heq in Hth'. congruence.
Qed.

End Reached.

(** ** A conversation *)

Module WfExamples.

(** A workflow that asks an agent and is done when it answers; its codecs write nothing and its guards
    hold. *)
Definition helper : string := "AI.helper@h1".
Definition chat : string := "IO.chat@h1".

Definition send_to (to name : string) : ActionDefinition :=
  mkActionDefinition (ASendMessage (mkSendSpec to None None None "") name (JObj [])) OnErrorDefault.

Definition asking : WorkflowDefinition () :=
  mkDefinition () "help" [chat] "ask" ["done"]
    [mkStateDefinition () "ask" [send_to helper "ASK"] [] [mkTransition () (mkEventMatch "ANSWER" helper) (Some ()) "done" []];
     mkStateDefinition () "done" [send_to chat "DONE"] [] []]
    [] "".

Fixpoint tally (n : nat) : string := match n with O => "" | S n => String "x" (tally n) end.

Lemma tally_inj n k : tally n = tally k -> n = k.
Proof. revert k. induction n as [|n IH]; intros [|k]; try done. intros [= H]. f_equal. by apply IH. Qed.

Definition env : Env () :=
  mkEnv () (fun _ => Some (JObj [])) (fun _ => Some "{}") (fun _ => Some "{}") (fun _ => None) (fun _ => None) (fun _ => None)
    (fun _ => Some "m") (fun _ => None) (fun _ => None) (fun _ => "") (fun _ _ _ _ => true) (fun _ _ _ _ _ => None)
    (fun _ _ => None) (fun _ => Some asking) (fun bytes => bytes) (fun _ => Some day) (fun _ => None) (fun s => s) tally
    "WF.help@h1" "uuid-wf" "" (fun _ => None) (fun _ _ => JNull) (fun m => m).

Lemma env_unique : forall n k, uuid env n = uuid env k -> n = k.
Proof. exact tally_inj. Qed.

Definition from (name event : string) : Msg :=
  mkMessage (mkRouting "uuid-x" (Some name) (Unicast "uuid-wf") 16 "t1")
    (mkMeta "user" (Some event) None None None (Some "th1") None None None None None None None None None None false) "{}".

(** Started, asked, and down by a crash of its store in the commit of the answer's transition. *)
Definition started : Node := start env (mkDurable empty_store [] 0) "v1" (Some []) [] 0.
Definition next (x : Input) (o : list Answer) (n : Node) : Node :=
  match n with Up w => take env w x o 0 | Down d => Down d end.
Definition asked : Node := next (Inbound (from chat "HI")) [] started.
Definition answered : Node := next (Inbound (from helper "ANSWER")) [] asked.
Definition crashed : Node := next (Inbound (from helper "ANSWER")) [AOk; ACrash] asked.

Lemma next_reachable x o n : reachable_node env n -> reachable_node env (next x o n).
Proof. intros Hn. destruct n as [d|w]; [done|]. eapply reach_more; [done|]. constructor. Qed.

Lemma started_reachable : reachable_node env started.
Proof. eapply reach_more; [apply reach_new|]. constructor. Qed.

Lemma answered_reachable : reachable_node env answered.
Proof. do 2 apply next_reachable. apply started_reachable. Qed.

Definition sent_last (n : Node (G:=())) : option (Born () * Msg) :=
  match rev (d_did (durable_part n)) with Sent b m :: _ => Some (b, m) | _ => None end.

Lemma sent_last_in n b m : sent_last n = Some (b, m) -> Sent b m ∈ d_did (durable_part n).
Proof.
  unfold sent_last. intros H. apply list_elem_of_In, in_rev, list_elem_of_In. destruct (rev _) as [|[] ?]; try done.
  injection H as -> ->. left.
Qed.

Lemma workflow_sends_allowed_witness : exists b m, sent_last answered = Some (b, m) /\ dst (routing m) = Unicast chat /\
  ((exists a t, a ∈ eachAction (b_def b) /\ send_target a = Some t /\ dst (routing m) = Unicast t)
   /\ thread_id (meta m) = Some (b_thread b) /\ memory_package (meta m) = None /\ src (routing m) = node_uuid env).
Proof.
  destruct (sent_last answered) as [[b m]|] eqn:E; [|by vm_compute in E]. exists b, m. split; [done|]. split.
  - assert (option_map (fun x => dst (routing x.2)) (sent_last answered) = Some (Unicast chat)) as H by by vm_compute.
    rewrite E in H. by injection H.
  - apply (workflow_sends_allowed env env_unique answered b m answered_reachable). by apply sent_last_in.
Defined.


Lemma workflow_store_consistent_witness :
  store_ok (d_store (durable_part crashed)) /\ wf_inbound_events (d_store (durable_part crashed)) <> [].
Proof.
  split; [|by vm_compute]. apply (workflow_store_consistent env env_unique crashed). do 2 apply next_reachable. apply started_reachable.
Defined.

Lemma workflow_thread_held_once_witness : exists w i, asked = Up w /\ by_id w !! "wfi:" = Some i /\
  (b_id (born i) = "wfi:" /\ i_status i = running /\ runs (store w) "wfi:"
   /\ by_thread w !! b_thread (born i) = Some "wfi:"
   /\ forall id' i', by_id w !! id' = Some i' -> b_thread (born i') = b_thread (born i) -> id' = "wfi:").
Proof.
  destruct asked as [d|w] eqn:E; [apply (f_equal (fun n => match n with Up _ => true | Down _ => false end)) in E; by vm_compute in E|].
  assert (reachable_node env (Up w)) as Hw by (rewrite <- E; apply next_reachable, started_reachable).
  assert (is_Some (by_id w !! "wfi:")) as [i Hi].
  { assert (match asked with Up w => bool_decide (is_Some (by_id w !! "wfi:")) | Down _ => false end = true) as H by by vm_compute.
    rewrite E in H. by apply bool_decide_eq_true in H. }
  exists w, i. split; [done|]. split; [done|]. by apply (workflow_thread_held_once env env_unique w "wfi:" i).
Defined.

Lemma timer_ref_roundtrip_witness :
  (parseTimerClientRef (ref_sent "wfi:1" "remind ") = Some ("wfi:1", "remind ") <-> Prelude.trim_end "remind " = "remind ")
  /\ parseTimerClientRef (ref_sent "wfi:1" "remind ") = Some ("wfi:1", "remind").
Proof. split; [|by vm_compute]. apply (timer_ref_roundtrip "wfi:1" "remind "); by vm_compute. Defined.

End WfExamples.
