(* ===== verification/WfValidate.v ===== *)
(** * The loading of a workflow definition

    src/go/pkg/wfcel/validate.go (with types.go and the number types of json.go): the text of a
    definition is read three times (as what its checks of fields look at, as any JSON, and strictly),
    its numbers are given their types, its known menu options are written in, and it loads only when
    no check finds an error. A check's errors are the source's, each with its path and its words. CEL,
    the compiler of JSON schemas and the JSON decoders are parameters ([Lang]). *)

From Stdlib Require Import ZArith Lia Ascii String.
From stdpp Require Import base list strings gmap pretty.
From S2P Require Import Prelude Protocol WfDef WfEngine.
Open Scope string_scope.

#[local] Abbreviation Obj := (list (string * JVal)).

(** ** What a definition says (types.go)

    [JNull] is a nil [any]; a number as written is a [JDouble] of its text ([json.Number]). *)

Module Source.

Record MenuParam := mkMenuParam { p_type : string; p_description : string; p_enum : option (list string) }.

Record MenuOption := mkMenuOption {
  o_name : string; o_description : string; o_params : list (string * MenuParam) }.

Record Menu := mkMenu { m_help : string; m_options : list MenuOption }.

Record ActionMeta := mkActionMeta { am_msg : string; am_context : JVal }.

Record ActionDefinition := mkAction {
  a_type : string; a_target : string; a_meta : option ActionMeta; a_message : string; a_vars : JVal;
  a_menu : option Menu; a_subject : string; a_payload : JVal; a_timer_key : string; a_fire_in : JVal;
  a_fire_at : JVal; a_missed_policy : string; a_missed_within_ms : option Z; a_name : string; a_value : JVal;
  a_on_error : string }.

Record TransitionDefinition := mkTransition {
  t_event_match : EventMatch; t_guard : string; t_target_state : string; t_actions : list ActionDefinition }.

Record StateDefinition := mkState {
  s_name : string; s_entry_actions : list ActionDefinition; s_exit_actions : list ActionDefinition;
  s_transitions : list TransitionDefinition }.

Record WorkflowDefinition := mkDefinition {
  d_schema_version : string; d_workflow_type : string; d_start_from : list string; d_input_schema : Obj;
  d_initial_state : string; d_terminal_states : list string; d_states : list StateDefinition;
  d_catch : list TransitionDefinition; d_idle_timeout : string }.

(** The parts of a document [fieldErrors] decodes. *)
Record DocTransition := mkDocTransition { dt_event_match : Obj; dt_actions : list Obj }.
Record DocState := mkDocState {
  ds_entry_actions : list Obj; ds_exit_actions : list Obj; ds_transitions : list DocTransition }.
Record Doc := mkDoc { doc_states : list DocState; doc_catch : list DocTransition }.

End Source.

Import Source (MenuParam, MenuOption, Menu, mkMenuParam, mkMenuOption).

(** A checked CEL expression, as far as the validator reads it. *)
Inductive Expr :=
| EIdent (name : string)
| ESelect (operand : Expr) (field_name : string)
| ECall (function_name : string) (target : option Expr) (args : list Expr)
| EString (s : string)
| EList (elements : list Expr)
| EOther (children : list Expr).

Record ValidationError := mkError { at_path : string; says : string }.

#[local] Abbreviation ValidationErrors := (list ValidationError).

(** What the validator calls: the compilers of guards, of values and of schemas, the number types of
    Go (the double a number is, as text, [None] when none holds it), and the decoders, of the parts
    [fieldErrors] reads, of any JSON, and of a definition with no field it does not know. *)
Record Lang {G : Type} := mkLang {
  compileGuard : string -> (G * Expr) + string;
  compileValue : string -> Expr + string;
  schema_error : Obj -> option string;
  float64 : string -> option string;
  read_doc : string -> option Source.Doc;
  read_any : string -> JVal;
  read_definition : string -> Source.WorkflowDefinition + string }.
Arguments Lang : clear implicits.

(** A double quote. *)
Definition dq : string := String "034" "".

(** [fmt.Sprintf("%s[%d]", path, i)]. *)
Definition at_index (path : string) (i : nat) : string := path ++ "[" ++ pretty i ++ "]".

(** [sort.Strings], and [sortedKeys] of an object and of a set of names. *)
Definition sort_strings (l : list string) : list string := sort_by String.compare l.
Definition sortedKeys {V} (o : list (string * V)) : list string := sort_strings (map fst o).
Definition sortedNames (names : gset string) : list string := sort_strings (elements names).

(** The value of a map's key. *)
Fixpoint assoc {V} (k : string) (o : list (string * V)) : option V :=
  match o with
  | [] => None
  | (k', v) :: rest => if k' =s k then Some v else assoc k rest
  end.

Definition as_obj (v : JVal) : Obj := match v with JObj o => o | _ => [] end.
Definition as_arr (v : JVal) : list JVal := match v with JArr l => l | _ => [] end.
Definition as_str (v : JVal) : string := match v with JStr s => s | _ => "" end.
Definition field_of (k : string) (o : Obj) : JVal := unwrap_or JNull (obj_get k o).
Definition has_key {V} (k : string) (o : list (string * V)) : bool := str_mem k (map fst o).

(** What [f] gives of the items of a list, each with its index. *)
Section EachAt.
Context {A B : Type} (f : nat -> A -> list B).

Fixpoint each_from (i : nat) (l : list A) : list B :=
  match l with
  | [] => []
  | a :: rest => f i a ++ each_from (S i) rest
  end%list.

Definition each_at (l : list A) : list B := each_from 0 l.
End EachAt.

(** What was found at each key of an object, in the order of the keys. *)
Definition in_key_order {A} (found : list (string * list A)) : list A :=
  flat_map snd (sort_by (fun a b => String.compare a.1 b.1) found).

(** [strings.EqualFold] with a name of ASCII letters: besides their two cases, the kelvin sign (U+212A)
    is a k and the long s (U+017F) an s. *)
Fixpoint fold_case (s : string) : string :=
  match s with
  | EmptyString => EmptyString
  | String a r =>
    match r with
    | String b rest =>
      if ascii_is 197 a && ascii_is 191 b then String "s" (fold_case rest)
      else match rest with
           | String c rest2 =>
             if ascii_is 226 a && ascii_is 132 b && ascii_is 170 c then String "k" (fold_case rest2)
             else String (ascii_lower a) (fold_case r)
           | EmptyString => String (ascii_lower a) (fold_case r)
           end
    | EmptyString => String (ascii_lower a) ""
    end
  end.

Definition EqualFold (name key : string) : bool := fold_case name =s fold_case key.

(** ** The catalog of options (types.go) *)

Definition NoneOption : string := "none".
Definition ReasonParam : string := "reason".
Definition MsgAgentCallCap : string := "AGENT_CALL_CAP".

Definition string_param (name description : string) : list (string * MenuParam) :=
  [(name, mkMenuParam "string" description None)].

Definition KnownOptions : list MenuOption :=
  [mkMenuOption "answer" "Your reply goes to the person." [];
   mkMenuOption "consult"
     "A supervisor must approve something before you answer. Your reply tells the person you will check."
     (string_param "question" "What you ask the supervisor, with the data to decide.");
   mkMenuOption "decided" "The message decides the question: your reply tells the person the decision." [];
   mkMenuOption "wait" "The message decides nothing yet, such as a remark among supervisors: your reply is empty." [];
   mkMenuOption "answer_team" "The message asks you something: your reply goes to the team, not to the person." [];
   mkMenuOption "handover"
     "A person of the team must take the conversation. Your reply tells the person; the summary goes to the team."
     (string_param "summary"
        "What the team needs to take over: the person by name, what they want, what was done. No internal ids.");
   mkMenuOption "handback" "Hand the conversation back to the agent."
     (string_param "note" "What the agent must know: what was done and agreed.");
   mkMenuOption "done"
     "Your part is done: your reply goes to the person, and the conversation goes back to the agent that had it." []].

Definition knownOption (name : string) : option MenuOption :=
  List.find (fun o => Source.o_name o =s name) KnownOptions.

(** ** The fields of a definition as written *)

Definition actionFields : list (string * list string) :=
  [("send_message", ["target"; "meta"; "vars"; "menu"; "subject"; "payload"]);
   ("forward", ["target"; "message"; "meta"; "vars"; "menu"; "subject"]);
   ("keep_message", ["name"]);
   ("emit_internal_event", ["meta"; "payload"]);
   ("schedule_timer", ["timer_key"; "fire_in"; "fire_at"; "missed_policy"; "missed_within_ms"]);
   ("cancel_timer", ["timer_key"]);
   ("reschedule_timer", ["timer_key"; "fire_in"; "fire_at"]);
   ("set_variable", ["name"; "value"])].

Definition actionMetaFields : list (string * list string) :=
  [("send_message", ["msg"; "context"]); ("forward", ["context"]); ("emit_internal_event", ["msg"])].

Definition fieldHints : list (string * string) :=
  [("forward.name", "a forward names the kept message it sends with message");
   ("forward.payload", "a forward sends the message's payload as it was received");
   ("forward.meta.msg", "a forward keeps the message's own msg")].

Definition menuFields : list string := ["help"; "options"].
Definition menuOptionFields : list string := ["name"; "description"; "params"].
Definition menuParamFields : list string := ["type"; "description"; "enum"].

(** [fieldPath]. *)
Definition fieldPath (path name : string) : string := if str_is_empty path then name else path ++ "." ++ name.

(** [unknown], of [menuFieldErrors]. *)
Definition unknown_fields (path : string) (object : Obj) (fields : list string) (whose : string) : ValidationErrors :=
  flat_map (fun key => if existsb (fun field => EqualFold field key) fields then []
                       else [mkError (path ++ "." ++ key) ("is not a field of " ++ whose)]) (sortedKeys object).

Definition menu_option_errors (path : string) (option : Obj) : ValidationErrors :=
  let name := as_str (field_of "name" option) in
  if (1 <? length option)%nat && match knownOption name with Some _ => true | None => false end then
    [mkError path (name ++ " is a known option: write it by its name alone")]
  else
    let params := as_obj (field_of "params" option) in
    (unknown_fields path option menuOptionFields "a menu option"
     ++ flat_map (fun name => match field_of name params with
                              | JObj param => unknown_fields (path ++ ".params." ++ name) param menuParamFields "a menu param"
                              | _ => []
                              end) (sortedKeys params))%list.

Definition menuFieldErrors (path : string) (menu : Obj) : ValidationErrors :=
  (unknown_fields path menu menuFields "a menu"
   ++ each_at (fun i item => match item with
                             | JObj option => menu_option_errors (at_index (path ++ ".options") i) option
                             | _ => []
                             end) (as_arr (field_of "options" menu)))%list.

(** [notOfType], of [fieldErrors]. *)
Definition notOfType (path action_type field : string) : ValidationError :=
  mkError (path ++ "." ++ field)
    ("is not a field of " ++ action_type
     ++ match assoc (action_type ++ "." ++ field) fieldHints with Some hint => ": " ++ hint | None => "" end).

Definition known_field (field : string) : bool := existsb (fun '(_, fields) => str_mem field fields) actionFields.

(** The errors of the fields of one action, as written. *)
Definition action_field_errors (path : string) (action : Obj) : ValidationErrors :=
  let meta := as_obj (field_of "meta" action) in
  let action_type := as_str (field_of "type" action) in
  (when (has_key "target_ref" action)
     [mkError (path ++ ".target_ref") "is not part of the definition language: a WF sends to node names written in the definition, one transition per destination"]
   ++ when (has_key "thread_id_ref" action)
        [mkError (path ++ ".thread_id_ref") "is not part of the definition language: every message an instance sends carries the instance's thread, the one of the message that started it"]
   ++ when (has_key "type" meta)
        [mkError (path ++ ".meta.type") "is not part of the definition language: every message a WF sends is a user message"]
   ++ match assoc action_type actionFields with
      | None => []
      | Some fields =>
        flat_map (fun field => when (known_field field && negb (str_mem field fields)) [notOfType path action_type field])
          (sortedKeys action)
        ++ match field_of "menu" action with
           | JObj menu => when (str_mem "menu" fields) (menuFieldErrors (path ++ ".menu") menu)
           | _ => []
           end
        ++ when (str_mem "meta" fields)
             (flat_map (fun field =>
                when (((field =s "msg") || (field =s "context"))
                      && negb (str_mem field (unwrap_or [] (assoc action_type actionMetaFields))))
                  [notOfType path action_type ("meta." ++ field)]) (sortedKeys meta))
      end)%list.

(** The Go type of a level of a definition, as [reflect] gives it, with the fields of a struct by the
    names encoding/json reads them by ([jsonFields]). *)
Inductive GoType :=
| TPointer (elem : GoType)
| TSlice (elem : GoType)
| TMap (elem : GoType)
| TStruct (fields : list (string * GoType))
| TOther.

Definition event_match_type : GoType := TStruct [("msg", TOther); ("src", TOther)].
Definition action_meta_type : GoType := TStruct [("msg", TOther); ("context", TOther)].
Definition menu_param_type : GoType := TStruct [("type", TOther); ("description", TOther); ("enum", TSlice TOther)].
Definition menu_option_type : GoType :=
  TStruct [("name", TOther); ("description", TOther); ("params", TMap menu_param_type)].
Definition menu_type : GoType := TStruct [("help", TOther); ("options", TSlice menu_option_type)].
Definition action_type : GoType :=
  TStruct [("type", TOther); ("target", TOther); ("meta", TPointer action_meta_type); ("message", TOther);
           ("vars", TOther); ("menu", TPointer menu_type); ("subject", TOther); ("payload", TOther);
           ("timer_key", TOther); ("fire_in", TOther); ("fire_at", TOther); ("missed_policy", TOther);
           ("missed_within_ms", TPointer TOther); ("name", TOther); ("value", TOther); ("on_error", TOther)].
Definition transition_type : GoType :=
  TStruct [("event_match", event_match_type); ("guard", TOther); ("target_state", TOther);
           ("actions", TSlice action_type)].
Definition state_type : GoType :=
  TStruct [("name", TOther); ("description", TOther); ("entry_actions", TSlice action_type);
           ("exit_actions", TSlice action_type); ("transitions", TSlice transition_type)].
Definition definition_type : GoType :=
  TStruct [("wf_schema_version", TOther); ("workflow_type", TOther); ("description", TOther);
           ("start_from", TSlice TOther); ("input_schema", TMap TOther); ("initial_state", TOther);
           ("terminal_states", TSlice TOther); ("states", TSlice state_type); ("catch", TSlice transition_type);
           ("idle_timeout", TOther)].

Fixpoint deref (t : GoType) : GoType := match t with TPointer elem => deref elem | _ => t end.

(** The field a key is read as, and whether it is written so. *)
Definition field_read (fields : list (string * GoType)) (key : string) : option (string * GoType * bool) :=
  match assoc key fields with
  | Some t => Some (key, t, true)
  | None => option_map (fun '(name, t) => (name, t, false)) (List.find (fun '(name, _) => EqualFold name key) fields)
  end.

Fixpoint capitalErrors (path : string) (raw : JVal) (t : GoType) {struct raw} : ValidationErrors :=
  match raw, deref t with
  | JArr items, TSlice elem => each_at (fun i item => capitalErrors (at_index path i) item elem) items
  | JObj object, TMap elem =>
    in_key_order (map (fun '(key, v) => (key, capitalErrors (path ++ "." ++ key) v elem)) object)
  | JObj object, TStruct fields =>
    in_key_order (map (fun '(key, v) =>
      (key, match field_read fields key with
            | None => []
            | Some (field, t, exact) =>
              when (negb exact) [mkError (fieldPath path field) ("is written " ++ key ++ ": the field is " ++ field)]
              ++ capitalErrors (fieldPath path field) v t
            end)%list) object)
  | _, _ => []
  end.

Section Numbers.
Context {G : Type} (L : Lang G).

Fixpoint numberErrors (path : string) (raw : JVal) {struct raw} : ValidationErrors :=
  match raw with
  | JDouble text =>
    match float64 L text with
    | Some _ => []
    | None => [mkError path (text ++ " is out of range: a number must fit a double (about 1.8e308 at most)")]
    end
  | JObj object => in_key_order (map (fun '(key, v) => (key, numberErrors (fieldPath path key) v)) object)
  | JArr items => each_at (fun i item => numberErrors (at_index path i) item) items
  | _ => []
  end.

Definition checkActions (path : string) (actions : list Obj) : ValidationErrors :=
  each_at (fun i action => action_field_errors (at_index path i) action) actions.

Definition checkTransition (path : string) (t : Source.DocTransition) : ValidationErrors :=
  (when (has_key "type" (Source.dt_event_match t))
     [mkError (path ++ ".event_match.type") "is not part of the definition language: every message a WF takes is a user message, but a TIMER_FIRED, which event_match.msg names"]
   ++ checkActions (path ++ ".actions") (Source.dt_actions t))%list.

Definition fieldErrors (data : string) : ValidationErrors :=
  match read_doc L data with
  | None => []
  | Some doc =>
    let raw := read_any L data in
    (each_at (fun i state =>
       let path := at_index "states" i in
       checkActions (path ++ ".entry_actions") (Source.ds_entry_actions state)
       ++ checkActions (path ++ ".exit_actions") (Source.ds_exit_actions state)
       ++ each_at (fun j => checkTransition (at_index (path ++ ".transitions") j)) (Source.ds_transitions state))
       (Source.doc_states doc)
     ++ each_at (fun j => checkTransition (at_index "catch" j)) (Source.doc_catch doc)
     ++ capitalErrors "" raw definition_type ++ numberErrors "" raw)%list
  end.

(** ** What the load writes in a definition *)

Fixpoint normalizeNumbers (v : JVal) : JVal :=
  match v with
  | JDouble text =>
    match ParseInt text with
    | Some z => JInt z
    | None => match float64 L text with Some f => JDouble f | None => JStr text end
    end
  | JObj o => JObj (map (fun '(k, c) => (k, normalizeNumbers c)) o)
  | JArr l => JArr (map normalizeNumbers l)
  | _ => v
  end.

End Numbers.

(** ** Names *)

Definition str_all (p : ascii -> bool) (s : string) : bool := forallb p (list_ascii_of_string s).

Definition letter (a : ascii) : bool := ascii_between 65 90 a || ascii_between 97 122 a.
Definition lower_letter (a : ascii) : bool := ascii_between 97 122 a.
Definition digit (a : ascii) : bool := ascii_between 48 57 a.
Definition underscore (a : ascii) : bool := ascii_is 95 a.
Definition dot_or_dash (a : ascii) : bool := ascii_is 46 a || ascii_is 45 a.

(** A text whose first character is one of [first] and the others of [next]. *)
Definition name_of (first next : ascii -> bool) (s : string) : bool :=
  match s with
  | EmptyString => false
  | String a r => first a && str_all next r
  end.

(** [l2NamePattern]: an @ is no character of the name's own. *)
Definition l2NamePattern (s : string) : bool :=
  match split_once "@" s with
  | Some (name, hive) =>
    name_of letter (fun a => letter a || digit a || underscore a || dot_or_dash a) name
    && name_of (fun a => letter a || digit a) (fun a => letter a || digit a || dot_or_dash a) hive
  | None => false
  end.

Definition variablePattern (s : string) : bool :=
  name_of (fun a => letter a || underscore a) (fun a => letter a || digit a || underscore a) s.

Definition menuNamePattern (s : string) : bool :=
  name_of lower_letter (fun a => lower_letter a || digit a || underscore a) s && (String.length s <=? 32)%nat.

Definition menuNamePattern_text : string := "^[a-z][a-z0-9_]{0,31}$".

Definition IsValidL2Name (value : string) : bool := l2NamePattern (Prelude.trim value).

Definition IsForbiddenSystemTarget (name : string) : bool :=
  let n := go_upper (Prelude.trim name) in starts_with n "SY." || starts_with n "RT.".

Definition blank (s : string) : bool := str_is_empty (Prelude.trim s).

Definition validateNodeName (path name : string) : ValidationErrors :=
  if negb (name =s Prelude.trim name) || negb (IsValidL2Name name) then
    [mkError path ("must be a node name with its hive (e.g. " ++ dq ++ "IO.api.sales@worker1" ++ dq ++ ")")]
  else if IsForbiddenSystemTarget name then [mkError path "must not be a SY.* / RT.* system node"]
  else [].

Definition validateStarter (path name : string) : ValidationErrors :=
  match validateNodeName path name with
  | [] =>
    if IsAgent name then
      [mkError path "must not be an AI.* node: an agent only answers, and its late answer would start a new instance (a WF↔AI loop)"]
    else []
  | errs => errs
  end.

Definition validateTarget (path target : string) : ValidationErrors :=
  let wrong what := [mkError (path ++ ".target") what] in
  if blank target then wrong "must not be empty"
  else if negb (target =s Prelude.trim target) then wrong "must be a node name without spaces around it"
  else if negb (IsValidL2Name target) then wrong "must be a valid L2 name"
  else if IsForbiddenSystemTarget target then wrong "must not target a SY.* / RT.* system node"
  else [].

(** ** References *)

(** [validateRefPath]: what is wrong with a path. *)
Definition validateRefPath (path : string) : option string :=
  match splitDotPath path with
  | root :: ((_ :: _) as keys) =>
    if negb (str_mem root ["input"; "state"; "event"]) then Some "root must be input, state, or event"
    else if existsb blank keys then Some "path segments must not be empty"
    else None
  | _ => Some "must begin with input., state., or event. and include at least one field"
  end.

Definition is_ref (o : Obj) : bool := match isWorkflowRef o with Some _ => true | None => false end.

Fixpoint holdsWorkflowRef (v : JVal) : bool :=
  match v with
  | JObj o => is_ref o || existsb (fun '(_, child) => holdsWorkflowRef child) o
  | JArr l => existsb holdsWorkflowRef l
  | _ => false
  end.

(** [validateRefPayload]; the source goes over an object's keys in no order. *)
Fixpoint validateRefPayload (path : string) (v : JVal) {struct v} : ValidationErrors :=
  match v with
  | JObj o =>
    match obj_get "$ref" o with
    | Some (JStr _) | None =>
      if is_ref o then
        match asRef o with
        | None => [mkError path "a $ref holds only $ref and default"]
        | Some r =>
          match validateRefPath (ref_path r) with
          | Some e => [mkError (path ++ ".$ref") e]
          | None =>
            if match ref_default r with Some d => holdsWorkflowRef d | None => false end then
              [mkError (path ++ ".default") "a default is a literal: it holds no $ref"]
            else []
          end
        end
      else flat_map (fun '(key, child) => validateRefPayload (path ++ "." ++ key) child) o
    | Some _ => [mkError (path ++ ".$ref") "must be a string"]
    end
  | JArr l => each_at (fun i child => validateRefPayload (at_index path i) child) l
  | _ => []
  end.

(** [eachRef]: every reference a value holds, with its path. *)
Fixpoint eachRef (path : string) (v : JVal) {struct v} : list (string * Ref) :=
  match v with
  | JObj o =>
    match asRef o with
    | Some r => [(path, r)]
    | None => in_key_order (map (fun '(key, child) => (key, eachRef (path ++ "." ++ key) child)) o)
    end
  | JArr l => each_at (fun i child => eachRef (at_index path i) child) l
  | _ => []
  end.

(** ** What a definition's menus offer *)

Record menuNames := mkMenuNames { offered : gset string; params_offered : gset string }.

Definition stringLiteral (e : Expr) : option string := match e with EString s => Some s | _ => None end.

Definition op_equals : string := "_==_".
Definition op_not_equals : string := "_!=_".
Definition op_in : string := "@in".
Definition op_index : string := "_[_]".

Fixpoint readPath (e : Expr) : option (list string) :=
  match e with
  | EIdent name => Some [name]
  | ESelect operand name => option_map (fun read => read ++ [name])%list (readPath operand)
  | ECall f _ [object; key] =>
    if f =s op_index then
      match stringLiteral key, readPath object with
      | Some k, Some read => Some (read ++ [k])%list
      | _, _ => None
      end
    else None
  | _ => None
  end.

(** [celast.PreOrderVisit]: an expression and what it is made of. *)
Fixpoint preorder (e : Expr) : list Expr :=
  (e :: match e with
        | ESelect operand _ => preorder operand
        | ECall _ target args =>
          match target with Some t => preorder t | None => [] end ++ flat_map preorder args
        | EList l | EOther l => flat_map preorder l
        | _ => []
        end)%list.

(** [nameList]. *)
Definition nameList (names : gset string) (last : string) : string :=
  match List.filter (fun n => negb (n =s last)) (sortedNames names) with
  | [] => last
  | listed => String.concat ", " listed ++ " or " ++ last
  end.

Definition evaluationPath : list string := ["event"; "context"; "evaluation"].
Definition evaluationOption : list string := (evaluationPath ++ ["option"])%list.
Definition evaluationParams : list string := (evaluationPath ++ ["params"])%list.
Definition evaluationFields : list string := ["reply"; "option"; "params"].

Definition in_names (n : string) (names : gset string) : bool := bool_decide (n ∈ names).

(** [readMessage]: what is wrong with the path read, when something is. *)
Definition readMessage (names : menuNames) (read : list string) : option string :=
  if negb (bool_decide (take 3 read = evaluationPath)) then None
  else
    match drop 3 read with
    | [] => None
    | field :: rest =>
      if negb (str_mem field evaluationFields) then
        Some ("reads event.context.evaluation." ++ field ++ ", a field no agent's evaluation has: reply, option or params")
      else
        match rest with
        | param :: _ =>
          if (field =s "params") && negb (in_names param (params_offered names)) then
            Some ("reads event.context.evaluation.params." ++ param ++ ", a param no menu of the definition offers: "
                  ++ nameList (params_offered names) ReasonParam)
          else None
        | [] => None
        end
    end.

(** The first of each message. *)
Fixpoint reported_once (seen : list string) (l : list string) : list string :=
  match l with
  | [] => []
  | m :: rest => if str_mem m seen then reported_once seen rest else m :: reported_once (m :: seen) rest
  end.

Definition opt_list {A} (o : option A) : list A := match o with Some a => [a] | None => [] end.

Section Menus.
Context {G : Type} (E : Env G) (names : menuNames).

Definition option_compared (e : Expr) : list string :=
  match stringLiteral e with
  | Some name =>
    when (negb (str_is_empty name) && negb (in_names name (offered names)))
      ["compares event.context.evaluation.option with " ++ quote E name
       ++ ", an option no menu of the definition offers: " ++ nameList (offered names) NoneOption]
  | None => []
  end.

Definition reads (e : Expr) (want : list string) : bool := bool_decide (readPath e = Some want).

Definition param_unknown (param : string) : string :=
  "looks for " ++ quote E param ++ " in event.context.evaluation.params, a param no menu of the definition offers: "
  ++ nameList (params_offered names) ReasonParam.

Definition expr_messages (e : Expr) : list string :=
  (match readPath e with Some read => opt_list (readMessage names read) | None => [] end
   ++ match e with
      | ECall f _ [a; b] =>
        if (f =s op_equals) || (f =s op_not_equals) then
          when (reads a evaluationOption) (option_compared b) ++ when (reads b evaluationOption) (option_compared a)
        else if f =s op_in then
          match b with
          | EList elements => when (reads a evaluationOption) (flat_map option_compared elements)
          | _ => []
          end
          ++ match stringLiteral a with
             | Some param =>
               when (reads b evaluationParams && negb (in_names param (params_offered names)))
                 [param_unknown param]
             | None => []
             end
        else []
      | _ => []
      end)%list.

Definition exprErrors (path : string) (checked : Expr) : ValidationErrors :=
  map (mkError path) (reported_once [] (flat_map expr_messages (preorder checked))).

Definition refErrors (path : string) (a : Source.ActionDefinition) : ValidationErrors :=
  let check field v :=
    flat_map (fun '(ref_at, r) =>
      match readMessage names (splitDotPath (ref_path r)) with
      | Some m => [mkError (ref_at ++ ".$ref") m]
      | None => []
      end) (eachRef (path ++ "." ++ field) v) in
  (check "payload" (Source.a_payload a)
   ++ match Source.a_meta a with Some m => check "meta.context" (Source.am_context m) | None => [] end
   ++ check "vars" (Source.a_vars a)
   ++ check "fire_in" (Source.a_fire_in a)
   ++ check "fire_at" (Source.a_fire_at a))%list.

End Menus.

(** ** Menus, subjects and contexts *)

(** [utf8.RuneCountInString], of UTF-8: the bytes that continue no character. *)
Definition RuneCountInString (s : string) : nat :=
  length (List.filter (fun a => negb (ascii_between 128 191 a)) (list_ascii_of_string s)).

Definition maxMenuHelp : nat := 600.
Definition maxMenuDescription : nat := 200.
Definition maxMenuOptions : nat := 8.
Definition maxMenuParams : nat := 8.
Definition maxMenuEnum : nat := 20.

Definition characters_at_most (n : nat) : string := "must be " ++ pretty n ++ " characters at most".

Definition validateMenuDescription (path description : string) (required : bool) : ValidationErrors :=
  if required && blank description then [mkError path "must not be empty"]
  else if negb (str_is_empty description) && blank description then [mkError path "must not be blank"]
  else if (maxMenuDescription <? RuneCountInString description)%nat then
    [mkError path (characters_at_most maxMenuDescription)]
  else [].

Section MenuChecks.
Context {G : Type} (E : Env G).

(** The errors of the items of a list that each sees the items before it. *)
Fixpoint each_seen {A} (f : list A -> nat -> A -> ValidationErrors) (seen : list A) (l : list A) : ValidationErrors :=
  match l with
  | [] => []
  | a :: rest => f seen (length seen) a ++ each_seen f (seen ++ [a]) rest
  end%list.

Definition validateMenuEnum (path type : string) (enum : list string) : ValidationErrors :=
  ((if negb (type =s "string") then [mkError path "is only for a param of type string"]
    else if (length enum =? 0)%nat || (maxMenuEnum <? length enum)%nat then
      [mkError path ("must hold 1 to " ++ pretty maxMenuEnum ++ " values")]
    else [])
   ++ each_seen (fun taken i value =>
        if blank value then [mkError (at_index path i) "must not be empty"]
        else if str_mem value taken then
          [mkError (at_index path i) ("must be unique in its enum (" ++ quote E value ++ " is taken)")]
        else []) [] enum)%list.

Definition menu_param_errors (path : string) (name : string) (p : MenuParam) : ValidationErrors :=
  (when (negb (menuNamePattern name))
     [mkError path ("must be named with a lowercase name of 32 characters at most (" ++ menuNamePattern_text ++ ")")]
   ++ (if str_mem (Source.p_type p) ["string"; "boolean"; "integer"; "number"] then []
       else if str_is_empty (Source.p_type p) then [mkError (path ++ ".type") "is required"]
       else [mkError (path ++ ".type") "must be string, boolean, integer or number"])
   ++ validateMenuDescription (path ++ ".description") (Source.p_description p) false
   ++ match Source.p_enum p with
      | Some enum => validateMenuEnum (path ++ ".enum") (Source.p_type p) enum
      | None => []
      end)%list.

Definition menu_option_checks (menu_path : string) (named : list MenuOption) (i : nat) (o : MenuOption) : ValidationErrors :=
  let path := at_index (menu_path ++ ".options") i in
  ((if Source.o_name o =s NoneOption then
      [mkError (path ++ ".name") ("must not be " ++ dq ++ "none" ++ dq ++ ": the agent adds none to every menu")]
    else if negb (menuNamePattern (Source.o_name o)) then
      [mkError (path ++ ".name") ("must be a lowercase name of 32 characters at most (" ++ menuNamePattern_text ++ ")")]
    else if str_mem (Source.o_name o) (map Source.o_name named) then
      [mkError (path ++ ".name") ("must be unique in its menu (" ++ quote E (Source.o_name o) ++ " is taken)")]
    else [])
   ++ validateMenuDescription (path ++ ".description") (Source.o_description o) true
   ++ when (maxMenuParams <? length (Source.o_params o))%nat
        [mkError (path ++ ".params") ("must hold " ++ pretty maxMenuParams ++ " params at most")]
   ++ in_key_order (map (fun '(name, p) => (name, menu_param_errors (path ++ ".params." ++ name) name p))
                      (Source.o_params o)))%list.

Definition validateMenu (path : string) (a : Source.ActionDefinition) : ValidationErrors :=
  match Source.a_menu a with
  | None => []
  | Some menu =>
    let path := path ++ ".menu" in
    let help := Source.m_help menu in
    if negb (IsAgent (Source.a_target a)) && negb (IsIO (Source.a_target a)) then
      [mkError path "is only for an agent (AI.*) or an IO node (IO.*) target: it is what the WF offers an agent, or the people of an IO node, to choose from"]
    else
      ((if negb (str_is_empty help) && blank help then [mkError (path ++ ".help") "must not be blank"]
        else if (maxMenuHelp <? RuneCountInString help)%nat then
          [mkError (path ++ ".help") (characters_at_most maxMenuHelp)]
        else [])
       ++ when ((length (Source.m_options menu) =? 0)%nat || (maxMenuOptions <? length (Source.m_options menu))%nat)
            [mkError (path ++ ".options") ("must hold 1 to " ++ pretty maxMenuOptions ++ " options (the agent adds none)")]
       ++ each_seen (menu_option_checks path) [] (Source.m_options menu))%list
  end.

End MenuChecks.

Definition SubjectNew : string := "new".
Definition SubjectSame : string := "same".
Definition SubjectEnd : string := "end".

Definition validateSubject (path : string) (a : Source.ActionDefinition) : ValidationErrors :=
  let wrong what := [mkError (path ++ ".subject") what] in
  let subject := Source.a_subject a in
  if str_is_empty subject then []
  else if negb (str_mem subject [SubjectNew; SubjectSame; SubjectEnd]) then
    wrong ("must be " ++ dq ++ "new" ++ dq ++ ", " ++ dq ++ "same" ++ dq ++ " or " ++ dq ++ "end" ++ dq)
  else if negb (IsIO (Source.a_target a)) then
    wrong "is only for an IO node (IO.*) target: the IO node places the message by it, and an agent or a WF has no places"
  else if (subject =s SubjectEnd) && match Source.a_menu a with Some _ => true | None => false end then
    wrong "an end closes the subject's menu: a menu goes with new or same"
  else [].

Definition ContextWF : string := "wf".
Definition contextWriter : string := "writer".

(** The errors of the [meta.context] a send writes. *)
Definition context_errors (path : string) (context : JVal) : ValidationErrors :=
  (match context with
   | JObj o =>
     if is_ref o then []
     else
       when (has_key ContextWF o)
         [mkError (path ++ "." ++ ContextWF) "is the WF's own block (vars, menu and subject): the engine writes it, from the action's vars, menu and subject"]
       ++ when (has_key contextWriter o)
            [mkError (path ++ "." ++ contextWriter) "is who wrote the message's text: the engine writes it, the WF for a send_message and the message's own writer for a forward"]
       ++ when (has_key "response_envelope" o)
            [mkError (path ++ ".response_envelope") "is not part of the definition language: a WF asks an agent with menu"]
   | _ => [mkError path "must be a JSON object"]
   end ++ validateRefPayload path context)%list.

Definition validateSentContext (path : string) (a : Source.ActionDefinition) : ValidationErrors :=
  (match Source.a_meta a with
   | Some m => match Source.am_context m with JNull => [] | c => context_errors (path ++ ".meta.context") c end
   | None => []
   end
   ++ match Source.a_vars a with
      | JNull => []
      | JObj o =>
        if is_ref o then [mkError (path ++ ".vars") "must be a JSON object, its values literals or $refs"]
        else validateRefPayload (path ++ ".vars") (JObj o)
      | _ => [mkError (path ++ ".vars") "must be a JSON object, its values literals or $refs"]
      end)%list.

(** ** Timers *)

Section Timers.
Context {G : Type} (E : Env G).

(** What is wrong with a time. *)
Definition CheckFireIn (value : string) : option string :=
  match ParseWorkflowDuration E value with
  | None =>
    Some ("invalid duration " ++ quote E value
          ++ match days_of value with Some _ => ": at most " ++ pretty maxDurationDays ++ "d" | None => "" end)
  | Some d => if (d <? minTimerDuration)%Z then Some "must be at least 60s" else None
  end.

Definition CheckFireAt (value : string) : option string :=
  match parse_rfc3339 E value with Some _ => None | None => Some "must be RFC3339 UTC timestamp" end.

Definition validateTimeValue (path : string) (v : JVal) (kind : string) (check : string -> option string)
  : ValidationErrors :=
  let checked path literal := match check literal with Some e => [mkError path e] | None => [] end in
  let neither := [mkError path ("must be " ++ kind ++ " or a $ref")] in
  match v with
  | JObj o =>
    if is_ref o then
      match asRef o with
      | None => [mkError path "a $ref holds only $ref and default"]
      | Some r =>
        match validateRefPath (ref_path r) with
        | Some e => [mkError (path ++ ".$ref") e]
        | None =>
          match ref_default r with
          | None => []
          | Some (JStr literal) => checked (path ++ ".default") literal
          | Some _ => [mkError (path ++ ".default") ("must be " ++ kind)]
          end
        end
      end
    else neither
  | JStr literal => checked path literal
  | _ => neither
  end.

Definition validateTimerFireSpec (path : string) (fire_in fire_at : JVal) : ValidationErrors :=
  match IsTimeSet fire_in, IsTimeSet fire_at with
  | true, true => [mkError path "fire_in and fire_at are mutually exclusive"]
  | false, false => [mkError path "exactly one of fire_in or fire_at is required"]
  | true, false =>
    validateTimeValue (path ++ ".fire_in") fire_in ("a duration (e.g. " ++ dq ++ "5m" ++ dq ++ ")") CheckFireIn
  | false, true => validateTimeValue (path ++ ".fire_at") fire_at "an RFC3339 UTC timestamp" CheckFireAt
  end.

End Timers.

Definition validateMissedPolicy (path policy : string) (within : option Z) : ValidationErrors :=
  if str_mem policy [""; "fire"; "drop"] then
    match within with
    | Some _ => [mkError (path ++ ".missed_within_ms") "allowed only with missed_policy=fire_if_within"]
    | None => []
    end
  else if policy =s "fire_if_within" then
    match within with
    | Some n => when (n <=? 0)%Z [mkError (path ++ ".missed_within_ms") "must be > 0 when missed_policy=fire_if_within"]
    | None => [mkError (path ++ ".missed_within_ms") "must be > 0 when missed_policy=fire_if_within"]
    end
  else [mkError (path ++ ".missed_policy") "must be fire, drop, or fire_if_within"].

(** ** Actions and transitions *)

Section Validation.
Context {G : Type} (L : Lang G) (E : Env G).
Implicit Types (a : Source.ActionDefinition) (d : Source.WorkflowDefinition).

Definition meta_msg a : string := match Source.a_meta a with Some m => Source.am_msg m | None => "" end.

Definition not_empty (path value : string) : ValidationErrors := when (blank value) [mkError path "must not be empty"].

Definition identifier (path name : string) : ValidationErrors :=
  when (negb (variablePattern name)) [mkError path "must be a valid identifier"].

Definition value_errors (names : menuNames) (path : string) (v : JVal) : ValidationErrors :=
  match v with
  | JNull => [mkError path "must not be null"]
  | JStr expr =>
    if blank expr then [mkError path "must be a non-empty CEL expression string"]
    else match compileValue L expr with
         | inr e => [mkError path e]
         | inl checked => exprErrors E names path checked
         end
  | _ => [mkError path "must be a non-empty CEL expression string"]
  end.

(** The errors of an action, of its type. *)
Definition action_errors (names : menuNames) (path : string) a : ValidationErrors :=
  let sent := (validateSentContext path a ++ validateMenu E path a ++ validateSubject path a)%list in
  let type := Source.a_type a in
  (if type =s "send_message" then
     validateTarget path (Source.a_target a) ++ not_empty (path ++ ".meta.msg") (meta_msg a) ++ sent
     ++ validateRefPayload (path ++ ".payload") (Source.a_payload a)
   else if type =s "forward" then
     validateTarget path (Source.a_target a)
     ++ when (negb (str_is_empty (Source.a_message a))) (identifier (path ++ ".message") (Source.a_message a)) ++ sent
   else if type =s "keep_message" then identifier (path ++ ".name") (Source.a_name a)
   else if type =s "emit_internal_event" then
     not_empty (path ++ ".meta.msg") (meta_msg a) ++ validateRefPayload (path ++ ".payload") (Source.a_payload a)
   else if type =s "schedule_timer" then
     not_empty (path ++ ".timer_key") (Source.a_timer_key a)
     ++ validateTimerFireSpec E path (Source.a_fire_in a) (Source.a_fire_at a)
     ++ validateMissedPolicy path (Source.a_missed_policy a) (Source.a_missed_within_ms a)
   else if type =s "cancel_timer" then not_empty (path ++ ".timer_key") (Source.a_timer_key a)
   else if type =s "reschedule_timer" then
     not_empty (path ++ ".timer_key") (Source.a_timer_key a)
     ++ validateTimerFireSpec E path (Source.a_fire_in a) (Source.a_fire_at a)
   else if type =s "set_variable" then
     identifier (path ++ ".name") (Source.a_name a) ++ value_errors names (path ++ ".value") (Source.a_value a)
   else [mkError (path ++ ".type") "unknown action type"])%list.

Definition validateAction (names : menuNames) (path : string) a : ValidationErrors :=
  (when (negb (str_mem (Source.a_on_error a) [""; "continue"; "fail"]))
     [mkError (path ++ ".on_error")
        ("must be " ++ dq ++ "continue" ++ dq ++ " or " ++ dq ++ "fail" ++ dq ++ " when present")]
   ++ action_errors names path a ++ refErrors names path a)%list.

Definition validateActions (names : menuNames) (path : string) (actions : list Source.ActionDefinition)
  : ValidationErrors := each_at (fun i => validateAction names (at_index path i)) actions.

Definition catchActions : list string :=
  ["send_message"; "forward"; "keep_message"; "set_variable"; "emit_internal_event"].

Definition guard_errors (names : menuNames) (path guard : string) : ValidationErrors :=
  if blank guard then [mkError path "must not be empty"]
  else match compileGuard L guard with
       | inr e => [mkError path e]
       | inl (_, checked) => exprErrors E names path checked
       end.

Definition validateTransition (names : menuNames) (in_catch : bool) (path : string) (t : Source.TransitionDefinition)
  : ValidationErrors :=
  let em := Source.t_event_match t in
  ((if negb in_catch && blank (em_msg em) && str_is_empty (em_src em) then
      [mkError (path ++ ".event_match") "must name a msg, a src or both"]
    else when (negb (str_is_empty (em_msg em)) && blank (em_msg em))
           [mkError (path ++ ".event_match.msg") "must not be blank"])
   ++ when (negb (str_is_empty (em_src em))) (validateNodeName (path ++ ".event_match.src") (em_src em))
   ++ guard_errors names (path ++ ".guard") (Source.t_guard t)
   ++ validateActions names (path ++ ".actions") (Source.t_actions t)
   ++ when in_catch (each_at (fun k a =>
        when (has_key (Source.a_type a) actionFields && negb (str_mem (Source.a_type a) catchActions))
          [mkError (at_index (path ++ ".actions") k ++ ".type") "is a timer action, and the catch sets no timers: it goes to a state whose entry actions set them"])
        (Source.t_actions t)))%list.

(** ** Definitions *)

(** [eachAction]: every action of the definition, with its path. *)
Definition actions_at (path : string) (actions : list Source.ActionDefinition)
  : list (string * Source.ActionDefinition) := each_at (fun i a => [(at_index path i, a)]) actions.

Definition eachAction d : list (string * Source.ActionDefinition) :=
  (each_at (fun i s =>
     let path := at_index "states" i in
     actions_at (path ++ ".entry_actions") (Source.s_entry_actions s)
     ++ actions_at (path ++ ".exit_actions") (Source.s_exit_actions s)
     ++ each_at (fun j t => actions_at (at_index (path ++ ".transitions") j ++ ".actions") (Source.t_actions t))
          (Source.s_transitions s)) (Source.d_states d)
   ++ each_at (fun j t => actions_at (at_index "catch" j ++ ".actions") (Source.t_actions t)) (Source.d_catch d))%list.

Definition each_action d : list Source.ActionDefinition := map snd (eachAction d).

Definition offers a : list MenuOption :=
  match Source.a_menu a with
  | Some menu => when (str_mem (Source.a_type a) ["send_message"; "forward"]) (Source.m_options menu)
  | None => []
  end.

Definition menu_names d : menuNames :=
  let options := flat_map offers (each_action d) in
  mkMenuNames ({[NoneOption]} ∪ list_to_set (map Source.o_name options))
              ({[ReasonParam]} ∪ list_to_set (flat_map (fun o => map fst (Source.o_params o)) options)).

Definition stateIndex d : list string := List.filter (fun n => negb (blank n)) (map Source.s_name (Source.d_states d)).

Definition existing d (path name : string) : ValidationErrors :=
  when (negb (str_mem name (stateIndex d))) [mkError path "must reference an existing state"].

Definition targetErrors d (path : string) (ts : list Source.TransitionDefinition) : ValidationErrors :=
  each_at (fun j t => when (negb (str_is_empty (Source.t_target_state t)))
                        (existing d (at_index path j ++ ".target_state") (Source.t_target_state t))) ts.

Definition state_errors (names : menuNames) (before : list Source.StateDefinition) (i : nat) (s : Source.StateDefinition)
  : ValidationErrors :=
  let path := at_index "states" i in
  ((if blank (Source.s_name s) then [mkError (path ++ ".name") "must not be empty"]
    else when (str_mem (Source.s_name s) (map Source.s_name before)) [mkError (path ++ ".name") "duplicate state name"])
   ++ validateActions names (path ++ ".entry_actions") (Source.s_entry_actions s)
   ++ validateActions names (path ++ ".exit_actions") (Source.s_exit_actions s)
   ++ each_at (fun j => validateTransition names false (at_index (path ++ ".transitions") j)) (Source.s_transitions s))%list.

Definition has_type (type : string) a : bool := Source.a_type a =s type.

Definition kept_names d : list string := map Source.a_name (List.filter (has_type "keep_message") (each_action d)).

Definition MaxTimerKeys : nat := 10.

Definition timer_keys d : gset string :=
  list_to_set (map Source.a_timer_key
    (List.filter (fun a => has_type "schedule_timer" a && negb (blank (Source.a_timer_key a))) (each_action d))).

Definition timerKeyErrors d : ValidationErrors :=
  let keys := timer_keys d in
  if (size keys <=? MaxTimerKeys)%nat then []
  else [mkError "states" ("schedule " ++ pretty (size keys) ++ " timer keys (" ++ String.concat ", " (sortedNames keys)
          ++ "): a definition schedules " ++ pretty MaxTimerKeys
          ++ " at most, the timers one conversation holds at once; a logic that needs more is two WFs")].

Definition MinIdleTimeout : Z := 3600000000000.
Definition MaxIdleTimeout : Z := 7 * day.

Definition idleTimeoutErrors (value : string) : ValidationErrors :=
  if str_is_empty value then []
  else match ParseWorkflowDuration E value with
       | None => [mkError "idle_timeout" ("must be a duration (e.g. " ++ dq ++ "4d" ++ dq ++ " or " ++ dq ++ "36h" ++ dq ++ ")")]
       | Some duration =>
         when ((duration <? MinIdleTimeout) || (MaxIdleTimeout <? duration))%Z
           [mkError "idle_timeout" "must be 1h to 7d: the time a conversation stays open with no event and no timer pending"]
       end.

(** *** Events that are no node's message *)

Record eventless := mkEventless { el_on : string; el_why : string; el_keep_fix : string; el_forward_fix : string }.

(** What an action would need a message for. *)
Definition eventless_problem (w : eventless) a : option string :=
  if has_type "keep_message" a then
    Some ("a keep_message runs on " ++ el_on w ++ ", " ++ el_why w ++ " to keep" ++ el_keep_fix w)
  else if has_type "forward" a && str_is_empty (Source.a_message a) then
    Some ("a forward without message runs on " ++ el_on w ++ ", " ++ el_why w ++ " to forward" ++ el_forward_fix w)
  else None.

Definition checks_of (w : eventless) (path : string) (actions : list Source.ActionDefinition)
  : list (string * Source.ActionDefinition * eventless) := map (fun pa => (pa, w)) (actions_at path actions).

(** Each path is reported once. *)
Fixpoint run_checks (reported : list string) (l : list (string * Source.ActionDefinition * eventless)) : ValidationErrors :=
  match l with
  | [] => []
  | (path, a, w) :: rest =>
    if str_mem path reported then run_checks reported rest
    else match eventless_problem w a with
         | Some m => mkError path m :: run_checks (path :: reported) rest
         | None => run_checks reported rest
         end
  end.

(** The last state of a name ([stateAt]), with its index. *)
Definition stateAt d (name : string) : list (nat * Source.StateDefinition) :=
  opt_list (List.find (fun '(_, s) => Source.s_name s =s name)
              (rev (each_at (fun i s => [(i, s)]) (Source.d_states d)))).

Definition internal_msgs d : list string :=
  (MsgAgentCallCap :: List.filter (fun m => negb (str_is_empty m))
     (map meta_msg (List.filter (has_type "emit_internal_event") (each_action d))))%list.

Definition entry_checks d (w : eventless) (target : string) : list (string * Source.ActionDefinition * eventless) :=
  flat_map (fun '(i, s) => checks_of w (at_index "states" i ++ ".entry_actions") (Source.s_entry_actions s))
    (stateAt d target).

Definition exit_checks (w : eventless) (i : nat) (s : Source.StateDefinition) :=
  checks_of w (at_index "states" i ++ ".exit_actions") (Source.s_exit_actions s).

(** The event a state's transition takes that may be no node's message. *)
Definition eventless_on d (at_ : string) (em : EventMatch) : option string :=
  if em_msg em =s MsgTimerFired then Some ("the TIMER_FIRED of " ++ at_)
  else if negb (str_is_empty (em_src em)) || negb (str_mem (em_msg em) (internal_msgs d)) then None
  else if em_msg em =s MsgAgentCallCap then Some ("the " ++ MsgAgentCallCap ++ " of " ++ at_)
  else Some ("the internal event " ++ em_msg em ++ " of " ++ at_).

Definition transition_checks d (i : nat) (s : Source.StateDefinition) (j : nat) (t : Source.TransitionDefinition) :=
  let at_ := at_index (at_index "states" i ++ ".transitions") j in
  match eventless_on d at_ (Source.t_event_match t) with
  | None => []
  | Some on =>
    let w := mkEventless on "which is no node's message" "" ": forward a kept one" in
    (checks_of w (at_ ++ ".actions") (Source.t_actions t)
     ++ when (negb (str_is_empty (Source.t_target_state t)))
          (exit_checks w i s ++ entry_checks d w (Source.t_target_state t)))%list
  end.

Definition catch_checks d (j : nat) (t : Source.TransitionDefinition) :=
  if negb (str_is_empty (em_src (Source.t_event_match t))) then []
  else
    let w := mkEventless (at_index "catch" j ++ ", whose event_match names no src")
               "so its event may be a timer's fire or an internal event, no node's message" ": name a src"
               ": forward a kept one, or name a src" in
    (checks_of w (at_index "catch" j ++ ".actions") (Source.t_actions t)
     ++ when (negb (str_is_empty (Source.t_target_state t)))
          (each_at (fun i s => when (negb (str_mem (Source.s_name s) (Source.d_terminal_states d))) (exit_checks w i s))
             (Source.d_states d)
           ++ entry_checks d w (Source.t_target_state t)))%list.

Definition eventless_checks d : list (string * Source.ActionDefinition * eventless) :=
  (each_at (fun i s => each_at (transition_checks d i s) (Source.s_transitions s)) (Source.d_states d)
   ++ each_at (catch_checks d) (Source.d_catch d))%list.

Definition eventlessErrors d : ValidationErrors := run_checks [] (eventless_checks d).

(** *** [ValidateDefinition] *)

Definition schema_errors (schema : Obj) : ValidationErrors :=
  match schema with
  | [] => [mkError "input_schema" "must not be empty"]
  | _ => match schema_error L schema with Some e => [mkError "input_schema" e] | None => [] end
  end.

Definition ValidateDefinition d : ValidationErrors :=
  let names := menu_names d in
  (when (negb (Source.d_schema_version d =s "1")) [mkError "wf_schema_version" ("must be " ++ dq ++ "1" ++ dq)]
   ++ not_empty "workflow_type" (Source.d_workflow_type d)
   ++ when (length (Source.d_start_from d) =? 0)%nat
        [mkError "start_from" "must name the nodes whose messages start an instance"]
   ++ each_at (fun i => validateStarter (at_index "start_from" i)) (Source.d_start_from d)
   ++ schema_errors (Source.d_input_schema d)
   ++ when (length (Source.d_states d) =? 0)%nat [mkError "states" "must contain at least one state"]
   ++ each_seen (state_errors names) [] (Source.d_states d)
   ++ each_at (fun j => validateTransition names true (at_index "catch" j)) (Source.d_catch d)
   ++ existing d "initial_state" (Source.d_initial_state d)
   ++ each_at (fun i => existing d (at_index "terminal_states" i)) (Source.d_terminal_states d)
   ++ when (str_mem "failed" (stateIndex d) && negb (str_mem "failed" (Source.d_terminal_states d)))
        [mkError "states" ("a state named " ++ dq ++ "failed" ++ dq
                           ++ " is reserved as the fatal-error sink and must be listed in terminal_states")]
   ++ each_at (fun i s => targetErrors d (at_index "states" i ++ ".transitions") (Source.s_transitions s))
        (Source.d_states d)
   ++ targetErrors d "catch" (Source.d_catch d)
   ++ flat_map (fun '(path, a) =>
        when (has_type "forward" a && negb (str_is_empty (Source.a_message a))
              && negb (str_mem (Source.a_message a) (kept_names d)))
          [mkError (path ++ ".message") "must name a message a keep_message keeps"]) (eachAction d)
   ++ timerKeyErrors d
   ++ idleTimeoutErrors (Source.d_idle_timeout d)
   ++ eventlessErrors d)%list.

(** ** The load *)

(** A change of every action of a definition. *)
Definition map_transition (f : Source.ActionDefinition -> Source.ActionDefinition) (t : Source.TransitionDefinition) :=
  Source.mkTransition (Source.t_event_match t) (Source.t_guard t) (Source.t_target_state t) (map f (Source.t_actions t)).

Definition map_actions (f : Source.ActionDefinition -> Source.ActionDefinition) d : Source.WorkflowDefinition :=
  Source.mkDefinition (Source.d_schema_version d) (Source.d_workflow_type d) (Source.d_start_from d)
    (Source.d_input_schema d) (Source.d_initial_state d) (Source.d_terminal_states d)
    (map (fun s => Source.mkState (Source.s_name s) (map f (Source.s_entry_actions s)) (map f (Source.s_exit_actions s))
                     (map (map_transition f) (Source.s_transitions s))) (Source.d_states d))
    (map (map_transition f) (Source.d_catch d)) (Source.d_idle_timeout d).

Definition normalize_action a : Source.ActionDefinition :=
  let norm := normalizeNumbers L in
  Source.mkAction (Source.a_type a) (Source.a_target a)
    (option_map (fun m => Source.mkActionMeta (Source.am_msg m) (norm (Source.am_context m))) (Source.a_meta a))
    (Source.a_message a) (norm (Source.a_vars a)) (Source.a_menu a) (Source.a_subject a) (norm (Source.a_payload a))
    (Source.a_timer_key a) (norm (Source.a_fire_in a)) (norm (Source.a_fire_at a)) (Source.a_missed_policy a)
    (Source.a_missed_within_ms a) (Source.a_name a) (norm (Source.a_value a)) (Source.a_on_error a).

Definition normalizeActionNumbers d : Source.WorkflowDefinition := map_actions normalize_action d.

Definition expand_action a : Source.ActionDefinition :=
  let expand menu :=
    Source.mkMenu (Source.m_help menu)
      (map (fun o => unwrap_or o (knownOption (Source.o_name o))) (Source.m_options menu)) in
  Source.mkAction (Source.a_type a) (Source.a_target a) (Source.a_meta a) (Source.a_message a) (Source.a_vars a)
    (option_map expand (Source.a_menu a)) (Source.a_subject a) (Source.a_payload a) (Source.a_timer_key a)
    (Source.a_fire_in a) (Source.a_fire_at a) (Source.a_missed_policy a) (Source.a_missed_within_ms a) (Source.a_name a)
    (Source.a_value a) (Source.a_on_error a).

Definition expandKnownOptions d : Source.WorkflowDefinition := map_actions expand_action d.

(** Why a definition did not load: what its checks found, or that it does not decode. *)
Inductive LoadError := Refused (errs : ValidationErrors) | NotDecoded (why : string).

Definition LoadDefinitionBytes (data source : string) : Source.WorkflowDefinition + LoadError :=
  match fieldErrors L data with
  | [] =>
    match read_definition L data with
    | inr e => inr (NotDecoded (if str_is_empty source then e else source ++ ": " ++ e))
    | inl d =>
      let d := expandKnownOptions (normalizeActionNumbers d) in
      match ValidateDefinition d with
      | [] => inl d
      | errs => inr (Refused errs)
      end
    end
  | errs => inr (Refused errs)
  end.

(** ** What the engine runs of a definition

    The same definition, its actions by their types, its guards as the programs validation compiled
    into its transitions, and its menus as the JSON they are written as. *)

Definition present (v : JVal) : option JVal := match v with JNull => None | _ => Some v end.

Definition text_field (k v : string) : Obj := when (negb (str_is_empty v)) [(k, JStr v)].

Definition param_json (p : MenuParam) : JVal :=
  JObj (("type", JStr (Source.p_type p)) :: text_field "description" (Source.p_description p)
        ++ match Source.p_enum p with Some (_ :: _ as l) => [("enum", JArr (map JStr l))] | _ => [] end)%list.

Definition option_json (o : MenuOption) : JVal :=
  JObj ([("name", JStr (Source.o_name o)); ("description", JStr (Source.o_description o))]
        ++ match Source.o_params o with
           | [] => []
           | ps => [("params", JObj (map (fun '(k, p) => (k, param_json p)) ps))]
           end)%list.

Definition menu_json (m : Menu) : JVal :=
  JObj (text_field "help" (Source.m_help m) ++ [("options", JArr (map option_json (Source.m_options m)))])%list.

Definition send_spec a : SendSpec :=
  mkSendSpec (Source.a_target a)
    (match Source.a_meta a with Some m => present (Source.am_context m) | None => None end)
    (present (Source.a_vars a)) (option_map menu_json (Source.a_menu a)) (Source.a_subject a).

Definition timer_spec a : TimerSpec :=
  mkTimerSpec (Source.a_timer_key a) (Source.a_fire_in a) (Source.a_fire_at a) (Source.a_missed_policy a)
    (Source.a_missed_within_ms a).

Definition action_of a : Action :=
  let type := Source.a_type a in
  if type =s "send_message" then ASendMessage (send_spec a) (meta_msg a) (Source.a_payload a)
  else if type =s "forward" then AForward (send_spec a) (Source.a_message a)
  else if type =s "keep_message" then AKeepMessage (Source.a_name a)
  else if type =s "emit_internal_event" then AEmitInternalEvent (meta_msg a) (Source.a_payload a)
  else if type =s "schedule_timer" then AScheduleTimer (timer_spec a)
  else if type =s "cancel_timer" then ACancelTimer (Source.a_timer_key a)
  else if type =s "reschedule_timer" then ARescheduleTimer (timer_spec a)
  else if type =s "set_variable" then ASetVariable (Source.a_name a) (Source.a_value a)
  else AUnknown type.

Definition on_error_of (s : string) : OnError :=
  if s =s "continue" then OnErrorContinue else if s =s "fail" then OnErrorFail else OnErrorDefault.

Definition run_action a : ActionDefinition := mkActionDefinition (action_of a) (on_error_of (Source.a_on_error a)).

Definition run_transition (t : Source.TransitionDefinition) : TransitionDefinition G :=
  mkTransition G (Source.t_event_match t)
    (match compileGuard L (Source.t_guard t) with inl (g, _) => Some g | inr _ => None end)
    (Source.t_target_state t) (map run_action (Source.t_actions t)).

Definition run_state (s : Source.StateDefinition) : StateDefinition G :=
  mkStateDefinition G (Source.s_name s) (map run_action (Source.s_entry_actions s))
    (map run_action (Source.s_exit_actions s)) (map run_transition (Source.s_transitions s)).

Definition run_definition d : WorkflowDefinition G :=
  mkDefinition G (Source.d_workflow_type d) (Source.d_start_from d) (Source.d_initial_state d)
    (Source.d_terminal_states d) (map run_state (Source.d_states d)) (map run_transition (Source.d_catch d))
    (Source.d_idle_timeout d).

(** The definition the engine gets of a text, when it loads. *)
Definition load (data : string) : option (WorkflowDefinition G) :=
  match LoadDefinitionBytes data "" with inl d => Some (run_definition d) | inr _ => None end.

End Validation.
