(* ===== verification/WfLoaded.v ===== *)
(** * What the load of a workflow definition guarantees

    A definition that loads (WfValidate.v) has every state it names, sends to no system node, and needs
    a node's message only where the event is one; and so does what a workflow node does with it
    (WfNode.v), in every history of the node. *)

From Stdlib Require Import ZArith Lia Ascii String.
From stdpp Require Import base list strings gmap.
From S2P Require Import Prelude Protocol WfDef WfStore WfEngine WfNode WfSafety WfInvariant WfCases WfValidate.
Open Scope string_scope.

(** ** Checks that find nothing *)

Lemma when_nil {A} b (x : A) l : when b (x :: l) = [] -> b = false.
Proof. by destruct b. Qed.

Lemma when_is_nil {A} b (l : list A) : when b l = [] -> b = true -> l = [].
Proof. by intros H ->. Qed.

Lemma each_from_nil {A B} (f : nat -> A -> list B) k l :
  each_from f k l = [] <-> forall i a, l !! i = Some a -> f (k + i)%nat a = [].
Proof.
  revert k. induction l as [|x l IH]; intros k; cbn [each_from]; [split; [done|by intros]|]. rewrite app_nil, IH. split.
  - intros [Hx Hl] [|i] a; cbn; [intros [= <-]; by rewrite Nat.add_0_r|]. intros Ha. rewrite Nat.add_succ_r. by apply (Hl i).
  - intros H. split; [rewrite <- (Nat.add_0_r k); by apply (H 0%nat)|]. intros i a Ha.
    rewrite Nat.add_succ_l, <- Nat.add_succ_r. by apply (H (S i)).
Qed.

Lemma each_at_nil {A B} (f : nat -> A -> list B) l :
  each_at f l = [] <-> forall i a, l !! i = Some a -> f i a = [].
Proof. apply each_from_nil. Qed.

Lemma each_at_in {A B} (f : nat -> A -> list B) l a : each_at f l = [] -> a ∈ l -> exists i, f i a = [].
Proof. intros Hf [i Hi]%list_elem_of_lookup_1. exists i. by eapply each_at_nil. Qed.

Lemma each_from_elem {A B} (f : nat -> A -> list B) k l b :
  b ∈ each_from f k l <-> exists i a, l !! i = Some a /\ b ∈ f (k + i)%nat a.
Proof.
  revert k. induction l as [|x l IH]; intros k; cbn [each_from].
  - split; [by intros ?%elem_of_nil|]. by intros (i & a & ? & _).
  - rewrite elem_of_app, IH. split.
    + intros [H|(i & a & Ha & H)]; [exists 0%nat, x; by rewrite Nat.add_0_r|]. exists (S i), a. by rewrite Nat.add_succ_r.
    + intros ([|i] & a & Ha & H); cbn in Ha; [left; injection Ha as <-; by rewrite Nat.add_0_r in H|].
      right. exists i, a. by rewrite Nat.add_succ_l, <- Nat.add_succ_r.
Qed.

Lemma each_at_elem {A B} (f : nat -> A -> list B) l b :
  b ∈ each_at f l <-> exists i a, l !! i = Some a /\ b ∈ f i a.
Proof. apply each_from_elem. Qed.

Lemma each_seen_at {A} (f : list A -> nat -> A -> list ValidationError) seen l i a :
  each_seen f seen l = [] -> l !! i = Some a -> f (seen ++ firstn i l)%list (length seen + i)%nat a = [].
Proof.
  revert seen i. induction l as [|x l IH]; intros seen i; cbn [each_seen]; [by intros|]. rewrite app_nil. intros [Hx Hl].
  destruct i as [|i]; cbn; [intros [= <-]; by rewrite app_nil_r, Nat.add_0_r|]. intros Ha.
  specialize (IH (seen ++ [x])%list i Hl Ha). rewrite <- app_assoc, length_app in IH. cbn in IH.
  by rewrite Nat.add_succ_r, <- Nat.add_succ_l, <- Nat.add_1_r.
Qed.

Lemma flat_map_nil_in {A B} (f : A -> list B) l x : flat_map f l = [] -> x ∈ l -> f x = [].
Proof.
  induction l as [|y l IH]; cbn; [by intros _ ?%elem_of_nil|]. rewrite app_nil.
  intros [Hy Hl] [->|Hx]%elem_of_cons; [done|by apply IH].
Qed.

Lemma map_each_from {A B C} (h : B -> C) (f : nat -> A -> list B) (g : A -> list C) k l :
  (forall i x, map h (f i x) = g x) -> map h (each_from f k l) = flat_map g l.
Proof. intros H. revert k. induction l as [|x l IH]; intros k; cbn; [done|]. by rewrite map_app, H, IH. Qed.

Lemma map_each_at {A B C} (h : B -> C) (f : nat -> A -> list B) (g : A -> list C) l :
  (forall i x, map h (f i x) = g x) -> map h (each_at f l) = flat_map g l.
Proof. apply map_each_from. Qed.

Lemma flat_map_fmap {A B C D} (h : C -> D) (f : A -> B) (g : B -> list D) (g' : A -> list C) l :
  (forall x, g (f x) = map h (g' x)) -> flat_map g (map f l) = map h (flat_map g' l).
Proof. intros H. induction l as [|x l IH]; cbn; [done|]. by rewrite H, map_app, IH. Qed.

Lemma run_checks_nil reported l path a w :
  run_checks reported l = [] -> (path, a, w) ∈ l -> path ∈ reported \/ eventless_problem w a = None.
Proof.
  induction l as [|[[p x] v] l IH]; cbn [run_checks]; [by intros _ ?%elem_of_nil|].
  destruct (str_mem p reported) eqn:Ep; [|destruct (eventless_problem v x) eqn:Ev; [done|]].
  all: intros Hl [[= -> -> ->]|Ha]%elem_of_cons; [|by apply IH].
  - left. by apply str_mem_iff.
  - by right.
Qed.

Section Loaded.
Context {G : Type} (L : Lang G) (E : Env G).
Implicit Types (d : Source.WorkflowDefinition) (a : Source.ActionDefinition) (t : Source.TransitionDefinition)
  (s : Source.StateDefinition) (event : Msg).

(** What [ValidateDefinition] checked. *)
Record checked d : Prop := mk_checked {
  ck_starters : forall n, n ∈ Source.d_start_from d -> exists p, validateStarter p n = [];
  ck_states : forall i s, Source.d_states d !! i = Some s ->
    state_errors L E (menu_names d) (firstn i (Source.d_states d)) i s = [];
  ck_catch : forall t, t ∈ Source.d_catch d -> exists p, validateTransition L E (menu_names d) true p t = [];
  ck_initial : Source.d_initial_state d ∈ stateIndex d;
  ck_terminals : forall n, n ∈ Source.d_terminal_states d -> n ∈ stateIndex d;
  ck_failed : "failed" ∈ stateIndex d -> "failed" ∈ Source.d_terminal_states d;
  ck_targets : forall s t, s ∈ Source.d_states d -> t ∈ Source.s_transitions s ->
    Source.t_target_state t = "" \/ Source.t_target_state t ∈ stateIndex d;
  ck_catch_targets : forall t, t ∈ Source.d_catch d ->
    Source.t_target_state t = "" \/ Source.t_target_state t ∈ stateIndex d;
  ck_forwards : forall a, a ∈ each_action d -> Source.a_type a = "forward" ->
    Source.a_message a = "" \/ Source.a_message a ∈ kept_names d;
  ck_keys : (size (timer_keys d) <= MaxTimerKeys)%nat;
  ck_idle : idleTimeoutErrors E (Source.d_idle_timeout d) = [];
  ck_eventless : eventlessErrors d = [] }.

Lemma existing_in d path n : existing d path n = [] -> n ∈ stateIndex d.
Proof. intros H%when_nil%negb_false_iff. by apply str_mem_iff. Qed.

Lemma targets_in d path ts t : targetErrors d path ts = [] -> t ∈ ts ->
  Source.t_target_state t = "" \/ Source.t_target_state t ∈ stateIndex d.
Proof.
  intros H Ht. destruct (each_at_in _ _ _ H Ht) as [i Hi]. cbn in Hi.
  destruct (Source.t_target_state t) eqn:Et; [by left|]. right. eapply existing_in. exact Hi.
Qed.

Lemma forwards_in d a :
  flat_map (fun '(path, a) =>
    when (has_type "forward" a && negb (str_is_empty (Source.a_message a))
          && negb (str_mem (Source.a_message a) (kept_names d)))
      [mkError (path ++ ".message") "must name a message a keep_message keeps"]) (eachAction d) = [] ->
  a ∈ each_action d -> Source.a_type a = "forward" -> Source.a_message a = "" \/ Source.a_message a ∈ kept_names d.
Proof.
  intros H [[path a'] [-> Hin]]%list_elem_of_fmap Ht. cbn in Ht.
  assert (has_type "forward" a' = true) as Hf by (by apply String.eqb_eq).
  pose proof (flat_map_nil_in _ _ _ H Hin) as Hw. cbn in Hw. apply when_nil in Hw. rewrite Hf in Hw. cbn in Hw.
  apply andb_false_iff in Hw as [Hw%negb_false_iff|Hw%negb_false_iff]; [left; cbn in *; by destruct (Source.a_message a')|].
  right. by apply str_mem_iff.
Qed.

Lemma validated d : ValidateDefinition L E d = [] -> checked d.
Proof.
  unfold ValidateDefinition. rewrite !app_nil.
  intros (_ & _ & _ & H4 & _ & _ & H7 & H8 & H9 & H10 & H11 & H12 & H13 & H14 & H15 & H16 & H17). split; try done.
  - intros n Hn. destruct (each_at_in _ _ _ H4 Hn) as [i Hi]. by eauto.
  - intros i s Hs. by apply (each_seen_at _ [] _ i s).
  - intros t Ht. destruct (each_at_in _ _ _ H8 Ht) as [i Hi]. by eauto.
  - by eapply existing_in.
  - intros n Hn. destruct (each_at_in _ _ _ H10 Hn) as [i Hi]. by eapply existing_in.
  - intros Hf%str_mem_iff. apply when_nil in H11. rewrite Hf in H11. by apply negb_false_iff, str_mem_iff in H11.
  - intros s t Hs Ht. destruct (each_at_in _ _ _ H12 Hs) as [i Hi]. by eapply targets_in.
  - intros t Ht. by eapply targets_in.
  - intros a Ha Hf. by apply forwards_in.
  - unfold timerKeyErrors in H15. destruct (Nat.leb_spec (size (timer_keys d)) MaxTimerKeys); [done|]. discriminate H15.
Qed.

(** ** The actions of a definition *)

Lemma actions_at_snd path l : map snd (actions_at path l) = l.
Proof.
  unfold actions_at. rewrite (map_each_at snd _ (fun a => [a])) by done.
  induction l as [|x l IH]; cbn; [done|by rewrite IH].
Qed.

Lemma each_action_eq d :
  each_action d =
    (flat_map (fun s => Source.s_entry_actions s ++ Source.s_exit_actions s
                        ++ flat_map Source.t_actions (Source.s_transitions s)) (Source.d_states d)
     ++ flat_map Source.t_actions (Source.d_catch d))%list.
Proof.
  unfold each_action, eachAction. rewrite map_app. f_equal; apply map_each_at; intros i x; [|apply actions_at_snd].
  rewrite !map_app, !actions_at_snd. do 2 f_equal. apply map_each_at. intros j t. apply actions_at_snd.
Qed.

(** The engine's actions are the definition's. *)
Lemma run_actions_eq d : WfDef.eachAction (run_definition L d) = map run_action (each_action d).
Proof.
  rewrite each_action_eq. unfold WfDef.eachAction. cbn. rewrite map_app. f_equal; [|by apply flat_map_fmap].
  apply flat_map_fmap. intros s. cbn. rewrite !map_app. do 2 f_equal. by apply flat_map_fmap.
Qed.

Lemma transition_actions names c p t a : validateTransition L E names c p t = [] -> a ∈ Source.t_actions t ->
  exists p', validateAction L E names p' a = [].
Proof.
  unfold validateTransition. rewrite !app_nil. intros (_ & _ & _ & H & _) Ha.
  destruct (each_at_in _ _ _ H Ha) as [i Hi]. by eauto.
Qed.

Lemma state_checked d s : checked d -> s ∈ Source.d_states d ->
  blank (Source.s_name s) = false
  /\ (forall a, a ∈ Source.s_entry_actions s \/ a ∈ Source.s_exit_actions s ->
        exists p, validateAction L E (menu_names d) p a = [])
  /\ (forall t, t ∈ Source.s_transitions s -> exists p, validateTransition L E (menu_names d) false p t = []).
Proof.
  intros Hc [i Hi]%list_elem_of_lookup_1. pose proof (ck_states _ Hc i s Hi) as Hs. unfold state_errors in Hs.
  rewrite !app_nil in Hs. destruct Hs as (Hn & H1 & H2 & H3). split; [by destruct (blank (Source.s_name s))|]. split.
  - intros a [Ha|Ha]; [destruct (each_at_in _ _ _ H1 Ha)|destruct (each_at_in _ _ _ H2 Ha)]; by eauto.
  - intros t Ht. destruct (each_at_in _ _ _ H3 Ht). by eauto.
Qed.

Lemma action_checked d a : checked d -> a ∈ each_action d -> exists p, validateAction L E (menu_names d) p a = [].
Proof.
  intros Hc. rewrite each_action_eq, elem_of_app, !list_elem_of_In, !in_flat_map.
  intros [(s & Hs%list_elem_of_In & Ha%list_elem_of_In)|(t & Ht%list_elem_of_In & Ha%list_elem_of_In)].
  - destruct (state_checked d s Hc Hs) as (_ & Hact & Htr). rewrite !elem_of_app, (list_elem_of_In (flat_map _ _)), in_flat_map in Ha.
    destruct Ha as [Ha|[Ha|(t & Ht%list_elem_of_In & Ha%list_elem_of_In)]]; [apply Hact; by left|apply Hact; by right|].
    destruct (Htr t Ht) as [p Hp]. by eapply transition_actions.
  - destruct (ck_catch _ Hc t Ht) as [p Hp]. by eapply transition_actions.
Qed.

(** ** Targets *)

(** A node's name with its hive, as a router stamps it, of no system node. *)
Definition open_name (n : string) : Prop :=
  n = Prelude.trim n /\ IsValidL2Name n = true /\ IsForbiddenSystemTarget n = false.

Lemma validateTarget_ok p n : validateTarget p n = [] -> open_name n.
Proof.
  unfold validateTarget, open_name. destruct (blank n); [done|].
  destruct (String.eqb_spec n (Prelude.trim n)); [|done]. destruct (IsValidL2Name n); [|done].
  by destruct (IsForbiddenSystemTarget n).
Qed.

Lemma validateNodeName_ok p n : validateNodeName p n = [] -> open_name n.
Proof.
  unfold validateNodeName, open_name. destruct (String.eqb_spec n (Prelude.trim n)); [|done].
  destruct (IsValidL2Name n); [|done]. by destruct (IsForbiddenSystemTarget n).
Qed.

Lemma validateStarter_ok p n : validateStarter p n = [] -> open_name n /\ IsAgent n = false.
Proof.
  unfold validateStarter. destruct (validateNodeName p n) eqn:Hn; [|done]. destruct (IsAgent n); [done|].
  split; [by eapply validateNodeName_ok|done].
Qed.

(** The engine's action, and the check of its source. *)
Lemma run_action_checked d x : checked d -> x ∈ WfDef.eachAction (run_definition L d) ->
  exists a p, x = run_action a /\ a ∈ each_action d /\ action_errors L E (menu_names d) p a = [].
Proof.
  intros Hc. rewrite run_actions_eq. intros (a & -> & Ha)%list_elem_of_fmap. destruct (action_checked d a Hc Ha) as [p Hp].
  unfold validateAction in Hp. rewrite !app_nil in Hp. exists a, p. by destruct Hp as (_ & ? & _).
Qed.

Lemma target_open d x n : checked d -> x ∈ WfDef.eachAction (run_definition L d) -> send_target x = Some n -> open_name n.
Proof.
  intros Hc (a & p & -> & _ & Hp)%run_action_checked Hn; [|done]. unfold action_errors in Hp.
  unfold send_target, run_action, action_of in Hn. cbn [act] in Hn.
  repeat case_match; simplify_eq; rewrite !app_nil in Hp; by eapply validateTarget_ok, Hp.
Qed.

(** ** States *)

Lemma load_checked data def : load L E data = Some def -> exists d, checked d /\ def = run_definition L d.
Proof.
  unfold load, LoadDefinitionBytes. destruct (fieldErrors L data); [|done].
  destruct (read_definition L data) as [d|]; [|done]. set (d' := expandKnownOptions _).
  destruct (ValidateDefinition L E d') eqn:Hv; [|done]. intros [= <-]. exists d'. split; [by apply validated|done].
Qed.

Lemma findState_run d name st : findState (run_definition L d) name = Some st ->
  exists i s, Source.d_states d !! i = Some s /\ st = run_state L s /\ Source.s_name s = name.
Proof.
  intros [Hin Hn]%find_some. apply in_map_iff in Hin as (s & <- & [i Hi]%list_elem_of_In%list_elem_of_lookup_1).
  exists i, s. split; [done|]. split; [done|]. by apply String.eqb_eq in Hn.
Qed.

Lemma stateIndex_found d name : name ∈ stateIndex d -> is_Some (findState (run_definition L d) name).
Proof.
  unfold stateIndex. rewrite list_elem_of_In, filter_In, in_map_iff. intros [(s & Hs & Hin) _].
  unfold findState. destruct (List.find _ _) eqn:Hf; [by eauto|]. exfalso.
  pose proof (find_none _ _ Hf (run_state L s) (in_map _ _ _ Hin)) as Hx. cbn in Hx. by rewrite Hs, String.eqb_refl in Hx.
Qed.

(** A transition of the definition goes nowhere, or to a state it has. *)
Lemma targets_found d name from (x : TransitionDefinition G) :
  checked d -> findState (run_definition L d) name = Some from ->
  x ∈ transitions from \/ x ∈ catch (run_definition L d) ->
  target_state x = "" \/ is_Some (findState (run_definition L d) (target_state x)).
Proof.
  intros Hc (i & s & Hs%list_elem_of_lookup_2 & -> & _)%findState_run Hx.
  destruct Hx as [(t & -> & Ht)%list_elem_of_fmap|(t & -> & Ht)%list_elem_of_fmap]; cbn [run_transition target_state].
  - destruct (ck_targets _ Hc s t Hs Ht); [by left|right; by apply stateIndex_found].
  - destruct (ck_catch_targets _ Hc t Ht); [by left|right; by apply stateIndex_found].
Qed.

Lemma names_unique d i j s s' : checked d -> Source.d_states d !! i = Some s -> Source.d_states d !! j = Some s' ->
  Source.s_name s = Source.s_name s' -> i = j.
Proof.
  intros Hc. revert i j s s'.
  assert (forall i j s s', Source.d_states d !! i = Some s -> Source.d_states d !! j = Some s' ->
    Source.s_name s = Source.s_name s' -> ~ (i < j)%nat) as Hlt.
  { intros i j s s' Hi Hj Hn Hij. pose proof (ck_states _ Hc j s' Hj) as He. unfold state_errors in He.
    rewrite !app_nil in He. destruct He as (He & _). destruct (blank (Source.s_name s')); [done|].
    apply when_nil, str_mem_false in He. apply He. rewrite <- Hn. apply list_elem_of_fmap_2.
    apply (list_elem_of_lookup_2 _ i). by rewrite lookup_take_lt. }
  intros i j s s' Hi Hj Hn. pose proof (Hlt i j s s' Hi Hj Hn). pose proof (Hlt j i s' s Hj Hi (eq_sym Hn)). lia.
Qed.

Lemma stateAt_found d i s : checked d -> Source.d_states d !! i = Some s -> (i, s) ∈ stateAt d (Source.s_name s).
Proof.
  intros Hc Hi. unfold stateAt. set (l := rev _).
  assert (forall j x, (j, x) ∈ l <-> Source.d_states d !! j = Some x) as Hl.
  { intros j x. unfold l. rewrite list_elem_of_In, <- in_rev, <- list_elem_of_In, each_at_elem. split.
    - intros (k & y & Hy & H). apply elem_of_cons in H as [[= -> ->]|?%elem_of_nil]; done.
    - intros Hx. exists j, x. split; [done|left]. }
  destruct (List.find _ l) as [[j x]|] eqn:Hf; cbn.
  - apply find_some in Hf as [Hin%list_elem_of_In%Hl Hn%String.eqb_eq].
    assert (j = i) as -> by (by eapply names_unique). simplify_eq. left.
  - exfalso. apply Hl, list_elem_of_In in Hi. apply (find_none _ _ Hf) in Hi. by rewrite String.eqb_refl in Hi.
Qed.

(** ** Events that are no node's message *)

(** The actions that work on the event's message. *)
Definition needs_message (x : Action) : bool :=
  match x with
  | AKeepMessage _ => true
  | AForward _ name => str_is_empty name
  | _ => false
  end.

Definition need_none (l : list ActionDefinition) : Prop := forall x, x ∈ l -> needs_message (act x) = false.

Lemma problem_needs w a : eventless_problem w a = None -> needs_message (act (run_action a)) = false.
Proof.
  unfold eventless_problem, has_type, run_action, action_of. cbn [act].
  destruct (String.eqb_spec (Source.a_type a) "keep_message") as [->|_]; [done|].
  destruct (Source.a_type a =s "forward"); cbn.
  - destruct (str_is_empty (Source.a_message a)) eqn:He; [done|]. intros _. by case_match.
  - intros _. by repeat case_match.
Qed.

(** Every check of [eventlessErrors] that was made found nothing. *)
Lemma checks_need_none d w path l : (forall x, x ∈ checks_of w path l -> x ∈ eventless_checks d) ->
  checked d -> need_none (map run_action l).
Proof.
  intros Hsub Hc x (a & -> & Ha)%list_elem_of_fmap. apply list_elem_of_lookup_1 in Ha as [k Hk].
  destruct (run_checks_nil [] _ (at_index path k) a w (ck_eventless _ Hc)) as [?%elem_of_nil|Hp]; [|done|by eapply problem_needs].
  apply Hsub. unfold checks_of. apply list_elem_of_fmap. exists (at_index path k, a). split; [done|].
  apply each_at_elem. exists k, a. split; [done|left].
Qed.

(** The exit, own and entry actions of a transition, when it takes an event. *)
Definition actions_run (from : StateDefinition G) (x : TransitionDefinition G) (to : option (StateDefinition G))
  : list ActionDefinition :=
  (t_actions x ++ match to with Some st => exit_actions from ++ entry_actions st | None => [] end)%list.

Lemma need_none_app l1 l2 : need_none l1 -> need_none l2 -> need_none (l1 ++ l2).
Proof. intros H1 H2 x [H|H]%elem_of_app; auto. Qed.

(** The state a transition goes to, as the engine finds it. *)
Definition goes_to (def : WorkflowDefinition G) (x : TransitionDefinition G) : option (StateDefinition G) :=
  if str_is_empty (target_state x) then None else findState def (target_state x).

Lemma entry_need_none d w t st : checked d -> goes_to (run_definition L d) (run_transition L t) = Some st ->
  (forall x, x ∈ entry_checks d w (Source.t_target_state t) -> x ∈ eventless_checks d) -> need_none (entry_actions st).
Proof.
  intros Hc Hg Hsub. unfold goes_to in Hg. cbn in Hg. destruct (str_is_empty (Source.t_target_state t)); [done|].
  apply findState_run in Hg as (i & s & Hi & -> & Hn). cbn.
  eapply (checks_need_none d w (at_index "states" i ++ ".entry_actions")); [|done]. intros x Hx. apply Hsub.
  unfold entry_checks. rewrite list_elem_of_In, in_flat_map. exists (i, s). rewrite <- Hn.
  split; [by apply list_elem_of_In, stateAt_found|by apply list_elem_of_In].
Qed.

(** What a state's transition that may take such an event runs. *)
Lemma state_transition_needs_none d i s j t on : checked d ->
  Source.d_states d !! i = Some s -> Source.s_transitions s !! j = Some t ->
  eventless_on d (at_index (at_index "states" i ++ ".transitions") j) (Source.t_event_match t) = Some on ->
  need_none (actions_run (run_state L s) (run_transition L t) (goes_to (run_definition L d) (run_transition L t))).
Proof.
  intros Hc Hi Hj Hon. set (w := mkEventless on "which is no node's message" "" ": forward a kept one").
  assert (forall x, x ∈ transition_checks d i s j t -> x ∈ eventless_checks d) as Hsub.
  { intros x Hx. apply elem_of_app. left. apply each_at_elem. exists i, s. split; [done|]. apply each_at_elem. by exists j, t. }
  unfold transition_checks in Hsub. rewrite Hon in Hsub. fold w in Hsub.
  apply need_none_app.
  - eapply (checks_need_none d w); [|done]. intros x Hx. apply Hsub, elem_of_app. by left.
  - destruct (goes_to _ _) as [st|] eqn:Hg; [|by intros ? ?%elem_of_nil].
    assert (str_is_empty (Source.t_target_state t) = false) as He.
    { unfold goes_to in Hg. cbn in Hg. by destruct (str_is_empty _). }
    rewrite He in Hsub. cbn [negb when] in Hsub. apply need_none_app.
    + eapply (checks_need_none d w); [|done]. intros x Hx. apply Hsub. rewrite !elem_of_app. right. by left.
    + eapply (entry_need_none d w); [done|done|]. intros x Hx. apply Hsub. rewrite !elem_of_app. right. by right.
Qed.

(** What a catch transition that names no sender runs. *)
Lemma catch_needs_none d i s j t : checked d -> Source.d_states d !! i = Some s -> Source.d_catch d !! j = Some t ->
  em_src (Source.t_event_match t) = "" -> str_mem (Source.s_name s) (Source.d_terminal_states d) = false ->
  need_none (actions_run (run_state L s) (run_transition L t) (goes_to (run_definition L d) (run_transition L t))).
Proof.
  intros Hc Hi Hj Hsrc Hterm.
  assert (forall x, x ∈ catch_checks d j t -> x ∈ eventless_checks d) as Hsub.
  { intros x Hx. apply elem_of_app. right. apply each_at_elem. by exists j, t. }
  unfold catch_checks in Hsub. rewrite Hsrc in Hsub. cbn [str_is_empty negb] in Hsub. set (w := mkEventless _ _ _ _) in Hsub.
  apply need_none_app.
  - eapply (checks_need_none d w); [|done]. intros x Hx. apply Hsub, elem_of_app. by left.
  - destruct (goes_to _ _) as [st|] eqn:Hg; [|by intros ? ?%elem_of_nil].
    assert (str_is_empty (Source.t_target_state t) = false) as He.
    { unfold goes_to in Hg. cbn in Hg. by destruct (str_is_empty _). }
    rewrite He in Hsub. cbn [negb when] in Hsub. apply need_none_app.
    + eapply (checks_need_none d w (at_index "states" i ++ ".exit_actions")); [|done].
      intros x Hx. apply Hsub. rewrite !elem_of_app. right. left. apply each_at_elem. exists i, s. split; [done|]. by rewrite Hterm.
    + eapply (entry_need_none d w); [done|done|]. intros x Hx. apply Hsub. rewrite !elem_of_app. right. by right.
Qed.

(** An event that is no node's message: a timer's fire, which only SY.timer sends, or an internal
    event, which has no sender and the name of one the definition emits, or of the cap's. *)
Definition senderless (def : WorkflowDefinition G) (event : Msg) : Prop :=
  (rawMsgName event = MsgTimerFired /\ IsForbiddenSystemTarget (sourceL2Name event) = true)
  \/ (sourceL2Name event = ""
      /\ (rawMsgName event = MsgAgentCallCap
          \/ exists x body, x ∈ WfDef.eachAction def /\ act x = AEmitInternalEvent (rawMsgName event) body)).

Lemma system_forbidden r : IsForbiddenSystemTarget ("SY." ++ r) = true.
Proof.
  unfold IsForbiddenSystemTarget, Prelude.trim. rewrite trim_start_id by done.
  change ("SY." ++ r) with ("SY" ++ String "." r). rewrite trim_end_after by done.
  destruct (trim_end r) as [|c s]; [reflexivity|].
  change (go_upper ("SY" ++ String "." (String c s))) with ("SY." ++ go_upper (String c s)).
  by destruct (go_upper (String c s)).
Qed.

(** The fires the node takes ([takeTimerFired]) are such events. *)
Lemma fire_senderless def event : rawMsgName event = MsgTimerFired -> sourceL2Name event <> "" ->
  sourceL2Name event = timerAuthority (node_name E) -> senderless def event.
Proof.
  intros Hn Hne Hs. left. split; [done|]. rewrite Hs in *. unfold timerAuthority, hive_service in *.
  destruct (str_is_empty _); [done|]. apply system_forbidden.
Qed.

(** So are the internal events of the definition's own actions. *)
Lemma internal_senderless def event x body row thread : x ∈ WfDef.eachAction def ->
  act x = AEmitInternalEvent (ie_msg_name row) body -> buildInternalEventMessage E row thread = Some event ->
  senderless def event.
Proof.
  unfold buildInternalEventMessage. intros Hx Hact Hb. destruct (decode E _); [|done]. injection Hb as <-. right.
  split; [done|]. right. by exists x, body.
Qed.

(** No sender a definition names is such an event's. *)
Lemma senderless_src def event names c p t : senderless def event -> validateTransition L E names c p t = [] ->
  em_src (Source.t_event_match t) <> "" -> sourceL2Name event <> em_src (Source.t_event_match t).
Proof.
  intros Hs Hv Hne Heq. unfold validateTransition in Hv. rewrite !app_nil in Hv. destruct Hv as (_ & Hv & _).
  destruct (em_src (Source.t_event_match t)) as [|c' r] eqn:He; [done|].
  apply validateNodeName_ok in Hv as (_ & _ & Hf). destruct Hs as [[_ Hs]|[Hs _]]; [|congruence]. by rewrite Heq, Hf in Hs.
Qed.

Lemma internal_msgs_in d event : senderless (run_definition L d) event -> rawMsgName event <> "" ->
  rawMsgName event = MsgTimerFired \/ rawMsgName event ∈ internal_msgs d.
Proof.
  intros [[H _]|[_ [H|(x & body & Hx & Hact)]]] Hne; [by left|right; rewrite H; by left|right].
  rewrite run_actions_eq in Hx. apply list_elem_of_fmap in Hx as (a & -> & Ha). right.
  unfold run_action, action_of in Hact. cbn [act] in Hact. apply list_elem_of_In, filter_In.
  destruct (String.eqb_spec (Source.a_type a) "emit_internal_event") as [Ht|]; [|by repeat case_match].
  rewrite Ht in Hact. cbn in Hact. injection Hact as Hm _. split; [|by destruct (rawMsgName event)].
  rewrite <- Hm. apply in_map, filter_In. split; [by apply list_elem_of_In|]. by apply String.eqb_eq.
Qed.

Lemma matches_msg em event : matchesEvent em event = true -> em_msg em <> "" ->
  rawMsgName event = em_msg em /\ (em_src em = "" \/ sourceL2Name event = em_src em).
Proof.
  unfold matchesEvent. intros H Hne. destruct (str_is_empty (Prelude.trim (em_msg em)) && str_is_empty (em_src em)); [done|].
  destruct (str_is_empty (em_msg em)) eqn:He; [by destruct (em_msg em)|]. cbn in H.
  unfold rawMsgName, opt_str_is in *. destruct (msg (meta event)) as [n|]; [|done]. cbn.
  destruct (String.eqb_spec n (em_msg em)) as [Hn|]; [|done]. split; [done|]. cbn in H.
  apply orb_true_iff in H as [H|H]; [left; by destruct (em_src em)|right; by apply String.eqb_eq].
Qed.

Lemma matches_src em event : matchesEvent em event = true -> em_src em = "" \/ sourceL2Name event = em_src em.
Proof.
  unfold matchesEvent. repeat case_match; try done. intros [Hx|Hx]%orb_true_iff; [left; by destruct (em_src em)|right].
  by apply String.eqb_eq.
Qed.

(** A state's transition takes an event that is no node's message only where the load looked. *)
Lemma senderless_matched d at_ names p t event : senderless (run_definition L d) event ->
  validateTransition L E names false p t = [] -> matchesEvent (Source.t_event_match t) event = true ->
  is_Some (eventless_on d at_ (Source.t_event_match t)).
Proof.
  intros Hs Hv Hm. pose proof (senderless_src _ _ _ _ _ _ Hs Hv) as Hsrc.
  assert (em_src (Source.t_event_match t) = "") as He.
  { destruct (matches_src _ _ Hm) as [H|H]; [done|]. destruct (em_src (Source.t_event_match t)) eqn:Ee; [done|].
    by destruct (Hsrc ltac:(done)). }
  assert (em_msg (Source.t_event_match t) <> "") as Hne.
  { unfold validateTransition in Hv. rewrite !app_nil in Hv. destruct Hv as (Hv & _). rewrite He in Hv.
    intros H. rewrite H in Hv. done. }
  destruct (matches_msg _ _ Hm Hne) as [Hn _]. unfold eventless_on. rewrite He. cbn [str_is_empty negb orb].
  destruct (String.eqb_spec (em_msg (Source.t_event_match t)) MsgTimerFired) as [|Hnt]; [done|].
  destruct (internal_msgs_in d event Hs) as [Ht|Ht]; [congruence|congruence|]. rewrite Hn in Ht.
  apply str_mem_iff in Ht. rewrite Ht. cbn. by case_match.
Qed.

(** In a definition that loads, no transition that takes an event that is no node's message (a
    timer's fire, or an internal event) keeps the event's message or forwards it, in its own actions,
    in the exit actions of the state it leaves or in the entry actions of the one it goes to: those
    would fail the instance. *)
Theorem senderless_events_need_no_message data def i name from event x :
  load L E data = Some def -> senderless def event ->
  findState def name = Some from -> isTerminalState def name = false ->
  chooseTransition E i (transitions from) event matchesEvent = Some x
  \/ chooseTransition E i (catch def) event catchMatches = Some x ->
  need_none (actions_run from x (goes_to def x)).
Proof.
  intros (d & Hc & ->)%load_checked Hs (k & s & Hk & -> & Hn)%findState_run Hterm [Hx|Hx]; apply find_some in Hx as [Hin Hx];
    apply andb_true_iff in Hx as [Hm _]; apply list_elem_of_In, list_elem_of_fmap in Hin as (t & -> & [j Hj]%list_elem_of_lookup_1).
  - destruct (state_checked d s Hc (list_elem_of_lookup_2 _ _ _ Hk)) as (_ & _ & Hv).
    destruct (Hv t (list_elem_of_lookup_2 _ _ _ Hj)) as [p Hp].
    destruct (senderless_matched d (at_index (at_index "states" k ++ ".transitions") j) _ p t event Hs Hp Hm) as [on Hon].
    by eapply state_transition_needs_none.
  - destruct (ck_catch _ Hc t (list_elem_of_lookup_2 _ _ _ Hj)) as [p Hp].
    apply (catch_needs_none d k s j t); [done|done|done| |by rewrite Hn].
    pose proof (senderless_src _ _ _ _ _ _ Hs Hp) as Hsrc. cbn in Hm. unfold catchMatches in Hm.
    destruct (em_src (Source.t_event_match t)) eqn:Ee; [done|]. exfalso.
    rewrite andb_false_r in Hm. destruct (matches_src _ _ Hm) as [H|H]; rewrite Ee in H; [done|]. by apply Hsrc.
Qed.

(** ** Times *)

(** The keys of the timers an instance of the definition may have. *)
Definition scheduled_keys (def : WorkflowDefinition G) : gset string :=
  list_to_set (omap (fun x => match act x with AScheduleTimer ts => Some (ts_key ts) | _ => None end) (WfDef.eachAction def)).

Lemma scheduled_keys_sub d : checked d -> scheduled_keys (run_definition L d) ⊆ timer_keys d.
Proof.
  intros Hc key. unfold scheduled_keys, timer_keys. rewrite !elem_of_list_to_set, list_elem_of_omap.
  intros (x & (a & p & -> & Ha & Hp)%run_action_checked & Hk); [|done].
  unfold action_errors in Hp. unfold run_action, action_of in Hk. cbn [act] in Hk. repeat case_match; simplify_eq.
  rewrite !app_nil in Hp. destruct Hp as (Hp%when_nil & _). cbn. apply list_elem_of_fmap_2, list_elem_of_In, filter_In.
  split; [by apply list_elem_of_In|]. unfold has_type. rewrite Hp.
  by match goal with H : (Source.a_type a =s "schedule_timer") = true |- _ => rewrite H end.
Qed.

(** A time written in the definition is one the engine takes, a minute ahead at least. *)
Definition literal_time_taken (ts : TimerSpec) : Prop :=
  forall literal, ts_fire_in ts = JStr literal -> IsTimeSet (ts_fire_in ts) = true ->
    exists dur, (minTimerDuration <= dur)%Z /\ forall i event now, timerTime E ts i event now = Some ((now + dur)%Z, dur).

Lemma fire_spec_ok p ts : validateTimerFireSpec E p (ts_fire_in ts) (ts_fire_at ts) = [] -> literal_time_taken ts.
Proof.
  unfold validateTimerFireSpec. intros Hv literal Hl Hset. rewrite Hset in Hv. rewrite Hl in Hv.
  unfold timerTime. destruct (IsTimeSet (ts_fire_at ts)); [done|]. rewrite Hl. cbn in Hv |- *. unfold CheckFireIn in Hv.
  destruct (ParseWorkflowDuration E literal) as [dur|]; [|done].
  destruct (Z.ltb_spec dur minTimerDuration) as [|Hd]; [done|]. exists dur. split; [done|].
  intros i event now. by destruct (Z.ltb_spec dur minTimerDuration); [lia|].
Qed.

(** The policy a timer is scheduled with is one the engine accepts. *)
Definition missed_policy_taken (ts : TimerSpec) : Prop :=
  validTimerMissedPolicy (if str_is_empty (ts_missed_policy ts) then "fire" else ts_missed_policy ts)
    (ts_missed_within ts) = true.

Lemma missed_policy_ok p policy within : validateMissedPolicy p policy within = [] ->
  validTimerMissedPolicy (if str_is_empty policy then "fire" else policy) within = true.
Proof.
  unfold validateMissedPolicy, validTimerMissedPolicy. destruct policy as [|c r]; [by destruct within|]. cbn [str_is_empty].
  set (policy := String c r). cbn [str_mem existsb]. rewrite (String.eqb_sym "fire"), (String.eqb_sym "drop").
  destruct (policy =s "fire"), (policy =s "drop"); cbn [orb]; try by destruct within.
  change ("" =s policy) with false. cbn [orb str_is_empty]. destruct (policy =s "fire_if_within"); [|done].
  destruct within as [n|]; [|done]. intros H%when_nil. cbn. apply Z.ltb_lt. apply Z.leb_gt in H. lia.
Qed.

(** In a definition that loads, a conversation has ten timers at most; a timer's policy for a missed
    fire is one the engine accepts, and a duration written in it is one the engine takes, a minute at
    least; and a quiet conversation is closed after an hour at least and seven days at most. *)
Theorem loaded_times_in_bounds data def : load L E data = Some def ->
  (size (scheduled_keys def) <= 10)%nat
  /\ (forall x ts, x ∈ WfDef.eachAction def -> act x = AScheduleTimer ts ->
        literal_time_taken ts /\ missed_policy_taken ts)
  /\ (forall x ts, x ∈ WfDef.eachAction def -> act x = ARescheduleTimer ts -> literal_time_taken ts)
  /\ (3600000000000 <= (IdleAfter E def).1 <= 604800000000000)%Z.
Proof.
  intros (d & Hc & ->)%load_checked. split; [|split; [|split]].
  - etrans; [apply subseteq_size, scheduled_keys_sub; done|apply (ck_keys _ Hc)].
  - intros x ts (a & p & -> & _ & Hp)%run_action_checked Hact; [|done]. unfold action_errors in Hp.
    unfold run_action, action_of in Hact. cbn [act] in Hact. repeat case_match; simplify_eq.
    rewrite !app_nil in Hp. split; [by eapply fire_spec_ok, Hp|]. eapply (missed_policy_ok p), Hp.
  - intros x ts (a & p & -> & _ & Hp)%run_action_checked Hact; [|done]. unfold action_errors in Hp.
    unfold run_action, action_of in Hact. cbn [act] in Hact. repeat case_match; simplify_eq.
    rewrite !app_nil in Hp. by eapply fire_spec_ok, Hp.
  - pose proof (ck_idle _ Hc) as Hi. unfold idleTimeoutErrors in Hi. unfold IdleAfter. cbn [run_definition idle_timeout].
    destruct (str_is_empty (Source.d_idle_timeout d)); [by vm_compute|].
    destruct (ParseWorkflowDuration E (Source.d_idle_timeout d)) as [dur|]; [|done]. apply when_nil, orb_false_iff in Hi as [H1 H2].
    apply Z.ltb_ge in H1, H2. unfold MinIdleTimeout, MaxIdleTimeout, day in *. cbn. lia.
Qed.

(** ** Every node that is reached *)

Section Reached.

(** The node loads its definitions as this library does. *)
Hypothesis loads : forall bytes, load_definition E bytes = load L E bytes.

(** No two UUIDs are the same (github.com/google/uuid, [NewString]). *)
Hypothesis uuid_unique : forall n k, uuid E n = uuid E k -> n = k.

Lemma loaded_checked def : loaded E def -> exists d, checked d /\ def = run_definition L d.
Proof. intros [bytes Hl]. rewrite loads in Hl. by eapply load_checked. Qed.

Lemma reached_def w id i : reachable_node E (Up w) -> by_id w !! id = Some i -> instance_ok E i.
Proof. intros Hn Hi. by destruct (in_live _ _ (reachable_ok E uuid_unique _ Hn) id i Hi) as (_ & ? & _). Qed.

Lemma starts_open d name : checked d -> StartsFrom (run_definition L d) name = true ->
  open_name name /\ IsAgent name = false.
Proof.
  intros Hc [_ Hn%str_mem_iff]%andb_true_iff. destruct (ck_starters _ Hc name Hn) as [p Hp]. by eapply validateStarter_ok.
Qed.

Lemma match_src_open names c p t name : validateTransition L E names c p t = [] -> name <> "" ->
  em_src (Source.t_event_match t) = name -> open_name name.
Proof.
  intros Hv Hne Hs. unfold validateTransition in Hv. rewrite !app_nil in Hv. destruct Hv as (_ & Hv & _). rewrite Hs in Hv.
  destruct name; [done|]. eapply validateNodeName_ok. exact Hv.
Qed.

Lemma involves_open d name : checked d -> Involves (run_definition L d) name = true -> open_name name.
Proof.
  intros Hc [H|[Hne H]%andb_true_iff]%orb_true_iff; [by apply (starts_open d)|].
  assert (name <> "") as Hn by (by intros ->). apply orb_true_iff in H as [[H|H]%orb_true_iff|H].
  - apply existsb_exists in H as (x & (s & <- & Hs%list_elem_of_In)%in_map_iff & H).
    apply existsb_exists in H as (y & (t & <- & Ht%list_elem_of_In)%in_map_iff & H%String.eqb_eq).
    destruct (proj2 (proj2 (state_checked d s Hc Hs)) t Ht) as [p Hp]. by eapply match_src_open.
  - apply existsb_exists in H as (y & (t & <- & Ht%list_elem_of_In)%in_map_iff & H%String.eqb_eq).
    destruct (ck_catch _ Hc t Ht) as [p Hp]. by eapply match_src_open.
  - apply existsb_exists in H as (x & Hx%list_elem_of_In & H). unfold opt_str_is in H.
    destruct (send_target x) as [n|] eqn:Et; [|done]. apply String.eqb_eq in H as ->. by eapply target_open.
Qed.


(** C18. Over every history of a workflow node, an instance it runs is in a state of its definition, and
    every transition of that state, or of the catch, stays in it or goes to a state of the definition;
    and the definition of the node has its initial state, so a creation finds it. *)
Theorem workflow_states_known w : reachable_node E (Up w) ->
  is_Some (findState (w_def w) (initial_state (w_def w)))
  /\ forall id i, by_id w !! id = Some i ->
       exists from, findState (b_def (born i)) (current_state i) = Some from
         /\ forall x, x ∈ transitions from \/ x ∈ catch (b_def (born i)) ->
              target_state x = "" \/ is_Some (findState (b_def (born i)) (target_state x)).
Proof.
  intros Hn. pose proof (reachable_ok E uuid_unique _ Hn) as Hok. split.
  - destruct (loaded_checked (w_def w)) as (d & Hc & ->); [apply (in_J _ _ Hok)|].
    apply stateIndex_found, (ck_initial _ Hc).
  - intros id i Hi. destruct (reached_def _ _ _ Hn Hi) as [_ _ Hl Hst].
    destruct (loaded_checked _ Hl) as (d & Hc & Hdef). unfold in_state in Hst. rewrite Hdef in *.
    destruct Hst as [from Hf]; [apply stateIndex_found, (ck_initial _ Hc)|]. exists from. split; [done|].
    intros x Hx. by eapply targets_found.
Qed.

End Reached.

End Loaded.

(** ** Examples *)

Module LoadExamples.
Import WfExamples.

(** A definition that asks an agent, with a timer for an answer that does not come, and keeps what the
    person writes meanwhile. *)
Definition action (type target msg_name : string) : Source.ActionDefinition :=
  Source.mkAction type target (Some (Source.mkActionMeta msg_name JNull)) "" JNull None "" (JObj []) "" JNull JNull "" None ""
    JNull "".

Definition timer_action : Source.ActionDefinition :=
  Source.mkAction "schedule_timer" "" None "" JNull None "" JNull "late" (JStr "1d") JNull "drop" None "" JNull "".

Definition keep_action : Source.ActionDefinition :=
  Source.mkAction "keep_message" "" None "" JNull None "" JNull "" JNull JNull "" None "last" JNull "".

Definition written : Source.WorkflowDefinition :=
  Source.mkDefinition "1" "help" [chat] [("type", JStr "object")] "ask" ["done"; "late"]
    [Source.mkState "ask" [timer_action; action "send_message" helper "ASK"] []
       [Source.mkTransition (mkEventMatch "ANSWER" helper) "true" "done" [];
        Source.mkTransition (mkEventMatch "TIMER_FIRED" "") "true" "late" []];
     Source.mkState "done" [action "send_message" chat "DONE"] [] [];
     Source.mkState "late" [action "send_message" chat "LATE"] [] []]
    [Source.mkTransition (mkEventMatch "" chat) "true" "" [keep_action]] "12h".

Definition lang : Lang () :=
  mkLang () (fun _ => inl ((), EIdent "input")) (fun _ => inl (EIdent "input")) (fun _ => None) Some
    (fun _ => Some (Source.mkDoc [] [])) (fun _ => JNull) (fun _ => inl written).

(** The environment of the examples, with this load. *)
Definition with_load (E : Env ()) (f : string -> option (WorkflowDefinition ())) : Env () :=
  mkEnv () (decode E) (encode E) (marshal_payload E) (read_fields E) (read_list E) (read_writer E) (marshal_message E)
    (unmarshal_message E) (read_fired E) (write_fired E) (eval_guard E) (eval_value E) (input_error E) f (hash_of E)
    (parse_duration E) (parse_rfc3339 E) (quote E) (uuid E) (node_name E) (node_uuid E) (self_ilk E) (read_cancel E)
    (control_answer E) (plane_answer E).

Definition loading : Env () := with_load env (load lang env).

Lemma loading_loads : forall bytes, load_definition loading bytes = load lang loading bytes.
Proof. intros bytes. by vm_compute. Qed.

Lemma loading_unique : forall n k, uuid loading n = uuid loading k -> n = k.
Proof. exact tally_inj. Qed.

Definition up : Node := start loading (mkDurable empty_store [] 0) "v1" (Some []) [] 0.
Definition talking : Node :=
  match up with Up w => WfNode.take loading w (Inbound (from chat "HI")) [] 0 | Down d => Down d end.

Lemma talking_reachable : reachable_node loading talking.
Proof.
  assert (reachable_node loading up) as Hu by (eapply reach_more; [apply reach_new|constructor]).
  unfold talking. destruct up as [d|w]; [done|]. eapply reach_more; [done|constructor].
Qed.


Lemma workflow_states_known_witness : exists w, talking = Up w /\ is_Some (by_id w !! "wfi:")
  /\ is_Some (findState (w_def w) (initial_state (w_def w)))
  /\ forall id i, by_id w !! id = Some i ->
       exists from, findState (b_def (born i)) (current_state i) = Some from
         /\ forall x, x ∈ transitions from \/ x ∈ catch (b_def (born i)) ->
              target_state x = "" \/ is_Some (findState (b_def (born i)) (target_state x)).
Proof.
  destruct talking as [d|w] eqn:Et; [apply (f_equal (fun n => match n with Up _ => true | Down _ => false end)) in Et; by vm_compute in Et|].
  exists w. split; [done|]. split.
  - assert (match talking with Up w => bool_decide (is_Some (by_id w !! "wfi:")) | Down _ => false end = true) as H by by vm_compute.
    rewrite Et in H. by apply bool_decide_eq_true in H.
  - apply (workflow_states_known lang loading loading_loads loading_unique w). rewrite <- Et. apply talking_reachable.
Defined.

(** The fire of the timer, in the state that waits for the answer. *)
Definition fire : Msg := from "SY.timer@h1" "TIMER_FIRED".
Definition loaded_def : WorkflowDefinition () := run_definition lang (expandKnownOptions (normalizeActionNumbers lang written)).
Definition waiting : WFInstance () := NewInstance loading loaded_def "v1" "wfi:" [] 0 (from chat "HI").
Definition asks : StateDefinition () :=
  run_state lang (Source.mkState "ask" [timer_action; action "send_message" helper "ASK"] []
    [Source.mkTransition (mkEventMatch "ANSWER" helper) "true" "done" [];
     Source.mkTransition (mkEventMatch "TIMER_FIRED" "") "true" "late" []]).
Definition is_late : TransitionDefinition () :=
  run_transition lang (Source.mkTransition (mkEventMatch "TIMER_FIRED" "") "true" "late" []).

Lemma senderless_events_need_no_message_witness :
  load lang loading "v1" = Some loaded_def
  /\ need_none (actions_run asks is_late (goes_to loaded_def is_late))
  /\ length (actions_run asks is_late (goes_to loaded_def is_late)) = 1%nat.
Proof.
  split; [by vm_compute|]. split; [|by vm_compute].
  apply (senderless_events_need_no_message lang loading "v1" loaded_def waiting "ask" asks fire is_late); try by vm_compute.
  - left. by vm_compute.
  - left. by vm_compute.
Defined.

Lemma loaded_times_in_bounds_witness :
  scheduled_keys loaded_def = {["late"]} /\ (size (scheduled_keys loaded_def) <= 10)%nat
  /\ (3600000000000 <= (IdleAfter loading loaded_def).1 <= 604800000000000)%Z.
Proof.
  split; [by vm_compute|]. destruct (loaded_times_in_bounds lang loading "v1" loaded_def) as (H1 & _ & _ & H4); [by vm_compute|].
  by split.
Defined.

End LoadExamples.
