(* ===== verification/SyTimer.v ===== *)
(** * SY.timer: the timers of a hive

    src/go/sy-timer: persistence.go, scheduler.go and the verbs of main.go that touch a timer. Requests
    are served by one goroutine and fires made by another; both work on the database, the heap of due
    times and the fires waiting for an answer. A goroutine is a program of atomic operations: a call of
    the database, of the heap or of [sent] under its lock, a read of the clock, a send. *)

From Stdlib Require Import ZArith Lia Ascii String.
From stdpp Require Import base list strings gmap pretty.
From S2P Require Import Prelude Protocol WfDef.
Open Scope string_scope.

#[local] Abbreviation Msg := (Message string).

(** ** Rows *)

Inductive TimerKind := oneshot | recurring.
Inductive TimerStatus := pending | fired | canceled.

#[export] Instance TimerKind_eq_dec : EqDecision TimerKind.
Proof. solve_decision. Defined.
#[export] Instance TimerStatus_eq_dec : EqDecision TimerStatus.
Proof. solve_decision. Defined.

Record timerRow := mkTimer {
  UUID : string; OwnerL2Name : string; TargetL2Name : string; ClientRef : option string;
  Kind : TimerKind; FireAtUTC : Z; CronSpec : option string; CronTZ : option string;
  MissedPolicy : string; MissedWithinMS : option Z; Payload : string; Metadata : option string;
  Status : TimerStatus; CreatedAtUTC : Z; LastFiredAtUTC : option Z; FireCount : Z }.

Definition set_status st (r : timerRow) : timerRow :=
  mkTimer (UUID r) (OwnerL2Name r) (TargetL2Name r) (ClientRef r) (Kind r) (FireAtUTC r) (CronSpec r) (CronTZ r)
    (MissedPolicy r) (MissedWithinMS r) (Payload r) (Metadata r) st (CreatedAtUTC r) (LastFiredAtUTC r) (FireCount r).

Definition set_fire_at t (r : timerRow) : timerRow :=
  mkTimer (UUID r) (OwnerL2Name r) (TargetL2Name r) (ClientRef r) (Kind r) t (CronSpec r) (CronTZ r)
    (MissedPolicy r) (MissedWithinMS r) (Payload r) (Metadata r) (Status r) (CreatedAtUTC r) (LastFiredAtUTC r) (FireCount r).

(** A fire counted, at [actual]. *)
Definition count_fire actual (r : timerRow) : timerRow :=
  mkTimer (UUID r) (OwnerL2Name r) (TargetL2Name r) (ClientRef r) (Kind r) (FireAtUTC r) (CronSpec r) (CronTZ r)
    (MissedPolicy r) (MissedWithinMS r) (Payload r) (Metadata r) (Status r) (CreatedAtUTC r) (Some actual) (FireCount r + 1).

(** A fire on its way. *)
Record fireAttempt := mkAttempt { fa_row : timerRow; attempt : Z; deadline : Z; sentAt : Z }.

Record timerHeapEntry := mkEntry { e_timer : string; e_fire_at : Z; e_retry : option fireAttempt }.

(** ** What is outside: JSON, cron and time zones, the node's name *)

(** [cron] and [time.LoadLocation]: the next instant of a spec in a zone after one, and the one after it. *)
Inductive CronAnswer := BadZone | BadCron | NoNext | Next (first : Z) (second : option Z).

Record timerScheduleRequest := mkScheduleReq {
  q_fire_at : option Z; q_fire_in : option Z; q_target : option string; q_client_ref : option string;
  q_payload : string; q_missed_policy : option string; q_missed_within : option Z; q_metadata : string }.

(** The fields a [timerScheduleRecurringRequest] has in common with a schedule's are read as one. *)
Record timerScheduleRecurringRequest := mkRecurringReq { q_cron_spec : string; q_cron_tz : string; q_common : timerScheduleRequest }.

Record timerReference := mkRef { ref_uuid : string; ref_client : string }.
Record timerRescheduleRequest := mkRescheduleReq { q_ref : timerReference; q_new_at : option Z; q_new_in : option Z }.
Record timerListRequest := mkListReq { q_owner : string; q_status : string; q_limit : Z; q_cursor : string }.

Inductive TimerAnswer :=
| AError (verb code : string)
| AScheduled (verb uuid : string) (fire_at : Z) (already_existed : bool)
| AGot (row : timerRow)
| AListed (owner : string) (rows : list timerRow) (next_cursor : string)
| ANotFound
| ACanceled (uuid : string)
| ARescheduled (uuid : string) (fire_at : Z)
| APurged (deleted : Z)
| APlain (payload : string).

Record TimerEnv := mkTimerEnv {
  json_valid : string -> bool;
  read_schedule : string -> option timerScheduleRequest;
  read_recurring : string -> option timerScheduleRecurringRequest;
  read_reference : string -> option timerReference;
  read_reschedule : string -> option timerRescheduleRequest;
  read_list_request : string -> option timerListRequest;
  read_purge : string -> option string;
  read_reason : string -> string;
  cron_next : string -> string -> Z -> CronAnswer;
  new_uuid : nat -> string;
  info_bytes : timerRow -> option Z;
  plain_answer : Msg -> Z -> string;
  status_answer : Msg -> string;
  timer_node : string }.

(** ** Programs *)

(** What a call of the database answers. *)
Inductive Read := DbError | NoRows | Row (r : timerRow).
Inductive Insertion := InsertOk | InsertUnique | InsertError.
Inductive SendAnswer := SendOk | SendTooLarge | SendError.

(** Who writes a row. *)
Inductive Writer := ByFire | ByCancel | ByReschedule | ByReplay.

Record timerListCursor := mkCursor { c_fire_at : Z; c_uuid : string }.

Inductive Op :=
| Now
| NewUUID
| GetTimer (u : string)
| FindPending (owner ref : string)
| CountOwned (owner : string)
| CountPending
| ListTimers (owner : string) (status : option TimerStatus) (limit : Z) (after : option timerListCursor)
| ListPending
| InsertTimer (r : timerRow)
| UpdateTimer (who : Writer) (r : timerRow)
| DeleteOwner (owner : string)
| GcHistory (cutoff : Z)
| Push (e : timerHeapEntry)
| PopDue (now : Z)
| KeepSent (trace : string) (f : fireAttempt)
| ForgetSent (trace : string)
| TakeSent (trace : string)
| SendFired (f : fireAttempt) (actual : Z) (trace : string)
| Reply (m : Msg) (a : TimerAnswer).

Definition Res (o : Op) : Type :=
  match o with
  | Now => Z
  | NewUUID => string
  | GetTimer _ | FindPending _ _ => Read
  | CountOwned _ | CountPending | DeleteOwner _ | GcHistory _ => option Z
  | ListTimers _ _ _ _ | ListPending => option (list timerRow)
  | InsertTimer _ => Insertion
  | UpdateTimer _ _ => bool
  | PopDue _ => option timerHeapEntry
  | TakeSent _ => option fireAttempt
  | SendFired _ _ _ | Reply _ _ => SendAnswer
  | Push _ | KeepSent _ _ | ForgetSent _ => unit
  end.

Inductive Prog (A : Type) :=
| Ret (a : A)
| Act (o : Op) (k : Res o -> Prog A).
Arguments Ret {A} a.
Arguments Act {A} o k.

Fixpoint andThen {A B} (p : Prog A) (k : A -> Prog B) : Prog B :=
  match p with
  | Ret a => k a
  | Act o k' => Act o (fun x => andThen (k' x) k)
  end.

Declare Scope timer_scope.
Notation "'ask!' x := o 'in' k" := (Act o (fun x => k))
  (at level 200, x name, o at level 100, k at level 200, right associativity) : timer_scope.
Notation "'call!' x := p 'in' k" := (andThen p (fun x => k))
  (at level 200, x name, p at level 100, k at level 200, right associativity) : timer_scope.
Open Scope timer_scope.

(** ** Times *)

Definition MinTimerDuration_ms : Z := 60000.
Definition maxTimerDelay_ms : Z := (366 * 24 * 3600 * 1000)%Z.
Definition deliveryRetryWindow_ms : Z := 3600000.
Definition deliveryAnswerWindow_ms : Z := 30000.
Definition storageRetryDelay_ms : Z := 30000.
Definition defaultHistoryRetention_ms : Z := (7 * 24 * 3600 * 1000)%Z.

(** The wrap-around of an [int64]. *)
Definition wrap_i64 (z : Z) : Z := ((z + 2 ^ 63) mod 2 ^ 64 - 2 ^ 63)%Z.

(** [oneShotFireAt], at [now]: the instant, or the code of the error. *)
Definition oneShotFireAt (at_ms in_ms : option Z) (now : Z) : Z + string :=
  let check fire_at :=
    let ahead := wrap_i64 (fire_at - now) in
    if (ahead <? MinTimerDuration_ms)%Z then inr "TIMER_BELOW_MINIMUM"
    else if (ahead >? maxTimerDelay_ms)%Z then inr "TIMER_ABOVE_MAXIMUM"
    else inl fire_at in
  match at_ms, in_ms with
  | Some fire_at, None => check fire_at
  | None, Some d => if (d >? maxTimerDelay_ms)%Z then inr "TIMER_ABOVE_MAXIMUM" else check (wrap_i64 (now + d))
  | _, _ => inr "TIMER_INVALID_PAYLOAD"
  end.

Section Timer.
Context (E : TimerEnv).

(** What [scheduleRecurringFireAt] and [nextRecurringFireAt] read of a schedule. *)
Definition recurring_instant (spec tz : string) (now : Z) : Z + string :=
  match cron_next E spec tz now with
  | BadZone => inr "TIMER_INVALID_TIMEZONE"
  | BadCron | NoNext => inr "TIMER_INVALID_CRON"
  | Next first second =>
    match second with
    | Some next => if (next - first <? MinTimerDuration_ms)%Z then inr "TIMER_BELOW_MINIMUM" else inl first
    | None => inl first
    end
  end.

Definition zone_or_utc (tz : string) : string := if str_is_empty tz then "UTC" else tz.

Definition nextRecurringFireAt (r : timerRow) (now : Z) : option Z :=
  match CronSpec r with
  | Some spec =>
    if str_is_empty spec then None
    else match recurring_instant spec (zone_or_utc (unwrap_or "" (CronTZ r))) now with
         | inl first => Some first
         | inr _ => None
         end
  | None => None
  end.

(** [deliveryDeadline]. *)
Definition deliveryDeadline (r : timerRow) (first : Z) : Z :=
  let hour := (first + deliveryRetryWindow_ms)%Z in
  match Kind r with
  | recurring => hour
  | oneshot =>
    if MissedPolicy r =s "drop" then first
    else if MissedPolicy r =s "fire_if_within" then
      match MissedWithinMS r with
      | Some w => if (FireAtUTC r + w <? hour)%Z then (FireAtUTC r + w)%Z else hour
      | None => hour
      end
    else hour
  end.

(** [deliveryRetryDelays]. *)
Definition retry_delay (attempt : Z) : Z :=
  (if attempt <=? 1 then 5000 else if attempt =? 2 then 10000 else if attempt =? 3 then 20000
   else if attempt =? 4 then 40000 else 60000)%Z.

(** ** The scheduler *)

Definition push (u : string) (fire_at : Z) : Op := Push (mkEntry u fire_at None).

(** [retryLater]. *)
Definition retryLater (f : fireAttempt) : Prog unit :=
  ask! now := Now in
  let next := (now + retry_delay (attempt f))%Z in
  if (next >? deadline f)%Z then Ret ()
  else
    ask! _ := Push (mkEntry (UUID (fa_row f)) next
                      (Some (mkAttempt (fa_row f) (attempt f + 1) (deadline f) (sentAt f)))) in
    Ret ().

(** [deliver] and [emitTimerFired]; the row's payload and metadata are checked again before they go. *)
Definition deliver (f : fireAttempt) : Prog unit :=
  ask! now := Now in
  ask! trace := NewUUID in
  let f := mkAttempt (fa_row f) (attempt f) (deadline f) now in
  ask! _ := KeepSent trace f in
  let undone again := ask! _ := ForgetSent trace in if again : bool then retryLater f else Ret () in
  let r := fa_row f in
  if negb (str_is_empty (Payload r) || json_valid E (Payload r))
     || match Metadata r with Some data => negb (json_valid E data) | None => false end then undone true
  else
    ask! a := SendFired f now trace in
    match a with
    | SendOk => Ret ()
    | SendTooLarge => undone false
    | SendError => undone true
    end.

(** [transientUnreachable]. *)
Definition transientUnreachable (reason : string) : bool :=
  str_mem reason ["NODE_NOT_FOUND"; "PEER_UNAVAILABLE"; "WAN_UNAVAILABLE"; "GATEWAY_UNAVAILABLE"].

(** [undelivered]: whether the trace named a fire. *)
Definition undelivered (trace reason : string) : Prog bool :=
  ask! f := TakeSent trace in
  match f with
  | None => Ret false
  | Some f =>
    if transientUnreachable reason then call! _ := retryLater f in Ret true else Ret true
  end.

(** The row as a fire leaves it, and until when the fire is sent again; [None]: no next instant. *)
Definition fire_row (r : timerRow) (actual : Z) : option (timerRow * Z) :=
  let counted := count_fire actual r in
  let d := deliveryDeadline r actual in
  match Kind r with
  | oneshot => Some (set_status fired counted, d)
  | recurring =>
    match nextRecurringFireAt counted actual with
    | Some next => Some (set_fire_at next counted, Z.min next d)
    | None => None
    end
  end.

Definition fireTimerByUUID (u : string) (now : Z) : Prog unit :=
  ask! found := GetTimer u in
  match found with
  | DbError | NoRows => Ret ()
  | Row r =>
    if negb (bool_decide (Status r = pending)) then Ret ()
    else if (FireAtUTC r >? now)%Z then ask! _ := push (UUID r) (FireAtUTC r) in Ret ()
    else
      ask! actual := Now in
      match fire_row r actual with
      | None => Ret ()
      | Some (r', d) =>
        ask! saved := UpdateTimer ByFire r' in
        if negb saved then ask! _ := push (UUID r) (actual + storageRetryDelay_ms) in Ret ()
        else
          let go := deliver (mkAttempt r 1 d 0) in
          match Kind r with
          | recurring => ask! _ := push (UUID r) (FireAtUTC r') in go
          | oneshot => go
          end
      end
  end.

(** [retryFire]. *)
Definition retryFire (f : fireAttempt) : Prog unit :=
  ask! found := GetTimer (UUID (fa_row f)) in
  match found with
  | DbError => retryLater f
  | NoRows => Ret ()
  | Row r => if bool_decide (Status r = canceled) then Ret () else deliver f
  end.

(** One turn of [processDue]: whether there was one due. *)
Definition processDue (now : Z) : Prog bool :=
  ask! due := PopDue now in
  match due with
  | None => Ret false
  | Some e =>
    call! _ := match e_retry e with
               | Some f => retryFire f
               | None => fireTimerByUUID (e_timer e) now
               end in
    Ret true
  end.

(** ** The start *)

(** [handleMissedTimer]: whether the start goes on. *)
Definition handleMissedTimer (r : timerRow) (now : Z) : Prog bool :=
  let fires := ask! _ := push (UUID r) (FireAtUTC r) in Ret true in
  let drops := ask! saved := UpdateTimer ByReplay (set_status canceled r) in Ret saved in
  if MissedPolicy r =s "fire" then fires
  else if MissedPolicy r =s "fire_if_within" then
    match MissedWithinMS r with
    | Some w => if (now - FireAtUTC r <=? w)%Z then fires else drops
    | None => drops
    end
  else drops.

(** One row of [replayPending]. *)
Definition replay_timer (r : timerRow) (now : Z) : Prog bool :=
  match Kind r with
  | recurring =>
    match nextRecurringFireAt r now with
    | None => Ret true
    | Some next =>
      ask! saved := UpdateTimer ByReplay (set_fire_at next r) in
      if saved then ask! _ := push (UUID r) next in Ret true else Ret false
    end
  | oneshot =>
    if (FireAtUTC r >? now)%Z then ask! _ := push (UUID r) (FireAtUTC r) in Ret true
    else handleMissedTimer r now
  end.

Fixpoint replay_timers (rows : list timerRow) (now : Z) : Prog bool :=
  match rows with
  | [] => Ret true
  | r :: rest => call! go_on := replay_timer r now in if go_on : bool then replay_timers rest now else Ret false
  end.

Definition replayPending (now : Z) : Prog bool :=
  ask! rows := ListPending in
  match rows with
  | None => Ret false
  | Some rows => replay_timers rows now
  end.

(** [main], up to the loops: whether they start. *)
Definition timer_main : Prog bool :=
  ask! now := Now in
  ask! _ := GcHistory (now - defaultHistoryRetention_ms) in
  ask! now := Now in
  replayPending now.

(** ** Requests *)

Definition stringValue (s : option string) : string := unwrap_or "" s.
Definition trimmed_or (d : string) (s : option string) : string :=
  let t := Prelude.trim (stringValue s) in if str_is_empty t then d else t.

(** [sendTimerResponse]: a response that cannot go ([SendTooLarge]: it does not build, or is over the frame
    limit) is answered with an error instead. *)
Definition sendTimerResponse (m : Msg) (a : TimerAnswer) : Prog unit :=
  ask! sent := Reply m a in
  match sent with
  | SendTooLarge => ask! _ := Reply m (AError (rawMsgName m) "TIMER_INTERNAL") in Ret ()
  | _ => Ret ()
  end.

Definition sendTimerError (m : Msg) (verb code : string) : Prog unit := sendTimerResponse m (AError verb code).

Definition isCanonicalL2Name (value : string) : bool :=
  match split_once "@" (Prelude.trim value) with
  | Some (local, hive) =>
    negb (str_is_empty (Prelude.trim local)) && negb (str_is_empty (Prelude.trim hive)) && str_contains local "."
  | None => false
  end.

Definition checkTimerTarget (owner target : string) : bool := (target =s owner) || starts_with owner "SY.".

Definition maxTimerDataBytes : nat := 32768.

Definition checkTimerData (payload metadata : string) : bool :=
  (String.length payload <=? maxTimerDataBytes)%nat && (String.length metadata <=? maxTimerDataBytes)%nat.

Definition validateMissedPolicyRaw (policy : string) (within : option Z) : bool :=
  if (policy =s "fire") || (policy =s "drop") then true
  else (policy =s "fire_if_within") && match within with Some w => (0 <? w)%Z | None => false end.

(** [normalizeClientRef]: the reference, empty for none; [None]: too long. *)
Definition normalizeClientRef (ref : option string) : option string :=
  let t := Prelude.trim (stringValue ref) in
  if (255 <? String.length t)%nat then None else Some t.

Definition maxPendingTimersPerOwner : Z := 10000.
Definition maxPendingTimers : Z := 100000.

(** [checkPendingLimits]: the error's code, if there is one. *)
Definition checkPendingLimits (owner : string) : Prog (option string) :=
  ask! owned := CountOwned owner in
  match owned with
  | None => Ret (Some "TIMER_STORAGE_ERROR")
  | Some n =>
    if (maxPendingTimersPerOwner <=? n)%Z then Ret (Some "TIMER_LIMIT_EXCEEDED")
    else
      ask! total := CountPending in
      Ret match total with
          | None => Some "TIMER_STORAGE_ERROR"
          | Some t => if (maxPendingTimers <=? t)%Z then Some "TIMER_LIMIT_EXCEEDED" else None
          end
  end.

(** What [respondTimerSchedule] and [respondTimerScheduleRecurring] check of a request besides its time,
    in their order: the target, the policy, the payload and the metadata, or the error's code. *)
Definition check_options (kind : TimerKind) (owner : string) (q : timerScheduleRequest) : (string * string * string) + string :=
  let target := trimmed_or owner (q_target q) in
  let policy := trimmed_or "fire" (q_missed_policy q) in
  let payload := if str_is_empty (q_payload q) then "{}" else q_payload q in
  if negb (isCanonicalL2Name target) then inr "TIMER_INVALID_PAYLOAD"
  else if negb (checkTimerTarget owner target) then inr "TIMER_FORBIDDEN"
  else if negb (validateMissedPolicyRaw policy (q_missed_within q)) then inr "TIMER_INVALID_PAYLOAD"
  else if bool_decide (kind = recurring) && negb (json_valid E payload) then inr "TIMER_INVALID_PAYLOAD"
  else if negb (str_is_empty (q_metadata q)) && negb (json_valid E (q_metadata q)) then inr "TIMER_INVALID_PAYLOAD"
  else if negb (checkTimerData payload (q_metadata q)) then inr "TIMER_LIMIT_EXCEEDED"
  else inl (target, policy, payload).

(** The rest of both handlers: the timer of this reference, or a new one. *)
Definition schedule_new (m : Msg) (verb owner : string) (q : timerScheduleRequest) (kind : TimerKind)
  (spec tz : option string) (fire_at : Z) : Prog unit :=
  match check_options kind owner q with
  | inr code => sendTimerError m verb code
  | inl (target, policy, payload) =>
    ask! now := Now in
    match normalizeClientRef (q_client_ref q) with
    | None => sendTimerError m verb "TIMER_INVALID_PAYLOAD"
    | Some ref =>
      let create :=
        call! refused := checkPendingLimits owner in
        match refused with
        | Some code => sendTimerError m verb code
        | None =>
          ask! u := NewUUID in
          let r := mkTimer u owner target (if str_is_empty ref then None else Some ref) kind fire_at spec tz policy
                     (q_missed_within q) payload (if str_is_empty (q_metadata q) then None else Some (q_metadata q))
                     pending now None 0 in
          ask! inserted := InsertTimer r in
          match inserted with
          | InsertOk =>
            ask! _ := push u fire_at in
            sendTimerResponse m (AScheduled verb u fire_at false)
          | InsertError => sendTimerError m verb "TIMER_STORAGE_ERROR"
          | InsertUnique =>
            if str_is_empty ref then sendTimerError m verb "TIMER_STORAGE_ERROR"
            else
              ask! existing := FindPending owner ref in
              match existing with
              | Row e => sendTimerResponse m (AScheduled verb (UUID e) (FireAtUTC e) true)
              | _ => sendTimerError m verb "TIMER_STORAGE_ERROR"
              end
          end
        end in
      if str_is_empty ref then create
      else
        ask! existing := FindPending owner ref in
        match existing with
        | DbError => sendTimerError m verb "TIMER_STORAGE_ERROR"
        | Row e => sendTimerResponse m (AScheduled verb (UUID e) (FireAtUTC e) true)
        | NoRows => create
        end
    end
  end.

Definition respondTimerSchedule (m : Msg) : Prog unit :=
  let verb := "TIMER_SCHEDULE" in
  match read_schedule E (msg_payload m) with
  | None => sendTimerError m verb "TIMER_INVALID_PAYLOAD"
  | Some q =>
    if str_is_empty (sourceL2Name m) then sendTimerError m verb "TIMER_INTERNAL"
    else
      ask! now := Now in
      match oneShotFireAt (q_fire_at q) (q_fire_in q) now with
      | inr code => sendTimerError m verb code
      | inl fire_at => schedule_new m verb (sourceL2Name m) q oneshot None None fire_at
      end
  end.

Definition respondTimerScheduleRecurring (m : Msg) : Prog unit :=
  let verb := "TIMER_SCHEDULE_RECURRING" in
  match read_recurring E (msg_payload m) with
  | None => sendTimerError m verb "TIMER_INVALID_PAYLOAD"
  | Some q =>
    if str_is_empty (sourceL2Name m) then sendTimerError m verb "TIMER_INTERNAL"
    else
      let spec := Prelude.trim (q_cron_spec q) in
      let tz := zone_or_utc (Prelude.trim (q_cron_tz q)) in
      if str_is_empty spec then sendTimerError m verb "TIMER_INVALID_PAYLOAD"
      else
        ask! now := Now in
        match recurring_instant spec tz now with
        | inr code => sendTimerError m verb code
        | inl first => schedule_new m verb (sourceL2Name m) (q_common q) recurring (Some spec) (Some tz) first
        end
  end.

(** [timerReferenceFromRequest]. *)
Definition timerReferenceFromRequest (q : timerReference) : option timerReference :=
  let u := Prelude.trim (ref_uuid q) in
  let c := Prelude.trim (ref_client q) in
  if negb (str_is_empty u) then Some (mkRef u c)
  else if str_is_empty c || (255 <? String.length c)%nat then None
  else Some (mkRef u c).

(** The row a reference names ([resolveTimerForGet], [resolveOwnedTimerForMutation]). *)
Definition named (ref : timerReference) (owner : string) : Prog Read :=
  if negb (str_is_empty (ref_uuid ref)) then ask! r := GetTimer (ref_uuid ref) in Ret r
  else ask! r := FindPending owner (ref_client ref) in Ret r.

(** [mayRead]. *)
Definition mayRead (m : Msg) (owner : string) : bool :=
  let requester := sourceL2Name m in
  negb (str_is_empty requester) && ((requester =s owner) || (requester =s PrimaryAdminNode)).

Definition respondTimerGet (m : Msg) : Prog unit :=
  let verb := "TIMER_GET" in
  match read_reference E (msg_payload m) ≫= timerReferenceFromRequest with
  | None => sendTimerError m verb "TIMER_INVALID_PAYLOAD"
  | Some ref =>
    if str_is_empty (ref_uuid ref) && str_is_empty (sourceL2Name m) then sendTimerError m verb "TIMER_STORAGE_ERROR"
    else
      call! found := named ref (sourceL2Name m) in
      match found with
      | NoRows => sendTimerError m verb "TIMER_NOT_FOUND"
      | DbError => sendTimerError m verb "TIMER_STORAGE_ERROR"
      | Row r =>
        if negb (mayRead m (OwnerL2Name r)) then sendTimerError m verb "TIMER_NOT_OWNER"
        else match info_bytes E r with
             | None => sendTimerError m verb "TIMER_INTERNAL"
             | Some _ => sendTimerResponse m (AGot r)
             end
      end
  end.

(** [formatTimerListCursor]. *)
Definition formatTimerListCursor (r : timerRow) : string := pretty (FireAtUTC r) ++ ":" ++ UUID r.

(** [parseTimerListCursor]: the cursor, if there is one; [None]: not a cursor. *)
Definition parseTimerListCursor (cursor : string) : option (option timerListCursor) :=
  let c := Prelude.trim cursor in
  if str_is_empty c then Some None
  else match split_once ":" c with
       | Some (fire_at, u) =>
         match ParseInt fire_at with
         | Some t => if str_is_empty (Prelude.trim u) then None else Some (Some (mkCursor t u))
         | None => None
         end
       | None => None
       end.

Definition maxTimerListPageBytes : Z := 98304.

(** What a page lists of the rows read, and where the next one starts; [None]: a row does not encode. *)
Fixpoint list_page (rows : list timerRow) (last : option timerRow) (bytes : Z) : option (list timerRow * string) :=
  match rows with
  | [] => Some ([], "")
  | r :: rest =>
    match info_bytes E r with
    | None => None
    | Some n =>
      match last with
      | Some before =>
        if (maxTimerListPageBytes <? bytes + n + 1)%Z then Some ([], formatTimerListCursor before)
        else option_map (fun '(l, c) => (r :: l, c)) (list_page rest (Some r) (bytes + n + 1))
      | None => option_map (fun '(l, c) => (r :: l, c)) (list_page rest (Some r) (bytes + n + 1))
      end
    end
  end.

Definition read_status (s : string) : option (option TimerStatus) :=
  let s := if str_is_empty s then "pending" else s in
  if s =s "pending" then Some (Some pending)
  else if s =s "fired" then Some (Some fired)
  else if s =s "canceled" then Some (Some canceled)
  else if s =s "all" then Some None
  else None.

Definition respondTimerList (m : Msg) : Prog unit :=
  let verb := "TIMER_LIST" in
  let requester := sourceL2Name m in
  match (if str_is_empty (msg_payload m) then Some (mkListReq "" "" 0 "") else read_list_request E (msg_payload m)) with
  | None => sendTimerError m verb "TIMER_INVALID_PAYLOAD"
  | Some q =>
    let owner := Prelude.trim (q_owner q) in
    match read_status (Prelude.trim (q_status q)) with
    | None => sendTimerError m verb "TIMER_INVALID_PAYLOAD"
    | Some status =>
      if negb (str_is_empty owner) && negb (isCanonicalL2Name owner) then sendTimerError m verb "TIMER_INVALID_PAYLOAD"
      else
        let admin := requester =s PrimaryAdminNode in
        let owner := if negb admin && str_is_empty owner then requester else owner in
        if negb admin && negb (mayRead m owner) then sendTimerError m verb "TIMER_FORBIDDEN"
        else
          match parseTimerListCursor (q_cursor q) with
          | None => sendTimerError m verb "TIMER_INVALID_PAYLOAD"
          | Some after =>
            ask! rows := ListTimers owner status (q_limit q) after in
            match rows with
            | None => sendTimerError m verb "TIMER_STORAGE_ERROR"
            | Some rows =>
              match list_page rows None 0 with
              | None => sendTimerError m verb "TIMER_INTERNAL"
              | Some (page, cursor) => sendTimerResponse m (AListed owner page cursor)
              end
            end
          end
    end
  end.

(** [resolveOwnedTimerForMutation]: the requester's own row, or why there is none, with the error's code. *)
Definition owned (m : Msg) (ref : timerReference) : Prog (timerRow + option string) :=
  let owner := sourceL2Name m in
  if str_is_empty owner then Ret (inr (Some "TIMER_INTERNAL"))
  else
    call! found := named ref owner in
    Ret match found with
        | NoRows => inr None
        | DbError => inr (Some "TIMER_STORAGE_ERROR")
        | Row r => if OwnerL2Name r =s owner then inl r else inr (Some "TIMER_NOT_OWNER")
        end.

Definition respondTimerCancel (m : Msg) : Prog unit :=
  let verb := "TIMER_CANCEL" in
  match read_reference E (msg_payload m) ≫= timerReferenceFromRequest with
  | None => sendTimerError m verb "TIMER_INVALID_PAYLOAD"
  | Some ref =>
    call! found := owned m ref in
    match found with
    | inr None => if str_is_empty (ref_uuid ref) then sendTimerResponse m ANotFound
                  else sendTimerError m verb "TIMER_NOT_FOUND"
    | inr (Some code) => sendTimerError m verb code
    | inl r =>
      if bool_decide (Status r = fired) then sendTimerError m verb "TIMER_ALREADY_FIRED"
      else
        ask! saved := UpdateTimer ByCancel (set_status canceled r) in
        if saved then sendTimerResponse m (ACanceled (UUID r)) else sendTimerError m verb "TIMER_STORAGE_ERROR"
    end
  end.

Definition respondTimerReschedule (m : Msg) : Prog unit :=
  let verb := "TIMER_RESCHEDULE" in
  match read_reschedule E (msg_payload m) with
  | None => sendTimerError m verb "TIMER_INVALID_PAYLOAD"
  | Some q =>
    match timerReferenceFromRequest (q_ref q) with
    | None => sendTimerError m verb "TIMER_INVALID_PAYLOAD"
    | Some ref =>
      call! found := owned m ref in
      match found with
      | inr None => sendTimerError m verb "TIMER_NOT_FOUND"
      | inr (Some code) => sendTimerError m verb code
      | inl r =>
        if bool_decide (Kind r = recurring) then sendTimerError m verb "TIMER_RECURRING_NOT_RESCHEDULABLE"
        else if negb (bool_decide (Status r = pending)) then sendTimerError m verb "TIMER_ALREADY_FIRED"
        else
          ask! now := Now in
          match oneShotFireAt (q_new_at q) (q_new_in q) now with
          | inr code => sendTimerError m verb code
          | inl fire_at =>
            ask! saved := UpdateTimer ByReschedule (set_fire_at fire_at r) in
            if saved then
              ask! _ := push (UUID r) fire_at in
              sendTimerResponse m (ARescheduled (UUID r) fire_at)
            else sendTimerError m verb "TIMER_STORAGE_ERROR"
          end
      end
    end
  end.

(** [localOrchestratorL2Name]. *)
Definition localOrchestratorL2Name : string :=
  "SY.orchestrator@" ++ match split_once "@" (timer_node E) with Some (_, hive) => hive | None => "" end.

Definition respondTimerPurgeOwner (m : Msg) : Prog unit :=
  let verb := "TIMER_PURGE_OWNER" in
  match read_purge E (msg_payload m) with
  | None => sendTimerError m verb "TIMER_INVALID_PAYLOAD"
  | Some raw =>
    let requester := sourceL2Name m in
    let owner := Prelude.trim raw in
    if str_is_empty requester then sendTimerError m verb "TIMER_INTERNAL"
    else if negb (requester =s localOrchestratorL2Name) then sendTimerError m verb "TIMER_FORBIDDEN"
    else if negb (isCanonicalL2Name owner) then sendTimerError m verb "TIMER_INVALID_PAYLOAD"
    else
      ask! deleted := DeleteOwner owner in
      match deleted with
      | Some n => sendTimerResponse m (APurged n)
      | None => sendTimerError m verb "TIMER_STORAGE_ERROR"
      end
  end.

Definition isInfrastructureMessage (m : Msg) : bool :=
  str_is_empty (sourceL2Name m)
  || str_mem (rawMsgName m) [""; "HELLO"; "ANNOUNCE"; "WITHDRAW"; "ECHO"; "ECHO_REPLY"; MSG_UNREACHABLE; MSG_TTL_EXCEEDED]
  || ends_with (rawMsgName m) "_RESPONSE".

(** The verbs that only tell the time, or what the node takes. *)
Definition plain_verb (name : string) : bool :=
  str_mem name ["TIMER_NOW"; "TIMER_NOW_IN"; "TIMER_CONVERT"; "TIMER_PARSE"; "TIMER_FORMAT"; "TIMER_HELP"].

Definition respond (m : Msg) : Prog unit :=
  let name := rawMsgName m in
  if isInfrastructureMessage m then Ret ()
  else if name =s "NODE_STATUS_GET" then ask! _ := Reply m (APlain (status_answer E m)) in Ret ()
  else if plain_verb name then ask! now := Now in sendTimerResponse m (APlain (plain_answer E m now))
  else if name =s "TIMER_SCHEDULE" then respondTimerSchedule m
  else if name =s "TIMER_SCHEDULE_RECURRING" then respondTimerScheduleRecurring m
  else if name =s "TIMER_GET" then respondTimerGet m
  else if name =s "TIMER_LIST" then respondTimerList m
  else if name =s "TIMER_CANCEL" then respondTimerCancel m
  else if name =s "TIMER_RESCHEDULE" then respondTimerReschedule m
  else if name =s "TIMER_PURGE_OWNER" then respondTimerPurgeOwner m
  else sendTimerError m name "TIMER_INTERNAL".

Definition handleMessage (m : Msg) : Prog unit :=
  if negb (msg_type (meta m) =s SYSTEM_KIND) then Ret ()
  else if rawMsgName m =s MSG_UNREACHABLE then
    call! took := undelivered (trace_id (routing m)) (read_reason E (msg_payload m)) in
    if took : bool then Ret () else respond m
  else respond m.

(** ** The shared state, and an operation on it *)

(** What happened: a row inserted, an update run (of no row, when the row was purged), a read that failed,
    a fire handed to the router, an answer. *)
Inductive Event :=
| Inserted (r : timerRow)
| Wrote (who : Writer) (r : timerRow)
| ReadFailed (u : string)
| Fired (f : fireAttempt) (actual : Z)
| Replied (m : Msg) (a : TimerAnswer).

Record Shared := mkShared {
  db : gmap string timerRow; heap : list timerHeapEntry; sent : gmap string fireAttempt;
  clock : Z; fresh : nat; log : list Event }.

Definition set_db f (s : Shared) : Shared := mkShared (f (db s)) (heap s) (sent s) (clock s) (fresh s) (log s).
Definition set_heap h (s : Shared) : Shared := mkShared (db s) h (sent s) (clock s) (fresh s) (log s).
Definition set_sent f (s : Shared) : Shared := mkShared (db s) (heap s) (f (sent s)) (clock s) (fresh s) (log s).
Definition set_clock t (s : Shared) : Shared := mkShared (db s) (heap s) (sent s) t (fresh s) (log s).
Definition next_fresh (s : Shared) : Shared := mkShared (db s) (heap s) (sent s) (clock s) (S (fresh s)) (log s).
Definition add_log e (s : Shared) : Shared := mkShared (db s) (heap s) (sent s) (clock s) (fresh s) (log s ++ [e]).

Definition is_pending (r : timerRow) : bool := bool_decide (Status r = pending).

(** [idx_timers_owner_clientref_pending]: another row that is pending under the same owner and reference. *)
Definition ref_taken (r : timerRow) (rows : gmap string timerRow) : Prop :=
  Status r = pending /\ exists u r', rows !! u = Some r' /\ u <> UUID r /\ Status r' = pending
    /\ OwnerL2Name r' = OwnerL2Name r /\ ClientRef r <> None /\ ClientRef r' = ClientRef r.

(** [validateTimerRow], of a row whose kind, policy and status are written. *)
Definition validateTimerRow (r : timerRow) : bool :=
  negb (str_is_empty (UUID r) || str_is_empty (OwnerL2Name r) || str_is_empty (TargetL2Name r) || str_is_empty (MissedPolicy r))
  && json_valid E (if str_is_empty (Payload r) then "{}" else Payload r)
  && match Metadata r with Some data => json_valid E data | None => true end.

Definition timer_rows (s : Shared) : list timerRow := map snd (map_to_list (db s)).

Definition by_fire_time (a b : timerRow) : comparison :=
  then_with (Z.compare (FireAtUTC a) (FireAtUTC b)) (String.compare (UUID a) (UUID b)).

(** [listTimers]. *)
Definition listTimers (owner : string) (status : option TimerStatus) (limit : Z) (after : option timerListCursor)
  (s : Shared) : list timerRow :=
  let limit := (if limit <=? 0 then 100 else if limit >? 1000 then 1000 else limit)%Z in
  firstn (Z.to_nat limit) (sort_by by_fire_time (List.filter (fun r =>
    (str_is_empty owner || (OwnerL2Name r =s owner))
    && match status with Some st => bool_decide (Status r = st) | None => true end
    && match after with
       | Some c => (c_fire_at c <? FireAtUTC r)%Z
                   || ((FireAtUTC r =? c_fire_at c)%Z && match String.compare (UUID r) (c_uuid c) with Gt => true | _ => false end)
       | None => true
       end) (timer_rows s))).

Definition countPendingTimers (P : timerRow -> bool) (s : Shared) : Z :=
  Z.of_nat (length (List.filter (fun r => is_pending r && P r) (timer_rows s))).

(** [findPendingTimerByClientRef]: the index leaves one at most. *)
Definition findPendingTimerByClientRef (owner ref : string) (s : Shared) : Read :=
  match List.find (fun r => is_pending r && (OwnerL2Name r =s owner) && opt_str_is (ClientRef r) ref) (timer_rows s) with
  | Some r => Row r
  | None => NoRows
  end.

Definition getTimer (u : string) (s : Shared) : Read :=
  match db s !! u with Some r => Row r | None => NoRows end.

(** A row the collection of the start deletes. *)
Definition historical (cutoff : Z) (r : timerRow) : bool :=
  negb (is_pending r) && (unwrap_or (CreatedAtUTC r) (LastFiredAtUTC r) <? cutoff)%Z.

(** The least entry of the heap is taken, when it is due; entries due at the same time come in any order. *)
Definition popped (now : Z) (h : list timerHeapEntry) (x : option timerHeapEntry) (h' : list timerHeapEntry) : Prop :=
  match x with
  | Some e => h ≡ₚ e :: h' /\ (e_fire_at e <= now)%Z /\ Forall (fun e' => e_fire_at e <= e_fire_at e')%Z h'
  | None => h' = h /\ Forall (fun e => now < e_fire_at e)%Z h
  end.

(** What an operation does and answers. Every call of the database may fail, and every send. *)
Definition op_step (o : Op) (s : Shared) : Res o -> Shared -> Prop :=
  match o return Res o -> Shared -> Prop with
  | Now => fun x s' => x = clock s /\ s' = s
  | NewUUID => fun x s' => x = new_uuid E (fresh s) /\ s' = next_fresh s
  | GetTimer u => fun x s' => (x = getTimer u s /\ s' = s) \/ (x = DbError /\ s' = add_log (ReadFailed u) s)
  | FindPending owner ref => fun x s' => (x = findPendingTimerByClientRef owner ref s \/ x = DbError) /\ s' = s
  | CountOwned owner => fun x s' => (x = Some (countPendingTimers (fun r => OwnerL2Name r =s owner) s) \/ x = None) /\ s' = s
  | CountPending => fun x s' => (x = Some (countPendingTimers (fun _ => true) s) \/ x = None) /\ s' = s
  | ListTimers owner st limit after => fun x s' => (x = Some (listTimers owner st limit after s) \/ x = None) /\ s' = s
  | ListPending => fun x s' =>
      (x = Some (sort_by (fun a b => Z.compare (FireAtUTC a) (FireAtUTC b)) (List.filter is_pending (timer_rows s))) \/ x = None)
      /\ s' = s
  | InsertTimer r => fun x s' =>
      match x with
      | InsertOk => validateTimerRow r = true /\ db s !! UUID r = None /\ ~ ref_taken r (db s)
                    /\ s' = add_log (Inserted r) (set_db <[UUID r := r]> s)
      | InsertUnique => ref_taken r (db s) /\ s' = s
      | InsertError => s' = s
      end
  | UpdateTimer who r => fun x s' =>
      if x then validateTimerRow r = true
                /\ s' = add_log (Wrote who r) (match db s !! UUID r with
                                               | Some _ => set_db <[UUID r := r]> s
                                               | None => s
                                               end)
                /\ (is_Some (db s !! UUID r) -> ~ ref_taken r (db s))
      else s' = s
  | DeleteOwner owner => fun x s' =>
      (x = Some (Z.of_nat (length (List.filter (fun r => OwnerL2Name r =s owner) (timer_rows s))))
       /\ s' = set_db (filter (fun p => OwnerL2Name p.2 <> owner)) s)
      \/ (x = None /\ s' = s)
  | GcHistory cutoff => fun x s' =>
      (x = Some (Z.of_nat (length (List.filter (historical cutoff) (timer_rows s))))
       /\ s' = set_db (filter (fun p => historical cutoff p.2 = false)) s)
      \/ (x = None /\ s' = s)
  | Push e => fun _ s' => s' = set_heap (e :: heap s) s
  | PopDue now => fun x s' => exists h', popped now (heap s) x h' /\ s' = set_heap h' s
  | KeepSent trace f => fun _ s' =>
      s' = set_sent (fun m => <[trace := f]> (filter (fun p => sentAt f - sentAt p.2 <= deliveryAnswerWindow_ms)%Z m)) s
  | ForgetSent trace => fun _ s' => s' = set_sent (delete trace) s
  | TakeSent trace => fun x s' => x = sent s !! trace /\ s' = set_sent (delete trace) s
  | SendFired f actual trace => fun x s' =>
      match x with SendOk => s' = add_log (Fired f actual) s | _ => s' = s end
  | Reply m a => fun x s' => match x with SendOk => s' = add_log (Replied m a) s | _ => s' = s end
  end.

(** ** The node *)

(** What the goroutines are at: [Sleeping] is the scheduler's wait, [Working] a turn of [processDue]. *)
Inductive Sched := Sleeping | Working (now : Z) (p : Prog bool).

Inductive Phase :=
| Down
| Starting (p : Prog bool)
| Serving (server : Prog unit) (sched : Sched).

Inductive timer_step : Phase * Shared -> Phase * Shared -> Prop :=
| st_start s : timer_step (Down, s) (Starting timer_main, s)
| st_boot o k s x s' : op_step o s x s' -> timer_step (Starting (Act o k), s) (Starting (k x), s')
| st_fatal s : timer_step (Starting (Ret false), s) (Down, mkShared (db s) [] ∅ (clock s) (fresh s) (log s))
| st_serve s : timer_step (Starting (Ret true), s) (Serving (Ret ()) Sleeping, s)
| st_message m sc s : timer_step (Serving (Ret ()) sc, s) (Serving (handleMessage m) sc, s)
| st_server o k sc s x s' : op_step o s x s' -> timer_step (Serving (Act o k) sc, s) (Serving (k x) sc, s')
| st_wake sv s : timer_step (Serving sv Sleeping, s) (Serving sv (Working (clock s) (processDue (clock s))), s)
| st_again sv now s : timer_step (Serving sv (Working now (Ret true)), s) (Serving sv (Working now (processDue now)), s)
| st_rest sv now s : timer_step (Serving sv (Working now (Ret false)), s) (Serving sv Sleeping, s)
| st_sched sv now o k s x s' :
    op_step o s x s' -> timer_step (Serving sv (Working now (Act o k)), s) (Serving sv (Working now (k x)), s')
| st_tick ph s t : (clock s <= t)%Z -> timer_step (ph, s) (ph, set_clock t s)
| st_crash ph s : timer_step (ph, s) (Down, mkShared (db s) [] ∅ (clock s) (fresh s) (log s)).

Inductive timer_reachable : Phase * Shared -> Prop :=
| tr_new t : timer_reachable (Down, mkShared ∅ [] ∅ t 0 [])
| tr_step c c' : timer_reachable c -> timer_step c c' -> timer_reachable c'.

End Timer.
