(* ===== verification/SyTimerSafety.v ===== *)
(** * What SY.timer keeps through every interleaving

    Its two goroutines share the database, the heap and the fires sent; neither holds a lock over what
    the other does between its own operations. Each is shown to keep the invariant whatever the other
    does meanwhile, of which only the kinds of events it may add are known. *)

From Stdlib Require Import ZArith Lia String.
From stdpp Require Import base list strings gmap.
From S2P Require Import Prelude Protocol WfDef SyTimer.
Open Scope string_scope.
Open Scope timer_scope.

#[local] Abbreviation Msg := (Message string).

(** ** What a row keeps of the request that made it *)

Definition ident (r : timerRow) :=
  (UUID r, OwnerL2Name r, TargetL2Name r, ClientRef r, Kind r, Payload r, Metadata r, MissedPolicy r).

Lemma ident_parts r r0 : ident r = ident r0 ->
  UUID r = UUID r0 /\ OwnerL2Name r = OwnerL2Name r0 /\ TargetL2Name r = TargetL2Name r0 /\ Kind r = Kind r0.
Proof. unfold ident. intros H. by injection H. Qed.

Definition made (r : timerRow) (l : list Event) : Prop := exists r0, Inserted r0 ∈ l /\ ident r = ident r0.

Lemma made_app r l l' : made r l -> made r (l ++ l')%list.
Proof. intros (r0 & ? & ?). exists r0. split; [apply elem_of_app; by left|done]. Qed.

Lemma made_status st r l : made r l -> made (set_status st r) l. Proof. done. Qed.
Lemma made_fire_at t r l : made r l -> made (set_fire_at t r) l. Proof. done. Qed.
Lemma made_counted a r l : made r l -> made (count_fire a r) l. Proof. done. Qed.

(** ** Counts *)

Definition wrote_by (w : Writer) (u : string) (e : Event) : bool :=
  match e with
  | Wrote w' r => match w, w' with ByFire, ByFire | ByReschedule, ByReschedule => UUID r =s u | _, _ => false end
  | _ => false
  end.

(** The first send of a fire of [u]. *)
Definition fired_first (u : string) (e : Event) : bool :=
  match e with Fired f _ => (UUID (fa_row f) =s u) && (attempt f =? 1)%Z | _ => false end.

Definition count (P : Event -> bool) (l : list Event) : Z := Z.of_nat (length (List.filter P l)).

Definition fires (u : string) : list Event -> Z := count (wrote_by ByFire u).
Definition reschedules (u : string) : list Event -> Z := count (wrote_by ByReschedule u).
Definition first_sends (u : string) : list Event -> Z := count (fired_first u).

Lemma count_app P l l' : count P (l ++ l')%list = (count P l + count P l')%Z.
Proof. unfold count. rewrite List.filter_app, length_app. lia. Qed.

Lemma count_one P e : count P [e] = if P e then 1%Z else 0%Z.
Proof. unfold count. cbn. by destruct (P e). Qed.

Lemma count_nonneg P l : (0 <= count P l)%Z.
Proof. unfold count. lia. Qed.

Lemma count_none P l : (forall e, e ∈ l -> P e = false) -> count P l = 0%Z.
Proof.
  induction l as [|e l IH]; intros H; [done|]. change (e :: l) with ([e] ++ l)%list. rewrite count_app, count_one, H by left.
  rewrite IH; [lia|]. intros e' He. apply H. by right.
Qed.

Section Safety.
Context (E : TimerEnv).

(** The generator of UUIDs gives none twice. *)
Hypothesis uuid_unique : forall n k, new_uuid E n = new_uuid E k -> n = k.

(** ** The invariant *)

Definition fire_ok (f : fireAttempt) (s : Shared) : Prop :=
  made (fa_row f) (log s) /\ (FireAtUTC (fa_row f) <= clock s)%Z /\ (1 <= attempt f)%Z.

Definition open_shot (r : timerRow) : Prop := Kind r = oneshot /\ Status r = pending.

Record Inv (s : Shared) : Prop := mk_Inv {
  v_rows : forall u r, db s !! u = Some r -> UUID r = u /\ made r (log s);
  v_inserted : forall r, Inserted r ∈ log s ->
    (exists n, (n < fresh s)%nat /\ UUID r = new_uuid E n) /\ checkTimerTarget (OwnerL2Name r) (TargetL2Name r) = true;
  v_once : forall r r', Inserted r ∈ log s -> Inserted r' ∈ log s -> UUID r = UUID r' -> r = r';
  v_wrote : forall w r, Wrote w r ∈ log s -> made r (log s);
  v_open : forall u r, db s !! u = Some r -> open_shot r -> (fires u (log s) <= reschedules u (log s))%Z;
  v_shots : forall r, Inserted r ∈ log s -> Kind r = oneshot ->
    (fires (UUID r) (log s) <= reschedules (UUID r) (log s) + 1)%Z;
  v_sends : forall u, (first_sends u (log s) <= fires u (log s))%Z;
  v_heap : forall e f, e ∈ heap s -> e_retry e = Some f -> fire_ok f s /\ (2 <= attempt f)%Z;
  v_sent : forall t f, sent s !! t = Some f -> fire_ok f s;
  v_fired : forall f a, Fired f a ∈ log s -> made (fa_row f) (log s) /\ (FireAtUTC (fa_row f) <= a)%Z }.

(** ** What a goroutine may add to what happened *)

(** A failed read, or an answer. *)
Definition inert (e : Event) : Prop := match e with ReadFailed _ | Replied _ _ => True | _ => False end.
Definition server_may (e : Event) : Prop := match e with Wrote ByFire _ | Fired _ _ => False | _ => True end.
Definition sched_may (e : Event) : Prop := match e with Wrote ByFire _ | Fired _ _ => True | _ => inert e end.
Definition start_may (e : Event) : Prop := match e with Wrote ByReplay _ => True | _ => inert e end.

Record adds (may : Event -> Prop) (s s' : Shared) : Prop := mk_adds {
  ad_log : exists l, log s' = (log s ++ l)%list /\ Forall may l;
  ad_clock : (clock s <= clock s')%Z;
  ad_fresh : (fresh s <= fresh s')%nat }.

Lemma adds_refl may s : adds may s s.
Proof. split; [exists []; by rewrite app_nil_r|lia|lia]. Qed.

Lemma adds_trans may s1 s2 s3 : adds may s1 s2 -> adds may s2 s3 -> adds may s1 s3.
Proof.
  intros [(l & Hl & Hm) ? ?] [(l' & Hl' & Hm') ? ?]. split; [|lia|lia]. exists (l ++ l')%list.
  rewrite Hl', Hl, app_assoc. split; [done|]. by apply Forall_app.
Qed.

Lemma adds_weaken (may may' : Event -> Prop) s s' : (forall e, may e -> may' e) -> adds may s s' -> adds may' s s'.
Proof. intros H [(l & Hl & Hm) ? ?]. split; [|done|done]. exists l. split; [done|]. eapply Forall_impl; [exact Hm|exact H]. Qed.

Lemma adds_made may s s' r : adds may s s' -> made r (log s) -> made r (log s').
Proof. intros [(l & Hl & _) _ _] H. rewrite Hl. by apply made_app. Qed.

Lemma adds_fire_ok may s s' f : adds may s s' -> fire_ok f s -> fire_ok f s'.
Proof. intros Ha (H1 & H2 & H3). split; [by eapply adds_made|]. split; [|done]. destruct Ha. lia. Qed.

Lemma adds_count may P s s' : adds may s s' -> (count P (log s) <= count P (log s'))%Z.
Proof. intros [(l & Hl & _) _ _]. rewrite Hl, count_app. pose proof (count_nonneg P l). lia. Qed.

Lemma adds_count_same may P s s' : adds may s s' -> (forall e, may e -> P e = false) -> count P (log s') = count P (log s).
Proof.
  intros [(l & Hl & Hm) _ _] HP. rewrite Hl, count_app, (count_none P l); [lia|].
  intros e He. rewrite Forall_forall in Hm. by apply HP, Hm.
Qed.

(** ** Parts of a step *)

Ltac in_log := repeat match goal with
  | H : _ ∈ (_ ++ [_])%list |- _ => apply elem_of_app in H as [H|H]
  | H : _ ∈ [_] |- _ => apply elem_of_cons in H as [H|H]; [|by apply elem_of_nil in H]
  end.

Lemma count_snoc P l e : count P (l ++ [e])%list = (count P l + if P e then 1 else 0)%Z.
Proof. by rewrite count_app, count_one. Qed.

(** An event that no count sees. *)
Lemma Inv_inert e s : Inv s -> inert e -> Inv (add_log e s).
Proof.
  intros [H1 H2 H3 H4 H5 H6 H7 H8 H9 H10] He.
  assert (forall P, (forall e', inert e' -> P e' = false) -> count P (log s ++ [e])%list = count P (log s)) as Hc
    by (intros P HP; rewrite count_snoc, (HP e He); lia).
  assert (forall w u, count (wrote_by w u) (log s ++ [e])%list = count (wrote_by w u) (log s)) as Hw
    by (intros w u; apply Hc; by intros []).
  split; cbn; unfold fires, reschedules, first_sends, fire_ok in *; cbn; rewrite ?Hw.
  - intros u r Hr. destruct (H1 u r Hr). split; [done|by apply made_app].
  - intros r Hr. in_log; [by apply H2|by subst].
  - intros r r' Hr Hr'. in_log; try by subst. by apply H3.
  - intros w r Hr. in_log; [by eapply made_app, H4|by subst].
  - intros u r Hr Ho. rewrite !Hw. by eapply H5.
  - intros r Hr. in_log; [rewrite !Hw; by apply H6|by subst].
  - intros u. rewrite !Hw, (Hc (fired_first u)) by by intros []. apply H7.
  - intros e' f He' Hf. destruct (H8 e' f He' Hf) as ((? & ? & ?) & ?). split; [|done]. split; [by apply made_app|done].
  - intros t f Hf. destruct (H9 t f Hf) as (? & ? & ?). split; [by apply made_app|done].
  - intros f a Hf. in_log; [|by subst]. destruct (H10 f a Hf). split; [by apply made_app|done].
Qed.

Lemma Inv_heap h s : Inv s -> (forall e f, e ∈ h -> e_retry e = Some f -> fire_ok f s /\ (2 <= attempt f)%Z) -> Inv (set_heap h s).
Proof. by intros [] Hh. Qed.

Lemma Inv_sent g s : Inv s -> (forall t f, g (sent s) !! t = Some f -> fire_ok f s) -> Inv (set_sent g s).
Proof. by intros [] Hh. Qed.

Lemma Inv_next_fresh s : Inv s -> Inv (next_fresh s).
Proof.
  intros [H1 H2 H3 H4 H5 H6 H7 H8 H9 H10]. split; try done. intros r Hr. destruct (H2 r Hr) as ((n & ? & ?) & ?).
  split; [|done]. exists n. cbn. split; [lia|done].
Qed.

Lemma Inv_sub g s : Inv s -> (forall u r, g (db s) !! u = Some r -> db s !! u = Some r) -> Inv (set_db g s).
Proof. intros [H1 H2 H3 H4 H5 H6 H7 H8 H9 H10] Hg. split; try done; cbn; intros u r Hr%Hg; [by apply H1|by eapply H5]. Qed.

Lemma Inv_clock t s : Inv s -> (clock s <= t)%Z -> Inv (set_clock t s).
Proof.
  intros [H1 H2 H3 H4 H5 H6 H7 H8 H9 H10] Ht. split; try done; cbn.
  - intros e f He Hf. destruct (H8 e f He Hf) as ((? & ? & ?) & ?). split; [|done]. split; [done|]. cbn. split; [lia|done].
  - intros t' f Hf. destruct (H9 t' f Hf) as (? & ? & ?). split; [done|]. cbn. split; [lia|done].
Qed.

Lemma adds_one may e s : may e -> adds may s (add_log e s).
Proof. intros He. split; cbn; [|lia|lia]. exists [e]. split; [done|]. by constructor. Qed.

(** An operation that writes no row, sends no fire and queues no retry. *)
Definition plain_op (o : Op) : Prop :=
  match o with
  | InsertTimer _ | UpdateTimer _ _ | KeepSent _ _ | SendFired _ _ _ => False
  | Push e => e_retry e = None
  | _ => True
  end.

Lemma Inv_popped now s x h : Inv s -> popped now (heap s) x h -> Inv (set_heap h s).
Proof.
  intros Hi Hp. apply Inv_heap; [done|]. intros e f He Hf. apply (v_heap s Hi e f); [|done].
  destruct x as [e0|]; destruct Hp as (Hp & _); [|by rewrite <- Hp]. rewrite Hp. by right.
Qed.

Lemma plain_step o s x s' : plain_op o -> Inv s -> op_step E o s x s' -> Inv s' /\ adds inert s s'.
Proof.
  intros Ho Hi. assert (Inv s /\ adds inert s s) as Hs by (split; [done|apply adds_refl]).
  destruct o; cbn in *; try done.
  - by intros [_ ->].
  - intros [_ ->]. split; [by apply Inv_next_fresh|]. split; cbn; [exists []; by rewrite app_nil_r|lia|lia].
  - intros [[_ ->]|[_ ->]]; [done|]. split; [by apply Inv_inert|by apply adds_one].
  - by intros [_ ->].
  - by intros [_ ->].
  - by intros [_ ->].
  - by intros [_ ->].
  - by intros [_ ->].
  - intros [[_ ->]|[_ ->]]; [|done]. split; [|by split; [exists []; by rewrite app_nil_r|cbn; lia|cbn; lia]].
    apply Inv_sub; [done|]. intros u r [Hr _]%map_lookup_filter_Some. done.
  - intros [[_ ->]|[_ ->]]; [|done]. split; [|by split; [exists []; by rewrite app_nil_r|cbn; lia|cbn; lia]].
    apply Inv_sub; [done|]. intros u r [Hr _]%map_lookup_filter_Some. done.
  - intros ->. split; [|by split; [exists []; by rewrite app_nil_r|cbn; lia|cbn; lia]]. apply Inv_heap; [done|].
    intros e' f He Hf. apply elem_of_cons in He as [->|He]; [congruence|by eapply v_heap].
  - intros (h & Hp & ->). split; [by eapply Inv_popped|by split; [exists []; by rewrite app_nil_r|cbn; lia|cbn; lia]].
  - intros ->. split; [|by split; [exists []; by rewrite app_nil_r|cbn; lia|cbn; lia]]. apply Inv_sent; [done|].
    intros t f [_ Hf]%lookup_delete_Some. by eapply v_sent.
  - intros [_ ->]. split; [|by split; [exists []; by rewrite app_nil_r|cbn; lia|cbn; lia]]. apply Inv_sent; [done|].
    intros t f [_ Hf]%lookup_delete_Some. by eapply v_sent.
  - destruct x; intros ->; [|done..]. split; [by apply Inv_inert|by apply adds_one].
Qed.

(** ** Writes *)

Definition unused (u : string) (s : Shared) : Prop := forall r, Inserted r ∈ log s -> UUID r <> u.

Lemma made_app_in r l e : made r l -> made r (l ++ [e])%list.
Proof. apply made_app. Qed.
Hint Resolve made_app_in : core.

Lemma fire_ok_add f e s : fire_ok f s -> fire_ok f (add_log e s).
Proof. intros (? & ? & ?). split; [by apply made_app|done]. Qed.

Lemma unused_fires u s : Inv s -> unused u s -> fires u (log s) = 0%Z.
Proof.
  intros Hi Hu. apply count_none. intros [] He; try done. destruct who; try done. cbn.
  destruct (v_wrote _ Hi _ _ He) as (r0 & Hr0 & Hid). apply String.eqb_neq. intros <-. apply (Hu r0 Hr0). by injection Hid.
Qed.

Lemma Inv_insert r s : Inv s -> unused (UUID r) s -> (exists n, (n < fresh s)%nat /\ UUID r = new_uuid E n) ->
  checkTimerTarget (OwnerL2Name r) (TargetL2Name r) = true ->
  Inv (add_log (Inserted r) (set_db <[UUID r := r]> s)).
Proof.
  intros Hi Hu Hn Ht. pose proof (unused_fires _ _ Hi Hu) as Hf. destruct Hi as [H1 H2 H3 H4 H5 H6 H7 H8 H9 H10].
  assert (forall P, (forall r, P (Inserted r) = false) -> count P (log s ++ [Inserted r])%list = count P (log s)) as Hc
    by (intros P HP; rewrite count_snoc, HP; lia).
  unfold fires, reschedules, first_sends in *. split; cbn; unfold fires, reschedules, first_sends; try (intros; rewrite !Hc by done).
  - intros u r' Hr'. destruct (decide (u = UUID r)) as [->|Hne].
    + rewrite lookup_insert_eq in Hr'. injection Hr' as <-. split; [done|]. exists r. split; [|done]. apply elem_of_app. right. left.
    + rewrite lookup_insert_ne in Hr' by done. destruct (H1 u r' Hr'). auto.
  - intros r' Hr'. in_log; [by apply H2|]. injection Hr' as ->. done.
  - intros r1 r2 Hr1 Hr2 Heq. in_log; [by apply H3| | |congruence].
    + injection Hr1 as ->. by destruct (Hu r2).
    + injection Hr2 as ->. by destruct (Hu r1).
  - intros w r' Hr'. in_log; [by eauto|done].
  - rename select (_ !! _ = _) into Hr'. destruct (decide (u = UUID r)) as [->|Hne].
    + rewrite Hf. apply count_nonneg.
    + rewrite lookup_insert_ne in Hr' by done. by eapply H5.
  - rename select (_ ∈ _) into Hr'. in_log; [by apply H6|]. injection Hr' as ->. rewrite Hf.
    pose proof (count_nonneg (wrote_by ByReschedule (UUID r)) (log s)). lia.
  - apply H7.
  - intros e f He Hr'. destruct (H8 e f He Hr') as ((? & ? & ?) & ?). split; [|done]. split; [by apply made_app|done].
  - intros t f Hr'. destruct (H9 t f Hr') as (? & ? & ?). split; [by apply made_app|done].
  - intros f a Hr'. in_log; [|done]. destruct (H10 f a Hr'). auto.
Qed.

(** When a writer may write a row. *)
Definition may_write (w : Writer) (r : timerRow) (s : Shared) : Prop :=
  match w with
  | ByFire => Kind r = oneshot -> Status r <> pending /\ (fires (UUID r) (log s) <= reschedules (UUID r) (log s))%Z
  | ByReschedule => True
  | ByCancel | ByReplay => ~ open_shot r
  end.

Lemma made_kind s r r0 : Inv s -> made r (log s) -> Inserted r0 ∈ log s -> UUID r0 = UUID r -> Kind r0 = Kind r.
Proof.
  intros Hi (r1 & Hr1 & Hid) Hr0 Hu. destruct (ident_parts _ _ Hid) as (Hu1 & _ & _ & ->). f_equal.
  apply (v_once s Hi); congruence.
Qed.

Lemma wrote_by_other w w' r u : UUID r <> u -> wrote_by w u (Wrote w' r) = false.
Proof. intros Hne. by destruct w, w'; cbn; rewrite ?(proj2 (String.eqb_neq _ _) Hne). Qed.

Lemma Inv_write w r s : Inv s -> made r (log s) -> may_write w r s ->
  Inv (add_log (Wrote w r) (match db s !! UUID r with Some _ => set_db <[UUID r := r]> s | None => s end)).
Proof.
  intros Hi Hr Hm.
  set (s1 := match db s !! UUID r with Some _ => set_db <[UUID r := r]> s | None => s end).
  assert (log s1 = log s /\ heap s1 = heap s /\ sent s1 = sent s /\ clock s1 = clock s /\ fresh s1 = fresh s) as (L & Hh & Hse & Hcl & Hfr)
    by (unfold s1; by case_match).
  assert (forall u r', db s1 !! u = Some r' -> (u = UUID r /\ r' = r) \/ (u <> UUID r /\ db s !! u = Some r')) as Hdb.
  { intros u r' Hu. unfold s1 in Hu. destruct (decide (u = UUID r)) as [->|Hne].
    - left. destruct (db s !! UUID r) eqn:Er; [cbn in Hu; rewrite lookup_insert_eq in Hu; by injection Hu|congruence].
    - right. split; [done|]. destruct (db s !! UUID r); [|done]. cbn in Hu. by rewrite lookup_insert_ne in Hu. }
  pose proof (made_kind s r) as Hk. destruct Hi as [H1 H2 H3 H4 H5 H6 H7 H8 H9 H10] eqn:Hinv.
  split; cbn [add_log log db heap sent clock fresh]; rewrite ?L, ?Hh, ?Hse, ?Hfr; clearbody s1.
  - intros u r' [[-> ->]|[_ Hu]]%Hdb; [auto|]. destruct (H1 u r' Hu). auto.
  - intros r' Hr'. in_log; [by apply H2|done].
  - intros r1 r2 Hr1 Hr2. in_log; try done. by apply H3.
  - intros w' r' Hr'. in_log; [by eauto|]. injection Hr' as -> ->. auto.
  - intros u r' Hu Ho. unfold fires, reschedules. rewrite !count_snoc. apply Hdb in Hu as [[-> ->]|[Hne Hu]].
    + destruct w; cbn -[count]; rewrite ?(proj2 (String.eqb_eq _ _) eq_refl).
      * destruct Ho. by destruct Hm.
      * by destruct Hm.
      * destruct Hr as (r0 & Hr0 & Hid), Ho as [Ho _]. destruct (ident_parts _ _ Hid) as (Hu & _ & _ & Hkd).
        pose proof (H6 r0 Hr0) as Hs. unfold fires, reschedules in Hs. rewrite <- Hkd, <- Hu in Hs. specialize (Hs Ho). lia.
      * by destruct Hm.
    + rewrite !wrote_by_other by done. pose proof (H5 u r' Hu Ho). unfold fires, reschedules in *. lia.
  - intros r' Hr' Ho. in_log; [|done]. pose proof (H6 r' Hr' Ho) as Hs. unfold fires, reschedules in *. rewrite !count_snoc.
    destruct (decide (UUID r = UUID r')) as [Heq|Hne]; [|rewrite !wrote_by_other by done; lia].
    rewrite <- Heq in *. destruct w; cbn -[count]; rewrite ?(proj2 (String.eqb_eq _ _) eq_refl); try lia.
    destruct Hm as [_ Hm]; [|unfold fires, reschedules in Hm; lia]. rewrite <- Ho. symmetry. by apply Hk.
  - intros u. unfold first_sends, fires. rewrite !count_snoc. pose proof (H7 u). unfold first_sends, fires in *. cbn. case_match; lia.
  - intros e f He Hf. destruct (H8 e f He Hf) as ((? & ? & ?) & ?). split; [|done]. split; cbn; [rewrite L; auto|by rewrite Hcl].
  - intros t f Hf. destruct (H9 t f Hf) as (? & ? & ?). split; cbn; [rewrite L; auto|by rewrite Hcl].
  - intros f a Hf. in_log; [|done]. destruct (H10 f a Hf). auto.
Qed.

Lemma adds_wrote (may : Event -> Prop) w r s : may (Wrote w r) ->
  adds may s (add_log (Wrote w r) (match db s !! UUID r with Some _ => set_db <[UUID r := r]> s | None => s end)).
Proof. intros Hw. case_match; (split; cbn; [exists [Wrote w r]; split; [done|by constructor]|lia|lia]). Qed.

Lemma Inv_fired f a s : Inv s -> fire_ok f s -> (FireAtUTC (fa_row f) <= a)%Z ->
  (attempt f = 1%Z -> (first_sends (UUID (fa_row f)) (log s) < fires (UUID (fa_row f)) (log s))%Z) ->
  Inv (add_log (Fired f a) s).
Proof.
  intros [H1 H2 H3 H4 H5 H6 H7 H8 H9 H10] (Hm & Hc & Ha) Hfa H1st.
  assert (forall w u, count (wrote_by w u) (log s ++ [Fired f a])%list = count (wrote_by w u) (log s)) as Hw
    by (intros w u; rewrite count_snoc; cbn; lia).
  split; cbn; unfold fires, reschedules; try (intros; rewrite !Hw).
  - intros u r Hr. destruct (H1 u r Hr). auto.
  - intros r Hr. in_log; [by apply H2|done].
  - intros r r' Hr Hr'. in_log; try done. by apply H3.
  - intros w r Hr. in_log; [by eauto|done].
  - by eapply H5.
  - rename select (_ ∈ _) into Hr. in_log; [by apply H6|done].
  - unfold first_sends. rewrite count_snoc. cbn. pose proof (H7 u) as Hu. unfold first_sends, fires in *.
    destruct (String.eqb_spec (UUID (fa_row f)) u) as [<-|]; cbn; [|lia]. destruct (Z.eqb_spec (attempt f) 1); [|lia].
    specialize (H1st e). lia.
  - intros e f' He Hf. destruct (H8 e f' He Hf) as ((? & ? & ?) & ?). split; [|done]. split; [by apply made_app|done].
  - intros t f' Hf. destruct (H9 t f' Hf) as (? & ? & ?). split; [by apply made_app|done].
  - intros f' a' Hf. in_log; [|injection Hf as -> ->; auto]. destruct (H10 f' a' Hf). auto.
Qed.

(** ** Programs that keep the invariant, whatever the [other] goroutine does *)

Section Safe.
Context (may other : Event -> Prop).

Fixpoint safe {A} (p : Prog A) (Q : A -> Shared -> Prop) (s : Shared) : Prop :=
  match p with
  | Ret a => Q a s
  | Act o k => forall s1 x s2, adds other s s1 -> Inv s1 -> op_step E o s1 x s2 ->
      Inv s2 /\ adds may s1 s2 /\ safe (k x) Q s2
  end.

Definition stable (P : Shared -> Prop) : Prop := forall s s', adds other s s' -> P s -> P s'.

Lemma safe_stable {A} (p : Prog A) Q : (forall a, stable (Q a)) -> stable (safe p Q).
Proof.
  intros HQ. destruct p as [a|o k]; intros s s' Ha H; [by apply (HQ a s)|].
  intros s1 x s2 Hs1. apply H. by eapply adds_trans.
Qed.

Lemma safe_weaken {A} (p : Prog A) (Q Q' : A -> Shared -> Prop) s :
  (forall a s, Q a s -> Q' a s) -> safe p Q s -> safe p Q' s.
Proof.
  intros HQ. revert s. induction p as [a|o k IH]; intros s H; [by apply HQ|].
  intros s1 x s2 H1 H2 H3. destruct (H s1 x s2 H1 H2 H3) as (? & ? & ?). auto.
Qed.

Lemma safe_andThen {A B} (p : Prog A) (k : A -> Prog B) Q Q' s :
  safe p Q s -> (forall a s, Q a s -> safe (k a) Q' s) -> safe (andThen p k) Q' s.
Proof.
  intros Hp Hk. revert s Hp. induction p as [a|o k' IH]; intros s Hp; [by apply Hk|].
  intros s1 x s2 H1 H2 H3. destruct (Hp s1 x s2 H1 H2 H3) as (? & ? & ?). auto.
Qed.

Context (Hmay : forall e, inert e -> may e) (Hother : forall e, inert e -> other e).

Lemma safe_plain {A} o (k : Res o -> Prog A) Q s : plain_op o ->
  (forall s1 x s2, Inv s1 -> Inv s2 -> adds other s s1 -> adds inert s1 s2 -> op_step E o s1 x s2 -> safe (k x) Q s2) ->
  safe (Act o k) Q s.
Proof.
  intros Ho Hk s1 x s2 H1 Hi Hs. destruct (plain_step o s1 x s2 Ho Hi Hs) as [Hi2 Ha].
  split; [done|]. split; [by eapply adds_weaken|]. by apply (Hk s1).
Qed.

(** What was added, by either side. *)
Lemma adds_both s s1 s2 : adds other s s1 -> adds inert s1 s2 -> adds other s s2.
Proof. intros H1 H2. eapply adds_trans; [exact H1|]. by eapply adds_weaken. Qed.

Fixpoint all_plain {A} (p : Prog A) : Prop :=
  match p with Ret _ => True | Act o k => plain_op o /\ forall x, all_plain (k x) end.

Lemma all_plain_safe {A} (p : Prog A) (Q : A -> Shared -> Prop) s : (forall a s, Q a s) -> all_plain p -> safe p Q s.
Proof.
  intros HQ. revert s. induction p as [a|o k IH]; intros s Hp; [apply HQ|]. destruct Hp as [Ho Hp].
  apply safe_plain; [done|]. intros s1 x s2 _ _ _ _ _. by apply IH.
Qed.

Lemma safe_retryLater f s : fire_ok f s -> safe (retryLater f) (fun _ _ => True) s.
Proof.
  intros Hf. apply safe_plain; [done|]. intros s1 now s2 _ _ H1 H2 _. pose proof (adds_both _ _ _ H1 H2) as H3.
  cbv beta zeta. destruct (_ >? deadline f)%Z; [done|]. intros s3 x s4 H4 Hi ->. split; [|split; [|done]].
  - apply Inv_heap; [done|]. intros e f' He Hf'. apply elem_of_cons in He as [->|He]; [|by eapply v_heap].
    cbn in Hf'. injection Hf' as <-.
    destruct (adds_fire_ok other s s3 f ltac:(by eapply adds_trans) Hf) as (? & ? & ?).
    unfold fire_ok. cbn. split; [split; [done|lia]|lia].
  - split; cbn; [exists []; by rewrite app_nil_r|lia|lia].
Qed.

End Safe.

Lemma inert_server e : inert e -> server_may e. Proof. by destruct e. Qed.
Lemma inert_sched e : inert e -> sched_may e. Proof. by destruct e. Qed.
Lemma inert_start e : inert e -> start_may e. Proof. by destruct e. Qed.
#[local] Hint Resolve inert_server inert_sched inert_start : core.

(** ** The scheduler *)

#[local] Abbreviation sched := (safe sched_may server_may).

(** A first send is still to come. *)
Definition due_send (f : fireAttempt) (s : Shared) : Prop :=
  fire_ok f s /\ (attempt f = 1%Z -> (first_sends (UUID (fa_row f)) (log s) < fires (UUID (fa_row f)) (log s))%Z).

Lemma due_send_adds f s s' : adds server_may s s' -> due_send f s -> due_send f s'.
Proof.
  intros Ha [H1 H2]. split; [by eapply adds_fire_ok|]. unfold first_sends, fires in *.
  rewrite (adds_count_same _ (fired_first _) _ _ Ha), (adds_count_same _ (wrote_by ByFire _) _ _ Ha); [done| |]; by intros [|[]| | |].
Qed.

Lemma safe_deliver f s : due_send f s -> sched (deliver E f) (fun _ _ => True) s.
Proof.
  intros Hf. unfold deliver. apply safe_plain; [by auto..|]. intros s1 now s2 _ _ H1 H2 [-> ->].
  assert (adds server_may s s1) as Ha by done. clear H1 H2.
  assert (due_send (mkAttempt (fa_row f) (attempt f) (deadline f) (clock s1)) s1 /\ (FireAtUTC (fa_row f) <= clock s1)%Z) as [Hf1 Hc].
  { destruct (due_send_adds _ _ _ Ha Hf) as [(? & ? & ?) ?]. done. }
  clear Hf Ha s. set (now := clock s1) in *. clearbody now. apply safe_plain; [by auto..|].
  intros s3 trace s4 _ _ H3 H4 _. apply (due_send_adds _ _ s4) in Hf1; [|by (eapply adds_both; eauto)]. clear H3 H4 s1 s3.
  cbn [fa_row attempt deadline]. set (g := mkAttempt _ _ _ _) in *. intros s5 [] s6 H5 Hi ->.
  apply (due_send_adds _ _ s5) in Hf1; [|done]. split; [|split].
  - apply Inv_sent; [done|]. intros t f'. destruct (decide (t = trace)) as [->|Hne].
    + rewrite lookup_insert_eq. intros [= <-]. apply Hf1.
    + rewrite lookup_insert_ne by done. intros [Hf' _]%map_lookup_filter_Some. by eapply v_sent.
  - split; cbn; [exists []; by rewrite app_nil_r|lia|lia].
  - set (s7 := set_sent _ s5). assert (due_send g s7) as Hg by exact Hf1. clearbody s7. clear Hf1 Hi H5 s4 s5.
    assert (forall b s, fire_ok g s -> sched (ask! _ := ForgetSent trace in if b : bool then retryLater g else Ret ()) (fun _ _ => True) s) as Hu.
    { intros b s Hgs. apply safe_plain; [by auto..|]. intros s1 x s2 _ _ H1 H2 _. destruct b; [|done].
      apply safe_retryLater; [by auto..|]. eapply (adds_fire_ok server_may); [|done]. by (eapply adds_both; eauto). }
    destruct (_ || _); [apply (Hu true s7), Hg|]. intros s1 a s2 H1 Hi Hs. apply (due_send_adds _ _ s1) in Hg; [|done].
    destruct a; cbn in Hs; subst s2; (split; [|split]); try done; try apply adds_refl; try by apply adds_one.
    + apply Inv_fired; [done|apply Hg|done|apply Hg].
    + apply (Hu false s1), Hg.
    + apply (Hu true s1), Hg.
Qed.

Lemma safe_push {A} may other e (k : Res (Push e) -> Prog A) Q s :
  (forall e, inert e -> may e) -> e_retry e = None ->
  (forall s1 s2, adds other s s1 -> log s2 = log s1 -> clock s2 = clock s1 -> safe may other (k ()) Q s2) ->
  safe may other (Act (Push e) k) Q s.
Proof.
  intros Hm He Hk s1 [] s2 H1 Hi Hs. destruct (plain_step (Push e) s1 () s2 He Hi Hs) as [Hi2 Ha].
  split; [done|]. split; [by eapply adds_weaken|]. cbn in Hs. subst s2. by eapply Hk.
Qed.

(** What a fire found of its row when it read it. *)
Definition row_read (r : timerRow) (s : Shared) : Prop :=
  made r (log s) /\ (open_shot r -> (fires (UUID r) (log s) <= reschedules (UUID r) (log s))%Z).

Lemma row_read_adds r s s' : adds server_may s s' -> row_read r s -> row_read r s'.
Proof.
  intros Ha [H1 H2]. split; [by eapply adds_made|]. intros Ho. specialize (H2 Ho). unfold fires, reschedules in *.
  rewrite (adds_count_same _ (wrote_by ByFire _) _ _ Ha) by by intros [|[]| | |].
  pose proof (adds_count _ (wrote_by ByReschedule (UUID r)) _ _ Ha). lia.
Qed.

Lemma row_in_db s u r : Inv s -> db s !! u = Some r -> UUID r = u /\ row_read r s.
Proof. intros Hi Hu. destruct (v_rows s Hi u r Hu) as [Hid Hm]. split; [done|]. split; [done|]. intros Ho. rewrite Hid. by eapply v_open. Qed.

Lemma fire_row_made r actual r' d l : fire_row E r actual = Some (r', d) -> made r l ->
  made r' l /\ UUID r' = UUID r /\ Kind r' = Kind r /\ (Kind r = oneshot -> Status r' = fired).
Proof.
  intros H Hm. unfold fire_row in H. destruct (Kind r) eqn:Ek; [by simplify_eq|].
  destruct (nextRecurringFireAt _ _ _); [|done]. by simplify_eq.
Qed.

Lemma may_fire r actual r' d s : fire_row E r actual = Some (r', d) -> row_read r s -> Status r = pending -> may_write ByFire r' s.
Proof.
  intros H [Hm Ho] Hp. destruct (fire_row_made _ _ _ _ _ H Hm) as (_ & Hu & Hk & Hst). cbn. rewrite Hk, Hu. intros Hone.
  split; [by rewrite Hst|]. by apply Ho.
Qed.

Lemma safe_fireTimerByUUID u now s : (now <= clock s)%Z -> sched (fireTimerByUUID E u now) (fun _ _ => True) s.
Proof.
  intros Hnow. unfold fireTimerByUUID. apply safe_plain; [by auto..|]. intros s1 x s2 Hi _ H1 H2 Hs.
  assert (forall r, x = Row r -> s2 = s1 /\ row_read r s1) as Hx.
  { intros r ->. cbn in Hs. unfold getTimer in Hs. destruct Hs as [[Hx ->]|[[=] _]]. destruct (db s1 !! u) eqn:Hu; [|done].
    injection Hx as ->. split; [done|]. by eapply row_in_db. }
  destruct x as [| |r]; [done..|]. destruct (Hx r eq_refl) as [-> Hr]. clear Hx Hs H2.
  destruct (bool_decide_reflect (Status r = pending)) as [Hp|]; [|done]. cbn [negb].
  destruct (Z.gtb_spec (FireAtUTC r) now); [by apply safe_push; auto|].
  apply safe_plain; [by auto..|]. intros s3 actual s4 _ _ H3 _ [-> ->].
  apply (row_read_adds _ _ s3) in Hr; [|done]. assert (FireAtUTC r <= clock s3)%Z as Hc by (destruct H1, H3; lia).
  clear H1 H3 Hi s1. destruct (fire_row E r (clock s3)) as [[r' d]|] eqn:Hf; [|done].
  intros s5 saved s6 H5 Hi Hs. apply (row_read_adds _ _ s5) in Hr; [|done].
  assert (FireAtUTC r <= clock s5)%Z as Hc5 by (destruct H5; lia).
  destruct (fire_row_made _ _ _ _ _ Hf (proj1 Hr)) as (Hm & Hu & _ & _).
  destruct saved; cbn [negb].
  2:{ cbn in Hs. subst s6. split; [done|]. split; [apply adds_refl|]. by apply safe_push; auto. }
  destruct Hs as (_ & -> & _). split; [by apply Inv_write; [| |eapply may_fire]|]. split; [by apply adds_wrote|].
  assert (due_send (mkAttempt r 1 d 0) (add_log (Wrote ByFire r') (match db s5 !! UUID r' with Some _ => set_db <[UUID r' := r']> s5 | None => s5 end))) as Hd.
  { set (s6 := add_log _ _). assert (log s6 = (log s5 ++ [Wrote ByFire r'])%list /\ clock s6 = clock s5) as [HL HC] by (unfold s6; by case_match).
    split; [split; [rewrite HL; apply made_app, Hr|split; [by rewrite HC|done]]|]. intros _. cbn [fa_row].
    unfold first_sends, fires. rewrite HL, !count_snoc. cbn. rewrite Hu, (proj2 (String.eqb_eq _ _) eq_refl).
    pose proof (v_sends s5 Hi (UUID r)). unfold first_sends, fires in *. lia. }
  destruct (Kind r); [by apply safe_deliver|]. apply safe_push; [by auto..|]. intros s7 s8 H7 HL HC.
  apply safe_deliver. apply (due_send_adds _ _ s7) in Hd; [|done]. destruct Hd as [(? & ? & ?) ?].
  unfold due_send, fire_ok. by rewrite HL, HC.
Qed.

Lemma safe_retryFire f s : fire_ok f s -> (2 <= attempt f)%Z -> sched (retryFire E f) (fun _ _ => True) s.
Proof.
  intros Hf H2. unfold retryFire. apply safe_plain; [by auto..|]. intros s1 x s2 _ _ H1 Hi _.
  assert (fire_ok f s2) as Hf2 by (eapply (adds_fire_ok server_may); [|done]; by (eapply adds_both; eauto)).
  destruct x as [| |r]; [by apply safe_retryLater; auto|done|]. case_bool_decide; [done|]. apply safe_deliver. split; [done|lia].
Qed.

Lemma safe_processDue now s : (now <= clock s)%Z -> sched (processDue E now) (fun _ _ => True) s.
Proof.
  intros Hn. unfold processDue. apply safe_plain; [by auto..|]. intros s1 x s2 Hi _ H1 H2 Hs.
  destruct x as [e|]; [|done]. apply (safe_andThen _ _ _ _ (fun _ _ => True)); [|done].
  destruct (e_retry e) as [f|] eqn:Ef.
  - destruct Hs as (h & (Hp & _ & _) & ->). destruct (v_heap s1 Hi e f) as [Hf Ha]; [rewrite Hp; left|done|].
    by apply safe_retryFire.
  - apply safe_fireTimerByUUID. destruct H1, H2. lia.
Qed.

(** ** The start *)

Lemma safe_update {A} (may other : Event -> Prop) w r (k : Res (UpdateTimer w r) -> Prog A) Q s :
  may (Wrote w r) -> made r (log s) -> (forall s1, adds other s s1 -> may_write w r s1) ->
  (forall b s1 s2, adds other s s1 -> adds may s1 s2 -> safe may other (k b) Q s2) ->
  safe may other (Act (UpdateTimer w r) k) Q s.
Proof.
  intros Hw Hm Hmw Hk s1 b s2 H1 Hi Hs. assert (Inv s2 /\ adds may s1 s2) as [Hi2 Ha].
  { destruct b; cbn in Hs; [|subst s2; split; [done|apply adds_refl]]. destruct Hs as (_ & -> & _).
    split; [|by apply adds_wrote]. apply Inv_write; [done|by eapply adds_made|by apply Hmw]. }
  split; [done|]. split; [done|]. by eapply Hk.
Qed.

Lemma timer_rows_in s r : r ∈ timer_rows s -> exists u, db s !! u = Some r.
Proof. intros [[u r'] [-> Hr]]%list_elem_of_fmap. exists u. by apply elem_of_map_to_list. Qed.

Lemma rows_made s r : Inv s -> r ∈ timer_rows s -> made r (log s).
Proof. intros Hi [u Hu]%timer_rows_in. by eapply v_rows. Qed.

#[local] Abbreviation starting := (safe start_may inert).

(** What was made stays made. *)
Definition extends (s s' : Shared) : Prop := exists l, log s' = (log s ++ l)%list.

Lemma adds_extends may s s' : adds may s s' -> extends s s'.
Proof. intros [(l & Hl & _) _ _]. by exists l. Qed.

Lemma extends_trans s1 s2 s3 : extends s1 s2 -> extends s2 s3 -> extends s1 s3.
Proof. intros [l H1] [l' H2]. exists (l ++ l')%list. by rewrite H2, H1, app_assoc. Qed.

Lemma safe_replay_timer r now s : made r (log s) -> starting (replay_timer E r now) (fun _ s' => extends s s') s.
Proof.
  intros Hm.
  assert (forall (b : bool) t s0, extends s s0 -> starting (ask! _ := push (UUID r) t in Ret b) (fun _ s' => extends s s') s0) as Hpush.
  { intros b t s0 H0. apply safe_push; [by auto..|]. intros s1 s2 H1 HL _. apply (extends_trans _ s0); [done|].
    apply (extends_trans _ s1); [by eapply adds_extends|]. exists []. by rewrite HL, app_nil_r. }
  assert (forall s1 s2, adds inert s s1 -> adds start_may s1 s2 -> extends s s2) as Hext
    by (intros s1 s2 H1 H2; eapply extends_trans; by eapply adds_extends).
  assert (extends s s) as Hs by (exists []; by rewrite app_nil_r).
  assert (starting (ask! saved := UpdateTimer ByReplay (set_status canceled r) in Ret saved) (fun _ s' => extends s s') s) as Hdrop.
  { apply safe_update; [done|done|by intros s1 _ [_ [=]]|]. intros b s1 s2 H1 H2. by eapply Hext. }
  unfold replay_timer. destruct (Kind r) eqn:Ek.
  - destruct (_ >? _)%Z; [by apply Hpush|]. unfold handleMissedTimer. destruct (_ =s _); [by apply Hpush|].
    destruct (_ =s _); [|done]. destruct (MissedWithinMS r) as [within|]; [|done]. destruct (_ <=? _)%Z; [by apply Hpush|done].
  - destruct (nextRecurringFireAt _ _ _) as [next|]; [|done].
    apply safe_update; [done|done|by intros s1 _ [Hk _]; cbn in Hk; congruence|].
    intros b s1 s2 H1 H2. pose proof (Hext _ _ H1 H2). destruct b; [by apply Hpush|done].
Qed.

Lemma extends_made s s' r : extends s s' -> made r (log s) -> made r (log s').
Proof. intros [l ->]. apply made_app. Qed.

Lemma safe_replay_timers rows now s : Forall (fun r => made r (log s)) rows ->
  starting (replay_timers E rows now) (fun _ _ => True) s.
Proof.
  revert s. induction rows as [|r rows IH]; intros s Hr; [done|]. apply Forall_cons in Hr as [Hm Hr].
  apply (safe_andThen _ _ _ _ _ _ _ (safe_replay_timer r now s Hm)). intros [] s' He; [|done]. apply IH.
  eapply Forall_impl; [exact Hr|]. intros r' Hr'. by eapply extends_made.
Qed.

Lemma safe_main s : starting (timer_main E) (fun _ _ => True) s.
Proof.
  unfold timer_main. apply safe_plain; [by auto..|]. intros _ now s1 _ _ _ _ _. apply safe_plain; [by auto..|].
  intros _ x s2 _ _ _ _ _. apply safe_plain; [by auto..|]. intros _ now' s3 _ _ _ _ _.
  unfold replayPending. apply safe_plain; [by auto..|]. intros s4 rows s5 Hi _ _ _ [Hrows ->].
  destruct rows as [rows|]; [|done]. destruct Hrows as [[= ->]|[=]]. apply safe_replay_timers, Forall_forall. intros r Hr.
  apply elem_of_sort_by, list_elem_of_In, filter_In in Hr as [Hr _]. apply rows_made; [done|]. by apply list_elem_of_In.
Qed.

(** ** The server *)

#[local] Abbreviation serving := (safe server_may sched_may).

Lemma plain_response m a : all_plain (sendTimerResponse m a).
Proof. split; [done|]. by intros []. Qed.

Lemma safe_response m a s : serving (sendTimerResponse m a) (fun _ _ => True) s.
Proof. apply all_plain_safe; [by auto..|]. apply plain_response. Qed.

Lemma safe_error m verb code s : serving (sendTimerError m verb code) (fun _ _ => True) s.
Proof. apply safe_response. Qed.
#[local] Hint Resolve safe_response safe_error : core.

(** One step of a handler that knows nothing of what it read. *)
Ltac serve_step :=
  match goal with
  | |- safe _ _ (sendTimerResponse _ _) _ _ => apply safe_response
  | |- safe _ _ (sendTimerError _ _ _) _ _ => apply safe_error
  | |- safe _ _ (Ret _) _ _ => done
  | |- safe _ _ (Act _ _) _ _ => apply safe_plain; [by auto..|]; intros ? ? ? _ _ _ _ _; cbv beta
  | |- safe _ _ (match ?c with _ => _ end) _ _ => destruct c
  | |- safe _ _ (let _ := _ in _) _ _ => cbv zeta
  end.
Ltac serve := repeat serve_step.

Lemma safe_undelivered trace reason s : serving (undelivered trace reason) (fun _ _ => True) s.
Proof.
  unfold undelivered. apply safe_plain; [by auto..|]. intros s1 x s2 Hi _ _ H2 [-> ->].
  destruct (sent s1 !! trace) as [f|] eqn:Hf; [|done]. destruct (transientUnreachable reason); [|done].
  apply (safe_andThen _ _ _ _ (fun _ _ => True)); [|done]. apply safe_retryLater; [by auto..|]. by apply (v_sent s1 Hi trace).
Qed.

Lemma plain_limits owner : all_plain (checkPendingLimits owner).
Proof. split; [done|]. intros [n|]; [|done]. cbv beta iota. destruct (_ <=? _)%Z; [done|]. by split. Qed.

Definition newly (u : string) (s : Shared) : Prop := unused u s /\ exists n, (n < fresh s)%nat /\ u = new_uuid E n.

Lemma newly_adds u s s' : adds sched_may s s' -> newly u s -> newly u s'.
Proof.
  intros [(l & Hl & Hm) _ Hf] [Hu (n & Hn & ->)]. split; [|exists n; split; [lia|done]]. intros r Hr. rewrite Hl in Hr.
  apply elem_of_app in Hr as [Hr|Hr]; [by apply Hu|]. rewrite Forall_forall in Hm. by destruct (Hm _ Hr).
Qed.

Lemma safe_schedule_new m verb owner q kind spec tz fire_at s :
  serving (schedule_new E m verb owner q kind spec tz fire_at) (fun _ _ => True) s.
Proof.
  unfold schedule_new. destruct (check_options E kind owner q) as [[[target policy] payload]|code] eqn:Hopt; [|serve].
  serve_step. destruct (normalizeClientRef (q_client_ref q)) as [ref|]; [|serve]. cbv zeta.
  match goal with |- context [if str_is_empty ref then ?c else _] => set (create := c) end.
  assert (forall s, serving create (fun _ _ => True) s) as Hcreate; [|clearbody create; serve; apply Hcreate].
  intros s0. unfold create. apply (safe_andThen _ _ _ _ (fun _ _ => True)).
  { apply all_plain_safe; [by auto..|]. apply plain_limits. }
  intros [code|] s3 _; [serve|]. apply safe_plain; [by auto..|]. intros s4 u s5 Hi4 _ _ _ [-> ->].
  assert (newly (new_uuid E (fresh s4)) (next_fresh s4)) as Hnew.
  { split; [|exists (fresh s4); cbn; split; [lia|done]]. intros r Hr Heq. destruct (v_inserted s4 Hi4 r Hr) as ((n & Hn & Hu) & _).
    rewrite Hu in Heq. apply uuid_unique in Heq. lia. }
  set (u := new_uuid E (fresh s4)) in *. clearbody u. intros s6 ins s7 H6 Hi6 Hs. apply (newly_adds _ _ s6) in Hnew; [|done].
  destruct ins; cbn in Hs.
  - destruct Hs as (_ & _ & _ & ->). split; [|split; [split; cbn; [eexists [_]; split; [done|by constructor]|lia|lia]|serve]].
    apply Inv_insert; [done|apply Hnew|apply Hnew|]. unfold check_options in Hopt. cbn.
    destruct (negb (isCanonicalL2Name _)); [done|]. destruct (checkTimerTarget owner (trimmed_or owner (q_target q))) eqn:Ht; [|done].
    repeat case_match; simplify_eq/=; done.
  - destruct Hs as [_ ->]. split; [done|]. split; [apply adds_refl|]. serve.
  - subst s7. split; [done|]. split; [apply adds_refl|]. serve.
Qed.

Lemma safe_named ref owner s :
  serving (named ref owner) (fun x s' => match x with Row r => made r (log s') | _ => True end) s.
Proof.
  unfold named. destruct (negb _); (apply safe_plain; [by auto..|]); intros s1 x s2 Hi _ _ _ Hs; destruct x as [| |r]; try done; cbn in *.
  - unfold getTimer in Hs. destruct Hs as [[Hx ->]|[[=] _]]. destruct (db s1 !! ref_uuid ref) eqn:Hu; [|done].
    injection Hx as <-. by eapply v_rows.
  - unfold findPendingTimerByClientRef in Hs. destruct Hs as [[Hx|[=]] ->].
    destruct (List.find _ (timer_rows s1)) as [r'|] eqn:Hf; [|done]. injection Hx as <-.
    apply find_some in Hf as [Hr _]. apply rows_made; [done|]. by apply list_elem_of_In.
Qed.

Lemma safe_owned m ref s :
  serving (owned m ref) (fun x s' => match x with inl r => made r (log s') | _ => True end) s.
Proof.
  unfold owned. destruct (str_is_empty _); [done|]. eapply safe_andThen; [apply safe_named|]. intros x s' Hx. cbn.
  destruct x as [| |r]; try done. by destruct (_ =s _).
Qed.

Lemma safe_respondTimerCancel m s : serving (respondTimerCancel E m) (fun _ _ => True) s.
Proof.
  unfold respondTimerCancel. destruct (_ ≫= _) as [ref|]; [|serve]. eapply safe_andThen; [apply safe_owned|].
  intros [r|[code|]] s' Hr; [|serve..]. case_bool_decide; [serve|].
  apply safe_update; [done|done|by intros s1 _ [_ [=]]|]. intros b s1 s2 _ _. serve.
Qed.

Lemma safe_respondTimerReschedule m s : serving (respondTimerReschedule E m) (fun _ _ => True) s.
Proof.
  unfold respondTimerReschedule. destruct (read_reschedule E _) as [q|]; [|serve].
  destruct (timerReferenceFromRequest _) as [ref|]; [|serve]. eapply safe_andThen; [apply safe_owned|].
  intros [r|[code|]] s' Hr; [|serve..]. case_bool_decide; [serve|]. destruct (negb _); [serve|].
  apply safe_plain; [by auto..|]. intros s1 now s2 _ _ H1 H2 _. destruct (oneShotFireAt _ _ _) as [fire_at|]; [|serve].
  apply safe_update; [done| |done|].
  - change (made r (log s2)). eapply (adds_made sched_may); [|done]. by (eapply adds_both; eauto).
  - intros b s3 s4 _ _. serve.
Qed.

Lemma safe_handleMessage m s : serving (handleMessage E m) (fun _ _ => True) s.
Proof.
  assert (forall s, serving (respond E m) (fun _ _ => True) s) as Hr.
  { intros s0. unfold respond. repeat match goal with |- safe _ _ (if ?c then _ else _) _ _ => destruct c end;
      try apply safe_respondTimerCancel; try apply safe_respondTimerReschedule;
      unfold respondTimerSchedule, respondTimerScheduleRecurring, respondTimerGet, respondTimerList, respondTimerPurgeOwner;
      serve; try apply safe_schedule_new.
    - eapply safe_andThen; [apply safe_named|]. intros x s' _. serve. }
  unfold handleMessage. destruct (negb _); [done|]. destruct (_ =s _); [|apply Hr].
  apply (safe_andThen _ _ _ _ (fun _ _ => True)); [apply safe_undelivered|]. intros [] s' _; [done|apply Hr].
Qed.

(** ** Every state that is reached *)

Definition sys_ok (c : Phase * Shared) : Prop :=
  Inv c.2 /\
  match c.1 with
  | Down => True
  | Starting p => starting p (fun _ _ => True) c.2
  | Serving sv sc =>
    serving sv (fun _ _ => True) c.2
    /\ match sc with
       | Sleeping => True
       | Working now p => (now <= clock c.2)%Z /\ sched p (fun _ _ => True) c.2
       end
  end.

Lemma adds_tick may s t : (clock s <= t)%Z -> adds may s (set_clock t s).
Proof. intros Ht. split; cbn; [exists []; by rewrite app_nil_r|done|lia]. Qed.

Lemma Inv_crash s : Inv s -> Inv (mkShared (db s) [] ∅ (clock s) (fresh s) (log s)).
Proof.
  intros Hi. apply (Inv_sent (fun _ => ∅)) in Hi; [|intros t f; by rewrite lookup_empty].
  apply (Inv_heap []) in Hi; [done|]. by intros e f ?%elem_of_nil.
Qed.


Lemma timer_step_ok c c' : sys_ok c -> timer_step E c c' -> sys_ok c'.
Proof.
  intros [Hi Hp] Hs. destruct Hs; cbn [fst snd] in *.
  - split; [done|]. apply safe_main.
  - destruct (Hp s x s' (adds_refl _ s) Hi H) as (? & _ & ?). by split.
  - split; [by apply Inv_crash|done].
  - by split.
  - destruct Hp as [_ Hp]. split; [done|]. split; [apply safe_handleMessage|done].
  - destruct Hp as [Hv Hc]. destruct (Hv s x s' (adds_refl _ s) Hi H) as (? & Ha & ?). split; [done|]. split; [done|].
    destruct sc as [|now p]; [done|]. destruct Hc as [Hn Hc]. split; [cbn; destruct Ha; lia|]. by eapply safe_stable.
  - destruct Hp as [Hv _]. split; [done|]. split; [done|]. split; [cbn; lia|]. by apply safe_processDue.
  - destruct Hp as [Hv [Hn _]]. split; [done|]. split; [done|]. split; [done|]. by apply safe_processDue.
  - destruct Hp as [Hv _]. by split.
  - destruct Hp as [Hv [Hn Hc]]. destruct (Hc s x s' (adds_refl _ s) Hi H) as (? & Ha & ?). split; [done|].
    split; [by eapply safe_stable|]. split; [cbn; destruct Ha; lia|done].
  - split; [by apply Inv_clock|]. destruct ph as [|p|sv sc]; [done| |].
    + eapply safe_stable; [done|by apply adds_tick|done].
    + destruct Hp as [Hv Hc]. split; [eapply safe_stable; [done|by apply adds_tick|done]|].
      destruct sc as [|now p]; [done|]. destruct Hc as [Hn Hc]. split; [cbn; lia|].
      eapply safe_stable; [done|by apply adds_tick|done].
  - split; [by apply Inv_crash|done].
Qed.

Lemma timer_reachable_ok c : timer_reachable E c -> sys_ok c.
Proof.
  induction 1 as [t|c c' _ IH Hs]; [|by eapply timer_step_ok]. split; [|done].
  split; cbn; try (by intros * ?%elem_of_nil); try (intros *; by rewrite lookup_empty); try (by intros * ? ?%elem_of_nil); by intros.
Qed.

Lemma reachable_Inv ph s : timer_reachable E (ph, s) -> Inv s.
Proof. intros H. apply (timer_reachable_ok (ph, s) H). Qed.

(** ** No timer is forgotten

    A goroutine that takes a timer out of the heap, or makes one pending, has it in hand until it
    queues it, ends it, or finds it ended. *)

#[local] Instance open_shot_dec r : Decision (open_shot r).
Proof. unfold open_shot. apply _. Defined.

(** The timers in hand: an id, and the time the row has. *)
Definition Hand := string -> Z -> Prop.
Definition nothing : Hand := fun _ _ => False.

(** An entry at [te] serves a row due at [t], when the clock is past [c]. *)
Definition serves (c te t : Z) : Prop := (te <= t \/ te <= c + storageRetryDelay_ms)%Z.

Definition take_row (r : timerRow) (H : Hand) : Hand :=
  if decide (open_shot r) then fun u t => H u t \/ (u = UUID r /\ t = FireAtUTC r) else fun u t => H u t /\ u <> UUID r.

(** What is in hand after an operation, at [c] or later. *)
Definition hand (o : Op) (c : Z) (H : Hand) : Res o -> Hand :=
  match o return Res o -> Hand with
  | PopDue _ => fun x u t => H u t \/ match x with Some e => e_retry e = None /\ u = e_timer e | None => False end
  | Push e => fun _ u t => H u t /\ ~ (e_retry e = None /\ u = e_timer e /\ serves c (e_fire_at e) t)
  | InsertTimer r => fun x => match x with InsertOk => take_row r H | _ => H end
  | UpdateTimer _ r => fun x => if x : bool then take_row r H else H
  | GetTimer v => fun x u t => H u t /\ (u = v -> match x with Row r => open_shot r /\ (FireAtUTC r <= t)%Z | _ => False end)
  | ListPending => fun x => match x with
                            | Some rows => fun u t => H u t /\ exists r, r ∈ rows /\ Kind r = oneshot /\ UUID r = u /\ FireAtUTC r = t
                            | None => H
                            end
  | _ => fun _ => H
  end.

(** The clock read. *)
Definition past (o : Op) (c : Z) : Res o -> Z :=
  match o return Res o -> Z with Now => fun x => Z.max c x | _ => fun _ => c end.

(** What every answer keeps to: a row is under its own id. *)
Definition consistent (o : Op) : Res o -> Prop :=
  match o return Res o -> Prop with
  | GetTimer u => fun x => match x with Row r => UUID r = u | _ => True end
  | _ => fun _ => True
  end.

(** The program ends with nothing in hand, when it ends with [P]. *)
Fixpoint lets_go {A} (P : A -> Prop) (p : Prog A) (c : Z) (H : Hand) : Prop :=
  match p with
  | Ret a => P a -> forall u t, ~ H u t
  | Act o k => forall x, consistent o x -> lets_go P (k x) (past o c x) (hand o c H x)
  end.

Lemma lets_go_andThen {A B} (P : B -> Prop) (p : Prog A) (k : A -> Prog B) c H :
  lets_go (fun _ => True) p c H -> (forall a c H, (forall u t, ~ H u t) -> lets_go P (k a) c H) -> lets_go P (andThen p k) c H.
Proof.
  intros Hp Hk. revert c H Hp. induction p as [a|o k' IH]; intros c H Hp; cbn in *; [by apply Hk, Hp|].
  intros x Hx. by apply IH, Hp.
Qed.

Definition queued (u : string) (t : Z) (s : Shared) : Prop :=
  exists e, e ∈ heap s /\ e_timer e = u /\ e_retry e = None /\ serves (clock s) (e_fire_at e) t.

(** Every pending one-shot is queued for its time or in hand, unless a read of it failed. *)
Definition tracked (s : Shared) (H : Hand) : Prop :=
  forall u r, db s !! u = Some r -> open_shot r -> queued u (FireAtUTC r) s \/ H u (FireAtUTC r) \/ ReadFailed u ∈ log s.

Definition both (H H' : Hand) : Hand := fun u t => H u t \/ H' u t.

Lemma tracked_weaken s (H H' : Hand) : (forall u t, H u t -> H' u t) -> tracked s H -> tracked s H'.
Proof. intros Hs Ht u r Hu Ho. destruct (Ht u r Hu Ho) as [?|[?|?]]; auto. Qed.

Lemma tracked_log s e H : tracked s H -> tracked (add_log e s) H.
Proof.
  intros Ht u r Hu Ho. destruct (Ht u r Hu Ho) as [?|[?|?]]; [by left|by right; left|]. right. right. cbn. apply elem_of_app. by left.
Qed.

Lemma tracked_db g s H : tracked s H -> (forall u r, g (db s) !! u = Some r -> db s !! u = Some r) -> tracked (set_db g s) H.
Proof. intros Ht Hg u r Hu%Hg Ho. by destruct (Ht u r Hu Ho) as [?|[?|?]]; auto. Qed.

Lemma tracked_clock t s H : (clock s <= t)%Z -> tracked s H -> tracked (set_clock t s) H.
Proof.
  intros Hle Ht u r Hu Ho. destruct (Ht u r Hu Ho) as [(e & He & Hu' & Hr & Hs)|?]; [|by right].
  left. exists e. split_and!; [done..|]. unfold serves in *. cbn. lia.
Qed.

(** A row written, in the hands of who wrote it when it is left pending. *)
Lemma tracked_row r s H H' : tracked s (both H H') -> tracked (set_db <[UUID r := r]> s) (both (take_row r H) H').
Proof.
  intros Ht u r' Hu Ho. cbn in Hu. destruct (decide (u = UUID r)) as [->|Hne].
  - rewrite lookup_insert_eq in Hu. injection Hu as <-. right. left. left. unfold take_row. by rewrite decide_True by done; right.
  - rewrite lookup_insert_ne in Hu by done. destruct (Ht u r' Hu Ho) as [?|[[?|?]|?]]; [by left| |right; left; by right|by right; right].
    right. left. left. unfold take_row. case_decide; [by left|done].
Qed.

Lemma tracked_popped now s x h H H' : tracked s (both H H') -> popped now (heap s) x h ->
  tracked (set_heap h s) (both (hand (PopDue now) 0 H x) H').
Proof.
  intros Ht Hp u r Hu Ho. destruct (Ht u r Hu Ho) as [(e' & He' & <- & Hr & Hs)|[[?|?]|?]];
    [|right; left; left; by left|right; left; by right|by right; right].
  destruct x as [e|]; cbn in Hp; [|destruct Hp as [-> _]; left; by exists e']. destruct Hp as (Hp & _ & _). rewrite Hp in He'.
  apply elem_of_cons in He' as [->|He']; [right; left; left; by right|left; by exists e'].
Qed.

Lemma tracked_push e s c H H' x : (c <= clock s)%Z -> tracked s (both H H') ->
  tracked (set_heap (e :: heap s) s) (both (hand (Push e) c H x) H').
Proof.
  intros Hc Ht u r Hu Ho. destruct (Ht u r Hu Ho) as [(e' & He' & ? & ? & ?)|[[Hin|?]|?]];
    [left; exists e'; split; [by right|done]| |right; left; by right|by right; right].
  destruct (e_retry e) as [f|] eqn:Er; [right; left; left; cbn; rewrite Er; split; [done|]; by intros [? _]|].
  destruct (decide (u = e_timer e)) as [->|Hne]; [|right; left; left; cbn; naive_solver].
  destruct (decide (e_fire_at e <= FireAtUTC r \/ e_fire_at e <= c + storageRetryDelay_ms)%Z) as [Hs|Hs].
  - left. exists e. split_and!; [by left|done..|]. unfold serves. cbn. lia.
  - right. left. left. cbn. split; [done|]. by intros (_ & _ & ?).
Qed.

Lemma tracked_read v s x (H H' : Hand) : tracked s (both H H') ->
  (forall r, db s !! v = Some r -> open_shot r -> x = Row r \/ ReadFailed v ∈ log s) ->
  tracked s (both (hand (GetTimer v) 0 H x) H').
Proof.
  intros Ht Hx u r Hu Ho. destruct (Ht u r Hu Ho) as [?|[[?|?]|?]]; [by left| |right; left; by right|by right; right].
  destruct (decide (u = v)) as [->|]; [|right; left; left; by split].
  destruct (Hx r Hu Ho) as [->|]; [|by right; right]. right. left. left. split; [done|]. intros _. split; [done|lia].
Qed.

Lemma tracked_list s (H H' : Hand) : Inv s -> tracked s (both H H') ->
  tracked s (both (hand ListPending 0 H
    (Some (sort_by (fun a b => Z.compare (FireAtUTC a) (FireAtUTC b)) (List.filter is_pending (timer_rows s))))) H').
Proof.
  intros Hi Ht u r Hu Ho. destruct (Ht u r Hu Ho) as [?|[[Hin|?]|?]]; [by left| |right; left; by right|by right; right].
  right. left. left. split; [done|]. destruct (v_rows s Hi u r Hu) as [<- _]. destruct Ho as [Hk Hst]. exists r. split; [|done].
  apply elem_of_sort_by, list_elem_of_In, filter_In. split; [|by apply bool_decide_eq_true].
  apply list_elem_of_In, list_elem_of_fmap. exists (UUID r, r). split; [done|]. by apply elem_of_map_to_list.
Qed.

Lemma tracked_update r s H H' : tracked s (both H H') ->
  tracked (match db s !! UUID r with Some _ => set_db <[UUID r := r]> s | None => s end) (both (take_row r H) H').
Proof.
  intros Ht. destruct (db s !! UUID r) eqn:Hr; [by apply tracked_row|]. intros u r' Hu Ho.
  destruct (Ht u r' Hu Ho) as [?|[[?|?]|?]]; [by left| |right; left; by right|by right; right]. right. left. left.
  unfold take_row. case_decide; [by left|]. split; [done|]. congruence.
Qed.

Lemma tracked_step o s x s' c H H' : Inv s -> (c <= clock s)%Z -> op_step E o s x s' -> tracked s (both H H') ->
  consistent o x /\ (past o c x <= clock s')%Z /\ tracked s' (both (hand o c H x) H').
Proof.
  intros Hi Hc Hs Ht. destruct o; cbn [op_step consistent past] in *; try (by destruct Hs as [_ ->]).
  - destruct Hs as [-> ->]. split_and!; [done|lia|done].
  - destruct Hs as [[-> ->]|[-> ->]].
    + unfold getTimer. destruct (db s !! u) as [r|] eqn:Hu.
      * split_and!; [by eapply v_rows|done|]. apply (tracked_read u); [done|]. intros r' Hr' _. left. congruence.
      * split_and!; [done..|]. apply (tracked_read u); [done|]. congruence.
    + split_and!; [done..|]. apply (tracked_read u); [by apply tracked_log|]. intros r _ _. right. cbn. apply elem_of_app. right. left.
  - destruct Hs as [[->| ->] ->]; (split_and!; [done..|]); [by apply tracked_list|done].
  - destruct x; [|by destruct Hs as [_ ->]|by subst]. destruct Hs as (_ & _ & _ & ->). split_and!; [done..|]. by apply tracked_log, tracked_row.
  - destruct x; [|by subst]. destruct Hs as (_ & -> & _). split_and!; [done|cbn; by destruct (db s !! _)|]. by apply tracked_log, tracked_update.
  - destruct Hs as [[_ ->]|[_ ->]]; [|done]. split_and!; [done..|]. apply tracked_db; [done|]. by intros u r [Hr _]%map_lookup_filter_Some.
  - destruct Hs as [[_ ->]|[_ ->]]; [|done]. split_and!; [done..|]. apply tracked_db; [done|]. by intros u r [Hr _]%map_lookup_filter_Some.
  - subst s'. split_and!; [done..|]. by apply tracked_push.
  - destruct Hs as (h & Hp & ->). split_and!; [done..|]. by apply (tracked_popped now).
  - by subst s'.
  - by subst s'.
  - destruct x; subst s'; (split_and!; [done..|]); by try apply tracked_log.
  - destruct x; subst s'; (split_and!; [done..|]); by try apply tracked_log.
Qed.

(** A program that takes nothing in hand. *)
Fixpoint all_calm {A} (p : Prog A) : Prop :=
  match p with
  | Ret _ => True
  | Act o k => forall x, (forall c H, (forall u t, ~ H u t) -> forall u t, ~ hand o c H x u t) /\ all_calm (k x)
  end.

Lemma calm_lets_go {A} P (p : Prog A) c H : (forall u t, ~ H u t) -> all_calm p -> lets_go P p c H.
Proof. revert c H. induction p as [a|o k IH]; intros c H HH Hp; cbn in *; [done|]. intros x _. destruct (Hp x). eauto. Qed.

Lemma calm_andThen {A B} (p : Prog A) (k : A -> Prog B) : all_calm p -> (forall a, all_calm (k a)) -> all_calm (andThen p k).
Proof. intros Hp Hk. induction p as [a|o k' IH]; cbn in *; [apply Hk|]. intros x. destruct (Hp x). auto. Qed.

Lemma calm_canceled who r x c (H : Hand) : (forall u t, ~ H u t) -> forall u t, ~ hand (UpdateTimer who (set_status canceled r)) c H x u t.
Proof.
  intros HH u t. destruct x; [|done]. cbn [hand]. unfold take_row. destruct (decide (open_shot _)) as [[_ [=]]|_]. by intros [?%HH _].
Qed.
#[local] Hint Resolve calm_canceled : core.

Ltac calm_op :=
  let HH := fresh "HH" in let Hu := fresh "Hu" in
  intros ? ? HH ? ? Hu; first [by apply HH in Hu | by destruct Hu as [Hu _]; apply HH in Hu].
Ltac calm_step :=
  match goal with
  | |- all_calm (Ret _) => exact I
  | |- all_calm (Act _ _) => let x := fresh "x" in intros x; split; [try calm_op|cbv beta]
  | |- all_calm (andThen _ _) => apply calm_andThen; [|intros ?]
  | |- all_calm (match ?c with _ => _ end) => destruct c
  | |- all_calm (let _ := _ in _) => cbv zeta
  end.
Ltac calm := repeat calm_step; auto.

Lemma calm_response m a : all_calm (sendTimerResponse m a). Proof. unfold sendTimerResponse. calm. Qed.

Lemma calm_error m v e : all_calm (sendTimerError m v e). Proof. apply calm_response. Qed.
#[local] Hint Resolve calm_response calm_error : core.

Lemma calm_retryLater f : all_calm (retryLater f). Proof. unfold retryLater. calm. Qed.
#[local] Hint Resolve calm_retryLater : core.

Lemma calm_deliver f : all_calm (deliver E f). Proof. unfold deliver. calm. Qed.
#[local] Hint Resolve calm_deliver : core.

Lemma calm_named ref owner : all_calm (named ref owner). Proof. unfold named. calm. Qed.
#[local] Hint Resolve calm_named : core.

Lemma calm_owned m ref : all_calm (owned m ref). Proof. unfold owned. calm. Qed.

Lemma calm_limits owner : all_calm (checkPendingLimits owner). Proof. unfold checkPendingLimits. calm. Qed.

Lemma calm_retryFire f : all_calm (retryFire E f). Proof. unfold retryFire. calm. Qed.

Lemma calm_respondTimerCancel m : all_calm (respondTimerCancel E m).
Proof. unfold respondTimerCancel. calm. apply calm_owned. Qed.
#[local] Hint Resolve calm_owned calm_limits calm_retryFire calm_respondTimerCancel : core.

(** Queuing the one timer in hand. *)
Lemma lets_go_push {A} P v t (k : Res (push v t) -> Prog A) c (H : Hand) :
  (forall u t', H u t' -> u = v /\ serves c t t') -> (forall x, all_calm (k x)) -> lets_go P (Act (push v t) k) c H.
Proof. intros HH Hk x _. apply calm_lets_go; [|done]. intros u t' [H1 H2]. apply H2. cbn. destruct (HH u t' H1). auto. Qed.

(** Nothing in hand but the row read, or what is due at the row's time. *)
Lemma lets_go_fire v now c (H : Hand) : (forall u t, H u t -> u = v) -> lets_go (fun _ => True) (fireTimerByUUID E v now) c H.
Proof.
  unfold fireTimerByUUID. intros HH x Hx. set (H' := hand _ _ _ _).
  assert (forall u t, H' u t -> u = v /\ match x with Row r => open_shot r /\ (FireAtUTC r <= t)%Z | _ => False end) as HH'
    by (intros u t [Hu Hr]; apply HH in Hu; exact (conj Hu (Hr Hu))). clearbody H'.
  destruct x as [| |r]; [by intros _ u t [_ ?]%HH'..|]. cbn in Hx. subst v.
  destruct (bool_decide_reflect (Status r = pending)) as [Hp|Hp]; cbn [negb]; [|by intros _ u t (_ & [_ ?] & _)%HH'].
  destruct (_ >? _)%Z; [apply lets_go_push; [|done]; intros u t (-> & _ & ?)%HH'; split; [done|by left]|].
  intros actual _. cbn [hand past]. destruct (fire_row E r actual) as [[r' d]|] eqn:Hf.
  2:{ intros _ u t (_ & [Hk _] & _)%HH'. unfold fire_row in Hf. by rewrite Hk in Hf. }
  assert (UUID r' = UUID r /\ ~ open_shot r') as [Hu Hc].
  { unfold fire_row in Hf. destruct (Kind r) eqn:Hk; [simplify_eq; split; [done|]; by intros [_ [=]]|].
    destruct (nextRecurringFireAt _ _ _); [|done]. simplify_eq. split; [done|]. intros [Hk' _]. cbn in Hk'. congruence. }
  intros [] _; cbn [hand past negb]; [|apply lets_go_push; [|done]; intros u t (-> & _)%HH'; split; [done|right; lia]].
  assert (forall u t, ~ take_row r' H' u t) as Hn.
  { intros u t. unfold take_row. rewrite decide_False by done. by intros [[-> _]%HH' []]. }
  destruct (Kind r); [by apply calm_lets_go|]. apply lets_go_push; [by intros u t ?%Hn|auto].
Qed.

Lemma lets_go_processDue now c (H : Hand) : (forall u t, ~ H u t) -> lets_go (fun _ => True) (processDue E now) c H.
Proof.
  unfold processDue. intros HH x _. set (H' := hand _ _ _ _).
  destruct x as [e|]; [|by intros _ u t [?%HH|?]]. apply lets_go_andThen; [|by intros a c' K HK _].
  destruct (e_retry e) as [f|] eqn:Er; [apply calm_lets_go; [|auto]|apply lets_go_fire].
  - intros u t [?%HH|[? _]]; congruence.
  - by intros u t [?%HH|[_ ?]].
Qed.

Lemma lets_go_replay rows now c (H : Hand) :
  (forall u t, H u t -> exists r, r ∈ rows /\ Kind r = oneshot /\ UUID r = u /\ FireAtUTC r = t) ->
  lets_go (fun b => b = true) (replay_timers E rows now) c H.
Proof.
  revert c H. induction rows as [|r rows IH]; intros c H HH; [by intros _ u t (? & ?%elem_of_nil & _)%HH|].
  assert (forall (H' : Hand), (forall u t, H' u t -> H u t /\ ~ (Kind r = oneshot /\ u = UUID r /\ t = FireAtUTC r)) ->
          forall u t, H' u t -> exists r, r ∈ rows /\ Kind r = oneshot /\ UUID r = u /\ FireAtUTC r = t) as Hrest.
  { intros H' Hr u t [(r' & [->|?]%elem_of_cons & Hk & <- & <-)%HH Hn]%Hr; [by destruct Hn|by exists r']. }
  set (rest := fun b : bool => if b then replay_timers E rows now else Ret false).
  assert (lets_go (fun b => b = true) (andThen (Act (push (UUID r) (FireAtUTC r)) (fun _ => Ret true)) rest) c H) as Hfires.
  { intros x _. apply IH, Hrest. intros u t [Hu Hn]. split; [done|]. intros (_ & -> & ->). apply Hn. split_and!; [done..|by left]. }
  assert (lets_go (fun b => b = true) (andThen (Act (UpdateTimer ByReplay (set_status canceled r)) (fun saved : bool => Ret saved)) rest) c H) as Hdrops.
  { intros [|] _; [|done]. apply IH, Hrest. intros u t. cbn [hand]. unfold take_row. destruct (decide (open_shot _)) as [[_ [=]]|_].
    intros [Hu Hn]. split; [done|]. by intros (_ & -> & _). }
  cbn [replay_timers]. unfold replay_timer. destruct (Kind r) eqn:Hk.
  - destruct (_ >? _)%Z; [apply Hfires|]. unfold handleMissedTimer. cbv zeta.
    destruct (_ =s _); [apply Hfires|]. destruct (_ =s _); [|done]. destruct (MissedWithinMS r); [|done]. by destruct (_ <=? _)%Z.
  - destruct (nextRecurringFireAt E r now) as [next|]; [|apply IH, Hrest; naive_solver].
    intros [|] _; [|done]. intros x _. apply IH, Hrest. intros u t [Hu _]. split; [|by intros [[=] _]]. cbn [hand] in Hu. unfold take_row in Hu.
    destruct (decide (open_shot _)) as [[Ho _]|_]; [cbn in Ho; congruence|apply Hu].
Qed.

Lemma lets_go_main c H : lets_go (fun b => b = true) (timer_main E) c H.
Proof.
  unfold timer_main, replayPending. intros t _ g _ now _ rows _. destruct rows as [rows|]; [|done].
  apply lets_go_replay. by intros u t' [_ ?].
Qed.

Lemma lets_go_schedule_new m verb owner q kind spec tz fire_at c (H : Hand) : (forall u t, ~ H u t) ->
  lets_go (fun _ => True) (schedule_new E m verb owner q kind spec tz fire_at) c H.
Proof.
  intros HH. unfold schedule_new. destruct (check_options E kind owner q) as [[[target policy] payload]|code]; [|apply calm_lets_go; auto].
  intros now _. cbn [hand]. destruct (normalizeClientRef (q_client_ref q)) as [ref|]; [|apply calm_lets_go; auto]. cbv zeta.
  match goal with |- context [if str_is_empty ref then ?c else _] => set (create := c) end.
  assert (forall c (H : Hand), (forall u t, ~ H u t) -> lets_go (fun _ => True) create c H) as Hcreate.
  { clear. intros c H HH. unfold create. apply lets_go_andThen; [apply calm_lets_go; auto|]. clear c H HH.
    intros [code|] c H HH; [apply calm_lets_go; auto|].
    intros u _ ins _. cbn [hand]. destruct ins; [|apply calm_lets_go; calm..].
    apply lets_go_push; [|auto]. intros u' t. unfold take_row. case_decide; [|by intros [?%HH _]].
    intros [?%HH|[-> ->]]; [done|]. split; [done|by left]. }
  destruct (str_is_empty ref); [auto|]. intros x _. cbn [hand]. destruct x; [apply calm_lets_go; auto|auto|apply calm_lets_go; auto].
Qed.

Lemma lets_go_respondTimerReschedule m c (H : Hand) : (forall u t, ~ H u t) -> lets_go (fun _ => True) (respondTimerReschedule E m) c H.
Proof.
  intros HH. unfold respondTimerReschedule. destruct (read_reschedule _ _) as [q|]; [|apply calm_lets_go; auto].
  destruct (timerReferenceFromRequest _) as [ref|]; [|apply calm_lets_go; auto].
  apply lets_go_andThen; [apply calm_lets_go; auto|]. clear c H HH. intros [r|[code|]] c H HH; [|apply calm_lets_go; auto..].
  destruct (bool_decide (Kind r = recurring)); [apply calm_lets_go; auto|]. destruct (negb _); [apply calm_lets_go; auto|].
  intros now _. cbn [hand]. destruct (oneShotFireAt _ _ _) as [t|code]; [|apply calm_lets_go; auto].
  intros [] _; cbn [hand]; [|apply calm_lets_go; auto]. apply lets_go_push; [|auto]. intros u' t'. unfold take_row.
  case_decide; [|by intros [?%HH _]]. intros [?%HH|[-> ->]]; [done|]. split; [done|by left].
Qed.

Lemma lets_go_respond m c (H : Hand) : (forall u t, ~ H u t) -> lets_go (fun _ => True) (respond E m) c H.
Proof.
  intros HH.
  assert (lets_go (fun _ => True) (respondTimerSchedule E m) c H /\ lets_go (fun _ => True) (respondTimerScheduleRecurring E m) c H) as [Hs Hr].
  { unfold respondTimerSchedule, respondTimerScheduleRecurring. cbv zeta. split;
      (case_match; [|apply calm_lets_go; auto]); repeat (case_match; [apply calm_lets_go; by auto|]);
      intros now _; cbn [hand]; (case_match; [by apply lets_go_schedule_new|apply calm_lets_go; auto]). }
  unfold respond. repeat match goal with |- lets_go _ (if ?c then _ else _) _ _ => destruct c end;
    try (by apply lets_go_respondTimerReschedule); try done; (apply calm_lets_go; [done|]); auto;
    unfold respondTimerGet, respondTimerList, respondTimerPurgeOwner; calm.
Qed.

Lemma lets_go_handleMessage m c (H : Hand) : (forall u t, ~ H u t) -> lets_go (fun _ => True) (handleMessage E m) c H.
Proof.
  intros HH. unfold handleMessage. destruct (negb _); [by intros _|]. destruct (_ =s _); [|by apply lets_go_respond].
  apply lets_go_andThen; [apply calm_lets_go; [done|unfold undelivered; calm]|].
  intros [] c' H' HH'; [by intros _|by apply lets_go_respond].
Qed.

(** What each goroutine has in hand, and the clock it read. *)
Definition remembers (ph : Phase) (s : Shared) : Prop :=
  match ph with
  | Down => True
  | Starting p => exists c H, (c <= clock s)%Z /\ tracked s H /\ lets_go (fun b => b = true) p c H
  | Serving sv sc =>
    exists c c' H H', (c <= clock s)%Z /\ (c' <= clock s)%Z /\ tracked s (both H H') /\ lets_go (fun _ => True) sv c H
      /\ match sc with Sleeping => forall u t, ~ H' u t | Working _ p => lets_go (fun _ => True) p c' H' end
  end.

Lemma both_comm s H H' : tracked s (both H H') -> tracked s (both H' H).
Proof. apply tracked_weaken. intros u t [?|?]; [by right|by left]. Qed.

Lemma op_clock o s x s' : op_step E o s x s' -> clock s' = clock s.
Proof.
  intros Hs. destruct o; cbn in *; repeat (match goal with
    | H : _ /\ _ |- _ => destruct H | H : _ \/ _ |- _ => destruct H | H : exists _, _ |- _ => destruct H
    | H : match ?x with _ => _ end |- _ => destruct x end); subst; try done. cbn. by destruct (db s !! UUID r).
Qed.

Ltac one_op l t := match goal with Ho : op_step _ _ _ _ _ |- _ => destruct (l Ho t) as (Hx & Hnow & Ht'); pose proof (op_clock _ _ _ _ Ho) end.

Lemma remembers_step ph s ph' s' : sys_ok (ph, s) -> remembers ph s -> timer_step E (ph, s) (ph', s') -> remembers ph' s'.
Proof.
  intros [Hi _] Hr Hs. inversion Hs; subst; cbn [snd] in Hi; clear Hs.
  - exists (clock s'), (fun _ _ => True). split_and!; [lia| |apply lets_go_main]. intros u r _ _. right. by left.
  - destruct Hr as (c & H & Hc & Ht & Hg).
    apply (tracked_weaken _ _ (both H nothing)) in Ht; [|by left]. one_op (tracked_step o s x s' c H nothing Hi Hc) Ht.
    exists (past o c x), (hand o c H x). split_and!; [done| |by apply Hg]. revert Ht'. apply tracked_weaken. by intros u t [?|[]].
  - done.
  - destruct Hr as (c & H & Hc & Ht & Hg). exists c, c, H, nothing. split_and!; [done..| |by intros _; apply Hg|by intros u t []].
    revert Ht. apply tracked_weaken. by left.
  - destruct Hr as (c & c' & H & H' & Hc & Hc' & Ht & Hg & Hh). exists c, c', H, H'. split_and!; [done..| |done].
    apply lets_go_handleMessage. by apply Hg.
  - destruct Hr as (c & c' & H & H' & Hc & Hc' & Ht & Hg & Hh). one_op (tracked_step o s x s' c H H' Hi Hc) Ht.
    exists (past o c x), c', (hand o c H x), H'. split_and!; [done|lia|done|by apply Hg|done].
  - destruct Hr as (c & c' & H & H' & Hc & Hc' & Ht & Hg & Hh). exists c, c', H, H'. split_and!; [done..|by apply lets_go_processDue].
  - destruct Hr as (c & c' & H & H' & Hc & Hc' & Ht & Hg & Hh). exists c, c', H, H'. split_and!; [done..|]. apply lets_go_processDue. by apply Hh.
  - destruct Hr as (c & c' & H & H' & Hc & Hc' & Ht & Hg & Hh). exists c, c', H, H'. split_and!; [done..|]. by apply Hh.
  - destruct Hr as (c & c' & H & H' & Hc & Hc' & Ht & Hg & Hh). apply both_comm in Ht.
    one_op (tracked_step o s x s' c' H' H Hi Hc') Ht. apply both_comm in Ht'.
    exists c, (past o c' x), H, (hand o c' H' x). split_and!; [lia|done..|by apply Hh].
  - destruct ph' as [|p|sv sc]; [done| |]; cbn in *.
    + destruct Hr as (c & H & Hc & Ht & Hg). exists c, H. split_and!; [lia|by apply tracked_clock|done].
    + destruct Hr as (c & c' & H & H' & Hc & Hc' & Ht & Hg & Hh). exists c, c', H, H'. split_and!; [lia|lia|by apply tracked_clock|done..].
  - done.
Qed.

Lemma reachable_remembers ph s : timer_reachable E (ph, s) -> remembers ph s.
Proof.
  intros H. assert (forall c, timer_reachable E c -> remembers c.1 c.2) as Hc; [|by apply (Hc (ph, s))].
  induction 1 as [t|[ph1 s1] [ph2 s2] Hc IH Hs]; [done|]. by eapply remembers_step; [apply timer_reachable_ok| |].
Qed.

End Safety.
