(* ===== verification/SyTimerCases.v ===== *)
(** * What SY.timer promises

    Whose timers a request may touch; what fires, when, how often and to whom; that a timer is not
    forgotten; and what becomes of the times and references a workflow node sends. *)

From Stdlib Require Import ZArith Lia Ascii String.
From stdpp Require Import base list strings gmap.
From S2P Require Import Prelude Protocol WfDef WfEngine WfNode WfCases SyTimer SyTimerSafety.
Open Scope string_scope.
Open Scope timer_scope.

#[local] Abbreviation Msg := (Message string).

(** ** Requests *)

(** An operation a run of the program may make. *)
Inductive performs {A} : Prog A -> Op -> Prop :=
| performs_now o k : performs (Act o k) o
| performs_later o k x o' : performs (k x) o' -> performs (Act o k) o'.

(** What a request may do: to the requester's own timers, unless it comes from the admin, who reads all,
    or from the hive's orchestrator, which purges. *)
Definition permitted (E : TimerEnv) (m : Msg) (o : Op) : Prop :=
  let me := sourceL2Name m in
  match o with
  | InsertTimer r => me <> "" /\ OwnerL2Name r = me /\ Status r = pending /\ checkTimerTarget me (TargetL2Name r) = true
  | UpdateTimer who r =>
    me <> "" /\ OwnerL2Name r = me
    /\ ((who = ByCancel /\ Status r = canceled) \/ (who = ByReschedule /\ Kind r = oneshot /\ Status r = pending))
  | DeleteOwner _ => me <> "" /\ me = localOrchestratorL2Name E
  | FindPending owner _ | CountOwned owner => me <> "" /\ owner = me
  | ListTimers owner _ _ _ => me <> "" /\ (owner = me \/ me = PrimaryAdminNode)
  | Reply m' a => m' = m /\ match a with AGot r => OwnerL2Name r = me \/ me = PrimaryAdminNode | _ => True end
  | Push e => forall f, e_retry e = Some f -> rawMsgName m = MSG_UNREACHABLE
  | GcHistory _ | ListPending | PopDue _ | KeepSent _ _ | ForgetSent _ | SendFired _ _ _ => False
  | TakeSent trace => trace = trace_id (routing m) /\ rawMsgName m = MSG_UNREACHABLE
  | Now | NewUUID | GetTimer _ | CountPending => True
  end.

Section Requests.
Context (E : TimerEnv) (m : Msg).

(** Every operation is permitted, and every result is one of [Q]. *)
Fixpoint every {A} (Q : A -> Prop) (p : Prog A) : Prop :=
  match p with Ret a => Q a | Act o k => permitted E m o /\ forall x, every Q (k x) end.

Lemma every_performs {A} Q (p : Prog A) o : every Q p -> performs p o -> permitted E m o.
Proof. intros Hp Ho. induction Ho as [o k|o k x o' _ IH]; cbn in Hp; [apply Hp|]. by apply IH, Hp. Qed.

Lemma every_andThen {A B} (Q : A -> Prop) (Q' : B -> Prop) (p : Prog A) (k : A -> Prog B) :
  every Q p -> (forall a, Q a -> every Q' (k a)) -> every Q' (andThen p k).
Proof. intros Hp Hk. induction p as [a|o k' IH]; cbn in *; [by apply Hk|]. split; [apply Hp|]. intros x. apply IH, Hp. Qed.

#[local] Abbreviation any := (fun _ => True).

Ltac every_step :=
  match goal with
  | |- every _ (Ret _) => first [done | fail]
  | |- every _ (Act _ _) => split; [try done|intros ?; cbv beta]
  | |- every _ (andThen _ _) => apply (every_andThen any); [|intros ? _]
  | |- every _ (match ?c with _ => _ end) => destruct c eqn:?
  | |- every _ (let _ := _ in _) => cbv zeta
  end.
Ltac each := repeat every_step; auto.

Lemma every_response a : match a with AGot _ => False | _ => True end -> every any (sendTimerResponse m a).
Proof. unfold sendTimerResponse. intros Ha. each. by destruct a. Qed.

Lemma every_got r : OwnerL2Name r = sourceL2Name m \/ sourceL2Name m = PrimaryAdminNode -> every any (sendTimerResponse m (AGot r)).
Proof. intros Hr. split; [done|]. by intros []. Qed.

Lemma every_error v e : every any (sendTimerError m v e).
Proof. by apply every_response. Qed.
#[local] Hint Resolve every_response every_error I : core.

Lemma every_retryLater f : rawMsgName m = MSG_UNREACHABLE -> every any (retryLater f).
Proof. intros Hm. unfold retryLater. each. by intros f' _. Qed.

Hypothesis known : sourceL2Name m <> "".

Lemma every_named ref : every any (named ref (sourceL2Name m)).
Proof. unfold named. each. Qed.

Lemma every_owned ref : every (fun x => match x with inl r => OwnerL2Name r = sourceL2Name m | inr _ => True end) (owned m ref).
Proof.
  unfold owned. destruct (str_is_empty _); [done|]. cbv zeta. eapply every_andThen; [apply every_named|]. intros x _. cbn.
  destruct x as [| |r]; [done..|]. destruct (String.eqb_spec (OwnerL2Name r) (sourceL2Name m)); done.
Qed.

Lemma every_schedule_new verb q kind spec tz t : every any (schedule_new E m verb (sourceL2Name m) q kind spec tz t).
Proof.
  unfold schedule_new. destruct (check_options E kind (sourceL2Name m) q) as [[[target policy] payload]|code] eqn:Ho; [|auto].
  assert (checkTimerTarget (sourceL2Name m) target = true).
  { unfold check_options in Ho. destruct (negb (isCanonicalL2Name _)); [done|]. destruct (checkTimerTarget _ (trimmed_or _ _)) eqn:Ht; [|done].
    repeat case_match; by simplify_eq/=. }
  unfold checkPendingLimits. each.
Qed.

Lemma every_cancel : every any (respondTimerCancel E m).
Proof.
  unfold respondTimerCancel. cbv zeta. destruct (_ ≫= _) as [ref|]; [|auto]. eapply every_andThen; [apply every_owned|].
  intros [r|[c|]] Hr; each. split_and!; [done..|]. left. done.
Qed.

Lemma every_reschedule : every any (respondTimerReschedule E m).
Proof.
  unfold respondTimerReschedule. cbv zeta. destruct (read_reschedule _ _) as [q|]; [|auto].
  destruct (timerReferenceFromRequest _) as [ref|]; [|auto]. eapply every_andThen; [apply every_owned|].
  intros [r|[c|]] Hr; [|by auto..]. destruct (bool_decide_reflect (Kind r = recurring)); [auto|].
  destruct (bool_decide_reflect (Status r = pending)); cbn [negb]; [|auto]. each. split_and!; [done..|]. right. split_and!; [done| |done]. cbn. by destruct (Kind r).
Qed.

Lemma every_get : every any (respondTimerGet E m).
Proof.
  unfold respondTimerGet. cbv zeta. destruct (_ ≫= _) as [ref|]; [|auto]. destruct (_ && _); [auto|].
  eapply every_andThen; [apply every_named|]. intros [| |r] _; [by auto..|]. unfold mayRead.
  destruct (str_is_empty (sourceL2Name m)); [cbn [negb andb]; auto|]. destruct (String.eqb_spec (sourceL2Name m) (OwnerL2Name r)) as [He|]; cbn [negb orb andb].
  - destruct (info_bytes E r); [|auto]. apply every_got. by left.
  - destruct (String.eqb_spec (sourceL2Name m) PrimaryAdminNode); cbn [negb]; [|auto]. destruct (info_bytes E r); [|auto].
    apply every_got. by right.
Qed.

Lemma every_list : every any (respondTimerList E m).
Proof.
  unfold respondTimerList. cbv zeta. destruct (if str_is_empty (msg_payload m) then _ else _) as [q|]; [|auto].
  destruct (read_status _) as [st|]; [|auto]. destruct (_ && negb (isCanonicalL2Name _)); [auto|].
  destruct (String.eqb_spec (sourceL2Name m) PrimaryAdminNode) as [Ha|Ha]; cbn [negb andb]; [each; split; [done|by right]|].
  set (o := if str_is_empty _ then _ else _). destruct (mayRead m o) eqn:Hr; cbn [negb]; [|auto].
  assert (o = sourceL2Name m) as ->; [|each; split; [done|by left]]. unfold mayRead in Hr. apply andb_true_iff in Hr as [_ Hr].
  apply orb_true_iff in Hr as [Hr|Hr]; by apply String.eqb_eq in Hr.
Qed.

Lemma every_purge : every any (respondTimerPurgeOwner E m).
Proof.
  unfold respondTimerPurgeOwner. cbv zeta. destruct (read_purge _ _) as [raw|]; [|auto]. destruct (str_is_empty _); [auto|].
  destruct (String.eqb_spec (sourceL2Name m) (localOrchestratorL2Name E)); cbn [negb]; [each|auto].
Qed.

Lemma every_respond : every any (respond E m).
Proof.
  unfold respond. repeat match goal with |- every _ (if ?c then _ else _) => destruct c end; try done;
    auto using every_cancel, every_reschedule, every_get, every_list, every_purge.
  - split; [done|]. intros now. by apply every_response.
  - unfold respondTimerSchedule. each. apply every_schedule_new.
  - unfold respondTimerScheduleRecurring. each. apply every_schedule_new.
Qed.

End Requests.


(** ** Fires *)

Section Fires.
Context (E : TimerEnv).
Hypothesis uuid_unique : forall n k, new_uuid E n = new_uuid E k -> n = k.
Implicit Types (s : Shared) (ph : Phase).



(** C33. No pending one-shot timer is forgotten: when neither goroutine is at work, it has an entry in the
    heap that comes up no later than its time, or half a minute from now after a failed save, unless a
    read of its row has failed. *)
Theorem pending_shots_queued s u r : timer_reachable E (Serving (Ret ()) Sleeping, s) ->
  db s !! u = Some r -> Kind r = oneshot -> Status r = pending ->
  (exists e, e ∈ heap s /\ e_timer e = u /\ e_retry e = None
     /\ (e_fire_at e <= FireAtUTC r \/ e_fire_at e <= clock s + storageRetryDelay_ms)%Z)
  \/ ReadFailed u ∈ log s.
Proof.
  intros Hr Hu Hk Hp. destruct (reachable_remembers E uuid_unique _ _ Hr) as (c & c' & H & H' & _ & _ & Ht & Hg & Hn).
  destruct (Ht u r Hu (conj Hk Hp)) as [?|[[?|?]|?]]; [by left|by destruct (Hg I u (FireAtUTC r))|by destruct (Hn u (FireAtUTC r))|by right].
Qed.

End Fires.

(** ** A workflow node's timers *)

(** The reference a workflow node schedules a timer under comes back through SY.timer as its instance
    and key exactly when the key does not end in white space, which the request drops, and the
    reference is no longer than 255 bytes, past which SY.timer refuses it; the validator takes both. *)
Theorem timer_ref_through_timers id key : plain_id id -> Prelude.trim_end key <> "" ->
  normalizeClientRef (Some (ref_sent id key)) ≫= parseTimerClientRef = Some (id, key)
  <-> Prelude.trim_end key = key /\ (String.length (timerClientRef id key) <= 255)%nat.
Proof.
  intros Hid Hk. unfold normalizeClientRef. cbn [stringValue unwrap_or].
  assert (Prelude.trim (ref_sent id key) = ref_sent id key) as ->.
  { rewrite (ref_sent_is id key) at 1. change (ref_sent id (trim_end key) = ref_sent id key). rewrite !ref_sent_is. by rewrite trim_end_twice. }
  rewrite ref_sent_is. destruct (Nat.ltb_spec 255 (String.length (timerClientRef id (trim_end key)))) as [Hl|Hl].
  - split; [done|]. intros [Hk' Hl']. rewrite Hk' in Hl. lia.
  - cbn. rewrite ref_parsed by done. split; [intros [= Hk']; rewrite Hk' in Hl; by rewrite Hk'|by intros [-> _]].
Qed.

Lemma wrap_small z : (- 2 ^ 63 <= z < 2 ^ 63)%Z -> wrap_i64 z = z.
Proof. intros Hz. unfold wrap_i64. rewrite Z.mod_small; lia. Qed.

(** SY.timer takes a delay a workflow node computed, of at most its longest, whatever its own clock is
    when the request arrives. It takes a fixed instant, as every reschedule sends, only while that is still a
    minute ahead on its own clock; the workflow node required the minute of its own clock, before. *)
Theorem workflow_times_at_timers {G} (W : Env G) t i event now at_ns in_ns now' :
  timerTime W t i event now = Some (at_ns, in_ns) -> (0 <= now' < 2 ^ 61)%Z -> (0 <= ms_of at_ns < 2 ^ 61)%Z ->
  ((0 < in_ns)%Z -> (ms_of in_ns <= maxTimerDelay_ms)%Z ->
   oneShotFireAt None (Some (ms_of in_ns)) now' = inl (now' + ms_of in_ns)%Z)
  /\ (now + minTimerDuration <= at_ns)%Z
  /\ (oneShotFireAt (Some (ms_of at_ns)) None now' = inl (ms_of at_ns)
      <-> (now' + MinTimerDuration_ms <= ms_of at_ns <= now' + maxTimerDelay_ms)%Z).
Proof.
  intros Ht Hn Ha. assert ((now + minTimerDuration <= at_ns)%Z /\ (0 < in_ns -> minTimerDuration <= in_ns)%Z) as [H1 H2].
  { unfold timerTime in Ht. cbv zeta in Ht. repeat case_match; simplify_eq; lia. }
  unfold oneShotFireAt. split_and!; [|done|].
  - intros H3 H4. specialize (H2 H3). assert (60000 <= ms_of in_ns)%Z.
    { unfold ms_of. apply Z.div_le_lower_bound; [lia|]. unfold minTimerDuration in H2. lia. }
    unfold maxTimerDelay_ms, MinTimerDuration_ms in *. destruct (Z.gtb_spec (ms_of in_ns) (366 * 24 * 3600 * 1000)); [lia|].
    rewrite (wrap_small (now' + _)) by lia. replace (now' + ms_of in_ns - now')%Z with (ms_of in_ns) by lia. rewrite wrap_small by lia.
    destruct (Z.ltb_spec (ms_of in_ns) 60000); [lia|]. destruct (Z.gtb_spec (ms_of in_ns) (366 * 24 * 3600 * 1000)); [lia|done].
  - rewrite wrap_small by lia. destruct (Z.ltb_spec (ms_of at_ns - now') MinTimerDuration_ms); [split; [done|lia]|].
    destruct (Z.gtb_spec (ms_of at_ns - now') maxTimerDelay_ms); [split; [done|lia]|]. split; [lia|done].
Qed.

(** ** Runs in which all goes well *)

Module TimerRun.
Section Run.
Context (E : TimerEnv).

Definition taken (r : timerRow) (rows : gmap string timerRow) : bool :=
  bool_decide (Status r = pending) && bool_decide (ClientRef r <> None)
  && existsb (fun p => negb (p.1 =s UUID r) && bool_decide (Status p.2 = pending) && (OwnerL2Name p.2 =s OwnerL2Name r)
                       && bool_decide (ClientRef p.2 = ClientRef r)) (map_to_list rows).

Lemma not_taken r rows : taken r rows = false -> ~ ref_taken r rows.
Proof.
  intros Ht (Hp & u & r' & Hu & Hne & Hp' & Ho & Hc & Hc'). unfold taken in Ht. rewrite !bool_decide_true in Ht by done. cbn in Ht.
  apply not_true_iff_false in Ht. apply Ht, existsb_exists. exists (u, r'). split; [by apply list_elem_of_In, elem_of_map_to_list|].
  cbn. rewrite Ho, String.eqb_refl, !bool_decide_true by done. by destruct (String.eqb_spec u (UUID r)).
Qed.

(** An operation that goes well, when it can. *)
Definition do_op (o : Op) (s : Shared) : option (Res o * Shared) :=
  match o return option (Res o * Shared) with
  | Now => Some (clock s, s)
  | NewUUID => Some (new_uuid E (fresh s), next_fresh s)
  | GetTimer u => Some (getTimer u s, s)
  | FindPending owner ref => Some (findPendingTimerByClientRef owner ref s, s)
  | CountOwned owner => Some (Some (countPendingTimers (fun r => OwnerL2Name r =s owner) s), s)
  | CountPending => Some (Some (countPendingTimers (fun _ => true) s), s)
  | ListTimers owner st limit after => Some (Some (listTimers owner st limit after s), s)
  | ListPending =>
    Some (Some (sort_by (fun a b => Z.compare (FireAtUTC a) (FireAtUTC b)) (List.filter is_pending (timer_rows s))), s)
  | InsertTimer r =>
    if validateTimerRow E r && bool_decide (db s !! UUID r = None) && negb (taken r (db s))
    then Some (InsertOk, add_log (Inserted r) (set_db <[UUID r := r]> s)) else None
  | UpdateTimer who r =>
    if validateTimerRow E r && negb (taken r (db s))
    then Some (true, add_log (Wrote who r) (match db s !! UUID r with Some _ => set_db <[UUID r := r]> s | None => s end))
    else None
  | DeleteOwner owner => None
  | GcHistory cutoff =>
    Some (Some (Z.of_nat (length (List.filter (historical cutoff) (timer_rows s)))),
          set_db (filter (fun p => historical cutoff p.2 = false)) s)
  | Push e => Some (tt, set_heap (e :: heap s) s)
  | PopDue now =>
    match heap s with
    | e :: h =>
      if (e_fire_at e <=? now)%Z && forallb (fun e' => e_fire_at e <=? e_fire_at e')%Z h then Some (Some e, set_heap h s)
      else if forallb (fun e => now <? e_fire_at e)%Z (e :: h) then Some (None, s) else None
    | [] => Some (None, s)
    end
  | KeepSent trace f =>
    Some (tt, set_sent (fun m => <[trace := f]> (filter (fun p => sentAt f - sentAt p.2 <= deliveryAnswerWindow_ms)%Z m)) s)
  | ForgetSent trace => Some (tt, set_sent (delete trace) s)
  | TakeSent trace => Some (sent s !! trace, set_sent (delete trace) s)
  | SendFired f actual trace => Some (SendOk, add_log (Fired f actual) s)
  | Reply m a => Some (SendOk, add_log (Replied m a) s)
  end.

Lemma do_op_step o s x s' : do_op o s = Some (x, s') -> op_step E o s x s'.
Proof.
  destruct o; cbn -[validateTimerRow]; intros Hd; simplify_eq; auto; try (by left); try (by split; [left|]).
  - destruct (validateTimerRow E r); [|done]. destruct (bool_decide_reflect (db s !! UUID r = None)); [|done].
    destruct (taken r (db s)) eqn:Ht; [done|]. injection Hd as <- <-. split_and!; [done..|by apply not_taken|done].
  - destruct (validateTimerRow E r); [|done]. destruct (taken r (db s)) eqn:Ht; [done|]. injection Hd as <- <-.
    split_and!; [done..|]. intros _. by apply not_taken.
  - destruct (heap s) as [|e h] eqn:Hh; [injection Hd as <- <-; exists []; split; [done|by destruct s; cbn in *; subst]|].
    destruct (e_fire_at e <=? now)%Z eqn:H1; cbn [andb] in Hd; [destruct (forallb _ h) eqn:H2|].
    + injection Hd as <- <-. exists h. split; [|done]. split_and!; [done|lia|]. rewrite Forall_forall. rewrite forallb_forall in H2.
      intros e' He. apply list_elem_of_In, H2 in He. lia.
    + cbn in Hd. by replace (now <? e_fire_at e)%Z with false in Hd by lia.
    + destruct (_ && _) eqn:H2; [|done]. change (forallb (fun e => now <? e_fire_at e)%Z (e :: h) = true) in H2. injection Hd as <- <-. exists (e :: h). split; [|destruct s; cbn in *; by subst].
      split; [done|]. rewrite Forall_forall. rewrite forallb_forall in H2. intros e' He. apply list_elem_of_In, H2 in He. lia.
Qed.

Fixpoint exec {A} (p : Prog A) (s : Shared) : option (A * Shared) :=
  match p with
  | Ret a => Some (a, s)
  | Act o k => match do_op o s with Some (x, s') => exec (k x) s' | None => None end
  end.

Lemma exec_steps {A} (ph : Prog A -> Phase) (p : Prog A) s a s' :
  (forall o k s x s', op_step E o s x s' -> timer_step E (ph (Act o k), s) (ph (k x), s')) ->
  exec p s = Some (a, s') -> timer_reachable E (ph p, s) -> timer_reachable E (ph (Ret a), s').
Proof.
  intros Hph. revert s. induction p as [b|o k IH]; intros s He Hr; cbn in He; [by simplify_eq|].
  destruct (do_op o s) as [[x s1]|] eqn:Hd; [|done]. apply (IH x s1 He). eapply tr_step; [done|]. by apply Hph, do_op_step.
Qed.

(** Idle again after a message, and after the scheduler's turns. *)
Definition idle (s : Shared) : Prop := timer_reachable E (Serving (Ret ()) Sleeping, s).

Lemma idle_started t s : exec (timer_main E) (mkShared ∅ [] ∅ t 0 []) = Some (true, s) -> idle s.
Proof.
  intros He. eapply tr_step; [|constructor]. apply (exec_steps Starting _ _ _ _ (st_boot E) He). eapply tr_step; [apply tr_new|constructor].
Qed.

Lemma idle_message m s s' : idle s -> exec (handleMessage E m) s = Some ((), s') -> idle s'.
Proof.
  intros Hs He. apply (exec_steps (fun sv => Serving sv Sleeping) _ _ _ _ (fun o k => st_server E o k Sleeping) He).
  eapply tr_step; [exact Hs|constructor].
Qed.

Lemma idle_later t s : (clock s <= t)%Z -> idle s -> idle (set_clock t s).
Proof. intros Ht Hs. eapply tr_step; [exact Hs|by constructor]. Qed.

Lemma idle_fired s s1 s2 : idle s -> exec (processDue E (clock s)) s = Some (true, s1) ->
  exec (processDue E (clock s)) s1 = Some (false, s2) -> idle s2.
Proof.
  intros Hs H1 H2. pose (turn p := Serving (Ret ()) (Working (clock s) p)).
  assert (forall o k s x s', op_step E o s x s' -> timer_step E (turn (Act o k), s) (turn (k x), s')) as Hturn by (intros; by constructor).
  assert (timer_reachable E (turn (processDue E (clock s)), s)) as Hr by (eapply tr_step; [exact Hs|constructor]).
  apply (exec_steps turn _ _ _ _ Hturn H1) in Hr. eapply tr_step; [|apply st_rest].
  apply (exec_steps turn _ _ _ _ Hturn H2). eapply tr_step; [exact Hr|constructor].
Qed.

End Run.
End TimerRun.

Module TimerExamples.
Import TimerRun.

(** A workflow node schedules a timer of a minute; it comes due, and fires. *)
Definition request : timerScheduleRequest := mkScheduleReq None (Some 60000%Z) None (Some "wf:wfi:1::remind") "" None None "".

Definition env : TimerEnv :=
  mkTimerEnv (fun _ => true) (fun _ => Some request) (fun _ => None) (fun _ => None) (fun _ => None) (fun _ => None) (fun _ => None)
    (fun r => r) (fun _ _ _ => NoNext) (fun n => String "t" (WfExamples.tally n)) (fun _ => Some 1%Z) (fun _ _ => "{}") (fun _ => "{}") "SY.timer@h1".

Lemma timer_env_unique : forall n k, new_uuid env n = new_uuid env k -> n = k.
Proof. intros n k [= H]. by apply WfExamples.tally_inj. Qed.

Definition asks : Msg :=
  mkMessage (mkRouting "uuid-wf" (Some "WF.help@h1") (Unicast "uuid-t") 16 "t1")
    (mkMeta "system" (Some "TIMER_SCHEDULE") None None None None None None None None None None None None None None false) "{}".

Definition after {A} (x : option (A * Shared)) (s : Shared) : Shared := match x with Some (_, s') => s' | None => s end.

Definition born : Shared := mkShared ∅ [] ∅ 0 0 [].
Definition started : Shared := after (exec env (timer_main env) born) born.
Definition scheduled : Shared := after (exec env (handleMessage env asks) started) started.
Definition due : Shared := set_clock 60000 scheduled.
Definition went : Shared := after (exec env (processDue env 60000) due) due.

Lemma scheduled_idle : idle env scheduled.
Proof.
  apply (idle_message env asks started); [|by vm_compute]. apply (idle_started env 0). by vm_compute.
Qed.

Lemma went_idle : idle env went.
Proof.
  apply (idle_fired env due went); [apply idle_later; [by vm_compute|apply scheduled_idle]|by vm_compute..].
Qed.

(** The row of the timer, and what was fired. *)
Definition row : timerRow := mkTimer "t" "WF.help@h1" "WF.help@h1" (Some "wf:wfi:1::remind") oneshot 60000 None None "fire" None "{}" None pending 0 None 0.




Lemma pending_shots_queued_witness : (exists e, e ∈ heap scheduled /\ e_timer e = "t" /\ e_retry e = None
     /\ (e_fire_at e <= 60000 \/ e_fire_at e <= clock scheduled + storageRetryDelay_ms)%Z) \/ ReadFailed "t" ∈ log scheduled.
Proof. apply (pending_shots_queued env timer_env_unique scheduled "t" row scheduled_idle); by vm_compute. Defined.

Lemma timer_ref_through_timers_witness :
  (normalizeClientRef (Some (ref_sent "wfi:1" "remind")) ≫= parseTimerClientRef = Some ("wfi:1", "remind")
   <-> Prelude.trim_end "remind" = "remind" /\ (String.length (timerClientRef "wfi:1" "remind") <= 255)%nat)
  /\ normalizeClientRef (Some (ref_sent "wfi:1" "remind")) ≫= parseTimerClientRef = Some ("wfi:1", "remind").
Proof. split; [|by vm_compute]. apply (timer_ref_through_timers "wfi:1" "remind"); by vm_compute. Defined.

(** A workflow node whose clock is at zero moves a timer to a minute from then. *)
Definition minute_env : Env () :=
  mkEnv () (fun _ => Some (JObj [])) (fun _ => Some "{}") (fun _ => Some "{}") (fun _ => None) (fun _ => None) (fun _ => None)
    (fun _ => Some "m") (fun _ => None) (fun _ => None) (fun _ => "") (fun _ _ _ _ => true) (fun _ _ _ _ _ => None)
    (fun _ _ => None) (fun _ => None) (fun bytes => bytes) (fun _ => Some minTimerDuration) (fun _ => None) (fun s => s) WfExamples.tally
    "WF.help@h1" "uuid-wf" "" (fun _ => None) (fun _ _ => JNull) (fun m => m).

Definition minute : TimerSpec := mkTimerSpec "remind" (JStr "60s") JNull "" None.
Definition inst := NewInstance minute_env WfExamples.asking "h" "wfi:1" [] 0 asks.

Lemma workflow_times_at_timers_witness :
  ((0 < minTimerDuration)%Z -> (ms_of minTimerDuration <= maxTimerDelay_ms)%Z ->
   oneShotFireAt None (Some (ms_of minTimerDuration)) 1 = inl (1 + ms_of minTimerDuration)%Z)
  /\ (0 + minTimerDuration <= minTimerDuration)%Z
  /\ (oneShotFireAt (Some (ms_of minTimerDuration)) None 1 = inl (ms_of minTimerDuration)
      <-> (1 + MinTimerDuration_ms <= ms_of minTimerDuration <= 1 + maxTimerDelay_ms)%Z).
Proof.
  apply (workflow_times_at_timers minute_env minute inst asks 0 minTimerDuration minTimerDuration 1); by vm_compute.
Defined.

End TimerExamples.
