(* ===== verification/SyTimerPages.v ===== *)
(** * Lists of timers, a page at a time

    SY.timer answers a TIMER_LIST with the rows that fit a frame and a cursor to the next; the SDK's
    [List] (src/go/fluxbee-go-sdk/timer_schedule.go) follows the cursors. Together they list what a
    single query would. *)

From Stdlib Require Import ZArith Lia Ascii String.
From stdpp Require Import base list strings gmap pretty.
From S2P Require Import Prelude Protocol Paging WfDef SyTimer SyTimerSafety SyTimerCases.
Open Scope string_scope.
Open Scope timer_scope.

#[local] Abbreviation Msg := (Message string).

(** ** The SDK *)

Definition defaultTimerListLimit : Z := 100.
Definition MaxTimerListLimit : Z := 1000.

(** The loop of [TimerClient.List], with what [ask] answers to a request with this limit and cursor:
    a page and where the next one starts. *)
Fixpoint list_from {A} (fuel : nat) (ask : Z -> string -> option (list A * string)) (limit : Z) (timers : list A)
  (cursor : string) : option (list A) :=
  match fuel with
  | O => None
  | S fuel =>
    match ask (limit - Z.of_nat (length timers))%Z cursor with
    | None => None
    | Some (page, next) =>
      let timers := (timers ++ page)%list in
      if str_is_empty next || match page with [] => true | _ => false end || (limit <=? Z.of_nat (length timers))%Z
      then Some timers
      else list_from fuel ask limit timers next
    end
  end.

(** [TimerClient.List]; a page that is not the last has a row, so there are no more turns than rows. *)
Definition TimerClient_List {A} (ask : Z -> string -> option (list A * string)) (filter_limit : Z) : option (list A) :=
  if ((filter_limit <? 0) || (MaxTimerListLimit <? filter_limit))%Z then None
  else
    let limit := if (filter_limit <=? 0)%Z then defaultTimerListLimit else filter_limit in
    list_from (Z.to_nat limit) ask limit [] "".

Lemma list_from_ext {A} fuel ask ask' limit (timers : list A) cursor : (forall n c, ask n c = ask' n c) ->
  list_from fuel ask limit timers cursor = list_from fuel ask' limit timers cursor.
Proof.
  intros H. revert timers cursor. induction fuel as [|fuel IH]; intros timers cursor; [done|]. cbn. rewrite H.
  destruct (ask' _ _) as [[page next]|]; [|done]. by rewrite IH.
Qed.

(** ** Cursors *)

Lemma each_digit (P : N -> Prop) : Forall P (N.of_nat <$> seq 0 10) -> forall n, (n < 10)%N -> P n.
Proof.
  rewrite Forall_forall. intros H n Hn. apply H, list_elem_of_fmap. exists (N.to_nat n). rewrite N2Nat.id, elem_of_seq. split; [done|lia].
Qed.

Lemma digit_value : forall n, (n < 10)%N ->
  ascii_between 48 57 (pretty_N_char n) = true /\ (Z.of_N (N_of_ascii (pretty_N_char n)) - 48 = Z.of_N n)%Z
  /\ graphic (pretty_N_char n) = true.
Proof. apply each_digit. repeat (apply Forall_cons; split; [by vm_compute|]). by constructor. Qed.

Lemma decimal_pretty x : forall acc s, (0 < x)%N -> exists k, (0 < k)%nat
  /\ decimal acc (pretty_N_go x s) = decimal (acc * 10 ^ Z.of_nat k + Z.of_N x)%Z s.
Proof.
  induction (N.lt_wf_0 x) as [x _ IH]. intros acc s Hx. rewrite pretty_N_go_step by done.
  assert (x = 10 * (x / 10) + x mod 10)%N as Hd by (apply N.div_mod; lia).
  assert (x mod 10 < 10)%N as Hm by (apply N.mod_lt; lia). destruct (digit_value _ Hm) as (H1 & H2 & _).
  assert (forall acc, decimal acc (String (pretty_N_char (x mod 10)) s) = decimal (acc * 10 + Z.of_N (x mod 10)) s) as Hs.
  { intros a. cbn [decimal]. by rewrite H1, H2. }
  destruct (decide (x / 10 = 0)%N) as [Hz|Hz].
  - rewrite Hz, pretty_N_go_0, Hs. exists 1%nat. split; [lia|]. f_equal. lia.
  - destruct (IH (x / 10)%N ltac:(apply N.div_lt; lia) acc (String (pretty_N_char (x mod 10)) s) ltac:(lia)) as (k & Hk & ->).
    rewrite Hs. exists (S k). split; [lia|]. f_equal. rewrite Nat2Z.inj_succ, Z.pow_succ_r by lia. lia.
Qed.

Lemma digits_pretty x : forall s, graphic_str s -> graphic_str (pretty_N_go x s).
Proof.
  induction (N.lt_wf_0 x) as [x _ IH]. intros s Hs. destruct (decide (0 < x)%N) as [Hx|]; [|by replace x with 0%N by lia; rewrite pretty_N_go_0].
  rewrite pretty_N_go_step by done. apply IH; [apply N.div_lt; lia|]. constructor; [|done]. apply digit_value, N.mod_lt. lia.
Qed.

Lemma pretty_head x : forall s, (0 < x)%N -> exists d t, (d < 10)%N /\ pretty_N_go x s = String (pretty_N_char d) t.
Proof.
  induction (N.lt_wf_0 x) as [x _ IH]. intros s Hx. rewrite pretty_N_go_step by done.
  destruct (decide (0 < x / 10)%N) as [Hz|Hz]; [by apply IH; [apply N.div_lt; lia|]|].
  assert (x / 10 = 0)%N as -> by (by apply N.le_0_r, N.nlt_ge). rewrite pretty_N_go_0. eexists _, _. split; [|done]. apply N.mod_lt. lia.
Qed.

Lemma decimal_all x : (0 < x)%N -> decimal 0 (pretty_N_go x "") = Some (Z.of_N x).
Proof. intros Hx. destruct (decimal_pretty x 0 "" Hx) as (k & _ & ->). done. Qed.

Definition int64 (z : Z) : Prop := (- 2 ^ 63 <= z < 2 ^ 63)%Z.

Lemma pretty_pos p : pretty (Z.pos p) = pretty_N_go (N.pos p) "". Proof. done. Qed.
Lemma pretty_neg p : pretty (Z.neg p) = String "-" (pretty_N_go (N.pos p) ""). Proof. done. Qed.

(** What [%d] writes, [ParseInt] reads. *)
Lemma ParseInt_pretty z : int64 z -> ParseInt (pretty z) = Some z.
Proof.
  intros Hz. assert ((- 2 ^ 63 <=? z) && (z <? 2 ^ 63) = true)%Z as Hb by (unfold int64 in Hz; lia).
  destruct z as [|p|p]; [done| |]; rewrite ?pretty_pos, ?pretty_neg; destruct (pretty_head (N.pos p) "" eq_refl) as (d & t & Hd & Ht);
    pose proof (decimal_all (N.pos p) eq_refl) as Hx; rewrite Ht in *.
  - assert (ParseInt (String (pretty_N_char d) t) = match decimal 0 (String (pretty_N_char d) t) with
      | Some z => if ((- 2 ^ 63 <=? z) && (z <? 2 ^ 63))%Z then Some z else None | None => None end) as ->.
    { clear Hx Ht. revert d Hd. apply (each_digit (fun d => ParseInt (String (pretty_N_char d) t) = _)). repeat (apply Forall_cons; split; [done|]). by constructor. }
    rewrite Hx. change (Z.of_N (N.pos p)) with (Z.pos p). by rewrite Hb.
  - unfold ParseInt. cbn [str_is_empty option_map]. rewrite Hx. cbn [option_map]. change (- Z.of_N (N.pos p))%Z with (Z.neg p). by rewrite Hb.
Qed.

Lemma pretty_graphic (z : Z) : graphic_str (pretty z) /\ pretty z <> "".
Proof.
  destruct z as [|p|p]; [by split; [repeat constructor|]|rewrite pretty_pos|rewrite pretty_neg].
  - destruct (pretty_head (N.pos p) "" eq_refl) as (d & t & _ & Ht). split; [apply digits_pretty; constructor|by rewrite Ht].
  - split; [|done]. constructor; [done|]. apply digits_pretty; constructor.
Qed.

Lemma decimal_no_colon s : forall acc z, decimal acc s = Some z -> str_contains s ":" = false.
Proof.
  induction s as [|c s IH]; intros acc z; [done|]. cbn [decimal]. destruct (ascii_between 48 57 c) eqn:Hc; [|done]. intros Hs.
  cbn [str_contains]. destruct (Ascii.eqb_spec c ":") as [->|]; [done|]. by eapply IH.
Qed.

Lemma pretty_no_colon (z : Z) : str_contains (pretty z) ":" = false.
Proof.
  destruct z as [|p|p]; [done| |]; rewrite ?pretty_pos, ?pretty_neg; pose proof (decimal_all (N.pos p) eq_refl) as Hx; [by eapply decimal_no_colon|].
  by apply decimal_no_colon in Hx.
Qed.

(** An id with nothing to trim. *)
Definition plain_uuid (u : string) : Prop := Prelude.trim u = u /\ u <> "".

Lemma app_assoc_str (a b c : string) : a ++ b ++ c = (a ++ b) ++ c.
Proof. induction a as [|x a IH]; [done|]. rewrite !string_app_cons. by f_equal. Qed.

Lemma cursor_parsed r : int64 (FireAtUTC r) -> plain_uuid (UUID r) ->
  parseTimerListCursor (formatTimerListCursor r) = Some (Some (mkCursor (FireAtUTC r) (UUID r))).
Proof.
  intros Hz [Ht Hu]. unfold parseTimerListCursor, formatTimerListCursor. destruct (pretty_graphic (FireAtUTC r)) as [Hg Hn].
  assert (Prelude.trim (pretty (FireAtUTC r) ++ ":" ++ UUID r) = pretty (FireAtUTC r) ++ ":" ++ UUID r) as ->.
  { rewrite <- Ht. rewrite (app_assoc_str (pretty (FireAtUTC r)) ":"). apply trim_prefixed; [by destruct (pretty _)|]. unfold graphic_str in *.
    rewrite list_ascii_app. apply Forall_app. split; [done|]. by repeat constructor. }
  destruct (str_is_empty _) eqn:He; [by destruct (pretty (FireAtUTC r))|].
  change (":" ++ UUID r) with (String ":" (UUID r)).
  rewrite split_once_none_app by apply pretty_no_colon. rewrite ParseInt_pretty by done. rewrite Ht. by destruct (UUID r).
Qed.

(** ** A page *)

Section Pages.
Context (E : TimerEnv).
Implicit Types (s : Shared).

#[local] Abbreviation row_key := (fun r => (FireAtUTC r, UUID r)).
#[local] Abbreviation key_cmp := (cursor_cmp String.compare).

(** The rows a list is of, in the order it lists them. *)
Definition wanted (owner : string) (status : option TimerStatus) (r : timerRow) : bool :=
  (str_is_empty owner || (OwnerL2Name r =s owner)) && match status with Some st => bool_decide (Status r = st) | None => true end.

Definition whole_list owner status s : list timerRow := in_order row_key key_cmp (List.filter (wanted owner status) (timer_rows s)).

Definition key_of (c : timerListCursor) : Z * string := (c_fire_at c, c_uuid c).

Lemma filter_filter {A} (P Q R : A -> bool) l : (forall x, P x = Q x && R x) -> List.filter P l = List.filter R (List.filter Q l).
Proof.
  intros H. induction l as [|x l IH]; [done|]. cbn. rewrite H. destruct (Q x); cbn; [by destruct (R x); rewrite IH|done].
Qed.

Lemma listTimers_fetch owner status limit after s : (1 <= limit <= 1000)%Z ->
  listTimers owner status limit after s
  = fetch row_key key_cmp (key_of <$> after) (Z.to_nat limit) (List.filter (wanted owner status) (timer_rows s)).
Proof.
  intros Hl. unfold listTimers, fetch, in_order. rewrite (proj2 (Z.leb_gt limit 0)) by lia. rewrite Z.gtb_ltb, (proj2 (Z.ltb_ge 1000 limit)) by lia.
  f_equal. unfold by_fire_time. f_equal. apply filter_filter. intros r. unfold wanted. f_equal. destruct after as [[t u]|]; [|done].
  cbn. unfold cursor_cmp, then_with, key_of. cbn [fst snd c_fire_at c_uuid]. destruct (Z.compare_spec (FireAtUTC r) t) as [->|?|?].
  - rewrite Z.ltb_irrefl, Z.eqb_refl. done.
  - rewrite (proj2 (Z.ltb_ge t (FireAtUTC r))), (proj2 (Z.eqb_neq (FireAtUTC r) t)) by lia. done.
  - by rewrite (proj2 (Z.ltb_lt t (FireAtUTC r))) by lia.
Qed.

(** Some of the rows, in order, with the cursor of the last of them when some are left. *)
Lemma list_page_some rows last bytes : (forall r, r ∈ rows -> is_Some (info_bytes E r)) ->
  exists page rest cursor, list_page E rows last bytes = Some (page, cursor) /\ rows = (page ++ rest)%list
    /\ ((cursor = "" /\ rest = []) \/ exists x l, cursor = formatTimerListCursor x /\ (option_list last ++ page = l ++ [x])%list).
Proof.
  revert last bytes. induction rows as [|r rows IH]; intros last bytes Hr; [exists [], [], ""; auto|].
  destruct (Hr r) as [n Hn]; [by left|]. cbn [list_page]. rewrite Hn.
  destruct (IH (Some r) (bytes + n + 1)%Z) as (page & rest & cursor & Hp & Hrows & Hc); [intros ? ?; apply Hr; by right|].
  assert (exists page rest cursor, option_map (fun '(l, c) => (r :: l, c)) (list_page E rows (Some r) (bytes + n + 1)) = Some (page, cursor)
    /\ r :: rows = (page ++ rest)%list
    /\ ((cursor = "" /\ rest = []) \/ exists x l, cursor = formatTimerListCursor x /\ (option_list last ++ page = l ++ [x])%list)) as Hgo.
  { exists (r :: page), rest, cursor. rewrite Hp. split_and!; [done|cbn; by f_equal|]. destruct Hc as [?|(x & l & Hx & Hl)]; [by left|].
    right. exists x, (option_list last ++ l)%list. split; [done|]. rewrite <- app_assoc. f_equal. exact Hl. }
  destruct last as [before|]; [|done]. destruct (_ <? _)%Z; [|done]. exists [], (r :: rows), (formatTimerListCursor before).
  split_and!; [done..|]. right. by exists before, [].
Qed.

(** What SY.timer answers to a request for a page. *)
Definition timer_page owner status s (limit : Z) (cursor : string) : option (list timerRow * string) :=
  match parseTimerListCursor cursor with
  | Some after => list_page E (listTimers owner status limit after s) None 0
  | None => None
  end.

Section Loop.
Context (owner : string) (status : option TimerStatus) (s : Shared).
Hypothesis keys : NoDup (row_key <$> List.filter (wanted owner status) (timer_rows s)).
Hypothesis rows_ok : forall r, r ∈ timer_rows s -> int64 (FireAtUTC r) /\ plain_uuid (UUID r) /\ is_Some (info_bytes E r).

Lemma listed_ok r : r ∈ whole_list owner status s -> int64 (FireAtUTC r) /\ plain_uuid (UUID r) /\ is_Some (info_bytes E r).
Proof. intros [Hr _]%elem_of_in_order%list_elem_of_In%filter_In. by apply rows_ok, list_elem_of_In. Qed.

(** The page from the cursor of what was listed so far. *)
Lemma page_follows n limit cursor : (1 <= limit <= 1000)%Z ->
  (n = 0%nat /\ cursor = "") \/ (exists l x, take n (whole_list owner status s) = (l ++ [x])%list /\ cursor = formatTimerListCursor x) ->
  timer_page owner status s limit cursor = list_page E (take (Z.to_nat limit) (drop n (whole_list owner status s))) None 0.
Proof.
  intros Hl Hc. unfold timer_page. destruct Hc as [[-> ->]|(l & x & Hx & ->)].
  - change (parseTimerListCursor "") with (Some (@None timerListCursor)). cbv iota beta. rewrite listTimers_fetch by done.
    cbn [fmap option_fmap option_map]. by rewrite fetch_first.
  - assert (whole_list owner status s = (l ++ x :: drop n (whole_list owner status s))%list) as Hw.
    { rewrite <- (take_drop n (whole_list owner status s)) at 1. rewrite Hx, <- app_assoc. done. }
    destruct (listed_ok x) as (Hz & Hu & _); [rewrite Hw; apply elem_of_app; right; left|].
    rewrite cursor_parsed by done. cbv iota beta. rewrite listTimers_fetch by done. cbn [fmap option_fmap option_map key_of c_fire_at c_uuid].
    f_equal. exact (fetch_after row_key key_cmp _ l x _ _ keys Hw).
Qed.

Lemma list_from_all limit : (1 <= limit <= 1000)%Z -> forall fuel n cursor, (n < Z.to_nat limit)%nat -> (Z.to_nat limit - n <= fuel)%nat ->
  (n <= length (whole_list owner status s))%nat ->
  (n = 0%nat /\ cursor = "") \/ (exists l x, take n (whole_list owner status s) = (l ++ [x])%list /\ cursor = formatTimerListCursor x) ->
  list_from fuel (timer_page owner status s) limit (take n (whole_list owner status s)) cursor
  = Some (take (Z.to_nat limit) (whole_list owner status s)).
Proof.
  intros Hl. induction fuel as [|fuel IH]; intros n cursor Hn Hf Hw Hc; [lia|]. set (L := whole_list owner status s) in *.
  cbn [list_from]. rewrite length_take_le by done. rewrite (page_follows n) by (first [done|lia]). fold L.
  set (rows := take _ (drop n L)). destruct (list_page_some rows None 0) as (page & rest & next & Hp & Hrows & Hnext).
  { intros r Hr. apply listed_ok. eapply (sublist_subseteq rows L); [|done]. unfold rows. etrans; [apply sublist_take|apply sublist_drop]. }
  rewrite Hp. assert (take n L ++ rows = take (Z.to_nat limit) L)%list as Hall.
  { unfold rows. replace (Z.to_nat limit) with (n + Z.to_nat (limit - Z.of_nat n))%nat by lia. by rewrite take_take_drop. }
  destruct Hnext as [[-> ->]|(x & l & -> & Hx)].
  { cbn [str_is_empty orb]. rewrite app_nil_r in Hrows. by rewrite <- Hrows, Hall. }
  cbn in Hx. subst page. destruct (str_is_empty (formatTimerListCursor x)) eqn:He.
  { unfold formatTimerListCursor in He. destruct (pretty_graphic (FireAtUTC x)) as [_ Hne]. by destruct (pretty (FireAtUTC x)). }
  assert (take n L ++ l ++ [x] = take (n + length (l ++ [x])) L /\ n + length (l ++ [x]) <= length L /\ n + length (l ++ [x]) <= Z.to_nat limit)%list%nat
    as (Ht & Hle & Hle').
  { rewrite Hrows in Hall.
    assert (L = (take n L ++ l ++ [x]) ++ rest ++ drop (Z.to_nat limit) L)%list as HL
      by (rewrite <- (take_drop (Z.to_nat limit) L) at 1; rewrite <- Hall; by rewrite !app_assoc).
    pose proof (f_equal length HL) as H1. pose proof (f_equal length Hall) as H2.
    rewrite !length_app, length_take_le in H1 by done. rewrite !length_app, length_take_le, length_take in H2 by done.
    rewrite length_app. split_and!; [|cbn in *; lia..]. rewrite HL at 2. symmetry. apply take_app_length'.
    rewrite !length_app, length_take_le by done. done. }
  rewrite Ht. assert (match (l ++ [x])%list with [] => true | _ => false end = false) as -> by by destruct l.
  cbn [orb]. rewrite length_take_le by done. destruct (Z.leb_spec limit (Z.of_nat (n + length (l ++ [x])))) as [Hd|Hd].
  - do 2 f_equal. lia.
  - rewrite length_app in *. cbn in *. apply IH; [lia|lia|done|]. right. exists (take n L ++ l)%list, x. split; [|done]. by rewrite <- app_assoc.
Qed.

End Loop.

End Pages.

(** ** Through a run of the node *)

Section Complete.
Context (E : TimerEnv).
Hypothesis uuid_unique : forall n k, new_uuid E n = new_uuid E k -> n = k.
Hypothesis uuid_plain : forall n, plain_uuid (new_uuid E n).
Implicit Types (s : Shared).

(** The page SY.timer replies with to the request [req] makes of a limit and a cursor. *)
Definition answered (req : Z -> string -> Msg) s (limit : Z) (cursor : string) : option (list timerRow * string) :=
  match TimerRun.exec E (respondTimerList E (req limit cursor)) s with
  | Some (_, s') => match last (log s') with Some (Replied _ (AListed _ page next)) => Some (page, next) | _ => None end
  | None => None
  end.

(** The requests of a node for its own timers, as SY.timer reads them. *)
Definition asks_own (req : Z -> string -> Msg) (owner status : string) : Prop :=
  forall limit cursor, sourceL2Name (req limit cursor) = owner /\ msg_payload (req limit cursor) <> ""
    /\ read_list_request E (msg_payload (req limit cursor)) = Some (mkListReq owner status limit cursor).

Lemma answered_page req owner status st s limit cursor : asks_own req owner status ->
  owner <> "" -> Prelude.trim owner = owner -> isCanonicalL2Name owner = true -> read_status (Prelude.trim status) = Some st ->
  answered req s limit cursor = timer_page E owner st s limit cursor.
Proof.
  intros Hreq Hne Ht Hc Hst. destruct (Hreq limit cursor) as (Hm & Hp & Hq). unfold answered, respondTimerList, timer_page.
  set (m := req limit cursor) in *. destruct (str_is_empty (msg_payload m)) eqn:He; [by destruct (msg_payload m)|].
  rewrite Hq. cbn [q_owner q_status q_cursor q_limit]. rewrite Ht, Hst, Hc, Hm. cbv zeta. rewrite andb_false_r.
  assert (str_is_empty owner = false) as -> by by destruct owner. rewrite andb_false_r.
  assert (mayRead m owner = true) as -> by (unfold mayRead; rewrite Hm, String.eqb_refl; by destruct owner). rewrite andb_false_r.
  destruct (parseTimerListCursor cursor) as [after|]; cbn [TimerRun.exec TimerRun.do_op];
    [destruct (list_page E _ None 0) as [[page next]|]|]; unfold sendTimerError, sendTimerResponse;
    cbn [log add_log TimerRun.exec TimerRun.do_op]; by rewrite last_snoc.
Qed.

Lemma row_keys_distinct s p : (forall u r, db s !! u = Some r -> UUID r = u) ->
  NoDup ((fun r => (FireAtUTC r, UUID r)) <$> List.filter p (timer_rows s)).
Proof.
  intros Hk. apply (NoDup_fmap_1 snd). rewrite <- list_fmap_compose.
  assert (NoDup (UUID <$> timer_rows s)) as Hn.
  { unfold timer_rows. replace (UUID <$> map snd (map_to_list (db s))) with ((map_to_list (db s)).*1); [apply NoDup_fst_map_to_list|].
    change (map snd (map_to_list (db s))) with ((map_to_list (db s)).*2). rewrite <- list_fmap_compose. apply list_fmap_ext.
    intros i [u r] Hi. cbn. symmetry. apply Hk, elem_of_map_to_list, list_elem_of_lookup. by exists i. }
  eapply sublist_NoDup; [exact Hn|]. apply fmap_sublist. clear. induction (timer_rows s) as [|r l IH]; [done|]. cbn.
  destruct (p r); by constructor.
Qed.

(** A node that lists its timers with the SDK gets the ones of the status it asks for, up to the limit,
    in the order of their times and ids, each once and none left out, however many pages SY.timer answers
    in, as long as they do not change meanwhile. *)
Theorem timer_list_complete ph s req owner status st limit : timer_reachable E (ph, s) -> asks_own req owner status ->
  owner <> "" -> Prelude.trim owner = owner -> isCanonicalL2Name owner = true -> read_status (Prelude.trim status) = Some st ->
  (forall r, r ∈ timer_rows s -> int64 (FireAtUTC r) /\ is_Some (info_bytes E r)) -> (0 <= limit <= 1000)%Z ->
  TimerClient_List (answered req s) limit
  = Some (take (Z.to_nat (if (limit <=? 0)%Z then 100 else limit)) (whole_list owner st s)).
Proof.
  intros Hr Hreq Hne Ht Hc Hst Hrows Hl. assert (Inv E s) as Hi by by eapply reachable_Inv.
  unfold TimerClient_List, MaxTimerListLimit, defaultTimerListLimit. rewrite (proj2 (Z.ltb_ge limit 0)), (proj2 (Z.ltb_ge 1000 limit)) by lia.
  cbn [orb]. set (lim := if (limit <=? 0)%Z then _ else _). assert (1 <= lim <= 1000)%Z as Hlim by (unfold lim; destruct (Z.leb_spec limit 0); lia).
  rewrite (list_from_ext _ _ (timer_page E owner st s)) by (intros; by eapply answered_page).
  apply (list_from_all E owner st s) with (n := 0%nat); [| |lia..|by left].
  - apply row_keys_distinct. intros u r Hu. by eapply v_rows.
  - intros r Hin. destruct (Hrows r Hin). split_and!; [done| |done].
    apply list_elem_of_fmap in Hin as ([u r'] & -> & Hu%elem_of_map_to_list). cbn [snd].
    destruct (v_rows E s Hi u r' Hu) as [_ (r0 & Hr0 & (-> & _)%ident_parts)].
    destruct (v_inserted E s Hi r0 Hr0) as [(n & _ & ->) _]. apply uuid_plain.
Qed.

End Complete.

(** ** A list of two pages *)

Module PageExamples.
Import TimerRun TimerExamples.

(** A codec of list requests: the limit in unary, and the cursor. *)
Definition encoded (limit : Z) (cursor : string) : string :=
  (if (limit <? 0)%Z then "-" else "+") ++ WfCases.WfExamples.tally (Z.to_nat (Z.abs limit)) ++ String "/" cursor.

Fixpoint unary (n : Z) (s : string) : option (Z * string) :=
  match s with
  | String c r => if Ascii.eqb c "x" then unary (n + 1) r else Some (n, r)
  | EmptyString => None
  end.

Definition decoded (s : string) : option timerListRequest :=
  match s with
  | String c r => option_map (fun p => mkListReq "WF.help@h1" "pending" (if Ascii.eqb c "-" then - p.1 else p.1)%Z p.2) (unary 0 r)
  | EmptyString => None
  end.

Lemma unary_tally k cursor : forall n, unary n (WfCases.WfExamples.tally k ++ String "/" cursor) = Some ((n + Z.of_nat k)%Z, cursor).
Proof.
  induction k as [|k IH]; intros n; [cbn; by rewrite Z.add_0_r|]. cbn [WfCases.WfExamples.tally]. rewrite string_app_cons.
  cbn [unary]. change (Ascii.eqb "x" "x") with true. cbv iota. rewrite IH. do 2 f_equal. lia.
Qed.

Lemma decoded_encoded limit cursor : decoded (encoded limit cursor) = Some (mkListReq "WF.help@h1" "pending" limit cursor).
Proof.
  assert (forall c x, String c "" ++ x = String c x) as Ha by done. unfold encoded.
  destruct (Z.ltb_spec limit 0); rewrite Ha; cbn [decoded]; rewrite unary_tally; cbn; do 2 f_equal; lia.
Qed.

(** Two timers of a size that no page takes both. *)
Definition list_env : TimerEnv :=
  mkTimerEnv (fun _ => true) (fun _ => Some (mkScheduleReq None (Some 60000%Z) None None "" None None "")) (fun _ => None) (fun _ => None)
    (fun _ => None) decoded (fun _ => None) (fun r => r) (fun _ _ _ => NoNext) (fun n => String "t" (WfCases.WfExamples.tally n))
    (fun _ => Some 60000%Z) (fun _ _ => "{}") (fun _ => "{}") "SY.timer@h1".

Definition lists (limit : Z) (cursor : string) : Msg := mkMessage (routing asks) (meta asks) (encoded limit cursor).

Definition none_yet : Shared := after (exec list_env (timer_main list_env) born) born.
Definition first_one : Shared := after (exec list_env (handleMessage list_env asks) none_yet) none_yet.
Definition first_two : Shared := after (exec list_env (handleMessage list_env asks) first_one) first_one.

Lemma first_two_idle : idle list_env first_two.
Proof.
  apply (idle_message list_env asks first_one); [|by vm_compute]. apply (idle_message list_env asks none_yet); [|by vm_compute].
  apply (idle_started list_env 0). by vm_compute.
Qed.

Lemma list_env_unique : forall n k, new_uuid list_env n = new_uuid list_env k -> n = k.
Proof. intros n k [= H]. by apply WfCases.WfExamples.tally_inj. Qed.

Lemma tally_plain n : plain_uuid (String "t" (WfCases.WfExamples.tally n)).
Proof.
  split; [|done]. assert (forall a : string, a ++ Prelude.trim "" = a) as Hn
    by (intros a; induction a as [|c a IH]; [done|]; rewrite string_app_cons; by f_equal).
  rewrite <- (Hn (String "t" _)). apply trim_prefixed; [done|]. constructor; [done|]. induction n; [constructor|by constructor].
Qed.

Lemma timer_list_complete_witness :
  TimerClient_List (answered list_env lists first_two) 10
  = Some (take (Z.to_nat (if (10 <=? 0)%Z then 100 else 10)) (whole_list "WF.help@h1" (Some pending) first_two))
  /\ map UUID (whole_list "WF.help@h1" (Some pending) first_two) = ["t"; "tx"]
  /\ option_map (fun p => length p.1) (answered list_env lists first_two 10 "") = Some 1%nat.
Proof.
  split; [|by vm_compute]. eapply (timer_list_complete list_env list_env_unique tally_plain _ first_two lists "WF.help@h1" "pending" (Some pending) 10 first_two_idle).
  - intros limit cursor. split_and!; [done|cbn [lists msg_payload]; unfold encoded; by destruct (limit <? 0)%Z|apply decoded_encoded].
  - done.
  - by vm_compute.
  - by vm_compute.
  - by vm_compute.
  - intros r Hr.
    assert (forallb (fun r => (0 <=? FireAtUTC r) && (FireAtUTC r <? 2 ^ 63))%Z (timer_rows first_two) = true) as Hf by by vm_compute.
    rewrite forallb_forall in Hf. apply list_elem_of_In in Hr. specialize (Hf r Hr). clear Hr. split; [unfold int64; lia|by exists 60000%Z].
  - lia.
Defined.

End PageExamples.
